(* ===== verification/_CoqProject ===== *)
-Q . S2P
Prelude.v
RustStr.v
Words.v
Utf8.v
Regex.v
Nsid.v
ProxyConfig.v
UrlCoding.v
ScopeSyntax.v
ScopeResources.v
ScopePermissions.v
ScopeInclude.v
Json.v
ClientScopes.v
LinkedScope.v
ScopeCheck.v
Star.v
Cid.v
StreamEvent.v
Watermark.v
ReplayFold.v
Workers.v
LiveApply.v
ArchiveRows.v
Segment.v
Tid.v
LtHash.v
PluginGraph.v
PluginRegistry.v
RecordCodec.v
Tombstones.v
RecordStore.v
DbErrors.v
Ingest.v
Decimal.v
SpaceTypes.v
SpaceOplog.v
SpaceCommit.v
SpaceWriters.v
SpaceDb.v
SpaceMembers.v
SpaceWrites.v
SpaceRepo.v
Lexicon.v
XrpcValidate.v
XrpcRefs.v
Jobs.v
JobRuns.v
Outbound.v
Limits.v
Permissions.v
Admin.v
AdminPower.v
PluginSandbox.v
GuestMemory.v
MetricsWindow.v
GuestClock.v
SqlGuard.v
