(* ===== verification/Prelude.v ===== *)
(** * HappyView: a verification development

    HappyView (repository [happyview]) is an AT Protocol application server: it
    indexes a stream of repository events, serves and proxies XRPC requests,
    and guards them with the protocol's OAuth scope grammar.  This development
    models the parts of the Rust implementation that carry its own logic and
    proves what makes them correct.  Rust strings are their UTF-8 bytes, [Vec]s
    are lists, [Option] and [Result] are [option] and [result], machine
    integers are [Z] kept in range with the source's wrap-around written out,
    and loops are structural recursion over the collection they walk, or a
    bounded number of rounds where the source bounds them.

    ** The program's parts and the files

    - [Prelude] (this file): notations ([=s], [=c], [let?], [let!]), the
      [result] type, the tactics [break_match], [literals] and [bool_prop], the hint
      database [hv], the iterator adaptors the sources use, and the bounded
      loop [iter_until] with its rules.
    - [RustStr]: the methods of [str] the sources call ([find], [rfind],
      [split], [split_once], [strip_prefix], [split_whitespace] with Unicode
      white space on UTF-8 bytes, [trim], ...), each with lemmas that
      characterise it.
    - [Words]: bytes, 16- and 64-bit wrap-around, masks and shifts as
      arithmetic.
    - [Utf8]: validity of UTF-8 and [from_utf8_lossy].
    - [Regex]: the fragment of regular expressions used, its language, the
      interface [RegexEngine]/[RegexEngineSpec] that stands for the crate
      [regex], and a derivative matcher that implements it.
    - [Nsid]: [crates/happyview-nsid/src/lib.rs].  [validate_nsid],
      [validate_nsid_pattern], [nsid_authority].
    - [ProxyConfig]: [src/proxy_config.rs].  Which methods the XRPC proxy
      forwards.
    - [UrlCoding]: the interface of the crate [urlencoding] and a concrete
      codec that satisfies it.
    - [ScopeSyntax], [ScopeResources], [ScopePermissions], [ScopeInclude]:
      [crates/happyview-scopes/src/{syntax,resources,lib,include}.rs].  The
      scope grammar; the [repo], [rpc], [blob], [identity], [account] and
      [space] permissions; what a set of granted scopes allows ([allows_*]) and
      covers ([covers_scope]); the expansion of permission sets.
    - [Json]: the accessors of [serde_json::Value].
    - [ClientScopes]: the scope side of [src/oauth/client_auth.rs]
      ([validate_scopes], [expand_permission_set], [lex_permission]) and
      [src/auth/admin_scope.rs] with its permission-set document.  The lexicon
      catalogue is a function from NSIDs to documents.
    - [LinkedScope]: [src/linked_repos/scope.rs], the guards of
      [src/linked_repos/pds.rs] and the grant validation of
      [src/admin/linked_repos.rs].
    - [ScopeCheck]: [src/xrpc/scope_check.rs].
    - [Star]: [crates/happyview-star/src/lib.rs].  A reader's input is the
      bytes it will deliver and whether the read after them fails; the DAG-CBOR
      codec of the metadata is the interface [DagCbor]/[DagCborSpec].
    - [Cid]: [crates/happyview-provider/src/cid.rs].  Records between JSON and
      DAG-CBOR and the CID check; the crates [serde_ipld_dagcbor], [cid] and
      [base64] are interfaces with concrete instances, SHA-256 a parameter.
    - [StreamEvent]: the types of [consumer/event.rs] (in
      [crates/happyview-source-jetstream/src], as the files below) and of
      [crates/happyview-provider/src/types.rs], and the provider's view of the
      host as the interface [Host], with [HostLog] for hosts whose state tells
      what they were handed.
    - [Watermark]: [consumer/watermark.rs].  The operations under the mutex are
      functions on the state, a concurrent run is a sequence of them, and
      [wait_idle] is a step relation beside them.
    - [ReplayFold]: [backfill/replay_fold.rs].  The buffer in front of the host
      in a replay.
    - [Workers]: [consumer/workers.rs].  The reader and the workers are tasks
      that take labelled steps ([step]) on the pool, the queues and the
      watermark; the outcomes of attempts are part of the labels.
    - [LiveApply]: [consumer/apply.rs].  What a live event is handed to the
      host as and what its answer means to the worker.
    - [ArchiveRows]: [archive/rows.rs] and [fold_rows] of [backfill/replay.rs].
    - [Segment]: [archive/segment.rs].  The index and the blocks of a segment
      file; the zstd decoder is an interface, and a slice out of range is the
      panic it is in Rust.
    - [Tid]: [crates/happyview-plugin-sdk/src/tid.rs].
    - [LtHash]: [src/spaces/lthash.rs].  BLAKE3 and SHA-256 are parameters.
    - [PluginGraph]: [src/plugin/graph.rs].  Dependency checks and load order.
    - [PluginRegistry]: the registry of [src/plugin/mod.rs] with the
      prepared-artifact cache of [src/plugin/prepared.rs]; SHA-256 is a
      parameter, a shared plugin is an address with its value.
    - [RecordCodec]: [src/record_store/codec.rs]; [chrono]'s calendar is the
      interface [Chrono]/[ChronoSpec], with the Gregorian calendar as instance.
    - [Tombstones]: the record tables, and [src/tombstones.rs] on them.
    - [RecordStore]: [src/record_store/mod.rs] without external storage, and
      the purge loop.  Every transaction is a function on the tables; [op],
      [exec] and [run] are histories of transactions.
    - [DbErrors]: the error classes and retries of
      [crates/happyview-provider/src/db.rs].
    - [Ingest]: [src/ingest.rs] without external storage.  The state holds the
      errors the database will give to the next attempts; hooks, catalog, PDS
      and labeler are parameters.
    - [Decimal]: the [Display] and [FromStr] of [i32].
    - [SpaceTypes]: the URIs, modes, access and row types of [src/spaces]
      ([mod.rs], [host_mode.rs], [types.rs]).
    - [SpaceOplog]: [spaces/oplog.rs]: the operation log, its cursors and pages,
      and a reader that follows the cursors.
    - [SpaceCommit]: [spaces/commit.rs], and in its module [SpaceMac]
      [spaces/space_mac.rs]; HKDF, HMAC and ECDSA are parameters.
    - [SpaceWriters]: [spaces/writers.rs]: the table that sequences writers.
    - [SpaceDb]: the tables of [spaces/db.rs] as one record [SpaceDb] and a
      function per statement, with the constraints a statement can fail on.
    - [SpaceMembers]: [spaces/members.rs], and the membership, policy, minting
      and invite operations of [spaces/service.rs] and [spaces/auth.rs].
    - [SpaceWrites]: the write path of [spaces/service.rs], [apply_writes] of
      [spaces/routes.rs] and [spaces/rebuild.rs].  A transaction is a function
      that an error undoes; [serve] runs a request and [serve_all] a history.
    - [SpaceRepo]: what histories of writes keep true of repositories.
    - [Lexicon]: [src/lexicon/validate.rs] and [src/lexicon/mod.rs].  A check
      answers the issues it finds and the refs it has seen, in order.
    - [XrpcValidate]: [src/xrpc/validate.rs].  Parameters, bodies and string
      formats; the parsers of CIDs and dates, the grapheme count and the text
      of a JSON value are parameters.
    - [XrpcRefs]: what becomes of refs in that walk.
    - [Jobs]: [src/jobs/{db,held,worker}.rs] and [src/admin/jobs.rs].  The
      table of jobs and a function per statement; [exec] interleaves workers,
      renewals, recoveries and operators as labelled steps.
    - [JobRuns]: what those steps keep true, through the machine of one job
      ([job_step]).
    - [Outbound]: [src/outbound.rs].  The screening of outbound connections; a
      shared policy is an index into a store of policies, and the crate [url],
      the resolver and the sockets are parameters.
    - [Limits]: [crates/happyview-provider/src/limits.rs] and [src/limits.rs].
    - [Permissions]: [src/admin/permissions.rs].
    - [Admin]: [src/admin/{auth,users,api_keys,platform}.rs].  The tables of
      users, grants and keys; a handler is a program of atomic statements
      ([prog]) that may fail, and [exec] interleaves the statements of requests.
    - [AdminPower]: what such requests can and cannot do to what credentials are
      worth ([power]).
    - [PluginSandbox]: [src/plugin/{capabilities,loader,secrets,config}.rs], the
      gate of [src/plugin/host/bindings.rs], [src/plugin/host/{http,kv}.rs] and
      the consent of [src/admin/plugins.rs].  A module is what the WebAssembly
      parser says of its imports; the other end of a request is a parameter.
    - [GuestMemory]: how bytes cross into and out of a plugin's memory
      ([bindings.rs], [src/plugin/memory.rs],
      [crates/happyview-plugin-sdk/src/abi.rs]), and the host functions for
      logs, panics, secrets and the key-value store on top of it.
    - [MetricsWindow]: [src/metrics/{window,sketch,stages,ingest}.rs].  The trait
      [Accumulate] is a class with its laws beside it ([AccumulateLaws]).
    - [GuestClock]: [GuestDeadline] of [src/plugin/runtime.rs]; a store under the
      engine's deadlines is a step relation.
    - [SqlGuard]: [src/raw_sql_guard.rs].  What the crate [sqlparser] answers is an
      argument; of a syntax tree there is what the guard matches on.

    The scope files build on each other as the crates do: [ScopeResources]
    parses with [ScopeSyntax] and validates with [Nsid]; [ScopePermissions]
    asks [ScopeResources]; [ScopeInclude] builds its permissions with the
    constructors of [ScopeResources]; [ClientScopes], [LinkedScope] and
    [ScopeCheck] are the clients of all four.  In the Jetstream source, live
    events go through [Workers], whose workers run [LiveApply] and complete
    tickets of [Watermark]; archived rows go through [ArchiveRows] and
    [ReplayFold]; both end at the same [Host].  That host is [Ingest], which
    checks CIDs with [Cid], runs its transactions through [DbErrors] and writes
    with [RecordStore] and [Tombstones], whose rows are in the forms of
    [RecordCodec].  A write to a space is admitted by [SpaceMembers], staged in
    [SpaceDb], folded into the hash of [LtHash], logged in [SpaceOplog], signed
    by [SpaceCommit] and sequenced by [SpaceWriters].  A lexicon accepted by
    [Lexicon] is what [XrpcValidate] checks calls against.  [Admin] asks
    [ClientScopes] whether an app was granted the admin API, [Permissions] for
    the permissions and [Limits] for the seats.  A plugin is loaded and granted
    its capabilities by [PluginSandbox], whose gates [GuestMemory] goes through
    with what it read from the plugin's memory, while [GuestClock] keeps its time.

    ** What the theorems show

    - Scopes: [covers_scope] is sound - a covered scope allows nothing the set
      does not - up to one gap, which is exhibited; permissions are monotone in
      the held scopes; parsed permissions are well formed; space permissions
      are normal forms; [accept_covers] is inclusion of MIME types.
    - Permission sets: what an expanded set allows stays under its own
      authority; the scope strings written for it mean exactly what it allows;
      a token accepted by [validate_scopes] allows nothing beyond the client.
    - Administration: only an explicit grant opens the admin API, and the
      built-in permission set is that grant, whatever the catalogue holds.
    - Linked repositories and forwarded requests: validation accepts exactly
      the meaningful scopes; the advertised union allows exactly what its parts
      allow; a refusal names a scope that suffices (for writes, one that adds
      nothing else); batches are checked write by write.
    - STAR: reading and writing are inverse on all byte strings, lengths have
      one encoding, truncation and trailing bytes are refused, and reading
      ends on every input.
    - Watermark: it refines the specification "last point of the longest
      finished prefix" under every interleaving; an applied position covers
      only finished work; nothing is held back; no wake-up is lost.
    - Worker pool: under every interleaving one account's events are applied in
      order, each after the earlier ones are settled; a saved position covers
      only settled events; the pool can always drain; retries end as the
      policy says, and an unavailable database never uses one up.
    - Replay: every event reaches the host once, in the order that matters to
      each record; rows are kept once across a resumed sweep, become the events
      the live path would have handed on, and carry CIDs that verify.
    - Records: encoding and decoding are inverse up to the spelling of links
      and bytes, and the CID check answers for the encoding.
    - TIDs sort as their values and read back; the set hash is a function of
      the record set and its stored state resumes exactly.
    - Segments: a block decodes exactly to the rows it encodes, the reader
      never panics, and the blocks an index names can be read.
    - Plugins: load order is a topological order exactly when there is no
      cycle, whatever the listing; the registry keeps its invariants under all
      operations and says why when it refuses; artifacts belong to the build
      that made them and the cache keeps its bounds.
    - Record store: under every history of transactions the tables are sound;
      a record whose delete removed a row or left a tombstone stays deleted; the
      newest of distinct versions of a record wins in any order of delivery; what
      batches, purges and sweeps do, exactly; the codec's forms read back.
    - Ingest: a batch that writes no record twice does what its events do one by
      one, each as a function on the tables says; only bodies that passed the CID
      check and their hook are stored, whatever fails; an event is applied once,
      however its attempts fail and are repeated; what account events do and
      block; one outcome per event.
    - Spaces: whatever is written and whatever fails, a repository's hash is the
      hash of its records, its log replays to its index, and a rebuild agrees;
      a reader that follows the cursors ends with every operation once, and so
      with the index while revisions were committed in order; space revisions form a chain and listing writers after
      one gives exactly what changed since; member lists are exact while at
      most ten spaces delegate to each other; losing read access revokes
      credentials; an invite admits no more members than its limit; a verified
      commit is bound to its space, author, revision and hash; URIs and cursors
      read back.
    - Lexicons: [check_document] accepts exactly the sound documents; the
      validator accepts exactly the values that conform; it ends where refs do
      not go in circles; the lexicons loaded for a call are enough; refs inside
      an accepted lexicon resolve; what becomes of parameters, exactly.
    - Jobs: the end of a job is recorded once, by the run of its last claim; a
      stale run changes nothing; a live lease keeps its job; a job that keeps
      losing its worker ends; what a recovery settles, exactly.
    - Outbound connections: after any lookups a peer is let through exactly when
      it is public, named by the configuration, or was resolved from a name the
      configuration trusts, on its port; what is public is a list of blocks.
    - Administration of users: no interleaving of requests raises anyone above
      what the requesters held; a super user remains while requests run one
      after another, whatever fails; authentication and changes of permissions
      do exactly what the tables say; limits in force are the last valid ones.
    - The plugin sandbox: a loaded plugin passes only gates whose capabilities
      the operator accepted; its requests keep their counts, sizes and hosts; its
      key-value calls neither touch nor see what is another's; what the host
      hands it arrives whole; it runs for its budget and no longer.
    - Metrics: a window holds exactly the samples of its time, each once, for
      every lawful bucket; the buckets of runs and of records are lawful.
    - Raw SQL: what passes the table guard, the read-only check and the check of
      writes, exactly; reads are classified as the scoping of CTEs says.
    - Behaviours that differ from the documentation are theorems too:
      [covers_scope_chat_gap], [scalar_action_widens], [mixed_action_widens],
      [swap_cid_narrows], [batch_drops_silently], [overwrite_empties_cache],
      [unchanged_redelivery_forgets_rev], [local_refs_misfiled],
      [last_copies_order], [late_commit_is_lost], [delegation_order_matters],
      [put_member_by_did], [circular_ref_never_ends],
      [documentation_block_too_wide], [delete_races_transfer],
      [unknown_permission_stored], [advertised_length_wraps],
      [env_secrets_shared], [kv_quota_per_run], [empty_region_panics],
      [late_sample_evicts], [wait_outlasts_budget], [last_relation_named].

    ** Bounds and fuel

    [encode_varint_go] runs ten rounds, the most a [u64] needs, and
    [read_varint_go] nine, the source's own cap; [varint_canonical] covers all
    lengths below 2^63, the most a Rust allocation can have.  [collect] is
    given one call per input byte and one more, and [star_reading_ends] shows
    that this is always enough.  TIDs take thirteen rounds as in the source.
    Loops that read or delete until a short batch ([read_capped], the purge and
    the sweep) run [iter_until] for one round more than the bytes or rows there
    are, which their theorems show to be enough; draining the plugin graph,
    walking a cycle and collecting dependents take one round per plugin; base32
    emits at most two digits per byte.  Delegation is followed for the ten
    levels of the source; [read_all] asks for one page more than there are
    operations, which [reading_covers_the_log] shows to be enough.  Walks into
    JSON documents take the size of the document; [check_value], which refs can
    make endless, takes any fuel, and [validator_ends] says how much is enough;
    [load] takes [load_rounds].  Everything else is structural;
    [apply_with_retries], which loops for as long as the database is
    unavailable, runs over the outcomes of its attempts.  Watermark tickets and
    counts of runs and records are not bounded; the source counts them in a
    [u64] within one process.

    ** What is not modelled

    Database access, HTTP, sockets, files and the async runtime (handlers are
    modelled where they decide something before or after such a call); the
    WebAssembly and Lua runtimes; cryptography and hashing; the TypeScript
    packages.  Of the worker pool, the lengths of waits do not delay steps.
    Tables are the rows they hold: SQL text, indexes, locks and the interning
    of DIDs are left out, and a transaction is atomic (in [Ingest] its commit may
    go unconfirmed); one that is rolled back draws no ids.
    Of spaces, tokens and HTTP signatures, notifications, native sync and CAR
    files are left out; where a write goes to the author's PDS, the PDS is a
    parameter.
    Of plugins, the engines themselves and the host functions that only hand
    decoded values to other parts are left out.
    The rate limiter and the quantiles of sketches compute in floating point, and
    the planning of sweeps and collections claimed by an external storage are
    driven by tasks over the network; what remains beside these is wiring of I/O. *)

From stdpp Require Export base tactics option list strings sorting sets.
From Stdlib Require Export Ascii.
From Stdlib Require Import Lia.

(** ** Notations

    Rust strings are UTF-8 byte sequences; a [string] models one by its bytes,
    so [String.length] is [str::len] and every slice index is a byte index. *)

Declare Scope happyview_scope.
Delimit Scope happyview_scope with hv.
Open Scope happyview_scope.

Arguments String.append !_ _ / : simpl nomatch.
#[global] Arguments Ascii.eqb : simpl never.
#[global] Arguments String.eqb : simpl never.

(** Rust's [==] on strings, as a boolean. *)
Notation "x =s y" := (String.eqb x y) (at level 70, no associativity) : happyview_scope.
Notation "x =c y" := (Ascii.eqb x y) (at level 70, no associativity) : happyview_scope.

(** ** Results: Rust's [Result<A, E>] and the [?] operator *)

Inductive result (A E : Type) : Type :=
| Ok (a : A)
| Err (e : E).
Arguments Ok {A E} a.
Arguments Err {A E} e.

Notation "'let?' x := e 'in' k" :=
  (match e with Ok x => k | Err err => Err err end)
  (at level 10, x pattern, e at level 100, k at level 200) : happyview_scope.

(** [?] on a [Result] behind a possible panic, which is [None]. *)
Notation "'let!' x := e 'in' k" :=
  (match e with
   | Some (Ok x) => k
   | Some (Err err) => Some (Err err)
   | None => None
   end)
  (at level 10, x pattern, e at level 100, k at level 200) : happyview_scope.

Definition is_ok {A E} (r : result A E) : bool :=
  match r with Ok _ => true | Err _ => false end.

(** ** Tactics *)

Create HintDb hv.
Create Rewrite HintDb hv.

(** Case analysis on the scrutinee of some [match] or [if] of the goal or of a
    hypothesis, keeping the equation. *)
Ltac break_match :=
  match goal with
  | |- context [match ?x with _ => _ end] => destruct x eqn:?
  | H : context [match ?x with _ => _ end] |- _ => destruct x eqn:?
  end.

(** Comparisons of literals in the goal. *)
Ltac literals :=
  repeat match goal with
  | |- context [String.eqb ?a ?b] =>
      let r := eval vm_compute in (String.eqb a b) in
      lazymatch r with true => idtac | false => idtac end; change (String.eqb a b) with r; cbn match
  end.

(** Boolean hypotheses to propositions. *)
Ltac bool_prop :=
  repeat match goal with
  | H : (_ && _) = true |- _ => apply andb_true_iff in H as [? ?]
  | H : (_ || _) = true |- _ => apply orb_true_iff in H
  | H : (_ || _) = false |- _ => apply orb_false_iff in H as [? ?]
  | H : negb _ = true |- _ => apply negb_true_iff in H
  | H : negb _ = false |- _ => apply negb_false_iff in H
  | H : String.eqb _ _ = true |- _ => apply String.eqb_eq in H
  | H : String.eqb _ _ = false |- _ => apply String.eqb_neq in H
  | H : Ascii.eqb _ _ = true |- _ => apply Ascii.eqb_eq in H
  | H : Ascii.eqb _ _ = false |- _ => apply Ascii.eqb_neq in H
  | H : Nat.leb _ _ = true |- _ => apply Nat.leb_le in H
  | H : Nat.leb _ _ = false |- _ => apply Nat.leb_gt in H
  | H : Nat.ltb _ _ = true |- _ => apply Nat.ltb_lt in H
  | H : Nat.ltb _ _ = false |- _ => apply Nat.ltb_ge in H
  | H : Nat.eqb _ _ = true |- _ => apply Nat.eqb_eq in H
  | H : Nat.eqb _ _ = false |- _ => apply Nat.eqb_neq in H
  end.

(** ** Lists: the iterator adaptors *)

Section Iter.
Context {A B : Type}.

(** [iter().any(..)] and [iter().all(..)] are [existsb] and [forallb];
    [iter().filter_map(..).any(..)]: *)
Definition any_map (f : A -> option B) (p : B -> bool) (l : list A) : bool :=
  existsb p (omap f l).

Lemma any_map_true f p l :
  any_map f p l = true <-> exists x y, x ∈ l /\ f x = Some y /\ p y = true.
Proof.
  unfold any_map. rewrite existsb_exists. setoid_rewrite <- list_elem_of_In.
  setoid_rewrite list_elem_of_omap. naive_solver.
Qed.

Lemma any_map_mono f p l l' :
  l ⊆ l' -> any_map f p l = true -> any_map f p l' = true.
Proof.
  intros Hsub. rewrite !any_map_true. intros (x & y & Hx & Hy & Hp).
  exists x, y. split; [by apply Hsub | done].
Qed.

End Iter.

Lemma existsb_elem {A} (p : A -> bool) l :
  existsb p l = true <-> exists x, x ∈ l /\ p x = true.
Proof. rewrite existsb_exists. by setoid_rewrite <- list_elem_of_In. Qed.

Lemma forallb_elem {A} (p : A -> bool) l :
  forallb p l = true <-> forall x, x ∈ l -> p x = true.
Proof. rewrite forallb_forall. by setoid_rewrite <- list_elem_of_In. Qed.

(** [l.contains(&x)] on a list of strings. *)
Definition str_mem (x : string) (l : list string) : bool := existsb (String.eqb x) l.

Lemma str_mem_true x l : str_mem x l = true <-> x ∈ l.
Proof.
  unfold str_mem. rewrite existsb_elem. setoid_rewrite String.eqb_eq. naive_solver.
Qed.

Lemma str_mem_false x l : str_mem x l = false <-> x ∉ l.
Proof. rewrite <- str_mem_true. destruct (str_mem x l); naive_solver. Qed.

(** [iter.map(f).collect::<Option<Vec<_>>>()]: every element, or nothing. *)
Definition collect_opt {A B} (f : A -> option B) (l : list A) : option (list B) := mapM f l.

(** Lookup in an association list: the first entry with the key. *)
Fixpoint assoc_get {A} (l : list (string * A)) (key : string) : option A :=
  match l with
  | [] => None
  | (k, v) :: l' => if k =s key then Some v else assoc_get l' key
  end.

(** ** Loops

    A [loop] that may run for a number of rounds too large for a unary
    counter: [step] goes on with a new state or leaves with a result, for at
    most [fuel] rounds. *)

Section Loop.
Context {St R : Type} (step : St -> St + R).

Fixpoint iter_until (fuel : positive) (s : St) : St + R :=
  match fuel with
  | xH => step s
  | xO p => match iter_until p s with inl s1 => iter_until p s1 | r => r end
  | xI p =>
      match step s with
      | inl s1 => match iter_until p s1 with inl s2 => iter_until p s2 | r => r end
      | r => r
      end
  end.

(** An invariant of the rounds holds at the end, and what every exit
    establishes holds of the result. *)
Lemma iter_until_inv (P : St -> Prop) (Q : R -> Prop) :
  (forall s, P s -> match step s with inl s1 => P s1 | inr r => Q r end) ->
  forall fuel s, P s -> match iter_until fuel s with inl s1 => P s1 | inr r => Q r end.
Proof.
  intros Hstep. induction fuel as [p IH|p IH|]; intros s Hs; simpl; [| |by apply Hstep].
  - specialize (Hstep s Hs). destruct (step s) as [s1|r]; [|done].
    specialize (IH s1 Hstep) as IH1. destruct (iter_until p s1) as [s2|r]; [by apply IH|done].
  - specialize (IH s Hs) as IH1. destruct (iter_until p s) as [s1|r]; [by apply IH|done].
Qed.

(** Rounds that go on lower a measure, so enough fuel always leaves. *)
Lemma iter_until_measure (P : St -> Prop) (mu : St -> Z) :
  (forall s s1, P s -> step s = inl s1 -> P s1 /\ (0 <= mu s1 < mu s)%Z) ->
  forall fuel s s1, P s -> iter_until fuel s = inl s1 -> P s1 /\ (0 <= mu s1 <= mu s - Zpos fuel)%Z.
Proof.
  intros Hstep. induction fuel as [p IH|p IH|]; intros s s1 Hs; simpl.
  - destruct (step s) as [s2|r] eqn:E1; [|done]. destruct (Hstep s s2 Hs E1) as [H2 ?].
    destruct (iter_until p s2) as [s3|r] eqn:E2; [|done]. destruct (IH s2 s3 H2 E2) as [H3 ?].
    intros E3. destruct (IH s3 s1 H3 E3) as [H1 ?]. split; [done|lia].
  - destruct (iter_until p s) as [s2|r] eqn:E2; [|done]. destruct (IH s s2 Hs E2) as [H2 ?].
    intros E3. destruct (IH s2 s1 H2 E3) as [H1 ?]. split; [done|lia].
  - intros E. destruct (Hstep s s1 Hs E) as [H1 ?]. split; [done|lia].
Qed.

End Loop.

(** A loop whose rounds follow another's through [f], and whose results follow
    through [g], ends where the other ends. *)
Lemma iter_until_map {S1 R1 S2 R2 : Type} (step1 : S1 -> S1 + R1) (step2 : S2 -> S2 + R2) (f : S1 -> S2) (g : R1 -> R2) :
  (forall s, step2 (f s) = match step1 s with inl s' => inl (f s') | inr r => inr (g r) end) ->
  forall fuel s, iter_until step2 fuel (f s)
    = match iter_until step1 fuel s with inl s' => inl (f s') | inr r => inr (g r) end.
Proof.
  intros Hstep. induction fuel as [p IH|p IH|]; intros s; simpl; [| |apply Hstep].
  - rewrite Hstep. destruct (step1 s) as [s1|r]; [|done]. rewrite IH.
    destruct (iter_until step1 p s1) as [s2|r]; [apply IH|done].
  - rewrite IH. destruct (iter_until step1 p s) as [s1|r]; [apply IH|done].
Qed.

(** ** Characters *)

Definition code (c : ascii) : N := N_of_ascii c.
Definition in_range (lo hi : ascii) (c : ascii) : bool :=
  ((code lo <=? code c) && (code c <=? code hi))%N.
Definition is_ascii_lowercase : ascii -> bool := in_range "a" "z".
Definition is_ascii_uppercase : ascii -> bool := in_range "A" "Z".
Definition is_ascii_alphabetic (c : ascii) : bool := is_ascii_lowercase c || is_ascii_uppercase c.
Definition is_ascii_digit : ascii -> bool := in_range "0" "9".
Definition is_ascii_alphanumeric (c : ascii) : bool := is_ascii_alphabetic c || is_ascii_digit c.

Definition ascii_to_lower (c : ascii) : ascii :=
  if is_ascii_uppercase c then ascii_of_N (code c + 32) else c.
