(* ===== verification/RustStr.v ===== *)
(** * Rust's [str] methods on byte strings

    The methods of Rust's standard [str] and [String] that the modelled code
    calls, as executable functions on [string], each with the lemma that
    characterises it.  Patterns given as a closure or a [char] are a predicate
    on bytes: every character the code searches for is ASCII, and an ASCII byte
    never occurs inside a multi-byte UTF-8 sequence. *)

From S2P Require Import Prelude.

Implicit Types (s a b : string) (c : ascii) (p : ascii -> bool).

(** ** Scanning *)

(** [s.bytes().any(p)], [s.contains(p)]. *)
Fixpoint str_any p s : bool :=
  match s with EmptyString => false | String c s' => p c || str_any p s' end.

(** [s.bytes().all(p)]. *)
Fixpoint str_all p s : bool :=
  match s with EmptyString => true | String c s' => p c && str_all p s' end.

(** [s.contains('c')]. *)
Abbreviation contains_char c s := (str_any (Ascii.eqb c) s).

(** [s.find(p)]: the byte index of the first match. *)
Fixpoint str_find p s : option nat :=
  match s with
  | EmptyString => None
  | String c s' => if p c then Some 0 else S <$> str_find p s'
  end.

(** [s.rfind(p)]: the byte index of the last match. *)
Fixpoint str_rfind p s : option nat :=
  match s with
  | EmptyString => None
  | String c s' =>
      match str_rfind p s' with
      | Some n => Some (S n)
      | None => if p c then Some 0 else None
      end
  end.

(** [&s[..n]] and [&s[n..]], for [n <= s.len()]. *)
Fixpoint str_take (n : nat) s : string :=
  match n, s with
  | S n', String c s' => String c (str_take n' s')
  | _, _ => EmptyString
  end.

Fixpoint str_drop (n : nat) s : string :=
  match n, s with
  | S n', String _ s' => str_drop n' s'
  | _, _ => s
  end.

(** [s.split_once(p)]. *)
Fixpoint str_split_once p s : option (string * string) :=
  match s with
  | EmptyString => None
  | String c s' =>
      if p c then Some (EmptyString, s')
      else '(a, b) ← str_split_once p s'; Some (String c a, b)
  end.

(** [s.rsplit_once(p)]. *)
Fixpoint str_rsplit_once p s : option (string * string) :=
  match s with
  | EmptyString => None
  | String c s' =>
      match str_rsplit_once p s' with
      | Some (a, b) => Some (String c a, b)
      | None => if p c then Some (EmptyString, s') else None
      end
  end.

(** [s.split(c)]: always at least one piece. *)
Fixpoint str_split c s : list string :=
  match s with
  | EmptyString => [EmptyString]
  | String x s' =>
      if x =c c then EmptyString :: str_split c s'
      else match str_split c s' with
           | h :: t => String x h :: t
           | [] => [String x EmptyString]
           end
  end.

(** [pieces.join(sep)]. *)
Fixpoint str_join (sep : string) (l : list string) : string :=
  match l with
  | [] => EmptyString
  | [x] => x
  | x :: l' => x +:+ sep +:+ str_join sep l'
  end.

(** [s.strip_prefix(a)] and [s.starts_with(a)]. *)
Fixpoint strip_prefix a s : option string :=
  match a, s with
  | EmptyString, _ => Some s
  | String x a', String y s' => if x =c y then strip_prefix a' s' else None
  | String _ _, EmptyString => None
  end.

Definition starts_with a s : bool := bool_decide (is_Some (strip_prefix a s)).

(** [s.strip_suffix(b)] and [s.ends_with(b)]. *)
Fixpoint strip_suffix b s : option string :=
  if s =s b then Some EmptyString
  else match s with
       | EmptyString => None
       | String x s' => String x <$> strip_suffix b s'
       end.

Definition ends_with b s : bool := bool_decide (is_Some (strip_suffix b s)).

(** [s.contains(needle)] for a string needle. *)
Fixpoint str_contains (needle : string) s : bool :=
  starts_with needle s ||
  match s with EmptyString => false | String _ s' => str_contains needle s' end.

(** [s.replace(from, to)] for single characters. *)
Fixpoint replace_char (from to : ascii) s : string :=
  match s with
  | EmptyString => EmptyString
  | String c s' => String (if c =c from then to else c) (replace_char from to s')
  end.

(** [s.to_ascii_lowercase()]. *)
Fixpoint to_ascii_lowercase s : string :=
  match s with
  | EmptyString => EmptyString
  | String c s' => String (ascii_to_lower c) (to_ascii_lowercase s')
  end.

(** ** Append *)

Lemma append_nil_r s : s +:+ EmptyString = s.
Proof. induction s; simpl; congruence. Qed.

Lemma append_assoc a b s : (a +:+ b) +:+ s = a +:+ (b +:+ s).
Proof. induction a; simpl; congruence. Qed.

Lemma length_append a b : String.length (a +:+ b) = String.length a + String.length b.
Proof. induction a; simpl; lia. Qed.

Lemma append_nil_inv a b : a +:+ b = EmptyString -> a = EmptyString /\ b = EmptyString.
Proof. destruct a; simpl; naive_solver. Qed.

Lemma append_cancel_l a b s : a +:+ b = a +:+ s <-> b = s.
Proof. split; [|congruence]. induction a; simpl; naive_solver. Qed.

Lemma append_cancel_r a b s : a +:+ s = b +:+ s <-> a = b.
Proof.
  split; [|congruence]. revert b.
  induction a as [|x a IH]; intros [|y b]; simpl; intros H; [done| | |].
  - apply (f_equal String.length) in H. simpl in H. rewrite length_append in H. lia.
  - apply (f_equal String.length) in H. simpl in H. rewrite length_append in H. lia.
  - injection H as -> H. f_equal. by apply IH.
Qed.

(** ** Predicates over a string *)

Lemma str_all_app p a b : str_all p (a +:+ b) = str_all p a && str_all p b.
Proof. induction a; simpl; [done|]. rewrite IHa. by rewrite andb_assoc. Qed.

Lemma str_any_app p a b : str_any p (a +:+ b) = str_any p a || str_any p b.
Proof. induction a; simpl; [done|]. rewrite IHa. by rewrite orb_assoc. Qed.

Lemma str_all_impl p (q : ascii -> bool) s :
  (forall c, p c = true -> q c = true) -> str_all p s = true -> str_all q s = true.
Proof.
  intros Hpq. induction s as [|x s IH]; simpl; [done|]. intros H; bool_prop.
  apply andb_true_iff. auto.
Qed.

(** A string whose bytes all satisfy [p] has none that satisfies a [q]
    disjoint from [p]. *)
Lemma str_all_any_disjoint p (q : ascii -> bool) s :
  (forall c, p c = true -> q c = false) -> str_all p s = true -> str_any q s = false.
Proof.
  intros Hd. induction s as [|x s IH]; simpl; [done|]. intros H; bool_prop.
  apply orb_false_iff. auto.
Qed.

Lemma contains_char_all p c s :
  p c = false -> str_all p s = true -> contains_char c s = false.
Proof.
  intros Hc. apply str_all_any_disjoint. intros x Hx.
  destruct (Ascii.eqb_spec c x); congruence.
Qed.

#[export] Hint Rewrite append_assoc append_nil_r length_append str_all_app str_any_app : hv.

(** Normalise appended strings under lengths and predicates. *)
Ltac str_norm := autorewrite with hv; simpl.

(** ** Slices *)

Lemma str_take_drop n s : str_take n s +:+ str_drop n s = s.
Proof.
  revert s; induction n as [|n IH]; intros [|x s]; simpl; [done..|]. by rewrite IH.
Qed.

Lemma str_take_app a b : str_take (String.length a) (a +:+ b) = a.
Proof. induction a; simpl; [by destruct b|congruence]. Qed.

Lemma str_drop_app a b : str_drop (String.length a) (a +:+ b) = b.
Proof. induction a; simpl; [by destruct b|congruence]. Qed.

Lemma str_drop_app_S a c b : str_drop (String.length a + 1) (a +:+ String c b) = b.
Proof. induction a; simpl; [by destruct b|done]. Qed.

Lemma str_drop_length n s : String.length (str_drop n s) = String.length s - n.
Proof. revert s; induction n; intros [|x s]; simpl; auto. Qed.

(** ** [find], [split_once] *)

Lemma str_find_Some p s n :
  str_find p s = Some n <->
  exists a c b, s = a +:+ String c b /\ String.length a = n /\ str_any p a = false /\ p c = true.
Proof.
  revert n; induction s as [|x s IH]; intros n; simpl.
  - split; [done|]. intros ([|] & ? & ? & ? & ?); done.
  - destruct (p x) eqn:Hx.
    + split.
      * intros [= <-]. by exists EmptyString, x, s.
      * intros (a & c & b & Hs & Hn & Ha & Hc). destruct a as [|y a]; simpl in *; [naive_solver|].
        simplify_eq. by rewrite Hx in Ha.
    + rewrite fmap_Some. setoid_rewrite IH. split.
      * intros (m & (a & c & b & -> & Hm & Ha & Hc) & ->).
        exists (String x a), c, b. simpl. rewrite Hx. naive_solver.
      * intros (a & c & b & Hs & Hn & Ha & Hc). destruct a as [|y a]; simplify_eq/=; [congruence|].
        rewrite Hx in Ha. exists (String.length a). split; [|done].
        by exists a, c, b.
Qed.

Lemma str_find_None p s : str_find p s = None <-> str_any p s = false.
Proof.
  induction s as [|x s IH]; simpl; [done|].
  destruct (p x); simpl; [done|]. by rewrite fmap_None.
Qed.

Lemma str_find_app p a c b :
  str_any p a = false -> p c = true -> str_find p (a +:+ String c b) = Some (String.length a).
Proof. intros. apply str_find_Some. by exists a, c, b. Qed.

Lemma str_split_once_Some p s a b :
  str_split_once p s = Some (a, b) <->
  exists c, s = a +:+ String c b /\ str_any p a = false /\ p c = true.
Proof.
  revert a; induction s as [|x s IH]; intros a; simpl.
  - split; [done|]. intros (? & H & _). by destruct a.
  - destruct (p x) eqn:Hx.
    + split; [intros [= <- <-]; by exists x|].
      intros (c & Hs & Ha & Hc). destruct a; simplify_eq/=; [done|]. by rewrite Hx in Ha.
    + split.
      * destruct (str_split_once p s) as [[a' b']|] eqn:E; [|done]. intros [= <- <-].
        destruct (proj1 (IH a') eq_refl) as (c & -> & Ha & Hc). exists c. simpl. by rewrite Hx.
      * intros (c & Hs & Ha & Hc). destruct a as [|y a]; simplify_eq/=; [congruence|].
        rewrite Hx in Ha. assert (str_split_once p (a +:+ String c b) = Some (a, b)) as ->; [|done].
        apply IH. by exists c.
Qed.

Lemma str_split_once_app p a c b :
  str_any p a = false -> p c = true -> str_split_once p (a +:+ String c b) = Some (a, b).
Proof. intros. apply str_split_once_Some. by exists c. Qed.

Lemma str_split_once_None p s : str_split_once p s = None <-> str_any p s = false.
Proof.
  induction s as [|x s IH]; simpl; [done|]. destruct (p x); simpl; [done|].
  rewrite <- IH. destruct (str_split_once p s) as [[]|]; simpl; naive_solver.
Qed.

(** ** [rfind], [rsplit_once] *)

Lemma str_rfind_None p s : str_rfind p s = None <-> str_any p s = false.
Proof.
  induction s as [|x s IH]; simpl; [done|].
  destruct (str_rfind p s); destruct (p x); simpl; naive_solver.
Qed.

Lemma str_rfind_Some p s n :
  str_rfind p s = Some n <->
  exists a c b, s = a +:+ String c b /\ String.length a = n /\ str_any p b = false /\ p c = true.
Proof.
  revert n; induction s as [|x s IH]; intros n; simpl.
  - split; [done|]. intros ([|] & ? & ? & ? & ?); done.
  - destruct (str_rfind p s) as [m|] eqn:E.
    + destruct (proj1 (IH m) eq_refl) as (a0 & c0 & b0 & -> & Hm & Hb0 & Hc0). split.
      * intros [= <-]. exists (String x a0), c0, b0. naive_solver.
      * intros (a & c & b & Hs & Hn & Hb & Hc). destruct a as [|y a]; simplify_eq/=.
        { exfalso. rewrite str_any_app in Hb. simpl in Hb. rewrite Hc0 in Hb.
          by rewrite orb_true_r in Hb. }
        assert (Some (String.length a0) = Some (String.length a)) as Heq
          by (apply IH; by exists a, c, b). congruence.
    + apply str_rfind_None in E. destruct (p x) eqn:Hx.
      * split; [intros [= <-]; by exists EmptyString, x, s|].
        intros (a & c & b & Hs & Hn & Hb & Hc). destruct a as [|y a]; simplify_eq/=; [done|].
        rewrite str_any_app in E. simpl in E. rewrite Hc, orb_true_r in E. done.
      * split; [done|]. intros (a & c & b & Hs & Hn & Hb & Hc).
        destruct a as [|y a]; simplify_eq/=; [congruence|].
        rewrite str_any_app in E. simpl in E. rewrite Hc, orb_true_r in E. done.
Qed.

Lemma str_rsplit_once_app p a c b :
  str_any p b = false -> p c = true -> str_rsplit_once p (a +:+ String c b) = Some (a, b).
Proof.
  intros Hb Hc. assert (str_rsplit_once p b = None) as Hn.
  { clear -Hb. induction b as [|x b IH]; simpl in *; [done|]. bool_prop. rewrite IH; [|done].
    by rewrite H. }
  induction a as [|x a IH]; simpl; [by rewrite Hn, Hc|by rewrite IH].
Qed.

(** ** [split], [join] *)

Lemma str_split_cons c s : exists h t, str_split c s = h :: t.
Proof.
  destruct s as [|x s]; simpl; [eauto|].
  destruct (x =c c); [eauto|]. destruct (str_split c s); eauto.
Qed.

Lemma str_split_nonempty c s : str_split c s <> [].
Proof. destruct (str_split_cons c s) as (h & t & ->). done. Qed.

Lemma str_split_none c s : contains_char c s = false -> str_split c s = [s].
Proof.
  induction s as [|x s IH]; simpl; [done|]. intros H; bool_prop.
  destruct (Ascii.eqb_spec x c); [congruence|]. by rewrite IH.
Qed.

Lemma str_split_app c a b : str_split c (a +:+ String c b) = str_split c a ++ str_split c b.
Proof.
  induction a as [|x a IH]; simpl; [by rewrite Ascii.eqb_refl|].
  destruct (x =c c); simpl; rewrite IH; [done|].
  destruct (str_split_cons c a) as (h & t & ->). done.
Qed.

Lemma str_split_clean c s x : x ∈ str_split c s -> contains_char c x = false.
Proof.
  revert x. induction s as [|y s IH]; intros x; simpl.
  - rewrite list_elem_of_singleton. by intros ->.
  - destruct (Ascii.eqb_spec y c) as [->|Hy].
    + intros [->|?]%elem_of_cons; [done|auto].
    + destruct (str_split_cons c s) as (h & t & E). rewrite E in *.
      intros [->|?]%elem_of_cons.
      * simpl. rewrite (proj2 (Ascii.eqb_neq c y)); [|congruence]. apply IH. left.
      * apply IH. by right.
Qed.

Definition sep1 c : string := String c EmptyString.

Lemma str_join_cons sep x l : l <> [] -> str_join sep (x :: l) = x +:+ sep +:+ str_join sep l.
Proof. by destruct l. Qed.

Lemma str_join_split c s : str_join (sep1 c) (str_split c s) = s.
Proof.
  induction s as [|x s IH]; simpl; [done|].
  destruct (Ascii.eqb_spec x c) as [->|Hx].
  - rewrite str_join_cons by apply str_split_nonempty. simpl. by rewrite IH.
  - destruct (str_split_cons c s) as (h & t & E). rewrite E in *. rewrite <- IH.
    by destruct t.
Qed.

Lemma str_split_join c l :
  l <> [] -> Forall (fun x => contains_char c x = false) l ->
  str_split c (str_join (sep1 c) l) = l.
Proof.
  intros Hne Hall. induction Hall as [|x l Hx Hl IH]; [done|].
  destruct l as [|y l]; [by apply str_split_none|].
  rewrite str_join_cons by done.
  change (sep1 c +:+ str_join (sep1 c) (y :: l)) with (String c (str_join (sep1 c) (y :: l))).
  rewrite str_split_app, IH by done. by rewrite str_split_none.
Qed.

Lemma str_split_inj c s1 s2 : str_split c s1 = str_split c s2 -> s1 = s2.
Proof. intros H. rewrite <- (str_join_split c s1), H. apply str_join_split. Qed.

Lemma str_join_app c l1 l2 :
  l1 <> [] -> l2 <> [] ->
  str_join (sep1 c) (l1 ++ l2) = str_join (sep1 c) l1 +:+ String c (str_join (sep1 c) l2).
Proof.
  intros H1 H2. induction l1 as [|x l1 IH]; [done|].
  destruct (decide (l1 = [])) as [->|Hl1]; [simpl app; by rewrite str_join_cons|].
  rewrite <- app_comm_cons, (str_join_cons _ x (l1 ++ l2)), (str_join_cons _ x l1), IH;
    [by rewrite !append_assoc|done|done|by destruct l1].
Qed.

(** ** Prefixes and suffixes *)

Lemma strip_prefix_Some a s r : strip_prefix a s = Some r <-> s = a +:+ r.
Proof.
  revert s; induction a as [|x a IH]; intros s; simpl; [naive_solver|].
  destruct s as [|y s]; [done|]. destruct (Ascii.eqb_spec x y) as [->|Hxy]; [rewrite IH|];
    naive_solver.
Qed.

Lemma strip_prefix_app a r : strip_prefix a (a +:+ r) = Some r.
Proof. by apply strip_prefix_Some. Qed.

Lemma starts_with_true a s : starts_with a s = true <-> exists r, s = a +:+ r.
Proof.
  unfold starts_with. rewrite bool_decide_eq_true. unfold is_Some.
  by setoid_rewrite strip_prefix_Some.
Qed.

Lemma strip_suffix_Some b s r : strip_suffix b s = Some r <-> s = r +:+ b.
Proof.
  revert r; induction s as [|x s IH]; intros r.
  - cbn -[String.eqb]. destruct (String.eqb_spec EmptyString b) as [<-|Hb].
    + split; [by intros [= <-]|]. intros [? _]%eq_sym%append_nil_inv. by subst.
    + split; [done|]. intros [? ?]%eq_sym%append_nil_inv. congruence.
  - cbn -[String.eqb]. destruct (String.eqb_spec (String x s) b) as [<-|Hb].
    + split; [by intros [= <-]|]. destruct r as [|y r]; [done|].
      intros H%(f_equal String.length). rewrite length_append in H. simpl in H. lia.
    + rewrite fmap_Some. setoid_rewrite IH. destruct r as [|y r]; simpl; naive_solver.
Qed.

Lemma strip_suffix_app b r : strip_suffix b (r +:+ b) = Some r.
Proof. by apply strip_suffix_Some. Qed.

Lemma ends_with_true b s : ends_with b s = true <-> exists r, s = r +:+ b.
Proof.
  unfold ends_with. rewrite bool_decide_eq_true. unfold is_Some.
  by setoid_rewrite strip_suffix_Some.
Qed.

Lemma replace_char_none from to s : contains_char from s = false -> replace_char from to s = s.
Proof.
  induction s as [|x s IH]; simpl; [done|]. intros H; bool_prop.
  destruct (Ascii.eqb_spec x from); [congruence|]. by rewrite IH.
Qed.

(** ** Unicode white space

    [char::is_whitespace] on the UTF-8 bytes: the number of bytes of the
    white-space character at the head of the string, or 0 when the character
    there is not one.  U+0009-U+000D, U+0020, U+0085, U+00A0, U+1680,
    U+2000-U+200A, U+2028, U+2029, U+202F, U+205F and U+3000. *)
Definition ws_len s : nat :=
  match s with
  | EmptyString => 0
  | String c1 s1 =>
      let n1 := code c1 in
      if ((9 <=? n1) && (n1 <=? 13) || (n1 =? 32))%N then 1
      else match s1 with
      | EmptyString => 0
      | String c2 s2 =>
          let n2 := code c2 in
          if ((n1 =? 0xC2) && ((n2 =? 0x85) || (n2 =? 0xA0)))%N then 2
          else match s2 with
          | EmptyString => 0
          | String c3 _ =>
              let n3 := code c3 in
              if (((n1 =? 0xE1) && (n2 =? 0x9A) && (n3 =? 0x80))
                  || ((n1 =? 0xE2) && (n2 =? 0x80)
                      && ((0x80 <=? n3) && (n3 <=? 0x8A)
                          || (n3 =? 0xA8) || (n3 =? 0xA9) || (n3 =? 0xAF)))
                  || ((n1 =? 0xE2) && (n2 =? 0x81) && (n3 =? 0x9F))
                  || ((n1 =? 0xE3) && (n2 =? 0x80) && (n3 =? 0x80)))%N
              then 3 else 0
          end
      end
  end.

(** [s.split(char::is_whitespace)]; [skip] bytes of a white-space character
    remain to be passed. *)
Fixpoint ws_pieces (skip : nat) s : list string :=
  match s with
  | EmptyString => [EmptyString]
  | String c s' =>
      match skip with
      | S k => ws_pieces k s'
      | 0 =>
          match ws_len s with
          | 0 => match ws_pieces 0 s' with
                 | h :: t => String c h :: t
                 | [] => [String c EmptyString]
                 end
          | S k => EmptyString :: ws_pieces k s'
          end
      end
  end.

Definition nonempty s : bool := negb (s =s EmptyString).

(** [s.split_whitespace()]. *)
Definition split_whitespace s : list string := filter nonempty (ws_pieces 0 s).

(** [s.trim()]: both ends. *)
Fixpoint trim_start (skip : nat) s : string :=
  match s with
  | EmptyString => EmptyString
  | String _ s' =>
      match skip with
      | S k => trim_start k s'
      | 0 => match ws_len s with 0 => s | S k => trim_start k s' end
      end
  end.

Definition trim_end s : string :=
  (fix go s := if trim_start 0 s =s EmptyString then EmptyString
               else match s with EmptyString => EmptyString | String c s' => String c (go s') end) s.

Definition trim s : string := trim_end (trim_start 0 s).

(** A string with no white-space character at any position. *)
Fixpoint ws_free s : bool :=
  match s with
  | EmptyString => true
  | String _ s' => (ws_len s =? 0)%nat && ws_free s'
  end.

Definition sp : ascii := " ".

Lemma ws_len_prefix c a b : ws_len (String c (a +:+ b)) = 0 -> ws_len (String c a) = 0.
Proof.
  unfold ws_len. destruct a as [|c2 [|c3 a]]; simpl; repeat case_match; done.
Qed.

Lemma ws_len_space c a b : ws_len (String c (a +:+ String sp b)) = ws_len (String c a).
Proof.
  unfold ws_len. destruct a as [|c2 [|c3 a]]; simpl String.append; cbv iota beta;
    change (code sp) with 32%N; repeat case_match; try done; bool_prop;
    repeat match goal with
    | H : _ || _ = true |- _ => apply orb_true_iff in H
    | H : _ \/ _ |- _ => destruct H
    | H : _ && _ = true |- _ => apply andb_true_iff in H as [? ?]
    end; done.
Qed.

Lemma ws_pieces_cons k s : exists h t, ws_pieces k s = h :: t.
Proof.
  revert k; induction s as [|x s IH]; intros k; cbn -[ws_len]; [eauto|].
  destruct k; [|apply IH]. destruct (ws_len _) as [|k]; [|eauto].
  destruct (ws_pieces 0 s); eauto.
Qed.

(** Every piece is free of white space, and the first is a prefix of the text. *)
Lemma ws_pieces_spec k s :
  exists h t, ws_pieces k s = h :: t
    /\ Forall (fun x => ws_free x = true) (h :: t) /\ (k = 0 -> exists r, s = h +:+ r).
Proof.
  revert k; induction s as [|c s IH]; intros k; cbn -[ws_len].
  { exists EmptyString, []. repeat constructor. by exists EmptyString. }
  destruct k as [|k].
  2: { destruct (IH k) as (h & t & E & Hf & _). by exists h, t. }
  destruct (ws_len (String c s)) as [|k] eqn:E.
  - destruct (IH 0) as (h & t & Eq & Hf & Hr). destruct Hr as [r ->]; [done|]. rewrite Eq.
    apply Forall_cons in Hf as [Hh Ht]. exists (String c h), t. repeat split.
    + constructor; [|done]. cbn -[ws_len]. apply ws_len_prefix in E. by rewrite E, Hh.
    + intros _. by exists r.
  - destruct (IH k) as (h & t & Eq & Hf & _). rewrite Eq.
    exists EmptyString, (h :: t). repeat split; [by constructor|]. intros _. by eexists.
Qed.

Lemma ws_pieces_free k s x : x ∈ ws_pieces k s -> ws_free x = true.
Proof.
  destruct (ws_pieces_spec k s) as (h & t & -> & Hf & _). rewrite Forall_forall in Hf. auto.
Qed.

Lemma ws_pieces_space a b :
  ws_free a = true -> ws_pieces 0 (a +:+ String sp b) = a :: ws_pieces 0 b.
Proof.
  induction a as [|c a IH]; cbn -[ws_len]; intros H; [done|]. bool_prop.
  rewrite ws_len_space, H, IH by done. done.
Qed.

Lemma ws_pieces_single a : ws_free a = true -> ws_pieces 0 a = [a].
Proof.
  induction a as [|c a IH]; cbn -[ws_len]; intros H; [done|]. bool_prop.
  by rewrite H, IH.
Qed.

(** ASCII text with no space or control character has no white space. *)
Definition is_graphic (c : ascii) : bool := in_range "!" "~" c.

Lemma ws_len_graphic c s : is_graphic c = true -> ws_len (String c s) = 0.
Proof.
  unfold is_graphic, in_range, ws_len. intros [H1%N.leb_le H2%N.leb_le]%andb_true_iff.
  change (code "!") with 33%N in H1. change (code "~") with 126%N in H2.
  repeat (case_match; [|try done]);
    repeat match goal with
    | H : _ || _ = true |- _ => apply orb_true_iff in H as [H|H]
    | H : _ && _ = true |- _ => apply andb_true_iff in H as [H ?]
    end; rewrite ?N.eqb_eq, ?N.leb_le in *; try done; lia.
Qed.

Lemma ws_free_graphic s : str_all is_graphic s = true -> ws_free s = true.
Proof.
  induction s as [|c s IH]; [done|]. simpl. intros [Hc Hs]%andb_true_iff.
  rewrite IH, andb_true_r by done. apply Nat.eqb_eq. by apply ws_len_graphic.
Qed.

Lemma split_whitespace_elem s x :
  x ∈ split_whitespace s -> x <> EmptyString /\ ws_free x = true.
Proof.
  unfold split_whitespace. rewrite list_elem_of_filter.
  intros [Hx ?%ws_pieces_free]. split; [|done].
  apply Is_true_true in Hx. unfold nonempty in Hx. by bool_prop.
Qed.

(** A space separates: the pieces of both sides, whatever the sides are. *)
Lemma ws_len_bound s : ws_len s <= String.length s.
Proof.
  unfold ws_len. destruct s as [|c1 [|c2 [|c3 s]]]; simpl; repeat case_match; lia.
Qed.

Lemma ws_pieces_app_space k a b :
  k <= String.length a -> ws_pieces k (a +:+ String sp b) = ws_pieces k a ++ ws_pieces 0 b.
Proof.
  revert k; induction a as [|c a IH]; intros k Hk; cbn -[ws_len].
  { simpl in Hk. by replace k with 0 by lia. }
  destruct k as [|k]; [|apply IH; simpl in Hk; lia]. rewrite ws_len_space.
  destruct (ws_len (String c a)) as [|k] eqn:E.
  - rewrite IH by lia. destruct (ws_pieces_cons 0 a) as (h & t & ->). done.
  - rewrite IH; [done|]. pose proof (ws_len_bound (String c a)) as Hb. rewrite E in Hb. simpl in Hb. lia.
Qed.

Lemma split_whitespace_app a b :
  split_whitespace (a +:+ String sp b) = split_whitespace a ++ split_whitespace b.
Proof. unfold split_whitespace. rewrite ws_pieces_app_space by lia. apply filter_app. Qed.

Lemma split_whitespace_token x : x <> EmptyString -> ws_free x = true -> split_whitespace x = [x].
Proof.
  intros Hne Hf. unfold split_whitespace. rewrite ws_pieces_single by done.
  rewrite filter_cons_True; [done|]. unfold nonempty. apply Is_true_true, negb_true_iff, String.eqb_neq. done.
Qed.

(** Joining tokens with single spaces and splitting gives the tokens back. *)
Lemma split_whitespace_join l :
  Forall (fun x => x <> EmptyString /\ ws_free x = true) l ->
  split_whitespace (str_join (sep1 sp) l) = l.
Proof.
  intros Hl. unfold split_whitespace. induction Hl as [|x l [Hne Hf] Hl IH]; [done|].
  assert (Is_true (nonempty x)) as Hx.
  { unfold nonempty. apply Is_true_true, negb_true_iff, String.eqb_neq. done. }
  destruct (decide (l = [])) as [->|Hnil].
  - simpl. rewrite ws_pieces_single by done. by rewrite filter_cons_True.
  - rewrite str_join_cons by done.
    change (sep1 sp +:+ str_join (sep1 sp) l) with (String sp (str_join (sep1 sp) l)).
    rewrite ws_pieces_space, filter_cons_True by done. by rewrite IH.
Qed.

(** ** First and last byte *)

Lemma str_snoc s : s = EmptyString \/ exists u d, s = u +:+ String d EmptyString.
Proof.
  induction s as [|x s [->|(u & d & ->)]]; [by left|right..].
  - by exists EmptyString, x.
  - by exists (String x u), d.
Qed.

Lemma starts_with_char c x s : starts_with (sep1 c) (String x s) = (c =c x).
Proof.
  apply eq_true_iff_eq. rewrite starts_with_true, Ascii.eqb_eq. unfold sep1. simpl. naive_solver.
Qed.

Lemma ends_with_char c u d : ends_with (sep1 c) (u +:+ String d EmptyString) = (c =c d).
Proof.
  apply eq_true_iff_eq. rewrite ends_with_true, Ascii.eqb_eq. split; [|intros ->; by exists u].
  intros (r & H). revert r H. induction u as [|x u IH]; intros [|y r]; simpl.
  - by intros [= ->].
  - by destruct r.
  - by destruct u.
  - intros [= -> H]. eauto.
Qed.

(** ** Numbers *)

(** [s.parse::<uN>()], where [max] is the type's largest value: an optional
    plus sign, then at least one digit. *)
Definition parse_unsigned (max : Z) s : option Z :=
  let digits := match s with String c rest => if Ascii.eqb c "+" then rest else s | EmptyString => s end in
  let n := foldl (fun n c => n * 10 + (Z.of_N (code c) - 48))%Z 0%Z (String.list_ascii_of_string digits) in
  if digits =s EmptyString then None
  else if negb (str_all is_ascii_digit digits) then None
  else if (n <=? max)%Z then Some n else None.
