(* ===== verification/Words.v ===== *)
(** * Machine words and bytes

    Unsigned integers are [Z] kept in range; an operation that can leave the
    range wraps as the source's does.  A byte string is a [list Z] of bytes. *)

From S2P Require Import Prelude.
From Stdlib Require Import ZArith Lia.

#[local] Open Scope Z_scope.

Definition U16 : Z := 2 ^ 16.
Definition U64 : Z := 2 ^ 64.

(** [as u8], and the 16- and 64-bit wrap-arounds. *)
Definition wrap8 (x : Z) : Z := x mod 2 ^ 8.
Definition wrap16 (x : Z) : Z := x mod U16.
Definition wrap64 (x : Z) : Z := x mod U64.

Definition is_byte (x : Z) : Prop := 0 <= x < 256.
Definition is_bytes (l : list Z) : Prop := Forall is_byte l.

Definition len {A} (l : list A) : Z := Z.of_nat (length l).

Lemma len_nonneg {A} (l : list A) : 0 <= len l.
Proof. unfold len. lia. Qed.

Lemma len_app {A} (l1 l2 : list A) : len (l1 ++ l2) = len l1 + len l2.
Proof. unfold len. rewrite length_app. lia. Qed.

(** The bits of a string, as a byte list. *)
Definition byte_of (c : ascii) : Z := Z.of_N (code c).

Lemma byte_of_range c : is_byte (byte_of c).
Proof. destruct c as [[] [] [] [] [] [] [] []]; unfold is_byte; vm_compute; split; congruence. Qed.

Fixpoint str_bytes (s : string) : list Z :=
  match s with EmptyString => [] | String c s' => byte_of c :: str_bytes s' end.

Fixpoint bytes_str (l : list Z) : string :=
  match l with [] => EmptyString | b :: l' => String (ascii_of_N (Z.to_N b)) (bytes_str l') end.

Lemma bytes_str_bytes s : bytes_str (str_bytes s) = s.
Proof.
  induction s as [|c s IH]; simpl; [done|]. rewrite IH. f_equal.
  unfold byte_of, code. rewrite N2Z.id. apply ascii_N_embedding.
Qed.

Lemma str_bytes_range s : is_bytes (str_bytes s).
Proof. induction s; constructor; [apply byte_of_range|done]. Qed.

Lemma length_str_bytes s : length (str_bytes s) = String.length s.
Proof. induction s; simpl; congruence. Qed.

(** Masks and shifts as arithmetic. *)
Lemma land_ones_mod x n : 0 <= n -> Z.land x (Z.ones n) = x mod 2 ^ n.
Proof. apply Z.land_ones. Qed.

Lemma land_shiftl_0 a b n : 0 <= n -> 0 <= a < 2 ^ n -> Z.land a (Z.shiftl b n) = 0.
Proof.
  intros Hn Ha. apply Z.bits_inj'. intros i Hi. rewrite Z.land_spec, Z.bits_0.
  destruct (Z.lt_ge_cases i n).
  - rewrite (Z.shiftl_spec_low b n i) by lia. apply andb_false_r.
  - replace a with (a mod 2 ^ n) by (by apply Z.mod_small).
    by rewrite Z.mod_pow2_bits_high by lia.
Qed.

Lemma lor_shiftl a b n : 0 <= n -> 0 <= a < 2 ^ n -> Z.lor a (Z.shiftl b n) = a + b * 2 ^ n.
Proof.
  intros Hn Ha. pose proof (Z.add_lor_land a (Z.shiftl b n)) as H.
  rewrite land_shiftl_0 in H by done. rewrite Z.shiftl_mul_pow2 in * by done. lia.
Qed.
