(* ===== verification/Utf8.v ===== *)
(** * UTF-8

    [std::str::from_utf8] and [String::from_utf8_lossy]: the well-formed byte
    sequences of the Unicode standard (table 3-7), and the replacement of what
    is not. *)

From S2P Require Import Prelude Words.
From Stdlib Require Import ZArith.

#[local] Open Scope Z_scope.

Definition between (lo hi x : Z) : bool := (lo <=? x) && (x <=? hi).

Definition continuation : Z -> bool := between 0x80 0xBF.

Fixpoint utf8_valid (l : list Z) : bool :=
  match l with
  | [] => true
  | a :: l1 =>
      if between 0 0x7F a then utf8_valid l1
      else
        match l1 with
        | [] => false
        | b :: l2 =>
            if between 0xC2 0xDF a then continuation b && utf8_valid l2
            else
              match l2 with
              | [] => false
              | c :: l3 =>
                  let second3 :=
                    if a =? 0xE0 then between 0xA0 0xBF b
                    else if a =? 0xED then between 0x80 0x9F b
                    else between 0xE1 0xEF a && continuation b in
                  if second3 then continuation c && utf8_valid l3
                  else
                    match l3 with
                    | [] => false
                    | d :: l4 =>
                        let second4 :=
                          if a =? 0xF0 then between 0x90 0xBF b
                          else if a =? 0xF4 then between 0x80 0x8F b
                          else between 0xF1 0xF3 a && continuation b in
                        second4 && continuation c && continuation d && utf8_valid l4
                    end
              end
        end
  end.

(** U+FFFD. *)
Definition REPLACEMENT : list Z := [0xEF; 0xBF; 0xBD].

(** The second byte allowed after a lead byte of three or four. *)
Definition second3 (a b : Z) : bool :=
  if a =? 0xE0 then between 0xA0 0xBF b
  else if a =? 0xED then between 0x80 0x9F b
  else between 0xE1 0xEF a && continuation b.

Definition second4 (a b : Z) : bool :=
  if a =? 0xF0 then between 0x90 0xBF b
  else if a =? 0xF4 then between 0x80 0x8F b
  else between 0xF1 0xF3 a && continuation b.

(** Each maximal prefix of a well-formed sequence that is not one itself, and
    each byte that starts none, becomes U+FFFD. *)
Fixpoint from_utf8_lossy (l : list Z) : list Z :=
  match l with
  | [] => []
  | a :: l1 =>
      if between 0 0x7F a then a :: from_utf8_lossy l1
      else
        match l1 with
        | [] => REPLACEMENT
        | b :: l2 =>
            if between 0xC2 0xDF a && continuation b then a :: b :: from_utf8_lossy l2
            else if second3 a b then
              match l2 with
              | [] => REPLACEMENT
              | c :: l3 =>
                  if continuation c then a :: b :: c :: from_utf8_lossy l3
                  else REPLACEMENT ++ from_utf8_lossy l2
              end
            else if second4 a b then
              match l2 with
              | [] => REPLACEMENT
              | c :: l3 =>
                  if continuation c then
                    match l3 with
                    | [] => REPLACEMENT
                    | d :: l4 =>
                        if continuation d then a :: b :: c :: d :: from_utf8_lossy l4
                        else REPLACEMENT ++ from_utf8_lossy l3
                    end
                  else REPLACEMENT ++ from_utf8_lossy l2
              end
            else REPLACEMENT ++ from_utf8_lossy l1
        end
  end.

(** Well-formed bytes are kept as they are. *)
Lemma lossy_valid l : utf8_valid l = true -> from_utf8_lossy l = l.
Proof.
  remember (length l) as n eqn:Hn. revert l Hn.
  induction n as [n IH] using lt_wf_ind; intros l -> Hv.
  assert (forall l', (length l' < length l)%nat -> utf8_valid l' = true -> from_utf8_lossy l' = l') as IH'.
  { intros l' Hl. by apply (IH (length l')). }
  clear IH. destruct l as [|a l1]; [done|]. cbn [utf8_valid from_utf8_lossy] in *.
  destruct (between 0 0x7F a); [by rewrite IH' by (simpl; lia || done)|].
  destruct l1 as [|b l2]; [done|]. destruct (between 0xC2 0xDF a); cbn [andb].
  { bool_prop. rewrite H. by rewrite IH' by (simpl; lia || done). }
  destruct l2 as [|c l3]; [done|]. fold (second3 a b) in Hv. destruct (second3 a b).
  { bool_prop. rewrite H. by rewrite IH' by (simpl; lia || done). }
  destruct l3 as [|d l4]; [done|]. fold (second4 a b) in Hv. bool_prop.
  rewrite H, H2, H1. by rewrite IH' by (simpl; lia || done).
Qed.
