(* ===== verification/Regex.v ===== *)
(** * Regular expressions

    [happyview-nsid] validates with one regular expression, matched by the
    third-party crate [regex-lite].  The crate is an interface here: the class
    [RegexEngine] is its [is_match], and [RegexEngineSpec] the documented
    meaning of a match.  The instance at the end is a derivative matcher that
    satisfies the interface, so that the definitions built on it evaluate. *)

From S2P Require Import Prelude RustStr.

(** ** Syntax and language *)

Inductive regex : Type :=
| REps                                  (* the empty string *)
| RClass (p : ascii -> bool)            (* one byte: [[...]] or a literal *)
| RSeq (r1 r2 : regex)
| RAlt (r1 r2 : regex)
| ROpt (r : regex)                      (* [r?] *)
| RPlus (r : regex)                     (* [r+] *)
| RRep (lo hi : nat) (r : regex).       (* [r{lo,hi}] *)

Inductive matches : regex -> string -> Prop :=
| MEps : matches REps EmptyString
| MClass p c : p c = true -> matches (RClass p) (String c EmptyString)
| MSeq r1 r2 s1 s2 : matches r1 s1 -> matches r2 s2 -> matches (RSeq r1 r2) (s1 +:+ s2)
| MAltL r1 r2 s : matches r1 s -> matches (RAlt r1 r2) s
| MAltR r1 r2 s : matches r2 s -> matches (RAlt r1 r2) s
| MOptNone r : matches (ROpt r) EmptyString
| MOptSome r s : matches r s -> matches (ROpt r) s
| MPlusOne r s : matches r s -> matches (RPlus r) s
| MPlusMore r s1 s2 : matches r s1 -> matches (RPlus r) s2 -> matches (RPlus r) (s1 +:+ s2)
| MRepNil hi r : matches (RRep 0 hi r) EmptyString
| MRepCons lo hi r s1 s2 :
    matches r s1 -> matches (RRep (pred lo) hi r) s2 -> matches (RRep lo (S hi) r) (s1 +:+ s2).

(** A pattern: a body between optional [^] and [$] anchors. *)
Record regex_pattern : Type := {
  anchor_start : bool;
  body : regex;
  anchor_end : bool;
}.

(** What [Regex::is_match] promises: some factor of the text is in the body's
    language, at the ends of the text where the pattern is anchored. *)
Definition pattern_matches (pat : regex_pattern) (s : string) : Prop :=
  exists pre mid post,
    s = pre +:+ mid +:+ post /\ matches (body pat) mid
    /\ (anchor_start pat = true -> pre = EmptyString)
    /\ (anchor_end pat = true -> post = EmptyString).

(** ** The engine interface *)

Class RegexEngine : Type := regex_is_match : regex_pattern -> string -> bool.

Class RegexEngineSpec (RE : RegexEngine) : Prop :=
  regex_is_match_spec : forall pat s, regex_is_match pat s = true <-> pattern_matches pat s.

(** ** Inversion lemmas *)

Create HintDb regex.
#[export] Hint Constructors matches : regex.

Lemma matches_class p s : matches (RClass p) s <-> exists c, s = String c EmptyString /\ p c = true.
Proof. split; [inversion 1; eauto|]. intros (? & -> & ?); eauto with regex. Qed.

Lemma matches_seq r1 r2 s :
  matches (RSeq r1 r2) s <-> exists s1 s2, s = s1 +:+ s2 /\ matches r1 s1 /\ matches r2 s2.
Proof. split; [inversion 1; eauto 6|]. intros (? & ? & -> & ? & ?); eauto with regex. Qed.

Lemma matches_alt r1 r2 s : matches (RAlt r1 r2) s <-> matches r1 s \/ matches r2 s.
Proof. split; [inversion 1; eauto|]. intros [?|?]; eauto with regex. Qed.

Lemma matches_opt r s : matches (ROpt r) s <-> s = EmptyString \/ matches r s.
Proof. split; [inversion 1; eauto|]. intros [->|?]; eauto with regex. Qed.

Lemma matches_rep_nil lo r s : matches (RRep lo 0 r) s <-> lo = 0 /\ s = EmptyString.
Proof. split; [by inversion 1|]. intros [-> ->]; eauto with regex. Qed.

Lemma matches_rep_cons lo hi r s :
  matches (RRep lo (S hi) r) s <->
  (lo = 0 /\ s = EmptyString)
  \/ exists s1 s2, s = s1 +:+ s2 /\ matches r s1 /\ matches (RRep (pred lo) hi r) s2.
Proof.
  split; [inversion 1; simplify_eq; eauto 8|].
  intros [[-> ->]|(? & ? & -> & ? & ?)]; eauto with regex.
Qed.

(** [p{0,n}] for a class. *)
Lemma matches_class_upto p n s :
  matches (RRep 0 n (RClass p)) s <-> String.length s <= n /\ str_all p s = true.
Proof.
  revert s; induction n as [|n IH]; intros s.
  - rewrite matches_rep_nil. destruct s; simpl; naive_solver lia.
  - rewrite matches_rep_cons. setoid_rewrite matches_class. simpl pred. setoid_rewrite IH.
    destruct s as [|c s]; simpl.
    + split; [|eauto]. intros _. split; [lia|done].
    + split.
      * intros [[_ ?]|(s1 & s2 & Hs & (x & -> & Hx) & Hl & Ha)]; [done|].
        simpl in Hs. simplify_eq. rewrite Hx, Ha. split; [lia|done].
      * intros [Hl [Hc Ha]%andb_true_iff]. right. exists (String c EmptyString), s.
        repeat split; eauto with lia.
Qed.

(** ** A derivative matcher *)

Module Derivative.

Definition RNone : regex := RClass (fun _ => false).

Fixpoint nullable (r : regex) : bool :=
  match r with
  | REps => true
  | RClass _ => false
  | RSeq r1 r2 => nullable r1 && nullable r2
  | RAlt r1 r2 => nullable r1 || nullable r2
  | ROpt _ => true
  | RPlus r => nullable r
  | RRep lo hi r => (lo =? 0)%nat || (nullable r && (lo <=? hi)%nat)
  end.

Fixpoint deriv (c : ascii) (r : regex) : regex :=
  match r with
  | REps => RNone
  | RClass p => if p c then REps else RNone
  | RSeq r1 r2 =>
      if nullable r1 then RAlt (RSeq (deriv c r1) r2) (deriv c r2) else RSeq (deriv c r1) r2
  | RAlt r1 r2 => RAlt (deriv c r1) (deriv c r2)
  | ROpt r => deriv c r
  | RPlus r => RSeq (deriv c r) (ROpt (RPlus r))
  | RRep lo hi r =>
      match hi with 0 => RNone | S hi' => RSeq (deriv c r) (RRep (pred lo) hi' r) end
  end.

Fixpoint matchb (r : regex) (s : string) : bool :=
  match s with EmptyString => nullable r | String c s' => matchb (deriv c r) s' end.

Definition any : regex := ROpt (RPlus (RClass (fun _ => true))).

Definition compile (pat : regex_pattern) : regex :=
  RSeq (if anchor_start pat then REps else any)
    (RSeq (body pat) (if anchor_end pat then REps else any)).

#[export] Instance engine : RegexEngine := fun pat s => matchb (compile pat) s.

Lemma none_matches s : ~ matches RNone s.
Proof. unfold RNone. rewrite matches_class. naive_solver. Qed.

Lemma nullable_spec r : nullable r = true <-> matches r EmptyString.
Proof.
  induction r as [|p|r1 IH1 r2 IH2|r1 IH1 r2 IH2|r IH|r IH|lo hi r IH]; simpl.
  - split; eauto with regex.
  - rewrite matches_class. naive_solver.
  - rewrite andb_true_iff, IH1, IH2, matches_seq. split.
    + intros [? ?]. by exists EmptyString, EmptyString.
    + intros (? & ? & [-> ->]%eq_sym%append_nil_inv & ? & ?). done.
  - by rewrite orb_true_iff, IH1, IH2, matches_alt.
  - split; eauto with regex.
  - rewrite IH. split; [eauto with regex|].
    intros H. remember (RPlus r) as r' eqn:Er. remember EmptyString as e eqn:Ee.
    induction H; simplify_eq; [done|]. apply append_nil_inv in Ee as [-> ->]. done.
  - rewrite orb_true_iff, andb_true_iff, IH, Nat.eqb_eq, Nat.leb_le. clear IH.
    revert lo; induction hi as [|hi IHhi]; intros lo.
    + rewrite matches_rep_nil. naive_solver lia.
    + rewrite matches_rep_cons. split.
      * intros [->|[Hr Hle]]; [eauto|]. right. exists EmptyString, EmptyString.
        repeat split; [done|]. apply IHhi. destruct (decide (pred lo = 0)); [eauto|].
        right. split; [done|lia].
      * intros [[-> _]|(s1 & s2 & [-> ->]%eq_sym%append_nil_inv & Hr & H2)]; [eauto|].
        apply IHhi in H2. right. split; [done|lia].
Qed.

Lemma plus_nonempty r c s :
  matches (RPlus r) (String c s) ->
  exists s1 s2, s = s1 +:+ s2 /\ matches r (String c s1) /\ matches (ROpt (RPlus r)) s2.
Proof.
  intros H. remember (RPlus r) as r' eqn:Er. remember (String c s) as t eqn:Et.
  revert s Et. induction H; intros t Et; simplify_eq.
  - exists t, EmptyString. rewrite append_nil_r. eauto with regex.
  - destruct s1 as [|x s1]; simpl in Et.
    + subst. eapply IHmatches2; eauto.
    + simplify_eq. eauto 10 with regex.
Qed.

Lemma rep_nonempty lo hi r c s :
  matches (RRep lo hi r) (String c s) ->
  exists hi' s1 s2, hi = S hi' /\ s = s1 +:+ s2 /\ matches r (String c s1)
    /\ matches (RRep (pred lo) hi' r) s2.
Proof.
  revert lo; induction hi as [|hi IH]; intros lo.
  - rewrite matches_rep_nil. naive_solver.
  - rewrite matches_rep_cons. intros [[_ ?]|(s1 & s2 & Hs & H1 & H2)]; [done|].
    destruct s1 as [|x s1]; simpl in Hs.
    + subst. apply IH in H2 as (hi' & t1 & t2 & -> & -> & Ht1 & Ht2).
      exists (S hi'), t1, t2. repeat split; [done|]. apply (MRepCons _ _ _ EmptyString); done.
    + simplify_eq. eauto 10.
Qed.

Lemma deriv_spec c r s : matches (deriv c r) s <-> matches r (String c s).
Proof.
  revert s; induction r as [|p|r1 IH1 r2 IH2|r1 IH1 r2 IH2|r IH|r IH|lo hi r IH]; intros s; simpl.
  - split; [by intros ?%none_matches|inversion 1].
  - rewrite matches_class. destruct (p c) eqn:Hc.
    + split; [inversion 1; subst; eauto|]. intros (x & [= -> ->] & Hx); eauto with regex.
    + split; [by intros ?%none_matches|intros (x & [= -> ->] & Hx); congruence].
  - transitivity (matches (RSeq (deriv c r1) r2) s \/ (nullable r1 = true /\ matches (deriv c r2) s)).
    { destruct (nullable r1); [rewrite matches_alt|]; naive_solver. }
    rewrite !matches_seq, IH2, nullable_spec. setoid_rewrite IH1. split.
    + intros [(s1 & s2 & -> & ? & ?)|[? ?]];
        [by exists (String c s1), s2|by exists EmptyString, (String c s)].
    + intros ([|x s1] & s2 & Hs & ? & ?); simplify_eq/=; eauto 8.
  - by rewrite !matches_alt, IH1, IH2.
  - rewrite IH, matches_opt. naive_solver.
  - rewrite matches_seq. setoid_rewrite IH. split.
    + intros (s1 & s2 & -> & H1 & [->|H2]%matches_opt).
      * rewrite append_nil_r. eauto with regex.
      * by apply (MPlusMore r (String c s1)).
    + apply plus_nonempty.
  - split.
    + destruct hi as [|hi]; [by intros ?%none_matches|].
      intros (s1 & s2 & -> & H1%IH & H2)%matches_seq. by apply (MRepCons _ _ _ (String c s1)).
    + intros (hi' & s1 & s2 & -> & -> & H1 & H2)%rep_nonempty.
      apply matches_seq. exists s1, s2. by rewrite IH.
Qed.

Lemma matchb_spec r s : matchb r s = true <-> matches r s.
Proof.
  revert r; induction s as [|c s IH]; intros r; simpl; [apply nullable_spec|].
  rewrite IH. apply deriv_spec.
Qed.

Lemma any_matches s : matches any s.
Proof.
  unfold any. apply matches_opt. destruct s as [|c s]; [eauto|right].
  revert c. induction s as [|d s IH]; intros c; [by repeat constructor|].
  apply (MPlusMore _ (String c EmptyString)); [by constructor|apply IH].
Qed.

#[global] Instance engine_spec : RegexEngineSpec engine.
Proof.
  intros pat s. unfold regex_is_match, engine, compile, pattern_matches.
  assert (Hend : forall (b : bool) t,
    matches (if b then REps else any) t <-> (b = true -> t = EmptyString)).
  { intros [] t; split; [by inversion 1|intros ->; by constructor|done|intros _; apply any_matches]. }
  rewrite matchb_spec, matches_seq. setoid_rewrite matches_seq. setoid_rewrite Hend.
  split.
  - intros (pre & s2 & -> & ? & mid & post & -> & ? & ?). by exists pre, mid, post.
  - intros (pre & mid & post & -> & ? & ? & ?). exists pre, (mid +:+ post). eauto 8.
Qed.

End Derivative.
