(* ===== verification/Nsid.v ===== *)
(** * Namespaced identifiers

    Models [crates/happyview-nsid/src/lib.rs]: [validate_nsid],
    [validate_nsid_pattern] and [nsid_authority], over the regular-expression
    interface of [Regex].  The reference definition is [nsid_shape], a check of
    the dot-separated segments; the regular expression is proved equivalent to
    it, and the wildcard patterns and the authority are described by it. *)

From S2P Require Import Prelude RustStr Regex.

(** ** Definitions *)

Definition dot : ascii := ".".
Definition hyphen : ascii := "-".

Definition ldh (c : ascii) : bool := is_ascii_alphanumeric c || (c =c hyphen).
Definition is_dot (c : ascii) : bool := c =c dot.

(** [[a-zA-Z0-9-]{0,61}[a-zA-Z0-9]], optional: what may follow the first byte
    of a domain label. *)
Definition label_rest : regex :=
  ROpt (RSeq (RRep 0 61 (RClass ldh)) (RClass is_ascii_alphanumeric)).

Definition NSID_PATTERN : regex_pattern := {|
  anchor_start := true;
  body :=
    RSeq (RSeq (RClass is_ascii_alphabetic) label_rest)
      (RSeq
         (RPlus (RSeq (RClass is_dot) (RSeq (RClass is_ascii_alphanumeric) label_rest)))
         (RSeq (RClass is_dot)
            (RSeq (RClass is_ascii_alphabetic) (RRep 0 62 (RClass is_ascii_alphanumeric)))));
  anchor_end := true;
|}.

Definition MAX_NSID_LEN : nat := 317.
Definition MAX_SEGMENT_LEN : nat := 63.

Inductive NsidError : Type :=
| TooLong (nsid : string)
| Malformed (nsid : string)
| Pattern (pattern reason : string).

Section Model.
Context {RE : RegexEngine}.

Definition validate_nsid (nsid : string) : result unit NsidError :=
  if MAX_NSID_LEN <? String.length nsid then Err (TooLong nsid)
  else if negb (regex_is_match NSID_PATTERN nsid) then Err (Malformed nsid)
  else Ok tt.

(** The first byte satisfies [p]: [s.starts_with(|c| p(c))]. *)
Definition first_is (p : ascii -> bool) (s : string) : bool :=
  match s with EmptyString => false | String c _ => p c end.

(** The body of the loop over the enumerated segments. *)
Definition check_segment (pattern : string) (idx : nat) (segment : string)
    : result unit NsidError :=
  if segment =s EmptyString then Err (Pattern pattern "empty segment")
  else if MAX_SEGMENT_LEN <? String.length segment then
    Err (Pattern pattern "segment is longer than 63 characters")
  else if negb (str_all ldh segment) then
    Err (Pattern pattern "segments take only ASCII letters, digits, and hyphens")
  else if starts_with (sep1 hyphen) segment || ends_with (sep1 hyphen) segment then
    Err (Pattern pattern "segments must not start or end with a hyphen")
  else if (idx =? 0) && negb (first_is is_ascii_alphabetic segment) then
    Err (Pattern pattern "the first segment must start with a letter")
  else Ok tt.

Fixpoint check_segments (pattern : string) (idx : nat) (segments : list string)
    : result unit NsidError :=
  match segments with
  | [] => Ok tt
  | segment :: rest =>
      let? _ := check_segment pattern idx segment in check_segments pattern (S idx) rest
  end.

Definition validate_nsid_pattern (pattern : string) : result unit NsidError :=
  match strip_suffix ".*" pattern with
  | None => validate_nsid pattern
  | Some base =>
      if MAX_NSID_LEN <? String.length base then Err (TooLong pattern)
      else
        let segments := str_split dot base in
        if length segments <? 2 then
          Err (Pattern pattern "a wildcard needs at least two leading segments")
        else check_segments pattern 0 segments
  end.

Definition nsid_authority (nsid : string) : result string NsidError :=
  let? _ := validate_nsid nsid in
  Ok (str_join (sep1 dot) (reverse (removelast (str_split dot nsid)))).

End Model.

(** ** The reference definition: segments *)

(** A domain label: 1 to 63 letters, digits and hyphens, with no hyphen at
    either end. *)
Definition label_ok (s : string) : bool :=
  nonempty s && (String.length s <=? MAX_SEGMENT_LEN) && str_all ldh s
  && negb (starts_with (sep1 hyphen) s || ends_with (sep1 hyphen) s).

(** The name: a letter, then at most 62 letters and digits. *)
Definition name_ok (s : string) : bool :=
  first_is is_ascii_alphabetic s && (String.length s <=? MAX_SEGMENT_LEN)
  && str_all is_ascii_alphanumeric s.

Definition tld_ok (s : string) : bool := first_is is_ascii_alphabetic s && label_ok s.

(** At least one label, then the name. *)
Fixpoint labels_then_name (l : list string) : bool :=
  match l with
  | [m; n] => label_ok m && name_ok n
  | m :: l' => label_ok m && labels_then_name l'
  | [] => false
  end.

Definition nsid_shape (segments : list string) : bool :=
  match segments with
  | tld :: rest => tld_ok tld && labels_then_name rest
  | [] => false
  end.

(** [nsid] is strictly under [base]: its first segments are those of [base] and
    at least one follows. *)
Definition under (base nsid : string) : Prop :=
  exists rest, rest <> [] /\ str_split dot nsid = str_split dot base ++ rest.

(** ** Characters and labels *)

Lemma alnum_ldh c : is_ascii_alphanumeric c = true -> ldh c = true.
Proof. unfold ldh. by intros ->. Qed.

Lemma alpha_alnum c : is_ascii_alphabetic c = true -> is_ascii_alphanumeric c = true.
Proof. unfold is_ascii_alphanumeric. by intros ->. Qed.

Lemma ldh_not_hyphen c : ldh c = true -> (hyphen =c c) = false -> is_ascii_alphanumeric c = true.
Proof.
  unfold ldh. rewrite Ascii.eqb_sym. intros [?|?]%orb_true_iff ?; congruence.
Qed.

Lemma alnum_not_hyphen c : is_ascii_alphanumeric c = true -> (hyphen =c c) = false.
Proof. intros H. destruct (Ascii.eqb_spec hyphen c) as [<-|]; [by vm_compute in H|done]. Qed.

Lemma label_ok_clean s : label_ok s = true -> contains_char dot s = false.
Proof.
  unfold label_ok. intros H; bool_prop.
  eapply contains_char_all; [|done]. done.
Qed.

Lemma name_ok_clean s : name_ok s = true -> contains_char dot s = false.
Proof. unfold name_ok. intros H; bool_prop. eapply contains_char_all; [|done]. done. Qed.

(** A first byte in [p] and the rest of a label is a label that starts in [p]. *)
Lemma matches_label p s :
  (forall c, p c = true -> is_ascii_alphanumeric c = true) ->
  matches (RSeq (RClass p) label_rest) s <-> first_is p s = true /\ label_ok s = true.
Proof.
  intros Hp. rewrite matches_seq. setoid_rewrite matches_class. split.
  - intros (s1 & s2 & -> & (c & -> & Hc) & Hrest). simpl.
    assert (Ha : is_ascii_alphanumeric c = true) by auto. split; [done|].
    unfold label_ok. apply matches_opt in Hrest as [->|Hrest]; simpl.
    + pose proof (ends_with_char hyphen EmptyString c) as He. simpl in He.
      rewrite starts_with_char, He, alnum_not_hyphen by done.
      by rewrite (alnum_ldh c) by done.
    + apply matches_seq in Hrest as (u & s3 & -> & Hu & (d & -> & Hd)%matches_class).
      apply matches_class_upto in Hu as [Hlen Hall].
      pose proof (ends_with_char hyphen (String c u) d) as He. simpl in He.
      rewrite starts_with_char, He, !alnum_not_hyphen, (alnum_ldh c), str_all_app, Hall by done. simpl.
      rewrite (alnum_ldh d) by done. rewrite length_append. simpl.
      rewrite (proj2 (Nat.leb_le _ _)); [done|]. unfold MAX_SEGMENT_LEN. lia.
  - unfold label_ok. intros [Hf H]; bool_prop. destruct s as [|c t]; [done|].
    simpl in Hf. exists (String c EmptyString), t. split; [done|]. split; [eauto|].
    apply matches_opt. destruct (str_snoc t) as [->|(u & d & ->)]; [eauto|right].
    pose proof (ends_with_char hyphen (String c u) d) as He.
    simpl in *. rewrite He in *. rewrite str_all_app, length_append in *. simpl in *. bool_prop.
    apply MSeq; [apply matches_class_upto; split; [unfold MAX_SEGMENT_LEN in *; lia|done]|].
    apply MClass. apply ldh_not_hyphen; [done|]. by apply Ascii.eqb_neq.
Qed.

Lemma first_alnum_label s : label_ok s = true -> first_is is_ascii_alphanumeric s = true.
Proof.
  unfold label_ok. intros H; bool_prop. destruct s as [|c s]; [done|].
  rewrite starts_with_char in *. simpl in *. bool_prop.
  apply ldh_not_hyphen; [done|]. by apply Ascii.eqb_neq.
Qed.

Lemma matches_name s :
  matches (RSeq (RClass is_ascii_alphabetic) (RRep 0 62 (RClass is_ascii_alphanumeric))) s
  <-> name_ok s = true.
Proof.
  rewrite matches_seq. setoid_rewrite matches_class. setoid_rewrite matches_class_upto.
  unfold name_ok. rewrite !andb_true_iff, Nat.leb_le. split.
  - intros (s1 & s2 & -> & (c & -> & Hc) & Hl & Ha). simpl.
    rewrite Ha, alpha_alnum by done. unfold MAX_SEGMENT_LEN. repeat split; [done|lia].
  - destruct s as [|c s]; [naive_solver|]. simpl. intros [[Hc Hl] Ha]. bool_prop.
    unfold MAX_SEGMENT_LEN in *. exists (String c EmptyString), s. repeat split; eauto with lia.
Qed.

(** ** The regular expression and the segments *)

(** [.a.b.c] for the segments [a; b; c]. *)
Definition dotted (l : list string) : string :=
  foldr (fun x acc => String dot (x +:+ acc)) EmptyString l.

Lemma dotted_app l1 l2 : dotted (l1 ++ l2) = dotted l1 +:+ dotted l2.
Proof. induction l1; simpl; [done|]. by rewrite IHl1, append_assoc. Qed.

Lemma join_dotted x l : str_join (sep1 dot) (x :: l) = x +:+ dotted l.
Proof.
  revert x; induction l as [|y l IH]; intros x; [simpl; by rewrite append_nil_r|].
  rewrite str_join_cons by done. rewrite IH. done.
Qed.

Lemma matches_dot_seq r s :
  matches (RSeq (RClass is_dot) r) s <-> exists t, s = String dot t /\ matches r t.
Proof.
  rewrite matches_seq. setoid_rewrite matches_class. split.
  - intros (s1 & s2 & -> & (c & -> & Hc%Ascii.eqb_eq) & ?). subst. eauto.
  - intros (t & -> & ?). exists (String dot EmptyString), t. eauto.
Qed.

Lemma matches_labels s :
  matches (RPlus (RSeq (RClass is_dot) (RSeq (RClass is_ascii_alphanumeric) label_rest))) s
  <-> exists l, l <> [] /\ Forall (fun x => label_ok x = true) l /\ s = dotted l.
Proof.
  split.
  - intros H. remember (RPlus _) as r eqn:Er. induction H; simplify_eq.
    + apply matches_dot_seq in H as (t & -> & [_ Ht]%matches_label); [|done].
      exists [t]. simpl. rewrite append_nil_r. repeat constructor; done.
    + apply matches_dot_seq in H as (t & -> & [_ Ht]%matches_label); [|done].
      destruct IHmatches2 as (l & Hne & Hl & ->); [done|].
      exists (t :: l). by repeat constructor.
  - intros (l & Hne & Hl & ->). induction Hl as [|x l Hx Hl IH]; [done|].
    assert (matches (RSeq (RClass is_dot) (RSeq (RClass is_ascii_alphanumeric) label_rest))
      (String dot x)).
    { apply matches_dot_seq. exists x. split; [done|]. apply matches_label; [done|].
      by split; [apply first_alnum_label|]. }
    destruct (decide (l = [])) as [->|Hl'].
    + simpl. rewrite append_nil_r. by apply MPlusOne.
    + apply (MPlusMore _ (String dot x)); auto.
Qed.

Lemma labels_then_name_spec l :
  labels_then_name l = true <->
  exists ms n, l = ms ++ [n] /\ ms <> [] /\ Forall (fun x => label_ok x = true) ms /\ name_ok n = true.
Proof.
  induction l as [|m l IH]; [simpl; split; [done|intros ([] & ? & ? & ?); done]|].
  destruct l as [|n [|y l]].
  - simpl. rewrite andb_false_r. split; [done|].
    intros ([|? [|]] & ? & ? & ? & _); simplify_eq/=; done.
  - simpl. rewrite andb_true_iff. split.
    + intros [? ?]. by exists [m], n; repeat constructor.
    + intros ([|a [|]] & b & ? & ? & Ha & ?); simplify_eq/=; [|by destruct l].
      by apply Forall_cons in Ha as [Ha _].
  - change (labels_then_name (m :: n :: y :: l)) with
      (label_ok m && labels_then_name (n :: y :: l)).
    rewrite andb_true_iff, IH. split.
    + intros (Hm & ms & z & -> & ? & ? & ?). exists (m :: ms), z. by repeat constructor.
    + intros ([|a ms] & z & Heq & ? & Ha & Hz); simplify_eq/=. apply Forall_cons in Ha as [? ?].
      split; [done|]. exists ms, z. repeat split; [done| |done..]. by destruct ms.
Qed.

Lemma nsid_pattern_shape s :
  pattern_matches NSID_PATTERN s <-> nsid_shape (str_split dot s) = true.
Proof.
  transitivity (matches (body NSID_PATTERN) s).
  { unfold pattern_matches. simpl. split.
    - intros (pre & mid & post & -> & Hm & Hpre & Hpost). rewrite Hpre, Hpost by done.
      simpl. by rewrite append_nil_r.
    - intros Hm. exists EmptyString, s, EmptyString. by rewrite append_nil_r. }
  cbn [NSID_PATTERN body]. rewrite matches_seq.
  setoid_rewrite (matches_label is_ascii_alphabetic); [|apply alpha_alnum].
  setoid_rewrite (matches_seq (RPlus _)).
  setoid_rewrite matches_labels. setoid_rewrite matches_dot_seq. setoid_rewrite matches_name.
  split.
  - intros (tld & s2 & -> & [Hf Ht] & s3 & s4 & -> & (ms & Hms & Hall & ->) & n & -> & Hn).
    replace (tld +:+ dotted ms +:+ String dot n) with (str_join (sep1 dot) (tld :: ms ++ [n])).
    2: { rewrite join_dotted, dotted_app. simpl. by rewrite append_nil_r. }
    rewrite str_split_join; [|done|].
    + simpl. unfold tld_ok. rewrite Hf, Ht. simpl. apply labels_then_name_spec. eauto 8.
    + apply Forall_cons; split; [by apply label_ok_clean|]. apply Forall_app; split.
      * eapply Forall_impl; [done|]. intros ? ?. by apply label_ok_clean.
      * apply Forall_singleton. by apply name_ok_clean.
  - intros H. rewrite <- (str_join_split dot s). destruct (str_split dot s) as [|tld rest]; [done|].
    simpl in H. bool_prop. apply labels_then_name_spec in H0 as (ms & n & -> & ? & ? & ?).
    unfold tld_ok in H. bool_prop. rewrite join_dotted, dotted_app.
    exists tld, (dotted ms +:+ dotted [n]). repeat split; [done..|].
    exists (dotted ms), (dotted [n]). split; [done|]. split; [eauto|].
    exists n. simpl. by rewrite append_nil_r.
Qed.

(** ** Validation, patterns, authorities *)

Section Facts.
Context {RE : RegexEngine} {RS : RegexEngineSpec RE}.

Lemma nsid_regex_shape s : regex_is_match NSID_PATTERN s = nsid_shape (str_split dot s).
Proof. apply eq_true_iff_eq. rewrite regex_is_match_spec. apply nsid_pattern_shape. Qed.

Lemma validate_nsid_ok s :
  validate_nsid s = Ok tt <->
  String.length s <= MAX_NSID_LEN /\ nsid_shape (str_split dot s) = true.
Proof.
  unfold validate_nsid. rewrite nsid_regex_shape.
  destruct (Nat.ltb_spec MAX_NSID_LEN (String.length s));
    destruct (nsid_shape (str_split dot s)); simpl; split; naive_solver lia.
Qed.

Lemma nsid_shape_cons tld rest :
  nsid_shape (tld :: rest) = true <->
  tld_ok tld = true /\ exists ms n, rest = ms ++ [n] /\ ms <> []
    /\ Forall (fun x => label_ok x = true) ms /\ name_ok n = true.
Proof. simpl. by rewrite andb_true_iff, labels_then_name_spec. Qed.

(** An NSID is a prefix of at least two labels and a name. *)
Lemma nsid_shape_snoc segs n :
  nsid_shape (segs ++ [n]) = true <->
  2 <= length segs /\ Forall (fun x => label_ok x = true) segs
  /\ (exists tld rest, segs = tld :: rest /\ first_is is_ascii_alphabetic tld = true)
  /\ name_ok n = true.
Proof.
  destruct segs as [|tld rest]; [simpl; naive_solver lia|].
  change ((tld :: rest) ++ [n]) with (tld :: (rest ++ [n])). rewrite nsid_shape_cons.
  unfold tld_ok. rewrite andb_true_iff, Forall_cons. split.
  - intros ([Hf Hl] & ms & n' & [-> [= ->]]%app_inj_2 & Hne & Hall & Hn); [|done].
    repeat split; eauto. destruct ms; [done|simpl; lia].
  - intros (Hlen & [Hl Hall] & (? & ? & [= <- <-] & Hf) & Hn). split; [done|].
    exists rest, n. repeat split; try done. by destruct rest; [simpl in Hlen; lia|].
Qed.

Lemma check_segment_ok pat idx seg :
  check_segment pat idx seg = Ok tt <->
  label_ok seg = true /\ (idx = 0 -> first_is is_ascii_alphabetic seg = true).
Proof.
  unfold check_segment, label_ok, nonempty.
  destruct (seg =s EmptyString); [naive_solver|].
  destruct (Nat.ltb_spec MAX_SEGMENT_LEN (String.length seg)) as [Hlt|Hle].
  { rewrite (proj2 (Nat.leb_gt _ _)) by done. naive_solver. }
  rewrite (proj2 (Nat.leb_le _ _)) by done.
  destruct (str_all ldh seg); [|naive_solver].
  destruct (starts_with _ seg || ends_with _ seg); [naive_solver|].
  destruct idx; simpl; [|naive_solver].
  destruct (first_is is_ascii_alphabetic seg); naive_solver.
Qed.

Lemma check_segments_ok pat idx segs :
  check_segments pat idx segs = Ok tt <->
  Forall (fun x => label_ok x = true) segs
  /\ (idx = 0 -> Forall (fun x => first_is is_ascii_alphabetic x = true) (take 1 segs)).
Proof.
  revert idx; induction segs as [|x segs IH]; intros idx; simpl; [naive_solver|].
  rewrite Forall_cons. pose proof (check_segment_ok pat idx x) as Hx.
  destruct (check_segment pat idx x) as [[]|e].
  - rewrite IH. rewrite Forall_singleton. naive_solver.
  - rewrite Forall_singleton. naive_solver.
Qed.

Lemma validate_wildcard base :
  validate_nsid_pattern (base +:+ ".*") = Ok tt <->
  String.length base <= MAX_NSID_LEN /\ 2 <= length (str_split dot base)
  /\ Forall (fun x => label_ok x = true) (str_split dot base)
  /\ exists tld rest, str_split dot base = tld :: rest
       /\ first_is is_ascii_alphabetic tld = true.
Proof.
  unfold validate_nsid_pattern. rewrite strip_suffix_app.
  destruct (Nat.ltb_spec MAX_NSID_LEN (String.length base)); [split; naive_solver lia|].
  destruct (str_split_cons dot base) as (tld & rest & E). rewrite E.
  destruct (Nat.ltb_spec (length (tld :: rest)) 2); [split; naive_solver lia|].
  rewrite check_segments_ok. simpl take. rewrite Forall_singleton. naive_solver.
Qed.

(** The bytes of a valid NSID. *)
Lemma validate_nsid_chars s :
  validate_nsid s = Ok tt -> str_all (fun c => ldh c || is_dot c) s = true.
Proof.
  intros [_ Hs]%validate_nsid_ok. rewrite <- (str_join_split dot s).
  destruct (str_split dot s) as [|tld rest] eqn:E; [done|]. rewrite <- E in *.
  pose proof (app_removelast_last EmptyString (str_split_nonempty dot s)) as Hlast.
  rewrite Hlast in Hs. apply nsid_shape_snoc in Hs as (_ & Hall & _ & Hn).
  assert (Forall (fun x => str_all ldh x = true) (str_split dot s)) as Hldh.
  { rewrite Hlast. apply Forall_app. split.
    - eapply Forall_impl; [done|]. intros x Hx. unfold label_ok in Hx. by bool_prop.
    - apply Forall_singleton. unfold name_ok in Hn. bool_prop. eapply str_all_impl; [|done].
      intros c Hc. unfold ldh. by rewrite Hc. }
  clear -Hldh. induction Hldh as [|x l Hx Hl IH]; [done|].
  assert (Hx' : str_all (fun c => ldh c || is_dot c) x = true)
    by (eapply str_all_impl; [|done]; intros c ->; done).
  destruct l as [|y l]; [done|]. rewrite str_join_cons by done.
  rewrite !str_all_app, Hx', IH. done.
Qed.

(** For every text, the regular-expression validator agrees with the
    segment-wise reference: a text over 317 bytes is refused as too long, and
    any other is accepted exactly when its dot-separated segments are a
    letter-initial domain label, one or more domain labels, and a
    letter-initial alphanumeric name of at most 63 bytes. *)
Theorem validate_nsid_segments s :
  validate_nsid s =
    if MAX_NSID_LEN <? String.length s then Err (TooLong s)
    else if nsid_shape (str_split dot s) then Ok tt
    else Err (Malformed s).
Proof.
  unfold validate_nsid. rewrite nsid_regex_shape. by destruct (nsid_shape (str_split dot s)).
Qed.

(** A wildcard pattern [base.*] is accepted exactly when the NSIDs
    directly under [base] are valid: for any valid name that keeps the total
    within 317 bytes, [base.name] is a valid NSID if and only if [base.*] is a
    valid pattern. *)
Theorem wildcard_pattern_iff_children base name :
  name_ok name = true ->
  String.length (base +:+ String dot name) <= MAX_NSID_LEN ->
  validate_nsid_pattern (base +:+ ".*") = Ok tt
  <-> validate_nsid (base +:+ String dot name) = Ok tt.
Proof.
  intros Hn Hlen. rewrite validate_wildcard, validate_nsid_ok, str_split_app.
  rewrite (str_split_none dot name) by (by apply name_ok_clean). rewrite nsid_shape_snoc.
  rewrite length_append in *. simpl in Hlen. split; [naive_solver|].
  intros (_ & ? & ? & ? & _). repeat split; auto. lia.
Qed.

(** The authority of a valid NSID is defined and loses only the name:
    reversing the authority's labels and appending the name gives the NSID's
    segments back, so two NSIDs with the same authority differ only in their
    name; the authority has at least two labels, each a valid domain label.
    An invalid NSID has no authority, only validation's own error. *)
Theorem nsid_authority_spec nsid :
  match validate_nsid nsid with
  | Ok _ =>
      exists auth name,
        nsid_authority nsid = Ok auth
        /\ str_split dot nsid = reverse (str_split dot auth) ++ [name]
        /\ name_ok name = true
        /\ 2 <= length (str_split dot auth)
        /\ Forall (fun x => label_ok x = true) (str_split dot auth)
  | Err e => nsid_authority nsid = Err e
  end.
Proof.
  unfold nsid_authority. destruct (validate_nsid nsid) as [[]|e] eqn:E; [|done].
  apply validate_nsid_ok in E as [_ Hs].
  pose proof (app_removelast_last EmptyString (str_split_nonempty dot nsid)) as Hlast.
  set (segs := removelast (str_split dot nsid)) in *.
  set (n := List.last (str_split dot nsid) EmptyString) in *.
  rewrite Hlast in Hs. apply nsid_shape_snoc in Hs as (Hlen & Hall & _ & Hn).
  assert (Hsplit : str_split dot (str_join (sep1 dot) (reverse segs)) = reverse segs).
  { apply str_split_join.
    - intros H%(f_equal length). rewrite length_reverse in H. simpl in H. lia.
    - apply Forall_reverse. eapply Forall_impl; [done|]. intros ? ?. by apply label_ok_clean. }
  exists (str_join (sep1 dot) (reverse segs)), n. rewrite Hsplit, reverse_involutive, length_reverse.
  repeat split; try done. by apply Forall_reverse.
Qed.

End Facts.

(** ** Witnesses, with the derivative engine *)

Lemma validate_nsid_segments_witness :
  validate_nsid (RE := Derivative.engine) "pics.2bit.feed.getPhotos" = Ok tt.
Proof. rewrite validate_nsid_segments. reflexivity. Defined.

Lemma wildcard_pattern_iff_children_witness :
  validate_nsid (RE := Derivative.engine) "com.example.getPost" = Ok tt.
Proof.
  apply (wildcard_pattern_iff_children (RE := Derivative.engine) "com.example" "getPost");
    [reflexivity|vm_compute; lia|reflexivity].
Defined.

Lemma nsid_authority_spec_witness :
  nsid_authority (RE := Derivative.engine) "com-example" = Err (Malformed "com-example").
Proof. exact (nsid_authority_spec (RE := Derivative.engine) "com-example"). Defined.
