(* ===== verification/ProxyConfig.v ===== *)
(** * The XRPC proxy's method filter

    Models [src/proxy_config.rs]: which methods the proxy may forward
    ([ProxyConfig::allows]), by exact NSIDs and [prefix.*] patterns. *)

From S2P Require Import Prelude RustStr Regex Nsid.

(** ** Definitions *)

Inductive ProxyMode : Type := Disabled | Open | Allowlist | Blocklist.
Inductive ProxyRouting : Type := Authority | ServiceProxy.

Record ProxyConfig : Type := {
  mode : ProxyMode;
  nsids : list string;
  routing : ProxyRouting;
}.

Definition default_routing : ProxyRouting := Authority.
Definition default_config : ProxyConfig :=
  {| mode := Open; nsids := []; routing := default_routing |}.

(** The byte at index [n]; [nsid.as_bytes()[n]] panics past the end, which the
    length test before it excludes. *)
Definition byte_at (n : nat) (s : string) : option ascii :=
  match str_drop n s with String c _ => Some c | EmptyString => None end.

Definition nsid_matches (pattern nsid : string) : bool :=
  match strip_suffix ".*" pattern with
  | Some prefix =>
      starts_with prefix nsid
      && (String.length prefix <? String.length nsid)
      && match byte_at (String.length prefix) nsid with Some c => c =c dot | None => false end
  | None => pattern =s nsid
  end.

Definition allows (cfg : ProxyConfig) (nsid : string) : bool :=
  match mode cfg with
  | Disabled => false
  | Open => true
  | Allowlist => existsb (fun pattern => nsid_matches pattern nsid) (nsids cfg)
  | Blocklist => negb (existsb (fun pattern => nsid_matches pattern nsid) (nsids cfg))
  end.

(** ** Matching is segment by segment *)

Lemma nsid_matches_wildcard base nsid :
  nsid_matches (base +:+ ".*") nsid = true <-> under base nsid.
Proof.
  unfold nsid_matches, under. rewrite strip_suffix_app, !andb_true_iff, starts_with_true.
  split.
  - intros [[[r ->] _] Hb]. unfold byte_at in Hb. rewrite str_drop_app in Hb.
    destruct r as [|c r]; [done|]. apply Ascii.eqb_eq in Hb as ->.
    exists (str_split dot r). split; [apply str_split_nonempty|apply str_split_app].
  - intros (rest & Hne & Hsplit).
    assert (nsid = base +:+ String dot (str_join (sep1 dot) rest)) as ->.
    { rewrite <- (str_join_split dot nsid), Hsplit.
      rewrite str_join_app by (done || apply str_split_nonempty). by rewrite str_join_split. }
    split; [split; [by eexists|]|].
    + apply Nat.ltb_lt. rewrite length_append. simpl. lia.
    + unfold byte_at. rewrite str_drop_app. by apply Ascii.eqb_refl.
Qed.

(** The proxy's filter respects segment boundaries: in allowlist mode a
    method is forwarded exactly when some entry is the method itself (an entry
    not ending in [.*]) or is [base.*] with the method strictly under [base],
    segment by segment; blocklist mode is its exact negation; [Disabled]
    forwards nothing and [Open] everything. *)
Theorem proxy_allows_spec cfg nsid :
  allows cfg nsid = true <->
  match mode cfg with
  | Disabled => False
  | Open => True
  | m =>
      let listed :=
        exists pattern, pattern ∈ nsids cfg /\
          ((exists base, pattern = base +:+ ".*" /\ under base nsid)
           \/ (strip_suffix ".*" pattern = None /\ pattern = nsid)) in
      match m with Allowlist => listed | _ => ~ listed end
  end.
Proof.
  assert (H : forall pattern, nsid_matches pattern nsid = true <->
    (exists base, pattern = base +:+ ".*" /\ under base nsid)
     \/ (strip_suffix ".*" pattern = None /\ pattern = nsid)).
  { intros pattern. destruct (strip_suffix ".*" pattern) as [base|] eqn:E.
    - apply strip_suffix_Some in E as ->. rewrite nsid_matches_wildcard. split; [eauto|].
      intros [(b & Hb%append_cancel_r & ?)|[? _]]; [by subst|done].
    - unfold nsid_matches. rewrite E, String.eqb_eq. split; [eauto|].
      intros [(b & -> & _)|[_ ?]]; [by rewrite strip_suffix_app in E|done]. }
  unfold allows. destruct (mode cfg); [naive_solver|naive_solver| |];
    rewrite ?negb_true_iff, <- ?not_true_iff_false, existsb_elem; setoid_rewrite H; done.
Qed.
