(* ===== verification/UrlCoding.v ===== *)
(** * Percent-coding

    The scope code percent-decodes and percent-encodes with the third-party
    crate [urlencoding].  Its two functions are the classes [UrlDecoder] and
    [UrlEncoder]; [UrlDecoderSpec] and [UrlEncoderSpec] are the documented
    facts the code relies on.  Module [Percent] is a concrete codec that
    satisfies both, with which the examples of the development are evaluated. *)

From S2P Require Import Prelude RustStr.

Definition percent : ascii := "%".

(** [urlencoding::decode(s).map(|c| c.into_owned()).ok()]. *)
Class UrlDecoder : Type := urlencoding_decode : string -> option string.

(** [urlencoding::encode(s)]. *)
Class UrlEncoder : Type := urlencoding_encode : string -> string.

(** Text without a percent sign decodes to itself. *)
Class UrlDecoderSpec (UD : UrlDecoder) : Prop :=
  urlencoding_decode_plain :
    forall s, contains_char percent s = false -> urlencoding_decode s = Some s.

(** The bytes [encode] leaves alone: RFC 3986 unreserved. *)
Definition unreserved (c : ascii) : bool :=
  is_ascii_alphanumeric c || (c =c "-"%char) || (c =c "_"%char) || (c =c "."%char) || (c =c "~"%char).

(** [encode] writes unreserved bytes and percent signs only, leaves unreserved
    text alone, and [decode] reads its output back. *)
Class UrlEncoderSpec (UD : UrlDecoder) (UE : UrlEncoder) : Prop := {
  urlencoding_encode_chars :
    forall s, str_all (fun c => unreserved c || (c =c percent)) (urlencoding_encode s) = true;
  urlencoding_encode_unreserved :
    forall s, str_all unreserved s = true -> urlencoding_encode s = s;
  urlencoding_decode_encode :
    forall s, urlencoding_decode (urlencoding_encode s) = Some s;
}.

Module Percent.

Definition hex_value (c : ascii) : option N :=
  if is_ascii_digit c then Some (code c - 48)%N
  else if in_range "A" "F" c then Some (code c - 55)%N
  else if in_range "a" "f" c then Some (code c - 87)%N
  else None.

Definition hex_digit (n : N) : ascii := if (n <? 10)%N then ascii_of_N (48 + n) else ascii_of_N (55 + n).

Fixpoint decode (s : string) : string :=
  match s with
  | EmptyString => EmptyString
  | String c rest =>
      if c =c percent then
        match rest with
        | String h (String l rest') =>
            match hex_value h, hex_value l with
            | Some a, Some b => String (ascii_of_N (16 * a + b)) (decode rest')
            | _, _ => String c (decode rest)
            end
        | _ => String c (decode rest)
        end
      else String c (decode rest)
  end.

Definition encode_char (c : ascii) : string :=
  if unreserved c then sep1 c
  else String percent (String (hex_digit (code c / 16)) (sep1 (hex_digit (code c mod 16)))).

Fixpoint encode (s : string) : string :=
  match s with
  | EmptyString => EmptyString
  | String c rest => encode_char c +:+ encode rest
  end.

#[export] Instance decoder : UrlDecoder := fun s => Some (decode s).
#[export] Instance encoder : UrlEncoder := encode.

Lemma decode_plain s : contains_char percent s = false -> decode s = s.
Proof.
  induction s as [|c s IH]; simpl; [done|]. intros [Hc Hs]%orb_false_iff.
  rewrite Ascii.eqb_sym in Hc. rewrite Hc. by rewrite IH.
Qed.

Lemma decode_encode_char c s : decode (encode_char c +:+ s) = String c (decode s).
Proof.
  destruct c as [[] [] [] [] [] [] [] []]; reflexivity.
Qed.

Lemma decode_encode s : decode (encode s) = s.
Proof. induction s as [|c s IH]; simpl; [done|]. by rewrite decode_encode_char, IH. Qed.

Lemma encode_unreserved s : str_all unreserved s = true -> encode s = s.
Proof.
  induction s as [|c s IH]; simpl; [done|]. intros [Hc Hs]%andb_true_iff.
  unfold encode_char. rewrite Hc, IH by done. done.
Qed.

Lemma encode_chars s : str_all (fun c => unreserved c || (c =c percent)) (encode s) = true.
Proof.
  induction s as [|c s IH]; simpl; [done|]. rewrite str_all_app, IH, andb_true_r.
  destruct c as [[] [] [] [] [] [] [] []]; reflexivity.
Qed.

#[export] Instance decoder_spec : UrlDecoderSpec decoder.
Proof. intros s Hs. unfold urlencoding_decode, decoder. by rewrite decode_plain. Qed.

#[export] Instance encoder_spec : UrlEncoderSpec decoder encoder.
Proof.
  split.
  - exact encode_chars.
  - exact encode_unreserved.
  - intros s. unfold urlencoding_decode, decoder. by rewrite decode_encode.
Qed.

End Percent.
