(* ===== verification/ScopeSyntax.v ===== *)
(** * Scope-string syntax

    Models [crates/happyview-scopes/src/syntax.rs]: the split of a scope string
    [resource[:positional][?params]] and the lookups on its parameters.
    Percent-decoding is the interface [UrlDecoder] of [UrlCoding]. *)

From S2P Require Import Prelude RustStr UrlCoding.

(** ** Definitions *)

Inductive SingleParam : Type :=
| Absent
| One (v : string)
| Repeated.

Definition single_value (p : SingleParam) : option string :=
  match p with One v => Some v | _ => None end.

Definition single_ok (p : SingleParam) : option (option string) :=
  match p with
  | Absent => Some None
  | One v => Some (Some v)
  | Repeated => None
  end.

Record ScopeSyntax : Type := mkScopeSyntax {
  prefix : string;
  positional : option string;
  params : list (string * string);
  has_query : bool;
}.

Definition plus : ascii := "+".
Definition colon : ascii := ":".
Definition question : ascii := "?".
Definition ampersand : ascii := "&".
Definition equals : ascii := "=".

Definition min_idx (a b : option nat) : option nat :=
  match a, b with
  | Some a, Some b => Some (Nat.min a b)
  | Some a, None => Some a
  | None, Some b => Some b
  | None, None => None
  end.

Section Model.
Context {UD : UrlDecoder}.

Definition decode_form (value : string) : string :=
  let plus_decoded := replace_char plus sp value in
  match urlencoding_decode plus_decoded with Some c => c | None => plus_decoded end.

Definition decode_uri_component (value : string) : string :=
  match urlencoding_decode value with Some c => c | None => value end.

Definition parse_pair (pair : string) : string * string :=
  match str_split_once (Ascii.eqb equals) pair with
  | Some (k, v) => (decode_form k, decode_form v)
  | None => (decode_form pair, EmptyString)
  end.

Definition parse_query (query : string) : list (string * string) :=
  parse_pair <$> filter nonempty (str_split ampersand query).

Definition parse (scope : string) : ScopeSyntax :=
  let param_idx := str_find (Ascii.eqb question) scope in
  let colon_idx := str_find (Ascii.eqb colon) scope in
  match min_idx param_idx colon_idx with
  | None => mkScopeSyntax scope None [] false
  | Some prefix_end =>
      let prefix := str_take prefix_end scope in
      let positional :=
        match colon_idx, param_idx with
        | Some c, None => Some (decode_uri_component (str_drop (c + 1) scope))
        | Some c, Some p =>
            if c <? p then
              Some (decode_uri_component (str_take (p - (c + 1)) (str_drop (c + 1) scope)))
            else None
        | _, _ => None
        end in
      let '(params, has_query) :=
        match param_idx with
        | Some p =>
            if p <? String.length scope - 1 then (parse_query (str_drop (p + 1) scope), true)
            else ([], false)
        | None => ([], false)
        end in
      mkScopeSyntax prefix positional params has_query
  end.

End Model.

(** Every distinct key, in first-appearance order. *)
Fixpoint keys_go (out : list string) (ps : list (string * string)) : list string :=
  match ps with
  | [] => out
  | (k, _) :: ps' => keys_go (if str_mem k out then out else out ++ [k]) ps'
  end.

Definition keys (syn : ScopeSyntax) : list string := keys_go [] (params syn).

Fixpoint get_single_go (key : string) (found : option string) (ps : list (string * string))
    : SingleParam :=
  match ps with
  | [] => match found with Some v => One v | None => Absent end
  | (k, v) :: ps' =>
      if k =s key then
        match found with
        | Some _ => Repeated
        | None => get_single_go key (Some v) ps'
        end
      else get_single_go key found ps'
  end.

Definition get_single (syn : ScopeSyntax) (key : string) : SingleParam :=
  get_single_go key None (params syn).

Definition get_multi (syn : ScopeSyntax) (key : string) : option (list string) :=
  let values := snd <$> filter (fun kv => Is_true (fst kv =s key)) (params syn) in
  match values with [] => None | _ => Some values end.

(** ** Facts about lookups *)

Lemma keys_go_elem out ps k :
  k ∈ keys_go out ps <-> k ∈ out \/ exists v, (k, v) ∈ ps.
Proof.
  revert out; induction ps as [|[k' v'] ps IH]; intros out; simpl.
  - split; [eauto|]. intros [?|[v []%not_elem_of_nil]]; done.
  - rewrite IH. setoid_rewrite elem_of_cons.
    destruct (str_mem k' out) eqn:E; [apply str_mem_true in E|rewrite elem_of_app, list_elem_of_singleton];
      naive_solver.
Qed.

Lemma keys_elem syn k : k ∈ keys syn <-> exists v, (k, v) ∈ params syn.
Proof. unfold keys. rewrite keys_go_elem. set_solver. Qed.

(** [get_single] and [get_multi] agree: none, exactly one, or several values. *)
Lemma get_single_go_spec key found ps :
  get_single_go key found ps =
    match found, snd <$> filter (fun kv => Is_true (fst kv =s key)) ps with
    | None, [] => Absent
    | None, [v] => One v
    | Some v, [] => One v
    | _, _ => Repeated
    end.
Proof.
  revert found; induction ps as [|[k v] ps IH]; intros found; simpl; [by destruct found|].
  rewrite filter_cons. simpl. destruct (k =s key); simpl; rewrite IH; [|done].
  destruct found; [done|]. done.
Qed.

Lemma get_single_multi syn key :
  get_single syn key =
    match get_multi syn key with
    | None => Absent
    | Some [v] => One v
    | Some _ => Repeated
    end.
Proof.
  unfold get_single, get_multi. rewrite get_single_go_spec.
  by destruct (snd <$> _) as [|? []].
Qed.

Lemma get_multi_nonempty syn key l : get_multi syn key = Some l -> l <> [].
Proof. unfold get_multi. destruct (snd <$> _); naive_solver. Qed.

(** ** Facts about parsing *)

Section Facts.
Context {UD : UrlDecoder} {US : UrlDecoderSpec UD}.

(** Text that neither decoder changes. *)
Definition plain (s : string) : bool :=
  negb (str_any (fun c => (percent =c c) || (plus =c c)) s).

Lemma plain_chars s :
  plain s = true -> contains_char percent s = false /\ contains_char plus s = false.
Proof.
  unfold plain. intros H; bool_prop. induction s as [|x s IH]; simpl in *; [done|].
  bool_prop. destruct IH; [done|]. rewrite !orb_false_iff, !Ascii.eqb_neq. naive_solver.
Qed.

Lemma decode_form_plain s : plain s = true -> decode_form s = s.
Proof.
  intros [? ?]%plain_chars. unfold decode_form.
  by rewrite replace_char_none, urlencoding_decode_plain.
Qed.

Lemma decode_uri_component_plain s : plain s = true -> decode_uri_component s = s.
Proof. intros [? ?]%plain_chars. unfold decode_uri_component. by rewrite urlencoding_decode_plain. Qed.

(** The three shapes of a scope string whose prefix has no separator. *)
Lemma parse_bare p :
  contains_char colon p = false -> contains_char question p = false ->
  parse p = mkScopeSyntax p None [] false.
Proof.
  intros Hc Hq. unfold parse. by rewrite !(proj2 (str_find_None _ _)).
Qed.

Lemma parse_positional p v :
  contains_char colon p = false -> contains_char question p = false ->
  contains_char question v = false ->
  parse (p +:+ String colon v) = mkScopeSyntax p (Some (decode_uri_component v)) [] false.
Proof.
  intros Hc Hq Hv. unfold parse.
  rewrite (str_find_app (Ascii.eqb colon) p colon v) by done.
  rewrite (proj2 (str_find_None (Ascii.eqb question) _)).
  2: { rewrite str_any_app. simpl. by rewrite Hq, Hv. }
  simpl. by rewrite str_take_app, str_drop_app_S.
Qed.

Lemma parse_positional_query p v q :
  contains_char colon p = false -> contains_char question p = false ->
  contains_char question v = false -> q <> EmptyString ->
  parse (p +:+ String colon (v +:+ String question q)) =
    mkScopeSyntax p (Some (decode_uri_component v)) (parse_query q) true.
Proof.
  intros Hc Hq Hv Hne. unfold parse.
  rewrite (str_find_app (Ascii.eqb colon) p colon) by done.
  replace (str_find (Ascii.eqb question) _) with
    (Some (String.length p + 1 + String.length v)).
  2: { symmetry. apply str_find_Some. exists (p +:+ String colon v), question, q.
       rewrite append_assoc, length_append, str_any_app. simpl. rewrite Hq, Hv.
       repeat split; lia. }
  cbn [min_idx]. rewrite Nat.min_r by lia. rewrite str_take_app.
  rewrite (proj2 (Nat.ltb_lt (String.length p) (String.length p + 1 + String.length v))) by lia. rewrite str_drop_app_S.
  replace (String.length p + 1 + String.length v - (String.length p + 1)) with (String.length v) by lia.
  rewrite str_take_app.
  destruct (Nat.ltb_spec (String.length p + 1 + String.length v)
    (String.length (p +:+ String colon (v +:+ String question q)) - 1)) as [_|Hlen].
  - replace (p +:+ String colon (v +:+ String question q))
      with ((p +:+ String colon v) +:+ String question q) by (by rewrite append_assoc).
    replace (String.length p + 1 + String.length v) with (String.length (p +:+ String colon v))
      by (rewrite length_append; simpl; lia).
    by rewrite str_drop_app_S.
  - exfalso. autorewrite with hv in Hlen. simpl in Hlen. autorewrite with hv in Hlen.
    simpl in Hlen. destruct q; [done|]. simpl in Hlen. lia.
Qed.

(** A single [key=value] pair of plain text. *)
Lemma parse_query_single k v :
  plain k = true -> plain v = true ->
  contains_char equals k = false -> contains_char ampersand k = false ->
  contains_char ampersand v = false ->
  parse_query (k +:+ String equals v) = [(k, v)].
Proof.
  intros Hk Hv He Ha Hb. unfold parse_query.
  rewrite str_split_none by (rewrite str_any_app; simpl; by rewrite Ha, Hb).
  assert (Is_true (nonempty (k +:+ String equals v))).
  { unfold nonempty. by destruct k. }
  rewrite filter_cons_True by done. simpl. unfold parse_pair.
  rewrite str_split_once_app by done. by rewrite !decode_form_plain.
Qed.

(** A query string written as [key=value] pairs joined with ampersands. *)
Definition pair_text (kv : string * string) : string := kv.1 +:+ String equals kv.2.

Lemma parse_query_join l :
  l <> [] ->
  Forall (fun kv => contains_char equals kv.1 = false /\ contains_char ampersand kv.1 = false
                    /\ contains_char ampersand kv.2 = false) l ->
  parse_query (str_join (sep1 ampersand) (pair_text <$> l))
  = (fun kv => (decode_form kv.1, decode_form kv.2)) <$> l.
Proof.
  intros Hne Hl. unfold parse_query. rewrite str_split_join.
  2: { by destruct l. }
  2: { apply Forall_fmap. eapply Forall_impl; [done|]. intros [k v] (_ & Hk & Hv). simpl in *.
       unfold pair_text. simpl. rewrite str_any_app. simpl. by rewrite Hk, Hv. }
  clear Hne. induction Hl as [|[k v] l (He & _) Hl IH]; [done|]. simpl in He. rewrite !fmap_cons.
  assert (Is_true (nonempty (pair_text (k, v)))) by (unfold nonempty, pair_text; by destruct k).
  rewrite filter_cons_True by done. rewrite fmap_cons, IH. f_equal.
  unfold parse_pair, pair_text. simpl. by rewrite str_split_once_app.
Qed.

End Facts.

Section EncoderFacts.
Context {UD : UrlDecoder} {UE : UrlEncoder} {US : UrlEncoderSpec UD UE}.

Lemma encode_no_char c s :
  unreserved c = false -> (c =c percent) = false -> contains_char c (urlencoding_encode s) = false.
Proof.
  intros Hu Hp. eapply contains_char_all; [|apply urlencoding_encode_chars].
  simpl. by rewrite Hu, Hp.
Qed.

Lemma decode_form_encode s : decode_form (urlencoding_encode s) = s.
Proof.
  unfold decode_form. rewrite replace_char_none by (by apply encode_no_char).
  by rewrite urlencoding_decode_encode.
Qed.

End EncoderFacts.
