(* ===== verification/ScopeResources.v ===== *)
(** * The protocol's resource permissions

    Models [crates/happyview-scopes/src/resources.rs]: [repo], [rpc], [blob],
    [identity], [account] and [space] permissions, each with its parser, its
    validating constructor and its matcher. *)

From S2P Require Import Prelude RustStr Regex Nsid UrlCoding ScopeSyntax.

(** ** Shared parser rules *)

Definition star : string := "*".

Definition has_only_known_keys (syn : ScopeSyntax) (known : list string) : bool :=
  forallb (fun k => str_mem k known) (keys syn).

Definition positional_conflicts (syn : ScopeSyntax) (name : string) : bool :=
  bool_decide (is_Some (positional syn)) && bool_decide (is_Some (get_multi syn name)).

Definition multi_or_positional (syn : ScopeSyntax) (name : string) : option (list string) :=
  match get_multi syn name with
  | Some values => match values with [] => None | _ => Some values end
  | None => (fun p => [p]) <$> positional syn
  end.

Definition single_or_positional (syn : ScopeSyntax) (name : string) : option (option string) :=
  v ← single_ok (get_single syn name);
  match v with
  | Some v => Some (Some v)
  | None => Some (positional syn)
  end.

(** ** DID references *)

Definition hash : ascii := "#".

(** [b'2'..=b'7'] or a lower-case letter. *)
Definition base32_lower (b : ascii) : bool := is_ascii_lowercase b || in_range "2" "7" b.

Definition is_hostname (host : string) : bool :=
  if host =s EmptyString then false
  else forallb (fun label => nonempty label && str_all ldh label) (str_split dot host).

Definition is_supported_did (did : string) : bool :=
  match strip_prefix "did:plc:" did with
  | Some id => (String.length id =? 24) && str_all base32_lower id
  | None =>
      match strip_prefix "did:web:" did with
      | Some host => is_hostname host
      | None => false
      end
  end.

Definition is_absolute_did_ref (value : string) : bool :=
  match str_split_once (Ascii.eqb hash) value with
  | None => false
  | Some (did, fragment) =>
      if (fragment =s EmptyString) || contains_char hash fragment then false
      else is_supported_did did
  end.

(** Any syntactically valid DID. *)
Definition did_id_char (b : ascii) : bool :=
  is_ascii_alphanumeric b || (b =c "."%char) || (b =c "-"%char) || (b =c "_"%char)
  || (b =c ":"%char) || (b =c "%"%char).

Definition is_valid_did (value : string) : bool :=
  match strip_prefix "did:" value with
  | None => false
  | Some rest =>
      match str_split_once (Ascii.eqb colon) rest with
      | None => false
      | Some (method, id) =>
          if (method =s EmptyString) || negb (str_all is_ascii_lowercase method) then false
          else if (id =s EmptyString) || ends_with (sep1 colon) id then false
          else str_all did_id_char id
      end
  end.

Definition record_key_char (b : ascii) : bool :=
  is_ascii_alphanumeric b || (b =c "."%char) || (b =c "-"%char) || (b =c "_"%char)
  || (b =c ":"%char) || (b =c "~"%char).

Definition is_valid_record_key (value : string) : bool :=
  if (value =s EmptyString) || (512 <? String.length value) || (value =s ".") || (value =s "..")
  then false
  else str_all record_key_char value.

(** ** MIME types and accept patterns *)

Definition slash : ascii := "/".
Definition asterisk : ascii := "*".

Definition is_type_slash_subtype (value : string) : bool :=
  match str_find (Ascii.eqb slash) value with
  | None => false
  | Some i =>
      negb (i =? 0) && negb (i =? String.length value - 1)
      && negb (contains_char slash (str_drop (i + 1) value))
      && negb (contains_char sp value)
  end.

Definition is_mime (value : string) : bool :=
  is_type_slash_subtype value && negb (contains_char asterisk value).

Definition any_mime : string := "*/*".

Definition is_accept (value : string) : bool :=
  if value =s any_mime then true
  else if negb (is_type_slash_subtype value) then false
  else negb (contains_char asterisk value) || ends_with "/*" value.

Definition accept_covers (held wanted : string) : bool :=
  if held =s any_mime then true
  else if wanted =s any_mime then false
  else match strip_suffix star held with
       | Some prefix => starts_with prefix wanted
       | None => held =s wanted
       end.

Definition accept_matches (accept mime : string) : bool :=
  if accept =s any_mime then true
  else match strip_suffix star accept with
       | Some prefix => starts_with prefix mime
       | None => accept =s mime
       end.

(** ** Actions *)

Inductive RepoAction : Type := RepoCreate | RepoUpdate | RepoDelete.

#[export] Instance RepoAction_eq_dec : EqDecision RepoAction.
Proof. solve_decision. Defined.

Definition RepoAction_as_str (a : RepoAction) : string :=
  match a with RepoCreate => "create" | RepoUpdate => "update" | RepoDelete => "delete" end.

Definition RepoAction_parse (value : string) : option RepoAction :=
  if value =s "create" then Some RepoCreate
  else if value =s "update" then Some RepoUpdate
  else if value =s "delete" then Some RepoDelete
  else None.

Definition RepoAction_ALL : list RepoAction := [RepoCreate; RepoUpdate; RepoDelete].

Inductive AccountAction : Type := AccountRead | AccountManage.

#[export] Instance AccountAction_eq_dec : EqDecision AccountAction.
Proof. solve_decision. Defined.

Definition AccountAction_as_str (a : AccountAction) : string :=
  match a with AccountRead => "read" | AccountManage => "manage" end.

Definition AccountAction_parse (value : string) : option AccountAction :=
  if value =s "read" then Some AccountRead
  else if value =s "manage" then Some AccountManage
  else None.

Inductive SpaceAction : Type := SpaceReadSelf | SpaceRead | SpaceCreate | SpaceUpdate | SpaceDelete.

#[export] Instance SpaceAction_eq_dec : EqDecision SpaceAction.
Proof. solve_decision. Defined.

Definition SpaceAction_as_str (a : SpaceAction) : string :=
  match a with
  | SpaceReadSelf => "read_self"
  | SpaceRead => "read"
  | SpaceCreate => "create"
  | SpaceUpdate => "update"
  | SpaceDelete => "delete"
  end.

Definition SpaceAction_parse (value : string) : option SpaceAction :=
  if value =s "read_self" then Some SpaceReadSelf
  else if value =s "read" then Some SpaceRead
  else if value =s "create" then Some SpaceCreate
  else if value =s "update" then Some SpaceUpdate
  else if value =s "delete" then Some SpaceDelete
  else None.

Definition SpaceAction_ALL : list SpaceAction :=
  [SpaceReadSelf; SpaceRead; SpaceCreate; SpaceUpdate; SpaceDelete].
Definition SpaceAction_DEFAULT : list SpaceAction :=
  [SpaceRead; SpaceCreate; SpaceUpdate; SpaceDelete].

Inductive ManageOp : Type := ManageCreate | ManageUpdate | ManageDelete.

#[export] Instance ManageOp_eq_dec : EqDecision ManageOp.
Proof. solve_decision. Defined.

Definition ManageOp_as_str (a : ManageOp) : string :=
  match a with ManageCreate => "create" | ManageUpdate => "update" | ManageDelete => "delete" end.

Definition ManageOp_parse (value : string) : option ManageOp :=
  if value =s "create" then Some ManageCreate
  else if value =s "update" then Some ManageUpdate
  else if value =s "delete" then Some ManageDelete
  else None.

Definition ManageOp_ALL : list ManageOp := [ManageCreate; ManageUpdate; ManageDelete].

Inductive SpaceTarget : Type :=
| TargetRead
| TargetReadSelf
| TargetWrite (action : SpaceAction) (collection : string)
| TargetManage (op : ManageOp).

(** ** Permissions *)

Record RepoPermission : Type := { repo_collection : list string; repo_action : list RepoAction }.
Record RpcPermission : Type := { rpc_aud : string; rpc_lxm : list string }.
Record BlobPermission : Type := { blob_accept : list string }.
Record IdentityPermission : Type := { identity_attr : string }.
Record AccountPermission : Type := { account_attr : string; account_action : list AccountAction }.
Record SpacePermission : Type := {
  space_type : string;
  space_authority : string;
  space_skey : string;
  space_collection : list string;
  space_action : list SpaceAction;
  space_manage : list ManageOp;
}.

Definition IDENTITY_ATTRIBUTES : list string := ["handle"; "*"].
Definition ACCOUNT_ATTRIBUTES : list string := ["email"; "repo"; "status"].

(** [v.dedup()]: drop consecutive repetitions. *)
Fixpoint dedup (l : list string) : list string :=
  match l with
  | [] => []
  | x :: l' =>
      match l' with
      | [] => [x]
      | y :: _ => if x =s y then dedup l' else x :: dedup l'
      end
  end.

Section Model.
Context {RE : RegexEngine} {UD : UrlDecoder}.

Definition is_nsid (value : string) : bool := is_ok (validate_nsid value).
Definition is_nsid_or_wildcard (value : string) : bool := (value =s star) || is_nsid value.

(** *** repo *)

Definition RepoPermission_from_parts (collection : list string) (action : option (list string))
    : option RepoPermission :=
  if bool_decide (collection = []) || negb (forallb is_nsid_or_wildcard collection) then None
  else
    action ← match action with
             | Some values =>
                 if bool_decide (values = []) then None
                 else collect_opt RepoAction_parse values
             | None => Some RepoAction_ALL
             end;
    Some {| repo_collection := collection; repo_action := action |}.

Definition RepoPermission_parse (scope : string) : option RepoPermission :=
  let syn := parse scope in
  if negb (prefix syn =s "repo") then None
  else if negb (has_only_known_keys syn ["collection"; "action"]) then None
  else if positional_conflicts syn "collection" then None
  else
    collection ← multi_or_positional syn "collection";
    RepoPermission_from_parts collection (get_multi syn "action").

Definition RepoPermission_matches (p : RepoPermission) (collection : string) (action : RepoAction)
    : bool :=
  bool_decide (action ∈ repo_action p)
  && (existsb (fun c => c =s star) (repo_collection p)
      || existsb (fun c => c =s collection) (repo_collection p)).

(** *** rpc *)

Definition RpcPermission_from_parts (lxm : list string) (aud : option string)
    : option RpcPermission :=
  if bool_decide (lxm = []) || negb (forallb is_nsid_or_wildcard lxm) then None
  else
    aud ← aud;
    if negb (aud =s star) && negb (is_absolute_did_ref aud) then None
    else if (aud =s star) && existsb (fun l => l =s star) lxm then None
    else Some {| rpc_aud := aud; rpc_lxm := lxm |}.

Definition RpcPermission_parse (scope : string) : option RpcPermission :=
  let syn := parse scope in
  if negb (prefix syn =s "rpc") then None
  else if negb (has_only_known_keys syn ["lxm"; "aud"]) then None
  else if positional_conflicts syn "lxm" then None
  else
    lxm ← multi_or_positional syn "lxm";
    aud ← single_ok (get_single syn "aud");
    RpcPermission_from_parts lxm aud.

Definition RpcPermission_matches (p : RpcPermission) (lxm aud : string) : bool :=
  ((rpc_aud p =s star) || (rpc_aud p =s aud))
  && (existsb (fun l => l =s star) (rpc_lxm p) || existsb (fun l => l =s lxm) (rpc_lxm p)).

(** *** blob *)

Definition BlobPermission_parse (scope : string) : option BlobPermission :=
  let syn := parse scope in
  if negb (prefix syn =s "blob") then None
  else if negb (has_only_known_keys syn ["accept"]) then None
  else if positional_conflicts syn "accept" then None
  else
    accept ← multi_or_positional syn "accept";
    if negb (forallb is_accept accept) then None
    else Some {| blob_accept := accept |}.

Definition BlobPermission_matches (p : BlobPermission) (mime : string) : bool :=
  is_mime mime && existsb (fun a => accept_matches a mime) (blob_accept p).

(** *** identity *)

Definition IdentityPermission_parse (scope : string) : option IdentityPermission :=
  let syn := parse scope in
  if negb (prefix syn =s "identity") then None
  else if negb (has_only_known_keys syn ["attr"]) then None
  else if positional_conflicts syn "attr" then None
  else
    attr ← single_or_positional syn "attr";
    attr ← attr;
    if negb (str_mem attr IDENTITY_ATTRIBUTES) then None
    else Some {| identity_attr := attr |}.

Definition IdentityPermission_matches (p : IdentityPermission) (attr : string) : bool :=
  (identity_attr p =s star) || (identity_attr p =s attr).

(** *** account *)

Definition AccountPermission_parse (scope : string) : option AccountPermission :=
  let syn := parse scope in
  if negb (prefix syn =s "account") then None
  else if negb (has_only_known_keys syn ["attr"; "action"]) then None
  else if positional_conflicts syn "attr" then None
  else
    attr ← single_or_positional syn "attr";
    attr ← attr;
    if negb (str_mem attr ACCOUNT_ATTRIBUTES) then None
    else
      action ← match get_multi syn "action" with
               | Some values =>
                   if bool_decide (values = []) then None
                   else collect_opt AccountAction_parse values
               | None => Some [AccountRead]
               end;
      Some {| account_attr := attr; account_action := action |}.

Definition AccountPermission_matches (p : AccountPermission) (attr : string)
    (action : AccountAction) : bool :=
  (account_attr p =s attr)
  && (bool_decide (AccountManage ∈ account_action p) || bool_decide (action ∈ account_action p)).

(** *** space *)

Definition SpacePermission_from_parts (ty : string) (authority skey : option string)
    (collection action manage : option (list string)) : option SpacePermission :=
  if negb (is_nsid_or_wildcard ty) then None
  else
    let authority := default "self" authority in
    if negb (authority =s "self") && negb (authority =s star) && negb (is_valid_did authority)
    then None
    else
    let skey := default star skey in
    if negb (skey =s star) && negb (is_valid_record_key skey) then None
    else
    collection ← match collection with
      | Some values =>
          if bool_decide (values = []) || negb (forallb is_nsid_or_wildcard values) then None
          else if existsb (fun c => c =s star) values then Some [star]
          else Some (dedup (merge_sort String.le values))
      | None => Some []
      end;
    action ← match action with
      | Some values =>
          if bool_decide (values = []) then None
          else
            parsed ← collect_opt SpaceAction_parse values;
            Some (filter (fun a => a ∈ parsed) SpaceAction_ALL)
      | None => Some SpaceAction_DEFAULT
      end;
    manage ← match manage with
      | Some values =>
          if bool_decide (values = []) then None
          else
            parsed ← collect_opt ManageOp_parse values;
            Some (filter (fun m => m ∈ parsed) ManageOp_ALL)
      | None => Some []
      end;
    Some {|
      space_type := ty;
      space_authority := authority;
      space_skey := skey;
      space_collection := collection;
      space_action := action;
      space_manage := manage;
    |}.

Definition SpacePermission_parse (scope : string) : option SpacePermission :=
  let syn := parse scope in
  if negb (prefix syn =s "space") then None
  else if negb (has_only_known_keys syn ["authority"; "skey"; "collection"; "action"; "manage"])
  then None
  else if positional_conflicts syn "type" then None
  else
    ty ← positional syn;
    authority ← single_ok (get_single syn "authority");
    skey ← single_ok (get_single syn "skey");
    SpacePermission_from_parts ty authority skey
      (get_multi syn "collection") (get_multi syn "action") (get_multi syn "manage").

Definition collection_allows (p : SpacePermission) (collection : string) : bool :=
  existsb (fun c => (c =s star) || (c =s collection)) (space_collection p).

Definition SpacePermission_matches (p : SpacePermission) (ty authority skey : string)
    (target : SpaceTarget) : bool :=
  if negb (space_type p =s star) && negb (space_type p =s ty) then false
  else if negb (space_authority p =s star) && negb (space_authority p =s authority) then false
  else if negb (space_skey p =s star) && negb (space_skey p =s skey) then false
  else
    match target with
    | TargetManage op => bool_decide (op ∈ space_manage p)
    | TargetRead => bool_decide (SpaceRead ∈ space_action p)
    | TargetReadSelf =>
        bool_decide (SpaceRead ∈ space_action p) || bool_decide (SpaceReadSelf ∈ space_action p)
    | TargetWrite action collection =>
        bool_decide (action ∈ space_action p) && collection_allows p collection
    end.

Definition has_collections (p : SpacePermission) : bool := negb (bool_decide (space_collection p = [])).

Definition is_self_authority (p : SpacePermission) : bool := space_authority p =s "self".

Definition with_default_collections (p : SpacePermission) (collections : list string)
    : SpacePermission :=
  if has_collections p || bool_decide (collections = []) then p
  else {|
    space_type := space_type p;
    space_authority := space_authority p;
    space_skey := space_skey p;
    space_collection := collections;
    space_action := space_action p;
    space_manage := space_manage p;
  |}.

Definition with_resolved_authority (p : SpacePermission) (user_did : string) : SpacePermission :=
  if space_authority p =s "self" then {|
    space_type := space_type p;
    space_authority := user_did;
    space_skey := space_skey p;
    space_collection := space_collection p;
    space_action := space_action p;
    space_manage := space_manage p;
  |}
  else p.

End Model.

(** ** Sorting and de-duplication *)

Lemma dedup_elem x l : x ∈ dedup l <-> x ∈ l.
Proof.
  induction l as [|y l IH]; [done|]. destruct l as [|z l]; [done|].
  cbn [dedup]. destruct (String.eqb_spec y z) as [->|Hne].
  - rewrite IH, !elem_of_cons. naive_solver.
  - rewrite elem_of_cons, IH, !elem_of_cons. naive_solver.
Qed.

Lemma dedup_sorted l : StronglySorted String.le l -> StronglySorted String.le (dedup l).
Proof.
  induction 1 as [|y l Hl IH Hy]; [constructor|]. destruct l as [|z l]; [repeat constructor|].
  cbn [dedup] in *. destruct (String.eqb_spec y z) as [->|Hne]; [done|]. constructor; [done|].
  apply Forall_forall. intros x Hx. change (x ∈ dedup (z :: l)) in Hx.
  rewrite dedup_elem in Hx. rewrite Forall_forall in Hy. auto.
Qed.

Lemma dedup_NoDup l : StronglySorted String.le l -> NoDup (dedup l).
Proof.
  induction 1 as [|y l Hl IH Hy]; [constructor|]. destruct l as [|z l]; [repeat constructor; set_solver|].
  cbn [dedup] in *. destruct (String.eqb_spec y z) as [->|Hne]; [done|]. constructor; [|done].
  change (y ∉ dedup (z :: l)). rewrite dedup_elem. intros Hin. apply Hne.
  apply (anti_symm String.le); [rewrite Forall_forall in Hy; apply Hy; left|].
  apply elem_of_cons in Hin as [->|Hin]; [done|].
  apply StronglySorted_inv in Hl as [_ Hz]. rewrite Forall_forall in Hz. auto.
Qed.

Definition sort_dedup (l : list string) : list string := dedup (merge_sort String.le l).

Lemma sort_dedup_elem x l : x ∈ sort_dedup l <-> x ∈ l.
Proof. unfold sort_dedup. rewrite dedup_elem. by rewrite merge_sort_Permutation. Qed.

Lemma sort_dedup_sorted l : StronglySorted String.le (sort_dedup l).
Proof. apply dedup_sorted, StronglySorted_merge_sort; apply _. Qed.

Lemma sort_dedup_NoDup l : NoDup (sort_dedup l).
Proof. apply dedup_NoDup, StronglySorted_merge_sort; apply _. Qed.

(** Two lists with the same elements have the same normal form. *)
Lemma sort_dedup_canonical l1 l2 :
  (forall x, x ∈ l1 <-> x ∈ l2) -> sort_dedup l1 = sort_dedup l2.
Proof.
  intros Heq. apply (StronglySorted_unique String.le); [apply sort_dedup_sorted..|].
  apply NoDup_Permutation; [apply sort_dedup_NoDup..|].
  intros x. by rewrite !sort_dedup_elem.
Qed.

Lemma collect_opt_elem {A B} (f : A -> option B) l l' y :
  collect_opt f l = Some l' -> y ∈ l' <-> exists x, x ∈ l /\ f x = Some y.
Proof.
  unfold collect_opt. rewrite mapM_Some. intros H. induction H as [|a b l l' Hab H IH].
  - split; [by intros ?%not_elem_of_nil|]. intros (? & ?%not_elem_of_nil & _). done.
  - rewrite elem_of_cons, IH. setoid_rewrite elem_of_cons. naive_solver.
Qed.

Lemma collect_opt_None {A B} (f : A -> option B) l :
  collect_opt f l = None <-> exists x, x ∈ l /\ f x = None.
Proof. unfold collect_opt. rewrite mapM_None. by rewrite Exists_exists. Qed.

(** Same elements, same set of parsed values (or the same failure). *)
Lemma collect_opt_same {A B} `{EqDecision B} (f : A -> option B) (all l1 l2 : list _) :
  (forall x, x ∈ l1 <-> x ∈ l2) ->
  (fun parsed => filter (fun a => a ∈ parsed) all) <$> collect_opt f l1 =
  (fun parsed => filter (fun a => a ∈ parsed) all) <$> collect_opt f l2.
Proof.
  intros Heq. destruct (collect_opt f l1) as [p1|] eqn:E1, (collect_opt f l2) as [p2|] eqn:E2; simpl.
  - f_equal. apply list_filter_iff. intros y.
    rewrite (collect_opt_elem _ _ _ _ E1), (collect_opt_elem _ _ _ _ E2). naive_solver.
  - exfalso. apply collect_opt_None in E2 as (x & Hx%Heq & Hf).
    assert (collect_opt f l1 = None) by (apply collect_opt_None; eauto). congruence.
  - exfalso. apply collect_opt_None in E1 as (x & Hx%Heq & Hf).
    assert (collect_opt f l2 = None) by (apply collect_opt_None; eauto). congruence.
  - done.
Qed.

(** ** Action names *)

Lemma RepoAction_parse_as_str a : RepoAction_parse (RepoAction_as_str a) = Some a.
Proof. by destruct a. Qed.

Lemma AccountAction_parse_as_str a : AccountAction_parse (AccountAction_as_str a) = Some a.
Proof. by destruct a. Qed.

Lemma SpaceAction_parse_as_str a : SpaceAction_parse (SpaceAction_as_str a) = Some a.
Proof. by destruct a. Qed.

Lemma ManageOp_parse_as_str a : ManageOp_parse (ManageOp_as_str a) = Some a.
Proof. by destruct a. Qed.

Lemma SpaceAction_ALL_full a : a ∈ SpaceAction_ALL.
Proof. destruct a; set_solver. Qed.

Lemma ManageOp_ALL_full a : a ∈ ManageOp_ALL.
Proof. destruct a; set_solver. Qed.

(** ** Normal forms of space permissions *)

(** The same parameter up to order and repetition of its values. *)
Definition same_values (o1 o2 : option (list string)) : Prop :=
  match o1, o2 with
  | None, None => True
  | Some l1, Some l2 => forall x, x ∈ l1 <-> x ∈ l2
  | _, _ => False
  end.

Lemma same_values_nil (l1 l2 : list string) :
  (forall x, x ∈ l1 <-> x ∈ l2) -> bool_decide (l1 = []) = bool_decide (l2 = []).
Proof.
  intros H. apply bool_decide_ext. split; intros ->; apply elem_of_nil_inv; intros x Hx; apply H in Hx;
    by apply not_elem_of_nil in Hx.
Qed.

Lemma same_values_forallb p (l1 l2 : list string) :
  (forall x, x ∈ l1 <-> x ∈ l2) -> forallb p l1 = forallb p l2.
Proof. intros H. apply eq_true_iff_eq. rewrite !forallb_elem. naive_solver. Qed.

Lemma same_values_existsb p (l1 l2 : list string) :
  (forall x, x ∈ l1 <-> x ∈ l2) -> existsb p l1 = existsb p l2.
Proof. intros H. apply eq_true_iff_eq. rewrite !existsb_elem. naive_solver. Qed.

Section Space.
Context {RE : RegexEngine}.

(** The three normalised fields, as functions of their parameters. *)
Definition norm_collection (o : option (list string)) : option (list string) :=
  match o with
  | Some values =>
      if bool_decide (values = []) || negb (forallb is_nsid_or_wildcard values) then None
      else if existsb (fun c => c =s star) values then Some [star]
      else Some (sort_dedup values)
  | None => Some []
  end.

Definition norm_list {B} `{EqDecision B} (f : string -> option B) (all dflt : list B)
    (o : option (list string)) : option (list B) :=
  match o with
  | Some values =>
      if bool_decide (values = []) then None
      else parsed ← collect_opt f values; Some (filter (fun a => a ∈ parsed) all)
  | None => Some dflt
  end.

Lemma from_parts_norm ty a k c ac m :
  SpacePermission_from_parts ty a k c ac m =
    if negb (is_nsid_or_wildcard ty) then None
    else if negb (default "self" a =s "self") && negb (default "self" a =s star)
            && negb (is_valid_did (default "self" a)) then None
    else if negb (default star k =s star) && negb (is_valid_record_key (default star k)) then None
    else
      c' ← norm_collection c;
      ac' ← norm_list SpaceAction_parse SpaceAction_ALL SpaceAction_DEFAULT ac;
      m' ← norm_list ManageOp_parse ManageOp_ALL [] m;
      Some {| space_type := ty; space_authority := default "self" a;
              space_skey := default star k; space_collection := c';
              space_action := ac'; space_manage := m' |}.
Proof. done. Qed.

Lemma norm_collection_same c1 c2 :
  same_values c1 c2 -> norm_collection c1 = norm_collection c2.
Proof.
  destruct c1 as [l1|], c2 as [l2|]; simpl; try done. intros H.
  rewrite (same_values_nil _ _ H), (same_values_forallb _ _ _ H), (same_values_existsb _ _ _ H).
  by rewrite (sort_dedup_canonical _ _ H).
Qed.

Lemma norm_list_same {B} `{EqDecision B} (f : string -> option B) all dflt o1 o2 :
  same_values o1 o2 -> norm_list f all dflt o1 = norm_list f all dflt o2.
Proof.
  destruct o1 as [l1|], o2 as [l2|]; simpl; try done. intros H.
  rewrite (same_values_nil _ _ H). destruct (bool_decide _); [done|].
  apply (collect_opt_same f all) in H. revert H.
  destruct (collect_opt f l1), (collect_opt f l2); simpl; naive_solver.
Qed.

(** Space grants are normalised: the permission built from a grant does
    not depend on the order or repetition of its collections, actions and
    manage operations, so equal grants compare equal (and a grant is refused
    for one ordering exactly when it is for every other). *)
Theorem space_from_parts_canonical ty a k c1 c2 ac1 ac2 m1 m2 :
  same_values c1 c2 -> same_values ac1 ac2 -> same_values m1 m2 ->
  SpacePermission_from_parts ty a k c1 ac1 m1 = SpacePermission_from_parts ty a k c2 ac2 m2.
Proof.
  intros Hc Ha Hm. rewrite !from_parts_norm.
  by rewrite (norm_collection_same _ _ Hc), (norm_list_same _ _ _ _ _ Ha), (norm_list_same _ _ _ _ _ Hm).
Qed.

Lemma sort_dedup_fix l : StronglySorted String.le l -> NoDup l -> sort_dedup l = l.
Proof.
  intros Hs Hd. apply (StronglySorted_unique String.le); [apply sort_dedup_sorted|done|].
  apply NoDup_Permutation; [apply sort_dedup_NoDup|done|]. intros x. apply sort_dedup_elem.
Qed.

(** A list parameter as it is written back: absent when there is no value. *)
Definition opt_list (l : list string) : option (list string) :=
  match l with [] => None | _ => Some l end.

Lemma norm_collection_fix c c' :
  norm_collection c = Some c' -> norm_collection (opt_list c') = Some c'.
Proof.
  destruct c as [l|]; simpl; [|by intros [= <-]].
  destruct (bool_decide_reflect (l = [])) as [|Hne]; [done|]. simpl.
  destruct (forallb is_nsid_or_wildcard l) eqn:Hf; [simpl|done].
  destruct (existsb _ l) eqn:He; intros [= <-]; [done|].
  assert (Hsd : sort_dedup l <> []).
  { intros H. destruct l as [|x l]; [done|]. assert (x ∈ sort_dedup (x :: l)) as Hx
      by (apply sort_dedup_elem; left). rewrite H in Hx. by apply not_elem_of_nil in Hx. }
  assert (opt_list (sort_dedup l) = Some (sort_dedup l)) as -> by (by destruct (sort_dedup l)).
  cbn [norm_collection].
  assert (Heq : forall x, x ∈ sort_dedup l <-> x ∈ l) by (intros ?; apply sort_dedup_elem).
  rewrite (same_values_nil _ _ Heq), (same_values_forallb _ _ _ Heq), Hf,
    (same_values_existsb _ _ _ Heq), He.
  rewrite bool_decide_eq_false_2 by done. simpl. f_equal.
  apply sort_dedup_fix; [apply sort_dedup_sorted|apply sort_dedup_NoDup].
Qed.

Lemma collect_opt_map {A B} (f : A -> option B) (g : B -> A) l :
  (forall b, f (g b) = Some b) -> collect_opt f (g <$> l) = Some l.
Proof.
  intros Hfg. unfold collect_opt. apply mapM_Some. induction l; constructor; auto.
Qed.

Lemma norm_list_fix {B} `{EqDecision B} (f : string -> option B) (g : B -> string) all dflt o l :
  (forall b, f (g b) = Some b) -> (forall b, b ∈ all) ->
  filter (fun a => a ∈ dflt) all = dflt ->
  norm_list f all dflt o = Some l -> l <> [] -> norm_list f all dflt (Some (g <$> l)) = Some l.
Proof.
  intros Hfg Hall Hd Hn Hne. cbn [norm_list].
  rewrite bool_decide_eq_false_2 by (by destruct l). rewrite collect_opt_map by done. simpl. f_equal.
  destruct o as [vs|]; simpl in Hn; [|by simplify_eq].
  destruct (bool_decide (vs = [])); [done|].
  destruct (collect_opt f vs) as [p|]; simplify_eq/=. apply list_filter_iff.
  intros x. rewrite list_elem_of_filter. naive_solver.
Qed.

Lemma space_action_ne ac ac' :
  norm_list SpaceAction_parse SpaceAction_ALL SpaceAction_DEFAULT ac = Some ac' -> ac' <> [].
Proof.
  unfold norm_list, collect_opt. destruct ac as [[|v vs]|]; simpl; [done| |by intros [= <-]].
  destruct (SpaceAction_parse v) as [a|]; simpl; [|done].
  destruct (mapM SpaceAction_parse vs) as [p|]; simpl; [|done]. intros [= <-] Hnil.
  assert (a ∈ filter (fun x => x ∈ a :: p) SpaceAction_ALL) as Hin.
  { apply list_elem_of_filter. split; [left|]. destruct a; set_solver. }
  change (a ∈ filter (λ a0 : SpaceAction, a0 ∈ a :: p) SpaceAction_ALL) in Hin.
  rewrite Hnil in Hin. by apply not_elem_of_nil in Hin.
Qed.

Lemma space_parts_fix ty a k c ac m p :
  SpacePermission_from_parts ty a k c ac m = Some p ->
  SpacePermission_from_parts (space_type p) (Some (space_authority p)) (Some (space_skey p))
    (opt_list (space_collection p)) (Some (SpaceAction_as_str <$> space_action p))
    (opt_list (ManageOp_as_str <$> space_manage p)) = Some p.
Proof.
  rewrite !from_parts_norm.
  destruct (is_nsid_or_wildcard ty) eqn:Ety; cbn [negb]; [|done].
  destruct (negb (_ =s "self") && _ && _) eqn:Ea; [done|].
  destruct (negb (_ =s star) && _) eqn:Ek; [done|].
  destruct (norm_collection c) as [c'|] eqn:Ec; cbn [mbind option_bind]; [|done].
  destruct (norm_list SpaceAction_parse _ _ ac) as [ac'|] eqn:Eac; cbn [mbind option_bind]; [|done].
  destruct (norm_list ManageOp_parse _ _ m) as [m'|] eqn:Em; cbn [mbind option_bind]; [|done].
  intros [= <-]. cbn [space_type space_authority space_skey space_collection space_action space_manage].
  change (default "self" (Some (default "self" a))) with (default "self" a).
  change (default star (Some (default star k))) with (default star k).
  rewrite Ety. cbn [negb]. rewrite Ea, Ek. rewrite (norm_collection_fix _ _ Ec).
  rewrite (norm_list_fix _ _ _ _ _ _ SpaceAction_parse_as_str SpaceAction_ALL_full
             eq_refl Eac (space_action_ne _ _ Eac)).
  cbn [mbind option_bind].
  destruct m' as [|m0 m']; [done|]. cbn [fmap list_fmap opt_list].
  change (ManageOp_as_str m0 :: _) with (ManageOp_as_str <$> (m0 :: m')).
  by rewrite (norm_list_fix _ _ _ _ _ _ ManageOp_parse_as_str ManageOp_ALL_full eq_refl Em).
Qed.

(** A normalised space permission is a fixed point: writing its fields
    back as parameters and validating them again yields the same permission,
    for every permission the constructor accepts. *)
Theorem space_parts_roundtrip ty a k c ac m p :
  SpacePermission_from_parts ty a k c ac m = Some p ->
  SpacePermission_from_parts (space_type p) (Some (space_authority p)) (Some (space_skey p))
    (opt_list (space_collection p)) (Some (SpaceAction_as_str <$> space_action p))
    (opt_list (ManageOp_as_str <$> space_manage p)) = Some p.
Proof. apply space_parts_fix. Qed.

End Space.

(** ** Accept patterns *)

Lemma is_type_slash_subtype_spec v :
  is_type_slash_subtype v = true <->
  exists a b, v = a +:+ String slash b /\ a <> EmptyString /\ b <> EmptyString
    /\ contains_char slash a = false /\ contains_char slash b = false
    /\ contains_char sp v = false.
Proof.
  unfold is_type_slash_subtype. destruct (str_find _ v) as [i|] eqn:E.
  - apply str_find_Some in E as (a & c & b & -> & <- & Ha & Hc%Ascii.eqb_eq). subst c.
    rewrite str_drop_app_S, length_append, !andb_true_iff, !negb_true_iff, !Nat.eqb_neq. simpl.
    split.
    + intros [[[Hi Hj] Hb] Hsp]. exists a, b. repeat split; try done.
      * by intros ->.
      * intros ->. simpl in Hj. lia.
    + intros (a' & b' & Heq & Hane & Hbne & Ha' & Hb' & Hsp).
      assert (str_split_once (Ascii.eqb slash) (a +:+ String slash b) = Some (a', b')) as Hs.
      { rewrite Heq. by apply str_split_once_app. }
      rewrite str_split_once_app in Hs by done. simplify_eq.
      destruct a'; [done|]. destruct b'; [done|]. simpl. repeat split; try done; lia.
  - apply str_find_None in E. split; [done|]. intros (a & b & -> & _).
    rewrite str_any_app in E. simpl in E. by rewrite orb_true_r in E.
Qed.

Lemma accept_suffix h p : is_accept h = true -> h = p +:+ star -> exists q, p = q +:+ "/".
Proof.
  unfold is_accept. intros H ->.
  destruct (String.eqb_spec (p +:+ star) any_mime) as [Heq|_].
  { apply (append_cancel_r _ "*/") in Heq as ->. by exists star. }
  destruct (is_type_slash_subtype _); [simpl in H|done]. bool_prop.
  destruct H as [H|H]; bool_prop.
  - unfold star in H. rewrite str_any_app in H. by rewrite orb_true_r in H.
  - apply ends_with_true in H as [q Hq]. exists q. unfold star in Hq.
    change "/*" with ("/" +:+ "*") in Hq. rewrite <- append_assoc in Hq.
    by apply append_cancel_r in Hq.
Qed.

Lemma starts_with_trans p q s : starts_with p q = true -> starts_with q s = true -> starts_with p s = true.
Proof.
  rewrite !starts_with_true. intros [r ->] [r' ->]. exists (r +:+ r'). by rewrite append_assoc.
Qed.

Lemma starts_with_snoc p q c :
  starts_with p (q +:+ String c EmptyString) = true ->
  starts_with p q = true \/ p = q +:+ String c EmptyString.
Proof.
  rewrite !starts_with_true. intros [r Hr]. destruct (str_snoc r) as [->|(r' & d & ->)].
  - right. by rewrite append_nil_r in Hr.
  - left. exists r'. rewrite <- append_assoc in Hr.
    assert (c = d) as ->.
    { pose proof (ends_with_char c q c) as H1. pose proof (ends_with_char c (p +:+ r') d) as H2.
      rewrite <- Hr, H1, Ascii.eqb_refl in H2. symmetry in H2. by apply Ascii.eqb_eq in H2. }
    by apply append_cancel_r in Hr.
Qed.

Lemma accept_covers_sound held wanted mime :
  is_accept held = true -> accept_covers held wanted = true ->
  accept_matches wanted mime = true -> accept_matches held mime = true.
Proof.
  intros Hh. unfold accept_covers, accept_matches.
  destruct (held =s any_mime); [done|]. destruct (wanted =s any_mime); [done|].
  destruct (strip_suffix star held) as [p|] eqn:Ep.
  - apply strip_suffix_Some in Ep. destruct (strip_suffix star wanted) as [q|] eqn:Eq.
    + apply strip_suffix_Some in Eq as ->. intros [H|H]%starts_with_snoc.
      * by apply starts_with_trans.
      * exfalso. destruct (accept_suffix held p Hh Ep) as [r Hr]. rewrite H in Hr.
        pose proof (ends_with_char asterisk q asterisk) as H1.
        pose proof (ends_with_char asterisk r slash) as H2.
        change (r +:+ String slash EmptyString) with (r +:+ "/") in H2. rewrite <- Hr in H2.
        rewrite Ascii.eqb_refl in H1. change (asterisk =c slash) with false in H2.
        unfold asterisk in *. congruence.
    + intros H1 H2. by apply String.eqb_eq in H2 as <-.
  - intros ->%String.eqb_eq. by rewrite Ep.
Qed.

(** A pattern whose only wildcard is the trailing one: [*/*], a concrete MIME
    type, or [type/*] with no asterisk in [type]. *)
Definition plain_accept (w : string) : Prop :=
  w = any_mime \/ contains_char asterisk w = false
  \/ exists t, w = t +:+ "/*" /\ contains_char asterisk t = false.

Lemma is_mime_parts a b :
  a <> EmptyString -> b <> EmptyString ->
  contains_char slash a = false -> contains_char slash b = false ->
  contains_char sp a = false -> contains_char sp b = false ->
  contains_char asterisk a = false -> contains_char asterisk b = false ->
  is_mime (a +:+ String slash b) = true.
Proof.
  intros. unfold is_mime. rewrite andb_true_iff, negb_true_iff, is_type_slash_subtype_spec.
  split; [exists a, b; rewrite str_any_app; simpl; repeat split; try done|].
  - rewrite H3, H4. done.
  - rewrite str_any_app. simpl. by rewrite H5, H6.
Qed.

Lemma starts_with_diverge p t x y :
  x <> y -> starts_with p (t +:+ String x EmptyString) = true ->
  starts_with p (t +:+ String y EmptyString) = true -> starts_with p t = true.
Proof.
  intros Hne H1 H2. destruct (starts_with_snoc _ _ _ H1) as [?| ->]; [done|].
  destruct (starts_with_snoc _ _ _ H2) as [?|Heq]; [done|].
  apply append_cancel_l in Heq. congruence.
Qed.

Lemma accept_covers_star_complete held :
  is_accept held = true ->
  accept_matches held "a/b" = true -> accept_matches held "c/d" = true -> held = any_mime.
Proof.
  intros Hh. unfold accept_matches. destruct (String.eqb_spec held any_mime) as [|Hne]; [done|].
  destruct (strip_suffix star held) as [p|] eqn:Ep.
  - intros H1 H2. apply strip_suffix_Some in Ep.
    destruct (accept_suffix _ _ Hh Ep) as [q ->].
    destruct q as [|x q]; [|exfalso; apply starts_with_true in H1 as [? H1], H2 as [? H2];
      simpl in H1, H2; injection H1; injection H2; congruence].
    subst held. vm_compute in Hh. done.
  - intros H1%String.eqb_eq H2%String.eqb_eq. congruence.
Qed.

Lemma type_star_inv t :
  is_type_slash_subtype (t +:+ "/*") = true ->
  t <> EmptyString /\ contains_char slash t = false /\ contains_char sp t = false.
Proof.
  intros (a & b & Hab & Hane & _ & Ha & Hb & Hsp)%is_type_slash_subtype_spec.
  rewrite str_any_app in Hsp. apply orb_false_iff in Hsp as [Hsp _].
  change "/*" with (String slash (sep1 asterisk)) in *.
  assert (Hsplit : str_split_once (Ascii.eqb slash) (t +:+ String slash (sep1 asterisk)) = Some (a, b))
    by (rewrite Hab; by apply str_split_once_app).
  assert (contains_char slash t = false) as Ht.
  { destruct (str_find (Ascii.eqb slash) t) as [n|] eqn:E; [|by apply str_find_None].
    apply str_find_Some in E as (u & c & v & -> & _ & Hu & <-%Ascii.eqb_eq).
    rewrite append_assoc in Hsplit. simpl in Hsplit. rewrite str_split_once_app in Hsplit by done.
    simplify_eq. rewrite str_any_app in Hb. simpl in Hb. by rewrite orb_true_r in Hb. }
  rewrite str_split_once_app in Hsplit by done. by simplify_eq.
Qed.

(** A pattern that matches both [t/a] and [t/b] covers [t/*]. *)
Lemma accept_covers_type_complete held t :
  t +:+ "/*" <> any_mime ->
  accept_matches held (t +:+ "/a") = true -> accept_matches held (t +:+ "/b") = true ->
  accept_covers held (t +:+ "/*") = true.
Proof.
  intros Hne. unfold accept_covers, accept_matches. rewrite (proj2 (String.eqb_neq _ _) Hne).
  destruct (held =s any_mime); [done|]. destruct (strip_suffix star held) as [p|].
  - change "/a" with ("/" +:+ "a"). change "/b" with ("/" +:+ "b"). change "/*" with ("/" +:+ star).
    rewrite <- !append_assoc. intros H1 H2.
    pose proof (starts_with_diverge p (t +:+ "/") "a" "b" ltac:(done) H1 H2) as H.
    eapply starts_with_trans; [done|]. apply starts_with_true. by exists star.
  - intros H1 H2. apply String.eqb_eq in H1, H2. subst held. by apply append_cancel_l in H2.
Qed.

Lemma accept_matches_type t x :
  t +:+ "/*" <> any_mime -> accept_matches (t +:+ "/*") (t +:+ String slash x) = true.
Proof.
  intros Hne. unfold accept_matches. rewrite (proj2 (String.eqb_neq _ _) Hne).
  change "/*" with ("/" +:+ star). rewrite <- append_assoc, strip_suffix_app.
  apply starts_with_true. exists x. by rewrite append_assoc.
Qed.

Lemma accept_matches_concrete w : contains_char asterisk w = false -> accept_matches w w = true.
Proof.
  intros Hst. unfold accept_matches. destruct (w =s any_mime); [done|].
  destruct (strip_suffix star w) as [q|] eqn:Eq; [|apply String.eqb_refl].
  apply strip_suffix_Some in Eq as ->. rewrite str_any_app in Hst. simpl in Hst.
  by rewrite orb_true_r in Hst.
Qed.

(** [accept_covers] decides inclusion: for a valid held pattern and a
    valid wanted pattern whose only wildcard is the trailing one, the held
    pattern covers the wanted one exactly when every concrete MIME type that
    the wanted pattern matches is matched by the held one. *)
Theorem accept_covers_inclusion held wanted :
  is_accept held = true -> is_accept wanted = true -> plain_accept wanted ->
  accept_covers held wanted = true <->
  forall mime, is_mime mime = true ->
    accept_matches wanted mime = true -> accept_matches held mime = true.
Proof.
  intros Hh Hw Hplain. split; [intros Hc mime _; by apply accept_covers_sound|].
  intros Hincl. destruct (String.eqb_spec wanted any_mime) as [->|Hne].
  { rewrite (accept_covers_star_complete held); [done..|by apply Hincl|by apply Hincl]. }
  assert (Htype : is_type_slash_subtype wanted = true).
  { unfold is_accept in Hw. rewrite (proj2 (String.eqb_neq _ _) Hne) in Hw.
    by destruct (is_type_slash_subtype wanted). }
  destruct Hplain as [?|[Hst|(t & -> & Ht)]]; [done| |].
  - assert (Hm : accept_matches held wanted = true).
    { apply Hincl; [unfold is_mime; by rewrite Htype, Hst|by apply accept_matches_concrete]. }
    unfold accept_covers, accept_matches in *. by rewrite (proj2 (String.eqb_neq _ _) Hne).
  - apply type_star_inv in Htype as (Htne & Htsl & Htsp).
    apply accept_covers_type_complete; [done|apply Hincl..];
      (apply (is_mime_parts t) || apply (accept_matches_type t)); done.
Qed.

(** ** What a parsed permission satisfies *)

Section Wf.
Context {RE : RegexEngine} {UD : UrlDecoder}.

Definition RepoPermission_wf (p : RepoPermission) : Prop :=
  repo_collection p <> [] /\ Forall (fun c => is_nsid_or_wildcard c = true) (repo_collection p)
  /\ repo_action p <> [].

Definition RpcPermission_wf (p : RpcPermission) : Prop :=
  rpc_lxm p <> [] /\ Forall (fun l => is_nsid_or_wildcard l = true) (rpc_lxm p)
  /\ (rpc_aud p = star \/ is_absolute_did_ref (rpc_aud p) = true)
  /\ ~ (rpc_aud p = star /\ star ∈ rpc_lxm p).

Definition BlobPermission_wf (p : BlobPermission) : Prop :=
  blob_accept p <> [] /\ Forall (fun a => is_accept a = true) (blob_accept p).

Definition IdentityPermission_wf (p : IdentityPermission) : Prop :=
  identity_attr p ∈ IDENTITY_ATTRIBUTES.

Definition AccountPermission_wf (p : AccountPermission) : Prop :=
  account_attr p ∈ ACCOUNT_ATTRIBUTES /\ account_action p <> [].

Definition SpacePermission_wf (p : SpacePermission) : Prop :=
  is_nsid_or_wildcard (space_type p) = true
  /\ (space_authority p = "self" \/ space_authority p = star \/ is_valid_did (space_authority p) = true)
  /\ (space_skey p = star \/ is_valid_record_key (space_skey p) = true)
  /\ (space_collection p = [star]
      \/ ((star ∉ space_collection p)
          /\ Forall (fun c => is_nsid c = true) (space_collection p)
          /\ StronglySorted String.le (space_collection p) /\ NoDup (space_collection p)))
  /\ space_action p <> [] /\ space_action p `sublist_of` SpaceAction_ALL
  /\ space_manage p `sublist_of` ManageOp_ALL.

(** Split the guards of a parser whose result is [Some]. *)
Ltac parse_guards :=
  repeat match goal with
  | |- (if ?b then _ else _) = Some _ -> _ =>
      let E := fresh "E" in destruct b eqn:E; [done|]
  | |- (?o ≫= _) = Some _ -> _ => let E := fresh "E" in destruct o eqn:E; cbn [mbind option_bind]; [|done]
  end; bool_prop.

Lemma forallb_Forall {A} (p : A -> bool) l : forallb p l = true -> Forall (fun x => p x = true) l.
Proof. rewrite forallb_elem, Forall_forall. done. Qed.

Lemma collect_opt_ne {A B} (f : A -> option B) l l' : l <> [] -> collect_opt f l = Some l' -> l' <> [].
Proof.
  unfold collect_opt. intros Hl H%length_mapM ->. by destruct l.
Qed.

Lemma repo_from_parts_wf c a p : RepoPermission_from_parts c a = Some p -> RepoPermission_wf p.
Proof.
  unfold RepoPermission_from_parts. parse_guards. intros [= <-].
  split; [by apply bool_decide_eq_false in H|]. split; [by apply forallb_Forall|]. simpl.
  destruct a as [vs|]; [|by simplify_eq].
  destruct (bool_decide_reflect (vs = [])); [done|]. by eapply collect_opt_ne.
Qed.

Lemma rpc_from_parts_wf l a p : RpcPermission_from_parts l a = Some p -> RpcPermission_wf p.
Proof.
  unfold RpcPermission_from_parts. parse_guards. intros [= <-].
  split; [by apply bool_decide_eq_false in H|]. split; [by apply forallb_Forall|]. simpl. split.
  - apply andb_false_iff in E1 as [E1|E1]; bool_prop; eauto.
  - intros [-> Hin]. rewrite String.eqb_refl in E2. simpl in E2.
    assert (existsb (fun l => l =s star) l = true) by (apply existsb_elem; eauto using String.eqb_refl).
    congruence.
Qed.

Lemma multi_or_positional_ne syn k l : multi_or_positional syn k = Some l -> l <> [].
Proof.
  unfold multi_or_positional. destruct (get_multi syn k) as [[]|]; [done|naive_solver|].
  destruct (positional syn); naive_solver.
Qed.

Lemma blob_parse_wf s p : BlobPermission_parse s = Some p -> BlobPermission_wf p.
Proof.
  unfold BlobPermission_parse. parse_guards. intros [= <-].
  split; [by eapply multi_or_positional_ne|by apply forallb_Forall].
Qed.

Lemma sublist_filter {A} (P : A -> Prop) `{forall x, Decision (P x)} l : filter P l `sublist_of` l.
Proof.
  induction l as [|x l IH]; [constructor|]. rewrite filter_cons. case_decide; by constructor.
Qed.

Lemma norm_collection_wf c c' :
  norm_collection c = Some c' ->
  c' = [star] \/ ((star ∉ c') /\ Forall (fun x => is_nsid x = true) c'
                  /\ StronglySorted String.le c' /\ NoDup c').
Proof.
  destruct c as [l|]; simpl; [|intros [= <-]; right; repeat split; by try constructor; set_solver].
  destruct (bool_decide (l = []) || negb (forallb is_nsid_or_wildcard l)) eqn:E; [done|]. bool_prop.
  destruct (existsb _ l) eqn:He; intros [= <-]; [by left|right].
  assert (Hst : star ∉ l).
  { intros Hin. enough (existsb (fun c => c =s star) l = true) by congruence.
    apply existsb_elem. eauto using String.eqb_refl. }
  rewrite sort_dedup_elem. split; [done|]. split.
  - apply Forall_forall. intros x Hx. rewrite sort_dedup_elem in Hx. rewrite forallb_elem in *.
    specialize (H0 x Hx). unfold is_nsid_or_wildcard in H0. bool_prop.
    destruct H0; bool_prop; [by subst|done].
  - split; [apply sort_dedup_sorted|apply sort_dedup_NoDup].
Qed.

Lemma norm_list_sublist {B} `{EqDecision B} (f : string -> option B) all dflt o l :
  dflt `sublist_of` all -> norm_list f all dflt o = Some l -> l `sublist_of` all.
Proof.
  intros Hd. destruct o as [vs|]; simpl; [|by intros [= <-]].
  destruct (bool_decide (vs = [])); [done|]. destruct (collect_opt f vs); simpl; [|done].
  intros [= <-]. apply sublist_filter.
Qed.

Lemma space_from_parts_wf ty a k c ac m p :
  SpacePermission_from_parts ty a k c ac m = Some p -> SpacePermission_wf p.
Proof.
  rewrite from_parts_norm. parse_guards. intros [= <-]. unfold SpacePermission_wf. simpl.
  split; [done|]. split.
  { apply andb_false_iff in E0 as [[E0|E0]%andb_false_iff|E0]; bool_prop; eauto. }
  split; [apply andb_false_iff in E1 as [E1|E1]; bool_prop; eauto|].
  split; [by eapply norm_collection_wf|]. split; [by eapply space_action_ne|].
  split; eapply norm_list_sublist; [|done| |done]; [do 2 constructor|]; by repeat constructor.
Qed.

Lemma rpc_parse_wf s p : RpcPermission_parse s = Some p -> RpcPermission_wf p.
Proof. unfold RpcPermission_parse. parse_guards. apply rpc_from_parts_wf. Qed.

(** (C40) Every permission a scope string parses to is well formed: non-empty
    collections, methods, accept patterns and actions of the declared syntax;
    an [rpc] audience that is [*] or an absolute DID reference, and never [*]
    together with the method wildcard; identity and account attributes among
    the declared ones; a normalised space grant. *)
Theorem parsed_permissions_wf s :
  (forall p, RepoPermission_parse s = Some p -> RepoPermission_wf p)
  /\ (forall p, RpcPermission_parse s = Some p -> RpcPermission_wf p)
  /\ (forall p, BlobPermission_parse s = Some p -> BlobPermission_wf p)
  /\ (forall p, IdentityPermission_parse s = Some p -> IdentityPermission_wf p)
  /\ (forall p, AccountPermission_parse s = Some p -> AccountPermission_wf p)
  /\ (forall p, SpacePermission_parse s = Some p -> SpacePermission_wf p).
Proof.
  repeat split_and!; intros p.
  - unfold RepoPermission_parse. parse_guards. apply repo_from_parts_wf.
  - apply rpc_parse_wf.
  - apply blob_parse_wf.
  - unfold IdentityPermission_parse. parse_guards. intros [= <-]. by apply str_mem_true.
  - unfold AccountPermission_parse. parse_guards. intros [= <-].
    split; [by apply str_mem_true|]. simpl. destruct (get_multi _ "action") as [vs|]; [|by simplify_eq].
    destruct (bool_decide_reflect (vs = [])); [done|]. by eapply collect_opt_ne.
  - unfold SpacePermission_parse. parse_guards. apply space_from_parts_wf.
Qed.

End Wf.

#[export] Hint Resolve repo_from_parts_wf rpc_from_parts_wf space_from_parts_wf rpc_parse_wf blob_parse_wf : hv.

(** ** Witnesses *)

Section Witnesses.
Existing Instance Derivative.engine.
Existing Instance Percent.decoder.

Lemma space_from_parts_canonical_witness :
  SpacePermission_from_parts "com.example.forum" None None
    (Some ["com.example.post"; "com.example.like"]) (Some ["create"; "read"]) None
  = SpacePermission_from_parts "com.example.forum" None None
    (Some ["com.example.like"; "com.example.post"; "com.example.like"])
    (Some ["read"; "create"; "read"]) None.
Proof. apply space_from_parts_canonical; [set_solver|set_solver|exact I]. Defined.

Definition forum_grant : SpacePermission := {|
  space_type := "com.example.forum"; space_authority := "did:web:example.com";
  space_skey := "main"; space_collection := ["com.example.like"; "com.example.post"];
  space_action := [SpaceRead; SpaceCreate]; space_manage := [ManageDelete] |}.

Lemma space_parts_roundtrip_witness :
  SpacePermission_from_parts "com.example.forum" (Some "did:web:example.com") (Some "main")
    (Some ["com.example.like"; "com.example.post"]) (Some ["read"; "create"]) (Some ["delete"])
  = Some forum_grant.
Proof.
  refine (space_parts_roundtrip "com.example.forum" (Some "did:web:example.com") (Some "main")
    (Some ["com.example.post"; "com.example.like"; "com.example.post"])
    (Some ["create"; "read"]) (Some ["delete"; "delete"]) forum_grant _).
  vm_compute. reflexivity.
Defined.

Lemma accept_covers_inclusion_witness : accept_matches "image/*" "image/png" = true.
Proof.
  refine (proj1 (accept_covers_inclusion "image/*" "image/png" _ _ _) _ "image/png" _ _);
    try reflexivity.
  right. left. reflexivity.
Defined.

Lemma parsed_permissions_wf_witness :
  RepoPermission_wf {| repo_collection := ["com.example.post"]; repo_action := [RepoCreate] |}.
Proof.
  apply (proj1 (parsed_permissions_wf "repo:com.example.post?action=create")).
  vm_compute. reflexivity.
Defined.

End Witnesses.
