(* ===== verification/ScopePermissions.v ===== *)
(** * Granted scope sets

    Models [crates/happyview-scopes/src/lib.rs]: splitting a scope list, asking
    permission questions of it ([ScopePermissions::allows_*]) and asking
    whether it contains another scope ([covers_scope]). *)

From S2P Require Import Prelude RustStr Regex Nsid UrlCoding ScopeSyntax ScopeResources.

(** ** Definitions *)

Fixpoint parse_scope_list_go (out tokens : list string) : list string :=
  match tokens with
  | [] => out
  | token :: rest => parse_scope_list_go (if str_mem token out then out else out ++ [token]) rest
  end.

Definition parse_scope_list (input : string) : list string :=
  parse_scope_list_go [] (split_whitespace input).

Record ScopePermissions : Type := { scopes : list string }.

Definition ScopePermissions_parse (scope : string) : ScopePermissions :=
  {| scopes := parse_scope_list scope |}.

Definition from_scopes (l : list string) : ScopePermissions := {| scopes := l |}.

Definition has (sp : ScopePermissions) (scope : string) : bool :=
  existsb (fun s => s =s scope) (scopes sp).

Definition has_transition_generic (sp : ScopePermissions) : bool := has sp "transition:generic".
Definition has_transition_email (sp : ScopePermissions) : bool := has sp "transition:email".
Definition has_transition_chat_bsky (sp : ScopePermissions) : bool := has sp "transition:chat.bsky".

Section Model.
Context {RE : RegexEngine} {UD : UrlDecoder}.

Definition allows_repo (sp : ScopePermissions) (collection : string) (action : RepoAction) : bool :=
  if has_transition_generic sp then true
  else any_map RepoPermission_parse (fun p => RepoPermission_matches p collection action) (scopes sp).

Definition chat_bsky : string := "chat.bsky.".

Definition allows_rpc (sp : ScopePermissions) (lxm aud : string) : bool :=
  if has_transition_generic sp && negb (starts_with chat_bsky lxm) then true
  else if has_transition_chat_bsky sp && starts_with chat_bsky lxm then true
  else any_map RpcPermission_parse (fun p => RpcPermission_matches p lxm aud) (scopes sp).

Definition allows_blob (sp : ScopePermissions) (mime : string) : bool :=
  if has_transition_generic sp then true
  else any_map BlobPermission_parse (fun p => BlobPermission_matches p mime) (scopes sp).

Definition allows_space (sp : ScopePermissions) (ty authority skey : string) (target : SpaceTarget)
    : bool :=
  any_map SpacePermission_parse (fun p => SpacePermission_matches p ty authority skey target)
    (scopes sp).

Definition allows_space_for_user (sp : ScopePermissions) (user_did ty authority skey : string)
    (target : SpaceTarget) : bool :=
  any_map SpacePermission_parse
    (fun p => SpacePermission_matches (with_resolved_authority p user_did) ty authority skey target)
    (scopes sp).

Definition allows_identity (sp : ScopePermissions) (attr : string) : bool :=
  any_map IdentityPermission_parse (fun p => IdentityPermission_matches p attr) (scopes sp).

Definition allows_accept (sp : ScopePermissions) (accept : string) : bool :=
  if has_transition_generic sp then true
  else any_map BlobPermission_parse
         (fun p => existsb (fun held => accept_covers held accept) (blob_accept p)) (scopes sp).

Definition allows_account (sp : ScopePermissions) (attr : string) (action : AccountAction) : bool :=
  if has_transition_email sp && (attr =s "email") && bool_decide (action = AccountRead) then true
  else any_map AccountPermission_parse (fun p => AccountPermission_matches p attr action) (scopes sp).

Definition covers_repo (sp : ScopePermissions) (p : RepoPermission) : bool :=
  forallb (fun collection => forallb (fun action => allows_repo sp collection action) (repo_action p))
    (repo_collection p).

Definition covers_rpc (sp : ScopePermissions) (p : RpcPermission) : bool :=
  forallb (fun lxm => allows_rpc sp lxm (rpc_aud p)) (rpc_lxm p).

Definition covers_blob (sp : ScopePermissions) (p : BlobPermission) : bool :=
  forallb (fun a => allows_accept sp a) (blob_accept p).

Definition covers_account (sp : ScopePermissions) (p : AccountPermission) : bool :=
  forallb (fun action => allows_account sp (account_attr p) action) (account_action p).

(** The [space] branch: reads, writes against each collection, manage ops. *)
Definition covers_space (sp : ScopePermissions) (p : SpacePermission) : bool :=
  let ask := allows_space sp (space_type p) (space_authority p) (space_skey p) in
  let reads :=
    forallb (fun action =>
      match action with
      | SpaceRead => ask TargetRead
      | SpaceReadSelf => ask TargetReadSelf
      | _ => true
      end) (space_action p) in
  let writes :=
    forallb (fun action =>
      match action with
      | SpaceRead | SpaceReadSelf => true
      | _ => forallb (fun collection => ask (TargetWrite action collection)) (space_collection p)
      end) (space_action p) in
  let manages := forallb (fun op => ask (TargetManage op)) (space_manage p) in
  reads && writes && manages.

(** [o.is_some_and(f)] *)
Definition is_some_and {A} (o : option A) (f : A -> bool) : bool :=
  match o with Some x => f x | None => false end.

Definition covers_scope (sp : ScopePermissions) (scope : string) : bool :=
  if (scope =s "atproto") || has sp scope then true
  else
    match str_split_once (fun c => (c =c colon) || (c =c question)) scope with
    | None => false
    | Some (prefix, _) =>
        if prefix =s "repo" then is_some_and (RepoPermission_parse scope) (covers_repo sp)
        else if prefix =s "rpc" then is_some_and (RpcPermission_parse scope) (covers_rpc sp)
        else if prefix =s "blob" then is_some_and (BlobPermission_parse scope) (covers_blob sp)
        else if prefix =s "identity" then
          is_some_and (IdentityPermission_parse scope) (fun p => allows_identity sp (identity_attr p))
        else if prefix =s "space" then is_some_and (SpacePermission_parse scope) (covers_space sp)
        else if prefix =s "account" then
          is_some_and (AccountPermission_parse scope) (covers_account sp)
        else false
    end.

End Model.

(** ** Splitting a scope list *)

Lemma parse_scope_list_go_elem out l x : x ∈ parse_scope_list_go out l <-> x ∈ out \/ x ∈ l.
Proof.
  revert out; induction l as [|y l IH]; intros out; simpl; [set_solver|].
  rewrite IH. destruct (str_mem y out) eqn:E; [apply str_mem_true in E|]; set_solver.
Qed.

Lemma parse_scope_list_go_NoDup out l : NoDup out -> NoDup (parse_scope_list_go out l).
Proof.
  revert out; induction l as [|y l IH]; intros out Hout; simpl; [done|]. apply IH.
  destruct (str_mem y out) eqn:E; [done|]. apply str_mem_false in E.
  apply NoDup_app. repeat split; [done|set_solver|by apply NoDup_singleton].
Qed.

Lemma parse_scope_list_go_fresh out l :
  NoDup (out ++ l) -> parse_scope_list_go out l = out ++ l.
Proof.
  revert out; induction l as [|y l IH]; intros out Hnd; simpl; [by rewrite app_nil_r|].
  assert (str_mem y out = false) as ->.
  { apply str_mem_false. intros Hy. apply NoDup_app in Hnd as (_ & Hd & _).
    apply (Hd y Hy). left. }
  rewrite IH; rewrite <- (assoc_L (++)); done.
Qed.

Lemma parse_scope_list_elem input x : x ∈ parse_scope_list input <-> x ∈ split_whitespace input.
Proof. unfold parse_scope_list. rewrite parse_scope_list_go_elem. set_solver. Qed.

Lemma parse_scope_list_NoDup input : NoDup (parse_scope_list input).
Proof. apply parse_scope_list_go_NoDup. constructor. Qed.

(** A list of distinct tokens joined with spaces parses back to itself. *)
Lemma parse_scope_list_join l :
  NoDup l -> Forall (fun x => x <> EmptyString /\ ws_free x = true) l ->
  parse_scope_list (str_join (sep1 RustStr.sp) l) = l.
Proof.
  intros Hnd Hl. unfold parse_scope_list. rewrite split_whitespace_join by done.
  by rewrite parse_scope_list_go_fresh.
Qed.

(** ** Requests: one question per resource *)

Inductive Request : Type :=
| ReqRepo (collection : string) (action : RepoAction)
| ReqRpc (lxm aud : string)
| ReqBlob (mime : string)
| ReqIdentity (attr : string)
| ReqAccount (attr : string) (action : AccountAction)
| ReqSpace (ty authority skey : string) (target : SpaceTarget)
| ReqSpaceUser (user_did ty authority skey : string) (target : SpaceTarget).

(** A record write names one of the three write actions. *)
Definition target_wf (t : SpaceTarget) : bool :=
  match t with
  | TargetWrite SpaceRead _ | TargetWrite SpaceReadSelf _ => false
  | _ => true
  end.

Definition request_wf (r : Request) : bool :=
  match r with ReqSpace _ _ _ t | ReqSpaceUser _ _ _ _ t => target_wf t | _ => true end.

Section Facts.
Context {RE : RegexEngine} {UD : UrlDecoder}.

Definition allows (sp : ScopePermissions) (r : Request) : bool :=
  match r with
  | ReqRepo c a => allows_repo sp c a
  | ReqRpc l a => allows_rpc sp l a
  | ReqBlob m => allows_blob sp m
  | ReqIdentity a => allows_identity sp a
  | ReqAccount a act => allows_account sp a act
  | ReqSpace ty au k t => allows_space sp ty au k t
  | ReqSpaceUser u ty au k t => allows_space_for_user sp u ty au k t
  end.

Lemma has_true sp s : has sp s = true <-> s ∈ scopes sp.
Proof. unfold has. rewrite existsb_elem. setoid_rewrite String.eqb_eq. naive_solver. Qed.

Lemma has_mono sp sp' s : scopes sp ⊆ scopes sp' -> has sp s = true -> has sp' s = true.
Proof. rewrite !has_true. set_solver. Qed.

Ltac mono :=
  match goal with
  | Hs : _ ⊆ _ |- context [if ?b then true else any_map _ _ _] =>
      destruct b eqn:?; [intros _|intros ?%(any_map_mono _ _ _ _ Hs)]
  end.

Lemma allows_mono sp sp' r :
  scopes sp ⊆ scopes sp' -> allows sp r = true -> allows sp' r = true.
Proof.
  intros Hs. pose proof (fun s => has_mono sp sp' s Hs) as Hh.
  destruct r as [c a|l a|m|a|a act|ty au k t|u ty au k t]; simpl.
  - unfold allows_repo, has_transition_generic.
    mono; [by rewrite (Hh _ Heqb)|]. by destruct (has sp' _).
  - unfold allows_rpc, has_transition_generic, has_transition_chat_bsky.
    destruct (starts_with chat_bsky l); simpl; rewrite ?andb_false_r, ?andb_true_r;
      mono; rewrite ?(Hh _ Heqb); try done; by destruct (has sp' _).
  - unfold allows_blob, has_transition_generic.
    mono; [by rewrite (Hh _ Heqb)|]. by destruct (has sp' _).
  - by apply any_map_mono.
  - unfold allows_account, has_transition_email.
    destruct (a =s "email"), (bool_decide (act = AccountRead));
      rewrite ?andb_false_r, ?andb_true_r; simpl; try by apply any_map_mono.
    mono; rewrite ?(Hh _ Heqb); [done|]. by destruct (has sp' _).
  - by apply any_map_mono.
  - by apply any_map_mono.
Qed.

(** Permissions are monotone in the held scopes: adding scopes to a set,
    or reordering it, never revokes anything the set allowed, for any resource. *)
Theorem allows_monotone sp sp' r :
  scopes sp ⊆ scopes sp' -> allows sp r = true -> allows sp' r = true.
Proof. apply allows_mono. Qed.

(** ** Coverage *)

(** A held selector ([*] or a value) against a wanted one. *)
Definition sel (held wanted : string) : Prop := held = star \/ held = wanted.

Lemma sel_trans q p x : sel q p -> sel p x -> sel q x.
Proof. unfold sel. intuition congruence. Qed.

Definition target_ok (p : SpacePermission) (t : SpaceTarget) : bool :=
  match t with
  | TargetManage op => bool_decide (op ∈ space_manage p)
  | TargetRead => bool_decide (SpaceRead ∈ space_action p)
  | TargetReadSelf =>
      bool_decide (SpaceRead ∈ space_action p) || bool_decide (SpaceReadSelf ∈ space_action p)
  | TargetWrite action collection =>
      bool_decide (action ∈ space_action p) && collection_allows p collection
  end.

Lemma space_matches_iff p ty au k t :
  SpacePermission_matches p ty au k t = true <->
  sel (space_type p) ty /\ sel (space_authority p) au /\ sel (space_skey p) k
  /\ target_ok p t = true.
Proof.
  unfold SpacePermission_matches, sel, target_ok.
  repeat match goal with
  | |- context [String.eqb ?a ?b] => destruct (String.eqb_spec a b); simpl
  end; destruct t; intuition congruence.
Qed.

Lemma list_has (l : list string) x : existsb (fun c => c =s x) l = true <-> x ∈ l.
Proof. rewrite existsb_elem. setoid_rewrite String.eqb_eq. naive_solver. Qed.

Lemma repo_matches_iff p c a :
  RepoPermission_matches p c a = true <->
  a ∈ repo_action p /\ (star ∈ repo_collection p \/ c ∈ repo_collection p).
Proof.
  unfold RepoPermission_matches.
  by rewrite andb_true_iff, orb_true_iff, bool_decide_eq_true, !list_has.
Qed.

Lemma rpc_matches_iff p l a :
  RpcPermission_matches p l a = true <->
  sel (rpc_aud p) a /\ (star ∈ rpc_lxm p \/ l ∈ rpc_lxm p).
Proof.
  unfold RpcPermission_matches, sel.
  by rewrite andb_true_iff, !orb_true_iff, !String.eqb_eq, !list_has.
Qed.

Lemma collection_allows_iff p c :
  collection_allows p c = true <-> star ∈ space_collection p \/ c ∈ space_collection p.
Proof.
  unfold collection_allows. rewrite existsb_elem. setoid_rewrite orb_true_iff.
  setoid_rewrite String.eqb_eq. naive_solver.
Qed.

(** A set allows what one of its scopes allows on its own, and nothing else. *)
Lemma allows_split sp r :
  allows sp r = true <-> exists s, s ∈ scopes sp /\ allows (from_scopes [s]) r = true.
Proof.
  split; [|intros (s & Hs & Hr); apply (allows_mono (from_scopes [s])); [simpl; set_solver|done]].
  assert (Hh : forall x, has sp x = true -> x ∈ scopes sp /\ has (from_scopes [x]) x = true)
    by (intros x ?%has_true; rewrite has_true; set_solver).
  assert (Hm : forall B (f : string -> option B) p, any_map f p (scopes sp) = true ->
    exists s, s ∈ scopes sp /\ any_map f p [s] = true).
  { intros B f p (x & y & ? & ? & ?)%any_map_true. exists x. split; [done|].
    apply any_map_true. exists x, y. by rewrite list_elem_of_singleton. }
  destruct r; simpl; unfold allows_repo, allows_rpc, allows_blob, allows_identity, allows_account,
    allows_space, allows_space_for_user, has_transition_generic, has_transition_chat_bsky,
    has_transition_email;
  repeat match goal with
  | |- (if ?b then true else _) = true -> _ =>
      let E := fresh "E" in destruct b eqn:E;
      [intros _; repeat (apply andb_true_iff in E as [E ?]);
       repeat match goal with H : has sp ?x = true |- _ => apply Hh in H as [? ?]; exists x end;
       split; [done|]; repeat match goal with H : ?b = true |- _ => rewrite H; clear H end;
       repeat match goal with H : ?b = false |- _ => rewrite H; clear H end;
       rewrite ?andb_false_r, ?andb_true_r; by repeat case_match|]
  end;
  intros (s & Hs & Hr)%Hm; exists s; (split; [done|]);
  change (scopes (from_scopes [s])) with [s]; rewrite Hr; by repeat case_match.
Qed.

(** A scope list allows what one of its tokens allows. *)
Lemma allows_tokens text r :
  allows (ScopePermissions_parse text) r = true <->
  exists s, s ∈ split_whitespace text /\ allows (from_scopes [s]) r = true.
Proof.
  rewrite allows_split. cbn [scopes ScopePermissions_parse]. by setoid_rewrite parse_scope_list_elem.
Qed.

Lemma allows_app a b r :
  allows (ScopePermissions_parse (a +:+ String RustStr.sp b)) r = true <->
  allows (ScopePermissions_parse a) r = true \/ allows (ScopePermissions_parse b) r = true.
Proof.
  rewrite !allows_tokens, split_whitespace_app. setoid_rewrite elem_of_app. split.
  - intros (s & [Hs|Hs] & Hr); eauto.
  - intros [(s & Hs & Hr)|(s & Hs & Hr)]; eauto.
Qed.

(** A parsed permission fixes the prefix of its scope string. *)
Definition scope_prefix (s : string) : string := prefix (parse s).

Lemma parse_prefix s :
  (forall p, RepoPermission_parse s = Some p -> scope_prefix s = "repo")
  /\ (forall p, RpcPermission_parse s = Some p -> scope_prefix s = "rpc")
  /\ (forall p, BlobPermission_parse s = Some p -> scope_prefix s = "blob")
  /\ (forall p, IdentityPermission_parse s = Some p -> scope_prefix s = "identity")
  /\ (forall p, AccountPermission_parse s = Some p -> scope_prefix s = "account")
  /\ (forall p, SpacePermission_parse s = Some p -> scope_prefix s = "space").
Proof.
  unfold RepoPermission_parse, RpcPermission_parse, BlobPermission_parse, IdentityPermission_parse,
    AccountPermission_parse, SpacePermission_parse, scope_prefix.
  split_and!; intros p;
    match goal with |- context [String.eqb ?a ?b] => destruct (String.eqb_spec a b) as [->|] end; done.
Qed.

Lemma parse_prefix_none s :
  (scope_prefix s <> "repo" -> RepoPermission_parse s = None)
  /\ (scope_prefix s <> "rpc" -> RpcPermission_parse s = None)
  /\ (scope_prefix s <> "blob" -> BlobPermission_parse s = None)
  /\ (scope_prefix s <> "identity" -> IdentityPermission_parse s = None)
  /\ (scope_prefix s <> "account" -> AccountPermission_parse s = None)
  /\ (scope_prefix s <> "space" -> SpacePermission_parse s = None).
Proof.
  pose proof (parse_prefix s) as (P1 & P2 & P3 & P4 & P5 & P6).
  split_and!; intros Hne; apply eq_None_not_Some; intros [p Hp]; naive_solver.
Qed.

(** What one scope string allows on its own. *)
Lemma allows_single s r :
  allows (from_scopes [s]) r = true ->
  match r with
  | ReqRepo c a =>
      s = "transition:generic"
      \/ exists p, RepoPermission_parse s = Some p /\ RepoPermission_matches p c a = true
  | ReqRpc l a =>
      s = "transition:generic" \/ s = "transition:chat.bsky"
      \/ exists p, RpcPermission_parse s = Some p /\ RpcPermission_matches p l a = true
  | ReqBlob m =>
      s = "transition:generic"
      \/ exists p, BlobPermission_parse s = Some p /\ BlobPermission_matches p m = true
  | ReqIdentity a =>
      exists p, IdentityPermission_parse s = Some p /\ IdentityPermission_matches p a = true
  | ReqAccount a act =>
      s = "transition:email"
      \/ exists p, AccountPermission_parse s = Some p /\ AccountPermission_matches p a act = true
  | ReqSpace ty au k t =>
      exists p, SpacePermission_parse s = Some p /\ SpacePermission_matches p ty au k t = true
  | ReqSpaceUser u ty au k t =>
      exists p, SpacePermission_parse s = Some p
        /\ SpacePermission_matches (with_resolved_authority p u) ty au k t = true
  end.
Proof.
  assert (Hh : forall x, has (from_scopes [s]) x = true -> s = x)
    by (intros x ?%has_true; set_solver).
  assert (Hs : forall x : string, x ∈ scopes (from_scopes [s]) -> x = s) by set_solver.
  destruct r; simpl; unfold allows_repo, allows_rpc, allows_blob, allows_identity, allows_account,
    allows_space, allows_space_for_user, has_transition_generic, has_transition_chat_bsky,
    has_transition_email;
  repeat match goal with
  | |- (if ?b then true else _) = true -> _ =>
      let E := fresh "E" in destruct b eqn:E; [intros _; bool_prop; eauto|]
  end;
  intros (x & q & ->%Hs & ? & ?)%any_map_true; eauto 6.
Qed.
Lemma covers_repo_sound sp p c a :
  covers_repo sp p = true -> RepoPermission_matches p c a = true -> allows_repo sp c a = true.
Proof.
  unfold covers_repo, allows_repo. destruct (has_transition_generic sp); [done|].
  rewrite repo_matches_iff, forallb_elem, any_map_true. intros Hc [Ha Hcol].
  assert (exists w, (w = star \/ w = c) /\ w ∈ repo_collection p) as (w & Hw & Hin) by naive_solver.
  specialize (Hc w Hin). rewrite forallb_elem in Hc. specialize (Hc a Ha).
  apply any_map_true in Hc as (s & q & Hs & Hq & Hm). exists s, q. split; [done|]. split; [done|].
  rewrite repo_matches_iff in *. naive_solver.
Qed.

Lemma covers_rpc_sound sp p l a :
  covers_rpc sp p = true -> RpcPermission_matches p l a = true ->
  (star ∈ rpc_lxm p -> has_transition_generic sp && starts_with chat_bsky l = false) ->
  allows_rpc sp l a = true.
Proof.
  unfold covers_rpc. rewrite rpc_matches_iff, forallb_elem. intros Hc [Ha Hl] Hgap.
  assert (exists w, (w = star \/ w = l) /\ w ∈ rpc_lxm p) as (w & Hw & Hin) by naive_solver.
  specialize (Hc w Hin). unfold allows_rpc in *.
  destruct (has_transition_generic sp && negb (starts_with chat_bsky l)) eqn:E1; [done|].
  destruct (has_transition_chat_bsky sp && starts_with chat_bsky l) eqn:E2; [done|].
  destruct Hw as [->| ->].
  - assert (has_transition_generic sp = false) as Hg.
    { specialize (Hgap Hin). destruct (has_transition_generic sp), (starts_with chat_bsky l); done. }
    rewrite Hg in Hc. change (starts_with chat_bsky star) with false in Hc.
    rewrite !andb_false_r in Hc. simpl in Hc.
    apply any_map_true in Hc as (s & q & Hs & Hq & Hm). apply any_map_true. exists s, q.
    split; [done|]. split; [done|]. rewrite rpc_matches_iff in *.
    destruct Hm as [Hm1 Hm2]. split; [by eapply sel_trans|]. naive_solver.
  - rewrite E1, E2 in Hc.
    apply any_map_true in Hc as (s & q & Hs & Hq & Hm). apply any_map_true. exists s, q.
    split; [done|]. split; [done|]. rewrite rpc_matches_iff in *.
    destruct Hm as [Hm1 Hm2]. split; [by eapply sel_trans|done].
Qed.

Lemma covers_blob_sound sp p m :
  covers_blob sp p = true -> BlobPermission_matches p m = true -> allows_blob sp m = true.
Proof.
  unfold covers_blob, BlobPermission_matches, allows_accept, allows_blob.
  rewrite forallb_elem, andb_true_iff, existsb_elem. intros Hc [Hm (a & Ha & Hma)].
  specialize (Hc a Ha). destruct (has_transition_generic sp); [done|].
  apply any_map_true in Hc as (s & q & Hs & Hq & (h & Hh & Hcov)%existsb_elem).
  apply any_map_true. exists s, q. split; [done|]. split; [done|].
  unfold BlobPermission_matches. rewrite Hm. simpl. rewrite existsb_elem. exists h. split; [done|]. eapply accept_covers_sound; [|done..].
  apply blob_parse_wf in Hq as [_ Hq]. rewrite Forall_forall in Hq. auto.
Qed.

Lemma covers_account_sound sp p a act :
  covers_account sp p = true -> AccountPermission_matches p a act = true ->
  allows_account sp a act = true.
Proof.
  unfold covers_account, AccountPermission_matches. rewrite forallb_elem, andb_true_iff, orb_true_iff.
  rewrite String.eqb_eq, !bool_decide_eq_true. intros Hc [<- [Hin|Hin]]; specialize (Hc _ Hin); [|done].
  unfold allows_account in *. rewrite (bool_decide_eq_false_2 (AccountManage = AccountRead)) in Hc by done.
  rewrite andb_false_r in Hc. destruct (_ && _); [done|].
  apply any_map_true in Hc as (s & q & Hs & Hq & Hm). apply any_map_true. exists s, q.
  split; [done|]. split; [done|]. revert Hm. unfold AccountPermission_matches.
  rewrite !andb_true_iff, !orb_true_iff, !bool_decide_eq_true. naive_solver.
Qed.

(** Each target a covered grant allows is one the set was asked about, up to
    the implications [read] gives [read_self] and [*] gives any collection. *)
Lemma covers_space_asked sp p t :
  covers_space sp p = true -> target_ok p t = true -> target_wf t = true ->
  exists t', allows_space sp (space_type p) (space_authority p) (space_skey p) t' = true
    /\ forall q, target_ok q t' = true -> target_ok q t = true.
Proof.
  unfold covers_space. intros Hc Ht Hwf. bool_prop. rewrite !forallb_elem in *.
  destruct t as [| |a c|op]; simpl in Ht.
  - apply bool_decide_eq_true in Ht. specialize (H _ Ht). by exists TargetRead.
  - apply orb_true_iff in Ht as [Ht|Ht]; apply bool_decide_eq_true in Ht; specialize (H _ Ht).
    + exists TargetRead. split; [done|]. simpl. intros q ->. done.
    + by exists TargetReadSelf.
  - bool_prop. apply bool_decide_eq_true in H2. apply collection_allows_iff in H3.
    assert (exists w, (w = star \/ w = c) /\ w ∈ space_collection p) as (w & Hw & Hin) by naive_solver.
    exists (TargetWrite a w). split.
    + specialize (H1 _ H2). destruct a; try done; rewrite forallb_elem in H1; auto.
    + intros q. simpl. rewrite !andb_true_iff, !collection_allows_iff. naive_solver.
  - apply bool_decide_eq_true in Ht. exists (TargetManage op). auto.
Qed.

Lemma covers_space_sound sp p u ty au k t :
  covers_space sp p = true -> target_wf t = true ->
  (SpacePermission_matches p ty au k t = true -> allows_space sp ty au k t = true)
  /\ (SpacePermission_matches (with_resolved_authority p u) ty au k t = true ->
      allows_space_for_user sp u ty au k t = true).
Proof.
  intros Hc Hwf. split; rewrite space_matches_iff; intros (Hty & Hau & Hk & Hok).
  - destruct (covers_space_asked sp p t Hc Hok Hwf) as (t' & Hask & Himp).
    apply any_map_true in Hask as (s & q & Hs & Hq & Hm). apply any_map_true. exists s, q.
    rewrite space_matches_iff in *. destruct Hm as (H1 & H2 & H3 & H4).
    repeat split; eauto using sel_trans.
  - assert (target_ok p t = true) as Hok' by (revert Hok; unfold with_resolved_authority; by case_match).
    destruct (covers_space_asked sp p t Hc Hok' Hwf) as (t' & Hask & Himp).
    apply any_map_true in Hask as (s & q & Hs & Hq & Hm). apply any_map_true. exists s, q.
    rewrite space_matches_iff in *. destruct Hm as (H1 & H2 & H3 & H4).
    revert Hty Hau Hk. unfold with_resolved_authority.
    destruct (String.eqb_spec (space_authority p) "self") as [Hp|Hp],
      (String.eqb_spec (space_authority q) "self") as [Hq'|Hq']; simpl; intros Hty Hau Hk;
      repeat split; eauto using sel_trans.
    + destruct H2; [by left|congruence].
    + exfalso. destruct H2 as [H2|H2]; rewrite Hq' in H2; [done|congruence].
Qed.
(** The one request a covering set may still refuse: [transition:generic]
    does not allow methods under [chat.bsky.], yet answers the wildcard. *)
Definition rpc_wildcard_gap (sp : ScopePermissions) (scope : string) (r : Request) : bool :=
  match r, RpcPermission_parse scope with
  | ReqRpc lxm _, Some p =>
      has_transition_generic sp && starts_with chat_bsky lxm && str_mem star (rpc_lxm p)
  | _, _ => false
  end.

Lemma transition_prefix s :
  s = "transition:generic" \/ s = "transition:chat.bsky" \/ s = "transition:email" ->
  scope_prefix s = "transition".
Proof. by intros [->|[->| ->]]. Qed.

Lemma covers_scope_cases sp scope :
  covers_scope sp scope = true ->
  scope = "atproto" \/ scope ∈ scopes sp
  \/ (exists p, RepoPermission_parse scope = Some p /\ covers_repo sp p = true)
  \/ (exists p, RpcPermission_parse scope = Some p /\ covers_rpc sp p = true)
  \/ (exists p, BlobPermission_parse scope = Some p /\ covers_blob sp p = true)
  \/ (exists p, IdentityPermission_parse scope = Some p
       /\ allows_identity sp (identity_attr p) = true)
  \/ (exists p, SpacePermission_parse scope = Some p /\ covers_space sp p = true)
  \/ (exists p, AccountPermission_parse scope = Some p /\ covers_account sp p = true).
Proof.
  unfold covers_scope. destruct ((scope =s "atproto") || has sp scope) eqn:E.
  { intros _. bool_prop. destruct E as [?%String.eqb_eq|?%has_true]; eauto. }
  destruct (str_split_once _ scope) as [[pre rest]|]; [|done].
  assert (Hsome : forall A (o : option A) f, is_some_and o f = true -> exists p, o = Some p /\ f p = true)
    by (intros A [x|] f ?; [eauto|done]).
  repeat match goal with
  | |- context [if pre =s ?k then _ else _] => destruct (pre =s k); [intros ?%Hsome; tauto|]
  end. done.
Qed.

Definition request_prefix (r : Request) : string :=
  match r with
  | ReqRepo _ _ => "repo"
  | ReqRpc _ _ => "rpc"
  | ReqBlob _ => "blob"
  | ReqIdentity _ => "identity"
  | ReqAccount _ _ => "account"
  | ReqSpace _ _ _ _ | ReqSpaceUser _ _ _ _ _ => "space"
  end.

Lemma allows_single_prefix s r :
  allows (from_scopes [s]) r = true ->
  scope_prefix s = "transition" \/ scope_prefix s = request_prefix r.
Proof.
  intros Hr%allows_single. pose proof (parse_prefix s) as (P1 & P2 & P3 & P4 & P5 & P6).
  pose proof (transition_prefix s) as PT.
  destruct r; simpl; repeat (destruct Hr as [Hr|Hr]); try (left; apply PT; tauto);
    destruct Hr as (p & Hp & _); eauto.
Qed.

(** The part of soundness after the requests of the wrong kind are set aside. *)
Lemma covers_scope_same_kind sp scope r :
  covers_scope sp scope = true -> scope <> "atproto" -> scope ∉ scopes sp ->
  request_wf r = true -> rpc_wildcard_gap sp scope r = false ->
  scope_prefix scope = request_prefix r -> scope_prefix scope <> "transition" ->
  allows (from_scopes [scope]) r = true -> allows sp r = true.
Proof.
  intros Hc Hat Hnin Hwf Hgap Hpre Hntr Hr%allows_single.
  pose proof (parse_prefix scope) as (P1 & P2 & P3 & P4 & P5 & P6).
  pose proof (transition_prefix scope) as PT.
  apply covers_scope_cases in Hc as [?|[?|Hc]]; [done..|].
  destruct Hc as [(p & Hp & Hc)|[(p & Hp & Hc)|[(p & Hp & Hc)|[(p & Hp & Hc)|
                 [(p & Hp & Hc)|(p & Hp & Hc)]]]]];
    [apply P1 in Hp as HP|apply P2 in Hp as HP|apply P3 in Hp as HP|apply P4 in Hp as HP
    |apply P6 in Hp as HP|apply P5 in Hp as HP];
    destruct r; simpl in Hpre; try congruence;
    repeat (destruct Hr as [Hr|Hr]; [exfalso; apply Hntr, PT; tauto|]);
    destruct Hr as (q & Hq & Hm); simplify_eq; simpl.
  - by eapply covers_repo_sound.
  - eapply covers_rpc_sound; [done..|]. intros Hst%str_mem_true.
    simpl in Hgap. by rewrite Hp, Hst, andb_true_r in Hgap.
  - by eapply covers_blob_sound.
  - apply any_map_true in Hc as (s & q' & Hs & Hq' & Hm'). apply any_map_true. exists s, q'.
    split; [done|]. split; [done|]. revert Hm Hm'. unfold IdentityPermission_matches.
    rewrite !orb_true_iff, !String.eqb_eq. intuition congruence.
  - by eapply (covers_space_sound sp p EmptyString).
  - by eapply covers_space_sound.
  - by eapply covers_account_sound.
Qed.

Lemma covers_sound sp scope r :
  covers_scope sp scope = true -> request_wf r = true -> rpc_wildcard_gap sp scope r = false ->
  allows (from_scopes [scope]) r = true -> allows sp r = true.
Proof.
  intros Hc Hwf Hgap Hr. destruct (decide (scope ∈ scopes sp)) as [Hin|Hnin].
  { eapply allows_mono; [|exact Hr]. simpl. set_solver. }
  pose proof (allows_single_prefix _ _ Hr) as Hpre.
  destruct (decide (scope = "atproto")) as [->|Hat].
  { exfalso. change (scope_prefix "atproto") with "atproto" in Hpre. destruct r; simpl in Hpre;
      destruct Hpre; congruence. }
  assert (scope_prefix scope <> "transition") as Hntr.
  { intros Ht. pose proof (parse_prefix scope) as (P1 & P2 & P3 & P4 & P5 & P6).
    apply covers_scope_cases in Hc as [?|[?|Hc]]; [done..|].
    repeat (destruct Hc as [Hc|Hc]); destruct Hc as (p & Hp & _);
      first [apply P1 in Hp|apply P2 in Hp|apply P3 in Hp|apply P4 in Hp|apply P5 in Hp|apply P6 in Hp];
      congruence. }
  eapply covers_scope_same_kind; eauto. by destruct Hpre.
Qed.

(** A scope other than the legacy ones answers through its own parser. *)
Lemma allows_one s r :
  scope_prefix s <> "transition" ->
  allows (from_scopes [s]) r =
  match r with
  | ReqRepo c a => is_some_and (RepoPermission_parse s) (fun p => RepoPermission_matches p c a)
  | ReqRpc l a => is_some_and (RpcPermission_parse s) (fun p => RpcPermission_matches p l a)
  | ReqBlob m => is_some_and (BlobPermission_parse s) (fun p => BlobPermission_matches p m)
  | ReqIdentity a => is_some_and (IdentityPermission_parse s) (fun p => IdentityPermission_matches p a)
  | ReqAccount a act =>
      is_some_and (AccountPermission_parse s) (fun p => AccountPermission_matches p a act)
  | ReqSpace ty au k t =>
      is_some_and (SpacePermission_parse s) (fun p => SpacePermission_matches p ty au k t)
  | ReqSpaceUser u ty au k t =>
      is_some_and (SpacePermission_parse s)
        (fun p => SpacePermission_matches (with_resolved_authority p u) ty au k t)
  end.
Proof.
  intros Hpre. pose proof (transition_prefix s) as PT.
  assert (Hh : forall x, has (from_scopes [s]) x = true -> s = x)
    by (intros x ?%has_true; set_solver).
  assert (Hf : forall x, x = "transition:generic" \/ x = "transition:chat.bsky" \/ x = "transition:email" ->
    has (from_scopes [s]) x = false).
  { intros x Hx. destruct (has (from_scopes [s]) x) eqn:E; [|done]. apply Hh in E as ->. tauto. }
  assert (Hm : forall B (f : string -> option B) p, any_map f p [s] = is_some_and (f s) p).
  { intros B f p. unfold any_map. simpl. destruct (f s); simpl; [apply orb_false_r|done]. }
  destruct r; simpl; unfold allows_repo, allows_rpc, allows_blob, allows_identity, allows_account,
    allows_space, allows_space_for_user, has_transition_generic, has_transition_chat_bsky,
    has_transition_email; rewrite ?Hf by tauto; simpl; apply Hm.
Qed.

(** (C3) Coverage is sound: when a granted set covers a scope, the set allows
    every request the scope on its own allows - for repository writes, blob
    uploads, identity, account and space requests (spaces also with [self]
    read as any given user), and for remote calls except the wildcard gap: a
    [chat.bsky.] method asked through a wildcard [rpc] scope of a set holding
    [transition:generic]. *)
Theorem covers_scope_sound sp scope r :
  covers_scope sp scope = true -> request_wf r = true -> rpc_wildcard_gap sp scope r = false ->
  allows (from_scopes [scope]) r = true -> allows sp r = true.
Proof. apply covers_sound. Qed.

End Facts.

(** ** The wildcard gap *)

Section Gap.
Context {RE : RegexEngine} {UD : UrlDecoder} {US : UrlDecoderSpec UD}.

Lemma rpc_wildcard_parse aud :
  plain aud = true -> contains_char ampersand aud = false -> is_absolute_did_ref aud = true ->
  RpcPermission_parse ("rpc:*?aud=" +:+ aud) = Some {| rpc_aud := aud; rpc_lxm := [star] |}.
Proof.
  intros Hp Ha Hd. unfold RpcPermission_parse.
  change ("rpc:*?aud=" +:+ aud) with ("rpc" +:+ String colon (star +:+ String question ("aud" +:+ String equals aud))).
  rewrite parse_positional_query by done. rewrite parse_query_single by done.
  rewrite decode_uri_component_plain by done. unfold RpcPermission_from_parts. simpl.
  destruct (String.eqb_spec aud star) as [->|]; [done|]. simpl. by rewrite Hd.
Qed.

(** The gap is real: for every audience written in plain text, a set
    holding only [transition:generic] covers [rpc:*?aud=...], that scope allows
    every [chat.bsky.] method against the audience, and the set itself refuses
    them all - so [covers_scope] accepts a scope that grants more than is held. *)
Theorem covers_scope_chat_gap aud lxm :
  plain aud = true -> contains_char ampersand aud = false -> is_absolute_did_ref aud = true ->
  starts_with chat_bsky lxm = true ->
  let held := from_scopes ["transition:generic"] in
  let scope := "rpc:*?aud=" +:+ aud in
  covers_scope held scope = true
  /\ allows (from_scopes [scope]) (ReqRpc lxm aud) = true
  /\ allows held (ReqRpc lxm aud) = false.
Proof.
  intros Hp Ha Hd Hl held scope. pose proof (rpc_wildcard_parse aud Hp Ha Hd) as Hparse. split; [|split].
  - unfold covers_scope. destruct (_ || _); [done|].
    assert (str_split_once (fun c => (c =c colon) || (c =c question)) scope
      = Some ("rpc", "*?aud=" +:+ aud)) as -> by (by apply (str_split_once_app _ "rpc")).
    change ("rpc" =s "repo") with false. change ("rpc" =s "rpc") with true. cbv iota.
    unfold scope. by rewrite Hparse.
  - simpl. unfold allows_rpc. rewrite Hl. destruct (_ && negb true) eqn:E1; [done|].
    destruct (_ && true); [done|]. apply any_map_true. exists scope, {| rpc_aud := aud; rpc_lxm := [star] |}.
    split; [left|]. split; [done|]. apply rpc_matches_iff. split; [by right|left; left].
  - simpl. unfold allows_rpc. rewrite Hl. done.
Qed.

End Gap.

(** ** Witnesses *)

Section Witnesses.
Existing Instance Derivative.engine.
Existing Instance Percent.decoder.

Lemma allows_monotone_witness :
  allows (from_scopes ["atproto"; "blob:image/*"; "repo:com.example.post"])
    (ReqRepo "com.example.post" RepoUpdate) = true.
Proof.
  apply (allows_monotone (from_scopes ["repo:com.example.post"])); [simpl; set_solver|].
  vm_compute. reflexivity.
Defined.

Lemma covers_scope_sound_witness :
  allows (from_scopes ["atproto"; "repo:*?action=create"]) (ReqRepo "com.example.post" RepoCreate)
  = true.
Proof.
  apply (covers_scope_sound _ "repo?collection=com.example.post&action=create");
    vm_compute; reflexivity.
Defined.

Lemma covers_scope_chat_gap_witness :
  covers_scope (from_scopes ["transition:generic"]) "rpc:*?aud=did:web:example.com#chat" = true
  /\ allows (from_scopes ["rpc:*?aud=did:web:example.com#chat"])
       (ReqRpc "chat.bsky.convo.getMessages" "did:web:example.com#chat") = true
  /\ allows (from_scopes ["transition:generic"])
       (ReqRpc "chat.bsky.convo.getMessages" "did:web:example.com#chat") = false.
Proof.
  apply (covers_scope_chat_gap (US := Percent.decoder_spec)
           "did:web:example.com#chat" "chat.bsky.convo.getMessages"); reflexivity.
Defined.

End Witnesses.
