(* ===== verification/ScopeInclude.v ===== *)
(** * Permission sets: [include:] scopes

    Models [crates/happyview-scopes/src/include.rs]: parsing
    [include:<nsid>[?aud=<did>]] and expanding an already-resolved
    permission-set document into permissions, with the containment check that
    keeps a set within its own authority. *)

From S2P Require Import Prelude RustStr Regex Nsid UrlCoding ScopeSyntax ScopeResources.

(** ** Definitions *)

Inductive LexValue : Type :=
| Scalar (v : string)
| LList (vs : list string)
| LBool (b : bool).

Record LexPermission : Type := {
  resource : string;
  lex_params : list (string * LexValue);
}.

Definition lex_get (p : LexPermission) (key : string) : option LexValue := assoc_get (lex_params p) key.
Definition lex_keys (p : LexPermission) : list string := fst <$> lex_params p.

Definition lex_list (p : LexPermission) (key : string) : option (list string) :=
  match lex_get p key with Some (LList v) => Some v | _ => None end.
Definition lex_scalar (p : LexPermission) (key : string) : option string :=
  match lex_get p key with Some (Scalar v) => Some v | _ => None end.
Definition lex_bool (p : LexPermission) (key : string) : option bool :=
  match lex_get p key with Some (LBool v) => Some v | _ => None end.

Record LexPermissionSet : Type := { permissions : list LexPermission }.

Inductive IncludedPermission : Type :=
| IncRepo (p : RepoPermission)
| IncRpc (p : RpcPermission)
| IncSpace (p : SpacePermission).

Record IncludeScope : Type := { inc_nsid : string; inc_aud : option string }.

Definition keys_within (ks allowed : list string) : bool := forallb (fun k => str_mem k allowed) ks.

(** True when [other] sits under the scope's authority group, the NSID up to
    and including its final dot. *)
Definition is_parent_authority_of (inc : IncludeScope) (other : string) : bool :=
  if other =s star then false
  else
    match str_rfind (Ascii.eqb dot) (inc_nsid inc) with
    | None => false
    | Some group_prefix_end =>
        if String.length other <=? group_prefix_end + 1 then false
        else str_take (group_prefix_end + 1) (inc_nsid inc) =s str_take (group_prefix_end + 1) other
    end.

Definition is_allowed (inc : IncludeScope) (permission : IncludedPermission) : bool :=
  match permission with
  | IncRepo p => forallb (is_parent_authority_of inc) (repo_collection p)
  | IncRpc p => forallb (is_parent_authority_of inc) (rpc_lxm p)
  | IncSpace p => is_parent_authority_of inc (space_type p)
  end.

Section Model.
Context {RE : RegexEngine} {UD : UrlDecoder}.

Definition IncludeScope_parse (scope : string) : option IncludeScope :=
  let syn := parse scope in
  if negb (prefix syn =s "include") then None
  else if negb (keys_within (keys syn) ["nsid"; "aud"]) then None
  else if bool_decide (is_Some (positional syn)) && bool_decide (is_Some (get_multi syn "nsid")) then None
  else
    v ← single_ok (get_single syn "nsid");
    nsid ← match v with Some v => Some v | None => positional syn end;
    if negb (is_ok (validate_nsid nsid)) then None
    else
      aud ← single_ok (get_single syn "aud");
      if match aud with Some a => negb (is_absolute_did_ref a) | None => false end then None
      else Some {| inc_nsid := nsid; inc_aud := aud |}.

Definition expand_repo (permission : LexPermission) : option IncludedPermission :=
  if negb (keys_within (lex_keys permission) ["collection"; "action"]) then None
  else
    collection ← lex_list permission "collection";
    let action := lex_list permission "action" in
    IncRepo <$> RepoPermission_from_parts collection action.

Definition expand_space (permission : LexPermission) : option IncludedPermission :=
  if negb (keys_within (lex_keys permission)
             ["spaceType"; "authority"; "skey"; "collection"; "action"; "manage"]) then None
  else
    ty ← lex_scalar permission "spaceType";
    IncSpace <$> SpacePermission_from_parts ty
      (lex_scalar permission "authority") (lex_scalar permission "skey")
      (lex_list permission "collection") (lex_list permission "action")
      (lex_list permission "manage").

Definition expand_rpc (inc : IncludeScope) (permission : LexPermission) : option IncludedPermission :=
  let declared_aud := lex_scalar permission "aud" in
  if match declared_aud with Some a => negb (a =s star) | None => false end then None
  else
    let inherit := default false (lex_bool permission "inheritAud") in
    let '(aud, allowed_keys) :=
      if inherit && bool_decide (declared_aud = None) && bool_decide (is_Some (inc_aud inc))
      then (inc_aud inc, ["lxm"; "aud"; "inheritAud"])
      else (declared_aud, ["lxm"; "aud"]) in
    if negb (keys_within (lex_keys permission) allowed_keys) then None
    else
      lxm ← lex_list permission "lxm";
      IncRpc <$> RpcPermission_from_parts lxm aud.

Definition expand_one (inc : IncludeScope) (permission : LexPermission) : option IncludedPermission :=
  if resource permission =s "repo" then expand_repo permission
  else if resource permission =s "space" then expand_space permission
  else if resource permission =s "rpc" then expand_rpc inc permission
  else None.

Definition expand (inc : IncludeScope) (set : LexPermissionSet) : list IncludedPermission :=
  filter (fun p => Is_true (is_allowed inc p)) (omap (expand_one inc) (permissions set)).

End Model.

(** ** Containment *)

(** The authority group: every segment of the NSID but the last. *)
Definition nsid_group (nsid : string) : string := str_join (sep1 dot) (removelast (str_split dot nsid)).

Lemma nsid_group_snoc a b : contains_char dot b = false -> nsid_group (a +:+ String dot b) = a.
Proof.
  intros Hb. unfold nsid_group. rewrite str_split_app, (str_split_none dot b) by done.
  rewrite removelast_last. apply str_join_split.
Qed.

Lemma parent_authority_under inc other :
  is_parent_authority_of inc other = true -> other <> star /\ under (nsid_group (inc_nsid inc)) other.
Proof.
  unfold is_parent_authority_of. destruct (String.eqb_spec other star) as [|Hne]; [done|].
  destruct (str_rfind _ _) as [n|] eqn:E; [|done].
  apply str_rfind_Some in E as (a & c & b & Hn & <- & Hb & <-%Ascii.eqb_eq). rewrite Hn.
  destruct (Nat.leb_spec (String.length other) (String.length a + 1)) as [|Hlen]; [done|].
  intros Heq%String.eqb_eq. split; [done|]. rewrite nsid_group_snoc by done.
  assert (Htake : forall t, str_take (String.length a + 1) (a +:+ String dot t) = a +:+ sep1 dot).
  { intros t. change (String dot t) with (sep1 dot +:+ t). rewrite <- append_assoc.
    replace (String.length a + 1) with (String.length (a +:+ sep1 dot)) by (by rewrite length_append).
    apply str_take_app. }
  rewrite Htake in Heq. rewrite <- (str_take_drop (String.length a + 1) other), <- Heq.
  unfold under. rewrite append_assoc. simpl. rewrite str_split_app.
  eexists. split; [|done]. apply str_split_nonempty.
Qed.

Section Facts.
Context {RE : RegexEngine} {UD : UrlDecoder}.

Lemma expand_elem inc set perm :
  perm ∈ expand inc set ->
  is_allowed inc perm = true /\ exists lp, lp ∈ permissions set /\ expand_one inc lp = Some perm.
Proof.
  unfold expand. rewrite list_elem_of_filter, list_elem_of_omap. intros [?%Is_true_true ?]. eauto.
Qed.

(** Every permission comes out of its resource's validating constructor. *)
Definition constructed (perm : IncludedPermission) : Prop :=
  match perm with
  | IncRepo p => exists c a, RepoPermission_from_parts c a = Some p
  | IncRpc p => exists l a, RpcPermission_from_parts l a = Some p
  | IncSpace p => exists ty a k c ac m, SpacePermission_from_parts ty a k c ac m = Some p
  end.

Lemma expand_one_constructed inc lp perm : expand_one inc lp = Some perm -> constructed perm.
Proof.
  unfold expand_one, expand_repo, expand_space, expand_rpc. intros H.
  destruct (resource lp =s "repo"), (resource lp =s "space"), (resource lp =s "rpc"); try done;
    repeat (case_match; try done);
    repeat match goal with
    | H : (?o ≫= _) = Some _ |- _ => destruct o; simpl in H; [|done]
    | H : _ <$> _ = Some _ |- _ => apply fmap_Some in H as (? & ? & ->)
    end; simpl; eauto 8.
Qed.

Lemma expand_one_rpc inc lp p :
  expand_one inc lp = Some (IncRpc p) -> expand_rpc inc lp = Some (IncRpc p).
Proof.
  unfold expand_one. destruct (resource lp =s "repo").
  { unfold expand_repo. destruct (negb _); [done|]. destruct (lex_list lp "collection"); simpl; [|done].
    by destruct (RepoPermission_from_parts _ _). }
  destruct (resource lp =s "space").
  { unfold expand_space. destruct (negb _); [done|]. destruct (lex_scalar lp "spaceType"); simpl; [|done].
    by destruct (SpacePermission_from_parts _ _ _ _ _ _). }
  by destruct (resource lp =s "rpc").
Qed.

Lemma rpc_from_parts_aud lxm aud p : RpcPermission_from_parts lxm aud = Some p -> aud = Some (rpc_aud p).
Proof.
  unfold RpcPermission_from_parts. destruct (_ || _); [done|]. destruct aud as [a|]; simpl; [|done].
  destruct (_ && _); [done|]. destruct (_ && _); [done|]. by intros [= <-].
Qed.

(** A permission set never chooses an audience. *)
Lemma expand_rpc_aud inc lp p :
  expand_rpc inc lp = Some (IncRpc p) -> rpc_aud p = star \/ inc_aud inc = Some (rpc_aud p).
Proof.
  unfold expand_rpc. destruct (lex_scalar lp "aud") as [a|].
  - destruct (String.eqb_spec a star) as [->|]; [|done].
    rewrite (bool_decide_eq_false_2 (Some star = None)) by done. rewrite andb_false_r. simpl.
    destruct (negb _); [done|]. destruct (lex_list lp "lxm"); simpl; [|done].
    intros (q & Hq & [= <-])%fmap_Some. apply rpc_from_parts_aud in Hq as [= ->]. by left.
  - destruct (_ && _ && _).
    + destruct (negb _); [done|]. destruct (lex_list lp "lxm"); simpl; [|done].
      intros (q & Hq & [= <-])%fmap_Some. apply rpc_from_parts_aud in Hq. eauto.
    + destruct (negb _); [done|]. destruct (lex_list lp "lxm"); simpl; [|done].
      intros (q & Hq & [= <-])%fmap_Some. by apply rpc_from_parts_aud in Hq.
Qed.

(** What a permission may be used for stays under the set's own authority. *)
Definition contained (inc : IncludeScope) (perm : IncludedPermission) : Prop :=
  let group := nsid_group (inc_nsid inc) in
  match perm with
  | IncRepo p => forall c a, RepoPermission_matches p c a = true -> under group c
  | IncRpc p =>
      (forall l a, RpcPermission_matches p l a = true -> under group l)
      /\ (rpc_aud p = star \/ inc_aud inc = Some (rpc_aud p))
  | IncSpace p => forall ty au k t, SpacePermission_matches p ty au k t = true -> under group ty
  end.

Lemma all_under inc l x :
  forallb (is_parent_authority_of inc) l = true ->
  existsb (fun c => c =s star) l || existsb (fun c => c =s x) l = true ->
  under (nsid_group (inc_nsid inc)) x.
Proof.
  rewrite forallb_elem, orb_true_iff, !existsb_elem. setoid_rewrite String.eqb_eq.
  intros Hall [(y & Hy & ->)|(y & Hy & ->)]; apply Hall, parent_authority_under in Hy as [? ?]; done.
Qed.

Lemma expand_elem_contained inc set perm : perm ∈ expand inc set -> contained inc perm.
Proof.
  intros (Hal & lp & _ & Hlp)%expand_elem. destruct perm as [p|p|p]; simpl in *.
  - intros c a [_ H]%andb_true_iff. by eapply all_under.
  - split.
    + intros l a [_ H]%andb_true_iff. by eapply all_under.
    + by apply expand_one_rpc, expand_rpc_aud in Hlp.
  - apply parent_authority_under in Hal as [Hne Hu]. intros ty au k t.
    unfold SpacePermission_matches. destruct (String.eqb_spec (space_type p) star); [done|].
    by destruct (String.eqb_spec (space_type p) ty) as [<-|].
Qed.

(** Authority containment: everything a permission of an expanded set can
    be used for - each collection written, each method called, each space type
    - lies strictly under the authority group of the set's own NSID (never
    through a wildcard), and each [rpc] audience is [*] or the one the include
    scope itself names, never one the set chose. *)
Theorem expand_contained inc set perm : perm ∈ expand inc set -> contained inc perm.
Proof. apply expand_elem_contained. Qed.

(** A list-valued parameter given as a scalar is not refused but read as
    absent: a [repo] permission whose [action] is a single string - any string,
    valid or not - expands to all of create, update and delete. *)
Theorem scalar_action_widens inc c v :
  is_nsid c = true ->
  expand_one inc {| resource := "repo";
                    lex_params := [("collection", LList [c]); ("action", Scalar v)] |}
  = Some (IncRepo {| repo_collection := [c]; repo_action := RepoAction_ALL |}).
Proof.
  intros Hc. unfold expand_one, expand_repo, lex_list, lex_get, lex_keys, keys_within. simpl.
  unfold RepoPermission_from_parts, is_nsid_or_wildcard. simpl. by rewrite Hc, orb_true_r.
Qed.

End Facts.

(** ** Witnesses *)

Section Witnesses.
Existing Instance Derivative.engine.
Existing Instance Percent.decoder.

Definition forum_set : LexPermissionSet := {| permissions :=
  [ {| resource := "repo"; lex_params := [("collection", LList ["com.example.forum.post"])] |};
    {| resource := "repo"; lex_params := [("collection", LList ["app.bsky.feed.post"])] |} ] |}.

Lemma expand_contained_witness :
  contained {| inc_nsid := "com.example.forum.auth"; inc_aud := None |}
    (IncRepo {| repo_collection := ["com.example.forum.post"]; repo_action := RepoAction_ALL |}).
Proof.
  apply (expand_contained _ forum_set).
  assert (expand {| inc_nsid := "com.example.forum.auth"; inc_aud := None |} forum_set
    = [IncRepo {| repo_collection := ["com.example.forum.post"]; repo_action := RepoAction_ALL |}])
    as -> by (vm_compute; reflexivity).
  left.
Defined.

Lemma scalar_action_widens_witness :
  expand_one {| inc_nsid := "com.example.auth"; inc_aud := None |}
    {| resource := "repo";
       lex_params := [("collection", LList ["com.example.post"]); ("action", Scalar "create")] |}
  = Some (IncRepo {| repo_collection := ["com.example.post"]; repo_action := RepoAction_ALL |}).
Proof. apply scalar_action_widens. vm_compute. reflexivity. Defined.

End Witnesses.
