(* ===== verification/Json.v ===== *)
(** * JSON values

    The part of [serde_json::Value] the code uses: the value type and the
    accessors [get], [as_str], [as_array], [as_object], [as_bool], [is_null].
    A number is an integer of the [i64] or [u64] range, or a float, kept as
    its 64 bits. *)

From Stdlib Require Import ZArith Lia.
From S2P Require Import Prelude.

Inductive value : Type :=
| VNull
| VBool (b : bool)
| VNumber (n : Z)
| VFloat (bits : Z)
| VString (s : string)
| VArray (items : list value)
| VObject (entries : list (string * value)).

Definition get (v : value) (key : string) : option value :=
  match v with VObject o => assoc_get o key | _ => None end.

Definition as_str (v : value) : option string :=
  match v with VString s => Some s | _ => None end.

Definition as_array (v : value) : option (list value) :=
  match v with VArray l => Some l | _ => None end.

Definition as_object (v : value) : option (list (string * value)) :=
  match v with VObject o => Some o | _ => None end.

Definition as_bool (v : value) : option bool :=
  match v with VBool b => Some b | _ => None end.

Definition is_null (v : value) : bool :=
  match v with VNull => true | _ => false end.

(** [as_i64], [as_u64], [is_string] and [is_array]: a float has neither integer. *)
Definition value_i64 (v : value) : option Z :=
  match v with
  | VNumber n => if (- 2 ^ 63 <=? n)%Z && (n <? 2 ^ 63)%Z then Some n else None
  | _ => None
  end.

Definition value_u64 (v : value) : option Z :=
  match v with
  | VNumber n => if (0 <=? n)%Z && (n <? 2 ^ 64)%Z then Some n else None
  | _ => None
  end.

Definition is_string (v : value) : bool := match v with VString _ => true | _ => false end.
Definition is_array (v : value) : bool := match v with VArray _ => true | _ => false end.

(** [Map::contains_key]. *)
Definition contains_key {A} (o : list (string * A)) (key : string) : bool := bool_decide (is_Some (assoc_get o key)).

(** The number of values in a value. *)
Fixpoint vsize (v : value) : nat :=
  match v with
  | VArray l => S (foldr (fun x n => vsize x + n) 0 l)
  | VObject o => S (foldr (fun x n => vsize x.2 + n) 0 o)
  | _ => 1
  end.

Lemma vsize_pos v : 1 <= vsize v.
Proof. destruct v; simpl; lia. Qed.

Lemma vsize_item x l : x ∈ l -> vsize x < vsize (VArray l).
Proof.
  intros Hx. simpl. induction l as [|y l IH]; [by apply not_elem_of_nil in Hx|].
  apply elem_of_cons in Hx as [->|Hx]; simpl; [lia|]. specialize (IH Hx). lia.
Qed.

Lemma vsize_entry k x o : (k, x) ∈ o -> vsize x < vsize (VObject o).
Proof.
  intros Hx. simpl. induction o as [|[k' y] o IH]; [by apply not_elem_of_nil in Hx|].
  apply elem_of_cons in Hx as [[= <- <-]|Hx]; simpl; [lia|]. specialize (IH Hx). lia.
Qed.

Lemma assoc_get_elem {A} (o : list (string * A)) k x : assoc_get o k = Some x -> (k, x) ∈ o.
Proof.
  induction o as [|[k' y] o IH]; simpl; [done|]. destruct (k' =s k) eqn:E.
  - apply String.eqb_eq in E as ->. intros [= ->]. by left.
  - intros H. right. by apply IH.
Qed.

Lemma vsize_get v k x : get v k = Some x -> vsize x < vsize v.
Proof. destruct v; simpl; try done. intros H%assoc_get_elem. by apply (vsize_entry k). Qed.

Lemma contains_key_true {A} (o : list (string * A)) k : contains_key o k = true <-> is_Some (assoc_get o k).
Proof. apply bool_decide_eq_true. Qed.
