(* ===== verification/ClientScopes.v ===== *)
(** * What an API client may grant

    Models the scope side of [src/oauth/client_auth.rs] - [validate_scopes],
    [expand_permission_set], [lex_permission] - and [src/auth/admin_scope.rs].
    A client registers scopes; an [include:] scope among them is expanded
    through the lexicon catalogue into scope strings, and a token is accepted
    only when the resulting set covers every scope it asks for. *)

From S2P Require Import Prelude RustStr Regex Nsid UrlCoding ScopeSyntax ScopeResources.
From S2P Require Import ScopePermissions ScopeInclude Json.

(** ** Definitions *)

(** The variants of [crate::error::AppError] these operations return. *)
Inductive AppError : Type :=
| BadRequest (message : string)
| Forbidden (message : string).

Definition ADMIN_LXM : string := "dev.happyview.admin.manage".
Definition PERMISSION_SET : string := "dev.happyview.adminFull".

(** [admin_permission_set.json]. *)
Definition ADMIN_PERMISSION_SET_JSON : value := VObject [
  ("lexicon", VNumber 1);
  ("id", VString "dev.happyview.adminFull");
  ("defs", VObject [("main", VObject [
     ("type", VString "permission-set");
     ("title", VString "Manage your HappyView instances");
     ("detail", VString "Deploy projects, install plugins and change settings on any HappyView instance where you are an admin, with the permissions you hold there.");
     ("permissions", VArray [VObject [
        ("type", VString "permission");
        ("resource", VString "rpc");
        ("lxm", VArray [VString "dev.happyview.admin.manage"]);
        ("aud", VString "*")]])])])].

Definition builtin_permission_set (nsid : string) : option value :=
  if nsid =s PERMISSION_SET then Some ADMIN_PERMISSION_SET_JSON else None.

(** The [match v] of [lex_permission]: the value of one key, or nothing when a
    list holds something other than strings. *)
Definition lex_value (v : value) : option LexValue :=
  match v with
  | VArray items => LList <$> collect_opt as_str items
  | VBool b => Some (LBool b)
  | VString s => Some (Scalar s)
  | _ => Some (Scalar EmptyString)
  end.

Definition lex_permission (v : value) : option LexPermission :=
  obj ← as_object v;
  r ← assoc_get obj "resource";
  resource ← as_str r;
  let params :=
    omap (fun kv => pair kv.1 <$> lex_value kv.2)
      (filter (fun kv => Is_true (negb (kv.1 =s "resource") && negb (kv.1 =s "type"))) obj) in
  Some {| resource := resource; lex_params := params |}.

Section Model.
Context {RE : RegexEngine} {UD : UrlDecoder} {UE : UrlEncoder}.

Definition grants_admin (granted_scope : string) : bool :=
  any_map RpcPermission_parse
    (fun p => (rpc_aud p =s star) && existsb (fun l => l =s ADMIN_LXM) (rpc_lxm p))
    (parse_scope_list granted_scope).

(** The scope strings pushed for one included permission. *)
Definition emit_repo (p : RepoPermission) : list string :=
  collection ← repo_collection p;
  (fun action => "repo:" +:+ collection +:+ "?action=" +:+ RepoAction_as_str action) <$> repo_action p.

Definition emit_rpc (p : RpcPermission) : list string :=
  (fun lxm => "rpc:" +:+ lxm +:+ "?aud=" +:+ urlencoding_encode (rpc_aud p)) <$> rpc_lxm p.

Definition space_params (p : SpacePermission) : list string :=
  ["authority=" +:+ urlencoding_encode (space_authority p);
   "skey=" +:+ urlencoding_encode (space_skey p)]
  ++ ((fun collection => "collection=" +:+ urlencoding_encode collection) <$> space_collection p)
  ++ ((fun action => "action=" +:+ SpaceAction_as_str action) <$> space_action p)
  ++ ((fun op => "manage=" +:+ ManageOp_as_str op) <$> space_manage p).

Definition emit_space (p : SpacePermission) : list string :=
  ["space:" +:+ space_type p +:+ "?" +:+ str_join (sep1 ampersand) (space_params p)].

Definition emit (permission : IncludedPermission) : list string :=
  match permission with
  | IncRepo p => emit_repo p
  | IncRpc p => emit_rpc p
  | IncSpace p => emit_space p
  end.

(** [lexicons] is the catalogue: the raw document stored for an NSID. *)
Definition expand_permission_set (lexicons : string -> option value) (scope : string)
    (out : list string) : list string :=
  match IncludeScope_parse scope with
  | None => out
  | Some include =>
      match (match builtin_permission_set (inc_nsid include) with
             | Some raw => Some raw
             | None => lexicons (inc_nsid include)
             end) with
      | None => out
      | Some raw =>
          match (d ← get raw "defs"; m ← get d "main"; p ← get m "permissions"; as_array p) with
          | None => out
          | Some perms =>
              let set := {| permissions := omap lex_permission perms |} in
              out ++ (permission ← expand include set; emit permission)
          end
      end
  end.

(** The client's effective scopes: each registered scope, after the permissions
    its [include:] expands to. *)
Fixpoint effective_scopes (lexicons : string -> option value) (effective scopes : list string)
    : list string :=
  match scopes with
  | [] => effective
  | scope :: rest =>
      let effective :=
        if starts_with "include:" scope then expand_permission_set lexicons scope effective
        else effective in
      effective_scopes lexicons (effective ++ [scope]) rest
  end.

Fixpoint check_token_scopes (client : ScopePermissions) (token_list : list string)
    : result unit AppError :=
  match token_list with
  | [] => Ok tt
  | scope :: rest =>
      if negb (covers_scope client scope) then
        Err (BadRequest ("scope '" +:+ scope +:+ "' is not allowed for this client"))
      else check_token_scopes client rest
  end.

Definition validate_scopes (token_scopes client_scopes : string) (lexicons : string -> option value)
    : result unit AppError :=
  let token_list := parse_scope_list token_scopes in
  if negb (existsb (fun s => s =s "atproto") token_list) then
    Err (BadRequest "token must include the 'atproto' scope")
  else
    let effective := effective_scopes lexicons [] (parse_scope_list client_scopes) in
    let client := from_scopes effective in
    check_token_scopes client token_list.

End Model.

(** ** Outcomes *)

Section Outcomes.
Context {RE : RegexEngine} {UD : UrlDecoder} {UE : UrlEncoder}.

Lemma check_token_scopes_ok client l :
  check_token_scopes client l = Ok tt <-> forall s, s ∈ l -> covers_scope client s = true.
Proof.
  induction l as [|x l IH]; simpl; [set_solver|].
  destruct (covers_scope client x) eqn:E; simpl; [|split; [done|]].
  - rewrite IH. set_solver.
  - intros H. specialize (H x ltac:(left)). congruence.
Qed.

Lemma validate_scopes_ok tok cl lexicons :
  validate_scopes tok cl lexicons = Ok tt <->
  "atproto" ∈ parse_scope_list tok
  /\ forall s, s ∈ parse_scope_list tok ->
       covers_scope (from_scopes (effective_scopes lexicons [] (parse_scope_list cl))) s = true.
Proof.
  unfold validate_scopes. destruct (existsb _ _) eqn:E; simpl.
  - rewrite check_token_scopes_ok. apply existsb_elem in E as (x & Hx & ->%String.eqb_eq). naive_solver.
  - split; [done|]. intros [Hin _]. assert (existsb (fun s => s =s "atproto") (parse_scope_list tok) = true)
      by (apply existsb_elem; eauto). congruence.
Qed.

(** The outcome of [validate_scopes]: acceptance means [atproto] is asked
    for and every scope is covered by the effective set; a refusal is the
    missing [atproto], or names the first scope that is not covered. *)
Theorem validate_scopes_outcome tok cl lexicons :
  let client := from_scopes (effective_scopes lexicons [] (parse_scope_list cl)) in
  match validate_scopes tok cl lexicons with
  | Ok _ => "atproto" ∈ parse_scope_list tok
            /\ Forall (fun s => covers_scope client s = true) (parse_scope_list tok)
  | Err e =>
      (("atproto" ∉ parse_scope_list tok) /\ e = BadRequest "token must include the 'atproto' scope")
      \/ ("atproto" ∈ parse_scope_list tok
          /\ exists l1 s l2, parse_scope_list tok = l1 ++ s :: l2
             /\ Forall (fun s => covers_scope client s = true) l1 /\ covers_scope client s = false
             /\ e = BadRequest ("scope '" +:+ s +:+ "' is not allowed for this client"))
  end.
Proof.
  intros client. destruct (validate_scopes tok cl lexicons) as [[]|e] eqn:E.
  { apply validate_scopes_ok in E as [? ?]. by rewrite Forall_forall. }
  unfold validate_scopes in E. destruct (existsb _ _) eqn:Ea; simpl in E.
  - right. apply existsb_elem in Ea as (x & Hx & ->%String.eqb_eq). split; [done|].
    revert E. clear Hx. change (from_scopes (effective_scopes lexicons [] (parse_scope_list cl))) with client.
    generalize (parse_scope_list tok) as l. induction l as [|x l IH]; simpl; [done|].
    destruct (covers_scope client x) eqn:Ec; simpl.
    + intros (l1 & s & l2 & -> & ? & ? & ?)%IH. exists (x :: l1), s, l2. auto.
    + intros [= <-]. exists [], x, l. auto.
  - left. simplify_eq. split; [|done]. intros Hin.
    assert (existsb (fun s => s =s "atproto") (parse_scope_list tok) = true)
      by (apply existsb_elem; eauto). congruence.
Qed.

(** Only an explicit grant gives the admin API: [grants_admin] holds
    exactly when some token of the granted scope is an [rpc] permission with
    audience [*] that names the admin method - and such a permission never
    carries the method wildcard, so neither a wildcard nor
    [transition:generic] can stand in for it. *)
Theorem grants_admin_explicit g :
  grants_admin g = true <->
  exists s p, s ∈ split_whitespace g /\ RpcPermission_parse s = Some p
    /\ rpc_aud p = star /\ ADMIN_LXM ∈ rpc_lxm p /\ (star ∉ rpc_lxm p).
Proof.
  unfold grants_admin. rewrite any_map_true. setoid_rewrite andb_true_iff.
  setoid_rewrite String.eqb_eq. setoid_rewrite list_has. setoid_rewrite parse_scope_list_elem.
  split; [|naive_solver]. intros (s & p & Hs & Hp & Ha & Hl). exists s, p.
  repeat split; try done. pose proof (rpc_parse_wf _ _ Hp) as (_ & _ & _ & Hns). naive_solver.
Qed.

End Outcomes.

(** ** The emitted scope strings read back *)

(** What an included permission is meant to allow. *)
Definition included_allows (perm : IncludedPermission) (r : Request) : bool :=
  match perm, r with
  | IncRepo p, ReqRepo c a => RepoPermission_matches p c a
  | IncRpc p, ReqRpc l a => RpcPermission_matches p l a
  | IncSpace p, ReqSpace ty au k t => SpacePermission_matches p ty au k t
  | IncSpace p, ReqSpaceUser u ty au k t =>
      SpacePermission_matches (with_resolved_authority p u) ty au k t
  | _, _ => false
  end.

Section Facts.
Context {RE : RegexEngine} {UD : UrlDecoder} {UE : UrlEncoder}
  {RS : RegexEngineSpec RE} {DS : UrlDecoderSpec UD} {US : UrlEncoderSpec UD UE}.

Definition nsid_char (c : ascii) : bool := ldh c || is_dot c || (c =c asterisk).

Lemma nsid_or_wildcard_chars s : is_nsid_or_wildcard s = true -> str_all nsid_char s = true.
Proof.
  unfold is_nsid_or_wildcard, is_nsid. intros H. bool_prop. destruct H as [H|H].
  - by apply String.eqb_eq in H as ->.
  - destruct (validate_nsid s) as [[]|] eqn:E; [|done]. apply validate_nsid_chars in E.
    eapply str_all_impl; [|done]. intros c Hc. unfold nsid_char. by rewrite Hc.
Qed.

Lemma nsid_char_free c s :
  is_nsid_or_wildcard s = true -> nsid_char c = false -> contains_char c s = false.
Proof. intros Hs%nsid_or_wildcard_chars Hc. by eapply contains_char_all. Qed.

Lemma nsid_plain s : is_nsid_or_wildcard s = true -> plain s = true.
Proof.
  intros Hs%nsid_or_wildcard_chars. unfold plain. apply negb_true_iff.
  eapply str_all_any_disjoint; [|exact Hs]. intros c Hc.
  destruct (Ascii.eqb_spec percent c) as [<-|]; [by vm_compute in Hc|].
  destruct (Ascii.eqb_spec plus c) as [<-|]; [by vm_compute in Hc|done].
Qed.

(** A positional NSID and a query of [key=value] pairs. *)
Lemma parse_emitted pre v l :
  contains_char colon pre = false -> contains_char question pre = false ->
  is_nsid_or_wildcard v = true -> l <> [] ->
  Forall (fun kv => contains_char equals kv.1 = false /\ contains_char ampersand kv.1 = false
                    /\ contains_char ampersand kv.2 = false) l ->
  parse (pre +:+ String colon (v +:+ String question (str_join (sep1 ampersand) (pair_text <$> l))))
  = mkScopeSyntax pre (Some v) ((fun kv => (decode_form kv.1, decode_form kv.2)) <$> l) true.
Proof.
  intros Hc Hq Hv Hne Hl. rewrite parse_positional_query; [|done|done|by apply nsid_char_free|].
  - rewrite decode_uri_component_plain by (by apply nsid_plain). by rewrite parse_query_join.
  - destruct l as [|[k w] l]; [done|]. simpl. unfold pair_text. simpl. destruct l, k; done.
Qed.

Lemma parse_emit_repo c a :
  is_nsid_or_wildcard c = true ->
  RepoPermission_parse ("repo:" +:+ c +:+ "?action=" +:+ RepoAction_as_str a)
  = Some {| repo_collection := [c]; repo_action := [a] |}.
Proof.
  intros Hc. unfold RepoPermission_parse.
  change ("repo:" +:+ c +:+ "?action=" +:+ RepoAction_as_str a) with
    ("repo" +:+ String colon (c +:+ String question
       (str_join (sep1 ampersand) (pair_text <$> [("action", RepoAction_as_str a)])))).
  rewrite parse_emitted by (try done; repeat constructor; by destruct a). rewrite list_fmap_singleton. simpl.
  rewrite !decode_form_plain by (done || by destruct a). simpl.
  unfold RepoPermission_from_parts. simpl. rewrite Hc. by destruct a.
Qed.

Lemma parse_emit_rpc l aud :
  is_nsid_or_wildcard l = true -> (aud = star \/ is_absolute_did_ref aud = true) ->
  ~ (aud = star /\ l = star) ->
  RpcPermission_parse ("rpc:" +:+ l +:+ "?aud=" +:+ urlencoding_encode aud)
  = Some {| rpc_aud := aud; rpc_lxm := [l] |}.
Proof.
  intros Hl Ha Hns. unfold RpcPermission_parse.
  change ("rpc:" +:+ l +:+ "?aud=" +:+ urlencoding_encode aud) with
    ("rpc" +:+ String colon (l +:+ String question
       (str_join (sep1 ampersand) (pair_text <$> [("aud", urlencoding_encode aud)])))).
  rewrite parse_emitted by (try done; repeat constructor; simpl; (done || by apply encode_no_char)).
  rewrite list_fmap_singleton. simpl.
  rewrite decode_form_encode, decode_form_plain by done. simpl.
  unfold RpcPermission_from_parts. simpl. rewrite Hl. simpl.
  destruct (String.eqb_spec aud star) as [->|Hne]; simpl.
  - destruct (String.eqb_spec l star) as [->|]; [|done]. by destruct Hns.
  - destruct Ha as [?|Ha]; [done|]. by rewrite Ha.
Qed.

(** *** space *)

Definition space_pairs (p : SpacePermission) : list (string * string) :=
  [("authority", space_authority p); ("skey", space_skey p)]
  ++ (pair "collection" <$> space_collection p)
  ++ (pair "action" <$> (SpaceAction_as_str <$> space_action p))
  ++ (pair "manage" <$> (ManageOp_as_str <$> space_manage p)).

(** The same pairs with the free-text values encoded, as they are written. *)
Definition space_pairs_encoded (p : SpacePermission) : list (string * string) :=
  [("authority", urlencoding_encode (space_authority p)); ("skey", urlencoding_encode (space_skey p))]
  ++ (pair "collection" <$> (urlencoding_encode <$> space_collection p))
  ++ (pair "action" <$> (SpaceAction_as_str <$> space_action p))
  ++ (pair "manage" <$> (ManageOp_as_str <$> space_manage p)).

Lemma space_params_pairs p : space_params p = pair_text <$> space_pairs_encoded p.
Proof.
  unfold space_params, space_pairs_encoded. rewrite !fmap_app, <- !list_fmap_compose. done.
Qed.

Lemma space_pairs_decoded p :
  (fun kv => (decode_form kv.1, decode_form kv.2)) <$> space_pairs_encoded p = space_pairs p.
Proof.
  unfold space_pairs_encoded, space_pairs. rewrite !fmap_app, <- !list_fmap_compose. simpl.
  rewrite !decode_form_encode, !decode_form_plain by done. f_equal. f_equal. f_equal; [|f_equal];
    apply list_fmap_ext; intros i x _; simpl.
  - by rewrite decode_form_encode, decode_form_plain.
  - rewrite !decode_form_plain; [done|by destruct x|done].
  - rewrite !decode_form_plain; [done|by destruct x|done].
Qed.

Lemma space_pairs_clean p :
  Forall (fun kv => contains_char equals kv.1 = false /\ contains_char ampersand kv.1 = false
                    /\ contains_char ampersand kv.2 = false) (space_pairs_encoded p).
Proof.
  unfold space_pairs_encoded. rewrite !Forall_app, !Forall_fmap. split_and!.
  - repeat constructor; simpl; (done || by apply encode_no_char).
  - apply Forall_true. intros x. simpl. split_and!; [done..|by apply encode_no_char].
  - apply Forall_true. intros x. by destruct x.
  - apply Forall_true. intros x. by destruct x.
Qed.

Lemma get_multi_pairs pre pos q p :
  let syn := mkScopeSyntax pre pos (space_pairs p) q in
  get_multi syn "authority" = Some [space_authority p] /\ get_multi syn "skey" = Some [space_skey p]
  /\ get_multi syn "collection" = opt_list (space_collection p)
  /\ get_multi syn "action" = opt_list (SpaceAction_as_str <$> space_action p)
  /\ get_multi syn "manage" = opt_list (ManageOp_as_str <$> space_manage p)
  /\ get_multi syn "type" = None.
Proof.
  assert (Hsel : forall (key k : string) (l : list string),
    snd <$> filter (fun kv => Is_true (kv.1 =s key)) (pair k <$> l) = if k =s key then l else []).
  { intros key k l. induction l as [|x l IH]; [by destruct (k =s key)|]. rewrite fmap_cons, filter_cons.
    simpl. destruct (k =s key); simpl; [|done]. f_equal. exact IH. }
  unfold get_multi, space_pairs. cbn [params].
  split_and!; rewrite !filter_app, !fmap_app, !Hsel; simpl; try done;
    rewrite ?app_nil_r; by destruct (space_collection p), (space_action p), (space_manage p).
Qed.

Lemma space_pairs_known pre pos q p :
  has_only_known_keys (mkScopeSyntax pre pos (space_pairs p) q)
    ["authority"; "skey"; "collection"; "action"; "manage"] = true.
Proof.
  unfold has_only_known_keys. apply forallb_elem. intros k (v & Hk)%keys_elem. apply str_mem_true.
  cbn [params] in Hk. unfold space_pairs in Hk.
  rewrite !elem_of_app, !list_elem_of_fmap, !elem_of_cons in Hk. naive_solver set_solver.
Qed.

Lemma parse_emit_space ty a k c ac m p s :
  SpacePermission_from_parts ty a k c ac m = Some p ->
  s ∈ emit_space p -> SpacePermission_parse s = Some p.
Proof.
  intros Hp ->%list_elem_of_singleton. pose proof (space_from_parts_wf _ _ _ _ _ _ _ Hp) as (Hty & _ & _ & _ & Hac & _).
  unfold SpacePermission_parse. rewrite space_params_pairs.
  change ("space:" +:+ space_type p +:+ "?" +:+ ?x) with
    ("space" +:+ String colon (space_type p +:+ String question x)).
  rewrite parse_emitted; [|done|done|done|done|apply space_pairs_clean].
  rewrite space_pairs_decoded. cbn [prefix positional]. change (negb ("space" =s "space")) with false.
  rewrite space_pairs_known. unfold positional_conflicts. rewrite !get_single_multi.
  destruct (get_multi_pairs "space" (Some (space_type p)) true p) as (-> & -> & -> & -> & -> & ->).
  simpl. rewrite <- (space_parts_fix _ _ _ _ _ _ _ Hp).
  by destruct (space_action p).
Qed.

(** *** Requests against emitted scopes *)

Lemma allows_parsed s r :
  (forall p, RepoPermission_parse s = Some p ->
     allows (from_scopes [s]) r = included_allows (IncRepo p) r)
  /\ (forall p, RpcPermission_parse s = Some p ->
     allows (from_scopes [s]) r = included_allows (IncRpc p) r)
  /\ (forall p, SpacePermission_parse s = Some p ->
     allows (from_scopes [s]) r = included_allows (IncSpace p) r).
Proof.
  pose proof (parse_prefix s) as (P1 & P2 & P3 & P4 & P5 & P6).
  pose proof (parse_prefix_none s) as (N1 & N2 & N3 & N4 & N5 & N6).
  split_and!; intros p Hp;
    [apply P1 in Hp as HP|apply P2 in Hp as HP|apply P6 in Hp as HP];
    rewrite allows_one by (by rewrite HP); destruct r; rewrite ?Hp; try done;
    rewrite ?N1, ?N2, ?N3, ?N4, ?N5, ?N6 by (by rewrite HP); done.
Qed.

Lemma emit_repo_allows p r :
  RepoPermission_wf p ->
  allows (from_scopes (emit_repo p)) r = included_allows (IncRepo p) r.
Proof.
  intros (_ & Hc & _). rewrite Forall_forall in Hc. apply eq_true_iff_eq.
  rewrite allows_split. simpl. unfold emit_repo. split.
  - intros (s & (c & Hs & Hin)%list_elem_of_bind & Hr).
    apply list_elem_of_fmap in Hs as (a & -> & Ha).
    rewrite (proj1 (allows_parsed _ _) _ (parse_emit_repo c a (Hc c Hin))) in Hr.
    destruct r; simpl in *; try done. rewrite repo_matches_iff in *. simpl in Hr.
    destruct Hr as [->%list_elem_of_singleton Hr]. split; [done|].
    rewrite !list_elem_of_singleton in Hr. naive_solver.
  - destruct r as [c a| | | | | |]; simpl; try done. rewrite repo_matches_iff. intros [Ha Hcol].
    assert (exists w, (w = star \/ w = c) /\ w ∈ repo_collection p) as (w & Hw & Hin) by naive_solver.
    exists ("repo:" +:+ w +:+ "?action=" +:+ RepoAction_as_str a). split.
    + apply list_elem_of_bind. exists w. split; [|done]. apply list_elem_of_fmap. eauto.
    + change (allows_repo ?x c a) with (allows x (ReqRepo c a)).
      rewrite (proj1 (allows_parsed _ _) _ (parse_emit_repo w a (Hc w Hin))). simpl.
      apply repo_matches_iff. simpl. rewrite !list_elem_of_singleton. naive_solver.
Qed.

Lemma emit_rpc_allows p r :
  RpcPermission_wf p -> allows (from_scopes (emit_rpc p)) r = included_allows (IncRpc p) r.
Proof.
  intros (_ & Hl & Ha & Hns). rewrite Forall_forall in Hl. apply eq_true_iff_eq.
  assert (Hparse : forall l, l ∈ rpc_lxm p ->
    RpcPermission_parse ("rpc:" +:+ l +:+ "?aud=" +:+ urlencoding_encode (rpc_aud p))
    = Some {| rpc_aud := rpc_aud p; rpc_lxm := [l] |})
    by (intros l Hin; apply parse_emit_rpc; naive_solver).
  rewrite allows_split. simpl. unfold emit_rpc. split.
  - intros (s & (l & -> & Hin)%list_elem_of_fmap & Hr).
    rewrite (proj1 (proj2 (allows_parsed _ _)) _ (Hparse l Hin)) in Hr.
    destruct r; simpl in *; try done. rewrite rpc_matches_iff in *. simpl in Hr.
    rewrite !list_elem_of_singleton in Hr. naive_solver.
  - destruct r as [|l a| | | | |]; simpl; try done. rewrite rpc_matches_iff. intros [Hau Hcol].
    assert (exists w, (w = star \/ w = l) /\ w ∈ rpc_lxm p) as (w & Hw & Hin) by naive_solver.
    eexists. split; [by apply list_elem_of_fmap_2|].
    change (allows_rpc ?x l a) with (allows x (ReqRpc l a)).
    rewrite (proj1 (proj2 (allows_parsed _ _)) _ (Hparse w Hin)). simpl.
    apply rpc_matches_iff. simpl. rewrite !list_elem_of_singleton. naive_solver.
Qed.

Lemma emit_allows perm r :
  constructed perm -> allows (from_scopes (emit perm)) r = included_allows perm r.
Proof.
  destruct perm as [p|p|p]; simpl.
  - intros (c & a & Hp). apply emit_repo_allows. eauto with hv.
  - intros (l & a & Hp). apply emit_rpc_allows. eauto with hv.
  - intros (ty & a & k & c & ac & m & Hp). unfold emit_space.
    apply allows_parsed. eapply parse_emit_space; [done|]. by left.
Qed.

Lemma expand_constructed inc set perm : perm ∈ expand inc set -> constructed perm.
Proof. intros (_ & lp & _ & ?)%expand_elem. by eapply expand_one_constructed. Qed.

(** The scope strings written for an expanded permission mean exactly
    that permission: parsed back and asked as a granted set, they allow a
    request if and only if the permission itself does - no request of its own
    resource is lost or added, and none of another resource is answered. *)
Theorem emitted_scopes_faithful inc set perm r :
  perm ∈ expand inc set -> allows (from_scopes (emit perm)) r = included_allows perm r.
Proof. intros H. by eapply emit_allows, expand_constructed. Qed.

(** ** The effective set *)

(** The permissions an [include:] scope stands for. *)
Definition included (lexicons : string -> option value) (scope : string) : list IncludedPermission :=
  match IncludeScope_parse scope with
  | None => []
  | Some include =>
      default []
        (raw ← match builtin_permission_set (inc_nsid include) with
               | Some raw => Some raw
               | None => lexicons (inc_nsid include)
               end;
         d ← get raw "defs"; m ← get d "main"; p ← get m "permissions"; perms ← as_array p;
         Some (expand include {| permissions := omap lex_permission perms |}))
  end.

Lemma expand_permission_set_included lexicons scope out :
  expand_permission_set lexicons scope out = out ++ (included lexicons scope ≫= emit).
Proof.
  unfold expand_permission_set, included. destruct (IncludeScope_parse scope) as [inc|]; simpl.
  2: { by rewrite app_nil_r. }
  destruct (match builtin_permission_set _ with Some _ => _ | None => _ end) as [raw|]; simpl.
  2: { by rewrite app_nil_r. }
  destruct (get raw "defs") as [d|]; simpl; [|by rewrite app_nil_r].
  destruct (get d "main") as [m|]; simpl; [|by rewrite app_nil_r].
  destruct (get m "permissions") as [p|]; simpl; [|by rewrite app_nil_r].
  destruct (as_array p); simpl; [done|by rewrite app_nil_r].
Qed.

Lemma included_inv lexicons scope perm :
  perm ∈ included lexicons scope ->
  exists include set, IncludeScope_parse scope = Some include /\ perm ∈ expand include set.
Proof.
  unfold included. destruct (IncludeScope_parse scope) as [inc|]; [|by intros ?%not_elem_of_nil].
  destruct (_ ≫= _) as [l|] eqn:E; simpl; [|by intros ?%not_elem_of_nil].
  intros Hp. repeat match goal with
  | H : (?o ≫= _) = Some _ |- _ => destruct o; simpl in H; [|done]
  end. simplify_eq. eauto.
Qed.

Lemma effective_scopes_elem lexicons acc l s :
  s ∈ effective_scopes lexicons acc l <->
  s ∈ acc \/ s ∈ l
  \/ exists scope perm, scope ∈ l /\ starts_with "include:" scope = true
       /\ perm ∈ included lexicons scope /\ s ∈ emit perm.
Proof.
  revert acc. induction l as [|x l IH]; intros acc; simpl; [set_solver|].
  rewrite IH, elem_of_app, list_elem_of_singleton. setoid_rewrite elem_of_cons.
  destruct (starts_with "include:" x) eqn:E.
  - rewrite expand_permission_set_included, elem_of_app, list_elem_of_bind. split.
    + intros [[[?|(perm & ? & ?)]|?]|[?|(sc & perm & ? & ?)]]; eauto 10.
    + intros [?|[[?|?]|(sc & perm & [->|?] & ? & ? & ?)]]; eauto 10.
  - split.
    + intros [[?|?]|[?|(sc & perm & ? & ?)]]; eauto 10.
    + intros [?|[[?|?]|(sc & perm & [->|?] & ? & ? & ?)]]; eauto 10. congruence.
Qed.

Lemma allows_effective lexicons l r :
  allows (from_scopes (effective_scopes lexicons [] l)) r = true ->
  allows (from_scopes l) r = true
  \/ exists scope perm, scope ∈ l /\ perm ∈ included lexicons scope /\ included_allows perm r = true.
Proof.
  intros (s & Hs & Hr)%allows_split. cbn [scopes from_scopes] in Hs.
  apply effective_scopes_elem in Hs as [[]%not_elem_of_nil|[Hs|(scope & perm & Hsc & _ & Hp & Hem)]].
  - left. apply allows_split. eauto.
  - right. exists scope, perm. split; [done|]. split; [done|].
    apply included_inv in Hp as (inc & set & _ & Hp%expand_constructed).
    rewrite <- emit_allows by done. apply allows_split. eauto.
Qed.

Lemma emitted_not_transition lexicons l :
  "transition:generic" ∈ effective_scopes lexicons [] l -> "transition:generic" ∈ l.
Proof.
  rewrite effective_scopes_elem. intros [[]%not_elem_of_nil|[?|(scope & perm & _ & _ & _ & Hem)]]; [done|].
  exfalso. destruct perm as [p|p|p]; simpl in Hem.
  - apply list_elem_of_bind in Hem as (c & (a & ? & _)%list_elem_of_fmap & _). done.
  - apply list_elem_of_fmap in Hem as (c & ? & _). done.
  - by apply list_elem_of_singleton in Hem.
Qed.

(** The NSID a request is about. *)
Definition request_nsid (r : Request) : option string :=
  match r with
  | ReqRepo c _ => Some c
  | ReqRpc l _ => Some l
  | ReqSpace ty _ _ _ | ReqSpaceUser _ ty _ _ _ => Some ty
  | _ => None
  end.

Definition chat_request (r : Request) : bool :=
  match r with ReqRpc lxm _ => starts_with chat_bsky lxm | _ => false end.

Lemma contained_request inc perm r :
  contained inc perm -> included_allows perm r = true ->
  exists n, request_nsid r = Some n /\ under (nsid_group (inc_nsid inc)) n.
Proof.
  destruct perm as [p|p|p], r; simpl; try done; intros Hc Hm; eexists; (split; [done|]).
  - by eapply Hc.
  - by eapply (proj1 Hc).
  - by eapply Hc.
  - eapply (Hc _ (space_authority p) skey target). revert Hm. rewrite !space_matches_iff.
    unfold with_resolved_authority. case_match; simpl; intros (? & _ & ? & ?);
      (split; [done|]); (split; [by right|]); done.
Qed.

Lemma allows_gap_free sp scope r :
  (chat_request r = true -> has_transition_generic sp = false) -> rpc_wildcard_gap sp scope r = false.
Proof.
  intros H. destruct r; simpl in *; try done. destruct (RpcPermission_parse scope); [|done].
  destruct (starts_with chat_bsky lxm); [|by rewrite andb_false_r]. by rewrite H.
Qed.

(** (C16) Accepting a token grants nothing beyond the client: when
    [validate_scopes] accepts a token's scopes, every request the token's
    scopes allow is allowed by the client's registered scopes, or by a
    permission that one of its [include:] scopes expands to - and then it is
    about an NSID strictly under that set's own authority.  (Requests for
    [chat.bsky.] methods are claimed for clients without
    [transition:generic].) *)
Theorem validate_scopes_sound tok cl lexicons r :
  validate_scopes tok cl lexicons = Ok tt ->
  request_wf r = true ->
  (chat_request r = true -> "transition:generic" ∉ parse_scope_list cl) ->
  allows (ScopePermissions_parse tok) r = true ->
  allows (ScopePermissions_parse cl) r = true
  \/ exists scope include perm n,
       scope ∈ parse_scope_list cl /\ IncludeScope_parse scope = Some include
       /\ perm ∈ included lexicons scope /\ included_allows perm r = true
       /\ request_nsid r = Some n /\ under (nsid_group (inc_nsid include)) n.
Proof.
  intros [_ Hcov]%validate_scopes_ok Hwf Hgap (s & Hs & Hr)%allows_split.
  apply (covers_sound _ s r (Hcov s Hs) Hwf) in Hr.
  2: { apply allows_gap_free. intros Hchat%Hgap. unfold has_transition_generic.
       apply not_true_is_false. rewrite has_true. intros ?%emitted_not_transition. done. }
  apply allows_effective in Hr as [Hr|(scope & perm & Hsc & Hp & Hr)]; [by left|right].
  pose proof (included_inv _ _ _ Hp) as (include & set & Hinc & Hexp%expand_elem_contained).
  destruct (contained_request _ _ _ Hexp Hr) as (n & ? & ?). by exists scope, include, perm, n.
Qed.

(** ** The admin grant *)

Lemma is_nsid_shape s :
  String.length s <= MAX_NSID_LEN -> nsid_shape (str_split dot s) = true -> is_nsid s = true.
Proof. intros H1 H2. unfold is_nsid. by rewrite (proj2 (validate_nsid_ok s)). Qed.

Lemma include_parse nsid :
  is_nsid nsid = true ->
  IncludeScope_parse ("include:" +:+ nsid) = Some {| inc_nsid := nsid; inc_aud := None |}.
Proof.
  intros Hn. assert (is_nsid_or_wildcard nsid = true) as Hw
    by (unfold is_nsid_or_wildcard; by rewrite Hn, orb_true_r).
  unfold IncludeScope_parse. change ("include:" +:+ nsid) with ("include" +:+ String colon nsid).
  rewrite parse_positional; [|done|done|by apply nsid_char_free].
  rewrite decode_uri_component_plain by (by apply nsid_plain). simpl.
  unfold is_nsid in Hn. by rewrite Hn.
Qed.

Lemma admin_included lexicons :
  included lexicons "include:dev.happyview.adminFull"
  = [IncRpc {| rpc_aud := star; rpc_lxm := [ADMIN_LXM] |}].
Proof.
  unfold included. change "include:dev.happyview.adminFull" with ("include:" +:+ PERMISSION_SET).
  rewrite include_parse by (apply is_nsid_shape; [vm_compute; lia|reflexivity]).
  unfold builtin_permission_set. cbn [inc_nsid]. rewrite String.eqb_refl.
  change (default [] _) with (expand {| inc_nsid := PERMISSION_SET; inc_aud := None |} {| permissions :=
    [{| resource := "rpc"; lex_params := [("lxm", LList [ADMIN_LXM]); ("aud", Scalar star)] |}] |}).
  assert (RpcPermission_from_parts [ADMIN_LXM] (Some star)
    = Some {| rpc_aud := star; rpc_lxm := [ADMIN_LXM] |}) as Hp.
  { unfold RpcPermission_from_parts, is_nsid_or_wildcard. cbn [forallb].
    by rewrite (is_nsid_shape ADMIN_LXM) by (vm_compute; reflexivity || lia). }
  unfold expand. cbn [permissions omap list_omap].
  change (expand_one _ _) with (IncRpc <$> RpcPermission_from_parts [ADMIN_LXM] (Some star)).
  rewrite Hp. reflexivity.
Qed.

(** The built-in admin set: whatever the lexicon catalogue holds - even
    a stored document under the same NSID - a client registering
    [include:dev.happyview.adminFull] gets exactly one expanded scope, the
    [rpc] permission on the admin method for every audience, and the resulting
    scope list is one that grants the admin API. *)
Theorem admin_set_expansion lexicons :
  let scopes := effective_scopes lexicons [] ["include:dev.happyview.adminFull"] in
  scopes = ["rpc:dev.happyview.admin.manage?aud=" +:+ urlencoding_encode star;
            "include:dev.happyview.adminFull"]
  /\ grants_admin (str_join (sep1 RustStr.sp) scopes) = true.
Proof.
  assert (effective_scopes lexicons [] ["include:dev.happyview.adminFull"] =
    ["rpc:" +:+ ADMIN_LXM +:+ "?aud=" +:+ urlencoding_encode star; "include:dev.happyview.adminFull"])
    as Heq.
  { cbn [effective_scopes]. change (starts_with "include:" "include:dev.happyview.adminFull") with true.
    cbv iota. by rewrite expand_permission_set_included, admin_included. }
  simpl in Heq |- *. rewrite Heq. split; [done|]. unfold grants_admin.
  change (String "r" ?x) with ("rpc:" +:+ ADMIN_LXM +:+ "?aud=" +:+ urlencoding_encode star).
  rewrite parse_scope_list_join.
  - apply any_map_true. eexists _, {| rpc_aud := star; rpc_lxm := [ADMIN_LXM] |}.
    split; [left|]. split; [|reflexivity]. apply parse_emit_rpc; [|by left|by intros [_ ?]].
    unfold is_nsid_or_wildcard. by rewrite is_nsid_shape, orb_true_r by (vm_compute; reflexivity || lia).
  - apply NoDup_cons. split; [|apply NoDup_singleton]. by intros ?%list_elem_of_singleton.
  - repeat constructor; try done. apply ws_free_graphic. rewrite !str_all_app. simpl.
    eapply str_all_impl; [|apply urlencoding_encode_chars]. intros c.
    destruct c as [[] [] [] [] [] [] [] []]; reflexivity || discriminate 1.
Qed.

(** A list parameter that holds anything but strings is dropped with its
    key: a [repo] permission document whose [action] list has one non-string
    member - such as a number beside [create] - expands to create, update and
    delete, more than the document without the bad member grants. *)
Theorem mixed_action_widens inc c items :
  is_nsid c = true -> collect_opt as_str items = None ->
  (lp ← lex_permission (VObject [("resource", VString "repo"); ("collection", VArray [VString c]);
                                 ("action", VArray items)]);
   expand_one inc lp)
  = Some (IncRepo {| repo_collection := [c]; repo_action := RepoAction_ALL |}).
Proof.
  intros Hc Hi. unfold lex_permission. simpl. rewrite Hi. simpl.
  unfold expand_one, expand_repo. simpl. unfold RepoPermission_from_parts, is_nsid_or_wildcard. simpl.
  by rewrite Hc, orb_true_r.
Qed.

End Facts.

(** ** Witnesses *)

Section Witnesses.
Existing Instance Derivative.engine.
Existing Instance Percent.decoder.
Existing Instance Percent.encoder.

Definition forum_inc : IncludeScope := {| inc_nsid := "com.example.forum.auth"; inc_aud := None |}.
Definition forum_post : IncludedPermission :=
  IncRepo {| repo_collection := ["com.example.forum.post"]; repo_action := RepoAction_ALL |}.

Lemma emitted_scopes_faithful_witness :
  allows (from_scopes (emit forum_post)) (ReqRepo "com.example.forum.post" RepoDelete) = true.
Proof.
  rewrite (emitted_scopes_faithful (DS := Percent.decoder_spec) (US := Percent.encoder_spec)
             forum_inc forum_set forum_post); [reflexivity|].
  assert (expand forum_inc forum_set = [forum_post]) as -> by (vm_compute; reflexivity). left.
Defined.

Definition forum_lexicon : value := VObject [("defs", VObject [("main", VObject [
  ("permissions", VArray [VObject [("type", VString "permission"); ("resource", VString "repo");
     ("collection", VArray [VString "com.example.forum.post"]);
     ("action", VArray [VString "create"])]])])])].

Definition forum_lexicons (nsid : string) : option value :=
  if nsid =s "com.example.forum.auth" then Some forum_lexicon else None.

Lemma validate_scopes_sound_witness :
  validate_scopes "atproto repo:com.example.forum.post?action=create"
    "atproto include:com.example.forum.auth" forum_lexicons = Ok tt
  /\ (allows (ScopePermissions_parse "atproto include:com.example.forum.auth")
        (ReqRepo "com.example.forum.post" RepoCreate) = true
      \/ exists scope include perm n,
           scope ∈ parse_scope_list "atproto include:com.example.forum.auth"
           /\ IncludeScope_parse scope = Some include
           /\ perm ∈ included forum_lexicons scope
           /\ included_allows perm (ReqRepo "com.example.forum.post" RepoCreate) = true
           /\ request_nsid (ReqRepo "com.example.forum.post" RepoCreate) = Some n
           /\ under (nsid_group (inc_nsid include)) n).
Proof.
  assert (validate_scopes "atproto repo:com.example.forum.post?action=create"
    "atproto include:com.example.forum.auth" forum_lexicons = Ok tt) as Hok by (vm_compute; reflexivity).
  split; [exact Hok|].
  apply (validate_scopes_sound (DS := Percent.decoder_spec) (US := Percent.encoder_spec)
    "atproto repo:com.example.forum.post?action=create" _ _ _ Hok).
  - reflexivity.
  - simpl. discriminate 1.
  - vm_compute. reflexivity.
Defined.

Lemma admin_set_expansion_witness :
  grants_admin "rpc:dev.happyview.admin.manage?aud=%2A include:dev.happyview.adminFull" = true.
Proof.
  exact (proj2 (admin_set_expansion (DS := Percent.decoder_spec) (US := Percent.encoder_spec)
    (fun _ => None))).
Defined.

Lemma mixed_action_widens_witness :
  (lp ← lex_permission (VObject [("resource", VString "repo");
      ("collection", VArray [VString "com.example.forum.post"]);
      ("action", VArray [VString "create"; VNumber 1])]);
   expand_one forum_inc lp) = Some forum_post.
Proof. apply mixed_action_widens; vm_compute; reflexivity. Defined.

End Witnesses.
