(* ===== verification/LinkedScope.v ===== *)
(** * Linked-repository grants

    Models [src/linked_repos/scope.rs], the scope checks of
    [src/linked_repos/pds.rs] and the grant validation of
    [src/admin/linked_repos.rs]: which scope strings an operator may store for
    a linked repository, the scope union the instance advertises, and the
    guards in front of each repository operation. *)

From S2P Require Import Prelude RustStr Regex Nsid UrlCoding ScopeSyntax ScopeResources.
From S2P Require Import ScopePermissions ScopeInclude Json ClientScopes.

(** ** Definitions *)

Definition TRANSITION_VALUES : list string := ["generic"; "chat.bsky"; "email"].

Definition parse (input : string) : list string := parse_scope_list input.

Definition comma : ascii := ",".
Definition semicolon : ascii := ";".

(** The advice for [action=a,b]: the loop over the pairs of the query. *)
Fixpoint comma_advice (scope : string) (pairs : list string) : option string :=
  match pairs with
  | [] => None
  | pr :: rest =>
      match strip_prefix "action=" pr with
      | Some v =>
          if contains_char comma v then
            let repeated := (fun a => "action=" +:+ a) <$> filter nonempty (str_split comma v) in
            Some ("invalid repo scope: " +:+ scope +:+ " — repo actions are repeated parameters, not a comma-separated list; write " +:+ str_join (sep1 ampersand) repeated)
          else comma_advice scope rest
      | None => comma_advice scope rest
      end
  end.

Definition repo_scope_error (scope : string) : string :=
  let advice :=
    match str_split_once (Ascii.eqb question) scope with
    | Some (_, query) => comma_advice scope (str_split ampersand query)
    | None => None
    end in
  match advice with
  | Some message => message
  | None => "invalid repo scope: " +:+ scope +:+ " — expected repo:<nsid> or repo:* with optional repeated ?action= parameters (create, update, delete)"
  end.

Definition rpc_scope_error (scope : string) : string :=
  if negb (str_contains "aud=" scope) then
    "invalid rpc scope: " +:+ scope +:+ " — rpc scopes require an audience, e.g. " +:+ scope +:+ "?aud=* or ?aud=did:web:example.com%23service"
  else
    "invalid rpc scope: " +:+ scope +:+ " — aud must be * or an absolute DID reference like did:web:example.com%23service, and rpc:*?aud=* is not allowed".

Definition ok_or_else {A} (o : option A) (message : string) : result unit string :=
  match o with Some _ => Ok tt | None => Err message end.

Definition validate_transition (scope : string) : result unit string :=
  match strip_prefix "transition:" scope with
  | Some v =>
      if str_mem v TRANSITION_VALUES then Ok tt
      else if v =s EmptyString then Err "transition scope requires a value"
      else Err ("unknown transition scope: " +:+ v +:+ " — expected one of " +:+ str_join ", " TRANSITION_VALUES)
  | None => Err "transition scope requires a value"
  end.

Section Model.
Context {RE : RegexEngine} {UD : UrlDecoder}.

Definition validate (scope : string) : result unit string :=
  if scope =s EmptyString then Err "scope must not be empty"
  else if scope =s "atproto" then Ok tt
  else
    match str_split_once (fun c => (c =c colon) || (c =c question)) scope with
    | None => Err ("unknown scope: " +:+ scope)
    | Some (prefix, _) =>
        if prefix =s "repo" then ok_or_else (RepoPermission_parse scope) (repo_scope_error scope)
        else if prefix =s "blob" then
          ok_or_else (BlobPermission_parse scope)
            ("invalid blob scope: " +:+ scope +:+ " — expected type/subtype, e.g. blob:image/* or blob:*/*")
        else if prefix =s "rpc" then ok_or_else (RpcPermission_parse scope) (rpc_scope_error scope)
        else if prefix =s "space" then
          ok_or_else (SpacePermission_parse scope)
            ("invalid space scope: " +:+ scope +:+ " — expected space:<spaceType> with optional ?authority=<did|self|*>&skey=<key|*>&collection=<nsid|*>&action=<read|read_self|create|update|delete>&manage=<create|update|delete>, repeating a key rather than comma-joining its values")
        else if prefix =s "identity" then
          ok_or_else (IdentityPermission_parse scope)
            ("invalid identity scope: " +:+ scope +:+ " — expected identity:handle or identity:*")
        else if prefix =s "account" then
          ok_or_else (AccountPermission_parse scope)
            ("invalid account scope: " +:+ scope +:+ " — expected account:<email|repo|status> with an optional ?action=read or ?action=manage")
        else if prefix =s "include" then
          ok_or_else (IncludeScope_parse scope)
            ("invalid include scope: " +:+ scope +:+ " — expected include:<nsid> with an optional ?aud=<did>")
        else if prefix =s "transition" then validate_transition scope
        else Err ("unknown scope prefix: " +:+ prefix)
    end.

(** The first [scope=] of the pairs of a client id's query, decoded. *)
Fixpoint scope_pair (pairs : list string) : string :=
  match pairs with
  | [] => EmptyString
  | pr :: rest =>
      match strip_prefix "scope=" pr with
      | None => scope_pair rest
      | Some v =>
          let v := replace_char plus RustStr.sp v in
          match urlencoding_decode v with Some s => s | None => v end
      end
  end.

Definition client_base_scopes (scope : option string) (client_id : string) : string :=
  match (match scope with
         | Some s => if trim s =s EmptyString then None else Some (trim s)
         | None => None
         end) with
  | Some s => s
  | None =>
      match str_split_once (Ascii.eqb question) client_id with
      | None => EmptyString
      | Some (_, query) => scope_pair (str_split ampersand query)
      end
  end.

(** The two nested loops: push each token not yet held. *)
Definition union_tokens (scope_strings : list string) (base : string) : list string :=
  foldl (fun all grant_scopes => parse_scope_list_go all (parse grant_scopes))
    (parse base) scope_strings.

Definition union (scope_strings : list string) (base : string) : string :=
  str_join (sep1 RustStr.sp) (merge_sort String.le (union_tokens scope_strings base)).

Definition allows_repo (scopes : list string) (collection : string) (action : RepoAction) : bool :=
  ScopePermissions.allows_repo (from_scopes scopes) collection action.

Definition allows_blob (scopes : list string) (mime : string) : bool :=
  let mime :=
    to_ascii_lowercase (trim (match str_split semicolon mime with m :: _ => m | [] => mime end)) in
  let canonical := (fun s => if starts_with "blob:" s then to_ascii_lowercase s else s) <$> scopes in
  ScopePermissions.allows_blob (from_scopes canonical) mime.

(** *** [admin/linked_repos.rs] *)

Fixpoint validate_all (tokens : list string) : result unit AppError :=
  match tokens with
  | [] => Ok tt
  | s :: rest =>
      match validate s with
      | Ok _ => validate_all rest
      | Err e => Err (BadRequest ("invalid scope " +:+ s +:+ ": " +:+ e))
      end
  end.

Definition validate_scopes (input : string) : result string AppError :=
  let parsed := parse input in
  if bool_decide (parsed = []) then Err (BadRequest "scopes must not be empty")
  else
    let? _ := validate_all parsed in
    let parsed := if existsb (fun s => s =s "atproto") parsed then parsed else "atproto" :: parsed in
    Ok (str_join (sep1 RustStr.sp) parsed).

(** *** [linked_repos/pds.rs] *)

(** The fields of [LinkedRepo] the guards read. *)
Record LinkedRepo : Type := { id : string; did : option string; grant_scopes : string }.

Definition require_did (grant : LinkedRepo) : result string AppError :=
  match did grant with
  | Some d => Ok d
  | None => Err (BadRequest ("linked repo " +:+ id grant +:+ " has not been authorized yet"))
  end.

Definition grant_name (grant : LinkedRepo) : string := default (id grant) (did grant).

Definition require_repo_scope (grant : LinkedRepo) (collection : string) (action : RepoAction)
    : result unit AppError :=
  let scopes := parse (grant_scopes grant) in
  if allows_repo scopes collection action then Ok tt
  else Err (Forbidden ("linked repo " +:+ grant_name grant +:+ " lacks the scope needed to "
         +:+ RepoAction_as_str action +:+ " " +:+ collection +:+ " — grant it repo:" +:+ collection
         +:+ "?action=" +:+ RepoAction_as_str action)).

Definition require_put_scope (grant : LinkedRepo) (collection : string) (has_swap : bool)
    : result unit AppError :=
  let scopes := parse (grant_scopes grant) in
  if has_swap then
    if allows_repo scopes collection RepoUpdate then Ok tt
    else Err (Forbidden ("linked repo " +:+ grant_name grant +:+ " lacks the scope needed to put "
           +:+ collection +:+ " — putRecord with swap_cid can only update an existing record (the PDS enforces the compare-and-swap), so it requires repo:" +:+ collection +:+ "?action=update"))
  else
    let can_create := allows_repo scopes collection RepoCreate in
    let can_update := allows_repo scopes collection RepoUpdate in
    if can_create && can_update then Ok tt
    else Err (Forbidden ("linked repo " +:+ grant_name grant +:+ " lacks the scope needed to put "
           +:+ collection +:+ " — putRecord can create a new record as well as update an existing one, so it requires both repo:"
           +:+ collection +:+ "?action=create and repo:" +:+ collection
           +:+ "?action=update, not just one of them; passing swap_cid would narrow this to just repo:"
           +:+ collection +:+ "?action=update")).

Definition require_blob_scope (grant : LinkedRepo) (mime : string) : result unit AppError :=
  let scopes := parse (grant_scopes grant) in
  if allows_blob scopes mime then Ok tt
  else Err (Forbidden ("linked repo " +:+ grant_name grant +:+ " lacks a blob scope covering " +:+ mime)).

End Model.

(** ** The advertised union *)

Section UnionFacts.
Context {RE : RegexEngine} {UD : UrlDecoder}.

Lemma union_tokens_elem gs base x :
  x ∈ union_tokens gs base <-> x ∈ split_whitespace base \/ exists g, g ∈ gs /\ x ∈ split_whitespace g.
Proof.
  unfold union_tokens, parse. rewrite <- (parse_scope_list_elem base).
  generalize (parse_scope_list base) as acc. induction gs as [|g gs IH]; intros acc; simpl.
  - set_solver.
  - rewrite IH, parse_scope_list_go_elem, parse_scope_list_elem. set_solver.
Qed.

Lemma union_tokens_NoDup gs base : NoDup (union_tokens gs base).
Proof.
  unfold union_tokens, parse. pose proof (parse_scope_list_NoDup base) as H. revert H.
  generalize (parse_scope_list base) as acc. induction gs as [|g gs IH]; intros acc H; simpl; [done|].
  by apply IH, parse_scope_list_go_NoDup.
Qed.

Lemma parse_union gs base :
  parse_scope_list (union gs base) = merge_sort String.le (union_tokens gs base).
Proof.
  unfold union. apply parse_scope_list_join.
  - rewrite merge_sort_Permutation. apply union_tokens_NoDup.
  - apply Forall_forall. intros x. rewrite merge_sort_Permutation, union_tokens_elem.
    intros [H|(g & _ & H)]; by apply split_whitespace_elem in H.
Qed.

(** The advertised union is a set: reading it back gives the tokens of
    the base scopes and of every grant, each exactly once and in byte order -
    so it depends only on which tokens occur, not on the order of the grants. *)
Theorem union_reads_back gs base :
  StronglySorted String.le (parse (union gs base)) /\ NoDup (parse (union gs base))
  /\ forall x, x ∈ parse (union gs base) <->
       x ∈ parse base \/ exists g, g ∈ gs /\ x ∈ parse g.
Proof.
  unfold parse at 1 2 3. rewrite parse_union. split_and!.
  - apply StronglySorted_merge_sort; apply _.
  - rewrite merge_sort_Permutation. apply union_tokens_NoDup.
  - intros x. rewrite merge_sort_Permutation, union_tokens_elem. unfold parse.
    by setoid_rewrite parse_scope_list_elem.
Qed.

(** The advertised union means the union of the permissions: it allows a
    request exactly when the base scopes or one of the grants does. *)
Theorem union_allows gs base r :
  allows (ScopePermissions_parse (union gs base)) r = true <->
  allows (ScopePermissions_parse base) r = true
  \/ exists g, g ∈ gs /\ allows (ScopePermissions_parse g) r = true.
Proof.
  rewrite (allows_split (ScopePermissions_parse (union gs base))), (allows_tokens base).
  cbn [scopes ScopePermissions_parse]. rewrite parse_union.
  setoid_rewrite merge_sort_Permutation. setoid_rewrite union_tokens_elem. split.
  - intros (s & [Hs|(g & Hg & Hs)] & Hr); [by left; eauto|right]. exists g. rewrite allows_tokens. eauto.
  - intros [(s & Hs & Hr)|(g & Hg & (s & Hs & Hr)%allows_tokens)]; exists s; eauto.
Qed.

End UnionFacts.

(** ** Validation *)

Section ValidateFacts.
Context {RE : RegexEngine} {UD : UrlDecoder}.

Lemma separator_free a :
  str_any (fun c => (c =c colon) || (c =c question)) a = false ->
  contains_char colon a = false /\ contains_char question a = false.
Proof.
  induction a as [|x a IH]; [done|]. simpl. intros [Hx Ha]%orb_false_iff.
  destruct (IH Ha) as [-> ->]. rewrite (Ascii.eqb_sym colon), (Ascii.eqb_sym question).
  by apply orb_false_iff in Hx as [-> ->].
Qed.

(** A character absent from [a] and different from the one after it is found
    later, if at all. *)
Lemma str_find_after d a c b n :
  contains_char d a = false -> d <> c ->
  str_find (Ascii.eqb d) (a +:+ String c b) = Some n -> String.length a < n.
Proof.
  intros Hd Hne (u & e & v & Heq & <- & Hu & <-%Ascii.eqb_eq)%str_find_Some.
  revert u Heq Hu. induction a as [|x a IH]; intros [|y u]; simpl in *.
  - congruence.
  - intros _ _. lia.
  - intros [= -> _]. by rewrite Ascii.eqb_refl in Hd.
  - intros [= -> Heq] Hu. apply orb_false_iff in Hd as [_ Hd], Hu as [_ Hu].
    specialize (IH Hd u Heq Hu). lia.
Qed.

(** The text before the first colon or question mark is the parsed prefix. *)
Lemma scope_prefix_split scope :
  match str_split_once (fun c => (c =c colon) || (c =c question)) scope with
  | Some (pre, _) => scope_prefix scope = pre
  | None => scope_prefix scope = scope
  end.
Proof.
  unfold scope_prefix, ScopeSyntax.parse. destruct (str_split_once _ scope) as [[a b]|] eqn:E.
  - apply str_split_once_Some in E as (c & -> & [H1 H2]%separator_free & Hc).
    apply orb_true_iff in Hc as [->%Ascii.eqb_eq| ->%Ascii.eqb_eq].
    + rewrite (str_find_app (Ascii.eqb colon) a colon b) by done.
      destruct (str_find (Ascii.eqb question) _) as [n|] eqn:Eq; cbn [min_idx].
      * apply str_find_after in Eq; [|done..]. rewrite Nat.min_r by lia.
        repeat case_match; simplify_eq/=; by rewrite str_take_app.
      * by rewrite str_take_app.
    + rewrite (str_find_app (Ascii.eqb question) a question b) by done.
      destruct (str_find (Ascii.eqb colon) _) as [n|] eqn:Eq; cbn [min_idx].
      * apply str_find_after in Eq; [|done..]. rewrite Nat.min_l by lia.
        repeat case_match; simplify_eq/=; by rewrite str_take_app.
      * repeat case_match; simplify_eq/=; by rewrite str_take_app.
  - apply str_split_once_None, separator_free in E as [? ?].
    by rewrite !(proj2 (str_find_None _ _)).
Qed.

(** The scopes that mean something: [atproto], a scope its resource's parser
    accepts, an [include:] scope, or one of the three legacy scopes. *)
Definition meaningful (scope : string) : Prop :=
  scope = "atproto"
  \/ is_Some (RepoPermission_parse scope) \/ is_Some (BlobPermission_parse scope)
  \/ is_Some (RpcPermission_parse scope) \/ is_Some (SpacePermission_parse scope)
  \/ is_Some (IdentityPermission_parse scope) \/ is_Some (AccountPermission_parse scope)
  \/ is_Some (IncludeScope_parse scope)
  \/ exists v, v ∈ TRANSITION_VALUES /\ scope = "transition:" +:+ v.

Lemma include_prefix s i : IncludeScope_parse s = Some i -> scope_prefix s = "include".
Proof.
  unfold IncludeScope_parse, scope_prefix.
  by destruct (String.eqb_spec (prefix (ScopeSyntax.parse s)) "include") as [->|].
Qed.

Lemma validate_transition_ok scope :
  validate_transition scope = Ok tt <-> exists v, v ∈ TRANSITION_VALUES /\ scope = "transition:" +:+ v.
Proof.
  unfold validate_transition. setoid_rewrite <- strip_prefix_Some. setoid_rewrite <- str_mem_true.
  destruct (strip_prefix "transition:" scope) as [v|]; [|naive_solver].
  destruct (str_mem v TRANSITION_VALUES) eqn:E; [naive_solver|].
  destruct (v =s EmptyString); naive_solver congruence.
Qed.

Lemma ok_or_else_ok {A} (o : option A) e : ok_or_else o e = Ok tt <-> is_Some o.
Proof. destruct o; simpl; [|by rewrite is_Some_alt]. split; [by eexists|done]. Qed.

(** Exactly the branch of the scope's own prefix can accept it. *)
Lemma meaningful_prefix scope :
  meaningful scope -> scope <> "atproto" ->
  match scope_prefix scope with
  | "repo" => is_Some (RepoPermission_parse scope)
  | "blob" => is_Some (BlobPermission_parse scope)
  | "rpc" => is_Some (RpcPermission_parse scope)
  | "space" => is_Some (SpacePermission_parse scope)
  | "identity" => is_Some (IdentityPermission_parse scope)
  | "account" => is_Some (AccountPermission_parse scope)
  | "include" => is_Some (IncludeScope_parse scope)
  | "transition" => exists v, v ∈ TRANSITION_VALUES /\ scope = "transition:" +:+ v
  | _ => False
  end.
Proof.
  intros Hm Hne. pose proof (parse_prefix scope) as (P1 & P2 & P3 & P4 & P5 & P6).
  destruct Hm as [?|[[p Hp]|[[p Hp]|[[p Hp]|[[p Hp]|[[p Hp]|[[p Hp]|[[p Hp]|(v & Hv & Heq)]]]]]]]];
    [done| | | | | | | |].
  - rewrite (P1 _ Hp). by eexists.
  - rewrite (P3 _ Hp). by eexists.
  - rewrite (P2 _ Hp). by eexists.
  - rewrite (P6 _ Hp). by eexists.
  - rewrite (P4 _ Hp). by eexists.
  - rewrite (P5 _ Hp). by eexists.
  - rewrite (include_prefix _ _ Hp). by eexists.
  - assert (scope_prefix scope = "transition") as -> by (subst scope; unfold TRANSITION_VALUES in Hv;
      repeat (apply elem_of_cons in Hv as [->|Hv]; [done|]); by apply not_elem_of_nil in Hv).
    eauto.
Qed.

Lemma bare_meaningless scope : scope_prefix scope = scope -> meaningful scope -> scope = "atproto".
Proof.
  intros Hs Hm. pose proof (parse_prefix scope) as (P1 & P2 & P3 & P4 & P5 & P6).
  destruct Hm as [?|[[p Hp]|[[p Hp]|[[p Hp]|[[p Hp]|[[p Hp]|[[p Hp]|[[p Hp]|(v & Hv & Heq)]]]]]]]];
    [done|apply P1 in Hp as HP|apply P3 in Hp as HP|apply P2 in Hp as HP|apply P6 in Hp as HP
    |apply P4 in Hp as HP|apply P5 in Hp as HP|apply include_prefix in Hp as HP|];
    try (rewrite Hs in HP; subst scope; by vm_compute in Hp).
  subst scope. unfold TRANSITION_VALUES in Hv.
  repeat (apply elem_of_cons in Hv as [->|Hv]; [done|]). by apply not_elem_of_nil in Hv.
Qed.

Lemma validate_ok scope : validate scope = Ok tt <-> meaningful scope.
Proof.
  unfold validate. destruct (String.eqb_spec scope EmptyString) as [->|Hne0].
  { split; [done|]. intros Hm. by apply meaningful_prefix in Hm. }
  destruct (String.eqb_spec scope "atproto") as [->|Hne]; [split; [by left|done]|].
  pose proof (scope_prefix_split scope) as Hpre. pose proof (meaningful_prefix scope) as Hmp.
  destruct (str_split_once _ scope) as [[pre rest]|] eqn:E.
  - rewrite Hpre in Hmp. unfold meaningful.
    repeat match goal with
    | |- context [pre =s ?k] => destruct (String.eqb_spec pre k) as [->|?];
        [rewrite ?ok_or_else_ok, ?validate_transition_ok; split; [tauto|by intros Hm; apply Hmp]|]
    end.
    split; [done|]. intros Hm. specialize (Hmp Hm Hne). by repeat case_match.
  - rewrite Hpre in Hmp. split; [done|]. intros Hm. exfalso.
    by apply Hne, bare_meaningless.
Qed.

(** Validation decides meaning: a stored scope token is accepted exactly
    when it is [atproto], a scope the parser of its own resource accepts, a
    parseable [include:] scope, or one of the three legacy [transition:]
    scopes - no scope that can never grant anything is stored. *)
Theorem validate_decides_meaning scope : validate scope = Ok tt <-> meaningful scope.
Proof. apply validate_ok. Qed.

End ValidateFacts.

(** ** Stored grants *)

Section GrantFacts.
Context {RE : RegexEngine} {UD : UrlDecoder}.

Lemma validate_all_ok l : validate_all l = Ok tt <-> Forall meaningful l.
Proof.
  induction l as [|s l IH]; simpl; [by split|]. rewrite Forall_cons, <- IH, <- validate_ok.
  destruct (validate s) as [[]|]; naive_solver.
Qed.

(** The tokens that are stored. *)
Definition with_atproto (l : list string) : list string :=
  if existsb (fun s => s =s "atproto") l then l else "atproto" :: l.

Lemma with_atproto_in l : existsb (fun s => s =s "atproto") (with_atproto l) = true.
Proof. unfold with_atproto. by destruct (existsb _ l) eqn:E. Qed.

Lemma parse_with_atproto input :
  parse (str_join (sep1 RustStr.sp) (with_atproto (parse input))) = with_atproto (parse input).
Proof.
  assert (Hf : Forall (fun x => x <> EmptyString /\ ws_free x = true) (parse input)).
  { apply Forall_forall. intros x Hx%parse_scope_list_elem. by apply split_whitespace_elem in Hx. }
  apply parse_scope_list_join.
  - unfold with_atproto. destruct (existsb _ _) eqn:E; [apply parse_scope_list_NoDup|].
    apply NoDup_cons. split; [|apply parse_scope_list_NoDup]. intros Hin.
    enough (existsb (fun s => s =s "atproto") (parse input) = true) by congruence.
    apply existsb_elem. eauto.
  - unfold with_atproto. destruct (existsb _ _); [done|]. by constructor.
Qed.

Lemma validate_scopes_eq input :
  parse input <> [] -> Forall meaningful (parse input) ->
  validate_scopes input = Ok (str_join (sep1 RustStr.sp) (with_atproto (parse input))).
Proof.
  intros Hne Hm%validate_all_ok. unfold validate_scopes. rewrite bool_decide_eq_false_2, Hm by done. done.
Qed.

(** What storing a grant does: the scopes of a grant are accepted exactly
    when there is at least one token and every token means something; what is
    stored then reads back as the given tokens with [atproto] in front if it
    was missing, still consists of meaningful tokens, and is a fixed point of
    validation. *)
Theorem grant_scopes_normalised input :
  (is_ok (validate_scopes input) = true <-> parse input <> [] /\ Forall meaningful (parse input))
  /\ forall s, validate_scopes input = Ok s ->
       parse s = with_atproto (parse input) /\ Forall meaningful (parse s)
       /\ "atproto" ∈ parse s /\ validate_scopes s = Ok s.
Proof.
  assert (Hiff : is_ok (validate_scopes input) = true <-> parse input <> [] /\ Forall meaningful (parse input)).
  { split; [|intros [? ?]; by rewrite validate_scopes_eq]. unfold validate_scopes.
    destruct (bool_decide_reflect (parse input = [])); [done|].
    destruct (validate_all (parse input)) as [[]|] eqn:E; [|done]. by apply validate_all_ok in E. }
  split; [done|]. intros s Hs. assert (parse input <> [] /\ Forall meaningful (parse input)) as [Hne Hm]
    by (apply Hiff; by rewrite Hs).
  rewrite validate_scopes_eq in Hs by done. injection Hs as <-.
  assert (Hm' : Forall meaningful (with_atproto (parse input))).
  { unfold with_atproto. destruct (existsb _ _); [done|]. constructor; [by left|done]. }
  pose proof (with_atproto_in (parse input)) as Hin.
  rewrite parse_with_atproto. split_and!; [done|done| |].
  - apply existsb_elem in Hin as (x & Hx & ->%String.eqb_eq). done.
  - rewrite validate_scopes_eq; rewrite parse_with_atproto; [|by intros H; rewrite H in Hin|done].
    unfold with_atproto at 1. by rewrite Hin.
Qed.

End GrantFacts.

(** ** The guards *)

Section GuardFacts.
Context {RE : RegexEngine} {UD : UrlDecoder} {UE : UrlEncoder}
  {RS : RegexEngineSpec RE} {DS : UrlDecoderSpec UD} {US : UrlEncoderSpec UD UE}.

(** A grant with one more scope token. *)
Definition extend (grant : LinkedRepo) (token : string) : LinkedRepo :=
  {| id := id grant; did := did grant; grant_scopes := grant_scopes grant +:+ String RustStr.sp token |}.

Lemma require_repo_scope_ok grant c a :
  require_repo_scope grant c a = Ok tt <->
  allows (ScopePermissions_parse (grant_scopes grant)) (ReqRepo c a) = true.
Proof.
  unfold require_repo_scope, allows_repo, parse. cbn [allows ScopePermissions_parse].
  change (from_scopes ?l) with {| scopes := l |}. by destruct (ScopePermissions.allows_repo _ c a).
Qed.

Lemma repo_token_graphic c a :
  is_nsid c = true ->
  ws_free ("repo:" +:+ c +:+ "?action=" +:+ RepoAction_as_str a) = true.
Proof.
  intros Hc. apply ws_free_graphic. autorewrite with hv.
  assert (str_all is_graphic c = true) as ->.
  { eapply str_all_impl; [|apply nsid_or_wildcard_chars; unfold is_nsid_or_wildcard; by rewrite Hc, orb_true_r].
    intros x. destruct x as [[] [] [] [] [] [] [] []]; reflexivity || discriminate 1. }
  by destruct a.
Qed.

Lemma allows_repo_token c a c' a' :
  is_nsid c = true ->
  allows (ScopePermissions_parse ("repo:" +:+ c +:+ "?action=" +:+ RepoAction_as_str a)) (ReqRepo c' a') = true
  <-> c' = c /\ a' = a.
Proof.
  intros Hc. rewrite allows_tokens, split_whitespace_token by (done || by apply repo_token_graphic).
  setoid_rewrite list_elem_of_singleton.
  assert (Hp := parse_emit_repo c a ltac:(unfold is_nsid_or_wildcard; by rewrite Hc, orb_true_r)).
  assert (Hst : c <> star).
  { intros ->. unfold is_nsid in Hc. destruct (validate_nsid star) as [[]|] eqn:E; [|done].
    apply validate_nsid_ok in E as [_ E]. done. }
  split.
  - intros (s & -> & Hr). rewrite (proj1 (allows_parsed _ _) _ Hp) in Hr. simpl in Hr.
    apply repo_matches_iff in Hr as [->%list_elem_of_singleton Hr]. simpl in Hr.
    rewrite !list_elem_of_singleton in Hr. naive_solver.
  - intros [-> ->]. eexists. split; [done|]. rewrite (proj1 (allows_parsed _ _) _ Hp). simpl.
    apply repo_matches_iff. simpl. rewrite !list_elem_of_singleton. tauto.
Qed.

(** The message of a refused write names the remedy, exactly: granting
    the scope the message names adds the refused operation on that collection
    and no other write - for every valid collection, the extended grant passes
    the guard for an operation if and only if it is the refused one or already
    passed. *)
Theorem repo_guard_remedy grant c a c' a' :
  is_nsid c = true ->
  require_repo_scope (extend grant ("repo:" +:+ c +:+ "?action=" +:+ RepoAction_as_str a)) c' a' = Ok tt
  <-> (c' = c /\ a' = a) \/ require_repo_scope grant c' a' = Ok tt.
Proof.
  intros Hc. rewrite !require_repo_scope_ok. cbn [extend grant_scopes].
  rewrite allows_app, allows_repo_token by done. tauto.
Qed.

(** An upsert needs both permissions: [putRecord] passes the guard
    exactly when the grant may update the collection and, unless a swap rules
    creation out, may also create in it. *)
Theorem put_guard_needs grant c has_swap :
  require_put_scope grant c has_swap = Ok tt <->
  require_repo_scope grant c RepoUpdate = Ok tt
  /\ (has_swap = false -> require_repo_scope grant c RepoCreate = Ok tt).
Proof.
  rewrite !require_repo_scope_ok. unfold require_put_scope, allows_repo, parse.
  cbn [allows ScopePermissions_parse]. change (from_scopes ?l) with {| scopes := l |}.
  destruct has_swap, (ScopePermissions.allows_repo _ c RepoUpdate),
    (ScopePermissions.allows_repo _ c RepoCreate); naive_solver.
Qed.

End GuardFacts.

(** ** Witnesses *)

Section Witnesses.
Existing Instance Derivative.engine.
Existing Instance Percent.decoder.
Existing Instance Percent.encoder.

Lemma grant_scopes_normalised_witness :
  validate_scopes "atproto repo:com.example.note" = Ok "atproto repo:com.example.note".
Proof.
  apply (proj2 (grant_scopes_normalised "repo:com.example.note")). vm_compute. reflexivity.
Defined.

Lemma repo_guard_remedy_witness :
  require_repo_scope
    (extend {| id := "l1"; did := None; grant_scopes := "atproto" |} "repo:com.example.note?action=create")
    "com.example.note" RepoCreate = Ok tt.
Proof.
  apply (repo_guard_remedy (DS := Percent.decoder_spec)
    {| id := "l1"; did := None; grant_scopes := "atproto" |} "com.example.note" RepoCreate).
  - vm_compute. reflexivity.
  - left. split; reflexivity.
Defined.

Lemma put_guard_needs_witness :
  require_repo_scope {| id := "l1"; did := None; grant_scopes := "repo:com.example.note" |}
    "com.example.note" RepoUpdate = Ok tt.
Proof.
  apply (put_guard_needs {| id := "l1"; did := None; grant_scopes := "repo:com.example.note" |}
    "com.example.note" true). vm_compute. reflexivity.
Defined.

End Witnesses.
