(* ===== verification/ScopeCheck.v ===== *)
(** * Forward-time scope checks

    Models [src/xrpc/scope_check.rs]: the permissions a service-proxied request
    needs ([required_for]) and the check of a session's scopes against them. *)

From S2P Require Import Prelude RustStr Regex Nsid UrlCoding ScopeSyntax ScopeResources.
From S2P Require Import ScopePermissions ScopeInclude Json ClientScopes LinkedScope.

(** ** Definitions *)

Inductive Required : Type :=
| Repo (collection : string) (actions : list RepoAction)
| Blob (mime : string)
| Rpc (lxm aud : string).

Definition write_permission (write : value) : option Required :=
  c ← get write "collection";
  collection ← as_str c;
  t ← get write "$type";
  ty ← as_str t;
  match str_rsplit_once (Ascii.eqb hash) ty with
  | None => None
  | Some (_, kind) =>
      if kind =s "create" then Some (Repo collection [RepoCreate])
      else if kind =s "update" then Some (Repo collection [RepoUpdate])
      else if kind =s "delete" then Some (Repo collection [RepoDelete])
      else None
  end.

(** [body.get("swapCid").is_some_and(|v| !v.is_null())] *)
Definition has_swap_cid (body : value) : bool :=
  match get body "swapCid" with Some v => negb (is_null v) | None => false end.

Definition required_for (method : string) (body : value) (proxy_aud : option string) : list Required :=
  match proxy_aud with
  | Some aud => [Rpc method aud]
  | None =>
      let collection : option string := v ← get body "collection"; as_str v in
      if method =s "com.atproto.repo.createRecord" then
        default [] ((fun c => [Repo c [RepoCreate]]) <$> collection)
      else if method =s "com.atproto.repo.deleteRecord" then
        default [] ((fun c => [Repo c [RepoDelete]]) <$> collection)
      else if method =s "com.atproto.repo.putRecord" then
        default [] ((fun c =>
          let actions := if has_swap_cid body then [RepoUpdate] else [RepoCreate; RepoUpdate] in
          [Repo c actions]) <$> collection)
      else if method =s "com.atproto.repo.applyWrites" then
        let writes : option (list value) := v ← get body "writes"; as_array v in
        default [] ((fun writes : list value => omap write_permission writes) <$> writes)
      else []
  end.

Section Model.
Context {RE : RegexEngine} {UD : UrlDecoder}.

Definition satisfied (granted : ScopePermissions) (requirement : Required) : bool :=
  match requirement with
  | Repo collection actions =>
      forallb (fun action => ScopePermissions.allows_repo granted collection action) actions
  | Blob mime => ScopePermissions.allows_blob granted mime
  | Rpc lxm aud => allows_rpc granted lxm aud
  end.

Definition needed (requirement : Required) : string :=
  match requirement with
  | Repo collection actions =>
      str_join (sep1 RustStr.sp)
        ((fun a => "repo:" +:+ collection +:+ "?action=" +:+ RepoAction_as_str a) <$> actions)
  | Blob mime => "blob:" +:+ mime
  | Rpc lxm aud => "rpc:" +:+ lxm +:+ "?aud=" +:+ aud
  end.

Definition refusal (method needed : string) : AppError :=
  Forbidden ("this session is not authorized for " +:+ method +:+ ": it needs " +:+ needed
    +:+ ". Scopes are fixed when a session is created, so this needs a new authorization with the scope included.").

Fixpoint check (granted : ScopePermissions) (required : list Required) (method : string)
    : result unit AppError :=
  match required with
  | [] => Ok tt
  | requirement :: rest =>
      if negb (satisfied granted requirement) then Err (refusal method (needed requirement))
      else check granted rest method
  end.

End Model.

(** ** Outcomes *)

Section Facts.
Context {RE : RegexEngine} {UD : UrlDecoder}.

Lemma check_ok granted required method :
  check granted required method = Ok tt <-> Forall (fun q => satisfied granted q = true) required.
Proof.
  induction required as [|q l IH]; simpl; [by split|]. rewrite Forall_cons, <- IH.
  destruct (satisfied granted q); naive_solver.
Qed.

(** The check is exactly "every required permission is held": it passes
    when all requirements are satisfied, and otherwise refuses with the scope
    needed for the first one that is not. *)
Theorem scope_check_outcome granted required method :
  match check granted required method with
  | Ok _ => Forall (fun q => satisfied granted q = true) required
  | Err e => exists l1 q l2, required = l1 ++ q :: l2
      /\ Forall (fun q => satisfied granted q = true) l1 /\ satisfied granted q = false
      /\ e = refusal method (needed q)
  end.
Proof.
  induction required as [|q l IH]; simpl; [done|]. destruct (satisfied granted q) eqn:E; simpl.
  - destruct (check granted l method) as [|e]; [by constructor|].
    destruct IH as (l1 & q' & l2 & -> & ? & ? & ->). exists (q :: l1), q', l2. auto.
  - exists [], q, l. auto.
Qed.

(** A batch is checked write by write: when an [applyWrites] request that
    is not being relayed passes the check, the session may perform every
    create, update and delete the batch lists - each with its own collection
    and its own action, at every position of the batch. *)
Theorem apply_writes_checked granted body writes w ns c a :
  check granted (required_for "com.atproto.repo.applyWrites" body None)
    "com.atproto.repo.applyWrites" = Ok tt ->
  get body "writes" = Some (VArray writes) -> w ∈ writes ->
  get w "collection" = Some (VString c) ->
  get w "$type" = Some (VString (ns +:+ String hash (RepoAction_as_str a))) ->
  ScopePermissions.allows_repo granted c a = true.
Proof.
  intros Hck%check_ok Hw Hin Hc Ht. rewrite Forall_forall in Hck.
  assert (write_permission w = Some (Repo c [a])) as Hwp.
  { unfold write_permission. rewrite Hc, Ht. simpl.
    rewrite str_rsplit_once_app by (by destruct a). by destruct a. }
  specialize (Hck (Repo c [a])). simpl in Hck.
  enough (ScopePermissions.allows_repo granted c a && true = true) as H by (by rewrite andb_true_r in H).
  apply Hck. unfold required_for. simpl. rewrite Hw. simpl. apply list_elem_of_omap. eauto.
Qed.

(** Single-record writes need the operations they perform: an accepted
    create, delete or put (one not being relayed, naming its collection) is
    held for exactly the actions it can perform - a put needs both create and
    update unless it carries a [swapCid]. *)
Theorem single_write_checked granted body c :
  get body "collection" = Some (VString c) ->
  let ok method := is_ok (check granted (required_for method body None) method) in
  let may := ScopePermissions.allows_repo granted c in
  ok "com.atproto.repo.createRecord" = may RepoCreate
  /\ ok "com.atproto.repo.deleteRecord" = may RepoDelete
  /\ ok "com.atproto.repo.putRecord" = (has_swap_cid body || may RepoCreate) && may RepoUpdate.
Proof.
  intros Hc ok may. unfold ok, required_for. simpl. rewrite Hc. simpl. rewrite !andb_true_r.
  unfold may. split_and!; [by destruct (ScopePermissions.allows_repo _ _ _)..|].
  destruct (has_swap_cid body); simpl; rewrite ?andb_true_r; by repeat destruct (ScopePermissions.allows_repo _ _ _).
Qed.

(** A [putRecord] body that carries [swapCid] is checked for update
    alone even when it has no [swapRecord], the swap field the record server
    reads - so a session that may only update passes the check for a request
    that can create. *)
Theorem swap_cid_narrows granted body c v :
  get body "collection" = Some (VString c) -> get body "swapCid" = Some (VString v) ->
  get body "swapRecord" = None ->
  ScopePermissions.allows_repo granted c RepoUpdate = true ->
  ScopePermissions.allows_repo granted c RepoCreate = false ->
  check granted (required_for "com.atproto.repo.putRecord" body None) "com.atproto.repo.putRecord"
  = Ok tt.
Proof.
  intros Hc Hs _ Hu _. unfold required_for, has_swap_cid. simpl. rewrite Hc, Hs. simpl. by rewrite Hu.
Qed.

End Facts.

(** ** The named scope is enough *)

Section Remedy.
Context {RE : RegexEngine} {UD : UrlDecoder} {UE : UrlEncoder}
  {RS : RegexEngineSpec RE} {DS : UrlDecoderSpec UD} {US : UrlEncoderSpec UD UE}.

(** Requirements on syntactically valid names; [required_for] makes no [Blob]. *)
Definition nameable (q : Required) : bool :=
  match q with
  | Repo c actions => is_nsid c && bool_decide (actions <> [])
  | Blob _ => false
  | Rpc lxm aud =>
      is_nsid lxm && is_absolute_did_ref aud && plain aud
      && negb (contains_char ampersand aud) && ws_free ("rpc:" +:+ lxm +:+ "?aud=" +:+ aud)
  end.

Lemma parse_rpc_plain l aud :
  is_nsid l = true -> is_absolute_did_ref aud = true -> plain aud = true ->
  contains_char ampersand aud = false ->
  RpcPermission_parse ("rpc:" +:+ l +:+ "?aud=" +:+ aud) = Some {| rpc_aud := aud; rpc_lxm := [l] |}.
Proof.
  intros Hl Ha Hp Hamp. assert (is_nsid_or_wildcard l = true) as Hw
    by (unfold is_nsid_or_wildcard; by rewrite Hl, orb_true_r).
  unfold RpcPermission_parse. change ("rpc:" +:+ l +:+ "?aud=" +:+ aud) with
    ("rpc" +:+ String colon (l +:+ String question
       (str_join (sep1 ampersand) (pair_text <$> [("aud", aud)])))).
  rewrite parse_emitted by (try done; repeat constructor; done).
  rewrite list_fmap_singleton. simpl. rewrite !decode_form_plain by done. simpl.
  unfold RpcPermission_from_parts. simpl. rewrite Hw, Ha. simpl.
  destruct (String.eqb_spec aud star) as [->|]; [done|]. done.
Qed.

Lemma repo_needed_allows c actions a :
  is_nsid c = true -> a ∈ actions ->
  allows (ScopePermissions_parse (needed (Repo c actions))) (ReqRepo c a) = true.
Proof.
  intros Hc Ha. apply allows_tokens.
  exists ("repo:" +:+ c +:+ "?action=" +:+ RepoAction_as_str a). split.
  - cbn [needed]. rewrite split_whitespace_join; [apply list_elem_of_fmap; eauto|].
    apply Forall_fmap, Forall_true. intros x. split; [done|by apply repo_token_graphic].
  - rewrite (proj1 (allows_parsed _ _) _ (parse_emit_repo c a ltac:(unfold is_nsid_or_wildcard;
      by rewrite Hc, orb_true_r))). simpl. apply repo_matches_iff. simpl.
    rewrite !list_elem_of_singleton. tauto.
Qed.

(** The scope a refusal names is enough: a session whose scopes are
    extended with the scope named for a requirement satisfies it - for every
    repository requirement on a valid collection and every [rpc] requirement
    on a valid method and an audience in plain text. *)
Theorem needed_scope_suffices granted q :
  nameable q = true ->
  satisfied (ScopePermissions_parse (granted +:+ String RustStr.sp (needed q))) q = true.
Proof.
  intros Hq. destruct q as [c actions|m|lxm aud]; [|done|]; unfold nameable in Hq.
  - apply andb_true_iff in Hq as [Hc _]. simpl. apply forallb_elem. intros a Ha.
    change (allows (ScopePermissions_parse (granted +:+ String RustStr.sp (needed (Repo c actions)))) (ReqRepo c a) = true).
    apply allows_app. right. by apply repo_needed_allows.
  - apply andb_true_iff in Hq as [Hq Hws]. bool_prop.
    change (allows (ScopePermissions_parse (granted +:+ String RustStr.sp (needed (Rpc lxm aud)))) (ReqRpc lxm aud) = true).
    apply allows_app. right. apply allows_tokens. cbn [needed].
    rewrite split_whitespace_token by done. eexists. split; [left|].
    rewrite (proj1 (proj2 (allows_parsed _ _)) _ (parse_rpc_plain lxm aud ltac:(done) ltac:(done) ltac:(done) ltac:(done))).
    simpl. apply rpc_matches_iff. simpl. rewrite !list_elem_of_singleton. split; [by right|by right].
Qed.

End Remedy.

(** ** Witnesses *)

Section Witnesses.
Existing Instance Derivative.engine.
Existing Instance Percent.decoder.
Existing Instance Percent.encoder.

Definition batch : value := VObject [("writes", VArray [
  VObject [("$type", VString "com.atproto.repo.applyWrites#create"); ("collection", VString "com.example.post")];
  VObject [("$type", VString "com.atproto.repo.applyWrites#delete"); ("collection", VString "com.example.like")]])].

Lemma apply_writes_checked_witness :
  ScopePermissions.allows_repo
    (ScopePermissions_parse "atproto repo:com.example.post repo:com.example.like?action=delete")
    "com.example.like" RepoDelete = true.
Proof.
  refine (apply_writes_checked _ batch _
    (VObject [("$type", VString "com.atproto.repo.applyWrites#delete"); ("collection", VString "com.example.like")])
    "com.atproto.repo.applyWrites" "com.example.like" RepoDelete _ eq_refl _ eq_refl eq_refl).
  - vm_compute. reflexivity.
  - right. left.
Defined.

Definition put_body : value := VObject [("collection", VString "com.example.post"); ("swapCid", VString "bafy")].

Lemma single_write_checked_witness :
  is_ok (check (ScopePermissions_parse "repo:com.example.post?action=update")
    (required_for "com.atproto.repo.createRecord" put_body None) "com.atproto.repo.createRecord") = false.
Proof.
  rewrite (proj1 (single_write_checked (ScopePermissions_parse "repo:com.example.post?action=update")
    put_body "com.example.post" eq_refl)). vm_compute. reflexivity.
Defined.

Lemma swap_cid_narrows_witness :
  check (ScopePermissions_parse "repo:com.example.post?action=update")
    (required_for "com.atproto.repo.putRecord" put_body None) "com.atproto.repo.putRecord" = Ok tt.
Proof.
  apply (swap_cid_narrows _ put_body "com.example.post" "bafy"); vm_compute; reflexivity.
Defined.

Lemma needed_scope_suffices_witness :
  satisfied (ScopePermissions_parse "atproto rpc:com.example.getFeed?aud=did:web:example.com#feed")
    (Rpc "com.example.getFeed" "did:web:example.com#feed") = true.
Proof.
  apply (needed_scope_suffices (DS := Percent.decoder_spec) "atproto"
    (Rpc "com.example.getFeed" "did:web:example.com#feed")). vm_compute. reflexivity.
Defined.

End Witnesses.
