(* ===== verification/Star.v ===== *)
(** * STAR archives

    Models [crates/happyview-star/src/lib.rs]: the framing of a STAR archive -
    magic bytes, metadata, control bytes, length-prefixed keys and values - and
    its streaming reader.  The metadata codec is the third-party crate
    [serde_ipld_dagcbor]: class [DagCbor] holds the operations the code calls
    and [DagCborSpec] what it relies on, that encoding then decoding gives the
    value back. *)

From S2P Require Import Prelude Words.
From Stdlib Require Import ZArith Lia.

#[local] Open Scope Z_scope.

(** ** The metadata codec *)

(** [Meta] is [BTreeMap<String, Ipld>] and [Ipld] the decoded value;
    [type_is_string] tells whether the entry [$type] is a string and
    [type_name] is that string. *)
Class DagCbor : Type := {
  Meta : Type;
  Ipld : Type;
  as_map : Ipld -> option Meta;
  type_name : Meta -> option string;
  to_vec : Meta -> result (list Z) string;
  from_slice : list Z -> result Ipld string;
}.

Class DagCborSpec (D : DagCbor) : Prop := {
  from_slice_to_vec :
    forall m bs, to_vec m = Ok bs -> exists v, from_slice bs = Ok v /\ as_map v = Some m;
  to_vec_bytes : forall m bs, to_vec m = Ok bs -> is_bytes bs;
}.

(** ** Definitions *)

Definition MAGIC : list Z := [0x2a; 0x6c; 0x01; 0x00].
Definition CONTROL_PAIR : Z := 0x01.
Definition CONTROL_END : Z := 0x00.
Definition END_BYTES : list Z := [CONTROL_END].
Definition MAX_VARINT_BYTES : nat := 9.

Inductive StarError : Type :=
| Io
| InvalidMagic
| UnexpectedEnd
| NonCanonicalVarint
| VarintTooLong
| TooLong (what : string) (length limit : Z)
| InvalidMeta (message : string)
| NonCanonicalMeta
| InvalidControlByte (byte : Z)
| TrailingBytes.

Record Limits : Type := { max_meta : Z; max_key : Z; max_value : Z }.

Definition default_limits : Limits :=
  {| max_meta := U64 - 1; max_key := U64 - 1; max_value := U64 - 1 |}.

Record Pair : Type := { key : list Z; pair_value : list Z }.

(** *** Writing *)

(** The loop of [encode_varint]; a [u64] takes at most ten groups. *)
Fixpoint encode_varint_go (fuel : nat) (v : Z) : list Z :=
  match fuel with
  | O => []
  | S n =>
      if 0x80 <=? v then Z.lor (Z.land (wrap8 v) 0x7f) 0x80 :: encode_varint_go n (Z.shiftr v 7)
      else [wrap8 v]
  end.

Definition encode_varint (v : Z) : list Z := encode_varint_go 10 v.

Definition frame (bytes : list Z) : list Z := encode_varint (len bytes) ++ bytes.

Definition encode_pair (k v : list Z) : list Z := [CONTROL_PAIR] ++ frame k ++ frame v.

(** *** Reading *)

(** A reader's input: the bytes it will deliver, and whether the read after
    them fails instead of reporting the end. *)
Record Input : Type := { data : list Z; faulty : bool }.

Definition with_data (input : Input) (d : list Z) : Input := {| data := d; faulty := faulty input |}.

(** The error of a read that cannot be filled. *)
Definition short_read (input : Input) : StarError := if faulty input then Io else UnexpectedEnd.

(** [read_exact] into a buffer of [n] bytes. *)
Definition read_exact (input : Input) (n : nat) : result (list Z * Input) StarError :=
  if (n <=? length (data input))%nat then Ok (take n (data input), with_data input (drop n (data input)))
  else Err (short_read input).

Definition read_byte (input : Input) : result (Z * Input) StarError :=
  let? (byte, input) := read_exact input 1 in Ok (nth 0 byte 0, input).

(** The loop of [read_varint]: [n] rounds are left, this one is round [i]. *)
Fixpoint read_varint_go (n : nat) (i value : Z) (input : Input) : result (Z * Input) StarError :=
  match n with
  | O => Err VarintTooLong
  | S n' =>
      let? (byte, input) := read_byte input in
      let value := Z.lor value (wrap64 (Z.shiftl (Z.land byte 0x7f) (7 * i))) in
      if byte <? 0x80 then
        if (byte =? 0) && (0 <? i) then Err NonCanonicalVarint else Ok (value, input)
      else read_varint_go n' (i + 1) value input
  end.

Definition read_varint (input : Input) : result (Z * Input) StarError :=
  read_varint_go MAX_VARINT_BYTES 0 0 input.

Definition read_frame (input : Input) (what : string) (limit : Z)
    : result (list Z * Input) StarError :=
  let? (length, input) := read_varint input in
  if limit <? length then Err (TooLong what length limit)
  else
    let bytes := take (Z.to_nat length) (data input) in
    if negb (len bytes =? length) then Err (short_read input)
    else Ok (bytes, with_data input (drop (Z.to_nat length) (data input))).

Section Model.
Context {D : DagCbor}.

Definition encode_header (meta : Meta) : result (list Z) StarError :=
  match type_name meta with
  | None => Err (InvalidMeta "missing a string $type")
  | Some _ =>
      match to_vec meta with
      | Err e => Err (InvalidMeta e)
      | Ok encoded => Ok (MAGIC ++ frame encoded)
      end
  end.

Definition write_star (meta : Meta) (pairs : list Pair) : result (list Z) StarError :=
  let? header := encode_header meta in
  Ok (foldl (fun out p => out ++ encode_pair (key p) (pair_value p)) header pairs ++ END_BYTES).

Definition parse_meta (bytes : list Z) : result Meta StarError :=
  match from_slice bytes with
  | Err e => Err (InvalidMeta e)
  | Ok meta =>
      match as_map meta with
      | None => Err (InvalidMeta "not a map")
      | Some map =>
          match type_name map with
          | None => Err (InvalidMeta "missing a string $type")
          | Some _ =>
              match to_vec map with
              | Err e => Err (InvalidMeta e)
              | Ok reencoded =>
                  if bool_decide (reencoded = bytes) then Ok map else Err NonCanonicalMeta
              end
          end
      end
  end.

Record StarReader : Type := { input : Input; limits : Limits; meta : Meta; done : bool }.

Definition open (i : Input) (l : Limits) : result StarReader StarError :=
  let? (magic, i) := read_exact i 4 in
  if negb (bool_decide (magic = MAGIC)) then Err InvalidMagic
  else
    let? (meta_bytes, i) := read_frame i "metadata" (max_meta l) in
    let? m := parse_meta meta_bytes in
    Ok {| input := i; limits := l; meta := m; done := false |}.

Definition profile (r : StarReader) : option string := type_name (meta r).

Definition set_input (r : StarReader) (i : Input) : StarReader :=
  {| input := i; limits := limits r; meta := meta r; done := done r |}.
Definition set_done (r : StarReader) : StarReader :=
  {| input := input r; limits := limits r; meta := meta r; done := true |}.

(** The reader after the call, and the call's result. The position of a reader
    whose read failed is not specified; it is kept. *)
Definition next_pair (r : StarReader) : StarReader * result (option Pair) StarError :=
  if done r then (r, Ok None)
  else
    match read_byte (input r) with
    | Err e => (r, Err e)
    | Ok (control, i) =>
        let r := set_input r i in
        if control =? CONTROL_END then
          let r := set_done r in
          match data i with
          | _ :: rest => (set_input r (with_data i rest), Err TrailingBytes)
          | [] => (r, if faulty i then Err Io else Ok None)
          end
        else if control =? CONTROL_PAIR then
          match read_frame i "key" (max_key (limits r)) with
          | Err e => (r, Err e)
          | Ok (k, i) =>
              match read_frame i "value" (max_value (limits r)) with
              | Err e => (set_input r i, Err e)
              | Ok (v, i) => (set_input r i, Ok (Some {| key := k; pair_value := v |}))
              end
          end
        else (r, Err (InvalidControlByte control))
    end.

(** [Iterator::next]. *)
Definition next (r : StarReader) : StarReader * option (result Pair StarError) :=
  match next_pair r with
  | (r, Ok (Some p)) => (r, Some (Ok p))
  | (r, Ok None) => (r, None)
  | (r, Err err) => (set_done r, Some (Err err))
  end.

(** [collect::<Result<Vec<_>, _>>()] over the iterator, with a bound on the
    number of calls; [None] when the bound is too small. *)
Fixpoint collect (fuel : nat) (r : StarReader) : option (result (list Pair) StarError) :=
  match fuel with
  | O => None
  | S n =>
      match next r with
      | (_, None) => Some (Ok [])
      | (_, Some (Err e)) => Some (Err e)
      | (r, Some (Ok p)) =>
          res ← collect n r;
          Some (let? ps := res in Ok (p :: ps))
      end
  end.

(** Open and collect; every call of the iterator consumes at least one byte. *)
Definition read_star (i : Input) (l : Limits) : option (result (Meta * list Pair) StarError) :=
  match open i l with
  | Err e => Some (Err e)
  | Ok r =>
      res ← collect (S (length (data i))) r;
      Some (let? ps := res in Ok (meta r, ps))
  end.

End Model.

(** ** Variable-length integers *)

Lemma group_byte v : 0 <= v -> Z.lor (Z.land (wrap8 v) 0x7f) 0x80 = v mod 128 + 128.
Proof.
  intros Hv. change 0x7f with (Z.ones 7). rewrite land_ones_mod by lia. unfold wrap8.
  change (2 ^ 7) with 128. change (2 ^ 8) with 256.
  assert ((v mod 256) mod 128 = v mod 128) as -> by (apply Z.mod_mod_divide; by exists 2).
  change 0x80 with (Z.shiftl 1 7). rewrite lor_shiftl; [done|lia|]. apply Z.mod_pos_bound. lia.
Qed.

(** One round of [read_varint]: the accumulator gains the group. *)
Lemma accumulate acc g i :
  0 <= i -> 7 * i + 7 <= 63 -> 0 <= acc < 2 ^ (7 * i) -> 0 <= g < 128 ->
  Z.lor acc (wrap64 (Z.shiftl g (7 * i))) = acc + g * 2 ^ (7 * i)
  /\ acc + g * 2 ^ (7 * i) < 2 ^ (7 * (i + 1)).
Proof.
  intros Hi Hb Ha Hg. assert (0 < 2 ^ (7 * i)) by (apply Z.pow_pos_nonneg; lia).
  assert (2 ^ (7 * (i + 1)) = 2 ^ (7 * i) * 128) as Hp
    by (replace (7 * (i + 1)) with (7 * i + 7) by lia; rewrite Z.pow_add_r by lia; done).
  split; [|nia]. unfold wrap64, U64. rewrite Z.mod_small; [apply lor_shiftl; lia|].
  rewrite Z.shiftl_mul_pow2 by lia.
  assert (2 ^ (7 * (i + 1)) <= 2 ^ 63) by (apply Z.pow_le_mono_r; lia).
  assert (2 ^ 63 < 2 ^ 64) by done. nia.
Qed.

Lemma shiftr7 v : Z.shiftr v 7 = v / 128.
Proof. by rewrite Z.shiftr_div_pow2. Qed.

Lemma pow7_S n : 2 ^ (7 * Z.of_nat (S n)) = 128 * 2 ^ (7 * Z.of_nat n).
Proof.
  replace (7 * Z.of_nat (S n)) with (7 + 7 * Z.of_nat n) by lia. by rewrite Z.pow_add_r by lia.
Qed.

Lemma read_byte_cons b rest f :
  read_byte {| data := b :: rest; faulty := f |} = Ok (b, {| data := rest; faulty := f |}).
Proof. done. Qed.

Lemma read_encode_go n fuel i acc v rest f :
  (n <= fuel)%nat -> 0 <= i -> 7 * (i + Z.of_nat n) <= 63 -> 0 <= acc < 2 ^ (7 * i) ->
  0 <= v < 2 ^ (7 * Z.of_nat n) -> (0 < v \/ (i = 0 /\ (0 < n)%nat)) ->
  read_varint_go n i acc {| data := encode_varint_go fuel v ++ rest; faulty := f |}
  = Ok (acc + v * 2 ^ (7 * i), {| data := rest; faulty := f |}).
Proof.
  revert fuel i acc v. induction n as [|n IH]; intros fuel i acc v Hf Hi Hb Ha Hv H0.
  { simpl in Hv. lia. }
  destruct fuel as [|fuel]; [lia|]. cbn [encode_varint_go read_varint_go].
  rewrite pow7_S in Hv. destruct (Z.leb_spec 0x80 v) as [Hge|Hlt].
  - rewrite group_byte, shiftr7 by lia. cbn [app]. rewrite read_byte_cons.
    pose proof (Z.mod_pos_bound v 128 ltac:(lia)) as Hm. pose proof (Z.div_mod v 128 ltac:(lia)) as Hd.
    assert (Z.land (v mod 128 + 128) 0x7f = v mod 128) as ->.
    { change 0x7f with (Z.ones 7). rewrite land_ones_mod by lia. change (2 ^ 7) with 128.
      rewrite Z.add_mod, Z_mod_same_full, Z.add_0_r, !Z.mod_mod by lia. done. }
    destruct (accumulate acc (v mod 128) i) as [-> Hacc]; [lia..|].
    destruct (Z.ltb_spec (v mod 128 + 128) 0x80); [lia|].
    assert (2 ^ (7 * (i + 1)) = 2 ^ (7 * i) * 128) as Hp
      by (replace (7 * (i + 1)) with (7 * i + 7) by lia; rewrite Z.pow_add_r by lia; done).
    rewrite IH; [|lia|lia|lia|nia|split; [apply Z.div_pos|apply Z.div_lt_upper_bound]; lia
                 |left; apply Z.div_str_pos; lia].
    do 2 f_equal. rewrite Hp. nia.
  - assert (wrap8 v = v) as -> by (unfold wrap8; apply Z.mod_small; lia). cbn [app].
    rewrite read_byte_cons. assert (Z.land v 0x7f = v) as ->.
    { change 0x7f with (Z.ones 7). rewrite land_ones_mod by lia. apply Z.mod_small. lia. }
    destruct (accumulate acc v i) as [-> _]; [lia..|].
    destruct (Z.ltb_spec v 0x80); [|lia]. destruct (Z.eqb_spec v 0), (Z.ltb_spec 0 i); simpl; try done. lia.
Qed.

Lemma byte_groups b :
  is_byte b -> Z.land b 0x7f = b mod 128 /\ 0 <= b mod 128 < 128 /\ (b < 128 -> b mod 128 = b)
  /\ (128 <= b -> b = b mod 128 + 128).
Proof.
  unfold is_byte. intros Hb. change 0x7f with (Z.ones 7). rewrite land_ones_mod by lia.
  change (2 ^ 7) with 128. pose proof (Z.mod_pos_bound b 128 ltac:(lia)). split; [done|]. split; [done|].
  split; intros ?; [by apply Z.mod_small; lia|].
  assert (b mod 128 = (b - 128) mod 128) as ->
    by (replace b with (b - 128 + 1 * 128) at 1 by lia; apply Z.mod_add; lia).
  rewrite Z.mod_small; lia.
Qed.

Lemma read_varint_go_inv n i acc d f v inp :
  is_bytes d -> 0 <= i -> 7 * (i + Z.of_nat n) <= 63 -> 0 <= acc < 2 ^ (7 * i) ->
  read_varint_go n i acc {| data := d; faulty := f |} = Ok (v, inp) ->
  exists w, v = acc + w * 2 ^ (7 * i) /\ 0 <= w < 2 ^ (7 * Z.of_nat n) /\ (0 < w \/ i = 0)
    /\ faulty inp = f
    /\ forall fuel, (n <= fuel)%nat -> d = encode_varint_go fuel w ++ data inp.
Proof.
  intros Hd. revert i acc v inp d Hd. induction n as [|n IH]; intros i acc v inp d Hd Hi Hb Ha Hr; [done|].
  cbn [read_varint_go] in Hr. destruct d as [|b d]; [done|]. rewrite read_byte_cons in Hr.
  apply Forall_cons in Hd as [Hbyte Hd]. destruct (byte_groups b Hbyte) as (Hl & Hm & Hlt & Hge).
  rewrite Hl in Hr. destruct (accumulate acc (b mod 128) i) as [Hacc Hacc2]; [lia..|].
  rewrite Hacc in Hr. rewrite pow7_S. assert (0 < 2 ^ (7 * Z.of_nat n)) by (apply Z.pow_pos_nonneg; lia).
  destruct (Z.ltb_spec b 0x80) as [Hs|Hs].
  - rewrite Hlt in Hr by lia. destruct ((b =? 0) && (0 <? i)) eqn:E; [done|]. injection Hr as <- <-.
    unfold is_byte in Hbyte. exists b. split; [done|]. split; [nia|]. split_and!; [|done|].
    + apply andb_false_iff in E as [?%Z.eqb_neq|?%Z.ltb_ge]; lia.
    + intros [|fuel] Hf; [lia|]. simpl. destruct (Z.leb_spec 0x80 b); [lia|].
      unfold wrap8. by rewrite Z.mod_small by lia.
  - assert (2 ^ (7 * (i + 1)) = 2 ^ (7 * i) * 128) as Hp
      by (replace (7 * (i + 1)) with (7 * i + 7) by lia; rewrite Z.pow_add_r by lia; done).
    apply IH in Hr as (w & -> & Hw & Hpos & Hf & Henc); [|done|lia|lia|].
    2: { split; [|lia]. assert (0 <= 2 ^ (7 * i)) by (apply Z.pow_nonneg; lia). nia. }
    exists (b mod 128 + 128 * w). split; [rewrite Hp; ring|]. split; [lia|]. split; [lia|]. split; [done|].
    intros [|fuel] Hfu; [lia|]. cbn [encode_varint_go].
    destruct (Z.leb_spec 0x80 (b mod 128 + 128 * w)); [|lia]. rewrite group_byte, shiftr7 by lia.
    rewrite (Z.mul_comm 128 w), Z.mod_add, Z.div_add, Z.mod_mod by lia.
    rewrite (Z.div_small (b mod 128)) by lia. rewrite Z.add_0_l, <- Hge by lia.
    cbn [app]. f_equal. apply Henc. lia.
Qed.

(** The largest length the reader accepts: nine groups of seven bits. *)
Definition MAX_LEN : Z := 2 ^ 63.

Lemma read_encode_varint v rest f :
  0 <= v < MAX_LEN ->
  read_varint {| data := encode_varint v ++ rest; faulty := f |}
  = Ok (v, {| data := rest; faulty := f |}).
Proof.
  intros Hv. unfold read_varint, encode_varint, MAX_VARINT_BYTES.
  rewrite read_encode_go; try lia; [by rewrite Z.mul_1_r|]. unfold MAX_LEN in Hv. done.
Qed.

Lemma read_varint_inv i v i' :
  is_bytes (data i) -> read_varint i = Ok (v, i') ->
  0 <= v < MAX_LEN /\ faulty i' = faulty i /\ data i = encode_varint v ++ data i'.
Proof.
  destruct i as [d f]. intros Hd Hr. apply read_varint_go_inv in Hr as (w & -> & Hw & _ & Hf & Henc);
    [|done|lia|unfold MAX_VARINT_BYTES; lia|done].
  rewrite Z.mul_0_r, Z.mul_1_r, Z.add_0_l. split; [done|]. split; [done|].
  apply (Henc 10%nat). unfold MAX_VARINT_BYTES. lia.
Qed.

(** Lengths have one encoding: the reader accepts a varint with value
    [v] exactly when it is the writer's own encoding of [v], and the values it
    accepts are those below 2^63 - every length a byte string can have. *)
Theorem varint_canonical d f v rest :
  is_bytes d ->
  read_varint {| data := d; faulty := f |} = Ok (v, {| data := rest; faulty := f |})
  <-> 0 <= v < MAX_LEN /\ d = encode_varint v ++ rest.
Proof.
  intros Hd. split.
  - intros (? & _ & ?)%read_varint_inv; done.
  - intros [Hv ->]. by apply read_encode_varint.
Qed.

(** ** Frames *)

Lemma read_frame_app bs rest f what limit :
  len bs < MAX_LEN -> len bs <= limit ->
  read_frame {| data := frame bs ++ rest; faulty := f |} what limit
  = Ok (bs, {| data := rest; faulty := f |}).
Proof.
  intros Hmax Hlim. pose proof (len_nonneg bs). unfold read_frame, frame.
  rewrite <- (assoc_L (++)), read_encode_varint by done. cbn [data with_data faulty].
  destruct (Z.ltb_spec limit (len bs)); [lia|].
  replace (Z.to_nat (len bs)) with (length bs) by (unfold len; lia).
  rewrite take_app_length, drop_app_length, Z.eqb_refl. done.
Qed.

Lemma read_frame_inv i what limit bs i' :
  is_bytes (data i) -> read_frame i what limit = Ok (bs, i') ->
  data i = frame bs ++ data i' /\ faulty i' = faulty i /\ len bs <= limit /\ len bs < MAX_LEN.
Proof.
  intros Hd. unfold read_frame. destruct (read_varint i) as [[n i1]|] eqn:E; [|done].
  apply read_varint_inv in E as (Hn & Hf & Heq); [|done].
  destruct (Z.ltb_spec limit n) as [|Hlim]; [done|].
  destruct (Z.eqb_spec (len (take (Z.to_nat n) (data i1))) n) as [Hlen|]; [|done].
  intros [= <- <-]. cbn [data with_data faulty]. rewrite Hlen. split_and!; [|done|lia|lia].
  unfold frame. rewrite Hlen, <- (assoc_L (++)), take_drop. done.
Qed.

(** Nothing read gives bytes back. *)
Lemma read_byte_length i b i' : read_byte i = Ok (b, i') -> length (data i) = S (length (data i')).
Proof.
  unfold read_byte, read_exact. destruct (Nat.leb_spec 1 (length (data i))); [|done].
  intros [= <- <-]. simpl. rewrite length_drop. lia.
Qed.

Lemma read_varint_go_length n k acc i v i' :
  read_varint_go n k acc i = Ok (v, i') -> (length (data i') <= length (data i))%nat.
Proof.
  revert k acc i. induction n as [|n IH]; intros k acc i; simpl; [done|].
  destruct (read_byte i) as [[b i1]|] eqn:E; [|done]. apply read_byte_length in E.
  destruct (b <? 0x80); [destruct (_ && _); [done|]; intros [= _ <-]; lia|]. intros ?%IH. lia.
Qed.

Lemma read_frame_length i what limit bs i' :
  read_frame i what limit = Ok (bs, i') -> (length (data i') <= length (data i))%nat.
Proof.
  unfold read_frame. destruct (read_varint i) as [[n i1]|] eqn:E; [|done].
  apply read_varint_go_length in E. destruct (limit <? n); [done|]. destruct (negb _); [done|].
  intros [= _ <-]. simpl. rewrite length_drop. lia.
Qed.

(** ** Archives *)

Section Facts.
Context {D : DagCbor}.

Definition pairs_bytes (ps : list Pair) : list Z := ps ≫= fun p => encode_pair (key p) (pair_value p).

Definition fits (limit : Z) (bs : list Z) : Prop := len bs <= limit /\ len bs < MAX_LEN.
Definition pair_fits (l : Limits) (p : Pair) : Prop :=
  fits (max_key l) (key p) /\ fits (max_value l) (pair_value p).

Lemma write_star_eq m ps :
  write_star m ps = (let? h := encode_header m in Ok (h ++ pairs_bytes ps ++ END_BYTES)).
Proof.
  unfold write_star. destruct (encode_header m) as [h|]; [|done]. f_equal.
  rewrite (assoc_L (++)). f_equal. revert h. induction ps as [|p ps IH]; intros h; simpl.
  - by rewrite app_nil_r.
  - rewrite IH. by rewrite <- (assoc_L (++)).
Qed.

Lemma next_pair_consumes r r' p :
  next_pair r = (r', Ok (Some p)) -> (length (data (input r')) < length (data (input r)))%nat.
Proof.
  unfold next_pair. destruct (done r); [done|]. destruct (read_byte (input r)) as [[c i]|] eqn:E; [|done].
  apply read_byte_length in E. destruct (c =? CONTROL_END).
  { destruct (data i); [by destruct (faulty i)|done]. }
  destruct (c =? CONTROL_PAIR); [|done].
  destruct (read_frame i _ _) as [[k i1]|] eqn:E1; [|done]. apply read_frame_length in E1.
  destruct (read_frame i1 _ _) as [[v i2]|] eqn:E2; [|done]. apply read_frame_length in E2.
  intros [= <- _]. simpl. lia.
Qed.

(** Enough calls: one more than the bytes left. *)
Lemma collect_total fuel r : (length (data (input r)) < fuel)%nat -> is_Some (collect fuel r).
Proof.
  revert r. induction fuel as [|n IH]; intros r Hf; [lia|]. cbn [collect]. unfold next.
  destruct (next_pair r) as [r' [[p|]|e]] eqn:E; [|by eexists|by eexists].
  apply next_pair_consumes in E. destruct (IH r') as [res ->]; [lia|]. by eexists.
Qed.

(** A reader with limits [l] over fault-free bytes. *)
Definition reader (l : Limits) (m : Meta) (d : list Z) : StarReader :=
  {| input := {| data := d; faulty := false |}; limits := l; meta := m; done := false |}.

Lemma next_pair_cons l m p d :
  pair_fits l p ->
  next_pair (reader l m (encode_pair (key p) (pair_value p) ++ d)) = (reader l m d, Ok (Some p)).
Proof.
  intros [[Hk1 Hk2] [Hv1 Hv2]]. unfold next_pair, reader. cbn [done input]. unfold encode_pair.
  rewrite <- !(assoc_L (++)). cbn [app]. rewrite read_byte_cons. cbn [limits set_input].
  change (CONTROL_PAIR =? CONTROL_END) with false. change (CONTROL_PAIR =? CONTROL_PAIR) with true.
  cbv iota. rewrite read_frame_app by done. rewrite read_frame_app by done. by destruct p.
Qed.

Lemma collect_app n l m ps d :
  Forall (pair_fits l) ps ->
  collect (length ps + n) (reader l m (pairs_bytes ps ++ d))
  = (fun res => let? qs := res in Ok (ps ++ qs)) <$> collect n (reader l m d).
Proof.
  intros Hps. induction Hps as [|p ps Hp Hps IH].
  - simpl. by destruct (collect n _) as [[]|].
  - cbn [length Nat.add collect pairs_bytes mbind list_bind]. rewrite <- (assoc_L (++)). unfold next.
    rewrite next_pair_cons by done. change (ps ≫= _) with (pairs_bytes ps). rewrite IH.
    by destruct (collect n _) as [[]|].
Qed.

Lemma collect_inv fuel r ps :
  is_bytes (data (input r)) -> done r = false -> collect fuel r = Some (Ok ps) ->
  data (input r) = pairs_bytes ps ++ END_BYTES /\ faulty (input r) = false
  /\ Forall (pair_fits (limits r)) ps.
Proof.
  revert r ps. induction fuel as [|n IH]; intros r ps Hd Hdone; [done|]. cbn [collect]. unfold next, next_pair.
  rewrite Hdone. destruct r as [[d f] l m dn]. cbn [input data limits] in *. simpl in Hdone. subst dn.
  destruct d as [|c d]; [done|]. rewrite read_byte_cons. apply Forall_cons in Hd as [Hc Hd].
  destruct (Z.eqb_spec c CONTROL_END) as [->|].
  { destruct d as [|x d]; [|done]. cbn [data faulty]. destruct f; [done|]. intros [= <-]. done. }
  destruct (Z.eqb_spec c CONTROL_PAIR) as [->|]; [|done]. cbn [limits set_input].
  destruct (read_frame _ "key" _) as [[k i1]|] eqn:E1; [|done].
  apply read_frame_inv in E1 as (H1 & Hf1 & Hk1 & Hk2); [|done]. cbn [data faulty] in *. subst d.
  apply Forall_app in Hd as [_ Hd1].
  destruct (read_frame i1 "value" _) as [[v i2]|] eqn:E2; [|done].
  apply read_frame_inv in E2 as (H2 & Hf2 & Hv1 & Hv2); [|done]. rewrite H2 in Hd1.
  apply Forall_app in Hd1 as [_ Hd2]. cbn [set_input meta done].
  destruct (collect n _) as [[ps'|]|] eqn:Ec; [|done|done]. intros [= <-].
  apply IH in Ec as (Hdat & Hfa & Hall); [|done|done]. cbn [input limits] in *.
  split_and!; [|simpl in *; congruence|by constructor].
  cbn [pairs_bytes mbind list_bind]. unfold encode_pair. cbn [key pair_value].
  rewrite <- !(assoc_L (++)). cbn [app]. f_equal. rewrite H2. do 2 f_equal. done.
Qed.

(** *** The header *)

Lemma parse_meta_inv bs m :
  parse_meta bs = Ok m -> to_vec m = Ok bs /\ is_Some (type_name m).
Proof.
  unfold parse_meta. destruct (from_slice bs) as [v|]; [|done]. destruct (as_map v) as [map|]; [|done].
  destruct (type_name map) eqn:Et; [|done]. destruct (to_vec map) as [re|] eqn:Ev; [|done].
  destruct (bool_decide_reflect (re = bs)) as [->|]; [|done]. intros [= <-]. rewrite Et. eauto.
Qed.

Lemma parse_meta_to_vec `{!DagCborSpec D} bs m :
  to_vec m = Ok bs -> is_Some (type_name m) -> parse_meta bs = Ok m.
Proof.
  intros Hv [t Ht]. destruct (from_slice_to_vec m bs Hv) as (v & Hf & Hm). unfold parse_meta.
  by rewrite Hf, Hm, Ht, Hv, bool_decide_eq_true_2.
Qed.

(** What a reader with limits [l] can take: lengths within the limits and
    within nine varint groups. *)
Definition within (l : Limits) (m : Meta) (ps : list Pair) : Prop :=
  (forall bs, to_vec m = Ok bs -> fits (max_meta l) bs) /\ Forall (pair_fits l) ps.

Lemma encode_header_ok m h :
  encode_header m = Ok h <->
  is_Some (type_name m) /\ exists bs, to_vec m = Ok bs /\ h = MAGIC ++ frame bs.
Proof.
  unfold encode_header. destruct (type_name m) as [t|]; [|by split; [|intros [[? ?] _]]].
  destruct (to_vec m) as [bs|e]; [|by split; [|intros [_ (? & ? & _)]]].
  split; [intros [= <-]; eauto|]. by intros [_ (? & [= <-] & ->)].
Qed.

Lemma open_header `{!DagCborSpec D} m bs rest l :
  to_vec m = Ok bs -> is_Some (type_name m) -> fits (max_meta l) bs ->
  open {| data := MAGIC ++ frame bs ++ rest; faulty := false |} l
  = Ok {| input := {| data := rest; faulty := false |}; limits := l; meta := m; done := false |}.
Proof.
  intros Hv Ht [H1 H2]. unfold open, read_exact. cbn [data].
  rewrite (proj2 (Nat.leb_le 4 (length (MAGIC ++ frame bs ++ rest)))) by (simpl; lia).
  change (take 4 (MAGIC ++ ?x)) with MAGIC. rewrite bool_decide_eq_true_2 by done. cbn [negb].
  change (with_data _ (drop 4 (MAGIC ++ ?x))) with {| data := x; faulty := false |}.
  rewrite read_frame_app by done. by rewrite (parse_meta_to_vec bs m).
Qed.

Lemma open_inv i l r :
  is_bytes (data i) -> open i l = Ok r ->
  exists bs, to_vec (meta r) = Ok bs /\ is_Some (type_name (meta r)) /\ fits (max_meta l) bs
    /\ data i = MAGIC ++ frame bs ++ data (input r) /\ faulty (input r) = faulty i
    /\ limits r = l /\ done r = false.
Proof.
  intros Hd. unfold open, read_exact. destruct (4 <=? length (data i))%nat; [|done].
  destruct (bool_decide_reflect (take 4 (data i) = MAGIC)) as [Hm|]; [|done]. cbn [negb].
  destruct (read_frame _ _ _) as [[bs i1]|] eqn:E; [|done].
  destruct (parse_meta bs) as [m|] eqn:Ep; [|done]. intros [= <-]. cbn [meta input limits done].
  apply read_frame_inv in E as (Heq & Hf & H1 & H2); [|by apply Forall_drop].
  apply parse_meta_inv in Ep as [Hv Ht]. exists bs. split_and!; try done.
  rewrite <- (take_drop 4 (data i)), Hm. f_equal. exact Heq.
Qed.

Lemma pairs_length ps : (length ps <= length (pairs_bytes ps))%nat.
Proof.
  induction ps as [|p ps IH]; simpl; [done|]. rewrite length_app. unfold encode_pair. simpl. lia.
Qed.

Lemma read_star_iff `{!DagCborSpec D} bs l m ps :
  is_bytes bs ->
  read_star {| data := bs; faulty := false |} l = Some (Ok (m, ps))
  <-> write_star m ps = Ok bs /\ within l m ps.
Proof.
  intros Hb. rewrite write_star_eq. unfold read_star, within. split.
  - destruct (open _ l) as [r|] eqn:Eo; [|done].
    apply open_inv in Eo as (mb & Hv & Ht & Hfit & Hdat & Hfa & <- & Hdn); [|done]. cbn [data] in Hdat.
    destruct (collect _ r) as [[ps'|]|] eqn:Ec; [|done|done]. simpl. intros [= <- <-].
    rewrite Hdat in Hb. apply Forall_app in Hb as [_ [_ Hb]%Forall_app].
    apply collect_inv in Ec as (Hps & _ & Hall); [|done|done].
    rewrite (proj2 (encode_header_ok (meta r) (MAGIC ++ frame mb))) by (split; [done|by exists mb]).
    split; [|split; [|done]]; [|intros ? Heq; rewrite Hv in Heq; by injection Heq as <-].
    rewrite Hdat, Hps. by rewrite <- (assoc_L (++)).
  - intros [Hw [Hm Hps]]. destruct (encode_header m) as [h|] eqn:Eh; [|done]. injection Hw as <-.
    apply encode_header_ok in Eh as (Ht & mb & Hv & ->). rewrite <- (assoc_L (++)).
    rewrite (open_header m) by eauto. cbn [data].
    pose proof (pairs_length ps) as Hl. match goal with |- context [collect ?n _] =>
      replace n with (length ps + S (n - S (length ps)))%nat by (rewrite !length_app; lia) end.
    change {| input := _ |} with (reader l m (pairs_bytes ps ++ END_BYTES)).
    rewrite collect_app by done. cbn. by rewrite app_nil_r.
Qed.

(** (C28) Writing and reading are inverse: over any byte string, the reader
    (within its limits) accepts it with some metadata and pairs exactly when it
    is the archive the writer produces for them.  So every written archive
    reads back to itself, and a given content has one archive only - no
    padding of lengths, no second metadata encoding, nothing after the end. *)
Theorem star_archive_iff `{!DagCborSpec D} bs l m ps :
  is_bytes bs ->
  read_star {| data := bs; faulty := false |} l = Some (Ok (m, ps))
  <-> write_star m ps = Ok bs /\ within l m ps.
Proof. apply read_star_iff. Qed.

Lemma star_total i l : is_Some (read_star i l).
Proof.
  unfold read_star. destruct (open i l) as [r|] eqn:Eo; [|by eexists].
  assert (length (data (input r)) <= length (data i))%nat as Hle.
  { revert Eo. unfold open, read_exact. destruct (4 <=? length (data i))%nat; [|done]. destruct (negb _); [done|].
    destruct (read_frame _ _ _) as [[bs i1]|] eqn:E; [|done]. apply read_frame_length in E.
    destruct (parse_meta bs); [|done]. intros [= <-]. simpl in *. rewrite length_drop in E. lia. }
  destruct (collect_total (S (length (data i))) r) as [res ->]; [lia|]. by eexists.
Qed.

(** Reading always ends: on every input, faulty or not, the reader
    returns the pairs or an error within one call per byte and one more. *)
Theorem star_reading_ends i l : is_Some (read_star i l).
Proof. apply star_total. Qed.

Lemma read_star_trailing `{!DagCborSpec D} l m ps bs x rest :
  write_star m ps = Ok bs -> within l m ps ->
  read_star {| data := bs ++ x :: rest; faulty := false |} l = Some (Err TrailingBytes).
Proof.
  rewrite write_star_eq. intros Hw [Hm Hps]. destruct (encode_header m) as [h|] eqn:Eh; [|done].
  injection Hw as <-. apply encode_header_ok in Eh as (Ht & mb & Hv & ->). unfold read_star.
  rewrite <- !(assoc_L (++)). rewrite (open_header m) by eauto. cbn [data].
  pose proof (pairs_length ps) as Hl. match goal with |- context [collect ?n _] =>
    replace n with (length ps + S (n - S (length ps)))%nat by (rewrite !length_app; lia) end.
  change {| input := _ |} with (reader l m (pairs_bytes ps ++ END_BYTES ++ x :: rest)).
  rewrite collect_app by done. done.
Qed.

(** An archive ends where it says: appending even one byte to a written
    archive is refused as trailing bytes, and every strict prefix of it is
    refused too - so a truncated transfer is never taken for an archive. *)
Theorem star_end_detected `{!DagCborSpec D} l m ps bs :
  write_star m ps = Ok bs -> within l m ps -> is_bytes bs ->
  (forall x rest, read_star {| data := bs ++ x :: rest; faulty := false |} l = Some (Err TrailingBytes))
  /\ forall pre rest, bs = pre ++ rest -> rest <> [] ->
       exists e, read_star {| data := pre; faulty := false |} l = Some (Err e).
Proof.
  intros Hw Hin Hb. split; [intros x rest; by eapply read_star_trailing|].
  intros pre rest -> Hne. apply Forall_app in Hb as [Hb1 Hb2].
  destruct (star_total {| data := pre; faulty := false |} l) as [[[m' ps']|e] Hr]; [|by eauto].
  exfalso. apply read_star_iff in Hr as [Hw' Hin']; [|done]. destruct rest as [|x rest]; [done|].
  pose proof (read_star_trailing l m' ps' pre x rest Hw' Hin') as Htr.
  rewrite (proj2 (read_star_iff (pre ++ x :: rest) l m ps ltac:(by apply Forall_app))) in Htr; done.
Qed.

(** The iterator is fused: once it has reported the end or an error it
    reports nothing more, whatever its input holds. *)
Theorem star_iterator_fused r r' o :
  next r = (r', o) -> (o = None \/ exists e, o = Some (Err e)) -> next r' = (r', None).
Proof.
  intros Hn Ho. assert (Hd : done r' = true).
  { revert Hn. unfold next. destruct (next_pair r) as [r1 [[p|]|e]] eqn:E; intros [= <- <-].
    - by destruct Ho as [|[]].
    - revert E. unfold next_pair. destruct (done r) eqn:Ed; [by intros [= <-]|].
      destruct (read_byte _) as [[c i]|]; [|done]. destruct (c =? CONTROL_END).
      + destruct (data i); [|done]. by intros [= <- _].
      + destruct (c =? CONTROL_PAIR); [|done]. repeat (case_match; try done).
    - done. }
  unfold next, next_pair. by rewrite Hd.
Qed.

End Facts.

(** ** A concrete codec and the witnesses

    Metadata holding only a [$type] of at most 23 bytes, in its DAG-CBOR form:
    a one-entry map, the text key [$type] and the text value. *)

Module TypeOnly.

Definition header : list Z := [0xa1; 0x65; 0x24; 0x74; 0x79; 0x70; 0x65].

Definition encode (t : string) : result (list Z) string :=
  if (String.length t <? 24)%nat then Ok (header ++ (0x60 + Z.of_nat (String.length t)) :: str_bytes t)
  else Err "too long".

Definition decode (bs : list Z) : result string string :=
  if negb (bool_decide (take 7 bs = header)) then Err "not a map"
  else match drop 7 bs with
       | n :: text => if n =? 0x60 + len text then Ok (bytes_str text) else Err "bad length"
       | [] => Err "no value"
       end.

#[export] Instance codec : DagCbor := {|
  Meta := string; Ipld := string; as_map := Some; type_name := Some;
  to_vec := encode; from_slice := decode;
|}.

#[export] Instance codec_spec : DagCborSpec codec.
Proof.
  split; intros m bs; cbn [to_vec codec]; unfold encode;
    destruct (Nat.ltb_spec (String.length m) 24) as [Hl|]; try done; intros [= <-].
  - exists m. split; [|done]. cbn [from_slice codec]. unfold decode. cbn [header app take drop].
    rewrite bool_decide_eq_true_2 by done. cbn [negb].
    unfold len. rewrite length_str_bytes, Z.eqb_refl, bytes_str_bytes. done.
  - repeat (constructor; [unfold is_byte; lia|]). apply str_bytes_range.
Qed.

End TypeOnly.

Section Witnesses.
Existing Instance TypeOnly.codec.

Definition sample_meta : @Meta TypeOnly.codec := "p".

Definition sample_pair : Pair := {| key := [0x61; 0x2f; 0x62]; pair_value := [0xa0] |}.
Definition sample_archive : list Z :=
  [42; 108; 1; 0; 9; 161; 101; 36; 116; 121; 112; 101; 97; 112; 1; 3; 97; 47; 98; 1; 160; 0].

Lemma sample_bytes : is_bytes sample_archive.
Proof. repeat (constructor; [unfold is_byte; lia|]). constructor. Defined.

Lemma sample_within : within default_limits sample_meta [sample_pair].
Proof.
  split; [intros bs [= <-]|apply Forall_singleton; split]; split; vm_compute; congruence.
Defined.

Lemma star_archive_iff_witness :
  read_star {| data := sample_archive; faulty := false |} default_limits = Some (Ok (sample_meta, [sample_pair])).
Proof.
  apply (star_archive_iff (DagCborSpec0 := TypeOnly.codec_spec) sample_archive default_limits sample_meta [sample_pair]).
  - exact sample_bytes.
  - split; [vm_compute; reflexivity|exact sample_within].
Defined.

Lemma star_end_detected_witness :
  read_star {| data := sample_archive ++ [7]; faulty := false |} default_limits = Some (Err TrailingBytes).
Proof.
  apply (star_end_detected (DagCborSpec0 := TypeOnly.codec_spec) default_limits sample_meta [sample_pair] sample_archive).
  - vm_compute. reflexivity.
  - exact sample_within.
  - exact sample_bytes.
Defined.

Definition ended_reader : StarReader :=
  {| input := {| data := []; faulty := false |}; limits := default_limits; meta := sample_meta; done := true |}.

Lemma star_iterator_fused_witness : next ended_reader = (ended_reader, None).
Proof.
  apply (star_iterator_fused (reader default_limits sample_meta [7]) _
    (Some (Err (InvalidControlByte 7)))).
  - reflexivity.
  - right. eauto.
Defined.

Lemma varint_canonical_witness :
  read_varint {| data := [0xac; 0x02; 9]; faulty := false |} = Ok (300, {| data := [9]; faulty := false |}).
Proof.
  apply varint_canonical; [repeat (constructor; [unfold is_byte; lia|]); constructor|]. split; [unfold MAX_LEN; lia|]. reflexivity.
Defined.

End Witnesses.
