(* ===== verification/Cid.v ===== *)
(** * Records as DAG-CBOR, and their CIDs

    [crates/happyview-provider/src/cid.rs]: a record's JSON is converted to
    IPLD and encoded, its CID is the hash of that encoding, and a claimed CID
    is checked against it; archive payloads go the other way.  The CBOR codec,
    the CID's text form, base64 and SHA-256 are third-party crates: they are
    interfaces, whose laws are that what they write they read back. *)

From stdpp Require Import list strings pretty countable.
From Stdlib Require Import ZArith.
From S2P Require Import Prelude Json.

#[local] Open Scope Z_scope.

Definition bytes : Type := list Z.

(** ** The crates *)

(** [cid] and its multihash: [cid_from_str] reads what [to_string] writes. *)
Class CidCrate : Type := {
  Cid : Type;
  Multihash : Type;
  Cid_eq_dec :: EqDecision Cid;
  new_v1 : Z -> Multihash -> Cid;
  multihash_from_bytes : bytes -> option Multihash;
  cid_to_string : Cid -> string;
  cid_from_str : string -> option Cid;
}.

Class CidCrateSpec (C : CidCrate) : Prop := {
  cid_from_to_str : forall c, cid_from_str (cid_to_string c) = Some c;
  cid_to_string_nonempty : forall c, cid_to_string c <> "";
}.

(** [base64]: the unpadded encoder and the decoder that takes both forms. *)
Class Base64 : Type := {
  b64_encode_no_pad : bytes -> string;
  b64_decode : string -> option bytes;
}.

Class Base64Spec (B : Base64) : Prop := {
  b64_decode_encode : forall b, b64_decode (b64_encode_no_pad b) = Some b;
}.

(** ** IPLD *)

Section Ipld.
Context `{C : CidCrate}.

Inductive Ipld : Type :=
| INull
| IBool (b : bool)
| IInteger (i : Z)
| IFloat (bits : Z)
| IString (s : string)
| IBytes (b : bytes)
| IList (items : list Ipld)
| IMap (entries : list (string * Ipld))
| ILink (c : Cid).

Lemma Ipld_nested_ind (P : Ipld -> Prop) :
  P INull -> (forall b, P (IBool b)) -> (forall i, P (IInteger i)) -> (forall b, P (IFloat b)) ->
  (forall s, P (IString s)) -> (forall b, P (IBytes b)) ->
  (forall l, Forall P l -> P (IList l)) -> (forall m, Forall (fun e => P e.2) m -> P (IMap m)) ->
  (forall c, P (ILink c)) -> forall i, P i.
Proof.
  intros Hn Hb Hi Hf Hs Hby Hl Hm Hc. fix IH 1. intros [ |b|i|b|s|b|l|m|c];
    [exact Hn|apply Hb|apply Hi|apply Hf|apply Hs|apply Hby|apply Hl|apply Hm|apply Hc].
  - induction l as [|x l IHl]; constructor; [apply IH|exact IHl].
  - induction m as [|[k x] m IHm]; constructor; [apply IH|exact IHm].
Qed.

End Ipld.

(** [serde_ipld_dagcbor]. *)
Class DagCborCodec `{C : CidCrate} : Type := {
  to_vec : Ipld -> option bytes;
  from_slice : bytes -> result Ipld string;
}.

Class DagCborSpec `(D : DagCborCodec) : Prop := {
  from_slice_to_vec : forall i b, to_vec i = Some b -> from_slice b = Ok i;
}.

(** [Value], nested. *)
Lemma value_nested_ind (P : value -> Prop) :
  P VNull -> (forall b, P (VBool b)) -> (forall n, P (VNumber n)) -> (forall b, P (VFloat b)) ->
  (forall s, P (VString s)) ->
  (forall l, Forall P l -> P (VArray l)) -> (forall m, Forall (fun e => P e.2) m -> P (VObject m)) ->
  forall v, P v.
Proof.
  intros Hn Hb Hi Hf Hs Hl Hm. fix IH 1. intros [ |b|i|b|s|l|m];
    [exact Hn|apply Hb|apply Hi|apply Hf|apply Hs|apply Hl|apply Hm].
  - induction l as [|x l IHl]; constructor; [apply IH|exact IHl].
  - induction m as [|[k x] m IHm]; constructor; [apply IH|exact IHm].
Qed.

Definition DAG_CBOR_CODEC : Z := 0x71.
Definition RAW_CODEC : Z := 0x55.
Definition SHA2_256_CODE : Z := 0x12.

Inductive CidCheck : Type := Match | Mismatch | Skipped.

(** Integers a JSON number holds: [i64] or [u64]. *)
Definition is_i64 (n : Z) : bool := (- 2 ^ 63 <=? n) && (n <? 2 ^ 63).
Definition is_u64 (n : Z) : bool := (0 <=? n) && (n <? 2 ^ 64).
Definition json_int (n : Z) : bool := is_i64 n || is_u64 n.

(** A double's bits: finite, and how the others print. *)
Definition float_exponent (bits : Z) : Z := Z.land (Z.shiftr bits 52) 0x7FF.
Definition is_finite (bits : Z) : bool := negb (float_exponent bits =? 0x7FF).
Definition nonfinite_to_string (bits : Z) : string :=
  if negb (Z.land bits (2 ^ 52 - 1) =? 0) then "NaN" else if Z.testbit bits 63 then "-inf" else "inf".

Section Convert.
Context `{C : CidCrate} {B : Base64}.

(** A [serde_json] map and an IPLD map are both ordered by key: an object is
    the list of its entries in that order, and a conversion keeps it. *)
Fixpoint atproto_json_to_ipld (v : value) : option Ipld :=
  match v with
  | VNull => Some INull
  | VBool b => Some (IBool b)
  | VNumber n => Some (IInteger n)
  | VFloat bits => Some (IFloat bits)
  | VString s => Some (IString s)
  | VArray items => IList <$> mapM atproto_json_to_ipld items
  | VObject entries =>
      let as_map := IMap <$> mapM (fun '(k, x) => (k,.) <$> atproto_json_to_ipld x) entries in
      match entries with
      | [(k, VString s)] =>
          if k =s "$link" then ILink <$> cid_from_str s
          else if k =s "$bytes" then IBytes <$> b64_decode s
          else as_map
      | _ => as_map
      end
  end.

(** [iter.map(f).collect::<Result<_, _>>()]. *)
Fixpoint collect_result {A E X} (f : A -> result X E) (l : list A) : result (list X) E :=
  match l with
  | [] => Ok []
  | a :: l' => let? x := f a in let? xs := collect_result f l' in Ok (x :: xs)
  end.

Fixpoint ipld_to_atproto_json (i : Ipld) : result value string :=
  match i with
  | INull => Ok VNull
  | IBool b => Ok (VBool b)
  | IInteger n =>
      if is_i64 n then Ok (VNumber n)
      else if is_u64 n then Ok (VNumber n)
      else Err ("integer " +:+ pretty n +:+ " is out of range")
  | IFloat bits =>
      if is_finite bits then Ok (VFloat bits)
      else Err ("float " +:+ nonfinite_to_string bits +:+ " has no JSON form")
  | IString s => Ok (VString s)
  | IBytes b => Ok (VObject [("$bytes", VString (b64_encode_no_pad b))])
  | IList items => let? l := collect_result ipld_to_atproto_json items in Ok (VArray l)
  | IMap entries =>
      let? m := collect_result (fun '(k, x) => let? y := ipld_to_atproto_json x in Ok (k, y)) entries in
      Ok (VObject m)
  | ILink c => Ok (VObject [("$link", VString (cid_to_string c))])
  end.

Context {D : DagCborCodec}.
Variable sha256 : bytes -> bytes.

Definition record_to_dag_cbor (v : value) : option bytes :=
  i ← atproto_json_to_ipld v; to_vec i.

Definition dag_cbor_to_json (cbor : bytes) : result value string :=
  let? i := from_slice cbor in ipld_to_atproto_json i.

Definition sha256_multihash (b : bytes) : option Multihash :=
  let digest := sha256 b in
  multihash_from_bytes ([SHA2_256_CODE mod 2 ^ 8; Z.of_nat (length digest) mod 2 ^ 8] ++ digest).

Definition dag_cbor_cid (cbor : bytes) : option Cid := new_v1 DAG_CBOR_CODEC <$> sha256_multihash cbor.
Definition raw_cid (b : bytes) : option Cid := new_v1 RAW_CODEC <$> sha256_multihash b.

Definition compute_record_cid (v : value) : option Cid := cbor ← record_to_dag_cbor v; dag_cbor_cid cbor.

Definition verify_record_cid (claimed_cid : string) (v : value) : CidCheck :=
  if claimed_cid =s "" then Skipped
  else
    match compute_record_cid v with
    | None => Skipped
    | Some computed =>
        match cid_from_str claimed_cid with
        | Some claimed => if decide (claimed = computed) then Match else Mismatch
        | None => Mismatch
        end
    end.

End Convert.

(** ** The data model

    What DAG-CBOR and JSON both express: integers of the JSON range, finite
    floats, and no map that JSON would read as a link or as bytes. *)

Section DataModel.
Context `{C : CidCrate}.

Definition reserved (m : list (string * Ipld)) : bool :=
  match m with
  | [(k, IString _)] => (k =s "$link") || (k =s "$bytes")
  | _ => false
  end.

Fixpoint data_model (i : Ipld) : bool :=
  match i with
  | IInteger n => json_int n
  | IFloat bits => is_finite bits
  | IList l => forallb data_model l
  | IMap m => negb (reserved m) && forallb (fun '(_, x) => data_model x) m
  | _ => true
  end.

End DataModel.

(** The numbers a JSON document holds are in range. *)
Fixpoint json_ok (v : value) : bool :=
  match v with
  | VNumber n => json_int n
  | VFloat bits => is_finite bits
  | VArray l => forallb json_ok l
  | VObject m => forallb (fun '(_, x) => json_ok x) m
  | _ => true
  end.

Section RoundTrip.
Context `{C : CidCrate} `{CS : !CidCrateSpec C} `{B : Base64} `{BS : !Base64Spec B}.

Lemma collect_result_Ok {A E X} (f : A -> result X E) l xs :
  collect_result f l = Ok xs <-> Forall2 (fun a x => f a = Ok x) l xs.
Proof.
  revert xs. induction l as [|a l IH]; intros xs; simpl.
  - split; [intros [= <-]; constructor|by intros ->%Forall2_nil_inv_l].
  - destruct (f a) as [x|e] eqn:Ha.
    + destruct (collect_result f l) as [ys|e]; split.
      * intros [= <-]. constructor; [done|by apply IH].
      * intros (y & ys' & Hy & Hys & ->)%Forall2_cons_inv_l. rewrite Ha in Hy. injection Hy as <-.
        apply IH in Hys. congruence.
      * done.
      * intros (y & ys' & Hy & Hys & ->)%Forall2_cons_inv_l. apply IH in Hys. done.
    + split; [done|]. intros (y & ys' & Hy & _ & ->)%Forall2_cons_inv_l. congruence.
Qed.

Lemma Forall2_impl_elem {X Y} (P Q : X -> Y -> Prop) l k :
  Forall2 P l k -> (forall x y, x ∈ l -> y ∈ k -> P x y -> Q x y) -> Forall2 Q l k.
Proof.
  induction 1 as [|x y l k Hxy _ IH]; intros Himp; constructor.
  - apply Himp; [left|left|done].
  - apply IH. intros a b Ha Hb. apply Himp; by right.
Qed.

(** The conversions of one entry. *)
Definition entry_to_ipld (e : string * value) : option (string * Ipld) :=
  let '(k, x) := e in (k,.) <$> atproto_json_to_ipld x.
Definition entry_to_json (e : string * Ipld) : result (string * value) string :=
  let '(k, x) := e in let? y := ipld_to_atproto_json x in Ok (k, y).

Lemma ipld_map_json m :
  ipld_to_atproto_json (IMap m) = let? vs := collect_result entry_to_json m in Ok (VObject vs).
Proof. done. Qed.

Lemma ipld_int_json n : json_int n = true -> ipld_to_atproto_json (IInteger n) = Ok (VNumber n).
Proof.
  cbn [ipld_to_atproto_json]. unfold json_int. destruct (is_i64 n); [reflexivity|].
  destruct (is_u64 n); [reflexivity|discriminate].
Qed.

Lemma ipld_float_json b : is_finite b = true -> ipld_to_atproto_json (IFloat b) = Ok (VFloat b).
Proof. cbn [ipld_to_atproto_json]. intros ->. reflexivity. Qed.

(** An object that is not a link or bytes is a map. *)
Lemma object_as_map m :
  match m with [(k, VString _)] => (k =s "$link") || (k =s "$bytes") | _ => false end = false ->
  atproto_json_to_ipld (VObject m) = IMap <$> mapM entry_to_ipld m.
Proof.
  destruct m as [|[k []] [|]]; try done. intros [H1 H2]%orb_false_iff. simpl. by rewrite H1, H2.
Qed.

Definition round (i : Ipld) : Prop :=
  exists v, ipld_to_atproto_json i = Ok v /\ atproto_json_to_ipld v = Some i /\ json_ok v = true.

Lemma round_list l :
  Forall round l ->
  exists vs, collect_result ipld_to_atproto_json l = Ok vs /\ mapM atproto_json_to_ipld vs = Some l
    /\ forallb json_ok vs = true.
Proof.
  induction 1 as [|i l (v & Hv & Hi & Hj) _ (vs & Hvs & Hl & Hjs)]; simpl; [by exists []|].
  rewrite Hv, Hvs. exists (v :: vs). simpl. rewrite Hi. simpl. rewrite Hl, Hj. done.
Qed.

Lemma round_map m :
  Forall (fun e => round e.2) m ->
  exists vs, collect_result entry_to_json m = Ok vs /\ mapM entry_to_ipld vs = Some m
    /\ forallb (fun '(_, x) => json_ok x) vs = true.
Proof.
  induction 1 as [|[k i] m (v & Hv & Hi & Hj) _ (vs & Hvs & Hl & Hjs)]; simpl; [by exists []|].
  simpl in *. rewrite Hv, Hvs. exists ((k, v) :: vs). simpl. rewrite Hi. simpl. rewrite Hl, Hj. done.
Qed.

(** Only a string becomes a JSON string, so a map that is not reserved does
    not become an object that reads as a link or bytes. *)
Lemma map_not_reserved m vs :
  reserved m = false ->
  collect_result entry_to_json m = Ok vs ->
  match vs with [(k, VString _)] => (k =s "$link") || (k =s "$bytes") | _ => false end = false.
Proof.
  intros Hr Hc%collect_result_Ok. destruct vs as [|[k y] [|]]; [reflexivity| |destruct y; reflexivity].
  apply Forall2_cons_inv_r in Hc as ([k' x] & m' & Hx & ->%Forall2_nil_inv_r & ->).
  simpl in Hx. destruct (ipld_to_atproto_json x) as [y'|] eqn:Hy; [|discriminate Hx]. injection Hx as -> ->.
  destruct y; try reflexivity.
  destruct x as [| |n|bits| | |l|m|]; cbn [ipld_to_atproto_json] in Hy; try discriminate Hy; [..|exact Hr| |].
  - destruct (is_i64 n), (is_u64 n); discriminate Hy.
  - destruct (is_finite bits); discriminate Hy.
  - destruct (collect_result _ l); discriminate Hy.
  - destruct (collect_result _ m); discriminate Hy.
Qed.

Lemma data_model_round i : data_model i = true -> round i.
Proof.
  induction i as [|b|n|b|s|b|l IH|m IH|c] using Ipld_nested_ind; simpl; intros Hd; unfold round.
  1, 2, 5: by eexists.
  - exists (VNumber n). split_and!; [by apply ipld_int_json|reflexivity|exact Hd].
  - exists (VFloat b). split_and!; [by apply ipld_float_json|reflexivity|exact Hd].
  - eexists. split_and!; [done| |done]. simpl. by rewrite b64_decode_encode.
  - destruct (round_list l) as (vs & Hc & Hl & Hj).
    { rewrite forallb_elem in Hd. rewrite Forall_forall in *. intros x Hx. by apply IH, Hd. }
    exists (VArray vs). simpl. by rewrite Hc, Hl.
  - apply andb_true_iff in Hd as [Hr%negb_true_iff Hd].
    destruct (round_map m) as (vs & Hc & Hl & Hj).
    { rewrite forallb_elem in Hd. rewrite Forall_forall in *. intros [k x] Hx. apply IH; [done|].
      apply (Hd (k, x) Hx). }
    exists (VObject vs). split_and!; [by rewrite ipld_map_json, Hc| |done].
    rewrite object_as_map by (by eapply map_not_reserved). by rewrite Hl.
  - eexists. split_and!; [done| |done]. simpl. by rewrite cid_from_to_str.
Qed.

(** The texts of links and bytes are the ones [ipld_to_atproto_json] writes. *)
Fixpoint canonical_text (v : value) : bool :=
  match v with
  | VArray l => forallb canonical_text l
  | VObject [(k, VString s)] =>
      if k =s "$link" then match cid_from_str s with Some c => cid_to_string c =s s | None => true end
      else if k =s "$bytes" then match b64_decode s with Some b => b64_encode_no_pad b =s s | None => true end
      else true
  | VObject m => forallb (fun '(_, x) => canonical_text x) m
  | _ => true
  end.

(** What an object converts to. *)
Lemma object_cases m i :
  atproto_json_to_ipld (VObject m) = Some i ->
  (exists s c, m = [("$link", VString s)] /\ cid_from_str s = Some c /\ i = ILink c)
  \/ (exists s b, m = [("$bytes", VString s)] /\ b64_decode s = Some b /\ i = IBytes b)
  \/ (exists es, mapM entry_to_ipld m = Some es /\ i = IMap es
        /\ match m with [(k, VString _)] => (k =s "$link") || (k =s "$bytes") | _ => false end = false).
Proof.
  destruct (match m with [(k, VString _)] => (k =s "$link") || (k =s "$bytes") | _ => false end) eqn:Hr.
  - destruct m as [|[k []] []]; try discriminate. apply orb_true_iff in Hr as [Hk|Hk]; apply String.eqb_eq in Hk as ->.
    + cbn. destruct (cid_from_str s) as [c|] eqn:Hc; intros [= <-]. left. by exists s, c.
    + cbn. destruct (b64_decode s) as [b|] eqn:Hb; intros [= <-]. right. left. by exists s, b.
  - rewrite object_as_map by done. destruct (mapM entry_to_ipld m) as [es|]; intros [= <-].
    right. right. by exists es.
Qed.

Lemma mapM_entries_not_reserved m es :
  match m with [(k, VString _)] => (k =s "$link") || (k =s "$bytes") | _ => false end = false ->
  mapM entry_to_ipld m = Some es -> reserved es = false.
Proof.
  intros Hr Hm%mapM_Some. destruct es as [|[k x] [|]]; [reflexivity| |by destruct x].
  apply Forall2_cons_inv_r in Hm as ([k' v] & m' & Hv & ->%Forall2_nil_inv_r & ->).
  unfold entry_to_ipld in Hv. destruct (atproto_json_to_ipld v) as [x'|] eqn:Hx; [|discriminate Hv].
  injection Hv as -> ->. destruct x; try reflexivity.
  destruct v as [| | | | |l|m]; try discriminate Hx; [done| |].
  - cbn in Hx. by destruct (mapM atproto_json_to_ipld l).
  - apply object_cases in Hx as [(?&?&_&_&?)|[(?&?&_&_&?)|(?&_&?&_)]]; discriminate.
Qed.

(** Every JSON record that converts is in the data model. *)
Lemma json_data_model v i : json_ok v = true -> atproto_json_to_ipld v = Some i -> data_model i = true.
Proof.
  revert i. induction v as [|b|n|b|s|l IH|m IH] using value_nested_ind; intros i Hj Hi.
  1-5: injection Hi as <-; exact Hj || reflexivity.
  - cbn in Hi. destruct (mapM atproto_json_to_ipld l) as [l'|] eqn:Hl; [|discriminate Hi]. injection Hi as <-.
    apply mapM_Some in Hl. cbn in *. rewrite forallb_elem in Hj. apply forallb_elem. rewrite Forall_forall in IH.
    intros x Hx. eapply list_elem_of_lookup in Hx as [k Hk].
    destruct (Forall2_lookup_r _ _ _ _ _ Hl Hk) as (v & Hv & Hvx).
    apply list_elem_of_lookup_2 in Hv. by apply (IH v Hv x); [apply Hj|].
  - apply object_cases in Hi as [(s&c&->&_&->)|[(s&b&->&_&->)|(es&Hm&->&Hr)]]; [reflexivity..|].
    cbn [data_model]. rewrite (mapM_entries_not_reserved _ _ Hr Hm). simpl.
    apply mapM_Some in Hm. cbn [json_ok] in Hj. rewrite forallb_elem in Hj. apply forallb_elem. rewrite Forall_forall in IH.
    intros [k x] Hx. eapply list_elem_of_lookup in Hx as [n Hn].
    destruct (Forall2_lookup_r _ _ _ _ _ Hm Hn) as ([k' v] & Hv & Hvx).
    apply list_elem_of_lookup_2 in Hv. unfold entry_to_ipld in Hvx.
    destruct (atproto_json_to_ipld v) as [x'|] eqn:Hx; [|discriminate Hvx]. injection Hvx as -> ->.
    by apply (IH (k, v) Hv x); [apply (Hj (k, v))|].
Qed.

(** The object that a reserved object is not, for [canonical_text]. *)
Lemma canonical_object m :
  match m with [(k, VString _)] => (k =s "$link") || (k =s "$bytes") | _ => false end = false ->
  canonical_text (VObject m) = forallb (fun '(_, x) => canonical_text x) m.
Proof.
  destruct m as [|[k []] []]; try reflexivity. intros [H1 H2]%orb_false_iff. cbn. by rewrite H1, H2.
Qed.

(** A record in canonical text is read back as it was. *)
Lemma canonical_reads_back v i :
  json_ok v = true -> canonical_text v = true -> atproto_json_to_ipld v = Some i ->
  ipld_to_atproto_json i = Ok v.
Proof.
  revert i. induction v as [|b|n|b|s|l IH|m IH] using value_nested_ind; intros i Hj Hc Hi.
  1, 2, 5: by injection Hi as <-.
  - injection Hi as <-. by apply ipld_int_json.
  - injection Hi as <-. by apply ipld_float_json.
  - cbn in Hi. destruct (mapM atproto_json_to_ipld l) as [l'|] eqn:Hl; [|discriminate Hi]. injection Hi as <-.
    cbn [ipld_to_atproto_json]. cbn [json_ok canonical_text] in Hj, Hc.
    rewrite (proj2 (collect_result_Ok ipld_to_atproto_json l' l)); [done|].
    apply mapM_Some in Hl. rewrite forallb_elem in Hj, Hc. rewrite Forall_forall in IH.
    apply Forall2_flip. eapply Forall2_impl_elem; [exact Hl|]. intros v x Hv _ Hx. by apply IH; [|apply Hj|apply Hc|].
  - apply object_cases in Hi as [(s&c&->&Hs&->)|[(s&b&->&Hs&->)|(es&Hm&->&Hr)]].
    + cbn in Hc |- *. rewrite Hs in Hc. apply String.eqb_eq in Hc as ->. done.
    + cbn in Hc |- *. rewrite Hs in Hc. apply String.eqb_eq in Hc as ->. done.
    + rewrite canonical_object in Hc by done. cbn [json_ok] in Hj. rewrite forallb_elem in Hj, Hc.
      rewrite Forall_forall in IH. apply mapM_Some in Hm.
      rewrite ipld_map_json, (proj2 (collect_result_Ok entry_to_json es m)); [done|].
      apply Forall2_flip. eapply Forall2_impl_elem; [exact Hm|]. intros [k v] [k' x] Hv _ Hx.
      unfold entry_to_ipld in Hx. destruct (atproto_json_to_ipld v) as [x'|] eqn:Hvx; [|discriminate Hx].
      injection Hx as -> ->. cbn [entry_to_json].
      by rewrite (IH (k', v) Hv x (Hj _ Hv) (Hc _ Hv) Hvx).
Qed.

Context `{D : !DagCborCodec} `{DS : !DagCborSpec D}.
Variable sha256 : bytes -> bytes.

(** Encoding a record and reading it back.  What [record_to_dag_cbor]
    writes, [dag_cbor_to_json] reads, and the document it gives has the same
    encoding and so the same CID; it is the same document when its links and
    bytes were in canonical text, so only their spelling (padding, multibase)
    can change. *)
Theorem record_reads_back v cbor :
  json_ok v = true -> record_to_dag_cbor v = Some cbor ->
  exists v', dag_cbor_to_json cbor = Ok v' /\ record_to_dag_cbor v' = Some cbor
    /\ compute_record_cid sha256 v' = compute_record_cid sha256 v
    /\ (canonical_text v = true -> v' = v).
Proof.
  intros Hj Hr. unfold record_to_dag_cbor in Hr. destruct (atproto_json_to_ipld v) as [i|] eqn:Hi; [|discriminate Hr].
  simpl in Hr. pose proof (from_slice_to_vec i cbor Hr) as Hf.
  destruct (data_model_round i (json_data_model v i Hj Hi)) as (v' & Hv' & Hi' & _).
  exists v'. unfold compute_record_cid, record_to_dag_cbor, dag_cbor_to_json.
  rewrite Hf, Hi', Hi. simpl. rewrite Hr. split_and!; [exact Hv'|reflexivity|reflexivity|].
  intros Hc. pose proof (canonical_reads_back v i Hj Hc Hi) as Hcv. congruence.
Qed.

(** A payload of the data model verifies against its own CID. *)
Lemma payload_verifies i payload c :
  data_model i = true -> to_vec i = Some payload -> dag_cbor_cid sha256 payload = Some c ->
  exists v, dag_cbor_to_json payload = Ok v /\ verify_record_cid sha256 (cid_to_string c) v = Match.
Proof.
  intros Hd Hv Hc. destruct (data_model_round i Hd) as (v & Hv' & Hi & _). exists v.
  unfold dag_cbor_to_json. rewrite (from_slice_to_vec i payload Hv). split; [exact Hv'|].
  unfold verify_record_cid, compute_record_cid, record_to_dag_cbor. rewrite Hi. simpl. rewrite Hv. simpl.
  rewrite Hc, cid_from_to_str, (proj2 (String.eqb_neq _ _) (cid_to_string_nonempty c)).
  by rewrite decide_True.
Qed.

(** What the CID check answers.  A record passes exactly when the claimed
    text names the CID of the record's own encoding; a claim is only left
    unchecked when there is none or the record has no encoding; and a record
    is accepted under the CID it was given here. *)
Theorem cid_check_decides claimed v :
  (verify_record_cid sha256 claimed v = Match <->
   claimed <> "" /\ exists c, compute_record_cid sha256 v = Some c /\ cid_from_str claimed = Some c)
  /\ (verify_record_cid sha256 claimed v = Skipped <->
      claimed = "" \/ compute_record_cid sha256 v = None)
  /\ (forall c, compute_record_cid sha256 v = Some c -> verify_record_cid sha256 (cid_to_string c) v = Match).
Proof.
  unfold verify_record_cid. destruct (String.eqb_spec claimed "") as [->|Hne]; cbn [negb].
  - split_and!; [by split; [|intros [? _]]|by split; [left|]|].
    intros c Hc. rewrite (proj2 (String.eqb_neq _ _) (cid_to_string_nonempty c)), Hc, cid_from_to_str.
    by rewrite decide_True.
  - destruct (compute_record_cid sha256 v) as [c|].
    + split_and!.
      * destruct (cid_from_str claimed) as [c'|]; [destruct (decide (c' = c)) as [->|Hcc]|].
        { split; [intros _; split; [done|by exists c]|done]. }
        { split; [done|]. intros (_ & c2 & [= ->] & [= ->]). done. }
        { split; [done|]. by intros (_ & c2 & _ & ?). }
      * destruct (cid_from_str claimed) as [c'|]; [destruct (decide (c' = c))|]; split; try done; by intros [?|?].
      * intros c0 [= ->]. rewrite (proj2 (String.eqb_neq _ _) (cid_to_string_nonempty c0)), cid_from_to_str.
        by rewrite decide_True.
    + split_and!; [|by split; [right|]|done]. split; [done|]. by intros (_ & c & ? & _).
Qed.

End RoundTrip.

(** ** Concrete crates

    Stand-ins that have the laws, to run the model: a CID is its text behind a
    letter, and bytes and IPLD are written as the numbers that count them. *)

Fixpoint bits (p : positive) : string :=
  match p with xH => "" | xO p => String "0" (bits p) | xI p => String "1" (bits p) end.
Fixpoint unbits (s : string) : option positive :=
  match s with
  | EmptyString => Some xH
  | String c s' => if Ascii.eqb c "0" then xO <$> unbits s' else xI <$> unbits s'
  end.

Lemma unbits_bits p : unbits (bits p) = Some p.
Proof. induction p as [p IH|p IH|]; simpl; [by rewrite IH..|done]. Qed.

#[export] Instance counting_base64 : Base64 := {|
  b64_encode_no_pad b := bits (encode b);
  b64_decode s := p ← unbits s; decode p;
|}.

#[export] Instance counting_base64_spec : Base64Spec counting_base64.
Proof. split. intros b. simpl. rewrite unbits_bits. simpl. apply decode_encode. Qed.

#[export] Instance prefixed_cid : CidCrate := {|
  Cid := string;
  Multihash := bytes;
  new_v1 codec mh := bits (encode (codec :: mh));
  multihash_from_bytes b := Some b;
  cid_to_string c := String "b" c;
  cid_from_str s := match s with String _ c => Some c | EmptyString => None end;
|}.

#[export] Instance prefixed_cid_spec : CidCrateSpec prefixed_cid.
Proof. by split. Qed.

Definition leaf : Type := Z + string + bytes.

Fixpoint to_tree (i : Ipld (C := prefixed_cid)) : gen_tree leaf :=
  match i with
  | INull => GenNode 0 []
  | IBool b => GenNode (if b then 1 else 2) []
  | IInteger n => GenNode 3 [GenLeaf (inl (inl n))]
  | IFloat n => GenNode 4 [GenLeaf (inl (inl n))]
  | IString s => GenNode 5 [GenLeaf (inl (inr s))]
  | IBytes b => GenNode 6 [GenLeaf (inr b)]
  | IList l => GenNode 7 (map to_tree l)
  | IMap m => GenNode 8 (map (fun '(k, x) => GenNode 0 [GenLeaf (inl (inr k)); to_tree x]) m)
  | ILink c => GenNode 9 [GenLeaf (inl (inr c))]
  end.

Fixpoint of_tree (t : gen_tree leaf) : Ipld (C := prefixed_cid) :=
  match t with
  | GenNode 1 _ => IBool true
  | GenNode 2 _ => IBool false
  | GenNode 3 [GenLeaf (inl (inl n))] => IInteger n
  | GenNode 4 [GenLeaf (inl (inl n))] => IFloat n
  | GenNode 5 [GenLeaf (inl (inr s))] => IString s
  | GenNode 6 [GenLeaf (inr b)] => IBytes b
  | GenNode 7 l => IList (map of_tree l)
  | GenNode 8 m =>
      IMap (map (fun e => match e with
                          | GenNode _ [GenLeaf (inl (inr k)); x] => (k, of_tree x)
                          | _ => ("", INull)
                          end) m)
  | GenNode 9 [GenLeaf (inl (inr c))] => ILink (C := prefixed_cid) c
  | _ => INull
  end.

Lemma of_to_tree i : of_tree (to_tree i) = i.
Proof.
  induction i as [|[]|n|b|s|b|l IH|m IH|c] using Ipld_nested_ind; try done; simpl; f_equal; rewrite map_map.
  - induction IH; simpl; congruence.
  - induction IH as [|[k x] m Hx _ IHm]; simpl in *; congruence.
Qed.

#[export] Instance counting_codec : DagCborCodec := {|
  to_vec i := Some [Zpos (encode (to_tree i))];
  from_slice b :=
    match b with
    | [Zpos p] => match decode p with Some t => Ok (of_tree t) | None => Err "decode" end
    | _ => Err "decode"
    end;
|}.

#[export] Instance counting_codec_spec : DagCborSpec counting_codec.
Proof. split. intros i b [= <-]. simpl. rewrite decode_encode. by rewrite of_to_tree. Qed.

Definition no_hash (b : bytes) : bytes := b.

(** A record with a link, some bytes and a number. *)
Definition sample_record : value :=
  VObject [("blob", VObject [("$link", VString "bafy")]);
           ("n", VArray [VNumber (2 ^ 64 - 1); VNull]);
           ("sig", VObject [("$bytes", VString (b64_encode_no_pad [1; 2; 255]))])].

Lemma record_reads_back_witness :
  exists v', dag_cbor_to_json (default [] (record_to_dag_cbor sample_record)) = Ok v'
    /\ compute_record_cid no_hash v' = compute_record_cid no_hash sample_record.
Proof.
  destruct (record_reads_back no_hash sample_record (default [] (record_to_dag_cbor sample_record)))
    as (v' & Hv & _ & Hc & _).
  - vm_compute. reflexivity.
  - vm_compute. reflexivity.
  - exists v'. split; [exact Hv|exact Hc].
Defined.

Lemma cid_check_decides_witness :
  verify_record_cid no_hash (cid_to_string (default "" (compute_record_cid no_hash sample_record)))
    sample_record = Match
  /\ verify_record_cid no_hash "bafy" sample_record <> Match.
Proof.
  split.
  - apply (proj2 (proj2 (cid_check_decides no_hash "" sample_record))). vm_compute. reflexivity.
  - intros H. apply (proj1 (cid_check_decides no_hash "bafy" sample_record)) in H as (_ & c & Hc & Hf).
    vm_compute in Hc, Hf. congruence.
Defined.
