(* ===== verification/StreamEvent.v ===== *)
(** * Stream events and the provider boundary

    The data of [crates/happyview-source-jetstream/src/consumer/event.rs] (what
    the stream delivers) and of [crates/happyview-provider/src/types.rs] (what
    is handed to the host), with the conversion of markers in
    [consumer/apply.rs]. *)

From S2P Require Import Prelude Json.
From Stdlib Require Import ZArith.

(** ** Stream events *)

Inductive CursorPoint : Type :=
| V2 (seq witnessed_us : Z)
| V1 (time_us : Z).

#[export] Instance CursorPoint_eq_dec : EqDecision CursorPoint.
Proof. solve_decision. Defined.

Definition cursor_seq (p : CursorPoint) : option Z :=
  match p with V2 seq _ => Some seq | V1 _ => None end.
Definition cursor_time_us (p : CursorPoint) : Z :=
  match p with V2 _ witnessed_us => witnessed_us | V1 time_us => time_us end.

Record Commit : Type := {
  commit_rev : option string;
  operation : string;
  commit_collection : string;
  commit_rkey : string;
  commit_record : option value;
  commit_cid : option string;
}.

Inductive EventKind : Type :=
| KCommit (c : Commit)
| KIdentity (handle : option string)
| KAccount (active : bool) (status : option string)
| KSync (rev : option string).

Record Event : Type := { event_did : string; cursor : CursorPoint; kind : EventKind }.

(** ** The provider boundary *)

Record RecordKey : Type := { did : string; collection : string; rkey : string }.

#[export] Instance RecordKey_eq_dec : EqDecision RecordKey.
Proof. solve_decision. Defined.

Definition uri (k : RecordKey) : string :=
  "at://" +:+ did k +:+ "/" +:+ collection k +:+ "/" +:+ rkey k.

Inductive Action : Type := Create | Update | Delete.

Definition Action_as_str (a : Action) : string :=
  match a with Create => "create" | Update => "update" | Delete => "delete" end.

Definition Action_parse (s : string) : option Action :=
  if s =s "create" then Some Create
  else if s =s "update" then Some Update
  else if s =s "delete" then Some Delete
  else None.

Inductive Origin : Type :=
| Live
| Backfill (job_id : string)
| Retry.

Record RecordEvent : Type := {
  key : RecordKey;
  action : Action;
  cid : option string;
  rev : option string;
  body : option value;
  time_us : option Z;
  origin : Origin;
  stored : bool;
}.

Inductive SourceEvent : Type :=
| SRecord (ev : RecordEvent)
| SAccount (did : string) (active : bool) (status : option string) (as_of_us seq time_us : option Z)
    (collections : option (list string))
| SIdentity (did : string) (handle : option string)
| SSync (did : string) (rev : option string) (as_of_us seq time_us : option Z)
    (collections : option (list string)).

Inductive IngestOutcome : Type := Matched | Skipped | SchemaEvent | Errored | Unavailable | Invalid.

Record BatchOutcome : Type := { outcomes : list IngestOutcome; changed : list bool }.

(** The host's ingest entry points, as state transformers. *)
Class Host : Type := {
  HostState : Type;
  ingest : HostState -> SourceEvent -> HostState * IngestOutcome;
  ingest_with_error : HostState -> SourceEvent -> HostState * (IngestOutcome * option string);
  ingest_batch_with_error : HostState -> list SourceEvent -> HostState * (BatchOutcome * option string);
}.

(** A host that remembers what it was handed, in order: a batch counts as its
    events.  Any host becomes one by adding the record to its state. *)
Class HostLog (H : Host) : Type := {
  delivered : HostState -> list SourceEvent;
  delivered_ingest : forall h e, delivered (ingest h e).1 = delivered h ++ [e];
  delivered_ingest_with_error : forall h e, delivered (ingest_with_error h e).1 = delivered h ++ [e];
  delivered_batch : forall h b, delivered (ingest_batch_with_error h b).1 = delivered h ++ b;
}.

(** [marker_event]; a commit is not a marker, and no caller passes one. *)
Definition marker_event (d : string) (c : CursorPoint) (k : EventKind) (as_of_us : option Z)
    (sync_scope : list string) : option SourceEvent :=
  let seq := cursor_seq c in
  let t := Some (cursor_time_us c) in
  match k with
  | KAccount active status => Some (SAccount d active status as_of_us seq t None)
  | KSync r => Some (SSync d r as_of_us seq t (Some sync_scope))
  | KIdentity handle => Some (SIdentity d handle)
  | KCommit _ => None
  end.

Lemma Action_parse_as_str a : Action_parse (Action_as_str a) = Some a.
Proof. by destruct a. Qed.
