(* ===== verification/Watermark.v ===== *)
(** * The applied watermark

    Models [crates/happyview-source-jetstream/src/consumer/watermark.rs].
    [Watermark] is the state behind
    the mutex; every operation of [WatermarkHandle] holds the lock for its
    duration, so a run of the reader and the workers is a sequence of
    operations.  Tickets are natural numbers: the counter is a [u64] that
    counts events of one process. *)

From S2P Require Import Prelude Json StreamEvent.
From Stdlib Require Import ZArith Lia.
From stdpp Require Import gmap.

(** ** Definitions *)

Record Watermark : Type := {
  front : nat;
  pending : list (CursorPoint * bool);
  applied : option CursorPoint;
}.

Definition new : Watermark := {| front := 0; pending := []; applied := None |}.

Definition begin (w : Watermark) (point : CursorPoint) : Watermark * nat :=
  let ticket := front w + length (pending w) in
  ({| front := front w; pending := pending w ++ [(point, false)]; applied := applied w |}, ticket).

(** The [while] loop of [complete]: pop every finished slot at the front. *)
Fixpoint retire (front : nat) (pending : list (CursorPoint * bool)) (applied : option CursorPoint)
    : Watermark :=
  match pending with
  | (point, true) :: rest => retire (front + 1) rest (Some point)
  | _ => {| front := front; pending := pending; applied := applied |}
  end.

Definition complete (w : Watermark) (ticket : nat) : Watermark :=
  if ticket <? front w then w
  else
    let index := ticket - front w in
    match pending w !! index with
    | None => w
    | Some slot => retire (front w) (<[index := (slot.1, true)]> (pending w)) (applied w)
    end.

Definition in_flight (w : Watermark) : nat := length (pending w).
Definition next_ticket (w : Watermark) : nat := front w + length (pending w).
Definition has_retired (w : Watermark) (ticket : nat) : bool := ticket <? front w.

(** The handle's operations, each under the lock. *)
Definition applied_if_retired (w : Watermark) (ticket : nat) : option CursorPoint :=
  if has_retired w ticket then applied w else None.

(** The new state, and whether the waiters are to be notified. *)
Definition handle_complete (w : Watermark) (ticket : nat) : Watermark * bool :=
  let w := complete w ticket in (w, in_flight w =? 0).

Inductive op : Type :=
| Begin (point : CursorPoint)
| Complete (ticket : nat).

Definition step (w : Watermark) (o : op) : Watermark :=
  match o with
  | Begin p => (begin w p).1
  | Complete t => complete w t
  end.

Definition run (ops : list op) : Watermark := foldl step new ops.

(** ** The specification

    What the watermark promises, with nothing retired and nothing forgotten:
    every point handed out, in ticket order, and the set of finished tickets. *)

Record Spec : Type := { points : list CursorPoint; finished : gset nat }.

Definition spec_new : Spec := {| points := []; finished := ∅ |}.

Definition spec_step (s : Spec) (o : op) : Spec :=
  match o with
  | Begin p => {| points := points s ++ [p]; finished := finished s |}
  | Complete t =>
      if t <? length (points s) then {| points := points s; finished := {[t]} ∪ finished s |} else s
  end.

Definition spec_run (ops : list op) : Spec := foldl spec_step spec_new ops.

(** The length of the longest run of finished tickets from ticket [i] on. *)
Fixpoint finished_run (fin : gset nat) (i : nat) (l : list CursorPoint) : nat :=
  match l with
  | [] => 0
  | _ :: l' => if decide (i ∈ fin) then S (finished_run fin (S i) l') else 0
  end.

Definition retired_count (s : Spec) : nat := finished_run (finished s) 0 (points s).

Definition spec_applied (s : Spec) : option CursorPoint := last (take (retired_count s) (points s)).

(** ** The simulation *)

Lemma finished_run_bound fin i l : finished_run fin i l <= length l.
Proof. revert i; induction l as [|p l IH]; intros i; simpl; [lia|]. case_decide; [specialize (IH (S i))|]; lia. Qed.

Lemma finished_run_all fin i l j : j < finished_run fin i l -> i + j ∈ fin.
Proof.
  revert i j; induction l as [|p l IH]; intros i j; simpl; [lia|]. case_decide as Hi; [|lia].
  intros Hj. destruct j as [|j]; [by rewrite Nat.add_0_r|].
  replace (i + S j) with (S i + j) by lia. apply IH. lia.
Qed.

Lemma finished_run_stop fin i l :
  finished_run fin i l < length l -> i + finished_run fin i l ∉ fin.
Proof.
  revert i; induction l as [|p l IH]; intros i; simpl; [lia|]. case_decide as Hi; [|by rewrite Nat.add_0_r].
  intros Hlt. replace (i + S (finished_run fin (S i) l)) with (S i + finished_run fin (S i) l) by lia.
  apply IH. lia.
Qed.

(** The run is the only length with these two facts. *)
Lemma finished_run_unique fin i l n :
  n <= length l -> (forall j, j < n -> i + j ∈ fin) -> (n < length l -> i + n ∉ fin) ->
  n = finished_run fin i l.
Proof.
  intros Hn Hall Hstop. destruct (Nat.lt_trichotomy n (finished_run fin i l)) as [H|[H|H]]; [|done|].
  - pose proof (finished_run_bound fin i l). exfalso. apply Hstop; [lia|]. by apply finished_run_all with l.
  - exfalso. apply (finished_run_stop fin i l); [lia|]. by apply Hall.
Qed.

(** The state [w] and the specification [s] describe the same history: the
    retired points, then the pending ones with their flags. *)
Record simulates (w : Watermark) (s : Spec) : Prop := {
  sim_points : exists retired, points s = retired ++ (fst <$> pending w) /\ length retired = front w
                 /\ applied w = last retired;
  sim_retired : forall t, t < front w -> t ∈ finished s;
  sim_flags : forall i p b, pending w !! i = Some (p, b) -> b = bool_decide (front w + i ∈ finished s);
  sim_head : forall p b, pending w !! 0 = Some (p, b) -> b = false;
  sim_known : forall t, t ∈ finished s -> t < length (points s);
}.

Lemma simulates_new : simulates new spec_new.
Proof. split; simpl; [by exists []|lia|done|done|set_solver]. Qed.

Lemma retire_simulates fr pend ap s :
  (exists retired, points s = retired ++ (fst <$> pend) /\ length retired = fr /\ ap = last retired) ->
  (forall t, t < fr -> t ∈ finished s) ->
  (forall i p b, pend !! i = Some (p, b) -> b = bool_decide (fr + i ∈ finished s)) ->
  (forall t, t ∈ finished s -> t < length (points s)) ->
  simulates (retire fr pend ap) s.
Proof.
  revert fr ap. induction pend as [|[p [|]] pend IH]; intros fr ap Hp Hr Hf Hk; simpl.
  - by split.
  - apply IH; [| | |done].
    + destruct Hp as (ret & Hpts & Hlen & ->). exists (ret ++ [p]).
      rewrite length_app, last_snoc, Hpts, <- (assoc_L (++)). simpl. repeat split. lia.
    + intros t Ht. destruct (decide (t = fr)) as [->|]; [|apply Hr; lia].
      specialize (Hf 0 p true eq_refl). rewrite Nat.add_0_r in Hf. by apply eq_sym, bool_decide_eq_true in Hf.
    + intros i q b Hi. rewrite (Hf (S i) q b Hi). by replace (fr + 1 + i) with (fr + S i) by lia.
  - split; try done. by intros q b [= _ <-].
Qed.

Lemma simulates_begin w s p : simulates w s -> simulates (begin w p).1 (spec_step s (Begin p)).
Proof.
  intros [(ret & Hpts & Hlen & Happ) Hr Hf Hh Hk].
  assert (length (points s) = front w + length (pending w)) as Hl
    by (rewrite Hpts, length_app, length_fmap; lia).
  split; simpl; try done.
  - exists ret. rewrite Hpts, fmap_app, <- (assoc_L (++)). done.
  - intros i q b. rewrite lookup_app_Some. intros [Hi|[Hge Hi]]; [by eapply Hf|].
    apply list_lookup_singleton_Some in Hi as [Hi [= <- <-]].
    symmetry. apply bool_decide_eq_false. intros Hin%Hk. lia.
  - intros q b. destruct (pending w) as [|[q' b'] l]; simpl; [by intros [= _ <-]|]. intros [= _ <-]. by apply (Hh q' b').
  - intros t Ht%Hk. rewrite length_app. simpl. lia.
Qed.

Lemma simulates_complete w s t : simulates w s -> simulates (complete w t) (spec_step s (Complete t)).
Proof.
  intros Hsim. pose proof Hsim as [(ret & Hpts & Hlen & Happ) Hr Hf Hh Hk].
  assert (length (points s) = front w + length (pending w)) as Hl
    by (rewrite Hpts, length_app, length_fmap; lia).
  unfold complete. cbn [spec_step]. destruct (Nat.ltb_spec t (front w)) as [Hlt|Hge].
  - (* already retired *)
    rewrite (proj2 (Nat.ltb_lt t (length (points s)))) by lia.
    assert ({[t]} ∪ finished s = finished s) as -> by (pose proof (Hr t Hlt); set_solver).
    by destruct s.
  - destruct (pending w !! (t - front w)) as [[q b]|] eqn:El.
    + pose proof (lookup_lt_Some _ _ _ El). rewrite (proj2 (Nat.ltb_lt t (length (points s)))) by lia.
      apply retire_simulates; cbn [points finished].
      * exists ret. rewrite list_fmap_insert. simpl. rewrite list_insert_id; [done|].
        rewrite list_lookup_fmap, El. done.
      * intros u Hu%Hr. set_solver.
      * intros i q' b' Hi. destruct (decide (i = t - front w)) as [->|Hne].
        { rewrite list_lookup_insert_eq in Hi by lia. injection Hi as <- <-.
          symmetry. apply bool_decide_eq_true. replace (front w + (t - front w)) with t by lia. set_solver. }
        rewrite list_lookup_insert_ne in Hi by done. rewrite (Hf _ _ _ Hi). apply bool_decide_ext.
        rewrite elem_of_union, elem_of_singleton. split; [by right|]. intros [?|?]; [lia|done].
      * intros u. rewrite elem_of_union, elem_of_singleton. intros [->|Hu%Hk]; lia.
    + apply lookup_ge_None in El. destruct (Nat.ltb_spec t (length (points s))); [lia|done].
Qed.

Lemma simulates_step w s o : simulates w s -> simulates (step w o) (spec_step s o).
Proof. destruct o; [apply simulates_begin|apply simulates_complete]. Qed.

Lemma simulates_run ops : simulates (run ops) (spec_run ops).
Proof.
  unfold run, spec_run. pose proof simulates_new as H. revert H. generalize new spec_new.
  induction ops as [|o ops IH]; intros w s H; simpl; [done|]. apply IH. by apply simulates_step.
Qed.

(** A ticket is finished only by a completion of it. *)
Lemma spec_finished_ops ops t : t ∈ finished (spec_run ops) -> Complete t ∈ ops.
Proof.
  unfold spec_run. assert (H : t ∈ finished spec_new -> Complete t ∈ ops) by set_solver. revert H.
  assert (Hgen : forall s, t ∈ finished (foldl spec_step s ops) -> t ∈ finished s \/ Complete t ∈ ops).
  { clear. induction ops as [|o ops IH]; intros s; simpl; [by left|].
    intros [Hs|Hs]%IH; [|right; by right]. destruct o as [p|u]; simpl in Hs; [by left|].
    destruct (u <? length (points s)); [|by left]. simpl in Hs. rewrite elem_of_union, elem_of_singleton in Hs.
    destruct Hs as [->|?]; [right; by left|by left]. }
  intros _ [H|H]%Hgen; [|done]. by apply elem_of_empty in H.
Qed.

(** What the relation says of the observable values. *)
Lemma simulates_observe w s :
  simulates w s ->
  front w = retired_count s /\ applied w = spec_applied s /\ next_ticket w = length (points s)
  /\ in_flight w = length (points s) - retired_count s.
Proof.
  intros [(ret & Hpts & Hlen & Happ) Hr Hf Hh Hk].
  assert (Hl : length (points s) = front w + length (pending w))
    by (rewrite Hpts, length_app, length_fmap; lia).
  assert (front w = retired_count s) as Hfr.
  { apply finished_run_unique; [lia|by intros; apply Hr|]. intros Hlt.
    destruct (pending w !! 0) as [[p b]|] eqn:E; [|apply lookup_ge_None in E; lia].
    specialize (Hh _ _ eq_refl). subst b. specialize (Hf _ _ _ E). rewrite Nat.add_0_r in Hf.
    by apply eq_sym, bool_decide_eq_false in Hf. }
  unfold spec_applied, next_ticket, in_flight. rewrite <- Hfr. split_and!; [done| |lia|lia].
  rewrite Hpts, <- Hlen, take_app_length. done.
Qed.

(** (C25) The watermark implements its specification: after any interleaving
    of begins and completions - completions out of order, repeated, or of
    tickets never handed out - the applied point is the last of the longest
    unbroken run of finished tickets from the first one, the next ticket is
    the number of events begun, and exactly the events after that run are in
    flight. *)
Theorem watermark_refines ops :
  let w := run ops in let s := spec_run ops in
  applied w = spec_applied s /\ next_ticket w = length (points s)
  /\ in_flight w = length (points s) - retired_count s
  /\ forall t, has_retired w t = bool_decide (t < retired_count s).
Proof.
  intros w s. destruct (simulates_observe _ _ (simulates_run ops)) as (Hf & Ha & Hn & Hi).
  split_and!; [done..|]. intros t. unfold has_retired, w. rewrite Hf. fold s.
  destruct (Nat.ltb_spec t (retired_count s)); symmetry; [by apply bool_decide_eq_true|].
  apply bool_decide_eq_false. lia.
Qed.

(** A position answered for a ticket is that of a finished ticket at or after
    it, and covers only finished tickets. *)
Lemma simulates_applied w s t p :
  simulates w s -> applied_if_retired w t = Some p ->
  exists u, t <= u /\ points s !! u = Some p /\ forall v, v <= u -> v ∈ finished s.
Proof.
  intros Hsim Hap. destruct (simulates_observe _ _ Hsim) as (Hf & Ha & _ & _).
  unfold applied_if_retired, has_retired in Hap. rewrite Hf, Ha in Hap.
  destruct (Nat.ltb_spec t (retired_count s)) as [Ht|]; [|done]. set (n := retired_count s) in *.
  assert (n <= length (points s)) by apply finished_run_bound.
  exists (n - 1). split; [lia|]. split.
  - unfold spec_applied in Hap. fold n in Hap. rewrite last_lookup, length_take, Nat.min_l in Hap by lia.
    rewrite lookup_take_lt in Hap by lia. by replace (n - 1) with (pred n) by lia.
  - intros v Hv. apply (finished_run_all (finished s) 0 (points s) v).
    change (finished_run _ 0 _) with n. lia.
Qed.

(** A crash loses nothing: a position taken as applied covers only
    finished work.  Whenever [applied_if_retired] answers for a ticket, that
    ticket and every earlier one has been completed, and the point it answers
    is that of a completed ticket at or after it. *)
Theorem applied_is_finished ops t p :
  applied_if_retired (run ops) t = Some p ->
  exists last_ticket, t <= last_ticket /\ points (spec_run ops) !! last_ticket = Some p
    /\ forall u, u <= last_ticket -> Complete u ∈ ops.
Proof.
  intros Hap. destruct (simulates_applied _ _ _ _ (simulates_run ops) Hap) as (u & Hu & Hp & Hall).
  exists u. split_and!; [done..|]. intros v Hv. by apply spec_finished_ops, Hall.
Qed.

(** Nothing is held back: once every begun event has been completed, in
    any order, nothing is in flight and the last event begun is the applied
    one. *)
Theorem all_finished_applied ops :
  (forall t, t < length (points (spec_run ops)) -> t ∈ finished (spec_run ops)) ->
  in_flight (run ops) = 0 /\ applied (run ops) = last (points (spec_run ops)).
Proof.
  intros Hall. destruct (simulates_observe _ _ (simulates_run ops)) as (_ & Ha & _ & Hi).
  assert (retired_count (spec_run ops) = length (points (spec_run ops))) as Hn.
  { symmetry. apply finished_run_unique; [done|by intros; apply Hall|lia]. }
  rewrite Hi, Ha. unfold spec_applied. rewrite Hn, take_ge by done. split; [lia|done].
Qed.

(** ** Waiting for the workers

    [wait_idle] as a state machine beside the lock-protected operations.  A
    completion that leaves nothing in flight owes a notification, which it
    gives after releasing the lock; [notify_waiters] wakes the waiters that
    are registered at that moment, and no others. *)

Inductive waiter_state : Type :=
| Top                          (* before [idle.notified()] and [enable()] *)
| Enabled (notified : bool)    (* registered, the check not yet made *)
| Awaiting (notified : bool)   (* the check failed; in [notified.await] *)
| Returned.

Record Config : Type := { mark : Watermark; owed : nat; waiter : waiter_state }.

Definition init : Config := {| mark := new; owed := 0; waiter := Top |}.

Definition wake (s : waiter_state) : waiter_state :=
  match s with
  | Enabled _ => Enabled true
  | Awaiting _ => Awaiting true
  | s => s
  end.

(** The steps of the notifier and of the waiter. *)
Inductive wait_step : Config -> Config -> Prop :=
| Notify w n s :
    wait_step {| mark := w; owed := S n; waiter := s |} {| mark := w; owed := n; waiter := wake s |}
| Enable w n :
    wait_step {| mark := w; owed := n; waiter := Top |} {| mark := w; owed := n; waiter := Enabled false |}
| CheckIdle w n b :
    in_flight w = 0 ->
    wait_step {| mark := w; owed := n; waiter := Enabled b |} {| mark := w; owed := n; waiter := Returned |}
| CheckBusy w n b :
    in_flight w <> 0 ->
    wait_step {| mark := w; owed := n; waiter := Enabled b |} {| mark := w; owed := n; waiter := Awaiting b |}
| Wake w n :
    wait_step {| mark := w; owed := n; waiter := Awaiting true |} {| mark := w; owed := n; waiter := Top |}.

Inductive config_step : Config -> Config -> Prop :=
| StepBegin w n s p :
    config_step {| mark := w; owed := n; waiter := s |} {| mark := (begin w p).1; owed := n; waiter := s |}
| StepComplete w n s t w' idle :
    handle_complete w t = (w', idle) ->
    config_step {| mark := w; owed := n; waiter := s |}
      {| mark := w'; owed := if idle then S n else n; waiter := s |}
| StepWait c c' : wait_step c c' -> config_step c c'.

(** A waiter that sleeps without a wake-up on its way sleeps for a reason. *)
Definition no_lost_wakeup (c : Config) : Prop :=
  waiter c = Awaiting false -> in_flight (mark c) <> 0 \/ owed c <> 0.

Lemma config_step_inv c c' : config_step c c' -> no_lost_wakeup c -> no_lost_wakeup c'.
Proof.
  unfold no_lost_wakeup. intros [w n s p|w n s t w' idle Hc|c0 c0' Hw] Hinv; simpl in *.
  - intros _. left. unfold in_flight, begin. simpl. rewrite length_app. simpl. lia.
  - intros Hs. unfold handle_complete in Hc. injection Hc as <- <-.
    destruct (Nat.eqb_spec (in_flight (complete w t)) 0); [by right|by left].
  - destruct Hw as [w n s|w n|w n b Hi|w n b Hi|w n]; simpl in *; try done.
    + by destruct s.
    + intros _. by left.
Qed.

Lemma reachable_no_lost_wakeup c : rtc config_step init c -> no_lost_wakeup c.
Proof.
  intros H. assert (Hinit : no_lost_wakeup init) by done. revert Hinit.
  induction H as [|c1 c2 c3 Hs _ IH]; [done|]. intros Hi. by apply IH, (config_step_inv _ _ Hs).
Qed.

(** No wake-up is lost: in every reachable state, a waiter asleep with no
    wake-up delivered has an event in flight or a notification still to come;
    and from every reachable state with nothing in flight, [wait_idle] returns
    by steps of the waiter and of owed notifications alone - no further event
    has to arrive to release it. *)
Theorem wait_idle_wakes c :
  rtc config_step init c ->
  no_lost_wakeup c
  /\ (in_flight (mark c) = 0 -> exists c', rtc wait_step c c' /\ waiter c' = Returned).
Proof.
  intros Hr%reachable_no_lost_wakeup. split; [done|]. destruct c as [w n s]. intros Hi. simpl in Hi.
  assert (Htop : forall n, exists c', rtc wait_step {| mark := w; owed := n; waiter := Top |} c'
    /\ waiter c' = Returned).
  { intros k. exists {| mark := w; owed := k; waiter := Returned |}. split; [|done].
    eapply rtc_l; [constructor|]. by eapply rtc_once, CheckIdle. }
  assert (Haw : forall n, exists c', rtc wait_step {| mark := w; owed := n; waiter := Awaiting true |} c'
    /\ waiter c' = Returned).
  { intros k. destruct (Htop k) as (c' & Hc & ?). exists c'. split; [|done].
    eapply rtc_l; [constructor|done]. }
  destruct s as [|b|[|]|]; [by apply Htop| |by apply Haw| |by eexists; split; [apply rtc_refl|]].
  - exists {| mark := w; owed := n; waiter := Returned |}. split; [by eapply rtc_once, CheckIdle|done].
  - destruct (Hr eq_refl) as [?|Ho]; [done|]. simpl in Ho. destruct n as [|n]; [done|].
    destruct (Haw n) as (c' & Hc & ?). exists c'. split; [|done]. eapply rtc_l; [constructor|done].
Qed.

(** ** Witnesses *)

Definition out_of_order : list op :=
  [Begin (V1 10); Begin (V1 20); Begin (V1 30); Complete 1; Complete 0; Complete 7].

Lemma applied_is_finished_witness :
  exists last_ticket, 0 <= last_ticket /\ points (spec_run out_of_order) !! last_ticket = Some (V1 20)
    /\ forall u, u <= last_ticket -> Complete u ∈ out_of_order.
Proof. apply (applied_is_finished out_of_order 0 (V1 20)). vm_compute. reflexivity. Defined.

Lemma all_finished_applied_witness :
  in_flight (run (out_of_order ++ [Complete 2])) = 0
  /\ applied (run (out_of_order ++ [Complete 2])) = Some (V1 30).
Proof.
  apply (all_finished_applied (out_of_order ++ [Complete 2])).
  intros t Ht. change (length _) with 3 in Ht. apply (bool_decide_unpack (t ∈ finished (spec_run (out_of_order ++ [Complete 2])))).
  destruct t as [|[|[|t]]]; [vm_compute; exact I..|lia].
Defined.

Lemma wait_idle_wakes_witness :
  exists c', rtc wait_step {| mark := complete (begin new (V1 1)).1 0; owed := 1; waiter := Awaiting false |} c'
    /\ waiter c' = Returned.
Proof.
  apply (wait_idle_wakes {| mark := complete (begin new (V1 1)).1 0; owed := 1; waiter := Awaiting false |}).
  - eapply rtc_l; [apply (StepBegin new 0 Top (V1 1))|].
    eapply rtc_l; [apply StepWait, Enable|].
    eapply rtc_l; [apply StepWait, CheckBusy; done|].
    apply rtc_once. apply (StepComplete _ 0 (Awaiting false) 0 _ true). reflexivity.
  - reflexivity.
Defined.
