(* ===== verification/ReplayFold.v ===== *)
(** * The replay fold

    [crates/happyview-source-jetstream/src/backfill/replay_fold.rs]: archive
    events are folded into the host in sequence order.  Creates and updates
    wait in a buffer and go out as batches; deletes and account or sync markers
    go out at once, after a flush when they touch something buffered.  The
    fold is owned by one task ([&mut self]), so its state is passed along; the
    host is the [Host] interface of [StreamEvent], and the theorems are proved
    for every host that can tell what it was handed ([HostLog]). *)

From stdpp Require Import gmap pretty.
From Stdlib Require Import ZArith.
From S2P Require Import Prelude Json StreamEvent.

Definition FOLD_BATCH : nat := 200.

Definition FoldError : Type := string.

Section Fold.
Context `{HOST : Host}.

(** [written] counts up by one per changed record, from zero, in a [u64]. *)
Record ReplayFold : Type := {
  host : HostState;
  job_id : string;
  tracked : list string;
  pending : list SourceEvent;
  pending_uris : gset string;
  pending_dids : gset string;
  written : nat;
  written_dids : gset string;
  collect_dids : bool;
}.

Definition new (h : HostState) (job : string) (tr : list string) : ReplayFold :=
  {| host := h; job_id := job; tracked := tr; pending := []; pending_uris := ∅; pending_dids := ∅;
     written := 0; written_dids := ∅; collect_dids := false |}.

(** [self.host.ingest..(..).await]: the host moves on, the rest stays. *)
Definition set_host (f : ReplayFold) (h : HostState) : ReplayFold :=
  {| host := h; job_id := job_id f; tracked := tracked f; pending := pending f;
     pending_uris := pending_uris f; pending_dids := pending_dids f;
     written := written f; written_dids := written_dids f; collect_dids := collect_dids f |}.

Definition collect_written_dids (f : ReplayFold) : ReplayFold :=
  {| host := host f; job_id := job_id f; tracked := tracked f; pending := pending f;
     pending_uris := pending_uris f; pending_dids := pending_dids f;
     written := written f; written_dids := written_dids f; collect_dids := true |}.

Definition take_written_dids (f : ReplayFold) : ReplayFold * gset string :=
  ({| host := host f; job_id := job_id f; tracked := tracked f; pending := pending f;
      pending_uris := pending_uris f; pending_dids := pending_dids f;
      written := written f; written_dids := ∅; collect_dids := collect_dids f |}, written_dids f).

Definition buffers (f : ReplayFold) (d : string) : bool := bool_decide (d ∈ pending_dids f).

Definition fold_origin (f : ReplayFold) : Origin := Backfill (job_id f).

Definition batch_did (e : SourceEvent) : string :=
  match e with SRecord ev => did (key ev) | _ => "" end.

Definition write_failed (o : IngestOutcome) : bool :=
  match o with Errored | Unavailable => true | _ => false end.

(** One turn of the counting loop of [flush]. *)
Definition count_change (f : ReplayFold) (change : bool * string) : ReplayFold :=
  if change.1 then
    {| host := host f; job_id := job_id f; tracked := tracked f; pending := pending f;
       pending_uris := pending_uris f; pending_dids := pending_dids f;
       written := S (written f);
       written_dids := if collect_dids f then {[change.2]} ∪ written_dids f else written_dids f;
       collect_dids := collect_dids f |}
  else f.

Definition flush (f : ReplayFold) : ReplayFold * result unit FoldError :=
  match pending f with
  | [] => (f, Ok tt)
  | batch =>
      let count := length batch in
      let dids := batch_did <$> batch in
      let '(h, (outcome, error)) := ingest_batch_with_error (host f) batch in
      let f1 :=
        {| host := h; job_id := job_id f; tracked := tracked f; pending := [];
           pending_uris := ∅; pending_dids := ∅;
           written := written f; written_dids := written_dids f; collect_dids := collect_dids f |} in
      match error with
      | Some e => (f1, Err ("writing " +:+ pretty count +:+ " replayed records failed: " +:+ e))
      | None =>
          if existsb write_failed (outcomes outcome)
          then (f1, Err ("writing " +:+ pretty count
                         +:+ " replayed records failed; see the record event log"))
          else (fold_left count_change (zip (changed outcome) dids) f1, Ok tt)
      end
  end.

(** [self.flush().await?] in front of the rest of a step, when [c] holds. *)
Definition flush_if (c : bool) (f : ReplayFold) : ReplayFold * result unit FoldError :=
  if c then flush f else (f, Ok tt).

Definition push (f : ReplayFold) (k : RecordKey) (e : SourceEvent) : ReplayFold :=
  {| host := host f; job_id := job_id f; tracked := tracked f; pending := pending f ++ [e];
     pending_uris := {[uri k]} ∪ pending_uris f; pending_dids := {[did k]} ∪ pending_dids f;
     written := written f; written_dids := written_dids f; collect_dids := collect_dids f |}.

Definition apply_delete (f : ReplayFold) (d : string) (c : CursorPoint) (commit : Commit)
    : ReplayFold * result unit FoldError :=
  let u := "at://" +:+ d +:+ "/" +:+ commit_collection commit +:+ "/" +:+ commit_rkey commit in
  match flush_if (bool_decide (u ∈ pending_uris f)) f with
  | (f1, Err e) => (f1, Err e)
  | (f1, Ok _) =>
      let e := SRecord
        {| key := {| did := d; collection := commit_collection commit; rkey := commit_rkey commit |};
           action := Delete; cid := None; rev := commit_rev commit; body := None;
           time_us := Some (cursor_time_us c); origin := fold_origin f1; stored := false |} in
      let '(h, outcome) := ingest (host f1) e in
      (set_host f1 h,
       if write_failed outcome then Err ("deleting " +:+ u +:+ " failed; see its record event log")
       else Ok tt)
  end.

Definition apply_write (f : ReplayFold) (d : string) (c : CursorPoint) (commit : Commit)
    : ReplayFold * result unit FoldError :=
  match commit_record commit with
  | None => (f, Ok tt)
  | Some record =>
      let act := if operation commit =s "update" then Update else Create in
      let k := {| did := d; collection := commit_collection commit; rkey := commit_rkey commit |} in
      let f1 := push f k (SRecord
        {| key := k; action := act; cid := commit_cid commit; rev := commit_rev commit;
           body := Some record; time_us := Some (cursor_time_us c); origin := fold_origin f;
           stored := false |}) in
      flush_if (FOLD_BATCH <=? length (pending f1)) f1
  end.

Definition marker_failed (o : IngestOutcome) : bool :=
  match o with Unavailable | Errored | Invalid => true | _ => false end.

Definition apply_marker (f : ReplayFold) (d : string) (c : CursorPoint) (k : EventKind)
    : ReplayFold * result unit FoldError :=
  match flush_if (bool_decide (d ∈ pending_dids f)) f with
  | (f1, Err e) => (f1, Err e)
  | (f1, Ok _) =>
      match marker_event d c k (Some (cursor_time_us c)) (tracked f1) with
      | None => (f1, Ok tt)
      | Some e =>
          let '(h, (outcome, error)) := ingest_with_error (host f1) e in
          (set_host f1 h, if marker_failed outcome then Err (default "" error) else Ok tt)
      end
  end.

Definition apply (f : ReplayFold) (ev : Event) : ReplayFold * result unit FoldError :=
  let d := event_did ev in
  let c := cursor ev in
  match kind ev with
  | KCommit commit =>
      if operation commit =s "delete" then apply_delete f d c commit else apply_write f d c commit
  | (KAccount _ _ | KSync _) as k => apply_marker f d c k
  | KIdentity _ => (f, Ok tt)
  end.

(** The caller's loop: [self.fold.apply(event).await?] for each event of a
    block, stopping at the first failure. *)
Fixpoint apply_all (f : ReplayFold) (evs : list Event) : ReplayFold * result unit FoldError :=
  match evs with
  | [] => (f, Ok tt)
  | ev :: evs' =>
      match apply f ev with
      | (f1, Err e) => (f1, Err e)
      | (f1, Ok _) => apply_all f1 evs'
      end
  end.

(** ** What the host is to see of an event *)

Definition translate (job : string) (tr : list string) (ev : Event) : list SourceEvent :=
  match kind ev with
  | KCommit c =>
      let k := {| did := event_did ev; collection := commit_collection c; rkey := commit_rkey c |} in
      let t := Some (cursor_time_us (cursor ev)) in
      if operation c =s "delete" then
        [SRecord {| key := k; action := Delete; cid := None; rev := commit_rev c; body := None;
                    time_us := t; origin := Backfill job; stored := false |}]
      else
        match commit_record c with
        | None => []
        | Some r =>
            [SRecord {| key := k; action := if operation c =s "update" then Update else Create;
                        cid := commit_cid c; rev := commit_rev c; body := Some r;
                        time_us := t; origin := Backfill job; stored := false |}]
        end
  | KAccount active status =>
      [SAccount (event_did ev) active status (Some (cursor_time_us (cursor ev)))
         (cursor_seq (cursor ev)) (Some (cursor_time_us (cursor ev))) None]
  | KSync r =>
      [SSync (event_did ev) r (Some (cursor_time_us (cursor ev)))
         (cursor_seq (cursor ev)) (Some (cursor_time_us (cursor ev))) (Some tr)]
  | KIdentity _ => []
  end.

(** The events whose order matters to the record [k]: its own, and the markers
    of its account. *)
Definition touches (k : RecordKey) (e : SourceEvent) : Prop :=
  match e with
  | SRecord ev => key ev = k
  | SAccount d _ _ _ _ _ _ | SSync d _ _ _ _ _ => d = did k
  | SIdentity _ _ => False
  end.

#[global] Instance touches_dec k e : Decision (touches k e).
Proof. destruct e; simpl; apply _. Defined.

(** ** The buffer invariant *)

Definition is_record (e : SourceEvent) : Prop :=
  match e with SRecord _ => True | _ => False end.
Definition event_uri (e : SourceEvent) : string :=
  match e with SRecord ev => uri (key ev) | _ => "" end.

Record buffer_inv (f : ReplayFold) : Prop := {
  inv_records : Forall is_record (pending f);
  inv_uris : pending_uris f = list_to_set (event_uri <$> pending f);
  inv_dids : pending_dids f = list_to_set (batch_did <$> pending f);
}.

Record fold_inv (f : ReplayFold) : Prop := {
  inv_buffer : buffer_inv f;
  inv_bound : length (pending f) < FOLD_BATCH;
}.

(** The fold's configuration, which no step changes. *)
Definition same_job (f f' : ReplayFold) : Prop :=
  job_id f' = job_id f /\ tracked f' = tracked f /\ collect_dids f' = collect_dids f.

Lemma same_job_refl f : same_job f f.
Proof. done. Qed.

Lemma same_job_trans f g h : same_job f g -> same_job g h -> same_job f h.
Proof. unfold same_job. intuition congruence. Qed.

Lemma count_changes_keep l f :
  let f' := fold_left count_change l f in
  host f' = host f /\ pending f' = pending f /\ pending_uris f' = pending_uris f
  /\ pending_dids f' = pending_dids f /\ same_job f f'.
Proof.
  revert f. induction l as [|[b d] l IH]; intros f; simpl; [done|].
  destruct (IH (count_change f (b, d))) as (H1 & H2 & H3 & H4 & H5).
  rewrite H1, H2, H3, H4. do 4 (split; [by destruct b|]).
  eapply same_job_trans; [|done]. by destruct b.
Qed.

(** After a flush, whatever it returned, the buffer is empty. *)
Lemma flush_clears f f' r :
  buffer_inv f -> flush f = (f', r) ->
  pending f' = [] /\ pending_uris f' = ∅ /\ pending_dids f' = ∅ /\ same_job f f'.
Proof.
  intros [_ Hu Hd]. unfold flush. destruct (pending f) as [|e b] eqn:Hp.
  - intros [= <- <-]. by rewrite Hp, Hu, Hd.
  - destruct (ingest_batch_with_error _ _) as [h [o err]].
    destruct err; [by intros [= <- <-]|].
    destruct (existsb _ _); [by intros [= <- <-]|].
    intros [= <- <-]. pose proof (count_changes_keep) as Hk.
    edestruct Hk as (_ & H2 & H3 & H4 & H5). rewrite H2, H3, H4. repeat split; apply H5.
Qed.

Lemma flush_inv f f' r : buffer_inv f -> flush f = (f', r) -> fold_inv f'.
Proof.
  intros Hf Hfl. destruct (flush_clears _ _ _ Hf Hfl) as (Hp & Hu & Hd & _).
  split; [split|]; rewrite ?Hp, ?Hu, ?Hd; simpl; [constructor|done|done|unfold FOLD_BATCH; lia].
Qed.

(** ** Delivery

    What the host has seen and what still waits, in that order. *)

Section Delivery.
Context `{HL : !HostLog HOST}.

Definition seen (f : ReplayFold) : list SourceEvent := delivered (host f) ++ pending f.

Lemma flush_seen f f' r :
  flush f = (f', r) -> delivered (host f') = seen f.
Proof.
  unfold flush, seen. destruct (pending f) as [|e b] eqn:Hp.
  - intros [= <- <-]. by rewrite app_nil_r.
  - pose proof (delivered_batch (host f) (e :: b)) as Hd.
    destruct (ingest_batch_with_error _ _) as [h [o err]]. simpl in Hd.
    destruct err; [by intros [= <- <-]|].
    destruct (existsb _ _); [by intros [= <- <-]|].
    intros [= <- <-]. by edestruct count_changes_keep as (-> & _).
Qed.

(** The two lists agree for every record, and hold the same events. *)
Definition same_for_records (l l' : list SourceEvent) : Prop :=
  l ≡ₚ l' /\ forall k, filter (touches k) l = filter (touches k) l'.

Lemma same_for_records_app l l' m : same_for_records l l' -> same_for_records (l ++ m) (l' ++ m).
Proof. intros [Hp Hf]. split; [by rewrite Hp|]. intros k. by rewrite !filter_app, Hf. Qed.

#[global] Instance same_for_records_equiv : Equivalence same_for_records.
Proof.
  split.
  - by intros l.
  - intros l l' [Hp Hf]. split; [done|]. intros k. by rewrite Hf.
  - intros l l' l'' [Hp Hf] [Hp' Hf']. split; [by rewrite Hp|]. intros k. by rewrite Hf.
Qed.

(** An event that nothing of the buffer conflicts with may overtake it. *)
Lemma overtake l b e :
  (forall k, touches k e -> filter (touches k) b = []) ->
  same_for_records ((l ++ [e]) ++ b) ((l ++ b) ++ [e]).
Proof.
  intros Hno. split.
  - rewrite <- !app_assoc. f_equiv. by rewrite Permutation_app_comm.
  - intros k. rewrite !filter_app, <- !app_assoc. f_equal.
    destruct (decide (touches k e)) as [Ht|Ht].
    + by rewrite Hno, app_nil_r.
    + by rewrite filter_cons_False, filter_nil, app_nil_r.
Qed.

Lemma filter_none (k : RecordKey) l :
  (forall e, e ∈ l -> ~ touches k e) -> filter (touches k) l = [].
Proof.
  induction l as [|e l IH]; intros Hl; [done|].
  rewrite filter_cons_False by (apply Hl; left). apply IH. intros e' He'. apply Hl. by right.
Qed.

Lemma not_buffered_uri f k r :
  fold_inv f -> uri k ∉ pending_uris f -> key r = k ->
  forall k', touches k' (SRecord r) -> filter (touches k') (pending f) = [].
Proof.
  intros [[Hr Hu _] _] Hn Hk k' Hk'. simpl in Hk'. subst k k'. apply filter_none.
  rewrite Hu in Hn. rewrite Forall_forall in *. intros e He Ht. apply Hn.
  apply elem_of_list_to_set, list_elem_of_fmap. exists e. split; [|done].
  specialize (Hr e He). destruct e; try done. simpl in *. congruence.
Qed.

Lemma not_buffered_did f d e :
  fold_inv f -> d ∉ pending_dids f ->
  (forall k, touches k e -> did k = d) ->
  forall k, touches k e -> filter (touches k) (pending f) = [].
Proof.
  intros [[Hr _ Hd] _] Hn Hk k Ht. apply filter_none. specialize (Hk k Ht).
  rewrite Hd in Hn. rewrite Forall_forall in *. intros e' He' Ht'. apply Hn.
  apply elem_of_list_to_set, list_elem_of_fmap. exists e'. split; [|done].
  specialize (Hr e' He'). destruct e'; try done. simpl in *. congruence.
Qed.

(** What one step leaves: the host and the buffer agree with the events taken
    so far, this one included unless the step failed before handing it on. *)
Definition stepped (f f' : ReplayFold) (r : result unit FoldError) (es : list SourceEvent) : Prop :=
  fold_inv f' /\ same_job f f' /\
  (same_for_records (seen f') (seen f ++ es) \/ (is_ok r = false /\ same_for_records (seen f') (seen f))).

(** A flush ahead of an event that goes out at once. *)
Lemma flush_if_spec c f f1 r :
  fold_inv f -> flush_if c f = (f1, r) ->
  fold_inv f1 /\ same_job f f1 /\ seen f1 = seen f /\
  ((c = true -> pending f1 = []) /\ (c = false -> f1 = f /\ r = Ok tt)).
Proof.
  intros Hf. unfold flush_if. destruct c; [|by intros [= <- <-]].
  intros Hfl. destruct Hf as [Hf _]. destruct (flush_clears _ _ _ Hf Hfl) as (Hp & _ & _ & Hj).
  split; [by eapply flush_inv|]. split; [done|]. split; [|done].
  unfold seen at 1. rewrite Hp, app_nil_r. by eapply flush_seen.
Qed.

Lemma direct_stepped f f1 h e r (c : bool) :
  fold_inv f1 -> same_job f f1 -> seen f1 = seen f ->
  (c = true -> pending f1 = []) -> (c = false -> f1 = f) ->
  (c = false -> forall k, touches k e -> filter (touches k) (pending f) = []) ->
  delivered h = delivered (host f1) ++ [e] ->
  stepped f (set_host f1 h) r [e].
Proof.
  intros [[? ? ?] ?] Hj Hs Hc Hnc Hno Hh. split; [by repeat split|]. split; [done|]. left.
  unfold seen in *. simpl. rewrite Hh, <- Hs. apply overtake. intros k Hk.
  destruct c; [by rewrite Hc|]. rewrite Hnc by done. by apply Hno.
Qed.

Lemma apply_delete_stepped f ev commit f' r :
  fold_inv f -> kind ev = KCommit commit -> (operation commit =s "delete") = true ->
  apply_delete f (event_did ev) (cursor ev) commit = (f', r) ->
  stepped f f' r (translate (job_id f) (tracked f) ev).
Proof.
  intros Hf Hk Hop. unfold apply_delete, translate. rewrite Hk, Hop.
  destruct (flush_if _ f) as [f1 r1] eqn:Hfl.
  destruct (flush_if_spec _ _ _ _ Hf Hfl) as (Hf1 & Hj & Hs & Hc & Hnc).
  destruct r1 as [[]|e1].
  - assert (fold_origin f1 = Backfill (job_id f)) as -> by (unfold fold_origin; by destruct Hj as (-> & _)).
    pose proof (delivered_ingest (host f1)) as Hd.
    set (e := SRecord _). specialize (Hd e). destruct (ingest _ e) as [h o]. intros [= <- <-].
    eapply direct_stepped; [done..| | |done].
    + intros Hb. by apply Hnc.
    + intros Hb. eapply not_buffered_uri; [done| |done]. by apply bool_decide_eq_false in Hb.
  - intros [= <- <-]. split; [done|]. split; [done|]. right. by rewrite Hs.
Qed.

Lemma marker_stepped f ev f' r :
  fold_inv f ->
  match kind ev with KAccount _ _ | KSync _ => True | _ => False end ->
  apply_marker f (event_did ev) (cursor ev) (kind ev) = (f', r) ->
  stepped f f' r (translate (job_id f) (tracked f) ev).
Proof.
  intros Hf Hk. unfold apply_marker, translate.
  destruct (flush_if _ f) as [f1 r1] eqn:Hfl.
  destruct (flush_if_spec _ _ _ _ Hf Hfl) as (Hf1 & Hj & Hs & Hc & Hnc).
  destruct r1 as [[]|e1].
  - assert (tracked f1 = tracked f) as -> by (by destruct Hj as (_ & -> & _)).
    pose proof (delivered_ingest_with_error (host f1)) as Hd.
    destruct (kind ev) eqn:Hkind; try done; simpl;
    match goal with |- context [ingest_with_error _ ?e] => specialize (Hd e) end;
    destruct (ingest_with_error _ _) as [h [o er]]; intros [= <- <-];
    (eapply direct_stepped; [done..|by apply Hnc| |done]);
    intros Hb; apply bool_decide_eq_false in Hb;
    (eapply not_buffered_did; [done|done|by intros k]).
  - intros [= <- <-]. split; [done|]. split; [done|]. right. by rewrite Hs.
Qed.

Lemma push_inv f r : fold_inv f -> buffer_inv (push f (key r) (SRecord r)).
Proof.
  intros [[Hr Hu Hd] _]. split; simpl; rewrite ?fmap_app, ?list_to_set_app_L, ?Hu, ?Hd; simpl.
  - apply Forall_app. split; [done|repeat constructor].
  - set_solver.
  - set_solver.
Qed.

Lemma apply_write_stepped f ev commit f' r :
  fold_inv f -> kind ev = KCommit commit -> (operation commit =s "delete") = false ->
  apply_write f (event_did ev) (cursor ev) commit = (f', r) ->
  stepped f f' r (translate (job_id f) (tracked f) ev).
Proof.
  intros Hf Hk Hop. unfold apply_write, translate. rewrite Hk, Hop.
  destruct (commit_record commit) as [record|]; [|by intros [= <- <-]; repeat split; [apply Hf..|left; by rewrite app_nil_r]].
  set (k := {| did := _ |}). set (rec := {| key := k |}).
  pose proof (push_inv f rec Hf) as Hb. change (key rec) with k in Hb.
  assert (seen (push f k (SRecord rec)) = seen f ++ [SRecord rec]) as Hs by (by unfold seen; simpl; rewrite app_assoc).
  set (f1 := push _ _ _) in *. unfold flush_if. destruct (Nat.leb_spec FOLD_BATCH (length (pending f1))).
  - intros Hfl. destruct (flush_clears _ _ _ Hb Hfl) as (Hp & _ & _ & Hj).
    split; [by eapply flush_inv|]. split; [by eapply same_job_trans|]. left.
    unfold seen at 1. by rewrite Hp, app_nil_r, (flush_seen _ _ _ Hfl), Hs.
  - intros [= <- <-]. split; [by split|]. split; [done|]. left. by rewrite Hs.
Qed.

Lemma apply_stepped f ev f' r :
  fold_inv f -> apply f ev = (f', r) -> stepped f f' r (translate (job_id f) (tracked f) ev).
Proof.
  intros Hf. unfold apply. destruct (kind ev) as [c|h|a st|rv] eqn:Hk.
  - destruct (operation c =s "delete") eqn:Hop; [by eapply apply_delete_stepped|by eapply apply_write_stepped].
  - intros [= <- <-]. unfold translate. rewrite Hk. split; [done|]. split; [done|]. left. by rewrite app_nil_r.
  - rewrite <- Hk. apply marker_stepped; [done|by rewrite Hk].
  - rewrite <- Hk. apply marker_stepped; [done|by rewrite Hk].
Qed.

(** The events of a block as the host is to see them. *)
Definition translate_all (f : ReplayFold) (evs : list Event) : list SourceEvent :=
  evs ≫= translate (job_id f) (tracked f).

Lemma translate_all_same f f' evs : same_job f f' -> translate_all f' evs = translate_all f evs.
Proof. unfold translate_all. by intros (-> & -> & _). Qed.

Lemma apply_all_stepped evs f f' r :
  fold_inv f -> apply_all f evs = (f', r) ->
  fold_inv f' /\ same_job f f' /\
  exists n, n <= length evs /\ same_for_records (seen f') (seen f ++ translate_all f (take n evs))
    /\ (r = Ok tt -> n = length evs).
Proof.
  revert f. induction evs as [|ev evs IH]; intros f Hf; simpl.
  - intros [= <- <-]. repeat split; [apply Hf..|]. exists 0. split; [done|]. simpl. by rewrite app_nil_r.
  - destruct (apply f ev) as [f1 [[]|e]] eqn:Ha;
      destruct (apply_stepped _ _ _ _ Hf Ha) as (Hf1 & Hj & Hs).
    + destruct Hs as [Hs|[? _]]; [|done]. intros Hrest.
      destruct (IH f1 Hf1 Hrest) as (Hf' & Hj' & n & Hn & Hs' & Hr).
      split; [done|]. split; [by eapply same_job_trans|]. exists (S n). split; [lia|]. split; [|intros; rewrite Hr by done; lia].
      rewrite Hs', (translate_all_same _ _ _ Hj). unfold translate_all. simpl. rewrite app_assoc.
      by apply same_for_records_app.
    + intros [= <- <-]. split; [done|]. split; [done|].
      destruct Hs as [Hs|[_ Hs]]; [exists 1|exists 0]; (split; [lia|]); (split; [|done]);
        rewrite Hs; unfold translate_all; simpl; by rewrite ?app_nil_r.
Qed.

(** The run of a job: the events of its blocks until one fails, then the
    flush that [run] does whether or not one did. *)
Definition replay (h : HostState) (job : string) (tr : list string) (evs : list Event)
    : ReplayFold * result unit FoldError * result unit FoldError :=
  let '(f, r) := apply_all (new h job tr) evs in
  let '(f', flushed) := flush f in
  (f', r, flushed).

Lemma new_inv h job tr : fold_inv (new h job tr).
Proof. repeat split; simpl; [constructor|unfold FOLD_BATCH; lia]. Qed.

Lemma replay_effect h job tr evs f r flushed :
  replay h job tr evs = (f, r, flushed) ->
  pending f = [] /\
  exists n, n <= length evs /\ (r = Ok tt -> n = length evs) /\
    delivered (host f) ≡ₚ delivered h ++ (take n evs ≫= translate job tr) /\
    forall k, filter (touches k) (delivered (host f))
              = filter (touches k) (delivered h ++ (take n evs ≫= translate job tr)).
Proof.
  unfold replay. destruct (apply_all _ evs) as [f1 r1] eqn:Ha. destruct (flush f1) as [f2 r2] eqn:Hf.
  intros [= <- <- <-].
  destruct (apply_all_stepped _ _ _ _ (new_inv h job tr) Ha) as (Hi & _ & n & Hn & [Hp Ho] & Hr).
  rewrite (flush_seen _ _ _ Hf). split; [by eapply flush_clears; [apply Hi|]|].
  unfold seen at 2 in Hp. unfold translate_all in *. simpl in *. rewrite app_nil_r in Hp.
  exists n. repeat split; [done..|]. intros k. rewrite Ho. unfold seen. simpl. by rewrite app_nil_r.
Qed.

(** (C23) Nothing is lost, repeated or reordered where order matters.  After a
    replay the host has been handed, on top of what it had, exactly the images
    of the first [n] events, and for every record its own writes and deletes
    and its account's markers came in the order of the archive; without an
    error these are all the events, and nothing is left in the buffer. *)
Theorem replay_delivers_in_order h job tr evs f r flushed :
  replay h job tr evs = (f, r, flushed) ->
  pending f = [] /\
  exists n, n <= length evs /\ (r = Ok tt -> n = length evs) /\
    delivered (host f) ≡ₚ delivered h ++ (take n evs ≫= translate job tr) /\
    forall k, filter (touches k) (delivered (host f))
              = filter (touches k) (delivered h ++ (take n evs ≫= translate job tr)).
Proof.
  apply replay_effect.
Qed.

End Delivery.

(** ** The counters *)

Definition changes (dids : list string) (flags : list bool) : list string :=
  snd <$> filter (fun p => p.1 = true) (zip flags dids).

Lemma count_changes_spec l f :
  let f' := fold_left count_change l f in
  let ds := snd <$> filter (fun p => p.1 = true) l in
  written f' = written f + length ds
  /\ written_dids f' = if collect_dids f then list_to_set ds ∪ written_dids f else written_dids f.
Proof.
  revert f. induction l as [|[b d] l IH]; intros f; cbn [fold_left].
  - simpl. split; [lia|]. destruct (collect_dids f); set_solver.
  - destruct (IH (count_change f (b, d))) as [-> ->]. destruct b.
    + rewrite filter_cons_True by done. rewrite fmap_cons. simpl. split; [lia|]. destruct (collect_dids f); set_solver.
    + rewrite filter_cons_False by done. done.
Qed.

(** A flush that succeeds hands over the whole buffer as one batch and
    counts exactly the records the host reports as changed; a retry run also
    keeps their DIDs.  One that fails counts nothing. *)
Theorem flush_counts f f' r :
  pending f <> [] -> flush f = (f', r) ->
  let outcome := (ingest_batch_with_error (host f) (pending f)).2.1 in
  let error := (ingest_batch_with_error (host f) (pending f)).2.2 in
  let ds := changes (batch_did <$> pending f) (changed outcome) in
  (r = Ok tt <-> error = None /\ forall o, o ∈ outcomes outcome -> o <> Errored /\ o <> Unavailable)
  /\ (r = Ok tt -> written f' = written f + length ds
        /\ written_dids f' = if collect_dids f then list_to_set ds ∪ written_dids f else written_dids f)
  /\ (r <> Ok tt -> written f' = written f /\ written_dids f' = written_dids f).
Proof.
  intros Hne. unfold flush. destruct (pending f) as [|e b]; [done|].
  set (batch := e :: b). destruct (ingest_batch_with_error _ _) as [h [o [er|]]]; simpl.
  - intros [= <- <-]. split; [split; [done|by intros [? _]]|]. done.
  - destruct (existsb write_failed (outcomes o)) eqn:Hw; intros [= <- <-].
    + split; [|done]. split; [done|]. intros [_ Hall]. apply existsb_elem in Hw as (x & Hx & Hf).
      destruct (Hall x Hx). by destruct x.
    + split; [|split; [|done]].
      * split; [|done]. intros _. split; [done|]. intros x Hx.
        destruct (write_failed x) eqn:Hf; [|by destruct x].
        rewrite (proj2 (existsb_elem _ _)) in Hw; [done|by exists x].
      * intros _. by destruct (count_changes_spec (zip (changed o) (batch_did <$> batch))
          {| host := h; job_id := job_id f; tracked := tracked f; pending := [];
             pending_uris := ∅; pending_dids := ∅;
             written := written f; written_dids := written_dids f; collect_dids := collect_dids f |}).
Qed.

(** ** Every use of a fold *)

Inductive fold_step : ReplayFold -> ReplayFold -> Prop :=
| step_apply f ev f' r : apply f ev = (f', r) -> fold_step f f'
| step_flush f f' r : flush f = (f', r) -> fold_step f f'
| step_collect f : fold_step f (collect_written_dids f)
| step_take f : fold_step f (take_written_dids f).1.

End Fold.

Section Uses.
Context `{HL : HostLog}.

Lemma fold_step_inv f f' : fold_step f f' -> fold_inv f -> fold_inv f'.
Proof.
  intros Hs Hf. destruct Hs as [f ev f' r Ha|f f' r Ha|f|f].
  - by destruct (apply_stepped _ _ _ _ Hf Ha).
  - eapply flush_inv; [apply Hf|done].
  - by destruct Hf as [[]].
  - by destruct Hf as [[]].
Qed.

(** However a fold is used, fewer than a batch of records wait, and
    [buffers] answers exactly whether one of them belongs to the account. *)
Theorem buffer_invariant h job tr f :
  rtc fold_step (new h job tr) f ->
  length (pending f) < FOLD_BATCH
  /\ (forall e, e ∈ pending f -> exists ev, e = SRecord ev)
  /\ forall d, buffers f d = true <-> exists ev, SRecord ev ∈ pending f /\ did (key ev) = d.
Proof.
  intros Hr. assert (fold_inv f) as [[Hrec _ Hd] Hb].
  { pose proof (new_inv h job tr) as Hn. revert Hn. induction Hr; [done|].
    intros. by eapply IHHr, fold_step_inv. }
  assert (forall e, e ∈ pending f -> exists ev, e = SRecord ev) as Hev.
  { rewrite Forall_forall in Hrec. intros e He. specialize (Hrec e He). destruct e; try done. by eexists. }
  split; [done|]. split; [done|]. intros d. unfold buffers.
  rewrite bool_decide_eq_true, Hd, elem_of_list_to_set, list_elem_of_fmap. split.
  - intros (e & -> & He). destruct (Hev e He) as [ev ->]. by exists ev.
  - intros (ev & He & <-). by exists (SRecord ev).
Qed.

End Uses.

(** ** A concrete host

    It keeps what it is handed, cannot delete for one account, and reports
    every record of a batch as written. *)

Definition fails_for (e : SourceEvent) : bool :=
  match e with SRecord ev => did (key ev) =s "did:plc:broken" | _ => false end.

#[local] Instance listing_host : Host := {|
  HostState := list SourceEvent;
  ingest h e := (h ++ [e], if fails_for e then Errored else Matched);
  ingest_with_error h e := (h ++ [e], (Matched, None));
  ingest_batch_with_error h b :=
    (h ++ b, ({| outcomes := (fun _ => Matched) <$> b; changed := (fun _ => true) <$> b |}, None));
|}.

#[local] Instance listing_host_log : HostLog listing_host.
Proof. exists (fun h : HostState => h); done. Defined.

Definition commit_at (op d r : string) (seq : Z) : Event :=
  {| event_did := d; cursor := V2 seq (seq * 10);
     kind := KCommit {| commit_rev := None; operation := op; commit_collection := "com.example.post";
                        commit_rkey := r; commit_record := Some VNull; commit_cid := None |} |}.
Definition account_at (d : string) (seq : Z) : Event :=
  {| event_did := d; cursor := V2 seq (seq * 10); kind := KAccount false (Some "deleted") |}.

Definition block : list Event :=
  [commit_at "create" "did:plc:a" "1" 1; commit_at "delete" "did:plc:b" "1" 2;
   commit_at "delete" "did:plc:a" "1" 3; commit_at "create" "did:plc:a" "2" 4;
   account_at "did:plc:b" 5; account_at "did:plc:a" 6; commit_at "create" "did:plc:a" "3" 7].

Definition fresh : ReplayFold := new (HOST := listing_host) [] "job" [].

Definition block_run : ReplayFold * result unit FoldError * result unit FoldError :=
  replay (host fresh) "job" [] block.

Lemma triple_eta {A B C} (x : A * B * C) : x = (x.1.1, x.1.2, x.2).
Proof. by destruct x as [[]]. Defined.

Lemma replay_delivers_in_order_witness :
  block_run.1.2 = Ok tt /\ pending block_run.1.1 = []
  /\ delivered (host block_run.1.1) ≡ₚ block ≫= translate "job" []
  /\ delivered (host block_run.1.1) <> block ≫= translate "job" [].
Proof.
  assert (block_run.1.2 = Ok tt) as Hok by (vm_compute; reflexivity).
  destruct (replay_delivers_in_order (host fresh) "job" [] block block_run.1.1 block_run.1.2 block_run.2
              (triple_eta _)) as (Hp & n & _ & Hn & Hperm & _).
  split; [exact Hok|]. split; [exact Hp|]. split; [|vm_compute; discriminate].
  rewrite (Hn Hok) in Hperm. exact Hperm.
Defined.

(** Three writes wait after the third event of a block without a conflict. *)
Definition three_waiting : ReplayFold :=
  (apply_all (collect_written_dids fresh)
     [commit_at "create" "did:plc:a" "1" 1; commit_at "update" "did:plc:b" "1" 2;
      commit_at "create" "did:plc:a" "2" 3]).1.

Lemma flush_counts_witness :
  written (flush three_waiting).1 = 3
  /\ written_dids (flush three_waiting).1 = {["did:plc:a"; "did:plc:b"]}.
Proof.
  destruct (flush_counts three_waiting (flush three_waiting).1 (flush three_waiting).2) as (_ & Hok & _).
  - vm_compute; discriminate.
  - apply surjective_pairing.
  - assert ((flush three_waiting).2 = Ok tt) as H by (vm_compute; reflexivity).
    destruct (Hok H) as [Hw Hd]. split; [rewrite Hw; vm_compute; reflexivity|].
    rewrite Hd. vm_compute. reflexivity.
Defined.

Lemma buffer_invariant_witness :
  length (pending (apply_all fresh [commit_at "create" "did:plc:a" "1" 1]).1) < FOLD_BATCH.
Proof.
  apply (buffer_invariant (host fresh) "job" []). eapply rtc_l; [|apply rtc_refl].
  apply (step_apply _ (commit_at "create" "did:plc:a" "1" 1) _ (Ok tt)). vm_compute. reflexivity.
Defined.
