(* ===== verification/Workers.v ===== *)
(** * The worker pool

    [crates/happyview-source-jetstream/src/consumer/workers.rs]: each event
    goes to the worker its DID hashes to, which applies its queue in order and
    retries a failed event in place; its ticket completes once the event is
    applied or given up.

    The reader and the workers are tasks that share the watermark, so a run of
    the pool is a sequence of labelled steps, each what one task does between
    two points where another can run ([step]).  What applying an event comes
    to is the host's choice: it is part of the label, and the theorems hold
    for every choice.  The hash behind [DefaultHasher] is a parameter.
    Waiting is left out of the states (a step may come any time after the one
    before it); the length of the waits is [unavailable_delay] and the delays
    that [attempt_step] returns. *)

From stdpp Require Import gmap sorting.
From Stdlib Require Import ZArith NArith.
From S2P Require Import Prelude Json StreamEvent Watermark.

(** ** Retries *)

Inductive ApplyOutcome : Type :=
| Applied
| Failed (error : string)
| Unavailable (error : string).

(** What an awaited [catch_unwind] gives: the outcome, or the panic's message. *)
Inductive attempt : Type :=
| Returns (o : ApplyOutcome)
| Panics (message : string).

(** Durations are in nanoseconds. *)
Definition Duration : Type := N.
Definition from_secs (s : N) : Duration := (s * 1000000000)%N.

Definition MAX_UNAVAILABLE_DELAY : Duration := from_secs 30.

Record RetryPolicy : Type := { delays : list Duration; max_unavailable_delay : Duration }.

Definition default_policy : RetryPolicy :=
  {| delays := from_secs <$> [1; 2; 4; 8; 16]%N; max_unavailable_delay := MAX_UNAVAILABLE_DELAY |}.

Definition unavailable_delay (policy : RetryPolicy) (retry : nat) : Duration :=
  let delay :=
    match delays policy !! retry with
    | Some d => d
    | None => default (max_unavailable_delay policy) (last (delays policy))
    end in
  N.min delay (max_unavailable_delay policy).

(** The loop state of [apply_with_retries], and what an attempt leads to. *)
Record Retrying : Type := { delays_left : list Duration; unavailable_retries : nat }.

Definition first_try (policy : RetryPolicy) : Retrying :=
  {| delays_left := delays policy; unavailable_retries := 0 |}.

Inductive verdict : Type :=
| Done
| Again (wait : Duration) (r : Retrying)
| GivesUp (error : string).

Definition after_failure (r : Retrying) (error : string) : verdict :=
  match delays_left r with
  | [] => GivesUp error
  | delay :: rest => Again delay {| delays_left := rest; unavailable_retries := unavailable_retries r |}
  end.

Definition attempt_step (policy : RetryPolicy) (r : Retrying) (a : attempt) : verdict :=
  match a with
  | Returns Applied => Done
  | Returns (Unavailable _) =>
      Again (unavailable_delay policy (unavailable_retries r))
        {| delays_left := delays_left r; unavailable_retries := S (unavailable_retries r) |}
  | Returns (Failed error) => after_failure r error
  | Panics message => after_failure r ("panicked: " +:+ message)
  end.

(** [apply_with_retries] against the outcomes of its attempts in turn: the
    verdict that ends the loop and the waits before it, or [None] while the
    given attempts do not end it. *)
Fixpoint apply_with_retries (policy : RetryPolicy) (r : Retrying) (l : list attempt)
    : option (verdict * list Duration) :=
  match l with
  | [] => None
  | a :: l' =>
      match attempt_step policy r a with
      | Again wait r' =>
          match apply_with_retries policy r' l' with
          | Some (v, waits) => Some (v, wait :: waits)
          | None => None
          end
      | v => Some (v, [])
      end
  end.

(** ** The pool *)

Record Job : Type := { ticket : nat; event : Event }.

(** What a worker has in hand: nothing, an event it applies or retries, one it
    is giving up on, or one that only its ticket is left of. *)
Inductive Hand : Type :=
| Waiting
| Trying (j : Job) (r : Retrying)
| GivingUp (j : Job) (error : string)
| Finishing (j : Job).

Definition IDLE : Z := (- 2 ^ 63)%Z.

(** [depth] and [busy_since] are the worker's shared counters; [stopped] is a
    task that was aborted, whose receiver is gone. *)
Record Worker : Type := {
  queue : list Job; hand : Hand; depth : Z; busy_since : Z; stopped : bool
}.

Definition new_worker : Worker :=
  {| queue := []; hand := Waiting; depth := 0; busy_since := IDLE; stopped := false |}.

(** What the workers do to the world, in the order they do it. *)
Inductive Effect : Type :=
| Tried (j : Job) (a : attempt)
| GaveUp (j : Job) (error : string)
| Dropped (j : Job).

Definition job_of (x : Effect) : Job :=
  match x with Tried j _ | GaveUp j _ | Dropped j => j end.

(** [begun] and [trace] are history: the events given a ticket, in ticket
    order, and the effects so far.  [sending] is the job the reader is in
    [dispatch] with. *)
Record Pool : Type := {
  workers : list Worker;
  capacity : nat;
  policy : RetryPolicy;
  mark : Watermark;
  sending : option Job;
  begun : list Event;
  trace : list Effect;
}.

Definition spawn (n cap : nat) (retry : RetryPolicy) : Pool :=
  {| workers := replicate (Nat.max n 1) new_worker; capacity := Nat.max cap 1; policy := retry;
     mark := Watermark.new; sending := None; begun := []; trace := [] |}.

Definition busy_since_values (p : Pool) : list (option Z) :=
  (fun w => if (busy_since w =? IDLE)%Z then None else Some (busy_since w)) <$> workers p.

(** Dropping the pool aborts every task and clears the shared counters. *)
Definition drop_pool (p : Pool) : Pool :=
  {| workers := (fun _ => {| queue := []; hand := Waiting; depth := 0; busy_since := IDLE; stopped := true |})
                  <$> workers p;
     capacity := capacity p; policy := policy p; mark := mark p; sending := sending p;
     begun := begun p; trace := trace p |}.

Section Pool.
Variable hash : string -> N.

Definition worker_for (d : string) (n : nat) : nat :=
  N.to_nat (hash d mod N.of_nat (Nat.max n 1)).

Definition owner (n : nat) (e : Event) : nat := worker_for (event_did e) n.

(** The steps.  [Read], [Send] and [SendFailed] are the reader's: the ticket
    and the depth counter of a new event, and the two ends of [send]; the rest
    are a worker's. *)
Inductive Label : Type :=
| Read (e : Event)
| Send
| SendFailed
| Recv (i : nat) (now : Z)
| Attempt (i : nat) (a : attempt)
| GiveUp (i : nat)
| Finish (i : nat)
| Stop (i : nat).

Definition set_worker (p : Pool) (i : nat) (w : Worker) (m : Watermark) (fx : list Effect) : Pool :=
  {| workers := <[i := w]> (workers p); capacity := capacity p; policy := policy p; mark := m;
     sending := sending p; begun := begun p; trace := trace p ++ fx |}.

Definition set_hand (w : Worker) (h : Hand) : Worker :=
  {| queue := queue w; hand := h; depth := depth w; busy_since := busy_since w; stopped := stopped w |}.

Definition add_depth (w : Worker) (n : Z) : Worker :=
  {| queue := queue w; hand := hand w; depth := depth w + n; busy_since := busy_since w;
     stopped := stopped w |}.

(** [watermark.begin] and the first line of [dispatch]. *)
Definition read (p : Pool) (e : Event) : option Pool :=
  match sending p with
  | Some _ => None
  | None =>
      let i := owner (length (workers p)) e in
      let '(m, t) := begin (mark p) (cursor e) in
      w ← workers p !! i;
      Some {| workers := <[i := add_depth w 1]> (workers p); capacity := capacity p; policy := policy p;
              mark := m; sending := Some {| ticket := t; event := e |};
              begun := begun p ++ [e]; trace := trace p |}
  end.

(** [send(job).await] once the queue has room. *)
Definition send (p : Pool) : option Pool :=
  j ← sending p;
  let i := owner (length (workers p)) (event j) in
  w ← workers p !! i;
  if negb (stopped w) && (length (queue w) <? capacity p) then
    Some {| workers := <[i := {| queue := queue w ++ [j]; hand := hand w; depth := depth w;
                                 busy_since := busy_since w; stopped := stopped w |}]> (workers p);
            capacity := capacity p; policy := policy p; mark := mark p; sending := None;
            begun := begun p; trace := trace p |}
  else None.

(** [send(job).await] to a worker that is gone. *)
Definition send_failed (p : Pool) : option Pool :=
  j ← sending p;
  let i := owner (length (workers p)) (event j) in
  w ← workers p !! i;
  if stopped w then
    Some {| workers := <[i := add_depth w (-1)]> (workers p);
            capacity := capacity p; policy := policy p; mark := complete (mark p) (ticket j);
            sending := None; begun := begun p; trace := trace p ++ [Dropped j] |}
  else None.

Definition recv (p : Pool) (i : nat) (now : Z) : option Pool :=
  w ← workers p !! i;
  if stopped w then None else
  match hand w, queue w with
  | Waiting, j :: rest =>
      Some (set_worker p i {| queue := rest; hand := Trying j (first_try (policy p)); depth := depth w - 1;
                              busy_since := now; stopped := false |} (mark p) [])
  | _, _ => None
  end.

Definition try (p : Pool) (i : nat) (a : attempt) : option Pool :=
  w ← workers p !! i;
  if stopped w then None else
  match hand w with
  | Trying j r =>
      let h := match attempt_step (policy p) r a with
               | Done => Finishing j
               | Again _ r' => Trying j r'
               | GivesUp error => GivingUp j error
               end in
      Some (set_worker p i (set_hand w h) (mark p) [Tried j a])
  | _ => None
  end.

(** [on_give_up]; a panic in it is caught and logged. *)
Definition on_give_up (p : Pool) (i : nat) : option Pool :=
  w ← workers p !! i;
  if stopped w then None else
  match hand w with
  | GivingUp j error => Some (set_worker p i (set_hand w (Finishing j)) (mark p) [GaveUp j error])
  | _ => None
  end.

Definition finish (p : Pool) (i : nat) : option Pool :=
  w ← workers p !! i;
  if stopped w then None else
  match hand w with
  | Finishing j =>
      Some (set_worker p i {| queue := queue w; hand := Waiting; depth := depth w; busy_since := IDLE;
                              stopped := false |} (complete (mark p) (ticket j)) [])
  | _ => None
  end.

(** The task is aborted: its queue and what it had in hand are gone. *)
Definition stop (p : Pool) (i : nat) : option Pool :=
  w ← workers p !! i;
  Some (set_worker p i {| queue := []; hand := Waiting; depth := depth w; busy_since := busy_since w;
                          stopped := true |} (mark p) []).

Definition step (p : Pool) (l : Label) : option Pool :=
  match l with
  | Read e => read p e
  | Send => send p
  | SendFailed => send_failed p
  | Recv i now => recv p i now
  | Attempt i a => try p i a
  | GiveUp i => on_give_up p i
  | Finish i => finish p i
  | Stop i => stop p i
  end.

Fixpoint run (p : Pool) (ls : list Label) : option Pool :=
  match ls with
  | [] => Some p
  | l :: ls' => p' ← step p l; run p' ls'
  end.

(** ** What a run maintains *)

(** The jobs of worker [i] that are not settled and completed: in hand, queued,
    or on their way to its queue. *)
Definition in_hand (h : Hand) : list Job :=
  match h with
  | Waiting => []
  | Trying j _ | GivingUp j _ | Finishing j => [j]
  end.

Definition arriving (n : nat) (sd : option Job) (i : nat) : list Job :=
  match sd with
  | Some j => if decide (owner n (event j) = i) then [j] else []
  | None => []
  end.

Definition line (n : nat) (sd : option Job) (i : nat) (w : Worker) : list Job :=
  in_hand (hand w) ++ queue w ++ arriving n sd i.

(** The event of ticket [t] was applied, given up on, or dropped because its
    worker was gone. *)
Definition settles (t : nat) (x : Effect) : Prop :=
  ticket (job_of x) = t /\
  match x with
  | Tried _ a => a = Returns Applied
  | GaveUp _ _ | Dropped _ => True
  end.
Definition settled (tr : list Effect) (t : nat) : Prop := exists x, x ∈ tr /\ settles t x.

Lemma settled_app tr fx t : settled tr t -> settled (tr ++ fx) t.
Proof. intros (x & Hx & ?). exists x. split; [|done]. apply elem_of_app. by left. Qed.

Record worker_ok (n : nat) (bg : list Event) (fin : gset nat) (tr : list Effect)
    (sd : option Job) (i : nat) (w : Worker) : Prop := {
  wk_line : forall j, j ∈ line n sd i w -> bg !! ticket j = Some (event j) /\ owner n (event j) = i;
  wk_sorted : StronglySorted lt (ticket <$> line n sd i w);
  wk_past : forall x j, x ∈ tr -> owner n (event (job_of x)) = i -> j ∈ line n sd i w ->
              ticket (job_of x) <= ticket j;
  wk_settled : forall j, hand w = Finishing j -> settled tr (ticket j);
  wk_kept : stopped w = false -> forall t e, bg !! t = Some e -> owner n e = i ->
              t ∈ fin \/ t ∈ ticket <$> line n sd i w;
  wk_depth : stopped w = false -> depth w = Z.of_nat (length (queue w) + length (arriving n sd i));
  wk_gone : stopped w = true -> hand w = Waiting /\ queue w = [];
}.

(** Each effect comes after all effects of its worker with smaller tickets; an
    event is tried or given up on only when the worker's earlier events are
    settled. *)
Definition trace_ok (n : nat) (bg : list Event) (tr : list Effect) : Prop :=
  forall pre y post, tr = pre ++ y :: post ->
    (forall x, x ∈ pre -> owner n (event (job_of x)) = owner n (event (job_of y)) ->
       ticket (job_of x) <= ticket (job_of y))
    /\ ((forall j, y <> Dropped j) ->
        forall t e, t < ticket (job_of y) -> bg !! t = Some e -> owner n e = owner n (event (job_of y)) ->
          settled pre t).

Record pool_ok (p : Pool) (s : Spec) : Prop := {
  pk_mark : simulates (mark p) s;
  pk_points : points s = cursor <$> begun p;
  pk_finished : forall t, t ∈ finished s -> settled (trace p) t;
  pk_known : forall x, x ∈ trace p -> begun p !! ticket (job_of x) = Some (event (job_of x));
  pk_trace : trace_ok (length (workers p)) (begun p) (trace p);
  pk_sending : forall j, sending p = Some j -> begun p !! ticket j = Some (event j);
  pk_workers : forall i w, workers p !! i = Some w ->
    worker_ok (length (workers p)) (begun p) (finished s) (trace p) (sending p) i w;
}.

(** *** The trace *)

Lemma trace_ok_snoc n bg tr y :
  trace_ok n bg tr ->
  (forall x, x ∈ tr -> owner n (event (job_of x)) = owner n (event (job_of y)) ->
     ticket (job_of x) <= ticket (job_of y)) ->
  ((forall j, y <> Dropped j) ->
   forall t e, t < ticket (job_of y) -> bg !! t = Some e -> owner n e = owner n (event (job_of y)) ->
     settled tr t) ->
  trace_ok n bg (tr ++ [y]).
Proof.
  intros Htr Hle Hset pre y' post Heq.
  destruct post as [|z post _] using rev_ind.
  - apply app_inj_tail in Heq as [<- <-]. done.
  - rewrite app_comm_cons, app_assoc in Heq. apply app_inj_tail in Heq as [Heq _].
    exact (Htr _ _ _ Heq).
Qed.

Lemma trace_ok_begun n bg tr e :
  (forall x, x ∈ tr -> bg !! ticket (job_of x) = Some (event (job_of x))) ->
  trace_ok n bg tr -> trace_ok n (bg ++ [e]) tr.
Proof.
  intros Hk Htr pre y post Heq. destruct (Htr _ _ _ Heq) as [H1 H2]. split; [done|].
  intros Hy t e' Ht Hl Ho. apply (H2 Hy t e'); [done| |done].
  assert (y ∈ tr) as Hin%Hk by (subst tr; apply elem_of_app; right; left).
  apply lookup_lt_Some in Hin. by rewrite lookup_app_l in Hl by lia.
Qed.

(** *** One worker *)

Lemma worker_ok_mono n bg fin fin' tr fx sd i w :
  worker_ok n bg fin tr sd i w -> fin ⊆ fin' ->
  (forall x, x ∈ fx -> owner n (event (job_of x)) <> i) ->
  worker_ok n bg fin' (tr ++ fx) sd i w.
Proof.
  intros [H1 H2 H3 H4 H5 H6 H7] Hf Hx. split; try done.
  - intros x j [Hin|Hin]%elem_of_app Ho; [by apply H3|]. by destruct (Hx x Hin).
  - intros j Hj. by apply settled_app, H4.
  - intros Hs t e Ht Ho. destruct (H5 Hs t e Ht Ho) as [?|?]; [left; set_solver|by right].
Qed.

(** Only the sender's own worker sees what is being sent. *)
Lemma worker_ok_sending n bg fin tr sd sd' i w :
  arriving n sd i = arriving n sd' i ->
  worker_ok n bg fin tr sd i w -> worker_ok n bg fin tr sd' i w.
Proof.
  intros Ha [H1 H2 H3 H4 H5 H6 H7].
  assert (line n sd i w = line n sd' i w) as Hl by (unfold line; by rewrite Ha).
  rewrite Hl in *. rewrite Ha in *. by split.
Qed.

Lemma worker_ok_begun n bg fin tr sd i w e :
  owner n e <> i -> worker_ok n bg fin tr sd i w -> worker_ok n (bg ++ [e]) fin tr sd i w.
Proof.
  intros Hne [H1 H2 H3 H4 H5 H6 H7]. split; try done.
  - intros j Hj. destruct (H1 j Hj) as [Hl ?]. split; [|done]. by apply lookup_app_l_Some.
  - intros Hs t e' Ht Ho. apply lookup_app_Some in Ht as [Ht|[_ Ht]]; [by apply H5 with e'|].
    apply list_lookup_singleton_Some in Ht as [_ <-]. done.
Qed.

Lemma arriving_other n j i : owner n (event j) <> i -> arriving n (Some j) i = [].
Proof. intros ?. simpl. by case_decide. Qed.

Lemma arriving_own n j : arriving n (Some j) (owner n (event j)) = [j].
Proof. simpl. by case_decide. Qed.

(** A step of worker [i] alone that takes finished tickets, if any, from the
    head of its line. *)
Lemma worker_ok_step n bg fin fin' tr fx sd i w w' :
  worker_ok n bg fin tr sd i w ->
  (exists l, line n sd i w = l ++ line n sd i w') ->
  fin ⊆ fin' ->
  (forall x j, x ∈ fx -> j ∈ line n sd i w' -> ticket (job_of x) <= ticket j) ->
  (forall j, hand w' = Finishing j -> settled (tr ++ fx) (ticket j)) ->
  (stopped w' = true -> hand w' = Waiting /\ queue w' = []) ->
  (stopped w' = false -> stopped w = false
     /\ (forall t, t ∈ ticket <$> line n sd i w -> t ∈ fin' \/ t ∈ ticket <$> line n sd i w')
     /\ (depth w' - Z.of_nat (length (queue w')) = depth w - Z.of_nat (length (queue w)))%Z) ->
  worker_ok n bg fin' (tr ++ fx) sd i w'.
Proof.
  intros [H1 H2 H3 H4 H5 H6 H7] [l Hl] Hf Hx Hfin Hgone Hst.
  assert (forall j, j ∈ line n sd i w' -> j ∈ line n sd i w) as Hin
    by (intros j Hj; rewrite Hl; apply elem_of_app; by right).
  split.
  - intros j Hj. by apply H1, Hin.
  - rewrite Hl, fmap_app in H2. by apply StronglySorted_app_1_r in H2.
  - intros x j [Hxt|Hxt]%elem_of_app Ho Hj; [|by apply Hx]. by apply H3; [| |apply Hin].
  - done.
  - intros Hs t e Ht Ho. destruct (Hst Hs) as (Hs' & Hk & _).
    destruct (H5 Hs' t e Ht Ho) as [?|?%Hk]; [left; set_solver|done].
  - intros Hs. destruct (Hst Hs) as (Hs' & _ & Hd). specialize (H6 Hs'). lia.
  - done.
Qed.

(** *** The pool *)

(** The specification of the watermark along with the pool: a completion is
    allowed only for a settled ticket. *)
Lemma pool_complete p s fx t :
  pool_ok p s -> settled (trace p ++ fx) t -> t < length (begun p) ->
  let s' := spec_step s (Complete t) in
  simulates (complete (mark p) t) s' /\ points s' = cursor <$> begun p
  /\ finished s' = {[t]} ∪ finished s
  /\ forall u, u ∈ finished s' -> settled (trace p ++ fx) u.
Proof.
  intros [Hm Hp Hf _ _ _ _] Ht Hlt s'.
  assert (s' = {| points := points s; finished := {[t]} ∪ finished s |}) as Hs'.
  { unfold s'. simpl. rewrite (proj2 (Nat.ltb_lt t (length (points s)))); [done|].
    by rewrite Hp, length_fmap. }
  split; [by apply simulates_complete|]. rewrite Hs'. simpl. split; [done|]. split; [done|].
  intros u [->%elem_of_singleton|Hu]%elem_of_union; [done|]. by apply settled_app, Hf.
Qed.

(** A step of worker [i] that extends the trace by [fx] and may complete
    settled tickets. *)
Lemma pool_ok_worker p s i w w' m s' fx :
  pool_ok p s -> workers p !! i = Some w ->
  simulates m s' -> points s' = points s -> finished s ⊆ finished s' ->
  (forall t, t ∈ finished s' -> settled (trace p ++ fx) t) ->
  (forall x, x ∈ fx -> job_of x ∈ line (length (workers p)) (sending p) i w) ->
  trace_ok (length (workers p)) (begun p) (trace p ++ fx) ->
  worker_ok (length (workers p)) (begun p) (finished s') (trace p ++ fx) (sending p) i w' ->
  pool_ok (set_worker p i w' m fx) s'.
Proof.
  intros [Hm Hp Hf Hk Ht Hs Hw] Hi Hm' Hp' Hsub Hf' Hx Ht' Hok.
  pose proof (Hw i w Hi) as [Hline _ _ _ _ _ _].
  split; simpl; rewrite ?length_insert; try done.
  - congruence.
  - intros x [?|Hin%Hx]%elem_of_app; [by apply Hk|]. by apply Hline.
  - intros i' w'' Hi'. apply list_lookup_insert_Some in Hi' as [(<- & <- & _)|[Hne Hi']]; [done|].
    apply worker_ok_mono with (finished s); [by apply Hw|done|].
    intros x Hin%Hx. destruct (Hline _ Hin) as [_ ->]. done.
Qed.

(** The first of a line: every smaller ticket of its worker is settled, and
    everything the worker did is about tickets up to it. *)
Lemma head_trace_ok p s i w j l y :
  pool_ok p s -> workers p !! i = Some w -> stopped w = false ->
  line (length (workers p)) (sending p) i w = j :: l -> job_of y = j ->
  trace_ok (length (workers p)) (begun p) (trace p ++ [y]).
Proof.
  intros [Hm Hp Hf Hk Ht Hs Hw] Hi Hst Hl Hy. pose proof (Hw i w Hi) as [H1 H2 H3 H4 H5 H6 H7].
  assert (j ∈ line (length (workers p)) (sending p) i w) as Hj by (rewrite Hl; left).
  destruct (H1 j Hj) as [_ Ho]. apply trace_ok_snoc; [done|rewrite Hy, Ho..].
  - intros x Hx Hxo. by apply H3.
  - intros _ t e Hlt Hbg Hoe. destruct (H5 Hst t e Hbg Hoe) as [Hfin|Hin]; [by apply Hf|].
    rewrite Hl in Hin, H2. simpl in Hin, H2. apply StronglySorted_inv in H2 as [_ Hall].
    rewrite Forall_forall in Hall. apply elem_of_cons in Hin as [->|Hin%Hall]; lia.
Qed.

Lemma head_le p s i w j l :
  pool_ok p s -> workers p !! i = Some w -> line (length (workers p)) (sending p) i w = j :: l ->
  forall j', j' ∈ line (length (workers p)) (sending p) i w -> ticket j <= ticket j'.
Proof.
  intros Hp Hi Hl j'. destruct (pk_workers _ _ Hp i w Hi) as [_ H2 _ _ _ _ _]. rewrite Hl in *.
  simpl in H2. apply StronglySorted_inv in H2 as [_ Hall]. rewrite Forall_forall in Hall.
  intros [->|Hin]%elem_of_cons; [lia|]. apply Nat.lt_le_incl, Hall, list_elem_of_fmap. by exists j'.
Qed.

Lemma recv_ok p s i now p' : pool_ok p s -> recv p i now = Some p' -> pool_ok p' s.
Proof.
  intros Hp. unfold recv. destruct (workers p !! i) as [w|] eqn:Hi; simpl; [|done].
  destruct (stopped w) eqn:Hst; [done|]. destruct (hand w) eqn:Hh; try done.
  destruct (queue w) as [|j rest] eqn:Hq; [done|]. intros [= <-].
  pose proof Hp as [Hm Hpt Hf Hk Ht Hs Hw].
  eapply pool_ok_worker; [done..|by rewrite app_nil_r|by intros ? ?%elem_of_nil|by rewrite app_nil_r|].
  eapply worker_ok_step; [by apply Hw|..].
  - exists []. unfold line. simpl. by rewrite Hh, Hq.
  - done.
  - by intros ? ? ?%elem_of_nil.
  - done.
  - done.
  - intros _. rewrite Hst. split; [done|]. unfold line. simpl. rewrite Hh, Hq. simpl. split; [by right|lia].
Qed.

(** A worker that acts on what it has in hand and keeps it there. *)
Lemma act_ok p s i w j h x :
  pool_ok p s -> workers p !! i = Some w -> stopped w = false ->
  in_hand (hand w) = [j] -> in_hand h = [j] -> job_of x = j ->
  (forall j', h = Finishing j' -> settled [x] (ticket j)) ->
  pool_ok (set_worker p i (set_hand w h) (mark p) [x]) s.
Proof.
  intros Hp Hi Hst Hj Hh Hx Hfin. pose proof Hp as [Hm Hpt Hf Hk Ht Hs Hw].
  assert (line (length (workers p)) (sending p) i w
          = j :: queue w ++ arriving (length (workers p)) (sending p) i) as Hl by (unfold line; by rewrite Hj).
  eapply pool_ok_worker; [done..| | | |].
  - intros t Ht'. by apply settled_app, Hf.
  - intros y ->%list_elem_of_singleton. rewrite Hx, Hl. left.
  - by eapply head_trace_ok.
  - eapply worker_ok_step; [by apply Hw|..].
    + exists []. unfold line. simpl. by rewrite Hh, Hj.
    + done.
    + intros y j' ->%list_elem_of_singleton. rewrite Hx. unfold line. simpl. rewrite Hh.
      intros Hj'. eapply head_le; [done..|]. by rewrite Hl.
    + intros j' Hj'. simpl in Hj'. subst h. simpl in Hh. injection Hh as ->.
      destruct (Hfin j eq_refl) as (y & Hy & ?). exists y. split; [apply elem_of_app; by right|done].
    + simpl. by rewrite Hst.
    + intros _. split; [done|]. unfold line. simpl. rewrite Hh, Hj. split; [by right|done].
Qed.

Lemma try_ok p s i a p' : pool_ok p s -> try p i a = Some p' -> pool_ok p' s.
Proof.
  intros Hp. unfold try. destruct (workers p !! i) as [w|] eqn:Hi; simpl; [|done].
  destruct (stopped w) eqn:Hst; [done|]. destruct (hand w) as [|j r| |] eqn:Hh; try done. intros [= <-].
  apply act_ok with j; try done.
  - by rewrite Hh.
  - by destruct (attempt_step _ r a).
  - destruct a as [[| |]|]; simpl; unfold after_failure;
      [|by destruct (delays_left r)|done|by destruct (delays_left r)].
    intros _ _. exists (Tried j (Returns Applied)). split; [left|done].
Qed.

Lemma give_up_ok p s i p' : pool_ok p s -> on_give_up p i = Some p' -> pool_ok p' s.
Proof.
  intros Hp. unfold on_give_up. destruct (workers p !! i) as [w|] eqn:Hi; simpl; [|done].
  destruct (stopped w) eqn:Hst; [done|]. destruct (hand w) as [| |j e|] eqn:Hh; try done. intros [= <-].
  apply act_ok with j; try done; [by rewrite Hh|].
  intros _ _. exists (GaveUp j e). split; [left|done].
Qed.

Lemma finish_ok p s i p' : pool_ok p s -> finish p i = Some p' -> exists s', pool_ok p' s'.
Proof.
  intros Hp. unfold finish. destruct (workers p !! i) as [w|] eqn:Hi; simpl; [|done].
  destruct (stopped w) eqn:Hst; [done|]. destruct (hand w) as [| | |j] eqn:Hh; try done. intros [= <-].
  pose proof Hp as [Hm Hpt Hf Hk Ht Hs Hw]. pose proof (Hw i w Hi) as [H1 _ _ H4 _ _ _].
  assert (j ∈ line (length (workers p)) (sending p) i w) as Hj by (unfold line; rewrite Hh; left).
  destruct (pool_complete p s [] (ticket j) Hp) as (Hm' & Hp' & Hfe & Hf').
  { rewrite app_nil_r. by apply H4. }
  { destruct (H1 j Hj) as [Hb _]. by apply lookup_lt_Some in Hb. }
  exists (spec_step s (Complete (ticket j))).
  eapply pool_ok_worker; [done..|by rewrite Hp', Hpt|rewrite Hfe; set_solver|done| |by rewrite app_nil_r|].
  - by intros ? ?%elem_of_nil.
  - eapply worker_ok_step; [by apply Hw|..].
    + exists [j]. unfold line. simpl. by rewrite Hh.
    + rewrite Hfe. set_solver.
    + by intros ? ? ?%elem_of_nil.
    + done.
    + done.
    + intros _. split; [done|]. split; [|done]. rewrite Hfe. unfold line. simpl. rewrite Hh. simpl.
      intros t [->|?]%elem_of_cons; [left; set_solver|by right].
Qed.

Lemma stop_ok p s i p' : pool_ok p s -> stop p i = Some p' -> pool_ok p' s.
Proof.
  intros Hp. unfold stop. destruct (workers p !! i) as [w|] eqn:Hi; simpl; [|done]. intros [= <-].
  pose proof Hp as [Hm Hpt Hf Hk Ht Hs Hw].
  eapply pool_ok_worker; [done..|by rewrite app_nil_r|by intros ? ?%elem_of_nil|by rewrite app_nil_r|].
  eapply worker_ok_step; [by apply Hw|..].
  - exists (in_hand (hand w) ++ queue w). unfold line. simpl. by rewrite <- app_assoc.
  - done.
  - by intros ? ? ?%elem_of_nil.
  - done.
  - done.
  - done.
Qed.

(** A new event joins the end of its worker's line. *)
Lemma worker_ok_arrive n bg fin tr w e j :
  j = {| ticket := length bg; event := e |} ->
  (forall x, x ∈ tr -> bg !! ticket (job_of x) = Some (event (job_of x))) ->
  worker_ok n bg fin tr None (owner n e) w ->
  worker_ok n (bg ++ [e]) fin tr (Some j) (owner n e) (add_depth w 1).
Proof.
  intros -> Hk [H1 H2 H3 H4 H5 H6 H7]. set (j := {| ticket := _ |}).
  assert (line n (Some j) (owner n e) (add_depth w 1) = line n None (owner n e) w ++ [j]) as Hl.
  { unfold line. simpl. rewrite decide_True by done. by rewrite app_nil_r, app_assoc. }
  assert (arriving n (Some j) (owner n e) = [j]) as Ha by apply (arriving_own n j).
  assert (forall k, k ∈ line n None (owner n e) w -> ticket k < length bg) as Hlt.
  { intros k Hk'. destruct (H1 k Hk') as [Hb _]. by apply lookup_lt_Some in Hb. }
  split; rewrite ?Hl, ?Ha.
  - intros k [Hk'| ->%list_elem_of_singleton]%elem_of_app.
    + destruct (H1 k Hk'). split; [by apply lookup_app_l_Some|done].
    + simpl. by rewrite lookup_app_r, Nat.sub_diag by done.
  - rewrite fmap_app. apply StronglySorted_app. split; [|split; [done|repeat constructor]].
    intros t1 t2 (k & -> & Hk')%list_elem_of_fmap ->%list_elem_of_singleton. by apply Hlt.
  - intros x k Hx Ho [Hk'| ->%list_elem_of_singleton]%elem_of_app; [by apply H3|].
    specialize (Hk x Hx). apply lookup_lt_Some in Hk. simpl. lia.
  - done.
  - intros Hs t e' Ht Ho. rewrite fmap_app, elem_of_app.
    apply lookup_app_Some in Ht as [Ht|[Hge Ht]].
    + destruct (H5 Hs t e' Ht Ho) as [?|?]; [by left|right; by left].
    + apply list_lookup_singleton_Some in Ht as [Hz _]. right. right. apply list_elem_of_singleton. simpl. lia.
  - intros Hs. specialize (H6 Hs). simpl in *. lia.
  - done.
Qed.

Lemma read_ok p s e p' : pool_ok p s -> read p e = Some p' -> exists s', pool_ok p' s'.
Proof.
  intros Hp. pose proof Hp as [Hm Hpt Hf Hk Ht Hs Hw]. unfold read.
  destruct (sending p) eqn:Hsd; [done|]. destruct (begin (mark p) (cursor e)) as [m t] eqn:Hb.
  set (n := length (workers p)) in *. set (i := owner n e).
  destruct (workers p !! i) as [w|] eqn:Hi; simpl; [|done]. intros [= <-].
  assert (t = length (begun p)) as Htl.
  { destruct (simulates_observe _ _ Hm) as (_ & _ & Hn & _). rewrite Hpt, length_fmap in Hn.
    rewrite <- Hn. by injection Hb. }
  exists (spec_step s (Begin (cursor e))). split; simpl; rewrite ?length_insert; fold n.
  - replace m with (begin (mark p) (cursor e)).1 by (by rewrite Hb). by apply simulates_begin.
  - by rewrite fmap_app, Hpt.
  - done.
  - intros x Hx. by apply lookup_app_l_Some, Hk.
  - by apply trace_ok_begun.
  - intros j [= <-]. simpl. rewrite Htl, lookup_app_r, Nat.sub_diag by done. done.
  - intros i' w' Hi'. apply list_lookup_insert_Some in Hi' as [(<- & <- & _)|[Hne Hi']].
    + apply worker_ok_arrive; [by rewrite Htl|done|by apply Hw].
    + apply worker_ok_begun; [done|].
      apply worker_ok_sending with None; [by rewrite arriving_other|]. by apply Hw.
Qed.

Lemma send_ok p s p' : pool_ok p s -> send p = Some p' -> pool_ok p' s.
Proof.
  intros [Hm Hpt Hf Hk Ht Hs Hw]. unfold send. destruct (sending p) as [j|] eqn:Hsd; simpl; [|done].
  set (n := length (workers p)) in *. set (i := owner n (event j)) in *.
  destruct (workers p !! i) as [w|] eqn:Hi; simpl; [|done].
  destruct (negb (stopped w) && _) eqn:Hgo; [|done]. apply andb_true_iff in Hgo as [Hgo%negb_true_iff _].
  intros [= <-]. split; simpl; rewrite ?length_insert; fold n; try done.
  intros i' w' Hi'. apply list_lookup_insert_Some in Hi' as [(<- & <- & _)|[Hne Hi']].
  - destruct (Hw i w Hi) as [H1 H2 H3 H4 H5 H6 H7].
    pose proof (arriving_own n j : arriving n (Some j) i = [j]) as Ha.
    assert (forall q d b st, line n None i {| queue := queue w ++ [j]; hand := hand w; depth := q;
              busy_since := b; stopped := st |} = d -> line n (Some j) i w = d) as Hl.
    { intros ???? <-. unfold line. rewrite Ha. simpl. by rewrite app_nil_r. }
    erewrite (Hl _ _ _ _ eq_refl) in H1, H2, H3, H5. split; try done.
    + intros Hst. specialize (H6 Hst). rewrite Ha in H6. simpl in *. rewrite length_app. simpl. lia.
    + simpl. by rewrite Hgo.
  - apply worker_ok_sending with (Some j); [by apply arriving_other|]. by apply Hw.
Qed.

Lemma send_failed_ok p s p' : pool_ok p s -> send_failed p = Some p' -> exists s', pool_ok p' s'.
Proof.
  intros Hp. pose proof Hp as [Hm Hpt Hf Hk Ht Hs Hw]. unfold send_failed.
  destruct (sending p) as [j|] eqn:Hsd; simpl; [|done].
  set (n := length (workers p)) in *. set (i := owner n (event j)) in *.
  destruct (workers p !! i) as [w|] eqn:Hi; simpl; [|done].
  destruct (stopped w) eqn:Hst; [|done]. intros [= <-].
  pose proof (Hs j eq_refl) as Hb.
  destruct (pool_complete p s [Dropped j] (ticket j) Hp) as (Hm' & Hp' & Hfe & Hf').
  { exists (Dropped j). split; [apply elem_of_app; right; left|done]. }
  { by apply lookup_lt_Some in Hb. }
  pose proof (Hw i w Hi) as [H1 H2 H3 H4 H5 H6 H7].
  pose proof (arriving_own n j : arriving n (Some j) i = [j]) as Ha.
  assert (j ∈ line n (Some j) i w) as Hj by (unfold line; rewrite Ha, !elem_of_app; right; right; left).
  exists (spec_step s (Complete (ticket j))). split; cbn [mark begun trace sending workers]; rewrite ?length_insert; fold n; try done.
  - intros x [?| ->%list_elem_of_singleton]%elem_of_app; [by apply Hk|done].
  - apply trace_ok_snoc; [done| |by intros Hd; destruct (Hd j)].
    intros x Hx Ho. by apply H3.
  - intros i' w' Hi'. apply list_lookup_insert_Some in Hi' as [(<- & <- & _)|[Hne Hi']].
    + destruct (H7 Hst) as [Hhd Hq].
      assert (line n None i (add_depth w (-1)) = []) as Hl by (unfold line; simpl; by rewrite Hhd, Hq).
      split; rewrite ?Hl; try done; simpl; rewrite ?Hst; try done.
      * by intros ? ?%elem_of_nil.
      * constructor.
      * by intros ? ? _ _ ?%elem_of_nil.
      * by rewrite Hhd.
    + apply worker_ok_mono with (finished s); [|rewrite Hfe; set_solver|].
      * apply worker_ok_sending with (Some j); [by apply arriving_other|]. by apply Hw.
      * by intros x ->%list_elem_of_singleton.
Qed.

Lemma step_ok p s l p' : pool_ok p s -> step p l = Some p' -> exists s', pool_ok p' s'.
Proof.
  intros Hp. destruct l as [e| | |i now|i a|i|i|i]; simpl; intros Hs.
  - by eapply read_ok.
  - exists s. by eapply send_ok.
  - by eapply send_failed_ok.
  - exists s. by eapply recv_ok.
  - exists s. by eapply try_ok.
  - exists s. by eapply give_up_ok.
  - by eapply finish_ok.
  - exists s. by eapply stop_ok.
Qed.

Lemma run_ok ls p s p' : pool_ok p s -> run p ls = Some p' -> exists s', pool_ok p' s'.
Proof.
  revert p s. induction ls as [|l ls IH]; intros p s Hp; simpl; [intros [= <-]; by exists s|].
  destruct (step p l) as [p1|] eqn:Hs; simpl; [|done].
  destruct (step_ok _ _ _ _ Hp Hs) as [s1 Hp1]. by eapply IH.
Qed.

Lemma spawn_ok n cap retry : pool_ok (spawn n cap retry) spec_new.
Proof.
  split; simpl; try done.
  - apply simulates_new.
  - set_solver.
  - intros pre y post Heq. by destruct pre.
  - intros i w [-> _]%lookup_replicate. split; simpl; try done.
    + by intros j ?%elem_of_nil.
    + constructor.
    + by intros x j ?%elem_of_nil.
Qed.

(** (C5) One account's events never race.  In every run of the pool, under any
    interleaving of its tasks and any outcomes: the effects of one DID's
    events come in ticket order, and when an event is tried or given up on,
    each earlier event of the DID has been applied or given up on already -
    retries included. *)
Theorem did_events_in_order n cap retry ls p pre y post :
  run (spawn n cap retry) ls = Some p -> trace p = pre ++ y :: post ->
  begun p !! ticket (job_of y) = Some (event (job_of y))
  /\ (forall x, x ∈ pre -> event_did (event (job_of x)) = event_did (event (job_of y)) ->
       ticket (job_of x) <= ticket (job_of y))
  /\ ((forall j, y <> Dropped j) ->
      forall t e, t < ticket (job_of y) -> begun p !! t = Some e ->
        event_did e = event_did (event (job_of y)) -> settled pre t).
Proof.
  intros Hr Htr. destruct (run_ok _ _ _ _ (spawn_ok _ _ _) Hr) as [s [_ _ _ Hk Ht _ _]].
  destruct (Ht _ _ _ Htr) as [H1 H2]. split_and!.
  - apply Hk. rewrite Htr. apply elem_of_app. right. left.
  - intros x Hx Hd. apply H1; [done|]. unfold owner. by rewrite Hd.
  - intros Hy t e Hlt Hb Hd. apply (H2 Hy t e Hlt Hb). unfold owner. by rewrite Hd.
Qed.

(** *** Dropped events *)

Definition no_stop (ls : list Label) : Prop := forall i, Stop i ∉ ls.
Definition all_up (p : Pool) : Prop := forall i w, workers p !! i = Some w -> stopped w = false.
Definition nothing_dropped (p : Pool) : Prop := forall j, Dropped j ∉ trace p.

(** Every step but [Stop] changes one worker, leaves it running or stopped as
    it was, and drops an event only when it is stopped. *)
Lemma step_shape p l p' :
  (forall i, l <> Stop i) -> step p l = Some p' ->
  exists i w w' fx, workers p !! i = Some w /\ workers p' = <[i := w']> (workers p)
    /\ stopped w' = stopped w /\ capacity p' = capacity p /\ trace p' = trace p ++ fx
    /\ (forall j, Dropped j ∈ fx -> stopped w = true).
Proof.
  intros Hl Hs. destruct l as [e| | |i now|i a|i|i|i]; simpl in Hs; [..|by destruct (Hl i)];
    unfold read, send, send_failed, recv, try, on_give_up, finish in Hs;
    repeat (simplify_option_eq || break_match);
    (eexists _, _, _, _; split; [eassumption|]; split; [reflexivity|]; split; [done|]; split; [done|];
     split; [first [reflexivity|symmetry; apply app_nil_r]|]);
    intros j'; rewrite ?list_elem_of_singleton, ?elem_of_nil; by intros ?.
Qed.

Lemma step_all_up p l p' :
  (forall i, l <> Stop i) -> step p l = Some p' -> all_up p ->
  all_up p' /\ (nothing_dropped p -> nothing_dropped p') /\ length (workers p') = length (workers p)
  /\ capacity p' = capacity p.
Proof.
  intros Hl Hs Hu. destruct (step_shape _ _ _ Hl Hs) as (i & w & w' & fx & Hi & Hw & Hst & Hc & Ht & Hd).
  split_and!; [| |by rewrite Hw, length_insert|done].
  - intros k v. rewrite Hw. intros [(_ & <- & _)|[_ Hk]]%list_lookup_insert_Some; [|by eapply Hu].
    rewrite Hst. by eapply Hu.
  - intros Hn j. rewrite Ht. intros [?|?%Hd]%elem_of_app; [by apply (Hn j)|]. by rewrite (Hu i w Hi) in *.
Qed.

Lemma run_all_up ls p p' :
  no_stop ls -> run p ls = Some p' -> all_up p ->
  all_up p' /\ (nothing_dropped p -> nothing_dropped p') /\ length (workers p') = length (workers p)
  /\ capacity p' = capacity p.
Proof.
  revert p. induction ls as [|l ls IH]; intros p Hn; simpl; [by intros [= <-]|].
  destruct (step p l) as [p1|] eqn:Hs; simpl; [|done]. intros Hr Hu.
  destruct (step_all_up p l p1) as (Hu1 & Hd1 & Hl1 & Hc1); [|done..|].
  { intros i ->. apply (Hn i). left. }
  destruct (IH p1) as (Hu2 & Hd2 & Hl2 & Hc2); [|done..|].
  { intros i Hi. apply (Hn i). by right. }
  split_and!; [done|auto|congruence|congruence].
Qed.

Lemma spawn_all_up n cap retry : all_up (spawn n cap retry) /\ nothing_dropped (spawn n cap retry).
Proof. split; [by intros i w [-> _]%lookup_replicate|]. by intros j ?%elem_of_nil. Qed.

(** (C15) The saved position is safe.  Whenever the watermark of a pool answers
    a position for a ticket, that ticket and every earlier one was applied,
    given up on after its retries, or dropped because its worker was gone -
    and as long as no worker task was aborted, nothing was dropped. *)
Theorem saved_position_settled n cap retry ls p t point :
  run (spawn n cap retry) ls = Some p -> applied_if_retired (mark p) t = Some point ->
  (exists u, t <= u /\ (cursor <$> begun p) !! u = Some point
     /\ forall v, v <= u -> settled (trace p) v)
  /\ (no_stop ls -> nothing_dropped p).
Proof.
  intros Hr Ha. split.
  - destruct (run_ok _ _ _ _ (spawn_ok _ _ _) Hr) as [s [Hm Hpt Hf _ _ _ _]].
    destruct (simulates_applied _ _ _ _ Hm Ha) as (u & Hu & Hp & Hall).
    exists u. split; [done|]. split; [by rewrite <- Hpt|]. intros v Hv. by apply Hf, Hall.
  - intros Hn. destruct (spawn_all_up n cap retry) as [Hup Hnd].
    destruct (run_all_up _ _ _ Hn Hr Hup) as (_ & Hd & _). by apply Hd.
Qed.

(** *** Draining *)

Definition hand_work (h : Hand) : nat :=
  match h with Waiting => 0 | Finishing _ => 1 | GivingUp _ _ => 2 | Trying _ _ => 3 end.
Definition work (w : Worker) : nat := hand_work (hand w) + 4 * length (queue w).
Definition pool_work (p : Pool) : nat :=
  sum_list_with work (workers p) + match sending p with Some _ => 5 | None => 0 end.

Lemma sum_insert (l : list Worker) i w w' :
  l !! i = Some w ->
  sum_list_with work (<[i := w']> l) + work w = sum_list_with work l + work w'.
Proof.
  revert i. induction l as [|x l IH]; intros [|i]; simpl; try done.
  - intros [= ->]. lia.
  - intros Hi. specialize (IH i Hi). lia.
Qed.

Lemma sum_zero (l : list Worker) : sum_list_with work l = 0 -> forall i w, l !! i = Some w -> work w = 0.
Proof.
  induction l as [|x l IH]; simpl; intros Hz i w Hi; [done|]. destruct i as [|i]; simpl in Hi.
  - injection Hi as ->. lia.
  - apply (IH ltac:(lia) i w Hi).
Qed.

Lemma sum_pos (l : list Worker) : sum_list_with work l <> 0 -> exists i w, l !! i = Some w /\ work w <> 0.
Proof.
  induction l as [|x l IH]; simpl; [done|]. intros Hz. destruct (decide (work x = 0)) as [Hx|Hx].
  - destruct IH as (i & w & Hi & Hw); [lia|]. by exists (S i), w.
  - by exists 0, x.
Qed.

Lemma owner_lt n e : 0 < n -> owner n e < n.
Proof.
  intros Hn. unfold owner, worker_for.
  assert (hash (event_did e) mod N.of_nat (Nat.max n 1) < N.of_nat (Nat.max n 1))%N
    by (apply N.mod_lt; lia). lia.
Qed.

Lemma set_worker_work p i w w' m fx :
  workers p !! i = Some w -> work w' < work w -> pool_work (set_worker p i w' m fx) < pool_work p.
Proof. intros Hi Hlt. unfold pool_work. simpl. pose proof (sum_insert _ _ _ w' Hi). lia. Qed.

(** A running worker with anything to do can do it: the next event is taken,
    applied, given up on or completed. *)
Lemma worker_progress p i w :
  workers p !! i = Some w -> stopped w = false -> work w <> 0 ->
  exists l p', step p l = Some p' /\ (forall e, l <> Read e) /\ (forall i, l <> Stop i)
    /\ begun p' = begun p /\ pool_work p' < pool_work p.
Proof.
  intros Hi Hst Hw. destruct (hand w) as [|j r|j e|j] eqn:Hh.
  - destruct (queue w) as [|j q] eqn:Hq; [unfold work in Hw; rewrite Hh, Hq in Hw; done|].
    eexists (Recv i 0), _. split; [simpl; unfold recv; by rewrite Hi; simpl; rewrite Hst, Hh, Hq|].
    split_and!; try done. apply set_worker_work with w; [done|]. unfold work. simpl. rewrite Hh, Hq. simpl. lia.
  - eexists (Attempt i (Returns Applied)), _.
    split; [simpl; unfold try; by rewrite Hi; simpl; rewrite Hst, Hh|].
    split_and!; try done. apply set_worker_work with w; [done|]. unfold work. simpl. rewrite Hh. simpl. lia.
  - eexists (GiveUp i), _. split; [simpl; unfold on_give_up; by rewrite Hi; simpl; rewrite Hst, Hh|].
    split_and!; try done. apply set_worker_work with w; [done|]. unfold work. simpl. rewrite Hh. simpl. lia.
  - eexists (Finish i), _. split; [simpl; unfold finish; by rewrite Hi; simpl; rewrite Hst, Hh|].
    split_and!; try done. apply set_worker_work with w; [done|]. unfold work. simpl. rewrite Hh. simpl. lia.
Qed.

Lemma pool_progress p :
  all_up p -> 0 < length (workers p) -> 0 < capacity p -> pool_work p <> 0 ->
  exists l p', step p l = Some p' /\ (forall e, l <> Read e) /\ (forall i, l <> Stop i)
    /\ begun p' = begun p /\ pool_work p' < pool_work p.
Proof.
  intros Hu Hn Hc Hw. destruct (decide (sum_list_with work (workers p) = 0)) as [Hz|Hz].
  - destruct (sending p) as [j|] eqn:Hsd; [|unfold pool_work in Hw; rewrite Hz, Hsd in Hw; done].
    destruct (lookup_lt_is_Some_2 (workers p) (owner (length (workers p)) (event j))) as [w Hi];
      [by apply owner_lt|].
    assert (work w = 0) as Hw0 by (by eapply sum_zero). unfold work in Hw0.
    destruct (queue w) as [|? ?] eqn:Hq; [|simpl in Hw0; lia].
    eexists Send, _. split.
    { simpl. unfold send. rewrite Hsd. simpl. rewrite Hi. simpl. rewrite (Hu _ _ Hi), Hq. simpl.
      by rewrite (proj2 (Nat.ltb_lt 0 (capacity p)) Hc). }
    split_and!; try done. unfold pool_work. cbn [workers sending].
    pose proof (sum_insert _ _ _ {| queue := [] ++ [j]; hand := hand w; depth := depth w;
      busy_since := busy_since w; stopped := false |} Hi) as Hsum.
    rewrite Hsd. unfold work at 2 4 in Hsum. simpl in *. rewrite Hq in Hsum. simpl in *. lia.
  - destruct (sum_pos _ Hz) as (i & w & Hi & Hww). eapply worker_progress; [done|by eapply Hu|done].
Qed.

Lemma drained p s : pool_ok p s -> all_up p -> 0 < length (workers p) -> pool_work p = 0 -> in_flight (mark p) = 0.
Proof.
  intros [Hm Hpt Hf _ _ _ Hw] Hu Hn Hz. unfold pool_work in Hz.
  destruct (sending p) eqn:Hsd; [lia|]. destruct (simulates_observe _ _ Hm) as (_ & _ & _ & ->).
  assert (length (points s) = retired_count s) as ->; [|lia].
  apply finished_run_unique; [done| |lia]. intros t Ht. simpl.
  rewrite Hpt, length_fmap in Ht. apply lookup_lt_is_Some_2 in Ht as [e He].
  destruct (lookup_lt_is_Some_2 (workers p) (owner (length (workers p)) e)) as [w Hi]; [by apply owner_lt|].
  destruct (wk_kept _ _ _ _ _ _ _ (Hw _ _ Hi) (Hu _ _ Hi) t e He eq_refl) as [?|Hin]; [done|].
  assert (work w = 0) as Hw0 by (apply (sum_zero (workers p) ltac:(lia) _ _ Hi)). unfold work in Hw0.
  unfold line in Hin. destruct (hand w), (queue w); simpl in *; try lia. by apply elem_of_nil in Hin.
Qed.

Lemma can_drain k p s :
  pool_work p < k -> pool_ok p s -> all_up p -> 0 < length (workers p) -> 0 < capacity p ->
  exists ls p', run p ls = Some p' /\ (forall e, Read e ∉ ls) /\ no_stop ls
    /\ begun p' = begun p /\ in_flight (mark p') = 0.
Proof.
  revert p s. induction k as [|k IH]; intros p s Hk Hp Hu Hn Hc; [lia|].
  destruct (decide (pool_work p = 0)) as [Hz|Hz].
  - exists [], p. split_and!; [done|by intros e ?%elem_of_nil|by intros i ?%elem_of_nil|done|by eapply drained].
  - destruct (pool_progress p Hu Hn Hc Hz) as (l & p1 & Hs & Hr & Hst & Hb & Hlt).
    destruct (step_ok _ _ _ _ Hp Hs) as [s1 Hp1].
    destruct (step_all_up _ _ _ Hst Hs Hu) as (Hu1 & _ & Hl1 & Hc1).
    destruct (IH p1 s1) as (ls & p' & Hrun & Hr' & Hst' & Hb' & Hi); [lia|done|done|congruence|congruence|].
    exists (l :: ls), p'. split_and!; [simpl; by rewrite Hs| | |congruence|done].
    + intros e [?|?]%elem_of_cons; [by apply (Hr e)|by apply (Hr' e)].
    + intros i [?|?]%elem_of_cons; [by apply (Hst i)|by apply (Hst' i)].
Qed.

(** (C37) The pool never wedges: from every state of a run without an aborted
    worker, the events in flight can all be finished without reading another
    one - the full queues, the retries and the reader waiting in [dispatch]
    included - and then nothing is in flight. *)
Theorem pool_can_drain n cap retry ls p :
  run (spawn n cap retry) ls = Some p -> no_stop ls ->
  exists ls' p', run p ls' = Some p' /\ (forall e, Read e ∉ ls') /\ no_stop ls'
    /\ begun p' = begun p /\ in_flight (mark p') = 0.
Proof.
  intros Hr Hns. destruct (run_ok _ _ _ _ (spawn_ok _ _ _) Hr) as [s Hp].
  destruct (run_all_up _ _ _ Hns Hr (proj1 (spawn_all_up n cap retry))) as (Hu & _ & Hl & Hc).
  apply (can_drain (S (pool_work p)) p s); [lia|done|done|rewrite Hl|rewrite Hc]; simpl; rewrite ?length_replicate; lia.
Qed.

(** The status counters: the depth of a running worker is the number of
    events queued for it plus the one the reader is waiting to queue, so it
    never falls below zero. *)
Theorem depths_exact n cap retry ls p i w :
  run (spawn n cap retry) ls = Some p -> workers p !! i = Some w -> stopped w = false ->
  depth w = Z.of_nat (length (queue w) + length (arriving (length (workers p)) (sending p) i)).
Proof.
  intros Hr Hi Hs. destruct (run_ok _ _ _ _ (spawn_ok _ _ _) Hr) as [s Hp].
  by apply (wk_depth _ _ _ _ _ _ _ (pk_workers _ _ Hp i w Hi)).
Qed.

End Pool.

(** ** What the retries decide *)

(** The error of an attempt that counts as a failure. *)
Definition error_of (a : attempt) : option string :=
  match a with
  | Returns (Failed error) => Some error
  | Panics message => Some ("panicked: " +:+ message)
  | _ => None
  end.
Definition failures (l : list attempt) : nat := length (omap error_of l).

Lemma retries_decide_from policy r l :
  match apply_with_retries policy r l with
  | None => (Returns Applied ∉ l) /\ failures l <= length (delays_left r)
  | Some (v, waits) =>
      exists pre a post, l = pre ++ a :: post /\ (Returns Applied ∉ pre) /\ length waits = length pre
      /\ (v = Done /\ a = Returns Applied /\ failures pre <= length (delays_left r)
          \/ exists error, v = GivesUp error /\ error_of a = Some error
              /\ failures pre = length (delays_left r))
  end.
Proof.
  revert r. induction l as [|a l IH]; intros r; cbn [apply_with_retries].
  - split; [by intros ?%elem_of_nil|unfold failures; simpl; lia].
  - destruct (attempt_step policy r a) as [|wait r'|error] eqn:Hs.
    + assert (a = Returns Applied) as ->.
      { destruct a as [[]|]; simpl in Hs; unfold after_failure in Hs; try destruct (delays_left r); done. }
      exists [], (Returns Applied), l. split_and!; [done|by intros ?%elem_of_nil|done|]. left.
      split_and!; [done..|]. unfold failures. simpl. lia.
    + specialize (IH r').
      assert (a <> Returns Applied /\ failures [a] + length (delays_left r') = length (delays_left r)) as [Ha Hd].
      { destruct a as [[]|]; simpl in Hs; unfold after_failure in Hs; try destruct (delays_left r) eqn:?;
          simplify_eq; simpl; split; try done; by rewrite ?Heql0. }
      assert (forall m, failures (a :: m) = failures [a] + failures m) as Hf.
      { intros m. unfold failures. simpl. destruct (error_of a); done. }
      destruct (apply_with_retries policy r' l) as [[v waits]|].
      * destruct IH as (pre & b & post & -> & Hpre & Hw & Hv). exists (a :: pre), b, post.
        split_and!; [done| |simpl; by rewrite Hw|].
        { intros [?|?]%elem_of_cons; congruence || done. }
        rewrite Hf. destruct Hv as [(-> & -> & ?)|(e & -> & ? & ?)]; [left|right; exists e]; split_and!; (done || lia).
      * destruct IH as [Hin Hle]. split; [intros [?|?]%elem_of_cons; congruence || done|]. rewrite Hf. lia.
    + exists [], a, l. split_and!; [done|by intros ?%elem_of_nil|done|]. right. exists error. split; [done|].
      destruct a as [[]|]; simpl in Hs; unfold after_failure in Hs; destruct (delays_left r) eqn:?; simplify_eq;
        (split; [done|]); done.
Qed.

(** When a worker stops retrying.  It ends with the first attempt that
    applies the event, or gives up, with that attempt's error, on the first
    failure after as many failures as there are delays; a panic is a failure,
    and attempts that found the database unavailable count for nothing, so an
    event that is only ever unavailable is retried for as long as it is. *)
Theorem retries_decide policy l :
  match apply_with_retries policy (first_try policy) l with
  | None => (Returns Applied ∉ l) /\ failures l <= length (delays policy)
  | Some (v, waits) =>
      exists pre a post, l = pre ++ a :: post /\ (Returns Applied ∉ pre) /\ length waits = length pre
      /\ (v = Done /\ a = Returns Applied /\ failures pre <= length (delays policy)
          \/ exists error, v = GivesUp error /\ error_of a = Some error
              /\ failures pre = length (delays policy))
  end.
Proof. apply (retries_decide_from policy (first_try policy) l). Qed.

(** ** A concrete run

    Two workers; the first event of [did:plc:aa] panics once and then applies,
    while the other account's event overtakes it. *)

Definition len_hash (d : string) : N := N.of_nat (String.length d).
Definition ev (d : string) (seq : Z) : Event :=
  {| event_did := d; cursor := V2 seq seq; kind := KIdentity None |}.
Definition one_retry : RetryPolicy := {| delays := [from_secs 1]; max_unavailable_delay := from_secs 2 |}.

Definition two_accounts : list Label :=
  [Read (ev "did:plc:aa" 1); Send; Read (ev "did:plc:b" 2); Send; Read (ev "did:plc:aa" 3); Send;
   Recv 0 5; Recv 1 6; Attempt 0 (Panics "oops"); Attempt 1 (Returns Applied); Finish 1;
   Attempt 0 (Returns (Failed "no")); GiveUp 0; Finish 0; Recv 0 7; Attempt 0 (Returns Applied)].

Definition after_run : Pool := default (spawn 2 4 one_retry) (run len_hash (spawn 2 4 one_retry) two_accounts).

Lemma after_run_eq : run len_hash (spawn 2 4 one_retry) two_accounts = Some after_run.
Proof. vm_compute. reflexivity. Qed.

Lemma did_events_in_order_witness : settled (take 4 (trace after_run)) 0.
Proof.
  refine (proj2 (proj2 (did_events_in_order len_hash 2 4 one_retry two_accounts after_run
    (take 4 (trace after_run)) (Tried {| ticket := 2; event := ev "did:plc:aa" 3 |} (Returns Applied)) []
    after_run_eq _)) _ 0 (ev "did:plc:aa" 1) _ _ _).
  - vm_compute. reflexivity.
  - discriminate.
  - simpl. lia.
  - vm_compute. reflexivity.
  - reflexivity.
Defined.

Lemma saved_position_settled_witness :
  applied_if_retired (mark after_run) 1 = Some (V2 2 2) /\ nothing_dropped after_run.
Proof.
  assert (applied_if_retired (mark after_run) 1 = Some (V2 2 2)) as H by (vm_compute; reflexivity).
  split; [exact H|].
  apply (saved_position_settled len_hash 2 4 one_retry two_accounts after_run 1 (V2 2 2) after_run_eq H).
  intros i Hi. repeat (apply elem_of_cons in Hi as [Hi|Hi]; [discriminate|]). by apply elem_of_nil in Hi.
Defined.

Lemma pool_can_drain_witness :
  exists ls' p', run len_hash after_run ls' = Some p' /\ in_flight (mark p') = 0.
Proof.
  destruct (pool_can_drain len_hash 2 4 one_retry two_accounts after_run after_run_eq)
    as (ls' & p' & Hr & _ & _ & _ & Hi).
  - intros i Hi. repeat (apply elem_of_cons in Hi as [Hi|Hi]; [discriminate|]). by apply elem_of_nil in Hi.
  - exists ls', p'. split; [exact Hr|exact Hi].
Defined.

Lemma depths_exact_witness : depth <$> workers after_run !! 0 = Some 0%Z.
Proof.
  destruct (workers after_run !! 0) as [w|] eqn:Hi; [|vm_compute in Hi; discriminate].
  assert (stopped w = false /\ queue w = []) as [Hs Hq] by (vm_compute in Hi; injection Hi as <-; split; reflexivity).
  simpl. f_equal. rewrite (depths_exact len_hash 2 4 one_retry two_accounts after_run 0 w after_run_eq Hi Hs), Hq.
  vm_compute. reflexivity.
Defined.
