(* ===== verification/LiveApply.v ===== *)
(** * Applying live events

    [crates/happyview-source-jetstream/src/consumer/apply.rs]: what a live
    Jetstream event is handed to the host as, and what the worker makes of the
    host's answer.  The host is the [Host] interface; its counters and its
    event log, which the code reaches through the same object, are kept beside
    its state.  [tracked] is the collections a [#sync] purges,
    [host_tracked] the host's own [tracked_collections] as the commit reads
    it.  How [{:?}] escapes a string depends on the Unicode tables of the
    standard library: [debug_str] is a parameter. *)

From stdpp Require Import list strings.
From Stdlib Require Import ZArith.
From S2P Require Import Prelude Json StreamEvent Watermark Workers.

Definition LEXICON_SCHEMA_COLLECTION : string := "com.atproto.lexicon.schema".

Inductive Severity : Type := Info | Warn | Error.

Record ProviderEvent : Type := {
  event_type : string;
  severity : Severity;
  actor_did : option string;
  subject : option string;
  detail : value;
}.

(** [IngestCounters], the two this code adds to. *)
Record Live `{HOST : Host} : Type := {
  live_host : HostState;
  matched : nat;
  skipped : nat;
  event_log : list ProviderEvent;
}.
Arguments Build_Live {HOST} _ _ _ _.

(** [cursor.seq().into()]. *)
Definition seq_value (c : CursorPoint) : value :=
  match cursor_seq c with Some n => VNumber n | None => VNull end.

Definition commit_uri (d : string) (c : Commit) : string :=
  "at://" +:+ d +:+ "/" +:+ commit_collection c +:+ "/" +:+ commit_rkey c.

Definition worker_outcome (answer : IngestOutcome * option string) : ApplyOutcome :=
  let error := default "" answer.2 in
  match answer.1 with
  | StreamEvent.Unavailable => Unavailable error
  | Errored | Invalid => Failed error
  | Matched | Skipped | SchemaEvent => Applied
  end.

Definition unknown_operation (host_tracked : list string) (c : string) : IngestOutcome :=
  if c =s LEXICON_SCHEMA_COLLECTION then SchemaEvent
  else if str_mem c host_tracked then Invalid
  else Skipped.

Section Live.
Context `{HOST : Host}.
Variable debug_str : string -> string.

Definition invalid_reason (c : Commit) : string :=
  let known_write := (operation c =s "create") || (operation c =s "update") in
  if known_write && negb (bool_decide (is_Some (commit_record c))) then
    "the " +:+ operation c +:+ " carries no record"
  else if known_write || (operation c =s "delete") then
    if commit_collection c =s LEXICON_SCHEMA_COLLECTION then "the lexicon schema could not be applied"
    else "the database refused the record's data"
  else "unknown operation " +:+ debug_str (operation c).

(** A JSON object lists its keys in order. *)
Definition invalid_event (d : string) (c : CursorPoint) (commit : Commit) : ProviderEvent :=
  {| event_type := "jetstream.record_invalid"; severity := Warn; actor_did := None; subject := Some d;
     detail := VObject [("error", VString (invalid_reason commit)); ("seq", seq_value c);
                        ("uri", VString (commit_uri d commit))] |}.

(** What the commit's outcome does to the counters and the log. *)
Definition settle_commit (s : Live) (d : string) (c : CursorPoint) (commit : Commit) (o : IngestOutcome)
    : Live * ApplyOutcome :=
  match o with
  | Matched => (Build_Live (live_host s) (S (matched s)) (skipped s) (event_log s), Applied)
  | Skipped => (Build_Live (live_host s) (matched s) (S (skipped s)) (event_log s), Applied)
  | SchemaEvent => (s, Applied)
  | Errored =>
      (s, Failed (operation commit +:+ " of " +:+ commit_uri d commit
                  +:+ " failed; see its record event log"))
  | StreamEvent.Unavailable =>
      (s, Unavailable ("the database is unavailable for the " +:+ operation commit +:+ " of "
                       +:+ commit_uri d commit))
  | Invalid =>
      (Build_Live (live_host s) (matched s) (S (skipped s)) (event_log s ++ [invalid_event d c commit]), Applied)
  end.

Definition apply_commit (s : Live) (host_tracked : list string) (d : string) (c : CursorPoint)
    (commit : Commit) : Live * ApplyOutcome :=
  match Action_parse (operation commit) with
  | Some act =>
      let '(h, o) := ingest (live_host s) (SRecord
        {| key := {| did := d; collection := commit_collection commit; rkey := commit_rkey commit |};
           action := act; cid := commit_cid commit; rev := commit_rev commit; body := commit_record commit;
           time_us := Some (cursor_time_us c); origin := StreamEvent.Live; stored := false |}) in
      settle_commit (Build_Live h (matched s) (skipped s) (event_log s)) d c commit o
  | None => settle_commit s d c commit (unknown_operation host_tracked (commit_collection commit))
  end.

(** A commit is not a marker; [apply_event] passes none. *)
Definition apply_marker (s : Live) (tracked : list string) (d : string) (c : CursorPoint) (k : EventKind)
    (as_of_us : option Z) : Live * ApplyOutcome :=
  match marker_event d c k as_of_us tracked with
  | None => (s, Applied)
  | Some e =>
      let '(h, answer) := ingest_with_error (live_host s) e in
      (Build_Live h (matched s) (skipped s) (event_log s), worker_outcome answer)
  end.

Definition apply_event (s : Live) (host_tracked tracked : list string) (ev : Event) : Live * ApplyOutcome :=
  match kind ev with
  | KCommit commit => apply_commit s host_tracked (event_did ev) (cursor ev) commit
  | k => apply_marker s tracked (event_did ev) (cursor ev) k None
  end.

(** A marker replayed from the archive acts as of its own time; other events
    are not passed, and would do nothing. *)
Definition apply_replayed_marker (s : Live) (tracked : list string) (ev : Event) : Live * ApplyOutcome :=
  match kind ev with
  | KCommit _ | KIdentity _ => (s, Applied)
  | k => apply_marker s tracked (event_did ev) (cursor ev) k (Some (cursor_time_us (cursor ev)))
  end.

(** Only a [#sync] reads the registered collections. *)
Definition apply_fn (s : Live) (host_tracked registered : list string) (ev : Event) : Live * ApplyOutcome :=
  let tracked := match kind ev with KSync _ => registered | _ => [] end in
  apply_event s host_tracked tracked ev.

Definition give_up_detail (ev : Event) (error : string) : value :=
  let rest :=
    match kind ev with
    | KCommit commit => [("uri", VString (commit_uri (event_did ev) commit))]
    | KAccount _ status =>
        [("status", match status with Some st => VString st | None => VNull end)]
    | _ => []
    end in
  let kind_entry :=
    match kind ev with
    | KCommit _ => []
    | KAccount _ _ => [("kind", VString "account")]
    | KIdentity _ => [("kind", VString "identity")]
    | KSync _ => [("kind", VString "sync")]
    end in
  VObject ([("error", VString error)] ++ kind_entry ++ [("seq", seq_value (cursor ev))] ++ rest).

Definition give_up_fn (s : Live) (ev : Event) (error : string) : Live :=
  Build_Live (live_host s) (matched s) (skipped s)
    (event_log s ++ [{| event_type := "jetstream.apply_failed"; severity := Error; actor_did := None;
                        subject := Some (event_did ev); detail := give_up_detail ev error |}]).

End Live.

(** ** What one attempt does *)

(** The one event a live event is handed to the host as; nothing for a commit
    whose operation is unknown. *)
Definition handed (registered : list string) (ev : Event) : list SourceEvent :=
  let d := event_did ev in
  let c := cursor ev in
  match kind ev with
  | KCommit commit =>
      match Action_parse (operation commit) with
      | Some act =>
          [SRecord {| key := {| did := d; collection := commit_collection commit; rkey := commit_rkey commit |};
                      action := act; cid := commit_cid commit; rev := commit_rev commit;
                      body := commit_record commit; time_us := Some (cursor_time_us c);
                      origin := StreamEvent.Live; stored := false |}]
      | None => []
      end
  | KAccount active status => [SAccount d active status None (cursor_seq c) (Some (cursor_time_us c)) None]
  | KIdentity handle => [SIdentity d handle]
  | KSync r => [SSync d r None (cursor_seq c) (Some (cursor_time_us c)) (Some registered)]
  end.

Section Attempt.
Context `{HL : HostLog}.
Variable debug_str : string -> string.

Definition counted (s : Live) : nat * nat * list ProviderEvent := (matched s, skipped s, event_log s).

Lemma settle_commit_host s d c commit o :
  live_host (settle_commit debug_str s d c commit o).1 = live_host s.
Proof. by destruct o. Qed.

Lemma attempt_effect s host_tracked registered ev s' r :
  apply_fn debug_str s host_tracked registered ev = (s', r) ->
  delivered (live_host s') = delivered (live_host s) ++ handed registered ev
  /\ (r <> Applied -> counted s' = counted s)
  /\ (matched s' + skipped s' <= S (matched s + skipped s))
  /\ match kind ev with KCommit _ => True | _ => counted s' = counted s end.
Proof.
  unfold apply_fn, apply_event, handed. destruct (kind ev) as [commit|handle|active status|rv].
  - unfold apply_commit. destruct (Action_parse (operation commit)) as [act|].
    + set (e := SRecord _). pose proof (delivered_ingest (live_host s) e) as Hd.
      destruct (ingest (live_host s) e) as [h o]. intros Hs.
      pose proof (settle_commit_host (Build_Live h (matched s) (skipped s) (event_log s)) (event_did ev)
        (cursor ev) commit o) as Hh. rewrite Hs in Hh. simpl in Hh. rewrite Hh. split; [exact Hd|].
      destruct o; simpl in Hs; injection Hs as <- <-; simpl; repeat split; try done; lia.
    + intros Hs. pose proof (settle_commit_host s (event_did ev) (cursor ev) commit
        (unknown_operation host_tracked (commit_collection commit))) as Hh.
      rewrite Hs in Hh. simpl in Hh. rewrite Hh, app_nil_r. split; [done|].
      destruct (unknown_operation _ _); simpl in Hs; injection Hs as <- <-; simpl; repeat split; try done; lia.
  - unfold apply_marker. simpl. set (e := SIdentity _ _). pose proof (delivered_ingest_with_error (live_host s) e).
    destruct (ingest_with_error _ e) as [h a]. intros [= <- <-]. simpl. repeat split; try done; lia.
  - unfold apply_marker. simpl. set (e := SAccount _ _ _ _ _ _ _).
    pose proof (delivered_ingest_with_error (live_host s) e).
    destruct (ingest_with_error _ e) as [h a]. intros [= <- <-]. simpl. repeat split; try done; lia.
  - unfold apply_marker. simpl. set (e := SSync _ _ _ _ _ _).
    pose proof (delivered_ingest_with_error (live_host s) e).
    destruct (ingest_with_error _ e) as [h a]. intros [= <- <-]. simpl. repeat split; try done; lia.
Qed.

(** An attempt at a live event hands it to the host once, as itself.  An
    attempt that the worker will repeat leaves the counters and the event log
    as they were, so a retried event is counted once, with the attempt that
    applies it; markers are never counted. *)
Theorem attempt_hands_and_counts s host_tracked registered ev s' r :
  apply_fn debug_str s host_tracked registered ev = (s', r) ->
  delivered (live_host s') = delivered (live_host s) ++ handed registered ev
  /\ (r <> Applied -> counted s' = counted s)
  /\ (matched s' + skipped s' <= S (matched s + skipped s))
  /\ match kind ev with KCommit _ => True | _ => counted s' = counted s end.
Proof.
  apply attempt_effect.
Qed.

End Attempt.

(** A host that answers by the collection. *)
#[local] Instance answering_host : Host := {|
  HostState := list SourceEvent;
  ingest h e := (h ++ [e], match e with
                           | SRecord ev => if collection (key ev) =s "app.down" then StreamEvent.Unavailable else Matched
                           | _ => Matched
                           end);
  ingest_with_error h e := (h ++ [e], (Matched, None));
  ingest_batch_with_error h b := (h ++ b, ({| outcomes := []; changed := [] |}, None));
|}.

#[local] Instance answering_host_log : HostLog answering_host.
Proof. exists (fun h : HostState => h); done. Defined.

Definition down_commit : Event :=
  {| event_did := "did:plc:a"; cursor := V2 7 70;
     kind := KCommit {| commit_rev := None; operation := "create"; commit_collection := "app.down";
                        commit_rkey := "1"; commit_record := Some VNull; commit_cid := None |} |}.
Definition fresh_live : Live := Build_Live (HOST := answering_host) [] 3 0 [].
Definition after_attempt : Live * ApplyOutcome := apply_fn (fun s => s) fresh_live [] [] down_commit.

Lemma attempt_hands_and_counts_witness :
  after_attempt.2 <> Applied /\ counted after_attempt.1 = (3, 0, []).
Proof.
  assert (after_attempt.2 <> Applied) as H by (vm_compute; discriminate).
  split; [exact H|].
  apply (attempt_hands_and_counts (fun s => s) fresh_live [] [] down_commit after_attempt.1 after_attempt.2);
    [apply surjective_pairing|exact H].
Defined.
