(* ===== verification/ArchiveRows.v ===== *)
(** * Archive rows

    [crates/happyview-source-jetstream/src/archive/rows.rs] and the loop over
    a block's rows in [backfill/replay.rs] ([fold_rows]): which rows a sweep
    keeps, the event each row becomes, and their fold into the host.  The
    derived deserialisers of the two marker structs are an interface. *)

From stdpp Require Import gmap pretty.
From Stdlib Require Import ZArith.
From S2P Require Import Prelude Json Cid StreamEvent Watermark Workers LiveApply ReplayFold.

#[local] Open Scope Z_scope.

(** [segment::Row]; the integers at their widths ([u64], [i64], [u8]). *)
Record Row : Type := {
  row_seq : Z;
  witnessed_at : Z;
  indexed_at : Z;
  row_kind : Z;
  row_collection : string;
  row_did : string;
  row_rkey : string;
  row_rev : string;
  payload : bytes;
}.

Definition KIND_CREATE : Z := 1.
Definition KIND_UPDATE : Z := 2.
Definition KIND_DELETE : Z := 3.
Definition KIND_ACCOUNT : Z := 5.
Definition KIND_SYNC : Z := 6.
Definition KIND_RESYNC_CREATE : Z := 7.

Definition is_commit (k : Z) : bool :=
  (k =? KIND_CREATE) || (k =? KIND_UPDATE) || (k =? KIND_DELETE) || (k =? KIND_RESYNC_CREATE).
Definition is_marker (k : Z) : bool := (k =? KIND_ACCOUNT) || (k =? KIND_SYNC).

Inductive RowKinds : Type := Commits | Markers | Both.

Record RowFilter : Type := {
  kinds : RowKinds;
  collections : gset string;
  dids : option (gset string);
  after_seq : Z;
  through_seq : Z;
}.

Definition keep (f : RowFilter) (row : Row) : bool :=
  if (row_seq row <=? after_seq f) || (through_seq f <? row_seq row) then false
  else
    let kind_ok :=
      match kinds f with
      | Commits => is_commit (row_kind row)
      | Markers => is_marker (row_kind row)
      | Both => is_commit (row_kind row) || is_marker (row_kind row)
      end in
    if negb kind_ok then false
    else if is_commit (row_kind row) && negb (bool_decide (row_collection row ∈ collections f)) then false
    else match dids f with Some ds => bool_decide (row_did row ∈ ds) | None => true end.

(** [serde_ipld_dagcbor::from_slice] at [AccountMarker] and [SyncMarker]. *)
Class MarkerCodec : Type := {
  decode_account : bytes -> result (bool * option string) string;
  decode_sync : bytes -> result (option string) string;
}.

(** [row.seq as i64]. *)
Definition as_i64 (n : Z) : Z := let m := n mod 2 ^ 64 in if m <? 2 ^ 63 then m else m - 2 ^ 64.

Section Rows.
Context `{C : CidCrate} {B : Base64} {D : DagCborCodec} {M : MarkerCodec}.
Variable sha256 : bytes -> bytes.

Definition row_operation (k : Z) : string :=
  if k =? KIND_UPDATE then "update" else if k =? KIND_DELETE then "delete" else "create".

(** The record and its CID: none of a delete. *)
Definition row_record (row : Row) : result (option value * option string) string :=
  if row_kind row =? KIND_DELETE then Ok (None, None)
  else
    match dag_cbor_to_json (payload row) with
    | Err e => Err ("record at seq " +:+ pretty (row_seq row) +:+ " does not decode: " +:+ e)
    | Ok record =>
        match dag_cbor_cid sha256 (payload row) with
        | None => Err ("record at seq " +:+ pretty (row_seq row) +:+ " has no CID")
        | Some c => Ok (Some record, Some (cid_to_string c))
        end
    end.

Definition row_to_event (row : Row) : result (option Event) string :=
  let event k := Ok (Some {| event_did := row_did row;
                             cursor := V2 (as_i64 (row_seq row)) (witnessed_at row); kind := k |}) in
  if is_commit (row_kind row) then
    let? (record, c) := row_record row in
    event (KCommit {| commit_rev := if row_rev row =s "" then None else Some (row_rev row);
                      operation := row_operation (row_kind row);
                      commit_collection := row_collection row; commit_rkey := row_rkey row;
                      commit_record := record; commit_cid := c |})
  else if row_kind row =? KIND_ACCOUNT then
    match decode_account (payload row) with
    | Err e => Err ("account marker at seq " +:+ pretty (row_seq row) +:+ " does not decode: " +:+ e)
    | Ok (active, status) => event (KAccount active status)
    end
  else if row_kind row =? KIND_SYNC then
    match decode_sync (payload row) with
    | Err e => Err ("sync marker at seq " +:+ pretty (row_seq row) +:+ " does not decode: " +:+ e)
    | Ok r => event (KSync r)
    end
  else Ok None.

(** ** The loop over a block *)

Context `{HOST : Host}.
Variable holds_records : HostState -> string -> list string -> result bool string.

Definition db (e : string) : string := "replay bookkeeping failed: " +:+ e.

(** A marker row of a network retry for an account the host holds nothing of. *)
Definition unheld (held_only : option (list string)) (f : ReplayFold) (row : Row) : result bool string :=
  match held_only with
  | Some cs =>
      if is_marker (row_kind row) && negb (buffers f (row_did row)) then
        match holds_records (host f) (row_did row) cs with
        | Ok held => Ok (negb held)
        | Err e => Err (db e)
        end
      else Ok false
  | None => Ok false
  end.

(** [fold_rows]: the fold, and how many rows did not decode; an error halts
    the job.  The reset of the run's count of failed blocks is left out. *)
Fixpoint fold_rows (held_only : option (list string)) (filter : RowFilter) (f : ReplayFold)
    (rows : list Row) : ReplayFold * result nat string :=
  match rows with
  | [] => (f, Ok 0%nat)
  | row :: rest =>
      if negb (keep filter row) then fold_rows held_only filter f rest
      else
        match unheld held_only f row with
        | Err e => (f, Err e)
        | Ok true => fold_rows held_only filter f rest
        | Ok false =>
            match row_to_event row with
            | Ok (Some ev) =>
                match apply f ev with
                | (f1, Err e) => (f1, Err e)
                | (f1, Ok _) => fold_rows held_only filter f1 rest
                end
            | Ok None => fold_rows held_only filter f rest
            | Err _ =>
                let '(f1, r) := fold_rows held_only filter f rest in
                (f1, match r with Ok n => Ok (S n) | Err e => Err e end)
            end
        end
  end.

End Rows.

(** ** The filter *)

Definition window (f : RowFilter) (a b : Z) : RowFilter :=
  {| kinds := kinds f; collections := collections f; dids := dids f; after_seq := a; through_seq := b |}.

(** A sweep that stops at a saved cursor and resumes from it sees every
    row once: of two adjacent windows, a row of their union is in exactly
    one. *)
Theorem resumed_sweep_exact f a b c row :
  a <= b <= c ->
  keep (window f a c) row = keep (window f a b) row || keep (window f b c) row
  /\ (keep (window f a b) row && keep (window f b c) row) = false.
Proof.
  intros Hab. unfold keep. simpl.
  destruct (Z.leb_spec (row_seq row) a), (Z.ltb_spec c (row_seq row)), (Z.ltb_spec b (row_seq row)),
    (Z.leb_spec (row_seq row) b); simpl; try lia; rewrite ?orb_false_r, ?andb_false_r; done.
Qed.

(** ** What the rows become *)

(** An event without its origin and the time it acts as of. *)
Definition undated (e : SourceEvent) : SourceEvent :=
  match e with
  | SRecord ev =>
      SRecord {| key := key ev; action := action ev; cid := cid ev; rev := rev ev; body := body ev;
                 time_us := time_us ev; origin := StreamEvent.Live; stored := stored ev |}
  | SAccount d a st _ s t cs => SAccount d a st None s t cs
  | SSync d r _ s t cs => SSync d r None s t cs
  | e => e
  end.

Section Events.
Context `{C : CidCrate} {B : Base64} {D : DagCborCodec} {M : MarkerCodec}.
Variable sha256 : bytes -> bytes.

(** A row's event, as the fold and as the live path hand it on. *)
Lemma row_translate_handed row ev job tr :
  row_to_event sha256 row = Ok (Some ev) ->
  undated <$> translate job tr ev = undated <$> handed tr ev.
Proof.
  unfold row_to_event. destruct (is_commit (row_kind row)).
  - unfold row_record. destruct (row_kind row =? KIND_DELETE) eqn:Hd.
    + intros [= <-]. apply Z.eqb_eq in Hd. unfold translate, handed, row_operation. simpl. by rewrite Hd.
    + destruct (dag_cbor_to_json _) as [v|]; [|discriminate].
      destruct (dag_cbor_cid _ _) as [c|]; [|discriminate].
      intros [= <-]. unfold translate, handed, row_operation. simpl. rewrite Hd.
      by destruct (row_kind row =? KIND_UPDATE).
  - destruct (row_kind row =? KIND_ACCOUNT).
    + destruct (decode_account _) as [[a st]|]; [|discriminate]. by intros [= <-].
    + destruct (row_kind row =? KIND_SYNC); [|discriminate].
      destruct (decode_sync _) as [r|]; [|discriminate]. by intros [= <-].
Qed.

Context `{CS : !CidCrateSpec C} `{BS : !Base64Spec B} `{DS : !DagCborSpec D}.

(** A record from the archive passes the CID check of the ingest
    pipeline: the row of a record that is in the data model decodes, and the
    event carries the record under the CID of the payload, which the record's
    JSON verifies against. *)
Theorem archived_record_verifies row i c :
  is_commit (row_kind row) = true -> row_kind row <> KIND_DELETE ->
  data_model i = true -> to_vec i = Some (payload row) -> dag_cbor_cid sha256 (payload row) = Some c ->
  exists commit v,
    row_to_event sha256 row
    = Ok (Some {| event_did := row_did row; cursor := V2 (as_i64 (row_seq row)) (witnessed_at row);
                  kind := KCommit commit |})
    /\ commit_record commit = Some v /\ commit_cid commit = Some (cid_to_string c)
    /\ verify_record_cid sha256 (cid_to_string c) v = Match.
Proof.
  intros Hk Hd Hm Hv Hc. destruct (payload_verifies sha256 i (payload row) c Hm Hv Hc) as (v & Hj & Hok).
  eexists _, v. unfold row_to_event, row_record. apply Z.eqb_neq in Hd. rewrite Hk, Hd, Hj, Hc.
  split_and!; [reflexivity|reflexivity|reflexivity|exact Hok].
Qed.

End Events.

(** ** A block, folded *)

Section Block.
Context `{C : CidCrate} {B : Base64} {D : DagCborCodec} {M : MarkerCodec}.
Variable sha256 : bytes -> bytes.

(** The events of the rows a filter keeps, in order. *)
Definition kept_events (filter : RowFilter) (rows : list Row) : list Event :=
  omap (fun row => if keep filter row then
                     match row_to_event sha256 row with Ok ev => ev | Err _ => None end
                   else None) rows.

(** How many of them do not decode. *)
Definition undecodable (filter : RowFilter) (rows : list Row) : nat :=
  length (List.filter (fun row => keep filter row && negb (is_ok (row_to_event sha256 row))) rows).

Context `{HL : HostLog}.
Variable holds_records : HostState -> string -> list string -> result bool string.

Lemma fold_rows_apply_all filter f rows :
  fold_rows sha256 holds_records None filter f rows
  = let '(f', r) := apply_all f (kept_events filter rows) in
    (f', match r with Ok _ => Ok (undecodable filter rows) | Err e => Err e end).
Proof.
  revert f. induction rows as [|row rows IH]; intros f; [reflexivity|].
  cbn [fold_rows unheld]. unfold kept_events, undecodable. cbn [omap list_omap List.filter].
  fold (kept_events filter rows). destruct (keep filter row); cbn [negb andb]; [|apply IH].
  destruct (row_to_event sha256 row) as [[ev|]|e]; cbn [is_ok negb].
  - cbn [apply_all]. destruct (apply f ev) as [f1 [[]|e]]; [apply IH|reflexivity].
  - apply IH.
  - rewrite IH. by destruct (apply_all f (kept_events filter rows)) as [f1 [[]|e']].
Qed.

(** A block replayed from its rows.  When the fold over a block and the
    flush after it succeed, the host was handed exactly the events of the rows
    the sweep keeps, each once, and for every record its writes and deletes
    and its account's markers in the order of the rows; only the rows counted
    as undecodable are missing. *)
Theorem block_replayed_in_order filter h job tr rows f n f' r :
  fold_rows sha256 holds_records None filter (new h job tr) rows = (f, Ok n) -> flush f = (f', r) ->
  n = undecodable filter rows
  /\ delivered (host f') ≡ₚ delivered h ++ (kept_events filter rows ≫= translate job tr)
  /\ forall k, base.filter (touches k) (delivered (host f'))
              = base.filter (touches k) (delivered h ++ (kept_events filter rows ≫= translate job tr)).
Proof.
  rewrite fold_rows_apply_all. destruct (apply_all _ _) as [f1 [[]|e]] eqn:Ha; [|discriminate].
  intros [= <- <-] Hf. split; [done|].
  destruct (apply_all_stepped _ _ _ _ (new_inv h job tr) Ha) as (_ & _ & m & Hm & [Hp Ho] & Hr).
  rewrite (Hr eq_refl), take_ge in Hp, Ho by done. rewrite (flush_seen _ _ _ Hf).
  unfold seen at 2 in Hp. unfold translate_all in *. simpl in *. rewrite app_nil_r in Hp.
  split; [exact Hp|]. intros k. rewrite Ho. unfold seen. simpl. by rewrite app_nil_r.
Qed.

(** The live path over events in turn, each applied once. *)
Definition live_all (debug_str : string -> string) (s : Live) (host_tracked registered : list string)
    (evs : list Event) : Live :=
  foldl (fun s ev => (apply_fn debug_str s host_tracked registered ev).1) s evs.

Lemma live_all_delivers debug_str s host_tracked registered evs :
  delivered (live_host (live_all debug_str s host_tracked registered evs))
  = delivered (live_host s) ++ (evs ≫= handed registered).
Proof.
  revert s. induction evs as [|ev evs IH]; intros s; [by rewrite app_nil_r|].
  unfold live_all in *. cbn [foldl]. rewrite IH.
  destruct (apply_fn debug_str s host_tracked registered ev) as [s1 r] eqn:Ha.
  destruct (attempt_effect _ _ _ _ _ _ _ Ha) as (Hd & _). cbn [fst]. rewrite Hd, bind_cons. by rewrite <- app_assoc.
Qed.

(** A replay does what the live consumer would have done.  Events decoded
    from archive rows leave the host with the same events whether they are
    replayed or applied live, but for their origin and the time they act as of
    - which are the job's and the event's own. *)
Theorem replay_matches_live debug_str rows evs h job tr s host_tracked f flushed :
  Forall2 (fun row ev => row_to_event sha256 row = Ok (Some ev)) rows evs ->
  replay h job tr evs = (f, Ok tt, flushed) -> delivered (live_host s) = delivered h ->
  undated <$> delivered (host f)
  ≡ₚ undated <$> delivered (live_host (live_all debug_str s host_tracked tr evs)).
Proof.
  intros Hrows Hr Hs. destruct (replay_effect _ _ _ _ _ _ _ Hr) as (_ & n & _ & Hn & Hp & _).
  rewrite (Hn eq_refl), take_ge in Hp by done. rewrite Hp, live_all_delivers, Hs, !fmap_app. f_equiv.
  apply reflexive_eq. clear -Hrows. induction Hrows as [|row ev rows evs Hrow _ IH]; [done|].
  cbn. rewrite !fmap_app. f_equal; [by eapply row_translate_handed|done].
Qed.

End Block.

(** ** Concrete rows *)

#[local] Instance byte_markers : MarkerCodec := {|
  decode_account b := match b with [1] => Ok (true, None) | [0] => Ok (false, Some "deleted") | _ => Err "marker" end;
  decode_sync b := match b with [] => Ok None | _ => Err "marker" end;
|}.

#[local] Instance keeping_host : Host := {|
  HostState := list SourceEvent;
  ingest h e := (h ++ [e], Matched);
  ingest_with_error h e := (h ++ [e], (Matched, None));
  ingest_batch_with_error h b := (h ++ b, ({| outcomes := []; changed := [] |}, None));
|}.

#[local] Instance keeping_host_log : HostLog keeping_host.
Proof. exists (fun h : HostState => h); done. Defined.

Definition text_record : Ipld := IMap [("text", IString "hi")].
Definition encoded (i : Ipld) : bytes := default [] (to_vec i).

Definition text_cid : @Cid prefixed_cid := from_option (fun c => c) "" (dag_cbor_cid no_hash (encoded text_record)).

Definition row_at (seq k : Z) (d r : string) (b : bytes) : Row :=
  {| row_seq := seq; witnessed_at := seq * 10; indexed_at := 0; row_kind := k;
     row_collection := "app.test.post"; row_did := d; row_rkey := r; row_rev := "3k"; payload := b |}.

Definition create_row : Row := row_at 11 KIND_CREATE "did:plc:a" "1" (encoded text_record).
Definition rows : list Row :=
  [create_row; row_at 12 KIND_ACCOUNT "did:plc:b" "" [1]; row_at 13 KIND_ACCOUNT "did:plc:c" "" [9];
   row_at 14 KIND_DELETE "did:plc:a" "1" []; row_at 99 KIND_DELETE "did:plc:a" "2" []].
Definition both : RowFilter :=
  {| kinds := Both; collections := {["app.test.post"]}; dids := None; after_seq := 10; through_seq := 20 |}.

Lemma resumed_sweep_exact_witness :
  keep (window both 10 20) create_row = keep (window both 10 13) create_row || keep (window both 13 20) create_row
  /\ (keep (window both 10 13) create_row && keep (window both 13 20) create_row) = false.
Proof. apply (resumed_sweep_exact both 10 13 20 create_row). lia. Defined.

Lemma archived_record_verifies_witness :
  exists commit v, row_to_event no_hash create_row
    = Ok (Some {| event_did := "did:plc:a"; cursor := V2 11 110; kind := KCommit commit |})
    /\ commit_record commit = Some v
    /\ verify_record_cid no_hash (cid_to_string text_cid) v = Match.
Proof.
  destruct (archived_record_verifies no_hash create_row text_record
              text_cid) as (commit & v & H1 & H2 & _ & H4).
  - reflexivity.
  - discriminate.
  - reflexivity.
  - reflexivity.
  - reflexivity.
  - exists commit, v. split; [exact H1|]. split; [exact H2|exact H4].
Defined.

Definition live_start : Live := Build_Live (HOST := keeping_host) [] 0 0 [].
Definition decoded : list Event := kept_events no_hash both rows.

Lemma replay_matches_live_witness :
  undated <$> delivered (host (replay (HOST := keeping_host) [] "job" [] decoded).1.1)
  ≡ₚ undated <$> delivered (live_host (live_all (fun s => s) live_start [] [] decoded)).
Proof.
  apply (replay_matches_live no_hash (fun s => s) [create_row; row_at 12 KIND_ACCOUNT "did:plc:b" "" [1];
           row_at 14 KIND_DELETE "did:plc:a" "1" []] decoded (live_host live_start) "job" [] live_start []
           _ (replay (HOST := keeping_host) [] "job" [] decoded).2).
  - unfold decoded. repeat constructor.
  - rewrite (triple_eta (replay _ _ _ _)). f_equal.
  - reflexivity.
Defined.

Definition first_block : ReplayFold * result nat string :=
  fold_rows no_hash (fun _ _ _ => Ok true) None both (new (HOST := keeping_host) [] "job" []) rows.

Lemma block_replayed_in_order_witness :
  delivered (host (flush first_block.1).1) ≡ₚ kept_events no_hash both rows ≫= translate "job" []
  /\ length (kept_events no_hash both rows) = 3%nat /\ undecodable no_hash both rows = 1%nat.
Proof.
  destruct (block_replayed_in_order no_hash (fun _ _ _ => Ok true) both (host (new (HOST := keeping_host) [] "job" []))
              "job" [] rows first_block.1 1%nat (flush first_block.1).1 (flush first_block.1).2) as (_ & Hp & _).
  - rewrite (surjective_pairing (fold_rows _ _ _ _ _ _)). f_equal.
  - apply surjective_pairing.
  - split; [exact Hp|]. split; vm_compute; reflexivity.
Defined.
