(* ===== verification/Segment.v ===== *)
(** * Archive segments

    [crates/happyview-source-jetstream/src/archive/segment.rs]: the reader of
    sealed segment files - the header and the block index, a block's frame, and
    the columns of a decompressed block.  Slicing and indexing out of range
    panic in Rust: they are [None] here, and a reader returns
    [option (result ..)], so that "never panics" is a theorem.  A file is its
    bytes; [read_exact] fails at its end.  The zstd decoder is an interface. *)

From stdpp Require Import list strings pretty.
From Stdlib Require Import ZArith.
From S2P Require Import Prelude Words Utf8 Json Cid StreamEvent Watermark Workers LiveApply ReplayFold ArchiveRows.

#[local] Open Scope Z_scope.

Definition HEADER_LEN : Z := 256.
Definition INDEX_ENTRY_LEN : Z := 52.
Definition MAX_DECODED_BLOCK : Z := Z.shiftl 64 20.
Definition MAX_BLOCK_EVENTS : Z := 262144.
Definition MAGIC : list Z := [0x6a; 0x73; 0x73; 0x30].
Definition VERSION : Z := 1.

(** Rust's [Result] behind a possible panic. *)
Abbreviation fallible A := (option (result A string)).

(** ** Integers in a byte slice *)

Definition slice (b : list Z) (s e : nat) : option (list Z) :=
  if (s <=? e)%nat && (e <=? length b)%nat then Some (take (e - s) (drop s b)) else None.

(** [from_le_bytes]. *)
Fixpoint le_value (l : list Z) : Z :=
  match l with [] => 0 | b :: l' => b + 2 ^ 8 * le_value l' end.

Definition u16_at (b : list Z) (at_ : nat) : option Z := le_value <$> slice b at_ (at_ + 2).
Definition u32_at (b : list Z) (at_ : nat) : option Z := le_value <$> slice b at_ (at_ + 4).
Definition u64_at (b : list Z) (at_ : nat) : option Z := le_value <$> slice b at_ (at_ + 8).

(** ** The index *)

Record BlockEntry : Type := {
  offset : Z;
  compressed_size : Z;
  uncompressed_size : Z;
  event_count : Z;
  min_seq : Z;
  max_seq : Z;
}.

(** [seek(SeekFrom::Start(pos))] and [read_exact] of [n] bytes. *)
Definition read_exact_at (file : list Z) (pos n : Z) : result (list Z) string :=
  if (0 <=? n) && (0 <=? pos) && (pos + n <=? len file)
  then Ok (take (Z.to_nat n) (drop (Z.to_nat pos) file))
  else Err "failed to fill whole buffer".

Definition checked_add (a b : Z) : option Z := if a + b <? U64 then Some (a + b) else None.
Definition checked_mul (a b : Z) : option Z := if a * b <? U64 then Some (a * b) else None.
Definition saturating_add (a b : Z) : Z := Z.min (a + b) (U64 - 1).

(** One entry of the index, at its place in the index bytes. *)
Definition entry_at (index : list Z) (at_ : nat) : option BlockEntry :=
  o ← u64_at index at_;
  c ← u32_at index (at_ + 8);
  u ← u32_at index (at_ + 12);
  n ← u32_at index (at_ + 16);
  lo ← u64_at index (at_ + 20);
  hi ← u64_at index (at_ + 28);
  Some {| offset := o; compressed_size := c; uncompressed_size := u; event_count := n;
          min_seq := lo; max_seq := hi |}.

(** The loop over the entries, [count] of them from the [i]th. *)
Fixpoint read_entries (index : list Z) (footer_offset : Z) (count i : nat) : fallible (list BlockEntry) :=
  match count with
  | O => Some (Ok [])
  | S count' =>
      entry ← entry_at index (i * Z.to_nat INDEX_ENTRY_LEN);
      match checked_add (offset entry) (8 + compressed_size entry) with
      | None => Some (Err "block offset overflows")
      | Some end_ =>
          if (offset entry <? HEADER_LEN) || (footer_offset <? end_)
          then Some (Err ("block " +:+ pretty i +:+ " lies outside the block region"))
          else let! rest := read_entries index footer_offset count' (S i) in Some (Ok (entry :: rest))
      end
  end.

Definition read_index (file : list Z) (file_len : Z) : fallible (list BlockEntry) :=
  if file_len <? HEADER_LEN then Some (Err "the segment is shorter than its header")
  else
    let! header := Some (read_exact_at file 0 HEADER_LEN) in
    magic ← slice header 0 4;
    if negb (bool_decide (magic = MAGIC)) then Some (Err "not a jetstream segment (bad magic)")
    else
      version ← u16_at header 12;
      if negb (version =? VERSION) then Some (Err ("unsupported segment version " +:+ pretty version))
      else
        block_count ← u32_at header 14;
        footer_offset ← u64_at header 58;
        index_offset ← u64_at header 90;
        if (footer_offset <? HEADER_LEN) || (file_len <? footer_offset)
        then Some (Err ("footer offset " +:+ pretty footer_offset +:+ " is outside the file"))
        else
          match checked_mul block_count INDEX_ENTRY_LEN with
          | None => Some (Err "block count overflows")
          | Some index_len =>
              if (index_offset <? footer_offset) || (file_len <? saturating_add index_offset index_len)
              then Some (Err "the block index is outside the footer")
              else
                let! index := Some (read_exact_at file index_offset index_len) in
                read_entries index footer_offset (Z.to_nat block_count) 0
          end.

Definition read_block_frame (file : list Z) (entry : BlockEntry) : fallible (list Z) :=
  let! prefix := Some (read_exact_at file (offset entry) 8) in
  let n := le_value prefix in
  if negb (n =? compressed_size entry)
  then Some (Err ("block length prefix " +:+ pretty n +:+ " disagrees with the index ("
                  +:+ pretty (compressed_size entry) +:+ ")"))
  else Some (read_exact_at file (offset entry + 8) n).

(** ** A block's columns *)

(** The closure [take]: the next [n] bytes of the block, and the position
    after them.  [at.checked_add(n)] overflows only past the block's end. *)
Definition take_range (block : list Z) (at_ n : nat) : fallible ((nat * nat) * nat) :=
  if (at_ + n <=? length block)%nat then Some (Ok ((at_, at_ + n), at_ + n)%nat)
  else Some (Err "block is shorter than its columns").

Definition text (b : list Z) : fallible string :=
  Some (if utf8_valid b then Ok (bytes_str b) else Err "identifier is not UTF-8").

(** The loops over the variable-length columns: the [i]th item has length
    [len_at i] and becomes [f i bytes]. *)
Fixpoint read_each {X} (block : list Z) (len_at : nat -> option nat)
    (f : nat -> list Z -> fallible X) (count i at_ : nat) : fallible (list X * nat) :=
  match count with
  | O => Some (Ok ([], at_))
  | S count' =>
      n ← len_at i;
      let! r := take_range block at_ n in
      let '((s, e), at1) := r in
      b ← slice block s e;
      let! x := f i b in
      let! rest := read_each block len_at f count' (S i) at1 in
      Some (Ok (x :: rest.1, rest.2))
  end.

Definition byte_len (block : list Z) (start i : nat) : option nat := Z.to_nat <$> block !! (start + i)%nat.
Definition u16_len (block : list Z) (start i : nat) : option nat := Z.to_nat <$> u16_at block (start + 2 * i).
Definition u32_len (block : list Z) (start i : nat) : option nat := Z.to_nat <$> u32_at block (start + 4 * i).

(** The starts of the fixed-width columns. *)
Record Columns : Type := {
  seqs : nat; witnessed : nat; indexed : nat; row_kinds : nat;
  collection_lens : nat; did_lens : nat; rkey_lens : nat; rev_lens : nat; payload_lens : nat;
}.

Definition row_of (block : list Z) (c : Columns) (names : list string * list string * list string * list string)
    (i : nat) (b : list Z) : fallible Row :=
  let '(collections, dids, rkeys, revs) := names in
  collection ← collections !! i;
  did ← dids !! i;
  rkey ← rkeys !! i;
  rev ← revs !! i;
  seq ← u64_at block (seqs c + 8 * i);
  w ← u64_at block (witnessed c + 8 * i);
  ix ← u64_at block (indexed c + 8 * i);
  k ← block !! (row_kinds c + i)%nat;
  Some (Ok {| row_seq := seq; witnessed_at := as_i64 w; indexed_at := as_i64 ix; row_kind := k;
              row_collection := collection; row_did := did; row_rkey := rkey; row_rev := rev;
              payload := b |}).

(** The variable-length columns, from position [at_] on, and the check that
    nothing follows them. *)
Definition decode_rows (block : list Z) (n : nat) (c : Columns) (at_ : nat) : fallible (list Row) :=
  let! collections := read_each block (byte_len block (collection_lens c)) (fun _ => text) n 0 at_ in
  let! dids := read_each block (u16_len block (did_lens c)) (fun _ => text) n 0 collections.2 in
  let! rkeys := read_each block (byte_len block (rkey_lens c)) (fun _ => text) n 0 dids.2 in
  let! revs := read_each block (byte_len block (rev_lens c)) (fun _ => text) n 0 rkeys.2 in
  let! rows := read_each block (u32_len block (payload_lens c))
                 (row_of block c (collections.1, dids.1, rkeys.1, revs.1)) n 0 revs.2 in
  if negb (rows.2 =? length block)%nat
  then Some (Err (pretty (length block - rows.2)%nat +:+ " trailing bytes after the block"))
  else Some (Ok rows.1).

(** [decode_block] after the decompression. *)
Definition decode_columns (block : list Z) : fallible (list Row) :=
  let! r := take_range block 0 4 in
  count ← u32_at block 0;
  if MAX_BLOCK_EVENTS <? count then Some (Err ("block claims " +:+ pretty count +:+ " events"))
  else
    let n := Z.to_nat count in
    let! r1 := take_range block r.2 (8 * n) in
    let! r2 := take_range block r1.2 (8 * n) in
    let! r3 := take_range block r2.2 (8 * n) in
    let! r4 := take_range block r3.2 n in
    let! r5 := take_range block r4.2 n in
    let! r6 := take_range block r5.2 (2 * n) in
    let! r7 := take_range block r6.2 n in
    let! r8 := take_range block r7.2 n in
    let! r9 := take_range block r8.2 (4 * n) in
    decode_rows block n
      {| seqs := r1.1.1; witnessed := r2.1.1; indexed := r3.1.1; row_kinds := r4.1.1;
         collection_lens := r5.1.1; did_lens := r6.1.1; rkey_lens := r7.1.1; rev_lens := r8.1.1;
         payload_lens := r9.1.1 |} r9.2.

(** ** Decompression *)

(** [zstd::stream::read::Decoder]: a decoder over a frame, and [read] into a
    buffer of [want] bytes. *)
Class Zstd : Type := {
  Decoder : Type;
  with_buffer : list Z -> result Decoder string;
  zread : Decoder -> Z -> result (list Z * Decoder) string;
}.

(** The contract of [Read]: what a decoder will still give and the error it
    then ends in, if any; a read gives some of it, nothing only at the end. *)
Class ZstdSpec (Zs : Zstd) : Type := {
  output : Decoder -> list Z;
  broken : Decoder -> option string;
  zread_ok : forall d want chunk d', 0 < want -> zread d want = Ok (chunk, d') ->
    len chunk <= want /\ output d = chunk ++ output d' /\ broken d = broken d'
    /\ (chunk = [] -> output d = [] /\ broken d = None);
  zread_err : forall d want e, zread d want = Err e -> output d = [] /\ broken d = Some e;
  output_bytes : forall d, is_bytes (output d);
}.

Section Decompress.
Context `{Zs : Zstd}.

Definition CHUNK : Z := Z.shiftl 64 10.

(** A round of the loop; the growth of the buffer's capacity is left out. *)
Definition read_round (limit : Z) (s : Decoder * list Z) : (Decoder * list Z) + result (list Z) string :=
  let '(decoder, block) := s in
  if len block <? limit then
    let want := Z.min CHUNK (limit - len block) in
    match zread decoder want with
    | Err e => inr (Err ("block does not decompress: " +:+ e))
    | Ok (chunk, decoder') =>
        if len chunk =? 0 then inr (Ok block) else inl (decoder', block ++ chunk)
    end
  else inr (Ok block).

Definition read_capped (frame : list Z) (cap : Z) : result (list Z) string :=
  match with_buffer frame with
  | Err e => Err ("block is not a zstd frame: " +:+ e)
  | Ok decoder =>
      let limit := cap + 1 in
      match iter_until (read_round limit) (Z.to_pos (limit + 1)) (decoder, []) with
      | inr r => r
      | inl (_, block) => Ok block
      end
  end.

Definition decompress_capped (frame : list Z) : result (list Z) string :=
  let? block := read_capped frame MAX_DECODED_BLOCK in
  if MAX_DECODED_BLOCK <? len block
  then Err ("block decompresses to more than " +:+ pretty MAX_DECODED_BLOCK +:+ " bytes")
  else Ok block.

Definition decode_block (frame : list Z) : fallible (list Row) :=
  let! block := Some (decompress_capped frame) in decode_columns block.

End Decompress.

Section DecompressSpec.
Context `{ZS : ZstdSpec}.

(** What is read and what is left make up the frame's output. *)
Definition reading (d : Decoder) (limit : Z) (s : Decoder * list Z) : Prop :=
  s.2 ++ output s.1 = output d /\ broken s.1 = broken d /\ len s.2 <= limit.

(** The output cut one byte past the cap, or the error that comes before. *)
Definition capped (d : Decoder) (limit : Z) : result (list Z) string :=
  match broken d with
  | Some e => if len (output d) <? limit then Err ("block does not decompress: " +:+ e)
              else Ok (take (Z.to_nat limit) (output d))
  | None => Ok (take (Z.to_nat limit) (output d))
  end.

Lemma read_round_inv d limit s :
  0 < limit -> reading d limit s ->
  match read_round limit s with
  | inl s1 => reading d limit s1 /\ len s.2 < len s1.2
  | inr r => r = capped d limit
  end.
Proof.
  destruct s as [dec block]. intros Hl (Hout & Hbr & Hlen). simpl in *. unfold read_round.
  destruct (Z.ltb_spec (len block) limit) as [Hlt|Hge].
  - assert (0 < Z.min CHUNK (limit - len block)) as Hw by (unfold CHUNK; change (Z.shiftl 64 10) with 65536; lia).
    destruct (zread dec _) as [[chunk dec']|e] eqn:Hr.
    + destruct (zread_ok _ _ _ _ Hw Hr) as (Hc & Ho & Hb & Hnil).
      destruct (Z.eqb_spec (len chunk) 0) as [Hz|Hz].
      * destruct chunk as [|x chunk]; [|unfold len in Hz; simpl in Hz; lia].
        destruct (Hnil eq_refl) as [Hout0 Hbr0]. rewrite Hout0, app_nil_r in Hout. subst block.
        unfold capped. rewrite <- Hbr, Hbr0, take_ge; [done|]. unfold len in *. lia.
      * split; [|simpl; rewrite len_app; pose proof (len_nonneg chunk); lia]. split; [simpl; by rewrite <- app_assoc, <- Ho|].
        split; [simpl; congruence|]. simpl. rewrite len_app. lia.
    + destruct (zread_err _ _ _ Hr) as [Hout0 Hbr0]. rewrite Hout0, app_nil_r in Hout. subst block.
      unfold capped. rewrite <- Hbr, Hbr0. by rewrite (proj2 (Z.ltb_lt _ _) Hlt).
  - assert (take (Z.to_nat limit) (output d) = block) as Ht.
    { rewrite <- Hout, take_app_le by (unfold len in *; lia). apply take_ge. unfold len in *. lia. }
    unfold capped. rewrite Ht. destruct (broken d); [|done].
    destruct (Z.ltb_spec (len (output d)) limit); [|done].
    rewrite <- Hout, len_app in *. pose proof (len_nonneg (output dec)). lia.
Qed.

(** Every exit of the loop, with enough fuel. *)
Lemma read_capped_spec frame cap d :
  0 <= cap -> with_buffer frame = Ok d -> read_capped frame cap = capped d (cap + 1).
Proof.
  intros Hcap Hd. unfold read_capped. rewrite Hd. set (limit := cap + 1).
  assert (0 < limit) as Hl by lia.
  assert (reading d limit (d, [])) as H0 by (split_and!; [done|done|unfold len; simpl; lia]).
  pose proof (iter_until_inv (read_round limit) (reading d limit) (fun r => r = capped d limit)
    ltac:(intros s Hs; pose proof (read_round_inv d limit s Hl Hs) as H;
          destruct (read_round limit s); [apply H|exact H]) (Z.to_pos (limit + 1)) _ H0) as Hinv.
  destruct (iter_until _ _ _) as [[dec block]|r] eqn:Hit; [|done]. exfalso.
  apply (iter_until_measure (read_round limit) (reading d limit) (fun s => limit - len s.2)) in Hit as [_ Hm].
  - simpl in Hm. unfold len in Hm at 3. simpl in Hm. lia.
  - intros s s1 Hs Hstep. pose proof (read_round_inv d limit s Hl Hs) as H. rewrite Hstep in H.
    destruct H as [(? & ? & ?) ?]. split; [by split_and!|]. lia.
  - done.
Qed.

End DecompressSpec.

(** ** Little-endian integers *)

Fixpoint le_bytes (w : nat) (x : Z) : list Z :=
  match w with O => [] | S w' => x mod 2 ^ 8 :: le_bytes w' (x / 2 ^ 8) end.

Lemma length_le_bytes w x : length (le_bytes w x) = w.
Proof. revert x. induction w as [|w IH]; intros x; simpl; [done|]. by rewrite IH. Qed.

Lemma le_bytes_range w x : is_bytes (le_bytes w x).
Proof.
  revert x. induction w as [|w IH]; intros x; simpl; constructor; [|apply IH].
  unfold is_byte. apply Z.mod_pos_bound. lia.
Qed.

Lemma pow_width w : 2 ^ (8 * Z.of_nat (S w)) = 2 ^ 8 * 2 ^ (8 * Z.of_nat w).
Proof. rewrite <- Z.pow_add_r by lia. f_equal. lia. Qed.

Lemma le_value_range l : is_bytes l -> 0 <= le_value l < 2 ^ (8 * len l).
Proof.
  induction 1 as [|b l Hb _ IH]; [unfold len; simpl; lia|]. cbn [le_value].
  change (len (b :: l)) with (Z.of_nat (S (length l))). rewrite pow_width. fold (len l).
  unfold is_byte in Hb. change (2 ^ 8) with 256. nia.
Qed.

Lemma le_value_bytes w x : 0 <= x < 2 ^ (8 * Z.of_nat w) -> le_value (le_bytes w x) = x.
Proof.
  revert x. induction w as [|w IH]; intros x Hx; [simpl in *; lia|]. cbn [le_bytes le_value].
  rewrite pow_width in Hx. rewrite IH; [pose proof (Z.div_mod x (2 ^ 8)); lia|].
  split; [apply Z.div_pos; lia|]. apply Z.div_lt_upper_bound; lia.
Qed.

Lemma le_bytes_value l : is_bytes l -> le_bytes (length l) (le_value l) = l.
Proof.
  induction 1 as [|b l Hb _ IH]; [done|]. cbn [length le_value le_bytes]. unfold is_byte in Hb.
  rewrite (Z.mul_comm (2 ^ 8)), Z.mod_add, Z.div_add, Z.mod_small, Z.div_small by lia.
  by rewrite Z.add_0_l, IH.
Qed.

Lemma str_bytes_str l : is_bytes l -> str_bytes (bytes_str l) = l.
Proof.
  induction 1 as [|b l Hb _ IH]; [done|]. simpl. rewrite IH. f_equal.
  unfold byte_of, code, is_byte in *. rewrite N_ascii_embedding by lia. lia.
Qed.

(** ** Slices *)

Lemma slice_app (pre mid post : list Z) s e :
  s = length pre -> e = (length pre + length mid)%nat -> slice (pre ++ mid ++ post) s e = Some mid.
Proof.
  intros -> ->. unfold slice. rewrite !length_app.
  rewrite (proj2 (Nat.leb_le _ _)), (proj2 (Nat.leb_le _ _)) by lia. simpl.
  rewrite drop_app_length, Nat.add_comm, Nat.add_sub, take_app_length. done.
Qed.

Lemma slice_prefix (mid post : list Z) e : e = length mid -> slice (mid ++ post) 0 e = Some mid.
Proof. intros ->. exact (slice_app [] mid post 0 _ eq_refl eq_refl). Qed.

Lemma slice_some b s e : (s <= e <= length b)%nat -> exists m, slice b s e = Some m /\ length m = (e - s)%nat.
Proof.
  intros H. unfold slice. rewrite (proj2 (Nat.leb_le _ _)), (proj2 (Nat.leb_le _ _)) by lia. simpl.
  eexists. split; [done|]. rewrite length_take, length_drop. lia.
Qed.

Lemma is_bytes_app l1 l2 : is_bytes (l1 ++ l2) <-> is_bytes l1 /\ is_bytes l2.
Proof. apply Forall_app. Qed.

(** A column of [w]-byte integers. *)
Definition column (w : nat) (vals : list Z) : list Z := vals ≫= le_bytes w.

Lemma length_column w vals : length (column w vals) = (w * length vals)%nat.
Proof.
  induction vals as [|x vals IH]; [simpl; lia|]. unfold column in *. rewrite bind_cons, length_app, IH, length_le_bytes.
  simpl. lia.
Qed.

Lemma column_range w vals : is_bytes (column w vals).
Proof.
  induction vals as [|x vals IH]; [constructor|]. unfold column. rewrite bind_cons.
  apply is_bytes_app. split; [apply le_bytes_range|done].
Qed.

(** Any bytes of the right length are a column of values in range. *)
Lemma column_exists w n b :
  is_bytes b -> length b = (w * n)%nat ->
  exists vals, b = column w vals /\ length vals = n /\ Forall (fun x => 0 <= x < 2 ^ (8 * Z.of_nat w)) vals.
Proof.
  revert b. induction n as [|n IH]; intros b Hb Hl.
  - exists []. destruct b; [done|simpl in Hl; lia].
  - destruct (IH (drop w b)) as (vals & Hv & Hn & Hr); [by apply Forall_drop|rewrite length_drop; lia|].
    exists (le_value (take w b) :: vals).
    assert (length (take w b) = w) as Hw by (rewrite length_take; lia).
    split_and!; [|simpl; lia|].
    + unfold column. rewrite bind_cons. fold (column w vals). rewrite <- Hv, <- Hw at 1.
      rewrite le_bytes_value by (by apply Forall_take). by rewrite take_drop.
    + constructor; [|done]. pose proof (le_value_range (take w b)) as H. unfold len in H. rewrite Hw in H.
      apply H. by apply Forall_take.
Qed.

Lemma column_split w vals i x :
  vals !! i = Some x ->
  exists post, column w vals = column w (take i vals) ++ le_bytes w x ++ post.
Proof.
  intros Hi. exists (column w (drop (S i) vals)). rewrite <- (take_drop_middle vals i x Hi) at 1.
  unfold column. rewrite bind_app, bind_cons. done.
Qed.

(** Reading the [i]th integer of a column that starts at [s]. *)
Lemma column_at w pre vals post s i x :
  s = length pre -> vals !! i = Some x -> 0 <= x < 2 ^ (8 * Z.of_nat w) ->
  le_value <$> slice (pre ++ column w vals ++ post) (s + w * i) (s + w * i + w) = Some x.
Proof.
  intros -> Hi Hx. destruct (column_split w vals i x Hi) as [rest Hc].
  assert (i < length vals)%nat as Hlt by (by eapply lookup_lt_Some).
  rewrite Hc, <- !app_assoc, app_assoc.
  rewrite slice_app; [simpl; by rewrite le_value_bytes| |];
    rewrite ?length_app, length_column, length_take, ?length_le_bytes; lia.
Qed.

Lemma byte_at (pre col post : list Z) s i x :
  s = length pre -> col !! i = Some x -> (pre ++ col ++ post) !! (s + i)%nat = Some x.
Proof.
  intros -> Hi. rewrite lookup_app_r by lia. replace (length pre + i - length pre)%nat with i by lia.
  by apply lookup_app_l_Some.
Qed.

(** ** The variable-length columns *)

(** The items of [chunks], from index [i] on, have the announced lengths and
    become [xs]. *)
Definition each_ok {X} (len_at : nat -> option nat) (f : nat -> list Z -> fallible X) (i : nat)
    (chunks : list (list Z)) (xs : list X) : Prop :=
  length chunks = length xs /\
  forall k c x, chunks !! k = Some c -> xs !! k = Some x ->
    len_at (i + k)%nat = Some (length c) /\ f (i + k)%nat c = Some (Ok x).

Lemma each_ok_cons {X} len_at (f : nat -> list Z -> fallible X) i c chunks x xs :
  each_ok len_at f i (c :: chunks) (x :: xs) <->
  len_at i = Some (length c) /\ f i c = Some (Ok x) /\ each_ok len_at f (S i) chunks xs.
Proof.
  split.
  - intros [Hl Hk]. destruct (Hk 0%nat c x) as [H1 H2]; [done|done|]. rewrite Nat.add_0_r in *.
    split_and!; [done|done|]. split; [simpl in Hl; lia|]. intros k c' x' Hc Hx.
    replace (S i + k)%nat with (i + S k)%nat by lia. by apply Hk.
  - intros (H1 & H2 & Hl & Hk). split; [simpl; lia|]. intros [|k] c' x' Hc Hx; simpl in *.
    + injection Hc as ->. injection Hx as ->. by rewrite Nat.add_0_r.
    + replace (i + S k)%nat with (S i + k)%nat by lia. by apply Hk.
Qed.

Lemma take_range_app pre tail n :
  take_range (pre ++ tail) (length pre) n =
  if (n <=? length tail)%nat then Some (Ok ((length pre, length pre + n), length pre + n)%nat)
  else Some (Err "block is shorter than its columns").
Proof.
  unfold take_range. rewrite length_app.
  destruct (Nat.leb_spec n (length tail)), (Nat.leb_spec (length pre + n) (length pre + length tail)); done || lia.
Qed.

(** A loop over a column succeeds exactly when what follows is the items, with
    nothing between them. *)
Lemma read_each_iff {X} len_at (f : nat -> list Z -> fallible X) count i pre tail xs at' :
  read_each (pre ++ tail) len_at f count i (length pre) = Some (Ok (xs, at')) <->
  exists chunks post, tail = concat chunks ++ post /\ length chunks = count
    /\ each_ok len_at f i chunks xs /\ at' = length (pre ++ concat chunks).
Proof.
  revert i pre tail xs at'. induction count as [|count IH]; intros i pre tail xs at'; cbn [read_each].
  - split.
    + intros [= <- <-]. exists [], tail. split_and!; [done|done| |by rewrite app_nil_r]. split; [done|]. done.
    + intros (chunks & post & _ & Hl & [Hx _] & ->). destruct chunks; [|done]. destruct xs; [|done].
      by rewrite app_nil_r.
  - split.
    + destruct (len_at i) as [n|] eqn:Hn; [|done]. cbn [mbind option_bind]. rewrite take_range_app.
      destruct (Nat.leb_spec n (length tail)) as [Hle|]; [|done].
      assert (tail = take n tail ++ drop n tail) as Ht by (by rewrite take_drop).
      rewrite Ht at 1. rewrite (slice_app pre (take n tail)) by (rewrite ?length_take; lia). cbn [mbind option_bind].
      destruct (f i (take n tail)) as [[x|]|] eqn:Hf; [|done|done].
      rewrite Ht at 1. rewrite app_assoc.
      replace (length pre + n)%nat with (length (pre ++ take n tail)) by (rewrite length_app, length_take; lia).
      destruct (read_each _ _ _ _ _ _) as [[[ys e]|]|] eqn:Hr; [|done|done].
      intros [= <- <-]. apply IH in Hr as (chunks & post & Hd & Hl & Hok & Hat).
      exists (take n tail :: chunks), post. cbn [concat fst snd].
      split_and!; [by rewrite <- app_assoc, <- Hd|simpl; lia| |by rewrite Hat, app_assoc].
      apply each_ok_cons. split_and!; [rewrite length_take, Nat.min_l by lia; done|done|done].
    + intros (chunks & post & -> & Hl & Hok & ->). destruct chunks as [|c chunks]; [done|].
      destruct xs as [|x xs]; [by destruct Hok|]. apply each_ok_cons in Hok as (Hn & Hf & Hok).
      rewrite Hn. cbn [mbind option_bind concat]. rewrite <- app_assoc, take_range_app, length_app.
      rewrite (proj2 (Nat.leb_le _ _)) by lia. rewrite (slice_app pre c) by lia. cbn [mbind option_bind].
      rewrite Hf, app_assoc, <- length_app.
      rewrite (proj2 (IH (S i) (pre ++ c) (concat chunks ++ post) xs (length ((pre ++ c) ++ concat chunks))));
        [by rewrite <- app_assoc|].
      exists chunks, post. simpl in Hl. split_and!; [done|lia|done|done].
Qed.

(** No loop panics, when the lengths and the items are there. *)
Lemma read_each_no_panic {X} block len_at (f : nat -> list Z -> fallible X) count i at_ :
  (forall k, (i <= k < i + count)%nat -> is_Some (len_at k) /\ forall b, is_Some (f k b)) ->
  is_Some (read_each block len_at f count i at_).
Proof.
  revert i at_. induction count as [|count IH]; intros i at_ Hk; cbn [read_each]; [by eexists|].
  destruct (Hk i) as [[n ->] Hf]; [lia|]. cbn [mbind option_bind]. unfold take_range.
  destruct (Nat.leb_spec (at_ + n) (length block)); [|by eexists].
  destruct (slice_some block at_ (at_ + n)) as (m & -> & _); [lia|]. cbn [mbind option_bind].
  destruct (Hf m) as [[x|e] ->]; [|by eexists].
  destruct (IH (S i) (at_ + n)%nat) as [[r|e] ->]; [intros k ?; apply Hk; lia|by eexists..].
Qed.

(** The texts of a column. *)
Lemma text_each len_at chunks xs :
  Forall is_bytes chunks ->
  each_ok len_at (fun _ => text) 0 chunks xs <->
  chunks = str_bytes <$> xs /\ Forall (fun s => utf8_valid (str_bytes s) = true) xs
  /\ forall k s, xs !! k = Some s -> len_at k = Some (String.length s).
Proof.
  intros Hb. split.
  - intros [Hl Hk]. rewrite Forall_lookup in Hb.
    assert (forall k c x, chunks !! k = Some c -> xs !! k = Some x ->
      len_at k = Some (length c) /\ utf8_valid c = true /\ c = str_bytes x) as Hk'.
    { intros k c x Hc Hx. destruct (Hk k c x Hc Hx) as [H1 H2]. unfold text in H2.
      destruct (utf8_valid c) eqn:Hu; [|done]. injection H2 as <-. by rewrite str_bytes_str by (by eapply Hb). }
    split_and!.
    + apply list_eq_same_length with (length xs); [by rewrite length_fmap|done|]. intros k c s Hlt Hc Hs.
      apply list_lookup_fmap_Some in Hs as (x & -> & Hx). by destruct (Hk' k c x Hc Hx) as (_ & _ & ->).
    + apply Forall_lookup. intros k x Hx. destruct (lookup_lt_is_Some_2 chunks k) as [c Hc];
        [rewrite Hl; by eapply lookup_lt_Some|]. by destruct (Hk' k c x Hc Hx) as (_ & ? & <-).
    + intros k x Hx. destruct (lookup_lt_is_Some_2 chunks k) as [c Hc]; [rewrite Hl; by eapply lookup_lt_Some|].
      destruct (Hk' k c x Hc Hx) as (-> & _ & ->). by rewrite length_str_bytes.
  - intros (-> & Hu & Hl). split; [by rewrite length_fmap|]. intros k c x Hc Hx.
    apply list_lookup_fmap_Some in Hc as (x' & -> & Hx'). rewrite Hx in Hx'. injection Hx' as <-.
    rewrite Forall_lookup in Hu. cbn [Nat.add]. rewrite (Hl k x Hx), length_str_bytes. split; [done|].
    unfold text. by rewrite (Hu k x Hx), bytes_str_bytes.
Qed.

(** ** The fixed-width columns *)

(** The values of the columns of a block. *)
Record Values : Type := {
  v_seq : list Z; v_witnessed : list Z; v_indexed : list Z; v_kind : list Z;
  v_collection : list Z; v_did : list Z; v_rkey : list Z; v_rev : list Z; v_payload : list Z;
}.

Definition fixed (n : nat) (v : Values) : list Z :=
  le_bytes 4 (Z.of_nat n) ++ column 8 (v_seq v) ++ column 8 (v_witnessed v) ++ column 8 (v_indexed v)
  ++ v_kind v ++ v_collection v ++ column 2 (v_did v) ++ v_rkey v ++ v_rev v ++ column 4 (v_payload v).

Definition in_width (w : nat) (vals : list Z) : Prop := Forall (fun x => 0 <= x < 2 ^ (8 * Z.of_nat w)) vals.

Record values_ok (n : nat) (v : Values) : Prop := {
  vk_n : Z.of_nat n <= MAX_BLOCK_EVENTS;
  vk_seq : length (v_seq v) = n /\ in_width 8 (v_seq v);
  vk_witnessed : length (v_witnessed v) = n /\ in_width 8 (v_witnessed v);
  vk_indexed : length (v_indexed v) = n /\ in_width 8 (v_indexed v);
  vk_kind : length (v_kind v) = n /\ is_bytes (v_kind v);
  vk_collection : length (v_collection v) = n /\ is_bytes (v_collection v);
  vk_did : length (v_did v) = n /\ in_width 2 (v_did v);
  vk_rkey : length (v_rkey v) = n /\ is_bytes (v_rkey v);
  vk_rev : length (v_rev v) = n /\ is_bytes (v_rev v);
  vk_payload : length (v_payload v) = n /\ in_width 4 (v_payload v);
}.

(** Where the columns of a block of [n] rows start. *)
Definition starts (n : nat) : Columns :=
  {| seqs := 4; witnessed := 4 + 8 * n; indexed := 4 + 8 * n + 8 * n;
     row_kinds := 4 + 8 * n + 8 * n + 8 * n; collection_lens := 4 + 8 * n + 8 * n + 8 * n + n;
     did_lens := 4 + 8 * n + 8 * n + 8 * n + n + n; rkey_lens := 4 + 8 * n + 8 * n + 8 * n + n + n + 2 * n;
     rev_lens := 4 + 8 * n + 8 * n + 8 * n + n + n + 2 * n + n;
     payload_lens := 4 + 8 * n + 8 * n + 8 * n + n + n + 2 * n + n + n |}%nat.

Definition fixed_len (n : nat) : nat := (payload_lens (starts n) + 4 * n)%nat.

Lemma length_fixed n v : values_ok n v -> length (fixed n v) = fixed_len n.
Proof.
  intros [_ [H1 _] [H2 _] [H3 _] [H4 _] [H5 _] [H6 _] [H7 _] [H8 _] [H9 _]]. unfold fixed, fixed_len. cbn [payload_lens starts].
  rewrite !length_app, !length_column, length_le_bytes. lia.
Qed.

Lemma peel k b :
  is_bytes b -> (k <= length b)%nat ->
  exists h t, b = h ++ t /\ length h = k /\ is_bytes h /\ is_bytes t.
Proof.
  intros Hb Hk. exists (take k b), (drop k b). rewrite take_drop, length_take.
  split_and!; [done|lia|by apply Forall_take|by apply Forall_drop].
Qed.

Lemma peel_column w n b :
  is_bytes b -> (w * n <= length b)%nat ->
  exists vals t, b = column w vals ++ t /\ (length vals = n /\ in_width w vals) /\ is_bytes t
    /\ length t = (length b - w * n)%nat.
Proof.
  intros Hb Hk. destruct (peel (w * n) b Hb Hk) as (h & t & -> & Hh & Hbh & Hbt).
  destruct (column_exists w n h Hbh Hh) as (vals & -> & Hn & Hr). exists vals, t.
  split_and!; try done. rewrite length_app. lia.
Qed.

(** Every block long enough is its columns and the rest. *)
Lemma split_fixed n block :
  is_bytes block -> (fixed_len n <= length block)%nat -> Z.of_nat n <= MAX_BLOCK_EVENTS ->
  u32_at block 0 = Some (Z.of_nat n) ->
  exists v tail, values_ok n v /\ block = fixed n v ++ tail.
Proof.
  intros Hb Hl Hmax Hc. unfold fixed_len in Hl. cbn [payload_lens starts] in Hl.
  destruct (peel 4 block Hb) as (h & b0 & -> & Hh & Hbh & Hb0); [lia|].
  assert (h = le_bytes 4 (Z.of_nat n)) as ->.
  { unfold u32_at in Hc. rewrite slice_prefix in Hc by lia. injection Hc as <-.
    by rewrite <- Hh, le_bytes_value. }
  rewrite length_app, length_le_bytes in Hl.
  destruct (peel_column 8 n b0) as (s1 & b1 & -> & H1 & Hb1 & L1); [done|lia|].
  destruct (peel_column 8 n b1) as (s2 & b2 & -> & H2 & Hb2 & L2); [done|lia|].
  destruct (peel_column 8 n b2) as (s3 & b3 & -> & H3 & Hb3 & L3); [done|lia|].
  destruct (peel n b3) as (s4 & b4 & -> & H4 & Hs4 & Hb4); [done|lia|]. rewrite length_app in L3.
  destruct (peel n b4) as (s5 & b5 & -> & H5 & Hs5 & Hb5); [done|lia|]. rewrite length_app in L3.
  destruct (peel_column 2 n b5) as (s6 & b6 & -> & H6 & Hb6 & L6); [done|lia|].
  destruct (peel n b6) as (s7 & b7 & -> & H7 & Hs7 & Hb7); [done|lia|]. rewrite length_app in L6.
  destruct (peel n b7) as (s8 & b8 & -> & H8 & Hs8 & Hb8); [done|lia|]. rewrite length_app in L6.
  destruct (peel_column 4 n b8) as (s9 & b9 & -> & H9 & _ & _); [done|lia|].
  exists {| v_seq := s1; v_witnessed := s2; v_indexed := s3; v_kind := s4; v_collection := s5; v_did := s6;
            v_rkey := s7; v_rev := s8; v_payload := s9 |}, b9.
  split; [by split|]. unfold fixed. cbn. by rewrite <- !app_assoc.
Qed.

(** The fixed-width part of a block is read exactly when it is there. *)
Lemma decode_columns_iff block rows :
  is_bytes block ->
  decode_columns block = Some (Ok rows) <->
  exists n v tail, values_ok n v /\ block = fixed n v ++ tail
    /\ decode_rows block n (starts n) (fixed_len n) = Some (Ok rows).
Proof.
  intros Hb. split.
  - unfold decode_columns, take_range. intros Hd.
    destruct (0 + 4 <=? length block)%nat eqn:H0; [|discriminate Hd].
    destruct (u32_at block 0) as [count|] eqn:Hc; [|discriminate Hd]. cbn [mbind option_bind] in Hd.
    destruct (Z.ltb_spec MAX_BLOCK_EVENTS count) as [|Hmax]; [discriminate Hd|]. cbn [fst snd] in Hd.
    assert (0 <= count) as Hpos.
    { unfold u32_at in Hc. destruct (slice block 0 (0 + 4)) as [m|] eqn:Hm; [|discriminate Hc].
      injection Hc as <-. apply le_value_range. unfold slice in Hm. destruct (_ && _); [|discriminate Hm].
      injection Hm as <-. by apply Forall_take, Forall_drop. }
    set (n := Z.to_nat count) in *. assert (count = Z.of_nat n) as Hn by lia. rewrite Hn in Hc, Hmax. clearbody n.
    do 8 (match type of Hd with
      | (match (if ?c then _ else _) with _ => _ end) = _ => destruct c; [|discriminate Hd]; cbn [fst snd] in Hd
      end).
    match type of Hd with
      | (match (if ?c then _ else _) with _ => _ end) = _ => destruct c eqn:Hle; [|discriminate Hd]; cbn [fst snd] in Hd
      end.
    apply Nat.leb_le in Hle.
    destruct (split_fixed n block) as (v & tail & Hv & ->); [done|unfold fixed_len; cbn [payload_lens starts]; lia|done|done|].
    by exists n, v, tail.
  - intros (n & v & tail & Hv & -> & Hr). pose proof (length_fixed n v Hv) as Hl.
    unfold fixed_len in Hl. cbn [payload_lens starts] in Hl.
    assert (u32_at (fixed n v ++ tail) 0 = Some (Z.of_nat n)) as Hc.
    { unfold u32_at, fixed. rewrite <- app_assoc.
      rewrite slice_prefix by (by rewrite length_le_bytes).
      cbn [fmap option_fmap option_map]. rewrite le_value_bytes; [done|].
      destruct Hv as [Hn _ _ _ _ _ _ _ _ _]. unfold MAX_BLOCK_EVENTS in Hn. change (2 ^ (8 * Z.of_nat 4)) with 4294967296. lia. }
    unfold decode_columns, take_range. rewrite length_app, Hl, Hc.
    rewrite (proj2 (Nat.leb_le _ _)) by lia. cbn [mbind option_bind].
    rewrite (proj2 (Z.ltb_ge _ _) (vk_n _ _ Hv)), Nat2Z.id. cbn [fst snd].
    do 9 (rewrite (proj2 (Nat.leb_le _ _)) by lia; cbn [fst snd]). exact Hr.
Qed.

(** Reading back the values of the columns. *)
Lemma values_lens n v :
  values_ok n v ->
  length (v_seq v) = n /\ length (v_witnessed v) = n /\ length (v_indexed v) = n /\ length (v_kind v) = n
  /\ length (v_collection v) = n /\ length (v_did v) = n /\ length (v_rkey v) = n /\ length (v_rev v) = n
  /\ length (v_payload v) = n.
Proof. intros [_ [] [] [] [] [] [] [] [] []]. done. Qed.

(** A column inside a block, found by what comes before it. *)
Lemma column_in w block pre (vals : list Z) post s i x :
  block = pre ++ column w vals ++ post -> s = length pre -> in_width w vals -> vals !! i = Some x ->
  le_value <$> slice block (s + w * i) (s + w * i + w) = Some x.
Proof. intros -> Hs Hw Hi. eapply column_at; [done|done|]. unfold in_width in Hw. rewrite Forall_lookup in Hw. by apply (Hw i). Qed.

Lemma byte_in (block pre col post : list Z) s i x :
  block = pre ++ col ++ post -> s = length pre -> col !! i = Some x -> block !! (s + i)%nat = Some x.
Proof. intros -> Hs Hi. by apply byte_at. Qed.

Ltac find_column :=
  unfold fixed; rewrite <- ?app_assoc; reflexivity.
Ltac start_length :=
  cbn [seqs witnessed indexed row_kinds collection_lens did_lens rkey_lens rev_lens payload_lens starts];
  rewrite ?length_app, ?length_column, ?length_le_bytes; lia.

Lemma read_values n v tail k :
  values_ok n v ->
  let block := fixed n v ++ tail in
  (forall x, v_seq v !! k = Some x -> u64_at block (seqs (starts n) + 8 * k) = Some x)
  /\ (forall x, v_witnessed v !! k = Some x -> u64_at block (witnessed (starts n) + 8 * k) = Some x)
  /\ (forall x, v_indexed v !! k = Some x -> u64_at block (indexed (starts n) + 8 * k) = Some x)
  /\ (forall x, v_kind v !! k = Some x -> block !! (row_kinds (starts n) + k)%nat = Some x)
  /\ (forall x, v_collection v !! k = Some x -> block !! (collection_lens (starts n) + k)%nat = Some x)
  /\ (forall x, v_did v !! k = Some x -> u16_at block (did_lens (starts n) + 2 * k) = Some x)
  /\ (forall x, v_rkey v !! k = Some x -> block !! (rkey_lens (starts n) + k)%nat = Some x)
  /\ (forall x, v_rev v !! k = Some x -> block !! (rev_lens (starts n) + k)%nat = Some x)
  /\ (forall x, v_payload v !! k = Some x -> u32_at block (payload_lens (starts n) + 4 * k) = Some x).
Proof.
  intros Hv. cbv zeta. pose proof (values_lens n v Hv) as (L1 & L2 & L3 & L4 & L5 & L6 & L7 & L8 & L9).
  destruct Hv as [_ [_ W1] [_ W2] [_ W3] _ _ [_ W6] _ _ [_ W9]]. unfold u64_at, u32_at, u16_at.
  split_and!; intros x Hx.
  - eapply (column_in 8 _ (le_bytes 4 (Z.of_nat n))); [find_column|start_length|done|done].
  - eapply (column_in 8 _ (le_bytes 4 (Z.of_nat n) ++ column 8 (v_seq v))); [find_column|start_length|done|done].
  - eapply (column_in 8 _ (le_bytes 4 (Z.of_nat n) ++ column 8 (v_seq v) ++ column 8 (v_witnessed v)));
      [find_column|start_length|done|done].
  - eapply (byte_in _ (le_bytes 4 (Z.of_nat n) ++ column 8 (v_seq v) ++ column 8 (v_witnessed v)
      ++ column 8 (v_indexed v)) (v_kind v)); [find_column|start_length|done].
  - eapply (byte_in _ (le_bytes 4 (Z.of_nat n) ++ column 8 (v_seq v) ++ column 8 (v_witnessed v)
      ++ column 8 (v_indexed v) ++ v_kind v) (v_collection v)); [find_column|start_length|done].
  - eapply (column_in 2 _ (le_bytes 4 (Z.of_nat n) ++ column 8 (v_seq v) ++ column 8 (v_witnessed v)
      ++ column 8 (v_indexed v) ++ v_kind v ++ v_collection v)); [find_column|start_length|done|done].
  - eapply (byte_in _ (le_bytes 4 (Z.of_nat n) ++ column 8 (v_seq v) ++ column 8 (v_witnessed v)
      ++ column 8 (v_indexed v) ++ v_kind v ++ v_collection v ++ column 2 (v_did v)) (v_rkey v));
      [find_column|start_length|done].
  - eapply (byte_in _ (le_bytes 4 (Z.of_nat n) ++ column 8 (v_seq v) ++ column 8 (v_witnessed v)
      ++ column 8 (v_indexed v) ++ v_kind v ++ v_collection v ++ column 2 (v_did v) ++ v_rkey v) (v_rev v));
      [find_column|start_length|done].
  - eapply (column_in 4 _ (le_bytes 4 (Z.of_nat n) ++ column 8 (v_seq v) ++ column 8 (v_witnessed v)
      ++ column 8 (v_indexed v) ++ v_kind v ++ v_collection v ++ column 2 (v_did v) ++ v_rkey v ++ v_rev v));
      [find_column|start_length|done|done].
Qed.

(** ** The reference encoding of a block *)

Record row_ok (r : Row) : Prop := {
  ro_seq : 0 <= row_seq r < 2 ^ 64;
  ro_witnessed : - 2 ^ 63 <= witnessed_at r < 2 ^ 63;
  ro_indexed : - 2 ^ 63 <= indexed_at r < 2 ^ 63;
  ro_kind : is_byte (row_kind r);
  ro_collection : utf8_valid (str_bytes (row_collection r)) = true /\ Z.of_nat (String.length (row_collection r)) < 2 ^ 8;
  ro_did : utf8_valid (str_bytes (row_did r)) = true /\ Z.of_nat (String.length (row_did r)) < 2 ^ 16;
  ro_rkey : utf8_valid (str_bytes (row_rkey r)) = true /\ Z.of_nat (String.length (row_rkey r)) < 2 ^ 8;
  ro_rev : utf8_valid (str_bytes (row_rev r)) = true /\ Z.of_nat (String.length (row_rev r)) < 2 ^ 8;
  ro_payload : is_bytes (payload r) /\ len (payload r) < 2 ^ 32;
}.

Definition strlen (s : string) : Z := Z.of_nat (String.length s).

Definition values_of (rows : list Row) : Values :=
  {| v_seq := row_seq <$> rows;
     v_witnessed := (fun r => witnessed_at r mod 2 ^ 64) <$> rows;
     v_indexed := (fun r => indexed_at r mod 2 ^ 64) <$> rows;
     v_kind := row_kind <$> rows;
     v_collection := (fun r => strlen (row_collection r)) <$> rows;
     v_did := (fun r => strlen (row_did r)) <$> rows;
     v_rkey := (fun r => strlen (row_rkey r)) <$> rows;
     v_rev := (fun r => strlen (row_rev r)) <$> rows;
     v_payload := (fun r => len (payload r)) <$> rows |}.

Definition texts (l : list string) : list Z := concat (str_bytes <$> l).

(** The rows, column by column, as the archive stores them. *)
Definition encode_columns (rows : list Row) : list Z :=
  fixed (length rows) (values_of rows) ++ texts (row_collection <$> rows) ++ texts (row_did <$> rows)
  ++ texts (row_rkey <$> rows) ++ texts (row_rev <$> rows) ++ concat (payload <$> rows).

Definition block_ok (rows : list Row) : Prop :=
  Forall row_ok rows /\ Z.of_nat (length rows) <= MAX_BLOCK_EVENTS.

Lemma as_i64_range w : - 2 ^ 63 <= as_i64 w < 2 ^ 63.
Proof.
  unfold as_i64. pose proof (Z.mod_pos_bound w (2 ^ 64)). cbv zeta.
  destruct (Z.ltb_spec (w mod 2 ^ 64) (2 ^ 63)); lia.
Qed.

Lemma as_i64_mod w : 0 <= w < 2 ^ 64 -> as_i64 w mod 2 ^ 64 = w.
Proof.
  intros Hw. unfold as_i64. rewrite (Z.mod_small w (2 ^ 64) Hw). cbv zeta. destruct (Z.ltb_spec w (2 ^ 63)).
  - apply Z.mod_small. lia.
  - replace (w - 2 ^ 64) with (w + -1 * 2 ^ 64) by lia. rewrite Z.mod_add by lia. by apply Z.mod_small.
Qed.

Lemma mod_as_i64 x : - 2 ^ 63 <= x < 2 ^ 63 -> as_i64 (x mod 2 ^ 64) = x.
Proof.
  intros Hx. unfold as_i64. rewrite Z.mod_mod by lia. cbv zeta. destruct (Z.lt_ge_cases x 0).
  - replace (x mod 2 ^ 64) with (x + 2 ^ 64).
    + destruct (Z.ltb_spec (x + 2 ^ 64) (2 ^ 63)); lia.
    + rewrite <- (Z.mod_add x 1) by lia. symmetry. apply Z.mod_small. lia.
  - rewrite Z.mod_small by lia. destruct (Z.ltb_spec x (2 ^ 63)); lia.
Qed.

Lemma list_is_fmap {A X} (g : A -> X) (rows : list A) (l : list X) :
  length l = length rows -> (forall k r, rows !! k = Some r -> l !! k = Some (g r)) -> l = g <$> rows.
Proof.
  intros Hl Hk. apply list_eq_same_length with (length rows); [by rewrite length_fmap|done|].
  intros k x y Hlt Hx Hy. apply list_lookup_fmap_Some in Hy as (r & -> & Hr). rewrite (Hk k r Hr) in Hx. congruence.
Qed.

Lemma text_loop pre tail len_at n xs at' :
  is_bytes tail ->
  read_each (pre ++ tail) len_at (fun _ => text) n 0 (length pre) = Some (Ok (xs, at')) <->
  exists post, tail = texts xs ++ post /\ length xs = n
    /\ Forall (fun s => utf8_valid (str_bytes s) = true) xs
    /\ (forall k s, xs !! k = Some s -> len_at k = Some (String.length s))
    /\ at' = length (pre ++ texts xs).
Proof.
  intros Hb. rewrite read_each_iff. split.
  - intros (chunks & post & -> & Hl & Hok & ->). apply is_bytes_app in Hb as [Hb _].
    assert (Forall is_bytes chunks) as Hc.
    { clear Hl Hok. induction chunks as [|c chunks IH]; constructor; simpl in Hb; apply is_bytes_app in Hb as [? ?]; auto. }
    pose proof Hok as [Hlen _]. apply text_each in Hok as (-> & Hu & Hlk); [|done].
    exists post. rewrite length_fmap in Hl. by split_and!.
  - intros (post & -> & Hl & Hu & Hlk & ->). exists (str_bytes <$> xs), post. rewrite length_fmap.
    split_and!; [done|done| |done]. apply text_each; [|done].
    apply Forall_fmap, Forall_forall. intros s _. apply str_bytes_range.
Qed.

(** The rows of a block, given its columns and names. *)
Definition row_at (v : Values) (names : list string * list string * list string * list string) (k : nat)
    (r : Row) : Prop :=
  let '(collections, dids, rkeys, revs) := names in
  collections !! k = Some (row_collection r) /\ dids !! k = Some (row_did r)
  /\ rkeys !! k = Some (row_rkey r) /\ revs !! k = Some (row_rev r)
  /\ v_seq v !! k = Some (row_seq r) /\ v_kind v !! k = Some (row_kind r)
  /\ (exists w, v_witnessed v !! k = Some w /\ witnessed_at r = as_i64 w)
  /\ (exists w, v_indexed v !! k = Some w /\ indexed_at r = as_i64 w).

Lemma row_of_iff n v tail names k b r :
  values_ok n v -> (k < n)%nat ->
  row_of (fixed n v ++ tail) (starts n) names k b = Some (Ok r) <->
  row_at v names k r /\ payload r = b.
Proof.
  intros Hv Hk. destruct names as [[[cs ds] ks] vs].
  pose proof (values_lens n v Hv) as (L1 & L2 & L3 & L4 & _).
  pose proof (read_values n v tail k Hv) as (R1 & R2 & R3 & R4 & _).
  destruct (lookup_lt_is_Some_2 (v_seq v) k) as [s Hs]; [lia|].
  destruct (lookup_lt_is_Some_2 (v_witnessed v) k) as [w Hw]; [lia|].
  destruct (lookup_lt_is_Some_2 (v_indexed v) k) as [x Hx]; [lia|].
  destruct (lookup_lt_is_Some_2 (v_kind v) k) as [kd Hkd]; [lia|].
  unfold row_of, row_at. rewrite (R1 s Hs), (R2 w Hw), (R3 x Hx), (R4 kd Hkd), Hs, Hw, Hx, Hkd.
  destruct (cs !! k), (ds !! k), (ks !! k), (vs !! k); simpl; split; try done; try (intros [(?&?&?&?&_) _]; done).
  - intros [= <-]. simpl. split; [|done]. split_and!; eauto.
  - intros [([= ->]&[= ->]&[= ->]&[= ->]&[= ->]&[= ->]&(w'&[= <-]&Hw')&(x'&[= <-]&Hx')) <-].
    destruct r; simpl in *. by subst.
Qed.

(** ** The rows of a block *)

(** A column of lengths agrees with what was read by it. *)
Lemma lens_iff {X} (size : X -> nat) (col : list Z) (len_at : nat -> option nat) (xs : list X) :
  Forall (fun x => 0 <= x) col -> length xs = length col ->
  (forall k x, col !! k = Some x -> len_at k = Some (Z.to_nat x)) ->
  (forall k s, xs !! k = Some s -> len_at k = Some (size s)) <-> col = (fun s => Z.of_nat (size s)) <$> xs.
Proof.
  intros Hpos Hl Hread. split.
  - intros Hk. apply list_is_fmap; [done|]. intros k s Hs.
    destruct (lookup_lt_is_Some_2 col k) as [x Hx]; [rewrite <- Hl; by eapply lookup_lt_Some|].
    specialize (Hk k s Hs). rewrite (Hread k x Hx) in Hk. injection Hk as Hk.
    rewrite Forall_lookup in Hpos. specialize (Hpos k x Hx). rewrite Hx, <- Hk. f_equal. lia.
  - intros -> k s Hs. rewrite (Hread k (Z.of_nat (size s))); [by rewrite Nat2Z.id|].
    by rewrite list_lookup_fmap, Hs.
Qed.

(** A column of texts and its column of lengths. *)
Lemma text_column pre tail len_at col n xs at' :
  is_bytes tail -> length col = n -> Forall (fun x => 0 <= x) col ->
  (forall k x, col !! k = Some x -> len_at k = Some (Z.to_nat x)) ->
  read_each (pre ++ tail) len_at (fun _ => text) n 0 (length pre) = Some (Ok (xs, at')) <->
  exists post, tail = texts xs ++ post /\ length xs = n
    /\ Forall (fun s => utf8_valid (str_bytes s) = true) xs
    /\ col = strlen <$> xs /\ at' = length (pre ++ texts xs).
Proof.
  intros Hb Hl Hpos Hread. rewrite text_loop by done.
  split; intros (post & Ht & Hn & Hu & Hk & Hat); exists post; split_and!; try done.
  - by apply (lens_iff String.length col len_at xs); [done|congruence|..].
  - by apply (lens_iff String.length col len_at xs); [done|congruence|..].
Qed.

(** The last column: the payloads, and the rows put together. *)
Lemma payload_column pre tail n v names rows at' rest :
  values_ok n v -> pre ++ tail = fixed n v ++ rest ->
  read_each (pre ++ tail) (u32_len (pre ++ tail) (payload_lens (starts n)))
    (row_of (pre ++ tail) (starts n) names) n 0 (length pre) = Some (Ok (rows, at')) <->
  exists post, tail = concat (payload <$> rows) ++ post /\ length rows = n
    /\ v_payload v = (fun r => len (payload r)) <$> rows
    /\ (forall k r, rows !! k = Some r -> row_at v names k r)
    /\ at' = length (pre ++ concat (payload <$> rows)).
Proof.
  intros Hv Hblock. pose proof (values_lens n v Hv) as (_ & _ & _ & _ & _ & _ & _ & _ & L9).
  assert (forall k x, v_payload v !! k = Some x ->
    u32_len (pre ++ tail) (payload_lens (starts n)) k = Some (Z.to_nat x)) as Hread.
  { intros k x Hx. unfold u32_len. rewrite Hblock. destruct (read_values n v rest k Hv) as (_&_&_&_&_&_&_&_&R9).
    by rewrite (R9 x Hx). }
  assert (Forall (fun x => 0 <= x) (v_payload v)) as Hpos.
  { destruct Hv as [_ _ _ _ _ _ _ _ _ [_ W]]. eapply Forall_impl; [exact W|]. simpl. lia. }
  rewrite read_each_iff. split.
  - intros (chunks & post & -> & Hl & [Hlen Hk] & ->). exists post.
    assert (forall k c r, chunks !! k = Some c -> rows !! k = Some r ->
      row_at v names k r /\ payload r = c) as Hrow.
    { intros k c r Hc Hr. destruct (Hk k c r Hc Hr) as [_ Hf]. rewrite Hblock in Hf. cbn [Nat.add] in Hf.
      apply row_of_iff in Hf; [done|done|]. rewrite <- Hl. by eapply lookup_lt_Some. }
    assert (chunks = payload <$> rows) as ->.
    { apply list_is_fmap; [done|]. intros k r Hr. destruct (lookup_lt_is_Some_2 chunks k) as [c Hc];
        [rewrite Hlen; by eapply lookup_lt_Some|]. destruct (Hrow k c r Hc Hr) as [_ <-]. done. }
    rewrite length_fmap in Hl. split_and!; [done|done| | |done].
    + apply (lens_iff (fun r => length (payload r)) _ _ rows Hpos ltac:(congruence) Hread).
      intros k r Hr. destruct (Hk k (payload r) r) as [H _]; [by rewrite list_lookup_fmap, Hr|done|done].
    + intros k r Hr. destruct (Hrow k (payload r) r) as [H _]; [by rewrite list_lookup_fmap, Hr|done|done].
  - intros (post & -> & Hl & Hcol & Hrow & ->). exists (payload <$> rows), post. rewrite length_fmap.
    split_and!; [done|done| |done]. split; [by rewrite length_fmap|]. intros k c r Hc Hr.
    rewrite list_lookup_fmap, Hr in Hc. injection Hc as <-. cbn [Nat.add]. split.
    + pose proof (proj2 (lens_iff (fun r => length (payload r)) _ _ rows Hpos ltac:(congruence) Hread)) as H.
      by apply H.
    + rewrite Hblock. apply row_of_iff; [done| |split; [by apply Hrow|done]]. rewrite <- Hl. by eapply lookup_lt_Some.
Qed.

Definition named (rows : list Row) : list string * list string * list string * list string :=
  (row_collection <$> rows, row_did <$> rows, row_rkey <$> rows, row_rev <$> rows).

(** The rows at every index make the columns, and the columns the rows. *)
Lemma rows_at_iff n v names rows :
  values_ok n v -> length rows = n ->
  length names.1.1.1 = n -> length names.1.1.2 = n -> length names.1.2 = n -> length names.2 = n ->
  (forall k r, rows !! k = Some r -> row_at v names k r) <->
  names = named rows /\ v_seq v = row_seq <$> rows /\ v_kind v = row_kind <$> rows
  /\ v_witnessed v = (fun r => witnessed_at r mod 2 ^ 64) <$> rows
  /\ v_indexed v = (fun r => indexed_at r mod 2 ^ 64) <$> rows
  /\ Forall (fun r => - 2 ^ 63 <= witnessed_at r < 2 ^ 63 /\ - 2 ^ 63 <= indexed_at r < 2 ^ 63) rows.
Proof.
  intros Hv Hn. destruct names as [[[cs ds] ks] vs]. cbn [fst snd]. intros Lc Ld Lk Lv.
  pose proof (values_lens n v Hv) as (L1 & L2 & L3 & L4 & _).
  assert (forall col k w, in_width 8 col -> col !! k = Some w -> 0 <= w < 2 ^ 64) as Hw.
  { intros col k w HW Hw. unfold in_width in HW. rewrite Forall_lookup in HW. exact (HW k w Hw). }
  split.
  - intros Hr. unfold named. destruct Hv as [_ _ [_ W2] [_ W3] _ _ _ _ _ _]. split_and!.
    + f_equal; [f_equal; [f_equal|]|]; (apply list_is_fmap; [congruence|]); intros k r Hk; apply (Hr k r Hk).
    + apply list_is_fmap; [congruence|]. intros k r Hk. apply (Hr k r Hk).
    + apply list_is_fmap; [congruence|]. intros k r Hk. apply (Hr k r Hk).
    + apply list_is_fmap; [congruence|]. intros k r Hk. destruct (Hr k r Hk) as (_&_&_&_&_&_&(w & Hl & ->)&_).
      rewrite Hl, as_i64_mod; [done|]. by apply (Hw _ k w W2).
    + apply list_is_fmap; [congruence|]. intros k r Hk. destruct (Hr k r Hk) as (_&_&_&_&_&_&_&(w & Hl & ->)).
      rewrite Hl, as_i64_mod; [done|]. by apply (Hw _ k w W3).
    + apply Forall_lookup. intros k r Hk.
      destruct (Hr k r Hk) as (_&_&_&_&_&_&(w & _ & ->)&(x & _ & ->)). split; apply as_i64_range.
  - intros ([= -> -> -> ->] & Hs & Hk & Hwi & Hix & Hrange) k r Hr. unfold row_at.
    rewrite Hs, Hk, Hwi, Hix, !list_lookup_fmap, Hr. cbn [fmap option_fmap option_map].
    rewrite Forall_lookup in Hrange. destruct (Hrange k r Hr) as [HA HB].
    split_and!; try done; (eexists; split; [done|]; by rewrite mod_as_i64).
Qed.

Definition names_texts (rows : list Row) : list Z :=
  texts (row_collection <$> rows) ++ texts (row_did <$> rows) ++ texts (row_rkey <$> rows)
  ++ texts (row_rev <$> rows) ++ concat (payload <$> rows).

Lemma is_bytes_nonneg l : is_bytes l -> Forall (fun x => 0 <= x) l.
Proof. intros H. eapply Forall_impl; [exact H|]. unfold is_byte. simpl. lia. Qed.

Lemma in_width_nonneg w l : in_width w l -> Forall (fun x => 0 <= x) l.
Proof. intros H. eapply Forall_impl; [exact H|]. simpl. lia. Qed.

(** The columns and names that were read are those of the rows. *)
Lemma rows_ok_iff n v rows :
  values_ok n v -> length rows = n ->
  v = values_of rows
  /\ Forall (fun s => utf8_valid (str_bytes s) = true) (row_collection <$> rows)
  /\ Forall (fun s => utf8_valid (str_bytes s) = true) (row_did <$> rows)
  /\ Forall (fun s => utf8_valid (str_bytes s) = true) (row_rkey <$> rows)
  /\ Forall (fun s => utf8_valid (str_bytes s) = true) (row_rev <$> rows)
  /\ Forall (fun r => - 2 ^ 63 <= witnessed_at r < 2 ^ 63 /\ - 2 ^ 63 <= indexed_at r < 2 ^ 63) rows
  /\ is_bytes (concat (payload <$> rows)) ->
  Forall row_ok rows.
Proof.
  intros Hv Hn (-> & U1 & U2 & U3 & U4 & Hw & Hp). rewrite Forall_fmap in U1, U2, U3, U4.
  destruct Hv as [_ [_ W1] _ _ [_ W4] [_ W5] [_ W6] [_ W7] [_ W8] [_ W9]]. unfold in_width, is_bytes in *.
  cbn [values_of v_seq v_kind v_collection v_did v_rkey v_rev v_payload] in *.
  rewrite Forall_fmap in W1, W4, W5, W6, W7, W8, W9. rewrite Forall_concat, Forall_fmap in Hp.
  rewrite !Forall_forall in *. intros r Hr. unfold strlen, is_byte in *.
  specialize (W1 r Hr); specialize (W4 r Hr); specialize (W5 r Hr); specialize (W6 r Hr); specialize (W7 r Hr).
  specialize (W8 r Hr); specialize (W9 r Hr); specialize (Hw r Hr); specialize (Hp r Hr).
  specialize (U1 r Hr); specialize (U2 r Hr); specialize (U3 r Hr); specialize (U4 r Hr). unfold compose, len in *.
  change (8 * Z.of_nat 8) with 64 in *. change (8 * Z.of_nat 2) with 16 in *. change (8 * Z.of_nat 4) with 32 in *.
  split; unfold is_byte, is_bytes, len; split_and?; try done; lia.
Qed.

(** A column of lengths that is read through [len_at]. *)
Record lens_at (len_at : nat -> option nat) (col : list Z) (n : nat) : Prop := {
  la_length : length col = n;
  la_nonneg : Forall (fun x => 0 <= x) col;
  la_read : forall k x, col !! k = Some x -> len_at k = Some (Z.to_nat x);
}.

Lemma values_lens_at n v tail block :
  values_ok n v -> block = fixed n v ++ tail ->
  lens_at (byte_len block (collection_lens (starts n))) (v_collection v) n
  /\ lens_at (u16_len block (did_lens (starts n))) (v_did v) n
  /\ lens_at (byte_len block (rkey_lens (starts n))) (v_rkey v) n
  /\ lens_at (byte_len block (rev_lens (starts n))) (v_rev v) n.
Proof.
  intros Hv ->. pose proof (fun k => read_values n v tail k Hv) as HR. cbv zeta in HR.
  destruct Hv as [_ _ _ _ _ [L5 W5] [L6 W6] [L7 W7] [L8 W8] _].
  split_and!; (split; [done|first [by apply is_bytes_nonneg|by eapply in_width_nonneg]|]);
    intros k x Hx; destruct (HR k) as (_&_&_&_&R5&R6&R7&R8&_); unfold byte_len, u16_len.
  - by rewrite (R5 x Hx).
  - by rewrite (R6 x Hx).
  - by rewrite (R7 x Hx).
  - by rewrite (R8 x Hx).
Qed.

(** One text column, then the rest of the block. *)
Lemma text_step {Y} pre tail len_at col n (k : list string * nat -> fallible Y) y :
  is_bytes tail -> lens_at len_at col n ->
  (let! c := read_each (pre ++ tail) len_at (fun _ => text) n 0 (length pre) in k c) = Some (Ok y) <->
  exists xs post, tail = texts xs ++ post /\ length xs = n
    /\ Forall (fun s => utf8_valid (str_bytes s) = true) xs /\ col = strlen <$> xs
    /\ k (xs, length (pre ++ texts xs)) = Some (Ok y).
Proof.
  intros Hb [Hl Hp Hr]. split.
  - destruct (read_each _ _ _ _ _ _) as [[[xs at']|]|] eqn:He; [|done|done]. intros Hk.
    apply (text_column pre tail len_at col n xs at' Hb Hl Hp Hr) in He as (post & ? & ? & ? & ? & ->).
    by exists xs, post.
  - intros (xs & post & Ht & Hn & Hu & Hc & Hk).
    rewrite (proj2 (text_column pre tail len_at col n xs (length (pre ++ texts xs)) Hb Hl Hp Hr)); [done|].
    by exists post.
Qed.

Definition utf8s (xs : list string) : Prop := Forall (fun s => utf8_valid (str_bytes s) = true) xs.

(** A name column that was read: its texts, of the lengths announced. *)
Definition names_read (n : nat) (col : list Z) (xs : list string) : Prop :=
  length xs = n /\ utf8s xs /\ col = strlen <$> xs.

(** The loops of [decode_rows], one after the other. *)
Lemma decode_rows_chain n v tail rows :
  values_ok n v -> is_bytes tail ->
  decode_rows (fixed n v ++ tail) n (starts n) (fixed_len n) = Some (Ok rows) <->
  exists cs ds ks vs,
    tail = texts cs ++ texts ds ++ texts ks ++ texts vs ++ concat (payload <$> rows)
    /\ names_read n (v_collection v) cs /\ names_read n (v_did v) ds
    /\ names_read n (v_rkey v) ks /\ names_read n (v_rev v) vs
    /\ length rows = n /\ v_payload v = (fun r => len (payload r)) <$> rows
    /\ (forall k r, rows !! k = Some r -> row_at v (cs, ds, ks, vs) k r).
Proof.
  intros Hv Hb. unfold decode_rows. rewrite <- (length_fixed n v Hv).
  destruct (values_lens_at n v tail _ Hv eq_refl) as (A1 & A2 & A3 & A4).
  rewrite (text_step _ _ _ _ _ _ _ Hb A1). cbn [fst snd]. split.
  - intros (cs & t1 & -> & N1 & U1 & C1 & H). apply is_bytes_app in Hb as [_ Hb]. rewrite app_assoc in *.
    apply (text_step _ _ _ _ _ _ _ Hb A2) in H as (ds & t2 & -> & N2 & U2 & C2 & H). cbn [fst snd] in H.
    apply is_bytes_app in Hb as [_ Hb]. rewrite app_assoc in *.
    apply (text_step _ _ _ _ _ _ _ Hb A3) in H as (ks & t3 & -> & N3 & U3 & C3 & H). cbn [fst snd] in H.
    apply is_bytes_app in Hb as [_ Hb]. rewrite app_assoc in *.
    apply (text_step _ _ _ _ _ _ _ Hb A4) in H as (vs & t4 & -> & N4 & U4 & C4 & H). cbn [fst snd] in H.
    rewrite app_assoc in *.
    destruct (read_each _ _ _ _ _ _) as [[[rs a5]|]|] eqn:H5; [|done|done]. cbn [fst snd] in H.
    apply (payload_column _ _ n v _ _ _ (texts cs ++ texts ds ++ texts ks ++ texts vs ++ t4)) in H5
      as (t5 & -> & N5 & C5 & Hrow & ->); [|done|by rewrite <- !app_assoc].
    destruct (Nat.eqb_spec (length ((((((fixed n v ++ texts cs) ++ texts ds) ++ texts ks) ++ texts vs) ++ concat (payload <$> rs))))
      (length ((((((fixed n v ++ texts cs) ++ texts ds) ++ texts ks) ++ texts vs) ++ concat (payload <$> rs) ++ t5)))) as [He|];
      [|discriminate H]. injection H as <-.
    rewrite !length_app in He. destruct t5; [|simpl in He; lia].
    exists cs, ds, ks, vs. rewrite app_nil_r, <- !app_assoc. unfold names_read, utf8s. by split_and!.
  - intros (cs & ds & ks & vs & -> & (N1 & U1 & C1) & (N2 & U2 & C2) & (N3 & U3 & C3) & (N4 & U4 & C4) & N5 & C5 & Hrow).
    pose proof (proj2 (proj1 (is_bytes_app _ _) Hb)) as Hb1. pose proof (proj2 (proj1 (is_bytes_app _ _) Hb1)) as Hb2.
    pose proof (proj2 (proj1 (is_bytes_app _ _) Hb2)) as Hb3.
    exists cs, (texts ds ++ texts ks ++ texts vs ++ concat (payload <$> rows)). split_and!; [done..|].
    rewrite app_assoc in A2, A3, A4 |- *.
    apply (text_step _ _ _ _ _ _ _ Hb1 A2). exists ds, (texts ks ++ texts vs ++ concat (payload <$> rows)).
    split_and!; [done..|]. cbn [fst snd]. rewrite app_assoc in A3, A4 |- *.
    apply (text_step _ _ _ _ _ _ _ Hb2 A3). exists ks, (texts vs ++ concat (payload <$> rows)).
    split_and!; [done..|]. cbn [fst snd]. rewrite app_assoc in A4 |- *.
    apply (text_step _ _ _ _ _ _ _ Hb3 A4). exists vs, (concat (payload <$> rows)).
    split_and!; [done..|]. cbn [fst snd]. rewrite app_assoc.
    set (pre := (((fixed n v ++ texts cs) ++ texts ds) ++ texts ks) ++ texts vs).
    pose proof (proj2 (payload_column pre (concat (payload <$> rows)) n v (cs, ds, ks, vs) rows
      (length (pre ++ concat (payload <$> rows))) (texts cs ++ texts ds ++ texts ks ++ texts vs ++ concat (payload <$> rows))
      Hv ltac:(unfold pre; by rewrite <- !app_assoc))) as Hp.
    rewrite Hp; [cbn [fst snd]; by rewrite Nat.eqb_refl|]. exists []. rewrite app_nil_r. by split_and!.
Qed.

(** What [decode_rows] accepts after the fixed-width columns. *)
Lemma decode_rows_iff n v tail rows :
  values_ok n v -> is_bytes tail ->
  decode_rows (fixed n v ++ tail) n (starts n) (fixed_len n) = Some (Ok rows) <->
  Forall row_ok rows /\ length rows = n /\ v = values_of rows /\ tail = names_texts rows.
Proof.
  intros Hv Hb. rewrite decode_rows_chain by done. split.
  - intros (cs & ds & ks & vs & -> & (N1 & U1 & C1) & (N2 & U2 & C2) & (N3 & U3 & C3) & (N4 & U4 & C4) & N5 & C5 & Hrow).
    apply (rows_at_iff n v) in Hrow as ([= -> -> -> ->] & Hs & Hk & Hwi & Hix & Hrange); [|done..].
    assert (v = values_of rows) as Hval.
    { destruct v. unfold values_of. cbn in *. rewrite Hs, Hk, Hwi, Hix, C1, C2, C3, C4, C5, <- !list_fmap_compose. done. }
    split_and!; [|done|done|done]. apply (rows_ok_iff n v); [done|done|].
    split_and!; [done..|]. rewrite !is_bytes_app in Hb. apply Hb.
  - intros (Hok & Hn & -> & ->). exists (row_collection <$> rows), (row_did <$> rows), (row_rkey <$> rows), (row_rev <$> rows).
    unfold names_read, utf8s. rewrite !length_fmap, !Forall_fmap. cbn [values_of v_collection v_did v_rkey v_rev v_payload].
    rewrite <- !list_fmap_compose. split_and!; try done;
      try (eapply Forall_impl; [exact Hok|]; intros r [? ? ? ? [? ?] [? ?] [? ?] [? ?] ?]; done).
    apply (rows_at_iff n (values_of rows)); cbn [fst snd]; rewrite ?length_fmap; [done..|].
    split_and!; try done. eapply Forall_impl; [exact Hok|]. by intros r [].
Qed.

(** The reference encoding is well-formed. *)
Lemma values_of_ok rows : block_ok rows -> values_ok (length rows) (values_of rows).
Proof.
  intros [Hok Hn]. split; [done|..]; cbn [values_of v_seq v_witnessed v_indexed v_kind v_collection v_did v_rkey v_rev v_payload];
    (split; [by rewrite length_fmap|]); unfold in_width, is_bytes, is_byte; rewrite Forall_fmap;
    (eapply Forall_impl; [exact Hok|]); intros r [? ? ? ? [? ?] [? ?] [? ?] [? ?] [? ?]];
    change (8 * Z.of_nat 8) with 64; change (8 * Z.of_nat 2) with 16; change (8 * Z.of_nat 4) with 32;
    unfold compose, strlen, len, is_byte in *; try (apply Z.mod_pos_bound); lia.
Qed.

Lemma decode_columns_spec block rows :
  is_bytes block -> decode_columns block = Some (Ok rows) <-> block_ok rows /\ block = encode_columns rows.
Proof.
  intros Hb. rewrite decode_columns_iff by done. split.
  - intros (n & v & tail & Hv & -> & Hr). apply is_bytes_app in Hb as [_ Hb].
    apply decode_rows_iff in Hr as (Hok & Hn & -> & ->); [|done|done].
    split; [|by rewrite <- Hn]. split; [done|]. rewrite Hn. apply Hv.
  - intros [Hok ->]. exists (length rows), (values_of rows), (names_texts rows).
    pose proof (values_of_ok rows Hok) as Hv. split_and!; [done|done|].
    unfold encode_columns in *. fold (names_texts rows) in *. apply is_bytes_app in Hb as [_ Hb].
    apply decode_rows_iff; [done|done|]. split_and!; [apply Hok|done|done|done].
Qed.

(** ** No reader panics *)

Lemma read_each_length {X} block len_at (f : nat -> list Z -> fallible X) count i at_ xs at' :
  read_each block len_at f count i at_ = Some (Ok (xs, at')) -> length xs = count.
Proof.
  revert i at_ xs at'. induction count as [|count IH]; intros i at_ xs at' H; cbn [read_each] in H.
  - by injection H as <- <-.
  - destruct (len_at i) as [n|]; [|discriminate H]. cbn [mbind option_bind] in H. unfold take_range in H.
    destruct (_ <=? _)%nat; [|discriminate H]. destruct (slice _ _ _); [|discriminate H]. cbn [mbind option_bind] in H.
    destruct (f i _) as [[x|]|]; [|discriminate H..].
    destruct (read_each _ _ _ _ _ _) as [[[ys e]|]|] eqn:Hr; [|discriminate H..].
    injection H as <- _. simpl. by rewrite (IH _ _ _ _ Hr).
Qed.

Lemma u16_at_some b at_ : (at_ + 2 <= length b)%nat -> is_Some (u16_at b at_).
Proof. intros H. unfold u16_at. destruct (slice_some b at_ (at_ + 2)) as (m & -> & _); [lia|by eexists]. Qed.
Lemma u32_at_some b at_ : (at_ + 4 <= length b)%nat -> is_Some (u32_at b at_).
Proof. intros H. unfold u32_at. destruct (slice_some b at_ (at_ + 4)) as (m & -> & _); [lia|by eexists]. Qed.
Lemma u64_at_some b at_ : (at_ + 8 <= length b)%nat -> is_Some (u64_at b at_).
Proof. intros H. unfold u64_at. destruct (slice_some b at_ (at_ + 8)) as (m & -> & _); [lia|by eexists]. Qed.

(** The loops of names never panic: their lengths lie in the fixed part. *)
Lemma names_no_panic block len_at n at_ :
  (forall k, (k < n)%nat -> is_Some (len_at k)) -> is_Some (read_each block len_at (fun _ => text) n 0 at_).
Proof.
  intros Hk. apply read_each_no_panic. intros k Hlt. split; [apply Hk; lia|]. intros b. by eexists.
Qed.

Ltac in_fixed n :=
  unfold fixed_len in *;
  cbn [seqs witnessed indexed row_kinds collection_lens did_lens rkey_lens rev_lens payload_lens starts] in *; lia.

Lemma row_of_no_panic block n names k b :
  (fixed_len n <= length block)%nat -> (k < n)%nat ->
  length names.1.1.1 = n -> length names.1.1.2 = n -> length names.1.2 = n -> length names.2 = n ->
  is_Some (row_of block (starts n) names k b).
Proof.
  intros Hf Hk. destruct names as [[[cs ds] ks] vs]. cbn [fst snd]. intros N1 N2 N3 N4. unfold row_of.
  destruct (lookup_lt_is_Some_2 cs k) as [? ->]; [lia|]. destruct (lookup_lt_is_Some_2 ds k) as [? ->]; [lia|].
  destruct (lookup_lt_is_Some_2 ks k) as [? ->]; [lia|]. destruct (lookup_lt_is_Some_2 vs k) as [? ->]; [lia|].
  destruct (u64_at_some block (seqs (starts n) + 8 * k)) as [? ->]; [in_fixed n|].
  destruct (u64_at_some block (witnessed (starts n) + 8 * k)) as [? ->]; [in_fixed n|].
  destruct (u64_at_some block (indexed (starts n) + 8 * k)) as [? ->]; [in_fixed n|].
  destruct (lookup_lt_is_Some_2 block (row_kinds (starts n) + k)) as [? ->]; [in_fixed n|].
  cbn [mbind option_bind]. by eexists.
Qed.

Ltac no_panic_step :=
  match goal with
  | |- is_Some (match read_each ?b ?l ?f ?n ?i ?a with _ => _ end) =>
      let H := fresh "H" in let He := fresh "He" in
      assert (is_Some (read_each b l f n i a)) as H;
        [|destruct H as [[[? ?]|] He]; rewrite He; [apply read_each_length in He; cbn [fst snd]|by eexists]]
  end.

Lemma decode_rows_no_panic block n :
  (fixed_len n <= length block)%nat -> is_Some (decode_rows block n (starts n) (fixed_len n)).
Proof.
  intros Hf. unfold decode_rows.
  no_panic_step.
  { apply names_no_panic. intros k Hk. apply fmap_is_Some, lookup_lt_is_Some_2. in_fixed n. }
  no_panic_step.
  { apply names_no_panic. intros k Hk. apply fmap_is_Some, u16_at_some. in_fixed n. }
  no_panic_step.
  { apply names_no_panic. intros k Hk. apply fmap_is_Some, lookup_lt_is_Some_2. in_fixed n. }
  no_panic_step.
  { apply names_no_panic. intros k Hk. apply fmap_is_Some, lookup_lt_is_Some_2. in_fixed n. }
  no_panic_step.
  { apply read_each_no_panic. intros k Hk. split; [apply fmap_is_Some, u32_at_some; in_fixed n|].
    intros b. apply row_of_no_panic; cbn [fst snd]; lia. }
  destruct (negb _); by eexists.
Qed.

Lemma decode_columns_no_panic block : is_Some (decode_columns block).
Proof.
  unfold decode_columns, take_range. destruct (Nat.leb_spec (0 + 4) (length block)) as [H4|]; [|by eexists].
  destruct (u32_at_some block 0) as [count ->]; [done|]. cbn [mbind option_bind fst snd].
  destruct (MAX_BLOCK_EVENTS <? count); [by eexists|].
  set (n := Z.to_nat count). clearbody n.
  do 8 (match goal with
    | |- is_Some (match (if ?c then _ else _) with _ => _ end) => destruct c; [|by eexists]; cbn [fst snd]
    end).
  match goal with
    | |- is_Some (match (if ?c then _ else _) with _ => _ end) => destruct c eqn:Hle; [|by eexists]; cbn [fst snd]
    end.
  apply Nat.leb_le in Hle. apply (decode_rows_no_panic block n).
  unfold fixed_len. cbn [payload_lens starts]. lia.
Qed.

Lemma entry_at_some index i :
  (i * 52 + 52 <= length index)%nat -> is_Some (entry_at index (i * 52)).
Proof.
  intros H. unfold entry_at.
  destruct (u64_at_some index (i * 52)) as [? ->]; [lia|]. destruct (u32_at_some index (i * 52 + 8)) as [? ->]; [lia|].
  destruct (u32_at_some index (i * 52 + 12)) as [? ->]; [lia|]. destruct (u32_at_some index (i * 52 + 16)) as [? ->]; [lia|].
  destruct (u64_at_some index (i * 52 + 20)) as [? ->]; [lia|]. destruct (u64_at_some index (i * 52 + 28)) as [? ->]; [lia|].
  cbn [mbind option_bind]. by eexists.
Qed.

Lemma read_entries_no_panic index footer_offset count i :
  ((i + count) * 52 <= length index)%nat -> is_Some (read_entries index footer_offset count i).
Proof.
  revert i. induction count as [|count IH]; intros i Hl; cbn [read_entries]; [by eexists|].
  change (Z.to_nat INDEX_ENTRY_LEN) with 52%nat. destruct (entry_at_some index i) as [e ->]; [lia|].
  cbn [mbind option_bind]. destruct (checked_add _ _); [|by eexists]. destruct (_ || _); [by eexists|].
  destruct (IH (S i)) as [[es|] ->]; [lia|by eexists..].
Qed.

Lemma read_exact_length file pos n b : read_exact_at file pos n = Ok b -> length b = Z.to_nat n.
Proof.
  unfold read_exact_at. destruct (_ && _) eqn:H; [|discriminate]. intros [= <-].
  apply andb_true_iff in H as [H H3]. apply andb_true_iff in H as [H1 H2].
  apply Z.leb_le in H1, H2, H3. unfold len in H3. rewrite length_take, length_drop. lia.
Qed.

Lemma read_index_no_panic file file_len : is_Some (read_index file file_len).
Proof.
  unfold read_index. destruct (file_len <? HEADER_LEN); [by eexists|].
  destruct (read_exact_at file 0 HEADER_LEN) as [header|] eqn:Hh; [|by eexists].
  apply read_exact_length in Hh. unfold HEADER_LEN in Hh. change (Z.to_nat 256) with 256%nat in Hh.
  destruct (slice_some header 0 4) as (m & -> & _); [lia|]. cbn [mbind option_bind]. destruct (negb _); [by eexists|].
  destruct (u16_at_some header 12) as [ver ->]; [lia|]. cbn [mbind option_bind]. destruct (negb _); [by eexists|].
  destruct (u32_at_some header 14) as [bc ->]; [lia|]. destruct (u64_at_some header 58) as [fo ->]; [lia|].
  destruct (u64_at_some header 90) as [io ->]; [lia|]. cbn [mbind option_bind]. destruct (_ || _); [by eexists|].
  unfold checked_mul. destruct (Z.ltb (bc * INDEX_ENTRY_LEN) U64); [|by eexists]. destruct (_ || _); [by eexists|].
  destruct (read_exact_at file io _) as [index|] eqn:Hi; [|by eexists].
  apply read_exact_length in Hi. apply read_entries_no_panic. rewrite Hi. unfold INDEX_ENTRY_LEN. lia.
Qed.

(** ** The index *)

(** A block inside the block region. *)
Definition in_region (footer_offset : Z) (e : BlockEntry) : Prop :=
  HEADER_LEN <= offset e /\ offset e + 8 + compressed_size e <= footer_offset.

Lemma entry_at_sizes index at_ e : is_bytes index -> entry_at index at_ = Some e -> 0 <= compressed_size e < 2 ^ 32.
Proof.
  intros Hb. unfold entry_at. destruct (u64_at index at_); [|discriminate]. cbn [mbind option_bind].
  destruct (u32_at index (at_ + 8)) as [c|] eqn:Hc; [|discriminate]. cbn [mbind option_bind].
  do 4 (match goal with |- context [mbind _ ?x] => destruct x; [|discriminate]; cbn [mbind option_bind] end).
  intros [= <-]. cbn [compressed_size]. unfold u32_at, slice in Hc.
  destruct (_ && _) eqn:Hr; [|discriminate Hc]. injection Hc as <-.
  apply andb_true_iff in Hr as [_ Hr]. apply Nat.leb_le in Hr.
  assert (is_bytes (take (at_ + 8 + 4 - (at_ + 8)) (drop (at_ + 8) index))) as Hs by (by apply Forall_take, Forall_drop).
  pose proof (le_value_range _ Hs) as H. unfold len in H. rewrite length_take, length_drop in H.
  replace (_ `min` _)%nat with 4%nat in H by lia. exact H.
Qed.

Lemma read_entries_region index footer_offset count i entries :
  read_entries index footer_offset count i = Some (Ok entries) ->
  length entries = count /\ Forall (in_region footer_offset) entries
  /\ forall k e, entries !! k = Some e -> entry_at index ((i + k) * 52) = Some e.
Proof.
  revert i entries. induction count as [|count IH]; intros i entries; cbn [read_entries].
  { intros [= <-]. split_and!; [done|done|]. intros k e He. by rewrite lookup_nil in He. }
  change (Z.to_nat INDEX_ENTRY_LEN) with 52%nat. destruct (entry_at index (i * 52)) as [e|] eqn:He; [|discriminate].
  cbn [mbind option_bind]. unfold checked_add. destruct (Z.ltb_spec (offset e + (8 + compressed_size e)) U64); [|discriminate].
  destruct (Z.ltb_spec (offset e) HEADER_LEN); [discriminate|]. cbn [orb].
  destruct (Z.ltb_spec footer_offset (offset e + (8 + compressed_size e))); [discriminate|].
  destruct (read_entries _ _ _ _) as [[es|]|] eqn:Hr; [|discriminate..]. intros [= <-].
  apply IH in Hr as (Hl & Hf & Hk). split_and!; [simpl; lia|constructor; [split; lia|done]|].
  intros [|k] e' He'; simpl in He'; [injection He' as <-; by rewrite Nat.add_0_r|].
  replace (i + S k)%nat with (S i + k)%nat by lia. by apply Hk.
Qed.

(** What a successful [read_index] found. *)
Record index_of (file : list Z) (file_len : Z) (entries : list BlockEntry) (footer_offset index_offset : Z) : Prop := {
  io_footer : HEADER_LEN <= footer_offset <= file_len;
  io_after : footer_offset <= index_offset /\ index_offset + 52 * Z.of_nat (length entries) <= len file;
  io_region : Forall (in_region footer_offset) entries;
  io_entries : forall k e, entries !! k = Some e ->
    entry_at (take (52 * length entries) (drop (Z.to_nat index_offset) file)) (k * 52) = Some e;
}.

Lemma read_exact_inv file pos n b :
  read_exact_at file pos n = Ok b -> 0 <= n /\ 0 <= pos /\ pos + n <= len file /\ b = take (Z.to_nat n) (drop (Z.to_nat pos) file).
Proof.
  unfold read_exact_at. destruct (_ && _) eqn:H; [|discriminate]. intros [= <-].
  apply andb_true_iff in H as [H H3]. apply andb_true_iff in H as [H1 H2].
  apply Z.leb_le in H1, H2, H3. by split_and!.
Qed.

Lemma read_exact_ok file pos n :
  0 <= n -> 0 <= pos -> pos + n <= len file -> read_exact_at file pos n = Ok (take (Z.to_nat n) (drop (Z.to_nat pos) file)).
Proof.
  intros H1 H2 H3. unfold read_exact_at.
  by rewrite (proj2 (Z.leb_le _ _) H1), (proj2 (Z.leb_le _ _) H2), (proj2 (Z.leb_le _ _) H3).
Qed.

Lemma read_index_ok file file_len entries :
  is_bytes file -> read_index file file_len = Some (Ok entries) ->
  exists footer_offset index_offset, index_of file file_len entries footer_offset index_offset.
Proof.
  intros Hb. unfold read_index. destruct (file_len <? HEADER_LEN); [discriminate|].
  destruct (read_exact_at file 0 HEADER_LEN) as [header|] eqn:Hh; [|discriminate].
  destruct (slice header 0 4) as [m|]; [|discriminate]. cbn [mbind option_bind]. destruct (negb _); [discriminate|].
  destruct (u16_at header 12) as [ver|]; [|discriminate]. cbn [mbind option_bind]. destruct (negb _); [discriminate|].
  destruct (u32_at header 14) as [bc|]; [|discriminate]. cbn [mbind option_bind].
  destruct (u64_at header 58) as [fo|]; [|discriminate]. cbn [mbind option_bind].
  destruct (u64_at header 90) as [io|]; [|discriminate]. cbn [mbind option_bind].
  destruct (Z.ltb_spec fo HEADER_LEN); [discriminate|]. cbn [orb]. destruct (Z.ltb_spec file_len fo); [discriminate|].
  unfold checked_mul. destruct (Z.ltb_spec (bc * INDEX_ENTRY_LEN) U64); [|discriminate].
  destruct (Z.ltb_spec io fo); [discriminate|]. cbn [orb]. destruct (_ <? _); [discriminate|].
  destruct (read_exact_at file io _) as [index|] eqn:Hi; [|discriminate]. intros Hr.
  apply read_exact_inv in Hi as (Hn & Hp & Hend & ->). unfold INDEX_ENTRY_LEN in *.
  apply read_entries_region in Hr as (Hl & Hf & Hk). exists fo, io.
  split; [lia|lia|done|]. intros k e He. specialize (Hk k e He). rewrite Nat.add_0_l in Hk.
  rewrite Hl. replace (52 * Z.to_nat bc)%nat with (Z.to_nat (bc * 52)) by lia. done.
Qed.

Lemma index_of_frame file file_len entries fo io e :
  is_bytes file -> index_of file file_len entries fo io -> file_len <= len file -> e ∈ entries ->
  exists p,
    slice file (Z.to_nat (offset e)) (Z.to_nat (offset e) + 8) = Some p
    /\ (le_value p = compressed_size e -> read_block_frame file e =
          Some (Ok (take (Z.to_nat (compressed_size e)) (drop (Z.to_nat (offset e) + 8) file))))
    /\ (le_value p <> compressed_size e -> exists m, read_block_frame file e = Some (Err m)).
Proof.
  intros Hb [Hfo Hio Hreg Hent] Hlen He. apply list_elem_of_lookup in He as [k Hk].
  pose proof (Hent k e Hk) as Hat. apply entry_at_sizes in Hat; [|by apply Forall_take, Forall_drop].
  rewrite Forall_lookup in Hreg. destruct (Hreg k e Hk) as [Hlo Hhi]. unfold HEADER_LEN in *.
  assert (offset e + 8 + compressed_size e <= len file) as Hend by lia.
  exists (take 8 (drop (Z.to_nat (offset e)) file)).
  unfold read_block_frame. rewrite read_exact_ok by lia. change (Z.to_nat 8) with 8%nat. split_and!.
  - unfold slice, len in *. rewrite (proj2 (Nat.leb_le _ _)), (proj2 (Nat.leb_le _ _)) by lia. cbn [andb].
    by replace (Z.to_nat (offset e) + 8 - Z.to_nat (offset e))%nat with 8%nat by lia.
  - intros Heq. rewrite Heq, Z.eqb_refl. cbn [negb]. rewrite read_exact_ok by lia.
    by replace (Z.to_nat (offset e + 8)) with (Z.to_nat (offset e) + 8)%nat by lia.
  - intros Hne. rewrite (proj2 (Z.eqb_neq _ _) Hne). cbn [negb]. by eexists.
Qed.

(** ** The properties of the segment reader *)

Section DecodeSpec.
Context `{ZS : ZstdSpec}.

Lemma decompress_capped_iff frame block :
  decompress_capped frame = Ok block <->
  exists d, with_buffer frame = Ok d /\ broken d = None /\ len (output d) <= MAX_DECODED_BLOCK /\ block = output d.
Proof.
  unfold decompress_capped. split.
  - destruct (with_buffer frame) as [d|e] eqn:Hd; [|unfold read_capped; by rewrite Hd].
    rewrite (read_capped_spec frame MAX_DECODED_BLOCK d) by done. unfold capped.
    assert (forall r : string, (let? b := Ok (take (Z.to_nat (MAX_DECODED_BLOCK + 1)) (output d)) in
      if MAX_DECODED_BLOCK <? len b then Err r else Ok b) = Ok block ->
      len (output d) <= MAX_DECODED_BLOCK /\ block = output d) as Hcut.
    { intros r. cbn. destruct (Z.ltb_spec MAX_DECODED_BLOCK (len (take (Z.to_nat (MAX_DECODED_BLOCK + 1)) (output d)))) as [|Hle];
        [discriminate|]. intros [= <-]. unfold len in *. rewrite length_take in Hle.
      split; [lia|]. rewrite take_ge; [done|lia]. }
    destruct (broken d) as [e|] eqn:Hb.
    + destruct (Z.ltb_spec (len (output d)) (MAX_DECODED_BLOCK + 1)) as [|Hge]; [discriminate|].
      intros H. apply Hcut in H as [H _]. lia.
    + intros H. apply Hcut in H as [H ->]. by exists d.
  - intros (d & Hd & Hb & Hl & ->). rewrite (read_capped_spec frame MAX_DECODED_BLOCK d) by done.
    unfold capped. rewrite Hb. rewrite take_ge by (unfold len in Hl; lia). cbn.
    by rewrite (proj2 (Z.ltb_ge _ _) Hl).
Qed.

(** (C29) A frame decodes to rows exactly when it is a sound zstd frame of at
    most [MAX_DECODED_BLOCK] bytes whose output is the reference encoding of
    those rows: the count, the nine fixed-width columns, the four columns of
    names and the payloads, with nothing missing, nothing left over, every name
    valid UTF-8, and at most [MAX_BLOCK_EVENTS] rows.  Encoding the rows and
    decoding the block is therefore the identity in both directions. *)
Theorem block_decodes_iff_encoded frame rows :
  decode_block frame = Some (Ok rows) <->
  exists d, with_buffer frame = Ok d /\ broken d = None /\ len (output d) <= MAX_DECODED_BLOCK
    /\ block_ok rows /\ output d = encode_columns rows.
Proof.
  unfold decode_block. split.
  - destruct (decompress_capped frame) as [block|] eqn:Hd; [|discriminate].
    apply decompress_capped_iff in Hd as (d & Hw & Hb & Hl & ->). intros Hc.
    apply decode_columns_spec in Hc as [Hok He]; [|apply output_bytes]. by exists d.
  - intros (d & Hw & Hb & Hl & Hok & He).
    rewrite (proj2 (decompress_capped_iff frame (output d))) by (by exists d).
    apply decode_columns_spec; [apply output_bytes|done].
Qed.

End DecodeSpec.

(** No input makes the reader panic: whatever the file, the length it is
    given, the index entry or the frame, every slice and index that
    [read_index], [read_block_frame] and [decode_block] take is in range, and
    the result is a value or an error. *)
Theorem segment_reader_never_panics `{Zs : Zstd} file file_len entry frame :
  is_Some (read_index file file_len) /\ is_Some (read_block_frame file entry) /\ is_Some (decode_block frame).
Proof.
  split_and!.
  - apply read_index_no_panic.
  - unfold read_block_frame. destruct (read_exact_at _ _ _); [|by eexists]. destruct (negb _); by eexists.
  - unfold decode_block. destruct (decompress_capped frame); [|by eexists]. apply decode_columns_no_panic.
Qed.

(** Every block an accepted index names lies between the header and the
    footer, the index after the blocks, and the block's frame can be read: it
    is the bytes the entry names, and reading it fails only when its length
    prefix disagrees with the index. *)
Theorem index_blocks_readable file file_len entries e :
  is_bytes file -> file_len <= len file ->
  read_index file file_len = Some (Ok entries) -> e ∈ entries ->
  (exists footer_offset index_offset, index_of file file_len entries footer_offset index_offset)
  /\ exists p,
       slice file (Z.to_nat (offset e)) (Z.to_nat (offset e) + 8) = Some p
       /\ (le_value p = compressed_size e -> read_block_frame file e =
             Some (Ok (take (Z.to_nat (compressed_size e)) (drop (Z.to_nat (offset e) + 8) file))))
       /\ (le_value p <> compressed_size e -> exists m, read_block_frame file e = Some (Err m)).
Proof.
  intros Hb Hl Hr He. destruct (read_index_ok file file_len entries Hb Hr) as (fo & io & Hio).
  split; [by exists fo, io|]. by eapply index_of_frame.
Qed.

(** ** Samples *)

(** A decoder of stored frames: the frame is its own output. *)
Definition to_byte (b : Z) : Z := b mod 2 ^ 8.

#[local] Instance stored : Zstd :=
  {| Decoder := list Z;
     with_buffer := fun f => Ok f;
     zread := fun d want => Ok (to_byte <$> take (Z.to_nat want) d, drop (Z.to_nat want) d) |}.

#[local] Instance stored_spec : ZstdSpec stored.
Proof.
  refine {| output := fun d : @Decoder stored => to_byte <$> (d : list Z); broken := fun _ => None |}.
  - intros d want chunk d' Hw [= <- <-]. split_and!; [| |done|].
    + unfold len. rewrite length_fmap, length_take. lia.
    + rewrite <- fmap_app. f_equal. symmetry. apply take_drop.
    + intros Hn. apply fmap_nil_inv in Hn. split; [|done]. destruct d as [|x d]; [done|].
      destruct (Z.to_nat want) eqn:E; [lia|discriminate Hn].
  - intros d want e [=].
  - intros d. apply Forall_fmap, Forall_true. intros x. unfold compose, is_byte, to_byte. apply Z.mod_pos_bound. lia.
Defined.

Definition sample_rows : list Row :=
  [ {| row_seq := 7; witnessed_at := 1000; indexed_at := -1; row_kind := 1; row_collection := "a.b.c";
       row_did := "did:plc:x"; row_rkey := "k1"; row_rev := "3a"; payload := [160] |};
    {| row_seq := 8; witnessed_at := 1001; indexed_at := 0; row_kind := 3; row_collection := "a.b.c";
       row_did := "did:plc:x"; row_rkey := "k2"; row_rev := "3b"; payload := [] |} ].

Lemma sample_rows_ok : block_ok sample_rows.
Proof.
  split; [|unfold MAX_BLOCK_EVENTS; simpl; lia].
  repeat constructor; cbn; try lia; try (vm_compute; done).
Qed.

Lemma block_decodes_iff_encoded_witness :
  decode_block (encode_columns sample_rows) = Some (Ok sample_rows).
Proof.
  apply (block_decodes_iff_encoded (encode_columns sample_rows) sample_rows).
  exists (encode_columns sample_rows). split_and!; [reflexivity|reflexivity|vm_compute; discriminate|apply sample_rows_ok|].
  vm_compute. reflexivity.
Defined.

(** A segment of one block. *)
Definition sample_block : list Z := encode_columns sample_rows.

Definition sample_file : list Z :=
  MAGIC ++ replicate 8 0 ++ le_bytes 2 1 ++ le_bytes 4 1 ++ replicate 40 0
  ++ le_bytes 8 (256 + 8 + len sample_block) ++ replicate 24 0 ++ le_bytes 8 (256 + 8 + len sample_block)
  ++ replicate 158 0 ++ le_bytes 8 (len sample_block) ++ sample_block
  ++ le_bytes 8 256 ++ le_bytes 4 (len sample_block) ++ le_bytes 4 (len sample_block) ++ le_bytes 4 2
  ++ le_bytes 8 7 ++ le_bytes 8 8 ++ replicate 16 0.

Definition sample_entry : BlockEntry :=
  {| offset := 256; compressed_size := 109; uncompressed_size := 109; event_count := 2; min_seq := 7; max_seq := 8 |}.

Example sample_reads :
  read_index sample_file (len sample_file) = Some (Ok [sample_entry])
  /\ read_block_frame sample_file sample_entry = Some (Ok sample_block).
Proof. split; vm_compute; reflexivity. Qed.

Lemma index_blocks_readable_witness :
  exists fo io, index_of sample_file (len sample_file) [sample_entry] fo io.
Proof.
  refine (proj1 (index_blocks_readable sample_file (len sample_file) [sample_entry] sample_entry _ _ _ _)).
  - apply (bool_decide_unpack _). vm_compute. exact I.
  - apply Z.le_refl.
  - vm_compute. reflexivity.
  - by left.
Defined.
