(* ===== verification/Tid.v ===== *)
(** * TIDs

    Models [crates/happyview-plugin-sdk/src/tid.rs]: record keys that hold a
    64-bit value [(microseconds << 10) | clock_id] in 13 characters of
    base32-sortstring.  Shifts that push bits out of the 64 drop them, as the
    source's do. *)

From S2P Require Import Prelude RustStr Words.
From Stdlib Require Import ZArith Lia.

#[local] Open Scope Z_scope.

(** ** Definitions *)

Definition BASE32_SORT : string := "234567abcdefghijklmnopqrstuvwxyz".

(** [BASE32_SORT[i]]; the index is always below 32. *)
Definition sort_char (i : Z) : ascii :=
  match String.get (Z.to_nat i) BASE32_SORT with Some c => c | None => "2"%char end.

(** [iter().position(|&b| b == byte)] *)
Fixpoint position (byte : ascii) (s : string) (i : Z) : option Z :=
  match s with
  | EmptyString => None
  | String c s' => if c =c byte then Some i else position byte s' (i + 1)
  end.

(** The loop over the slots from last to first; [acc] is what is filled. *)
Fixpoint encode_go (slots : nat) (val : Z) (acc : string) : string :=
  match slots with
  | O => acc
  | S n => encode_go n (Z.shiftr val 5) (String (sort_char (Z.land val 0x1F)) acc)
  end.

Definition encode_base32_sort (val : Z) : string := encode_go 13 val EmptyString.

Fixpoint decode_go (val : Z) (s : string) : option Z :=
  match s with
  | EmptyString => Some val
  | String byte s' =>
      idx ← position byte BASE32_SORT 0;
      decode_go (Z.lor (wrap64 (Z.shiftl val 5)) idx) s'
  end.

Definition decode_base32_sort (tid : string) : option Z :=
  if negb (String.length tid =? 13)%nat then None else decode_go 0 tid.

(** [as i64]: two's complement. *)
Definition as_i64 (x : Z) : Z := if x <? 2 ^ 63 then x else x - U64.

Definition tid_from_parts (unix_micros clock_id : Z) : string :=
  encode_base32_sort (Z.lor (wrap64 (Z.shiftl unix_micros 10)) (Z.land clock_id 0x3FF)).

Definition tid_from_unix_microseconds (us : Z) : string :=
  encode_base32_sort (wrap64 (Z.shiftl (wrap64 us) 10)).

Definition tid_to_unix_microseconds (tid : string) : option Z :=
  (fun val => as_i64 (Z.shiftr val 10)) <$> decode_base32_sort tid.

Definition tid_to_number (tid : string) : option Z := decode_base32_sort tid.
Definition tid_from_number (val : Z) : string := encode_base32_sort val.

(** ** Characters *)

(** A fact of every digit, from the 32 cases. *)
Lemma digit_cases (P : Z -> Prop) :
  Forall P (Z.of_nat <$> seq 0 32) -> forall d, 0 <= d < 32 -> P d.
Proof.
  intros H d Hd. rewrite Forall_forall in H. apply H. apply list_elem_of_fmap. exists (Z.to_nat d).
  split; [lia|]. apply elem_of_seq. lia.
Qed.

Lemma position_sort_char d : 0 <= d < 32 -> position (sort_char d) BASE32_SORT 0 = Some d.
Proof. revert d. apply digit_cases. repeat constructor. Qed.

Lemma position_bound byte s i j : position byte s i = Some j -> i <= j < i + Z.of_nat (String.length s).
Proof.
  revert i; induction s as [|c s IH]; intros i; simpl; [done|]. destruct (c =c byte); [intros [= <-]; lia|].
  intros H%IH. lia.
Qed.

Lemma position_range byte j : position byte BASE32_SORT 0 = Some j -> 0 <= j < 32.
Proof. intros H%position_bound. done. Qed.

Lemma position_get byte s i j : position byte s i = Some j -> String.get (Z.to_nat (j - i)) s = Some byte.
Proof.
  revert i; induction s as [|c s IH]; intros i; simpl; [done|].
  destruct (Ascii.eqb_spec c byte) as [->|]; [intros [= <-]; by rewrite Z.sub_diag|].
  intros H. pose proof (position_bound _ _ _ _ H). apply IH in H.
  replace (Z.to_nat (j - i)) with (S (Z.to_nat (j - (i + 1)))) by lia. done.
Qed.

Lemma sort_char_position byte j : position byte BASE32_SORT 0 = Some j -> sort_char j = byte.
Proof. intros H%position_get. unfold sort_char. rewrite Z.sub_0_r in H. by rewrite H. Qed.

(** The characters are in increasing order. *)
Lemma sort_char_compare d e :
  0 <= d < 32 -> 0 <= e < 32 -> Ascii.compare (sort_char d) (sort_char e) = (d ?= e).
Proof.
  intros Hd He. revert e He.
  pose proof (digit_cases (fun d => forall e, 0 <= e < 32 ->
    Ascii.compare (sort_char d) (sort_char e) = (d ?= e))) as H. apply H; [|done]. clear.
  repeat constructor; apply digit_cases; repeat constructor.
Qed.

(** ** Digits *)

(** The [n] low digits of [v], most significant first. *)
Fixpoint digits (n : nat) (v : Z) : string :=
  match n with
  | O => EmptyString
  | S k => String (sort_char ((v / 32 ^ Z.of_nat k) mod 32)) (digits k v)
  end.

Lemma pow32_pos k : 0 < 32 ^ Z.of_nat k.
Proof. apply Z.pow_pos_nonneg; lia. Qed.

Lemma pow32_S k : 32 ^ Z.of_nat (S k) = 32 * 32 ^ Z.of_nat k.
Proof. rewrite Nat2Z.inj_succ, Z.pow_succ_r by lia. done. Qed.

Lemma digits_snoc n v : digits (S n) v = digits n (v / 32) +:+ String (sort_char (v mod 32)) EmptyString.
Proof.
  revert v. induction n as [|n IH]; intros v.
  - simpl. by rewrite Z.div_1_r.
  - cbn [digits] in IH |- *. rewrite IH. cbn [digits String.append]. do 2 f_equal.
    rewrite Z.div_div, <- pow32_S by (pose proof (pow32_pos n); lia). done.
Qed.

Lemma encode_go_digits n v acc : encode_go n v acc = digits n v +:+ acc.
Proof.
  revert v acc. induction n as [|n IH]; intros v acc; [done|]. cbn [encode_go].
  change 0x1F with (Z.ones 5). rewrite land_ones_mod, Z.shiftr_div_pow2 by lia.
  change (2 ^ 5) with 32. rewrite IH, digits_snoc, append_assoc. done.
Qed.

Lemma encode_digits v : encode_base32_sort v = digits 13 v.
Proof. unfold encode_base32_sort. rewrite encode_go_digits. apply append_nil_r. Qed.

Lemma mod_pow32_S v n :
  v mod 32 ^ Z.of_nat (S n) = ((v / 32 ^ Z.of_nat n) mod 32) * 32 ^ Z.of_nat n + v mod 32 ^ Z.of_nat n.
Proof.
  pose proof (pow32_pos n). rewrite pow32_S, (Z.mul_comm 32), Z.rem_mul_r by lia. lia.
Qed.

Lemma digits_compare n v w :
  String.compare (digits n v) (digits n w) = (v mod 32 ^ Z.of_nat n ?= w mod 32 ^ Z.of_nat n).
Proof.
  induction n as [|n IH]; [simpl; by rewrite !Z.mod_1_r|]. cbn [digits String.compare].
  pose proof (pow32_pos n) as Hp. rewrite sort_char_compare by (apply Z.mod_pos_bound; lia).
  rewrite !mod_pow32_S, IH.
  pose proof (Z.mod_pos_bound v _ Hp). pose proof (Z.mod_pos_bound w _ Hp).
  set (a := (v / _) mod 32). set (b := (w / _) mod 32).
  destruct (Z.compare_spec a b) as [->|Hlt|Hgt]; symmetry.
  - by rewrite Zcompare_plus_compat.
  - apply Z.compare_lt_iff. nia.
  - apply Z.compare_gt_iff. nia.
Qed.

Lemma digits_low n k a V : (n <= k)%nat -> digits n (a * 32 ^ Z.of_nat k + V) = digits n V.
Proof.
  induction n as [|n IH]; intros Hk; [done|]. cbn [digits]. rewrite IH by lia. do 2 f_equal.
  replace (32 ^ Z.of_nat k) with (32 ^ Z.of_nat (k - n - 1) * 32 * 32 ^ Z.of_nat n).
  2: { rewrite <- Z.mul_assoc, <- pow32_S, <- Z.pow_add_r by lia. f_equal. lia. }
  pose proof (pow32_pos n). rewrite !Z.mul_assoc, Z.div_add_l by lia.
  rewrite Z.add_comm, Z.mod_add by lia. done.
Qed.

Lemma decode_step a d : 0 <= d < 32 -> Z.lor (wrap64 (Z.shiftl a 5)) d = wrap64 (a * 32 + d).
Proof.
  intros Hd. unfold wrap64, U64. rewrite Z.shiftl_mul_pow2 by lia. change (2 ^ 5) with 32.
  change (2 ^ 64) with (2 ^ 59 * 32). rewrite Z.mul_mod_distr_r by lia.
  replace (a mod 2 ^ 59 * 32) with (Z.shiftl (a mod 2 ^ 59) 5) by (by rewrite Z.shiftl_mul_pow2).
  rewrite Z.lor_comm, lor_shiftl by (simpl; lia). change (2 ^ 5) with 32.
  rewrite (Z.mul_comm (2 ^ 59) 32), Z.rem_mul_r by lia.
  rewrite (Z.add_comm (a * 32)). rewrite Z.mod_add by lia. rewrite Z.div_add by lia.
  rewrite (Z.mod_small d 32), (Z.div_small d 32) by lia. rewrite Z.add_0_l. ring.
Qed.

Lemma decode_digits n v a :
  0 <= a < U64 -> decode_go a (digits n v) = Some (wrap64 (a * 32 ^ Z.of_nat n + v mod 32 ^ Z.of_nat n)).
Proof.
  revert a. induction n as [|n IH]; intros a Ha; cbn [digits decode_go].
  - rewrite Z.mod_1_r, Z.add_0_r, Z.mul_1_r. unfold wrap64. by rewrite Z.mod_small.
  - pose proof (Z.mod_pos_bound (v / 32 ^ Z.of_nat n) 32 ltac:(lia)) as Hd.
    rewrite position_sort_char by done. cbn [mbind option_bind]. rewrite decode_step by done.
    rewrite IH by (unfold wrap64; apply Z.mod_pos_bound; done).
    rewrite mod_pow32_S, pow32_S. unfold wrap64.
    rewrite <- (Z.add_mod_idemp_l (_ * _)), Z.mul_mod_idemp_l, Z.add_mod_idemp_l by done.
    do 2 f_equal. ring.
Qed.

Lemma decode_encode_tid v : 0 <= v < U64 -> decode_base32_sort (encode_base32_sort v) = Some v.
Proof.
  intros Hv. rewrite encode_digits. unfold decode_base32_sort.
  assert (Hl : forall n, String.length (digits n v) = n) by (induction n; simpl; congruence).
  rewrite Hl. cbn [Nat.eqb negb]. rewrite decode_digits by done. rewrite Z.mul_0_l, Z.add_0_l.
  assert (v mod 32 ^ Z.of_nat 13 = v) as -> by (apply Z.mod_small; unfold U64 in Hv; split; [lia|];
    change (32 ^ Z.of_nat 13) with (2 ^ 65); lia).
  unfold wrap64. by rewrite Z.mod_small.
Qed.

Lemma string_compare_refl a b : String.compare a b = Eq <-> a = b.
Proof.
  split; [apply String.compare_eq_iff|]. intros ->. induction b as [|c b IH]; simpl; [done|].
  unfold Ascii.compare. by rewrite N.compare_refl.
Qed.

Lemma encode_compare v w :
  0 <= v < U64 -> 0 <= w < U64 ->
  String.compare (encode_base32_sort v) (encode_base32_sort w) = (v ?= w).
Proof.
  intros Hv Hw. rewrite !encode_digits, digits_compare. change (32 ^ Z.of_nat 13) with (2 ^ 65).
  unfold U64 in *. rewrite !Z.mod_small by lia. done.
Qed.

(** TIDs sort as their values do: comparing two encoded 64-bit values as
    strings gives the same answer as comparing the numbers, and reading an
    encoded value gives it back. *)
Theorem tid_sorts_and_reads_back v w :
  0 <= v < U64 -> 0 <= w < U64 ->
  String.compare (tid_from_number v) (tid_from_number w) = (v ?= w)
  /\ tid_to_number (tid_from_number v) = Some v.
Proof. intros Hv Hw. split; [by apply encode_compare|by apply decode_encode_tid]. Qed.

(** ** Parts *)

Lemma parts_value us c :
  0 <= us < 2 ^ 54 -> Z.lor (wrap64 (Z.shiftl us 10)) (Z.land c 0x3FF) = us * 1024 + c mod 1024.
Proof.
  intros Hus. change 0x3FF with (Z.ones 10). rewrite land_ones_mod by lia.
  pose proof (Z.mod_pos_bound c (2 ^ 10) ltac:(lia)) as Hc.
  assert (wrap64 (Z.shiftl us 10) = Z.shiftl us 10) as ->.
  { unfold wrap64, U64. rewrite Z.shiftl_mul_pow2 by lia. apply Z.mod_small. lia. }
  rewrite Z.lor_comm, lor_shiftl by lia. change (2 ^ 10) with 1024. lia.
Qed.

Lemma parts_range us c : 0 <= us < 2 ^ 54 -> 0 <= us * 1024 + c mod 1024 < U64.
Proof. intros Hus. pose proof (Z.mod_pos_bound c 1024 ltac:(lia)). unfold U64. lia. Qed.

(** A TID carries its timestamp: for every microsecond timestamp that
    fits in 54 bits and any clock id, the timestamp reads back from the TID,
    and a TID of an earlier moment sorts before one of a later moment whatever
    the two clock ids are. *)
Theorem tid_timestamp us c us' c' :
  0 <= us < 2 ^ 54 -> 0 <= us' < 2 ^ 54 ->
  tid_to_unix_microseconds (tid_from_parts us c) = Some us
  /\ (us < us' -> String.compare (tid_from_parts us c) (tid_from_parts us' c') = Lt).
Proof.
  intros Hus Hus'. unfold tid_to_unix_microseconds, tid_from_parts. rewrite !parts_value by done.
  pose proof (parts_range us c Hus) as Hr. pose proof (parts_range us' c' Hus') as Hr'.
  pose proof (Z.mod_pos_bound c 1024 ltac:(lia)). pose proof (Z.mod_pos_bound c' 1024 ltac:(lia)). split.
  - rewrite decode_encode_tid by done. simpl. f_equal. rewrite Z.shiftr_div_pow2 by lia.
    change (2 ^ 10) with 1024. rewrite Z.div_add_l, Z.div_small, Z.add_0_r by lia.
    unfold as_i64. destruct (Z.ltb_spec us (2 ^ 63)); lia.
  - intros Hlt. rewrite encode_compare by done. apply Z.compare_lt_iff. lia.
Qed.

(** ** Which strings are the encoding of their value *)

Lemma decode_go_value a s v :
  decode_go a s = Some v -> 0 <= a < U64 ->
  exists V, s = digits (String.length s) V /\ 0 <= V < 32 ^ Z.of_nat (String.length s)
    /\ v = wrap64 (a * 32 ^ Z.of_nat (String.length s) + V).
Proof.
  revert a. induction s as [|c s IH]; intros a; cbn [decode_go].
  - intros [= <-] Ha. exists 0. split; [done|]. split; [simpl; lia|]. unfold wrap64.
    rewrite Z.add_0_r, Z.mul_1_r, Z.mod_small; done.
  - destruct (position c BASE32_SORT 0) as [d|] eqn:Ec; [|done]. cbn [mbind option_bind].
    pose proof (position_range _ _ Ec) as Hd. rewrite decode_step by done. intros H Ha.
    apply IH in H as (V & Hs & HV & ->); [|unfold wrap64; apply Z.mod_pos_bound; done].
    pose proof (pow32_pos (String.length s)) as Hp. set (n := String.length s) in *.
    exists (d * 32 ^ Z.of_nat n + V). cbn [String.length]. fold n. split_and!.
    + cbn [digits]. rewrite Z.div_add_l, (Z.div_small V), Z.add_0_r, Z.mod_small by lia.
      rewrite (sort_char_position _ _ Ec). f_equal. rewrite Hs at 1. symmetry. by apply digits_low.
    + nia.
    + rewrite pow32_S. nia.
    + rewrite pow32_S. unfold wrap64. rewrite <- Z.add_mod_idemp_l, Z.mul_mod_idemp_l, Z.add_mod_idemp_l by done.
      f_equal. ring.
Qed.

(** The first character is one of the lower sixteen: the value fits 64 bits. *)
Definition high_bit_clear (tid : string) : bool :=
  match tid with
  | String c _ => match position c BASE32_SORT 0 with Some i => i <? 16 | None => false end
  | EmptyString => false
  end.

(** Which TIDs are canonical: a 13-character TID that reads as some value
    is the encoding of that value exactly when its first character is one of
    the lower sixteen of the alphabet; any other decodes to the value of a
    different TID, its highest bit dropped. *)
Theorem tid_canonical_iff tid v :
  tid_to_number tid = Some v -> tid_from_number v = tid <-> high_bit_clear tid = true.
Proof.
  unfold tid_to_number, tid_from_number, decode_base32_sort.
  destruct (Nat.eqb_spec (String.length tid) 13) as [Hl|]; [|done]. cbn [negb]. intros Hd.
  apply decode_go_value in Hd as (V & Hs & HV & ->); [|done]. rewrite Hl in *.
  rewrite Z.mul_0_l, Z.add_0_l, encode_digits. change (32 ^ Z.of_nat 13) with (2 ^ 65) in HV.
  assert (high_bit_clear tid = (V <? U64)) as ->.
  { rewrite Hs. cbn [digits high_bit_clear]. change (32 ^ Z.of_nat 12) with (2 ^ 60).
    rewrite position_sort_char by (apply Z.mod_pos_bound; lia).
    assert (V / 2 ^ 60 < 32) by (apply Z.div_lt_upper_bound; lia).
    assert (0 <= V / 2 ^ 60) by (apply Z.div_pos; lia). rewrite Z.mod_small by lia.
    pose proof (Z.div_mod V (2 ^ 60) ltac:(lia)). pose proof (Z.mod_pos_bound V (2 ^ 60) ltac:(lia)).
    unfold U64. destruct (Z.ltb_spec (V / 2 ^ 60) 16), (Z.ltb_spec V (2 ^ 64)); lia. }
  unfold wrap64, U64. rewrite Hs at 1. split.
  - intros Heq. apply Z.ltb_lt. pose proof (digits_compare 13 (V mod 2 ^ 64) V) as Hc.
    rewrite Heq in Hc. pose proof (Z.mod_pos_bound V (2 ^ 64) ltac:(lia)).
    change (32 ^ Z.of_nat 13) with (2 ^ 65) in Hc. rewrite !(Z.mod_small _ (2 ^ 65)) in Hc by lia.
    rewrite (proj2 (string_compare_refl _ _)) in Hc by done. symmetry in Hc. apply Z.compare_eq_iff in Hc. lia.
  - intros HV2%Z.ltb_lt. by rewrite Z.mod_small by lia.
Qed.

(** ** Witnesses *)

Lemma tid_sorts_and_reads_back_witness : tid_to_number (tid_from_number 1234567890) = Some 1234567890.
Proof. apply (tid_sorts_and_reads_back 1234567890 0); unfold U64; lia. Defined.

Lemma tid_timestamp_witness :
  String.compare (tid_from_parts 1700000000000000 1023) (tid_from_parts 1700000000000001 0) = Lt.
Proof. apply (tid_timestamp 1700000000000000 1023 1700000000000001 0); lia. Defined.

Lemma tid_canonical_iff_witness : tid_from_number (15 * 2 ^ 60) = "j222222222222".
Proof.
  apply (tid_canonical_iff "j222222222222" (15 * 2 ^ 60)); vm_compute; reflexivity.
Defined.
