(* ===== verification/LtHash.v ===== *)
(** * The homomorphic repository hash

    Models [src/spaces/lthash.rs]: a set hash of 1024 sixteen-bit lanes to which
    record elements are added and from which they are removed.  The lanes of an
    element come from the extendable output of BLAKE3 and the digest from
    SHA-256, both third-party: class [Hashes] holds the two functions, and the
    theorems hold for any two. *)

From S2P Require Import Prelude RustStr Words.
From Stdlib Require Import ZArith Lia.

#[local] Open Scope Z_scope.

(** ** Definitions *)

Definition NUM_LANES : nat := 1024.
Definition STATE_BYTES : nat := NUM_LANES * 2.

Class Hashes : Type := {
  blake3_xof : list Z -> list Z;    (* the first [STATE_BYTES] bytes of output *)
  sha256 : list Z -> list Z;
}.

Record LtHashState : Type := { lanes : list Z }.

Definition new : LtHashState := {| lanes := replicate NUM_LANES 0 |}.

(** [u16::from_le_bytes] and [u16::to_le_bytes]. *)
Definition from_le_bytes (b0 b1 : Z) : Z := b0 + 256 * b1.
Definition to_le_bytes (v : Z) : list Z := [v mod 256; v / 256].

(** [lanes[i] = u16::from_le_bytes([buf[i * 2], buf[i * 2 + 1]])] for every lane. *)
Definition lanes_of_bytes (buf : list Z) : list Z :=
  (fun i => from_le_bytes (nth (i * 2) buf 0) (nth (i * 2 + 1) buf 0)) <$> seq 0 NUM_LANES.

Definition as_bytes (s : LtHashState) : list Z := lanes s ≫= to_le_bytes.

Definition from_bytes (bytes : list Z) : LtHashState := {| lanes := lanes_of_bytes bytes |}.

Section Model.
Context {H : Hashes}.

Definition expand_element (element : list Z) : list Z := lanes_of_bytes (blake3_xof element).

Definition add (s : LtHashState) (element : list Z) : LtHashState :=
  {| lanes := zip_with (fun l v => wrap16 (l + v)) (lanes s) (expand_element element) |}.

Definition remove (s : LtHashState) (element : list Z) : LtHashState :=
  {| lanes := zip_with (fun l v => wrap16 (l - v)) (lanes s) (expand_element element) |}.

Definition hash (s : LtHashState) : list Z := sha256 (as_bytes s).

End Model.

Definition slash : ascii := "/".

Definition record_element (collection rkey cid : string) : list Z :=
  str_bytes (collection +:+ String slash (rkey +:+ String slash cid)).

(** A history of the repository's records. *)
Inductive op : Type := Add (element : list Z) | Remove (element : list Z).

Section Run.
Context {H : Hashes}.

Definition step (s : LtHashState) (o : op) : LtHashState :=
  match o with Add e => add s e | Remove e => remove s e end.

Definition run (ops : list op) : LtHashState := foldl step new ops.

End Run.

(** ** The state as a sum *)

Definition op_element (o : op) : list Z := match o with Add e | Remove e => e end.
Definition op_sign (o : op) : Z := match o with Add _ => 1 | Remove _ => -1 end.

(** How often an element has been added, less how often removed. *)
Definition net (ops : list op) (e : list Z) : Z :=
  foldr (fun o n => (if decide (op_element o = e) then op_sign o else 0) + n) 0 ops.

Definition wf (s : LtHashState) : Prop :=
  length (lanes s) = NUM_LANES /\ Forall (fun v => 0 <= v < U16) (lanes s).

Section Facts.
Context {H : Hashes}.

(** The lane [i] of an element. *)
Definition lane (i : nat) (e : list Z) : Z := nth i (expand_element e) 0.

Lemma expand_length e : length (expand_element e) = NUM_LANES.
Proof. unfold expand_element, lanes_of_bytes. by rewrite length_fmap, length_seq. Qed.

Definition lane_sum (i : nat) (ops : list op) : Z :=
  foldr (fun o n => op_sign o * lane i (op_element o) + n) 0 ops.

Lemma step_lane s o i v :
  lanes s !! i = Some v -> (i < NUM_LANES)%nat ->
  lanes (step s o) !! i = Some (wrap16 (v + op_sign o * lane i (op_element o))).
Proof.
  intros Hv Hi. assert (He : forall e, expand_element e !! i = Some (lane i e)).
  { intros e. destruct (lookup_lt_is_Some_2 (expand_element e) i) as [x Hx]; [by rewrite expand_length|].
    rewrite Hx. unfold lane. by rewrite (nth_lookup_Some _ _ _ _ Hx). }
  destruct o as [e|e]; simpl; rewrite lookup_zip_with, Hv, He; cbn [mbind option_bind fmap option_fmap option_map];
    do 2 f_equal; simpl; lia.
Qed.

Lemma step_length s o : length (lanes s) = NUM_LANES -> length (lanes (step s o)) = NUM_LANES.
Proof. destruct o; simpl; rewrite length_zip_with, expand_length; lia. Qed.

Lemma run_lane ops i :
  (i < NUM_LANES)%nat -> lanes (run ops) !! i = Some (wrap16 (lane_sum i ops)).
Proof.
  intros Hi. unfold run.
  assert (Hgen : forall s v, lanes s !! i = Some (wrap16 v) ->
    lanes (foldl step s ops) !! i = Some (wrap16 (v + lane_sum i ops))).
  { induction ops as [|o ops IH]; intros s v Hv; simpl; [by rewrite Z.add_0_r|].
    rewrite Z.add_assoc. apply IH. rewrite (step_lane _ _ _ _ Hv Hi). f_equal. unfold wrap16, U16.
    by rewrite Z.add_mod_idemp_l. }
  rewrite (Hgen new 0); [done|]. unfold new. cbn [lanes]. by rewrite lookup_replicate_2.
Qed.

Lemma run_length ops : length (lanes (run ops)) = NUM_LANES.
Proof.
  unfold run. assert (Hl : length (lanes new) = NUM_LANES) by apply length_replicate.
  revert Hl. generalize new. induction ops as [|o ops IH]; intros s Hs; simpl; [done|].
  by apply IH, step_length.
Qed.

(** Two histories agree when their lane sums do. *)
Lemma run_ext ops ops' :
  (forall i, lane_sum i ops = lane_sum i ops') -> run ops = run ops'.
Proof.
  intros Hs. assert (lanes (run ops) = lanes (run ops')) as Heq.
  { apply list_eq. intros i. destruct (decide (i < NUM_LANES)%nat) as [Hi|Hi].
    - by rewrite !run_lane, Hs by done.
    - rewrite !lookup_ge_None_2; [done|rewrite run_length; lia..]. }
  destruct (run ops), (run ops'); simpl in *; congruence.
Qed.

(** A lane sum over distinct elements, each weighted with its net count. *)
Definition weighted (i : nat) (g : list Z -> Z) (E : list (list Z)) : Z :=
  foldr (fun e n => g e * lane i e + n) 0 E.

Lemma weighted_bump i g e c E :
  NoDup E -> e ∈ E ->
  weighted i (fun x => (if decide (e = x) then c else 0) + g x) E = c * lane i e + weighted i g E.
Proof.
  induction E as [|x E IH]; intros Hnd He; [by apply not_elem_of_nil in He|].
  apply NoDup_cons in Hnd as [Hx Hnd]. cbn [weighted foldr]. fold (weighted i g E).
  fold (weighted i (fun x => (if decide (e = x) then c else 0) + g x) E).
  destruct (decide (e = x)) as [->|Hne].
  - assert (weighted i (fun y => (if decide (x = y) then c else 0) + g y) E = weighted i g E) as ->; [|lia].
    clear -Hx. induction E as [|y E IH]; [done|]. cbn [weighted foldr].
    rewrite not_elem_of_cons in Hx. destruct Hx as [Hne Hx]. fold (weighted i g E).
    fold (weighted i (fun y => (if decide (x = y) then c else 0) + g y) E). rewrite IH by done.
    rewrite decide_False by done. lia.
  - apply elem_of_cons in He as [->|He]; [done|]. rewrite IH by done. lia.
Qed.

Lemma lane_sum_net i ops E :
  NoDup E -> (forall o, o ∈ ops -> op_element o ∈ E) -> lane_sum i ops = weighted i (net ops) E.
Proof.
  intros Hnd. induction ops as [|o ops IH]; intros Hin.
  - simpl. clear. induction E as [|e E IH]; [done|]. cbn [weighted foldr]. fold (weighted i (net []) E). simpl. lia.
  - cbn [lane_sum foldr]. fold (lane_sum i ops). rewrite IH by (intros; apply Hin; by right).
    change (net (o :: ops)) with (fun e => (if decide (op_element o = e) then op_sign o else 0) + net ops e).
    rewrite weighted_bump; [done|done|apply Hin; by left].
Qed.

Lemma weighted_ext i g g' E : (forall e, g e = g' e) -> weighted i g E = weighted i g' E.
Proof. intros Hg. unfold weighted. induction E as [|e E IH]; simpl; [done|]. by rewrite Hg, IH. Qed.

Lemma run_net ops ops' : (forall e, net ops e = net ops' e) -> run ops = run ops'.
Proof.
  intros Hn. apply run_ext. intros i.
  set (E := remove_dups ((op_element <$> ops) ++ (op_element <$> ops'))).
  assert (HE : NoDup E) by apply NoDup_remove_dups.
  rewrite (lane_sum_net i ops E), (lane_sum_net i ops' E); [by apply weighted_ext|done| |done|];
    intros o Ho; apply elem_of_remove_dups, elem_of_app;
    [right|left]; by apply list_elem_of_fmap_2.
Qed.

(** The hash is a function of the record set: the state after any
    history of additions and removals depends only on how often each element
    was added less how often it was removed - so it does not depend on order,
    an addition and a removal of the same element cancel wherever they stand,
    and two replicas that reach the same records hold the same state. *)
Theorem lthash_history_independent ops ops' :
  (forall e, net ops e = net ops' e) -> run ops = run ops' /\ hash (run ops) = hash (run ops').
Proof. intros Hn. by rewrite (run_net ops ops' Hn). Qed.

(** ** Storing the state *)

Lemma nth_le_bytes l i :
  (i < length l)%nat ->
  nth (i * 2) (l ≫= to_le_bytes) 0 = nth i l 0 mod 256
  /\ nth (i * 2 + 1) (l ≫= to_le_bytes) 0 = nth i l 0 / 256.
Proof.
  revert i; induction l as [|v l IH]; intros i Hi; [simpl in Hi; lia|].
  destruct i as [|i]; [done|]. simpl in Hi. destruct (IH i) as [H1 H2]; [lia|]. split.
  - replace (S i * 2)%nat with (S (S (i * 2))) by lia. exact H1.
  - replace (S i * 2 + 1)%nat with (S (S (i * 2 + 1))) by lia. exact H2.
Qed.

Lemma lanes_as_bytes s : wf s -> lanes_of_bytes (as_bytes s) = lanes s.
Proof.
  intros [Hl Hr]. unfold lanes_of_bytes, as_bytes. apply list_eq. intros i. rewrite list_lookup_fmap.
  destruct (decide (i < NUM_LANES)%nat) as [Hi|Hi].
  - rewrite lookup_seq_lt by done. cbn [fmap option_fmap option_map Nat.add].
    destruct (nth_le_bytes (lanes s) i) as [-> ->]; [by rewrite Hl|].
    destruct (lookup_lt_is_Some_2 (lanes s) i) as [v Hv]; [by rewrite Hl|]. rewrite Hv. f_equal.
    rewrite (nth_lookup_Some _ _ _ _ Hv). unfold from_le_bytes. pose proof (Z.div_mod v 256 ltac:(lia)). lia.
  - rewrite lookup_seq_ge by lia. symmetry. apply lookup_ge_None_2. rewrite Hl. lia.
Qed.

Lemma run_wf ops : wf (run ops).
Proof.
  split; [apply run_length|]. apply Forall_lookup. intros i v Hv.
  pose proof (lookup_lt_Some _ _ _ Hv) as Hi. rewrite run_length in Hi. rewrite run_lane in Hv by done.
  injection Hv as <-. unfold wrap16. apply Z.mod_pos_bound. done.
Qed.

Lemma as_bytes_length l : length (l ≫= to_le_bytes) = (length l * 2)%nat.
Proof.
  induction l as [|v l IH]; [done|].
  change ((v :: l) ≫= to_le_bytes) with (v mod 256 :: v / 256 :: (l ≫= to_le_bytes)). cbn [length].
  rewrite IH. lia.
Qed.

(** The stored state resumes exactly: the bytes of a state reached by any
    history fill the 2048-byte buffer, and reading them back gives the same
    state, so adding to or removing from the restored state continues the
    history. *)
Theorem lthash_state_restores ops ops' :
  length (as_bytes (run ops)) = STATE_BYTES /\ is_bytes (as_bytes (run ops))
  /\ foldl step (from_bytes (as_bytes (run ops))) ops' = run (ops ++ ops').
Proof.
  pose proof (run_wf ops) as [Hl Hr]. split_and!.
  - unfold as_bytes. by rewrite as_bytes_length, Hl.
  - unfold as_bytes. clear Hl. induction Hr as [|v l Hv Hl IH]; [constructor|].
    unfold U16 in Hv. constructor; [apply Z.mod_pos_bound; lia|]. constructor; [|done].
    split; [apply Z.div_pos; lia|apply Z.div_lt_upper_bound; lia].
  - unfold from_bytes. rewrite lanes_as_bytes by apply run_wf. unfold run. rewrite foldl_app.
    by destruct (foldl step new ops).
Qed.

End Facts.

(** Distinct records have distinct elements: when neither the collection
    nor the record key holds a slash - as no valid NSID or record key does -
    the element determines the collection, the record key and the CID. *)
Theorem record_element_injective c r d c' r' d' :
  contains_char slash c = false -> contains_char slash r = false ->
  contains_char slash c' = false -> contains_char slash r' = false ->
  record_element c r d = record_element c' r' d' -> c = c' /\ r = r' /\ d = d'.
Proof.
  intros Hc Hr Hc' Hr' Heq. unfold record_element in Heq.
  apply (f_equal bytes_str) in Heq. rewrite !bytes_str_bytes in Heq.
  apply (f_equal (str_split_once (Ascii.eqb slash))) in Heq.
  rewrite !str_split_once_app in Heq by done. injection Heq as <- Heq.
  apply (f_equal (str_split_once (Ascii.eqb slash))) in Heq.
  rewrite !str_split_once_app in Heq by done. by injection Heq as <- <-.
Qed.

(** ** Witnesses

    With a stand-in for the two hash functions: the element repeated. *)

Module Standin.

#[export] Instance hashes : Hashes := {|
  blake3_xof := fun e => replicate STATE_BYTES (fold_right Z.add 0 e mod 256);
  sha256 := fun b => take 32 b;
|}.

End Standin.

Lemma lthash_history_independent_witness :
  run (H := Standin.hashes) [Add [1]; Add [2]; Remove [1]] = run (H := Standin.hashes) [Add [2]].
Proof.
  apply (lthash_history_independent [Add [1]; Add [2]; Remove [1]] [Add [2]]).
  intros e. unfold net. simpl.
  destruct (decide ([1] = e)), (decide ([2] = e)); reflexivity.
Defined.

Lemma record_element_injective_witness : record_element "a" "b" "c" <> record_element "a" "b" "d".
Proof.
  intros H. assert ("c" = "d") as Heq; [|discriminate Heq].
  apply (record_element_injective "a" "b" "c" "a" "b" "d"); [reflexivity..|exact H].
Defined.
