(* ===== verification/PluginGraph.v ===== *)
(** * The plugin dependency graph

    [src/plugin/graph.rs]: which plugins may be installed and removed, and the
    order they load in.  A [BTreeSet] is a [gset] read in order by [first]; the
    maps are [gmap]s.  [None] is a panic ([unwrap], indexing a map, counter
    underflow) or a loop that outlives its fuel: the theorems show that neither
    happens.  The crate [semver] is the interface [Semver]. *)

From stdpp Require Import gmap strings sorting relations.
From S2P Require Import Prelude.

(** [VersionReq::parse], [Version::parse] and [VersionReq::matches]. *)
Class Semver : Type := {
  Version : Type;
  VersionReq : Type;
  parse_version : string -> option Version;
  parse_req : string -> option VersionReq;
  req_matches : VersionReq -> Version -> bool;
}.

Record PluginDependency : Type := { dep_id : string; dep_version : string }.

Record PluginNode : Type := {
  node_id : string;
  node_version : string;
  dependencies : list PluginDependency;
}.

Inductive GraphError : Type :=
| MissingDependency (plugin dependency : string)
| VersionMismatch (plugin dependency required installed : string)
| Cycle (cycle : list string)
| HasDependents (plugin : string) (dependents : list string)
| InvalidRequirement (plugin dependency requirement : string)
| NamespaceTaken (namespace by_ : string)
| LanguageIdTaken (language_id by_ : string)
| ExtensionTaken (extension by_ : string).

(** [BTreeSet::iter().next()]. *)
Definition first (X : gset string) : option string := head (merge_sort String.le (elements X)).

(** [iter().map(|n| (n.id, n)).collect()] into a map: the last one wins. *)
Definition by_id (nodes : list PluginNode) : gmap string PluginNode :=
  foldl (fun m n => <[node_id n := n]> m) ∅ nodes.

(** A [for] loop with [?] in its body. *)
Fixpoint try_each {A E} (f : A -> result unit E) (l : list A) : result unit E :=
  match l with
  | [] => Ok tt
  | x :: l' => let? _ := f x in try_each f l'
  end.

(** ** The load order *)

Definition ids_of (nodes : list PluginNode) : gset string := list_to_set (node_id <$> nodes).

(** The state of the first loop: [in_degree] and [dependents]. *)
Definition Degrees : Type := gmap string nat * gmap string (list string).

Definition add_dependency (ids : gset string) (id : string) (st : option Degrees) (dep : PluginDependency) : option Degrees :=
  '(in_degree, dependents) ← st;
  if bool_decide (dep_id dep ∈ ids) then
    d ← in_degree !! id;
    Some (<[id := S d]> in_degree,
          <[dep_id dep := default [] (dependents !! dep_id dep) ++ [id]]> dependents)
  else Some (in_degree, dependents).

Definition add_node (ids : gset string) (st : option Degrees) (node : PluginNode) : option Degrees :=
  foldl (add_dependency ids (node_id node)) st (dependencies node).

Definition degrees (nodes : list PluginNode) : option Degrees :=
  foldl (add_node (ids_of nodes)) (Some (gset_to_gmap 0 (ids_of nodes), ∅)) nodes.

(** The loop over the dependents of the id just taken. *)
Fixpoint relax (dependents : list string) (st : gmap string nat * gset string) : option (gmap string nat * gset string) :=
  match dependents with
  | [] => Some st
  | dependent :: rest =>
      let '(in_degree, ready) := st in
      match in_degree !! dependent with
      | Some (S d) =>
          relax rest (<[dependent := d]> in_degree, if (d =? 0)%nat then {[dependent]} ∪ ready else ready)
      | _ => None
      end
  end.

Fixpoint drain (fuel : nat) (dependents : gmap string (list string)) (in_degree : gmap string nat)
    (ready : gset string) (order : list string) : option (gmap string nat * list string) :=
  match first ready with
  | None => Some (in_degree, order)
  | Some id =>
      match fuel with
      | O => None
      | S fuel' =>
          '(in_degree', ready') ← relax (default [] (dependents !! id)) (in_degree, ready ∖ {[id]});
          drain fuel' dependents in_degree' ready' (order ++ [id])
      end
  end.

Fixpoint position (x : string) (l : list string) : option nat :=
  match l with
  | [] => None
  | y :: l' => if y =s x then Some 0 else S <$> position x l'
  end.

Definition next_of (remaining : gset string) (start : string) (node : PluginNode) : string :=
  default start (List.find (fun d => bool_decide (d ∈ remaining)) (dep_id <$> dependencies node)).

(** The walk that names a cycle. *)
Fixpoint walk (fuel : nat) (nodes : gmap string PluginNode) (remaining : gset string) (start : string)
    (path : list string) (current : string) : option (list string) :=
  node ← nodes !! current;
  let next := next_of remaining start node in
  match position next path with
  | Some pos => Some (drop pos path ++ [next])
  | None =>
      match fuel with
      | O => None
      | S fuel' => walk fuel' nodes remaining start (path ++ [next]) next
      end
  end.

Definition load_order (nodes : list PluginNode) : option (result (list string) GraphError) :=
  '(in_degree, dependents) ← degrees nodes;
  let ready := dom (filter (fun p => p.2 = 0) in_degree) in
  '(in_degree, order) ← drain (size (ids_of nodes)) dependents in_degree ready [];
  if (length order =? length nodes)%nat then Some (Ok order)
  else
    let remaining := dom (filter (fun p => 0 < p.2) in_degree) in
    start ← first remaining;
    cycle ← walk (size remaining) (by_id nodes) remaining start [start] start;
    Some (Err (Cycle cycle)).

(** ** Installing and removing *)

Section Check.
Context `{Sv : Semver}.

Definition check_edge (from : PluginNode) (dep : PluginDependency) (to : PluginNode) : result unit GraphError :=
  match parse_req (dep_version dep) with
  | None => Err (InvalidRequirement (node_id from) (dep_id dep) (dep_version dep))
  | Some req =>
      let satisfied :=
        match parse_version (node_version to) with Some v => req_matches req v | None => false end in
      if satisfied then Ok tt
      else Err (VersionMismatch (node_id from) (dep_id dep) (dep_version dep) (node_version to))
  end.

(** The nodes after the candidate replaced its namesake. *)
Definition with_candidate (installed : list PluginNode) (candidate : PluginNode) : list PluginNode :=
  filter (fun n => node_id n <> node_id candidate) installed ++ [candidate].

Definition check_own (nodes : list PluginNode) (candidate : PluginNode) (dep : PluginDependency) : result unit GraphError :=
  match by_id nodes !! dep_id dep with
  | None => Err (MissingDependency (node_id candidate) (dep_id dep))
  | Some target => check_edge candidate dep target
  end.

Definition check_dependent (candidate node : PluginNode) : result unit GraphError :=
  try_each (fun dep => check_edge node dep candidate)
    (filter (fun d => dep_id d = node_id candidate) (dependencies node)).

Definition validate_install (installed : list PluginNode) (candidate : PluginNode) : option (result unit GraphError) :=
  let nodes := with_candidate installed candidate in
  let! _ := Some (try_each (check_own nodes candidate) (dependencies candidate)) in
  let! _ := Some (try_each (check_dependent candidate) (filter (fun n => node_id n <> node_id candidate) nodes)) in
  let! _ := load_order nodes in
  Some (Ok tt).

End Check.

Definition depends_on (n : PluginNode) (id : string) : bool :=
  existsb (fun d => dep_id d =s id) (dependencies n).

Definition direct_dependents (installed : list PluginNode) (id : string) : list string :=
  merge_sort String.le (node_id <$> filter (fun n => Is_true (depends_on n id)) installed).

Definition validate_remove (installed : list PluginNode) (id : string) : result unit GraphError :=
  match direct_dependents installed id with
  | [] => Ok tt
  | dependents => Err (HasDependents id dependents)
  end.

(** The loop body over the direct dependents: [seen] and the [frontier], whose
    last element is its top. *)
Fixpoint see (deps : list string) (seen : gset string) (frontier : list string) : gset string * list string :=
  match deps with
  | [] => (seen, frontier)
  | dep :: deps' =>
      if bool_decide (dep ∈ seen) then see deps' seen frontier
      else see deps' ({[dep]} ∪ seen) (frontier ++ [dep])
  end.

Fixpoint reach (fuel : nat) (installed : list PluginNode) (seen : gset string) (frontier : list string) : option (gset string) :=
  match last frontier with
  | None => Some seen
  | Some current =>
      match fuel with
      | O => None
      | S fuel' =>
          let '(seen', frontier') := see (direct_dependents installed current) seen (removelast frontier) in
          reach fuel' installed seen' frontier'
      end
  end.

Definition transitive_dependents (installed : list PluginNode) (id : string) : option (list string) :=
  seen ← reach (S (length installed)) installed ∅ [id];
  let subset := filter (fun n => node_id n ∈ seen) installed in
  order ← load_order subset;
  Some (reverse (match order with Ok l => l | Err _ => merge_sort String.le (elements seen) end)).

(** ** Ordered sets *)

Lemma first_none X : first X = None <-> X = ∅.
Proof.
  unfold first. pose proof (merge_sort_Permutation String.le (elements X)) as Hp.
  destruct (merge_sort String.le (elements X)) as [|x l]; simpl; split; try done.
  - intros _. apply Permutation_nil, elements_empty_inv in Hp. by apply leibniz_equiv.
  - intros ->. rewrite elements_empty in Hp. by apply Permutation_nil_r in Hp.
Qed.

Lemma first_some X x : first X = Some x -> x ∈ X /\ forall y, y ∈ X -> String.le x y.
Proof.
  unfold first. pose proof (merge_sort_Permutation String.le (elements X)) as Hp.
  pose proof (StronglySorted_merge_sort String.le (elements X)) as Hs.
  destruct (merge_sort String.le (elements X)) as [|z l]; [done|]. intros [= ->].
  apply StronglySorted_inv in Hs as [_ Hall]. rewrite Forall_forall in Hall.
  split; [apply elem_of_elements; rewrite <- Hp; by left|].
  intros y Hy. apply elem_of_elements in Hy. rewrite <- Hp in Hy.
  apply elem_of_cons in Hy as [->|Hy]; [reflexivity|by apply Hall].
Qed.

Lemma position_some x l i : position x l = Some i -> l !! i = Some x.
Proof.
  revert i. induction l as [|y l IH]; intros i; simpl; [done|].
  destruct (y =s x) eqn:E; bool_prop; [intros [= <-]; by subst|].
  destruct (position x l) as [j|]; [|done]. intros [= <-]. simpl. by apply IH.
Qed.

Lemma position_none x l : position x l = None <-> x ∉ l.
Proof.
  induction l as [|y l IH]; simpl; [split; [intros _; apply not_elem_of_nil|done]|].
  rewrite not_elem_of_cons. destruct (y =s x) eqn:E; bool_prop; [naive_solver|].
  rewrite <- IH. destruct (position x l); naive_solver.
Qed.

Lemma by_id_go nodes (m : gmap string PluginNode) id n :
  foldl (fun m n => <[node_id n := n]> m) m nodes !! id = Some n ->
  (n ∈ nodes /\ node_id n = id) \/ m !! id = Some n.
Proof.
  revert m. induction nodes as [|x nodes IH]; intros m; simpl; [by right|]. intros H.
  apply IH in H as [[? ?]|H]; [left; split; [by right|done]|].
  destruct (decide (node_id x = id)) as [<-|Hne].
  - rewrite lookup_insert_eq in H. injection H as ->. left. split; [by left|done].
  - rewrite lookup_insert_ne in H by done. by right.
Qed.

Lemma by_id_some nodes id n : by_id nodes !! id = Some n -> n ∈ nodes /\ node_id n = id.
Proof. intros H. apply by_id_go in H as [H|H]; [done|]. by rewrite lookup_empty in H. Qed.

Lemma by_id_app nodes n : by_id (nodes ++ [n]) = <[node_id n := n]> (by_id nodes).
Proof. unfold by_id. by rewrite foldl_app. Qed.

Lemma by_id_elem nodes n : n ∈ nodes -> is_Some (by_id nodes !! node_id n).
Proof.
  induction nodes as [|x nodes IH] using rev_ind; [by intros ?%not_elem_of_nil|].
  rewrite by_id_app, elem_of_app, list_elem_of_singleton. intros Hn.
  destruct (decide (node_id x = node_id n)) as [->|Hne]; [rewrite lookup_insert_eq; by eexists|].
  rewrite lookup_insert_ne by done. apply IH. destruct Hn as [Hn| ->]; done.
Qed.

Lemma unique_node nodes a b :
  NoDup (node_id <$> nodes) -> a ∈ nodes -> b ∈ nodes -> node_id a = node_id b -> a = b.
Proof.
  intros Hnd Ha Hb He. apply list_elem_of_lookup in Ha as [i Hi]. apply list_elem_of_lookup in Hb as [j Hj].
  assert (i = j) as ->; [|congruence].
  apply (NoDup_lookup (node_id <$> nodes) i j (node_id a)); [done|..]; rewrite list_lookup_fmap.
  - by rewrite Hi.
  - by rewrite Hj, He.
Qed.

Lemma by_id_unique nodes n :
  NoDup (node_id <$> nodes) -> n ∈ nodes -> by_id nodes !! node_id n = Some n.
Proof.
  intros Hnd Hn. destruct (by_id_elem nodes n Hn) as [m Hm]. rewrite Hm.
  apply by_id_some in Hm as [Hm He]. f_equal. by eapply unique_node.
Qed.

Lemma ids_of_elem nodes id : id ∈ ids_of nodes <-> exists n, n ∈ nodes /\ node_id n = id.
Proof.
  unfold ids_of. rewrite elem_of_list_to_set, list_elem_of_fmap. naive_solver.
Qed.

Lemma size_ids_of nodes : NoDup (node_id <$> nodes) -> size (ids_of nodes) = length nodes.
Proof. intros H. unfold ids_of. rewrite size_list_to_set by done. apply length_fmap. Qed.

(** ** Edges *)

(** The pairs (dependency, dependent) of present plugins, in the order of the
    source's loops. *)
Definition node_edges (ids : gset string) (n : PluginNode) : list (string * string) :=
  (fun d => (dep_id d, node_id n)) <$> filter (fun d => dep_id d ∈ ids) (dependencies n).

Definition edges (ids : gset string) (nodes : list PluginNode) : list (string * string) :=
  nodes ≫= node_edges ids.

(** [a] depends on [b], both present. *)
Definition depends (nodes : list PluginNode) (a b : string) : Prop :=
  exists n d, n ∈ nodes /\ node_id n = a /\ d ∈ dependencies n /\ dep_id d = b /\ b ∈ ids_of nodes.

Lemma edges_elem nodes a b : (b, a) ∈ edges (ids_of nodes) nodes <-> depends nodes a b.
Proof.
  unfold edges, node_edges, depends. rewrite list_elem_of_bind. setoid_rewrite list_elem_of_fmap.
  setoid_rewrite list_elem_of_filter. split.
  - intros (n & (d & [= -> ->] & ? & ?) & Hn). exists n, d. by split_and!.
  - intros (n & d & Hn & <- & Hd & <- & Hb). exists n. split; [|done]. exists d. by split_and!.
Qed.

Lemma depends_ids nodes a b : depends nodes a b -> a ∈ ids_of nodes /\ b ∈ ids_of nodes.
Proof. intros (n & d & Hn & <- & _ & _ & Hb). split; [|done]. apply ids_of_elem. by exists n. Qed.

Definition add_edge (st : option Degrees) (e : string * string) : option Degrees :=
  '(in_degree, dependents) ← st;
  d ← in_degree !! e.2;
  Some (<[e.2 := S d]> in_degree, <[e.1 := default [] (dependents !! e.1) ++ [e.2]]> dependents).

Lemma add_node_edges ids st n : add_node ids st n = foldl add_edge st (node_edges ids n).
Proof.
  unfold add_node, node_edges. revert st. induction (dependencies n) as [|d ds IH]; intros st; [done|].
  rewrite filter_cons. simpl. rewrite IH. unfold add_dependency. case_decide as Hd.
  - simpl. f_equal. destruct st as [[deg dep]|]; [|done]. simpl. by rewrite bool_decide_true.
  - f_equal. destruct st as [[deg dep]|]; [|done]. simpl. by rewrite bool_decide_false.
Qed.

Definition to_count (n : string) (E : list (string * string)) : nat := length (filter (fun e => e.2 = n) E).
Definition outs (d : string) (E : list (string * string)) : list string := snd <$> filter (fun e => e.1 = d) E.

Lemma add_edges_spec (I : gset string) E deg dep :
  dom deg = I -> (forall e, e ∈ E -> e.2 ∈ I) ->
  exists deg' dep', foldl add_edge (Some (deg, dep)) E = Some (deg', dep')
    /\ dom deg' = I
    /\ (forall n, n ∈ I -> deg' !! n = (fun k => k + to_count n E) <$> deg !! n)
    /\ (forall d, default [] (dep' !! d) = default [] (dep !! d) ++ outs d E).
Proof.
  revert deg dep. induction E as [|[x y] E IH]; intros deg dep Hdom HE.
  - exists deg, dep. split_and!; [done|done| |].
    + intros n Hn. unfold to_count. simpl. destruct (deg !! n); simpl; [f_equal; lia|done].
    + intros d. unfold outs. simpl. by rewrite app_nil_r.
  - assert (y ∈ I) as Hy by (apply (HE (x, y)); by left). simpl.
    destruct (deg !! y) as [k|] eqn:Hk; [|apply not_elem_of_dom in Hk; set_solver]. simpl.
    edestruct (IH (<[y := S k]> deg) (<[x := default [] (dep !! x) ++ [y]]> dep))
      as (deg' & dep' & He & Hd & Hdeg & Hdep); [rewrite dom_insert_L; set_solver|intros e ?; apply HE; by right|].
    exists deg', dep'. split_and!; [done|done| |].
    + intros n Hn. rewrite Hdeg by done. unfold to_count. rewrite filter_cons. simpl.
      destruct (decide (y = n)) as [->|Hne]; [rewrite lookup_insert_eq, Hk; simpl; f_equal; lia|].
      by rewrite lookup_insert_ne.
    + intros d. rewrite Hdep. unfold outs. rewrite filter_cons. simpl.
      destruct (decide (x = d)) as [->|Hne]; [rewrite lookup_insert_eq; simpl; by rewrite <- app_assoc|].
      by rewrite lookup_insert_ne.
Qed.

Lemma degrees_spec nodes :
  let E := edges (ids_of nodes) nodes in
  exists deg dep, degrees nodes = Some (deg, dep) /\ dom deg = ids_of nodes
    /\ (forall n, n ∈ ids_of nodes -> deg !! n = Some (to_count n E))
    /\ (forall d, default [] (dep !! d) = outs d E).
Proof.
  cbv zeta. set (I := ids_of nodes). set (E := edges I nodes).
  assert (degrees nodes = foldl add_edge (Some (gset_to_gmap 0 I, ∅)) E) as ->.
  { unfold degrees. fold I. unfold E, edges. generalize (Some (gset_to_gmap 0 I, ∅ : gmap string (list string))) as st.
    clear E. clearbody I. induction nodes as [|n nodes IH]; intros st; [done|].
    simpl. by rewrite foldl_app, IH, add_node_edges. }
  destruct (add_edges_spec I E (gset_to_gmap 0 I) ∅) as (deg & dep & He & Hd & Hdeg & Hdep).
  - by rewrite dom_gset_to_gmap.
  - intros [b a] He. apply edges_elem, depends_ids in He. apply He.
  - exists deg, dep. split_and!; [done|done| |].
    + intros n Hn. rewrite Hdeg by done. by rewrite lookup_gset_to_gmap, option_guard_True.
    + intros d. rewrite Hdep. by rewrite lookup_empty.
Qed.

(** ** Draining the ready set *)

Section Drain.
Variables (I : gset string) (E : list (string * string)) (dep : gmap string (list string)).
Hypothesis E_in : forall d n, (d, n) ∈ E -> d ∈ I /\ n ∈ I.
Hypothesis dep_outs : forall d, default [] (dep !! d) = outs d E.

(** The edges into [n] from ids not yet ordered. *)
Definition pend (order : list string) (n : string) : nat :=
  length (filter (fun e => e.2 = n /\ e.1 ∉ order) E).

Lemma pend_zero order n : pend order n = 0 <-> forall d, (d, n) ∈ E -> d ∈ order.
Proof.
  unfold pend. rewrite length_zero_iff_nil. split.
  - intros Hf d Hd. destruct (decide (d ∈ order)) as [|Hn]; [done|exfalso].
    assert ((d, n) ∈ filter (fun e => e.2 = n /\ e.1 ∉ order) E) as Hin by (by apply list_elem_of_filter).
    rewrite Hf in Hin. by apply not_elem_of_nil in Hin.
  - intros H. destruct (filter _ E) as [|[d m] l] eqn:Hf; [done|].
    assert ((d, m) ∈ filter (fun e => e.2 = n /\ e.1 ∉ order) E) as Hin by (rewrite Hf; by left).
    apply list_elem_of_filter in Hin as [[Hm Hd] Hin]. simpl in Hm. subst m. by apply H in Hin.
Qed.

Definition count (n : string) (l : list string) : nat := length (filter (fun x => x = n) l).

Lemma count_pos n l : 0 < count n l <-> n ∈ l.
Proof.
  unfold count. split.
  - destruct (filter _ l) as [|x t] eqn:Hf; simpl; [lia|]. intros _.
    assert (x ∈ filter (fun x => x = n) l) as Hx by (rewrite Hf; by left).
    by apply list_elem_of_filter in Hx as [-> Hx].
  - intros Hn. destruct (filter _ l) eqn:Hf; simpl; [|lia].
    assert (n ∈ filter (fun x => x = n) l) as Hx by (by apply list_elem_of_filter). rewrite Hf in Hx.
    by apply not_elem_of_nil in Hx.
Qed.

Lemma outs_elem d n : n ∈ outs d E <-> (d, n) ∈ E.
Proof.
  unfold outs. rewrite list_elem_of_fmap. setoid_rewrite list_elem_of_filter. split.
  - intros ([x y] & -> & Hx & He). simpl in *. by subst.
  - intros He. by exists (d, n).
Qed.

(** Ordering [id] takes away its edges. *)
Lemma pend_app order id n : id ∉ order -> pend order n = pend (order ++ [id]) n + count n (outs id E).
Proof.
  intros Hid. unfold pend, count, outs. clear E_in dep_outs. induction E as [|[d m] E' IH]; [done|].
  assert (d ∉ (order ++ [id]) <-> (d ∉ order) /\ d <> id) as Hiff by (by rewrite not_elem_of_app, list_elem_of_singleton).
  rewrite !filter_cons. cbn [fst snd]. destruct (decide (d = id)) as [->|Hd].
  - destruct (decide (m = n)) as [->|Hm]; repeat case_decide; cbn [fmap list_fmap snd] in *;
      rewrite ?filter_cons, ?decide_True, ?decide_False by done; simpl in *; try tauto; lia.
  - repeat case_decide; simpl in *; try tauto; lia.
Qed.

Lemma relax_spec ds deg ready target :
  dom deg = I -> (forall d, d ∈ ds -> d ∈ I) ->
  (forall n, n ∈ I -> deg !! n = Some (target n + count n ds)) ->
  exists deg' ready', relax ds (deg, ready) = Some (deg', ready') /\ dom deg' = I
    /\ (forall n, n ∈ I -> deg' !! n = Some (target n))
    /\ (forall n, n ∈ ready' <-> n ∈ ready \/ (n ∈ ds /\ target n = 0)).
Proof.
  revert deg ready. induction ds as [|x ds IH]; intros deg ready Hdom Hds Hdeg.
  - exists deg, ready. split_and!; [done|done| |].
    + intros n Hn. rewrite Hdeg by done. unfold count. simpl. f_equal. lia.
    + intros n. split; [by left|]. intros [|[?%not_elem_of_nil _]]; done.
  - assert (x ∈ I) as Hx by (apply Hds; by left). cbn [relax].
    assert (count x (x :: ds) = S (count x ds)) as Hc by (unfold count; by rewrite filter_cons, decide_True).
    rewrite (Hdeg x Hx), Hc, Nat.add_succ_r.
    edestruct (IH (<[x := target x + count x ds]> deg)) as (deg' & ready' & Hr & Hd & Ht & Hready);
      [rewrite dom_insert_L; set_solver|intros; apply Hds; by right| |].
    { intros n Hn. destruct (decide (x = n)) as [->|Hne]; [by rewrite lookup_insert_eq|].
      rewrite lookup_insert_ne, Hdeg by done. unfold count. rewrite filter_cons, decide_False by done. done. }
    exists deg', ready'. split_and!; [exact Hr|done|done|]. intros n. rewrite Hready, elem_of_cons.
    destruct (Nat.eqb_spec (target x + count x ds) 0) as [Hz|Hz].
    + rewrite elem_of_union, elem_of_singleton. split; [|naive_solver].
      intros [[->|?]|[? ?]]; [right; split; [by left|lia]|by left|right; split; [by right|done]].
    + split; [naive_solver|]. intros [?|[[->|?] Ht0]]; [by left| |by right].
      right. split; [|done]. apply count_pos. lia.
Qed.

(** [x] comes before [y]. *)
Definition before (l : list string) (x y : string) : Prop :=
  exists i j, l !! i = Some x /\ l !! j = Some y /\ i < j.

(** Each element is the least of those whose dependencies came before. *)
Definition greedy (order : list string) : Prop :=
  forall i x, order !! i = Some x ->
    forall y, y ∈ I -> y ∉ take i order -> pend (take i order) y = 0 -> String.le x y.

Record drain_inv (deg : gmap string nat) (ready : gset string) (order : list string) : Prop := {
  di_nodup : NoDup order;
  di_ids : forall n, n ∈ order -> n ∈ I;
  di_dom : dom deg = I;
  di_deg : forall n, n ∈ I -> deg !! n = Some (pend order n);
  di_ready : forall n, n ∈ ready <-> n ∈ I /\ (n ∉ order) /\ pend order n = 0;
  di_topo : forall d n, (d, n) ∈ E -> n ∈ order -> before order d n;
  di_greedy : greedy order;
}.

Lemma before_app l l' x y : before l x y -> before (l ++ l') x y.
Proof. intros (i & j & Hi & Hj & ?). exists i, j. split_and!; [by apply lookup_app_l_Some..|done]. Qed.

Lemma before_elem l x y : before l x y -> x ∈ l.
Proof. intros (i & j & Hi & _). by eapply list_elem_of_lookup_2. Qed.

Lemma before_last l x y : x ∈ l -> before (l ++ [y]) x y.
Proof.
  intros Hx. apply list_elem_of_lookup in Hx as [i Hi]. exists i, (length l).
  split_and!; [by apply lookup_app_l_Some|by rewrite lookup_app_r, Nat.sub_diag by lia|by eapply lookup_lt_Some].
Qed.

Lemma greedy_app order id :
  greedy order -> (forall y, y ∈ I -> y ∉ order -> pend order y = 0 -> String.le id y) -> greedy (order ++ [id]).
Proof.
  intros Hg Hid i x Hi y HyI. destruct (decide (i < length order)) as [Hlt|Hge].
  - rewrite take_app_le by lia. rewrite lookup_app_l in Hi by lia. by apply Hg.
  - assert (i = length order) as ->.
    { apply lookup_lt_Some in Hi. rewrite length_app in Hi. simpl in Hi. lia. }
    rewrite lookup_app_r, Nat.sub_diag in Hi by lia. injection Hi as <-. rewrite take_app_length. auto.
Qed.

Lemma drain_step deg ready order id :
  drain_inv deg ready order -> first ready = Some id ->
  exists deg' ready', relax (default [] (dep !! id)) (deg, ready ∖ {[id]}) = Some (deg', ready')
    /\ drain_inv deg' ready' (order ++ [id]).
Proof.
  intros [Hnd Hids Hdom Hdeg Hready Htopo Hgr] Hf. apply first_some in Hf as [Hid Hmin].
  apply Hready in Hid as (HidI & Hidn & Hid0). rewrite dep_outs.
  destruct (relax_spec (outs id E) deg (ready ∖ {[id]}) (pend (order ++ [id]))) as (deg' & ready' & Hr & Hd & Ht & Hr').
  - done.
  - intros d Hd. apply outs_elem, E_in in Hd. apply Hd.
  - intros n Hn. rewrite Hdeg by done. by rewrite (pend_app order id n Hidn).
  - exists deg', ready'. split; [done|].
    assert (forall n, (id, n) ∈ E -> n ∉ (order ++ [id])) as Hnew.
    { intros n Hn. rewrite not_elem_of_app, list_elem_of_singleton. split.
      - intros Hin. by apply Htopo, before_elem in Hn.
      - intros ->. rewrite pend_zero in Hid0. by apply Hid0 in Hn. }
    split; [| |done|done| | |].
    + apply NoDup_app. split_and!; [done|intros x Hx; rewrite list_elem_of_singleton; by intros ->|apply NoDup_singleton].
    + intros n. rewrite elem_of_app, list_elem_of_singleton. intros [? | ->]; auto.
    + intros n. rewrite Hr', elem_of_difference, Hready, elem_of_singleton, not_elem_of_app, list_elem_of_singleton, outs_elem.
      pose proof (pend_app order id n Hidn) as Hp. split.
      * intros [[(? & ? & ?) ?]|[He H0]]; [split_and!; [done..|lia]|].
        specialize (Hnew n He). rewrite not_elem_of_app, list_elem_of_singleton in Hnew.
        split; [by apply E_in in He as [_ ?]|done].
      * intros (HI & [Ho Hne] & H0). destruct (decide (pend order n = 0)); [by left|]. right. split; [|done].
        apply outs_elem, count_pos. lia.
    + intros d n He Hn. apply elem_of_app in Hn as [Hn|Hn]; [by apply before_app, Htopo|].
      apply list_elem_of_singleton in Hn as ->. apply before_last. rewrite pend_zero in Hid0. auto.
    + apply greedy_app; [done|]. intros y HyI Hyn Hy0. by apply Hmin, Hready.
Qed.

Lemma order_size deg ready order : drain_inv deg ready order -> length order <= size I.
Proof.
  intros [Hnd Hids _ _ _ _ _]. rewrite <- (size_list_to_set (C := gset string)) by done.
  apply subseteq_size. intros n. rewrite elem_of_list_to_set. apply Hids.
Qed.

Lemma drain_spec fuel deg ready order :
  drain_inv deg ready order -> size I <= fuel + length order ->
  exists deg' order', drain fuel dep deg ready order = Some (deg', order') /\ drain_inv deg' ∅ order'.
Proof.
  revert deg ready order. induction fuel as [|fuel IH]; intros deg ready order Hinv Hf; cbn [drain].
  - destruct (first ready) as [id|] eqn:Hfi.
    + exfalso. destruct (drain_step _ _ _ _ Hinv Hfi) as (deg' & ready' & _ & Hinv').
      apply order_size in Hinv'. rewrite length_app in Hinv'. simpl in Hinv'. lia.
    + apply first_none in Hfi as ->. by exists deg, order.
  - destruct (first ready) as [id|] eqn:Hfi; [|apply first_none in Hfi as ->; by exists deg, order].
    destruct (drain_step _ _ _ _ Hinv Hfi) as (deg' & ready' & -> & Hinv'). simpl. apply IH; [done|].
    rewrite length_app. simpl. lia.
Qed.

End Drain.

(** ** The cycle *)

(** Each element depends on the next. *)
Definition chain (nodes : list PluginNode) (l : list string) : Prop :=
  forall i a b, l !! i = Some a -> l !! S i = Some b -> depends nodes a b.

(** A closed walk of dependencies that repeats only its ends. *)
Definition is_cycle (nodes : list PluginNode) (c : list string) : Prop :=
  exists x mid, c = x :: mid ++ [x] /\ NoDup (x :: mid) /\ chain nodes c.

Definition acyclic (nodes : list PluginNode) : Prop := forall x, ~ tc (depends nodes) x x.

Lemma chain_app nodes l x y : chain nodes (l ++ [x]) -> depends nodes x y -> chain nodes ((l ++ [x]) ++ [y]).
Proof.
  intros Hc Hd i a b Ha Hb. destruct (decide (S i < length (l ++ [x]))) as [Hlt|Hge].
  - rewrite lookup_app_l in Ha, Hb by lia. by eapply Hc.
  - assert (S i = length (l ++ [x])) as Hi.
    { apply lookup_lt_Some in Hb. rewrite length_app in Hb. simpl in Hb. lia. }
    rewrite Hi, lookup_app_r, Nat.sub_diag in Hb by lia. injection Hb as <-.
    rewrite length_app in Hi. simpl in Hi. assert (i = length l) as -> by lia.
    rewrite <- app_assoc, lookup_app_r, Nat.sub_diag in Ha by lia. by injection Ha as <-.
Qed.

Lemma chain_drop nodes k l : chain nodes l -> chain nodes (drop k l).
Proof. intros Hc i a b. rewrite !lookup_drop, Nat.add_succ_r. apply Hc. Qed.

Lemma chain_tc nodes x l y : chain nodes (x :: l ++ [y]) -> tc (depends nodes) x y.
Proof.
  revert x. induction l as [|z l IH]; intros x Hc.
  - apply tc_once. by apply (Hc 0).
  - eapply tc_l; [by apply (Hc 0)|]. apply IH. intros i a b Ha Hb. by apply (Hc (S i)).
Qed.

Lemma cycle_not_acyclic nodes c : is_cycle nodes c -> ~ acyclic nodes.
Proof. intros (x & mid & -> & _ & Hc) Ha. by apply (Ha x), (chain_tc nodes x mid). Qed.

Section Walk.
Variables (nodes : list PluginNode) (remaining : gset string) (start : string).
Hypothesis unique : NoDup (node_id <$> nodes).
Hypothesis remaining_next : forall x, x ∈ remaining -> exists y, depends nodes x y /\ y ∈ remaining.

Lemma next_of_spec n :
  n ∈ nodes -> node_id n ∈ remaining ->
  depends nodes (node_id n) (next_of remaining start n) /\ next_of remaining start n ∈ remaining.
Proof.
  intros Hn Hr. destruct (remaining_next _ Hr) as (y & (m & d & Hm & Hid & Hd & Hdy & Hy) & Hyr).
  assert (m = n) as -> by (by eapply unique_node). unfold next_of.
  destruct (List.find _ _) as [z|] eqn:Hf.
  - apply List.find_some in Hf as [Hz Hzr]. apply bool_decide_eq_true in Hzr. simpl. split; [|done].
    apply list_elem_of_In, list_elem_of_fmap in Hz as (d' & -> & Hd').
    exists n, d'. split_and!; try done. destruct (remaining_next _ Hzr) as (w & Hw & _).
    by apply depends_ids in Hw as [? _].
  - exfalso.
    assert (In y (dep_id <$> dependencies n)) as Hin by (apply list_elem_of_In, list_elem_of_fmap; by exists d).
    pose proof (List.find_none _ _ Hf y Hin) as Hfn. by apply bool_decide_eq_false in Hfn.
Qed.

Lemma walk_spec fuel l current :
  NoDup (l ++ [current]) -> (forall x, x ∈ l ++ [current] -> x ∈ remaining) -> chain nodes (l ++ [current]) ->
  size remaining <= fuel + length l ->
  exists c, walk fuel (by_id nodes) remaining start (l ++ [current]) current = Some c /\ is_cycle nodes c.
Proof.
  revert l current. induction fuel as [|fuel IH]; intros l current Hnd Hr Hc Hf;
    (assert (current ∈ remaining) as Hcur by (apply Hr, elem_of_app; right; by left));
    destruct (remaining_next _ Hcur) as (y & (n & d & Hn & Hid & _) & _);
    destruct (next_of_spec n Hn) as [Hdep Hnext]; rewrite ?Hid in *; try done; cbn [walk];
    rewrite <- Hid, (by_id_unique nodes n unique Hn), Hid; cbn [mbind option_bind];
    set (next := next_of remaining start n) in *.
  all: destruct (position next (l ++ [current])) as [pos|] eqn:Hpos.
  1,3: exists (drop pos (l ++ [current]) ++ [next]); (split; [done|]);
    apply position_some in Hpos; pose proof (drop_S _ _ _ Hpos) as Hdrop;
    exists next, (drop (S pos) (l ++ [current]));
    (split_and!; [by rewrite Hdrop|rewrite <- Hdrop; rewrite <- (take_drop pos (l ++ [current])) in Hnd; by apply NoDup_app in Hnd as (_ & _ & ?)|]);
    pose proof (chain_app nodes l current next Hc Hdep) as Hc';
    apply (chain_drop nodes pos) in Hc'; rewrite drop_app_le in Hc' by (apply lookup_lt_Some in Hpos; lia); done.
  - apply position_none in Hpos. exfalso.
    assert (length (next :: l ++ [current]) <= size remaining) as Hs.
    { rewrite <- (size_list_to_set (C := gset string)) by (by constructor). apply subseteq_size.
      intros x. rewrite elem_of_list_to_set, elem_of_cons. intros [->|]; auto. }
    simpl in Hs. rewrite length_app in Hs. simpl in Hs. lia.
  - apply position_none in Hpos. apply IH.
    + apply NoDup_app. split_and!; [done|intros x Hx; rewrite list_elem_of_singleton; by intros ->|apply NoDup_singleton].
    + intros x. rewrite elem_of_app, list_elem_of_singleton. intros [? | ->]; auto.
    + by apply chain_app.
    + rewrite length_app. simpl. lia.
Qed.

End Walk.

(** ** What [load_order] returns *)

(** Ties are broken by the names: each plugin is the least of those whose
    dependencies are all loaded. *)
Definition least_first (nodes : list PluginNode) (order : list string) : Prop :=
  forall i x, order !! i = Some x ->
    forall y, y ∈ ids_of nodes -> y ∉ take i order ->
      (forall b, depends nodes y b -> b ∈ take i order) -> String.le x y.

Record is_order (nodes : list PluginNode) (order : list string) : Prop := {
  or_all : order ≡ₚ node_id <$> nodes;
  or_before : forall a b, depends nodes a b -> before order b a;
  or_least : least_first nodes order;
}.

Lemma order_of_ids (nodes : list PluginNode) order :
  NoDup (node_id <$> nodes) -> NoDup order -> (forall n, n ∈ order -> n ∈ ids_of nodes) ->
  length order = length nodes -> order ≡ₚ node_id <$> nodes.
Proof.
  intros Hnd Ho Hin Hl. apply submseteq_length_Permutation.
  - apply NoDup_submseteq; [done|]. intros n Hn. by apply Hin, elem_of_list_to_set in Hn.
  - by rewrite length_fmap, Hl.
Qed.

Lemma load_order_cases nodes :
  NoDup (node_id <$> nodes) ->
  (exists order, load_order nodes = Some (Ok order) /\ is_order nodes order)
  \/ (exists c, load_order nodes = Some (Err (Cycle c)) /\ is_cycle nodes c).
Proof.
  intros Hnd. set (I := ids_of nodes). set (E := edges I nodes).
  pose proof (degrees_spec nodes) as Hds. cbv zeta in Hds. fold I in Hds. fold E in Hds.
  destruct Hds as (deg & dep & Hdeg & Hdom & Hcount & Houts).
  assert (forall d n, (d, n) ∈ E -> d ∈ I /\ n ∈ I) as HE.
  { intros d n H. apply edges_elem, depends_ids in H as [? ?]. done. }
  assert (drain_inv I E deg (dom (filter (fun p => p.2 = 0) deg)) []) as Hinit.
  { assert (forall n, pend E [] n = to_count n E) as Hp.
    { intros n. unfold pend, to_count. f_equal. apply list_filter_iff. intros e.
      split; [tauto|]. intros ?. split; [done|apply not_elem_of_nil]. }
    split; [constructor|intros n ?%not_elem_of_nil; done|done| | |intros d n _ ?%not_elem_of_nil; done|done].
    - intros n Hn. rewrite Hp. by apply Hcount.
    - intros n. rewrite elem_of_dom, Hp. unfold is_Some. setoid_rewrite map_lookup_filter_Some. simpl. split.
      + intros (k & Hk & ->). assert (n ∈ I) as Hn by (rewrite <- Hdom; by apply elem_of_dom_2 in Hk).
        rewrite (Hcount n Hn) in Hk. injection Hk as Hk. split_and!; [done|apply not_elem_of_nil|done].
      + intros (Hn & _ & H0). exists 0. split; [|done]. by rewrite (Hcount n Hn), H0. }
  destruct (drain_spec I E dep HE Houts (size I) deg _ [] Hinit) as (deg' & order & Hdr & Hinv); [simpl; lia|].
  unfold load_order. rewrite Hdeg. cbn [mbind option_bind]. fold I. rewrite Hdr. cbn [mbind option_bind].
  destruct Hinv as [Ho Hin Hdom' Hd' Hempty Htopo Hgreedy].
  destruct (Nat.eqb_spec (length order) (length nodes)) as [Hl|Hl].
  - left. exists order. split; [done|].
    pose proof (order_of_ids nodes order Hnd Ho Hin Hl) as Hperm. split; [done| |].
    + intros a b Hab. pose proof (depends_ids _ _ _ Hab) as [Ha _]. apply Htopo; [by apply edges_elem|].
      rewrite Hperm. by apply elem_of_list_to_set in Ha.
    + intros i x Hi y Hy Hyn Hdeps. apply (Hgreedy i x Hi y Hy Hyn). apply pend_zero. intros d Hd.
      by apply Hdeps, edges_elem.
  - right. set (remaining := dom (filter (fun p => 0 < p.2) deg')).
    assert (forall n, n ∈ remaining <-> n ∈ I /\ n ∉ order) as Hrem.
    { intros n. unfold remaining. rewrite elem_of_dom. unfold is_Some. setoid_rewrite map_lookup_filter_Some. simpl.
      specialize (Hempty n). split.
      - intros (k & Hk & Hpos). assert (n ∈ I) as Hn by (rewrite <- Hdom'; by apply elem_of_dom_2 in Hk).
        split; [done|]. intros Hno. rewrite (Hd' n Hn) in Hk. injection Hk as <-.
        assert (pend E order n = 0); [|lia]. apply pend_zero. intros d Hd. by apply Htopo, before_elem in Hd.
      - intros [Hn Hno]. exists (pend E order n). split; [by apply Hd'|].
        destruct (pend E order n) eqn:H0; [|lia]. exfalso.
        assert (n ∈ (∅ : gset string)) by tauto. set_solver. }
    assert (forall x, x ∈ remaining -> exists y, depends nodes x y /\ y ∈ remaining) as Hnext.
    { intros x Hx. apply Hrem in Hx as [HxI Hxo]. destruct (decide (pend E order x = 0)) as [H0|Hne].
      - exfalso. assert (x ∈ (∅ : gset string)) by (by apply Hempty). set_solver.
      - assert (~ (forall d, (d, x) ∈ E -> d ∈ order)) as Hex by (by rewrite <- pend_zero).
        unfold pend in Hne. destruct (filter _ E) as [|[d m] l] eqn:Hf; [done|].
        assert ((d, m) ∈ filter (fun e => e.2 = x /\ e.1 ∉ order) E) as Hdm by (rewrite Hf; by left).
        apply list_elem_of_filter in Hdm as [[Hm Hd] Hdm]. simpl in *. subst m.
        exists d. split; [by apply edges_elem|]. apply Hrem. split; [by apply HE in Hdm as [? _]|done]. }
    destruct (first remaining) as [start|] eqn:Hst.
    + cbn [mbind option_bind]. apply first_some in Hst as [Hst _].
      destruct (walk_spec nodes remaining start Hnd Hnext (size remaining) [] start) as (c & Hw & Hc).
      * apply NoDup_singleton.
      * intros x ->%list_elem_of_singleton. done.
      * intros i a b Ha Hb. destruct i; done.
      * simpl. lia.
      * exists c. simpl in Hw. by rewrite Hw.
    + exfalso. apply first_none in Hst. apply Hl. rewrite <- (size_ids_of nodes Hnd). fold I.
      rewrite <- (size_list_to_set (C := gset string) order Ho). f_equal. apply set_eq. intros n.
      rewrite elem_of_list_to_set. split; [apply Hin|]. intros Hn. destruct (decide (n ∈ order)); [done|].
      exfalso. assert (n ∈ remaining) as Hr by (by apply Hrem). rewrite Hst in Hr. set_solver.
Qed.

(** An order leaves no cycle. *)
Lemma order_acyclic nodes order : NoDup (node_id <$> nodes) -> is_order nodes order -> acyclic nodes.
Proof.
  intros Hnd [Hp Hb _]. assert (NoDup order) as Ho by (by rewrite Hp).
  assert (forall a b, tc (depends nodes) a b -> before order b a) as Htc.
  { induction 1 as [a b H|a b c Hab _ IH]; [by apply Hb|].
    apply Hb in Hab as (i & j & Hi & Hj & Hij). destruct IH as (k & l & Hk & Hl & Hkl).
    assert (l = i) as -> by (by eapply NoDup_lookup). exists k, j. split_and!; [done..|lia]. }
  intros x Hx. apply Htc in Hx as (i & j & Hi & Hj & Hij).
  assert (i = j) by (by eapply NoDup_lookup). lia.
Qed.

Lemma load_order_acyclic nodes :
  NoDup (node_id <$> nodes) -> (exists order, load_order nodes = Some (Ok order)) <-> acyclic nodes.
Proof.
  intros Hnd. destruct (load_order_cases nodes Hnd) as [(order & Ho & Hok)|(c & Hc & Hcy)].
  - split; [|by eauto]. intros _. by eapply order_acyclic.
  - split; [intros [o Ho]; congruence|]. intros Ha. by apply cycle_not_acyclic in Hcy.
Qed.

(** The order is unique. *)
Lemma is_order_unique nodes o1 o2 :
  NoDup (node_id <$> nodes) -> is_order nodes o1 -> is_order nodes o2 -> o1 = o2.
Proof.
  intros Hnd [P1 B1 L1] [P2 B2 L2].
  assert (NoDup o1) as N1 by (by rewrite P1). assert (NoDup o2) as N2 by (by rewrite P2).
  assert (length o1 = length o2) as Hl by (by rewrite P1, P2).
  assert (forall o k x, NoDup o -> (forall a b, depends nodes a b -> before o b a) -> o !! k = Some x ->
    (x ∉ take k o) /\ forall b, depends nodes x b -> b ∈ take k o) as Hcand.
  { intros o k x No Bo Hx. split.
    - intros Hin. apply list_elem_of_lookup in Hin as [i Hi]. apply lookup_take_Some in Hi as [Hi Hlt].
      assert (i = k) by (by eapply NoDup_lookup). lia.
    - intros b Hb. apply Bo in Hb as (i & j & Hi & Hj & Hij).
      assert (j = k) as -> by (by eapply NoDup_lookup). apply list_elem_of_lookup. exists i.
      by apply lookup_take_Some. }
  assert (forall k, take k o1 = take k o2) as Htake.
  { induction k as [|k IH]; [done|]. destruct (o1 !! k) as [x|] eqn:Hx.
    - destruct (lookup_lt_is_Some_2 o2 k) as [y Hy]; [rewrite <- Hl; by eapply lookup_lt_Some|].
      rewrite (take_S_r _ _ _ Hx), (take_S_r _ _ _ Hy), IH. do 2 f_equal.
      destruct (Hcand o1 k x N1 B1 Hx) as [X1 X2]. destruct (Hcand o2 k y N2 B2 Hy) as [Y1 Y2].
      assert (forall o z, o ≡ₚ node_id <$> nodes -> o !! k = Some z -> z ∈ ids_of nodes) as Hids.
      { intros o z Ho Hz. apply elem_of_list_to_set. rewrite <- Ho. by eapply list_elem_of_lookup_2. }
      apply (anti_symm String.le).
      + apply (L1 k x Hx); [exact (Hids o2 y P2 Hy)|by rewrite IH|]. intros b Hb. rewrite IH. auto.
      + apply (L2 k y Hy); [exact (Hids o1 x P1 Hx)|by rewrite <- IH|]. intros b Hb. rewrite <- IH. auto.
    - assert (o2 !! k = None) as Hy by (apply lookup_ge_None; apply lookup_ge_None in Hx; lia).
      apply lookup_ge_None in Hx, Hy. by rewrite !take_ge in IH |- * by lia. }
  specialize (Htake (length o1)). rewrite take_ge in Htake by done. by rewrite take_ge in Htake by lia.
Qed.

Lemma depends_perm nodes nodes' : nodes ≡ₚ nodes' -> forall a b, depends nodes a b <-> depends nodes' a b.
Proof.
  intros Hp a b. unfold depends. setoid_rewrite ids_of_elem. by setoid_rewrite Hp.
Qed.

Lemma is_order_perm nodes nodes' order : nodes ≡ₚ nodes' -> is_order nodes order -> is_order nodes' order.
Proof.
  intros Hp [P B L]. split.
  - by rewrite P, Hp.
  - intros a b H. apply B. by apply (depends_perm _ _ Hp).
  - intros i x Hi y Hy Hyn Hd. apply (L i x Hi y); [|done|].
    + apply ids_of_elem. apply ids_of_elem in Hy. by setoid_rewrite Hp.
    + intros b Hb. by apply Hd, (depends_perm _ _ Hp).
Qed.

(** ** Installing *)

Lemma try_each_ok {A Er} (f : A -> result unit Er) l : try_each f l = Ok tt <-> Forall (fun x => f x = Ok tt) l.
Proof.
  induction l as [|x l IH]; simpl; [split; [by constructor|done]|].
  rewrite Forall_cons, <- IH. destruct (f x) as [[]|]; naive_solver.
Qed.

Section Installing.
Context `{Sv : Semver}.

(** The version of [to] satisfies the requirement. *)
Definition edge_ok (d : PluginDependency) (to : PluginNode) : Prop :=
  exists req v, parse_req (dep_version d) = Some req /\ parse_version (node_version to) = Some v
    /\ req_matches req v = true.

Lemma check_edge_ok from d to : check_edge from d to = Ok tt <-> edge_ok d to.
Proof.
  unfold check_edge, edge_ok. destruct (parse_req (dep_version d)) as [req|]; [|naive_solver].
  destruct (parse_version (node_version to)) as [v|]; [|naive_solver].
  destruct (req_matches req v) eqn:Hm; split; [by eauto 10|done|done|].
  intros (? & ? & [= <-] & [= <-] & Hm'). congruence.
Qed.

(** A sound set of plugins: one per id, every dependency present at a version
    its dependent accepts, and no cycle. *)
Record graph_ok (nodes : list PluginNode) : Prop := {
  go_unique : NoDup (node_id <$> nodes);
  go_edges : forall n d, n ∈ nodes -> d ∈ dependencies n ->
    exists m, m ∈ nodes /\ node_id m = dep_id d /\ edge_ok d m;
  go_acyclic : acyclic nodes;
}.

Lemma with_candidate_elem installed c n :
  n ∈ with_candidate installed c <-> n = c \/ (n ∈ installed /\ node_id n <> node_id c).
Proof.
  unfold with_candidate. rewrite elem_of_app, list_elem_of_filter, list_elem_of_singleton. tauto.
Qed.

Lemma NoDup_filter_ids (P : PluginNode -> Prop) `{forall n, Decision (P n)} nodes :
  NoDup (node_id <$> nodes) -> NoDup (node_id <$> filter P nodes).
Proof.
  induction nodes as [|n nodes IH]; [done|]. rewrite fmap_cons, NoDup_cons. intros [Hn Hnd].
  rewrite filter_cons. case_decide; [|by apply IH]. rewrite fmap_cons. constructor; [|by apply IH].
  intros Hin. apply Hn. apply list_elem_of_fmap in Hin as (m & -> & Hm). apply list_elem_of_filter in Hm as [_ Hm].
  by apply list_elem_of_fmap_2.
Qed.

Lemma with_candidate_unique installed c :
  NoDup (node_id <$> installed) -> NoDup (node_id <$> with_candidate installed c).
Proof.
  intros Hnd. unfold with_candidate. rewrite fmap_app. apply NoDup_app. split_and!.
  - by apply NoDup_filter_ids.
  - intros x Hx. cbn [fmap list_fmap]. rewrite list_elem_of_singleton. intros ->.
    apply list_elem_of_fmap in Hx as (m & Hm & Hin). by apply list_elem_of_filter in Hin as [? _].
  - apply NoDup_singleton.
Qed.

Lemma load_order_map nodes :
  NoDup (node_id <$> nodes) ->
  (let! _ := load_order nodes in Some (Ok tt)) = Some (Ok tt : result unit GraphError) <-> acyclic nodes.
Proof.
  intros Hnd. rewrite <- load_order_acyclic by done. destruct (load_order_cases nodes Hnd) as [(o & -> & _)|(c & -> & _)].
  - split; [by eauto|done].
  - split; [done|]. intros [o [=]].
Qed.

Lemma validate_install_spec installed c :
  graph_ok installed -> validate_install installed c = Some (Ok tt) <-> graph_ok (with_candidate installed c).
Proof.
  intros [Hu He Ha]. pose proof (with_candidate_unique installed c Hu) as Hu'.
  set (nodes := with_candidate installed c) in *. unfold validate_install. fold nodes.
  assert (c ∈ nodes) as Hc by (apply with_candidate_elem; by left). split.
  - destruct (try_each (check_own nodes c) (dependencies c)) as [[]|] eqn:Hown; [|done].
    destruct (try_each (check_dependent c) _) as [[]|] eqn:Hdep; [|done]. rewrite load_order_map by done. intros Hac.
    rewrite try_each_ok, Forall_forall in Hown. rewrite try_each_ok, Forall_forall in Hdep. split; [done| |done].
    intros n d Hn Hd. apply with_candidate_elem in Hn as [->|[Hn Hne]].
    + specialize (Hown d Hd). unfold check_own in Hown.
      destruct (by_id nodes !! dep_id d) as [m|] eqn:Hm; [|done]. apply check_edge_ok in Hown.
      apply by_id_some in Hm as [Hm Hid]. by exists m.
    + destruct (decide (dep_id d = node_id c)) as [Hdc|Hdc].
      * exists c. split_and!; [done|done|].
        assert (n ∈ filter (fun n => node_id n <> node_id c) nodes) as Hnf.
        { apply list_elem_of_filter. split; [done|]. apply with_candidate_elem. by right. }
        specialize (Hdep n Hnf). unfold check_dependent in Hdep. rewrite try_each_ok, Forall_forall in Hdep.
        apply (check_edge_ok n). apply Hdep. by apply list_elem_of_filter.
      * destruct (He n d Hn Hd) as (m & Hm & Hid & Hok). exists m. split_and!; [|done|done].
        apply with_candidate_elem. right. split; [done|congruence].
  - intros [_ He' Ha']. rewrite (proj2 (try_each_ok (check_own nodes c) (dependencies c))); [|].
    2:{ apply Forall_forall. intros d Hd. destruct (He' c d Hc Hd) as (m & Hm & Hid & Hok). unfold check_own.
        rewrite <- Hid, (by_id_unique nodes m Hu' Hm). by apply check_edge_ok. }
    rewrite (proj2 (try_each_ok (check_dependent c) _)); [by rewrite load_order_map|].
    apply Forall_forall. intros n Hn. apply list_elem_of_filter in Hn as [Hne Hn]. unfold check_dependent.
    apply try_each_ok, Forall_forall. intros d Hd. apply list_elem_of_filter in Hd as [Hdc Hd].
    destruct (He' n d Hn Hd) as (m & Hm & Hid & Hok). apply check_edge_ok.
    assert (m = c) as -> by (eapply unique_node; [done..|congruence]). done.
Qed.

Lemma validate_install_total installed c :
  NoDup (node_id <$> installed) -> is_Some (validate_install installed c).
Proof.
  intros Hu. unfold validate_install. destruct (try_each _ _) as [[]|]; [|by eexists].
  destruct (try_each _ _) as [[]|]; [|by eexists].
  destruct (load_order_cases (with_candidate installed c)) as [(o & -> & _)|(k & -> & _)];
    [by apply with_candidate_unique|by eexists..].
Qed.

(** ** Removing *)

Definition without (installed : list PluginNode) (id : string) : list PluginNode :=
  filter (fun n => node_id n <> id) installed.

Lemma depends_on_iff n id : depends_on n id = true <-> exists d, d ∈ dependencies n /\ dep_id d = id.
Proof.
  unfold depends_on. rewrite existsb_elem. split; intros (d & H1 & H2); exists d; bool_prop; try done.
  split; [done|]. by apply String.eqb_eq.
Qed.

Lemma direct_dependents_elem installed id x :
  x ∈ direct_dependents installed id <->
  exists n d, n ∈ installed /\ node_id n = x /\ d ∈ dependencies n /\ dep_id d = id.
Proof.
  unfold direct_dependents. rewrite merge_sort_Permutation, list_elem_of_fmap. split.
  - intros (n & -> & Hn). apply list_elem_of_filter in Hn as [Hd Hn]. apply Is_true_true, depends_on_iff in Hd as (d & ? & ?).
    by exists n, d.
  - intros (n & d & Hn & <- & Hd & Hid). exists n. split; [done|]. apply list_elem_of_filter. split; [|done].
    apply Is_true_true, depends_on_iff. by exists d.
Qed.

Lemma validate_remove_nil installed id : validate_remove installed id = Ok tt <-> direct_dependents installed id = [].
Proof. unfold validate_remove. destruct (direct_dependents installed id); split; done. Qed.

Lemma nil_no_elem {A} (l : list A) : l = [] <-> forall x, x ∉ l.
Proof.
  split; [intros ->; apply not_elem_of_nil|]. destruct l as [|x l]; [done|]. intros H. exfalso. apply (H x). by left.
Qed.

Lemma depends_subset (P : PluginNode -> Prop) `{forall n, Decision (P n)} nodes a b :
  depends (filter P nodes) a b -> depends nodes a b.
Proof.
  intros (n & d & Hn & Ha & Hd & Hb & Hin). apply list_elem_of_filter in Hn as [_ Hn]. exists n, d. split_and!; try done.
  apply ids_of_elem in Hin as (m & Hm & Hid). apply list_elem_of_filter in Hm as [_ Hm]. apply ids_of_elem. by exists m.
Qed.

Lemma acyclic_subset (P : PluginNode -> Prop) `{forall n, Decision (P n)} nodes :
  acyclic nodes -> acyclic (filter P nodes).
Proof.
  intros Ha x Hx. apply (Ha x). revert Hx. generalize x at 1 3. intros y Hy.
  induction Hy as [a b Hab|a b c Hab _ IH]; [by eapply tc_once, depends_subset|].
  eapply tc_l; [by eapply depends_subset|done].
Qed.

Lemma validate_remove_spec installed id :
  graph_ok installed -> validate_remove installed id = Ok tt <-> graph_ok (without installed id).
Proof.
  intros [Hu He Ha]. rewrite validate_remove_nil, nil_no_elem. unfold without. split.
  - intros Hnone. split; [by apply NoDup_filter_ids| |by apply acyclic_subset].
    intros n d Hn Hd. apply list_elem_of_filter in Hn as [_ Hn]. destruct (He n d Hn Hd) as (m & Hm & Hid & Hok).
    exists m. split_and!; [|done|done]. apply list_elem_of_filter. split; [|done].
    intros Hmi. apply (Hnone (node_id n)), direct_dependents_elem. exists n, d. split_and!; [done..|congruence].
  - intros [_ He' _] x Hx. apply direct_dependents_elem in Hx as (n & d & Hn & <- & Hd & Hdid).
    destruct (He n d Hn Hd) as (m & Hm & Hmid & _). destruct (decide (node_id n = id)) as [Hni|Hni].
    + apply (Ha id), tc_once. exists n, d. split_and!; try done. apply ids_of_elem. exists m. split; congruence.
    + destruct (He' n d) as (m' & Hm' & Hid' & _); [by apply list_elem_of_filter|done|].
      apply list_elem_of_filter in Hm' as [Hne _]. congruence.
Qed.

End Installing.

(** ** Removing a plugin and all that depend on it *)

(** Every removal of the list passes [validate_remove], front to back. *)
Fixpoint removes_cleanly (installed : list PluginNode) (l : list string) : Prop :=
  match l with
  | [] => True
  | x :: l' => validate_remove installed x = Ok tt /\ removes_cleanly (without installed x) l'
  end.

Lemma removes_cleanly_intro installed l :
  (forall i x y, l !! i = Some x -> y ∈ direct_dependents installed x -> y ∈ take i l) ->
  removes_cleanly installed l.
Proof.
  revert installed. induction l as [|x l IH]; intros installed H; [done|]. split.
  - apply validate_remove_nil, nil_no_elem. intros y Hy. by apply (H 0 x y), not_elem_of_nil in Hy.
  - apply IH. intros i z y Hi Hy. apply direct_dependents_elem in Hy as (n & d & Hn & <- & Hd & Hid).
    apply list_elem_of_filter in Hn as [Hne Hn].
    assert (node_id n ∈ take (S i) (x :: l)) as Ht.
    { apply (H (S i) z); [done|]. apply direct_dependents_elem. by exists n, d. }
    simpl in Ht. by apply elem_of_cons in Ht as [?|?].
Qed.

Lemma see_spec deps seen frontier :
  let r := see deps seen frontier in
  (forall x, x ∈ r.1 <-> x ∈ seen \/ x ∈ deps)
  /\ (forall x, x ∈ r.2 <-> x ∈ frontier \/ (x ∈ deps /\ x ∉ seen))
  /\ length r.2 + size seen = length frontier + size r.1.
Proof.
  revert seen frontier. induction deps as [|y deps IH]; intros seen frontier; cbn [see].
  - cbn. split_and!; [|..|done]; intros x; rewrite elem_of_nil; tauto.
  - case_bool_decide as Hy.
    + destruct (IH seen frontier) as (H1 & H2 & H3). cbv zeta. split_and!; [| |done]; intros x;
        [rewrite H1|rewrite H2]; rewrite elem_of_cons; destruct (decide (x = y)) as [->|]; tauto.
    + destruct (IH ({[y]} ∪ seen) (frontier ++ [y])) as (H1 & H2 & H3). cbv zeta. split_and!.
      * intros x. rewrite H1, elem_of_union, elem_of_singleton, elem_of_cons. tauto.
      * intros x. rewrite H2, elem_of_app, list_elem_of_singleton, elem_of_union, elem_of_singleton, elem_of_cons.
        destruct (decide (x = y)) as [->|]; tauto.
      * rewrite length_app, size_union, size_singleton in H3 by set_solver. simpl in H3. lia.
Qed.

Section Reach.
Variables (installed : list PluginNode) (id : string).

Definition dd (x y : string) : Prop := x ∈ direct_dependents installed y.

Record reach_inv (seen : gset string) (frontier : list string) : Prop := {
  ri_sound : forall x, x ∈ seen -> tc dd x id;
  ri_front : forall x, x ∈ frontier -> x = id \/ x ∈ seen;
  ri_closed : forall y, y = id \/ y ∈ seen -> y ∈ frontier \/ forall x, dd x y -> x ∈ seen;
}.

Lemma dd_ids x y : dd x y -> x ∈ ids_of installed.
Proof. intros (n & d & Hn & <- & _)%direct_dependents_elem. apply ids_of_elem. by exists n. Qed.

Lemma seen_ids seen frontier : reach_inv seen frontier -> seen ⊆ ids_of installed.
Proof.
  intros [Hs _ _] x Hx. apply Hs in Hx. destruct Hx as [a b H|a b c H _]; by eapply dd_ids.
Qed.

Lemma last_split (l : list string) x : last l = Some x -> l = removelast l ++ [x].
Proof.
  intros H. destruct l as [|y l] using rev_ind; [done|]. rewrite last_snoc in H. injection H as ->.
  by rewrite removelast_last.
Qed.

Lemma reach_step seen frontier current :
  reach_inv seen frontier -> last frontier = Some current ->
  let r := see (direct_dependents installed current) seen (removelast frontier) in
  reach_inv r.1 r.2.
Proof.
  intros [Hs Hf Hc] Hl. destruct (see_spec (direct_dependents installed current) seen (removelast frontier)) as (S1 & S2 & _).
  cbv zeta. apply last_split in Hl. set (fr := removelast frontier) in *. rewrite Hl in *.
  assert (current = id \/ current ∈ seen) as Hcur by (apply Hf, elem_of_app; right; by left).
  split.
  - intros x Hx. apply S1 in Hx as [Hx|Hx]; [by apply Hs|].
    destruct Hcur as [->|Hcur]; [by apply tc_once|]. eapply tc_l; [exact Hx|by apply Hs].
  - intros x Hx. apply S2 in Hx as [Hx|[Hx _]].
    + destruct (Hf x) as [?|?]; [apply elem_of_app; by left|by left|right; apply S1; by left].
    + right. apply S1. by right.
  - intros y Hy. destruct (decide (y = current)) as [->|Hne].
    { right. intros x Hx. apply S1. by right. }
    rewrite S1 in Hy. destruct (decide (y = id \/ y ∈ seen)) as [Hold|Hnew].
    + destruct (Hc y Hold) as [Hfr|Hcl].
      * apply elem_of_app in Hfr as [Hfr|Hfr]; [left; apply S2; by left|]. by apply list_elem_of_singleton in Hfr.
      * right. intros x Hx. apply S1. left. by apply Hcl.
    + left. apply S2. right. split; tauto.
Qed.

Lemma reach_spec fuel seen frontier :
  reach_inv seen frontier -> length frontier + size (ids_of installed) <= fuel + size seen ->
  exists seen', reach fuel installed seen frontier = Some seen' /\ forall x, x ∈ seen' <-> tc dd x id.
Proof.
  revert seen frontier. induction fuel as [|fuel IH]; intros seen frontier Hinv Hf; cbn [reach].
  all: destruct (last frontier) as [current|] eqn:Hl.
  1: { pose proof (subseteq_size _ _ (seen_ids _ _ Hinv)). destruct frontier; [done|]. simpl in Hf. lia. }
  2: { pose proof (reach_step _ _ _ Hinv Hl) as Hinv'.
       destruct (see_spec (direct_dependents installed current) seen (removelast frontier)) as (_ & _ & Hlen).
       destruct (see _ _ _) as [seen' frontier']. cbn [fst snd] in *. apply IH; [done|].
       apply last_split in Hl. apply (f_equal length) in Hl. rewrite length_app in Hl. simpl in Hl. lia. }
  all: apply last_None in Hl as ->; exists seen; split; [done|]; destruct Hinv as [Hs _ Hc]; intros x; split; [apply Hs|];
    induction 1 as [a b H|a b c H _ IH']; [destruct (Hc b) as [?%not_elem_of_nil|Hcl]; [by left|done|by apply Hcl]|];
    destruct (Hc b) as [?%not_elem_of_nil|Hcl]; [right; by apply IH'|done|by apply Hcl].
Qed.

End Reach.

Section Transitive.
Context `{Sv : Semver}.
Variables (installed : list PluginNode) (id : string).
Hypothesis installed_ok : graph_ok installed.

Lemma dd_depends x y : dd installed x y <-> depends installed x y.
Proof.
  unfold dd. rewrite direct_dependents_elem. split.
  - intros (n & d & Hn & <- & Hd & <-). exists n, d. split_and!; try done.
    destruct installed_ok as [_ He _]. destruct (He n d Hn Hd) as (m & Hm & Hid & _). apply ids_of_elem. by exists m.
  - intros (n & d & Hn & <- & Hd & <- & _). by exists n, d.
Qed.

Lemma before_reverse l x y : before l x y -> before (reverse l) y x.
Proof.
  intros (i & j & Hi & Hj & Hij). pose proof (lookup_lt_Some _ _ _ Hj).
  exists (length l - S j), (length l - S i).
  rewrite !reverse_lookup by lia. split_and!; [|..|lia]; rewrite <- ?Hi, <- ?Hj; f_equal; lia.
Qed.

Lemma subset_depends (seen : gset string) x y :
  depends installed x y -> x ∈ seen -> y ∈ seen -> depends (filter (fun n => node_id n ∈ seen) installed) x y.
Proof.
  intros (n & d & Hn & <- & Hd & <- & Hy) Hxs Hys. exists n, d. split_and!; try done.
  - by apply list_elem_of_filter.
  - apply ids_of_elem in Hy as (m & Hm & Hid). apply ids_of_elem. exists m. split; [|done].
    apply list_elem_of_filter. by rewrite Hid.
Qed.

Lemma transitive_dependents_spec :
  exists l, transitive_dependents installed id = Some l /\ NoDup l
    /\ (forall x, x ∈ l <-> tc (depends installed) x id)
    /\ removes_cleanly installed (l ++ [id]).
Proof.
  assert (forall x y, tc (dd installed) x y <-> tc (depends installed) x y) as Htc.
  { intros x y. split; (induction 1 as [a b H|a b c H _ IH];
      [apply tc_once; by apply dd_depends|eapply tc_l; [by apply dd_depends|done]]). }
  destruct installed_ok as [Hu He Ha].
  destruct (reach_spec installed id (S (length installed)) ∅ [id]) as (seen & Hreach & Hseen).
  { split; [set_solver|intros x ->%list_elem_of_singleton; by left|].
    intros y [->|Hy]; [left; by left|set_solver]. }
  { rewrite size_ids_of by done. simpl. lia. }
  unfold transitive_dependents. rewrite Hreach. cbn [mbind option_bind].
  set (subset := filter (fun n => node_id n ∈ seen) installed).
  assert (NoDup (node_id <$> subset)) as Hus by (by apply NoDup_filter_ids).
  destruct (load_order_cases subset Hus) as [(order & Ho & Hok)|(c & _ & Hc)].
  2: { exfalso. apply cycle_not_acyclic in Hc. apply Hc. by apply acyclic_subset. }
  rewrite Ho. cbn [mbind option_bind]. exists (reverse order). split; [done|].
  destruct Hok as [Hp Hb _]. assert (NoDup (reverse order)) as Hno by (by rewrite reverse_Permutation, Hp).
  assert (forall x, x ∈ reverse order <-> tc (depends installed) x id) as Hin.
  { intros x. rewrite elem_of_reverse, Hp, <- Htc, <- Hseen, list_elem_of_fmap. split.
    - intros (n & -> & Hn). by apply list_elem_of_filter in Hn as [? _].
    - intros Hx. assert (x ∈ ids_of installed) as Hids.
      { apply Hseen in Hx. destruct Hx as [a b H|a b c H _]; by eapply dd_ids. }
      apply ids_of_elem in Hids as (n & Hn & <-). exists n. split; [done|]. by apply list_elem_of_filter. }
  split_and!; [done|done|]. apply removes_cleanly_intro. intros i x y Hi Hy. apply dd_depends in Hy.
  destruct (decide (i < length (reverse order))) as [Hlt|Hge].
  - rewrite lookup_app_l in Hi by done. rewrite take_app_le by lia.
    assert (tc (depends installed) x id) as Hx by (apply Hin; by eapply list_elem_of_lookup_2).
    assert (before (reverse order) y x) as (j & k & Hj & Hk & Hjk).
    { apply before_reverse, Hb, subset_depends; [done|..]; apply Hseen, Htc; [by eapply tc_l|done]. }
    assert (k = i) as -> by (by eapply NoDup_lookup). apply list_elem_of_lookup. exists j. by apply lookup_take_Some.
  - assert (i = length (reverse order)) as ->.
    { apply lookup_lt_Some in Hi. rewrite length_app in Hi. simpl in Hi. lia. }
    rewrite lookup_app_r, Nat.sub_diag in Hi by lia. injection Hi as <-. rewrite take_app_length.
    apply Hin. by apply tc_once.
Qed.

End Transitive.

(** ** The properties of the graph *)

(** (C32) On plugins with distinct ids, [load_order] never panics and always
    ends, in one of two ways: with every plugin exactly once, each after all it
    depends on and ties broken by name, which happens exactly when the
    dependencies have no cycle; or with a genuine cycle of dependencies that
    repeats only its ends. *)
Theorem load_order_correct nodes :
  NoDup (node_id <$> nodes) ->
  (exists order, load_order nodes = Some (Ok order) /\ is_order nodes order /\ acyclic nodes)
  \/ (exists c, load_order nodes = Some (Err (Cycle c)) /\ is_cycle nodes c /\ ~ acyclic nodes).
Proof.
  intros Hnd. destruct (load_order_cases nodes Hnd) as [(o & Ho & Hok)|(c & Hc & Hcy)].
  - left. exists o. split_and!; [done|done|by eapply order_acyclic].
  - right. exists c. split_and!; [done|done|by eapply cycle_not_acyclic].
Qed.

(** The order does not depend on how the plugins are listed: they come
    from a hash map, whose iteration order is arbitrary. *)
Theorem load_order_listing_irrelevant nodes nodes' order :
  NoDup (node_id <$> nodes) -> nodes ≡ₚ nodes' ->
  load_order nodes = Some (Ok order) -> load_order nodes' = Some (Ok order).
Proof.
  intros Hnd Hp Ho. assert (NoDup (node_id <$> nodes')) as Hnd' by (by rewrite <- Hp).
  destruct (load_order_cases nodes Hnd) as [(o & Ho1 & Hok)|(c & Hc & _)]; [|congruence].
  assert (o = order) as -> by congruence.
  destruct (load_order_cases nodes' Hnd') as [(o' & -> & Hok')|(c & _ & Hc)].
  - do 2 f_equal. eapply (is_order_unique nodes'); [done|done|by eapply is_order_perm].
  - exfalso. apply cycle_not_acyclic in Hc. apply Hc. by eapply order_acyclic, is_order_perm.
Qed.

Section GraphProperties.
Context `{Sv : Semver}.

(** Forced removal: in a sound set of plugins, [transitive_dependents]
    lists exactly the plugins that need [id], directly or through others, once
    each, and removing them front to back and then [id] is never refused: at
    every point nothing left depends on what is removed next. *)
Theorem forced_removal_clean installed id :
  graph_ok installed ->
  exists l, transitive_dependents installed id = Some l /\ NoDup l
    /\ (forall x, x ∈ l <-> tc (depends installed) x id)
    /\ removes_cleanly installed (l ++ [id]).
Proof. apply transitive_dependents_spec. Qed.

End GraphProperties.

(** ** Samples *)

(** A toy of [semver]: a requirement is [*] or one exact version. *)
#[local] Instance exact_semver : Semver :=
  {| Version := string; VersionReq := string; parse_version := Some; parse_req := Some;
     req_matches := fun r v => (r =s "*") || (r =s v) |}.

Definition sample_node (id : string) (deps : list string) : PluginNode :=
  {| node_id := id; node_version := "1"; dependencies := (fun d => {| dep_id := d; dep_version := "*" |}) <$> deps |}.

Definition sample_nodes : list PluginNode :=
  [sample_node "xrpc" ["record"; "atproto"]; sample_node "record" ["db"]; sample_node "atproto" ["http"];
   sample_node "db" []; sample_node "http" []; sample_node "lua" []].

Example sample_order :
  load_order sample_nodes = Some (Ok ["db"; "http"; "atproto"; "lua"; "record"; "xrpc"]).
Proof. vm_compute. reflexivity. Qed.

Example sample_cycle :
  load_order [sample_node "a" ["b"]; sample_node "b" ["c"]; sample_node "c" ["b"]] = Some (Err (Cycle ["b"; "c"; "b"])).
Proof. vm_compute. reflexivity. Qed.

(** Two plugins of one id: the loop ends with one short of the plugins and no
    cycle to name, and the source panics.  The registry never holds such. *)
Example duplicate_ids_panic : load_order [sample_node "a" []; sample_node "a" []] = None.
Proof. vm_compute. reflexivity. Qed.

Lemma sample_unique : NoDup (node_id <$> sample_nodes).
Proof. apply (bool_decide_unpack _). vm_compute. exact I. Qed.

Lemma sample_graph_ok : graph_ok sample_nodes.
Proof.
  split; [apply sample_unique| |].
  - intros n d Hn Hd. unfold sample_nodes in Hn. rewrite !elem_of_cons, elem_of_nil in Hn.
    assert (forall x, x ∈ ["record"; "atproto"; "db"; "http"]%string ->
      exists m, m ∈ sample_nodes /\ node_id m = x) as Hx.
    { intros x Hx. rewrite !elem_of_cons, elem_of_nil in Hx. destruct Hx as [->|[->|[->|[->|[]]]]];
        [exists (sample_node "record" ["db"])|exists (sample_node "atproto" ["http"])
        |exists (sample_node "db" [])|exists (sample_node "http" [])]; (split; [|done]);
        unfold sample_nodes; rewrite !elem_of_cons; tauto. }
    assert (dep_version d = "*" /\ dep_id d ∈ ["record"; "atproto"; "db"; "http"]%string) as [Hv Hid].
    { destruct Hn as [->|[->|[->|[->|[->|[->|[]]]]]]]; cbn in Hd; rewrite ?elem_of_cons, ?elem_of_nil in Hd;
        repeat (destruct Hd as [->|Hd]); try done; (split; [done|]); cbn; rewrite !elem_of_cons; tauto. }
    destruct (Hx _ Hid) as (m & Hm & He). exists m. split_and!; [done|done|]. exists "*", (node_version m).
    by rewrite Hv.
  - apply (load_order_acyclic sample_nodes sample_unique). eexists. exact sample_order.
Qed.

Lemma load_order_correct_witness :
  (exists order, load_order sample_nodes = Some (Ok order) /\ is_order sample_nodes order /\ acyclic sample_nodes)
  \/ (exists c, load_order sample_nodes = Some (Err (Cycle c)) /\ is_cycle sample_nodes c /\ ~ acyclic sample_nodes).
Proof. apply (load_order_correct sample_nodes). apply sample_unique. Defined.

Lemma load_order_listing_irrelevant_witness :
  load_order (reverse sample_nodes) = Some (Ok ["db"; "http"; "atproto"; "lua"; "record"; "xrpc"]).
Proof.
  apply (load_order_listing_irrelevant sample_nodes); [apply sample_unique| |vm_compute; reflexivity].
  symmetry. apply reverse_Permutation.
Defined.

Lemma forced_removal_clean_witness :
  exists l, transitive_dependents sample_nodes "db" = Some l /\ NoDup l
    /\ (forall x, x ∈ l <-> tc (depends sample_nodes) x "db") /\ removes_cleanly sample_nodes (l ++ ["db"]).
Proof. apply (forced_removal_clean sample_nodes "db"). apply sample_graph_ok. Defined.

Example sample_dependents : transitive_dependents sample_nodes "db" = Some ["xrpc"; "record"].
Proof. vm_compute. reflexivity. Qed.
