(* ===== verification/PluginRegistry.v ===== *)
(** * The plugin registry

    [src/plugin/mod.rs] ([PluginRegistry]), the accessors of [LoadedPlugin] in
    [src/plugin/types.rs] and [src/plugin/prepared.rs].  The registry's fields
    are a record; an [Arc] is an address with its value, addresses being handed
    out by a counter, so [Arc::ptr_eq] compares addresses.  Hash maps are
    [gmap]s, listed in an order the theorems do not depend on.  A method runs
    as one step.  SHA-256 and hex encoding are parameters, and so is the type
    of API surfaces; the table [happyview_plugins] is a map of rows.  [warm]
    only schedules a compile and changes nothing here; of a manifest, the
    fields that decide something are kept. *)

From stdpp Require Import gmap strings sorting relations.
From Stdlib Require Import ZArith.
From S2P Require Import Prelude PluginGraph.

#[local] Open Scope Z_scope.

(** ** Plugins *)

Inductive PluginType : Type := Auth | Interpreter | Library.

#[global] Instance PluginType_eq_dec : EqDecision PluginType.
Proof. solve_decision. Defined.

Record PluginManifest : Type := {
  m_id : string;
  m_plugin_type : PluginType;
  m_dependencies : list PluginDependency;
  m_namespace : option string;
  m_language_id : option string;
  m_file_extension : option string;
  m_extensions : list string;
  m_supports_libraries : list string;
}.

Definition effective_extensions (m : PluginManifest) : list string :=
  match m_extensions m with
  | [] => option_list (m_file_extension m)
  | es => es
  end.

Record RegistryInstall : Type := {
  ri_did : string;
  ri_name : string;
  ri_channel : option string;
  ri_version : string;
  ri_version_uri : option string;
  ri_manifest_cid : option string;
  ri_manifest_url : string;
  ri_manifest_blob_cid : string;
  ri_package_url : string;
  ri_package_cid : string;
}.

Inductive PluginSource : Type :=
| File (path : string)
| Url (url : string) (sha256 : option string) (registry : option RegistryInstall).

Record LoadedPlugin : Type := {
  info_id : string;
  info_version : string;
  info_api_version : string;
  plugin_source : PluginSource;
  wasm_bytes : list Z;
  manifest : option PluginManifest;
}.

Definition plugin_type (p : LoadedPlugin) : PluginType :=
  match manifest p with Some m => m_plugin_type m | None => Auth end.

Definition plugin_dependencies (p : LoadedPlugin) : list PluginDependency :=
  match manifest p with Some m => m_dependencies m | None => [] end.

Definition namespace (p : LoadedPlugin) : option string :=
  m ← manifest p;
  if bool_decide (m_plugin_type m = Library) then Some (default (m_id m) (m_namespace m)) else None.

Definition supports_libraries (p : LoadedPlugin) : list string :=
  match manifest p with
  | Some m => if bool_decide (m_plugin_type m = Interpreter) then m_supports_libraries m else []
  | None => []
  end.

Definition language_id (p : LoadedPlugin) : option string :=
  m ← manifest p;
  if bool_decide (m_plugin_type m = Interpreter) then m_language_id m else None.

Definition extensions (p : LoadedPlugin) : list string :=
  match manifest p with
  | Some m => if bool_decide (m_plugin_type m = Interpreter) then effective_extensions m else []
  | None => []
  end.

(** [PluginNode::from]. *)
Definition node_of (p : LoadedPlugin) : PluginNode :=
  {| node_id := info_id p; node_version := info_version p; dependencies := plugin_dependencies p |}.

(** ** Prepared artifacts *)

Record PreparedArtifact : Type := {
  interpreter : string;
  version : string;
  engine : string;
  format : string;
  art_bytes : list Z;
  source_map : option string;
}.

Record ArtifactStamp : Type := { st_interpreter : string; st_version : string }.

Definition stamp_apply (s : ArtifactStamp) (a : PreparedArtifact) : PreparedArtifact :=
  {| interpreter := st_interpreter s; version := st_version s; engine := engine a; format := format a;
     art_bytes := art_bytes a; source_map := source_map a |}.

Definition stamp_matches (s : ArtifactStamp) (a : PreparedArtifact) : bool :=
  (interpreter a =s st_interpreter s) && (version a =s st_version s).

Definition Cached : Type := option PreparedArtifact.
Abbreviation Key := (string * list Z)%type.

Definition PREPARED_CACHE_CAPACITY : Z := 1024.
Definition PREPARED_CACHE_MAX_BYTES : Z := 64 * 1024 * 1024.

Record Entries : Type := { entry_map : gmap Key Cached; entry_bytes : Z }.

Definition weight (c : Cached) : Z :=
  match c with
  | None => 0
  | Some a => Z.of_nat (length (art_bytes a))
              + match source_map a with Some s => Z.of_nat (String.length s) | None => 0 end
  end.

Definition entries_remove (e : Entries) (k : Key) : Entries :=
  match entry_map e !! k with
  | Some old => {| entry_map := delete k (entry_map e); entry_bytes := entry_bytes e - weight old |}
  | None => e
  end.

Definition map_len (m : gmap Key Cached) : Z := Z.of_nat (size m).

(** [PreparedCache::store], with the key its source hashes to. *)
Definition cache_store (e : Entries) (k : Key) (cached : Cached) : Entries :=
  let e := entries_remove e k in
  let added := weight cached in
  let e :=
    if negb (map_len (entry_map e) =? 0)
       && ((PREPARED_CACHE_CAPACITY <=? map_len (entry_map e)) || (PREPARED_CACHE_MAX_BYTES <? entry_bytes e + added))
    then {| entry_map := ∅; entry_bytes := 0 |}
    else e in
  {| entry_map := <[k := cached]> (entry_map e); entry_bytes := entry_bytes e + added |}.

Definition cache_evict (e : Entries) (id : string) : Entries :=
  let dropped := filter (fun k : Key => k.1 = id) (map_to_list (entry_map e)).*1 in
  foldl entries_remove e dropped.

(** ** The registry *)

Abbreviation Arc := (nat * LoadedPlugin)%type.

(** A row of [happyview_plugins]. *)
Record StoredPlugin : Type := {
  sp_source : string;
  sp_url : option string;
  sp_sha256 : option string;
  sp_enabled : bool;
  sp_api_version : string;
  sp_manifest_url : option string;
  sp_manifest_blob_cid : option string;
  sp_package_cid : option string;
  sp_manifest_cid : option string;
  sp_registry_did : option string;
  sp_registry_name : option string;
  sp_registry_channel : option string;
  sp_version_uri : option string;
  sp_registry_unresolved : Z;
}.

Definition registry_install (r : StoredPlugin) : option RegistryInstall :=
  did ← sp_registry_did r;
  name ← sp_registry_name r;
  manifest_url ← sp_manifest_url r;
  manifest_blob_cid ← sp_manifest_blob_cid r;
  package_url ← sp_url r;
  package_cid ← sp_package_cid r;
  Some {| ri_did := did; ri_name := name; ri_channel := sp_registry_channel r; ri_version := EmptyString;
          ri_version_uri := sp_version_uri r; ri_manifest_cid := sp_manifest_cid r;
          ri_manifest_url := manifest_url; ri_manifest_blob_cid := manifest_blob_cid;
          ri_package_url := package_url; ri_package_cid := package_cid |}.

(** The row [persist_plugin] inserts, and what [ON CONFLICT] makes of it. *)
Definition plugin_row (p : LoadedPlugin) : StoredPlugin :=
  let '(source, url, sha256, registry) :=
    match plugin_source p with
    | File path => ("file", Some path, None, None)
    | Url url sha256 registry => ("url", Some url, sha256, registry)
    end in
  {| sp_source := source; sp_url := url; sp_sha256 := sha256; sp_enabled := true;
     sp_api_version := info_api_version p;
     sp_manifest_url := ri_manifest_url <$> registry;
     sp_manifest_blob_cid := ri_manifest_blob_cid <$> registry;
     sp_package_cid := ri_package_cid <$> registry;
     sp_manifest_cid := registry ≫= ri_manifest_cid;
     sp_registry_did := ri_did <$> registry;
     sp_registry_name := ri_name <$> registry;
     sp_registry_channel := registry ≫= ri_channel;
     sp_version_uri := registry ≫= ri_version_uri;
     sp_registry_unresolved := 0 |}.

Definition upsert_row (old : option StoredPlugin) (excluded : StoredPlugin) : StoredPlugin :=
  match old with
  | None => excluded
  | Some old =>
      let matched := bool_decide (is_Some (sp_registry_did excluded)) in
      {| sp_source := sp_source excluded; sp_url := sp_url excluded; sp_sha256 := sp_sha256 excluded;
         sp_enabled := sp_enabled old; sp_api_version := sp_api_version excluded;
         sp_manifest_url := sp_manifest_url excluded; sp_manifest_blob_cid := sp_manifest_blob_cid excluded;
         sp_package_cid := sp_package_cid excluded; sp_manifest_cid := sp_manifest_cid excluded;
         sp_registry_did := if matched then sp_registry_did excluded else sp_registry_did old;
         sp_registry_name := if matched then sp_registry_name excluded else sp_registry_name old;
         sp_registry_channel := if matched then sp_registry_channel excluded else sp_registry_channel old;
         sp_version_uri := if matched then sp_version_uri excluded else sp_version_uri old;
         sp_registry_unresolved := if matched then 0 else sp_registry_unresolved old |}
  end.

Section Registry.
Context {Surface : Type} `{Sv : Semver}.
Variables (sha256 : list Z -> list Z) (hex_encode : list Z -> string) (str_digest : string -> list Z).

Record Registry : Type := {
  plugins : gmap string Arc;
  db : option (gmap string StoredPlugin);
  api_surfaces : gmap string Surface;
  modules : option (gmap string nat);
  stamps : gmap string (Arc * ArtifactStamp);
  prepared : Entries;
  interpreter_generation : Z;
  next_address : nat;
}.

Definition new_registry : Registry :=
  {| plugins := ∅; db := None; api_surfaces := ∅; modules := None; stamps := ∅;
     prepared := {| entry_map := ∅; entry_bytes := 0 |}; interpreter_generation := 0; next_address := 0 |}.

Definition stamp_of (p : LoadedPlugin) : ArtifactStamp :=
  {| st_interpreter := info_id p;
     st_version := info_version p +:+ "+" +:+ String.substring 0 16 (hex_encode (sha256 (wasm_bytes p))) |}.

Definition evict_module (r : Registry) (id : string) : Registry :=
  {| plugins := plugins r; db := db r; api_surfaces := api_surfaces r; modules := delete id <$> modules r;
     stamps := stamps r; prepared := prepared r; interpreter_generation := interpreter_generation r;
     next_address := next_address r |}.

Definition invalidate_api_surface (r : Registry) (id : string) : Registry :=
  {| plugins := plugins r; db := db r; api_surfaces := delete id (api_surfaces r); modules := modules r;
     stamps := stamps r; prepared := prepared r; interpreter_generation := interpreter_generation r;
     next_address := next_address r |}.

Definition cache_api_surface (r : Registry) (id : string) (s : Surface) : Registry :=
  {| plugins := plugins r; db := db r; api_surfaces := <[id := s]> (api_surfaces r); modules := modules r;
     stamps := stamps r; prepared := prepared r; interpreter_generation := interpreter_generation r;
     next_address := next_address r |}.

Definition set_plugins (r : Registry) (m : gmap string Arc) (next : nat) : Registry :=
  {| plugins := m; db := db r; api_surfaces := api_surfaces r; modules := modules r; stamps := stamps r;
     prepared := prepared r; interpreter_generation := interpreter_generation r; next_address := next |}.

(** The row is written unless the database fails, which is only logged. *)
Definition persist (r : Registry) (db_ok : bool) (p : LoadedPlugin) : Registry :=
  match db r with
  | Some rows =>
      if db_ok then
        {| plugins := plugins r; db := Some (<[info_id p := upsert_row (rows !! info_id p) (plugin_row p)]> rows);
           api_surfaces := api_surfaces r; modules := modules r; stamps := stamps r; prepared := prepared r;
           interpreter_generation := interpreter_generation r; next_address := next_address r |}
      else r
  | None => r
  end.

Definition interpreter_changed (r : Registry) (id : string) (incoming : option Arc) : Registry :=
  {| plugins := plugins r; db := db r; api_surfaces := api_surfaces r; modules := modules r;
     stamps := match incoming with
               | Some a => <[id := (a, stamp_of a.2)]> (stamps r)
               | None => delete id (stamps r)
               end;
     prepared := cache_evict (prepared r) id;
     interpreter_generation := interpreter_generation r + 1; next_address := next_address r |}.

Definition is_interpreter (p : option Arc) : bool :=
  match p with Some a => bool_decide (plugin_type a.2 = Interpreter) | None => false end.

Definition register (r : Registry) (db_ok : bool) (p : LoadedPlugin) : Registry :=
  let id := info_id p in
  let r := evict_module (invalidate_api_surface r id) id in
  let r := persist r db_ok p in
  let arc := (next_address r, p) in
  let previous := plugins r !! id in
  let r := set_plugins r (<[id := arc]> (plugins r)) (S (next_address r)) in
  if bool_decide (plugin_type p = Interpreter) then interpreter_changed r id (Some arc)
  else if is_interpreter previous then interpreter_changed r id None
  else r.

Definition remove (r : Registry) (id : string) : Registry * option Arc :=
  let r := evict_module (invalidate_api_surface r id) id in
  let removed := plugins r !! id in
  let r := set_plugins r (delete id (plugins r)) (next_address r) in
  (if is_interpreter removed then interpreter_changed r id None else r, removed).

Definition artifact_stamp (r : Registry) (id : string) : option ArtifactStamp := snd <$> stamps r !! id.

Definition artifact_stamp_for (r : Registry) (plugin : Arc) : option ArtifactStamp :=
  '(current, stamp) ← stamps r !! info_id plugin.2;
  if (current.1 =? plugin.1)%nat then Some stamp else None.

Definition source_key (id source : string) : Key := (id, sha256 (str_digest source)).

Definition cache_lookup (e : Entries) (id source : string) : option Cached := entry_map e !! source_key id source.

Definition set_prepared (r : Registry) (e : Entries) : Registry :=
  {| plugins := plugins r; db := db r; api_surfaces := api_surfaces r; modules := modules r; stamps := stamps r;
     prepared := e; interpreter_generation := interpreter_generation r; next_address := next_address r |}.

(** What the caller is handed is the cached value itself. *)
Definition store_prepared (r : Registry) (plugin : Arc) (source : string) (artifact : option PreparedArtifact) : Registry * Cached :=
  match artifact_stamp_for r plugin with
  | None => (r, None)
  | Some stamp =>
      let artifact := stamp_apply stamp <$> artifact in
      (set_prepared r (cache_store (prepared r) (source_key (info_id plugin.2) source) artifact), artifact)
  end.

Definition forget (r : Registry) (id source : string) : Registry :=
  set_prepared r (entries_remove (prepared r) (source_key id source)).

Definition arcs (r : Registry) : list Arc := snd <$> map_to_list (plugins r).

Definition nodes (r : Registry) : list PluginNode := (fun a : Arc => node_of a.2) <$> arcs r.

(** [values().find(|p| p.info.id != plugin.info.id && ..)]. *)
Definition taken_by (r : Registry) (id : string) (claims : LoadedPlugin -> bool) : option string :=
  (fun a : Arc => info_id a.2) <$>
    List.find (fun a : Arc => negb (info_id a.2 =s id) && claims a.2) (arcs r).

Definition check_namespace (r : Registry) (p : LoadedPlugin) : result unit GraphError :=
  match namespace p with
  | None => Ok tt
  | Some ns =>
      match taken_by r (info_id p) (fun q => bool_decide (namespace q = Some ns)) with
      | Some by_ => Err (NamespaceTaken ns by_)
      | None => Ok tt
      end
  end.

Definition check_language (r : Registry) (p : LoadedPlugin) : result unit GraphError :=
  match language_id p with
  | None => Ok tt
  | Some l =>
      match taken_by r (info_id p) (fun q => bool_decide (language_id q = Some l)) with
      | Some by_ => Err (LanguageIdTaken l by_)
      | None => Ok tt
      end
  end.

Definition check_extension (r : Registry) (id extension : string) : result unit GraphError :=
  match taken_by r id (fun q => str_mem extension (extensions q)) with
  | Some by_ => Err (ExtensionTaken extension by_)
  | None => Ok tt
  end.

Definition install (r : Registry) (db_ok : bool) (p : LoadedPlugin) : option (Registry * result unit GraphError) :=
  match check_namespace r p with
  | Err e => Some (r, Err e)
  | Ok _ =>
      match check_language r p with
      | Err e => Some (r, Err e)
      | Ok _ =>
          match try_each (check_extension r (info_id p)) (extensions p) with
          | Err e => Some (r, Err e)
          | Ok _ =>
              v ← validate_install (nodes r) (node_of p);
              match v with
              | Err e => Some (r, Err e)
              | Ok _ => Some (register r db_ok p, Ok tt)
              end
          end
      end
  end.

Definition remove_each (r : Registry) (ids : list string) : Registry := foldl (fun r id => (remove r id).1) r ids.

Definition uninstall (r : Registry) (id : string) (force : bool) : option (Registry * result (list string) GraphError) :=
  match plugins r !! id with
  | None => Some (r, Ok [])
  | Some _ =>
      if force then
        dependents ← transitive_dependents (nodes r) id;
        let ids := dependents ++ [id] in
        Some (remove_each r ids, Ok ids)
      else
        match validate_remove (nodes r) id with
        | Err e => Some (r, Err e)
        | Ok _ => Some (remove_each r [id], Ok [id])
        end
  end.

(** *** A batch *)

Definition Failure : Type := string * GraphError.

(** [sort_by], which is stable. *)
Fixpoint insert_failure (x : Failure) (l : list Failure) : list Failure :=
  match l with
  | [] => [x]
  | y :: l' => if bool_decide (String.le x.1 y.1) then x :: l else y :: insert_failure x l'
  end.

Definition sort_failures (l : list Failure) : list Failure := foldr insert_failure [] l.

Definition pending_of (ps : list LoadedPlugin) : gmap string LoadedPlugin :=
  foldl (fun m p => <[info_id p := p]> m) ∅ ps.

Definition batch_nodes (r : Registry) (pending : gmap string LoadedPlugin) : list PluginNode :=
  filter (fun n => pending !! node_id n = None) (nodes r) ++ ((fun kv => node_of kv.2) <$> map_to_list pending).

Definition drop_cycle (cycle : list string) (pending : gmap string LoadedPlugin) : gmap string LoadedPlugin * list Failure :=
  foldl (fun '(pending, failures) id =>
           match pending !! id with
           | Some _ => (delete id pending, failures ++ [(id, Cycle cycle)])
           | None => (pending, failures)
           end) (pending, []) cycle.

(** The order to install in, the plugins still pending and the failures so far. *)
Definition batch_order (r : Registry) (pending : gmap string LoadedPlugin) : option (list string * gmap string LoadedPlugin * list Failure) :=
  let nodes := batch_nodes r pending in
  o ← load_order nodes;
  match o with
  | Ok order => Some (order, pending, [])
  | Err (Cycle cycle) =>
      let '(pending, failures) := drop_cycle cycle pending in
      let remaining := filter (fun n => node_id n ∉ cycle) nodes in
      o ← load_order remaining;
      Some (match o with Ok order => order | Err _ => [] end, pending, failures)
  | Err other => Some ([], ∅, (fun kv => (kv.1, other)) <$> map_to_list pending)
  end.

Fixpoint install_each (r : Registry) (db_ok : bool) (order : list string) (pending : gmap string LoadedPlugin)
    (failures : list Failure) : option (Registry * list Failure) :=
  match order with
  | [] => Some (r, failures)
  | id :: rest =>
      match pending !! id with
      | None => install_each r db_ok rest pending failures
      | Some p =>
          o ← install r db_ok p;
          let '(r, res) := o in
          let failures := match res with Ok _ => failures | Err e => failures ++ [(id, e)] end in
          install_each r db_ok rest (delete id pending) failures
      end
  end.

Definition register_all (r : Registry) (db_ok : bool) (ps : list LoadedPlugin) : option (Registry * list Failure) :=
  o ← batch_order r (pending_of ps);
  let '(order, pending, failures) := o in
  '(r, failures) ← install_each r db_ok order pending failures;
  Some (r, sort_failures failures).

Definition get_library_by_namespace (r : Registry) (ns : string) : option Arc :=
  List.find (fun a : Arc => bool_decide (namespace a.2 = Some ns)) (arcs r).

Definition get_interpreter_by_language (r : Registry) (l : string) : option Arc :=
  List.find (fun a : Arc => bool_decide (language_id a.2 = Some l)) (arcs r).

End Registry.

(** ** The cache of prepared artifacts *)

Definition total (m : gmap Key Cached) : Z := map_fold (fun _ c acc => weight c + acc) 0 m.

Lemma total_insert m k c : m !! k = None -> total (<[k := c]> m) = weight c + total m.
Proof. intros H. unfold total. rewrite map_fold_insert_L; [done| |done]. intros. lia. Qed.

Lemma total_delete m k c : m !! k = Some c -> total m = weight c + total (delete k m).
Proof. intros H. unfold total. rewrite (map_fold_delete_L _ _ k c); [done| |done]. intros. lia. Qed.

Lemma weight_nonneg c : 0 <= weight c.
Proof. unfold weight. destruct c as [a|]; [|lia]. destruct (source_map a); lia. Qed.

Lemma total_nonneg m : 0 <= total m.
Proof.
  induction m as [|k c m H IH] using map_ind; [unfold total; rewrite map_fold_empty; lia|].
  rewrite total_insert by done. pose proof (weight_nonneg c). lia.
Qed.

(** The byte count is the weight of what is held, the cache never holds more
    than its capacity, and more than its byte budget only as one entry. *)
Record cache_ok (e : Entries) : Prop := {
  co_bytes : entry_bytes e = total (entry_map e);
  co_count : map_len (entry_map e) <= PREPARED_CACHE_CAPACITY;
  co_budget : 1 < map_len (entry_map e) -> entry_bytes e <= PREPARED_CACHE_MAX_BYTES;
}.

Lemma entries_remove_map e k : entry_map (entries_remove e k) = delete k (entry_map e).
Proof. unfold entries_remove. destruct (entry_map e !! k) eqn:H; [done|]. by rewrite delete_id. Qed.

Lemma map_len_delete (m : gmap Key Cached) k :
  map_len (delete k m) = map_len m - (match m !! k with Some _ => 1 | None => 0 end).
Proof.
  unfold map_len. destruct (m !! k) as [c|] eqn:H; [|rewrite delete_id by done; lia].
  rewrite <- (insert_delete_id m k c H) at 2. rewrite map_size_insert_None by apply lookup_delete_eq. lia.
Qed.

Lemma cache_ok_remove e k : cache_ok e -> cache_ok (entries_remove e k).
Proof.
  intros [Hb Hc Hm]. pose proof (map_len_delete (entry_map e) k) as Hl.
  split; rewrite ?entries_remove_map; unfold entries_remove.
  - destruct (entry_map e !! k) as [c|] eqn:H; [|by rewrite delete_id].
    cbn [entry_bytes]. rewrite Hb, (total_delete _ _ _ H). lia.
  - rewrite Hl. destruct (entry_map e !! k); lia.
  - rewrite Hl. destruct (entry_map e !! k) as [c|] eqn:H; [|rewrite Z.sub_0_r; done].
    cbn [entry_bytes]. pose proof (weight_nonneg c). lia.
Qed.

Lemma cache_ok_store e k c : cache_ok e -> cache_ok (cache_store e k c).
Proof.
  intros He. apply (cache_ok_remove _ k) in He. unfold cache_store.
  assert (entry_map (entries_remove e k) !! k = None) as Hk by (rewrite entries_remove_map; apply lookup_delete_eq).
  set (e1 := entries_remove e k) in *. destruct He as [Hb Hc Hm]. clearbody e1.
  assert (forall m : gmap Key Cached, m !! k = None -> map_len (<[k := c]> m) = map_len m + 1) as Hlen.
  { intros m H. unfold map_len. rewrite map_size_insert_None by done. lia. }
  assert (map_len ∅ = 0) as H0 by (unfold map_len; rewrite map_size_empty; lia).
  unfold PREPARED_CACHE_CAPACITY, PREPARED_CACHE_MAX_BYTES in *.
  destruct (Z.eqb_spec (map_len (entry_map e1)) 0) as [Hz|Hz]; cbn [negb andb].
  - split; cbn [entry_map entry_bytes]; rewrite ?Hlen by done; [rewrite total_insert by done|..]; unfold PREPARED_CACHE_CAPACITY, PREPARED_CACHE_MAX_BYTES; lia.
  - destruct (Z.leb_spec 1024 (map_len (entry_map e1))); cbn [orb];
      [|destruct (Z.ltb_spec (64 * 1024 * 1024) (entry_bytes e1 + weight c))];
      (split; cbn [entry_map entry_bytes];
       [rewrite total_insert by (done || apply lookup_empty); try lia; unfold total; rewrite map_fold_empty; lia|..];
       rewrite Hlen by (done || apply lookup_empty); unfold PREPARED_CACHE_CAPACITY, PREPARED_CACHE_MAX_BYTES; lia).
Qed.

Lemma removes_lookup e ks k :
  entry_map (foldl entries_remove e ks) !! k = if decide (k ∈ ks) then None else entry_map e !! k.
Proof.
  revert e. induction ks as [|x ks IH]; intros e; cbn [foldl].
  - rewrite decide_False; [done|apply not_elem_of_nil].
  - rewrite IH, entries_remove_map. destruct (decide (k ∈ ks)) as [Hin|Hn].
    + rewrite decide_True; [done|by right].
    + destruct (decide (k = x)) as [->|Hne].
      * rewrite decide_True by (by left). apply lookup_delete_eq.
      * rewrite decide_False by (rewrite not_elem_of_cons; done). by apply lookup_delete_ne.
Qed.

Lemma cache_evict_lookup e id k :
  entry_map (cache_evict e id) !! k = if decide (k.1 = id) then None else entry_map e !! k.
Proof.
  unfold cache_evict. rewrite removes_lookup. case_decide as Hin.
  - apply list_elem_of_filter in Hin as [Hid _]. by rewrite decide_True.
  - destruct (decide (k.1 = id)) as [Hid|]; [|done]. destruct (entry_map e !! k) as [c|] eqn:H; [|done].
    exfalso. apply Hin, list_elem_of_filter. split; [done|]. apply list_elem_of_fmap. exists (k, c).
    split; [done|]. by apply elem_of_map_to_list.
Qed.

Lemma cache_ok_removes e ks : cache_ok e -> cache_ok (foldl entries_remove e ks).
Proof. revert e. induction ks as [|k ks IH]; intros e He; [done|]. apply IH. by apply cache_ok_remove. Qed.

Lemma cache_store_lookup e k c k' c' :
  entry_map (cache_store e k c) !! k' = Some c' -> (k' = k /\ c' = c) \/ (k' <> k /\ entry_map e !! k' = Some c').
Proof.
  unfold cache_store. cbn [entry_map]. destruct (decide (k = k')) as [->|Hne].
  - rewrite lookup_insert_eq. intros [= ->]. by left.
  - rewrite lookup_insert_ne by done. destruct (_ && _); cbn [entry_map]; [by rewrite lookup_empty|].
    rewrite entries_remove_map, lookup_delete_ne by done. intros H. right. split; [done|exact H].
Qed.

(** ** Stamps and artifacts *)

Section RegistryProofs.
Context {Surface : Type} `{Sv : Semver}.
Variables (sha256 : list Z -> list Z) (hex_encode : list Z -> string) (str_digest : string -> list Z).

Abbreviation Registry := (@Registry Surface).
Abbreviation register := (register sha256 hex_encode).
Abbreviation remove := (remove sha256 hex_encode).
Abbreviation stamp_of := (stamp_of sha256 hex_encode).
Abbreviation store_prepared := (store_prepared sha256 str_digest).
Abbreviation forget := (forget sha256 str_digest).
Abbreviation interpreter_changed := (interpreter_changed sha256 hex_encode).

Record stamps_ok (r : Registry) : Prop := {
  so_keys : forall id a, plugins r !! id = Some a -> info_id a.2 = id;
  so_addresses : forall id a, plugins r !! id = Some a -> (a.1 < next_address r)%nat;
  so_distinct : forall i j a b, plugins r !! i = Some a -> plugins r !! j = Some b -> a.1 = b.1 -> i = j;
  so_stamps : forall id a s, stamps r !! id = Some (a, s) ->
    plugins r !! id = Some a /\ plugin_type a.2 = Interpreter /\ s = stamp_of a.2;
  so_interpreters : forall id a, plugins r !! id = Some a -> plugin_type a.2 = Interpreter -> is_Some (stamps r !! id);
  so_prepared : forall k c, entry_map (prepared r) !! k = Some c ->
    exists a s, stamps r !! k.1 = Some (a, s) /\ forall art, c = Some art -> stamp_matches s art = true;
  so_cache : cache_ok (prepared r);
}.

Lemma new_registry_ok : stamps_ok new_registry.
Proof.
  split; cbn; intros *; rewrite ?lookup_empty; try done.
Qed.

(** Steps that touch none of the plugins, stamps and artifacts. *)
Definition same_core (r r' : Registry) : Prop :=
  plugins r' = plugins r /\ stamps r' = stamps r /\ prepared r' = prepared r /\ next_address r' = next_address r.

Lemma same_core_ok r r' : same_core r r' -> stamps_ok r -> stamps_ok r'.
Proof. intros (H1 & H2 & H3 & H4) [A B C D E F G]. split; rewrite ?H1, ?H2, ?H3, ?H4; done. Qed.

Lemma same_core_register r db_ok p id :
  same_core r (persist (evict_module (invalidate_api_surface r id) id) db_ok p).
Proof. unfold persist. cbn. destruct (db r); [|done]. by destruct db_ok. Qed.

Lemma evict_prepared (r : Registry) id incoming k c :
  entry_map (prepared (interpreter_changed r id incoming)) !! k = Some c ->
  k.1 <> id /\ entry_map (prepared r) !! k = Some c.
Proof. cbn. rewrite cache_evict_lookup. destruct (decide (k.1 = id)); [done|]. intros H. by split. Qed.

Lemma inserted_ok r p m :
  stamps_ok r -> m = <[info_id p := (next_address r, p)]> (plugins r) ->
  (forall id a, m !! id = Some a -> info_id a.2 = id /\ (a.1 < S (next_address r))%nat)
  /\ forall i j a b, m !! i = Some a -> m !! j = Some b -> a.1 = b.1 -> i = j.
Proof.
  intros [Hk Ha Hd _ _ _ _] ->. split.
  - intros id a. destruct (decide (info_id p = id)) as [<-|Hne].
    + rewrite lookup_insert_eq. intros [= <-]. simpl. split; [done|lia].
    + rewrite lookup_insert_ne by done. intros H. split; [by apply Hk|]. apply Ha in H. lia.
  - intros i j a b. destruct (decide (info_id p = i)) as [<-|Hi], (decide (info_id p = j)) as [<-|Hj]; try done.
    + rewrite lookup_insert_eq, lookup_insert_ne by done. intros [= <-] H He. apply Ha in H. simpl in He. lia.
    + rewrite lookup_insert_eq, lookup_insert_ne by done. intros H [= <-] He. apply Ha in H. simpl in He. lia.
    + rewrite !lookup_insert_ne by done. by apply Hd.
Qed.

Lemma register_core r db_ok p :
  exists r1, same_core r r1 /\
    register r db_ok p =
    (let r2 := set_plugins r1 (<[info_id p := (next_address r, p)]> (plugins r)) (S (next_address r)) in
     if bool_decide (plugin_type p = Interpreter) then interpreter_changed r2 (info_id p) (Some (next_address r, p))
     else if is_interpreter (plugins r !! info_id p) then interpreter_changed r2 (info_id p) None
     else r2).
Proof.
  eexists. split; [apply (same_core_register r db_ok p (info_id p))|].
  destruct (same_core_register r db_ok p (info_id p)) as (H1 & _ & _ & H4).
  unfold PluginRegistry.register. by rewrite H1, H4.
Qed.

(** The stamps of the other plugins are untouched. *)
Lemma other_stamps (r : Registry) id (m : gmap string Arc) :
  stamps_ok r -> (forall i, i <> id -> m !! i = plugins r !! i) ->
  (forall i a s, i <> id -> stamps r !! i = Some (a, s) ->
     m !! i = Some a /\ plugin_type a.2 = Interpreter /\ s = stamp_of a.2)
  /\ (forall i a, i <> id -> m !! i = Some a -> plugin_type a.2 = Interpreter -> is_Some (stamps r !! i)).
Proof.
  intros [_ _ _ Hs Hi _ _] Hm. split.
  - intros i a s Hne H. rewrite Hm by done. by apply Hs.
  - intros i a Hne H. rewrite Hm in H by done. by apply Hi.
Qed.

(** A plugin that is not an interpreter has neither a stamp nor artifacts. *)
Lemma no_stamp (r : Registry) id :
  stamps_ok r -> is_interpreter (plugins r !! id) = false -> stamps r !! id = None.
Proof.
  intros [_ _ _ Hs _ _ _] H. destruct (stamps r !! id) as [[a s]|] eqn:E; [|done].
  apply Hs in E as (E & Ht & _). rewrite E in H. cbn in H. by rewrite bool_decide_true in H.
Qed.

Lemma no_artifacts (r : Registry) k c :
  stamps_ok r -> entry_map (prepared r) !! k = Some c -> is_interpreter (plugins r !! k.1) = true.
Proof.
  intros [_ _ _ Hs _ Hp _] H. apply Hp in H as (a & s & Hst & _). apply Hs in Hst as (-> & Ht & _).
  cbn. by apply bool_decide_true.
Qed.

Lemma register_ok r db_ok p : stamps_ok r -> stamps_ok (register r db_ok p).
Proof.
  intros H. destruct (register_core r db_ok p) as (r1 & (C1 & C2 & C3 & C4) & ->). cbv zeta.
  set (id := info_id p) in *. set (m := <[id := (next_address r, p)]> (plugins r)).
  destruct (inserted_ok r p m H eq_refl) as [Hk Hd].
  destruct (other_stamps r id m H) as [Ho Hi]; [intros i Hne; by apply lookup_insert_ne|].
  assert (m !! id = Some (next_address r, p)) as Hmid by apply lookup_insert_eq.
  assert (cache_ok (prepared r1)) as Hc by (rewrite C3; apply H).
  destruct (bool_decide (plugin_type p = Interpreter)) eqn:Ht; [apply bool_decide_eq_true in Ht|apply bool_decide_eq_false in Ht].
  2: destruct (is_interpreter (plugins r !! id)) eqn:Hprev.
  all: (split; cbn; [intros i a Hia; exact (proj1 (Hk i a Hia))|intros i a Hia; exact (proj2 (Hk i a Hia))|done|..]); rewrite ?C2.
  - intros i a s. destruct (decide (id = i)) as [<-|Hne].
    + rewrite lookup_insert_eq. intros [= <- <-]. by split_and!.
    + rewrite lookup_insert_ne by done. by apply Ho.
  - intros i a Hia Hta. destruct (decide (id = i)) as [<-|Hne]; [rewrite lookup_insert_eq; by eexists|].
    rewrite lookup_insert_ne by done. by eapply Hi.
  - intros k c. rewrite cache_evict_lookup. destruct (decide (k.1 = id)) as [|Hne]; [done|].
    rewrite C3. intros Hkc. destruct H as [_ _ _ _ _ Hp _]. apply Hp in Hkc as (a & s & Hs & Hm).
    exists a, s. rewrite lookup_insert_ne by done. done.
  - by apply cache_ok_removes.
  - intros i a s. destruct (decide (id = i)) as [<-|Hne]; [by rewrite lookup_delete_eq|].
    rewrite lookup_delete_ne by done. by apply Ho.
  - intros i a Hia Hta. destruct (decide (id = i)) as [<-|Hne].
    + rewrite Hmid in Hia. by injection Hia as <-.
    + rewrite lookup_delete_ne by done. by eapply Hi.
  - intros k c. rewrite cache_evict_lookup. destruct (decide (k.1 = id)) as [|Hne]; [done|].
    rewrite C3. intros Hkc. destruct H as [_ _ _ _ _ Hp _]. apply Hp in Hkc as (a & s & Hs & Hm).
    exists a, s. rewrite lookup_delete_ne by done. done.
  - by apply cache_ok_removes.
  - intros i a s Hst. destruct (decide (id = i)) as [<-|Hne]; [by rewrite (no_stamp r id H Hprev) in Hst|]. by apply Ho.
  - intros i a Hia Hta. destruct (decide (id = i)) as [<-|Hne]; [rewrite Hmid in Hia; by injection Hia as <-|]. by eapply Hi.
  - intros k c. rewrite C3. apply H.
  - done.
Qed.

Lemma remove_plugins (r : Registry) id : plugins (remove r id).1 = delete id (plugins r).
Proof. unfold PluginRegistry.remove. cbn. by destruct (is_interpreter _). Qed.

Lemma remove_ok r id : stamps_ok r -> stamps_ok (remove r id).1.
Proof.
  intros H. unfold PluginRegistry.remove. cbn [fst evict_module invalidate_api_surface plugins next_address].
  set (m := delete id (plugins r)).
  destruct (other_stamps r id m H) as [Ho Hi]; [intros i Hne; by apply lookup_delete_ne|].
  assert (m !! id = None) as Hmid by apply lookup_delete_eq.
  assert (forall i a, m !! i = Some a -> plugins r !! i = Some a) as Hsub.
  { intros i a Hia. unfold m in Hia. by apply lookup_delete_Some in Hia as [_ ?]. }
  pose proof H as [Hk Ha Hd _ _ Hp Hc].
  destruct (is_interpreter (plugins r !! id)) eqn:Hprev;
    (split; cbn; [by eauto|by eauto|by eauto|..]).
  - intros i a s. destruct (decide (id = i)) as [<-|Hne]; [by rewrite lookup_delete_eq|].
    rewrite lookup_delete_ne by done. by apply Ho.
  - intros i a Hia Hta. destruct (decide (id = i)) as [<-|Hne]; [congruence|].
    rewrite lookup_delete_ne by done. by eapply Hi.
  - intros k c. rewrite cache_evict_lookup. destruct (decide (k.1 = id)) as [|Hne]; [done|]. intros Hkc.
    apply Hp in Hkc as (a & s & Hs & Hm). exists a, s. rewrite lookup_delete_ne by done. done.
  - by apply cache_ok_removes.
  - intros i a s Hst. destruct (decide (id = i)) as [<-|Hne]; [by rewrite (no_stamp r id H Hprev) in Hst|]. by apply Ho.
  - intros i a Hia Hta. destruct (decide (id = i)) as [<-|Hne]; [congruence|]. by eapply Hi.
  - exact Hp.
  - exact Hc.
Qed.

Lemma apply_matches s a : stamp_matches s (stamp_apply s a) = true.
Proof. unfold stamp_matches. cbn. by rewrite !String.eqb_refl. Qed.

Lemma store_prepared_ok r plugin source artifact : stamps_ok r -> stamps_ok (store_prepared r plugin source artifact).1.
Proof.
  intros H. unfold PluginRegistry.store_prepared, artifact_stamp_for.
  destruct (stamps r !! info_id plugin.2) as [[cur s]|] eqn:Hs; [|done]. cbn [mbind option_bind].
  destruct (cur.1 =? plugin.1)%nat; [|done]. cbn [fst]. destruct H as [A B C D E F G]. split; cbn; try done.
  - intros k c Hkc. apply cache_store_lookup in Hkc as [[-> ->]|[_ Hkc]]; [|by apply F].
    exists cur, s. split; [done|]. intros art Hart. destruct artifact as [a|]; [|done].
    cbn in Hart. injection Hart as <-. apply apply_matches.
  - by apply cache_ok_store.
Qed.

Lemma forget_ok r id source : stamps_ok r -> stamps_ok (forget r id source).
Proof.
  intros [A B C D E F G]. split; cbn; try done; [|by apply cache_ok_remove].
  intros k c. rewrite entries_remove_map. intros Hkc. apply lookup_delete_Some in Hkc as [_ Hkc]. by apply F.
Qed.

(** Whatever the registry's primitives do, in any order. *)
Inductive registry_step : Registry -> Registry -> Prop :=
| step_register r db_ok p : registry_step r (register r db_ok p)
| step_remove r id : registry_step r (remove r id).1
| step_store r plugin source artifact : registry_step r (store_prepared r plugin source artifact).1
| step_forget r id source : registry_step r (forget r id source)
| step_surface r id s : registry_step r (cache_api_surface r id s)
| step_invalidate r id : registry_step r (invalidate_api_surface r id)
| step_evict r id : registry_step r (evict_module r id).

Lemma registry_step_ok r r' : registry_step r r' -> stamps_ok r -> stamps_ok r'.
Proof.
  intros [ | | | | | | ] H;
    [by apply register_ok|by apply remove_ok|by apply store_prepared_ok|by apply forget_ok|..];
    (eapply same_core_ok; [|exact H]; by split_and!).
Qed.

Lemma reachable_ok r : rtc registry_step new_registry r -> stamps_ok r.
Proof.
  remember new_registry as r0 eqn:E. intros Hr. assert (stamps_ok r0) as H0 by (subst; apply new_registry_ok).
  clear E. induction Hr as [|x y z Hxy _ IH]; [done|]. apply IH. by eapply registry_step_ok.
Qed.

(** ** The graph of the installed plugins *)

Lemma nodes_elem (r : Registry) n : n ∈ nodes r <-> exists id a, plugins r !! id = Some a /\ n = node_of a.2.
Proof.
  unfold nodes, arcs. rewrite list_elem_of_fmap. setoid_rewrite list_elem_of_fmap. split.
  - intros (a & -> & [id b] & -> & Hb). apply elem_of_map_to_list in Hb. by exists id, b.
  - intros (id & a & Ha & ->). exists a. split; [done|]. exists (id, a). split; [done|]. by apply elem_of_map_to_list.
Qed.

Lemma arcs_elem (r : Registry) a : a ∈ arcs r <-> exists id, plugins r !! id = Some a.
Proof.
  unfold arcs. rewrite list_elem_of_fmap. split.
  - intros ([id b] & -> & Hb). apply elem_of_map_to_list in Hb. by exists id.
  - intros (id & Ha). exists (id, a). split; [done|]. by apply elem_of_map_to_list.
Qed.

(** The nodes of a map whose keys are its plugins' ids. *)
Definition map_nodes (m : gmap string Arc) : list PluginNode := (fun kv => node_of kv.2.2) <$> map_to_list m.

Lemma nodes_map (r : Registry) : nodes r = map_nodes (plugins r).
Proof. unfold nodes, arcs, map_nodes. by rewrite <- list_fmap_compose. Qed.

Definition keyed (m : gmap string Arc) : Prop := forall id a, m !! id = Some a -> info_id a.2 = id.

Lemma map_nodes_unique m : keyed m -> NoDup (node_id <$> map_nodes m).
Proof.
  intros Hk. unfold map_nodes. rewrite <- list_fmap_compose.
  assert ((node_id ∘ (fun kv : string * Arc => node_of kv.2.2)) <$> map_to_list m = fst <$> map_to_list m) as ->.
  { apply list_fmap_ext. intros i [id a] Hi. apply list_elem_of_lookup_2, elem_of_map_to_list in Hi.
    unfold compose. cbn. by apply Hk. }
  apply NoDup_fst_map_to_list.
Qed.

Lemma map_nodes_insert m id a :
  m !! id = None -> map_nodes (<[id := a]> m) ≡ₚ node_of a.2 :: map_nodes m.
Proof. intros H. unfold map_nodes. by rewrite map_to_list_insert by done. Qed.

Lemma filter_all {A} (P : A -> Prop) `{forall x, Decision (P x)} (l : list A) : Forall P l -> filter P l = l.
Proof. induction 1 as [|x l Hx _ IH]; [done|]. by rewrite filter_cons, decide_True, IH. Qed.

Lemma map_nodes_delete m id :
  keyed m -> map_nodes (delete id m) ≡ₚ without (map_nodes m) id.
Proof.
  intros Hk.
  assert (without (map_nodes (delete id m)) id = map_nodes (delete id m)) as Hw.
  { unfold without, map_nodes. apply filter_all, Forall_fmap, Forall_forall. intros [i a] Hi.
    apply elem_of_map_to_list, lookup_delete_Some in Hi as [Hne Hi]. unfold compose. cbn. by rewrite (Hk i a Hi). }
  destruct (m !! id) as [a|] eqn:H.
  - rewrite <- (insert_delete_id m id a H) at 2. rewrite <- Hw. unfold without.
    rewrite map_nodes_insert by apply lookup_delete_eq. rewrite filter_cons, decide_False; [done|].
    cbn. intros Hne. by apply Hne, Hk.
  - rewrite (delete_id m id H) in Hw |- *. by rewrite Hw.
Qed.

#[export] Instance graph_ok_proper : Proper ((≡ₚ) ==> iff) graph_ok.
Proof.
  assert (forall l l', l ≡ₚ l' -> graph_ok l -> graph_ok l') as H.
  { intros l l' Hp [Hu He Ha]. split.
    - by rewrite <- Hp.
    - intros n d Hn Hd. rewrite <- Hp in Hn. destruct (He n d Hn Hd) as (m & Hm & ? & ?).
      exists m. split_and!; [by rewrite <- Hp|done|done].
    - intros x Hx. apply (Ha x). revert Hx. generalize x at 1 3. intros y Hy.
      induction Hy as [a b Hab|a b c Hab _ IH]; [apply tc_once|eapply tc_l; [|exact IH]];
        by apply (depends_perm _ _ Hp). }
  intros l l' Hp. split; by apply H.
Qed.

(** No two installed plugins claim one namespace, language or extension. *)
Record claims_ok (m : gmap string Arc) : Prop := {
  cl_namespace : forall i j a b ns, m !! i = Some a -> m !! j = Some b ->
    namespace a.2 = Some ns -> namespace b.2 = Some ns -> i = j;
  cl_language : forall i j a b l, m !! i = Some a -> m !! j = Some b ->
    language_id a.2 = Some l -> language_id b.2 = Some l -> i = j;
  cl_extension : forall i j a b e, m !! i = Some a -> m !! j = Some b ->
    e ∈ extensions a.2 -> e ∈ extensions b.2 -> i = j;
}.

Record registry_ok (r : Registry) : Prop := {
  ro_stamps : stamps_ok r;
  ro_graph : graph_ok (nodes r);
  ro_claims : claims_ok (plugins r);
}.

Lemma new_registry_sound : registry_ok new_registry.
Proof.
  split; [apply new_registry_ok| |split; cbn; intros *; by rewrite lookup_empty].
  unfold nodes, arcs. cbn. rewrite map_to_list_empty. split; [constructor|intros n d ?%not_elem_of_nil; done|].
  intros x Hx. assert (forall a b, ~ depends [] a b) as Hn by (intros a b (n & d & ?%not_elem_of_nil & _); done).
  destruct Hx as [? ? H|? ? ? H _]; by apply Hn in H.
Qed.

(** The plugin clashes with no other one. *)
Definition no_clash (r : Registry) (p : LoadedPlugin) : Prop :=
  forall i a, plugins r !! i = Some a -> i <> info_id p ->
    (forall ns, namespace p = Some ns -> namespace a.2 <> Some ns)
    /\ (forall l, language_id p = Some l -> language_id a.2 <> Some l)
    /\ (forall e, e ∈ extensions p -> e ∉ extensions a.2).

Lemma taken_by_none (r : Registry) id claims :
  stamps_ok r ->
  taken_by r id claims = None <-> forall i a, plugins r !! i = Some a -> i <> id -> claims a.2 = false.
Proof.
  intros [Hk _ _ _ _ _ _]. unfold taken_by. rewrite fmap_None. split.
  - intros Hf i a Ha Hne. pose proof (List.find_none _ _ Hf a) as H.
    rewrite <- list_elem_of_In, arcs_elem in H. specialize (H (ex_intro _ i Ha)). cbn in H.
    rewrite (proj2 (String.eqb_neq (info_id a.2) id)) in H; [done|]. by rewrite (Hk i a Ha).
  - intros H. destruct (List.find _ _) as [a|] eqn:Hf; [|done]. exfalso.
    apply List.find_some in Hf as [Hin Hc]. apply list_elem_of_In, arcs_elem in Hin as [i Hi]. bool_prop.
    rewrite (H i a Hi) in *; [done|]. rewrite <- (Hk i a Hi). done.
Qed.

Lemma checks_ok (r : Registry) p :
  stamps_ok r ->
  (check_namespace r p = Ok tt /\ check_language r p = Ok tt
   /\ try_each (check_extension r (info_id p)) (extensions p) = Ok tt) <-> no_clash r p.
Proof.
  intros Hr. rewrite try_each_ok, Forall_forall. unfold check_namespace, check_language, check_extension, no_clash.
  assert (forall cl (e : string -> GraphError), match taken_by r (info_id p) cl with Some b => Err (e b) | None => Ok tt end = Ok tt
    <-> forall i a, plugins r !! i = Some a -> i <> info_id p -> cl a.2 = false) as Ht.
  { intros cl e. rewrite <- taken_by_none by done. by destruct (taken_by _ _ _). }
  setoid_rewrite Ht.
  split.
  - intros (H1 & H2 & H3) i a Ha Hne. split_and!.
    + intros ns Hns. rewrite Hns, Ht in H1. specialize (H1 i a Ha Hne). by apply bool_decide_eq_false in H1.
    + intros l Hl. rewrite Hl, Ht in H2. specialize (H2 i a Ha Hne). by apply bool_decide_eq_false in H2.
    + intros e He. specialize (H3 e He i a Ha Hne). by apply str_mem_false.
  - intros H. split_and!.
    + destruct (namespace p) as [ns|] eqn:Hns; [|done]. apply Ht. intros i a Ha Hne. apply bool_decide_eq_false.
      by apply (H i a Ha Hne).
    + destruct (language_id p) as [l|] eqn:Hl; [|done]. apply Ht. intros i a Ha Hne. apply bool_decide_eq_false.
      by apply (H i a Ha Hne).
    + intros e He i a Ha Hne. apply str_mem_false. by apply (H i a Ha Hne).
Qed.

Lemma register_plugins (r : Registry) db_ok p : plugins (register r db_ok p) = <[info_id p := (next_address r, p)]> (plugins r).
Proof.
  destruct (register_core r db_ok p) as (r1 & _ & ->). cbv zeta.
  destruct (bool_decide _); [done|]. by destruct (is_interpreter _).
Qed.

Lemma register_nodes (r : Registry) db_ok p :
  stamps_ok r -> nodes (register r db_ok p) ≡ₚ with_candidate (nodes r) (node_of p).
Proof.
  intros [Hk _ _ _ _ _ _]. rewrite !nodes_map, register_plugins, <- insert_delete_eq.
  rewrite map_nodes_insert by apply lookup_delete_eq. rewrite map_nodes_delete by done.
  unfold with_candidate, without. cbn. by rewrite Permutation_cons_append.
Qed.

Lemma register_sound (r : Registry) db_ok p :
  registry_ok r -> no_clash r p -> graph_ok (with_candidate (nodes r) (node_of p)) -> registry_ok (register r db_ok p).
Proof.
  intros [Hs Hg [Hn Hl He]] Hc Hcand. split; [by apply register_ok|by rewrite register_nodes|].
  rewrite register_plugins.
  assert (forall (Q : LoadedPlugin -> Prop),
    (forall i j a b, plugins r !! i = Some a -> plugins r !! j = Some b -> Q a.2 -> Q b.2 -> i = j) ->
    (forall i a, plugins r !! i = Some a -> i <> info_id p -> Q p -> ~ Q a.2) ->
    forall i j a b, <[info_id p := (next_address r, p)]> (plugins r) !! i = Some a ->
      <[info_id p := (next_address r, p)]> (plugins r) !! j = Some b -> Q a.2 -> Q b.2 -> i = j) as Huniq.
  { intros Q Ho Hnew i j a b. destruct (decide (info_id p = i)) as [<-|Hi], (decide (info_id p = j)) as [<-|Hj]; try done.
    - rewrite lookup_insert_eq, lookup_insert_ne by done. intros [= <-] Hb Hqa Hqb. by apply (Hnew j b) in Hqb.
    - rewrite lookup_insert_eq, lookup_insert_ne by done. intros Ha [= <-] Hqa Hqb. by apply (Hnew i a) in Hqa.
    - rewrite !lookup_insert_ne by done. by apply Ho. }
  split.
  - intros i j a b ns Ha Hb H1 H2. apply (Huniq (fun q => namespace q = Some ns) (fun i j a b => Hn i j a b ns)) with a b; [|done..].
    intros k c Hk Hne Hp. by apply (Hc k c Hk Hne).
  - intros i j a b l Ha Hb H1 H2. apply (Huniq (fun q => language_id q = Some l) (fun i j a b => Hl i j a b l)) with a b; [|done..].
    intros k c Hk Hne Hp. by apply (Hc k c Hk Hne).
  - intros i j a b e Ha Hb H1 H2. apply (Huniq (fun q => e ∈ extensions q) (fun i j a b => He i j a b e)) with a b; [|done..].
    intros k c Hk Hne Hp. by apply (Hc k c Hk Hne).
Qed.

(** What [install] does, on every branch. *)
Lemma install_spec (r : Registry) db_ok p :
  registry_ok r ->
  exists res, install sha256 hex_encode r db_ok p = Some (match res with Ok _ => register r db_ok p | Err _ => r end, res)
    /\ (res = Ok tt <-> no_clash r p /\ graph_ok (with_candidate (nodes r) (node_of p)))
    /\ registry_ok (match res with Ok _ => register r db_ok p | Err _ => r end).
Proof.
  intros Hr. pose proof Hr as [Hs Hg _]. pose proof (checks_ok r p Hs) as Hchecks.
  destruct (validate_install_total (nodes r) (node_of p)) as [v Hv]; [apply Hg|].
  pose proof (validate_install_spec (nodes r) (node_of p) Hg) as Hvs. rewrite Hv in Hvs.
  unfold install. destruct (check_namespace r p) as [[]|e] eqn:E1.
  2: { exists (Err e). split_and!; [done| |done]. split; [done|]. intros [Hc _]. by apply Hchecks in Hc as [[=] _]. }
  destruct (check_language r p) as [[]|e] eqn:E2.
  2: { exists (Err e). split_and!; [done| |done]. split; [done|]. intros [Hc _]. by apply Hchecks in Hc as (_ & [=] & _). }
  destruct (try_each _ _) as [[]|e] eqn:E3.
  2: { exists (Err e). split_and!; [done| |done]. split; [done|]. intros [Hc _]. by apply Hchecks in Hc as (_ & _ & [=]). }
  rewrite Hv. cbn [mbind option_bind].
  assert (no_clash r p) as Hc by (by apply Hchecks). destruct v as [[]|e].
  - exists (Ok tt). assert (graph_ok (with_candidate (nodes r) (node_of p))) by (by apply Hvs).
    split_and!; [done|by split|by apply register_sound].
  - exists (Err e). split_and!; [done| |done]. split; [done|]. intros [_ Hg']. by apply Hvs in Hg'.
Qed.

(** ** Uninstalling *)

Lemma remove_nodes (r : Registry) id : stamps_ok r -> nodes (remove r id).1 ≡ₚ without (nodes r) id.
Proof. intros [Hk _ _ _ _ _ _]. rewrite !nodes_map, remove_plugins. by apply map_nodes_delete. Qed.

Lemma remove_sound (r : Registry) id :
  registry_ok r -> validate_remove (nodes r) id = Ok tt -> registry_ok (remove r id).1.
Proof.
  intros [Hs Hg [Hn Hl He]] Hv. split; [by apply remove_ok| |].
  - rewrite remove_nodes by done. by apply validate_remove_spec.
  - rewrite remove_plugins. split; intros i j a b x Ha Hb; apply lookup_delete_Some in Ha as [_ Ha];
      apply lookup_delete_Some in Hb as [_ Hb]; by eauto.
Qed.

Lemma removes_cleanly_perm l ns ns' : ns ≡ₚ ns' -> removes_cleanly ns l -> removes_cleanly ns' l.
Proof.
  revert ns ns'. induction l as [|x l IH]; intros ns ns' Hp; [done|]. cbn [removes_cleanly].
  rewrite !validate_remove_nil, !nil_no_elem. intros [Hv Hrest]. split.
  - intros y Hy. apply (Hv y). apply direct_dependents_elem. apply direct_dependents_elem in Hy. by setoid_rewrite Hp.
  - eapply IH; [|exact Hrest]. unfold without. by rewrite Hp.
Qed.

Lemma remove_each_sound (r : Registry) ids :
  registry_ok r -> removes_cleanly (nodes r) ids ->
  registry_ok (remove_each sha256 hex_encode r ids).
Proof.
  revert r. induction ids as [|x ids IH]; intros r Hr Hc; [done|]. cbn [removes_cleanly] in Hc. destruct Hc as [Hv Hc].
  apply IH; [by apply remove_sound|]. eapply removes_cleanly_perm; [|exact Hc]. symmetry. apply remove_nodes. apply Hr.
Qed.

Lemma remove_each_plugins (r : Registry) ids x :
  plugins (remove_each sha256 hex_encode r ids) !! x = if decide (x ∈ ids) then None else plugins r !! x.
Proof.
  revert r. induction ids as [|y ids IH]; intros r; cbn [remove_each foldl].
  - rewrite decide_False; [done|apply not_elem_of_nil].
  - unfold remove_each in IH. rewrite IH, remove_plugins. destruct (decide (x ∈ ids)).
    + rewrite decide_True; [done|by right].
    + destruct (decide (x = y)) as [->|Hne].
      * rewrite decide_True by (by left). apply lookup_delete_eq.
      * rewrite decide_False by (by rewrite not_elem_of_cons). by apply lookup_delete_ne.
Qed.

(** What an uninstall of an installed plugin returns. *)
Definition uninstalled (r : Registry) (id : string) (force : bool) (r' : Registry) (res : result (list string) GraphError) : Prop :=
  match res with
  | Ok ids =>
      NoDup ids /\ last ids = Some id
      /\ (forall x, x ∈ ids <-> x = id \/ (force = true /\ tc (depends (nodes r)) x id))
      /\ (forall x, plugins r' !! x = if decide (x ∈ ids) then None else plugins r !! x)
  | Err e =>
      r' = r /\ force = false /\ exists dependents, dependents <> [] /\ e = HasDependents id dependents
        /\ forall x, x ∈ dependents <-> depends (nodes r) x id
  end.

Lemma uninstall_spec (r : Registry) id force :
  registry_ok r -> is_Some (plugins r !! id) ->
  exists r' res, uninstall sha256 hex_encode r id force = Some (r', res) /\ registry_ok r'
    /\ uninstalled r id force r' res.
Proof.
  clear str_digest. intros Hr [arc Harc]. pose proof Hr as [Hs Hg _]. unfold uninstall. rewrite Harc. destruct force.
  - destruct (transitive_dependents_spec (nodes r) id Hg) as (l & -> & Hnd & Hl & Hc). cbn [mbind option_bind].
    do 2 eexists. split; [done|]. split; [by apply remove_each_sound|]. cbn [uninstalled]. split_and!.
    + apply NoDup_app. split_and!; [done| |apply NoDup_singleton]. intros x Hx. rewrite list_elem_of_singleton. intros ->.
      apply Hl in Hx. by apply (go_acyclic _ Hg) in Hx.
    + by rewrite last_snoc.
    + intros x. rewrite elem_of_app, list_elem_of_singleton, Hl. naive_solver.
    + intros x. apply remove_each_plugins.
  - destruct (validate_remove (nodes r) id) as [[]|e] eqn:Hv.
    + do 2 eexists. split; [done|]. split; [by apply remove_each_sound|]. cbn [uninstalled]. split_and!.
      * apply NoDup_singleton.
      * done.
      * intros x. rewrite list_elem_of_singleton. naive_solver.
      * intros x. apply remove_each_plugins.
    + do 2 eexists. split; [done|]. split; [done|]. cbn [uninstalled]. split_and!; [done|done|].
      unfold validate_remove in Hv. exists (direct_dependents (nodes r) id).
      destruct (direct_dependents (nodes r) id) as [|x l] eqn:Hd; [done|]. injection Hv as <-.
      split_and!; [done|done|]. rewrite <- Hd. intros y. by apply (dd_depends (nodes r) Hg).
Qed.

(** ** A batch *)

Lemma pending_of_keyed ps id p : pending_of ps !! id = Some p -> info_id p = id.
Proof.
  unfold pending_of. assert (forall (m : gmap string LoadedPlugin), (forall i q, m !! i = Some q -> info_id q = i) ->
    forall i q, foldl (fun m p => <[info_id p := p]> m) m ps !! i = Some q -> info_id q = i) as H.
  { induction ps as [|x ps IH]; intros m Hm; [done|]. cbn [foldl]. apply IH. intros i q.
    destruct (decide (info_id x = i)) as [<-|Hne]; [rewrite lookup_insert_eq; by intros [= <-]|].
    rewrite lookup_insert_ne by done. apply Hm. }
  apply H. intros i q. by rewrite lookup_empty.
Qed.

Lemma batch_nodes_unique (r : Registry) pending :
  stamps_ok r -> (forall id p, pending !! id = Some p -> info_id p = id) ->
  NoDup (node_id <$> batch_nodes r pending).
Proof.
  intros [Hk _ _ _ _ _ _] Hp. unfold batch_nodes. rewrite fmap_app. apply NoDup_app. split_and!.
  - apply NoDup_filter_ids. rewrite nodes_map. by apply map_nodes_unique.
  - intros x Hx Hy. apply list_elem_of_fmap in Hx as (n & -> & Hn). apply list_elem_of_filter in Hn as [Hn _].
    rewrite <- list_fmap_compose in Hy. apply list_elem_of_fmap in Hy as ([i q] & He & Hq).
    apply elem_of_map_to_list in Hq. unfold compose in He. cbn in He. rewrite He, (Hp i q Hq) in Hn. congruence.
  - rewrite <- list_fmap_compose.
    assert ((node_id ∘ (fun kv : string * LoadedPlugin => node_of kv.2)) <$> map_to_list pending = fst <$> map_to_list pending) as ->.
    { apply list_fmap_ext. intros i [id a] Hi. apply list_elem_of_lookup_2, elem_of_map_to_list in Hi.
      unfold compose. cbn. by apply Hp. }
    apply NoDup_fst_map_to_list.
Qed.

Lemma batch_nodes_elem (r : Registry) pending id p :
  pending !! id = Some p -> node_of p ∈ batch_nodes r pending.
Proof.
  intros H. unfold batch_nodes. apply elem_of_app. right. apply list_elem_of_fmap. exists (id, p).
  split; [done|]. by apply elem_of_map_to_list.
Qed.

Lemma drop_cycle_spec c0 cycle (pending : gmap string LoadedPlugin) failures :
  let r := foldl (fun '(pending, failures) id =>
           match pending !! id with
           | Some _ => (delete id pending, failures ++ [(id, Cycle c0)])
           | None => (pending, failures)
           end) (pending, failures) cycle in
  (forall f, f ∈ failures -> f ∈ r.2)
  /\ (forall id p, pending !! id = Some p -> if decide (id ∈ cycle) then id ∈ r.2.*1 else r.1 !! id = Some p)
  /\ (forall id p, r.1 !! id = Some p -> pending !! id = Some p).
Proof.
  revert pending failures. induction cycle as [|x cycle IH]; intros pending failures; cbn [foldl].
  - cbn. split_and!; [done| |done]. intros id p H. by rewrite decide_False by apply not_elem_of_nil.
  - destruct (pending !! x) as [px|] eqn:Hx.
    + destruct (IH (delete x pending) (failures ++ [(x, Cycle c0)])) as (H1 & H2 & H3). cbv zeta. split_and!.
      * intros f Hf. apply H1, elem_of_app. by left.
      * intros id p Hid. destruct (decide (id = x)) as [->|Hne].
        -- rewrite decide_True by (by left). apply list_elem_of_fmap. exists (x, Cycle c0). split; [done|].
           apply H1, elem_of_app. right. by left.
        -- specialize (H2 id p). rewrite lookup_delete_ne in H2 by done. specialize (H2 Hid).
           destruct (decide (id ∈ cycle)); [rewrite decide_True; [done|by right]|].
           rewrite decide_False by (by rewrite not_elem_of_cons). done.
      * intros id p Hid. apply H3, lookup_delete_Some in Hid as [_ ?]. done.
    + destruct (IH pending failures) as (H1 & H2 & H3). cbv zeta. split_and!; [done| |done].
      intros id p Hid. specialize (H2 id p Hid). destruct (decide (id = x)) as [->|Hne]; [congruence|].
      destruct (decide (id ∈ cycle)); [rewrite decide_True; [done|by right]|].
      rewrite decide_False by (by rewrite not_elem_of_cons). done.
Qed.

(** The plugins left once the first cycle is dropped have no cycle. *)
Definition one_cycle (ns : list PluginNode) : Prop :=
  forall c, load_order ns = Some (Err (Cycle c)) -> acyclic (filter (fun n => node_id n ∉ c) ns).

Lemma order_elem ns order n : is_order ns order -> n ∈ ns -> node_id n ∈ order.
Proof. intros [Hp _ _] Hn. rewrite Hp. by apply list_elem_of_fmap_2. Qed.

Lemma batch_order_spec (r : Registry) pending :
  stamps_ok r -> (forall id p, pending !! id = Some p -> info_id p = id) ->
  exists order pending' failures, batch_order r pending = Some (order, pending', failures)
    /\ (forall id p, pending' !! id = Some p -> pending !! id = Some p)
    /\ (one_cycle (batch_nodes r pending) -> forall id p, pending !! id = Some p ->
          id ∈ failures.*1 \/ (pending' !! id = Some p /\ id ∈ order)).
Proof.
  intros Hs Hk. pose proof (batch_nodes_unique r pending Hs Hk) as Hnd. unfold batch_order, one_cycle.
  set (ns := batch_nodes r pending) in *.
  assert (forall id p, pending !! id = Some p -> node_of p ∈ ns /\ node_id (node_of p) = id) as Hin.
  { intros id p H. split; [by eapply batch_nodes_elem|]. cbn. by apply Hk. }
  destruct (load_order_cases ns Hnd) as [(order & -> & Hok)|(c & -> & _)]; cbn [mbind option_bind].
  - do 3 eexists. split; [done|]. split; [done|]. intros _ id p H. right. split; [done|].
    destruct (Hin id p H) as [Hn <-]. by eapply order_elem.
  - destruct (drop_cycle_spec c c pending []) as (_ & H2 & H3). fold (drop_cycle c pending) in H2, H3.
    destruct (drop_cycle c pending) as [pending' failures]. cbn [fst snd] in H2, H3.
    set (rem := filter (fun n => node_id n ∉ c) ns).
    assert (NoDup (node_id <$> rem)) as Hrem by (by apply NoDup_filter_ids).
    destruct (load_order_cases rem Hrem) as [(order & -> & Hok)|(c' & -> & Hc')]; cbn [mbind option_bind].
    + do 3 eexists. split; [done|]. split; [done|]. intros _ id p H. specialize (H2 id p H).
      destruct (decide (id ∈ c)) as [|Hnc]; [by left|]. right. split; [done|].
      destruct (Hin id p H) as [Hn Hid]. rewrite <- Hid. eapply order_elem; [done|].
      apply list_elem_of_filter. by rewrite Hid.
    + do 3 eexists. split; [done|]. split; [done|]. intros Hone. exfalso.
      apply cycle_not_acyclic in Hc'. apply Hc'. by apply Hone.
Qed.

Lemma install_plugins (r : Registry) db_ok p r' res :
  install sha256 hex_encode r db_ok p = Some (r', res) ->
  (forall x, x <> info_id p -> plugins r' !! x = plugins r !! x)
  /\ (res = Ok tt -> plugins r' !! info_id p = Some (next_address r, p)).
Proof.
  unfold install. destruct (check_namespace r p) as [[]|]; [|by intros [= <- <-]].
  destruct (check_language r p) as [[]|]; [|by intros [= <- <-]].
  destruct (try_each _ _) as [[]|]; [|by intros [= <- <-]].
  destruct (validate_install _ _) as [[[]|]|]; cbn [mbind option_bind]; [|by intros [= <- <-]|done].
  intros [= <- <-]. rewrite register_plugins. split.
  - intros x Hne. by apply lookup_insert_ne.
  - intros _. apply lookup_insert_eq.
Qed.

Definition settled (r' : Registry) (fs : list Failure) (id : string) (p : LoadedPlugin) : Prop :=
  (exists a, plugins r' !! id = Some (a, p)) \/ id ∈ fs.*1.

Lemma install_each_spec db_ok order : forall (r : Registry) pending failures,
  registry_ok r -> (forall id p, pending !! id = Some p -> info_id p = id) ->
  exists r' fs, install_each sha256 hex_encode r db_ok order pending failures = Some (r', fs)
    /\ registry_ok r' /\ (forall f, f ∈ failures -> f ∈ fs)
    /\ (forall id, pending !! id = None -> plugins r' !! id = plugins r !! id)
    /\ (forall id p, pending !! id = Some p -> id ∈ order -> settled r' fs id p).
Proof.
  induction order as [|x order IH]; intros r pending failures Hr Hk; cbn [install_each].
  { do 2 eexists. split_and!; [done|done|done|done|]. intros id p _ ?%not_elem_of_nil. done. }
  destruct (pending !! x) as [px|] eqn:Hx.
  - destruct (install_spec r db_ok px Hr) as (res & Hi & _ & Hr1). rewrite Hi. cbn [mbind option_bind].
    pose proof (install_plugins r db_ok px _ _ Hi) as [Hoth Hok]. pose proof (Hk x px Hx) as Hid.
    set (r1 := match res with Ok _ => register r db_ok px | Err _ => r end) in *.
    set (failures1 := match res with Ok _ => failures | Err e => failures ++ [(x, e)] end).
    destruct (IH r1 (delete x pending) failures1) as (r' & fs & He & Hr' & Hf & Hsame & Hset); [done| |].
    { intros id p Hd. apply lookup_delete_Some in Hd as [_ Hd]. by apply Hk. }
    exists r', fs. split_and!; [done|done| | |].
    + intros f Hin. apply Hf. unfold failures1. destruct res; [done|]. apply elem_of_app. by left.
    + intros id Hn. rewrite Hsame; [|by rewrite lookup_delete_None; right]. apply Hoth. congruence.
    + intros id p Hp Hin. destruct (decide (id = x)) as [->|Hne].
      * assert (p = px) as -> by congruence. assert (plugins r' !! x = plugins r1 !! x) as Hsx.
        { apply Hsame. apply lookup_delete_eq. }
        destruct res as [[]|e].
        -- left. exists (next_address r). rewrite Hsx, <- Hid. by apply Hok.
        -- right. apply list_elem_of_fmap. exists (x, e). split; [done|]. apply Hf, elem_of_app. right. by left.
      * apply elem_of_cons in Hin as [|Hin]; [done|]. apply Hset; [|done]. by rewrite lookup_delete_ne.
  - destruct (IH r pending failures Hr Hk) as (r' & fs & He & Hr' & Hf & Hsame & Hset).
    exists r', fs. split_and!; [done..|]. intros id p Hp Hin.
    apply elem_of_cons in Hin as [->|Hin]; [congruence|]. by apply Hset.
Qed.

Lemma sort_failures_perm l : sort_failures l ≡ₚ l.
Proof.
  assert (forall x l, insert_failure x l ≡ₚ x :: l) as H.
  { intros x. induction l0 as [|y l0 IH]; cbn [insert_failure]; [done|].
    destruct (bool_decide _); [done|]. rewrite IH. apply Permutation_swap. }
  induction l as [|x l IH]; [done|]. cbn. by rewrite H, IH.
Qed.

Lemma register_all_spec (r : Registry) db_ok ps :
  registry_ok r ->
  exists r' fs, register_all sha256 hex_encode r db_ok ps = Some (r', fs) /\ registry_ok r'
    /\ (one_cycle (batch_nodes r (pending_of ps)) ->
        forall id p, pending_of ps !! id = Some p -> settled r' fs id p).
Proof.
  intros Hr. unfold register_all.
  destruct (batch_order_spec r (pending_of ps)) as (order & pending & fl & -> & Hsub & Hall);
    [apply Hr|apply pending_of_keyed|]. cbn [mbind option_bind].
  destruct (install_each_spec db_ok order r pending fl Hr) as (r' & fs & -> & Hr' & Hf & _ & Hset).
  { intros id p H. by apply Hsub, pending_of_keyed in H. }
  cbn [mbind option_bind]. do 2 eexists. split; [done|]. split; [done|]. intros Hone id p Hp.
  unfold settled. setoid_rewrite sort_failures_perm. destruct (Hall Hone id p Hp) as [Hfail|[Hp' Ho]].
  - right. apply list_elem_of_fmap in Hfail as (f & -> & Hin). by apply list_elem_of_fmap_2, Hf.
  - by apply Hset.
Qed.

(** ** The properties of the registry *)

(** The operations the admin API and the boot use, and those of running
    scripts. *)
Inductive checked_step : Registry -> Registry -> Prop :=
| checked_install r db_ok p r' res :
    install sha256 hex_encode r db_ok p = Some (r', res) -> checked_step r r'
| checked_uninstall r id force r' res :
    uninstall sha256 hex_encode r id force = Some (r', res) -> checked_step r r'
| checked_batch r db_ok ps r' fs :
    register_all sha256 hex_encode r db_ok ps = Some (r', fs) -> checked_step r r'
| checked_store r plugin source artifact : checked_step r (store_prepared r plugin source artifact).1
| checked_forget r id source : checked_step r (forget r id source).

Lemma same_plugins_sound (r r' : Registry) :
  plugins r' = plugins r -> stamps_ok r' -> registry_ok r -> registry_ok r'.
Proof.
  intros Hp Hs [_ Hg Hc]. split; [done| |by rewrite Hp]. by rewrite nodes_map, Hp, <- nodes_map.
Qed.

Lemma store_prepared_plugins (r : Registry) plugin source artifact :
  plugins (store_prepared r plugin source artifact).1 = plugins r.
Proof. unfold PluginRegistry.store_prepared. by destruct (artifact_stamp_for r plugin). Qed.

Lemma checked_step_sound r r' : checked_step r r' -> registry_ok r -> registry_ok r'.
Proof.
  intros [q db_ok p q' res H|q id force q' res H|q db_ok ps q' fs H|q plugin source artifact|q id source] Hr.
  - destruct (install_spec q db_ok p Hr) as (res' & Hi & _ & Hok). congruence.
  - destruct (plugins q !! id) as [a|] eqn:Ha.
    + destruct (uninstall_spec q id force Hr) as (r1 & res1 & Hu & Hok & _); [by eexists|]. congruence.
    + unfold uninstall in H. rewrite Ha in H. by injection H as <- <-.
  - destruct (register_all_spec q db_ok ps Hr) as (r1 & fs1 & Hu & Hok & _). congruence.
  - eapply same_plugins_sound; [|apply store_prepared_ok; apply Hr|done]. apply store_prepared_plugins.
  - eapply same_plugins_sound; [|apply forget_ok; apply Hr|done]. done.
Qed.

(** Whatever is installed, uninstalled, loaded in batches and run, from an
    empty registry on: the installed plugins have one entry per id, every
    dependency installed at an accepted version and no dependency cycle; no two
    claim one namespace, language or file extension; stamps and artifacts belong
    to what is installed; and no operation ever panics. *)
Theorem registry_stays_sound r :
  rtc checked_step new_registry r ->
  registry_ok r
  /\ (forall db_ok p, is_Some (install sha256 hex_encode r db_ok p))
  /\ (forall id force, is_Some (uninstall sha256 hex_encode r id force))
  /\ (forall db_ok ps, is_Some (register_all sha256 hex_encode r db_ok ps)).
Proof.
  intros Hreach. assert (registry_ok r) as Hr.
  { remember new_registry as r0 eqn:E. assert (registry_ok r0) as H0 by (subst; apply new_registry_sound).
    clear E. induction Hreach as [|x y z Hxy _ IH]; [done|]. apply IH. by eapply checked_step_sound. }
  split_and!; [done|..].
  - intros db_ok p. destruct (install_spec r db_ok p Hr) as (res & -> & _). by eexists.
  - intros id force. destruct (plugins r !! id) as [a|] eqn:Ha.
    + destruct (uninstall_spec r id force Hr) as (r1 & res1 & -> & _); [by eexists|by eexists].
    + unfold uninstall. rewrite Ha. by eexists.
  - intros db_ok ps. destruct (register_all_spec r db_ok ps Hr) as (r1 & fs1 & -> & _). by eexists.
Qed.

(** An install succeeds exactly when it may: the plugin clashes with no
    other and the resulting set of plugins is sound.  On success the plugin is
    registered and every other one untouched; on an error nothing changes. *)
Theorem install_exact (r : Registry) db_ok p :
  registry_ok r ->
  exists r' res, install sha256 hex_encode r db_ok p = Some (r', res)
    /\ (res = Ok tt <-> no_clash r p /\ graph_ok (with_candidate (nodes r) (node_of p)))
    /\ match res with
       | Ok _ => plugins r' = <[info_id p := (next_address r, p)]> (plugins r)
       | Err _ => r' = r
       end.
Proof.
  intros Hr. destruct (install_spec r db_ok p Hr) as (res & Hi & Hiff & _).
  do 2 eexists. split; [exact Hi|]. split; [done|]. destruct res; [apply register_plugins|done].
Qed.

(** An uninstall either removes [id] - with [force], together with exactly
    the plugins that need it - leaving the rest in place and the registry
    sound, or, without [force], is refused because something installed depends
    on [id], names it, and changes nothing. *)
Theorem uninstall_exact (r : Registry) id force :
  registry_ok r -> is_Some (plugins r !! id) ->
  exists r' res, uninstall sha256 hex_encode r id force = Some (r', res) /\ registry_ok r'
    /\ uninstalled r id force r' res.
Proof. apply uninstall_spec. Qed.

(** A batch leaves a sound registry, and when its plugins hold at most one
    dependency cycle at a time every one of them ends up installed or among the
    reported failures. *)
Theorem batch_installs_or_reports (r : Registry) db_ok ps :
  registry_ok r ->
  exists r' fs, register_all sha256 hex_encode r db_ok ps = Some (r', fs) /\ registry_ok r'
    /\ (one_cycle (batch_nodes r (pending_of ps)) ->
        forall id p, pending_of ps !! id = Some p -> settled r' fs id p).
Proof. apply register_all_spec. Qed.

(** Under any sequence of registrations (the unchecked ones too),
    removals, stores and evictions, an artifact handed out for an interpreter
    carries the stamp of the very build registered under that id now: its id,
    its version and the digest of its module.  A run that still holds a
    replaced build is told it has no stamp and can store nothing. *)
Theorem artifacts_match_build (r : Registry) :
  rtc registry_step new_registry r ->
  (forall id source art, cache_lookup sha256 str_digest (prepared r) id source = Some (Some art) ->
     exists a, plugins r !! id = Some a /\ plugin_type a.2 = Interpreter
       /\ interpreter art = id /\ version art = st_version (stamp_of a.2))
  /\ (forall arc source artifact, plugins r !! info_id arc.2 <> Some arc ->
        (forall id a, plugins r !! id = Some a -> a.1 = arc.1 -> a = arc) ->
        store_prepared r arc source artifact = (r, None)).
Proof.
  intros Hreach. apply reachable_ok in Hreach as Hs. pose proof Hs as [Hk _ _ Hst _ Hp _]. split.
  - intros id source art Hl. destruct (Hp _ _ Hl) as (a & s & Hs1 & Hm). cbn in Hs1.
    apply Hst in Hs1 as (Ha & Ht & ->). specialize (Hm art eq_refl). unfold stamp_matches in Hm. bool_prop.
    exists a. split_and!; try done. cbn in *. rewrite <- (Hk id a Ha). done.
  - intros arc source artifact Hne Hid. unfold PluginRegistry.store_prepared, artifact_stamp_for.
    destruct (stamps r !! info_id arc.2) as [[cur s]|] eqn:Hs1; [|done]. cbn [mbind option_bind].
    destruct (Nat.eqb_spec cur.1 arc.1) as [He|]; [|done]. exfalso.
    apply Hst in Hs1 as (Ha & _ & _). by rewrite (Hid _ _ Ha He) in Ha.
Qed.

End RegistryProofs.

(** Operations on the cache alone. *)
Inductive cache_step : Entries -> Entries -> Prop :=
| cache_stores e k c : cache_step e (cache_store e k c)
| cache_forgets e k : cache_step e (entries_remove e k)
| cache_evicts e id : cache_step e (cache_evict e id).

(** The cache of prepared artifacts stays within its bounds under any
    sequence of stores and evictions: its byte count is exactly the weight of
    what it holds (so the unsigned counter never underflows), it never holds
    more than [PREPARED_CACHE_CAPACITY] entries, and it exceeds
    [PREPARED_CACHE_MAX_BYTES] only while it holds a single entry. *)
Theorem prepared_cache_bounded e :
  rtc cache_step {| entry_map := ∅; entry_bytes := 0 |} e -> cache_ok e /\ 0 <= entry_bytes e.
Proof.
  remember {| entry_map := ∅; entry_bytes := 0 |} as e0 eqn:E. intros Hr.
  assert (cache_ok e0) as H0 by (subst; by split).
  clear E. induction Hr as [e|x y z Hxy _ IH].
  - split; [done|]. destruct H0 as [-> _ _]. apply total_nonneg.
  - apply IH. destruct Hxy; [by apply cache_ok_store|by apply cache_ok_remove|by apply cache_ok_removes].
Qed.

(** The row written for a plugin reloads as the registry release it was
    installed from, all but its version, which is read from the verified
    manifest; a plugin that was not fetched from a registry reloads as none,
    whatever release the row described before. *)
Theorem stored_release_reloads old p :
  registry_install (upsert_row old (plugin_row p)) =
  match plugin_source p with
  | Url url _ (Some r) =>
      Some {| ri_did := ri_did r; ri_name := ri_name r; ri_channel := ri_channel r; ri_version := EmptyString;
              ri_version_uri := ri_version_uri r; ri_manifest_cid := ri_manifest_cid r;
              ri_manifest_url := ri_manifest_url r; ri_manifest_blob_cid := ri_manifest_blob_cid r;
              ri_package_url := url; ri_package_cid := ri_package_cid r |}
  | _ => None
  end.
Proof.
  unfold plugin_row, upsert_row. destruct (plugin_source p) as [path|url sha [r|]]; destruct old as [o|]; try done.
  all: cbn; unfold registry_install; cbn; by destruct (sp_registry_did o) as [d|], (sp_registry_name o) as [n|].
Qed.

(** ** Two behaviours the documentation rules out *)

(** A replaced entry can still empty the cache: the entry is taken out before
    the budget is checked, so storing a bigger artifact for a source already
    held drops every other script's artifact. *)
Theorem overwrite_empties_cache e k old c :
  entry_map e !! k = Some old -> 1 < map_len (entry_map e) ->
  PREPARED_CACHE_MAX_BYTES < entry_bytes e - weight old + weight c ->
  entry_map (cache_store e k c) = {[k := c]}.
Proof.
  intros Hk Hl Hb. unfold cache_store. rewrite entries_remove_map, map_len_delete, Hk.
  unfold entries_remove. rewrite Hk. cbn [entry_bytes].
  rewrite (proj2 (Z.eqb_neq _ _)) by lia. rewrite (proj2 (Z.ltb_lt _ _) Hb), orb_true_r. done.
Qed.

Section Samples.

#[local] Instance any_semver : Semver :=
  {| Version := string; VersionReq := string; parse_version := Some; parse_req := Some;
     req_matches := fun r v => (r =s "*") || (r =s v) |}.

Definition sample_sha (l : list Z) : list Z := l.
Definition sample_hex (_ : list Z) : string := "0123456789abcdef0123".
Definition sample_digest (s : string) : list Z := [Z.of_nat (String.length s)].

Definition sample_plugin (id : string) (t : PluginType) (deps : list string) : LoadedPlugin :=
  {| info_id := id; info_version := "1"; info_api_version := "2"; plugin_source := File id; wasm_bytes := [];
     manifest := Some {| m_id := id; m_plugin_type := t;
                         m_dependencies := (fun d => {| dep_id := d; dep_version := "*" |}) <$> deps;
                         m_namespace := None; m_language_id := Some id; m_file_extension := Some id;
                         m_extensions := []; m_supports_libraries := [] |} |}.

Abbreviation empty := (@new_registry unit).

(** Two cycles in one batch: the first is reported, and then the order of the
    rest is given up, so that neither the second cycle nor the independent
    plugin [e] is installed or reported. *)
Theorem batch_drops_silently :
  exists r fs, register_all sample_sha sample_hex empty true
      [sample_plugin "a" Library ["b"]; sample_plugin "b" Library ["a"];
       sample_plugin "c" Library ["d"]; sample_plugin "d" Library ["c"]; sample_plugin "e" Library []] = Some (r, fs)
    /\ plugins r = ∅ /\ fst <$> fs = ["a"; "b"].
Proof.
  eexists _, _. split; [vm_compute; reflexivity|]. split; [vm_compute; reflexivity|reflexivity].
Qed.

Definition sample_registry := register sample_sha sample_hex empty true (sample_plugin "lua" Interpreter []).

Lemma sample_install :
  install sample_sha sample_hex empty true (sample_plugin "lua" Interpreter []) = Some (sample_registry, Ok tt).
Proof. vm_compute. reflexivity. Qed.

Lemma registry_stays_sound_witness : registry_ok sample_sha sample_hex sample_registry.
Proof.
  apply (registry_stays_sound sample_sha sample_hex sample_digest sample_registry). apply rtc_once.
  exact (checked_install sample_sha sample_hex sample_digest empty true (sample_plugin "lua" Interpreter [])
    sample_registry (Ok tt) sample_install).
Defined.

Lemma sample_registry_sound : registry_ok sample_sha sample_hex sample_registry.
Proof.
  apply (checked_step_sound sample_sha sample_hex sample_digest empty).
  - exact (checked_install sample_sha sample_hex sample_digest empty true (sample_plugin "lua" Interpreter [])
      sample_registry (Ok tt) sample_install).
  - apply new_registry_sound.
Qed.

Lemma install_exact_witness :
  exists r' res, install sample_sha sample_hex sample_registry true (sample_plugin "lib" Library []) = Some (r', res)
    /\ (res = Ok tt <-> no_clash sample_registry (sample_plugin "lib" Library [])
          /\ graph_ok (with_candidate (nodes sample_registry) (node_of (sample_plugin "lib" Library []))))
    /\ match res with
       | Ok _ => plugins r' = <["lib" := (1%nat, sample_plugin "lib" Library [])]> (plugins sample_registry)
       | Err _ => r' = sample_registry
       end.
Proof. apply (install_exact sample_sha sample_hex sample_registry). apply sample_registry_sound. Defined.

Lemma uninstall_exact_witness :
  exists r' res, uninstall sample_sha sample_hex sample_registry "lua" false = Some (r', res)
    /\ registry_ok sample_sha sample_hex r' /\ uninstalled sample_registry "lua" false r' res.
Proof.
  apply (uninstall_exact sample_sha sample_hex sample_registry); [apply sample_registry_sound|].
  exists (0%nat, sample_plugin "lua" Interpreter []). vm_compute. reflexivity.
Defined.

Lemma batch_installs_or_reports_witness :
  exists r' fs, register_all sample_sha sample_hex sample_registry true [sample_plugin "lib" Library ["lua"]] = Some (r', fs)
    /\ registry_ok sample_sha sample_hex r'
    /\ (one_cycle (batch_nodes sample_registry (pending_of [sample_plugin "lib" Library ["lua"]])) ->
        forall id p, pending_of [sample_plugin "lib" Library ["lua"]] !! id = Some p -> settled r' fs id p).
Proof. apply (batch_installs_or_reports sample_sha sample_hex sample_registry). apply sample_registry_sound. Defined.

Definition sample_artifact : PreparedArtifact :=
  {| interpreter := "forged"; version := "9"; engine := "e"; format := "f"; art_bytes := [1; 2; 3]; source_map := None |}.

Definition sample_prepared :=
  (store_prepared sample_sha sample_digest sample_registry (0%nat, sample_plugin "lua" Interpreter []) "return 1"
     (Some sample_artifact)).1.

Lemma artifacts_match_build_witness :
  exists art a, cache_lookup sample_sha sample_digest (prepared sample_prepared) "lua" "return 1" = Some (Some art)
    /\ plugins sample_prepared !! "lua" = Some a /\ plugin_type a.2 = Interpreter
    /\ interpreter art = "lua" /\ version art = st_version (stamp_of sample_sha sample_hex a.2).
Proof.
  set (art := stamp_apply (stamp_of sample_sha sample_hex (sample_plugin "lua" Interpreter [])) sample_artifact).
  assert (cache_lookup sample_sha sample_digest (prepared sample_prepared) "lua" "return 1" = Some (Some art)) as Hl
    by (vm_compute; reflexivity).
  destruct (proj1 (artifacts_match_build sample_sha sample_hex sample_digest sample_prepared
    (rtc_l _ _ _ _ (step_register sample_sha sample_hex sample_digest empty true (sample_plugin "lua" Interpreter []))
      (rtc_once _ _ (step_store sample_sha sample_hex sample_digest sample_registry
        (0%nat, sample_plugin "lua" Interpreter []) "return 1" (Some sample_artifact)))))
    "lua" "return 1" art Hl) as (a & H1 & H2 & H3 & H4).
  exists art, a. split_and!; assumption.
Defined.

Lemma prepared_cache_bounded_witness :
  cache_ok (cache_store {| entry_map := ∅; entry_bytes := 0 |} ("lua", [1]) (Some sample_artifact)).
Proof. apply (prepared_cache_bounded _). apply rtc_once, cache_stores. Defined.

Definition sized (n : Z) : Cached :=
  Some {| interpreter := "lua"; version := "1"; engine := "e"; format := "f"; art_bytes := replicate (Z.to_nat n) 0;
          source_map := None |}.

Definition sample_cache : Entries :=
  {| entry_map := <[("lua", [1]) := None]> {[("lua", [2]) := None]}; entry_bytes := 0 |}.

Lemma overwrite_empties_cache_witness :
  entry_map (cache_store sample_cache ("lua", [1]) (sized (PREPARED_CACHE_MAX_BYTES + 1)))
  = {[("lua", [1]) := sized (PREPARED_CACHE_MAX_BYTES + 1)]}.
Proof.
  apply (overwrite_empties_cache sample_cache ("lua", [1]) None).
  - reflexivity.
  - reflexivity.
  - unfold weight, sized. cbn [art_bytes source_map entry_bytes sample_cache].
    rewrite length_replicate, Z2Nat.id by (unfold PREPARED_CACHE_MAX_BYTES; lia). lia.
Defined.

End Samples.
