(* ===== verification/RecordCodec.v ===== *)
(** * The record codec

    [src/record_store/codec.rs]: CIDs as bytes, timestamps as microseconds,
    record URIs and reference targets as their parts.  Texts are their UTF-8
    bytes.  The calendar of the crate [chrono] is the interface [Chrono], with
    the proleptic Gregorian calendar as an instance; its formatting of fields
    is written out. *)

From stdpp Require Import list strings pretty.
From Stdlib Require Import ZArith.
From S2P Require Import Prelude RustStr Words Utf8.

#[local] Open Scope Z_scope.

(** ** Base32 *)

Definition BASE32 : string := "abcdefghijklmnopqrstuvwxyz234567".

Definition CID_TEXT_MARKER : Z := 0.

(** [BASE32[i] as char]; the index is below 32. *)
Definition base32_char (i : Z) : ascii := default "a"%char (String.get (Z.to_nat i) BASE32).

(** [BASE32.iter().position(|&a| a == c)]. *)
Fixpoint position_in (c : ascii) (s : string) : option Z :=
  match s with
  | EmptyString => None
  | String a s' => if a =c c then Some 0 else Z.succ <$> position_in c s'
  end.

(** The inner [while bits >= 5]; [bits] is at most 12, so two rounds are
    enough. *)
Fixpoint emit (fuel : nat) (buffer bits : Z) (out : string) : Z * string :=
  match fuel with
  | O => (bits, out)
  | S fuel' =>
      if 5 <=? bits
      then emit fuel' buffer (bits - 5) (out +:+ String (base32_char (Z.land (Z.shiftr buffer (bits - 5)) 31)) EmptyString)
      else (bits, out)
  end.

Definition encode_step (st : Z * Z * string) (byte : Z) : Z * Z * string :=
  let '(buffer, bits, out) := st in
  let buffer := Z.lor (wrap64 (Z.shiftl buffer 8)) byte in
  let '(bits, out) := emit 2 buffer (bits + 8) out in
  (Z.land buffer (Z.shiftl 1 bits - 1), bits, out).

Definition base32_encode (bytes : list Z) : string :=
  let '(buffer, bits, out) := foldl encode_step (0, 0, EmptyString) bytes in
  if 0 <? bits then out +:+ String (base32_char (Z.land (wrap64 (Z.shiftl buffer (5 - bits))) 31)) EmptyString
  else out.

Definition decode_step (st : option (Z * Z * list Z)) (c : ascii) : option (Z * Z * list Z) :=
  '(buffer, bits, out) ← st;
  value ← position_in c BASE32;
  let buffer := Z.lor (wrap64 (Z.shiftl buffer 5)) value in
  let bits := bits + 5 in
  if 8 <=? bits then
    let out := out ++ [Z.land (Z.shiftr buffer (bits - 8)) 0xff] in
    let bits := bits - 8 in
    Some (Z.land buffer (Z.shiftl 1 bits - 1), bits, out)
  else Some (buffer, bits, out).

Definition base32_decode (text : string) : option (list Z) :=
  snd <$> foldl decode_step (Some (0, 0, [])) (String.list_ascii_of_string text).

(** ** CIDs *)

Definition encode_cid (text : string) : list Z :=
  if text =s EmptyString then []
  else
    let marked := CID_TEXT_MARKER :: str_bytes text in
    match strip_prefix "b" text with
    | None => marked
    | Some rest =>
        match base32_decode rest with
        | None => marked
        | Some bytes =>
            if bool_decide (head bytes = Some 1) && (base32_encode bytes =s rest) then bytes else marked
        end
    end.

Definition decode_cid (bytes : list Z) : string :=
  match bytes with
  | [] => EmptyString
  | b :: rest =>
      if b =? CID_TEXT_MARKER then bytes_str (from_utf8_lossy rest)
      else "b" +:+ base32_encode bytes
  end.

(** ** Timestamps *)

(** The fields of a UTC instant. *)
Record Civil : Type := {
  year : Z; month : Z; day : Z; hour : Z; minute : Z; second : Z; micro : Z;
}.

(** [NaiveDate::from_ymd_opt], as days since the epoch, and the fields of
    [DateTime::from_timestamp_micros]. *)
Class Chrono : Type := {
  from_ymd_opt : Z -> Z -> Z -> option Z;
  from_timestamp_micros : Z -> option Civil;
}.

Definition MIN_MICROS : Z := -62167219200000000.
Definition MAX_MICROS : Z := 253402300799999999.

(** Within the years 0 to 9999 the fields are in their ranges, name a date
    [from_ymd_opt] accepts, and add up to the instant. *)
Class ChronoSpec (C : Chrono) : Prop := {
  civil_fields : forall us, MIN_MICROS <= us <= MAX_MICROS ->
    exists c days, from_timestamp_micros us = Some c
      /\ 0 <= year c < 10000 /\ 0 <= month c < 100 /\ 0 <= day c < 100 /\ 0 <= hour c < 24 /\ 0 <= minute c < 60
      /\ 0 <= second c < 60 /\ 0 <= micro c < 1000000
      /\ from_ymd_opt (year c) (month c) (day c) = Some days
      /\ us = (days * 86400 + hour c * 3600 + minute c * 60 + second c) * 1000000 + micro c;
}.

Definition digit_value (c : ascii) : Z := Z.of_N (code c) - 48.

(** The nested function [digits]. *)
Definition digits (bytes : list ascii) : option Z :=
  match bytes with
  | [] => None
  | _ =>
      foldl (fun acc b => n ← acc; if is_ascii_digit b then Some (n * 10 + digit_value b) else None)
        (Some 0) bytes
  end.

Definition is_at (b : list ascii) (i : nat) (c : ascii) : bool := bool_decide (b !! i = Some c).

Fixpoint take_digits (l : list ascii) : list ascii :=
  match l with
  | c :: l' => if is_ascii_digit c then c :: take_digits l' else []
  | [] => []
  end.

(** The fraction, in nanoseconds, and what follows it. *)
Definition parse_fraction (rest : list ascii) : option (Z * list ascii) :=
  match rest with
  | "."%char :: fraction =>
      let len := length (take_digits fraction) in
      let kept := take (Nat.min len 9) fraction in
      n ← digits kept;
      Some (n * 10 ^ (9 - Z.of_nat (length kept)), drop len fraction)
  | _ => Some (0, rest)
  end.

Definition parse_zone (zone : list ascii) : option (Z * Z) :=
  match zone with
  | [_; _] => h ← digits zone; Some (h, 0)
  | [h1; h2; m1; m2] | [h1; h2; ":"%char; m1; m2] =>
      h ← digits [h1; h2];
      m ← digits [m1; m2];
      Some (h, m)
  | _ => None
  end.

(** The offset from UTC in seconds. *)
Definition parse_offset (rest : list ascii) : option Z :=
  match rest with
  | [] => Some 0
  | sign :: zone =>
      if ((sign =c "Z"%char) || (sign =c "z"%char)) && bool_decide (zone = []) then Some 0
      else if (sign =c "+"%char) || (sign =c "-"%char) then
        '(h, m) ← parse_zone zone;
        if (23 <? h) || (59 <? m) then None
        else if sign =c "-"%char then Some (- (h * 3600 + m * 60))
        else Some (h * 3600 + m * 60)
      else None
  end.

Section Micros.
Context `{Ch : Chrono}.

Definition parse_micros (text : string) : option Z :=
  let b := String.list_ascii_of_string text in
  if (length b <? 19)%nat || negb (is_at b 4 "-") || negb (is_at b 7 "-")
     || negb (is_at b 10 "T" || is_at b 10 "t" || is_at b 10 " ")
     || negb (is_at b 13 ":") || negb (is_at b 16 ":")
  then None
  else
    let field at_ len := digits (take len (drop at_ b)) in
    year ← field 0%nat 4%nat;
    month ← field 5%nat 2%nat;
    day ← field 8%nat 2%nat;
    hour ← field 11%nat 2%nat;
    minute ← field 14%nat 2%nat;
    second ← field 17%nat 2%nat;
    if (23 <? hour) || (59 <? minute) || (60 <? second) then None
    else
      days ← from_ymd_opt year month day;
      '(nanos, rest) ← parse_fraction (drop 19 b);
      offset ← parse_offset rest;
      let seconds := days * 86400 + hour * 3600 + minute * 60 + second - offset in
      let us := seconds * 1000000 + (nanos + 500) / 1000 in
      if (MIN_MICROS <=? us) && (us <=? MAX_MICROS) then Some us else None.

(** [n] in [w] decimal digits, padded with zeros. *)
Fixpoint pad (w : nat) (n : Z) : list ascii :=
  match w with
  | O => []
  | S w' => pad w' (n / 10) ++ [ascii_of_N (Z.to_N (n mod 10 + 48))]
  end.

(** [%Y-%m-%dT%H:%M:%S%.6f+00:00], for a year of at most four digits. *)
Definition format_civil (c : Civil) : string :=
  String.string_of_list_ascii
    (pad 4 (year c) ++ ["-"%char] ++ pad 2 (month c) ++ ["-"%char] ++ pad 2 (day c) ++ ["T"%char]
     ++ pad 2 (hour c) ++ [":"%char] ++ pad 2 (minute c) ++ [":"%char] ++ pad 2 (second c)
     ++ ["."%char] ++ pad 6 (micro c) ++ String.list_ascii_of_string "+00:00").

Definition render_micros (us : Z) : string :=
  match from_timestamp_micros us with
  | Some dt =>
      if (MIN_MICROS <=? us) && (us <=? MAX_MICROS) then format_civil dt
      else "invalid timestamp " +:+ pretty us
  | None => "invalid timestamp " +:+ pretty us
  end.

End Micros.

(** ** Record URIs and reference targets *)

Definition slash : ascii := "/".

Definition parse_record_uri (uri : string) : option (string * string * string) :=
  rest ← strip_prefix "at://" uri;
  match str_split slash rest with
  | did :: collection :: rkey :: more =>
      match more with
      | _ :: _ => None
      | [] =>
          if (did =s EmptyString) || (collection =s EmptyString) || (rkey =s EmptyString) then None
          else Some (did, collection, rkey)
      end
  | _ => None
  end.

Inductive RefTarget : Type :=
| Record_ (did collection rkey : string)
| At (rest : string)
| Text (text : string).

Definition REF_TARGET_AT : Z := 0.
Definition REF_TARGET_TEXT : Z := -1.

Definition parse (target : string) : RefTarget :=
  match parse_record_uri target with
  | Some (did, collection, rkey) => Record_ did collection rkey
  | None =>
      match strip_prefix "at://" target with
      | Some rest => At rest
      | None => Text target
      end
  end.

Definition did_text (t : RefTarget) : string :=
  match t with Record_ did _ _ => did | At rest => rest | Text text => text end.

Definition collection (t : RefTarget) : option string :=
  match t with Record_ _ c _ => Some c | At _ | Text _ => None end.

Definition rkey (t : RefTarget) : string :=
  match t with Record_ _ _ r => r | At _ | Text _ => EmptyString end.

Definition kind (t : RefTarget) : Z :=
  match t with Record_ _ _ _ => 1 | At _ => REF_TARGET_AT | Text _ => REF_TARGET_TEXT end.

Definition render (t : RefTarget) : string :=
  match t with
  | Record_ did c r => "at://" +:+ did +:+ "/" +:+ c +:+ "/" +:+ r
  | At rest => "at://" +:+ rest
  | Text text => text
  end.

Definition ref_part (target : string) (part : Z) : option string :=
  let parsed := parse target in
  if part =? 0 then Some (did_text parsed)
  else if part =? 1 then collection parsed
  else if part =? 2 then Some (rkey parsed)
  else if part =? 3 then Some (pretty (kind parsed))
  else None.

(** ** Base32 reads back *)

(** Digits of a base, most significant first. *)
Definition value_in (base : Z) (l : list Z) : Z := foldl (fun acc d => acc * base + d) 0 l.

Lemma value_in_snoc base l d : value_in base (l ++ [d]) = value_in base l * base + d.
Proof. unfold value_in. by rewrite foldl_app. Qed.

Lemma value_in_inj base l l' :
  0 < base -> Forall (fun d => 0 <= d < base) l -> Forall (fun d => 0 <= d < base) l' ->
  length l = length l' -> value_in base l = value_in base l' -> l = l'.
Proof.
  intros Hb. revert l'. induction l as [|d l IH] using rev_ind; intros l' Hl Hl' Hlen Hv.
  - by destruct l'.
  - destruct l' as [|d' l' _] using rev_ind; [rewrite length_app in Hlen; simpl in Hlen; lia|].
    rewrite !value_in_snoc in Hv. rewrite !length_app in Hlen. simpl in Hlen.
    apply Forall_app in Hl as [Hl Hd]. apply Forall_app in Hl' as [Hl' Hd'].
    apply Forall_cons in Hd as [Hd _]. apply Forall_cons in Hd' as [Hd' _].
    assert (value_in base l = value_in base l' /\ d = d') as [Hv' ->].
    { assert (value_in base l = value_in base l') by nia. split; [done|nia]. }
    f_equal. apply IH; [done|done|lia|done].
Qed.

Definition chars (V : list Z) : string := String.string_of_list_ascii (base32_char <$> V).
Definition digits32 (V : list Z) : Prop := Forall (fun d => 0 <= d < 32) V.

Lemma string_of_list_app l l' :
  String.string_of_list_ascii (l ++ l') = String.string_of_list_ascii l +:+ String.string_of_list_ascii l'.
Proof. induction l as [|c l IH]; simpl; [done|]. by rewrite IH. Qed.

Lemma chars_snoc V d : chars (V ++ [d]) = chars V +:+ String (base32_char d) EmptyString.
Proof. unfold chars. by rewrite fmap_app, string_of_list_app. Qed.

Lemma position_base32 d : 0 <= d < 32 -> position_in (base32_char d) BASE32 = Some d.
Proof.
  intros Hd. assert (Forall (fun d => position_in (base32_char d) BASE32 = Some d) (seqZ 0 32)) as H
    by (vm_compute; repeat constructor).
  rewrite Forall_forall in H. apply H, elem_of_seqZ. lia.
Qed.

Lemma land_mask x n : 0 <= n -> Z.land x (Z.shiftl 1 n - 1) = x mod 2 ^ n.
Proof. intros Hn. rewrite <- Z.land_ones by done. unfold Z.ones. by rewrite Z.sub_1_r. Qed.

(** Splitting off the top digit of a buffer. *)
Lemma split_digit buffer bits w :
  0 <= w <= bits -> 0 <= buffer ->
  buffer mod 2 ^ bits = (buffer / 2 ^ (bits - w)) mod 2 ^ w * 2 ^ (bits - w) + buffer mod 2 ^ (bits - w).
Proof.
  intros Hw Hb. replace (2 ^ bits) with (2 ^ (bits - w) * 2 ^ w) by (rewrite <- Z.pow_add_r by lia; f_equal; lia).
  pose proof (Z.pow_pos_nonneg 2 w). pose proof (Z.pow_pos_nonneg 2 (bits - w)). rewrite Z.rem_mul_r by lia. lia.
Qed.

Lemma emit_spec fuel : forall buffer bits V,
  0 <= buffer -> 0 <= bits < 5 * Z.of_nat fuel + 5 -> digits32 V ->
  exists bits' V', emit fuel buffer bits (chars V) = (bits', chars V') /\ digits32 V' /\ 0 <= bits' < 5
    /\ 5 * len V' + bits' = 5 * len V + bits
    /\ value_in 32 V' * 2 ^ bits' + buffer mod 2 ^ bits' = value_in 32 V * 2 ^ bits + buffer mod 2 ^ bits.
Proof.
  induction fuel as [|fuel IH]; intros buffer bits V Hbuf Hbits HV; cbn [emit].
  - exists bits, V. split_and!; try done; lia.
  - destruct (Z.leb_spec 5 bits) as [Hle|]; [|exists bits, V; split_and!; done || lia].
    rewrite Z.shiftr_div_pow2 by lia. change 31 with (Z.ones 5). rewrite Z.land_ones by lia.
    set (d := (buffer / 2 ^ (bits - 5)) mod 2 ^ 5). rewrite <- chars_snoc.
    assert (0 <= d < 32) as Hd by (apply (Z.mod_pos_bound _ (2 ^ 5)); lia).
    destruct (IH buffer (bits - 5) (V ++ [d])) as (bits' & V' & He & HV' & Hb' & Hlen & Hval); [done|lia| |].
    { apply Forall_app. split; [done|]. by constructor. }
    exists bits', V'. rewrite len_app in Hlen. unfold len in Hlen at 3. simpl in Hlen.
    split_and!; [done|done|lia|lia|lia|]. rewrite Hval, value_in_snoc.
    rewrite (split_digit buffer bits 5) by lia. fold d.
    replace (2 ^ bits) with (2 ^ (bits - 5) * 32) by (change 32 with (2 ^ 5); rewrite <- Z.pow_add_r by lia; f_equal; lia). lia.
Qed.

(** Joining bytes and digits into a buffer. *)
Lemma join_digit buffer w d :
  0 <= buffer < 2 ^ 13 -> 0 <= w <= 8 -> 0 <= d < 2 ^ w -> Z.lor (wrap64 (Z.shiftl buffer w)) d = buffer * 2 ^ w + d.
Proof.
  intros Hb Hw Hd. rewrite Z.shiftl_mul_pow2 by lia. unfold wrap64. rewrite Z.mod_small.
  - rewrite Z.lor_comm, <- Z.shiftl_mul_pow2, lor_shiftl by lia. rewrite <- Z.shiftl_mul_pow2 by lia. rewrite Z.shiftl_mul_pow2 by lia. lia.
  - assert (2 ^ w <= 2 ^ 8) by (apply Z.pow_le_mono_r; lia). unfold U64 in *. nia.
Qed.

Definition encoding (B : list Z) (st : Z * Z * string) : Prop :=
  let '(buffer, bits, out) := st in
  exists V, out = chars V /\ digits32 V /\ 0 <= bits < 5 /\ 0 <= buffer < 2 ^ bits
    /\ 5 * len V + bits = 8 * len B /\ value_in 32 V * 2 ^ bits + buffer = value_in 256 B.

Lemma encoding_step B st byte : is_byte byte -> encoding B st -> encoding (B ++ [byte]) (encode_step st byte).
Proof.
  destruct st as [[buffer bits] out]. intros Hbyte (V & -> & HV & Hbits & Hbuf & Hlen & Hval).
  assert (2 ^ bits <= 2 ^ 5) as Hp by (apply Z.pow_le_mono_r; lia). unfold is_byte in Hbyte.
  unfold encode_step. rewrite join_digit by lia. set (buffer' := buffer * 2 ^ 8 + byte).
  destruct (emit_spec 2 buffer' (bits + 8) V) as (bits' & V' & -> & HV' & Hb' & Hlen' & Hval'); [unfold buffer'; lia|lia|done|].
  rewrite land_mask by lia. exists V'. rewrite len_app. unfold len at 3. simpl.
  assert (buffer' mod 2 ^ (bits + 8) = buffer') as Hsmall.
  { apply Z.mod_small. unfold buffer'. rewrite Z.pow_add_r by lia. nia. }
  split_and!; [done|done|lia|lia| | |lia|].
  - apply Z.mod_pos_bound. apply Z.pow_pos_nonneg; lia.
  - apply Z.mod_pos_bound. apply Z.pow_pos_nonneg; lia.
  - rewrite Hval', Hsmall, value_in_snoc, <- Hval. unfold buffer'. rewrite Z.pow_add_r by lia. lia.
Qed.

Lemma encoding_fold bytes : is_bytes bytes -> encoding bytes (foldl encode_step (0, 0, EmptyString) bytes).
Proof.
  induction bytes as [|b bytes IH] using rev_ind; intros Hb.
  - exists []. split_and!; done || lia || constructor.
  - apply Forall_app in Hb as [Hb Hb1]. apply Forall_cons in Hb1 as [Hb1 _]. rewrite foldl_app. simpl.
    apply encoding_step; [done|by apply IH].
Qed.

(** The text is the bytes as one number, padded to whole digits. *)
Lemma base32_encode_spec bytes :
  is_bytes bytes ->
  exists V extra, base32_encode bytes = chars V /\ digits32 V /\ 0 <= extra < 5
    /\ 5 * len V = 8 * len bytes + extra /\ value_in 32 V = value_in 256 bytes * 2 ^ extra.
Proof.
  intros Hb. pose proof (encoding_fold bytes Hb) as He. unfold base32_encode.
  destruct (foldl encode_step _ _) as [[buffer bits] out]. destruct He as (V & -> & HV & Hbits & Hbuf & Hlen & Hval).
  destruct (Z.ltb_spec 0 bits) as [Hpos|Hz].
  - assert (2 ^ bits <= 2 ^ 4) as Hp by (apply Z.pow_le_mono_r; lia).
    assert (2 ^ 5 = 2 ^ bits * 2 ^ (5 - bits)) as H32 by (rewrite <- Z.pow_add_r by lia; f_equal; lia).
    assert (0 < 2 ^ (5 - bits)) as Hpos' by (apply Z.pow_pos_nonneg; lia).
    assert (Z.land (wrap64 (Z.shiftl buffer (5 - bits))) 31 = buffer * 2 ^ (5 - bits)) as Hd.
    { rewrite Z.shiftl_mul_pow2 by lia. change 31 with (Z.ones 5). rewrite Z.land_ones by lia. unfold wrap64, U64.
      rewrite (Z.mod_small (buffer * _)) by nia. apply Z.mod_small. nia. }
    rewrite Hd, <- chars_snoc. exists (V ++ [buffer * 2 ^ (5 - bits)]), (5 - bits).
    rewrite len_app, value_in_snoc. unfold len at 2. simpl.
    split_and!; [done| |lia|lia|lia|].
    + apply Forall_app. split; [done|]. constructor; [|constructor]. nia.
    + rewrite <- Hval. replace 32 with (2 ^ bits * 2 ^ (5 - bits)) by lia. lia.
  - assert (bits = 0) as -> by lia. exists V, 0. split_and!; [done|done|lia|lia|lia|]. rewrite <- Hval. lia.
Qed.

Definition decoding (V : list Z) (st : option (Z * Z * list Z)) : Prop :=
  exists buffer bits out, st = Some (buffer, bits, out) /\ is_bytes out /\ 0 <= bits < 8 /\ 0 <= buffer < 2 ^ bits
    /\ 8 * len out + bits = 5 * len V /\ value_in 256 out * 2 ^ bits + buffer = value_in 32 V.

Lemma decoding_step V st d : 0 <= d < 32 -> decoding V st -> decoding (V ++ [d]) (decode_step st (base32_char d)).
Proof.
  intros Hd (buffer & bits & out & -> & Hout & Hbits & Hbuf & Hlen & Hval).
  assert (2 ^ bits <= 2 ^ 7) as Hp by (apply Z.pow_le_mono_r; lia).
  unfold decode_step. cbn [mbind option_bind]. rewrite position_base32 by done. cbn [mbind option_bind].
  rewrite join_digit by lia. set (buffer' := buffer * 2 ^ 5 + d).
  assert (0 <= buffer' < 2 ^ (bits + 5)) as Hb' by (unfold buffer'; rewrite Z.pow_add_r by lia; nia).
  assert (value_in 256 out * 2 ^ (bits + 5) + buffer' = value_in 32 (V ++ [d])) as Hv'.
  { rewrite value_in_snoc, <- Hval. unfold buffer'. rewrite Z.pow_add_r by lia. lia. }
  assert (len (V ++ [d]) = len V + 1) as Hl by (rewrite len_app; done).
  destruct (Z.leb_spec 8 (bits + 5)) as [Hge|Hlt].
  - rewrite land_mask, Z.shiftr_div_pow2 by lia. change 0xff with (Z.ones 8). rewrite Z.land_ones by lia.
    set (b := (buffer' / 2 ^ (bits + 5 - 8)) mod 2 ^ 8).
    assert (is_byte b) as Hb by (apply (Z.mod_pos_bound _ (2 ^ 8)); lia).
    eexists _, _, _. split; [done|]. rewrite len_app, value_in_snoc. unfold len at 2. simpl.
    pose proof (split_digit buffer' (bits + 5) 8) as Hs. rewrite (Z.mod_small buffer') in Hs by done.
    fold b in Hs. specialize (Hs ltac:(lia) ltac:(lia)).
    split_and!; [apply Forall_app; split; [done|by constructor]|lia|lia| | |lia|].
    + apply Z.mod_pos_bound, Z.pow_pos_nonneg; lia.
    + apply Z.mod_pos_bound, Z.pow_pos_nonneg; lia.
    + rewrite <- Hv'. rewrite Hs at 2. replace (2 ^ (bits + 5)) with (2 ^ (bits + 5 - 8) * 256); [lia|].
      change 256 with (2 ^ 8). rewrite <- Z.pow_add_r by lia. f_equal. lia.
  - eexists _, _, _. split; [done|]. split_and!; [done|lia|lia|lia|lia|lia|done].
Qed.

Lemma list_ascii_chars V : String.list_ascii_of_string (chars V) = base32_char <$> V.
Proof. apply String.list_ascii_of_string_of_list_ascii. Qed.

Lemma decoding_fold V : digits32 V -> decoding V (foldl decode_step (Some (0, 0, [])) (base32_char <$> V)).
Proof.
  induction V as [|d V IH] using rev_ind; intros HV.
  - eexists _, _, _. split; [done|]. split_and!; done || lia || constructor.
  - apply Forall_app in HV as [HV Hd]. apply Forall_cons in Hd as [Hd _]. rewrite fmap_app, foldl_app. simpl.
    apply decoding_step; [done|by apply IH].
Qed.

Lemma base32_reads_back bytes : is_bytes bytes -> base32_decode (base32_encode bytes) = Some bytes.
Proof.
  intros Hb. destruct (base32_encode_spec bytes Hb) as (V & extra & -> & HV & Hex & Hlen & Hval).
  unfold base32_decode. rewrite list_ascii_chars.
  destruct (decoding_fold V HV) as (buffer & bits & out & -> & Hout & Hbits & Hbuf & Hlen' & Hval'). simpl. f_equal.
  assert (bits = extra) as ->.
  { assert (8 * (len out - len bytes) = extra - bits) by lia. assert (len out = len bytes) by lia. lia. }
  assert (len out = len bytes) as Hl by lia.
  assert (0 < 2 ^ extra) by (apply Z.pow_pos_nonneg; lia).
  apply (value_in_inj 256); [lia|done|done|unfold len in Hl; lia|]. nia.
Qed.

(** ** CIDs *)

Lemma base32_encode_nonempty b bytes : is_bytes (b :: bytes) -> base32_encode (b :: bytes) <> EmptyString.
Proof.
  intros Hb He. apply base32_reads_back in Hb. rewrite He in Hb. discriminate Hb.
Qed.

Lemma decode_encode_cid text : utf8_valid (str_bytes text) = true -> decode_cid (encode_cid text) = text.
Proof.
  intros Hu. assert (decode_cid (CID_TEXT_MARKER :: str_bytes text) = text) as Hm.
  { unfold decode_cid. rewrite Z.eqb_refl, lossy_valid by done. apply bytes_str_bytes. }
  unfold encode_cid. destruct (text =s EmptyString) eqn:He; bool_prop; [by subst|].
  destruct (strip_prefix "b" text) as [rest|] eqn:Hp; [|done].
  destruct (base32_decode rest) as [bytes|]; [|done].
  destruct (bool_decide (head bytes = Some 1) && (base32_encode bytes =s rest)) eqn:Hc; [|done].
  apply andb_true_iff in Hc as [Hh Hr]. apply bool_decide_eq_true in Hh. apply String.eqb_eq in Hr.
  destruct bytes as [|b bytes]; [done|]. injection Hh as ->. apply strip_prefix_Some in Hp as ->.
  unfold decode_cid. change (1 =? CID_TEXT_MARKER) with false. cbv iota. by rewrite Hr.
Qed.

Lemma encode_binary_cid bytes :
  is_bytes bytes -> head bytes = Some 1 -> encode_cid ("b" +:+ base32_encode bytes) = bytes.
Proof.
  intros Hb Hh. unfold encode_cid. change ("b" +:+ base32_encode bytes =s EmptyString) with false. cbv iota.
  rewrite strip_prefix_app, base32_reads_back by done. rewrite bool_decide_true by done.
  by rewrite String.eqb_refl.
Qed.

(** ** Record URIs *)

Lemma parse_record_uri_iff uri did c r :
  parse_record_uri uri = Some (did, c, r) <->
  uri = "at://" +:+ did +:+ "/" +:+ c +:+ "/" +:+ r
  /\ did <> EmptyString /\ c <> EmptyString /\ r <> EmptyString
  /\ contains_char slash did = false /\ contains_char slash c = false /\ contains_char slash r = false.
Proof.
  unfold parse_record_uri. split.
  - destruct (strip_prefix "at://" uri) as [rest|] eqn:Hp; [|done]. cbn [mbind option_bind].
    apply strip_prefix_Some in Hp as ->.
    pose proof (str_join_split slash rest) as Hj. pose proof (str_split_clean slash rest) as Hcl.
    destruct (str_split slash rest) as [|d' [|c' [|r' [|]]]]; try done.
    destruct ((d' =s EmptyString) || (c' =s EmptyString) || (r' =s EmptyString)) eqn:He; [done|]. intros [= -> -> ->].
    bool_prop. rewrite <- Hj. split_and!; try done; apply Hcl; rewrite !elem_of_cons; tauto.
  - intros (-> & Hd & Hc & Hr & Sd & Sc & Sr). rewrite strip_prefix_app. cbn [mbind option_bind].
    change (did +:+ "/" +:+ c +:+ "/" +:+ r) with (did +:+ String slash (c +:+ String slash r)).
    rewrite !str_split_app, !str_split_none by done. cbn [app].
    by rewrite (proj2 (String.eqb_neq _ _) Hd), (proj2 (String.eqb_neq _ _) Hc), (proj2 (String.eqb_neq _ _) Hr).
Qed.

Lemma render_parse target : render (parse target) = target.
Proof.
  unfold parse. destruct (parse_record_uri target) as [[[d c] r]|] eqn:Hp.
  - by apply parse_record_uri_iff in Hp as [-> _].
  - destruct (strip_prefix "at://" target) as [rest|] eqn:Hs; [|done]. by apply strip_prefix_Some in Hs as ->.
Qed.

(** ** Timestamps read back *)

Definition digit_char (d : Z) : ascii := ascii_of_N (Z.to_N (d + 48)).

Lemma digit_char_spec d : 0 <= d < 10 -> is_ascii_digit (digit_char d) = true /\ digit_value (digit_char d) = d.
Proof.
  intros Hd. assert (Forall (fun d => is_ascii_digit (digit_char d) = true /\ digit_value (digit_char d) = d) (seqZ 0 10)) as H
    by (vm_compute; repeat constructor).
  rewrite Forall_forall in H. apply H, elem_of_seqZ. lia.
Qed.

Lemma decimal_snoc l c :
  l <> [] -> digits (l ++ [c]) = (n ← digits l; if is_ascii_digit c then Some (n * 10 + digit_value c) else None).
Proof. intros Hl. destruct l as [|a l]; [done|]. unfold digits. cbn [app]. by rewrite app_comm_cons, foldl_app. Qed.

Lemma pad_S w n : pad (S w) n = pad w (n / 10) ++ [digit_char (n mod 10)].
Proof. done. Qed.

Lemma digits_pad w n : 0 <= n < 10 ^ Z.of_nat (S w) -> digits (pad (S w) n) = Some n.
Proof.
  revert n. induction w as [|w IH]; intros n Hn.
  - change (10 ^ Z.of_nat 1) with 10 in Hn. rewrite pad_S. cbn [pad app]. rewrite Z.mod_small by done.
    destruct (digit_char_spec n) as [H1 H2]; [lia|]. unfold digits. cbn [foldl mbind option_bind].
    by rewrite H1, H2.
  - rewrite pad_S, decimal_snoc by (rewrite pad_S; by destruct (pad w _)).
    rewrite IH. 2:{ split; [apply Z.div_pos; lia|]. apply Z.div_lt_upper_bound; [lia|].
      rewrite Nat2Z.inj_succ, Z.pow_succ_r in Hn by lia. lia. }
    cbn [mbind option_bind]. destruct (digit_char_spec (n mod 10)) as [-> ->]; [apply Z.mod_pos_bound; lia|].
    f_equal. pose proof (Z.div_mod n 10). lia.
Qed.

Lemma take_digits_pad w n rest :
  (forall c t, rest = c :: t -> is_ascii_digit c = false) -> take_digits (pad w n ++ rest) = pad w n.
Proof.
  intros Hr. assert (Forall (fun c => is_ascii_digit c = true) (pad w n)) as Hd.
  { revert n. induction w as [|w IH]; intros n; [constructor|]. rewrite pad_S. apply Forall_app. split; [done|].
    constructor; [|constructor]. apply digit_char_spec, Z.mod_pos_bound. lia. }
  induction Hd as [|c l Hc _ IH]; simpl; [|by rewrite Hc, IH].
  destruct rest as [|c t]; [done|]. simpl. by rewrite (Hr c t eq_refl).
Qed.

Lemma length_pad w n : length (pad w n) = w.
Proof. revert n. induction w as [|w IH]; intros n; [done|]. rewrite pad_S, length_app, IH. simpl. lia. Qed.

Section MicrosProofs.
Context `{CS : ChronoSpec}.

(** The text of an instant, as its fixed fields. *)
Lemma parse_format c days us :
  0 <= year c < 10000 -> 0 <= month c < 100 -> 0 <= day c < 100 -> 0 <= hour c < 24 -> 0 <= minute c < 60 ->
  0 <= second c < 60 -> 0 <= micro c < 1000000 -> from_ymd_opt (year c) (month c) (day c) = Some days ->
  us = (days * 86400 + hour c * 3600 + minute c * 60 + second c) * 1000000 + micro c ->
  MIN_MICROS <= us <= MAX_MICROS ->
  parse_micros (format_civil c) = Some us.
Proof.
  intros Hy Hmo Hd Hh Hmi Hs Hu Hymd Hus Hrange. unfold parse_micros, format_civil.
  rewrite String.list_ascii_of_string_of_list_ascii.
  set (Y := pad 4 (year c)). set (M := pad 2 (month c)). set (D := pad 2 (day c)). set (h := pad 2 (hour c)).
  set (m := pad 2 (minute c)). set (s := pad 2 (second c)). set (f := pad 6 (micro c)).
  assert (digits Y = Some (year c) /\ digits M = Some (month c) /\ digits D = Some (day c) /\ digits h = Some (hour c)
    /\ digits m = Some (minute c) /\ digits s = Some (second c) /\ digits f = Some (micro c))
    as (DY & DM & DD & Dh & Dm & Ds & Df).
  { split_and!; apply digits_pad; cbn; lia. }
  assert (length Y = 4 /\ length M = 2 /\ length D = 2 /\ length h = 2 /\ length m = 2 /\ length s = 2 /\ length f = 6)%nat
    as (LY & LM & LD & Lh & Lm & Ls & Lf) by (split_and!; apply length_pad).
  assert (take_digits (f ++ String.list_ascii_of_string "+00:00") = f) as Htd by (apply take_digits_pad; by intros ? ? [= <- <-]).
  clearbody Y M D h m s f.
  destruct Y as [|y1 [|y2 [|y3 [|y4 [|]]]]]; try done. destruct M as [|mo1 [|mo2 [|]]]; try done.
  destruct D as [|d1 [|d2 [|]]]; try done. destruct h as [|h1 [|h2 [|]]]; try done.
  destruct m as [|m1 [|m2 [|]]]; try done. destruct s as [|s1 [|s2 [|]]]; try done.
  cbn [app length Nat.ltb Nat.leb is_at lookup list_lookup take drop]. unfold is_at. cbn [lookup list_lookup].
  repeat (rewrite bool_decide_true by done). cbn [negb orb]. cbn [take drop].
  rewrite DY, DM, DD, Dh, Dm, Ds. cbn [mbind option_bind].
  rewrite (proj2 (Z.ltb_ge _ _)), (proj2 (Z.ltb_ge _ _)), (proj2 (Z.ltb_ge _ _)) by lia. cbn [orb].
  rewrite Hymd. cbn [mbind option_bind]. unfold parse_fraction. rewrite Htd, Lf. cbn [Nat.min].
  rewrite take_app_le by lia. rewrite take_ge, Df by lia. cbn [mbind option_bind]. rewrite Lf.
  pose proof (drop_app_length f (String.list_ascii_of_string "+00:00")) as Hdrop. rewrite Lf in Hdrop.
  rewrite Hdrop. cbn [mbind option_bind].
  change (parse_offset (String.list_ascii_of_string "+00:00")) with (Some 0). cbn [mbind option_bind].
  change (10 ^ (9 - Z.of_nat 6)) with 1000. cbv zeta.
  replace ((micro c * 1000 + 500) / 1000) with (micro c) by (apply Z.div_unique with 500; lia).
  rewrite Z.sub_0_r, <- Hus, (proj2 (Z.leb_le _ _)), (proj2 (Z.leb_le _ _)) by lia. done.
Qed.

Lemma parse_render us : MIN_MICROS <= us <= MAX_MICROS -> parse_micros (render_micros us) = Some us.
Proof.
  intros Hr. destruct (civil_fields us Hr) as (c & days & Hc & ? & ? & ? & ? & ? & ? & ? & Hymd & Hus).
  unfold render_micros. rewrite Hc, (proj2 (Z.leb_le _ _)), (proj2 (Z.leb_le _ _)) by lia. cbn [andb].
  by eapply parse_format.
Qed.

End MicrosProofs.

(** ** The Gregorian calendar *)

Definition leap (y : Z) : bool := (y mod 4 =? 0) && (negb (y mod 100 =? 0) || (y mod 400 =? 0)).

Definition month_lengths (y : Z) : list Z :=
  [31; if leap y then 29 else 28; 31; 30; 31; 30; 31; 31; 30; 31; 30; 31].

Definition year_length (y : Z) : Z := if leap y then 366 else 365.

Definition sum (l : list Z) : Z := foldr Z.add 0 l.

(** The days from the first day of year 0 to that of year [y]. *)
Definition year_start (y : Z) : Z := 365 * y + (y + 3) / 4 - (y + 99) / 100 + (y + 399) / 400.

(** 1970-01-01, counted from 0000-01-01. *)
Definition EPOCH : Z := 719528.

(** The years a timestamp can hold. *)
Definition YEARS : nat := Z.to_nat 10000.

Fixpoint find_year (fuel : nat) (y days : Z) : Z * Z :=
  match fuel with
  | O => (y, days)
  | S fuel' => if days <? year_length y then (y, days) else find_year fuel' (y + 1) (days - year_length y)
  end.

Fixpoint find_month (lens : list Z) (m day : Z) : Z * Z :=
  match lens with
  | [] => (m, day)
  | l :: lens' => if day <? l then (m, day + 1) else find_month lens' (m + 1) (day - l)
  end.

#[local] Instance gregorian : Chrono :=
  {| from_ymd_opt := fun y m d =>
       if 1 <=? m then
         l ← month_lengths y !! Z.to_nat (m - 1);
         if (1 <=? d) && (d <=? l)
         then Some (year_start y + sum (take (Z.to_nat (m - 1)) (month_lengths y)) + d - 1 - EPOCH) else None
       else None;
     from_timestamp_micros := fun us =>
       if (MIN_MICROS <=? us) && (us <=? MAX_MICROS) then
         let secs := us / 1000000 in
         let '(y, doy) := find_year YEARS 0 (secs / 86400 + EPOCH) in
         let '(m, d) := find_month (month_lengths y) 1 doy in
         Some {| year := y; month := m; day := d; hour := secs mod 86400 / 3600; minute := secs mod 3600 / 60;
                 second := secs mod 60; micro := us mod 1000000 |}
       else None |}.

Lemma year_start_S y : year_start (y + 1) = year_start y + year_length y.
Proof.
  unfold year_start, year_length, leap.
  destruct (Z.eqb_spec (y mod 4) 0), (Z.eqb_spec (y mod 100) 0), (Z.eqb_spec (y mod 400) 0); cbn [negb andb orb];
    Z.to_euclidean_division_equations; lia.
Qed.

Lemma year_length_pos y : 365 <= year_length y.
Proof. unfold year_length. destruct (leap y); lia. Qed.

Lemma find_year_spec fuel : forall y days,
  0 <= days < year_start (y + Z.of_nat fuel) - year_start y ->
  let '(y', doy) := find_year fuel y days in
  y <= y' < y + Z.of_nat fuel /\ 0 <= doy < year_length y' /\ year_start y + days = year_start y' + doy.
Proof.
  induction fuel as [|fuel IH]; intros y days Hd; cbn [find_year].
  - rewrite Z.add_0_r in Hd. lia.
  - destruct (Z.ltb_spec days (year_length y)) as [Hlt|Hge]; [split_and!; lia|].
    pose proof (year_start_S y) as HS. specialize (IH (y + 1) (days - year_length y)).
    replace (y + 1 + Z.of_nat fuel) with (y + Z.of_nat (S fuel)) in IH by lia.
    specialize (IH ltac:(lia)). destruct (find_year fuel _ _) as [y' doy]. destruct IH as (? & ? & ?). split_and!; lia.
Qed.

Lemma find_month_spec lens : forall m day,
  Forall (fun l => 0 <= l) lens -> 0 <= day < sum lens ->
  exists i l, find_month lens m day = (m + Z.of_nat i, day - sum (take i lens) + 1)
    /\ lens !! i = Some l /\ sum (take i lens) <= day < sum (take i lens) + l.
Proof.
  induction lens as [|l lens IH]; intros m day Hp Hd; cbn [find_month]; [simpl in Hd; lia|].
  apply Forall_cons in Hp as [Hl Hp]. cbn [sum foldr] in Hd.
  destruct (Z.ltb_spec day l) as [Hlt|Hge].
  - exists 0%nat, l. cbn. split_and!; [f_equal; lia|done|lia|lia].
  - destruct (IH (m + 1) (day - l) Hp) as (i & l' & Hf & Hi & Hr); [unfold sum in *; lia|].
    exists (S i), l'. rewrite Hf. cbn [take sum foldr lookup list_lookup]. unfold sum in *.
    split_and!; [f_equal; lia|done|lia|lia].
Qed.

Lemma month_lengths_sum y : sum (month_lengths y) = year_length y.
Proof. unfold month_lengths, year_length. by destruct (leap y). Qed.

Lemma month_lengths_range y : Forall (fun l => 28 <= l <= 31) (month_lengths y).
Proof. unfold month_lengths. destruct (leap y); repeat constructor; lia. Qed.

#[local] Instance gregorian_spec : ChronoSpec gregorian.
Proof.
  constructor. intros us Hus. cbn [from_timestamp_micros from_ymd_opt gregorian].
  rewrite (proj2 (Z.leb_le _ _)), (proj2 (Z.leb_le _ _)) by lia. cbn [andb].
  set (secs := us / 1000000). set (days := secs / 86400).
  assert (-62167219200 <= secs <= 253402300799) as Hs
    by (unfold secs, MIN_MICROS, MAX_MICROS in *; Z.to_euclidean_division_equations; lia).
  assert (0 <= days + EPOCH < year_start (0 + Z.of_nat YEARS) - year_start 0) as Hd.
  { unfold YEARS. rewrite Z2Nat.id by lia. change (year_start (0 + 10000) - year_start 0) with 3652425.
    unfold days, EPOCH. clearbody secs. Z.to_euclidean_division_equations; lia. }
  pose proof (find_year_spec YEARS 0 (days + EPOCH) Hd) as Hy. destruct (find_year YEARS 0 (days + EPOCH)) as [y doy].
  destruct Hy as (Hy & Hdoy & Hsum). unfold YEARS in Hy. rewrite Z2Nat.id in Hy by lia.
  destruct (find_month_spec (month_lengths y) 1 doy) as (i & l & Hf & Hi & Hr).
  { eapply Forall_impl; [apply month_lengths_range|]. simpl. lia. }
  { by rewrite month_lengths_sum. }
  rewrite Hf. assert (i < 12)%nat as Hi12 by (apply lookup_lt_Some in Hi; exact Hi).
  assert (l <= 31) as Hl by (pose proof (month_lengths_range y) as HF; rewrite Forall_lookup in HF; by apply (HF i l)).
  eexists _, days. split; [done|]. cbn [year month day hour minute second micro].
  replace (Z.to_nat (1 + Z.of_nat i - 1)) with i by lia. rewrite Hi. cbn [mbind option_bind].
  destruct (Z.leb_spec 1 (1 + Z.of_nat i)); [|lia].
  destruct (Z.leb_spec 1 (doy - sum (take i (month_lengths y)) + 1)); [|lia].
  destruct (Z.leb_spec (doy - sum (take i (month_lengths y)) + 1) l); [|lia]. cbn [andb].
  change (year_start 0) with 0 in Hsum.
  assert (us = secs * 1000000 + us mod 1000000 /\ 0 <= us mod 1000000 < 1000000) as [Hus1 Hus2]
    by (unfold secs; clear; Z.to_euclidean_division_equations; lia).
  assert (secs = days * 86400 + secs mod 86400 / 3600 * 3600 + secs mod 3600 / 60 * 60 + secs mod 60
    /\ 0 <= secs mod 86400 / 3600 < 24 /\ 0 <= secs mod 3600 / 60 < 60 /\ 0 <= secs mod 60 < 60) as (Hs1 & Hs2 & Hs3 & Hs4)
    by (unfold days; clearbody secs; clear; Z.to_euclidean_division_equations; lia).
  split_and!; try lia. f_equal. lia.
Qed.

(** ** The properties of the codec *)

(** CIDs: every text is stored in a form that reads back as exactly that
    text, and the canonical base32 text of a CIDv1 is stored as its binary
    bytes, behind no marker. *)
Theorem cid_codec_roundtrip :
  (forall text, utf8_valid (str_bytes text) = true -> decode_cid (encode_cid text) = text)
  /\ (forall bytes, is_bytes bytes -> head bytes = Some 1 ->
        encode_cid ("b" +:+ base32_encode bytes) = bytes /\ decode_cid bytes = "b" +:+ base32_encode bytes).
Proof.
  split; [apply decode_encode_cid|]. intros bytes Hb Hh. split; [by apply encode_binary_cid|].
  destruct bytes as [|b bytes]; [done|]. by injection Hh as ->.
Qed.

(** Base32: decoding what was encoded gives the bytes back, for every
    length, whatever padding the last digit carries. *)
Theorem base32_roundtrip bytes : is_bytes bytes -> base32_decode (base32_encode bytes) = Some bytes.
Proof. apply base32_reads_back. Qed.

(** Timestamps: every instant from year 0 to year 9999 is rendered as text
    that parses to exactly that microsecond, and whatever parses lies in that
    span, so re-rendering a parsed text never changes the instant it names. *)
Theorem timestamp_roundtrip `{CS : ChronoSpec} :
  (forall us, MIN_MICROS <= us <= MAX_MICROS -> parse_micros (render_micros us) = Some us)
  /\ (forall text us, parse_micros text = Some us ->
        MIN_MICROS <= us <= MAX_MICROS /\ parse_micros (render_micros us) = Some us).
Proof.
  split; [apply parse_render|]. intros text us Hp. assert (MIN_MICROS <= us <= MAX_MICROS) as Hr.
  { unfold parse_micros in Hp. cbv zeta in Hp. destruct (_ || _) in Hp; [discriminate Hp|].
    repeat match type of Hp with
    | mbind _ ?o = _ => destruct o as [?|]; cbn [mbind option_bind] in Hp; [|discriminate Hp]
    | (let '(_, _) := ?p in _) = _ => destruct p; cbn [mbind option_bind] in Hp
    | (if _ || _ then None else _) = _ => destruct (_ || _) in Hp; [discriminate Hp|]
    end.
    destruct (_ && _) eqn:Hc in Hp; [|discriminate Hp]. injection Hp as <-.
    apply andb_true_iff in Hc as [H1 H2]. apply Z.leb_le in H1, H2. lia. }
  split; [done|by apply parse_render].
Qed.

(** Reference targets: the text of a target can be rebuilt from the parts
    stored for it - a record URI from its three parts, any other [at://] URI
    from the rest, anything else verbatim - and only a URI of three non-empty
    parts without further slashes is taken as a record. *)
Theorem ref_parts_rebuild target :
  (exists did c r, ref_part target 3 = Some "1" /\ ref_part target 0 = Some did /\ ref_part target 1 = Some c
     /\ ref_part target 2 = Some r /\ target = "at://" +:+ did +:+ "/" +:+ c +:+ "/" +:+ r
     /\ did <> EmptyString /\ c <> EmptyString /\ r <> EmptyString
     /\ contains_char slash did = false /\ contains_char slash c = false /\ contains_char slash r = false)
  \/ (exists rest, ref_part target 3 = Some "0" /\ ref_part target 0 = Some rest /\ ref_part target 1 = None
        /\ target = "at://" +:+ rest)
  \/ (ref_part target 3 = Some "-1" /\ ref_part target 0 = Some target /\ ref_part target 1 = None
        /\ strip_prefix "at://" target = None).
Proof.
  unfold ref_part. cbn [Z.eqb Pos.eqb]. pose proof (render_parse target) as Hr. unfold parse in *.
  destruct (parse_record_uri target) as [[[d c] r]|] eqn:Hp.
  - left. exists d, c, r. apply parse_record_uri_iff in Hp as (Ht & ? & ? & ? & ? & ? & ?). by split_and!.
  - right. destruct (strip_prefix "at://" target) as [rest|] eqn:Hs; cbn in Hr |- *.
    + left. exists rest. by split_and!.
    + right. by split_and!.
Qed.

(** ** Samples *)

Example sample_cid : encode_cid "baebbeca" = [1; 2; 18; 8].
Proof. vm_compute. reflexivity. Qed.

Lemma cid_codec_roundtrip_witness : decode_cid (encode_cid "baebbeca") = "baebbeca".
Proof. apply (proj1 cid_codec_roundtrip "baebbeca"). vm_compute. reflexivity. Defined.

Lemma base32_roundtrip_witness : base32_decode (base32_encode [1; 113; 18; 32]) = Some [1; 113; 18; 32].
Proof. apply (base32_roundtrip [1; 113; 18; 32]). repeat constructor; lia. Defined.

Lemma timestamp_roundtrip_witness : parse_micros (render_micros 1791722096123457) = Some 1791722096123457.
Proof. apply (proj1 (@timestamp_roundtrip gregorian gregorian_spec)). unfold MIN_MICROS, MAX_MICROS. lia. Defined.

Example sample_times :
  render_micros 1791722096123457 = "2026-10-11T12:34:56.123457+00:00"
  /\ parse_micros "2026-10-11T08:34:56.5-04:00" = Some 1791722096500000
  /\ parse_micros "2026-03-18 12:00:00.123456+00" = Some 1773835200123456
  /\ parse_micros "1969-12-31T23:59:59.5+00:00" = Some (-500000)
  /\ parse_micros "2026-02-29T00:00:00Z" = None.
Proof. split_and!; vm_compute; reflexivity. Qed.
