(* ===== verification/Tombstones.v ===== *)
(** * The record tables and their tombstones

    The tables of [migrations/*/20261010000001_record_tombstones.sql] and
    [20261011000001_records_v2.sql], and the reads and writes
    [src/tombstones.rs] makes of the tombstones.  Every function is one
    statement, or the statements of one transaction, run on its own: SQLite
    holds the database's write lock, Postgres the advisory locks of the
    records and accounts.  A DID or collection is its text; interning it is a
    one-to-one renaming the model leaves out.  A body is its decoded text. *)

From stdpp Require Import list strings gmap.
From Stdlib Require Import ZArith.
From S2P Require Import Prelude RustStr Json StreamEvent RecordCodec.

#[global] Instance RecordKey_countable : Countable RecordKey.
Proof.
  refine (inj_countable' (fun k => (did k, StreamEvent.collection k, StreamEvent.rkey k))
            (fun t => {| did := t.1.1; StreamEvent.collection := t.1.2; StreamEvent.rkey := t.2 |}) _).
  by intros [].
Defined.

#[global] Instance RefTarget_eq_dec : EqDecision RefTarget.
Proof. solve_decision. Defined.

#[global] Instance RefTarget_countable : Countable RefTarget.
Proof.
  refine (inj_countable'
    (fun t => match t with
              | Record_ d c r => inl (d, c, r)
              | At rest => inr (inl rest)
              | Text text => inr (inr text)
              end)
    (fun s => match s with
              | inl (d, c, r) => Record_ d c r
              | inr (inl rest) => At rest
              | inr (inr text) => Text text
              end) _).
  by intros [].
Defined.

(** ** Tables *)

Inductive DatabaseBackend : Type := Sqlite | Postgres.

(** A row of [happyview_records_v2], which its identity finds. *)
Record Row : Type := {
  row_id : nat;
  row_cid : list Z;
  row_record : string;
  row_rev : option string;
  row_indexed_at : option Z;
  row_created_at : Z;
}.

Record Tombstone : Type := { tomb_rev : string; tomb_deleted_at : string }.

Record DidTombstone : Type := {
  did_tomb_rev : string;
  did_tomb_seq : option Z;
  did_tomb_deleted_at : string;
}.

(** The identity index of [happyview_records_v2], the reference rows by source
    row and target with the collection of their source, the two tombstone
    tables, and the last id Postgres's sequence gave. *)
Record Database : Type := {
  records : gmap RecordKey Row;
  refs : gmap (nat * RefTarget) string;
  record_tombstones : gmap string Tombstone;
  did_tombstones : gmap string DidTombstone;
  sequence : nat;
}.

Definition set_records (db : Database) (m : gmap RecordKey Row) : Database :=
  {| records := m; refs := refs db; record_tombstones := record_tombstones db;
     did_tombstones := did_tombstones db; sequence := sequence db |}.
Definition set_refs (db : Database) (m : gmap (nat * RefTarget) string) : Database :=
  {| records := records db; refs := m; record_tombstones := record_tombstones db;
     did_tombstones := did_tombstones db; sequence := sequence db |}.
Definition set_record_tombstones (db : Database) (m : gmap string Tombstone) : Database :=
  {| records := records db; refs := refs db; record_tombstones := m;
     did_tombstones := did_tombstones db; sequence := sequence db |}.
Definition set_did_tombstones (db : Database) (m : gmap string DidTombstone) : Database :=
  {| records := records db; refs := refs db; record_tombstones := record_tombstones db;
     did_tombstones := m; sequence := sequence db |}.

Definition empty_database : Database :=
  {| records := ∅; refs := ∅; record_tombstones := ∅; did_tombstones := ∅; sequence := 0 |}.

(** ** Revs *)

(** [rev_compare] and Rust's own comparison: both order texts by their bytes. *)
Definition rev_le (a b : string) : bool := bool_decide (String.le a b).
Definition rev_lt (a b : string) : bool := negb (rev_le b a).

Definition superseded (tombstone_rev : string) (rev : option string) : bool :=
  match rev with
  | None => true
  | Some rev => rev_le rev tombstone_rev
  end.

(** ** Tombstones *)

Definition PURGE_BATCH : nat := 500.
Definition SWEEP_BATCH : nat := 5000.
Definition DEFAULT_RECORD_TOMBSTONE_RETENTION_HOURS : Z := 72.

(** [parse_retention_hours]: the text of the setting, when there is one. *)
Definition parse_retention_hours (raw : option string) : Z :=
  default DEFAULT_RECORD_TOMBSTONE_RETENTION_HOURS (s ← raw; parse_unsigned 4294967295 (trim s)).

Record WriteCandidate : Type := {
  cand_uri : string;
  cand_did : string;
  cand_rev : option string;
}.

Definition is_some_and {A} (o : option A) (p : A -> bool) : bool :=
  match o with Some x => p x | None => false end.

(** Whether a record or a DID tombstone supersedes one candidate; a lookup by
    [IN] finds the tombstone of each URI and DID. *)
Definition blocked (db : Database) (c : WriteCandidate) : bool :=
  is_some_and (record_tombstones db !! cand_uri c) (fun t => superseded (tomb_rev t) (cand_rev c))
  || is_some_and (did_tombstones db !! cand_did c) (fun t => superseded (did_tomb_rev t) (cand_rev c)).

Definition blocked_writes (db : Database) (candidates : list WriteCandidate) : gset string :=
  list_to_set (cand_uri <$> filter (fun c => Is_true (blocked db c)) candidates).

Definition write_record_tombstone (db : Database) (uri rev now : string) : Database :=
  let fresh := <[uri := {| tomb_rev := rev; tomb_deleted_at := now |}]> (record_tombstones db) in
  match record_tombstones db !! uri with
  | Some held => if rev_lt (tomb_rev held) rev then set_record_tombstones db fresh else db
  | None => set_record_tombstones db fresh
  end.

Definition write_did_tombstone (db : Database) (did rev : string) (seq : option Z) (now : string) : Database :=
  let fresh := <[did := {| did_tomb_rev := rev; did_tomb_seq := seq; did_tomb_deleted_at := now |}]>
                 (did_tombstones db) in
  match did_tombstones db !! did with
  | Some held => if rev_lt (did_tomb_rev held) rev then set_did_tombstones db fresh else db
  | None => set_did_tombstones db fresh
  end.

Definition did_tombstone_rev (db : Database) (did : string) : option string :=
  did_tomb_rev <$> did_tombstones db !! did.

Definition lift_did_tombstone (db : Database) (did : string) (before : option string) : Database :=
  match did_tombstones db !! did with
  | None => db
  | Some held =>
      match before with
      | Some before =>
          if rev_lt (did_tomb_rev held) before then set_did_tombstones db (delete did (did_tombstones db)) else db
      | None => set_did_tombstones db (delete did (did_tombstones db))
      end
  end.

(** ** The sweep *)

(** One statement of the sweep of a table: up to [SWEEP_BATCH] of the keys
    stamped before the cutoff, in the order [scan] finds them, with the rows
    affected.  The stamps are texts and compare as texts. *)
Definition sweep_batch {T} (scan : gmap string T -> list (string * T)) (deleted_at : T -> string)
    (cutoff : string) (table : gmap string T) : gmap string T * nat :=
  let keys := take SWEEP_BATCH (filter (fun kt => Is_true (rev_lt (deleted_at kt.2) cutoff)) (scan table)).*1 in
  (foldr delete table keys, length keys).

(** The loop of the sweep over one table: it goes on while a statement affects
    a full batch. *)
Definition sweep_round {T} (scan : gmap string T -> list (string * T)) (deleted_at : T -> string)
    (cutoff : string) (st : gmap string T * nat) : (gmap string T * nat) + (gmap string T * nat) :=
  let '(table, affected) := sweep_batch scan deleted_at cutoff st.1 in
  let st' := (table, st.2 + affected) in
  if affected <? SWEEP_BATCH then inr st' else inl st'.

Definition sweep_table {T} (scan : gmap string T -> list (string * T)) (deleted_at : T -> string)
    (cutoff : string) (table : gmap string T) (deleted : nat) : (gmap string T * nat) + (gmap string T * nat) :=
  iter_until (sweep_round scan deleted_at cutoff) (Pos.of_succ_nat (size table)) (table, deleted).

(** [sweep]; [cutoff] is the text of the instant [retention_hours] ago.  [None]
    stands for a loop that ran out of rounds. *)
Definition sweep (scan_r : gmap string Tombstone -> list (string * Tombstone))
    (scan_d : gmap string DidTombstone -> list (string * DidTombstone)) (db : Database)
    (retention_hours : Z) (cutoff : string) : option (Database * nat) :=
  if (retention_hours =? 0)%Z then Some (db, 0)
  else
    match sweep_table scan_r tomb_deleted_at cutoff (record_tombstones db) 0 with
    | inr (rt, deleted) =>
        match sweep_table scan_d did_tomb_deleted_at cutoff (did_tombstones db) deleted with
        | inr (dt, deleted) => Some (set_did_tombstones (set_record_tombstones db rt) dt, deleted)
        | inl _ => None
        end
    | inl _ => None
    end.

(** ** Revs are totally ordered *)

Lemma rev_le_refl a : rev_le a a = true.
Proof. apply bool_decide_eq_true. by apply (reflexivity (R := String.le)). Qed.

Lemma rev_le_trans a b c : rev_le a b = true -> rev_le b c = true -> rev_le a c = true.
Proof. unfold rev_le. rewrite !bool_decide_eq_true. apply (transitivity (R := String.le)). Qed.

Lemma rev_le_antisym a b : rev_le a b = true -> rev_le b a = true -> a = b.
Proof. unfold rev_le. rewrite !bool_decide_eq_true. apply (anti_symm String.le). Qed.

Lemma rev_lt_le a b : rev_lt a b = true -> rev_le a b = true.
Proof.
  unfold rev_lt, rev_le. rewrite negb_true_iff, bool_decide_eq_false, bool_decide_eq_true.
  destruct (total String.le a b); tauto.
Qed.

Lemma rev_lt_spec a b : rev_lt a b = true <-> rev_le b a = false.
Proof. unfold rev_lt. by rewrite negb_true_iff. Qed.

Lemma rev_lt_false a b : rev_lt a b = false <-> rev_le b a = true.
Proof. unfold rev_lt. by rewrite negb_false_iff. Qed.

Lemma rev_le_lt_trans a b c : rev_le a b = true -> rev_lt b c = true -> rev_lt a c = true.
Proof.
  rewrite !rev_lt_spec. intros Hab Hcb. destruct (rev_le c a) eqn:E; [|done].
  rewrite (rev_le_trans _ _ _ E Hab) in Hcb. done.
Qed.

Lemma rev_lt_le_trans a b c : rev_lt a b = true -> rev_le b c = true -> rev_lt a c = true.
Proof.
  rewrite !rev_lt_spec. intros Hba Hbc. destruct (rev_le c a) eqn:E; [|done].
  rewrite (rev_le_trans _ _ _ Hbc E) in Hba. done.
Qed.

Lemma rev_lt_irrefl a : rev_lt a a = false.
Proof. by rewrite rev_lt_false, rev_le_refl. Qed.

Lemma rev_lt_or_eq a b : rev_le a b = true -> rev_lt a b = true \/ a = b.
Proof.
  intros Hab. destruct (rev_lt a b) eqn:E; [by left|right].
  apply rev_lt_false in E. by apply rev_le_antisym.
Qed.

(** ** Tombstones keep the newest rev *)

Lemma write_record_tombstone_records db u r n : records (write_record_tombstone db u r n) = records db.
Proof. unfold write_record_tombstone. by repeat case_match. Qed.
Lemma write_record_tombstone_refs db u r n : refs (write_record_tombstone db u r n) = refs db.
Proof. unfold write_record_tombstone. by repeat case_match. Qed.
Lemma write_record_tombstone_sequence db u r n : sequence (write_record_tombstone db u r n) = sequence db.
Proof. unfold write_record_tombstone. by repeat case_match. Qed.
Lemma write_record_tombstone_dids db u r n :
  did_tombstones (write_record_tombstone db u r n) = did_tombstones db.
Proof. unfold write_record_tombstone. by repeat case_match. Qed.

Lemma write_record_tombstone_other db u r n u' :
  u' <> u -> record_tombstones (write_record_tombstone db u r n) !! u' = record_tombstones db !! u'.
Proof.
  intros Hne. unfold write_record_tombstone.
  repeat case_match; simpl; try done; by rewrite lookup_insert_ne.
Qed.

(** The tombstone afterwards is one held before or the new one, whichever has
    the larger rev. *)
Lemma write_record_tombstone_at db u r n :
  exists t, record_tombstones (write_record_tombstone db u r n) !! u = Some t
    /\ rev_le r (tomb_rev t) = true
    /\ (tomb_rev t = r
        \/ record_tombstones db !! u = Some t)
    /\ (forall t0, record_tombstones db !! u = Some t0 -> rev_le (tomb_rev t0) (tomb_rev t) = true).
Proof.
  unfold write_record_tombstone. destruct (record_tombstones db !! u) as [t0|] eqn:Et.
  - destruct (rev_lt (tomb_rev t0) r) eqn:El.
    + eexists. cbn. rewrite lookup_insert_eq. split_and!; [done|apply rev_le_refl|by left|].
      intros ? [= <-]. by apply rev_lt_le.
    + exists t0. apply rev_lt_false in El. split_and!; [done|done|by right|].
      intros ? [= <-]. apply rev_le_refl.
  - eexists. cbn. rewrite lookup_insert_eq. split_and!; [done|apply rev_le_refl|by left|done].
Qed.

(** ** The sweep ends and is exact *)

Section Sweep.
Context {T : Type} (scan : gmap string T -> list (string * T)) (deleted_at : T -> string) (cutoff : string).
Hypothesis scan_rows : forall m, scan m ≡ₚ map_to_list m.

(** Whether a tombstone is stamped before the cutoff. *)
Definition expired (t : T) : bool := rev_lt (deleted_at t) cutoff.
Definition kept_of (m : gmap string T) : gmap string T := filter (fun kt => expired kt.2 = false) m.

Definition expired_keys (m : gmap string T) : list string :=
  (filter (fun kt => Is_true (rev_lt (deleted_at kt.2) cutoff)) (scan m)).*1.

Lemma expired_keys_elem m k : k ∈ expired_keys m <-> exists t, m !! k = Some t /\ expired t = true.
Proof.
  unfold expired_keys. rewrite list_elem_of_fmap. split.
  - intros ([k' t] & -> & [He Hin]%list_elem_of_filter).
    rewrite scan_rows, elem_of_map_to_list in Hin. exists t. split; [done|]. by apply Is_true_eq_true.
  - intros (t & Hm & He). exists (k, t). split; [done|].
    rewrite list_elem_of_filter, scan_rows, elem_of_map_to_list. split; [by apply Is_true_eq_left|done].
Qed.

Lemma expired_keys_NoDup m : NoDup (expired_keys m).
Proof.
  unfold expired_keys.
  eapply sublist_NoDup; [|apply fmap_sublist, sublist_filter].
  rewrite (scan_rows m). apply NoDup_fst_map_to_list.
Qed.

Lemma foldr_delete_lookup (m : gmap string T) ks k :
  foldr delete m ks !! k = if decide (k ∈ ks) then None else m !! k.
Proof.
  induction ks as [|k' ks IH]; cbn [foldr]; [by rewrite decide_False by apply not_elem_of_nil|].
  destruct (decide (k = k')) as [->|Hne].
  - rewrite lookup_delete_eq, decide_True; [done|by left].
  - rewrite lookup_delete_ne, IH by done. apply decide_ext. rewrite elem_of_cons. naive_solver.
Qed.

Lemma foldr_delete_size (m : gmap string T) ks :
  NoDup ks -> (forall k, k ∈ ks -> is_Some (m !! k)) -> size (foldr delete m ks) + length ks = size m.
Proof.
  induction ks as [|k ks IH]; intros Hnd Hin; simpl; [lia|].
  apply NoDup_cons in Hnd as [Hk Hnd].
  assert (IH' := IH Hnd ltac:(intros k' ?; apply Hin; by right)).
  destruct (Hin k ltac:(by left)) as [t Ht].
  assert (is_Some (foldr delete m ks !! k)) as [t' Ht'].
  { rewrite foldr_delete_lookup, decide_False by done. by exists t. }
  rewrite map_size_delete, Ht'. simpl.
  assert (size (foldr delete m ks) <> 0); [|lia].
  rewrite map_size_ne_0_lookup. exists k. by rewrite Ht'.
Qed.

(** One statement removes only expired tombstones and counts them. *)
Lemma sweep_batch_spec m m' n :
  sweep_batch scan deleted_at cutoff m = (m', n) ->
  kept_of m' = kept_of m /\ size m' + n = size m /\ (n < SWEEP_BATCH -> m' = kept_of m).
Proof.
  unfold sweep_batch. fold (expired_keys m).
  set (ks := take SWEEP_BATCH (expired_keys m)). intros [= <- <-].
  assert (Hks : forall k, k ∈ ks -> exists t, m !! k = Some t /\ expired t = true).
  { intros k Hk. apply expired_keys_elem. unfold ks in Hk. eapply elem_of_sublist; [exact Hk|apply sublist_take]. }
  split_and!.
  - apply map_eq. intros k. unfold kept_of. rewrite !map_lookup_filter, foldr_delete_lookup.
    case_decide as Hk; [|done]. destruct (Hks k Hk) as (t & -> & He). cbn.
    rewrite option_guard_False; [done|]. simpl. by rewrite He.
  - apply foldr_delete_size; [|intros k Hk; destruct (Hks k Hk) as (t & -> & _); by eexists].
    unfold ks. eapply sublist_NoDup; [apply expired_keys_NoDup|apply sublist_take].
  - intros Hlt. apply map_eq. intros k. unfold kept_of. rewrite map_lookup_filter, foldr_delete_lookup.
    assert (Hall : ks = expired_keys m).
    { unfold ks in *. apply take_ge. rewrite length_take in Hlt. lia. }
    rewrite Hall. case_decide as Hk.
    + apply expired_keys_elem in Hk as (t & -> & He). cbn. rewrite option_guard_False; [done|].
      simpl. by rewrite He.
    + destruct (m !! k) as [t|] eqn:Et; [|done]. cbn. rewrite option_guard_True; [done|]. simpl.
      destruct (expired t) eqn:He; [|done]. destruct Hk. apply expired_keys_elem. by exists t.
Qed.

Lemma sweep_table_spec m d : sweep_table scan deleted_at cutoff m d = inr (kept_of m, d + (size m - size (kept_of m))).
Proof.
  unfold sweep_table. set (fuel := Pos.of_succ_nat (size m)).
  assert (Hbatch : 0 < SWEEP_BATCH) by (unfold SWEEP_BATCH; lia).
  pose (P := fun st : gmap string T * nat => kept_of st.1 = kept_of m /\ size st.1 + st.2 = size m + d /\ d <= st.2).
  assert (Hround : forall s, P s -> match sweep_round scan deleted_at cutoff s with
                                    | inl s1 => P s1 /\ size s1.1 < size s.1
                                    | inr r => r = (kept_of m, d + (size m - size (kept_of m)))
                                    end).
  { intros [m0 d0] (Hk & Hs & Hd). unfold sweep_round. cbn [fst snd] in *.
    destruct (sweep_batch scan deleted_at cutoff m0) as [m1 n] eqn:Eb.
    destruct (sweep_batch_spec _ _ _ Eb) as (Hk1 & Hs1 & Hend).
    destruct (Nat.ltb_spec n SWEEP_BATCH) as [Hlt|Hge].
    - rewrite Hk in Hend. specialize (Hend Hlt). subst m1. apply (f_equal (pair _)). lia.
    - repeat split; cbn [fst snd]; [congruence|lia..]. }
  destruct (iter_until (sweep_round scan deleted_at cutoff) fuel (m, d)) as [s1|r] eqn:E.
  - exfalso.
    apply (iter_until_measure _ P (fun s => Z.of_nat (size s.1))) in E as [_ Hm]; [| |by repeat split].
    + unfold fuel in Hm. simpl in Hm. lia.
    + intros s s2 Hs E2. specialize (Hround s Hs). rewrite E2 in Hround. split; [tauto|lia].
  - f_equal.
    pose proof (iter_until_inv (sweep_round scan deleted_at cutoff) P
                  (fun r => r = (kept_of m, d + (size m - size (kept_of m))))) as Hinv.
    specialize (Hinv ltac:(intros s Hs; specialize (Hround s Hs); destruct (sweep_round _ _ _ s); tauto) fuel (m, d)).
    rewrite E in Hinv. apply Hinv. by repeat split.
Qed.

End Sweep.

(** ** Properties *)

(** A sweep ends and removes exactly the tombstones stamped before the
    cutoff, of records and of accounts, whatever order the tables are scanned
    in; it counts them and touches nothing else, and a retention of zero hours
    keeps everything. *)
Theorem sweep_exact scan_r scan_d db hours cutoff :
  (forall m, scan_r m ≡ₚ map_to_list m) -> (forall m, scan_d m ≡ₚ map_to_list m) ->
  let keep_r := filter (fun kt => rev_lt (tomb_deleted_at kt.2) cutoff = false) (record_tombstones db) in
  let keep_d := filter (fun kt => rev_lt (did_tomb_deleted_at kt.2) cutoff = false) (did_tombstones db) in
  sweep scan_r scan_d db hours cutoff
  = if (hours =? 0)%Z then Some (db, 0)
    else Some (set_did_tombstones (set_record_tombstones db keep_r) keep_d,
               (size (record_tombstones db) - size keep_r) + (size (did_tombstones db) - size keep_d)).
Proof.
  intros Hr Hd keep_r keep_d. unfold sweep. destruct (hours =? 0)%Z; [done|].
  rewrite (sweep_table_spec scan_r tomb_deleted_at cutoff Hr).
  rewrite (sweep_table_spec scan_d did_tomb_deleted_at cutoff Hd). done.
Qed.

Lemma sweep_exact_witness :
  exists db, sweep map_to_list map_to_list
    {| records := ∅; refs := ∅;
       record_tombstones := {["at://d/c/1" := {| tomb_rev := "3a"; tomb_deleted_at := "2026-01-01" |};
                             "at://d/c/2" := {| tomb_rev := "3b"; tomb_deleted_at := "2026-01-09" |}]};
       did_tombstones := ∅; sequence := 0 |} 72 "2026-01-05" = Some (db, 1)
    /\ record_tombstones db !! "at://d/c/1" = None.
Proof.
  rewrite (sweep_exact map_to_list map_to_list) by reflexivity.
  eexists. split; [reflexivity|reflexivity].
Defined.
