(* ===== verification/RecordStore.v ===== *)
(** * The record store

    [src/record_store/mod.rs]: the upserts, deletes and purges of the record
    tables of an instance without external storage, and the purge loop of
    [src/tombstones.rs].  Each function is one transaction, but for
    [write_local], whose two are kept apart.  A parser of JSON texts and the
    order in which a statement without [ORDER BY] scans a table are
    parameters. *)

From stdpp Require Import list strings gmap sorting.
From Stdlib Require Import ZArith.
From S2P Require Import Prelude RustStr Json StreamEvent RecordCodec Tombstones.

(** ** Data *)

Record PreparedRecord : Type := {
  p_did : string;
  p_collection : string;
  p_rkey : string;
  p_record_json : string;
  p_cid : string;
  p_rev : option string;
}.

(** The identity of a record. *)
Definition record_key (r : PreparedRecord) : RecordKey :=
  {| did := p_did r; StreamEvent.collection := p_collection r; StreamEvent.rkey := p_rkey r |}.

Definition prepared_uri (r : PreparedRecord) : string :=
  "at://" +:+ p_did r +:+ "/" +:+ p_collection r +:+ "/" +:+ p_rkey r.

Inductive WriteKind : Type := Network | Echoed | IndexOnly.

#[global] Instance WriteKind_eq_dec : EqDecision WriteKind.
Proof. solve_decision. Defined.

Inductive LocalWriteError : Type :=
| RowError
| RefsError.

(** A row an upsert inserted or changed: its id and the record it came from,
    which the code finds through the record's index. *)
Record WrittenRow : Type := { w_id : nat; w_record : PreparedRecord }.

(** Serde's parser of JSON texts and equality of JSON values, and the orders of
    unordered scans. *)
Class Runtime : Type := {
  from_str : string -> option value;
  value_eq : value -> value -> bool;
  scan : gmap RecordKey Row -> list (RecordKey * Row);
  scan_tombstones : gmap string Tombstone -> list (string * Tombstone);
  scan_did_tombstones : gmap string DidTombstone -> list (string * DidTombstone);
}.

(** A scan meets every row once. *)
Class RuntimeSpec (R : Runtime) : Prop := {
  scan_rows : forall m, scan m ≡ₚ map_to_list m;
  scan_tombstones_rows : forall m, scan_tombstones m ≡ₚ map_to_list m;
  scan_did_tombstones_rows : forall m, scan_did_tombstones m ≡ₚ map_to_list m;
}.

(** ** References *)

(** [collect_at_uris], as the list of its insertions. *)
Fixpoint collect_at_uris (v : value) : list string :=
  match v with
  | VString s => if starts_with "at://" s then [s] else []
  | VArray items => flat_map collect_at_uris items
  | VObject entries => flat_map (fun e => collect_at_uris e.2) entries
  | _ => []
  end.

Definition extract_at_uris (v : value) : gset string := list_to_set (collect_at_uris v).

(** [last_copies]: the records whose URI no later record has. *)
Fixpoint last_copies (l : list PreparedRecord) : list PreparedRecord :=
  match l with
  | [] => []
  | r :: rest =>
      if existsb (fun r' => prepared_uri r' =s prepared_uri r) rest then last_copies rest
      else r :: last_copies rest
  end.

Section Store.
Context `{R : Runtime} (backend : DatabaseBackend).

Definition ref_targets (body : string) : list string :=
  merge_sort String.le (elements (extract_at_uris (default VNull (from_str body)))).

(** ** Upserts *)

(** The id a new row gets: SQLite takes one more than the largest in use,
    Postgres the next of its sequence. *)
Definition fresh_id (db : Database) : nat :=
  match backend with
  | Sqlite => S (max_list (row_id <$> (map_to_list (records db)).*2))
  | Postgres => S (sequence db)
  end.

Definition bump_sequence (db : Database) : Database :=
  match backend with
  | Sqlite => db
  | Postgres =>
      {| records := records db; refs := refs db; record_tombstones := record_tombstones db;
         did_tombstones := did_tombstones db; sequence := S (sequence db) |}
  end.

(** The [WHERE] of a network upsert over a stored row. *)
Definition network_updates (held : Row) (r : PreparedRecord) : bool :=
  (negb (bool_decide (row_cid held = encode_cid (p_cid r)))
   || negb (row_record held =s p_record_json r)
   || bool_decide (row_indexed_at held = None))
  && match row_rev held, p_rev r with
     | Some held, Some new => rev_le held new
     | _, _ => true
     end.

(** [DO UPDATE SET ...] of each kind; [None] where its [WHERE] is false. *)
Definition on_conflict (kind : WriteKind) (now : Z) (held : Row) (r : PreparedRecord) : option Row :=
  match kind with
  | Network =>
      if network_updates held r then
        Some {| row_id := row_id held; row_cid := encode_cid (p_cid r); row_record := p_record_json r;
                row_rev := match p_rev r with Some rev => Some rev | None => row_rev held end;
                row_indexed_at := Some now; row_created_at := row_created_at held |}
      else None
  | Echoed =>
      Some {| row_id := row_id held; row_cid := encode_cid (p_cid r); row_record := p_record_json r;
              row_rev := row_rev held; row_indexed_at := None; row_created_at := row_created_at held |}
  | IndexOnly =>
      Some {| row_id := row_id held; row_cid := row_cid held; row_record := p_record_json r;
              row_rev := row_rev held; row_indexed_at := row_indexed_at held;
              row_created_at := row_created_at held |}
  end.

(** The row an upsert inserts. *)
Definition new_row (kind : WriteKind) (now : Z) (id : nat) (r : PreparedRecord) : Row :=
  {| row_id := id; row_cid := encode_cid (p_cid r); row_record := p_record_json r;
     row_rev := match kind with Network => p_rev r | _ => None end;
     row_indexed_at := match kind with Network => Some now | _ => None end;
     row_created_at := now |}.

(** One row of the upsert; the statement's rows have distinct identities, so
    it handles them one after the other. *)
Definition upsert_row (kind : WriteKind) (now : Z) (db : Database) (r : PreparedRecord)
    : Database * option WrittenRow :=
  let k := record_key r in
  let db' := bump_sequence db in
  match records db !! k with
  | Some held =>
      match on_conflict kind now held r with
      | Some row => (set_records db' (<[k := row]> (records db)), Some {| w_id := row_id row; w_record := r |})
      | None => (db', None)
      end
  | None =>
      let id := fresh_id db in
      (set_records db' (<[k := new_row kind now id r]> (records db)), Some {| w_id := id; w_record := r |})
  end.

Fixpoint upsert_rows (kind : WriteKind) (now : Z) (db : Database) (rs : list PreparedRecord)
    : Database * list WrittenRow :=
  match rs with
  | [] => (db, [])
  | r :: rest =>
      let '(db1, w) := upsert_row kind now db r in
      let '(db2, ws) := upsert_rows kind now db1 rest in
      (db2, option_list w ++ ws)
  end.

(** [INSERT ... ON CONFLICT DO NOTHING] of the references of one source row;
    the foreign key refuses a source that is not stored. *)
Definition has_row (db : Database) (id : nat) : bool :=
  existsb (fun kr => row_id kr.2 =? id) (map_to_list (records db)).

Definition insert_ref (w : WrittenRow) (m : gmap (nat * RefTarget) string) (target : string)
    : gmap (nat * RefTarget) string :=
  let k := (w_id w, parse target) in
  match m !! k with Some _ => m | None => <[k := p_collection (w_record w)]> m end.

Definition insert_refs (db : Database) (m : gmap (nat * RefTarget) string) (w : WrittenRow)
    : option (gmap (nat * RefTarget) string) :=
  let targets := ref_targets (p_record_json (w_record w)) in
  match targets with
  | [] => Some m
  | _ => if has_row db (w_id w) then Some (foldl (insert_ref w) m targets) else None
  end.

(** [DELETE FROM happyview_record_refs_v2 WHERE source_id IN (...)]. *)
Definition drop_refs (m : gmap (nat * RefTarget) string) (ids : list nat) : gmap (nat * RefTarget) string :=
  filter (fun kc => kc.1.1 ∉ ids) m.

(** [None] is a refused foreign key, which rolls the transaction back. *)
Definition sync_refs (db : Database) (written : list WrittenRow) : option Database :=
  m ← foldl (fun acc w => m ← acc; insert_refs db m w)
        (Some (drop_refs (refs db) (w_id <$> written))) written;
  Some (set_refs db m).

Definition candidate_of (r : PreparedRecord) : WriteCandidate :=
  {| cand_uri := prepared_uri r; cand_did := p_did r; cand_rev := p_rev r |}.

(** [upsert_batch_in]: the database after the transaction and the URIs of the
    rows written. *)
Definition upsert_batch (kind : WriteKind) (now : Z) (db : Database) (rs : list PreparedRecord)
    : option (Database * list string) :=
  match rs with
  | [] => Some (db, [])
  | _ =>
      let rs := last_copies rs in
      let rs :=
        match kind with
        | Network =>
            let blocked := blocked_writes db (candidate_of <$> rs) in
            filter (fun r => prepared_uri r ∉ blocked) rs
        | _ => rs
        end in
      let '(db1, written) := upsert_rows kind now db rs in
      db2 ← sync_refs db1 written;
      Some (db2, (fun w => prepared_uri (w_record w)) <$> written)
  end.

Definition write_network (now : Z) (db : Database) (rs : list PreparedRecord) : option (Database * list string) :=
  upsert_batch Network now db rs.

(** The two transactions of [write_local]: the row, then its references. *)
Definition write_local_row (kind : WriteKind) (now : Z) (db : Database) (r : PreparedRecord)
    : result (Database * list WrittenRow) LocalWriteError :=
  match kind with
  | Network => Err RowError
  | _ => Ok (upsert_rows kind now db [r])
  end.

Definition write_local_refs (db : Database) (written : list WrittenRow) : result Database LocalWriteError :=
  match sync_refs db written with Some db' => Ok db' | None => Err RefsError end.

(** [write_local] with nothing between its transactions. *)
Definition write_local (kind : WriteKind) (now : Z) (db : Database) (r : PreparedRecord)
    : Database * result unit LocalWriteError :=
  match write_local_row kind now db r with
  | Err e => (db, Err e)
  | Ok (db1, written) =>
      match write_local_refs db1 written with
      | Ok db2 => (db2, Ok tt)
      | Err e => (db1, Err e)
      end
  end.

(** ** Deletes *)

Definition find (db : Database) (did collection rkey : string) : option (nat * option string) :=
  (fun row => (row_id row, row_rev row))
    <$> records db !! {| did := did; StreamEvent.collection := collection; StreamEvent.rkey := rkey |}.

(** [delete_ids]: the references of the rows, then the rows. *)
Definition delete_ids (db : Database) (ids : list nat) : Database * nat :=
  let kept := filter (fun kr => row_id kr.2 ∉ ids) (records db) in
  (set_records (set_refs db (drop_refs (refs db) ids)) kept, size (records db) - size kept).

Definition delete (db : Database) (uri : string) : Database * bool :=
  match parse_record_uri uri with
  | None => (db, false)
  | Some (did, collection, rkey) =>
      match find db did collection rkey with
      | Some (id, _) => let '(db', n) := delete_ids db [id] in (db', 0 <? n)
      | None => (db, false)
      end
  end.

(** Whether the account holds a network record of the collection, or a
    backfill that covers it still runs. *)
Definition create_may_follow (db : Database) (did0 collection0 : string) (backfill_running : bool) : bool :=
  existsb (fun kr => (did kr.1 =s did0) && (StreamEvent.collection kr.1 =s collection0)
                     && bool_decide (is_Some (row_indexed_at kr.2))) (map_to_list (records db))
  || backfill_running.

Definition delete_network (db : Database) (uri did collection : string) (rev : option string) (now : string)
    (backfill_running : bool) : Database :=
  let rkey := match parse_record_uri uri with Some (_, _, rkey) => rkey | None => EmptyString end in
  let found := find db did collection rkey in
  match rev with
  | Some rev =>
      let deletable :=
        match found with
        | Some (id, stored) =>
            if match stored with None => true | Some stored => rev_le stored rev end then Some id else None
        | None => None
        end in
      let '(db1, deleted) :=
        match deletable with
        | Some id => let '(db1, n) := delete_ids db [id] in (db1, 0 <? n)
        | None => (db, false)
        end in
      let survived := negb deleted && bool_decide (is_Some found) in
      let tombstone := deleted || (negb survived && create_may_follow db1 did collection backfill_running) in
      if tombstone then write_record_tombstone db1 uri rev now else db1
  | None =>
      match found with
      | Some (id, stored_rev) =>
          let db1 := (delete_ids db [id]).1 in
          match stored_rev with
          | Some stored_rev => write_record_tombstone db1 uri stored_rev now
          | None => db1
          end
      | None => db
      end
  end.

(** The end the conditional deletes share: remove the row, tombstone it at
    the rev it was stored at. *)
Definition delete_found (db : Database) (uri now : string) (id : nat) (stored_rev : option string) : Database :=
  let db1 := (delete_ids db [id]).1 in
  match stored_rev with
  | Some rev => write_record_tombstone db1 uri rev now
  | None => db1
  end.

Definition delete_network_if_body (db : Database)
    (uri did collection : string) (expected : value) (now : string) : Database * bool :=
  match parse_record_uri uri with
  | None => (db, false)
  | Some (_, _, rkey) =>
      let stored := records db !! {| did := did; StreamEvent.collection := collection; StreamEvent.rkey := rkey |} in
      let holds_expected :=
        is_some_and (row ← stored; from_str (row_record row)) (fun body => value_eq body expected) in
      if negb holds_expected then (db, false)
      else
        match find db did collection rkey with
        | None => (db, false)
        | Some (id, stored_rev) => (delete_found db uri now id stored_rev, true)
        end
  end.

Definition delete_network_if_unchanged (db : Database) (uri did collection : string)
    (expected_cid expected_rev : option string) (now : string) : Database * bool :=
  match parse_record_uri uri with
  | None => (db, false)
  | Some (_, _, rkey) =>
      match records db !! {| did := did; StreamEvent.collection := collection; StreamEvent.rkey := rkey |} with
      | None => (db, false)
      | Some row =>
          if bool_decide (row_indexed_at row = None) then (db, false)
          else if negb (bool_decide (Some (decode_cid (row_cid row)) = expected_cid))
                  || negb (bool_decide (row_rev row = expected_rev)) then (db, false)
          else (delete_found db uri now (row_id row) (row_rev row), true)
      end
  end.

(** ** Purges *)

(** The filter of [held_network_ids]. *)
Definition held (did0 : string) (collections : option (list string)) (before_rev : option string)
    (kr : RecordKey * Row) : bool :=
  (did kr.1 =s did0)
  && bool_decide (is_Some (row_indexed_at kr.2))
  && match collections with Some cs => str_mem (StreamEvent.collection kr.1) cs | None => true end
  && match before_rev with
     | Some before => match row_rev kr.2 with Some rev => rev_lt rev before | None => true end
     | None => true
     end.

Definition held_network_ids (db : Database) (did : string) (collections : option (list string))
    (before_rev : option string) (limit : nat) : list nat :=
  (fun kr => row_id kr.2)
    <$> take limit (filter (fun kr => Is_true (held did collections before_rev kr)) (scan (records db))).

Definition holds_local_network_records (db : Database) (did : string) (collections : option (list string)) : bool :=
  match held_network_ids db did collections None 1 with [] => false | _ => true end.

Definition holds_network_records_before (db : Database) (did : string) (collections : option (list string))
    (before_rev : string) : bool :=
  match held_network_ids db did collections (Some before_rev) 1 with [] => false | _ => true end.

Definition purge_network_batch (db : Database) (did : string) (collections : option (list string)) (limit : nat)
    : Database * nat :=
  let ids := held_network_ids db did collections None limit in
  ((delete_ids db ids).1, length ids).

Definition purge_network_batch_before (db : Database) (did : string) (collections : option (list string))
    (before_rev : string) (limit : nat) : Database * nat :=
  let ids := held_network_ids db did collections (Some before_rev) limit in
  ((delete_ids db ids).1, length ids).

(** One round of the loop of [purge_local]. *)
Definition purge_round (did : string) (collections : option (list string)) (before_rev : option string)
    (st : Database * nat) : (Database * nat) + (Database * nat) :=
  let '(db, purged) := st in
  let '(db', deleted) :=
    match before_rev with
    | None => purge_network_batch db did collections PURGE_BATCH
    | Some before => purge_network_batch_before db did collections before PURGE_BATCH
    end in
  if deleted <? PURGE_BATCH then inr (db', purged + deleted) else inl (db', purged + deleted).

(** [inl] would be a loop that has not ended within a round per row. *)
Definition purge_local (db : Database) (did : string) (collections : option (list string))
    (before_rev : option string) : (Database * nat) + (Database * nat) :=
  let held :=
    match before_rev with
    | None => holds_local_network_records db did collections
    | Some before => holds_network_records_before db did collections before
    end in
  if negb held then inr (db, 0)
  else iter_until (purge_round did collections before_rev) (Pos.of_succ_nat (size (records db))) (db, 0).

Definition purge (db : Database) (did : string) (collections : option (list string))
    (before_rev : option string) : (Database * nat) + (Database * nat) :=
  match collections with
  | Some [] => inr (db, 0)
  | _ => purge_local db did collections before_rev
  end.

Definition purge_did_records (db : Database) (did : string) (collections : option (list string)) :=
  purge db did collections None.

Definition purge_did_records_before (db : Database) (did : string) (collections : option (list string))
    (before_rev : string) :=
  purge db did collections (Some before_rev).

(** ** Reads *)

(** [network_keys_of]: by rkey. *)
Definition by_rkey (a b : string * (string * option string)) : Prop := String.le a.1 b.1.
#[global] Instance by_rkey_dec a b : Decision (by_rkey a b).
Proof. unfold by_rkey. apply _. Defined.

Definition network_keys_of (db : Database) (did0 collection0 : string) : list (string * (string * option string)) :=
  merge_sort by_rkey
    ((fun kr => (StreamEvent.rkey kr.1, (decode_cid (row_cid kr.2), row_rev kr.2)))
       <$> filter (fun kr => Is_true ((did kr.1 =s did0) && (StreamEvent.collection kr.1 =s collection0)
                                      && bool_decide (is_Some (row_indexed_at kr.2)))) (scan (records db))).

Definition network_row (db : Database) (did collection rkey : string)
    : option (string * option string * string) :=
  row ← records db !! {| did := did; StreamEvent.collection := collection; StreamEvent.rkey := rkey |};
  if bool_decide (is_Some (row_indexed_at row)) then Some (decode_cid (row_cid row), row_rev row, row_record row)
  else None.

End Store.

(** ** Keys and URIs *)

(** A key whose URI reads back as its parts. *)
Definition clean (k : RecordKey) : Prop :=
  parse_record_uri (uri k) = Some (did k, StreamEvent.collection k, StreamEvent.rkey k).

Lemma clean_uri_inj k k' : clean k -> clean k' -> uri k = uri k' -> k = k'.
Proof. unfold clean. intros H H' E. rewrite E, H' in H. destruct k, k'; simpl in *. congruence. Qed.

Lemma prepared_uri_key r : prepared_uri r = uri (record_key r).
Proof. reflexivity. Qed.

Lemma last_copies_sub r rs : r ∈ last_copies rs -> r ∈ rs.
Proof.
  induction rs as [|r' rs IH]; [done|]. cbn [last_copies].
  destruct (existsb _ rs); intros Hin; [by right; apply IH|].
  apply elem_of_cons in Hin as [->|Hin]; [left|right; auto].
Qed.

Lemma last_copies_NoDup rs : NoDup (prepared_uri <$> last_copies rs).
Proof.
  induction rs as [|r rs IH]; [constructor|]. cbn [last_copies].
  destruct (existsb _ rs) eqn:E; [done|]. cbn. constructor; [|done].
  rewrite list_elem_of_fmap. intros (r' & Hu & Hin%last_copies_sub).
  assert (existsb (fun r' => prepared_uri r' =s prepared_uri r) rs = true); [|congruence].
  apply existsb_elem. exists r'. split; [done|]. by apply String.eqb_eq.
Qed.

Lemma NoDup_fmap_filter {A B} (f : A -> B) (P : A -> Prop) `{forall x, Decision (P x)} l :
  NoDup (f <$> l) -> NoDup (f <$> filter P l).
Proof. intros. eapply sublist_NoDup; [done|apply fmap_sublist, sublist_filter]. Qed.

Lemma NoDup_uri_key rs : NoDup (prepared_uri <$> rs) -> NoDup (record_key <$> rs).
Proof.
  intros H. apply (NoDup_fmap_1 uri). rewrite <- list_fmap_compose.
  erewrite list_fmap_ext; [exact H|]. intros. apply prepared_uri_key.
Qed.

(** ** Row ids *)

Definition ids_unique (db : Database) : Prop :=
  forall k1 k2 r1 r2, records db !! k1 = Some r1 -> records db !! k2 = Some r2 ->
    row_id r1 = row_id r2 -> k1 = k2.

(** Every reference belongs to a stored row. *)
Definition refs_owned (db : Database) : Prop :=
  forall id t c, refs db !! (id, t) = Some c -> exists k row, records db !! k = Some row /\ row_id row = id.

(** A stored rev is newer than the record's tombstone. *)
Definition rows_above_tombstones (db : Database) : Prop :=
  forall k row rev t, clean k -> records db !! k = Some row -> row_rev row = Some rev ->
    record_tombstones db !! uri k = Some t -> rev_lt (tomb_rev t) rev = true.

Section StoreProofs.
Context `{R : Runtime} (backend : DatabaseBackend).

Definition ids_below_sequence (db : Database) : Prop :=
  backend = Postgres -> forall k row, records db !! k = Some row -> row_id row <= sequence db.

Record sound (db : Database) : Prop := {
  sound_ids : ids_unique db;
  sound_sequence : ids_below_sequence db;
  sound_refs : refs_owned db;
  sound_tombstones : rows_above_tombstones db;
}.

Lemma max_list_elem x l : x ∈ l -> x <= max_list l.
Proof. induction 1; simpl; lia. Qed.

Lemma fresh_id_above db k row :
  ids_below_sequence db -> records db !! k = Some row -> row_id row < fresh_id backend db.
Proof.
  unfold ids_below_sequence, fresh_id. intros Hseq Hk. destruct backend.
  - apply Nat.lt_succ_r, max_list_elem, list_elem_of_fmap. exists row. split; [done|].
    apply list_elem_of_fmap. exists (k, row). split; [done|]. by apply elem_of_map_to_list.
  - specialize (Hseq eq_refl _ _ Hk). lia.
Qed.

Lemma bump_records db : records (bump_sequence backend db) = records db.
Proof. by destruct backend. Qed.
Lemma bump_refs db : refs (bump_sequence backend db) = refs db.
Proof. by destruct backend. Qed.
Lemma bump_tombstones db : record_tombstones (bump_sequence backend db) = record_tombstones db.
Proof. by destruct backend. Qed.
Lemma bump_did_tombstones db : did_tombstones (bump_sequence backend db) = did_tombstones db.
Proof. by destruct backend. Qed.
Lemma bump_sequence_le db : sequence db <= sequence (bump_sequence backend db).
Proof. destruct backend; simpl; lia. Qed.

(** ** One upserted row *)

(** What one upsert leaves at its key. *)
Definition upserted (kind : WriteKind) (now : Z) (db : Database) (r : PreparedRecord) : option Row :=
  match records db !! record_key r with
  | Some held => Some (default held (on_conflict kind now held r))
  | None => Some (new_row kind now (fresh_id backend db) r)
  end.

Lemma upsert_row_records kind now db r :
  records (upsert_row backend kind now db r).1
  = match upserted kind now db r with Some row => <[record_key r := row]> (records db) | None => records db end.
Proof.
  unfold upsert_row, upserted. destruct (records db !! record_key r) as [held|] eqn:E; [|done].
  destruct (on_conflict kind now held r) as [row|]; cbn; [done|].
  by rewrite bump_records, insert_id.
Qed.

Lemma upsert_row_lookup kind now db r k :
  records (upsert_row backend kind now db r).1 !! k
  = if decide (k = record_key r) then upserted kind now db r else records db !! k.
Proof.
  rewrite upsert_row_records. unfold upserted.
  destruct (records db !! record_key r) as [held|]; case_decide as Hk; subst;
    by rewrite ?lookup_insert_eq, ?lookup_insert_ne.
Qed.

Lemma upsert_row_rest kind now db r :
  refs (upsert_row backend kind now db r).1 = refs db
  /\ record_tombstones (upsert_row backend kind now db r).1 = record_tombstones db
  /\ did_tombstones (upsert_row backend kind now db r).1 = did_tombstones db
  /\ sequence (upsert_row backend kind now db r).1 = sequence (bump_sequence backend db).
Proof.
  unfold upsert_row. repeat case_match; simplify_eq; cbn;
    by rewrite ?bump_refs, ?bump_tombstones, ?bump_did_tombstones.
Qed.

Lemma on_conflict_id kind now held r row : on_conflict kind now held r = Some row -> row_id row = row_id held.
Proof. destruct kind; cbn; repeat case_match; naive_solver. Qed.

Lemma upserted_id kind now db r held row :
  records db !! record_key r = Some held -> upserted kind now db r = Some row -> row_id row = row_id held.
Proof.
  unfold upserted. intros -> [= <-]. destruct (on_conflict kind now held r) eqn:E; [|done].
  by eapply on_conflict_id.
Qed.

(** An upsert keeps the ids of the rows it finds. *)
Lemma upsert_row_keeps_id kind now db r k row :
  records db !! k = Some row ->
  exists row', records (upsert_row backend kind now db r).1 !! k = Some row' /\ row_id row' = row_id row.
Proof.
  intros Hk. rewrite upsert_row_lookup. case_decide as E; [|by exists row]. subst k.
  assert (exists row', upserted kind now db r = Some row') as [row' Hu]
    by (unfold upserted; rewrite Hk; by eexists).
  exists row'. split; [done|]. by eapply upserted_id.
Qed.

(** What a network write needs to keep stored revs above tombstones. *)
Definition admitted (kind : WriteKind) (db : Database) (r : PreparedRecord) : Prop :=
  kind = Network -> blocked db (candidate_of r) = false.

Lemma blocked_false db r t :
  blocked db (candidate_of r) = false -> record_tombstones db !! prepared_uri r = Some t ->
  exists rev, p_rev r = Some rev /\ rev_lt (tomb_rev t) rev = true.
Proof.
  unfold blocked. cbn. intros [Hb _]%orb_false_iff Ht. rewrite Ht in Hb. cbn in Hb.
  destruct (p_rev r) as [rev|]; [|done]. exists rev. split; [done|]. by apply rev_lt_spec.
Qed.

Lemma upserted_above kind now db r row rev t :
  rows_above_tombstones db -> admitted kind db r -> clean (record_key r) ->
  upserted kind now db r = Some row -> row_rev row = Some rev ->
  record_tombstones db !! uri (record_key r) = Some t -> rev_lt (tomb_rev t) rev = true.
Proof.
  intros Habove Hadm Hclean Hu Hrev Ht. unfold upserted in Hu.
  assert (Hnet : kind = Network -> p_rev r = Some rev -> rev_lt (tomb_rev t) rev = true).
  { intros Hk Hr. destruct (blocked_false db r t (Hadm Hk) Ht) as (? & ? & ?). congruence. }
  assert (Hnone : kind = Network -> p_rev r <> None).
  { intros Hk. destruct (blocked_false db r t (Hadm Hk) Ht) as (? & ? & ?). congruence. }
  destruct (records db !! record_key r) as [held|] eqn:Eh; simplify_eq.
  - assert (Hheld : row_rev held = Some rev -> rev_lt (tomb_rev t) rev = true) by (intros; by eapply Habove).
    destruct kind; cbn in Hrev; [|naive_solver..].
    destruct (network_updates held r); cbn in Hrev; [|auto].
    destruct (p_rev r) eqn:Er; [by apply Hnet|by destruct (Hnone eq_refl)].
  - destruct kind; cbn in Hrev; [by apply Hnet|done..].
Qed.

Lemma upsert_row_sound kind now db r :
  sound db -> admitted kind db r -> sound (upsert_row backend kind now db r).1.
Proof.
  intros [Hids Hseq Hrefs Htomb] Hadm.
  destruct (upsert_row_rest kind now db r) as (Er & Et & _ & Es). split.
  - intros k1 k2 r1 r2. rewrite !upsert_row_lookup.
    assert (Hnew : forall k row row', k <> record_key r -> records db !! k = Some row ->
              upserted kind now db r = Some row' -> row_id row <> row_id row').
    { intros k row row' Hne Hk Hu Heq. unfold upserted in Hu.
      destruct (records db !! record_key r) as [held|] eqn:Eh.
      - apply Hne. eapply Hids; [done..|]. rewrite Heq. eapply upserted_id; [done|]. unfold upserted. by rewrite Eh.
      - simplify_eq. cbn in Heq. pose proof (fresh_id_above _ _ _ Hseq Hk). lia. }
    repeat case_decide; subst; try done; intros H1 H2 Heq;
      [exfalso; eapply Hnew; by eauto|exfalso; eapply Hnew; by eauto|by eapply Hids].
  - intros Hpg k row. rewrite Es, upsert_row_lookup. case_decide as E.
    + subst k. unfold upserted, fresh_id, bump_sequence. rewrite Hpg. cbn [sequence].
      destruct (records db !! record_key r) as [held|] eqn:Eh.
      * intros [= <-]. specialize (Hseq Hpg _ _ Eh).
        destruct (on_conflict kind now held r) eqn:Ec; simpl; [rewrite (on_conflict_id _ _ _ _ _ Ec)|]; lia.
      * intros [= <-]. simpl. lia.
    + intros Hk. pose proof (bump_sequence_le db). specialize (Hseq Hpg _ _ Hk). lia.
  - intros id t c. rewrite Er. intros (k & row & Hk & <-)%Hrefs.
    destruct (upsert_row_keeps_id kind now db r k row Hk) as (row' & ? & ?). by exists k, row'.
  - intros k row rev t Hc. rewrite Et, upsert_row_lookup. case_decide as E; [subst k|by apply Htomb].
    intros. by eapply upserted_above.
Qed.

(** ** Batches *)

Lemma upsert_rows_cons kind now db r rs :
  upsert_rows backend kind now db (r :: rs)
  = ((upsert_rows backend kind now (upsert_row backend kind now db r).1 rs).1,
     option_list (upsert_row backend kind now db r).2
       ++ (upsert_rows backend kind now (upsert_row backend kind now db r).1 rs).2).
Proof. cbn. destruct (upsert_row _ _ _ _ _). cbn. by destruct (upsert_rows _ _ _ _ _). Qed.

Lemma upsert_rows_rest kind now rs : forall db,
  refs (upsert_rows backend kind now db rs).1 = refs db
  /\ record_tombstones (upsert_rows backend kind now db rs).1 = record_tombstones db
  /\ did_tombstones (upsert_rows backend kind now db rs).1 = did_tombstones db.
Proof.
  induction rs as [|r rs IH]; intros db; [done|]. rewrite upsert_rows_cons. cbn [fst].
  destruct (upsert_row_rest kind now db r) as (E1 & E2 & E3 & _).
  destruct (IH (upsert_row backend kind now db r).1) as (-> & -> & ->). auto.
Qed.

Lemma upsert_rows_sound kind now rs : forall db,
  sound db -> (forall r, r ∈ rs -> admitted kind db r) -> sound (upsert_rows backend kind now db rs).1.
Proof.
  induction rs as [|r rs IH]; intros db Hs Hadm; [done|]. rewrite upsert_rows_cons. cbn [fst]. apply IH.
  - apply upsert_row_sound; [done|]. apply Hadm. by left.
  - intros r' Hin Hk. unfold blocked.
    destruct (upsert_row_rest kind now db r) as (_ & -> & -> & _).
    apply Hadm; [by right|done].
Qed.

Lemma upsert_rows_keeps_id kind now rs : forall db k row,
  records db !! k = Some row ->
  exists row', records (upsert_rows backend kind now db rs).1 !! k = Some row' /\ row_id row' = row_id row.
Proof.
  induction rs as [|r rs IH]; intros db k row Hk; [by exists row|]. rewrite upsert_rows_cons. cbn [fst].
  destruct (upsert_row_keeps_id kind now db r k row Hk) as (row1 & H1 & <-). by apply IH.
Qed.

Lemma upsert_rows_other kind now rs : forall db k,
  k ∉ record_key <$> rs -> records (upsert_rows backend kind now db rs).1 !! k = records db !! k.
Proof.
  induction rs as [|r rs IH]; intros db k Hk; [done|]. rewrite upsert_rows_cons. cbn [fst].
  rewrite fmap_cons, not_elem_of_cons in Hk. destruct Hk as [Hne Hk].
  by rewrite IH, upsert_row_lookup, decide_False.
Qed.

Lemma upsert_row_written kind now db r w :
  (upsert_row backend kind now db r).2 = Some w ->
  w_record w = r /\ exists row, records (upsert_row backend kind now db r).1 !! record_key r = Some row
                                /\ row_id row = w_id w.
Proof.
  rewrite upsert_row_lookup, decide_True by done. unfold upsert_row, upserted.
  destruct (records db !! record_key r) as [held|]; [|intros [= <-]; split; [done|]; by eexists].
  destruct (on_conflict kind now held r) as [row|]; [|done]. intros [= <-]. split; [done|]. by eexists.
Qed.

(** A written row is stored under its record's key and id. *)
Lemma upsert_rows_written kind now rs : forall db w,
  w ∈ (upsert_rows backend kind now db rs).2 ->
  w_record w ∈ rs /\ exists row, records (upsert_rows backend kind now db rs).1 !! record_key (w_record w) = Some row
                                 /\ row_id row = w_id w.
Proof.
  induction rs as [|r rs IH]; intros db w; [by intros ?%elem_of_nil|].
  rewrite upsert_rows_cons. cbn [fst snd]. rewrite elem_of_app. intros [Hw|Hw].
  - destruct (upsert_row backend kind now db r).2 as [w'|] eqn:E; cbn in Hw; [|by apply elem_of_nil in Hw].
    apply list_elem_of_singleton in Hw as ->.
    destruct (upsert_row_written _ _ _ _ _ E) as (-> & row & Hk & <-). split; [by left|].
    by apply upsert_rows_keeps_id.
  - destruct (IH _ _ Hw) as (? & ?). split; [by right|done].
Qed.

Lemma upsert_rows_written_NoDup kind now rs : forall db,
  NoDup (record_key <$> rs) -> NoDup ((fun w => record_key (w_record w)) <$> (upsert_rows backend kind now db rs).2).
Proof.
  induction rs as [|r rs IH]; intros db; [constructor|]. rewrite upsert_rows_cons. cbn [fst snd].
  rewrite fmap_cons. intros [Hr Hnd]%NoDup_cons. rewrite fmap_app.
  destruct (upsert_row backend kind now db r).2 as [w|] eqn:E; cbn; [|by apply IH].
  apply NoDup_cons. split; [|by apply IH].
  destruct (upsert_row_written _ _ _ _ _ E) as (-> & _).
  rewrite list_elem_of_fmap. intros (w' & Hk & Hw'). apply Hr. rewrite Hk.
  destruct (upsert_rows_written _ _ _ _ _ Hw') as (Hin & _). by apply list_elem_of_fmap_2.
Qed.

Lemma written_ids_NoDup kind now rs db :
  NoDup (record_key <$> rs) -> ids_unique (upsert_rows backend kind now db rs).1 ->
  NoDup (w_id <$> (upsert_rows backend kind now db rs).2).
Proof.
  intros Hnd Hids. pose proof (upsert_rows_written_NoDup kind now rs db Hnd) as Hk.
  assert (Hw := fun w => upsert_rows_written kind now rs db w).
  revert Hk Hw. generalize (upsert_rows backend kind now db rs).2.
  induction l as [|w l IH]; intros Hk Hw; [constructor|]. cbn in *.
  apply NoDup_cons in Hk as [Hx Hk]. apply NoDup_cons. split.
  - rewrite list_elem_of_fmap. intros (w' & Hid & Hin). apply Hx, list_elem_of_fmap. exists w'. split; [|done].
    destruct (Hw w ltac:(by left)) as (_ & r1 & H1 & E1). destruct (Hw w' ltac:(by right)) as (_ & r2 & H2 & E2).
    eapply Hids; [done..|congruence].
  - apply IH; [done|]. intros w' ?. apply Hw. by right.
Qed.

(** ** References follow their rows *)

Lemma has_row_true db id : has_row db id = true <-> exists k row, records db !! k = Some row /\ row_id row = id.
Proof.
  unfold has_row. rewrite existsb_elem. split.
  - intros ([k row] & Hin & He). apply elem_of_map_to_list in Hin. apply Nat.eqb_eq in He. by exists k, row.
  - intros (k & row & Hk & He). exists (k, row). rewrite elem_of_map_to_list. split; [done|].
    by apply Nat.eqb_eq.
Qed.

Lemma insert_ref_lookup w m target id t :
  insert_ref w m target !! (id, t)
  = match m !! (id, t) with
    | Some c => Some c
    | None => if decide (id = w_id w /\ t = parse target) then Some (p_collection (w_record w)) else None
    end.
Proof.
  unfold insert_ref. destruct (decide (id = w_id w /\ t = parse target)) as [[-> ->]|Hne].
  - destruct (m !! (w_id w, parse target)) eqn:E; [by rewrite E|by rewrite lookup_insert_eq].
  - destruct (m !! (w_id w, parse target)) eqn:E; [by destruct (m !! (id, t))|].
    rewrite lookup_insert_ne by (intros [= Hi Ht]; by apply Hne). by destruct (m !! (id, t)).
Qed.

Lemma insert_ref_fold w ts : forall m id t,
  foldl (insert_ref w) m ts !! (id, t)
  = match m !! (id, t) with
    | Some c => Some c
    | None => if decide (id = w_id w /\ t ∈ parse <$> ts) then Some (p_collection (w_record w)) else None
    end.
Proof.
  induction ts as [|x ts IH]; intros m id t; cbn [foldl].
  - rewrite decide_False; [by destruct (m !! (id, t))|]. intros [_ ?%elem_of_nil]. done.
  - rewrite IH, insert_ref_lookup. destruct (m !! (id, t)); [done|]. rewrite fmap_cons.
    destruct (decide (id = w_id w /\ t = parse x)) as [[-> ->]|Hne].
    + rewrite decide_True; [done|]. split; [done|by left].
    + apply decide_ext. rewrite elem_of_cons. naive_solver.
Qed.

(** The references the body of a written record asks for. *)
Definition wanted (w : WrittenRow) : list RefTarget := parse <$> ref_targets (p_record_json (w_record w)).

Lemma insert_refs_spec db m w :
  has_row db (w_id w) = true ->
  exists m', insert_refs db m w = Some m' /\
    forall id t, m' !! (id, t)
      = match m !! (id, t) with
        | Some c => Some c
        | None => if decide (id = w_id w /\ t ∈ wanted w) then Some (p_collection (w_record w)) else None
        end.
Proof.
  intros Hrow. unfold insert_refs, wanted. destruct (ref_targets (p_record_json (w_record w))) as [|x ts] eqn:E.
  - exists m. split; [done|]. intros id t. rewrite decide_False; [by destruct (m !! (id, t))|].
    intros [_ ?%elem_of_nil]. done.
  - rewrite Hrow. eexists. split; [done|]. intros id t. by rewrite insert_ref_fold.
Qed.

Lemma insert_all_spec db ws : forall m,
  (forall w, w ∈ ws -> has_row db (w_id w) = true) ->
  exists m', foldl (fun acc w => m ← acc; insert_refs db m w) (Some m) ws = Some m' /\
    (forall id t, id ∉ w_id <$> ws -> m' !! (id, t) = m !! (id, t)) /\
    (NoDup (w_id <$> ws) -> forall w, w ∈ ws -> (forall t, m !! (w_id w, t) = None) ->
       forall t, m' !! (w_id w, t) = if decide (t ∈ wanted w) then Some (p_collection (w_record w)) else None).
Proof.
  induction ws as [|w ws IH]; intros m Hrows; cbn [foldl].
  { exists m. split_and!; [done|done|]. intros _ w []%elem_of_nil. }
  destruct (insert_refs_spec db m w ltac:(apply Hrows; by left)) as (m1 & E1 & H1).
  cbn [mbind option_bind]. rewrite E1.
  destruct (IH m1 ltac:(intros; apply Hrows; by right)) as (m' & E' & Hother & Hin).
  exists m'. split_and!; [done| |].
  - intros id t. rewrite fmap_cons, not_elem_of_cons. intros [Hne Hni]. rewrite Hother, H1 by done.
    destruct (m !! (id, t)); [done|]. by rewrite decide_False by tauto.
  - rewrite fmap_cons. intros [Hw Hnd]%NoDup_cons w0 [->|Hw0]%elem_of_cons Hnone t.
    + rewrite Hother, H1, Hnone by done. apply decide_ext. tauto.
    + apply Hin; [done..|]. intros t'. rewrite H1, Hnone, decide_False; [done|]. intros [Heq _].
      apply Hw. rewrite <- Heq. by apply list_elem_of_fmap_2.
Qed.

Lemma drop_refs_lookup m ids id t :
  drop_refs m ids !! (id, t) = if decide (id ∈ ids) then None else m !! (id, t).
Proof.
  unfold drop_refs. rewrite map_lookup_filter. destruct (m !! (id, t)) as [c|]; cbn; [|by case_decide].
  case_decide as Hin; [rewrite option_guard_False|rewrite option_guard_True]; cbn; auto.
Qed.

(** Syncing the references of stored rows succeeds, gives each row exactly the
    references of its body and leaves those of other rows. *)
Lemma sync_refs_spec db ws :
  (forall w, w ∈ ws -> has_row db (w_id w) = true) ->
  exists m, sync_refs db ws = Some (set_refs db m) /\
    (forall id t, id ∉ w_id <$> ws -> m !! (id, t) = refs db !! (id, t)) /\
    (NoDup (w_id <$> ws) -> forall w, w ∈ ws -> forall t,
       m !! (w_id w, t) = if decide (t ∈ wanted w) then Some (p_collection (w_record w)) else None).
Proof.
  intros Hrows. destruct (insert_all_spec db ws (drop_refs (refs db) (w_id <$> ws)) Hrows) as (m & E & Ho & Hi).
  exists m. unfold sync_refs. rewrite E. split_and!; [done| |].
  - intros id t Hni. by rewrite Ho, drop_refs_lookup, decide_False.
  - intros Hnd w Hw t. apply Hi; [done..|]. intros t'. rewrite drop_refs_lookup, decide_True; [done|].
    by apply list_elem_of_fmap_2.
Qed.

(** ** A whole batch *)

(** The records of a batch that reach the upsert. *)
Definition batch (kind : WriteKind) (db : Database) (rs : list PreparedRecord) : list PreparedRecord :=
  match kind with
  | Network => filter (fun r => prepared_uri r ∉ blocked_writes db (candidate_of <$> last_copies rs)) (last_copies rs)
  | _ => last_copies rs
  end.

Lemma NoDup_uri_inj rs r r' :
  NoDup (prepared_uri <$> rs) -> r ∈ rs -> r' ∈ rs -> prepared_uri r = prepared_uri r' -> r = r'.
Proof.
  induction rs as [|x rs IH]; [by intros _ ?%elem_of_nil|]. rewrite fmap_cons.
  intros [Hx Hnd]%NoDup_cons [->|Hr]%elem_of_cons [->|Hr']%elem_of_cons E; [done| | |by apply IH].
  - destruct Hx. rewrite E. by apply list_elem_of_fmap_2.
  - destruct Hx. rewrite <- E. by apply list_elem_of_fmap_2.
Qed.

(** Which records of a batch are upserted. *)
Lemma batch_elem kind db rs r :
  r ∈ batch kind db rs <-> r ∈ last_copies rs /\ admitted kind db r.
Proof.
  assert (Hnet : prepared_uri r ∈ blocked_writes db (candidate_of <$> last_copies rs)
                 <-> exists r', r' ∈ last_copies rs /\ prepared_uri r' = prepared_uri r
                               /\ blocked db (candidate_of r') = true).
  { unfold blocked_writes. rewrite elem_of_list_to_set, list_elem_of_fmap. split.
    - intros (c & Hc & [Hb Hin]%list_elem_of_filter). apply list_elem_of_fmap in Hin as (r' & -> & Hin).
      exists r'. split_and!; [done|by rewrite Hc|]. by apply Is_true_eq_true.
    - intros (r' & Hin & Hu & Hb). exists (candidate_of r'). split; [done|].
      apply list_elem_of_filter. split; [by apply Is_true_eq_left|]. by apply list_elem_of_fmap_2. }
  unfold admitted. destruct kind; cbn [batch]; [|naive_solver..].
  rewrite list_elem_of_filter, Hnet. split.
  - intros [Hn Hin]. split; [done|]. intros _. destruct (blocked db (candidate_of r)) eqn:E; [|done].
    destruct Hn. by exists r.
  - intros [Hin Hb]. split; [|done]. intros (r' & Hin' & Hu & Hb').
    rewrite (NoDup_uri_inj _ _ _ (last_copies_NoDup rs) Hin' Hin Hu) in Hb'. rewrite Hb in Hb'; done.
Qed.

Lemma batch_NoDup kind db rs : NoDup (record_key <$> batch kind db rs).
Proof.
  apply NoDup_uri_key. unfold batch.
  destruct kind; [apply NoDup_fmap_filter|..]; apply last_copies_NoDup.
Qed.

(** The state of the references after the rows [ws] were written. *)
Definition refs_synced (db db' : Database) (ws : list WrittenRow) : Prop :=
  (forall id t, id ∉ w_id <$> ws -> refs db' !! (id, t) = refs db !! (id, t)) /\
  (forall w t, w ∈ ws ->
     refs db' !! (w_id w, t) = if decide (t ∈ wanted w) then Some (p_collection (w_record w)) else None).

Lemma refs_owned_sync db db' ws :
  refs_owned db -> records db' = records db -> (forall w, w ∈ ws -> has_row db (w_id w) = true) ->
  refs_synced db db' ws -> refs_owned db'.
Proof.
  intros Hown Hr Hrows [Hother Hin] id t c. unfold refs_owned in Hown. rewrite Hr.
  destruct (decide (id ∈ w_id <$> ws)) as [Hid|Hid].
  - intros _. apply list_elem_of_fmap in Hid as (w & -> & Hw). by apply has_row_true, Hrows.
  - rewrite Hother by done. by apply Hown.
Qed.

Lemma upsert_batch_spec kind now db rs :
  sound db ->
  let up := upsert_rows backend kind now db (batch kind db rs) in
  exists db', upsert_batch backend kind now db rs = Some (db', (fun w => prepared_uri (w_record w)) <$> up.2)
    /\ records db' = records up.1 /\ record_tombstones db' = record_tombstones db
    /\ did_tombstones db' = did_tombstones db /\ refs_synced db db' up.2 /\ sound db'.
Proof.
  intros Hs up.
  assert (Hadm : forall r, r ∈ batch kind db rs -> admitted kind db r) by (intros r [_ Hr]%batch_elem; exact Hr).
  pose proof (upsert_rows_sound kind now _ db Hs Hadm) as Hs1. fold up in Hs1.
  destruct (upsert_rows_rest kind now (batch kind db rs) db) as (Er & Et & Ed).
  fold up in Er, Et, Ed.
  assert (Hrows : forall w, w ∈ up.2 -> has_row up.1 (w_id w) = true).
  { intros w Hw. destruct (upsert_rows_written _ _ _ _ _ Hw) as (_ & row & Hk & Hid).
    apply has_row_true. by exists (record_key (w_record w)), row. }
  destruct (sync_refs_spec up.1 up.2 Hrows) as (m & Em & Hother & Hin).
  specialize (Hin (written_ids_NoDup kind now _ db (batch_NoDup kind db rs) (sound_ids _ Hs1))).
  destruct rs as [|r0 rs0].
  { exists db. assert (E : up = (db, [])) by (unfold up, batch; destruct kind; reflexivity). rewrite E. cbn.
    split_and!; try done. split; [done|]. intros ? ? []%elem_of_nil. }
  exists (set_refs up.1 m). split_and!; try done.
  - transitivity (let '(db1, ws) := up in
                  db2 ← sync_refs db1 ws; Some (db2, (fun w => prepared_uri (w_record w)) <$> ws)).
    { unfold up, batch. by destruct kind. }
    destruct up as [db1 ws]. cbn [fst snd] in Em |- *. by rewrite Em.
  - split; [intros id t Hni; cbn; by rewrite <- Er; apply Hother|intros w t Hw; by apply Hin].
  - destruct Hs1 as [H1 H2 H3 H4]. split; [done|done| |done].
    eapply (refs_owned_sync up.1); [done|done|done|].
    split; [done|]. intros w t Hw. by apply Hin.
Qed.

(** Syncing the references of a row that may be gone. *)
Lemma insert_refs_owned db m m' w :
  insert_refs db m w = Some m' ->
  (forall id t c, m !! (id, t) = Some c -> has_row db id = true) ->
  forall id t c, m' !! (id, t) = Some c -> has_row db id = true.
Proof.
  unfold insert_refs. destruct (ref_targets _) as [|x ts] eqn:E; [by intros [= ->]|].
  destruct (has_row db (w_id w)) eqn:Hr; [|done]. intros [= <-] Hm id t c.
  change (foldl _ _ ts) with (foldl (insert_ref w) m (x :: ts)). rewrite insert_ref_fold.
  destruct (m !! (id, t)) eqn:Em; [intros _; by eapply Hm|].
  case_decide as Hd; [|done]. destruct Hd as [-> _]. by intros _.
Qed.

Lemma sync_refs_some db ws db' :
  sync_refs db ws = Some db' -> sound db ->
  sound db' /\ records db' = records db /\ record_tombstones db' = record_tombstones db
  /\ did_tombstones db' = did_tombstones db.
Proof.
  unfold sync_refs. intros H [H1 H2 H3 H4].
  destruct (foldl _ _ ws) as [m|] eqn:E; [|done]. simplify_option_eq.
  split; [|done]. split; [done|done| |done].
  assert (Hall : forall id t c, m !! (id, t) = Some c -> has_row db id = true).
  { revert E. generalize (w_id <$> ws) as ids. intros ids.
    assert (H0 : forall id t c, drop_refs (refs db) ids !! (id, t) = Some c -> has_row db id = true).
    { intros id t c. rewrite drop_refs_lookup. case_decide; [done|]. intros Hc. apply has_row_true.
      by eapply H3. }
    revert H0. generalize (drop_refs (refs db) ids) as m0. induction ws as [|w ws IH]; intros m0 H0 E; cbn in E.
    - by simplify_eq.
    - destruct (insert_refs db m0 w) as [m1|] eqn:E1.
      + eapply IH; [|done]. by eapply insert_refs_owned.
      + exfalso. clear -E. induction ws as [|w' ws IH]; cbn in E; [done|auto]. }
  intros id t c Hc. apply has_row_true. by eapply Hall.
Qed.

(** ** Deletes *)

Lemma delete_ids_lookup db ids k :
  records (delete_ids db ids).1 !! k
  = match records db !! k with
    | Some row => if decide (row_id row ∈ ids) then None else Some row
    | None => None
    end.
Proof.
  unfold delete_ids. cbn. rewrite map_lookup_filter. destruct (records db !! k) as [row|]; [|done]. cbn.
  case_decide; [rewrite option_guard_False|rewrite option_guard_True]; cbn; auto.
Qed.

Lemma delete_ids_sound db ids : sound db -> sound (delete_ids db ids).1.
Proof.
  intros [H1 H2 H3 H4]. split.
  - intros k1 k2 r1 r2. rewrite !delete_ids_lookup. repeat case_match; intros; simplify_eq. by eapply H1.
  - intros Hpg k row. rewrite delete_ids_lookup. repeat case_match; intros; simplify_eq. by eapply H2.
  - intros id t c. cbn. rewrite drop_refs_lookup. case_decide as Hid; [done|].
    intros (k & row & Hk & <-)%H3. exists k, row. split; [|done].
    change (records (delete_ids db ids).1 !! k = Some row). rewrite delete_ids_lookup, Hk.
    by rewrite decide_False.
  - intros k row rev t Hc. rewrite delete_ids_lookup. repeat case_match; intros; simplify_eq. by eapply H4.
Qed.

(** Deleting the id of a stored row deletes that row and no other. *)
Lemma delete_one db k row :
  ids_unique db -> records db !! k = Some row ->
  records (delete_ids db [row_id row]).1 = base.delete k (records db) /\ (delete_ids db [row_id row]).2 = 1.
Proof.
  intros Hids Hk.
  assert (E : records (delete_ids db [row_id row]).1 = base.delete k (records db)).
  { apply map_eq. intros k'. rewrite delete_ids_lookup. destruct (decide (k' = k)) as [->|Hne].
    - rewrite lookup_delete_eq, Hk, decide_True; [done|by left].
    - rewrite lookup_delete_ne by done. destruct (records db !! k') as [row'|] eqn:Ek; [|done].
      rewrite decide_False; [done|]. rewrite list_elem_of_singleton. intros Heq. apply Hne. by eapply Hids. }
  split; [done|]. unfold delete_ids in *. cbn in E |- *. rewrite E, map_size_delete, Hk.
  assert (size (records db) <> 0); [|cbn; lia]. apply map_size_ne_0_lookup. exists k. by rewrite Hk.
Qed.

Lemma write_record_tombstone_sound db u r n :
  sound db -> (forall k, clean k -> uri k = u -> records db !! k = None) ->
  sound (write_record_tombstone db u r n).
Proof.
  intros [H1 H2 H3 H4] Hgone. split.
  - intros k1 k2 r1 r2. rewrite write_record_tombstone_records. apply H1.
  - intros Hpg k row. rewrite write_record_tombstone_records, write_record_tombstone_sequence. by apply H2.
  - intros id t c. rewrite write_record_tombstone_refs, write_record_tombstone_records. apply H3.
  - intros k row rev t Hc. rewrite write_record_tombstone_records. intros Hk Hrev.
    destruct (decide (uri k = u)) as [E|E]; [by rewrite (Hgone k Hc E) in Hk|].
    rewrite write_record_tombstone_other by done. by eapply H4.
Qed.

(** The three ways a delete of the record [k] can go. *)
Lemma delete_network_cases db k rev now bf :
  ids_unique db -> clean k ->
  delete_network db (uri k) (did k) (StreamEvent.collection k) rev now bf
  = match records db !! k with
    | Some row =>
        if match rev, row_rev row with Some r, Some held => rev_le held r | _, _ => true end then
          delete_found db (uri k) now (row_id row) (match rev with Some r => Some r | None => row_rev row end)
        else db
    | None =>
        match rev with
        | Some r =>
            if create_may_follow db (did k) (StreamEvent.collection k) bf
            then write_record_tombstone db (uri k) r now else db
        | None => db
        end
    end.
Proof.
  intros Hids Hc. unfold delete_network, find, delete_found. rewrite Hc.
  assert (Hkey : {| did := did k; StreamEvent.collection := StreamEvent.collection k;
                    StreamEvent.rkey := StreamEvent.rkey k |} = k) by (by destruct k).
  rewrite Hkey. destruct (records db !! k) as [row|] eqn:Ek; cbn [fmap option_fmap option_map].
  - destruct (delete_one db k row Hids Ek) as [_ Hn].
    destruct rev as [r|]; [|by destruct (row_rev row)].
    destruct (row_rev row) as [held|]; [destruct (rev_le held r)|]; [|done|]; revert Hn;
      destruct (delete_ids db [row_id row]) as [db1 n]; cbn [fst snd]; intros ->; reflexivity.
  - destruct rev as [r|]; [|done]. cbn. done.
Qed.

Lemma delete_ids_tombstones db ids : record_tombstones (delete_ids db ids).1 = record_tombstones db.
Proof. done. Qed.

Lemma delete_found_records db u now k row r :
  ids_unique db -> records db !! k = Some row ->
  records (delete_found db u now (row_id row) r) = base.delete k (records db).
Proof.
  intros Hids Hk. unfold delete_found. destruct (delete_one db k row Hids Hk) as [E _].
  destruct r; [by rewrite write_record_tombstone_records|done].
Qed.

Lemma delete_found_sound db now k row r :
  sound db -> clean k -> records db !! k = Some row -> sound (delete_found db (uri k) now (row_id row) r).
Proof.
  intros Hs Hc Hk. unfold delete_found. pose proof (delete_ids_sound db [row_id row] Hs) as Hs1.
  destruct r as [r|]; [|done]. apply write_record_tombstone_sound; [done|].
  intros k' Hc' Hu. rewrite (clean_uri_inj k' k Hc' Hc Hu), delete_ids_lookup, Hk, decide_True; [done|by left].
Qed.

Lemma delete_network_sound db k rev now bf :
  sound db -> clean k -> sound (delete_network db (uri k) (did k) (StreamEvent.collection k) rev now bf).
Proof.
  intros Hs Hc. rewrite delete_network_cases by (done || apply Hs).
  destruct (records db !! k) as [row|] eqn:Ek.
  - destruct (match rev with Some _ => _ | None => _ end); [by apply delete_found_sound|done].
  - destruct rev as [r|]; [|done]. destruct (create_may_follow _ _ _ _); [|done].
    apply write_record_tombstone_sound; [done|]. intros k' Hc' Hu. by rewrite (clean_uri_inj k' k Hc' Hc Hu).
Qed.

Lemma delete_if_body_cases db k expected now :
  clean k ->
  delete_network_if_body db (uri k) (did k) (StreamEvent.collection k) expected now
  = match records db !! k with
    | Some row =>
        if is_some_and (from_str (row_record row)) (fun body => value_eq body expected)
        then (delete_found db (uri k) now (row_id row) (row_rev row), true) else (db, false)
    | None => (db, false)
    end.
Proof.
  intros Hc. unfold delete_network_if_body, find. rewrite Hc.
  assert (Hkey : {| did := did k; StreamEvent.collection := StreamEvent.collection k;
                    StreamEvent.rkey := StreamEvent.rkey k |} = k) by (by destruct k).
  rewrite Hkey. destruct (records db !! k) as [row|]; cbn [mbind option_bind]; [|done].
  by destruct (is_some_and _ _).
Qed.

Lemma delete_if_unchanged_cases db k c r now :
  clean k ->
  delete_network_if_unchanged db (uri k) (did k) (StreamEvent.collection k) c r now
  = match records db !! k with
    | Some row =>
        if decide (is_Some (row_indexed_at row) /\ Some (decode_cid (row_cid row)) = c /\ row_rev row = r)
        then (delete_found db (uri k) now (row_id row) (row_rev row), true) else (db, false)
    | None => (db, false)
    end.
Proof.
  intros Hc. unfold delete_network_if_unchanged. rewrite Hc.
  assert (Hkey : {| did := did k; StreamEvent.collection := StreamEvent.collection k;
                    StreamEvent.rkey := StreamEvent.rkey k |} = k) by (by destruct k).
  rewrite Hkey. destruct (records db !! k) as [row|]; [|done].
  destruct (row_indexed_at row) as [at_us|] eqn:Ei; cbn.
  - destruct (decide (_ /\ _)) as [(Hs & Hcid & Hrev)|Hn].
    + by rewrite !bool_decide_true.
    + case_bool_decide; case_bool_decide; try done. destruct Hn. by split_and!; [eexists|..].
  - rewrite decide_False; [done|]. intros ([? [=]] & _).
Qed.

(** ** Purges *)

Lemma purge_batch_sound db d cs before limit :
  sound db -> sound (delete_ids db (held_network_ids db d cs before limit)).1.
Proof. apply delete_ids_sound. Qed.

Context {RS : RuntimeSpec R}.

(** The keys a scan finds held, in its order. *)
Definition held_rows (db : Database) (d : string) (cs : option (list string)) (before : option string)
    : list (RecordKey * Row) :=
  filter (fun kr => Is_true (held d cs before kr)) (scan (records db)).

Lemma held_rows_elem db d cs before k row :
  (k, row) ∈ held_rows db d cs before <-> records db !! k = Some row /\ held d cs before (k, row) = true.
Proof.
  unfold held_rows. rewrite list_elem_of_filter, scan_rows, elem_of_map_to_list.
  rewrite Is_true_true. tauto.
Qed.

Lemma held_rows_NoDup db d cs before : NoDup (held_rows db d cs before).
Proof. apply NoDup_filter. rewrite scan_rows. apply NoDup_map_to_list. Qed.

(** What a purge leaves. *)
Definition unheld (db : Database) (d : string) (cs : option (list string)) (before : option string)
    : gmap RecordKey Row :=
  filter (fun kr => held d cs before kr = false) (records db).

Lemma unheld_lookup db d cs before k :
  unheld db d cs before !! k
  = match records db !! k with Some row => if held d cs before (k, row) then None else Some row | None => None end.
Proof.
  unfold unheld. rewrite map_lookup_filter. destruct (records db !! k) as [row|]; [|done]. cbn.
  destruct (held d cs before (k, row)); [by rewrite option_guard_False|by rewrite option_guard_True].
Qed.

(** One batch removes only held rows; a short one removes all of them. *)
Lemma purge_batch_spec db d cs before limit :
  ids_unique db ->
  let ids := held_network_ids db d cs before limit in
  let db' := (delete_ids db ids).1 in
  unheld db' d cs before = unheld db d cs before
  /\ length ids <= limit
  /\ (length ids < limit -> records db' = unheld db d cs before)
  /\ length (held_rows db' d cs before) + length ids = length (held_rows db d cs before)
  /\ (forall k row, records db' !! k = Some row -> records db !! k = Some row).
Proof.
  intros Hids ids db'.
  assert (Eids : ids = (fun kr => row_id kr.2) <$> take limit (held_rows db d cs before)) by done.
  assert (Hgone : forall k row, records db !! k = Some row -> row_id row ∈ ids ->
                    (k, row) ∈ take limit (held_rows db d cs before)).
  { intros k row Hk. rewrite Eids, list_elem_of_fmap. intros ([k' row'] & Hid & Hin). cbn in Hid.
    assert (Hheld : (k', row') ∈ held_rows db d cs before) by (eapply elem_of_sublist; [done|apply sublist_take]).
    apply held_rows_elem in Hheld as [Hk' _]. assert (k = k') as -> by (by eapply Hids). by simplify_eq. }
  assert (Hsub : forall k row, records db !! k = Some row -> row_id row ∈ ids -> held d cs before (k, row) = true).
  { intros k row Hk Hin. specialize (Hgone k row Hk Hin).
    apply (elem_of_sublist _ (held_rows db d cs before)) in Hgone; [|apply sublist_take].
    apply held_rows_elem in Hgone as [_ Hgone]. exact Hgone. }
  assert (Hlen : length ids = length (take limit (held_rows db d cs before))) by (by rewrite Eids, length_fmap).
  split_and!.
  - apply map_eq. intros k. rewrite !unheld_lookup. unfold db'. rewrite delete_ids_lookup.
    destruct (records db !! k) as [row|] eqn:Ek; [|done]. case_decide as Hin; [|done].
    by rewrite (Hsub k row Ek Hin).
  - rewrite Hlen, length_take. lia.
  - intros Hlt. apply map_eq. intros k. rewrite unheld_lookup. unfold db'. rewrite delete_ids_lookup.
    destruct (records db !! k) as [row|] eqn:Ek; [|done].
    case_decide as Hin; [by rewrite (Hsub k row Ek Hin)|].
    destruct (held d cs before (k, row)) eqn:Eh; [|done]. destruct Hin. rewrite Eids.
    rewrite take_ge by (rewrite Hlen, length_take in Hlt; lia).
    apply list_elem_of_fmap. exists (k, row). split; [done|]. by apply held_rows_elem.
  - rewrite Hlen, <- length_app.
    apply Permutation_length, NoDup_Permutation; [|apply held_rows_NoDup|].
    + apply NoDup_app. split_and!; [apply held_rows_NoDup| |].
      * intros [k row] [Hk _]%held_rows_elem Ht. unfold db' in Hk. rewrite delete_ids_lookup in Hk.
        assert (Hh : (k, row) ∈ held_rows db d cs before) by (eapply elem_of_sublist; [done|apply sublist_take]).
        apply held_rows_elem in Hh as [Hk0 _]. rewrite Hk0 in Hk. case_decide as Hd; [done|]. destruct Hd.
        rewrite Eids. apply list_elem_of_fmap. by exists (k, row).
      * eapply sublist_NoDup; [apply held_rows_NoDup|apply sublist_take].
    + intros [k row]. rewrite elem_of_app, !held_rows_elem. unfold db'. rewrite delete_ids_lookup. split.
      * intros [[Hk Hh]|Ht].
        -- destruct (records db !! k); [|done]. case_decide; by simplify_eq.
        -- apply held_rows_elem. eapply elem_of_sublist; [done|apply sublist_take].
      * intros [Hk Hh]. rewrite Hk. case_decide as Hd; [right; by apply Hgone|by left].
  - intros k row. unfold db'. rewrite delete_ids_lookup. repeat case_match; naive_solver.
Qed.

(** The rows a purge is for: the account's network rows, in one of the
    collections when they are given, without a rev or with one before the
    given rev. *)
Definition purge_covers (d : string) (cs : option (list string)) (before : option string)
    (k : RecordKey) (row : Row) : Prop :=
  did k = d /\ row_indexed_at row <> None
  /\ (forall l, cs = Some l -> StreamEvent.collection k ∈ l)
  /\ (forall b rev, before = Some b -> row_rev row = Some rev -> rev_lt rev b = true).

Lemma held_covers d cs before k row : held d cs before (k, row) = true <-> purge_covers d cs before k row.
Proof.
  unfold held, purge_covers. cbn [fst snd]. rewrite !andb_true_iff, String.eqb_eq, bool_decide_eq_true, <- not_eq_None_Some.
  destruct cs as [l|]; [rewrite str_mem_true|]; destruct before as [b|], (row_rev row); naive_solver.
Qed.

(** [b'] has the rows of [b] but for those the purge is for. *)
Definition purged_exactly (d : string) (cs : option (list string)) (before : option string) (b b' : Database) : Prop :=
  forall k, match records b !! k with
            | Some row => (purge_covers d cs before k row -> records b' !! k = None)
                          /\ (~ purge_covers d cs before k row -> records b' !! k = Some row)
            | None => records b' !! k = None
            end.

Lemma unheld_exactly b b' d cs before :
  records b' = unheld b d cs before -> purged_exactly d cs before b b'.
Proof.
  intros E k. rewrite E, unheld_lookup. destruct (records b !! k) as [row|]; [|done].
  rewrite <- held_covers. destruct (held d cs before (k, row)); split; by intros H.
Qed.

Definition before_opt (db : Database) (d : string) (cs : option (list string)) (before : option string) (limit : nat)
    : Database * nat :=
  ((delete_ids db (held_network_ids db d cs before limit)).1, length (held_network_ids db d cs before limit)).

Lemma purge_round_eq d cs before db n :
  purge_round d cs before (db, n)
  = let st := ((before_opt db d cs before PURGE_BATCH).1, n + (before_opt db d cs before PURGE_BATCH).2) in
    if (before_opt db d cs before PURGE_BATCH).2 <? PURGE_BATCH then inr st else inl st.
Proof. unfold purge_round. destruct before; reflexivity. Qed.

(** No held row at all. *)
Lemma held_none db d cs before :
  held_network_ids db d cs before 1 = [] -> held_rows db d cs before = [] /\ unheld db d cs before = records db.
Proof.
  unfold held_network_ids. fold (held_rows db d cs before). intros Hnil.
  assert (E : held_rows db d cs before = []) by (by destruct (held_rows db d cs before)).
  split; [done|]. apply map_eq. intros k. rewrite unheld_lookup.
  destruct (records db !! k) as [row|] eqn:Ek; [|done]. destruct (held d cs before (k, row)) eqn:Eh; [|done].
  assert (Hin : (k, row) ∈ held_rows db d cs before) by (by apply held_rows_elem).
  rewrite E in Hin. by apply elem_of_nil in Hin.
Qed.

Lemma held_rows_le db d cs before : length (held_rows db d cs before) <= size (records db).
Proof.
  unfold held_rows. rewrite <- length_map_to_list, <- (scan_rows (records db)).
  apply sublist_length, sublist_filter.
Qed.

Lemma held_unheld_size db d cs before :
  length (held_rows db d cs before) + size (unheld db d cs before) = size (records db).
Proof.
  rewrite <- !length_map_to_list. unfold held_rows.
  rewrite <- length_app. apply Permutation_length, NoDup_Permutation.
  - apply NoDup_app. split_and!; [apply held_rows_NoDup| |apply NoDup_map_to_list].
    intros [k row] [_ Hh]%held_rows_elem Hu%elem_of_map_to_list. rewrite unheld_lookup in Hu.
    destruct (records db !! k); [|done]. destruct (held d cs before (k, r)) eqn:Eh; simplify_eq. congruence.
  - apply NoDup_map_to_list.
  - intros [k row]. rewrite elem_of_app, !elem_of_map_to_list, unheld_lookup.
    fold (held_rows db d cs before). rewrite held_rows_elem.
    destruct (records db !! k) as [row'|]; [|naive_solver].
    destruct (held d cs before (k, row')) eqn:Eh; naive_solver congruence.
Qed.

Definition same_tombstones (db db' : Database) : Prop :=
  record_tombstones db' = record_tombstones db /\ did_tombstones db' = did_tombstones db.

Lemma purge_loop_spec db d cs before :
  sound db ->
  exists db', iter_until (purge_round d cs before) (Pos.of_succ_nat (size (records db))) (db, 0)
              = inr (db', length (held_rows db d cs before))
    /\ records db' = unheld db d cs before /\ same_tombstones db db' /\ sound db'.
Proof.
  intros Hs. set (n0 := length (held_rows db d cs before)).
  pose (P := fun st : Database * nat => sound st.1 /\ unheld st.1 d cs before = unheld db d cs before
               /\ length (held_rows st.1 d cs before) + st.2 = n0 /\ same_tombstones db st.1).
  pose (Q := fun st : Database * nat => sound st.1 /\ records st.1 = unheld db d cs before
               /\ st.2 = n0 /\ same_tombstones db st.1).
  assert (Hround : forall s, P s -> match purge_round d cs before s with
            | inl s1 => P s1 /\ length (held_rows s1.1 d cs before) < length (held_rows s.1 d cs before)
            | inr r => Q r
            end).
  { intros [db0 n] (Hs0 & Hu & Hn & Ht). cbn [fst snd] in *. rewrite purge_round_eq. cbn zeta.
    destruct (purge_batch_spec db0 d cs before PURGE_BATCH (sound_ids _ Hs0)) as (E1 & E2 & E3 & E4 & _).
    unfold before_opt. cbn [fst snd].
    set (ids := held_network_ids db0 d cs before PURGE_BATCH) in *.
    destruct (Nat.ltb_spec (length ids) PURGE_BATCH) as [Hlt|Hge].
    - specialize (E3 Hlt). unfold Q. cbn [fst snd].
      split_and!; [by apply delete_ids_sound|by rewrite E3| |done].
      assert (held_rows (delete_ids db0 ids).1 d cs before = []) as Enil.
      { apply elem_of_nil_inv. intros [k row] [Hk Hh]%held_rows_elem.
        rewrite E3, unheld_lookup in Hk. destruct (records db0 !! k); [|done].
        destruct (held d cs before (k, r)) eqn:E; simplify_eq. congruence. }
      rewrite Enil in E4. cbn [length] in E4. lia.
    - unfold P. cbn [fst snd]. split_and!; [by apply delete_ids_sound|by rewrite E1|lia|exact Ht|].
      assert (0 < PURGE_BATCH) by (unfold PURGE_BATCH; lia). lia. }
  assert (HP : P (db, 0)) by (unfold P; cbn [fst snd]; split_and!; done || lia).
  destruct (iter_until (purge_round d cs before) _ (db, 0)) as [s1|r] eqn:E.
  - exfalso. apply (iter_until_measure _ P (fun s => Z.of_nat (length (held_rows s.1 d cs before)))) in E as [_ Hm].
    + cbn [fst] in Hm. pose proof (held_rows_le db d cs before) as Hle. lia.
    + intros s s2 Hs0 E2. specialize (Hround s Hs0). rewrite E2 in Hround. split; [tauto|lia].
    + done.
  - pose proof (iter_until_inv (purge_round d cs before) P Q) as Hinv.
    specialize (Hinv ltac:(intros s Hs0; specialize (Hround s Hs0); destruct (purge_round _ _ _ s); tauto)
                  (Pos.of_succ_nat (size (records db))) (db, 0) HP).
    rewrite E in Hinv. destruct r as [db' n], Hinv as (? & ? & Hn & ?). cbn in *. subst n. by exists db'.
Qed.

Lemma purge_spec db d cs before :
  sound db ->
  exists db', purge db d cs before = inr (db', length (held_rows db d cs before))
    /\ records db' = unheld db d cs before /\ same_tombstones db db' /\ sound db'.
Proof.
  intros Hs.
  assert (Hloc : exists db', purge_local db d cs before = inr (db', length (held_rows db d cs before))
                   /\ records db' = unheld db d cs before /\ same_tombstones db db' /\ sound db').
  { unfold purge_local, holds_local_network_records, holds_network_records_before.
    destruct (held_network_ids db d cs before 1) eqn:Eh.
    - destruct (held_none db d cs before Eh) as [E1 E2]. exists db. rewrite E1, E2.
      destruct before; rewrite Eh; done.
    - destruct (purge_loop_spec db d cs before Hs) as (db' & Ei & Hr). exists db'. split; [|done].
      destruct before; rewrite Eh; exact Ei. }
  unfold purge. destruct cs as [[|c cs]|]; [|done..].
  assert (Eh : held_network_ids db d (Some []) before 1 = []).
  { unfold held_network_ids. fold (held_rows db d (Some []) before).
    assert (E : held_rows db d (Some []) before = []).
    { apply elem_of_nil_inv. intros [k row] [_ Hh]%held_rows_elem. unfold held in Hh. cbn in Hh.
      rewrite !andb_false_r in Hh. done. }
    by rewrite E. }
  destruct (held_none db d (Some []) before Eh) as [E1 E2]. exists db. by rewrite E1, E2.
Qed.

(** ** Histories *)

Lemma set_did_tombstones_sound db m : sound db -> sound (set_did_tombstones db m).
Proof. intros [H1 H2 H3 H4]. by split. Qed.

Lemma write_did_tombstone_did db d r q n :
  exists m, write_did_tombstone db d r q n = set_did_tombstones db m.
Proof.
  unfold write_did_tombstone. repeat case_match; [by eexists| |by eexists].
  exists (did_tombstones db). by destruct db.
Qed.

Lemma lift_did_tombstone_did db d b : exists m, lift_did_tombstone db d b = set_did_tombstones db m.
Proof.
  assert (exists m, db = set_did_tombstones db m) by (exists (did_tombstones db); by destruct db).
  unfold lift_did_tombstone. repeat case_match; by eauto.
Qed.

Lemma sweep_some db hours cutoff :
  exists db' n, sweep scan_tombstones scan_did_tombstones db hours cutoff = Some (db', n)
    /\ records db' = records db /\ refs db' = refs db /\ sequence db' = sequence db
    /\ record_tombstones db' ⊆ record_tombstones db.
Proof.
  unfold sweep. destruct (hours =? 0)%Z; [by exists db, 0|].
  rewrite (sweep_table_spec scan_tombstones _ _ scan_tombstones_rows).
  rewrite (sweep_table_spec scan_did_tombstones _ _ scan_did_tombstones_rows).
  eexists _, _. split_and!; [done..|]. cbn. apply map_filter_subseteq.
Qed.

(** A transaction of the store, of the tombstones or of the sweep. *)
Inductive op : Type :=
| ONetwork (now : Z) (rs : list PreparedRecord)
| OLocalRow (kind : WriteKind) (now : Z) (r : PreparedRecord)
| OLocalRefs (written : list WrittenRow)
| ODelete (u : string)
| ODeleteNetwork (k : RecordKey) (rev : option string) (now : string) (backfill_running : bool)
| ODeleteIfBody (k : RecordKey) (expected : value) (now : string)
| ODeleteIfUnchanged (k : RecordKey) (cid rev : option string) (now : string)
| OPurgeBatch (d : string) (collections : option (list string)) (before : option string) (limit : nat)
| ODidTombstone (d rev : string) (seq : option Z) (now : string)
| OLift (d : string) (before : option string)
| OSweep (hours : Z) (cutoff : string).

(** The database after a transaction; one that fails is rolled back. *)
Definition exec (db : Database) (o : op) : Database :=
  match o with
  | ONetwork now rs => match write_network backend now db rs with Some (db', _) => db' | None => db end
  | OLocalRow kind now r => match write_local_row backend kind now db r with Ok (db', _) => db' | Err _ => db end
  | OLocalRefs written => match write_local_refs db written with Ok db' => db' | Err _ => db end
  | ODelete u => (delete db u).1
  | ODeleteNetwork k rev now bf => delete_network db (uri k) (did k) (StreamEvent.collection k) rev now bf
  | ODeleteIfBody k expected now =>
      (delete_network_if_body db (uri k) (did k) (StreamEvent.collection k) expected now).1
  | ODeleteIfUnchanged k c rev now =>
      (delete_network_if_unchanged db (uri k) (did k) (StreamEvent.collection k) c rev now).1
  | OPurgeBatch d cs None limit => (purge_network_batch db d cs limit).1
  | OPurgeBatch d cs (Some before) limit => (purge_network_batch_before db d cs before limit).1
  | ODidTombstone d rev seq now => write_did_tombstone db d rev seq now
  | OLift d before => lift_did_tombstone db d before
  | OSweep hours cutoff =>
      match sweep scan_tombstones scan_did_tombstones db hours cutoff with Some (db', _) => db' | None => db end
  end.

Definition run (db : Database) (ops : list op) : Database := foldl exec db ops.

(** A delete from the network names a record URI. *)
Definition op_clean (o : op) : Prop :=
  match o with
  | ODeleteNetwork k _ _ _ | ODeleteIfBody k _ _ | ODeleteIfUnchanged k _ _ _ => clean k
  | _ => True
  end.

Lemma write_network_spec now db rs :
  sound db ->
  exists db' ch, write_network backend now db rs = Some (db', ch) /\ sound db'
    /\ record_tombstones db' = record_tombstones db
    /\ records db' = records (upsert_rows backend Network now db (batch Network db rs)).1.
Proof.
  intros Hs. destruct (upsert_batch_spec Network now db rs Hs) as (db' & E & Hr & Ht & _ & _ & Hs').
  exists db'. eexists. split_and!; done.
Qed.

Lemma write_local_row_spec kind now db r db' ws :
  write_local_row backend kind now db r = Ok (db', ws) -> sound db ->
  sound db' /\ record_tombstones db' = record_tombstones db
  /\ records db' = records (upsert_row backend kind now db r).1.
Proof.
  unfold write_local_row. intros H Hs.
  assert (Hk : kind <> Network /\ upsert_rows backend kind now db [r] = (db', ws)) by (destruct kind; naive_solver).
  destruct Hk as [Hk E]. rewrite upsert_rows_cons in E. cbn in E. simplify_eq.
  split_and!; [|apply upsert_row_rest|done]. apply upsert_row_sound; [done|]. by intros ?.
Qed.

Lemma exec_sound db o : sound db -> op_clean o -> sound (exec db o).
Proof.
  intros Hs Hc. destruct o as [now rs|kind now r|ws|u|k rev now bf|k e now|k c rev now|d cs b l|d rev q now|d b|h c];
    cbn [exec op_clean] in *.
  - by destruct (write_network_spec now db rs Hs) as (db' & ch & -> & ? & _).
  - destruct (write_local_row backend kind now db r) as [[db' ws]|] eqn:E; [|done].
    by eapply write_local_row_spec.
  - unfold write_local_refs. destruct (sync_refs db ws) as [db'|] eqn:E; [|done]. by eapply sync_refs_some.
  - unfold delete. destruct (parse_record_uri u) as [[[? ?] ?]|]; [|done].
    destruct (find _ _ _ _) as [[id ?]|]; [|done].
    pose proof (delete_ids_sound db [id] Hs). by destruct (delete_ids db [id]).
  - by apply delete_network_sound.
  - rewrite delete_if_body_cases by done. destruct (records db !! k) eqn:Ek; [|done].
    destruct (is_some_and _ _); [by apply delete_found_sound|done].
  - rewrite delete_if_unchanged_cases by done. destruct (records db !! k) eqn:Ek; [|done].
    case_decide; [by apply delete_found_sound|done].
  - by destruct b; apply delete_ids_sound.
  - destruct (write_did_tombstone_did db d rev q now) as [m ->]. by apply set_did_tombstones_sound.
  - destruct (lift_did_tombstone_did db d b) as [m ->]. by apply set_did_tombstones_sound.
  - destruct (sweep_some db h c) as (db' & n & -> & E1 & E2 & E3 & E4). destruct Hs as [H1 H2 H3 H4]. split.
    + intros k1 k2 r1 r2. rewrite E1. apply H1.
    + intros Hpg k row. rewrite E1, E3. by apply H2.
    + intros id t cc. rewrite E1, E2. apply H3.
    + intros k row rev t Hk. rewrite E1. intros Hrow Hrev Ht. eapply H4; [done..|].
      by eapply lookup_weaken.
Qed.

Lemma run_sound ops : forall db, sound db -> Forall op_clean ops -> sound (run db ops).
Proof.
  induction ops as [|o ops IH]; intros db Hs Hc; [done|]. apply Forall_cons in Hc as [Ho Hc].
  cbn. apply IH; [|done]. by apply exec_sound.
Qed.

Lemma empty_sound : sound empty_database.
Proof. split; intros ?; intros; cbn in *; by rewrite ?lookup_empty in *. Qed.

(** ** A deleted record stays deleted *)

(** Transactions that may bring back a record deleted at [D]: a network write
    at a later rev, a local write of the record, a sweep of the tombstones. *)
Definition revives (k : RecordKey) (D : string) (o : op) : Prop :=
  match o with
  | ONetwork _ rs => exists r rev, r ∈ rs /\ record_key r = k /\ p_rev r = Some rev /\ rev_lt D rev = true
  | OLocalRow _ _ r => record_key r = k
  | OSweep _ _ => True
  | _ => False
  end.

Definition gone_at (k : RecordKey) (D : string) (db : Database) : Prop :=
  records db !! k = None /\ exists t, record_tombstones db !! uri k = Some t /\ rev_le D (tomb_rev t) = true.

Lemma gone_tombstone k D db u r n :
  gone_at k D db -> gone_at k D (write_record_tombstone db u r n).
Proof.
  intros [Hk (t & Ht & Hle)]. split; [by rewrite write_record_tombstone_records|].
  destruct (decide (uri k = u)) as [<-|Hne]; [|rewrite write_record_tombstone_other by done; by eauto].
  destruct (write_record_tombstone_at db (uri k) r n) as (t' & Ht' & _ & _ & Hmono).
  exists t'. split; [done|]. by eapply rev_le_trans; [|apply Hmono].
Qed.

Lemma gone_delete_ids k D db ids : gone_at k D db -> gone_at k D (delete_ids db ids).1.
Proof. intros [Hk Ht]. split; [by rewrite delete_ids_lookup, Hk|done]. Qed.

Lemma gone_delete_found k D db u now id r : gone_at k D db -> gone_at k D (delete_found db u now id r).
Proof. intros Hg. unfold delete_found. destruct r; [apply gone_tombstone|]; by apply gone_delete_ids. Qed.

Lemma gone_same k D db db' :
  records db' !! k = records db !! k -> record_tombstones db' = record_tombstones db ->
  gone_at k D db -> gone_at k D db'.
Proof. unfold gone_at. by intros -> ->. Qed.

Lemma batch_gone k D db rs :
  gone_at k D db -> (forall r rev, r ∈ rs -> record_key r = k -> p_rev r = Some rev -> rev_lt D rev = false) ->
  k ∉ record_key <$> batch Network db rs.
Proof.
  intros [_ (t & Ht & Hle)] Hold. rewrite list_elem_of_fmap. intros (r & -> & Hin).
  apply batch_elem in Hin as [Hin%last_copies_sub Hadm].
  destruct (blocked_false db r t (Hadm eq_refl) Ht) as (rev & Hr & Hlt).
  specialize (Hold r rev Hin eq_refl Hr). apply rev_lt_false in Hold.
  pose proof (rev_le_lt_trans _ _ _ (rev_le_trans _ _ _ Hold Hle) Hlt) as Hcy.
  by rewrite rev_lt_irrefl in Hcy.
Qed.

Lemma exec_gone k D db o :
  sound db -> op_clean o -> ~ revives k D o -> gone_at k D db -> gone_at k D (exec db o).
Proof.
  intros Hs Hc Hn Hg.
  destruct o as [now rs|kind now r|ws|u|k' rev now bf|k' e now|k' c rev now|d cs b l|d rev q now|d b|h c];
    cbn [exec op_clean revives] in *.
  - destruct (write_network_spec now db rs Hs) as (db' & ch & -> & _ & Et & Er).
    eapply gone_same; [|done|done]. rewrite Er. apply upsert_rows_other, (batch_gone k D); [done|].
    intros r rev Hin Hk Hr. destruct (rev_lt D rev) eqn:E; [|done]. destruct Hn. by exists r, rev.
  - destruct (write_local_row backend kind now db r) as [[db' ws]|] eqn:E; [|done].
    destruct (write_local_row_spec _ _ _ _ _ _ E Hs) as (_ & Et & Er).
    eapply gone_same; [|done|done]. rewrite Er, upsert_row_lookup, decide_False; [done|congruence].
  - unfold write_local_refs. destruct (sync_refs db ws) as [db'|] eqn:E; [|done].
    destruct (sync_refs_some _ _ _ E Hs) as (_ & Er & Et & _). eapply gone_same; [|done|done]. by rewrite Er.
  - unfold delete. destruct (parse_record_uri u) as [[[? ?] ?]|]; [|done].
    destruct (find _ _ _ _) as [[id ?]|]; [|done].
    pose proof (gone_delete_ids k D db [id] Hg). by destruct (delete_ids db [id]).
  - rewrite delete_network_cases by (done || apply Hs).
    repeat case_match; by auto using gone_delete_found, gone_tombstone.
  - rewrite delete_if_body_cases by done. repeat case_match; cbn; by auto using gone_delete_found.
  - rewrite delete_if_unchanged_cases by done. repeat case_match; cbn; by auto using gone_delete_found.
  - by destruct b; apply gone_delete_ids.
  - destruct (write_did_tombstone_did db d rev q now) as [m ->]. done.
  - destruct (lift_did_tombstone_did db d b) as [m ->]. done.
  - tauto.
Qed.

Lemma run_gone k D ops : forall db,
  sound db -> Forall op_clean ops -> Forall (fun o => ~ revives k D o) ops -> gone_at k D db ->
  gone_at k D (run db ops).
Proof.
  induction ops as [|o ops IH]; intros db Hs Hc Hn Hg; [done|].
  apply Forall_cons in Hc as [Ho Hc]. apply Forall_cons in Hn as [Hno Hn].
  cbn. apply IH; [by apply exec_sound|done|done|by apply exec_gone].
Qed.

(** A delete that leaves a tombstone at [D]: it removes a row, or a create may
    follow it. *)
Definition kept_out (db : Database) (k : RecordKey) (rev : option string) (backfill_running : bool) (D : string) : Prop :=
  match records db !! k with
  | Some row =>
      match rev with
      | Some r => r = D /\ forall held, row_rev row = Some held -> rev_le held r = true
      | None => row_rev row = Some D
      end
  | None => rev = Some D /\ create_may_follow db (did k) (StreamEvent.collection k) backfill_running = true
  end.

Lemma delete_keeps_out db k rev backfill_running D now :
  sound db -> clean k -> kept_out db k rev backfill_running D ->
  gone_at k D (delete_network db (uri k) (did k) (StreamEvent.collection k) rev now backfill_running).
Proof.
  intros Hs Hk Hout. rewrite delete_network_cases by (done || apply Hs).
  assert (Hgone : forall db0, records db0 !! k = None -> gone_at k D (write_record_tombstone db0 (uri k) D now)).
  { intros db0 H0. split; [by rewrite write_record_tombstone_records|].
    destruct (write_record_tombstone_at db0 (uri k) D now) as (t & Ht & Hle & _). by exists t. }
  unfold kept_out in Hout. destruct (records db !! k) as [row|] eqn:Ek.
  - assert (Hdel : records (delete_ids db [row_id row]).1 !! k = None) by (rewrite delete_ids_lookup, Ek, decide_True; [done|by left]).
    destruct rev as [r|]; [|rewrite Hout; by apply Hgone]. destruct Hout as [-> Hheld].
    assert (E : match row_rev row with Some held => rev_le held D | None => true end = true)
      by (destruct (row_rev row) eqn:Er; [by apply Hheld|done]).
    rewrite E. by apply Hgone.
  - destruct Hout as [-> ->]. by apply Hgone.
Qed.

(** ** The newest version wins *)

(** A version of one record as the network delivers it: a create or update, or
    a delete, at its rev, which comes while a backfill that covers the record may
    still write or not. *)
Inductive version : Type :=
| Put (now : Z) (rev cid body : string)
| Del (now : string) (rev : string) (backfill_running : bool).

Definition version_rev (v : version) : string := match v with Put _ rev _ _ | Del _ rev _ => rev end.

Definition put_record (k : RecordKey) (rev cid body : string) : PreparedRecord :=
  {| p_did := did k; p_collection := StreamEvent.collection k; p_rkey := StreamEvent.rkey k;
     p_record_json := body; p_cid := cid; p_rev := Some rev |}.

(** Its transaction. *)
Definition deliver (k : RecordKey) (v : version) : op :=
  match v with
  | Put now rev cid body => ONetwork now [put_record k rev cid body]
  | Del now rev backfill_running => ODeleteNetwork k (Some rev) now backfill_running
  end.

Definition same_content (v v' : version) : Prop :=
  match v, v' with
  | Put _ _ c b, Put _ _ c' b' => encode_cid c = encode_cid c' /\ b = b'
  | _, _ => False
  end.

Lemma put_record_key k rev c b : record_key (put_record k rev c b) = k.
Proof. by destruct k. Qed.

Lemma write_one db now r :
  sound db ->
  let db' := exec db (ONetwork now [r]) in
  records db' = (if blocked db (candidate_of r) then records db else records (upsert_row backend Network now db r).1)
  /\ record_tombstones db' = record_tombstones db /\ did_tombstones db' = did_tombstones db.
Proof.
  intros Hs. cbn [exec]. unfold write_network.
  destruct (upsert_batch_spec Network now db [r] Hs) as (db' & -> & Hr & Ht & Hd & _). split_and!; [|done..].
  rewrite Hr. pose proof (batch_elem Network db [r] r) as Hb. cbn [last_copies existsb] in Hb.
  unfold batch in *. cbn [last_copies existsb] in *. rewrite filter_cons in *.
  destruct (decide (prepared_uri r ∉ _)) as [Hin|Hin].
  - destruct Hb as [Hb _]. destruct Hb as [_ Hadm]; [by left|]. rewrite (Hadm eq_refl).
    rewrite filter_nil, upsert_rows_cons. done.
  - rewrite filter_nil in *. destruct (blocked db (candidate_of r)) eqn:E; [done|].
    destruct Hb as [_ Hb]. exfalso. eapply not_elem_of_nil, Hb. split; [by left|by intros _].
Qed.

(** The newest of the versions delivered, [m], is what the store shows. *)
Definition shows (k : RecordKey) (db : Database) (m : option version) : Prop :=
  did_tombstones db !! did k = None /\
  match m with
  | None => records db !! k = None /\ record_tombstones db !! uri k = None
  | Some v =>
      (forall t, record_tombstones db !! uri k = Some t -> rev_le (tomb_rev t) (version_rev v) = true) /\
      match v with
      | Put _ rev c b => exists row, records db !! k = Some row /\ row_rev row = Some rev
                           /\ row_cid row = encode_cid c /\ row_record row = b
      | Del _ rev _ => records db !! k = None
                     /\ exists t, record_tombstones db !! uri k = Some t /\ tomb_rev t = rev
      end
  end.

Definition newer (m : option version) (v : version) : option version :=
  match m with
  | None => Some v
  | Some w => if rev_lt (version_rev w) (version_rev v) then Some v else Some w
  end.

Definition distinct_from (m : option version) (v : version) : Prop :=
  match m with None => True | Some w => version_rev w <> version_rev v /\ ~ same_content w v end.

Lemma older_lt w v : rev_lt (version_rev w) (version_rev v) = false -> version_rev w <> version_rev v ->
  rev_lt (version_rev v) (version_rev w) = true.
Proof.
  intros [H|H]%rev_lt_false%rev_lt_or_eq Hne; [done|]. congruence.
Qed.

Lemma blocked_by_record db k rev c b :
  did_tombstones db !! did k = None ->
  blocked db (candidate_of (put_record k rev c b))
  = is_some_and (record_tombstones db !! uri k) (fun t => rev_le rev (tomb_rev t)).
Proof.
  intros Hd. unfold blocked. cbn. rewrite Hd. cbn. by rewrite orb_false_r.
Qed.

Lemma shows_put k db m now rev c b :
  sound db -> shows k db m -> distinct_from m (Put now rev c b) ->
  shows k (exec db (deliver k (Put now rev c b))) (newer m (Put now rev c b)).
Proof.
  intros Hs [Hd Hm] Hdist. set (r := put_record k rev c b).
  destruct (write_one db now r Hs) as (Er & Et & Ed). cbn [deliver]. fold r.
  pose proof (blocked_by_record db k rev c b Hd) as Hb. fold r in Hb.
  assert (Hup : blocked db (candidate_of r) = false ->
            records (exec db (ONetwork now [r])) !! k = upserted Network now db r).
  { intros E. rewrite Er, E, upsert_row_lookup. unfold r. rewrite put_record_key. by rewrite decide_True. }
  assert (Hk : record_key r = k) by apply put_record_key.
  unfold shows. rewrite Et, Ed. split; [done|]. destruct m as [w|]; cbn [newer]; cycle 1.
  { destruct Hm as [Hrow Htomb]. rewrite Htomb in *. cbn in Hb. cbn [version_rev].
    split; [done|]. rewrite (Hup Hb). unfold upserted. rewrite Hk, Hrow. eexists. split_and!; [done..]. }
  destruct Hm as [Hbound Hm], Hdist as [Hne Hcon].
  destruct (rev_lt (version_rev w) (version_rev (Put now rev c b))) eqn:Elt.
  - assert (Eb : blocked db (candidate_of r) = false).
    { rewrite Hb. destruct (record_tombstones db !! uri k) as [t|] eqn:E; [|done]. cbn. apply rev_lt_spec.
      eapply rev_le_lt_trans; [by apply Hbound|done]. }
    split; [intros t Ht; eapply rev_le_trans; [by apply Hbound|by apply rev_lt_le]|].
    rewrite (Hup Eb). unfold upserted. rewrite Hk.
    destruct w as [now' rev' c' b'|now' rev' bf'].
    + destruct Hm as (row & Hrow & Hrev & Hcid & Hbody). rewrite Hrow. unfold on_conflict, network_updates.
      rewrite Hrev, Hcid, Hbody. cbn in Elt |- *. rewrite (rev_lt_le _ _ Elt), andb_true_r.
      destruct (decide (encode_cid c' = encode_cid c)) as [E|E].
      * assert (b' <> b) by (intros ->; by apply Hcon).
        rewrite (proj2 (String.eqb_neq b' b)) by done. cbn. rewrite orb_true_r. eexists. by split_and!.
      * rewrite bool_decide_false by done. cbn. eexists. by split_and!.
    + destruct Hm as [Hrow _]. rewrite Hrow. eexists. by split_and!.
  - pose proof (older_lt _ _ Elt Hne) as Holt. cbn in Holt.
    split; [done|]. destruct w as [now' rev' c' b'|now' rev' bf'].
    + destruct Hm as (row & Hrow & Hrev & Hcid & Hbody). exists row. split_and!; [|done..].
      destruct (blocked db (candidate_of r)) eqn:Eb; [by rewrite Er|].
      rewrite (Hup eq_refl). unfold upserted. rewrite Hk, Hrow. unfold on_conflict, network_updates.
      rewrite Hrev. cbn in *. apply rev_lt_spec in Holt. rewrite Holt, andb_false_r. done.
    + destruct Hm as (Hrow & t & Ht & Htr). cbn in Holt.
      rewrite Ht in Hb. cbn in Hb. rewrite Htr, (rev_lt_le _ _ Holt) in Hb.
      rewrite Er, Hb. split; [done|]. by exists t.
Qed.

Lemma shows_del k db m now rev bf :
  sound db -> clean k -> create_may_follow db (did k) (StreamEvent.collection k) bf = true ->
  shows k db m -> distinct_from m (Del now rev bf) ->
  shows k (exec db (deliver k (Del now rev bf))) (newer m (Del now rev bf)).
Proof.
  intros Hs Hc Hbf [Hd Hm] Hdist. cbn [deliver exec]. rewrite delete_network_cases by (done || apply Hs).
  assert (Htomb : forall db0, did_tombstones db0 = did_tombstones db ->
            record_tombstones db0 = record_tombstones db -> records db0 !! k = None ->
            (forall w, m = Some w -> rev_lt (version_rev w) rev = true) ->
            shows k (write_record_tombstone db0 (uri k) rev now) (Some (Del now rev bf))).
  { intros db0 Ed Et Er Hnew.
    destruct (write_record_tombstone_at db0 (uri k) rev now) as (t & Ht & Hle & Hor & _).
    assert (Htr : tomb_rev t = rev).
    { destruct Hor as [->|Hor]; [done|]. rewrite Et in Hor. destruct m as [w|].
      - destruct Hm as [Hbound _]. pose proof (rev_le_lt_trans _ _ _ (Hbound _ Hor) (Hnew w eq_refl)) as Hlt.
        apply rev_lt_spec in Hlt. congruence.
      - destruct Hm as [_ Hm]. congruence. }
    split; [by rewrite write_record_tombstone_dids, Ed|]. cbn [version_rev]. rewrite Ht.
    split; [intros ? [= <-]; rewrite Htr; apply rev_le_refl|].
    rewrite write_record_tombstone_records. split; [done|]. by exists t. }
  destruct m as [w|]; cbn [newer]; cycle 1.
  { destruct Hm as [Hrow Hnone]. rewrite Hrow. rewrite Hbf. by apply Htomb. }
  destruct Hm as [Hbound Hm], Hdist as [Hne _].
  destruct (rev_lt (version_rev w) (version_rev (Del now rev bf))) eqn:Elt; cbn in Elt.
  - assert (Hnew : forall w', Some w = Some w' -> rev_lt (version_rev w') rev = true) by (by intros ? [= <-]).
    destruct w as [now' rev' c' b'|now' rev' bf'].
    + destruct Hm as (row & Hrow & Hrev & _ & _). cbn in Elt. rewrite Hrow, Hrev, (rev_lt_le _ _ Elt).
      unfold delete_found. apply Htomb; [done|done| |done].
      rewrite delete_ids_lookup, Hrow, decide_True; [done|by left].
    + destruct Hm as (Hrow & _). rewrite Hrow. rewrite Hbf. by apply Htomb.
  - pose proof (older_lt w (Del now rev bf) Elt Hne) as Holt. cbn in Holt. pose proof (proj1 (rev_lt_spec _ _) Holt) as Hle'.
    destruct w as [now' rev' c' b'|now' rev' bf'].
    + destruct Hm as (row & Hrow & Hrev & Hrest). rewrite Hrow, Hrev. cbn in Hle'. rewrite Hle'.
      split; [done|]. split; [done|]. by exists row.
    + destruct Hm as (Hrow & t0 & Ht0 & Htr0). rewrite Hrow. rewrite Hbf.
      unfold write_record_tombstone. rewrite Ht0, Htr0. cbn in Elt. rewrite Elt.
      split; [done|]. split; [done|]. split; [done|]. by exists t0.
Qed.

(** The newest version of a list. *)
Definition newest (vs : list version) : option version := foldl newer None vs.

Lemma newest_snoc vs v : newest (vs ++ [v]) = newer (newest vs) v.
Proof. unfold newest. by rewrite foldl_app. Qed.

Lemma newest_elem vs v : newest vs = Some v -> v ∈ vs.
Proof.
  revert v. induction vs as [|x vs IH] using rev_ind; intros v; [done|]. rewrite newest_snoc, elem_of_app.
  unfold newer. destruct (newest vs) as [w|]; [destruct (rev_lt _ _)|]; intros [= ->].
  - right. by left.
  - left. by apply IH.
  - right. by left.
Qed.

Lemma newest_max vs v w : newest vs = Some v -> w ∈ vs -> rev_le (version_rev w) (version_rev v) = true.
Proof.
  revert v. induction vs as [|x vs IH] using rev_ind; intros v; [by intros _ ?%elem_of_nil|].
  rewrite newest_snoc, elem_of_app. unfold newer. destruct (newest vs) as [u|] eqn:En.
  - destruct (rev_lt (version_rev u) (version_rev x)) eqn:El; intros [= <-] [Hw|Hw%list_elem_of_singleton].
    + eapply rev_le_trans; [by apply IH|by apply rev_lt_le].
    + subst. apply rev_le_refl.
    + by apply IH.
    + subst. by apply rev_lt_false.
  - assert (vs = []) as -> by (clear -En; destruct vs as [|y vs] using rev_ind; [done|];
      rewrite newest_snoc in En; unfold newer in En; repeat case_match; done).
    intros [= <-] [Hw%elem_of_nil|Hw%list_elem_of_singleton]; [done|]. subst. apply rev_le_refl.
Qed.

Lemma newest_some v vs : v ∈ vs -> (forall w, w ∈ vs -> rev_le (version_rev w) (version_rev v) = true) ->
  NoDup (version_rev <$> vs) -> newest vs = Some v.
Proof.
  intros Hv Hmax Hnd. destruct (newest vs) as [w|] eqn:E.
  - f_equal. pose proof (newest_elem _ _ E) as Hw. pose proof (newest_max _ _ _ E Hv) as H1.
    pose proof (rev_le_antisym _ _ (Hmax w Hw) H1) as Heq.
    apply list_elem_of_lookup in Hv as [i Hi]. apply list_elem_of_lookup in Hw as [j Hj].
    assert (i = j) as ->; [|congruence].
    eapply NoDup_lookup; [exact Hnd|rewrite list_lookup_fmap, Hi; done|rewrite list_lookup_fmap, Hj; cbn; by rewrite Heq].
  - destruct vs as [|x vs] using rev_ind; [by apply elem_of_nil in Hv|].
    rewrite newest_snoc in E. unfold newer in E. repeat case_match; done.
Qed.

(** The account holds another network record of the collection. *)
Definition neighbour (k : RecordKey) (db : Database) : Prop :=
  exists k' row, k' <> k /\ did k' = did k /\ StreamEvent.collection k' = StreamEvent.collection k
    /\ records db !! k' = Some row /\ is_Some (row_indexed_at row).

Lemma neighbour_follows k db bf : neighbour k db -> create_may_follow db (did k) (StreamEvent.collection k) bf = true.
Proof.
  intros (k' & row & _ & Hd & Hc & Hk & Hi). unfold create_may_follow. apply orb_true_iff. left. apply existsb_elem.
  exists (k', row). split; [by apply elem_of_map_to_list|]. cbn. rewrite Hd, Hc, !String.eqb_refl. by apply bool_decide_eq_true_2.
Qed.

(** A delivery leaves the rows of other records. *)
Lemma deliver_other k k' v db : sound db -> clean k -> k' <> k -> records (exec db (deliver k v)) !! k' = records db !! k'.
Proof.
  intros Hs Hc Hne. destruct v as [now rev c b|now rev bf]; cbn [deliver].
  - destruct (write_one db now (put_record k rev c b) Hs) as [-> _]. destruct (blocked _ _); [done|].
    rewrite upsert_row_lookup, put_record_key. by rewrite decide_False.
  - cbn [exec]. rewrite delete_network_cases by (done || apply Hs). destruct (records db !! k) as [row|] eqn:Ek.
    + destruct (match row_rev row with Some _ => _ | None => _ end); [|done]. unfold delete_found.
      rewrite write_record_tombstone_records. destruct (delete_one db k row ltac:(apply Hs) Ek) as [-> _]. by rewrite lookup_delete_ne.
    + destruct (create_may_follow _ _ _ _); [|done]. by rewrite write_record_tombstone_records.
Qed.

(** Every delete comes where a create may follow it. *)
Definition deletes_kept (k : RecordKey) (db : Database) (vs : list version) : Prop :=
  neighbour k db \/ forall now rev bf, Del now rev bf ∈ vs -> bf = true.

Definition contents_differ (vs : list version) : Prop :=
  forall i j v w, vs !! i = Some v -> vs !! j = Some w -> i <> j -> ~ same_content v w.

Lemma deliver_shows k vs db :
  sound db -> clean k -> shows k db None -> deletes_kept k db vs -> NoDup (version_rev <$> vs) -> contents_differ vs ->
  sound (run db (deliver k <$> vs)) /\ shows k (run db (deliver k <$> vs)) (newest vs)
  /\ (neighbour k db -> neighbour k (run db (deliver k <$> vs))).
Proof.
  intros Hs Hc H0. induction vs as [|v vs IH] using rev_ind; intros Hkept Hnd Hcon; [done|].
  rewrite fmap_app in Hnd. apply NoDup_app in Hnd as (Hnd & Hdis & _).
  destruct IH as (Hs1 & Hsh & Hnb); [|done| |].
  { destruct Hkept as [?|Hb]; [by left|right]. intros now rev bf Hin. apply (Hb now rev). apply elem_of_app. by left. }
  { intros i j x y Hi Hj. apply Hcon; rewrite lookup_app_l; eauto using lookup_lt_Some. }
  unfold run. rewrite fmap_app, foldl_app. cbn [fmap list_fmap foldl].
  fold (run db (deliver k <$> vs)). rewrite newest_snoc.
  assert (Hdist : distinct_from (newest vs) v).
  { destruct (newest vs) as [w|] eqn:E; [|done]. apply newest_elem in E. split.
    - intros Heq. apply (Hdis (version_rev w)); [by apply list_elem_of_fmap_2|]. rewrite Heq. by left.
    - apply list_elem_of_lookup in E as [i Hi]. pose proof (lookup_lt_Some _ _ _ Hi).
      apply (Hcon i (length vs)); [by rewrite lookup_app_l|by rewrite list_lookup_middle|lia]. }
  split_and!.
  - apply exec_sound; [done|]. by destruct v.
  - destruct v as [|now rev bf]; [by apply shows_put|]. apply shows_del; [done..| |done|done].
    destruct Hkept as [Hk|Hb]; [by apply neighbour_follows, Hnb|]. rewrite (Hb now rev bf) by (apply elem_of_app; right; by left).
    unfold create_may_follow. by rewrite orb_true_r.
  - intros Hk. destruct (Hnb Hk) as (k' & row & Hne & Hd & Hco & Hrow & Hi). exists k', row. by rewrite deliver_other.
Qed.

(** ** Doing it again *)

(** The tables without the sequence ids are drawn from. *)
Definition same_tables (db db' : Database) : Prop :=
  records db = records db' /\ refs db = refs db' /\ record_tombstones db = record_tombstones db'
  /\ did_tombstones db = did_tombstones db'.

#[global] Instance same_tables_equivalence : Equivalence same_tables.
Proof. split; unfold same_tables; red; intros; destruct_and?; split_and!; congruence. Qed.

Lemma batch_one db r : batch Network db [r] = if blocked db (candidate_of r) then [] else [r].
Proof.
  pose proof (batch_elem Network db [r] r) as Hb. unfold batch in *. cbn [last_copies existsb] in *. rewrite filter_cons, filter_nil in *.
  destruct (decide (prepared_uri r ∉ _)); destruct (blocked db (candidate_of r)) eqn:E; try done; exfalso.
  - destruct Hb as [Hb _]. destruct Hb as [_ Hb]; [by left|]. specialize (Hb eq_refl). congruence.
  - eapply not_elem_of_nil, Hb. split; [by left|by intros _].
Qed.

(** A write that has nothing to do: the record is deleted, or its row is as the
    write would have it or newer. *)
Definition write_settled (r : PreparedRecord) (db : Database) : Prop :=
  blocked db (candidate_of r) = true \/ exists held, records db !! record_key r = Some held /\ network_updates held r = false.

Lemma blocked_same db db' c :
  record_tombstones db = record_tombstones db' -> did_tombstones db = did_tombstones db' -> blocked db c = blocked db' c.
Proof. intros H1 H2. unfold blocked. by rewrite H1, H2. Qed.

Lemma write_settles now db r :
  sound db -> exists db' ch, write_network backend now db [r] = Some (db', ch) /\ sound db' /\ write_settled r db'.
Proof.
  intros Hs. destruct (upsert_batch_spec Network now db [r] Hs) as (db' & E & Hr & Ht & Hd & _ & Hs').
  exists db'. eexists. split; [exact E|]. split; [done|]. unfold write_settled. rewrite (blocked_same db' db) by done.
  rewrite batch_one in Hr. destruct (blocked db (candidate_of r)); [by left|right]. rewrite upsert_rows_cons in Hr. cbn [upsert_rows fst] in Hr.
  rewrite Hr, upsert_row_lookup, decide_True by done. unfold upserted.
  assert (Hself : forall row, row_cid row = encode_cid (p_cid r) -> row_record row = p_record_json r -> is_Some (row_indexed_at row) ->
            network_updates row r = false).
  { intros row H1 H2 [t H3]. unfold network_updates. rewrite H1, H2, H3, String.eqb_refl, bool_decide_eq_true_2 by done. by rewrite bool_decide_eq_false_2. }
  destruct (records db !! record_key r) as [held|]; [|eexists; split; [done|by apply Hself]].
  cbn [on_conflict]. destruct (network_updates held r) eqn:En; [|by exists held]. eexists. split; [done|by apply Hself].
Qed.

Lemma settled_write now db r db' ch :
  sound db -> write_settled r db -> write_network backend now db [r] = Some (db', ch) -> same_tables db' db.
Proof.
  intros Hs Hset E. destruct (upsert_batch_spec Network now db [r] Hs) as (db1 & E1 & Hr & Ht & Hd & [Hrefs _] & _).
  unfold write_network in E. rewrite E1 in E. injection E as <- _.
  assert (Hup : let up := upsert_rows backend Network now db (batch Network db [r]) in records up.1 = records db /\ up.2 = []).
  { cbv zeta. rewrite batch_one. destruct Hset as [->|(held & Hk & Hn)]; [done|]. destruct (blocked _ _); [done|].
    cbn [upsert_rows]. unfold upsert_row. rewrite Hk. cbn [on_conflict]. rewrite Hn. split; [apply bump_records|done]. }
  destruct Hup as [Hrec Hw]. rewrite Hw in Hrefs. split_and!; [congruence| |done|done].
  apply map_eq. intros [id t]. apply Hrefs. by apply not_elem_of_nil.
Qed.

Definition delete_settled (k : RecordKey) (rev : option string) (bf : bool) (db : Database) : Prop :=
  match records db !! k with
  | Some row => exists r held, rev = Some r /\ row_rev row = Some held /\ rev_le held r = false
  | None => forall r, rev = Some r -> create_may_follow db (did k) (StreamEvent.collection k) bf = true ->
              exists t, record_tombstones db !! uri k = Some t /\ rev_le r (tomb_rev t) = true
  end.

Lemma delete_settles db k rev now bf :
  sound db -> clean k -> delete_settled k rev bf (delete_network db (uri k) (did k) (StreamEvent.collection k) rev now bf).
Proof.
  intros Hs Hc. rewrite delete_network_cases by (done || apply Hs). unfold delete_settled.
  assert (Htomb : forall d r r', rev = Some r -> rev = Some r' ->
            exists t, record_tombstones (write_record_tombstone d (uri k) r now) !! uri k = Some t /\ rev_le r' (tomb_rev t) = true).
  { intros d r r' -> [= <-]. destruct (write_record_tombstone_at d (uri k) r now) as (t & ? & ? & _). by exists t. }
  destruct (records db !! k) as [row|] eqn:Ek.
  - destruct (match rev, row_rev row with Some r, Some held => rev_le held r | _, _ => true end) eqn:Ed.
    + rewrite (delete_found_records _ _ _ k row), lookup_delete_eq by (done || apply Hs). intros r -> _. unfold delete_found. by apply Htomb.
    + rewrite Ek. destruct rev as [r|], (row_rev row) as [held|] eqn:Er; try done. by exists r, held.
  - destruct rev as [r|]; [|by rewrite Ek]. destruct (create_may_follow db _ _ bf) eqn:Ef.
    + rewrite write_record_tombstone_records, Ek. intros r' Hr' _. by apply Htomb.
    + rewrite Ek. intros r' _. by rewrite Ef.
Qed.

Lemma settled_delete db k rev now bf :
  sound db -> clean k -> delete_settled k rev bf db -> delete_network db (uri k) (did k) (StreamEvent.collection k) rev now bf = db.
Proof.
  intros Hs Hc Hset. rewrite delete_network_cases by (done || apply Hs). unfold delete_settled in Hset.
  destruct (records db !! k) as [row|].
  - destruct Hset as (r & held & -> & -> & ->). done.
  - destruct rev as [r|]; [|done]. destruct (create_may_follow db _ _ bf) eqn:Ef; [|done].
    destruct (Hset r eq_refl eq_refl) as (t & Ht & Hle). unfold write_record_tombstone. rewrite Ht. by rewrite (proj2 (rev_lt_false _ _) Hle).
Qed.

Definition body_settled (k : RecordKey) (expected : value) (db : Database) : Prop :=
  match records db !! k with
  | Some row => is_some_and (from_str (row_record row)) (fun body => value_eq body expected) = false
  | None => True
  end.

Lemma delete_body_settles db k expected now :
  sound db -> clean k ->
  let db' := (delete_network_if_body db (uri k) (did k) (StreamEvent.collection k) expected now).1 in sound db' /\ body_settled k expected db'.
Proof.
  intros Hs Hc. cbv zeta. rewrite delete_if_body_cases by done. unfold body_settled.
  destruct (records db !! k) as [row|] eqn:Ek; [|cbn; by rewrite Ek]. destruct (is_some_and _ _) eqn:Eb; cbn [fst].
  - split; [by apply delete_found_sound|]. by rewrite (delete_found_records _ _ _ k row), lookup_delete_eq by (done || apply Hs).
  - split; [done|]. by rewrite Ek.
Qed.

Lemma settled_delete_body db k expected now :
  clean k -> body_settled k expected db ->
  (delete_network_if_body db (uri k) (did k) (StreamEvent.collection k) expected now).1 = db.
Proof.
  intros Hc Hset. rewrite delete_if_body_cases by done. unfold body_settled in Hset. destruct (records db !! k); [|done]. by rewrite Hset.
Qed.

(** ** A batch is the sequence of its records *)

Lemma last_copies_id rs : NoDup (prepared_uri <$> rs) -> last_copies rs = rs.
Proof.
  induction rs as [|r rs IH]; [done|]. rewrite fmap_cons. intros [Hr Hnd]%NoDup_cons. cbn [last_copies].
  destruct (existsb _ rs) eqn:Ex; [|by rewrite IH].
  apply existsb_elem in Ex as (r' & Hin & Hu). apply String.eqb_eq in Hu. destruct Hr. rewrite <- Hu.
  by apply list_elem_of_fmap_2.
Qed.

Lemma filter_ext_elem {A} (P Q : A -> Prop) `{forall x, Decision (P x), forall x, Decision (Q x)} (l : list A) :
  (forall x, x ∈ l -> P x <-> Q x) -> filter P l = filter Q l.
Proof.
  induction l as [|x l IH]; intros Hpq; [done|]. rewrite !filter_cons, IH by (intros; apply Hpq; by right).
  destruct (Hpq x ltac:(by left)). repeat case_decide; tauto.
Qed.

Lemma batch_filter db rs :
  NoDup (prepared_uri <$> rs) -> batch Network db rs = filter (fun r => blocked db (candidate_of r) = false) rs.
Proof.
  intros Hnd. cbn [batch]. rewrite last_copies_id by done. apply filter_ext_elem. intros r Hr.
  pose proof (batch_elem Network db rs r) as Hb. cbn [batch] in Hb. rewrite last_copies_id in Hb by done.
  rewrite list_elem_of_filter in Hb. unfold admitted in Hb. tauto.
Qed.

Lemma upsert_row_set_refs kind now db m r :
  upsert_row backend kind now (set_refs db m) r
  = (set_refs (upsert_row backend kind now db r).1 m, (upsert_row backend kind now db r).2).
Proof. unfold upsert_row, fresh_id, bump_sequence. cbn. destruct backend; repeat case_match; done. Qed.

Lemma upsert_rows_set_refs kind now rs : forall db m,
  upsert_rows backend kind now (set_refs db m) rs
  = (set_refs (upsert_rows backend kind now db rs).1 m, (upsert_rows backend kind now db rs).2).
Proof.
  induction rs as [|r rs IH]; intros db m; [done|]. rewrite !upsert_rows_cons, upsert_row_set_refs. cbn [fst snd].
  by rewrite IH.
Qed.

Lemma upsert_rows_app kind now a b : forall db,
  upsert_rows backend kind now db (a ++ b)
  = ((upsert_rows backend kind now (upsert_rows backend kind now db a).1 b).1,
     (upsert_rows backend kind now db a).2 ++ (upsert_rows backend kind now (upsert_rows backend kind now db a).1 b).2).
Proof.
  induction a as [|r a IH]; intros db; [apply surjective_pairing|].
  cbn [app]. rewrite !upsert_rows_cons, IH. cbn [fst snd]. by rewrite app_assoc.
Qed.

(** The whole database after a network batch. *)
Lemma exec_network now db rs :
  sound db ->
  let up := upsert_rows backend Network now db (batch Network db rs) in
  exists m, exec db (ONetwork now rs) = set_refs up.1 m /\ refs_synced db (set_refs up.1 m) up.2.
Proof.
  intros Hs up. cbn [exec]. unfold write_network.
  destruct (upsert_batch_spec Network now db rs Hs) as (db' & Eu & Hr & Ht & Hd & Hsync & _).
  fold up in Eu, Hr, Hsync. rewrite Eu. exists (refs db').
  assert (Edb : db' = set_refs up.1 (refs db')).
  { destruct rs as [|r0 rs0]; [cbn in Eu; injection Eu as <-; by destruct db|].
    assert (E1 : upsert_batch backend Network now db (r0 :: rs0)
                 = (db2 ← sync_refs up.1 up.2; Some (db2, (fun w => prepared_uri (w_record w)) <$> up.2)))
      by (unfold upsert_batch, up; cbn [batch]; by destruct (upsert_rows backend Network now db _)).
    rewrite E1 in Eu. unfold sync_refs in Eu. destruct (foldl _ _ up.2) as [m|]; [|done]. cbn in Eu.
    by injection Eu as <-. }
  rewrite <- Edb. by split.
Qed.

Lemma batch_blocked db db' rs :
  record_tombstones db' = record_tombstones db -> did_tombstones db' = did_tombstones db ->
  batch Network db' rs = batch Network db rs.
Proof. intros H1 H2. unfold batch, blocked_writes, blocked. by rewrite H1, H2. Qed.

Lemma exec_network_app now db a b :
  sound db -> NoDup (prepared_uri <$> a ++ b) ->
  exec db (ONetwork now (a ++ b)) = exec (exec db (ONetwork now a)) (ONetwork now b).
Proof.
  intros Hs Hnd. pose proof (exec_sound db (ONetwork now a) Hs I) as Hs1.
  destruct (exec_network now db (a ++ b) Hs) as (m & -> & [Hm1 Hm2]).
  destruct (exec_network now db a Hs) as (ma & Ea & [Ha1 Ha2]).
  destruct (exec_network now _ b Hs1) as (mb & -> & [Hb1 Hb2]).
  assert (Hb : batch Network (exec db (ONetwork now a)) b = batch Network db b).
  { destruct (upsert_rows_rest Network now (batch Network db a) db) as (_ & Et & Ed).
    apply batch_blocked; rewrite Ea; [exact Et|exact Ed]. }
  rewrite Hb, Ea in *.
  assert (Hab : batch Network db (a ++ b) = batch Network db a ++ batch Network db b).
  { rewrite fmap_app in Hnd. pose proof Hnd as (Hna & _ & Hnb)%NoDup_app.
    rewrite !batch_filter by (done || by rewrite fmap_app). apply filter_app. }
  pose proof (written_ids_NoDup Network now _ db (batch_NoDup Network db (a ++ b))) as Hids.
  rewrite Hab, upsert_rows_app in *. rewrite upsert_rows_set_refs in *. cbn [fst snd] in *.
  set (ua := upsert_rows backend Network now db (batch Network db a)) in *.
  set (ub := upsert_rows backend Network now ua.1 (batch Network db b)) in *.
  change (set_refs ub.1 m = set_refs ub.1 mb). f_equal. apply map_eq. intros [id t].
  change (refs (set_refs ub.1 m) !! (id, t) = refs (set_refs (set_refs ub.1 ma) mb) !! (id, t)).
  destruct (decide (id ∈ w_id <$> ub.2)) as [Hin|Hin].
  - apply list_elem_of_fmap in Hin as (w & -> & Hw). rewrite (Hb2 w t Hw).
    apply Hm2. rewrite elem_of_app. by right.
  - rewrite Hb1 by done. destruct (decide (id ∈ w_id <$> ua.2)) as [Hia|Hia].
    + apply list_elem_of_fmap in Hia as (w & -> & Hw). etransitivity; [|symmetry; exact (Ha2 w t Hw)].
      apply Hm2. rewrite elem_of_app. by left.
    + etransitivity; [|symmetry; exact (Ha1 id t Hia)]. apply Hm1. rewrite fmap_app, elem_of_app. tauto.
Qed.

Lemma exec_network_nil now db : exec db (ONetwork now []) = db.
Proof. done. Qed.

(** What a batch leaves at the key of one of its records. *)
Lemma upsert_rows_at kind now rs : forall db r,
  NoDup (record_key <$> rs) -> r ∈ rs ->
  match records db !! record_key r with
  | Some held => records (upsert_rows backend kind now db rs).1 !! record_key r
                 = Some (default held (on_conflict kind now held r))
  | None => exists id, records (upsert_rows backend kind now db rs).1 !! record_key r
                       = Some (new_row kind now id r)
  end.
Proof.
  induction rs as [|x rs IH]; intros db r Hnd Hin; [by apply elem_of_nil in Hin|].
  rewrite fmap_cons in Hnd. apply NoDup_cons in Hnd as [Hx Hnd]. rewrite upsert_rows_cons. cbn [fst].
  apply elem_of_cons in Hin as [->|Hin].
  - rewrite upsert_rows_other, upsert_row_lookup, decide_True by done. unfold upserted.
    destruct (records db !! record_key x); [done|by eexists].
  - assert (Hne : record_key r <> record_key x) by (intros Heq; apply Hx; rewrite <- Heq; by apply list_elem_of_fmap_2).
    specialize (IH (upsert_row backend kind now db x).1 r Hnd Hin).
    by rewrite upsert_row_lookup, decide_False in IH.
Qed.

Lemma upsert_rows_changed kind now rs : forall db r,
  NoDup (record_key <$> rs) -> r ∈ rs ->
  (r ∈ w_record <$> (upsert_rows backend kind now db rs).2
   <-> match records db !! record_key r with Some held => is_Some (on_conflict kind now held r) | None => True end).
Proof.
  induction rs as [|x rs IH]; intros db r Hnd Hin; [by apply elem_of_nil in Hin|].
  rewrite fmap_cons in Hnd. apply NoDup_cons in Hnd as [Hx Hnd].
  rewrite upsert_rows_cons. cbn [snd]. rewrite fmap_app, elem_of_app.
  assert (Hw : forall w, (upsert_row backend kind now db x).2 = Some w -> w_record w = x)
    by (intros w Hw; by destruct (upsert_row_written _ _ _ _ _ Hw)).
  apply elem_of_cons in Hin as [->|Hin].
  - assert (Hno : x ∉ w_record <$> (upsert_rows backend kind now (upsert_row backend kind now db x).1 rs).2).
    { rewrite list_elem_of_fmap. intros (w & -> & Hw'). apply Hx.
      destruct (upsert_rows_written _ _ _ _ _ Hw') as [? _]. by apply list_elem_of_fmap_2. }
    revert Hw. unfold upsert_row in *. destruct (records db !! record_key x) as [held|].
    + destruct (on_conflict kind now held x) as [row|]; cbn in *; intros Hw.
      * split; [by eexists|]. intros _. left. by left.
      * split; [intros [?%elem_of_nil|?]; tauto|]. intros [? [=]].
    + cbn in *. intros _. split; [done|]. intros _. left. by left.
  - assert (Hne : record_key r <> record_key x) by (intros Heq; apply Hx; rewrite <- Heq; by apply list_elem_of_fmap_2).
    specialize (IH (upsert_row backend kind now db x).1 r Hnd Hin).
    rewrite upsert_row_lookup, decide_False in IH by done. rewrite <- IH. split; [|tauto].
    intros [Hin'|]; [|done]. exfalso.
    destruct (upsert_row backend kind now db x).2 as [w|]; cbn in Hin'; [|by apply elem_of_nil in Hin'].
    apply list_elem_of_singleton in Hin'. by rewrite (Hw w eq_refl) in Hin'; subst.
Qed.

(** ** Properties of the store *)

(** (C17) Whatever network batches, local writes, deletes, purges, tombstones
    and sweeps ran, in any order and with a local write's two transactions
    apart: row ids are unique, every reference belongs to a stored row, every
    stored rev is newer than the record's tombstone, and the next network
    batch is accepted. *)
Theorem store_stays_sound ops :
  Forall op_clean ops ->
  let db := run empty_database ops in
  ids_unique db /\ refs_owned db /\ rows_above_tombstones db
  /\ forall now rs, is_Some (write_network backend now db rs).
Proof.
  intros Hc db. pose proof (run_sound ops _ empty_sound Hc) as Hs. fold db in Hs.
  split_and!; [apply Hs..|]. intros now rs.
  destruct (write_network_spec now db rs Hs) as (db' & ch & -> & _). by eexists.
Qed.

(** (C1) A delete keeps its record out.  When a delete event removes a row and has a
    rev - its own, or else that of the row -, or comes with a rev for a
    record that is not held while the account holds other network records of the
    collection or a backfill that covers it runs, then through any later
    transactions but a network write at a later rev, a local write of the record
    and a sweep of the tombstones, the record stays deleted. *)
Theorem deleted_stays_deleted ops k rev D now backfill_running later :
  let db := run empty_database ops in
  Forall op_clean ops -> clean k ->
  kept_out db k rev backfill_running D ->
  Forall op_clean later -> Forall (fun o => ~ revives k D o) later ->
  records (run db (ODeleteNetwork k rev now backfill_running :: later)) !! k = None.
Proof.
  intros db Hc Hk Hout Hcl Hn. pose proof (run_sound ops _ empty_sound Hc) as Hs. fold db in Hs.
  change (records (run (exec db (ODeleteNetwork k rev now backfill_running)) later) !! k = None).
  apply (run_gone k D); [by apply exec_sound|done|done|]. cbn [exec]. by apply delete_keeps_out.
Qed.

(** (C2) Deliveries of one record in any order leave its newest version.  For a
    record the store has neither a row nor a tombstone of, and versions with
    distinct revs and distinct contents - a create or update with unchanged
    content does not count as a version, as [unchanged_redelivery_forgets_rev]
    says -, the row shows the create or update with the largest rev, and there is
    no row when that version is a delete; where versions are deletes, the account
    holds another network record of the collection or a backfill that covers it
    runs when they come, since otherwise a delete that overtakes its create is not
    kept. *)
Theorem newest_version_wins ops k vs v :
  let db := run empty_database ops in
  Forall op_clean ops -> clean k ->
  records db !! k = None -> record_tombstones db !! uri k = None -> did_tombstones db !! did k = None ->
  deletes_kept k db vs ->
  NoDup (version_rev <$> vs) -> contents_differ vs ->
  v ∈ vs -> (forall w, w ∈ vs -> rev_le (version_rev w) (version_rev v) = true) ->
  match v with
  | Put _ rev c b => exists row, records (run db (deliver k <$> vs)) !! k = Some row
      /\ row_rev row = Some rev /\ row_cid row = encode_cid c /\ row_record row = b
  | Del _ _ _ => records (run db (deliver k <$> vs)) !! k = None
  end.
Proof.
  intros db Hc Hk Hrow Ht Hd Hkept Hnd Hcon Hv Hmax.
  pose proof (run_sound ops _ empty_sound Hc) as Hs. fold db in Hs.
  destruct (deliver_shows k vs db Hs Hk ltac:(by split) Hkept Hnd Hcon) as (_ & Hsh & _).
  rewrite (newest_some v vs Hv Hmax Hnd) in Hsh. destruct Hsh as [_ [_ Hsh]].
  destruct v; [done|apply Hsh].
Qed.

(** What a network batch does: records of other keys stay; of each URI
    the last copy counts; a copy a tombstone supersedes changes nothing; the
    others insert a row or update the held one where the conflict clause says
    so, are reported exactly then, and a reported row's references become
    exactly those of its new body. *)
Theorem network_batch_exact ops now rs :
  let db := run empty_database ops in
  Forall op_clean ops ->
  exists db' changed, write_network backend now db rs = Some (db', changed)
    /\ (forall k, k ∉ record_key <$> rs -> records db' !! k = records db !! k)
    /\ forall r, r ∈ last_copies rs ->
         if blocked db (candidate_of r) then records db' !! record_key r = records db !! record_key r
         else exists row, records db' !! record_key r = Some row
           /\ match records db !! record_key r with
              | Some held => row = default held (on_conflict Network now held r)
                             /\ (prepared_uri r ∈ changed <-> network_updates held r = true)
              | None => row = new_row Network now (row_id row) r /\ prepared_uri r ∈ changed
              end
           /\ (prepared_uri r ∈ changed -> forall t, refs db' !! (row_id row, t)
                 = if decide (t ∈ parse <$> ref_targets (p_record_json r)) then Some (p_collection r) else None).
Proof.
  intros db Hc. pose proof (run_sound ops _ empty_sound Hc) as Hs. fold db in Hs. clearbody db.
  destruct (upsert_batch_spec Network now db rs Hs) as (db' & E & Hr & _ & _ & [_ Hsync] & _).
  set (rs' := batch Network db rs) in *.
  pose proof (batch_NoDup Network db rs : NoDup (record_key <$> rs')) as Hnd.
  assert (Hlast : forall r, r ∈ rs' -> r ∈ last_copies rs) by (by intros r [? _]%batch_elem).
  eexists db', _. split; [exact E|]. split.
  { intros k Hk. rewrite Hr. apply upsert_rows_other. intros Hin. apply Hk.
    apply list_elem_of_fmap in Hin as (r & -> & Hin). apply list_elem_of_fmap_2. by apply last_copies_sub, Hlast. }
  intros r Hin. destruct (blocked db (candidate_of r)) eqn:Eb.
  { rewrite Hr. apply upsert_rows_other. rewrite list_elem_of_fmap. intros (r' & Hk & Hin').
    assert (r = r') as <-.
    { eapply NoDup_uri_inj; [apply (last_copies_NoDup rs)|done|by apply Hlast|]. rewrite !prepared_uri_key. congruence. }
    apply batch_elem in Hin' as [_ Hadm]. rewrite Hadm in Eb; done. }
  assert (Hr' : r ∈ rs') by (apply batch_elem; split; [done|by intros _]).
  set (ws := (upsert_rows backend Network now db rs').2) in *.
  assert (Hch : prepared_uri r ∈ ((fun w => prepared_uri (w_record w)) <$> ws) <-> r ∈ w_record <$> ws).
  { rewrite !list_elem_of_fmap. split; [|intros (w & -> & Hw); by exists w].
    intros (w & Hu & Hw). exists w. split; [|done].
    destruct (upsert_rows_written _ _ _ _ _ Hw) as [Hw' _].
    eapply NoDup_uri_inj; [apply (last_copies_NoDup rs)|done|by apply Hlast|done]. }
  pose proof (upsert_rows_changed Network now rs' db r Hnd Hr') as Hcond. fold ws in Hcond. rewrite <- Hch in Hcond.
  pose proof (upsert_rows_at Network now rs' db r Hnd Hr') as Hat. rewrite <- Hr in Hat.
  assert (Hrefs : forall row, records db' !! record_key r = Some row ->
            prepared_uri r ∈ ((fun w => prepared_uri (w_record w)) <$> ws) -> forall t, refs db' !! (row_id row, t)
            = if decide (t ∈ parse <$> ref_targets (p_record_json r)) then Some (p_collection r) else None).
  { intros row Hrow Hin' t. apply Hch, list_elem_of_fmap in Hin' as (w & -> & Hw).
    destruct (upsert_rows_written _ _ _ _ _ Hw) as (_ & row' & Hk & Hid). rewrite <- Hr in Hk.
    assert (row = row') as <- by congruence. rewrite Hid. by apply Hsync. }
  destruct (records db !! record_key r) as [held|] eqn:Eh.
  - eexists. split_and!; [exact Hat|done| |by apply Hrefs]. rewrite Hcond. cbn.
    destruct (network_updates held r); split; intros; [done|by eexists|by destruct H|done].
  - destruct Hat as [id Hat]. eexists. split_and!; [exact Hat|done|by apply Hcond|by apply Hrefs].
Qed.

(** (C24) A purge of an account ends, removes exactly its network rows in the
    collections asked for that are older than the given rev (all of them
    without one), counts them, keeps every other row and all tombstones, and
    leaves no reference of a removed row, whatever order rows are found in. *)
Theorem purge_exact ops d collections before :
  let db := run empty_database ops in
  Forall op_clean ops ->
  exists db', purge db d collections before = inr (db', size (records db) - size (records db'))
    /\ purged_exactly d collections before db db'
    /\ same_tombstones db db' /\ refs_owned db'.
Proof.
  intros db Hc. pose proof (run_sound ops _ empty_sound Hc) as Hs. fold db in Hs.
  destruct (purge_spec db d collections before Hs) as (db' & E & Hr & Ht & Hs').
  exists db'. split_and!; [|by apply unheld_exactly|done|apply Hs'].
  rewrite E, Hr, <- (held_unheld_size db d collections before). do 2 f_equal. lia.
Qed.

End StoreProofs.

(** ** Concrete runs *)

(** A runtime that parses one body and scans tables in the order of their
    keys. *)
Definition sample_runtime : Runtime := {|
  from_str := fun s => if s =s "links" then Some (VArray [VString "at://did:a/c/1"]) else None;
  value_eq := fun v w => match v, w with VNull, VNull => true | _, _ => false end;
  scan := map_to_list;
  scan_tombstones := map_to_list;
  scan_did_tombstones := map_to_list;
|}.

#[global] Instance sample_runtime_spec : RuntimeSpec sample_runtime.
Proof. by split. Qed.

Definition sample_key : RecordKey := {| did := "did:b"; StreamEvent.collection := "c"; StreamEvent.rkey := "1" |}.

Lemma sample_key_clean : clean sample_key.
Proof. reflexivity. Qed.

Definition sample_put (rev body : string) : op := deliver sample_key (Put 7 rev "" body).

Lemma store_stays_sound_witness :
  rows_above_tombstones (run (R := sample_runtime) Sqlite empty_database
    [sample_put "3a" "x"; ODeleteNetwork sample_key (Some "3b") "now" false; sample_put "3c" "y"]).
Proof.
  apply (store_stays_sound (R := sample_runtime) Sqlite). repeat constructor.
Defined.

Lemma deleted_stays_deleted_witness :
  records (run (R := sample_runtime) Sqlite (run (R := sample_runtime) Sqlite empty_database [sample_put "3a" "x"])
    [ODeleteNetwork sample_key (Some "3b") "now" false; sample_put "3a" "x"]) !! sample_key = None.
Proof.
  apply (deleted_stays_deleted (R := sample_runtime) Sqlite [sample_put "3a" "x"] sample_key (Some "3b") "3b" "now" false
           [sample_put "3a" "x"]).
  - repeat constructor.
  - reflexivity.
  - vm_compute. split; [reflexivity|]. intros held [= <-]. reflexivity.
  - repeat constructor.
  - constructor; [|constructor]. intros (r & rev & Hin & _ & Hr & Hlt).
    apply list_elem_of_singleton in Hin. subst r. injection Hr as <-. discriminate Hlt.
Defined.

Lemma newest_version_wins_witness :
  records (run (R := sample_runtime) Postgres empty_database
    (deliver sample_key <$> [Put 1 "3b" "" "y"; Del "now" "3c" true; Put 2 "3a" "" "x"])) !! sample_key = None.
Proof.
  apply (newest_version_wins (R := sample_runtime) Postgres [] sample_key
           [Put 1 "3b" "" "y"; Del "now" "3c" true; Put 2 "3a" "" "x"] (Del "now" "3c" true)).
  - constructor.
  - reflexivity.
  - reflexivity.
  - reflexivity.
  - reflexivity.
  - right. intros now rev bf Hin. by repeat (apply elem_of_cons in Hin as [[=]|Hin]; [done..|]); apply elem_of_nil in Hin.
  - apply (bool_decide_eq_true_1 _). reflexivity.
  - intros [|[|[|i]]] [|[|[|j]]] v w Hi Hj Hne Hsame; cbn in Hi, Hj; rewrite ?lookup_nil in *; simplify_eq;
      cbn in Hsame; try tauto; destruct Hsame as [_ Hsame]; discriminate.
  - right. left.
  - intros w Hw. repeat (apply elem_of_cons in Hw as [->|Hw]; [reflexivity|]). by apply elem_of_nil in Hw.
Defined.

Lemma network_batch_exact_witness :
  exists db' changed, write_network (R := sample_runtime) Sqlite 7 empty_database
      [put_record sample_key "3a" "" "links"] = Some (db', changed)
    /\ exists row, records db' !! sample_key = Some row
    /\ refs db' !! (row_id row, Record_ "did:a" "c" "1") = Some "c".
Proof.
  destruct (network_batch_exact (R := sample_runtime) Sqlite [] 7 [put_record sample_key "3a" "" "links"])
    as (db' & changed & E & _ & Hr); [constructor|].
  exists db', changed. split; [exact E|].
  destruct (Hr (put_record sample_key "3a" "" "links")) as (row & Hrow & [_ Hch] & Hrefs); [by left|].
  exists row. split; [exact Hrow|]. rewrite (Hrefs Hch). reflexivity.
Defined.

Lemma purge_exact_witness :
  exists db', purge (R := sample_runtime)
      (run (R := sample_runtime) Sqlite empty_database [sample_put "3a" "x"]) "did:b" None (Some "3b") = inr (db', 1)
    /\ records db' !! sample_key = None.
Proof.
  destruct (purge_exact (R := sample_runtime) Sqlite [sample_put "3a" "x"] "did:b" None (Some "3b"))
    as (db' & E & Hk & _); [repeat constructor|].
  exists db'. assert (Hgone : records db' !! sample_key = None).
  { specialize (Hk sample_key). vm_compute in Hk. apply Hk. split_and!; [reflexivity|discriminate|discriminate|].
    intros b rev [= <-] [= <-]. reflexivity. }
  split; [|exact Hgone]. rewrite E. vm_compute in E. injection E as <-. reflexivity.
Defined.

(** ** What the store does not guarantee *)

(** A redelivery of the content a row already has does not record its rev, so
    a version between the two revs replaces the newer one, and a delete
    between them removes it. *)
Theorem unchanged_redelivery_forgets_rev :
  let shown ops := row_record <$> records (run (R := sample_runtime) Sqlite empty_database ops) !! sample_key in
  shown [sample_put "3a" "x"; sample_put "3b" "y"; sample_put "3c" "x"] = Some "x"
  /\ shown [sample_put "3a" "x"; sample_put "3c" "x"; sample_put "3b" "y"] = Some "y"
  /\ shown [sample_put "3a" "x"; sample_put "3c" "x"; ODeleteNetwork sample_key (Some "3b") "now" true] = None.
Proof. split_and!; vm_compute; reflexivity. Qed.

Definition local_record (rkey body : string) : PreparedRecord :=
  {| p_did := "did:b"; p_collection := "c"; p_rkey := rkey; p_record_json := body; p_cid := ""; p_rev := None |}.

(** SQLite gives the id of a deleted newest row to the next one: when a record
    is deleted and another written between the two transactions of a local
    write, the references of the first are filed under the second. *)
Theorem local_refs_misfiled :
  let db := run (R := sample_runtime) Sqlite empty_database
    [OLocalRow Echoed 7 (local_record "1" "links"); ODelete "at://did:b/c/1";
     OLocalRow Echoed 8 (local_record "2" "plain");
     OLocalRefs [{| w_id := 1; w_record := local_record "1" "links" |}]] in
  (write_local_row Sqlite Echoed 7 empty_database (local_record "1" "links"))
    = Ok (run (R := sample_runtime) Sqlite empty_database [OLocalRow Echoed 7 (local_record "1" "links")],
          [{| w_id := 1; w_record := local_record "1" "links" |}])
  /\ row_id <$> records db !! record_key (local_record "2" "plain") = Some 1
  /\ refs db !! (1, Record_ "did:a" "c" "1") = Some "c".
Proof. split_and!; vm_compute; reflexivity. Qed.

(** The last copies come in the order of the last copies, not of the first. *)
Example last_copies_order :
  (fun r => (p_rkey r, p_record_json r))
    <$> last_copies [local_record "1" "x"; local_record "2" "y"; local_record "1" "z"]
  = [("2", "y"); ("1", "z")].
Proof. reflexivity. Qed.
