(* ===== verification/DbErrors.v ===== *)
(** * Database errors

    [crates/happyview-provider/src/db.rs]: how an error of [sqlx] is
    classified, and the retries of a write that met another writer's lock.
    The variants of [sqlx::Error] the code tells apart are kept; the rest are
    [OtherError]. *)

From stdpp Require Import list strings.
From Stdlib Require Import ZArith.
From S2P Require Import Prelude RustStr.

#[local] Open Scope Z_scope.

(** A database error's code: SQLite's result code or Postgres's SQLSTATE. *)
Inductive DbCode : Type :=
| CodeSqlite (code : Z)
| CodePostgres (code : string).

Inductive SqlxError : Type :=
| PoolTimedOut
| PoolClosed
| Io
| Tls
| WorkerCrashed
| BeginFailed
| Encode
| DatabaseError (code : option DbCode)
| OtherError.

Definition one_of (l : list Z) (z : Z) : bool := existsb (Z.eqb z) l.

Definition db_code (e : SqlxError) : option DbCode :=
  match e with DatabaseError code => code | _ => None end.

Definition is_retryable_write_error (e : SqlxError) : bool :=
  match db_code e with
  | Some (CodeSqlite c) => one_of [5; 6] (Z.land c 255)
  | Some (CodePostgres c) => str_mem c ["40001"; "40P01"]
  | None => false
  end.

Definition sqlite_code_is_unavailable (code : Z) : bool := one_of [5; 6; 7; 8; 10; 13; 14] (Z.land code 255).

Definition postgres_code_is_unavailable (code : string) : bool :=
  str_mem code ["08000"; "08001"; "08003"; "08004"; "08006"; "25006"; "3D000"; "40001"; "40P01"]
  || existsb (fun class => starts_with class code) ["57P"; "53"; "58"; "28"].

Definition is_unavailable (e : SqlxError) : bool :=
  match e with
  | PoolTimedOut | PoolClosed | Io | Tls | WorkerCrashed | BeginFailed => true
  | DatabaseError _ =>
      match db_code e with
      | Some (CodeSqlite code) => sqlite_code_is_unavailable code
      | Some (CodePostgres code) => postgres_code_is_unavailable code
      | None => false
      end
  | _ => false
  end.

Definition sqlite_code_is_invalid_data (code : Z) : bool := Z.land code 255 =? 18.

Definition is_invalid_data (e : SqlxError) : bool :=
  match e with
  | Encode => true
  | DatabaseError _ =>
      match db_code e with
      | Some (CodeSqlite code) => sqlite_code_is_invalid_data code
      | Some (CodePostgres code) => starts_with "22" code || (code =s "54000")
      | None => false
      end
  | _ => false
  end.

Definition BUSY_RETRY_ATTEMPTS : nat := 3.

(** [retry_on_busy]: [op] is one attempt; [left] counts the attempts after
    this one. *)
Section Retry.
Context {St A : Type} (op : St -> St * result A SqlxError).

Fixpoint retry_loop (left : nat) (s : St) : St * result A SqlxError :=
  let '(s', r) := op s in
  match r, left with
  | Err e, S left' => if is_retryable_write_error e then retry_loop left' s' else (s', r)
  | _, _ => (s', r)
  end.

Definition retry_on_busy (s : St) : St * result A SqlxError := retry_loop (BUSY_RETRY_ATTEMPTS - 1) s.

(** An attempt that succeeds is the only one. *)
Lemma retry_on_busy_ok s s' a : op s = (s', Ok a) -> retry_on_busy s = (s', Ok a).
Proof. unfold retry_on_busy. cbn [BUSY_RETRY_ATTEMPTS Nat.sub retry_loop]. by intros ->. Qed.

(** What holds of every attempt's result, from states it keeps, holds of the
    last. *)
Lemma retry_on_busy_ind (P : St -> Prop) (Q : St -> result A SqlxError -> Prop) s :
  P s -> (forall s, P s -> let '(s', r) := op s in Q s' r /\ (forall e, r = Err e -> P s')) ->
  let '(s', r) := retry_on_busy s in Q s' r.
Proof.
  intros Hs Hop. unfold retry_on_busy. generalize (BUSY_RETRY_ATTEMPTS - 1)%nat as left. intros left.
  revert s Hs. induction left as [|left IH]; intros s Hs; cbn [retry_loop];
    specialize (Hop s Hs) as H; destruct (op s) as [s1 [a|e]]; destruct H as [Hq Hp]; try done.
  destruct (is_retryable_write_error e); [|done]. apply IH. by eapply Hp.
Qed.

End Retry.

(** ** The classes *)

Lemma starts_two (a b : ascii) p s :
  starts_with (String a (String b p)) s = true -> exists rest, s = String a (String b rest).
Proof.
  intros [rest ->]%starts_with_true. by eexists.
Qed.

Lemma unavailable_not_invalid e : is_unavailable e = true -> is_invalid_data e = false.
Proof.
  destruct e as [| | | | | | |[[c|c]|]|]; cbn [is_unavailable is_invalid_data db_code]; try done.
  - unfold sqlite_code_is_unavailable, sqlite_code_is_invalid_data, one_of. intros H. apply Z.eqb_neq.
    intros E. by rewrite E in H.
  - unfold postgres_code_is_unavailable. intros [H|H]%orb_true_iff; apply orb_false_iff.
    + apply str_mem_true in H.
      repeat (apply elem_of_cons in H as [->|H]; [by split|]). by apply elem_of_nil in H.
    + apply existsb_elem in H as (class & Hin & Hs).
      assert (Hc : forall a b p, class = String a (String b p) -> String a (String b EmptyString) <> "22" ->
                String a (String b EmptyString) <> "54" -> starts_with "22" c = false /\ (c =s "54000") = false).
      { intros a b p -> H2 H5. destruct (starts_two _ _ _ _ Hs) as [rest ->]. split.
        - destruct (starts_with "22" _) eqn:E; [|done]. destruct (starts_two _ _ _ _ E) as [r Er].
          injection Er as -> -> _. done.
        - apply String.eqb_neq. intros [= -> -> _]. done. }
      repeat (apply elem_of_cons in Hin as [->|Hin]; [by eapply Hc|]). by apply elem_of_nil in Hin.
Qed.

Lemma retryable_unavailable e : is_retryable_write_error e = true -> is_unavailable e = true.
Proof.
  destruct e as [| | | | | | |[[c|c]|]|];
    unfold is_retryable_write_error; cbn [is_unavailable db_code]; try done.
  - unfold sqlite_code_is_unavailable, one_of. rewrite !existsb_elem. intros (x & Hx & E). exists x.
    split; [|done]. repeat (apply elem_of_cons in Hx as [->|Hx]; [set_solver|]). by apply elem_of_nil in Hx.
  - unfold postgres_code_is_unavailable. intros H%str_mem_true. apply orb_true_iff. left. apply str_mem_true.
    repeat (apply elem_of_cons in H as [->|H]; [set_solver|]). by apply elem_of_nil in H.
Qed.

(** The classes of database errors: an error that only met another
    writer's lock counts as unavailability once the retries are used up, so
    such a write is waited for and never written off, and no error is both
    unavailability and bad data. *)
Theorem error_classes e :
  (is_retryable_write_error e = true -> is_unavailable e = true)
  /\ (is_unavailable e && is_invalid_data e = false).
Proof.
  split; [apply retryable_unavailable|].
  destruct (is_unavailable e) eqn:E; [by apply unavailable_not_invalid|done].
Qed.
