(* ===== verification/Ingest.v ===== *)
(** * The ingest pipeline

    [src/ingest.rs] for an instance without external storage: record, account,
    sync and schema events, and batches.  A transaction may fail, or be committed
    without the answer arriving: the state carries what the database will do to
    the next attempts.  Record
    hooks, the lexicon catalog, the account's PDS and the labeler are
    parameters; timers, tracing and the text of logged details are left out,
    and hooks of a batch run one at a time. *)

From stdpp Require Import list strings gmap.
From Stdlib Require Import ZArith.
From S2P Require Import Prelude RustStr Json Words Cid StreamEvent Tid RecordCodec Tombstones RecordStore DbErrors.

#[local] Open Scope Z_scope.

Definition LEXICON_SCHEMA_COLLECTION : string := "com.atproto.lexicon.schema".

(** ** Hook outcomes and decisions *)

Inductive RecordHookOutcome : Type :=
| HookProceed
| HookReplace (v : value)
| HookSkip.

Inductive HookedBody : Type :=
| Store (v : value)
| SkipBody
| CidMismatch.

Inductive Decision : Type :=
| DProceed
| DReplace (v : value)
| DSkip
| DCidMismatch.

Inductive Hook : Type :=
| HRun
| HGiven (o : RecordHookOutcome).

(** [Applied]; the error stands for its text. *)
Record Applied : Type := {
  outcome : IngestOutcome;
  error : option SqlxError;
  applied_changed : bool;
}.

Definition applied_ok (o : IngestOutcome) : Applied := {| outcome := o; error := None; applied_changed := false |}.

Definition applied_failed (e : SqlxError) : Applied :=
  {| outcome := if is_unavailable e then Unavailable else Errored; error := Some e; applied_changed := false |}.

Definition failed_write_outcome (e : SqlxError) : IngestOutcome :=
  if is_unavailable e then Unavailable
  else if is_invalid_data e then Invalid
  else Errored.

(** ** Parameters *)

(** What a record hook is given. *)
Record RecordEventPayload : Type := {
  nsid : string;
  payload_action : string;
  payload_uri : string;
  payload_did : string;
  payload_rkey : string;
  payload_record : option value;
}.

Record NetworkLexicon : Type := { authority_did : option string; is_record_type : bool }.

Inductive NetworkWriteError : Type :=
| InvalidLexicon
| LexiconDb (e : SqlxError).

(** The lexicon catalog: what it answers, and the writes of schema events. *)
Class Catalog : Type := {
  Lexicons : Type;
  is_indexed : Lexicons -> string -> bool;
  get_network : Lexicons -> string -> option NetworkLexicon;
  refresh_network : Lexicons -> string -> value -> Lexicons * result bool NetworkWriteError;
  remove_network : Lexicons -> string -> Lexicons * result bool NetworkWriteError;
  get_record_collections : Lexicons -> list string;
}.

(** How a statement or transaction fails: nothing of it is kept, or it was
    committed and the answer to [COMMIT] was lost. *)
Inductive Fault : Type :=
| RolledBack (e : SqlxError)
| Unconfirmed (e : SqlxError).

(** The rest of the application state and of the outside world. *)
Class Env : Type := {
  run_record_event_script : RecordEventPayload -> RecordHookOutcome;
  to_string : value -> string;
  verbose_event_logging : bool;
  backfill_running : string -> bool;
  active_at_pds : string -> option string;
  has_active_subscriptions : bool;
  now_micros : Z;
  now_rfc3339 : string;
}.

Section Ingest.
Context `{C : CidCrate} {B : Base64} {D : DagCborCodec} (sha256 : bytes -> bytes).
Context `{R : Runtime} `{Cat : Catalog} `{En : Env} (backend : DatabaseBackend).

(** The database, the errors it will give, the event log, the URIs labels are
    fetched for, the lexicons and the collections ingested. *)
Record State : Type := {
  db : Database;
  faults : list (option Fault);
  logged : list (string * string);
  fetched : list string;
  lexicons : Lexicons;
  collections : list string;
}.

Definition set_db (st : State) (d : Database) : State :=
  {| db := d; faults := faults st; logged := logged st; fetched := fetched st;
     lexicons := lexicons st; collections := collections st |}.
Definition set_faults (st : State) (l : list (option Fault)) : State :=
  {| db := db st; faults := l; logged := logged st; fetched := fetched st;
     lexicons := lexicons st; collections := collections st |}.
Definition log (st : State) (event_type subject : string) : State :=
  {| db := db st; faults := faults st; logged := logged st ++ [(event_type, subject)]; fetched := fetched st;
     lexicons := lexicons st; collections := collections st |}.
Definition log_verbose (st : State) (event_type subject : string) : State :=
  if verbose_event_logging then log st event_type subject else st.
Definition set_lexicons (st : State) (l : Lexicons) : State :=
  {| db := db st; faults := faults st; logged := logged st; fetched := fetched st;
     lexicons := l; collections := collections st |}.
Definition send_collections (st : State) : State :=
  {| db := db st; faults := faults st; logged := logged st; fetched := fetched st;
     lexicons := lexicons st; collections := get_record_collections (lexicons st) |}.

Definition fetch_labels (st : State) (uris : list string) : State :=
  if negb has_active_subscriptions then st
  else {| db := db st; faults := faults st; logged := logged st; fetched := fetched st ++ uris;
          lexicons := lexicons st; collections := collections st |}.

(** One attempt at a statement or transaction: the next fault, if any, rolls
    it back or hides that it was committed.  [None] of the body is a constraint
    the database refuses. *)
Definition transaction {A} (body : Database -> option (Database * A)) (st : State) : State * result A SqlxError :=
  match faults st with
  | Some (RolledBack e) :: rest => (set_faults st rest, Err e)
  | Some (Unconfirmed e) :: rest =>
      let st := set_faults st rest in
      match body (db st) with
      | Some (d, _) => (set_db st d, Err e)
      | None => (st, Err (DatabaseError None))
      end
  | l =>
      let st := set_faults st (tail l) in
      match body (db st) with
      | Some (d, a) => (set_db st d, Ok a)
      | None => (st, Err (DatabaseError None))
      end
  end.

Definition read {A} (f : Database -> A) (st : State) : State * result A SqlxError :=
  transaction (fun d => Some (d, f d)) st.

(** ** Hooks *)

Definition log_skipped (st : State) (u : string) : State := log_verbose st "record.skipped" u.

Definition payload_of (ev : RecordEvent) (action : string) (body : option value) : RecordEventPayload :=
  {| nsid := StreamEvent.collection (key ev); payload_action := action; payload_uri := uri (key ev);
     payload_did := did (key ev); payload_rkey := StreamEvent.rkey (key ev); payload_record := body |}.

Definition decide_record (st : State) (ev : RecordEvent) (body : value) (hook : Hook) : State * Decision :=
  let u := uri (key ev) in
  let cid := default "" (StreamEvent.cid ev) in
  match verify_record_cid sha256 cid body with
  | Mismatch => (log st "record.cid_mismatch" u, DCidMismatch)
  | _ =>
      let o := match hook with
               | HRun => run_record_event_script (payload_of ev (Action_as_str (action ev)) (Some body))
               | HGiven o => o
               end in
      match o with
      | HookSkip => (log_skipped st u, DSkip)
      | HookReplace v => (st, DReplace v)
      | HookProceed => (st, DProceed)
      end
  end.

Definition hook_body_with (st : State) (ev : RecordEvent) (body : value) (hook : Hook) : State * HookedBody :=
  let '(st, decision) := decide_record st ev body hook in
  (st, match decision with
       | DProceed => Store body
       | DReplace v => Store v
       | DSkip => SkipBody
       | DCidMismatch => CidMismatch
       end).

Definition hook_body (st : State) (ev : RecordEvent) (body : value) : State * HookedBody :=
  hook_body_with st ev body HRun.

Definition delete_hook (ev : RecordEvent) (hook : Hook) : RecordHookOutcome :=
  match hook with
  | HRun => run_record_event_script (payload_of ev "delete" (StreamEvent.body ev))
  | HGiven o => o
  end.

Definition prepare (ev : RecordEvent) (body : value) : PreparedRecord :=
  {| p_did := did (key ev); p_collection := StreamEvent.collection (key ev);
     p_rkey := StreamEvent.rkey (key ev); p_record_json := to_string body;
     p_cid := default "" (StreamEvent.cid ev); p_rev := StreamEvent.rev ev |}.

(** ** Record events *)

Definition is_tracked (st : State) (collection : string) : bool := is_indexed (lexicons st) collection.

Definition write_prepared (rs : list PreparedRecord) : State -> State * result (list string) SqlxError :=
  retry_on_busy (transaction (fun d => write_network backend now_micros d rs)).

Definition remove_failed_open (st : State) (ev : RecordEvent) (body : value) (u : string) : State * IngestOutcome :=
  let '(st, removed) :=
    retry_on_busy (transaction (fun d =>
      Some (delete_network_if_body d u (did (key ev)) (StreamEvent.collection (key ev)) body now_rfc3339))) st in
  match removed with
  | Ok removed => (if removed then log_verbose st "record.deleted" u else st, StreamEvent.Skipped)
  | Err e => (log st "record.deleted" u, failed_write_outcome e)
  end.

Definition apply_local (st : State) (ev : RecordEvent) (hook : Hook) : State * IngestOutcome :=
  let u := uri (key ev) in
  match action ev with
  | Create | Update =>
      match StreamEvent.body ev with
      | None => (st, Invalid)
      | Some rec =>
          let '(st, hooked) := hook_body_with st ev rec hook in
          match hooked, origin ev with
          | SkipBody, Retry => remove_failed_open st ev rec u
          | SkipBody, _ | CidMismatch, _ => (st, StreamEvent.Skipped)
          | Store v, _ =>
              let '(st, written) := write_prepared [prepare ev v] st in
              match written with
              | Ok changed =>
                  (match changed with
                   | [] => st
                   | _ => fetch_labels (log_verbose st "record.created" u) [u]
                   end, Matched)
              | Err e => (log st "record.created" u, failed_write_outcome e)
              end
          end
      end
  | Delete =>
      match delete_hook ev hook with
      | HookSkip => (log_skipped st u, StreamEvent.Skipped)
      | _ =>
          let '(st, deleted) :=
            retry_on_busy (transaction (fun d =>
              Some (delete_network d u (did (key ev)) (StreamEvent.collection (key ev)) (StreamEvent.rev ev)
                      now_rfc3339 (backfill_running (StreamEvent.collection (key ev))), tt))) st in
          match deleted with
          | Ok _ => (log_verbose st "record.deleted" u, Matched)
          | Err e => (log st "record.deleted" u, failed_write_outcome e)
          end
      end
  end.

(** [lexicon_schema_event]; [nsid] is the record's key. *)
Definition lexicon_schema_event (st : State) (d nsid action : string) (body : option value)
    : State * IngestOutcome :=
  let failed e := match e with InvalidLexicon => Invalid | LexiconDb e => failed_write_outcome e end in
  match get_network (lexicons st) nsid with
  | None => (st, SchemaEvent)
  | Some tracked =>
      if negb (bool_decide (authority_did tracked = Some d)) then (st, SchemaEvent)
      else if (action =s "create") || (action =s "update") then
        match body with
        | None => (st, Invalid)
        | Some rec =>
            let '(l, r) := refresh_network (lexicons st) nsid rec in
            let st := set_lexicons st l in
            match r with
            | Ok true =>
                (if is_some_and (get_network l nsid) is_record_type then send_collections st else st, SchemaEvent)
            | Ok false => (st, SchemaEvent)
            | Err e => (st, failed e)
            end
        end
      else if action =s "delete" then
        let '(l, r) := remove_network (lexicons st) nsid in
        let st := set_lexicons st l in
        match r with
        | Ok true => (send_collections st, SchemaEvent)
        | Ok false => (st, SchemaEvent)
        | Err e => (st, failed e)
        end
      else (st, Invalid)
  end.

Definition apply_record_changed (st : State) (ev : RecordEvent) (hook : Hook) : State * (IngestOutcome * bool) :=
  let c := StreamEvent.collection (key ev) in
  if c =s LEXICON_SCHEMA_COLLECTION then
    let '(st, o) :=
      lexicon_schema_event st (did (key ev)) (StreamEvent.rkey (key ev)) (Action_as_str (action ev))
        (StreamEvent.body ev) in
    (st, (o, false))
  else if negb (is_tracked st c) then (st, (StreamEvent.Skipped, false))
  else let '(st, o) := apply_local st ev hook in (st, (o, false)).

Definition apply_record (st : State) (ev : RecordEvent) (hook : Hook) : State * IngestOutcome :=
  let '(st, (o, _)) := apply_record_changed st ev hook in (st, o).

(** [apply_retry], with the outcome of the dead letter's script. *)
Definition apply_retry (st : State) (ev : RecordEvent) (script : result RecordHookOutcome string)
    : State * result IngestOutcome string :=
  match script with
  | Err e => (st, Err e)
  | Ok o => let '(st, outcome) := apply_record st ev (HGiven o) in (st, Ok outcome)
  end.

(** ** Account and sync events *)

Definition tid (time_us : Z) : string := tid_from_unix_microseconds time_us.

Definition holds_records (st : State) (d : string) : State * result bool SqlxError :=
  read (fun b => holds_local_network_records b d None) st.

(** One round of the purge loop: a batch in its own transaction. *)
Definition purge_step (d : string) (cs : option (list string)) (before : option string) (s : State * nat)
    : (State * nat) + (State * result nat SqlxError) :=
  let '(st, purged) := s in
  let '(st, r) :=
    retry_on_busy (transaction (fun b =>
      Some (match before with
            | None => purge_network_batch b d cs PURGE_BATCH
            | Some before => purge_network_batch_before b d cs before PURGE_BATCH
            end))) st in
  match r with
  | Err e => inr (st, Err e)
  | Ok deleted =>
      if (deleted <? PURGE_BATCH)%nat then inr (st, Ok (purged + deleted)%nat) else inl (st, (purged + deleted)%nat)
  end.

(** [purge], over transactions that may fail; a loop still running after a
    round per row gives [OtherError], which the proofs exclude. *)
Definition purge_in (st : State) (d : string) (cs : option (list string)) (before : option string)
    : State * result nat SqlxError :=
  match cs with
  | Some [] => (st, Ok 0%nat)
  | _ =>
      let '(st, held) :=
        read (fun b => match before with
                       | None => holds_local_network_records b d cs
                       | Some before => holds_network_records_before b d cs before
                       end) st in
      match held with
      | Err e => (st, Err e)
      | Ok false => (st, Ok 0%nat)
      | Ok true =>
          match iter_until (purge_step d cs before) (Pos.of_succ_nat (size (records (db st)))) (st, 0%nat) with
          | inr r => r
          | inl (st, _) => (st, Err OtherError)
          end
      end
  end.

(** The end of [account_purged]: the tombstone, then the purge. *)
Definition tombstone_and_purge (st : State) (d : string) (seq : option Z) (witnessed_us : Z) (event_type : string)
    (before : option string) (cs : option (list string)) : State * Applied :=
  let '(st, tombstoned) :=
    retry_on_busy (transaction (fun b =>
      Some (write_did_tombstone b d (tid witnessed_us) seq now_rfc3339, tt))) st in
  match tombstoned with
  | Err e => (st, applied_failed e)
  | Ok _ =>
      let '(st, purged) := purge_in st d cs before in
      match purged with
      | Ok n => (if (n =? 0)%nat then st else log st event_type d, applied_ok Matched)
      | Err e => (st, applied_failed e)
      end
  end.

Definition account_purged (st : State) (d : string) (seq : option Z) (witnessed_us : Z) (event_type : string)
    (status : option string) (before : option string) (cs : option (list string)) : State * Applied :=
  let deleted := bool_decide (status = None) in
  let '(st, held) := if deleted then holds_records st d else (st, Ok false) in
  match held with
  | Err e => (st, applied_failed e)
  | Ok held =>
      match (if held then active_at_pds d else None) with
      | Some _ => (log st "jetstream.account_status_mismatch" d, applied_ok Matched)
      | None => tombstone_and_purge st d seq witnessed_us event_type before cs
      end
  end.

Definition account_inactive (st : State) (d : string) : State * Applied :=
  let '(st, held) := holds_records st d in
  match held with
  | Err e => (st, applied_failed e)
  | Ok held => (if held then log st "jetstream.account_inactive" d else st, applied_ok Matched)
  end.

Definition account_active (st : State) (d : string) (before : option string) : State * Applied :=
  let '(st, found) := read (fun b => did_tombstone_rev b d) st in
  match found with
  | Err e => (st, applied_failed e)
  | Ok None => (st, applied_ok Matched)
  | Ok (Some stored) =>
      if is_some_and before (fun before => rev_le before stored) then (st, applied_ok Matched)
      else
        let '(st, lifted) :=
          retry_on_busy (transaction (fun b => Some (lift_did_tombstone b d before, tt))) st in
        match lifted with
        | Ok _ => (st, applied_ok Matched)
        | Err e => (st, applied_failed e)
        end
  end.

Definition account_event (st : State) (d : string) (active : bool) (status : option string)
    (as_of_us seq time_us : option Z) (cs : option (list string)) : State * Applied :=
  let before := tid <$> as_of_us in
  let witnessed := default now_micros (match time_us with Some t => Some t | None => as_of_us end) in
  if active then account_active st d before
  else
    match status with
    | Some s =>
        if s =s "deleted" then
          account_purged st d seq witnessed "jetstream.account_deleted" None before cs
        else if (s =s "takendown") || (s =s "suspended") then
          account_purged st d seq witnessed "jetstream.account_takendown" (Some s) before cs
        else if bool_decide (is_Some as_of_us) then (st, applied_ok Matched)
        else account_inactive st d
    | None =>
        if bool_decide (is_Some as_of_us) then (st, applied_ok Matched) else account_inactive st d
    end.

Definition repo_resynced (st : State) (d : string) (tracked : list string) (before : option string)
    : State * Applied :=
  let cs := filter (fun c => Is_true (negb (c =s LEXICON_SCHEMA_COLLECTION))) tracked in
  let '(st, purged) := purge_in st d (Some cs) before in
  match purged with
  | Ok n => (if (n =? 0)%nat then st else log st "jetstream.sync_purged" d, applied_ok Matched)
  | Err e => (st, applied_failed e)
  end.

Definition apply_in (st : State) (event : SourceEvent) : State * Applied :=
  match event with
  | SRecord ev =>
      let '(st, (o, changed)) := apply_record_changed st ev HRun in
      (st, {| outcome := o; error := None; applied_changed := changed |})
  | SAccount d active status as_of_us seq time_us cs => account_event st d active status as_of_us seq time_us cs
  | SSync d rev as_of_us _ _ cs =>
      let tracked := default (collections st) cs in
      let before := (fun t => default (tid t) rev) <$> as_of_us in
      repo_resynced st d tracked before
  | SIdentity _ _ => (st, applied_ok StreamEvent.Skipped)
  end.

Definition apply (st : State) (event : SourceEvent) : State * IngestOutcome :=
  let '(st, a) := apply_in st event in (st, outcome a).

(** ** Batches *)

(** A hooked create or update waiting for its run's write. *)
Record RunEntry : Type := { slot : nat; entry_event : RecordEvent; entry_record : PreparedRecord }.

Definition push (out : BatchOutcome) (o : IngestOutcome) (c : bool) : BatchOutcome :=
  {| outcomes := outcomes out ++ [o]; changed := changed out ++ [c] |}.

(** [Vec::resize]. *)
Definition resize {A} (l : list A) (n : nat) (x : A) : list A := take n l ++ replicate (n - length l) x.

Definition fill_failed (out : BatchOutcome) (total : nat) (o : IngestOutcome) : BatchOutcome :=
  {| outcomes := resize (outcomes out) total o; changed := resize (changed out) total false |}.

Definition truncate (out : BatchOutcome) (n : nat) : BatchOutcome :=
  {| outcomes := take n (outcomes out); changed := take n (changed out) |}.

(** The walk over a written run from its last entry: a URI reported as changed
    marks its last copy.  Answers the flags and the fresh URIs, last first. *)
Fixpoint mark_changed (rev_run : list RunEntry) (reported : gset string) (flags : list bool)
    : list bool * list string :=
  match rev_run with
  | [] => (flags, [])
  | e :: rest =>
      let u := uri (key (entry_event e)) in
      if bool_decide (u ∈ reported) then
        let '(flags, fresh) := mark_changed rest (reported ∖ {[u]}) (<[slot e := true]> flags) in
        (flags, u :: fresh)
      else mark_changed rest reported flags
  end.

(** [write_run]: empties the run; on failure [out] is cut back to the run's
    first slot. *)
Definition write_run (st : State) (run : list RunEntry) (out : BatchOutcome)
    : State * (BatchOutcome * option (IngestOutcome * SqlxError)) :=
  match run with
  | [] => (st, (out, None))
  | first :: _ =>
      let '(st, written) := write_prepared (entry_record <$> run) st in
      match written with
      | Err e => (st, (truncate out (slot first), Some (failed_write_outcome e, e)))
      | Ok reported =>
          let '(flags, rev_fresh) := mark_changed (reverse run) (list_to_set reported) (changed out) in
          let fresh := reverse rev_fresh in
          let st := foldl (fun st u => log_verbose st "record.created" u) st fresh in
          let st := match fresh with [] => st | _ => fetch_labels st fresh end in
          (st, ({| outcomes := outcomes out; changed := flags |}, None))
      end
  end.

(** Whether an event joins a run: a create or update with a body, of a tracked
    collection that is not the schema collection. *)
Definition joins_run (tracked : string -> bool) (event : SourceEvent) : option (RecordEvent * value) :=
  match event with
  | SRecord ev =>
      match action ev, StreamEvent.body ev with
      | (Create | Update), Some body =>
          if negb (StreamEvent.collection (key ev) =s LEXICON_SCHEMA_COLLECTION)
             && tracked (StreamEvent.collection (key ev))
          then Some (ev, body) else None
      | _, _ => None
      end
  | _ => None
  end.

#[global] Instance Origin_eq_dec : EqDecision Origin.
Proof. solve_decision. Defined.

(** The loop of [apply_events]; [tracked] are the answers of [is_tracked] kept
    for the batch. *)
Fixpoint apply_loop (total : nat) (events : list SourceEvent) (st : State) (tracked : gmap string bool)
    (run : list RunEntry) (out : BatchOutcome) : State * (BatchOutcome * option SqlxError) :=
  let stop (st : State) (out : BatchOutcome) (f : IngestOutcome * SqlxError) :=
    (st, (fill_failed out total f.1, Some f.2)) in
  match events with
  | [] =>
      let '(st, (out, failed)) := write_run st run out in
      match failed with Some f => stop st out f | None => (st, (out, None)) end
  | event :: rest =>
      let asks :=
        match joins_run (fun _ => true) event with
        | Some (ev, _) => Some (StreamEvent.collection (key ev))
        | None => None
        end in
      let tracked :=
        match asks with
        | Some c => match tracked !! c with Some _ => tracked | None => <[c := is_tracked st c]> tracked end
        | None => tracked
        end in
      match joins_run (fun c => default false (tracked !! c)) event with
      | Some (ev, body) =>
          let '(st, hooked) := hook_body st ev body in
          match hooked with
          | Store v =>
              let other_origin :=
                match last run with
                | Some e => negb (bool_decide (origin (entry_event e) = origin ev))
                | None => false
                end in
              let '(st, (out, failed)) := if other_origin then write_run st run out else (st, (out, None)) in
              match failed with
              | Some f => stop st out f
              | None =>
                  let run := if other_origin then [] else run in
                  let entry := {| slot := length (outcomes out); entry_event := ev; entry_record := prepare ev v |} in
                  apply_loop total rest st tracked (run ++ [entry]) (push out Matched false)
              end
          | SkipBody | CidMismatch => apply_loop total rest st tracked run (push out StreamEvent.Skipped false)
          end
      | None =>
          let '(st, (out, failed)) := write_run st run out in
          match failed with
          | Some f => stop st out f
          | None =>
              let '(st, a) := apply_in st event in
              apply_loop total rest st tracked [] (push out (outcome a) (applied_changed a))
          end
      end
  end.

Definition apply_events (st : State) (events : list SourceEvent) : State * (BatchOutcome * option SqlxError) :=
  apply_loop (length events) events st ∅ [] {| outcomes := []; changed := [] |}.

Definition apply_batch (st : State) (events : list SourceEvent) : State * BatchOutcome :=
  let '(st, (out, _)) := apply_events st events in (st, out).

(** ** Hook concurrency *)

Definition DEFAULT_BACKFILL_HOOK_CONCURRENCY : Z := 4.
Definition MAX_BACKFILL_HOOK_CONCURRENCY : Z := 32.

(** [usize] is 64 bits. *)
Definition parse_hook_concurrency (v : option string) : Z :=
  match (s ← v; if trim s =s EmptyString then None else Some (trim s)) with
  | None => DEFAULT_BACKFILL_HOOK_CONCURRENCY
  | Some s =>
      match parse_unsigned (2 ^ 64 - 1) s with
      | Some n =>
          if (1 <=? n) && (n <=? MAX_BACKFILL_HOOK_CONCURRENCY) then n
          else Z.max 1 (Z.min n MAX_BACKFILL_HOOK_CONCURRENCY)
      | None => DEFAULT_BACKFILL_HOOK_CONCURRENCY
      end
  end.

(** [batch_concurrency], without external storage to lower it. *)
Fixpoint all_backfill (uris : gset string) (events : list SourceEvent) : bool :=
  match events with
  | [] => true
  | SRecord ev :: rest =>
      match origin ev with
      | Backfill _ =>
          if bool_decide (uri (key ev) ∈ uris) then false else all_backfill ({[uri (key ev)]} ∪ uris) rest
      | _ => false
      end
  | _ => false
  end.

Definition batch_concurrency (configured : Z) (events : list SourceEvent) : Z :=
  if configured =? 1 then 1
  else if all_backfill ∅ events then configured else 1.

(** ** One outcome per event *)

Lemma length_resize {A} (l : list A) n x : length (resize l n x) = n.
Proof. unfold resize. rewrite length_app, length_take, length_replicate. lia. Qed.

Lemma mark_changed_length run : forall reported flags,
  length (mark_changed run reported flags).1 = length flags.
Proof.
  induction run as [|e run IH]; intros reported flags; [done|]. cbn [mark_changed].
  case_bool_decide; [|apply IH].
  specialize (IH (reported ∖ {[uri (key (entry_event e))]}) (<[slot e := true]> flags)).
  destruct (mark_changed run _ _) as [flags' fresh]. cbn [fst] in *. by rewrite IH, length_insert.
Qed.

(** As many flags as outcomes, [n] of each. *)
Definition slots (out : BatchOutcome) (n : nat) : Prop := length (outcomes out) = n /\ length (changed out) = n.

Lemma write_run_slots st run out n :
  slots out n -> (write_run st run out).2.2 = None -> slots (write_run st run out).2.1 n.
Proof.
  intros [H1 H2]. unfold write_run. destruct run as [|e run]; [by split|].
  destruct (write_prepared _ st) as [st1 [reported|err]]; [|done].
  pose proof (mark_changed_length (reverse (e :: run)) (list_to_set reported) (changed out)) as Hl.
  destruct (mark_changed _ _ _) as [flags fresh]. cbn [fst snd] in *. intros _. split; [done|]. cbn. congruence.
Qed.

Lemma fill_failed_slots out total o : slots (fill_failed out total o) total.
Proof. split; apply length_resize. Qed.

Lemma push_slots out n o c : slots out n -> slots (push out o c) (S n).
Proof. intros [H1 H2]. split; cbn; rewrite length_app; cbn; lia. Qed.

Lemma apply_loop_slots total events : forall st tracked run out n,
  slots out n -> (n + length events = total)%nat ->
  slots (apply_loop total events st tracked run out).2.1 total.
Proof.
  induction events as [|event events IH]; intros st tracked run out n Hs Hn; cbn [apply_loop length] in *.
  - pose proof (write_run_slots st run out n Hs) as Hw.
    destruct (write_run st run out) as [st1 [out1 [f|]]]; cbn [fst snd] in *; [apply fill_failed_slots|].
    replace total with n by lia. by apply Hw.
  - destruct (joins_run _ event) as [[ev body]|].
    + destruct (hook_body st ev body) as [st1 [v| |]].
      * set (oo := match last run with Some _ => _ | None => _ end).
        assert (Hw : slots (if oo then write_run st1 run out else (st1, (out, None))).2.1 n
                     \/ is_Some (if oo then write_run st1 run out else (st1, (out, None))).2.2).
        { destruct oo; [|by left]. pose proof (write_run_slots st1 run out n Hs) as Hw.
          destruct (write_run st1 run out) as [st2 [out2 [f|]]]; [right; by eexists|left; by apply Hw]. }
        destruct (if oo then _ else _) as [st2 [out2 [f|]]]; cbn [fst snd] in *; [apply fill_failed_slots|].
        destruct Hw as [Hw|[? [=]]]. apply (IH _ _ _ _ (S n)); [by apply push_slots|lia].
      * apply (IH _ _ _ _ (S n)); [by apply push_slots|lia].
      * apply (IH _ _ _ _ (S n)); [by apply push_slots|lia].
    + pose proof (write_run_slots st run out n Hs) as Hw.
      destruct (write_run st run out) as [st1 [out1 [f|]]]; cbn [fst snd] in *; [apply fill_failed_slots|].
      destruct (apply_in st1 event) as [st2 a]. apply (IH _ _ _ _ (S n)); [by apply push_slots, Hw|lia].
Qed.

(** ** Transactions *)

(** A transaction and its retries keep what every body keeps. *)
Lemma transaction_keeps {A} (body : Tombstones.Database -> option (Tombstones.Database * A)) (P : State -> Prop) st :
  (forall st l, P st -> P (set_faults st l)) ->
  (forall st d a, P st -> body (db st) = Some (d, a) -> P (set_db st d)) ->
  P st -> P (transaction body st).1.
Proof.
  intros Hf Hb Hp. unfold transaction. destruct (faults st) as [|[[e|e]|] l]; cbn [fst]; [|by apply Hf|..];
    (destruct (body _) as [[d a]|] eqn:E; [|by apply Hf]); apply (Hb (set_faults st _) d a); auto.
Qed.

Lemma retried_keeps {A} (body : Tombstones.Database -> option (Tombstones.Database * A)) (P : State -> Prop) st :
  (forall st l, P st -> P (set_faults st l)) ->
  (forall st d a, P st -> body (db st) = Some (d, a) -> P (set_db st d)) ->
  P st -> P (retry_on_busy (transaction body) st).1.
Proof.
  intros Hf Hb Hp.
  pose proof (retry_on_busy_ind (transaction body) P (fun s _ => P s) st Hp) as H.
  destruct (retry_on_busy (transaction body) st) as [st' r]. cbn [fst]. apply H.
  intros s Hs. pose proof (transaction_keeps body P s Hf Hb Hs) as Hk.
  destruct (transaction body s) as [s' r']. cbn in Hk. auto.
Qed.

(** *** Repeated transactions

    A body that finds nothing to do where it was done before: however often an
    attempt is retried and however it fails, the tables are those before it or
    those after doing it once. *)

Record repeatable {A} (body : Tombstones.Database -> option (Tombstones.Database * A)) (settled : Tombstones.Database -> Prop) : Prop := {
  body_done : forall d, sound backend d -> exists d' a, body d = Some (d', a) /\ sound backend d' /\ settled d';
  body_again : forall d d' a, sound backend d -> settled d -> body d = Some (d', a) -> same_tables d' d;
}.

Section Repeat.
Context {A} (body : Tombstones.Database -> option (Tombstones.Database * A)) (settled : Tombstones.Database -> Prop).
Context (Hbody : repeatable body settled) (d0 d1 : Tombstones.Database) (a1 : A).
Context (Hs0 : sound backend d0) (Honce : body d0 = Some (d1, a1)).

Definition been_done (d : Tombstones.Database) : Prop := sound backend d /\ settled d /\ same_tables d d1.
Definition in_between (d : Tombstones.Database) : Prop := d = d0 \/ been_done d.

Lemma done_next d : in_between d -> exists d' a, body d = Some (d', a) /\ been_done d'.
Proof.
  intros Hd. assert (Hs : sound backend d) by (destruct Hd as [->|[? _]]; done).
  destruct (body_done _ _ Hbody d Hs) as (d' & a & E & Hs' & Hset). exists d', a. split; [done|]. split; [done|]. split; [done|].
  destruct Hd as [->|(_ & Hd & Hsame)]; [by rewrite E in Honce; injection Honce as -> _|].
  transitivity d; [|done]. by eapply body_again.
Qed.

Lemma attempt_between st :
  in_between (db st) -> let '(st', r) := transaction body st in in_between (db st') /\ (is_ok r = true -> been_done (db st')).
Proof.
  intros Hd. destruct (done_next _ Hd) as (d' & a & E & Hdone). unfold transaction.
  destruct (faults st) as [|[[e|e]|] l]; cbn [db set_faults]; rewrite ?E; cbn; (split; [|done]); first [exact Hd|by right].
Qed.

Lemma retried_between st :
  in_between (db st) ->
  let res := retry_on_busy (transaction body) st in in_between (db res.1) /\ (is_ok res.2 = true -> been_done (db res.1)).
Proof.
  intros Hd. pose proof (retry_on_busy_ind (transaction body) (fun s => in_between (db s))
    (fun s r => in_between (db s) /\ (is_ok r = true -> been_done (db s))) st Hd) as H.
  destruct (retry_on_busy (transaction body) st) as [st' r]. apply H. intros s Hs. pose proof (attempt_between s Hs) as Ha.
  destruct (transaction body s) as [s' r']. destruct Ha as [H1 H2]. split; [done|]. intros _ _. exact H1.
Qed.
End Repeat.

Lemma transaction_fault_free {A} (body : Tombstones.Database -> option (Tombstones.Database * A)) st d a :
  faults st = [] -> body (db st) = Some (d, a) -> transaction body st = (set_db st d, Ok a).
Proof.
  intros Hf Hb. unfold transaction. rewrite Hf. cbn. rewrite Hb.
  destruct st; cbn in *. by subst.
Qed.

Lemma retried_fault_free {A} (body : Tombstones.Database -> option (Tombstones.Database * A)) st d a :
  faults st = [] -> body (db st) = Some (d, a) -> retry_on_busy (transaction body) st = (set_db st d, Ok a).
Proof. intros Hf Hb. apply retry_on_busy_ok. by apply transaction_fault_free. Qed.

(** ** What every event keeps

    A property of the database that network writes of the records [allowed],
    deletes of clean keys, purges and account tombstones keep, is kept by
    every event whose stored bodies are allowed. *)

Section Keeps.
Context (Q : Tombstones.Database -> Prop) (allowed : PreparedRecord -> Prop).

Hypothesis Q_write : forall now d rs d' ch,
  Q d -> Forall allowed rs -> write_network backend now d rs = Some (d', ch) -> Q d'.
Hypothesis Q_delete : forall d k rev now bf,
  Q d -> clean k -> Q (delete_network d (uri k) (did k) (StreamEvent.collection k) rev now bf).
Hypothesis Q_delete_body : forall d k v now,
  Q d -> clean k -> Q (delete_network_if_body d (uri k) (did k) (StreamEvent.collection k) v now).1.
Hypothesis Q_purge : forall d ids, Q d -> Q (delete_ids d ids).1.
Hypothesis Q_dids : forall d m, Q d -> Q (set_did_tombstones d m).

Definition holds (st : State) : Prop := Q (db st).

Lemma holds_log st t u : holds st -> holds (log st t u).
Proof. done. Qed.
Lemma holds_log_verbose st t u : holds st -> holds (log_verbose st t u).
Proof. unfold log_verbose. by destruct verbose_event_logging. Qed.
Lemma holds_fetch st l : holds st -> holds (fetch_labels st l).
Proof. unfold fetch_labels. by destruct (negb _). Qed.
Lemma holds_faults st l : holds st -> holds (set_faults st l).
Proof. done. Qed.
#[local] Hint Resolve holds_log holds_log_verbose holds_fetch holds_faults : core.

Lemma holds_retried {A} (body : Tombstones.Database -> option (Tombstones.Database * A)) st :
  (forall d d' a, Q d -> body d = Some (d', a) -> Q d') -> holds st -> holds (retry_on_busy (transaction body) st).1.
Proof. intros Hb. apply retried_keeps; [done|]. intros s d a Hs He. by eapply Hb. Qed.

Lemma holds_read {A} (f : Tombstones.Database -> A) st : holds st -> holds (read f st).1.
Proof. apply transaction_keeps; [done|]. intros s d a Hs [= <- _]. done. Qed.

(** The records of an event that may be stored. *)
Definition stores_allowed (ev : RecordEvent) : Prop :=
  forall st body v, action ev <> Delete -> StreamEvent.body ev = Some body ->
    (hook_body st ev body).2 = Store v -> allowed (prepare ev v).

Definition event_ok (e : SourceEvent) : Prop :=
  match e with SRecord ev => clean (key ev) /\ stores_allowed ev | _ => True end.

Lemma holds_write rs st : Forall allowed rs -> holds st -> holds (write_prepared rs st).1.
Proof. intros Ha. apply holds_retried. intros d d' ch Hq. by eapply Q_write. Qed.

Lemma hook_body_db st ev body hook : db (hook_body_with st ev body hook).1 = db st.
Proof.
  unfold hook_body_with, decide_record, log_skipped, log_verbose.
  destruct (verify_record_cid _ _ _), hook as [|[]]; repeat case_match; simplify_eq; done.
Qed.

Lemma holds_apply_local st ev :
  clean (key ev) -> stores_allowed ev -> holds st -> holds (apply_local st ev HRun).1.
Proof.
  intros Hc Ha Hs. unfold apply_local. destruct (action ev) eqn:Ea.
  1,2: destruct (StreamEvent.body ev) as [rec|] eqn:Eb; [|done];
    pose proof (hook_body_db st ev rec HRun) as Hd; specialize (Ha st rec);
    unfold hook_body in Ha; destruct (hook_body_with st ev rec HRun) as [st1 hooked]; cbn [fst snd] in *;
    assert (Hs1 : holds st1) by (unfold holds; by rewrite Hd).
  1,2: destruct hooked as [v| |];
    [|destruct (origin ev); [exact Hs1|exact Hs1|]; unfold remove_failed_open|destruct (origin ev); exact Hs1].
  1,3: assert (Hw : holds (write_prepared [prepare ev v] st1).1)
         by (apply holds_write; [constructor; [apply Ha; [by rewrite Ea|done|done]|done]|done]);
       destruct (write_prepared _ st1) as [st2 [ch|e]]; cbn [fst] in *; [destruct ch|]; by auto.
  1,2: match goal with |- context [retry_on_busy (transaction ?b) ?s1] =>
         assert (Hw : holds (retry_on_busy (transaction b) s1).1)
           by (apply holds_retried; [|done]; intros d d' a Hq [= Hb];
               pose proof (Q_delete_body d (key ev) rec now_rfc3339 Hq Hc) as Hx; by rewrite Hb in Hx);
         destruct (retry_on_busy (transaction b) s1) as [st2 [b0|e]]; cbn [fst] in *;
         [destruct b0|]; by auto
       end.
  destruct (delete_hook ev HRun); cycle 2.
  - unfold log_skipped. cbn [fst]. auto.
  - match goal with |- context [retry_on_busy (transaction ?b) st] =>
      assert (Hw : holds (retry_on_busy (transaction b) st).1)
        by (apply holds_retried; [|done]; intros d d' a Hq [= <- _]; by apply Q_delete);
      destruct (retry_on_busy (transaction b) st) as [st2 [b0|e]]; cbn [fst] in *; by auto
    end.
  - match goal with |- context [retry_on_busy (transaction ?b) st] =>
      assert (Hw : holds (retry_on_busy (transaction b) st).1)
        by (apply holds_retried; [|done]; intros d d' a Hq [= <- _]; by apply Q_delete);
      destruct (retry_on_busy (transaction b) st) as [st2 [b0|e]]; cbn [fst] in *; by auto
    end.
Qed.

Lemma schema_event_db st d n a b : db (lexicon_schema_event st d n a b).1 = db st.
Proof. unfold lexicon_schema_event. repeat case_match; simplify_eq; done. Qed.

Lemma holds_apply_record st ev :
  clean (key ev) -> stores_allowed ev -> holds st -> holds (apply_record_changed st ev HRun).1.
Proof.
  intros Hc Ha Hs. unfold apply_record_changed. destruct (_ =s _).
  - pose proof (schema_event_db st (did (key ev)) (StreamEvent.rkey (key ev)) (Action_as_str (action ev))
                  (StreamEvent.body ev)) as Hd.
    destruct (lexicon_schema_event _ _ _ _ _) as [st1 o]. cbn in *. unfold holds. by rewrite Hd.
  - destruct (negb _); [done|]. pose proof (holds_apply_local st ev Hc Ha Hs).
    by destruct (apply_local st ev HRun).
Qed.

Lemma holds_purge_in st d cs before : holds st -> holds (purge_in st d cs before).1.
Proof.
  intros Hs. unfold purge_in. destruct cs as [[|c cs]|]; [done| |];
    (match goal with |- context [read ?f st] =>
       pose proof (holds_read f st Hs) as Hr; destruct (read f st) as [st1 [[]|e]]; [|exact Hr..] end);
    cbn [fst] in Hr;
    (match goal with |- context [iter_until ?step ?fuel ?s0] =>
       pose proof (iter_until_inv step (fun s => holds s.1) (fun r => holds r.1)) as Hi;
       assert (Hstep : forall s, holds s.1 -> match step s with inl s1 => holds s1.1 | inr r => holds r.1 end);
       [|specialize (Hi Hstep fuel s0 Hr); by destruct (iter_until step fuel s0) as [[? ?]|[? ?]]] end);
    intros [s n] Hs1; cbn [fst] in Hs1; unfold purge_step;
    (match goal with |- context [retry_on_busy (transaction ?b) s] =>
       assert (Hw : holds (retry_on_busy (transaction b) s).1)
         by (apply holds_retried; [|done]; intros d0 d' a Hq [= Hb]; destruct before;
             unfold purge_network_batch, purge_network_batch_before in Hb; simplify_eq; by apply Q_purge);
       destruct (retry_on_busy (transaction b) s) as [st2 [n0|e]]; cbn [fst] in Hw;
       [destruct (n0 <? PURGE_BATCH)%nat; exact Hw|exact Hw] end).
Qed.

Lemma holds_account_purged st d seq w t status before cs :
  holds st -> holds (account_purged st d seq w t status before cs).1.
Proof.
  intros Hs. unfold account_purged.
  assert (Hr : holds (if bool_decide (status = None) then holds_records st d else (st, Ok false)).1)
    by (case_bool_decide; [by apply holds_read|done]).
  destruct (if bool_decide _ then _ else _) as [st1 [held|e]]; cbn [fst] in Hr; [|done].
  destruct (if held then _ else _) as [pds|]; [by apply holds_log|]. unfold tombstone_and_purge.
  match goal with |- context [retry_on_busy (transaction ?b) st1] =>
    assert (Hw : holds (retry_on_busy (transaction b) st1).1);
    [|destruct (retry_on_busy (transaction b) st1) as [st2 [u|e]]; cbn [fst] in Hw; [|done]] end.
  { apply holds_retried; [|done]. intros d0 d' a Hq [= <- _].
    destruct (write_did_tombstone_did d0 d (tid w) seq now_rfc3339) as [m ->]. by apply Q_dids. }
  pose proof (holds_purge_in st2 d cs before Hw) as Hp. destruct (purge_in st2 d cs before) as [st3 [n|e]]; [|done].
  by destruct (n =? 0)%nat.
Qed.

Lemma holds_account_active st d before : holds st -> holds (account_active st d before).1.
Proof.
  intros Hs. unfold account_active.
  match goal with |- context [read ?f st] =>
    pose proof (holds_read f st Hs) as Hr; destruct (read f st) as [st1 [[stored|]|e]]; [|exact Hr..] end.
  destruct (is_some_and _ _); [done|].
  match goal with |- context [retry_on_busy (transaction ?b) st1] =>
    assert (Hw : holds (retry_on_busy (transaction b) st1).1);
    [|by destruct (retry_on_busy (transaction b) st1) as [st2 [u|e]]] end.
  apply holds_retried; [|done]. intros d0 d' a Hq [= <- _].
  destruct (lift_did_tombstone_did d0 d before) as [m ->]. by apply Q_dids.
Qed.

Lemma holds_account_inactive st d : holds st -> holds (account_inactive st d).1.
Proof.
  intros Hs. unfold account_inactive. pose proof (holds_read (fun b => holds_local_network_records b d None) st Hs) as Hr.
  unfold holds_records. destruct (read _ st) as [st1 [[]|e]]; done.
Qed.

Lemma holds_apply_in st e : event_ok e -> holds st -> holds (apply_in st e).1.
Proof.
  intros Hok Hs. destruct e as [ev|d act status a q t cs|d h|d r a q t cs]; cbn [apply_in].
  - destruct Hok as [Hc Ha]. pose proof (holds_apply_record st ev Hc Ha Hs).
    by destruct (apply_record_changed st ev HRun) as [st1 [o ch]].
  - unfold account_event. destruct act; [by apply holds_account_active|].
    repeat case_match; first [done|by apply holds_account_purged|by apply holds_account_inactive].
  - done.
  - unfold repo_resynced.
    match goal with |- context [purge_in st d ?cs ?b] =>
      pose proof (holds_purge_in st d cs b Hs); destruct (purge_in st d cs b) as [st1 [n|e]] end; [|done].
    by destruct (n =? 0)%nat.
Qed.

(** ** Batches keep it too *)

Lemma holds_fold_log st l : holds st -> holds (foldl (fun st u => log_verbose st "record.created" u) st l).
Proof. revert st. induction l as [|u l IH]; intros st Hs; [done|]. cbn. apply IH. auto. Qed.

Lemma holds_write_run st run out :
  Forall (fun e => allowed (entry_record e)) run -> holds st -> holds (write_run st run out).1.
Proof.
  intros Ha Hs. unfold write_run. destruct run as [|e run]; [done|].
  assert (Hw : holds (write_prepared (entry_record <$> e :: run) st).1)
    by (apply holds_write; [by apply Forall_fmap|done]).
  destruct (write_prepared _ st) as [st1 [reported|err]]; [|done]. cbn [fst] in Hw.
  destruct (mark_changed _ _ _) as [flags fresh]. cbn [fst].
  destruct (reverse fresh) as [|u l]; [done|]. apply holds_fetch. by apply holds_fold_log.
Qed.

Lemma joins_run_some tr e ev body :
  joins_run tr e = Some (ev, body) -> e = SRecord ev /\ action ev <> Delete /\ StreamEvent.body ev = Some body.
Proof.
  unfold joins_run. destruct e as [ev0| | |]; [|done..].
  destruct (action ev0) eqn:Ea, (StreamEvent.body ev0) eqn:Eb; try done;
    destruct (_ && _); intros [= <- <-]; split_and!; try done; by rewrite Ea.
Qed.

Lemma holds_apply_loop total events : forall st tracked run out,
  Forall event_ok events -> Forall (fun e => allowed (entry_record e)) run -> holds st ->
  holds (apply_loop total events st tracked run out).1.
Proof.
  induction events as [|event events IH]; intros st tracked run out Hok Hrun Hs; cbn [apply_loop].
  - pose proof (holds_write_run st run out Hrun Hs). by destruct (write_run st run out) as [st1 [out1 [f|]]].
  - apply Forall_cons in Hok as [Hev Hok].
    destruct (joins_run _ event) as [[ev body]|] eqn:Ej.
    + apply joins_run_some in Ej as (-> & Hact & Hbody). destruct Hev as [Hc Ha].
      pose proof (hook_body_db st ev body HRun) as Hd. specialize (Ha st body). unfold hook_body in *.
      destruct (hook_body_with st ev body HRun) as [st1 hooked]. cbn [fst snd] in *.
      assert (Hs1 : holds st1) by (unfold holds; by rewrite Hd).
      destruct hooked as [v| |]; [|by apply IH..].
      set (oo := match last run with Some _ => _ | None => _ end).
      assert (Hw : holds (if oo then write_run st1 run out else (st1, (out, None))).1)
        by (destruct oo; [by apply holds_write_run|done]).
      destruct (if oo then write_run _ _ _ else _) as [st2 [out2 [f|]]]; cbn [fst] in Hw; [done|].
      apply IH; [done| |done]. apply Forall_app. split; [by destruct oo; [constructor|]|].
      constructor; [by apply Ha|constructor].
    + pose proof (holds_write_run st run out Hrun Hs) as Hw.
      destruct (write_run st run out) as [st1 [out1 [f|]]]; [done|]. cbn [fst] in Hw.
      pose proof (holds_apply_in st1 event Hev Hw). destruct (apply_in st1 event) as [st2 a].
      apply IH; [done|constructor|done].
Qed.

Lemma holds_apply_events st events : Forall event_ok events -> holds st -> holds (apply_events st events).1.
Proof. intros. by apply holds_apply_loop. Qed.

End Keeps.

(** ** The origin of stored rows *)

(** What the record hook makes of a body that passed the CID check. *)
Definition hooked_as (ev : RecordEvent) (body v : value) : Prop :=
  let o := run_record_event_script (payload_of ev (Action_as_str (action ev)) (Some body)) in
  (o = HookProceed /\ v = body) \/ o = HookReplace v.

(** [r] is what a create or update of [events] may store. *)
Definition from_event (events : list SourceEvent) (r : PreparedRecord) : Prop :=
  exists ev body v, SRecord ev ∈ events /\ action ev <> Delete /\ StreamEvent.body ev = Some body
    /\ verify_record_cid sha256 (default "" (StreamEvent.cid ev)) body <> Mismatch
    /\ hooked_as ev body v /\ r = prepare ev v.

Lemma hook_body_store st ev body v :
  (hook_body st ev body).2 = Store v ->
  verify_record_cid sha256 (default "" (StreamEvent.cid ev)) body <> Mismatch /\ hooked_as ev body v.
Proof.
  unfold hook_body, hook_body_with, decide_record, hooked_as.
  destruct (verify_record_cid _ _ _); [|done|].
  all: destruct (run_record_event_script _) as [|w|]; cbn; intros [= ->]; (split; [done|]); by auto.
Qed.

(** Rows of [d] are rows of [d0] or hold what an event stores. *)
Definition rows_from (events : list SourceEvent) (d0 d : Tombstones.Database) : Prop :=
  forall k row, records d !! k = Some row ->
    records d0 !! k = Some row
    \/ exists r, from_event events r /\ record_key r = k
                 /\ row_record row = p_record_json r /\ row_cid row = encode_cid (p_cid r).

Lemma rows_from_sub events d0 d d' :
  rows_from events d0 d -> (forall k row, records d' !! k = Some row -> records d !! k = Some row) ->
  rows_from events d0 d'.
Proof. intros H Hsub k row Hk. by apply H, Hsub. Qed.

Lemma rows_from_write events d0 now d rs d' ch :
  sound backend d -> rows_from events d0 d -> Forall (from_event events) rs ->
  write_network backend now d rs = Some (d', ch) -> rows_from events d0 d'.
Proof.
  intros Hs Hrows Hall Hw. destruct (write_network_spec backend now d rs Hs) as (d1 & ch1 & Ew & _ & _ & Er).
  rewrite Hw in Ew. injection Ew as <- _. intros k row. rewrite Er.
  destruct (base.decide (k ∈ record_key <$> batch Network d rs)) as [Hin|Hin]; cycle 1.
  { rewrite upsert_rows_other by done. apply Hrows. }
  apply list_elem_of_fmap in Hin as (r & -> & Hin).
  pose proof (upsert_rows_at backend Network now (batch Network d rs) d r (batch_NoDup _ _ _) Hin) as Hat.
  apply batch_elem in Hin as [Hin%last_copies_sub _]. rewrite Forall_forall in Hall. specialize (Hall r Hin).
  destruct (records d !! record_key r) as [held|] eqn:Eh.
  - rewrite Hat. intros [= <-]. cbn. destruct (network_updates held r); [|by apply Hrows].
    right. by exists r.
  - destruct Hat as [id ->]. intros [= <-]. right. by exists r.
Qed.

Lemma delete_found_sub d u now id r k row :
  records (delete_found d u now id r) !! k = Some row -> records d !! k = Some row.
Proof.
  unfold delete_found. destruct r; rewrite ?write_record_tombstone_records, delete_ids_lookup;
    destruct (records d !! k); try done; case_match; naive_solver.
Qed.

Lemma delete_network_sub d k rev now bf k' row :
  ids_unique d -> clean k ->
  records (delete_network d (uri k) (did k) (StreamEvent.collection k) rev now bf) !! k' = Some row ->
  records d !! k' = Some row.
Proof.
  intros Hids Hc. rewrite delete_network_cases by done.
  destruct (records d !! k) as [held|].
  - destruct (match rev with Some _ => _ | None => _ end); [apply delete_found_sub|done].
  - destruct rev; [|done]. destruct (create_may_follow _ _ _ _); [|done].
    by rewrite write_record_tombstone_records.
Qed.

Lemma events_keep_rows_from events d0 st :
  Forall (fun e => match e with SRecord ev => clean (key ev) | _ => True end) events ->
  sound backend (db st) -> rows_from events d0 (db st) ->
  sound backend (db (apply_events st events).1) /\ rows_from events d0 (db (apply_events st events).1).
Proof.
  intros Hc Hs Hr.
  apply (holds_apply_events (fun d => sound backend d /\ rows_from events d0 d) (from_event events)).
  - intros now d rs d' ch [Hs1 Hr1] Hall Hw. split; [|by eapply rows_from_write].
    destruct (write_network_spec backend now d rs Hs1) as (d1 & ch1 & Ew & ? & _). by simplify_eq.
  - intros d k rev now bf [Hs1 Hr1] Hk. split; [by apply delete_network_sound|].
    eapply rows_from_sub; [done|]. intros k' row. by apply delete_network_sub; [apply Hs1|].
  - intros d k v now [Hs1 Hr1] Hk. rewrite delete_if_body_cases by done.
    destruct (records d !! k) as [held|] eqn:Ek; [|done]. destruct (is_some_and _ _); [|done]. cbn [fst].
    split; [by apply delete_found_sound|]. eapply rows_from_sub; [done|]. intros. by eapply delete_found_sub.
  - intros d ids [Hs1 Hr1]. split; [by apply delete_ids_sound|]. eapply rows_from_sub; [done|].
    intros k row. rewrite delete_ids_lookup. destruct (records d !! k); [|done]. case_match; naive_solver.
  - intros d m [Hs1 Hr1]. split; [by apply set_did_tombstones_sound|done].
  - apply Forall_forall. intros e He. rewrite Forall_forall in Hc. specialize (Hc e He).
    destruct e as [ev| | |]; try done. split; [done|]. intros s body v Hact Hbody Hst.
    destruct (hook_body_store _ _ _ _ Hst). by exists ev, body, v.
  - by split.
Qed.

(** ** Failed record events *)

Lemma write_repeatable r : repeatable (fun d => write_network backend now_micros d [r]) (write_settled r).
Proof. split; [intros d; apply write_settles|]. intros d d' a. by apply settled_write. Qed.

Lemma delete_repeatable k rev bf : clean k ->
  repeatable (fun d => Some (delete_network d (uri k) (did k) (StreamEvent.collection k) rev now_rfc3339 bf, tt)) (delete_settled k rev bf).
Proof.
  intros Hk. split.
  - intros d Hs. do 2 eexists. split; [done|]. split; [by apply delete_network_sound|by apply (delete_settles backend)].
  - intros d d' [] Hs Hset [= <-]. by rewrite (settled_delete backend).
Qed.

Lemma delete_body_repeatable k v : clean k ->
  repeatable (fun d => Some (delete_network_if_body d (uri k) (did k) (StreamEvent.collection k) v now_rfc3339)) (body_settled k v).
Proof.
  intros Hk. split.
  - intros d Hs. destruct (delete_body_settles backend d k v now_rfc3339 Hs Hk) as [H1 H2]. do 2 eexists. split; [by rewrite <- surjective_pairing|]. done.
  - intros d d' a Hs Hset [= E]. pose proof (settled_delete_body d k v now_rfc3339 Hk Hset) as H. rewrite E in H. cbn in H. by rewrite H.
Qed.

Lemma failed_write_outcome_cases e : failed_write_outcome e <> Matched /\ failed_write_outcome e <> StreamEvent.Skipped.
Proof. unfold failed_write_outcome. by destruct (is_unavailable e), (is_invalid_data e). Qed.

(** An event settled by this transaction: the state it runs in, whether it
    succeeded when the event is answered as handled. *)
Definition runs_only {A} (body : Tombstones.Database -> option (Tombstones.Database * A)) (st : State) (res : State * IngestOutcome) : Prop :=
  exists st1, db st1 = db st /\ faults st1 = faults st
    /\ db res.1 = db (retry_on_busy (transaction body) st1).1
    /\ (res.2 = Matched \/ res.2 = StreamEvent.Skipped -> is_ok (retry_on_busy (transaction body) st1).2 = true).

Lemma runs_answer {A} (body : Tombstones.Database -> option (Tombstones.Database * A)) st st1 (g : State -> A -> State) o t u :
  db st1 = db st -> faults st1 = faults st -> (forall s x, db (g s x) = db s) ->
  runs_only body st (let '(s, r) := retry_on_busy (transaction body) st1 in
                     match r with Ok x => (g s x, o) | Err e => (log s t u, failed_write_outcome e) end).
Proof.
  intros Hd Hf Hg. exists st1. split; [done|]. split; [done|]. destruct (retry_on_busy (transaction body) st1) as [s [x|e]]; cbn; [by rewrite Hg|].
  split; [done|]. destruct (failed_write_outcome_cases e). tauto.
Qed.

Lemma log_verbose_db st t u : db (log_verbose st t u) = db st.
Proof. unfold log_verbose. by destruct verbose_event_logging. Qed.
Lemma fetch_labels_db st l : db (fetch_labels st l) = db st.
Proof. unfold fetch_labels. by destruct (negb _). Qed.

(** Whether an event writes, and what, does not depend on the database. *)
Lemma hook_body_same ev rec hook :
  exists h, forall st, exists st1, hook_body_with st ev rec hook = (st1, h) /\ db st1 = db st /\ faults st1 = faults st.
Proof.
  unfold hook_body_with, decide_record, log_skipped, log_verbose.
  destruct (verify_record_cid _ _ _), hook as [|[]]; cbn; try destruct (run_record_event_script _); cbn; eexists; intros st;
    try destruct verbose_event_logging; by eexists.
Qed.

Lemma apply_local_runs ev hook :
  clean (key ev) ->
  (forall st, db (apply_local st ev hook).1 = db st)
  \/ exists A (body : Tombstones.Database -> option (Tombstones.Database * A)) settled,
       repeatable body settled /\ forall st, runs_only body st (apply_local st ev hook).
Proof.
  intros Hk. unfold apply_local, remove_failed_open, write_prepared, log_skipped. destruct (action ev).
  1,2: destruct (StreamEvent.body ev) as [rec|]; [|by left]; destruct (hook_body_same ev rec hook) as [h Hh];
    destruct h as [v| |];
    [|destruct (origin ev); [..|right; eexists _, _, _; split; [by apply (delete_body_repeatable (key ev) rec)|]]|];
    [right; eexists _, _, _; split; [apply (write_repeatable (prepare ev v))|]|..];
    intros st || (left; intros st); destruct (Hh st) as (st1 & -> & Hd & Hf); try done;
    apply runs_answer; try done; intros s x; destruct x; by rewrite ?fetch_labels_db, ?log_verbose_db.
  destruct (delete_hook ev hook); [..|left; intros st; apply log_verbose_db];
    (right; eexists _, _, _; split; [by apply (delete_repeatable (key ev))|]; intros st;
     apply (runs_answer _ st st (fun s (_ : unit) => log_verbose s _ _)); [done|done|]; intros; apply log_verbose_db).
Qed.

(** ** Account events without database errors *)

Lemma set_db_same st : set_db st (db st) = st.
Proof. by destruct st. Qed.

Lemma set_db_twice st d d' : set_db (set_db st d) d' = set_db st d'.
Proof. done. Qed.

Lemma read_fault_free {A} (f : Tombstones.Database -> A) st : faults st = [] -> read f st = (st, Ok (f (db st))).
Proof. intros Hf. unfold read. erewrite transaction_fault_free by done. by rewrite set_db_same. Qed.

Lemma purge_step_fault_free d cs before st n b :
  faults st = [] ->
  purge_step d cs before (set_db st b, n)
  = match purge_round d cs before (b, n) with
    | inl (b', n') => inl (set_db st b', n')
    | inr (b', n') => inr (set_db st b', Ok n')
    end.
Proof.
  intros Hf. unfold purge_step, purge_round.
  destruct before as [before|]; unfold purge_network_batch, purge_network_batch_before;
    erewrite retried_fault_free by done; cbn; by destruct (_ <=? _)%nat.
Qed.

Lemma purge_loop_fault_free d cs before st fuel :
  faults st = [] ->
  iter_until (purge_step d cs before) fuel (st, 0%nat)
  = match iter_until (purge_round d cs before) fuel (db st, 0%nat) with
    | inl s => inl (set_db st s.1, s.2)
    | inr r => inr (set_db st r.1, Ok r.2)
    end.
Proof.
  intros Hf.
  rewrite <- (iter_until_map (purge_round d cs before) (purge_step d cs before)
                (fun s => (set_db st s.1, s.2)) (fun r => (set_db st r.1, Ok r.2))).
  - cbn [fst snd]. by rewrite set_db_same.
  - intros [b n]. cbn [fst snd]. rewrite purge_step_fault_free by done.
    by destruct (purge_round d cs before (b, n)) as [[? ?]|[? ?]].
Qed.

Lemma purge_in_fault_free {RS : RuntimeSpec R} st d cs before :
  faults st = [] -> sound backend (db st) ->
  exists b n, purge (db st) d cs before = inr (b, n) /\ purge_in st d cs before = (set_db st b, Ok n).
Proof.
  intros Hf Hs. destruct (purge_spec backend (db st) d cs before Hs) as (b & Ep & _).
  exists b. eexists. split; [exact Ep|]. revert Ep. unfold purge, purge_in.
  destruct cs as [[|c cs]|]; [intros [= <- <-]; by rewrite set_db_same| |];
    rewrite read_fault_free by done; unfold purge_local;
    (destruct (match before with Some _ => _ | None => _ end);
     [|intros [= <- <-]; by rewrite set_db_same]); cbn [negb];
    rewrite purge_loop_fault_free by done;
    intros ->; done.
Qed.

(** What a purge of the account [d] leaves: a tombstone at [rev] or newer, and
    none of the rows the purge covers. *)
Definition account_gone (d rev : string) (before : option string) (cs : option (list string))
    (b b' : Tombstones.Database) : Prop :=
  (exists t, did_tombstones b' !! d = Some t /\ rev_le rev (did_tomb_rev t) = true
             /\ (forall t0, did_tombstones b !! d = Some t0 -> rev_le (did_tomb_rev t0) (did_tomb_rev t) = true))
  /\ (forall d', d' <> d -> did_tombstones b' !! d' = did_tombstones b !! d')
  /\ record_tombstones b' = record_tombstones b
  /\ purged_exactly d cs before b b'.

Lemma write_did_tombstone_spec b d r q n :
  let b' := write_did_tombstone b d r q n in
  records b' = records b /\ record_tombstones b' = record_tombstones b
  /\ (forall d', d' <> d -> did_tombstones b' !! d' = did_tombstones b !! d')
  /\ exists t, did_tombstones b' !! d = Some t /\ rev_le r (did_tomb_rev t) = true
       /\ (forall t0, did_tombstones b !! d = Some t0 -> rev_le (did_tomb_rev t0) (did_tomb_rev t) = true).
Proof.
  unfold write_did_tombstone. destruct (did_tombstones b !! d) as [t0|] eqn:Et.
  - destruct (rev_lt (did_tomb_rev t0) r) eqn:El; cbn.
    + split_and!; [done|done|intros; by rewrite lookup_insert_ne|]. eexists. rewrite lookup_insert_eq.
      split_and!; [done|apply rev_le_refl|]. intros ? [= <-]. by apply rev_lt_le.
    + split_and!; [done..|]. exists t0. apply rev_lt_false in El. split_and!; [done|done|].
      intros ? [= <-]. apply rev_le_refl.
  - cbn. split_and!; [done|done|intros; by rewrite lookup_insert_ne|]. eexists. rewrite lookup_insert_eq.
    split_and!; [done|apply rev_le_refl|done].
Qed.

(** ** The pipeline as a function on the database

    What one event does to the stored records when the database answers: the
    specification the pipeline and its batches are compared with. *)

(** The body a create or update stores. *)
Definition stored_body (ev : RecordEvent) : option value :=
  body ← StreamEvent.body ev;
  match verify_record_cid sha256 (default "" (StreamEvent.cid ev)) body with
  | Mismatch => None
  | _ =>
      match run_record_event_script (payload_of ev (Action_as_str (action ev)) (Some body)) with
      | HookProceed => Some body
      | HookReplace v => Some v
      | HookSkip => None
      end
  end.

Definition purged (b : Tombstones.Database) (d : string) (cs : option (list string)) (before : option string)
    : Tombstones.Database :=
  match purge b d cs before with inl (b', _) | inr (b', _) => b' end.

(** Whether an inactive account is purged: deleted, unless this instance holds
    records of it and its PDS says it is active; taken down or suspended. *)
Definition purges (b : Tombstones.Database) (d : string) (status : option string) : bool :=
  match status with
  | Some s =>
      if s =s "deleted" then
        negb (holds_local_network_records b d None && bool_decide (is_Some (active_at_pds d)))
      else (s =s "takendown") || (s =s "suspended")
  | None => false
  end.

Definition effect (lex : Lexicons) (cols : list string) (b : Tombstones.Database) (e : SourceEvent)
    : Tombstones.Database :=
  match e with
  | SRecord ev =>
      let c := StreamEvent.collection (key ev) in
      if (c =s LEXICON_SCHEMA_COLLECTION) || negb (is_indexed lex c) then b
      else
        match action ev with
        | Delete =>
            match delete_hook ev HRun with
            | HookSkip => b
            | _ => delete_network b (uri (key ev)) (did (key ev)) c (StreamEvent.rev ev) now_rfc3339 (backfill_running c)
            end
        | _ =>
            match stored_body ev with
            | Some v => exec backend b (ONetwork now_micros [prepare ev v])
            | None => b
            end
        end
  | SAccount d active status as_of_us seq time_us cs =>
      let before := tid <$> as_of_us in
      let witnessed := default now_micros (match time_us with Some t => Some t | None => as_of_us end) in
      if active then lift_did_tombstone b d before
      else if purges b d status then purged (write_did_tombstone b d (tid witnessed) seq now_rfc3339) d cs before
      else b
  | SSync d rev as_of_us _ _ cs =>
      purged b d (Some (filter (fun c => Is_true (negb (c =s LEXICON_SCHEMA_COLLECTION))) (default cols cs)))
        ((fun t => default (tid t) rev) <$> as_of_us)
  | SIdentity _ _ => b
  end.

(** Only the database, the log and the labels to fetch differ. *)
Definition frame (st st' : State) : Prop :=
  faults st' = faults st /\ lexicons st' = lexicons st /\ collections st' = collections st.

Definition reaches (st st' : State) (b : Tombstones.Database) : Prop := frame st st' /\ db st' = b.

Lemma reaches_log st st' b t u : reaches st st' b -> reaches st (log st' t u) b.
Proof. done. Qed.
Lemma reaches_log_verbose st st' b t u : reaches st st' b -> reaches st (log_verbose st' t u) b.
Proof. unfold log_verbose. by destruct verbose_event_logging. Qed.
Lemma reaches_fetch st st' b l : reaches st st' b -> reaches st (fetch_labels st' l) b.
Proof. unfold fetch_labels. by destruct (negb _). Qed.
Lemma reaches_set st b : reaches st (set_db st b) b.
Proof. done. Qed.
Lemma reaches_refl st : reaches st st (db st).
Proof. done. Qed.
Lemma reaches_trans st st1 st2 b1 b2 : reaches st st1 b1 -> reaches st1 st2 b2 -> reaches st st2 b2.
Proof. intros [(H1 & H2 & H3) _] [(H4 & H5 & H6) H7]. repeat split; congruence. Qed.
#[local] Hint Resolve reaches_log reaches_log_verbose reaches_fetch reaches_set reaches_refl : core.

(** Events outside the catalog and the dead letters, with clean keys. *)
Definition plain (e : SourceEvent) : Prop :=
  match e with
  | SRecord ev => clean (key ev) /\ StreamEvent.collection (key ev) <> LEXICON_SCHEMA_COLLECTION /\ origin ev <> Retry
  | _ => True
  end.

Lemma hook_body_stored st ev body :
  StreamEvent.body ev = Some body ->
  (hook_body_with st ev body HRun).2
  = match stored_body ev with
    | Some v => Store v
    | None => (hook_body_with st ev body HRun).2
    end
  /\ (stored_body ev = None -> forall v, (hook_body_with st ev body HRun).2 <> Store v)
  /\ reaches st (hook_body_with st ev body HRun).1 (db st).
Proof.
  intros Hb. unfold stored_body. rewrite Hb. cbn [mbind option_bind].
  unfold hook_body_with, decide_record, log_skipped.
  destruct (verify_record_cid _ _ _); [|cbn; split_and!; auto; done|];
    destruct (run_record_event_script _); cbn; split_and!; auto; done.
Qed.

Lemma write_prepared_ok st rs :
  faults st = [] -> sound backend (db st) ->
  exists ch, write_prepared rs st = (set_db st (exec backend (db st) (ONetwork now_micros rs)), Ok ch).
Proof.
  intros Hf Hs. destruct (write_network_spec backend now_micros (db st) rs Hs) as (d' & ch & Ew & _).
  exists ch. unfold write_prepared. erewrite retried_fault_free by done. cbn [exec]. by rewrite Ew.
Qed.

Lemma apply_local_effect st ev :
  faults st = [] -> sound backend (db st) -> plain (SRecord ev) ->
  is_indexed (lexicons st) (StreamEvent.collection (key ev)) = true ->
  reaches st (apply_local st ev HRun).1 (effect (lexicons st) (collections st) (db st) (SRecord ev)).
Proof.
  intros Hf Hs (Hc & Hschema & Horig) Hidx. unfold apply_local, effect.
  rewrite (proj2 (String.eqb_neq _ _) Hschema), Hidx. cbn [orb negb].
  assert (Hput : action ev <> Delete ->
    reaches st (match StreamEvent.body ev with
      | None => (st, Invalid)
      | Some rec =>
          let '(st, hooked) := hook_body_with st ev rec HRun in
          match hooked, origin ev with
          | SkipBody, Retry => remove_failed_open st ev rec (uri (key ev))
          | SkipBody, _ | CidMismatch, _ => (st, StreamEvent.Skipped)
          | Store v, _ =>
              let '(st, written) := write_prepared [prepare ev v] st in
              match written with
              | Ok changed =>
                  (match changed with
                   | [] => st
                   | _ => fetch_labels (log_verbose st "record.created" (uri (key ev))) [uri (key ev)]
                   end, Matched)
              | Err e => (log st "record.created" (uri (key ev)), failed_write_outcome e)
              end
          end
      end).1
      (match stored_body ev with
       | Some v => exec backend (db st) (ONetwork now_micros [prepare ev v])
       | None => db st
       end)).
  { intros Ha. destruct (StreamEvent.body ev) as [rec|] eqn:Eb; [|unfold stored_body; by rewrite Eb].
    destruct (hook_body_stored st ev rec Eb) as (Hv & Hn & Hr).
    destruct (hook_body_with st ev rec HRun) as [st1 hooked]. cbn [fst snd] in *.
    destruct Hr as [(F1 & F2 & F3) Hd]. destruct (stored_body ev) as [v|].
    - subst hooked. rewrite <- Hd in Hs.
      destruct (write_prepared_ok st1 [prepare ev v]) as [ch ->]; [congruence|done|].
      rewrite <- Hd. assert (Hr : reaches st (set_db st1 (exec backend (db st1) (ONetwork now_micros [prepare ev v])))
                           (exec backend (db st1) (ONetwork now_micros [prepare ev v]))) by done.
      destruct ch; cbn [fst]; auto.
    - destruct hooked as [v| |]; [by destruct (Hn eq_refl v)| |]; destruct (origin ev); done. }
  destruct (action ev) eqn:Ea; [by apply Hput|by apply Hput|].
  destruct (delete_hook ev HRun); [| |unfold log_skipped; cbn [fst]; auto];
    erewrite retried_fault_free by done; cbn [fst]; auto.
Qed.

Lemma lift_look b d before :
  (did_tombstone_rev b d = None -> lift_did_tombstone b d before = b)
  /\ (forall stored, did_tombstone_rev b d = Some stored ->
        is_some_and before (fun before => rev_le before stored) = true -> lift_did_tombstone b d before = b).
Proof.
  unfold did_tombstone_rev, lift_did_tombstone. destruct (did_tombstones b !! d) as [t|]; cbn; split; try done.
  intros stored [= <-]. destruct before as [r|]; [|done]. cbn. intros Hle.
  by rewrite (proj2 (rev_lt_false _ _) Hle).
Qed.

Lemma purge_in_reaches {RS : RuntimeSpec R} st d cs before :
  faults st = [] -> sound backend (db st) ->
  exists n, purge_in st d cs before = (set_db st (purged (db st) d cs before), Ok n).
Proof.
  intros Hf Hs. destruct (purge_in_fault_free st d cs before Hf Hs) as (b & n & Ep & ->).
  exists n. unfold purged. by rewrite Ep.
Qed.

Lemma account_purged_effect {RS : RuntimeSpec R} st d seq w t status before cs :
  faults st = [] -> sound backend (db st) ->
  reaches st (account_purged st d seq w t status before cs).1
    (if bool_decide (status = None) && holds_local_network_records (db st) d None && bool_decide (is_Some (active_at_pds d))
     then db st else purged (write_did_tombstone (db st) d (tid w) seq now_rfc3339) d cs before)
  /\ (account_purged st d seq w t status before cs).2 = applied_ok Matched.
Proof.
  intros Hf Hs. unfold account_purged, holds_records.
  set (b1 := write_did_tombstone (db st) d (tid w) seq now_rfc3339).
  assert (Hrun : reaches st (tombstone_and_purge st d seq w t before cs).1 (purged b1 d cs before)
                 /\ (tombstone_and_purge st d seq w t before cs).2 = applied_ok Matched).
  { unfold tombstone_and_purge. erewrite retried_fault_free by done. fold b1.
    destruct (write_did_tombstone_did (db st) d (tid w) seq now_rfc3339) as [m Em].
    destruct (purge_in_reaches (set_db st b1) d cs before) as [n Ep];
      [done|subst b1; cbn [db set_db]; rewrite Em; by apply set_did_tombstones_sound|].
    rewrite Ep. by destruct (n =? 0)%nat. }
  case_bool_decide as Hst; cbn [andb]; [|exact Hrun].
  rewrite read_fault_free by done. destruct (holds_local_network_records (db st) d None); cbn [andb]; [|exact Hrun].
  destruct (active_at_pds d); [rewrite bool_decide_true by done; done|].
  rewrite bool_decide_false by (intros [? [=]]). exact Hrun.
Qed.

Lemma purged_gone {RS : RuntimeSpec R} b d rev seq now cs before :
  sound backend b -> account_gone d rev before cs b (purged (write_did_tombstone b d rev seq now) d cs before).
Proof.
  intros Hs. destruct (write_did_tombstone_spec b d rev seq now) as (Er & Et & Eo & Ed).
  destruct (write_did_tombstone_did b d rev seq now) as [m Em].
  set (b1 := write_did_tombstone b d rev seq now) in *.
  assert (Hs1 : sound backend b1) by (rewrite Em; by apply set_did_tombstones_sound).
  destruct (purge_spec backend b1 d cs before Hs1) as (b2 & Ep & Hrec & [Hrt Hdt] & _).
  unfold purged. rewrite Ep. split_and!; [by rewrite Hdt|intros; rewrite Hdt; by apply Eo|by rewrite Hrt|].
  pose proof (unheld_exactly _ _ _ _ _ Hrec) as Hx. unfold purged_exactly in *. by rewrite Er in Hx.
Qed.

(** ** Every event has its effect *)

Lemma apply_in_effect {RS : RuntimeSpec R} st e :
  faults st = [] -> sound backend (db st) -> plain e ->
  reaches st (apply_in st e).1 (effect (lexicons st) (collections st) (db st) e).
Proof.
  intros Hf Hs Hp. destruct e as [ev|d act status a q t cs|d h|d r a q t cs]; cbn [apply_in].
  - unfold apply_record_changed, is_tracked. pose proof Hp as (_ & Hschema & _).
    rewrite (proj2 (String.eqb_neq _ _) Hschema).
    destruct (is_indexed (lexicons st) (StreamEvent.collection (key ev))) eqn:Ei; cbn [negb].
    + pose proof (apply_local_effect st ev Hf Hs Hp Ei). by destruct (apply_local st ev HRun).
    + unfold effect. rewrite Ei, orb_true_r. done.
  - unfold account_event. cbn [effect]. destruct act.
    + unfold account_active. rewrite read_fault_free by done.
      destruct (lift_look (db st) d (tid <$> a)) as [Hn Hs0].
      destruct (did_tombstone_rev (db st) d) as [stored|]; [|rewrite Hn by done; done].
      destruct (is_some_and _ _) eqn:Eb; [by rewrite (Hs0 stored)|].
      erewrite retried_fault_free by done. done.
    + assert (Hquiet : reaches st (if bool_decide (is_Some a) then (st, applied_ok Matched) else account_inactive st d).1 (db st)).
      { case_bool_decide; [done|]. unfold account_inactive, holds_records. rewrite read_fault_free by done.
        by destruct (holds_local_network_records _ _ _). }
      unfold purges. destruct status as [s|]; [|exact Hquiet].
      destruct (s =s "deleted").
      * match goal with |- context [account_purged st d q ?w ?ty None ?b cs] =>
          destruct (account_purged_effect st d q w ty None b cs Hf Hs) as [Hr _] end.
        rewrite bool_decide_true in Hr by done. cbn [andb] in Hr.
        by destruct (holds_local_network_records (db st) d None && _).
      * destruct ((s =s "takendown") || (s =s "suspended")); [|exact Hquiet].
        match goal with |- context [account_purged st d q ?w ?ty ?ss ?b cs] =>
          by destruct (account_purged_effect st d q w ty ss b cs Hf Hs) as [Hr _] end.
  - done.
  - unfold repo_resynced. cbn [effect].
    match goal with |- context [purge_in st d ?c ?b] => destruct (purge_in_reaches st d c b Hf Hs) as [n ->] end.
    by destruct (n =? 0)%nat.
Qed.

Lemma apply_in_sound {RS : RuntimeSpec R} st e :
  sound backend (db st) -> plain e -> sound backend (db (apply_in st e).1).
Proof.
  intros Hs Hp. apply (holds_apply_in (sound backend) (fun _ => True)); try done.
  - intros now d rs d' ch Hd _ Hw. destruct (write_network_spec backend now d rs Hd) as (? & ? & Ew & ? & _).
    by simplify_eq.
  - intros. by apply delete_network_sound.
  - intros d k v now Hd Hk. rewrite delete_if_body_cases by done. destruct (records d !! k) eqn:Ek; [|done].
    destruct (is_some_and _ _); [by apply delete_found_sound|done].
  - intros. by apply delete_ids_sound.
  - intros. by apply set_did_tombstones_sound.
  - destruct e; try done. by destruct Hp.
Qed.

(** ** A batch is its events, one by one *)

(** The record URIs of a batch's creates and updates. *)
Definition put_uri (e : SourceEvent) : option string :=
  match e with
  | SRecord ev => match action ev with Delete => None | _ => Some (uri (key ev)) end
  | _ => None
  end.

Definition cache_right (st : State) (tracked : gmap string bool) : Prop :=
  forall c b, tracked !! c = Some b -> b = is_indexed (lexicons st) c.

Definition run_records (run : list RunEntry) : list PreparedRecord := entry_record <$> run.

Lemma write_run_effect st run out :
  faults st = [] -> sound backend (db st) ->
  reaches st (write_run st run out).1 (exec backend (db st) (ONetwork now_micros (run_records run)))
  /\ (write_run st run out).2.2 = None.
Proof.
  intros Hf Hs. unfold write_run, run_records. destruct run as [|e run]; [done|].
  destruct (write_prepared_ok st (entry_record <$> e :: run) Hf Hs) as [ch ->].
  destruct (mark_changed _ _ _) as [flags fresh]. cbn [fst snd]. split; [|done].
  set (b := exec backend (db st) _).
  assert (Hfold : forall l st1, reaches st st1 b -> reaches st (foldl (fun st u => log_verbose st "record.created" u) st1 l) b).
  { induction l as [|u l IH]; intros st1 H1; [done|]. cbn. apply IH. auto. }
  specialize (Hfold (reverse fresh) (set_db st b) (reaches_set st b)).
  destruct (reverse fresh); auto.
Qed.

Lemma joins_run_effect lex cols b ev body :
  StreamEvent.body ev = Some body -> action ev <> Delete ->
  StreamEvent.collection (key ev) <> LEXICON_SCHEMA_COLLECTION ->
  is_indexed lex (StreamEvent.collection (key ev)) = true ->
  effect lex cols b (SRecord ev)
  = match stored_body ev with Some v => exec backend b (ONetwork now_micros [prepare ev v]) | None => b end.
Proof.
  intros Hb Ha Hs Hi. cbn [effect]. rewrite (proj2 (String.eqb_neq _ _) Hs), Hi. cbn [orb negb].
  by destruct (action ev).
Qed.

Lemma joins_run_none tr event : joins_run (fun _ => true) event = None -> joins_run tr event = None.
Proof.
  unfold joins_run. destruct event as [ev| | |]; [|done..].
  destruct (action ev), (StreamEvent.body ev); try done; by destruct (_ =s _).
Qed.

Definition remember (st : State) (tracked : gmap string bool) (c : string) : gmap string bool :=
  match tracked !! c with Some _ => tracked | None => <[c := is_tracked st c]> tracked end.

Lemma remember_right st tracked c :
  cache_right st tracked -> cache_right st (remember st tracked c)
  /\ default false (remember st tracked c !! c) = is_indexed (lexicons st) c.
Proof.
  intros Hc. unfold remember. destruct (tracked !! c) as [b|] eqn:Et.
  - split; [done|]. rewrite Et. cbn. by apply Hc.
  - split; [|by rewrite lookup_insert_eq].
    intros c' b. rewrite lookup_insert_Some. intros [[<- <-]|[_ H]]; [done|by apply Hc].
Qed.

Lemma prepare_uri ev v : prepared_uri (prepare ev v) = uri (key ev).
Proof. done. Qed.

(** The loop over [events] does what the events do after the run it holds. *)
Definition loop_follows (total : nat) (lex : Lexicons) (cols : list string) (events : list SourceEvent) : Prop :=
  forall st tracked run out,
  faults st = [] -> lexicons st = lex -> collections st = cols ->
  sound backend (db st) -> Forall plain events -> cache_right st tracked ->
  NoDup ((prepared_uri <$> run_records run) ++ omap put_uri events) ->
  db (apply_loop total events st tracked run out).1
  = foldl (effect lex cols) (exec backend (db st) (ONetwork now_micros (run_records run))) events
  /\ (apply_loop total events st tracked run out).2.2 = None.

(** An event that joins no run: the run is written, then the event applied. *)
Lemma follows_other {RS : RuntimeSpec R} total lex cols event events st tracked run out :
  loop_follows total lex cols events ->
  faults st = [] -> lexicons st = lex -> collections st = cols -> sound backend (db st) ->
  plain event -> Forall plain events -> cache_right st tracked -> NoDup (omap put_uri events) ->
  let res := (let '(st, (out, failed)) := write_run st run out in
              match failed with
              | Some f => (st, (fill_failed out total f.1, Some f.2))
              | None =>
                  let '(st, a) := apply_in st event in
                  apply_loop total events st tracked [] (push out (outcome a) (applied_changed a))
              end) in
  db res.1 = foldl (effect lex cols)
               (effect lex cols (exec backend (db st) (ONetwork now_micros (run_records run))) event) events
  /\ res.2.2 = None.
Proof.
  intros IH Hf Hl Hcl Hs Hpe Hp Hc Hnd.
  assert (Hsr : sound backend (exec backend (db st) (ONetwork now_micros (run_records run)))) by (by apply exec_sound).
  destruct (write_run_effect st run out Hf Hs) as [[(F1 & F2 & F3) Hd] Hn].
  destruct (write_run st run out) as [st1 [out1 f]]. cbn [fst snd] in *. subst f.
  assert (Hf1 : faults st1 = []) by congruence. rewrite <- Hd in Hsr.
  destruct (apply_in_effect st1 event Hf1 Hsr Hpe) as [(G1 & G2 & G3) Hd2].
  pose proof (apply_in_sound st1 event Hsr Hpe) as Hs2.
  destruct (apply_in st1 event) as [st2 a]. cbn [fst] in *.
  destruct (IH st2 tracked [] (push out1 (outcome a) (applied_changed a))) as [E1 E2];
    [congruence|congruence|congruence|done|done| |done|].
  { intros c b H. rewrite G2, F2. by apply Hc. }
  split; [|done]. rewrite E1. cbn [run_records fmap list_fmap]. rewrite exec_network_nil, Hd2.
  by rewrite F2, F3, Hd, Hl, Hcl.
Qed.

(** Writing the run where the origin changes leaves the same writes to come. *)
Lemma flush_follows {RS : RuntimeSpec R} st run out (oo : bool) :
  faults st = [] -> sound backend (db st) ->
  exists st2 out2, (if oo then write_run st run out else (st, (out, None))) = (st2, (out2, None))
    /\ frame st st2
    /\ exec backend (db st2) (ONetwork now_micros (run_records (if oo then [] else run)))
       = exec backend (db st) (ONetwork now_micros (run_records run))
    /\ sound backend (db st2).
Proof.
  intros Hf Hs. destruct oo; [|by exists st, out].
  destruct (write_run_effect st run out Hf Hs) as [[Hfr Hd2] Hn].
  assert (sound backend (exec backend (db st) (ONetwork now_micros (run_records run)))) by (by apply exec_sound).
  destruct (write_run st run out) as [st2 [out2 f]]. cbn [fst snd] in *. subst f. exists st2, out2.
  split_and!; [done|done|by rewrite <- Hd2|by rewrite Hd2].
Qed.

(** A stored create or update joins the run. *)
Lemma follows_store {RS : RuntimeSpec R} total lex cols events st tracked run out ev v (oo : bool) :
  loop_follows total lex cols events ->
  faults st = [] -> lexicons st = lex -> collections st = cols -> sound backend (db st) ->
  Forall plain events -> cache_right st tracked ->
  NoDup ((prepared_uri <$> run_records run) ++ uri (key ev) :: omap put_uri events) ->
  let res := (let '(st, (out, failed)) := if oo then write_run st run out else (st, (out, None)) in
              match failed with
              | Some f => (st, (fill_failed out total f.1, Some f.2))
              | None =>
                  let run := if oo then [] else run in
                  let entry := {| slot := length (outcomes out); entry_event := ev; entry_record := prepare ev v |} in
                  apply_loop total events st tracked (run ++ [entry]) (push out Matched false)
              end) in
  db res.1 = foldl (effect lex cols)
               (exec backend (exec backend (db st) (ONetwork now_micros (run_records run)))
                  (ONetwork now_micros [prepare ev v])) events
  /\ res.2.2 = None.
Proof.
  intros IH Hf Hl Hcl Hs Hp Hc Hnd.
  destruct (flush_follows st run out oo Hf Hs) as (st2 & out2 & -> & (G1 & G2 & G3) & Hd2 & Hs2).
  set (run' := if oo then [] else run) in *. cbn zeta.
  set (entry := {| slot := _; entry_event := ev; entry_record := prepare ev v |}).
  assert (Hrr : run_records (run' ++ [entry]) = run_records run' ++ [prepare ev v])
    by (unfold run_records; by rewrite fmap_app).
  assert (Hsub : NoDup ((prepared_uri <$> run_records run') ++ uri (key ev) :: omap put_uri events))
    by (unfold run'; destruct oo; [by apply NoDup_app in Hnd as (_ & _ & Hnd)|done]).
  destruct (IH st2 tracked (run' ++ [entry]) (push out2 Matched false)) as [E1 E2];
    [congruence|congruence|congruence|done|done| | |].
  { intros c b H. rewrite G2. by apply Hc. }
  { rewrite Hrr, fmap_app. cbn [fmap list_fmap]. rewrite prepare_uri, <- app_assoc. exact Hsub. }
  split; [|done]. rewrite E1, Hrr. f_equal. rewrite <- Hd2. apply (exec_network_app backend); [done|].
  rewrite fmap_app. cbn [fmap list_fmap]. rewrite prepare_uri.
  eapply sublist_NoDup; [exact Hsub|]. apply sublist_app; [done|]. apply sublist_skip, sublist_nil_l.
Qed.

Lemma apply_loop_effect {RS : RuntimeSpec R} total lex cols events : loop_follows total lex cols events.
Proof.
  induction events as [|event events IH]; intros st tracked run out Hf Hl Hcl Hs Hp Hc Hnd.
  { cbn [apply_loop foldl]. destruct (write_run_effect st run out Hf Hs) as [[_ Hd] Hn].
    destruct (write_run st run out) as [st1 [out1 f]]. cbn in *. by subst f. }
  apply Forall_cons in Hp as [Hpe Hp]. cbn [foldl apply_loop].
  assert (Hnd2 : NoDup (omap put_uri events)).
  { apply NoDup_app in Hnd as (_ & _ & Hnd). cbn [omap list_omap] in Hnd.
    destruct (put_uri event); [by apply NoDup_cons in Hnd as [_ Hnd]|done]. }
  destruct (joins_run (fun _ => true) event) as [[ev body]|] eqn:Ej; cycle 1.
  { rewrite (joins_run_none _ event Ej). by apply follows_other. }
  pose proof (joins_run_some _ _ _ _ Ej) as (-> & Ha & Hb). pose proof Hpe as (_ & Hschema & _).
  destruct (remember_right st tracked (StreamEvent.collection (key ev)) Hc) as [Hc2 Hdef].
  fold (remember st tracked (StreamEvent.collection (key ev))).
  set (tr := remember st tracked (StreamEvent.collection (key ev))) in *.
  assert (Ej2 : joins_run (fun c => default false (tr !! c)) (SRecord ev)
                = if is_indexed (lexicons st) (StreamEvent.collection (key ev)) then Some (ev, body) else None).
  { unfold joins_run. rewrite Hb, Hdef, (proj2 (String.eqb_neq _ _) Hschema).
    by destruct (action ev), (is_indexed _ _). }
  rewrite Ej2. destruct (is_indexed (lexicons st) (StreamEvent.collection (key ev))) eqn:Ei; [|by apply follows_other].
  rewrite (joins_run_effect lex cols _ ev body Hb Ha Hschema) by congruence.
  destruct (hook_body_stored st ev body Hb) as (Hv & Hno & [(F1 & F2 & F3) Hd1]). unfold hook_body.
  destruct (hook_body_with st ev body HRun) as [st1 hooked]. cbn [fst snd] in *.
  assert (Hs1 : sound backend (db st1)) by (by rewrite Hd1).
  assert (Hc1 : cache_right st1 tr) by (intros c b H; rewrite F2; by apply Hc2).
  assert (Hput : put_uri (SRecord ev) = Some (uri (key ev))) by (cbn; by destruct (action ev)).
  cbn [omap list_omap] in Hnd. rewrite Hput in Hnd. cbn in Hnd.
  rewrite <- Hd1. destruct (stored_body ev) as [v|].
  - subst hooked. apply follows_store; try done; congruence.
  - assert (Hgoal := IH st1 tr run (push out StreamEvent.Skipped false)).
    destruct hooked as [v| |]; [by destruct (Hno eq_refl v)| |];
      (apply Hgoal; [congruence|congruence|congruence|done|done|done|]);
      apply NoDup_app in Hnd as (H1 & H2 & [_ H3]%NoDup_cons); apply NoDup_app; split_and!; try done;
      intros u Hu Hin; apply (H2 u Hu); by right.
Qed.

(** ** Properties of the pipeline *)

(** (C9) A batch that meets no database error, writes no record twice and holds no
    schema event, no dead letter and no malformed key does to the stored records
    what its events do one after the other, each as the pure function [effect]
    says: grouping creates and updates into runs written in one transaction changes
    nothing.  (Of a record written twice in one run the last copy counts, whatever
    the revs, as [last_copies_order] shows.) *)
Theorem batch_refines_effect {RS : RuntimeSpec R} st events :
  faults st = [] -> sound backend (db st) -> Forall plain events -> NoDup (omap put_uri events) ->
  db (apply_events st events).1 = foldl (effect (lexicons st) (collections st)) (db st) events
  /\ db (foldl (fun st e => (apply st e).1) st events) = db (apply_events st events).1
  /\ (apply_events st events).2.2 = None.
Proof.
  intros Hf Hs Hp Hnd.
  destruct (apply_loop_effect (length events) (lexicons st) (collections st) events st ∅ []
              {| outcomes := []; changed := [] |}) as [E1 E2]; try done.
  unfold apply_events. split_and!; [by rewrite E1| |done]. rewrite E1. cbn [run_records fmap list_fmap].
  rewrite exec_network_nil. clear E1 E2 Hnd.
  revert st Hf Hs. induction events as [|e events IH]; intros st Hf Hs; [done|].
  apply Forall_cons in Hp as [Hpe Hp]. cbn [foldl].
  destruct (apply_in_effect st e Hf Hs Hpe) as [(F1 & F2 & F3) Hd].
  pose proof (apply_in_sound st e Hs Hpe) as Hs1.
  assert (Est : (apply st e).1 = (apply_in st e).1) by (unfold apply; by destruct (apply_in st e)).
  rewrite Est, (IH Hp _ (eq_trans F1 Hf) Hs1). by rewrite F2, F3, Hd.
Qed.

(** (C10) Whatever a batch holds and whichever of its transactions fail, every
    row afterwards is a row of before or holds what a create or update of the
    batch stores: a body that hashes to its claimed CID (or carries none),
    as its hook let it through or replaced it; and the store stays sound. *)
Theorem stored_rows_verified st events :
  sound backend (db st) ->
  Forall (fun e => match e with SRecord ev => clean (key ev) | _ => True end) events ->
  sound backend (db (apply_events st events).1)
  /\ forall k row, records (db (apply_events st events).1) !! k = Some row ->
       records (db st) !! k = Some row
       \/ exists ev body v, SRecord ev ∈ events /\ key ev = k /\ action ev <> Delete
            /\ StreamEvent.body ev = Some body
            /\ verify_record_cid sha256 (default "" (StreamEvent.cid ev)) body <> Mismatch
            /\ hooked_as ev body v
            /\ row_record row = to_string v /\ row_cid row = encode_cid (default "" (StreamEvent.cid ev)).
Proof.
  intros Hs Hc. destruct (events_keep_rows_from events (db st) st Hc Hs) as [Hs' Hr]; [by left|].
  split; [done|]. intros k row Hk.
  destruct (Hr k row Hk) as [Hold|(r & (ev & body & v & Hin & Ha & Hb & Hv & Hh & ->) & <- & Hrec & Hcid)]; [by left|].
  right. exists ev, body, v. split_and!; try done.
  unfold record_key, prepare. cbn. by destruct (key ev).
Qed.

Lemma apply_record_local st ev hook :
  StreamEvent.collection (key ev) <> LEXICON_SCHEMA_COLLECTION ->
  apply_record st ev hook
  = if is_tracked st (StreamEvent.collection (key ev)) then apply_local st ev hook else (st, StreamEvent.Skipped).
Proof.
  intros Hs. unfold apply_record, apply_record_changed. rewrite (proj2 (String.eqb_neq _ _) Hs).
  destruct (is_tracked st _); cbn [negb]; [|done]. by destruct (apply_local st ev hook).
Qed.

Lemma retried_lexicons {A} (body : Tombstones.Database -> option (Tombstones.Database * A)) st :
  lexicons (retry_on_busy (transaction body) st).1 = lexicons st.
Proof. by apply (retried_keeps body (fun s => lexicons s = lexicons st)). Qed.

Lemma apply_local_tracked st ev hook c : is_tracked (apply_local st ev hook).1 c = is_tracked st c.
Proof.
  unfold is_tracked. f_equal. unfold apply_local, remove_failed_open, write_prepared, log_skipped, log_verbose, fetch_labels.
  assert (Hh : forall rec, lexicons (hook_body_with st ev rec hook).1 = lexicons st).
  { intros rec. unfold hook_body_with, decide_record, log_skipped, log_verbose. destruct (verify_record_cid _ _ _), hook as [|[]]; repeat case_match; simplify_eq; done. }
  destruct (action ev).
  1,2: destruct (StreamEvent.body ev) as [rec|]; [|done]; specialize (Hh rec); destruct (hook_body_with st ev rec hook) as [st1 h]; cbn in Hh; rewrite <- Hh.
  all: repeat match goal with
       | |- context [retry_on_busy (transaction ?b) ?s] => let Hl := fresh in pose proof (retried_lexicons b s) as Hl; destruct (retry_on_busy (transaction b) s) as [? []]; cbn in Hl
       | |- context [match ?x with _ => _ end] => destruct x
       end; done.
Qed.

(** A batch answers one outcome and one changed flag per event, in every
    case: writes that fail, skipped bodies, changes of origin. *)
Theorem batch_outcome_per_event st events :
  length (outcomes (apply_batch st events).2) = length events
  /\ length (changed (apply_batch st events).2) = length events.
Proof.
  pose proof (apply_loop_slots (length events) events st ∅ [] {| outcomes := []; changed := [] |} 0) as H.
  unfold apply_batch, apply_events. destruct (apply_loop _ _ _ _ _ _) as [st1 [out f]]. cbn in *.
  apply H; [by split|done].
Qed.

(** (C39) A record event is applied once however the database fails.  Whatever
    attempts are rolled back, and whichever were committed without the answer
    arriving, the tables after a record event of an indexed collection are those
    before it or those one undisturbed delivery leaves, and the latter when it is
    answered as handled; delivering the event again then leaves exactly the tables
    of one undisturbed delivery. *)
Theorem redelivery_completes st ev hook :
  sound backend (db st) -> clean (key ev) -> StreamEvent.collection (key ev) <> LEXICON_SCHEMA_COLLECTION ->
  let once := db (apply_record (set_faults st []) ev hook).1 in
  let st' := (apply_record st ev hook).1 in
  (db st' = db st \/ same_tables (db st') once)
  /\ ((apply_record st ev hook).2 = Matched \/ (apply_record st ev hook).2 = StreamEvent.Skipped -> same_tables (db st') once)
  /\ same_tables (db (apply_record (set_faults st' []) ev hook).1) once.
Proof.
  intros Hs Hk Hc. cbv zeta. rewrite !(apply_record_local _ ev hook Hc).
  assert (Ht : forall s, is_tracked (set_faults s []) (StreamEvent.collection (key ev)) = is_tracked s (StreamEvent.collection (key ev))) by done.
  rewrite !Ht. destruct (is_tracked st _) eqn:Etr; cbn [fst snd]; [|rewrite Etr; split_and!; [by left|done..]].
  rewrite apply_local_tracked, Etr. clear Ht Etr.
  destruct (apply_local_runs ev hook Hk) as [Hn|(A & body & settled & Hbody & Hruns)].
  { rewrite !Hn. cbn [db set_faults]. rewrite Hn. split_and!; [by left|done..]. }
  destruct (body_done _ _ Hbody _ Hs) as (d1 & a1 & E & Hs1 & Hset1).
  assert (Honce : forall s, faults s = [] -> in_between settled (db st) d1 (db s) -> been_done settled d1 (db (apply_local s ev hook).1)).
  { intros s Hf Hb. destruct (Hruns s) as (s1 & Hd & Hf1 & -> & _). rewrite <- Hd in Hb. rewrite Hf in Hf1.
    destruct (done_next body settled Hbody (db st) d1 a1 Hs E _ Hb) as (d' & a & E' & Hdone).
    by rewrite (retried_fault_free body s1 d' a Hf1 E'). }
  destruct (Hruns st) as (st1 & Hd & _ & Hres & Hok).
  destruct (retried_between body settled Hbody (db st) d1 a1 Hs E st1) as [Hb Hdone]; [by left|]. rewrite <- Hres in Hb, Hdone.
  destruct (Honce (set_faults st []) eq_refl) as (_ & _ & H1); [by left|].
  destruct (Honce (set_faults (apply_local st ev hook).1 []) eq_refl) as (_ & _ & H2); [done|].
  split_and!.
  - destruct Hb as [->|(_ & _ & Hb)]; [by left|right]. by rewrite H1.
  - intros (_ & _ & Hh)%Hok%Hdone. by rewrite H1.
  - by rewrite H1.
Qed.

(** What an account event leaves when the database answers.  A deletion
    that the account's PDS does not contradict, a takedown or a suspension
    leaves a tombstone at least as new as the event and as any before, removes
    exactly the account's network rows of the collections asked for (only those
    older than a replayed event), and from then on blocks writes of the account
    without a rev or up to the event's; any other inactive status changes
    nothing; a reactivation lifts the tombstone, unless the event is replayed
    and the tombstone is at least as new. *)
Theorem account_event_exact {RS : RuntimeSpec R} st d active status as_of_us seq time_us cs :
  faults st = [] -> sound backend (db st) ->
  let before := tid <$> as_of_us in
  let witnessed := default now_micros (match time_us with Some t => Some t | None => as_of_us end) in
  let st' := (apply_in st (SAccount d active status as_of_us seq time_us cs)).1 in
  if active then
    records (db st') = records (db st)
    /\ did_tombstones (db st')
       = match did_tombstones (db st) !! d with
         | Some t => if is_some_and before (fun b => rev_le b (did_tomb_rev t)) then did_tombstones (db st)
                     else base.delete d (did_tombstones (db st))
         | None => did_tombstones (db st)
         end
  else if purges (db st) d status then
    account_gone d (tid witnessed) before cs (db st) (db st')
    /\ forall r, p_did r = d -> match p_rev r with Some rev => rev_le rev (tid witnessed) | None => true end = true ->
         blocked (db st') (candidate_of r) = true
  else db st' = db st.
Proof.
  intros Hf Hs before witnessed st'.
  destruct (apply_in_effect st (SAccount d active status as_of_us seq time_us cs) Hf Hs I) as [_ Hd].
  fold st' in Hd. cbn [effect] in Hd. fold before witnessed in Hd. rewrite Hd. destruct active.
  - unfold lift_did_tombstone. destruct (did_tombstones (db st) !! d) as [t|]; [|done].
    destruct before as [b|]; cbn [is_some_and]; [|done].
    destruct (rev_le b (did_tomb_rev t)) eqn:El; unfold rev_lt; by rewrite El.
  - destruct (purges (db st) d status); [|done].
    pose proof (purged_gone (db st) d (tid witnessed) seq now_rfc3339 cs before Hs) as Hg.
    split; [exact Hg|]. destruct Hg as [(t & Ht & Hle & _) _]. intros r Hr Hrev.
    unfold blocked. cbn [cand_did cand_rev candidate_of]. rewrite Hr, Ht. cbn [is_some_and]. apply orb_true_iff. right.
    unfold superseded. destruct (p_rev r); [|done]. by eapply rev_le_trans.
Qed.

(** ** Hook concurrency *)

Lemma all_backfill_spec events : forall uris,
  all_backfill uris events = true ->
  exists evs, events = SRecord <$> evs /\ Forall (fun ev => exists job, origin ev = Backfill job) evs
    /\ NoDup ((fun ev => uri (key ev)) <$> evs) /\ Forall (fun ev => uri (key ev) ∉ uris) evs.
Proof.
  induction events as [|e events IH]; intros uris; [by exists []; split_and!; try constructor|].
  destruct e as [ev| | |]; cbn [all_backfill]; try done. destruct (origin ev) as [|job|] eqn:Eo; try done.
  case_bool_decide as Hin; [done|]. intros (evs & -> & Hb & Hnd & Hni)%IH. exists (ev :: evs).
  rewrite Forall_forall in Hni. split_and!; [done|constructor; eauto| |].
  - rewrite fmap_cons. apply NoDup_cons. split; [|done]. rewrite list_elem_of_fmap. intros (ev' & Hu & Hev').
    apply (Hni ev' Hev'), elem_of_union. left. by apply elem_of_singleton.
  - constructor; [done|]. apply Forall_forall. intros ev' Hev'. specialize (Hni ev' Hev').
    rewrite not_elem_of_union in Hni. tauto.
Qed.

Lemma parse_hook_concurrency_range v : 1 <= parse_hook_concurrency v <= MAX_BACKFILL_HOOK_CONCURRENCY.
Proof.
  unfold parse_hook_concurrency, DEFAULT_BACKFILL_HOOK_CONCURRENCY, MAX_BACKFILL_HOOK_CONCURRENCY.
  repeat case_match; bool_prop; lia.
Qed.

(** However [BACKFILL_HOOK_CONCURRENCY] is set, between 1 and 32 hooks of
    a batch run at once, and more than one only for a batch of backfill records
    of pairwise different keys, whose order does not matter. *)
Theorem hook_concurrency_safe setting events :
  1 <= batch_concurrency (parse_hook_concurrency setting) events <= 32
  /\ (1 < batch_concurrency (parse_hook_concurrency setting) events ->
      exists evs, events = SRecord <$> evs /\ Forall (fun ev => exists job, origin ev = Backfill job) evs
        /\ NoDup ((fun ev => uri (key ev)) <$> evs)).
Proof.
  pose proof (parse_hook_concurrency_range setting) as Hr. unfold MAX_BACKFILL_HOOK_CONCURRENCY in Hr.
  unfold batch_concurrency. destruct (_ =? 1); [split; lia|].
  destruct (all_backfill ∅ events) eqn:Ea; [|split; lia]. split; [lia|]. intros _.
  destruct (all_backfill_spec _ _ Ea) as (evs & ? & ? & ? & _). by exists evs.
Qed.

End Ingest.

(** ** Concrete runs *)

Definition sample_catalog : Catalog := {|
  Lexicons := unit;
  is_indexed := fun _ c => c =s "c";
  get_network := fun _ _ => None;
  refresh_network := fun l _ _ => (l, Ok false);
  remove_network := fun l _ => (l, Ok false);
  get_record_collections := fun _ => ["c"];
|}.

Definition sample_env : Env := {|
  run_record_event_script := fun _ => HookProceed;
  to_string := fun v => match v with VString s => s | _ => "other" end;
  verbose_event_logging := false;
  backfill_running := fun _ => false;
  active_at_pds := fun _ => None;
  has_active_subscriptions := false;
  now_micros := 1700000000000000;
  now_rfc3339 := "2023-11-14T22:13:20+00:00";
|}.

#[local] Existing Instance sample_runtime.
#[local] Existing Instance sample_catalog.
#[local] Existing Instance sample_env.

Definition sample_state (b : Tombstones.Database) (fs : list (option Fault)) : State :=
  {| db := b; faults := fs; logged := []; fetched := []; lexicons := tt : Lexicons; collections := ["c"] |}.

Definition sample_event (a : Action) (rkey rev : string) : SourceEvent :=
  SRecord {| key := {| did := "did:b"; StreamEvent.collection := "c"; StreamEvent.rkey := rkey |};
             action := a; StreamEvent.cid := None; StreamEvent.rev := Some rev;
             StreamEvent.body := Some (VString rev); time_us := None; origin := Live; stored := false |}.

Definition sample_batch : list SourceEvent :=
  [sample_event Create "1" "3a"; sample_event Create "2" "3b"; sample_event Delete "1" "3c"].

Lemma batch_refines_effect_witness :
  db (apply_events no_hash Sqlite (sample_state empty_database []) sample_batch).1
  = db (foldl (fun st e => (apply no_hash Sqlite st e).1) (sample_state empty_database []) sample_batch).
Proof.
  symmetry. apply (batch_refines_effect no_hash Sqlite (RS := sample_runtime_spec)).
  - reflexivity.
  - apply empty_sound.
  - repeat constructor; done.
  - apply (bool_decide_eq_true_1 _). reflexivity.
Defined.

Lemma stored_rows_verified_witness :
  sound Sqlite (db (apply_events no_hash Sqlite
    (sample_state empty_database [Some (RolledBack PoolTimedOut); Some (Unconfirmed Io)]) sample_batch).1).
Proof.
  apply (stored_rows_verified no_hash Sqlite).
  - apply empty_sound.
  - repeat constructor.
Defined.

Definition failing_event : RecordEvent :=
  {| key := {| did := "did:b"; StreamEvent.collection := "c"; StreamEvent.rkey := "1" |}; action := Create;
     StreamEvent.cid := None; StreamEvent.rev := None; StreamEvent.body := Some VNull;
     time_us := None; origin := Live; stored := false |}.

Lemma redelivery_completes_witness :
  (apply_record no_hash Sqlite (sample_state empty_database [Some (Unconfirmed Io)]) failing_event HRun).2 = Unavailable
  /\ same_tables
       (db (apply_record no_hash Sqlite
              (set_faults (apply_record no_hash Sqlite (sample_state empty_database [Some (Unconfirmed Io)]) failing_event HRun).1 [])
              failing_event HRun).1)
       (db (apply_record no_hash Sqlite (sample_state empty_database []) failing_event HRun).1).
Proof.
  split; [vm_compute; reflexivity|].
  apply (redelivery_completes no_hash Sqlite (sample_state empty_database [Some (Unconfirmed Io)]) failing_event HRun);
    [apply empty_sound|vm_compute; reflexivity|discriminate].
Defined.

Lemma account_event_exact_witness :
  blocked (db (apply_in no_hash Sqlite (sample_state empty_database [])
             (SAccount "did:b" false (Some "deleted") None None (Some 1700000000000000) None)).1)
    (candidate_of (local_record "1" "x")) = true.
Proof.
  apply (account_event_exact no_hash Sqlite (RS := sample_runtime_spec) (sample_state empty_database [])
           "did:b" false (Some "deleted") None None (Some 1700000000000000) None);
    [reflexivity|apply empty_sound|reflexivity|reflexivity].
Defined.

Lemma hook_concurrency_safe_witness :
  1 < batch_concurrency (parse_hook_concurrency (Some " 8 ")) []
  /\ exists evs, [] = SRecord <$> evs /\ Forall (fun ev => exists job, origin ev = Backfill job) evs
       /\ NoDup ((fun ev => uri (key ev)) <$> evs).
Proof.
  assert (H : 1 < batch_concurrency (parse_hook_concurrency (Some " 8 ")) []) by reflexivity.
  split; [exact H|]. exact (proj2 (hook_concurrency_safe (Some " 8 ") []) H).
Defined.
