(* ===== verification/Decimal.v ===== *)
(** * Signed decimal numbers

    Rust's [Display] and [FromStr] of signed integers: the printer is the [pretty] of
    integers, the parser accepts an optional sign and at least one digit. *)

From stdpp Require Import strings pretty.
From Stdlib Require Import ZArith Lia.
From S2P Require Import Prelude RustStr.

#[local] Open Scope Z_scope.

Definition I32_MIN : Z := - 2 ^ 31.
Definition I32_MAX : Z := 2 ^ 31 - 1.

Definition push_digit (n : Z) (c : ascii) : Z := n * 10 + (Z.of_N (code c) - 48).

Definition decimal (digits : string) : Z := foldl push_digit 0 (String.list_ascii_of_string digits).

(** The sign of a number and the text after it. *)
Definition split_sign (s : string) : bool * string :=
  match s with
  | String c rest => if c =c "-" then (true, rest) else if c =c "+" then (false, rest) else (false, s)
  | EmptyString => (false, s)
  end.

(** [s.parse().ok()] at a signed type with these bounds. *)
Definition parse_signed (min max : Z) (s : string) : option Z :=
  let '(neg, digits) := split_sign s in
  let n := if neg then - decimal digits else decimal digits in
  if digits =s EmptyString then None
  else if negb (str_all is_ascii_digit digits) then None
  else if (min <=? n) && (n <=? max) then Some n else None.

Definition parse_i32 : string -> option Z := parse_signed I32_MIN I32_MAX.
Definition parse_i64 : string -> option Z := parse_signed (- 2 ^ 63) (2 ^ 63 - 1).

(** ** Printing *)

Lemma pretty_char x : (x < 10)%N ->
  is_ascii_digit (pretty_N_char x) = true /\ Z.of_N (code (pretty_N_char x)) - 48 = Z.of_N x.
Proof. intros Hx. destruct x as [|p]; [done|]. by do 4 (destruct p as [p|p|]; try done; try lia). Qed.

Lemma pretty_go x : forall s,
  foldl push_digit 0 (String.list_ascii_of_string (pretty_N_go x s))
  = foldl push_digit (Z.of_N x) (String.list_ascii_of_string s)
  /\ str_all is_ascii_digit (pretty_N_go x s) = str_all is_ascii_digit s.
Proof.
  induction (N.lt_wf_0 x) as [x _ IH]; intros s.
  destruct (decide (x = 0)%N) as [->|]; [by rewrite pretty_N_go_0|].
  rewrite pretty_N_go_step by lia.
  destruct (IH (x `div` 10)%N ltac:(apply N.div_lt; lia) (String (pretty_N_char (x `mod` 10)) s)) as [-> ->].
  destruct (pretty_char (x `mod` 10)) as [Hd Hv]; [by apply N.mod_lt|].
  simpl. rewrite Hd. split; [|done]. f_equal. unfold push_digit. rewrite Hv.
  rewrite N2Z.inj_div, N2Z.inj_mod. pose proof (Z.div_mod (Z.of_N x) 10). lia.
Qed.

Lemma pretty_N_reads x : decimal (pretty x) = Z.of_N x /\ str_all is_ascii_digit (pretty x) = true.
Proof.
  unfold pretty, pretty_N. case_decide as H; [by subst|].
  destruct (pretty_go x "") as [? ?]. done.
Qed.

Lemma pretty_N_nonempty (x : N) : pretty x <> EmptyString.
Proof.
  intros H. destruct (decide (x = 0)%N) as [->|]; [done|].
  destruct (pretty_N_reads x) as [Hv _]. rewrite H in Hv. change (0 = Z.of_N x) in Hv. lia.
Qed.

Lemma split_sign_digits s : str_all is_ascii_digit s = true -> split_sign s = (false, s).
Proof.
  destruct s as [|c s]; simpl; [done|]. intros [Hc _]%andb_prop.
  destruct (c =c "-") eqn:E; [apply Ascii.eqb_eq in E as ->; done|].
  destruct (c =c "+") eqn:E'; [apply Ascii.eqb_eq in E' as ->; done|done].
Qed.

(** [i.to_string().parse()] is [i]. *)
Lemma parse_signed_pretty min max i : min <= i <= max -> parse_signed min max (pretty i) = Some i.
Proof.
  intros Hi. unfold parse_signed, pretty, pretty_Z. destruct i as [|p|p].
  - change ((if (min <=? 0) && (0 <=? max) then Some 0 else None) = Some 0).
    rewrite (proj2 (andb_true_iff _ _)); [done|]. split; apply Z.leb_le; lia.
  - change (pretty p) with (pretty (Npos p)). destruct (pretty_N_reads (Npos p)) as [Hv Hd].
    rewrite split_sign_digits by done. rewrite Hv, Hd.
    rewrite (proj2 (String.eqb_neq _ _)) by apply pretty_N_nonempty.
    cbn [negb]. rewrite (proj2 (andb_true_iff _ _)); [done|]. split; apply Z.leb_le; lia.
  - change (pretty p) with (pretty (Npos p)). simpl.
    destruct (pretty_N_reads (Npos p)) as [Hv Hd]. rewrite Hv, Hd.
    rewrite (proj2 (String.eqb_neq _ _)) by apply pretty_N_nonempty.
    cbn [negb]. rewrite (proj2 (andb_true_iff _ _)); [done|]. split; apply Z.leb_le; lia.
Qed.

Lemma parse_i32_pretty i : I32_MIN <= i <= I32_MAX -> parse_i32 (pretty i) = Some i.
Proof. apply parse_signed_pretty. Qed.

(** A printed number holds digits and a minus sign only. *)
Lemma pretty_i32_chars (i : Z) (c : ascii) :
  is_ascii_digit c = false -> c <> "-"%char -> contains_char c (pretty i) = false.
Proof.
  intros Hc Hm.
  assert (forall x : N, contains_char c (pretty x) = false) as HN.
  { intros x. apply (contains_char_all is_ascii_digit); [done|apply pretty_N_reads]. }
  unfold pretty, pretty_Z. destruct i as [|p|p]; [exact (HN 0%N)|exact (HN (Npos p))|].
  change (Ascii.eqb c "-" || contains_char c (pretty (Npos p)) = false).
  rewrite (HN (Npos p)), orb_false_r. by apply Ascii.eqb_neq.
Qed.
