(* ===== verification/SpaceTypes.v ===== *)
(** * Spaces: addresses, access and hosting

    The data the spaces code shares: [src/spaces/mod.rs] ([SpaceUri]),
    [src/spaces/host_mode.rs], and of [src/spaces/types.rs] the member access
    flags, the policies, the oplog actions and the rows of the tables.  The
    timestamps of a space and the two flags of its configuration, which no
    modelled code reads, are left out. *)

From stdpp Require Import list strings gmap.
From Stdlib Require Import ZArith.
From S2P Require Import Prelude RustStr Json.

(** ** Errors *)

(** The variants of [crate::error::AppError] the spaces code returns. *)
Inductive AppError : Type :=
| Internal (message : string)
| BadRequest (message : string)
| NotFound (message : string)
| Conflict (message : string)
| Forbidden (message : string)
| AuthError (message : string)
| XrpcError (status : Z) (code message : string).

(** ** Space URIs *)

Record SpaceUri : Type := {
  u_did : string;
  u_type_nsid : string;
  u_skey : string;
  u_user_did : option string;
  u_collection : option string;
  u_rkey : option string;
}.

#[local] Abbreviation slash := "/"%char.

Definition is_empty (s : string) : bool := s =s EmptyString.

(** [SpaceUri::parse] after the scheme: the text behind [at://]. *)
Definition parse_stripped (stripped : string) : result SpaceUri AppError :=
  let parts := str_split slash stripped in
  let part n := nth n parts EmptyString in
  if Nat.ltb (length parts) 4 then Err (BadRequest "SpaceUri requires at least did/space/type_nsid/skey")
  else if negb (part 1 =s "space") then
    Err (BadRequest "SpaceUri must have 'space' as the second path segment")
  else if is_empty (part 0) || is_empty (part 2) || is_empty (part 3) then
    Err (BadRequest "SpaceUri components must not be empty")
  else if Nat.eqb (length parts) 7 then
    if is_empty (part 4) || is_empty (part 5) || is_empty (part 6) then
      Err (BadRequest "SpaceUri record components must not be empty")
    else
      Ok {| u_did := part 0; u_type_nsid := part 2; u_skey := part 3; u_user_did := Some (part 4);
            u_collection := Some (part 5); u_rkey := Some (part 6) |}
  else if Nat.eqb (length parts) 4 then
    Ok {| u_did := part 0; u_type_nsid := part 2; u_skey := part 3; u_user_did := None;
          u_collection := None; u_rkey := None |}
  else Err (BadRequest "SpaceUri must have 4 components (space) or 7 components (record)").

(** [SpaceUri::parse]: the legacy [ats://did/type/skey] is rewritten first. *)
Definition space_uri_parse (uri : string) : result SpaceUri AppError :=
  match strip_prefix "ats://" uri with
  | Some ats_rest =>
      match str_split slash ats_rest with
      | p0 :: ((_ :: _ :: _) as rest) => parse_stripped (p0 +:+ "/space/" +:+ str_join "/" rest)
      | _ => Err (BadRequest "ats:// URI requires at least did/type/skey")
      end
  | None =>
      match strip_prefix "at://" uri with
      | Some stripped => parse_stripped stripped
      | None => Err (BadRequest "SpaceUri must start with at://")
      end
  end.

(** [format!("at://{}/space/{}/{}", ...)], which the code writes in several
    places. *)
Definition space_uri (did type_nsid skey : string) : string :=
  "at://" +:+ did +:+ "/space/" +:+ type_nsid +:+ "/" +:+ skey.

(** [impl Display for SpaceUri]. *)
Definition space_uri_display (u : SpaceUri) : string :=
  space_uri (u_did u) (u_type_nsid u) (u_skey u)
  +:+ match u_user_did u, u_collection u, u_rkey u with
      | Some user, Some col, Some rkey => "/" +:+ user +:+ "/" +:+ col +:+ "/" +:+ rkey
      | _, _, _ => EmptyString
      end.

Definition is_record_uri (u : SpaceUri) : bool := bool_decide (is_Some (u_user_did u)).

(** ** Host modes *)

Inductive HostMode : Type := Polyfill | Migrating | Native.

#[global] Instance HostMode_eq_dec : EqDecision HostMode.
Proof. solve_decision. Defined.

Definition mode_as_str (m : HostMode) : string :=
  match m with Polyfill => "polyfill" | Migrating => "migrating" | Native => "native" end.

Definition mode_parse_or_default (s : string) : HostMode :=
  if s =s "migrating" then Migrating else if s =s "native" then Native else Polyfill.

Definition is_authoritative_here (m : HostMode) : bool :=
  match m with Polyfill | Migrating => true | Native => false end.

Definition can_transition (from to : HostMode) : bool :=
  match from, to with
  | Polyfill, Migrating | Migrating, Native | Migrating, Polyfill | Native, Polyfill => true
  | _, _ => false
  end.

(** ** Member access *)

Record MemberAccess : Type := { a_read : bool; a_write : bool; a_read_self : bool }.

#[global] Instance MemberAccess_eq_dec : EqDecision MemberAccess.
Proof. solve_decision. Defined.

Definition READ : MemberAccess := {| a_read := true; a_write := false; a_read_self := false |}.
Definition WRITE : MemberAccess := {| a_read := true; a_write := true; a_read_self := false |}.
Definition READ_SELF : MemberAccess := {| a_read := true; a_write := false; a_read_self := true |}.
Definition NO_ACCESS : MemberAccess := {| a_read := false; a_write := false; a_read_self := false |}.

Definition as_wire_str (a : MemberAccess) : string :=
  match a_read a, a_write a, a_read_self a with
  | _, true, _ => "write"
  | true, false, true => "read_self"
  | true, false, false => "read"
  | false, false, _ => "none"
  end.

Definition parse_wire (s : string) : option MemberAccess :=
  if s =s "write" then Some WRITE
  else if s =s "read" then Some READ
  else if s =s "read_self" then Some READ_SELF
  else if s =s "none" then Some NO_ACCESS
  else None.

(** [MemberAccess::union]. *)
Definition access_union (a b : MemberAccess) : MemberAccess :=
  {| a_read := a_read a || a_read b; a_write := a_write a || a_write b;
     a_read_self := a_read_self a && a_read_self b |}.

(** ** Oplog *)

Inductive OplogAction : Type := OpCreate | OpUpdate | OpDelete.

#[global] Instance OplogAction_eq_dec : EqDecision OplogAction.
Proof. solve_decision. Defined.

Definition action_as_str (a : OplogAction) : string :=
  match a with OpCreate => "create" | OpUpdate => "update" | OpDelete => "delete" end.

Definition action_parse (s : string) : option OplogAction :=
  if s =s "create" then Some OpCreate
  else if s =s "update" then Some OpUpdate
  else if s =s "delete" then Some OpDelete
  else None.

Record OplogEntry : Type := {
  e_id : string;
  e_space_id : string;
  e_author_did : string;
  e_rev : string;
  e_idx : Z;
  e_action : OplogAction;
  e_collection : string;
  e_rkey : string;
  e_cid : option string;
  e_prev : option string;
  e_value : option value;
  e_created_at : string;
}.

(** ** Spaces and records *)

Inductive Policy : Type :=
| Public
| MemberList
| ManagingApp (managing_app : string).

Inductive AppAccess : Type :=
| Open
| AllowList (allowed : list string).

Record Space : Type := {
  s_id : string;
  s_did : string;
  s_authority_did : string;
  s_creator_did : string;
  s_type_nsid : string;
  s_skey : string;
  s_display_name : option string;
  s_description : option string;
  s_read_policy : Policy;
  s_write_policy : Policy;
  s_app_access : AppAccess;
  s_config_extra : list (string * value);
  s_revision : option string;
}.

Record SpaceRecord : Type := {
  r_uri : string;
  r_space_id : string;
  r_author_did : string;
  r_collection : string;
  r_rkey : string;
  r_record : value;
  r_cid : string;
  r_indexed_at : string;
}.

Record RepoState : Type := {
  rs_id : string;
  rs_lthash_state : list Z;
  rs_rev : option string;
  rs_hash : option (list Z);
  rs_ikm : option (list Z);
  rs_sig : option (list Z);
  rs_mac : option (list Z);
  rs_host_mode : HostMode;
  rs_sync_cursor : option string;
  rs_updated_at : string;
}.

(** ** Lemmas *)

Lemma action_parse_as_str a : action_parse (action_as_str a) = Some a.
Proof. by destruct a. Qed.

Definition uri_part (s : string) : Prop := s <> EmptyString /\ contains_char slash s = false.

Definition uri_wf (u : SpaceUri) : Prop :=
  uri_part (u_did u) /\ uri_part (u_type_nsid u) /\ uri_part (u_skey u)
  /\ match u_user_did u, u_collection u, u_rkey u with
     | Some a, Some c, Some r => uri_part a /\ uri_part c /\ uri_part r
     | None, None, None => True
     | _, _, _ => False
     end.

Lemma is_empty_false s : is_empty s = false <-> s <> EmptyString.
Proof. unfold is_empty. apply String.eqb_neq. Qed.

Lemma is_empty_part s : uri_part s -> is_empty s = false.
Proof. intros [? _]. by apply is_empty_false. Qed.

(** The parts of a displayed URI. *)
Definition uri_parts (u : SpaceUri) : list string :=
  [u_did u; "space"; u_type_nsid u; u_skey u]
  ++ match u_user_did u, u_collection u, u_rkey u with
     | Some a, Some c, Some r => [a; c; r]
     | _, _, _ => []
     end.

Lemma display_join u : space_uri_display u = "at://" +:+ str_join "/" (uri_parts u).
Proof.
  unfold space_uri_display, space_uri, uri_parts.
  destruct (u_user_did u), (u_collection u), (u_rkey u); simpl;
    rewrite ?append_nil_r, ?append_assoc; simpl; rewrite ?append_assoc; done.
Qed.

Lemma uri_parts_clean u : uri_wf u -> Forall (fun x => contains_char slash x = false) (uri_parts u).
Proof.
  intros ([_ ?] & [_ ?] & [_ ?] & H3). unfold uri_parts.
  destruct (u_user_did u), (u_collection u), (u_rkey u); try done.
  - destruct H3 as ([_ ?] & [_ ?] & [_ ?]). by repeat apply Forall_cons_2.
  - by repeat apply Forall_cons_2.
Qed.

(** What [parse_stripped] returns is well-formed and joins back to its text. *)
Lemma parse_stripped_Ok s u :
  parse_stripped s = Ok u <-> uri_wf u /\ s = str_join "/" (uri_parts u).
Proof.
  unfold parse_stripped. split.
  - intros H.
    assert (Hs : s = str_join "/" (str_split slash s)) by (symmetry; apply (str_join_split slash)).
    assert (Hc := fun x => str_split_clean slash s x).
    destruct (str_split slash s) as [|p0 [|p1 [|p2 [|p3 [|p4 [|p5 [|p6 [|p7 rest]]]]]]]];
      simpl in H; try discriminate H;
      repeat match type of H with
      | context [if ?b then _ else _] => destruct b eqn:?; try discriminate H
      end; injection H as <-; bool_prop; unfold uri_wf, uri_part; simpl;
      rewrite ?is_empty_false in *; subst;
      repeat match goal with
      | H : (_ =s _) = true |- _ => apply String.eqb_eq in H; subst
      end; (split; [repeat split; try done; apply Hc; set_solver|done]).
  - intros [Hwf ->].
    assert (Hsplit : str_split slash (str_join "/" (uri_parts u)) = uri_parts u).
    { apply (str_split_join slash); [by destruct u|by apply uri_parts_clean]. }
    rewrite Hsplit. destruct Hwf as (H0 & H1 & H2 & H3). destruct u as [d t k a c r]; unfold uri_parts; simpl in *.
    rewrite !is_empty_part by done.
    destruct a, c, r; try done; simpl.
    destruct H3 as (? & ? & ?). by rewrite !is_empty_part by done.
Qed.

(** ** Theorems *)

(** A space URI is well-formed exactly when it is the parse of its own
    text: displaying a URI whose parts are non-empty and hold no slash parses
    back to it, and whatever parses is well-formed and, under [at://], displays
    as the text it came from. *)
Theorem space_uri_round_trip (u : SpaceUri) (text : string) :
  (uri_wf u -> space_uri_parse (space_uri_display u) = Ok u)
  /\ (space_uri_parse text = Ok u -> uri_wf u)
  /\ (space_uri_parse text = Ok u -> starts_with "at://" text = true -> space_uri_display u = text).
Proof.
  assert (Hat : forall s, strip_prefix "ats://" ("at://" +:+ s) = None) by done.
  rewrite display_join. unfold space_uri_parse. split_and!.
  - intros Hwf. rewrite Hat, strip_prefix_app. by apply parse_stripped_Ok.
  - intros H. repeat break_match; try discriminate; by apply parse_stripped_Ok in H as [? _].
  - intros H [r ->]%starts_with_true. rewrite Hat, strip_prefix_app in H.
    by apply parse_stripped_Ok in H as [_ ->].
Qed.

Lemma space_uri_round_trip_witness :
  space_uri_display {| u_did := "did:plc:abc"; u_type_nsid := "com.example.forum"; u_skey := "main";
                       u_user_did := None; u_collection := None; u_rkey := None |}
  = "at://did:plc:abc/space/com.example.forum/main".
Proof.
  apply (space_uri_round_trip _ "at://did:plc:abc/space/com.example.forum/main"); vm_compute; reflexivity.
Defined.

(** The legacy form names the same space. *)
Lemma legacy_uri_parses did type_nsid skey :
  uri_part did -> uri_part type_nsid -> uri_part skey ->
  space_uri_parse ("ats://" +:+ did +:+ "/" +:+ type_nsid +:+ "/" +:+ skey)
  = space_uri_parse (space_uri did type_nsid skey).
Proof.
  intros [? Hd] [? Ht] [? Hk]. unfold space_uri_parse, space_uri.
  rewrite (strip_prefix_app "ats://"). change (strip_prefix "ats://" ("at://" +:+ ?s)) with (@None string).
  rewrite strip_prefix_app.
  change (did +:+ "/" +:+ type_nsid +:+ "/" +:+ skey) with (did +:+ String slash (type_nsid +:+ String slash skey)).
  by rewrite !str_split_app, !str_split_none by done.
Qed.

(** The host of a repository over a sequence of mode changes. *)
Inductive mode_path : HostMode -> list HostMode -> HostMode -> Prop :=
| path_nil m : mode_path m [] m
| path_cons m m' l n : can_transition m m' = true -> mode_path m' l n -> mode_path m (m' :: l) n.

(** A repository HappyView hosts is never handed to its author's PDS without
    passing through the migration that verifies it, and a mode read back from
    its stored text is the mode written. *)
Theorem native_only_after_migrating (m : HostMode) (l : list HostMode) :
  (mode_path m l Native -> is_authoritative_here m = true -> Migrating ∈ m :: l)
  /\ mode_parse_or_default (mode_as_str m) = m.
Proof.
  split; [|by destruct m]. intros H. remember Native as n eqn:En.
  induction H as [|m m' l n Ht _ IH]; intros Hm; subst; [done|].
  destruct m, m'; try done; set_solver.
Qed.

Lemma native_only_after_migrating_witness : Migrating ∈ [Polyfill; Migrating; Native].
Proof.
  apply (native_only_after_migrating Polyfill [Migrating; Native]); [|reflexivity].
  eapply path_cons; [reflexivity|]. eapply path_cons; [reflexivity|]. constructor.
Defined.
