(* ===== verification/SpaceOplog.v ===== *)
(** * The operation log of a space repository

    [src/spaces/oplog.rs]: appending an operation, the cursor of a listing and
    the two paged listings, as the [listRepoOps] route calls them.  The table
    is the list of its rows in the order a scan meets them. *)

From stdpp Require Import list strings sorting pretty.
From Stdlib Require Import ZArith Lia.
From S2P Require Import Prelude RustStr Json Tombstones Decimal SpaceTypes.

#[local] Open Scope Z_scope.

(** ** Cursors *)

#[local] Abbreviation colon := ":"%char.

Definition encode_cursor (rev : string) (idx : Z) : string := rev +:+ String colon (pretty idx).

Definition parse_cursor (cursor : string) : string * Z :=
  match str_rsplit_once (Ascii.eqb colon) cursor with
  | Some (rev, idx) =>
      match parse_i32 idx with
      | Some idx => (rev, idx)
      | None => (cursor, I32_MAX)
      end
  | None => (cursor, I32_MAX)
  end.

(** ** The table *)

Record OplogRow : Type := {
  l_id : string;
  l_space_id : string;
  l_author_did : string;
  l_rev : string;
  l_idx : Z;
  l_action : string;
  l_collection : string;
  l_rkey : string;
  l_cid : option string;
  l_prev : option string;
  l_created_at : string;
}.

Definition row_of (e : OplogEntry) : OplogRow :=
  {| l_id := e_id e; l_space_id := e_space_id e; l_author_did := e_author_did e; l_rev := e_rev e;
     l_idx := e_idx e; l_action := action_as_str (e_action e); l_collection := e_collection e;
     l_rkey := e_rkey e; l_cid := e_cid e; l_prev := e_prev e; l_created_at := e_created_at e |}.

(** [append_op]: the insert fails where the id, the primary key, is taken. *)
Definition append_op (oplog : list OplogRow) (entry : OplogEntry) : result (list OplogRow) AppError :=
  if existsb (fun r => l_id r =s e_id entry) oplog
  then Err (Internal "failed to append oplog entry")
  else Ok (oplog ++ [row_of entry]).

(** ** Listings *)

(** [ORDER BY rev, idx], and [rev > ? OR (rev = ? AND idx > ?)]. *)
Definition key_ltb (a b : string * Z) : bool := rev_lt a.1 b.1 || (a.1 =s b.1) && (a.2 <? b.2).

Definition key_le (a b : string * Z) : Prop := key_ltb b a = false.

#[global] Instance key_le_dec a b : Decision (key_le a b).
Proof. unfold key_le. apply _. Defined.

Definition row_key (r : OplogRow) : string * Z := (l_rev r, l_idx r).

(** [LIMIT n]: SQLite takes a negative limit as none, Postgres refuses it. *)
Definition sql_limit {T} (backend : DatabaseBackend) (n : Z) (rows : list T) : result (list T) AppError :=
  if n <? 0 then
    match backend with
    | Sqlite => Ok rows
    | Postgres => Err (Internal "failed to list oplog entries")
    end
  else Ok (take (Z.to_nat n) rows).

(** [paginate] *)
Definition paginate {T} (rows : list T) (limit : Z) (key : T -> string * Z) : list T * option string :=
  let has_more := limit <? Z.of_nat (length rows) in
  let rows := take (Z.to_nat (Z.max limit 0)) rows in
  (rows,
   if has_more then (fun r => let '(rev, idx) := key r in encode_cursor rev idx) <$> last rows else None).

(** The entry of a fetched row and its value. *)
Definition entry_of (r : OplogRow) (v : option value) : result OplogEntry AppError :=
  match action_parse (l_action r) with
  | None => Err (Internal ("invalid oplog action: " +:+ l_action r))
  | Some action =>
      Ok {| e_id := l_id r; e_space_id := l_space_id r; e_author_did := l_author_did r; e_rev := l_rev r;
            e_idx := l_idx r; e_action := action; e_collection := l_collection r; e_rkey := l_rkey r;
            e_cid := l_cid r; e_prev := l_prev r; e_value := v; e_created_at := l_created_at r |}
  end.

(** [collect::<Result<Vec<_>, _>>()] *)
Fixpoint collect_results {A B} (f : A -> result B AppError) (l : list A) : result (list B) AppError :=
  match l with
  | [] => Ok []
  | a :: l' => let? b := f a in let? bs := collect_results f l' in Ok (b :: bs)
  end.

(** The [WHERE] of a listing. *)
Definition in_listing (space_id author_did : string) (cursor : option string) (r : OplogRow) : bool :=
  (l_space_id r =s space_id) && (l_author_did r =s author_did)
  && match cursor with
     | None => true
     | Some c => key_ltb (parse_cursor c) (row_key r)
     end.

Definition by_key {T} (key : T -> string * Z) (a b : T) : Prop := key_le (key a) (key b).

#[global] Instance by_key_dec {T} (key : T -> string * Z) a b : Decision (by_key key a b).
Proof. unfold by_key. apply _. Defined.

Section List.
Context (from_str : string -> option value) (backend : DatabaseBackend).

(** [list_ops]: one row more than asked for tells whether another page exists. *)
Definition list_ops (oplog : list OplogRow) (space_id author_did : string) (cursor : option string)
    (limit : Z) : result (list OplogEntry * option string) AppError :=
  let matching := filter (fun r => in_listing space_id author_did cursor r) oplog in
  let? rows := sql_limit backend (limit + 1) (merge_sort (by_key row_key) matching) in
  let '(rows, next_cursor) := paginate rows limit row_key in
  let? entries := collect_results (fun r => entry_of r None) rows in
  Ok (entries, next_cursor).

(** The record rows a [LEFT JOIN] matches with a log row. *)
Definition join_matches (r : OplogRow) (rec : SpaceRecord) : bool :=
  (r_space_id rec =s l_space_id r) && (r_author_did rec =s l_author_did r)
  && (r_collection rec =s l_collection r) && (r_rkey rec =s l_rkey r)
  && bool_decide (l_cid r = Some (r_cid rec)).

Definition left_join (texts : list (SpaceRecord * string)) (r : OplogRow) : list (OplogRow * option string) :=
  match filter (fun p => join_matches r p.1) texts with
  | [] => [(r, None)]
  | ms => (fun p => (r, Some p.2)) <$> ms
  end.

Definition valued_entry (p : OplogRow * option string) : result OplogEntry AppError :=
  match action_parse (l_action p.1) with
  | None => Err (Internal ("invalid oplog action: " +:+ l_action p.1))
  | Some _ =>
      match p.2 with
      | None => entry_of p.1 None
      | Some text =>
          match from_str text with
          | Some v => entry_of p.1 (Some v)
          | None => Err (Internal "failed to parse record value")
          end
      end
  end.

(** [list_ops_with_values]; [texts] are the rows of the records table with the
    stored text of each. *)
Definition list_ops_with_values (oplog : list OplogRow) (texts : list (SpaceRecord * string))
    (space_id author_did : string) (cursor : option string) (limit : Z)
    : result (list OplogEntry * option string) AppError :=
  let matching := filter (fun r => in_listing space_id author_did cursor r) oplog in
  let joined := matching ≫= left_join texts in
  let? rows := sql_limit backend (limit + 1) (merge_sort (by_key (fun p => row_key p.1)) joined) in
  let '(rows, next_cursor) := paginate rows limit (fun p => row_key p.1) in
  let? entries := collect_results valued_entry rows in
  Ok (entries, next_cursor).

(** The route's [limit.unwrap_or(100).clamp(1, 1000)]. *)
Definition page_limit (limit : option Z) : Z := Z.min 1000 (Z.max 1 (default 100 limit)).

(** A reader of the log: it follows cursors until a page has none. *)
Fixpoint read_all (fuel : nat) (oplog : list OplogRow) (space_id author_did : string)
    (cursor : option string) (limit : Z) : option (result (list OplogEntry) AppError) :=
  match fuel with
  | O => None
  | S fuel =>
      let! (entries, next) := Some (list_ops oplog space_id author_did cursor limit) in
      match next with
      | None => Some (Ok entries)
      | Some _ =>
          let! rest := read_all fuel oplog space_id author_did next limit in
          Some (Ok (entries ++ rest))
      end
  end.

End List.

(** ** Cursors *)

Lemma parse_encode_cursor rev idx :
  I32_MIN <= idx <= I32_MAX -> parse_cursor (encode_cursor rev idx) = (rev, idx).
Proof.
  intros Hi. unfold parse_cursor, encode_cursor.
  rewrite str_rsplit_once_app; [|by apply pretty_i32_chars|done]. by rewrite parse_i32_pretty.
Qed.

(** A cursor names the operation it was made from, whatever the revision
    holds; a cursor that is not of that form skips every operation of the
    revision it spells. *)
Theorem cursor_round_trip (rev : string) (idx : Z) :
  I32_MIN <= idx <= I32_MAX ->
  parse_cursor (encode_cursor rev idx) = (rev, idx)
  /\ (contains_char colon rev = false ->
      forall i, I32_MIN <= i <= I32_MAX -> key_ltb (parse_cursor rev) (rev, i) = false).
Proof.
  intros Hi. split; [by apply parse_encode_cursor|].
  - intros Hr i Hi'. unfold parse_cursor.
    assert (str_rsplit_once (Ascii.eqb colon) rev = None) as ->.
    { clear -Hr. induction rev as [|c rev IH]; [done|]. simpl in *. apply orb_false_iff in Hr as [Hc Hr].
      by rewrite (IH Hr), Hc. }
    unfold key_ltb, rev_lt; simpl. rewrite rev_le_refl. simpl.
    apply andb_false_iff. right. apply Z.ltb_ge. lia.
Qed.

Lemma cursor_round_trip_witness : parse_cursor (encode_cursor "3k2:x" (-4)) = ("3k2:x", -4).
Proof. apply (cursor_round_trip "3k2:x" (-4)). vm_compute. split; discriminate. Defined.

(** ** The order of the log *)

Lemma rev_lt_trans a b c : rev_lt a b = true -> rev_lt b c = true -> rev_lt a c = true.
Proof. intros H%rev_lt_le. by apply rev_le_lt_trans. Qed.

Lemma rev_trichotomy a b : rev_lt a b = true \/ a = b \/ rev_lt b a = true.
Proof.
  destruct (rev_lt a b) eqn:E1; [by left|]. destruct (rev_lt b a) eqn:E2; [by right; right|].
  right; left. apply rev_le_antisym; by apply rev_lt_false.
Qed.

Lemma key_ltb_true a b : key_ltb a b = true <-> rev_lt a.1 b.1 = true \/ (a.1 = b.1 /\ a.2 < b.2).
Proof. unfold key_ltb. by rewrite orb_true_iff, andb_true_iff, String.eqb_eq, Z.ltb_lt. Qed.

Lemma key_ltb_irrefl a : key_ltb a a = false.
Proof. unfold key_ltb. by rewrite rev_lt_irrefl, Z.ltb_irrefl, andb_false_r. Qed.

Lemma key_ltb_trans a b c : key_ltb a b = true -> key_ltb b c = true -> key_ltb a c = true.
Proof.
  rewrite !key_ltb_true. intros [H|[E H]] [H'|[E' H']].
  - left. by eapply rev_lt_trans.
  - left. by rewrite <- E'.
  - left. by rewrite E.
  - right. split; [congruence|lia].
Qed.

Lemma key_trichotomy a b : key_ltb a b = true \/ a = b \/ key_ltb b a = true.
Proof.
  destruct a as [r i], b as [r' i']. rewrite !key_ltb_true. simpl.
  destruct (rev_trichotomy r r') as [?|[->|?]]; [by left; left| |by right; right; left].
  destruct (Z.lt_trichotomy i i') as [?|[->|?]]; [by left; right|by right; left|by right; right; right].
Qed.

Lemma key_ltb_asym a b : key_ltb a b = true -> key_ltb b a = false.
Proof.
  intros H. destruct (key_ltb b a) eqn:E; [|done].
  rewrite <- (key_ltb_irrefl a). symmetry. by eapply key_ltb_trans.
Qed.

Lemma key_le_cases a b : key_le a b <-> key_ltb a b = true \/ a = b.
Proof.
  unfold key_le. split.
  - destruct (key_trichotomy a b) as [?|[?|?]]; [by left|by right|congruence].
  - intros [?| ->]; [by apply key_ltb_asym|apply key_ltb_irrefl].
Qed.

#[global] Instance by_key_trans {T} (key : T -> string * Z) : Transitive (by_key key).
Proof.
  intros x y z. unfold by_key. rewrite !key_le_cases. intros [H| ->] [H'| <-]; auto.
  left. by eapply key_ltb_trans.
Qed.

#[global] Instance by_key_total {T} (key : T -> string * Z) : Total (by_key key).
Proof.
  intros x y. unfold by_key. rewrite !key_le_cases.
  destruct (key_trichotomy (key x) (key y)) as [?|[?|?]]; auto.
Qed.

Section Sorted.
Context {T : Type} (key : T -> string * Z).

(** Strictly increasing keys. *)
Abbreviation increasing := (StronglySorted (fun a b => key_ltb (key a) (key b) = true)).

Lemma sorted_distinct l : StronglySorted (by_key key) l -> NoDup (key <$> l) -> increasing l.
Proof.
  induction 1 as [|x l Hl IH Hx]; intros Hnd; constructor; inversion Hnd as [|? ? Hn Hnd']; subst; [auto|].
  rewrite Forall_forall in *. intros y Hy. destruct (proj1 (key_le_cases _ _) (Hx y Hy)) as [?|E]; [done|].
  exfalso. apply Hn. rewrite E. by apply list_elem_of_fmap_2.
Qed.

Lemma increasing_filter (P : T -> bool) l : increasing l -> increasing (filter (fun x => P x) l).
Proof.
  induction 1 as [|x l Hl IH Hx]; [constructor|]. rewrite filter_cons. case_decide; [|done].
  constructor; [done|]. rewrite Forall_forall in *. intros y [_ Hy]%list_elem_of_filter. auto.
Qed.

(** Sorting what a filter keeps is keeping it of the sorted list. *)
Lemma sort_filter (P : T -> bool) l :
  NoDup (key <$> l) ->
  merge_sort (by_key key) (filter (fun x => P x) l) = filter (fun x => P x) (merge_sort (by_key key) l).
Proof.
  intros Hnd.
  assert (Hs : increasing (merge_sort (by_key key) l)).
  { apply sorted_distinct; [apply StronglySorted_merge_sort; apply _|]. by rewrite merge_sort_Permutation. }
  assert (Hf : increasing (merge_sort (by_key key) (filter (fun x => P x) l))).
  { apply sorted_distinct; [apply StronglySorted_merge_sort; apply _|]. rewrite merge_sort_Permutation.
    eapply sublist_NoDup; [exact Hnd|]. by apply fmap_sublist, sublist_filter. }
  eapply StronglySorted_unique_strong; [|exact Hf|by apply increasing_filter|].
  - intros x y _ _ Hxy Hyx. by pose proof (key_ltb_asym _ _ Hxy) as Hno; simpl in *; congruence.
  - by rewrite !merge_sort_Permutation.
Qed.

(** What lies after an element of a list with increasing keys. *)
Lemma after_split l1 x l2 :
  increasing (l1 ++ x :: l2) -> filter (fun y => key_ltb (key x) (key y)) (l1 ++ x :: l2) = l2.
Proof.
  intros H. rewrite filter_app, filter_cons, key_ltb_irrefl.
  apply StronglySorted_app in H as (H12 & _ & H2). apply StronglySorted_cons in H2 as [H2 _].
  replace (filter _ l1) with (@nil T).
  - simpl. rewrite Forall_forall in H2. clear H12. induction l2 as [|y l2 IH]; [done|].
    rewrite filter_cons, (H2 y) by set_solver. simpl. f_equal. apply IH. set_solver.
  - symmetry. induction l1 as [|y l1 IH]; [done|]. rewrite filter_cons.
    rewrite (key_ltb_asym (key y) (key x)) by (apply H12; set_solver). simpl.
    apply IH. set_solver.
Qed.

End Sorted.

(** ** Reading the log *)

(** The rows of one repository, and what its tables guarantee of them: the
    [CHECK] on the action, the column's width, and no two operations of one
    revision and index. *)
Definition repo_rows (oplog : list OplogRow) (space_id author_did : string) : list OplogRow :=
  filter (fun r => in_listing space_id author_did None r) oplog.

Definition row_ok (r : OplogRow) : Prop :=
  is_Some (action_parse (l_action r)) /\ I32_MIN <= l_idx r <= I32_MAX.

Definition log_ok (oplog : list OplogRow) (space_id author_did : string) : Prop :=
  Forall row_ok oplog /\ NoDup (row_key <$> repo_rows oplog space_id author_did).

(** The log of a repository in order. *)
Definition ordered (oplog : list OplogRow) (space_id author_did : string) : list OplogRow :=
  merge_sort (by_key row_key) (repo_rows oplog space_id author_did).

Definition is_after (k : option (string * Z)) (r : OplogRow) : bool :=
  match k with None => true | Some k => key_ltb k (row_key r) end.

Definition after (k : option (string * Z)) (l : list OplogRow) : list OplogRow :=
  filter (fun r => is_after k r) l.

Section Read.
Context (backend : DatabaseBackend) (oplog : list OplogRow) (space_id author_did : string).

Lemma listing_after cursor :
  NoDup (row_key <$> repo_rows oplog space_id author_did) ->
  merge_sort (by_key row_key) (filter (fun r => in_listing space_id author_did cursor r) oplog)
  = after (parse_cursor <$> cursor) (ordered oplog space_id author_did).
Proof.
  intros Hnd. unfold after, ordered. rewrite <- sort_filter by done. f_equal.
  unfold repo_rows. rewrite list_filter_filter. apply list_filter_iff. intros r.
  unfold in_listing. rewrite !andb_True. destruct cursor; simpl; tauto.
Qed.

Lemma collect_results_app {A B} (f : A -> result B AppError) l1 l2 bs1 bs2 :
  collect_results f l1 = Ok bs1 -> collect_results f l2 = Ok bs2 ->
  collect_results f (l1 ++ l2) = Ok (bs1 ++ bs2).
Proof.
  revert bs1. induction l1 as [|a l1 IH]; intros bs1 H1 H2; simpl in *; [by simplify_eq|].
  destruct (f a); [|done]. destruct (collect_results f l1); [|done]. simplify_eq. by rewrite (IH _ eq_refl H2).
Qed.

Lemma entries_of_rows rows :
  Forall row_ok rows ->
  exists es, collect_results (fun r => entry_of r None) rows = Ok es /\ row_of <$> es = rows.
Proof.
  induction 1 as [|r rows [[a Ha] _] _ (es & He & Hr)]; [by exists []|]. simpl.
  assert (Hstr : action_as_str a = l_action r).
  { revert Ha. unfold action_parse. repeat case_match; intros; simplify_eq; bool_prop; done. }
  unfold entry_of at 1. rewrite Ha, He. eexists. split; [done|]. rewrite fmap_cons, Hr. f_equal.
  destruct r. unfold row_of. simpl in *. by rewrite Hstr.
Qed.

Lemma filter_incl_ok P rows : Forall row_ok rows -> Forall row_ok (filter (fun r : OplogRow => Is_true (P r)) rows).
Proof. rewrite !Forall_forall. intros H r [_ Hr]%list_elem_of_filter. auto. Qed.

Context (Hok : log_ok oplog space_id author_did).

Lemma ordered_increasing :
  StronglySorted (fun a b => key_ltb (row_key a) (row_key b) = true) (ordered oplog space_id author_did).
Proof.
  apply sorted_distinct; [apply StronglySorted_merge_sort; apply _|].
  unfold ordered. rewrite merge_sort_Permutation. apply Hok.
Qed.

Lemma ordered_ok k : Forall row_ok (after k (ordered oplog space_id author_did)).
Proof.
  apply filter_incl_ok. unfold ordered. rewrite merge_sort_Permutation. apply filter_incl_ok, Hok.
Qed.

(** A page is the next [limit] rows after the cursor, and its cursor, where it
    has one, names its last row. *)
Lemma list_ops_page cursor limit :
  1 <= limit ->
  let rest := after (parse_cursor <$> cursor) (ordered oplog space_id author_did) in
  let page := take (Z.to_nat limit) rest in
  exists es, row_of <$> es = page
    /\ list_ops backend oplog space_id author_did cursor limit
       = Ok (es, if (length rest <=? Z.to_nat limit)%nat then None
                 else (fun r => encode_cursor (l_rev r) (l_idx r)) <$> last page).
Proof.
  intros Hl rest page. unfold list_ops. rewrite listing_after by apply Hok. fold rest.
  unfold sql_limit. rewrite (proj2 (Z.ltb_ge _ _)) by lia. unfold paginate.
  rewrite take_take, Z.max_l, Nat.min_l by lia. fold page.
  destruct (entries_of_rows page) as (es & He & Hes).
  { apply Forall_take, ordered_ok. }
  rewrite He. exists es. split; [done|]. do 2 f_equal. rewrite length_take.
  destruct (Nat.leb_spec (length rest) (Z.to_nat limit)).
  - by rewrite (proj2 (Z.ltb_ge _ _)) by lia.
  - by rewrite (proj2 (Z.ltb_lt _ _)) by lia.
Qed.

(** Past a full page the log goes on with the rows the page did not hold. *)
Lemma after_page k n x :
  let rest := after k (ordered oplog space_id author_did) in
  last (take n rest) = Some x ->
  after (Some (row_key x)) (ordered oplog space_id author_did) = drop n rest.
Proof.
  intros rest Hx. apply last_Some in Hx as [l1 Hl1].
  assert (Hrest : rest = l1 ++ x :: drop n rest).
  { by rewrite <- (take_drop n rest) at 1; rewrite Hl1, <- app_assoc. }
  assert (Hinc := increasing_filter row_key (is_after k)
    _ ordered_increasing). fold (after k (ordered oplog space_id author_did)) in Hinc. fold rest in Hinc.
  assert (Hin : x ∈ rest) by (rewrite Hrest; set_solver).
  transitivity (filter (fun y => Is_true (key_ltb (row_key x) (row_key y))) rest).
  - unfold rest, after. rewrite list_filter_filter. apply list_filter_iff. intros y.
    apply list_elem_of_filter in Hin as [Hk _]. destruct k as [k|]; simpl in *; [|tauto].
    split; [|tauto]. intros Hy. split; [done|]. apply Is_true_true.
    apply Is_true_true in Hk, Hy. by eapply key_ltb_trans.
  - rewrite Hrest in Hinc. rewrite Hrest at 1. by apply after_split.
Qed.

Lemma read_all_after limit : 1 <= limit ->
  forall fuel cursor,
  let rest := after (parse_cursor <$> cursor) (ordered oplog space_id author_did) in
  (length rest < fuel)%nat ->
  exists es, read_all backend fuel oplog space_id author_did cursor limit = Some (Ok es)
    /\ row_of <$> es = rest.
Proof.
  intros Hl. induction fuel as [|fuel IH]; intros cursor rest Hf; [lia|].
  destruct (list_ops_page cursor limit Hl) as (es & Hes & Hpage). fold rest in Hes, Hpage.
  simpl. rewrite Hpage. destruct (Nat.leb_spec (length rest) (Z.to_nat limit)) as [Hle|Hgt].
  - exists es. split; [done|]. rewrite Hes. by apply take_ge.
  - destruct (last (take (Z.to_nat limit) rest)) as [x|] eqn:Hx.
    2:{ apply last_None in Hx. apply (f_equal length) in Hx. rewrite length_take in Hx. simpl in Hx. lia. }
    assert (Hnext : after (parse_cursor <$> Some (encode_cursor (l_rev x) (l_idx x)))
                      (ordered oplog space_id author_did) = drop (Z.to_nat limit) rest).
    { simpl. rewrite parse_encode_cursor; [by apply after_page|].
      assert (Hxr : x ∈ rest).
      { apply last_Some_elem_of, elem_of_take in Hx as (i & Hi & _). by eapply list_elem_of_lookup_2. }
        pose proof (ordered_ok (parse_cursor <$> cursor)) as Hall. rewrite Forall_forall in Hall.
        by apply Hall. }
    simpl. destruct (IH (Some (encode_cursor (l_rev x) (l_idx x)))) as (es' & -> & Hes').
    { rewrite Hnext, length_drop. lia. }
    exists (es ++ es'). split; [done|]. by rewrite fmap_app, Hes, Hes', Hnext, take_drop.
Qed.

End Read.

(** Reading the log of a repository page by page, from the beginning or from
    any cursor, ends, and gives every operation after the cursor once, in the
    order of revision and index: no page boundary drops or repeats one. *)
Theorem reading_covers_the_log (backend : DatabaseBackend) (oplog : list OplogRow)
    (space_id author_did : string) (cursor : option string) (limit : option Z) (fuel : nat) :
  log_ok oplog space_id author_did -> (length oplog < fuel)%nat ->
  exists es,
    read_all backend fuel oplog space_id author_did cursor (page_limit limit) = Some (Ok es)
    /\ row_of <$> es ≡ₚ filter (fun r => in_listing space_id author_did cursor r) oplog
    /\ StronglySorted (fun a b => key_ltb (e_rev a, e_idx a) (e_rev b, e_idx b) = true) es.
Proof.
  intros Hok Hf. pose proof Hok as [_ Hnd].
  assert (Hperm := merge_sort_Permutation (by_key row_key)
    (filter (fun r => in_listing space_id author_did cursor r) oplog)).
  rewrite (listing_after oplog space_id author_did cursor Hnd) in Hperm.
  destruct (read_all_after backend oplog space_id author_did Hok (page_limit limit)
              ltac:(unfold page_limit; lia) fuel cursor) as (es & Hread & Hes).
  { rewrite Hperm. eapply Nat.le_lt_trans; [apply length_filter|done]. }
  exists es. split_and!; [done|by rewrite Hes|].
  assert (Hinc := increasing_filter row_key (is_after (parse_cursor <$> cursor)) _
    (ordered_increasing oplog space_id author_did Hok)).
  fold (after (parse_cursor <$> cursor) (ordered oplog space_id author_did)) in Hinc.
  rewrite <- Hes in Hinc. clear -Hinc. induction es as [|e es IH]; [constructor|].
  rewrite fmap_cons, StronglySorted_cons in Hinc. destruct Hinc as [H1 H2].
  constructor; [by apply IH|]. by rewrite Forall_fmap in H1.
Qed.

Module Sample.

Definition op (id rev : string) (idx : Z) (action : string) : OplogRow :=
  {| l_id := id; l_space_id := "s"; l_author_did := "did:plc:a"; l_rev := rev; l_idx := idx; l_action := action;
     l_collection := "c.n"; l_rkey := "k"; l_cid := Some "bafy"; l_prev := None; l_created_at := "t" |}.

Definition log : list OplogRow :=
  [op "3" "3k3" 0 "update"; op "1" "3k2" 0 "create"; op "2" "3k2" 1 "update"].

End Sample.

Lemma reading_covers_the_log_witness :
  exists es, read_all Sqlite 4 Sample.log "s" "did:plc:a" None 1 = Some (Ok es)
    /\ row_of <$> es ≡ₚ Sample.log.
Proof.
  destruct (reading_covers_the_log Sqlite Sample.log "s" "did:plc:a" None (Some 1) 4) as (es & H & Hp & _).
  - split.
    + repeat apply Forall_cons_2; try apply Forall_nil_2; (split; [eexists; reflexivity|vm_compute; split; discriminate]).
    + apply (bool_decide_unpack _). vm_compute. exact I.
  - vm_compute. lia.
  - exists es. split; [exact H|]. exact Hp.
Defined.

(** A reader that asks for a page of no rows is told that the log ended. *)
Lemma empty_page backend oplog space_id author_did cursor :
  log_ok oplog space_id author_did ->
  list_ops backend oplog space_id author_did cursor 0 = Ok ([], None).
Proof.
  intros _. unfold list_ops, sql_limit. simpl. unfold paginate. simpl. by case_match.
Qed.

(** Appending an operation later than every operation a reader has seen puts it
    after the reader's cursor. *)
Lemma append_after oplog e oplog' space_id author_did k :
  append_op oplog e = Ok oplog' -> e_space_id e = space_id -> e_author_did e = author_did ->
  is_after k (row_of e) = true ->
  after k (ordered oplog' space_id author_did)
  ≡ₚ after k (ordered oplog space_id author_did) ++ [row_of e].
Proof.
  unfold append_op. case_match; [done|]. intros [= <-] Hs Ha Hk. unfold after, ordered.
  rewrite !merge_sort_Permutation. unfold repo_rows. rewrite !filter_app. apply Permutation_app; [done|].
  rewrite (filter_cons _ (row_of e)). rewrite decide_True.
  - simpl. rewrite filter_cons, decide_True; [done|]. by apply Is_true_true.
  - unfold in_listing, row_of; simpl. rewrite Hs, Ha, !String.eqb_refl. done.
Qed.
