(* ===== verification/SpaceCommit.v ===== *)
(** * Signed and authenticated commits of a space repository

    [src/spaces/commit.rs]: the signed context, the MAC and their verification;
    [src/spaces/space_mac.rs]: the commit a repository host authenticates with a
    MAC.  HKDF, HMAC and ECDSA are third-party: classes hold the functions the
    code calls, and hypotheses state what they promise. *)

From stdpp Require Import list strings pretty.
From Stdlib Require Import ZArith Lia.
From S2P Require Import Prelude RustStr Words SpaceTypes.

#[local] Open Scope Z_scope.

(** ** Third-party functions *)

Class Kdf : Type := {
  (* [Hkdf::from_prk(ikm)] and [expand(info)] to 32 bytes; [None] is an error *)
  hkdf_expand : list Z -> list Z -> option (list Z);
  hmac_sha256 : list Z -> list Z -> list Z;   (* key, message *)
}.

(** An ECDSA curve. *)
Record Ecdsa : Type := {
  signing_key : Type;
  verifying_key : Type;
  signature : Type;
  public : signing_key -> verifying_key;
  ec_sign : signing_key -> list Z -> signature;
  ec_verify : verifying_key -> list Z -> signature -> bool;
  normalize_s : signature -> signature;
  to_bytes : signature -> list Z;
  from_slice : list Z -> option signature;
}.

(** What the curve's crate documents: a signature survives its encoding, and a
    signature and its low-S form verify. *)
Definition ecdsa_ok (C : Ecdsa) : Prop :=
  (forall s, from_slice C (to_bytes C s) = Some s)
  /\ forall k m, ec_verify C (public C k) m (normalize_s C (ec_sign C k m)) = true.

(** ** Data *)

Record SignedCommit : Type := {
  c_ver : Z;
  c_hash : list Z;
  c_ikm : list Z;
  c_sig : list Z;
  c_mac : list Z;
  c_rev : string;
}.

(** [u16::to_be_bytes] *)
Definition be16 (v : Z) : list Z := [v / 256; v mod 256].

(** A length-prefixed field: [(bytes.len() as u16).to_be_bytes()], then the
    bytes. *)
Definition field (bytes : list Z) : list Z := be16 (wrap16 (len bytes)) ++ bytes.

Definition build_context (space_uri author_did rev : string) (ikm : list Z) : list Z :=
  str_bytes "atproto-space-v1" ++ field (str_bytes space_uri) ++ field (str_bytes author_did)
  ++ field (str_bytes rev) ++ field ikm.

(** [ct_eq] of [src/constant_time.rs]. *)
Definition ct_eq (a b : list Z) : bool := bool_decide (a = b).

Section Commit.
Context {K : Kdf} (P256 K256 : Ecdsa).

Definition derive_mac_key (ikm ctx : list Z) : result (list Z) AppError :=
  match hkdf_expand ikm ctx with
  | Some derived => Ok derived
  | None => Err (Internal "HKDF expand failed")
  end.

Definition compute_mac (ikm ctx hash : list Z) : result (list Z) AppError :=
  let? key := derive_mac_key ikm ctx in
  Ok (hmac_sha256 key hash).

(** [sign_commit]; [ikm] holds the 32 random bytes it draws. *)
Definition sign_commit (ikm hash : list Z) (space_uri author_did rev : string) (key : signing_key P256)
    : result SignedCommit AppError :=
  let ctx := build_context space_uri author_did rev ikm in
  let? mac := compute_mac ikm ctx hash in
  let sig := normalize_s P256 (ec_sign P256 key ctx) in
  Ok {| c_ver := 1; c_hash := hash; c_ikm := ikm; c_sig := to_bytes P256 sig; c_mac := mac; c_rev := rev |}.

Inductive SpaceVerifyingKey : Type :=
| P256Key (key : verifying_key P256)
| K256Key (key : verifying_key K256).

(** [SpaceVerifyingKey::verify] *)
Definition key_verifies (key : SpaceVerifyingKey) (message sig : list Z) : bool :=
  match key with
  | P256Key key =>
      match from_slice P256 sig with Some s => ec_verify P256 key message s | None => false end
  | K256Key key =>
      match from_slice K256 sig with
      | Some s => ec_verify K256 key message s || ec_verify K256 key message (normalize_s K256 s)
      | None => false
      end
  end.

Definition verify_commit (commit : SignedCommit) (space_uri author_did : string) (key : SpaceVerifyingKey)
    : result unit AppError :=
  if negb (c_ver commit =? 1) then Err (BadRequest ("unsupported commit version: " +:+ pretty (c_ver commit)))
  else
    let ctx := build_context space_uri author_did (c_rev commit) (c_ikm commit) in
    if negb (key_verifies key ctx (c_sig commit)) then Err (AuthError "commit signature verification failed")
    else
      let? expected := compute_mac (c_ikm commit) ctx (c_hash commit) in
      if negb (ct_eq expected (c_mac commit))
      then Err (AuthError "commit MAC verification failed: repo hash mismatch")
      else Ok tt.

End Commit.

(** ** MAC commits *)

Module SpaceMac.

Definition COMMIT_MAC_TYPE : string := "atproto-space-repo".

Record Commit : Type := {
  m_ver : Z;
  m_repo : string;
  m_space : string;
  m_rev : string;
  m_data : list Z;
}.

(** [u16::try_from(field.len())?], then the field. *)
Definition checked_field (text : string) : result (list Z) AppError :=
  if len (str_bytes text) <? U16 then Ok (be16 (len (str_bytes text)) ++ str_bytes text)
  else Err (BadRequest "commit field is too long to authenticate").

(** The message [commit_mac] authenticates. *)
Definition mac_message (commit : Commit) : result (list Z) AppError :=
  let? space := checked_field (m_space commit) in
  let? repo := checked_field (m_repo commit) in
  let? rev := checked_field (m_rev commit) in
  Ok (str_bytes (COMMIT_MAC_TYPE +:+ "-v" +:+ pretty (m_ver commit)) ++ space ++ repo ++ rev ++ m_data commit).

Section Mac.
Context {K : Kdf}.

Definition commit_mac (shared_secret : list Z) (commit : Commit) : result (list Z) AppError :=
  let? message := mac_message commit in
  Ok (hmac_sha256 shared_secret message).

Definition verify_mac_commit (commit : Commit) (space_uri author_did : string) (shared_secret mac : list Z)
    : result unit AppError :=
  if negb (m_ver commit =? 1) then Err (BadRequest ("unsupported commit version: " +:+ pretty (m_ver commit)))
  else if negb (m_repo commit =s author_did) || negb (m_space commit =s space_uri) then
    Err (AuthError "commit describes a different repo than the one requested")
  else
    let? expected := commit_mac shared_secret commit in
    if negb (ct_eq expected mac) then Err (AuthError "commit MAC verification failed") else Ok tt.

End Mac.

End SpaceMac.

(** ** Contexts *)

Lemma be16_inj v w : 0 <= v -> 0 <= w -> be16 v = be16 w -> v = w.
Proof. intros ? ? [= H1 H2]. rewrite (Z.div_mod v 256), (Z.div_mod w 256) by lia. congruence. Qed.

Lemma str_bytes_inj s t : str_bytes s = str_bytes t -> s = t.
Proof. intros H. rewrite <- (bytes_str_bytes s), H. apply bytes_str_bytes. Qed.

Lemma length_prefixed_inj x y r s :
  0 <= len x < U16 -> 0 <= len y < U16 ->
  be16 (len x) ++ x ++ r = be16 (len y) ++ y ++ s -> x = y /\ r = s.
Proof.
  intros Hx Hy H. apply app_inj_1 in H as [H1 H2]; [|done].
  apply be16_inj in H1; [|lia..]. apply app_inj_1 in H2; [done|]. unfold len in H1. lia.
Qed.

Lemma field_small x r : len x < U16 -> field x ++ r = be16 (len x) ++ x ++ r.
Proof.
  intros H. unfold field, wrap16. pose proof (len_nonneg x). by rewrite Z.mod_small, <- app_assoc by lia.
Qed.

Definition short (s : string) : Prop := Z.of_nat (String.length s) < U16.

Lemma short_len s : short s -> len (str_bytes s) < U16.
Proof. unfold short, len. by rewrite length_str_bytes. Qed.

Lemma field_inj x y r s : len x < U16 -> len y < U16 -> field x ++ r = field y ++ s -> x = y /\ r = s.
Proof.
  intros Hx Hy. rewrite !field_small by done. pose proof (len_nonneg x). pose proof (len_nonneg y).
  apply length_prefixed_inj; lia.
Qed.

Lemma build_context_inj s a r i s' a' r' i' :
  short s -> short a -> short r -> len i < U16 -> short s' -> short a' -> short r' -> len i' < U16 ->
  build_context s a r i = build_context s' a' r' i' -> s = s' /\ a = a' /\ r = r' /\ i = i'.
Proof.
  intros H1%short_len H2%short_len H3%short_len H4 H1'%short_len H2'%short_len H3'%short_len H4' H.
  unfold build_context in H. apply app_inv_head in H.
  apply field_inj in H as [Es H]; [|done..]. apply field_inj in H as [Ea H]; [|done..].
  apply field_inj in H as [Er H]; [|done..]. rewrite <- (app_nil_r (field i)), <- (app_nil_r (field i')) in H.
  apply field_inj in H as [Ei _]; [|done..].
  split_and!; eauto using str_bytes_inj.
Qed.

(** The context of a commit determines the space, the author, the revision
    and the key material while every field is shorter than 64 KiB, the
    lengths its prefixes can hold; a field of exactly 64 KiB has the prefix of
    an empty one. *)
Theorem context_determines_fields (s a r s' a' r' : string) (i i' : list Z) :
  (short s -> short a -> short r -> len i < U16 -> short s' -> short a' -> short r' -> len i' < U16 ->
   build_context s a r i = build_context s' a' r' i' -> s = s' /\ a = a' /\ r = r' /\ i = i')
  /\ forall x, len x = U16 -> field x = field [] ++ x.
Proof.
  split; [apply build_context_inj|]. intros x Hx. unfold field. by rewrite Hx.
Qed.

Lemma context_determines_fields_witness :
  build_context "a" "bc" "d" [] <> build_context "ab" "c" "d" [].
Proof.
  intros H. apply (context_determines_fields "a" "bc" "d" "ab" "c" "d" [] []) in H as [H _];
    try (vm_compute; reflexivity). discriminate H.
Defined.

(** ** Signed commits *)

Section Facts.
Context {K : Kdf} (P256 K256 : Ecdsa).

Lemma verify_commit_Ok commit space_uri author_did (key : SpaceVerifyingKey P256 K256) :
  verify_commit P256 K256 commit space_uri author_did key = Ok tt <->
  c_ver commit = 1
  /\ key_verifies P256 K256 key (build_context space_uri author_did (c_rev commit) (c_ikm commit)) (c_sig commit) = true
  /\ compute_mac (c_ikm commit) (build_context space_uri author_did (c_rev commit) (c_ikm commit)) (c_hash commit)
     = Ok (c_mac commit).
Proof.
  unfold verify_commit, ct_eq. destruct (Z.eqb_spec (c_ver commit) 1) as [->|]; simpl; [|naive_solver].
  destruct (key_verifies _ _ _ _ _); simpl; [|naive_solver].
  destruct (compute_mac _ _ _) as [mac|]; [|naive_solver].
  case_bool_decide; simpl; naive_solver congruence.
Qed.

(** A commit the instance signs verifies under its public key for the space
    and author it was signed for. *)
Theorem signed_commit_verifies (ikm hash : list Z) (space_uri author_did rev : string)
    (sk : signing_key P256) :
  ecdsa_ok P256 -> (forall info, is_Some (hkdf_expand ikm info)) ->
  exists commit,
    sign_commit P256 ikm hash space_uri author_did rev sk = Ok commit
    /\ c_rev commit = rev /\ c_hash commit = hash
    /\ verify_commit P256 K256 commit space_uri author_did (P256Key P256 K256 (public P256 sk)) = Ok tt.
Proof.
  intros [Hslice Hsign] Hkdf. unfold sign_commit.
  set (ctx := build_context space_uri author_did rev ikm).
  destruct (compute_mac ikm ctx hash) as [mac|e] eqn:Hmac.
  2:{ unfold compute_mac, derive_mac_key in Hmac. destruct (Hkdf ctx) as [d Hd]. by rewrite Hd in Hmac. }
  eexists. split; [done|]. simpl. split_and!; [done..|].
  apply verify_commit_Ok. simpl. rewrite Hslice, Hsign. done.
Qed.

(** A verified commit is bound to its repository and to its hash: the same
    commit verifying for another space or author of ordinary length is one
    signature valid for two messages, and another hash verifying with the same
    context and MAC is an HMAC collision. *)
Theorem verified_commit_is_bound (commit commit' : SignedCommit) (space space' author author' : string)
    (key : SpaceVerifyingKey P256 K256) :
  short space -> short author -> short space' -> short author' ->
  short (c_rev commit) -> len (c_ikm commit) < U16 ->
  verify_commit P256 K256 commit space author key = Ok tt ->
  (verify_commit P256 K256 commit space' author' key = Ok tt ->
   (space = space' /\ author = author')
   \/ exists m m', m <> m' /\ key_verifies P256 K256 key m (c_sig commit) = true
                /\ key_verifies P256 K256 key m' (c_sig commit) = true)
  /\ (verify_commit P256 K256 commit' space author key = Ok tt ->
      c_rev commit' = c_rev commit -> c_ikm commit' = c_ikm commit -> c_mac commit' = c_mac commit ->
      c_hash commit' = c_hash commit
      \/ exists k, c_hash commit' <> c_hash commit
                /\ hmac_sha256 k (c_hash commit') = hmac_sha256 k (c_hash commit)).
Proof.
  intros Hs Ha Hs' Ha' Hr Hi (Hv & Hsig & Hmac)%verify_commit_Ok. split.
  - intros (_ & Hsig' & _)%verify_commit_Ok.
    destruct (decide (build_context space author (c_rev commit) (c_ikm commit)
                      = build_context space' author' (c_rev commit) (c_ikm commit))) as [E|E].
    + left. by apply build_context_inj in E as (? & ? & _).
    + right. eauto.
  - intros (_ & _ & Hmac')%verify_commit_Ok Er Ei Em. rewrite Er, Ei, Em in Hmac'.
    destruct (decide (c_hash commit' = c_hash commit)) as [|Hne]; [by left|]. right.
    unfold compute_mac in *. destruct (derive_mac_key _ _) as [k|]; [|done]. exists k. split; [done|]. congruence.
Qed.

End Facts.

(** ** MAC commits *)

Lemma checked_field_Ok text bytes :
  SpaceMac.checked_field text = Ok bytes ->
  len (str_bytes text) < U16 /\ bytes = be16 (len (str_bytes text)) ++ str_bytes text.
Proof. unfold SpaceMac.checked_field. destruct (Z.ltb_spec (len (str_bytes text)) U16); naive_solver. Qed.

(** What the message of a commit holds. *)
Lemma mac_message_Ok c m :
  SpaceMac.mac_message c = Ok m ->
  short (SpaceMac.m_space c) /\ short (SpaceMac.m_repo c) /\ short (SpaceMac.m_rev c)
  /\ m = str_bytes (SpaceMac.COMMIT_MAC_TYPE +:+ "-v" +:+ pretty (SpaceMac.m_ver c))
         ++ field (str_bytes (SpaceMac.m_space c)) ++ field (str_bytes (SpaceMac.m_repo c))
         ++ field (str_bytes (SpaceMac.m_rev c)) ++ SpaceMac.m_data c.
Proof.
  unfold SpaceMac.mac_message, short. rewrite <- !length_str_bytes.
  destruct (SpaceMac.checked_field (SpaceMac.m_space c)) eqn:E1; [|done].
  destruct (SpaceMac.checked_field (SpaceMac.m_repo c)) eqn:E2; [|done].
  destruct (SpaceMac.checked_field (SpaceMac.m_rev c)) eqn:E3; [|done].
  apply checked_field_Ok in E1 as [? ->], E2 as [? ->], E3 as [? ->].
  intros [= <-]. by rewrite !field_small by done.
Qed.

Lemma mac_message_inj c c' m :
  SpaceMac.m_ver c = SpaceMac.m_ver c' -> SpaceMac.mac_message c = Ok m -> SpaceMac.mac_message c' = Ok m -> c = c'.
Proof.
  intros Hv (H1%short_len & H2%short_len & H3%short_len & ->)%mac_message_Ok
    (H1'%short_len & H2'%short_len & H3'%short_len & H)%mac_message_Ok.
  rewrite Hv in H. apply app_inv_head in H.
  apply field_inj in H as [Es H]; [|done..]. apply field_inj in H as [Er H]; [|done..].
  apply field_inj in H as [Ev H]; [|done..].
  destruct c, c'; simpl in *. apply str_bytes_inj in Es, Er, Ev. congruence.
Qed.

(** A MAC a host sent with a commit authenticates that commit alone: it names
    the repository that was asked for, and a second commit accepted with the
    same MAC and secret is the same commit or an HMAC collision.  A field too
    long for its length prefix is refused. *)
Theorem mac_commit_is_bound {K : Kdf} (c c' : SpaceMac.Commit) (space author : string) (secret mac : list Z) :
  SpaceMac.verify_mac_commit c space author secret mac = Ok tt ->
  SpaceMac.m_repo c = author /\ SpaceMac.m_space c = space /\ SpaceMac.m_ver c = 1
  /\ short space /\ short author /\ short (SpaceMac.m_rev c)
  /\ (SpaceMac.verify_mac_commit c' space author secret mac = Ok tt ->
      c' = c \/ exists m m', m <> m' /\ hmac_sha256 secret m = hmac_sha256 secret m').
Proof.
  assert (Hok : forall c, SpaceMac.verify_mac_commit c space author secret mac = Ok tt ->
    SpaceMac.m_ver c = 1 /\ SpaceMac.m_repo c = author /\ SpaceMac.m_space c = space
    /\ exists m, SpaceMac.mac_message c = Ok m /\ hmac_sha256 secret m = mac).
  { intros d. unfold SpaceMac.verify_mac_commit, SpaceMac.commit_mac, ct_eq.
    destruct (Z.eqb_spec (SpaceMac.m_ver d) 1); simpl; [|done].
    destruct (String.eqb_spec (SpaceMac.m_repo d) author); simpl; [|done].
    destruct (String.eqb_spec (SpaceMac.m_space d) space); simpl; [|done].
    destruct (SpaceMac.mac_message d) as [m|]; [|done]. case_bool_decide; [|done]. eauto 10. }
  intros (Hv & <- & <- & m & Hm & Hmac)%Hok.
  destruct (mac_message_Ok c m Hm) as (Hs & Hr & Hrev & _).
  split_and!; [done..|].
  intros (Hv' & _ & _ & m' & Hm' & Hmac')%Hok. destruct (decide (m' = m)) as [->|Hne].
  - left. eapply mac_message_inj; [|done..]. congruence.
  - right. exists m', m. split; [done|congruence].
Qed.

(** ** Witnesses *)

Module Toy.

#[export] Instance kdf : Kdf := {| hkdf_expand := fun k i => Some (k ++ i); hmac_sha256 := fun k m => k ++ m |}.

Definition curve : Ecdsa :=
  {| signing_key := unit; verifying_key := unit; signature := list Z; public := fun k => k;
     ec_sign := fun _ m => m; ec_verify := fun _ m s => bool_decide (m = s); normalize_s := fun s => s;
     to_bytes := fun s => s; from_slice := Some |}.

Lemma curve_ok : ecdsa_ok curve.
Proof. split; [done|]. intros k m. by apply bool_decide_eq_true. Qed.

Definition signed : result SignedCommit AppError :=
  sign_commit curve [1; 2] [3; 4] "at://did:plc:a/space/c.f/main" "did:plc:b" "3k2" tt.

Definition macced : SpaceMac.Commit :=
  {| SpaceMac.m_ver := 1; SpaceMac.m_repo := "did:plc:b"; SpaceMac.m_space := "s"; SpaceMac.m_rev := "3k2";
     SpaceMac.m_data := [7] |}.

End Toy.

Lemma signed_commit_verifies_witness :
  exists commit,
    Toy.signed = Ok commit
    /\ verify_commit (K := Toy.kdf) Toy.curve Toy.curve commit "at://did:plc:a/space/c.f/main" "did:plc:b"
         (P256Key Toy.curve Toy.curve tt) = Ok tt.
Proof.
  destruct (signed_commit_verifies (K := Toy.kdf) Toy.curve Toy.curve [1; 2] [3; 4]
    "at://did:plc:a/space/c.f/main" "did:plc:b" "3k2" tt Toy.curve_ok) as (commit & Hs & _ & _ & Hv).
  - intros info. eexists. reflexivity.
  - exists commit. exact (conj Hs Hv).
Defined.

Definition toy_commit : SignedCommit :=
  match Toy.signed with
  | Ok commit => commit
  | Err _ => {| c_ver := 0; c_hash := []; c_ikm := []; c_sig := []; c_mac := []; c_rev := EmptyString |}
  end.

Lemma verified_commit_is_bound_witness :
  c_hash toy_commit = c_hash toy_commit
  \/ exists k, c_hash toy_commit <> c_hash toy_commit
     /\ @hmac_sha256 Toy.kdf k (c_hash toy_commit) = @hmac_sha256 Toy.kdf k (c_hash toy_commit).
Proof.
  apply (verified_commit_is_bound (K := Toy.kdf) Toy.curve Toy.curve toy_commit toy_commit
           "at://did:plc:a/space/c.f/main" "s" "did:plc:b" "a" (P256Key Toy.curve Toy.curve tt));
    vm_compute; reflexivity.
Defined.

Lemma mac_commit_is_bound_witness : SpaceMac.m_repo Toy.macced = "did:plc:b" /\ short "s".
Proof.
  destruct (mac_commit_is_bound (K := Toy.kdf) Toy.macced Toy.macced "s" "did:plc:b" [9]
    (match SpaceMac.commit_mac (K := Toy.kdf) [9] Toy.macced with Ok m => m | Err _ => [] end))
    as (H & _ & _ & Hs & _); [vm_compute; reflexivity|]. exact (conj H Hs).
Defined.
