(* ===== verification/SpaceWriters.v ===== *)
(** * The writers of a space

    [src/spaces/writers.rs]: the space host's table of the repositories that
    wrote to each space, and the space revision that orders their updates.  The
    clock is an argument: the time in microseconds, the TID and the timestamp
    text of the moment. *)

From stdpp Require Import list strings gmap sorting.
From Stdlib Require Import ZArith Lia.
From S2P Require Import Prelude RustStr Words Tombstones Tid SpaceTypes.

#[local] Open Scope Z_scope.

(** ** Definitions *)

Definition MAX_REV_CLOCK_SKEW_MICROS : Z := 5 * 60 * 1000000.

Inductive Recorded : Type :=
| Advanced (space_rev : string) (prev_space_rev : option string)
| Stale.

(** A row of [happyview_space_writers], under its primary key
    [(space_id, repo_did)]. *)
Record WriterRow : Type := {
  w_rev : string;
  w_hash : list Z;
  w_space_rev : string;
  w_updated_at : string;
}.

Abbreviation WritersTable := (gmap (string * string) WriterRow).

(** The moment an operation reads the clock: [chrono::Utc::now()],
    [generate_tid()] and [now_rfc3339()]. *)
Record Moment : Type := { now_micros : Z; now_tid : string; now_rfc3339 : string }.

(** [SELECT MAX(space_rev) ... WHERE space_id = ?] *)
Definition max_rev (a : string) (b : option string) : option string :=
  match b with
  | Some b => if rev_le a b then Some b else Some a
  | None => Some a
  end.

Definition space_revs (t : WritersTable) (space_id : string) : list string :=
  (fun p => w_space_rev p.2) <$> filter (fun p => p.1.1 = space_id) (map_to_list t).

Definition max_space_rev (t : WritersTable) (space_id : string) : option string :=
  foldr max_rev None (space_revs t space_id).

(** [next_space_rev]; [prev + 1] is a [u64]'s. *)
Definition next_space_rev (now : string) (prev : option string) : string :=
  match prev ≫= tid_to_number with
  | Some prev =>
      if match tid_to_number now with Some now => now <=? prev | None => false end
      then tid_from_number (wrap64 (prev + 1))
      else now
  | None => now
  end.

(** [record] *)
Definition record (m : Moment) (t : WritersTable) (space_id repo rev : string) (hash : list Z)
    : result (WritersTable * Recorded) AppError :=
  match tid_to_unix_microseconds rev with
  | None => Err (BadRequest "rev is not a TID")
  | Some rev_micros =>
      if now_micros m + MAX_REV_CLOCK_SKEW_MICROS <? rev_micros then
        Err (XrpcError 400 "FutureRev" "the repo revision exceeds the permitted clock skew")
      else if match t !! (space_id, repo) with Some held => rev_le rev (w_rev held) | None => false end then
        Ok (t, Stale)
      else
        let prev_space_rev := max_space_rev t space_id in
        let space_rev := next_space_rev (now_tid m) prev_space_rev in
        let row := {| w_rev := rev; w_hash := hash; w_space_rev := space_rev; w_updated_at := now_rfc3339 m |} in
        Ok (<[(space_id, repo) := row]> t, Advanced space_rev prev_space_rev)
  end.

(** [replace_hash] *)
Definition replace_hash (m : Moment) (t : WritersTable) (space_id repo rev : string) (hash : list Z)
    : WritersTable :=
  match t !! (space_id, repo) with
  | Some row =>
      if w_rev row =s rev then
        <[(space_id, repo) := {| w_rev := w_rev row; w_hash := hash; w_space_rev := w_space_rev row;
                                 w_updated_at := now_rfc3339 m |}]> t
      else t
  | None => t
  end.

Record Writer : Type := { wr_repo_did : string; wr_rev : string; wr_hash : list Z; wr_space_rev : string }.

Definition by_space_rev (a b : string * string * WriterRow) : Prop :=
  rev_le (w_space_rev a.2) (w_space_rev b.2) = true.

#[global] Instance by_space_rev_dec a b : Decision (by_space_rev a b).
Proof. unfold by_space_rev. apply _. Defined.

(** [list]: the writers sequenced after a space revision, in their order. *)
Definition list_writers (t : WritersTable) (space_id : string) (after : option string) (limit : nat)
    : list Writer :=
  let rows := filter (fun p => p.1.1 = space_id) (map_to_list t) in
  let rows := filter (fun p => match after with
                               | Some after => rev_lt after (w_space_rev p.2)
                               | None => true
                               end = true) rows in
  (fun p => {| wr_repo_did := p.1.2; wr_rev := w_rev p.2; wr_hash := w_hash p.2; wr_space_rev := w_space_rev p.2 |})
  <$> take limit (merge_sort by_space_rev rows).

(** A run of reports, with the outcome of each. *)
Record Report : Type := {
  rp_moment : Moment;
  rp_space : string;
  rp_repo : string;
  rp_rev : string;
  rp_hash : list Z;
}.

Fixpoint run_reports (t : WritersTable) (l : list Report)
    : WritersTable * list (string * result Recorded AppError) :=
  match l with
  | [] => (t, [])
  | r :: l' =>
      match record (rp_moment r) t (rp_space r) (rp_repo r) (rp_rev r) (rp_hash r) with
      | Ok (t', out) => let '(t'', outs) := run_reports t' l' in (t'', (rp_space r, Ok out) :: outs)
      | Err e => let '(t'', outs) := run_reports t l' in (t'', (rp_space r, Err e) :: outs)
      end
  end.

(** ** The largest space revision *)

Lemma rev_le_total a b : rev_le a b = true \/ rev_le b a = true.
Proof. unfold rev_le. rewrite !bool_decide_eq_true. apply (total String.le). Qed.

Lemma max_rev_spec l r :
  foldr max_rev None l = Some r -> r ∈ l /\ Forall (fun x => rev_le x r = true) l.
Proof.
  revert r. induction l as [|x l IH]; intros r; simpl; [done|].
  destruct (foldr max_rev None l) as [b|] eqn:E; simpl.
  - specialize (IH b eq_refl) as [Hin Hall]. destruct (rev_le x b) eqn:Hx; intros [= <-].
    + split; [set_solver|]. by constructor.
    + split; [set_solver|]. destruct (rev_le_total x b) as [?|Hb]; [congruence|].
      constructor; [apply rev_le_refl|]. eapply Forall_impl; [exact Hall|]. intros y Hy.
      by apply (rev_le_trans _ b).
  - intros [= <-]. destruct l as [|y l]; [|simpl in E; destruct (foldr max_rev None l); simpl in E; by try case_match].
    split; [set_solver|]. constructor; [apply rev_le_refl|constructor].
Qed.

Lemma max_rev_None l : foldr max_rev None l = None -> l = [].
Proof. destruct l as [|x l]; simpl; [done|]. destruct (foldr max_rev None l); simpl; by try case_match. Qed.

Lemma elem_space_revs t space_id r :
  r ∈ space_revs t space_id <-> exists repo row, t !! (space_id, repo) = Some row /\ w_space_rev row = r.
Proof.
  unfold space_revs. rewrite list_elem_of_fmap. split.
  - intros ([[s repo] row] & -> & Hin). apply list_elem_of_filter in Hin as [Hs Hin]. simpl in Hs. subst.
    apply elem_of_map_to_list in Hin. eauto.
  - intros (repo & row & Hrow & <-). exists ((space_id, repo), row). split; [done|].
    apply list_elem_of_filter. split; [done|]. by apply elem_of_map_to_list.
Qed.

Lemma max_space_rev_unique t space_id r :
  r ∈ space_revs t space_id -> (forall x, x ∈ space_revs t space_id -> rev_le x r = true) ->
  max_space_rev t space_id = Some r.
Proof.
  intros Hin Hmax. unfold max_space_rev. destruct (foldr max_rev None _) as [b|] eqn:E.
  - apply max_rev_spec in E as [Hb Hall]. rewrite Forall_forall in Hall. f_equal. apply rev_le_antisym; auto.
  - apply max_rev_None in E. rewrite E in Hin. by apply not_elem_of_nil in Hin.
Qed.

(** ** TIDs *)

Lemma tid_rev_le v w :
  0 <= v < U64 -> 0 <= w < U64 -> rev_le (tid_from_number v) (tid_from_number w) = (v <=? w).
Proof.
  intros Hv Hw. unfold rev_le, String.le, String.leb, tid_from_number. rewrite encode_compare by done.
  unfold Z.leb. by destruct (v ?= w).
Qed.

Lemma tid_number n : 0 <= n < U64 -> tid_to_number (tid_from_number n) = Some n.
Proof. apply decode_encode_tid. Qed.

#[local] Opaque tid_from_number tid_to_number.

Definition tid_upto (B : Z) (s : string) : Prop := exists n, 0 <= n <= B /\ s = tid_from_number n.

(** The next space revision follows the previous one. *)
Lemma next_space_rev_spec B now prev :
  B + 1 < U64 -> tid_upto B now -> (forall p, prev = Some p -> tid_upto B p) ->
  tid_upto (B + 1) (next_space_rev now prev)
  /\ forall p, prev = Some p -> rev_lt p (next_space_rev now prev) = true.
Proof.
  intros HB (n & Hn & ->) Hprev. unfold next_space_rev. destruct prev as [p|]; simpl.
  - destruct (Hprev p eq_refl) as (k & Hk & ->).
    rewrite !tid_number by lia.
    destruct (Z.leb_spec n k) as [Hle|Hlt].
    + unfold wrap64. rewrite Z.mod_small by lia. split; [exists (k + 1); split; [lia|done]|].
      intros ? [= <-]. apply rev_lt_spec. rewrite tid_rev_le by lia. apply Z.leb_gt. lia.
    + split; [exists n; split; [lia|done]|].
      intros ? [= <-]. apply rev_lt_spec. rewrite tid_rev_le by lia. apply Z.leb_gt. lia.
  - split; [exists n; split; [lia|done]|done].
Qed.

(** ** Sequencing *)

(** Every space revision of the table is a TID at most [B]. *)
Definition revs_upto (B : Z) (t : WritersTable) : Prop := map_Forall (fun _ row => tid_upto B (w_space_rev row)) t.

Lemma tid_upto_mono B B' s : B <= B' -> tid_upto B s -> tid_upto B' s.
Proof. intros ? (n & ? & ->). exists n. split; [lia|done]. Qed.

Lemma revs_upto_mono B B' t : B <= B' -> revs_upto B t -> revs_upto B' t.
Proof. intros HB Ht k row Hrow. eapply tid_upto_mono; [done|]. by eapply Ht. Qed.

Lemma max_space_rev_upto B t space_id p :
  revs_upto B t -> max_space_rev t space_id = Some p -> tid_upto B p.
Proof.
  intros Ht [Hin _]%max_rev_spec. apply elem_space_revs in Hin as (repo & row & Hrow & <-). by eapply Ht.
Qed.

(** What an accepted report does. *)
Lemma record_Advanced B m t space_id repo rev hash t' space_rev prev :
  B + 1 < U64 -> revs_upto B t -> tid_upto B (now_tid m) ->
  record m t space_id repo rev hash = Ok (t', Advanced space_rev prev) ->
  prev = max_space_rev t space_id
  /\ t' = <[(space_id, repo) := {| w_rev := rev; w_hash := hash; w_space_rev := space_rev;
                                  w_updated_at := now_rfc3339 m |}]> t
  /\ tid_upto (B + 1) space_rev
  /\ (forall x, x ∈ space_revs t space_id -> rev_lt x space_rev = true)
  /\ max_space_rev t' space_id = Some space_rev
  /\ (forall held, t !! (space_id, repo) = Some held -> rev_lt (w_rev held) rev = true).
Proof.
  intros HB Ht Hnow H. unfold record in H. destruct (tid_to_unix_microseconds rev); [|done].
  case_match; [done|]. case_match eqn:Hheld; [done|]. injection H as <- Hsr <-.
  destruct (next_space_rev_spec B (now_tid m) (max_space_rev t space_id) HB Hnow) as [Hup Hlt].
  { intros p. by apply max_space_rev_upto. }
  rewrite Hsr in Hup, Hlt |- *.
  assert (Hgt : forall x, x ∈ space_revs t space_id -> rev_lt x space_rev = true).
  { intros x Hx. destruct (max_space_rev t space_id) as [p|] eqn:Hp.
    - apply max_rev_spec in Hp as [_ Hall]. rewrite Forall_forall in Hall.
      eapply rev_le_lt_trans; [by apply Hall|]. by apply Hlt.
    - apply max_rev_None in Hp. rewrite Hp in Hx. by apply not_elem_of_nil in Hx. }
  split_and!; [done..| |].
  - apply max_space_rev_unique.
    + apply elem_space_revs. exists repo. eexists. split; [apply lookup_insert_eq|done].
    + intros x Hx. apply elem_space_revs in Hx as (repo' & row & Hrow & <-).
      apply lookup_insert_Some in Hrow as [[_ <-]|[_ Hrow]]; [apply rev_le_refl|].
      apply rev_lt_le, Hgt, elem_space_revs. eauto.
  - intros held Hh. rewrite Hh in Hheld. by apply rev_lt_spec.
Qed.

Lemma record_other m t space_id repo rev hash t' out space :
  record m t space_id repo rev hash = Ok (t', out) -> space <> space_id ->
  max_space_rev t' space = max_space_rev t space.
Proof.
  intros H Hne. unfold record in H. destruct (tid_to_unix_microseconds rev); [|done].
  case_match; [done|]. case_match; injection H as <- _; [done|]. unfold max_space_rev.
  assert (Heq : forall x, x ∈ space_revs (<[(space_id, repo) :=
    {| w_rev := rev; w_hash := hash; w_space_rev := next_space_rev (now_tid m) (max_space_rev t space_id);
       w_updated_at := now_rfc3339 m |}]> t) space <-> x ∈ space_revs t space).
  { intros x. rewrite !elem_space_revs. split; intros (repo' & row & Hrow & Hx); exists repo', row;
      (split; [|done]); [rewrite lookup_insert_ne in Hrow by congruence|rewrite lookup_insert_ne by congruence]; done. }
  destruct (foldr max_rev None (space_revs t space)) as [r|] eqn:E.
  - apply max_rev_spec in E as [Hin Hall]. rewrite Forall_forall in Hall. apply max_space_rev_unique.
    + by apply Heq.
    + intros x Hx. by apply Hall, Heq.
  - apply max_rev_None in E. destruct (space_revs (<[_ := _]> t) space) as [|x l]; [done|].
    assert (Hx : x ∈ space_revs t space) by (apply Heq; set_solver). rewrite E in Hx. by apply not_elem_of_nil in Hx.
Qed.

(** Consecutive updates of a space: each names the revision before it. *)
Fixpoint chained (prev : option string) (l : list (string * option string)) : option string -> Prop :=
  match l with
  | [] => fun last => prev = last
  | (space_rev, p) :: l' => fun last =>
      p = prev /\ (forall q, prev = Some q -> rev_lt q space_rev = true) /\ chained (Some space_rev) l' last
  end.

Definition advances (space : string) (outs : list (string * result Recorded AppError))
    : list (string * option string) :=
  omap (fun o => match o with
                 | (s, Ok (Advanced space_rev prev)) => if s =s space then Some (space_rev, prev) else None
                 | _ => None
                 end) outs.

(** The notifications of a space form an unbroken chain: over any run of
    reports, to any spaces, each accepted one is stamped with a space revision
    after every one before it and names its predecessor, so a syncer that sees
    a gap has missed an update; and the last revision is the table's largest. *)
Theorem space_revisions_chain (t : WritersTable) (l : list Report) (B : Z) (space : string) :
  revs_upto B t -> Forall (fun r => tid_upto B (now_tid (rp_moment r))) l -> B + Z.of_nat (length l) < U64 ->
  let '(t', outs) := run_reports t l in
  chained (max_space_rev t space) (advances space outs) (max_space_rev t' space).
Proof.
  revert t B. induction l as [|r l IH]; intros t B Ht Hl HB; simpl; [done|].
  inversion Hl as [|? ? Hr Hl']; subst. simpl in HB.
  assert (Hl1 : Forall (fun r => tid_upto (B + 1) (now_tid (rp_moment r))) l).
  { eapply Forall_impl; [exact Hl'|]. intros x Hx. apply (tid_upto_mono B); [lia|exact Hx]. }
  destruct (record _ _ _ _ _ _) as [[t1 out]|e] eqn:Hrec.
  - assert (Ht1 : revs_upto (B + 1) t1).
    { destruct out as [sr prev|].
      - apply (record_Advanced B) in Hrec as (_ & -> & Hsr & _); [|lia|done|done].
        apply map_Forall_insert_2; [done|]. apply (revs_upto_mono B); [lia|done].
      - unfold record in Hrec. destruct (tid_to_unix_microseconds _); [|done]. case_match; [done|].
        case_match; [|done]. injection Hrec as <-. apply (revs_upto_mono B); [lia|done]. }
    specialize (IH t1 (B + 1) Ht1 Hl1 ltac:(lia)). destruct (run_reports t1 l) as [t' outs] eqn:Hrun.
    simpl. destruct (String.eqb_spec (rp_space r) space) as [<-|Hne].
    + destruct out as [sr prev|].
      * apply (record_Advanced B) in Hrec as (-> & _ & _ & Hgt & Hmax & _); [|lia|done|done].
        simpl. split_and!; [done| |by rewrite <- Hmax].
        intros q [Hq _]%max_rev_spec. by apply Hgt.
      * unfold record in Hrec. destruct (tid_to_unix_microseconds _); [|done]. case_match; [done|].
        case_match; [|done]. by injection Hrec as <-.
    + rewrite (record_other _ _ _ _ _ _ _ _ space Hrec) in IH by congruence. by destruct out.
  - specialize (IH t B Ht Hl' ltac:(lia)). by destruct (run_reports t l) as [t' outs].
Qed.

Lemma record_row m t space_id repo rev hash t' out k :
  record m t space_id repo rev hash = Ok (t', out) ->
  t' !! k = t !! k
  \/ (k = (space_id, repo) /\ exists space_rev prev, out = Advanced space_rev prev
      /\ t' !! k = Some {| w_rev := rev; w_hash := hash; w_space_rev := space_rev; w_updated_at := now_rfc3339 m |}).
Proof.
  unfold record. destruct (tid_to_unix_microseconds rev); [|done]. case_match; [done|].
  case_match; intros [= <- <-]; [by left|].
  destruct (decide (k = (space_id, repo))) as [->|Hne]; [right|left].
  - split; [done|]. eexists _, _. split; [done|]. by rewrite lookup_insert_eq.
  - by rewrite lookup_insert_ne.
Qed.

(** Against the table [t0] a run started from: a row is the one it was or was
    sequenced after everything [t0] held of its space. *)
Definition run_from (t0 t : WritersTable) (space : string) : Prop :=
  (forall repo, t !! (space, repo) = t0 !! (space, repo)
     \/ exists row, t !! (space, repo) = Some row
        /\ forall x, x ∈ space_revs t0 space -> rev_lt x (w_space_rev row) = true)
  /\ forall x, x ∈ space_revs t0 space -> exists y, y ∈ space_revs t space /\ rev_le x y = true.

Lemma run_from_step B t0 t t' m space space_id repo rev hash out :
  B + 1 < U64 -> revs_upto B t -> tid_upto B (now_tid m) ->
  record m t space_id repo rev hash = Ok (t', out) ->
  run_from t0 t space -> run_from t0 t' space /\ revs_upto (B + 1) t'.
Proof.
  intros HB Ht Hm Hrec [Hrow Hmax].
  assert (Hcase : t' = t \/ exists sr prev, out = Advanced sr prev).
  { revert Hrec. unfold record. destruct (tid_to_unix_microseconds rev); [|done]. case_match; [done|].
    case_match; intros [= <- <-]; [by left|right; eauto]. }
  destruct Hcase as [->|(sr & prev & ->)].
  { split; [done|]. apply (revs_upto_mono B); [lia|done]. }
  destruct (record_Advanced B m t space_id repo rev hash t' sr prev HB Ht Hm Hrec)
    as (_ & Et & Hup & Hgt & Hnew & _).
  split; [|rewrite Et; apply map_Forall_insert_2; [done|]; apply (revs_upto_mono B); [lia|done]].
  split.
  - intros r. destruct (record_row _ _ _ _ _ _ _ _ (space, r) Hrec) as [->|(Ek & sr' & prev' & [= <- <-] & Hr)];
      [done|]. injection Ek as -> ->. right. eexists. split; [done|]. simpl. intros x Hx.
    destruct (Hmax x Hx) as (y & Hy & Hle). eapply rev_le_lt_trans; [done|]. by apply Hgt.
  - intros x Hx. destruct (Hmax x Hx) as (y & Hy & Hle). destruct (decide (space = space_id)) as [->|Hne].
    + exists sr. apply max_rev_spec in Hnew as [Hin _]. split; [done|].
      eapply rev_le_trans; [done|]. by apply rev_lt_le, Hgt.
    + exists y. split; [|done]. apply elem_space_revs in Hy as (r & row & Hr & <-). apply elem_space_revs.
      exists r, row. split; [|done]. rewrite Et. by rewrite lookup_insert_ne by congruence.
Qed.

Lemma run_from_reports t0 space l : forall B t,
  revs_upto B t -> Forall (fun r => tid_upto B (now_tid (rp_moment r))) l -> B + Z.of_nat (length l) < U64 ->
  run_from t0 t space -> run_from t0 (run_reports t l).1 space.
Proof.
  induction l as [|r l IH]; intros B t Ht Hl HB Hrun; [done|].
  inversion Hl as [|? ? Hr Hl']; subst. simpl in HB |- *.
  destruct (record _ _ _ _ _ _) as [[t1 out]|e] eqn:Hrec.
  - destruct (run_from_step B t0 t t1 (rp_moment r) space (rp_space r) (rp_repo r) (rp_rev r) (rp_hash r) out)
      as [H1 H2]; [lia|done..|].
    assert (Hl1 : Forall (fun r => tid_upto (B + 1) (now_tid (rp_moment r))) l).
    { eapply Forall_impl; [exact Hl'|]. intros x Hx. apply (tid_upto_mono B); [lia|exact Hx]. }
    specialize (IH (B + 1) t1 H2 Hl1 ltac:(lia) H1). by destruct (run_reports t1 l).
  - specialize (IH B t Ht Hl' ltac:(lia) Hrun). by destruct (run_reports t l).
Qed.

Lemma elem_list_writers t space after limit w :
  (size t <= limit)%nat ->
  w ∈ list_writers t space after limit <->
  exists row, t !! (space, wr_repo_did w) = Some row
    /\ w = {| wr_repo_did := wr_repo_did w; wr_rev := w_rev row; wr_hash := w_hash row; wr_space_rev := w_space_rev row |}
    /\ match after with Some a => rev_lt a (w_space_rev row) = true | None => True end.
Proof.
  intros Hlim. unfold list_writers. rewrite take_ge.
  2:{ rewrite merge_sort_Permutation. rewrite <- length_map_to_list in Hlim.
      etrans; [apply length_filter|]. etrans; [apply length_filter|done]. }
  rewrite list_elem_of_fmap. setoid_rewrite merge_sort_Permutation.
  setoid_rewrite list_elem_of_filter. setoid_rewrite list_elem_of_filter. setoid_rewrite elem_of_map_to_list'. split.
  - intros ([[s r] row] & -> & Ha & Hs & Hrow). simpl in *. subst s. exists row. split_and!; [done..|].
    by destruct after.
  - intros (row & Hrow & -> & Ha). exists ((space, wr_repo_did w), row). simpl. split_and!; [done| |done..].
    by destruct after.
Qed.

(** A syncer that missed notifications catches up by listing the writers after
    the last space revision it knew: whatever reports came since, the listing
    names exactly the repositories of the space whose row changed, each with
    its latest state. *)
Theorem listing_catches_up (t : WritersTable) (l : list Report) (B : Z) (space repo known : string) (limit : nat) :
  revs_upto B t -> Forall (fun r => tid_upto B (now_tid (rp_moment r))) l -> B + Z.of_nat (length l) < U64 ->
  max_space_rev t space = Some known -> (size (run_reports t l).1 <= limit)%nat ->
  (exists w, w ∈ list_writers (run_reports t l).1 space (Some known) limit /\ wr_repo_did w = repo)
  <-> (run_reports t l).1 !! (space, repo) <> t !! (space, repo).
Proof.
  intros Ht Hl HB Hknown Hlim.
  destruct (run_from_reports t space l B t Ht Hl HB) as [Hrow _].
  { split; [by left|]. intros x Hx. exists x. split; [done|]. apply rev_le_refl. }
  setoid_rewrite (elem_list_writers _ space (Some known) limit _ Hlim).
  apply max_rev_spec in Hknown as [Hin Hall]. rewrite Forall_forall in Hall.
  set (t' := (run_reports t l).1) in *. split.
  - intros (w & (row & Hr & _ & Ha) & <-) Heq. rewrite Heq in Hr.
    apply rev_lt_spec in Ha. rewrite (Hall (w_space_rev row)) in Ha; [done|]. apply elem_space_revs. eauto.
  - intros Hne. destruct (Hrow repo) as [|(row & Hr & Hgt)]; [done|].
    exists {| wr_repo_did := repo; wr_rev := w_rev row; wr_hash := w_hash row; wr_space_rev := w_space_rev row |}.
    split; [|done]. exists row. split_and!; [done..|]. by apply Hgt.
Qed.

(** ** Witnesses *)

Module SampleReports.

Definition report (space repo : string) (n : Z) : Report :=
  {| rp_moment := {| now_micros := 10; now_tid := tid_from_number 5; now_rfc3339 := "t" |};
     rp_space := space; rp_repo := repo; rp_rev := tid_from_number n; rp_hash := [n] |}.

Definition reports : list Report :=
  [report "s" "alice" 5; report "s" "bob" 6; report "u" "bob" 7; report "s" "alice" 5; report "s" "alice" 9].

Lemma clock_ok l : Forall (fun r => rp_moment r = rp_moment (report "s" "a" 0)) l ->
  Forall (fun r => tid_upto 5 (now_tid (rp_moment r))) l.
Proof. intros H. eapply Forall_impl; [exact H|]. intros r ->. exists 5. split; [lia|done]. Qed.

Definition start : WritersTable :=
  {[ ("s", "carol") := {| w_rev := tid_from_number 1; w_hash := [1]; w_space_rev := tid_from_number 2; w_updated_at := "t" |} ]}.

Lemma start_ok : revs_upto 5 start.
Proof. apply map_Forall_singleton. exists 2. split; [lia|done]. Qed.

End SampleReports.

Lemma space_revisions_chain_witness :
  let '(t', outs) := run_reports SampleReports.start SampleReports.reports in
  chained (Some (tid_from_number 2)) (advances "s" outs) (max_space_rev t' "s").
Proof.
  apply (space_revisions_chain SampleReports.start SampleReports.reports 5 "s" SampleReports.start_ok).
  - apply SampleReports.clock_ok. repeat constructor.
  - vm_compute. reflexivity.
Defined.

Lemma listing_catches_up_witness :
  (exists w, w ∈ list_writers (run_reports SampleReports.start SampleReports.reports).1 "s"
                (Some (tid_from_number 2)) 5 /\ wr_repo_did w = "bob")
  <-> (run_reports SampleReports.start SampleReports.reports).1 !! ("s", "bob") <> SampleReports.start !! ("s", "bob").
Proof.
  apply (listing_catches_up SampleReports.start SampleReports.reports 5 "s" "bob" (tid_from_number 2) 5
           SampleReports.start_ok).
  - apply SampleReports.clock_ok. repeat constructor.
  - vm_compute. reflexivity.
  - vm_compute. reflexivity.
  - vm_compute. lia.
Defined.

(** A report at or behind the revision held changes nothing and is not sequenced. *)
Lemma stale_report m t space_id repo rev hash held micros :
  t !! (space_id, repo) = Some held -> rev_le rev (w_rev held) = true ->
  tid_to_unix_microseconds rev = Some micros -> micros <= now_micros m + MAX_REV_CLOCK_SKEW_MICROS ->
  record m t space_id repo rev hash = Ok (t, Stale).
Proof.
  intros Hh Hle Hm Hs. unfold record. rewrite Hm, Hh, Hle. by rewrite (proj2 (Z.ltb_ge _ _)) by lia.
Qed.
