(* ===== verification/SpaceDb.v ===== *)
(** * The tables of spaces

    The parts of [src/spaces/db.rs] behind membership and record writes: spaces,
    members, invites, credentials, records and repository states, with the keys and foreign
    keys of the migrations.  A function is one statement or one transaction; a
    statement that fails for a reason outside the tables is not modelled, since
    every caller returns and drops its transaction.  Serde's JSON text codec is
    a parameter.  Space rows are kept parsed. *)

From stdpp Require Import list strings gmap sorting.
From Stdlib Require Import ZArith Lia.
From S2P Require Import Prelude RustStr Json Tombstones SpaceTypes SpaceOplog SpaceWriters.

#[local] Open Scope Z_scope.

(** ** Tables *)

Class Serde : Type := {
  to_string : value -> string;
  from_str : string -> option value;
}.

Record MemberRow : Type := {
  m_id : string;
  m_access : MemberAccess;
  m_is_delegation : bool;
  m_granted_by : option string;
  m_created_at : string;
}.

Record SpaceInvite : Type := {
  i_id : string;
  i_space_id : string;
  i_token_hash : string;
  i_created_by : string;
  i_access : MemberAccess;
  i_max_uses : option Z;
  i_uses : Z;
  i_expires_at : option string;
  i_revoked : bool;
  i_created_at : string;
}.

(** A row of [happyview_space_records] under its URI. *)
Record RecordRow : Type := {
  rr_space_id : string;
  rr_author_did : string;
  rr_collection : string;
  rr_rkey : string;
  rr_text : string;
  rr_cid : string;
  rr_indexed_at : string;
}.

(** A row of [happyview_space_credentials]. *)
Record CredentialRow : Type := {
  cr_space_id : string;
  cr_issued_to : string;
  cr_token_hash : string;
  cr_jti : option string;
  cr_expires_at : string;
  cr_revoked_at : option string;
}.

Record SpaceDb : Type := {
  d_spaces : gmap string Space;                          (* by id *)
  d_members : gmap (string * string) MemberRow;          (* by (space_id, member_did) *)
  d_invites : gmap string SpaceInvite;                   (* by id *)
  d_records : gmap string RecordRow;                     (* by uri *)
  d_repo_states : gmap (string * string) RepoState;      (* by (space_id, author_did) *)
  d_oplog : list OplogRow;
  d_writers : WritersTable;
  d_credentials : list CredentialRow;
}.

Definition with_spaces (db : SpaceDb) x : SpaceDb :=
  {| d_spaces := x; d_members := d_members db; d_invites := d_invites db; d_records := d_records db;
     d_repo_states := d_repo_states db; d_oplog := d_oplog db; d_writers := d_writers db;
     d_credentials := d_credentials db |}.
Definition with_members (db : SpaceDb) x : SpaceDb :=
  {| d_spaces := d_spaces db; d_members := x; d_invites := d_invites db; d_records := d_records db;
     d_repo_states := d_repo_states db; d_oplog := d_oplog db; d_writers := d_writers db;
     d_credentials := d_credentials db |}.
Definition with_invites (db : SpaceDb) x : SpaceDb :=
  {| d_spaces := d_spaces db; d_members := d_members db; d_invites := x; d_records := d_records db;
     d_repo_states := d_repo_states db; d_oplog := d_oplog db; d_writers := d_writers db;
     d_credentials := d_credentials db |}.
Definition with_records (db : SpaceDb) x : SpaceDb :=
  {| d_spaces := d_spaces db; d_members := d_members db; d_invites := d_invites db; d_records := x;
     d_repo_states := d_repo_states db; d_oplog := d_oplog db; d_writers := d_writers db;
     d_credentials := d_credentials db |}.
Definition with_repo_states (db : SpaceDb) x : SpaceDb :=
  {| d_spaces := d_spaces db; d_members := d_members db; d_invites := d_invites db; d_records := d_records db;
     d_repo_states := x; d_oplog := d_oplog db; d_writers := d_writers db;
     d_credentials := d_credentials db |}.
Definition with_oplog (db : SpaceDb) x : SpaceDb :=
  {| d_spaces := d_spaces db; d_members := d_members db; d_invites := d_invites db; d_records := d_records db;
     d_repo_states := d_repo_states db; d_oplog := x; d_writers := d_writers db;
     d_credentials := d_credentials db |}.
Definition with_writers (db : SpaceDb) x : SpaceDb :=
  {| d_spaces := d_spaces db; d_members := d_members db; d_invites := d_invites db; d_records := d_records db;
     d_repo_states := d_repo_states db; d_oplog := d_oplog db; d_writers := x;
     d_credentials := d_credentials db |}.
Definition with_credentials (db : SpaceDb) x : SpaceDb :=
  {| d_spaces := d_spaces db; d_members := d_members db; d_invites := d_invites db; d_records := d_records db;
     d_repo_states := d_repo_states db; d_oplog := d_oplog db; d_writers := d_writers db; d_credentials := x |}.

(** The foreign key of every table to its space. *)
Definition has_space (db : SpaceDb) (space_id : string) : bool := bool_decide (is_Some (d_spaces db !! space_id)).

(** ** Spaces *)

Definition get_space (db : SpaceDb) (id : string) : option Space := d_spaces db !! id.

Definition at_address (did type_nsid skey : string) (s : Space) : bool :=
  (s_did s =s did) && (s_type_nsid s =s type_nsid) && (s_skey s =s skey).

Definition get_space_by_address (db : SpaceDb) (did type_nsid skey : string) : option Space :=
  head (filter (fun s => at_address did type_nsid skey s) (map_to_list (d_spaces db)).*2).

Definition set_revision (revision : option string) (s : Space) : Space :=
  {| s_id := s_id s; s_did := s_did s; s_authority_did := s_authority_did s; s_creator_did := s_creator_did s;
     s_type_nsid := s_type_nsid s; s_skey := s_skey s; s_display_name := s_display_name s;
     s_description := s_description s; s_read_policy := s_read_policy s; s_write_policy := s_write_policy s;
     s_app_access := s_app_access s; s_config_extra := s_config_extra s; s_revision := revision |}.

(** [create_space]: the id is the primary key, the address is unique. *)
Definition create_space (db : SpaceDb) (space : Space) : result SpaceDb AppError :=
  if has_space db (s_id space)
     || bool_decide (is_Some (get_space_by_address db (s_did space) (s_type_nsid space) (s_skey space)))
  then Err (Internal "failed to create space")
  else Ok (with_spaces db (<[s_id space := set_revision None space]> (d_spaces db))).

(** [delete_space] and the cascade of every table's foreign key. *)
Definition delete_space (db : SpaceDb) (id : string) : SpaceDb * bool :=
  ({| d_spaces := delete id (d_spaces db);
      d_members := filter (fun p => p.1.1 <> id) (d_members db);
      d_invites := filter (fun p => i_space_id p.2 <> id) (d_invites db);
      d_records := filter (fun p => rr_space_id p.2 <> id) (d_records db);
      d_repo_states := filter (fun p => p.1.1 <> id) (d_repo_states db);
      d_oplog := filter (fun r => l_space_id r <> id) (d_oplog db);
      d_writers := filter (fun p => p.1.1 <> id) (d_writers db);
      d_credentials := filter (fun r => cr_space_id r <> id) (d_credentials db) |}, has_space db id).

Definition update_space_revision (db : SpaceDb) (space_id revision : string) : SpaceDb :=
  with_spaces db (alter (set_revision (Some revision)) space_id (d_spaces db)).

(** [update_space]: the descriptive columns of the row with the id. *)
Definition update_space (db : SpaceDb) (space : Space) : SpaceDb * bool :=
  (with_spaces db (alter (fun s =>
     {| s_id := s_id s; s_did := s_did s; s_authority_did := s_authority_did s; s_creator_did := s_creator_did s;
        s_type_nsid := s_type_nsid s; s_skey := s_skey s; s_display_name := s_display_name space;
        s_description := s_description space; s_read_policy := s_read_policy space;
        s_write_policy := s_write_policy space; s_app_access := s_app_access space;
        s_config_extra := s_config_extra space; s_revision := s_revision s |}) (s_id space) (d_spaces db)),
   has_space db (s_id space)).

(** ** Members *)

(** [add_member]: an upsert that keeps the stored [read_self]; [now] is the row's
    [created_at]. *)
Definition add_member (db : SpaceDb) (now space_id did : string) (member : MemberRow) : result SpaceDb AppError :=
  match d_members db !! (space_id, did) with
  | Some held =>
      Ok (with_members db (<[(space_id, did) :=
        {| m_id := m_id held;
           m_access := {| a_read := a_read (m_access member); a_write := a_write (m_access member);
                          a_read_self := a_read_self (m_access held) |};
           m_is_delegation := m_is_delegation member; m_granted_by := m_granted_by held;
           m_created_at := m_created_at held |}]> (d_members db)))
  | None =>
      if negb (has_space db space_id) || existsb (fun p => m_id p.2 =s m_id member) (map_to_list (d_members db))
      then Err (Internal "failed to add member")
      else Ok (with_members db (<[(space_id, did) :=
        {| m_id := m_id member; m_access := m_access member; m_is_delegation := m_is_delegation member;
           m_granted_by := m_granted_by member; m_created_at := now |}]> (d_members db)))
  end.

Definition remove_member (db : SpaceDb) (space_id did : string) : SpaceDb * bool :=
  (with_members db (delete (space_id, did) (d_members db)),
   bool_decide (is_Some (d_members db !! (space_id, did)))).

Definition get_member (db : SpaceDb) (space_id did : string) : option MemberRow :=
  d_members db !! (space_id, did).

Definition created_first (a b : string * MemberRow) : Prop := rev_le (m_created_at a.2) (m_created_at b.2) = true.

#[global] Instance created_first_dec a b : Decision (created_first a b).
Proof. unfold created_first. apply _. Defined.

(** [list_direct_members]: [ORDER BY created_at ASC]. *)
Definition list_direct_members (db : SpaceDb) (space_id : string) : list (string * MemberRow) :=
  merge_sort created_first
    ((fun p => (p.1.2, p.2)) <$> filter (fun p => p.1.1 = space_id) (map_to_list (d_members db))).

(** ** Invites *)

Definition create_invite (db : SpaceDb) (now : string) (invite : SpaceInvite) : result SpaceDb AppError :=
  if negb (has_space db (i_space_id invite)) || bool_decide (is_Some (d_invites db !! i_id invite))
     || existsb (fun p => i_token_hash p.2 =s i_token_hash invite) (map_to_list (d_invites db))
  then Err (Internal "failed to create invite")
  else Ok (with_invites db (<[i_id invite :=
    {| i_id := i_id invite; i_space_id := i_space_id invite; i_token_hash := i_token_hash invite;
       i_created_by := i_created_by invite; i_access := i_access invite; i_max_uses := i_max_uses invite;
       i_uses := i_uses invite; i_expires_at := i_expires_at invite; i_revoked := i_revoked invite;
       i_created_at := now |}]> (d_invites db))).

Definition get_invite_by_token_hash (db : SpaceDb) (token_hash : string) : option SpaceInvite :=
  head (filter (fun i => i_token_hash i = token_hash) (map_to_list (d_invites db)).*2).

Inductive InviteClaim : Type := Joined | Unavailable | AlreadyMember.

(** [revoked = 0 AND (max_uses IS NULL OR uses < max_uses)] *)
Definition has_use (i : SpaceInvite) : bool :=
  negb (i_revoked i) && match i_max_uses i with None => true | Some max => i_uses i <? max end.

Definition take_use (i : SpaceInvite) : SpaceInvite :=
  {| i_id := i_id i; i_space_id := i_space_id i; i_token_hash := i_token_hash i; i_created_by := i_created_by i;
     i_access := i_access i; i_max_uses := i_max_uses i; i_uses := i_uses i + 1; i_expires_at := i_expires_at i;
     i_revoked := i_revoked i; i_created_at := i_created_at i |}.

(** [claim_invite]: one transaction, which returning early rolls back. *)
Definition claim_invite (db : SpaceDb) (invite_id space_id did : string) (member : MemberRow)
    : result (SpaceDb * InviteClaim) AppError :=
  match d_invites db !! invite_id with
  | None => Ok (db, Unavailable)
  | Some i =>
      if negb (has_use i) then Ok (db, Unavailable)
      else
        let taken := with_invites db (<[invite_id := take_use i]> (d_invites db)) in
        match d_members taken !! (space_id, did) with
        | Some _ => Ok (db, AlreadyMember)
        | None =>
            if negb (has_space db space_id) || existsb (fun p => m_id p.2 =s m_id member) (map_to_list (d_members db))
            then Err (Internal "failed to accept invite")
            else Ok (with_members taken (<[(space_id, did) := member]> (d_members taken)), Joined)
        end
  end.

Definition revoke_invite (db : SpaceDb) (space_id invite_id : string) : SpaceDb * bool :=
  match d_invites db !! invite_id with
  | Some i =>
      if i_space_id i =s space_id then
        (with_invites db (<[invite_id :=
           {| i_id := i_id i; i_space_id := i_space_id i; i_token_hash := i_token_hash i;
              i_created_by := i_created_by i; i_access := i_access i; i_max_uses := i_max_uses i;
              i_uses := i_uses i; i_expires_at := i_expires_at i; i_revoked := true;
              i_created_at := i_created_at i |}]> (d_invites db)), true)
      else (db, false)
  | None => (db, false)
  end.

(** ** Credentials *)

(** [store_credential_record] of [src/spaces/auth.rs]. *)
Definition store_credential_record (db : SpaceDb) (space_id issued_to token_hash jti expires_at : string)
    : result SpaceDb AppError :=
  if has_space db space_id then
    Ok (with_credentials db (d_credentials db ++
      [{| cr_space_id := space_id; cr_issued_to := issued_to; cr_token_hash := token_hash; cr_jti := Some jti;
          cr_expires_at := expires_at; cr_revoked_at := None |}]))
  else Err (Internal "failed to store credential record").

Definition is_space_credential_jti_revoked (db : SpaceDb) (space_id jti : string) : bool :=
  existsb (fun r => (cr_space_id r =s space_id) && bool_decide (cr_jti r = Some jti)
                    && bool_decide (is_Some (cr_revoked_at r))) (d_credentials db).

Definition outstanding_credential_jtis (db : SpaceDb) (now space_id did : string) : list string :=
  omap (fun r => if (cr_space_id r =s space_id) && (cr_issued_to r =s did)
                    && bool_decide (cr_revoked_at r = None) && rev_lt now (cr_expires_at r)
                 then cr_jti r else None) (d_credentials db).

Definition revoke_space_credentials_for_member (db : SpaceDb) (now space_id did : string) : SpaceDb :=
  with_credentials db ((fun r =>
    if (cr_space_id r =s space_id) && (cr_issued_to r =s did) && bool_decide (cr_revoked_at r = None) then
      {| cr_space_id := cr_space_id r; cr_issued_to := cr_issued_to r; cr_token_hash := cr_token_hash r;
         cr_jti := cr_jti r; cr_expires_at := cr_expires_at r; cr_revoked_at := Some now |}
    else r) <$> d_credentials db).

(** ** Records *)

Section Records.
Context {S : Serde} (backend : DatabaseBackend).

Definition row_of_record (now : string) (r : SpaceRecord) : RecordRow :=
  {| rr_space_id := r_space_id r; rr_author_did := r_author_did r; rr_collection := r_collection r;
     rr_rkey := r_rkey r; rr_text := to_string (r_record r); rr_cid := r_cid r; rr_indexed_at := now |}.

(** [parse_record_row] *)
Definition parse_record_row (uri : string) (r : RecordRow) : result SpaceRecord AppError :=
  match from_str (rr_text r) with
  | None => Err (Internal "invalid record JSON")
  | Some record =>
      Ok {| r_uri := uri; r_space_id := rr_space_id r; r_author_did := rr_author_did r;
            r_collection := rr_collection r; r_rkey := rr_rkey r; r_record := record; r_cid := rr_cid r;
            r_indexed_at := rr_indexed_at r |}
  end.

Definition get_space_record (db : SpaceDb) (uri : string) : result (option SpaceRecord) AppError :=
  match d_records db !! uri with
  | None => Ok None
  | Some row => let? r := parse_record_row uri row in Ok (Some r)
  end.

(** [SET record = ?, cid = ?, indexed_at = ?] of a stored row. *)
Definition set_content (now : string) (r : SpaceRecord) (held : RecordRow) : RecordRow :=
  {| rr_space_id := rr_space_id held; rr_author_did := rr_author_did held; rr_collection := rr_collection held;
     rr_rkey := rr_rkey held; rr_text := to_string (r_record r); rr_cid := r_cid r; rr_indexed_at := now |}.

(** [upsert_space_record]: SQLite replaces the row, Postgres its content. *)
Definition upsert_space_record (db : SpaceDb) (now : string) (r : SpaceRecord) : result SpaceDb AppError :=
  match backend, d_records db !! r_uri r with
  | Postgres, Some held => Ok (with_records db (<[r_uri r := set_content now r held]> (d_records db)))
  | _, _ =>
      if has_space db (r_space_id r)
      then Ok (with_records db (<[r_uri r := row_of_record now r]> (d_records db)))
      else Err (Internal "failed to upsert space record")
  end.

Definition insert_space_record (db : SpaceDb) (now : string) (r : SpaceRecord) : result SpaceDb AppError :=
  if bool_decide (is_Some (d_records db !! r_uri r)) then Err (Conflict "Record already exists")
  else if has_space db (r_space_id r)
  then Ok (with_records db (<[r_uri r := row_of_record now r]> (d_records db)))
  else Err (Internal "failed to create space record").

(** The two answers of a swap that matched no row. *)
Definition swap_missed {A} (db : SpaceDb) (uri : string) : result A AppError :=
  let? existing := get_space_record db uri in
  match existing with
  | Some _ => Err (Conflict "Record CID mismatch")
  | None => Err (NotFound "Record not found")
  end.

Definition upsert_space_record_with_swap (db : SpaceDb) (now : string) (r : SpaceRecord) (swap_cid : string)
    : result SpaceDb AppError :=
  match d_records db !! r_uri r with
  | Some held =>
      if rr_cid held =s swap_cid
      then Ok (with_records db (<[r_uri r := set_content now r held]> (d_records db)))
      else swap_missed db (r_uri r)
  | None => swap_missed db (r_uri r)
  end.

Definition delete_space_record (db : SpaceDb) (uri : string) : SpaceDb * bool :=
  (with_records db (delete uri (d_records db)), bool_decide (is_Some (d_records db !! uri))).

Definition delete_space_record_with_swap (db : SpaceDb) (uri swap_cid : string) : result SpaceDb AppError :=
  match d_records db !! uri with
  | Some held =>
      if rr_cid held =s swap_cid then Ok (delete_space_record db uri).1 else swap_missed db uri
  | None => swap_missed db uri
  end.

(** ** Repository states *)

Definition read_repo_state (db : SpaceDb) (space_id author_did : string) : option RepoState :=
  d_repo_states db !! (space_id, author_did).

Definition new_repo_state (id now : string) : RepoState :=
  {| rs_id := id; rs_lthash_state := replicate 2048 0; rs_rev := None; rs_hash := None; rs_ikm := None;
     rs_sig := None; rs_mac := None; rs_host_mode := Polyfill; rs_sync_cursor := None; rs_updated_at := now |}.

Definition id_taken (db : SpaceDb) (id : string) : bool :=
  existsb (fun p => rs_id p.2 =s id) (map_to_list (d_repo_states db)).

Definition get_or_create_repo_state (db : SpaceDb) (uuid now space_id author_did : string)
    : result (SpaceDb * RepoState) AppError :=
  match read_repo_state db space_id author_did with
  | Some state => Ok (db, state)
  | None =>
      if id_taken db uuid || negb (has_space db space_id) then Err (Internal "failed to create repo state")
      else
        let state := new_repo_state uuid now in
        Ok (with_repo_states db (<[(space_id, author_did) := state]> (d_repo_states db)), state)
  end.

(** [update_repo_state]: every column but the keys, of the row with the id. *)
Definition update_repo_state (db : SpaceDb) (now : string) (state : RepoState) : SpaceDb :=
  with_repo_states db
    ((fun held =>
        if rs_id held =s rs_id state then
          {| rs_id := rs_id held; rs_lthash_state := rs_lthash_state state; rs_rev := rs_rev state;
             rs_hash := rs_hash state; rs_ikm := rs_ikm state; rs_sig := rs_sig state; rs_mac := rs_mac state;
             rs_host_mode := rs_host_mode state; rs_sync_cursor := rs_sync_cursor state; rs_updated_at := now |}
        else held) <$> d_repo_states db).

(** The rows of one repository. *)
Definition author_rows (db : SpaceDb) (space_id author_did : string) : list (string * RecordRow) :=
  filter (fun p => (rr_space_id p.2 =s space_id) && (rr_author_did p.2 =s author_did)) (map_to_list (d_records db)).

End Records.
