(* ===== verification/SpaceMembers.v ===== *)
(** * Membership of a space

    [src/spaces/members.rs]: the member list of a space over its delegations;
    of [src/spaces/service.rs] the membership check of a request and the
    operations on members and invites; of [src/spaces/auth.rs] the policies a
    credential is minted under.  What a managing app answers, whether a user is
    a super admin and whether a credential's token verifies come from outside
    the tables and are arguments. *)

From stdpp Require Import list strings gmap sorting.
From Stdlib Require Import ZArith Lia.
From S2P Require Import Prelude RustStr Json Tombstones SpaceTypes SpaceOplog SpaceWriters SpaceDb.

(** ** Delegation *)

Definition MAX_DELEGATION_DEPTH : nat := 10.

Definition merge_access (resolved : gmap string MemberAccess) (did : string) (access : MemberAccess)
    : gmap string MemberAccess :=
  partial_alter (fun e => Some (match e with Some held => access_union held access | None => access end))
    did resolved.

(** [resolved] and [visited] of a traversal. *)
Abbreviation Walk := (gmap string MemberAccess * gset string)%type.

Section Resolve.
Context (db : SpaceDb).

Definition resolve_delegation_target (did : string) : result (option string) AppError :=
  if starts_with "at://" did || starts_with "ats://" did then
    let? uri := space_uri_parse did in
    Ok (s_id <$> get_space_by_address db (u_did uri) (u_type_nsid uri) (u_skey uri))
  else Ok (s_id <$> get_space db did).

(** The loop over the direct members of a space; [rec] resolves a delegated space. *)
Fixpoint visit_members (rec : string -> Walk -> result Walk AppError) (members : list (string * MemberRow))
    (w : Walk) : result Walk AppError :=
  match members with
  | [] => Ok w
  | (did, member) :: rest =>
      if m_is_delegation member then
        let? target := resolve_delegation_target did in
        match target with
        | Some target_id => let? w := rec target_id w in visit_members rec rest w
        | None => visit_members rec rest w
        end
      else visit_members rec rest (merge_access w.1 did (m_access member), w.2)
  end.

(** [resolve_members_recursive]; [budget] is [MAX_DELEGATION_DEPTH - depth]. *)
Fixpoint resolve_members_recursive (budget : nat) (space_id : string) (w : Walk) : result Walk AppError :=
  match budget with
  | O => Ok w
  | S budget =>
      if bool_decide (space_id ∈ w.2) then Ok w
      else visit_members (resolve_members_recursive budget) (list_direct_members db space_id)
             (w.1, {[space_id]} ∪ w.2)
  end.

Definition did_first (a b : string * MemberAccess) : Prop := rev_le a.1 b.1 = true.

#[global] Instance did_first_dec a b : Decision (did_first a b).
Proof. unfold did_first. apply _. Defined.

Definition resolve_members (space_id : string) : result (list (string * MemberAccess)) AppError :=
  let? w := resolve_members_recursive MAX_DELEGATION_DEPTH space_id (∅, ∅) in
  Ok (merge_sort did_first (map_to_list w.1)).

Definition is_member (space_id did : string) : result (option MemberAccess) AppError :=
  let? members := resolve_members space_id in
  Ok (snd <$> head (filter (fun m => m.1 = did) members)).

End Resolve.

(** ** Requests *)

Inductive AccessKind : Type := AccessRead | AccessWrite.

Section Requests.
Context (db : SpaceDb).
(* the answer of a managing app: policy's app, space URI, user, client, kind *)
Context (managing_app_allows : string -> string -> string -> option string -> AccessKind -> result bool AppError).

(** [policy_allows] *)
Definition policy_allows (policy : Policy) (space : Space) (subject_did : string) (client_id : option string)
    (access : AccessKind) : result bool AppError :=
  match policy with
  | Public => Ok true
  | MemberList =>
      let? member := is_member db (s_id space) subject_did in
      Ok (match member, access with
          | Some m, AccessRead => a_read m && negb (a_read_self m)
          | Some m, AccessWrite => a_write m
          | None, _ => false
          end)
  | ManagingApp managing_app =>
      managing_app_allows managing_app (space_uri (s_did space) (s_type_nsid space) (s_skey space)) subject_did
        client_id access
  end.

Definition writer_admitted (space : Space) (writer_did : string) : result bool AppError :=
  policy_allows (s_write_policy space) space writer_did None AccessWrite.

Definition check_mint_policy (space : Space) (subject_did : string) (client_id : option string)
    : result unit AppError :=
  let? granted := policy_allows (s_read_policy space) space subject_did client_id AccessRead in
  if (granted : bool) then Ok tt else Err (Forbidden "managing app denied access to this space").

Definition check_app_access (space : Space) (attested_client_id : option string) : result unit AppError :=
  match s_app_access space with
  | Open => Ok tt
  | AllowList allowed =>
      match attested_client_id with
      | None => Err (AuthError "space requires client attestation")
      | Some client_id =>
          if str_mem client_id allowed then Ok tt
          else Err (Forbidden "this app is not authorized to access this space")
      end
  end.

(** [issue_credential] as far as the tables go: the two checks, then the record
    of a credential whose token has this hash and id. *)
Definition issue_credential (space : Space) (subject_did : string) (client_id : option string)
    (token_hash jti expires_at : string) : result SpaceDb AppError :=
  let? _ := check_app_access space client_id in
  let? _ := check_mint_policy space subject_did client_id in
  store_credential_record db (s_id space) subject_did token_hash jti expires_at.

(** [resolve_space] *)
Definition resolve_space (space_ref : string) : result Space AppError :=
  let? uri := space_uri_parse space_ref in
  match get_space_by_address db (u_did uri) (u_type_nsid uri) (u_skey uri) with
  | Some space => Ok space
  | None => Err (NotFound "Space not found")
  end.

(** [require_membership]; [verify_credential] stands for [verify_space_credential]. *)
Definition require_membership (verify_credential : Space -> string -> result unit AppError) (space : Space)
    (did : string) (require_write : bool) (space_credential : option string) : result MemberAccess AppError :=
  match space_credential with
  | Some token =>
      let? _ := verify_credential space token in
      if require_write then Err (Forbidden "Write access is required for this action") else Ok READ
  | None =>
      let? member := is_member db (s_id space) did in
      match member with
      | None => Err (Forbidden "You are not a member of this space")
      | Some access =>
          if require_write && negb (a_write access)
          then Err (Forbidden "Write access is required for this action")
          else Ok access
      end
  end.

(** [require_space_admin] *)
Definition require_space_admin (is_super : string -> bool) (space : Space) (did : string) : result unit AppError :=
  if (s_creator_did space =s did) || is_super did then Ok tt
  else Err (Forbidden "Only the space's creator can perform this action").

Definition check_collection_allowed (space : Space) (collection : string) : result unit AppError :=
  match assoc_get (s_config_extra space) "allowedCollections" with
  | Some (VArray allowed) =>
      if negb (bool_decide (allowed = []))
         && negb (existsb (fun v => match as_str v with Some s => s =s collection | None => false end) allowed)
      then Err (BadRequest ("collection '" +:+ collection +:+ "' is not allowed in this space"))
      else Ok tt
  | _ => Ok tt
  end.

End Requests.

(** ** Members and invites *)

Section Operations.
Context (is_super : string -> bool) (uuid now : string).

(** [revoke_member_credentials]: the tables, and the ids announced. *)
Definition revoke_member_credentials (db : SpaceDb) (space : Space) (member_did : string) : SpaceDb * list string :=
  (revoke_space_credentials_for_member db now (s_id space) member_did,
   outstanding_credential_jtis db now (s_id space) member_did).

(** [put_member] *)
Definition put_member (db : SpaceDb) (actor_did space_ref member_did : string) (access : option MemberAccess)
    (is_delegation : option bool) : result (SpaceDb * MemberRow) AppError :=
  let? space := resolve_space db space_ref in
  let? _ := require_space_admin is_super space actor_did in
  let existing := get_member db (s_id space) member_did in
  let current := m_access <$> existing in
  let access := match access with Some a => a | None => default READ current end in
  let member :=
    {| m_id := match existing with Some m => m_id m | None => uuid end;
       m_access := {| a_read := a_read access; a_write := a_write access;
                      a_read_self := match current with Some a => a_read_self a | None => false end |};
       m_is_delegation := default false is_delegation; m_granted_by := Some actor_did; m_created_at := now |} in
  let? db := add_member db now (s_id space) member_did member in
  let db := if a_read (m_access member) then db else (revoke_member_credentials db space member_did).1 in
  Ok (db, member).

(** [add_member] of the service. *)
Definition service_add_member (db : SpaceDb) (actor_did space_ref member_did : string)
    (access : option MemberAccess) (is_delegation : option bool) : result (SpaceDb * MemberRow) AppError :=
  let? space := resolve_space db space_ref in
  let? _ := require_space_admin is_super space actor_did in
  match get_member db (s_id space) member_did with
  | Some _ => Err (Conflict "Member already exists in this space")
  | None =>
      let member :=
        {| m_id := uuid; m_access := default READ access; m_is_delegation := default false is_delegation;
           m_granted_by := Some actor_did; m_created_at := now |} in
      let? db := add_member db now (s_id space) member_did member in
      Ok (db, member)
  end.

(** [remove_member] of the service: the state it leaves and its answer. *)
Definition service_remove_member (db : SpaceDb) (actor_did space_ref member_did : string)
    : SpaceDb * result unit AppError :=
  match resolve_space db space_ref with
  | Err e => (db, Err e)
  | Ok space =>
      match require_space_admin is_super space actor_did with
      | Err e => (db, Err e)
      | Ok _ =>
          let db := (revoke_member_credentials db space member_did).1 in
          let '(db, removed) := remove_member db (s_id space) member_did in
          (db, if removed then Ok tt else Err (NotFound "Member not found in this space"))
      end
  end.

(** [update_space] of the service; [None] keeps a field. *)
Definition service_update_space (db : SpaceDb) (actor_did space_ref : string)
    (display_name description : option (option string)) (read_policy write_policy : option Policy)
    (app_access : option AppAccess) (config_extra : option (list (string * value)))
    : result (SpaceDb * Space) AppError :=
  let? space := resolve_space db space_ref in
  let? _ := require_space_admin is_super space actor_did in
  let space :=
    {| s_id := s_id space; s_did := s_did space; s_authority_did := s_authority_did space;
       s_creator_did := s_creator_did space; s_type_nsid := s_type_nsid space; s_skey := s_skey space;
       s_display_name := default (s_display_name space) display_name;
       s_description := default (s_description space) description;
       s_read_policy := default (s_read_policy space) read_policy;
       s_write_policy := default (s_write_policy space) write_policy;
       s_app_access := default (s_app_access space) app_access;
       s_config_extra := default (s_config_extra space) config_extra; s_revision := s_revision space |} in
  Ok ((update_space db space).1, space).

(** [delete_space] of the service. *)
Definition service_delete_space (db : SpaceDb) (actor_did space_ref : string) : result SpaceDb AppError :=
  let? space := resolve_space db space_ref in
  let? _ := require_space_admin is_super space actor_did in
  Ok (delete_space db (s_id space)).1.

(** [accept_invite]; [expired] is [invite_expired] at the moment of the request,
    and [token_hash] the hash of the presented token. *)
Definition accept_invite (expired : string -> bool) (db : SpaceDb) (did token_hash : string)
    : SpaceDb * result (string * MemberAccess) AppError :=
  match get_invite_by_token_hash db token_hash with
  | None => (db, Err (NotFound "Invalid invite token"))
  | Some invite =>
      if i_revoked invite then (db, Err (BadRequest "This invite has been revoked"))
      else if match i_max_uses invite with Some max => (max <=? i_uses invite)%Z | None => false end then
        (db, Err (BadRequest "This invite has reached its maximum uses"))
      else if match i_expires_at invite with Some e => expired e | None => false end then
        (db, Err (BadRequest "This invite has expired"))
      else
        match get_member db (i_space_id invite) did with
        | Some _ => (db, Err (Conflict "You are already a member of this space"))
        | None =>
            let member :=
              {| m_id := uuid; m_access := i_access invite; m_is_delegation := false;
                 m_granted_by := Some (i_created_by invite); m_created_at := now |} in
            match claim_invite db (i_id invite) (i_space_id invite) did member with
            | Err e => (db, Err e)
            | Ok (db, Unavailable) =>
                (db, Err (BadRequest "This invite has been revoked or has reached its maximum uses"))
            | Ok (db, AlreadyMember) => (db, Err (Conflict "You are already a member of this space"))
            | Ok (db, Joined) =>
                match get_space db (i_space_id invite) with
                | Some s => (db, Ok (space_uri (s_did s) (s_type_nsid s) (s_skey s), m_access member))
                | None => (db, Err (Internal "space vanished after member insert"))
                end
            end
        end
  end.

End Operations.

(** ** Facts of the member list *)

(** A permission a union of accesses grants when either does: reading, writing,
    and reading more than one's own records. *)
Class Permission (f : MemberAccess -> bool) : Prop :=
  permission_union : forall a b, f (access_union a b) = f a || f b.

#[global] Instance read_permission : Permission a_read.
Proof. done. Qed.
#[global] Instance write_permission : Permission a_write.
Proof. done. Qed.
#[global] Instance unrestricted_permission : Permission (fun a => negb (a_read_self a)).
Proof. intros a b. apply negb_andb. Qed.

Lemma elem_direct_members db space_id did m :
  (did, m) ∈ list_direct_members db space_id <-> d_members db !! (space_id, did) = Some m.
Proof.
  unfold list_direct_members. rewrite merge_sort_Permutation, list_elem_of_fmap. split.
  - intros ([[s d] m'] & [= -> ->] & Hin). apply list_elem_of_filter in Hin as [Hs Hin]. simpl in Hs. subst.
    by apply elem_of_map_to_list in Hin.
  - intros H. exists ((space_id, did), m). split; [done|]. apply list_elem_of_filter. split; [done|].
    by apply elem_of_map_to_list.
Qed.

Section Walks.
Context (db : SpaceDb).

(** A space delegates to another. *)
Definition delegates (a b : string) : Prop :=
  exists did m, d_members db !! (a, did) = Some m /\ m_is_delegation m = true
    /\ resolve_delegation_target db did = Ok (Some b).

(** Chains of delegations. *)
Inductive reach : nat -> string -> string -> Prop :=
| reach_here s : reach 0 s s
| reach_step n a b c : delegates a b -> reach n b c -> reach (S n) a c.

Definition reachable (a b : string) : Prop := exists n, reach n a b.

(** A direct member row of a space that has the permission. *)
Definition holds (f : MemberAccess -> bool) (space_id did : string) : Prop :=
  exists m, d_members db !! (space_id, did) = Some m /\ m_is_delegation m = false /\ f (m_access m) = true.

Definition resolves (f : MemberAccess -> bool) (w : Walk) (did : string) : Prop :=
  exists a, w.1 !! did = Some a /\ f a = true.

Context (f : MemberAccess -> bool) `{!Permission f}.

Lemma merge_access_resolves resolved visited did access d :
  resolves f (merge_access resolved did access, visited) d <->
  resolves f (resolved, visited) d \/ (d = did /\ f access = true).
Proof.
  unfold resolves, merge_access; simpl. destruct (decide (d = did)) as [->|Hne].
  - rewrite lookup_partial_alter_eq. destruct (resolved !! did) as [h|]; simpl.
    + split.
      * intros (a & [= <-] & Ha). rewrite permission_union in Ha. apply orb_true_iff in Ha as [?|?]; eauto.
      * intros [(a & [= <-] & Ha)|[_ Ha]]; eexists; (split; [done|]); rewrite permission_union, Ha, ?orb_true_r; done.
    + split; [intros (a & [= <-] & Ha); eauto|]. intros [(a & [=] & _)|[_ Ha]]. eauto.
  - rewrite lookup_partial_alter_ne by congruence. naive_solver.
Qed.

(** Soundness of the loop, given that of the recursive calls. *)
Lemma visit_sound rec budget space_id members :
  (forall s w w' d, rec s w = Ok w' -> resolves f w' d ->
     resolves f w d \/ exists n t, n < budget /\ reach n s t /\ holds f t d) ->
  (forall did m, (did, m) ∈ members -> d_members db !! (space_id, did) = Some m) ->
  forall w w' d, visit_members db rec members w = Ok w' -> resolves f w' d ->
  resolves f w d \/ exists n t, n < S budget /\ reach n space_id t /\ holds f t d.
Proof.
  intros Hrec. induction members as [|[did m] rest IH]; intros Hin w w' d; simpl; [intros [= <-]; auto|].
  assert (Hm : d_members db !! (space_id, did) = Some m) by (apply Hin; set_solver).
  assert (Hrest : forall did m, (did, m) ∈ rest -> d_members db !! (space_id, did) = Some m)
    by (intros; apply Hin; set_solver).
  destruct (m_is_delegation m) eqn:Hdel.
  - destruct (resolve_delegation_target db did) as [[target|]|] eqn:Ht; [|by apply IH|done].
    destruct (rec target w) as [w1|] eqn:Hw1; [|done]. intros Hw' Hd.
    destruct (IH Hrest w1 w' d Hw' Hd) as [Hd1|?]; [|by right].
    destruct (Hrec target w w1 d Hw1 Hd1) as [?|(n & t & Hn & Hreach & Hh)]; [by left|]. right.
    exists (S n), t. split_and!; [lia| |done]. eapply reach_step; [|done]. by exists did, m.
  - intros Hw' Hd. destruct (IH Hrest _ w' d Hw' Hd) as [Hd1|?]; [|by right].
    apply merge_access_resolves in Hd1 as [Hd1|[-> Ha]]; [by left; destruct w|]. right.
    exists 0, space_id. split_and!; [lia|constructor|]. by exists m.
Qed.

Lemma walk_sound budget : forall space_id w w' d,
  resolve_members_recursive db budget space_id w = Ok w' -> resolves f w' d ->
  resolves f w d \/ exists n t, n < budget /\ reach n space_id t /\ holds f t d.
Proof.
  induction budget as [|budget IH]; intros space_id w w' d; simpl; [intros [= <-]; auto|].
  case_bool_decide; [intros [= <-]; auto|]. intros Hv Hd.
  destruct (visit_sound (resolve_members_recursive db budget) budget space_id _ IH
              ltac:(by intros ? ?; apply elem_direct_members) _ w' d Hv Hd) as [H1|?]; [left; exact H1|by right].
Qed.

(** Completeness: within a closed set of at most [budget] unvisited spaces
    nothing is cut off. *)
Context (U : gset string) (Hclosed : forall a b, a ∈ U -> delegates a b -> b ∈ U).

(** A space whose members are merged and whose delegations are visited. *)
Definition finished (w : Walk) (s : string) : Prop :=
  (forall d, holds f s d -> resolves f w d) /\ (forall b, delegates s b -> b ∈ w.2).

Definition grows (w w' : Walk) : Prop :=
  w.2 ⊆ w'.2 /\ (forall d, resolves f w d -> resolves f w' d)
  /\ (forall s, s ∈ w'.2 -> s ∈ w.2 \/ finished w' s) /\ (w.2 ⊆ U -> w'.2 ⊆ U).

Lemma finished_mono w w' s :
  w.2 ⊆ w'.2 -> (forall d, resolves f w d -> resolves f w' d) -> finished w s -> finished w' s.
Proof. intros Hv Hr [H1 H2]. split; [auto|]. set_solver. Qed.

Lemma grows_trans w1 w2 w3 : grows w1 w2 -> grows w2 w3 -> grows w1 w3.
Proof.
  intros (V1 & R1 & F1 & U1) (V2 & R2 & F2 & U2). split_and!; [set_solver|auto| |auto].
  intros s Hs. destruct (F2 s Hs) as [Hs2|?]; [|by right].
  destruct (F1 s Hs2) as [?|?]; [by left|]. right. by eapply finished_mono.
Qed.

Lemma grows_refl w : grows w w.
Proof. split_and!; [done|done|by left|done]. Qed.

Definition fits (budget : nat) (w : Walk) : Prop := w.2 ⊆ U /\ size (U ∖ w.2) <= budget.

Lemma fits_grows budget w w' : fits budget w -> grows w w' -> fits budget w'.
Proof.
  intros [HU Hs] (Hv & _ & _ & HU'). split; [auto|]. etrans; [|exact Hs]. apply subseteq_size. set_solver.
Qed.

Definition rec_complete (rec : string -> Walk -> result Walk AppError) (budget : nat) : Prop :=
  forall s w w', s ∈ U -> fits budget w -> rec s w = Ok w' -> grows w w' /\ s ∈ w'.2.

Lemma visit_complete rec budget members : rec_complete rec budget ->
  forall space_id w w',
  space_id ∈ U -> fits budget w ->
  (forall did m, (did, m) ∈ members -> d_members db !! (space_id, did) = Some m) ->
  visit_members db rec members w = Ok w' ->
  grows w w' /\ forall did m, (did, m) ∈ members ->
    (m_is_delegation m = false -> f (m_access m) = true -> resolves f w' did)
    /\ (m_is_delegation m = true -> forall b, resolve_delegation_target db did = Ok (Some b) -> b ∈ w'.2).
Proof.
  intros Hrec. induction members as [|[did m] rest IH]; intros space_id w w' HsU Hfit Hin; simpl.
  { intros [= <-]. split; [apply grows_refl|]. intros ? ? ?%not_elem_of_nil. done. }
  assert (Hm : d_members db !! (space_id, did) = Some m) by (apply Hin; set_solver).
  assert (Hrest : forall did m, (did, m) ∈ rest -> d_members db !! (space_id, did) = Some m)
    by (intros; apply Hin; set_solver).
  destruct (m_is_delegation m) eqn:Hdel.
  - destruct (resolve_delegation_target db did) as [[target|]|] eqn:Ht; [| |done].
    + destruct (rec target w) as [w1|] eqn:Hw1; [|done]. intros Hw'.
      destruct (Hrec target w w1) as [Hg1 Htv]; [|done..|].
      { eapply Hclosed; [done|]. by exists did, m. }
      destruct (IH space_id w1 w' HsU (fits_grows _ _ _ Hfit Hg1) Hrest Hw') as [Hg2 Hall].
      split; [by eapply grows_trans|]. intros did' m' [[= -> ->]|Hin']%elem_of_cons; [|auto].
      split; [congruence|]. intros _ b Hb. rewrite Ht in Hb. injection Hb as <-. by apply Hg2.
    + intros Hw'. destruct (IH space_id w w' HsU Hfit Hrest Hw') as [Hg Hall]. split; [done|].
      intros did' m' [[= -> ->]|Hin']%elem_of_cons; [|auto]. split; [congruence|]. intros _ b Hb. congruence.
  - intros Hw'. set (w1 := (merge_access w.1 did (m_access m), w.2)) in *.
    assert (Hres : forall d, resolves f w d -> resolves f w1 d).
    { intros d Hd. apply merge_access_resolves. left. by destruct w. }
    assert (Hg1 : grows w w1).
    { split_and!; [done|done| |done]. intros s Hs. by left. }
    destruct (IH space_id w1 w' HsU (fits_grows _ _ _ Hfit Hg1) Hrest Hw') as [Hg2 Hall].
    split; [by eapply grows_trans|]. intros did' m' [[= -> ->]|Hin']%elem_of_cons; [|auto].
    split; [|congruence]. intros _ Hf. apply Hg2. apply merge_access_resolves. by right.
Qed.

Lemma walk_complete budget : rec_complete (resolve_members_recursive db budget) budget.
Proof.
  induction budget as [|budget IH]; intros s w w' HsU [HwU Hsize]; simpl.
  - intros [= <-]. split; [apply grows_refl|].
    assert (Hempty : U ∖ w.2 ≡ ∅) by (apply size_empty_iff; lia). set_solver.
  - case_bool_decide as Hvis; [intros [= <-]; split; [apply grows_refl|done]|]. intros Hv.
    assert (Hfit : fits budget (w.1, {[s]} ∪ w.2)).
    { split; simpl; [set_solver|].
      assert (Hlt : size (U ∖ ({[s]} ∪ w.2)) < size (U ∖ w.2)) by (apply subset_size; set_solver). lia. }
    destruct (visit_complete _ budget _ IH s _ w' HsU Hfit ltac:(by intros ? ?; apply elem_direct_members) Hv)
      as [(V & R & F & UU) Hall]. simpl in *.
    split; [|set_solver]. split_and!; [set_solver|intros d Hd; apply R; exact Hd| |intros _; apply UU; set_solver].
    intros t Ht. destruct (F t Ht) as [[->%elem_of_singleton|?]%elem_of_union|?]; [|by left|by right].
    right. split.
    + intros d (m & Hm & Hdel & Hf). apply elem_direct_members in Hm. by apply (Hall d m Hm).
    + intros b (did & m & Hm & Hdel & Ht'). apply elem_direct_members in Hm. by apply (Hall did m Hm).
Qed.

End Walks.

Lemma is_member_lookup db space_id did r :
  is_member db space_id did = Ok r ->
  exists w, resolve_members_recursive db MAX_DELEGATION_DEPTH space_id (∅, ∅) = Ok w /\ r = w.1 !! did.
Proof.
  unfold is_member, resolve_members. destruct (resolve_members_recursive _ _ _ _) as [w|]; [|done].
  intros [= <-]. exists w. split; [done|]. set (l := merge_sort did_first (map_to_list w.1)).
  assert (Hl : forall p, p ∈ filter (fun m => m.1 = did) l <-> w.1 !! did = Some p.2 /\ p.1 = did).
  { intros [d a]. rewrite list_elem_of_filter. unfold l. rewrite merge_sort_Permutation, elem_of_map_to_list.
    simpl. naive_solver. }
  destruct (filter (fun m => m.1 = did) l) as [|p l'] eqn:E; simpl.
  - destruct (w.1 !! did) as [a|] eqn:Ha; [|done].
    assert (Hin : (did, a) ∈ @nil (string * MemberAccess)) by (apply Hl; done). by apply not_elem_of_nil in Hin.
  - symmetry. apply (Hl p). set_solver.
Qed.

Lemma reachable_finished db f (w : Walk) a b :
  (forall s, s ∈ w.2 -> finished db f w s) -> reachable db a b -> a ∈ w.2 -> b ∈ w.2.
Proof.
  intros Hf [n Hr]. induction Hr as [|n a c d Hd _ IH]; [done|]. intros Ha. apply IH. by apply (Hf a).
Qed.

(** (C19) A member list grants no permission that no membership gives: whoever it
    lists as reading, writing or unrestricted is a direct member, with that
    permission, of a space fewer than ten delegations away.  When no more than
    ten spaces take part in the delegations it misses none either, however the
    delegations cycle or overlap. *)
Theorem member_list_exact (db : SpaceDb) (f : MemberAccess -> bool) (space_id did : string)
    (r : option MemberAccess) :
  Permission f -> is_member db space_id did = Ok r ->
  ((exists a, r = Some a /\ f a = true) ->
   exists n t, n < MAX_DELEGATION_DEPTH /\ reach db n space_id t /\ holds db f t did)
  /\ (forall U : gset string,
      space_id ∈ U -> (forall a b, a ∈ U -> delegates db a b -> b ∈ U) -> size U <= MAX_DELEGATION_DEPTH ->
      forall t, reachable db space_id t -> holds db f t did -> exists a, r = Some a /\ f a = true).
Proof.
  intros Hf (w & Hw & ->)%is_member_lookup. split.
  - intros Ha. destruct (walk_sound db f MAX_DELEGATION_DEPTH space_id (∅, ∅) w did Hw) as [(a & Ha' & _)|?];
      [by destruct Ha as (a & ? & ?); exists a|by cbn in Ha'; rewrite lookup_empty in Ha'|done].
  - intros U HU Hclosed Hsize t Ht Hh.
    destruct (walk_complete db f U Hclosed MAX_DELEGATION_DEPTH space_id (∅, ∅) w HU) as [(_ & _ & Hfin & _) Hs];
      [|done|].
    { split; [set_solver|]. etrans; [|exact Hsize]. apply subseteq_size. set_solver. }
    assert (Hall : forall s, s ∈ w.2 -> finished db f w s).
    { intros s Hin. destruct (Hfin s Hin) as [?|?]; [set_solver|done]. }
    apply (Hall t); [|done]. by eapply (reachable_finished db f).
Qed.

(** ** The depth limit *)

Module Chain.

Definition member (access : MemberAccess) (delegation : bool) (created : string) : MemberRow :=
  {| m_id := created; m_access := access; m_is_delegation := delegation; m_granted_by := None;
     m_created_at := created |}.

Definition space (id : string) : Space :=
  {| s_id := id; s_did := id; s_authority_did := id; s_creator_did := "did:plc:owner"; s_type_nsid := "c.f";
     s_skey := "k"; s_display_name := None; s_description := None; s_read_policy := MemberList;
     s_write_policy := MemberList; s_app_access := Open; s_config_extra := []; s_revision := None |}.

Definition spaces : list string := ["r"; "b1"; "b2"; "b3"; "b4"; "b5"; "b6"; "b7"; "b8"; "b9"; "c"].

(** [r] delegates to the head and to the tail of the chain [b1 ... b9], which
    delegates to [c]; the two delegations of [r] were made at these times. *)
Definition db (to_head to_tail : string) : SpaceDb :=
  {| d_spaces := list_to_map ((fun id => (id, space id)) <$> spaces);
     d_members := list_to_map
       [(("r", "b1"), member READ true to_head); (("r", "b9"), member READ true to_tail);
        (("b1", "b2"), member READ true "t"); (("b2", "b3"), member READ true "t");
        (("b3", "b4"), member READ true "t"); (("b4", "b5"), member READ true "t");
        (("b5", "b6"), member READ true "t"); (("b6", "b7"), member READ true "t");
        (("b7", "b8"), member READ true "t"); (("b8", "b9"), member READ true "t");
        (("b9", "c"), member READ true "t"); (("c", "did:plc:zed"), member READ false "t")];
     d_invites := ∅; d_records := ∅; d_repo_states := ∅; d_oplog := []; d_writers := ∅; d_credentials := [] |}.

End Chain.

(** Past ten spaces the list depends on the order the delegations were made
    in: a member two delegations away is missed when a longer chain through the
    same space was made first, and found when it was made second. *)
Theorem delegation_order_matters :
  is_member (Chain.db "1" "2") "r" "did:plc:zed" = Ok None
  /\ is_member (Chain.db "2" "1") "r" "did:plc:zed" = Ok (Some READ)
  /\ reach (Chain.db "1" "2") 2 "r" "c" /\ holds (Chain.db "1" "2") a_read "c" "did:plc:zed".
Proof.
  split; [vm_compute; reflexivity|]. split; [vm_compute; reflexivity|]. split.
  - eapply (reach_step _ 1 "r" "b9").
    { exists "b9", (Chain.member READ true "2"). split_and!; vm_compute; reflexivity. }
    eapply (reach_step _ 0 "b9" "c"); [|constructor].
    exists "c", (Chain.member READ true "t"). split_and!; vm_compute; reflexivity.
  - exists (Chain.member READ false "t"). split_and!; vm_compute; reflexivity.
Qed.

Lemma member_list_exact_witness :
  exists n t, n < MAX_DELEGATION_DEPTH /\ reach (Chain.db "2" "1") n "b9" t
    /\ holds (Chain.db "2" "1") a_read t "did:plc:zed".
Proof.
  apply (member_list_exact (Chain.db "2" "1") a_read "b9" "did:plc:zed" (Some READ) read_permission).
  - vm_compute. reflexivity.
  - exists READ. split; reflexivity.
Defined.

(** ** Access *)

(** A write request passes the membership check only for a member that holds
    a write membership within ten delegations, and never on a space
    credential; under a member-list policy a credential is minted only for a
    member that may read and is not confined to its own records. *)
Theorem write_and_mint_need_membership (db : SpaceDb) verify managing_app_allows (space : Space) (did : string)
    (credential client_id : option string) (token_hash jti expires_at : string) :
  (forall access, require_membership db verify space did true credential = Ok access ->
     credential = None /\ a_write access = true
     /\ exists n t, n < MAX_DELEGATION_DEPTH /\ reach db n (s_id space) t /\ holds db a_write t did)
  /\ (forall db', s_read_policy space = MemberList ->
      issue_credential db managing_app_allows space did client_id token_hash jti expires_at = Ok db' ->
      exists a, is_member db (s_id space) did = Ok (Some a) /\ a_read a = true /\ a_read_self a = false
        /\ (s_app_access space = Open
            \/ exists allowed id, s_app_access space = AllowList allowed /\ client_id = Some id /\ id ∈ allowed)).
Proof.
  split.
  - intros access. unfold require_membership. destruct credential as [token|].
    { by destruct (verify space token). }
    destruct (is_member db (s_id space) did) as [[a|]|] eqn:Hm; [|done..].
    destruct (a_write a) eqn:Hw; simpl; [|done]. intros [= <-]. split_and!; [done..|].
    apply is_member_lookup in Hm as (w & Hwalk & Ha).
    destruct (walk_sound db a_write MAX_DELEGATION_DEPTH (s_id space) (∅, ∅) w did Hwalk) as [(b & Hb & _)|?];
      [by exists a|by cbn in Hb; rewrite lookup_empty in Hb|done].
  - intros db' Hpol. unfold issue_credential, check_mint_policy, policy_allows. rewrite Hpol.
    destruct (check_app_access space client_id) as [[]|] eqn:Happ; [|done].
    destruct (is_member db (s_id space) did) as [[a|]|] eqn:Hm; [|done..].
    destruct (a_read a && negb (a_read_self a)) eqn:Hr; [|done]. intros _. bool_prop.
    exists a. split_and!; [done..|]. revert Happ. unfold check_app_access.
    destruct (s_app_access space) as [|allowed]; [by left|]. destruct client_id as [id|]; [|done].
    destruct (str_mem id allowed) eqn:Hid; [|done]. intros _. right. exists allowed, id.
    split_and!; [done..|]. by apply str_mem_true.
Qed.

Lemma write_and_mint_need_membership_witness :
  let db := with_members (Chain.db "1" "2") {[ ("c", "did:plc:w") := Chain.member WRITE false "t" ]} in
  exists n t, n < MAX_DELEGATION_DEPTH /\ reach db n "c" t /\ holds db a_write t "did:plc:w".
Proof.
  apply (write_and_mint_need_membership _ (fun _ _ => Ok tt) (fun _ _ _ _ _ => Ok true) (Chain.space "c") "did:plc:w"
           None None "" "" "") with (access := WRITE).
  vm_compute. reflexivity.
Defined.

(** ** Revocation *)

(** No credential of a member in a space is still good. *)
Definition all_revoked (db : SpaceDb) (space_id did : string) : Prop :=
  Forall (fun r => cr_space_id r = space_id -> cr_issued_to r = did -> is_Some (cr_revoked_at r)) (d_credentials db).

Lemma revoke_revokes db now space_id did :
  all_revoked (revoke_space_credentials_for_member db now space_id did) space_id did.
Proof.
  unfold all_revoked, revoke_space_credentials_for_member, with_credentials; simpl. rewrite Forall_fmap.
  apply Forall_true. intros r. simpl. case_match eqn:E; simpl; [eauto|]. intros Hs Hi.
  rewrite Hs, Hi, !String.eqb_refl in E. simpl in E. apply bool_decide_eq_false in E.
  by apply not_eq_None_Some.
Qed.

Lemma add_member_credentials db now space_id did m db' :
  add_member db now space_id did m = Ok db' -> d_credentials db' = d_credentials db.
Proof. unfold add_member. repeat case_match; intros; simplify_eq; done. Qed.

(** A member that loses its read access, by being removed or by a [putMember]
    that withdraws it, is left with no good credential of the space; removal
    also takes its membership row. *)
Theorem losing_read_revokes (is_super : string -> bool) (uuid now : string) (db db' : SpaceDb)
    (actor space_ref did : string) (access : MemberAccess) (delegation : option bool) (m : MemberRow)
    (space : Space) :
  resolve_space db space_ref = Ok space ->
  (put_member is_super uuid now db actor space_ref did (Some access) delegation = Ok (db', m) ->
   a_read access = false -> all_revoked db' (s_id space) did)
  /\ (service_remove_member is_super now db actor space_ref did = (db', Ok tt) ->
      all_revoked db' (s_id space) did /\ get_member db' (s_id space) did = None
      /\ (s_creator_did space = actor \/ is_super actor = true)).
Proof.
  intros Hres. split.
  - unfold put_member. rewrite Hres. destruct (require_space_admin _ _ _); [|done].
    destruct (add_member _ _ _ _ _) as [db1|] eqn:Hadd; [|done]. intros [= <- _] Hr. simpl in *. rewrite Hr.
    apply revoke_revokes.
  - unfold service_remove_member. rewrite Hres. unfold require_space_admin.
    destruct (s_creator_did space =s actor) eqn:Hc; [|destruct (is_super actor) eqn:Hs]; simpl; [| |done];
      unfold remove_member; simpl; intros [= <- Hrem]; unfold get_member; simpl; rewrite lookup_delete_eq;
      (split_and!; [apply (revoke_revokes db)|done|bool_prop; auto]).
Qed.

Lemma losing_read_revokes_witness :
  all_revoked (service_remove_member (fun _ => false) "now" (Chain.db "1" "2") "did:plc:owner"
                 "at://c/space/c.f/k" "did:plc:zed").1 "c" "did:plc:zed".
Proof.
  apply (losing_read_revokes (fun _ => false) "u" "now" (Chain.db "1" "2") _ "did:plc:owner" "at://c/space/c.f/k"
           "did:plc:zed" NO_ACCESS None (Chain.member READ false "t") (Chain.space "c")); vm_compute; reflexivity.
Defined.

(** Naming only a DID in [putMember] leaves the member's read and write access
    and its own-records restriction as they were, but turns a delegation into
    an ordinary member, so that the delegated space's members lose theirs. *)
Theorem put_member_by_did (is_super : string -> bool) (uuid now : string) (db db' : SpaceDb)
    (actor space_ref did : string) (m : MemberRow) (space : Space) (held : MemberRow) :
  resolve_space db space_ref = Ok space -> get_member db (s_id space) did = Some held ->
  put_member is_super uuid now db actor space_ref did None None = Ok (db', m) ->
  exists row, get_member db' (s_id space) did = Some row /\ m_access row = m_access held
    /\ m_id row = m_id held /\ m_is_delegation row = false.
Proof.
  intros Hres Hheld. unfold put_member. rewrite Hres, Hheld. destruct (require_space_admin _ _ _); [|done].
  unfold get_member in Hheld. unfold add_member. rewrite Hheld. simpl. intros [= <- _].
  assert (Hrow : forall (b : bool) (row : MemberRow),
    get_member (if b then with_members db (<[(s_id space, did) := row]> (d_members db))
                else (revoke_member_credentials now (with_members db (<[(s_id space, did) := row]> (d_members db)))
                        space did).1) (s_id space) did = Some row).
  { intros [] row; apply lookup_insert_eq. }
  rewrite Hrow. eexists. split; [done|]. simpl. split_and!; [|done|done]. by destruct (m_access held).
Qed.

Lemma put_member_by_did_witness :
  exists row,
    get_member (match put_member (fun _ => false) "u" "now" (Chain.db "2" "1") "did:plc:owner"
                        "at://b9/space/c.f/k" "c" None None with Ok (d, _) => d | Err _ => Chain.db "2" "1" end)
      "b9" "c" = Some row
    /\ m_access row = READ /\ m_id row = "t" /\ m_is_delegation row = false.
Proof.
  apply (put_member_by_did (fun _ => false) "u" "now" (Chain.db "2" "1") _ "did:plc:owner" "at://b9/space/c.f/k" "c"
    {| m_id := "t"; m_access := READ; m_is_delegation := false; m_granted_by := Some "did:plc:owner";
       m_created_at := "now" |} (Chain.space "b9") (Chain.member READ true "t")); vm_compute; reflexivity.
Defined.

(** ** Invites *)

(** Invites under their ids, with distinct tokens, none used beyond its limit. *)
Definition invites_ok (db : SpaceDb) : Prop :=
  (forall id i, d_invites db !! id = Some i ->
     i_id i = id /\ match i_max_uses i with Some max => (i_uses i <= Z.max 0 max)%Z | None => True end)
  /\ forall id id' i i', d_invites db !! id = Some i -> d_invites db !! id' = Some i' ->
     i_token_hash i = i_token_hash i' -> id = id'.

Lemma get_invite_Some db h i :
  invites_ok db -> get_invite_by_token_hash db h = Some i <-> d_invites db !! i_id i = Some i /\ i_token_hash i = h.
Proof.
  intros [Hid Huniq]. unfold get_invite_by_token_hash.
  assert (Hin : forall j, j ∈ filter (fun i => i_token_hash i = h) (map_to_list (d_invites db)).*2
                 <-> d_invites db !! i_id j = Some j /\ i_token_hash j = h).
  { intros j. rewrite list_elem_of_filter, list_elem_of_fmap. split.
    - intros (Hh & [id j'] & -> & Hj%elem_of_map_to_list). simpl in *. by destruct (Hid id j' Hj) as [<- _].
    - intros [Hj Hh]. split; [done|]. exists (i_id j, j). split; [done|]. by apply elem_of_map_to_list. }
  destruct (filter _ _) as [|j l] eqn:E; simpl.
  - split; [done|]. intros Hi%Hin. by apply not_elem_of_nil in Hi.
  - assert (Hj : j ∈ j :: l) by set_solver. apply Hin in Hj as [Hj Hjh]. split; [intros [= <-]; done|].
    intros [Hi Hih]. f_equal. assert (i_id j = i_id i) by (eapply Huniq; [done..|congruence]). congruence.
Qed.

(** What accepting an invite can come to. *)
Lemma accept_invite_cases uuid now expired db did h :
  invites_ok db ->
  (exists e, accept_invite uuid now expired db did h = (db, Err e))
  \/ exists i uri, get_invite_by_token_hash db h = Some i
     /\ has_use i = true /\ match i_expires_at i with Some e => expired e = false | None => True end
     /\ get_member db (i_space_id i) did = None
     /\ accept_invite uuid now expired db did h =
        (with_members (with_invites db (<[i_id i := take_use i]> (d_invites db)))
           (<[(i_space_id i, did) := {| m_id := uuid; m_access := i_access i; m_is_delegation := false;
                                       m_granted_by := Some (i_created_by i); m_created_at := now |}]> (d_members db)),
         Ok (uri, i_access i)).
Proof.
  intros Hok. unfold accept_invite. destruct (get_invite_by_token_hash db h) as [i|] eqn:Hi; [|eauto].
  destruct (i_revoked i) eqn:Hrev; [eauto|].
  destruct (match i_max_uses i with Some _ => _ | None => _ end) eqn:Hmax; [eauto|].
  destruct (match i_expires_at i with Some _ => _ | None => _ end) eqn:Hexp; [eauto|].
  destruct (get_member db (i_space_id i) did) eqn:Hm; [eauto|].
  apply get_invite_Some in Hi as [Hi Hh]; [|done]. unfold claim_invite. rewrite Hi.
  destruct (negb (has_use i)) eqn:Huse; [eauto|]. simpl. unfold get_member in Hm. rewrite Hm.
  destruct (negb (has_space db (i_space_id i))) eqn:Hsp; [eauto|]. simpl.
  destruct (existsb _ _); [eauto|]. right. apply negb_false_iff, bool_decide_eq_true in Hsp as [s Hs].
  unfold get_space; simpl. rewrite Hs. eexists i, _. split_and!; [done|by apply negb_false_iff| |done|done].
  by destruct (i_expires_at i).
Qed.

Lemma take_use_ok db i members :
  invites_ok db -> d_invites db !! i_id i = Some i -> has_use i = true ->
  invites_ok (with_members (with_invites db (<[i_id i := take_use i]> (d_invites db))) members).
Proof.
  intros [Hid Huniq] Hi Huse. split; simpl.
  - intros id j. intros [[<- <-]|[_ Hj]]%lookup_insert_Some; [|by apply Hid]. split; [done|]. simpl.
    unfold has_use in Huse. destruct (i_max_uses i) as [max|]; [|done].
    apply andb_prop in Huse as [_ Huse]. apply Z.ltb_lt in Huse. lia.
  - intros id id' j j' Hj Hj' Hh. apply lookup_insert_Some in Hj as [[<- <-]|[Hne Hj]];
      apply lookup_insert_Some in Hj' as [[<- <-]|[Hne' Hj']]; [done|..]; simpl in *.
    + by eapply Huniq.
    + by eapply Huniq.
    + by eapply Huniq.
Qed.

(** An attempt to accept an invite. *)
Record Attempt : Type := { at_uuid : string; at_now : string; at_expired : string -> bool; at_did : string; at_hash : string }.

Fixpoint run_attempts (db : SpaceDb) (l : list Attempt) : SpaceDb * list (string * bool) :=
  match l with
  | [] => (db, [])
  | a :: l' =>
      let '(db1, r) := accept_invite (at_uuid a) (at_now a) (at_expired a) db (at_did a) (at_hash a) in
      let '(db2, rs) := run_attempts db1 l' in
      (db2, (at_hash a, is_ok r) :: rs)
  end.

Definition joins (h : string) (rs : list (string * bool)) : Z :=
  Z.of_nat (length (filter (fun r => r = (h, true)) rs)).

(** However many accounts try an invite, and in whatever order, no more of them
    join than it has uses left: each success takes one use, a failure none,
    and the tables keep the limit. *)
Theorem invite_limit_holds (db : SpaceDb) (l : list Attempt) (h : string) (i : SpaceInvite) (max : Z) :
  invites_ok db -> get_invite_by_token_hash db h = Some i -> i_max_uses i = Some max -> (0 <= i_uses i)%Z ->
  let '(db', rs) := run_attempts db l in
  invites_ok db' /\ (i_uses i + joins h rs <= Z.max (i_uses i) max)%Z
  /\ exists i', get_invite_by_token_hash db' h = Some i' /\ i_uses i' = (i_uses i + joins h rs)%Z.
Proof.
  revert db i. induction l as [|a l IH]; intros db i Hok Hi Hmax H0; simpl.
  { unfold joins; simpl. split_and!; [done|lia|]. exists i. split; [done|lia]. }
  destruct (accept_invite_cases (at_uuid a) (at_now a) (at_expired a) db (at_did a) (at_hash a) Hok)
    as [[e ->]|(j & uri & Hj & Huse & _ & _ & ->)].
  - specialize (IH db i Hok Hi Hmax H0). destruct (run_attempts db l) as [db' rs]. unfold joins in *.
    rewrite filter_cons, decide_False by (simpl; congruence). exact IH.
  - apply get_invite_Some in Hj as [Hj Hjh]; [|done]. apply get_invite_Some in Hi as [Hi Hih]; [|done].
    set (members := <[_ := _]> (d_members db)).
    assert (Hok' := take_use_ok db j members Hok Hj Huse).
    set (db1 := with_members _ _) in *. destruct (decide (at_hash a = h)) as [Ha|Hne].
    + assert (i = j) as <-.
      { destruct Hok as [_ Hu]. assert (i_id i = i_id j) by (eapply Hu; [done..|congruence]). congruence. }
      specialize (IH db1 (take_use i) Hok'). destruct (run_attempts db1 l) as [db' rs].
      destruct IH as (H1 & H2 & i' & Hi' & Hu); [|done|simpl; lia|].
      { apply get_invite_Some; [done|]. split; [|done]. unfold db1; simpl. by rewrite lookup_insert_eq. }
      unfold has_use in Huse. rewrite Hmax in Huse. apply andb_prop in Huse as [_ Huse]. apply Z.ltb_lt in Huse.
      simpl in H2, Hu. unfold joins in *. rewrite filter_cons, decide_True by (simpl; congruence). simpl length.
      split_and!; [done|lia|]. exists i'. split; [done|lia].
    + assert (Hdiff : i_id j <> i_id i) by congruence.
      specialize (IH db1 i Hok'). destruct (run_attempts db1 l) as [db' rs]. unfold joins in *.
      rewrite filter_cons, decide_False by (simpl; congruence). apply IH; [|done|done].
      apply get_invite_Some; [done|]. split; [|done]. unfold db1; simpl. by rewrite lookup_insert_ne.
Qed.

Module SampleInvite.

Definition invite : SpaceInvite :=
  {| i_id := "i"; i_space_id := "c"; i_token_hash := "h"; i_created_by := "did:plc:owner"; i_access := READ;
     i_max_uses := Some 1%Z; i_uses := 0; i_expires_at := None; i_revoked := false; i_created_at := "t" |}.

Definition db : SpaceDb := with_invites (Chain.db "1" "2") {[ "i" := invite ]}.

Definition attempt (uuid did : string) : Attempt :=
  {| at_uuid := uuid; at_now := "t"; at_expired := fun _ => false; at_did := did; at_hash := "h" |}.

Lemma db_ok : invites_ok db.
Proof.
  split; simpl.
  - intros id i [<- <-]%lookup_singleton_Some. split; [done|]. simpl. lia.
  - intros id id' i i' [<- _]%lookup_singleton_Some [<- _]%lookup_singleton_Some _. done.
Qed.

End SampleInvite.

Lemma invite_limit_holds_witness :
  let '(db', rs) := run_attempts SampleInvite.db [SampleInvite.attempt "u1" "did:plc:x"; SampleInvite.attempt "u2" "did:plc:y"] in
  invites_ok db' /\ (0 + joins "h" rs <= 1)%Z
  /\ exists i', get_invite_by_token_hash db' "h" = Some i' /\ i_uses i' = (0 + joins "h" rs)%Z.
Proof.
  apply (invite_limit_holds SampleInvite.db _ "h" SampleInvite.invite 1 SampleInvite.db_ok);
    [vm_compute; reflexivity..|vm_compute; discriminate].
Defined.
