(* ===== verification/SpaceWrites.v ===== *)
(** * Writes to a space repository

    Of [src/spaces/service.rs] the write path - staging a record, folding the
    operations into the repository hash, signing the commit, sequencing the
    writer - and its handlers [create_record], [put_record] and
    [delete_record]; of [src/spaces/routes.rs] the transaction of
    [apply_writes]; and [rebuild_repo_state] of [src/spaces/rebuild.rs].  The
    body of a handler between [begin_space_write] and [commit] is one
    transaction: an error leaves the tables as they were.  Clock, random bytes
    and fresh ids are arguments. *)

From stdpp Require Import list strings gmap.
From Stdlib Require Import ZArith Lia.
From S2P Require Import Prelude RustStr Words Json Cid Tombstones Decimal Tid LtHash SpaceTypes SpaceOplog.
From S2P Require Import SpaceCommit SpaceWriters SpaceDb SpaceMembers.

#[local] Open Scope Z_scope.

(** ** Data *)

Record AppliedOp : Type := {
  op_action : OplogAction;
  op_collection : string;
  op_rkey : string;
  op_new_cid : option string;
  op_old_cid : option string;
}.

Record CommittedWrite : Type := { cw_hash : list Z; cw_recorded : Recorded }.

(** What a write draws from its surroundings: the moment, the id of a new
    repository state, the ids of its log entries, and the commit's key
    material. *)
Record WriteEnv : Type := {
  we_moment : Moment;
  we_state_id : string;
  we_op_ids : nat -> string;
  we_ikm : list Z;
}.

(** [usize as i32] *)
Definition as_i32 (n : nat) : Z := (Z.of_nat n + 2 ^ 31) mod 2 ^ 32 - 2 ^ 31.

(** The URI of a record and of a space. *)
Definition uri_of_space (space : Space) : string := space_uri (s_did space) (s_type_nsid space) (s_skey space).

Definition record_uri (space : Space) (did collection rkey : string) : string :=
  uri_of_space space +:+ "/" +:+ did +:+ "/" +:+ collection +:+ "/" +:+ rkey.

Section Write.
Context {S : Serde} {H : Hashes} {K : Kdf} (P256 : Ecdsa) (backend : DatabaseBackend).

(** ** Committing *)

(** One operation folded into the set hash. *)
Definition fold_op (h : LtHashState) (op : AppliedOp) : LtHashState :=
  let h := match op_old_cid op with
           | Some old => remove h (record_element (op_collection op) (op_rkey op) old)
           | None => h
           end in
  match op_new_cid op with
  | Some new => add h (record_element (op_collection op) (op_rkey op) new)
  | None => h
  end.

Definition entry_of_op (env : WriteEnv) (space_id author_did rev : string) (idx : nat) (op : AppliedOp) : OplogEntry :=
  {| e_id := we_op_ids env idx; e_space_id := space_id; e_author_did := author_did; e_rev := rev;
     e_idx := as_i32 idx; e_action := op_action op; e_collection := op_collection op; e_rkey := op_rkey op;
     e_cid := op_new_cid op; e_prev := op_old_cid op; e_value := None;
     e_created_at := now_rfc3339 (we_moment env) |}.

(** The loop of [commit_write] from its operation [idx] on. *)
Fixpoint commit_ops (env : WriteEnv) (space_id author_did rev : string) (idx : nat) (ops : list AppliedOp)
    (h : LtHashState) (oplog : list OplogRow) : result (LtHashState * list OplogRow) AppError :=
  match ops with
  | [] => Ok (h, oplog)
  | op :: ops' =>
      let h := fold_op h op in
      let? oplog := append_op oplog (entry_of_op env space_id author_did rev idx op) in
      commit_ops env space_id author_did rev (Datatypes.S idx) ops' h oplog
  end.

(** The repository state after a commit. *)
Definition committed_state (state : RepoState) (h : LtHashState) (signed : SignedCommit) : RepoState :=
  {| rs_id := rs_id state; rs_lthash_state := as_bytes h; rs_rev := Some (c_rev signed);
     rs_hash := Some (c_hash signed); rs_ikm := Some (c_ikm signed); rs_sig := Some (c_sig signed);
     rs_mac := Some (c_mac signed); rs_host_mode := rs_host_mode state; rs_sync_cursor := rs_sync_cursor state;
     rs_updated_at := rs_updated_at state |}.

Definition commit_write (env : WriteEnv) (db : SpaceDb) (space : Space) (author_did rev : string)
    (ops : list AppliedOp) (key : signing_key P256) : result (SpaceDb * CommittedWrite) AppError :=
  let now := now_rfc3339 (we_moment env) in
  let? (db, repo_state) := get_or_create_repo_state db (we_state_id env) now (s_id space) author_did in
  if negb (Nat.eqb (length (rs_lthash_state repo_state)) STATE_BYTES)
  then Err (Internal "corrupt repo state: lthash is not 2048 bytes")
  else
    let set_hash := from_bytes (rs_lthash_state repo_state) in
    let? (set_hash, oplog) := commit_ops env (s_id space) author_did rev 0 ops set_hash (d_oplog db) in
    let db := with_oplog db oplog in
    let? signed := sign_commit P256 (we_ikm env) (hash set_hash) (uri_of_space space) author_did rev key in
    let db := update_repo_state db now (committed_state repo_state set_hash signed) in
    let db := update_space_revision db (s_id space) rev in
    let? (writers, recorded) := record (we_moment env) (d_writers db) (s_id space) author_did rev (c_hash signed) in
    Ok (with_writers db writers, {| cw_hash := c_hash signed; cw_recorded := recorded |}).

(** ** Staging a record *)

Definition stage_insert (env : WriteEnv) (db : SpaceDb) (rec : SpaceRecord) : result (SpaceDb * AppliedOp) AppError :=
  let? db := insert_space_record db (now_rfc3339 (we_moment env)) rec in
  Ok (db, {| op_action := OpCreate; op_collection := r_collection rec; op_rkey := r_rkey rec;
             op_new_cid := Some (r_cid rec); op_old_cid := None |}).

(** An upsert, unconditional or against the CID it must replace. *)
Definition stage_put (env : WriteEnv) (db : SpaceDb) (rec : SpaceRecord) (swap_cid : option string)
    : result (SpaceDb * AppliedOp) AppError :=
  let now := now_rfc3339 (we_moment env) in
  let? old_cid :=
    match swap_cid with
    | Some swap => Ok (Some swap)
    | None => let? held := get_space_record db (r_uri rec) in Ok (r_cid <$> held)
    end in
  let action := match old_cid with Some _ => OpUpdate | None => OpCreate end in
  let? db :=
    match swap_cid with
    | Some swap => upsert_space_record_with_swap db now rec swap
    | None => upsert_space_record backend db now rec
    end in
  Ok (db, {| op_action := action; op_collection := r_collection rec; op_rkey := r_rkey rec;
             op_new_cid := Some (r_cid rec); op_old_cid := old_cid |}).

Definition stage_delete (db : SpaceDb) (did uri collection rkey : string) (swap_cid : option string)
    : result (SpaceDb * AppliedOp) AppError :=
  let? (db, old_cid) :=
    match swap_cid with
    | Some swap => let? db := delete_space_record_with_swap db uri swap in Ok (db, swap)
    | None =>
        let? held := get_space_record db uri in
        match held with
        | Some r =>
            if negb (r_author_did r =s did) then Err (Forbidden "You can only delete your own records")
            else Ok ((delete_space_record db uri).1, r_cid r)
        | None => Err (NotFound "Record not found")
        end
    end in
  Ok (db, {| op_action := OpDelete; op_collection := collection; op_rkey := rkey; op_new_cid := None;
             op_old_cid := Some old_cid |}).

(** ** Handlers *)

Context `{C : CidCrate} {B : Base64} {D : DagCborCodec}.
Context (verify_credential : Space -> string -> result unit AppError).
(* the author's PDS, reached through its session: method, body *)
Context (pds : string -> value -> result value AppError).
(* the instance's signing key, where it has one *)
Context (service_signing_key : result (signing_key P256) AppError).

Definition content_cid (v : value) : result string AppError :=
  match compute_record_cid sha256 v with
  | Some cid => Ok (cid_to_string cid)
  | None => Err (BadRequest "record cannot be encoded as DAG-CBOR")
  end.

(** [forward_write_if_native] *)
Definition forward_write_if_native (db : SpaceDb) (space : Space) (author_did method : string) (body : value)
    : result (option value) AppError :=
  let host_mode := match read_repo_state db (s_id space) author_did with
                   | Some state => rs_host_mode state
                   | None => Polyfill
                   end in
  if is_authoritative_here host_mode then Ok None
  else let? answer := pds method body in Ok (Some answer).

Definition with_swap_record (body : list (string * value)) (swap_cid : option string) : value :=
  VObject (body ++ match swap_cid with Some swap => [("swapRecord", VString swap)] | None => [] end).

(** The URI and CID of a forwarded answer. *)
Definition forwarded_uri_cid (answer : value) : string * string :=
  (default "" (get answer "uri" ≫= as_str), default "" (get answer "cid" ≫= as_str)).

Definition new_record (space : Space) (did collection rkey : string) (record : value) (cid : string) : SpaceRecord :=
  {| r_uri := record_uri space did collection rkey; r_space_id := s_id space; r_author_did := did;
     r_collection := collection; r_rkey := rkey; r_record := record; r_cid := cid; r_indexed_at := "" |}.

(** [create_record]; [rkey] and [rev] are the two TIDs it draws. *)
Definition create_record (env : WriteEnv) (rkey rev : string) (db : SpaceDb) (did : string)
    (space_credential : option string) (space_ref collection : string) (record : value)
    : result (SpaceDb * (string * string)) AppError :=
  let? space := resolve_space db space_ref in
  let? _ := require_membership db verify_credential space did true space_credential in
  let? _ := check_collection_allowed space collection in
  let? forwarded := forward_write_if_native db space did "com.atproto.space.createRecord"
    (VObject [("space", VString (uri_of_space space)); ("repo", VString did);
              ("collection", VString collection); ("record", record)]) in
  match forwarded with
  | Some answer => Ok (db, forwarded_uri_cid answer)
  | None =>
      let? cid := content_cid record in
      let rec := new_record space did collection rkey record cid in
      let? key := service_signing_key in
      let? (db, op) := stage_insert env db rec in
      let? (db, _) := commit_write env db space did rev [op] key in
      Ok (db, (r_uri rec, cid))
  end.

(** [put_record] *)
Definition put_record (env : WriteEnv) (rev : string) (db : SpaceDb) (did : string)
    (space_credential : option string) (space_ref collection rkey : string) (record : value)
    (swap_cid : option string) : result (SpaceDb * (string * string)) AppError :=
  let? space := resolve_space db space_ref in
  let? _ := require_membership db verify_credential space did true space_credential in
  let? _ := check_collection_allowed space collection in
  let? forwarded := forward_write_if_native db space did "com.atproto.space.putRecord"
    (with_swap_record [("space", VString (uri_of_space space)); ("repo", VString did);
                       ("collection", VString collection); ("rkey", VString rkey); ("record", record)] swap_cid) in
  match forwarded with
  | Some answer => Ok (db, forwarded_uri_cid answer)
  | None =>
      let? cid := content_cid record in
      let rec := new_record space did collection rkey record cid in
      let? key := service_signing_key in
      let? (db, op) := stage_put env db rec swap_cid in
      let? (db, _) := commit_write env db space did rev [op] key in
      Ok (db, (r_uri rec, cid))
  end.

(** [delete_record] *)
Definition delete_record (env : WriteEnv) (rev : string) (db : SpaceDb) (did space_ref collection rkey : string)
    (swap_cid : option string) : result SpaceDb AppError :=
  let? space := resolve_space db space_ref in
  let? _ := require_membership db verify_credential space did true None in
  let? forwarded := forward_write_if_native db space did "com.atproto.space.deleteRecord"
    (with_swap_record [("space", VString (uri_of_space space)); ("repo", VString did);
                       ("collection", VString collection); ("rkey", VString rkey)] swap_cid) in
  match forwarded with
  | Some _ => Ok db
  | None =>
      let? key := service_signing_key in
      let? (db, op) := stage_delete db did (record_uri space did collection rkey) collection rkey swap_cid in
      let? (db, _) := commit_write env db space did rev [op] key in
      Ok db
  end.

(** ** Batches *)

Inductive WriteOp : Type :=
| WCreate (collection : string) (rkey : option string) (v : value)
| WUpdate (collection rkey : string) (v : value) (swap_record : option string)
| WDelete (collection rkey : string) (swap_record : option string).

(** One operation of [apply_writes]; [tid] is the key a create without one takes. *)
Definition stage_write (env : WriteEnv) (space : Space) (did tid : string) (db : SpaceDb) (w : WriteOp)
    : result (SpaceDb * AppliedOp) AppError :=
  match w with
  | WCreate collection rkey v =>
      let? _ := check_collection_allowed space collection in
      let? cid := content_cid v in
      stage_insert env db (new_record space did collection (default tid rkey) v cid)
  | WUpdate collection rkey v swap =>
      let? _ := check_collection_allowed space collection in
      let? cid := content_cid v in
      stage_put env db (new_record space did collection rkey v cid) swap
  | WDelete collection rkey swap =>
      stage_delete db did (record_uri space did collection rkey) collection rkey swap
  end.

(** The loop of [apply_writes]. *)
Fixpoint stage_writes (env : WriteEnv) (space : Space) (did : string) (tids : nat -> string) (n : nat)
    (db : SpaceDb) (writes : list WriteOp) : result (SpaceDb * list AppliedOp) AppError :=
  match writes with
  | [] => Ok (db, [])
  | w :: rest =>
      let? (db, op) := stage_write env space did (tids n) db w in
      let? (db, ops) := stage_writes env space did tids (Datatypes.S n) db rest in
      Ok (db, op :: ops)
  end.

(** [swapCommit] against the space's revision. *)
Definition check_swap_commit (space : Space) (swap_commit : option string) : result unit AppError :=
  match swap_commit with
  | None => Ok tt
  | Some expected =>
      match s_revision space with
      | Some current => if current =s expected then Ok tt else Err (Conflict "swapCommit mismatch")
      | None => if expected =s "" then Ok tt else Err (Conflict "swapCommit mismatch")
      end
  end.

(** The batch of [apply_writes] once the caller is known to write: the checks
    before the transaction and the transaction.  The [results] of the answer, one
    URI and CID per write, are left out. *)
Definition apply_writes (env : WriteEnv) (tids : nat -> string) (rev : string) (db : SpaceDb) (did : string)
    (space : Space) (swap_commit : option string) (writes : list WriteOp) (forward_body : value)
    : result (SpaceDb * option value) AppError :=
  let? _ := collect_results (fun w => match w with
      | WCreate collection _ _ | WUpdate collection _ _ _ => check_collection_allowed space collection
      | WDelete _ _ _ => Ok tt
      end) writes in
  let? forwarded := forward_write_if_native db space did "com.atproto.space.applyWrites" forward_body in
  match forwarded with
  | Some answer => Ok (db, Some answer)
  | None =>
      let? _ := check_swap_commit space swap_commit in
      let? key := service_signing_key in
      let? (db, ops) := stage_writes env space did tids 0 db writes in
      let? (db, _) := commit_write env db space did rev ops key in
      Ok (db, None)
  end.

(** ** Rebuilding *)

Inductive RevPolicy : Type := Preserve | Advance.

(** The fold over a repository's records. *)
Definition rebuild_hash (db : SpaceDb) (space_id author_did : string) : LtHashState :=
  foldl (fun h p => add h (record_element (rr_collection p.2) (rr_rkey p.2) (rr_cid p.2))) new
    (author_rows db space_id author_did).

(** [rebuild_repo_state]; [tid] is the revision an advance mints. *)
Definition rebuild_repo_state (env : WriteEnv) (tid : string) (db : SpaceDb) (space_id author_did : string)
    (key : signing_key P256) (policy : RevPolicy) : result (SpaceDb * bool) AppError :=
  match get_space db space_id with
  | None => Ok (db, false)
  | Some space =>
      let set_hash := rebuild_hash db space_id author_did in
      let now := now_rfc3339 (we_moment env) in
      let? (db, repo_state) := get_or_create_repo_state db (we_state_id env) now space_id author_did in
      match (match policy with Advance => Some tid | Preserve => rs_rev repo_state end) with
      | None => Ok (db, false)
      | Some rev =>
          let? signed := sign_commit P256 (we_ikm env) (hash set_hash) (uri_of_space space) author_did rev key in
          let db := update_repo_state db now (committed_state repo_state set_hash signed) in
          match policy with
          | Advance =>
              let db := update_space_revision db space_id rev in
              let? (writers, _) := record (we_moment env) (d_writers db) space_id author_did rev (c_hash signed) in
              Ok (with_writers db writers, true)
          | Preserve =>
              Ok (with_writers db (replace_hash (we_moment env) (d_writers db) space_id author_did rev
                                     (c_hash signed)), true)
          end
      end
  end.

End Write.

(** ** Addresses *)

Definition no_slash (s : string) : Prop := contains_char "/" s = false.

(** A space whose URI parts hold no slash, as every resolved space's do. *)
Definition plain_space (s : Space) : Prop := no_slash (s_did s) /\ no_slash (s_type_nsid s) /\ no_slash (s_skey s).

(** The path of a record in its repository. *)
Definition path (collection rkey : string) : string := collection +:+ "/" +:+ rkey.

Definition repo_prefix (space : Space) (did : string) : string := uri_of_space space +:+ "/" +:+ did +:+ "/".

Lemma record_uri_path space did collection rkey :
  record_uri space did collection rkey = repo_prefix space did +:+ path collection rkey.
Proof.
  unfold record_uri, repo_prefix, path. rewrite !append_assoc. simpl. by rewrite !append_assoc.
Qed.

Lemma cancel_segment c a b a' b' :
  contains_char c a = false -> contains_char c a' = false ->
  a +:+ String c b = a' +:+ String c b' -> a = a' /\ b = b'.
Proof.
  intros Ha Ha' E. apply (f_equal (str_split_once (Ascii.eqb c))) in E.
  rewrite !str_split_once_app in E by (done || apply Ascii.eqb_refl). by injection E.
Qed.

(** A repository's prefix tells its space and author. *)
Lemma repo_prefix_inj s a p s' a' p' :
  plain_space s -> plain_space s' -> no_slash a -> no_slash a' ->
  repo_prefix s a +:+ p = repo_prefix s' a' +:+ p' ->
  s_did s = s_did s' /\ s_type_nsid s = s_type_nsid s' /\ s_skey s = s_skey s' /\ a = a' /\ p = p'.
Proof.
  intros (Hd & Ht & Hk) (Hd' & Ht' & Hk') Ha Ha' E.
  unfold repo_prefix, uri_of_space, space_uri in E. rewrite !append_assoc in E.
  apply append_cancel_l in E. cbn [String.append] in E.
  apply cancel_segment in E as [Ed E]; [|done..].
  injection E as E. cbn [String.append] in E.
  rewrite ?append_assoc in E. cbn [String.append] in E.
  apply cancel_segment in E as [Et E]; [|done..]. rewrite ?append_assoc in E. cbn [String.append] in E.
  apply cancel_segment in E as [Ek E]; [|done..]. rewrite ?append_assoc in E. cbn [String.append] in E.
  apply cancel_segment in E as [Ea E]; [|done..]. by split_and!.
Qed.

(** The element of a record is that of its path. *)
Lemma record_element_path c r cid : record_element c r cid = str_bytes (path c r +:+ "/" +:+ cid).
Proof. unfold record_element, path. by rewrite !append_assoc. Qed.

Lemma record_element_path_eq c r c' r' cid : path c r = path c' r' -> record_element c r cid = record_element c' r' cid.
Proof. intros E. by rewrite !record_element_path, E. Qed.

Lemma repo_prefix_revision rev s a : repo_prefix (set_revision rev s) a = repo_prefix s a.
Proof. done. Qed.

#[local] Opaque repo_prefix path.

(** ** Counting elements *)

Definition row_element (r : RecordRow) : list Z := record_element (rr_collection r) (rr_rkey r) (rr_cid r).

Definition mine (space_id author_did : string) (r : RecordRow) : bool :=
  (rr_space_id r =s space_id) && (rr_author_did r =s author_did).

(** How often the records of a repository have an element. *)
Definition unit_net (space_id author_did : string) (e : list Z) (r : RecordRow) : Z :=
  if mine space_id author_did r && bool_decide (row_element r = e) then 1 else 0.

Definition rows_net (m : gmap string RecordRow) (space_id author_did : string) (e : list Z) : Z :=
  foldr (fun p n => unit_net space_id author_did e p.2 + n) 0 (map_to_list m).

Lemma rows_net_perm l l' s a e :
  l ≡ₚ l' ->
  foldr (fun (p : string * RecordRow) n => unit_net s a e p.2 + n) 0 l
  = foldr (fun p n => unit_net s a e p.2 + n) 0 l'.
Proof. induction 1; simpl; lia. Qed.

Lemma rows_net_insert_new m k r s a e :
  m !! k = None -> rows_net (<[k := r]> m) s a e = unit_net s a e r + rows_net m s a e.
Proof. intros Hk. unfold rows_net. rewrite (rows_net_perm _ _ s a e (map_to_list_insert m k r Hk)). done. Qed.

Lemma rows_net_delete m k r s a e :
  m !! k = Some r -> rows_net (delete k m) s a e = rows_net m s a e - unit_net s a e r.
Proof.
  intros Hk. assert (Hm : m = <[k := r]> (delete k m)) by by rewrite insert_delete_id.
  assert (Hn : rows_net m s a e = unit_net s a e r + rows_net (delete k m) s a e); [|lia].
  rewrite Hm at 1. apply rows_net_insert_new, lookup_delete_eq.
Qed.

Lemma rows_net_replace m k r r' s a e :
  m !! k = Some r -> rows_net (<[k := r']> m) s a e = rows_net m s a e - unit_net s a e r + unit_net s a e r'.
Proof.
  intros Hk. rewrite <- insert_delete_eq, rows_net_insert_new by apply lookup_delete_eq.
  rewrite (rows_net_delete m k r s a e Hk). lia.
Qed.

(** The records of a repository as a history of additions. *)
Definition record_ops (db : SpaceDb) (space_id author_did : string) : list op :=
  (fun p => Add (row_element p.2)) <$> author_rows db space_id author_did.

Lemma net_record_ops db s a e : net (record_ops db s a) e = rows_net (d_records db) s a e.
Proof.
  unfold record_ops, author_rows, rows_net, unit_net, mine.
  induction (map_to_list (d_records db)) as [|[k r] l IH]; [done|]. simpl foldr. rewrite filter_cons.
  case_decide as Hm; cbn [snd] in Hm.
  - rewrite fmap_cons. cbn [net foldr op_element op_sign]. fold (net ((fun p => Add (row_element p.2)) <$>
      filter (fun p : string * RecordRow => (rr_space_id p.2 =s s) && (rr_author_did p.2 =s a)) l) e).
    rewrite IH. apply Is_true_true in Hm. simpl. rewrite Hm. simpl.
    destruct (decide (row_element r = e)); [rewrite bool_decide_true by done|rewrite bool_decide_false by done]; done.
  - rewrite IH. simpl. apply Is_true_false in Hm. by rewrite Hm.
Qed.

Lemma net_app l1 l2 e : net (l1 ++ l2) e = net l1 e + net l2 e.
Proof. unfold net. induction l1 as [|o l1 IH]; simpl; [done|]. rewrite IH. lia. Qed.

(** An operation as additions and removals of the hash. *)
Definition op_steps (o : AppliedOp) : list op :=
  match op_old_cid o with
  | Some old => [Remove (record_element (op_collection o) (op_rkey o) old)]
  | None => []
  end
  ++ match op_new_cid o with
     | Some new => [Add (record_element (op_collection o) (op_rkey o) new)]
     | None => []
     end.

Lemma fold_op_steps {H : Hashes} h o : fold_op h o = foldl step h (op_steps o).
Proof. unfold fold_op, op_steps. by destruct (op_old_cid o), (op_new_cid o). Qed.

(** ** What the tables keep *)

Definition same_address (s s' : Space) : Prop :=
  s_did s = s_did s' /\ s_type_nsid s = s_type_nsid s' /\ s_skey s = s_skey s'.

(** Spaces under their ids with distinct addresses; every record under the URI
    its columns spell. *)
Definition spaces_ok (db : SpaceDb) : Prop :=
  (forall id s, d_spaces db !! id = Some s -> s_id s = id)
  /\ forall id id' s s', d_spaces db !! id = Some s -> d_spaces db !! id' = Some s' -> same_address s s' -> id = id'.

Definition records_ok (db : SpaceDb) : Prop :=
  forall uri r, d_records db !! uri = Some r ->
  exists s, d_spaces db !! rr_space_id r = Some s /\ plain_space s /\ no_slash (rr_author_did r)
    /\ uri = repo_prefix s (rr_author_did r) +:+ path (rr_collection r) (rr_rkey r).

(** The index of a repository: the CID at each path. *)
Definition cid_at (db : SpaceDb) (space : Space) (did p : string) : option string :=
  rr_cid <$> d_records db !! (repo_prefix space did +:+ p).

(** Replaying operations on an index: each must replace what is there. *)
Definition replay_op (m : gmap string string) (p : string) (cid prev : option string) : option (gmap string string) :=
  if bool_decide (m !! p = prev)
  then Some (match cid with Some c => <[p := c]> m | None => delete p m end)
  else None.

Fixpoint replay (l : list AppliedOp) (m : gmap string string) : option (gmap string string) :=
  match l with
  | [] => Some m
  | o :: l' => m' ← replay_op m (path (op_collection o) (op_rkey o)) (op_new_cid o) (op_old_cid o); replay l' m'
  end.

Definition tracks (db : SpaceDb) (space : Space) (did : string) (m : gmap string string) : Prop :=
  forall p, m !! p = cid_at db space did p.

(** Operations staged in the tables: they touch one repository's records, and
    do to its elements and to its index what they say. *)
Record staged (space : Space) (did : string) (db db' : SpaceDb) (ops : list AppliedOp) : Prop := {
  st_frame : db' = with_records db (d_records db');
  st_rows : records_ok db';
  st_net : forall s a e,
    rows_net (d_records db') s a e
    = rows_net (d_records db) s a e
      + (if bool_decide (s = s_id space /\ a = did) then net (ops ≫= op_steps) e else 0);
  st_index : forall m, tracks db space did m -> exists m', replay ops m = Some m' /\ tracks db' space did m';
  st_other : forall s a p, plain_space s -> no_slash a -> ~ (same_address s space /\ a = did) ->
    cid_at db' s a p = cid_at db s a p;
}.

Section Staging.
Context (space : Space) (did : string) (Hplain : plain_space space) (Hdid : no_slash did).

Lemma repo_key_ne s a p c r :
  plain_space s -> no_slash a -> ~ (same_address s space /\ a = did) ->
  repo_prefix s a +:+ p <> repo_prefix space did +:+ path c r.
Proof. intros Hs Ha Hne E. apply repo_prefix_inj in E as (? & ? & ? & ? & _); [|done..]. by apply Hne. Qed.

(** The row at a URI of the repository is the repository's. *)
Lemma held_mine db c r held :
  spaces_ok db -> records_ok db -> d_spaces db !! s_id space = Some space ->
  d_records db !! (repo_prefix space did +:+ path c r) = Some held ->
  rr_space_id held = s_id space /\ rr_author_did held = did /\ path (rr_collection held) (rr_rkey held) = path c r.
Proof.
  intros [Hid Huniq] Hrec Hsp Hheld. destruct (Hrec _ _ Hheld) as (s & Hs & Hps & Ha & E).
  apply repo_prefix_inj in E as (Ed & Et & Ek & Ea & Ep); [|done..]. split_and!; [|done|done].
  symmetry. eapply Huniq; [done..|]. by split_and!.
Qed.

Lemma unit_net_mine c r s a e row :
  rr_space_id row = s_id space -> rr_author_did row = did -> path (rr_collection row) (rr_rkey row) = path c r ->
  unit_net s a e row
  = if bool_decide (s = s_id space /\ a = did) then net [Add (record_element c r (rr_cid row))] e else 0.
Proof.
  intros Hs Ha Hp. unfold unit_net, mine, row_element. rewrite Hs, Ha, (record_element_path_eq _ _ c r _ Hp).
  cbn [net foldr op_element op_sign].
  destruct (String.eqb_spec (s_id space) s) as [<-|]; [|by rewrite (bool_decide_false (_ /\ _)) by (intros [? ?]; congruence)].
  destruct (String.eqb_spec did a) as [<-|]; [|by rewrite (bool_decide_false (_ /\ _)) by (intros [? ?]; congruence)].
  rewrite (bool_decide_true (s_id space = s_id space /\ did = did)) by done. simpl.
  destruct (decide (record_element c r (rr_cid row) = e)); [by rewrite bool_decide_true by done|].
  by rewrite bool_decide_false by done.
Qed.

Context (db : SpaceDb) (Hspaces : spaces_ok db) (Hrecords : records_ok db)
  (Hsp : d_spaces db !! s_id space = Some space).

Lemma with_records_same m : with_records db m = with_records db (d_records (with_records db m)).
Proof. done. Qed.

Lemma tracks_replay_op db' c r cid prev m :
  tracks db space did m -> prev = cid_at db space did (path c r) ->
  cid_at db' space did (path c r) = cid ->
  (forall p, p <> path c r -> cid_at db' space did p = cid_at db space did p) ->
  exists m', replay_op m (path c r) cid prev = Some m' /\ tracks db' space did m'.
Proof.
  intros Ht Hprev Hcid Hother. unfold replay_op. rewrite bool_decide_true by (rewrite Ht; done).
  eexists. split; [done|]. intros p. destruct (decide (p = path c r)) as [->|Hne].
  - rewrite Hcid. destruct cid; [apply lookup_insert_eq|apply lookup_delete_eq].
  - rewrite Hother by done. rewrite <- Ht. destruct cid; [by rewrite lookup_insert_ne|by rewrite lookup_delete_ne].
Qed.

Lemma cid_at_ne (m : gmap string RecordRow) row c r p :
  p <> path c r ->
  cid_at (with_records db (<[repo_prefix space did +:+ path c r := row]> m)) space did p
  = cid_at (with_records db m) space did p
  /\ cid_at (with_records db (delete (repo_prefix space did +:+ path c r) m)) space did p
  = cid_at (with_records db m) space did p.
Proof.
  intros Hne. unfold cid_at; simpl.
  rewrite lookup_insert_ne, lookup_delete_ne by (intros E; apply append_cancel_l in E; congruence). done.
Qed.

(** Writing a row at a path of the repository. *)
Lemma staged_write c r row action :
  let uri := repo_prefix space did +:+ path c r in
  rr_space_id row = s_id space -> rr_author_did row = did -> path (rr_collection row) (rr_rkey row) = path c r ->
  staged space did db (with_records db (<[uri := row]> (d_records db)))
    [{| op_action := action; op_collection := c; op_rkey := r; op_new_cid := Some (rr_cid row);
        op_old_cid := cid_at db space did (path c r) |}].
Proof.
  intros uri Hs Ha Hp. split.
  - done.
  - intros u x Hx. simpl in Hx. apply lookup_insert_Some in Hx as [[<- <-]|[_ Hx]]; [|by apply Hrecords].
    exists space. rewrite Hs, Ha, Hp. done.
  - intros s a e. simpl. rewrite app_nil_r. unfold op_steps, cid_at; simpl. fold uri.
    destruct (d_records db !! uri) as [held|] eqn:Hheld; simpl.
    + destruct (held_mine db c r held Hspaces Hrecords Hsp Hheld) as (Hs' & Ha' & Hp').
      rewrite (rows_net_replace _ _ held) by done.
      rewrite (unit_net_mine c r s a e row), (unit_net_mine c r s a e held) by done.
      case_bool_decide; [|lia]. cbn [app net foldr op_element op_sign]. repeat case_decide; lia.
    + rewrite rows_net_insert_new by done. rewrite (unit_net_mine c r s a e row) by done.
      case_bool_decide; [|lia]. cbn [app net foldr op_element op_sign]. repeat case_decide; lia.
  - intros m Hm. simpl. destruct (tracks_replay_op (with_records db (<[uri := row]> (d_records db))) c r
      (Some (rr_cid row)) (cid_at db space did (path c r)) m Hm eq_refl) as (m' & -> & Ht); [| |by exists m'].
    + unfold cid_at; simpl. by rewrite lookup_insert_eq.
    + intros p Hne. by apply (cid_at_ne (d_records db) row c r p).
  - intros s a p Hs' Ha' Hne. unfold cid_at; simpl. rewrite lookup_insert_ne; [done|].
    intros E. by apply (repo_key_ne s a p c r).
Qed.

(** Deleting the row at a path of the repository. *)
Lemma staged_erase c r held :
  let uri := repo_prefix space did +:+ path c r in
  d_records db !! uri = Some held ->
  staged space did db (with_records db (delete uri (d_records db)))
    [{| op_action := OpDelete; op_collection := c; op_rkey := r; op_new_cid := None; op_old_cid := Some (rr_cid held) |}].
Proof.
  intros uri Hheld.
  destruct (held_mine db c r held Hspaces Hrecords Hsp Hheld) as (Hs' & Ha' & Hp'). split.
  - done.
  - intros u x Hx. simpl in Hx. apply lookup_delete_Some in Hx as [_ Hx]. by apply Hrecords.
  - intros s a e. simpl. rewrite (rows_net_delete _ _ held) by done.
    rewrite (unit_net_mine c r s a e held) by done. unfold op_steps; simpl.
    case_bool_decide; [|lia]. cbn [app net foldr op_element op_sign]. repeat case_decide; lia.
  - intros m Hm. simpl. destruct (tracks_replay_op (with_records db (delete uri (d_records db))) c r
      None (Some (rr_cid held)) m Hm) as (m' & -> & Ht); [| | |by exists m'].
    + unfold cid_at. fold uri. by rewrite Hheld.
    + unfold cid_at; simpl. fold uri. by rewrite lookup_delete_eq.
    + intros p Hne. by apply (cid_at_ne (d_records db) held c r p).
  - intros s a p Hs Ha Hne. unfold cid_at; simpl. rewrite lookup_delete_ne; [done|].
    intros E. by apply (repo_key_ne s a p c r).
Qed.

End Staging.

Lemma replay_app l1 l2 m : replay (l1 ++ l2) m = replay l1 m ≫= replay l2.
Proof.
  revert m. induction l1 as [|o l1 IH]; intros m; [done|]. cbn [app replay].
  destruct (replay_op _ _ _ _); simpl; [apply IH|done].
Qed.

Lemma staged_nil space did db : records_ok db -> staged space did db db [].
Proof.
  intros Hr. split; [by destruct db|done| | |done].
  - intros s a e. case_bool_decide; [|lia]. unfold net; simpl. lia.
  - intros m Hm. by exists m.
Qed.

Lemma staged_trans space did db1 db2 db3 ops1 ops2 :
  staged space did db1 db2 ops1 -> staged space did db2 db3 ops2 -> staged space did db1 db3 (ops1 ++ ops2).
Proof.
  intros S1 S2. split.
  - rewrite (st_frame _ _ _ _ _ S2), (st_frame _ _ _ _ _ S1) at 1. done.
  - apply S2.
  - intros s a e. rewrite (st_net _ _ _ _ _ S2), (st_net _ _ _ _ _ S1), bind_app, net_app.
    case_bool_decide; lia.
  - intros m Hm. destruct (st_index _ _ _ _ _ S1 m Hm) as (m1 & E1 & T1).
    destruct (st_index _ _ _ _ _ S2 m1 T1) as (m2 & E2 & T2). exists m2. split; [|done].
    by rewrite replay_app, E1.
  - intros s a p Hs Ha Hne. by rewrite (st_other _ _ _ _ _ S2), (st_other _ _ _ _ _ S1).
Qed.

Section StageOps.
Context {S : Serde} (backend : DatabaseBackend).
Context (space : Space) (did : string) (Hplain : plain_space space) (Hdid : no_slash did).
Context (db : SpaceDb) (Hspaces : spaces_ok db) (Hrecords : records_ok db)
  (Hsp : d_spaces db !! s_id space = Some space).

Lemma get_space_record_Ok uri held :
  get_space_record db uri = Ok held ->
  r_cid <$> held = rr_cid <$> d_records db !! uri
  /\ forall r, held = Some r -> exists row, d_records db !! uri = Some row /\ r_author_did r = rr_author_did row.
Proof.
  unfold get_space_record, parse_record_row. destruct (d_records db !! uri) as [row|]; [|by intros [= <-]].
  destruct (from_str (rr_text row)); [|done]. intros [= <-]. split; [done|]. intros r [= <-]. eauto.
Qed.

Lemma stage_insert_staged env c r v cid db' op :
  stage_insert env db (new_record space did c r v cid) = Ok (db', op) -> staged space did db db' [op].
Proof.
  unfold stage_insert, insert_space_record, new_record; simpl. rewrite record_uri_path.
  case_bool_decide as Hfree; [done|]. destruct (has_space db (s_id space)); [|done]. intros [= <- <-].
  assert (Hnone : cid_at db space did (path c r) = None).
  { unfold cid_at. apply eq_None_not_Some in Hfree. by rewrite Hfree. }
  rewrite <- Hnone.
  match goal with |- context [<[_ := ?row]> _] =>
    by apply (staged_write space did Hplain Hdid db Hspaces Hrecords Hsp c r row) end.
Qed.

Lemma stage_put_staged env c r v cid swap db' op :
  stage_put backend env db (new_record space did c r v cid) swap = Ok (db', op) -> staged space did db db' [op].
Proof.
  unfold stage_put. set (rec := new_record space did c r v cid). set (now := now_rfc3339 _).
  assert (Huri : r_uri rec = repo_prefix space did +:+ path c r) by apply record_uri_path.
  assert (Hset : forall held action, d_records db !! r_uri rec = Some held ->
    staged space did db (with_records db (<[r_uri rec := set_content now rec held]> (d_records db)))
      [{| op_action := action; op_collection := c; op_rkey := r; op_new_cid := Some cid;
          op_old_cid := Some (rr_cid held) |}]).
  { intros held action Hheld. rewrite Huri in Hheld |- *.
    destruct (held_mine space did Hplain Hdid db c r held Hspaces Hrecords Hsp Hheld) as (Hs & Ha & Hp).
    assert (Hcid : cid_at db space did (path c r) = Some (rr_cid held)) by (unfold cid_at; by rewrite Hheld).
    rewrite <- Hcid. by apply (staged_write space did Hplain Hdid db Hspaces Hrecords Hsp c r (set_content now rec held)). }
  destruct swap as [swap|].
  - unfold upsert_space_record_with_swap. destruct (d_records db !! r_uri rec) as [held|] eqn:Hheld.
    + destruct (String.eqb_spec (rr_cid held) swap) as [<-|]; [|unfold swap_missed; by repeat case_match].
      intros [= <- <-]. by apply Hset.
    + unfold swap_missed. by repeat case_match.
  - destruct (get_space_record db (r_uri rec)) as [old|] eqn:Hget; [|done].
    apply get_space_record_Ok in Hget as [Hold _]. rewrite Hold.
    assert (Hwrite : forall action,
      staged space did db (with_records db (<[r_uri rec := row_of_record now rec]> (d_records db)))
        [{| op_action := action; op_collection := c; op_rkey := r; op_new_cid := Some cid;
            op_old_cid := rr_cid <$> d_records db !! r_uri rec |}]).
    { intros action. rewrite Huri.
      by apply (staged_write space did Hplain Hdid db Hspaces Hrecords Hsp c r (row_of_record now rec)). }
    unfold upsert_space_record. destruct backend, (d_records db !! r_uri rec) as [held|] eqn:Hheld; simpl;
      try (destruct (has_space db (s_id space)); [|done]); intros [= <- <-]; try apply Hwrite.
    by apply Hset.
Qed.

Lemma stage_delete_staged c r swap db' op :
  stage_delete db did (record_uri space did c r) c r swap = Ok (db', op) -> staged space did db db' [op].
Proof.
  unfold stage_delete. rewrite record_uri_path. destruct swap as [swap|].
  - unfold delete_space_record_with_swap.
    destruct (d_records db !! (repo_prefix space did +:+ path c r)) as [held|] eqn:Hheld.
    + destruct (String.eqb_spec (rr_cid held) swap) as [<-|]; [|unfold swap_missed; by repeat case_match].
      intros [= <- <-]. by apply staged_erase.
    + unfold swap_missed. by repeat case_match.
  - destruct (get_space_record db _) as [[old|]|] eqn:Hget; [|done..].
    destruct (negb (r_author_did old =s did)); [done|]. intros [= <- <-].
    apply get_space_record_Ok in Hget as [Hcid Hrow]. destruct (Hrow old eq_refl) as (row & Hrow' & _).
    rewrite Hrow' in Hcid. injection Hcid as ->. by apply staged_erase.
Qed.

End StageOps.

(** ** Commits *)

Definition states_ok (db : SpaceDb) : Prop :=
  forall k k' x x', d_repo_states db !! k = Some x -> d_repo_states db !! k' = Some x' -> rs_id x = rs_id x' -> k = k'.

Lemma get_or_create_spec db uuid now s a db' rs :
  states_ok db -> get_or_create_repo_state db uuid now s a = Ok (db', rs) ->
  db' = with_repo_states db (d_repo_states db') /\ states_ok db'
  /\ d_repo_states db' !! (s, a) = Some rs
  /\ (forall k, k <> (s, a) -> d_repo_states db' !! k = d_repo_states db !! k)
  /\ (d_repo_states db !! (s, a) = Some rs \/ (d_repo_states db !! (s, a) = None /\ rs = new_repo_state uuid now)).
Proof.
  intros Hids. unfold get_or_create_repo_state, read_repo_state.
  destruct (d_repo_states db !! (s, a)) as [held|] eqn:Hheld.
  { intros [= <- <-]. split_and!; [by destruct db|done|done|done|by left]. }
  destruct (id_taken db uuid) eqn:Htaken; [done|]. destruct (has_space db s); [|done]. simpl.
  intros [= <- <-]. split_and!; [done| |apply lookup_insert_eq|by intros; apply lookup_insert_ne|by right].
  assert (Hfresh : forall k x, d_repo_states db !! k = Some x -> rs_id x <> uuid).
  { intros k x Hx Heq. enough (id_taken db uuid = true) by congruence. apply existsb_exists.
    exists (k, x). split; [by apply list_elem_of_In, elem_of_map_to_list|]. simpl. by rewrite Heq, String.eqb_refl. }
  intros k k' x x'. cbn [d_repo_states with_repo_states]. rewrite !lookup_insert_Some.
  intros [[<- <-]|[Hk Hx]] [[<- <-]|[Hk' Hx']] E; [done| | |by eapply Hids]; exfalso.
  - by apply (Hfresh k' x').
  - by apply (Hfresh k x).
Qed.

(** Updating a state by its id changes that row alone. *)
Lemma update_repo_state_spec db now rs s a held :
  states_ok db -> d_repo_states db !! (s, a) = Some held -> rs_id held = rs_id rs ->
  let db' := update_repo_state db now rs in
  states_ok db'
  /\ (forall k, k <> (s, a) -> d_repo_states db' !! k = d_repo_states db !! k)
  /\ exists rs', d_repo_states db' !! (s, a) = Some rs' /\ rs_lthash_state rs' = rs_lthash_state rs
     /\ rs_hash rs' = rs_hash rs /\ rs_rev rs' = rs_rev rs /\ rs_host_mode rs' = rs_host_mode rs.
Proof.
  intros Hids Hheld Hid db'. split_and!.
  - intros k k' x x'. unfold db', update_repo_state; simpl. rewrite !lookup_fmap_Some.
    intros (y & Ey & Hy) (y' & Ey' & Hy') E. subst x x'. apply (Hids k k' y y' Hy Hy').
    by repeat case_match; simpl in *.
  - intros k Hk. unfold db', update_repo_state; simpl. rewrite lookup_fmap.
    destruct (d_repo_states db !! k) as [y|] eqn:Hy; [|done]. simpl. f_equal.
    destruct (String.eqb_spec (rs_id y) (rs_id rs)) as [E|]; [|done].
    exfalso. apply Hk. eapply Hids; [done..|congruence].
  - unfold db', update_repo_state; simpl. rewrite lookup_fmap, Hheld. simpl. rewrite Hid, String.eqb_refl.
    eexists. split; [done|]. done.
Qed.

(** The rows a commit adds to the log. *)
Definition op_row (env : WriteEnv) (s a rev : string) (idx : nat) (o : AppliedOp) : OplogRow :=
  row_of (entry_of_op env s a rev idx o).

Fixpoint op_rows (env : WriteEnv) (s a rev : string) (idx : nat) (ops : list AppliedOp) : list OplogRow :=
  match ops with
  | [] => []
  | o :: ops' => op_row env s a rev idx o :: op_rows env s a rev (S idx) ops'
  end.

Lemma commit_ops_spec {H : Hashes} env s a rev ops : forall idx h log h' log',
  commit_ops env s a rev idx ops h log = Ok (h', log') ->
  h' = foldl step h (ops ≫= op_steps) /\ log' = log ++ op_rows env s a rev idx ops.
Proof.
  induction ops as [|o ops IH]; intros idx h log h' log'; cbn [commit_ops op_rows].
  { intros [= <- <-]. by rewrite app_nil_r. }
  destruct (append_op log _) as [log1|] eqn:Happ; [|done]. intros Hc. apply IH in Hc as [-> ->].
  unfold append_op in Happ. case_match; [done|]. injection Happ as <-.
  rewrite bind_cons, foldl_app, <- fold_op_steps, <- app_assoc. done.
Qed.

(** The stored state and digest of a repository are those of its records. *)
Definition hashed {H : Hashes} (db : SpaceDb) (s a : string) : Prop :=
  match d_repo_states db !! (s, a) with
  | Some rs =>
      rs_lthash_state rs = as_bytes (run (record_ops db s a))
      /\ forall d, rs_hash rs = Some d -> d = hash (run (record_ops db s a))
  | None => record_ops db s a = []
  end.

Lemma from_as_bytes_run {H : Hashes} l : from_bytes (as_bytes (run l)) = run l.
Proof. unfold from_bytes. rewrite lanes_as_bytes by apply run_wf. by destruct (run l). Qed.

Lemma new_state_bytes : replicate 2048 0 = as_bytes new.
Proof. by vm_compute. Qed.

Lemma record_ops_ext db db' s a : d_records db' = d_records db -> record_ops db' s a = record_ops db s a.
Proof. intros E. unfold record_ops, author_rows. by rewrite E. Qed.

Lemma record_ops_run {H : Hashes} db db' s a l :
  (forall e, rows_net (d_records db') s a e = rows_net (d_records db) s a e + net l e) ->
  run (record_ops db' s a) = run (record_ops db s a ++ l).
Proof. intros Hn. apply run_net. intros e. rewrite net_app, !net_record_ops. apply Hn. Qed.

Lemma record_ops_nil db s a : (forall e, rows_net (d_records db) s a e = 0) -> record_ops db s a = [].
Proof.
  intros Hn. destruct (record_ops db s a) as [|o l] eqn:E; [done|]. exfalso.
  assert (Hadd : Forall (fun o => op_sign o = 1) (record_ops db s a)).
  { unfold record_ops. apply Forall_fmap, Forall_true. done. }
  specialize (Hn (op_element o)). rewrite <- net_record_ops, E in Hn. rewrite E in Hadd.
  inversion Hadd as [|? ? Ho Hl]; subst. cbn [net foldr] in Hn. rewrite decide_True in Hn by done. rewrite Ho in Hn.
  assert (Hpos : 0 <= net l (op_element o)).
  { clear -Hl. induction Hl as [|x l Hx _ IH]; [done|]. cbn [net foldr]. fold (net l (op_element o)).
    case_decide; lia. }
  fold (net l (op_element o)) in Hn. lia.
Qed.

Lemma update_revision_lookup db id rev k s :
  d_spaces (update_space_revision db id rev) !! k = Some s ->
  exists s0, d_spaces db !! k = Some s0 /\ (s = s0 \/ s = set_revision (Some rev) s0).
Proof. unfold update_space_revision; simpl. rewrite lookup_alter_Some. naive_solver. Qed.

Lemma update_revision_ok db id rev :
  let db' := update_space_revision db id rev in
  (spaces_ok db -> spaces_ok db') /\ (records_ok db -> records_ok db').
Proof.
  assert (Hlook := update_revision_lookup db id rev). split.
  - intros [Hid Huniq]. split.
    + intros k s (s0 & Hs0 & [->| ->])%Hlook; by apply Hid in Hs0.
    + intros k k' s s' (s0 & Hs0 & Es)%Hlook (s0' & Hs0' & Es')%Hlook Hsame.
      eapply Huniq; [done..|]. destruct Es as [->| ->], Es' as [->| ->]; done.
  - intros Hrec uri r Hr. destruct (Hrec uri r Hr) as (s & Hs & Hplain & Ha & E).
    unfold update_space_revision; simpl. destruct (decide (rr_space_id r = id)) as [<-|Hne].
    + exists (set_revision (Some rev) s). rewrite lookup_alter_eq, Hs. by rewrite repo_prefix_revision.
    + exists s. by rewrite lookup_alter_ne.
Qed.

(** What a committed write leaves behind. *)
Record committed {H : Hashes} (env : WriteEnv) (space : Space) (did rev : string) (ops : list AppliedOp)
    (db db' : SpaceDb) : Prop := {
  cm_spaces : spaces_ok db';
  cm_addr : forall id s', d_spaces db' !! id = Some s' ->
    exists s, d_spaces db !! id = Some s /\ (s' = s \/ s' = set_revision (Some rev) s);
  cm_records : records_ok db';
  cm_states : states_ok db';
  cm_log : d_oplog db' = d_oplog db ++ op_rows env (s_id space) did rev 0 ops;
  cm_hashed : forall s a, hashed db s a -> hashed db' s a;
  cm_commit : hashed db (s_id space) did ->
    exists rs, d_repo_states db' !! (s_id space, did) = Some rs /\ rs_rev rs = Some rev
      /\ rs_hash rs = Some (hash (run (record_ops db' (s_id space) did)));
  cm_index : forall m, tracks db space did m -> exists m', replay ops m = Some m' /\ tracks db' space did m';
  cm_other : forall s a p, plain_space s -> no_slash a -> ~ (same_address s space /\ a = did) ->
    cid_at db' s a p = cid_at db s a p;
}.

Lemma commit_staged {S : Serde} {H : Hashes} {K : Kdf} (P256 : Ecdsa) env db db1 db2 space did rev ops key cw :
  spaces_ok db -> states_ok db -> staged space did db db1 ops ->
  commit_write P256 env db1 space did rev ops key = Ok (db2, cw) ->
  committed env space did rev ops db db2.
Proof.
  intros Hspaces Hstates Hst Hc. unfold commit_write in Hc.
  set (now := now_rfc3339 (we_moment env)) in *.
  assert (Hframe := st_frame _ _ _ _ _ Hst). assert (Hrows := st_rows _ _ _ _ _ Hst).
  assert (Hspaces1 : spaces_ok db1) by (rewrite Hframe; exact Hspaces).
  assert (Hstates1 : states_ok db1) by (rewrite Hframe; exact Hstates).
  assert (Hrs1 : d_repo_states db1 = d_repo_states db) by (by rewrite Hframe).
  assert (Hlog1 : d_oplog db1 = d_oplog db) by (by rewrite Hframe).
  destruct (get_or_create_repo_state db1 _ now (s_id space) did) as [[db1' rs]|] eqn:Hget; [|done].
  destruct (get_or_create_spec _ _ _ _ _ _ _ Hstates1 Hget) as (Eframe & Hstates1' & Hrs & Hother & Hcase).
  destruct (negb _) eqn:Hlen; [done|].
  destruct (commit_ops env (s_id space) did rev 0 ops _ (d_oplog db1')) as [[h log]|] eqn:Hops; [|done].
  apply commit_ops_spec in Hops as [Hh Hlog].
  destruct (sign_commit P256 _ _ _ _ _ _) as [signed|] eqn:Hsign; [|done].
  assert (Hsigned : c_rev signed = rev /\ c_hash signed = hash h).
  { revert Hsign. unfold sign_commit. destruct (compute_mac _ _ _); [|done]. by intros [= <-]. }
  destruct (record _ _ _ _ _ _) as [[writers recorded]|]; [|done]. injection Hc as <- _.
  set (dbl := with_oplog db1' log) in *.
  destruct (update_repo_state_spec dbl now (committed_state rs h signed) (s_id space) did rs)
    as (Hstates2 & Hother2 & rs' & Hrs' & Hlt & Hhash & Hrev & _); [exact Hstates1'|exact Hrs|done|].
  set (dbu := update_repo_state dbl now (committed_state rs h signed)) in *.
  assert (Hrecs : d_records dbu = d_records db1) by (unfold dbu, dbl; simpl; by rewrite Eframe).
  assert (Hsp : d_spaces dbu = d_spaces db1) by (unfold dbu, dbl; simpl; by rewrite Eframe).
  destruct (update_revision_ok dbu (s_id space) rev) as [Hs2 Hr2].
  assert (Hrun : hashed db (s_id space) did -> h = run (record_ops db1 (s_id space) did)).
  { intros Hd. unfold hashed in Hd. rewrite Hrs1 in Hcase. rewrite (record_ops_run db db1 (s_id space) did (ops ≫= op_steps)).
    - rewrite Hh. unfold run at 1. rewrite foldl_app. f_equal. destruct Hcase as [Hc|[Hc ->]]; rewrite Hc in Hd.
      + destruct Hd as [Hd _]. rewrite Hd. apply from_as_bytes_run.
      + rewrite Hd. unfold new_repo_state; cbn [rs_lthash_state]. rewrite new_state_bytes.
        apply (from_as_bytes_run []).
    - intros e. rewrite (st_net _ _ _ _ _ Hst). by rewrite bool_decide_true by done. }
  assert (Hext : forall s a, record_ops (with_writers (update_space_revision dbu (s_id space) rev) writers) s a
                 = record_ops db1 s a) by (intros; by apply record_ops_ext).
  split.
  - apply Hs2. unfold spaces_ok. rewrite Hsp. exact Hspaces1.
  - intros id s' Hs'. apply update_revision_lookup in Hs' as (s0 & Hs0 & E). exists s0. split; [|done].
    rewrite Hsp, Hframe in Hs0. exact Hs0.
  - apply Hr2. unfold records_ok. rewrite Hrecs, Hsp. exact Hrows.
  - exact Hstates2.
  - cbn. rewrite Hlog, Eframe. cbn. by rewrite Hlog1.
  - intros s a Hd. unfold hashed. rewrite Hext. cbn [with_writers update_space_revision with_spaces d_repo_states].
    destruct (decide ((s, a) = (s_id space, did))) as [[= -> ->]|Hne].
    + rewrite Hrs', Hlt, Hhash. cbn. rewrite <- Hrun by done. split; [done|].
      destruct Hsigned as [_ ->]. by intros d [= <-].
    + rewrite Hother2 by done. unfold dbl. cbn [with_oplog d_repo_states]. rewrite Hother, Hrs1 by done.
      unfold hashed in Hd. assert (Hnet : forall e, rows_net (d_records db1) s a e = rows_net (d_records db) s a e).
      { intros e. rewrite (st_net _ _ _ _ _ Hst), bool_decide_false by naive_solver. lia. }
      destruct (d_repo_states db !! (s, a)) as [x|].
      * replace (run (record_ops db1 s a)) with (run (record_ops db s a)); [done|].
        apply run_net. intros e. by rewrite !net_record_ops, Hnet.
      * apply record_ops_nil. intros e. by rewrite Hnet, <- net_record_ops, Hd.
  - intros Hd. exists rs'. split; [exact Hrs'|]. rewrite Hrev, Hhash, Hext, <- Hrun by done.
    cbn. by destruct Hsigned as [-> ->].
  - intros m Hm. destruct (st_index _ _ _ _ _ Hst m Hm) as (m' & E & Ht). exists m'. split; [done|].
    intros p. rewrite Ht. unfold cid_at. by rewrite <- Hrecs.
  - intros s a p Hps Ha Hne. rewrite <- (st_other _ _ _ _ _ Hst s a p) by done. unfold cid_at. by rewrite <- Hrecs.
Qed.

(** ** Requests *)

Definition tables_ok (db : SpaceDb) : Prop := spaces_ok db /\ records_ok db /\ states_ok db.

Lemma resolve_space_Ok db space_ref space :
  spaces_ok db -> resolve_space db space_ref = Ok space ->
  d_spaces db !! s_id space = Some space /\ plain_space space.
Proof.
  intros [Hid _]. unfold resolve_space. destruct (space_uri_parse space_ref) as [u|] eqn:Hu; [|done].
  destruct (get_space_by_address _ _ _ _) as [s|] eqn:Hs; [|done]. intros [= <-].
  unfold get_space_by_address in Hs. apply head_Some_elem_of, list_elem_of_filter in Hs as [Hat Hin].
  apply list_elem_of_fmap in Hin as ([id s'] & -> & Hin%elem_of_map_to_list). simpl in *.
  split; [by rewrite (Hid id s' Hin)|]. apply Is_true_true in Hat. unfold at_address in Hat. bool_prop.
  assert (Hwf : uri_wf u).
  { revert Hu. unfold space_uri_parse. intros Hu. repeat break_match; try discriminate;
      by apply parse_stripped_Ok in Hu as [? _]. }
  destruct Hwf as ([_ ?] & [_ ?] & [_ ?] & _). unfold plain_space, no_slash. split_and!; congruence.
Qed.

Section Handlers.
Context {S : Serde} {H : Hashes} {K : Kdf} (P256 : Ecdsa) (backend : DatabaseBackend).
Context `{C : CidCrate} {B : Base64} {D : DagCborCodec}.
Context (verify_credential : Space -> string -> result unit AppError).
Context (pds : string -> value -> result value AppError).
Context (service_signing_key : result (signing_key P256) AppError).

(** A batch stages its operations. *)
Lemma stage_writes_staged env space did tids writes : plain_space space -> no_slash did ->
  forall n db db' ops,
  spaces_ok db -> records_ok db -> d_spaces db !! s_id space = Some space ->
  stage_writes backend env space did tids n db writes = Ok (db', ops) -> staged space did db db' ops.
Proof.
  intros Hplain Hdid. induction writes as [|w writes IH]; intros n db db' ops Hs Hr Hsp; cbn [stage_writes].
  { intros [= <- <-]. by apply staged_nil. }
  destruct (stage_write backend env space did (tids n) db w) as [[db1 op]|] eqn:Hw; [|done].
  assert (Hst : staged space did db db1 [op]).
  { destruct w; cbn [stage_write] in Hw; [| |by eapply stage_delete_staged in Hw];
      (destruct (check_collection_allowed _ _); [|done]); (destruct (content_cid _); [|done]);
      [by eapply stage_insert_staged in Hw|by eapply stage_put_staged in Hw]. }
  destruct (stage_writes backend env space did tids (Datatypes.S n) db1 writes) as [[db2 ops']|] eqn:Hrest; [|done].
  intros [= <- <-]. assert (Hf := st_frame _ _ _ _ _ Hst).
  apply (staged_trans space did db db1 db2 [op] ops' Hst). eapply IH; [| | |done].
  - by rewrite Hf.
  - apply Hst.
  - by rewrite Hf.
Qed.

(** A served request changed nothing here, or committed operations on its
    author's repository. *)
Definition served (env : WriteEnv) (did rev : string) (db db' : SpaceDb) : Prop :=
  db' = db \/ exists space ops, d_spaces db !! s_id space = Some space /\ plain_space space /\ no_slash did
    /\ committed env space did rev ops db db'.

Lemma create_record_served env rkey rev db did cred ref collection v db' out :
  tables_ok db -> no_slash did ->
  create_record P256 verify_credential pds service_signing_key env rkey rev db did cred ref collection v = Ok (db', out) ->
  served env did rev db db'.
Proof.
  intros (Hs & Hr & Hst) Hdid. unfold create_record.
  destruct (resolve_space db ref) as [space|] eqn:Hres; [|done].
  apply resolve_space_Ok in Hres as [Hsp Hplain]; [|done].
  destruct (require_membership _ _ _ _ _ _); [|done]. destruct (check_collection_allowed _ _); [|done].
  destruct (forward_write_if_native _ _ _ _ _ _) as [[answer|]|]; [|..|done]; [intros [= <- _]; by left|].
  destruct (content_cid v) as [cid|]; [|done]. destruct service_signing_key as [key|]; [|done].
  destruct (stage_insert _ _ _) as [[db1 op]|] eqn:Hstage; [|done].
  destruct (commit_write _ _ _ _ _ _ _ _) as [[db2 cw]|] eqn:Hc; [|done]. intros [= <- _].
  right. exists space, [op]. split_and!; [done..|].
  eapply commit_staged; [done|done| |exact Hc]. by eapply stage_insert_staged in Hstage.
Qed.

Lemma put_record_served env rev db did cred ref collection rkey v swap db' out :
  tables_ok db -> no_slash did ->
  put_record P256 backend verify_credential pds service_signing_key env rev db did cred ref collection rkey v swap
    = Ok (db', out) ->
  served env did rev db db'.
Proof.
  intros (Hs & Hr & Hst) Hdid. unfold put_record.
  destruct (resolve_space db ref) as [space|] eqn:Hres; [|done].
  apply resolve_space_Ok in Hres as [Hsp Hplain]; [|done].
  destruct (require_membership _ _ _ _ _ _); [|done]. destruct (check_collection_allowed _ _); [|done].
  destruct (forward_write_if_native _ _ _ _ _ _) as [[answer|]|]; [|..|done]; [intros [= <- _]; by left|].
  destruct (content_cid v) as [cid|]; [|done]. destruct service_signing_key as [key|]; [|done].
  destruct (stage_put _ _ _ _ _) as [[db1 op]|] eqn:Hstage; [|done].
  destruct (commit_write _ _ _ _ _ _ _ _) as [[db2 cw]|] eqn:Hc; [|done]. intros [= <- _].
  right. exists space, [op]. split_and!; [done..|].
  eapply commit_staged; [done|done| |exact Hc]. by eapply stage_put_staged in Hstage.
Qed.

Lemma delete_record_served env rev db did ref collection rkey swap db' :
  tables_ok db -> no_slash did ->
  delete_record P256 verify_credential pds service_signing_key env rev db did ref collection rkey swap = Ok db' ->
  served env did rev db db'.
Proof.
  intros (Hs & Hr & Hst) Hdid. unfold delete_record.
  destruct (resolve_space db ref) as [space|] eqn:Hres; [|done].
  apply resolve_space_Ok in Hres as [Hsp Hplain]; [|done].
  destruct (require_membership _ _ _ _ _ _); [|done].
  destruct (forward_write_if_native _ _ _ _ _ _) as [[answer|]|]; [|..|done]; [intros [= <-]; by left|].
  destruct service_signing_key as [key|]; [|done].
  destruct (stage_delete _ _ _ _ _ _) as [[db1 op]|] eqn:Hstage; [|done].
  destruct (commit_write _ _ _ _ _ _ _ _) as [[db2 cw]|] eqn:Hc; [|done]. intros [= <-].
  right. exists space, [op]. split_and!; [done..|].
  eapply commit_staged; [done|done| |exact Hc]. by eapply stage_delete_staged in Hstage.
Qed.

Lemma apply_writes_served env tids rev db did space swap writes body db' out :
  tables_ok db -> no_slash did -> plain_space space -> d_spaces db !! s_id space = Some space ->
  apply_writes P256 backend pds service_signing_key env tids rev db did space swap writes body = Ok (db', out) ->
  served env did rev db db'.
Proof.
  intros (Hs & Hr & Hst) Hdid Hplain Hsp. unfold apply_writes.
  destruct (collect_results _ _); [|done].
  destruct (forward_write_if_native _ _ _ _ _ _) as [[answer|]|]; [|..|done]; [intros [= <- _]; by left|].
  destruct (check_swap_commit _ _); [|done]. destruct service_signing_key as [key|]; [|done].
  destruct (stage_writes _ _ _ _ _ _ _ _) as [[db1 ops]|] eqn:Hstage; [|done].
  destruct (commit_write _ _ _ _ _ _ _ _) as [[db2 cw]|] eqn:Hc; [|done]. intros [= <- _].
  right. exists space, ops. split_and!; [done..|].
  eapply commit_staged; [done|done| |exact Hc]. by eapply stage_writes_staged in Hstage.
Qed.

(** The write requests of an instance. *)
Inductive WriteRequest : Type :=
| RCreate (rkey did : string) (cred : option string) (ref collection : string) (v : value)
| RPut (did : string) (cred : option string) (ref collection rkey : string) (v : value) (swap : option string)
| RDelete (did ref collection rkey : string) (swap : option string)
| RApply (tids : nat -> string) (did ref : string) (swap : option string) (writes : list WriteOp) (body : value).

Definition author_of (q : WriteRequest) : string :=
  match q with RCreate _ d _ _ _ _ | RPut d _ _ _ _ _ _ | RDelete d _ _ _ _ | RApply _ d _ _ _ _ => d end.

(** A request in its transaction: an error leaves the tables alone. *)
Definition serve (env : WriteEnv) (rev : string) (db : SpaceDb) (q : WriteRequest) : SpaceDb :=
  match q with
  | RCreate rkey did cred ref collection v =>
      match create_record P256 verify_credential pds service_signing_key env rkey rev db did cred ref collection v with
      | Ok (db', _) => db'
      | Err _ => db
      end
  | RPut did cred ref collection rkey v swap =>
      match put_record P256 backend verify_credential pds service_signing_key env rev db did cred ref collection rkey v
              swap with
      | Ok (db', _) => db'
      | Err _ => db
      end
  | RDelete did ref collection rkey swap =>
      match delete_record P256 verify_credential pds service_signing_key env rev db did ref collection rkey swap with
      | Ok db' => db'
      | Err _ => db
      end
  | RApply tids did ref swap writes body =>
      match (let? space := resolve_space db ref in
             let? _ := require_membership db verify_credential space did true None in
             apply_writes P256 backend pds service_signing_key env tids rev db did space swap writes body) with
      | Ok (db', _) => db'
      | Err _ => db
      end
  end.

Lemma serve_served env rev db q : tables_ok db -> no_slash (author_of q) -> served env (author_of q) rev db (serve env rev db q).
Proof.
  intros Ht Hd. destruct q; cbn [serve author_of] in *.
  - destruct (create_record _ _ _ _ _ _ _ _ _ _ _ _ _) as [[db' out]|] eqn:E; [|by left]. by eapply create_record_served.
  - destruct (put_record _ _ _ _ _ _ _ _ _ _ _ _ _ _ _) as [[db' out]|] eqn:E; [|by left]. by eapply put_record_served.
  - destruct (delete_record _ _ _ _ _ _ _ _ _ _ _ _) as [db'|] eqn:E; [|by left]. by eapply delete_record_served.
  - destruct (resolve_space db ref) as [space|] eqn:Hres; [|by left].
    apply resolve_space_Ok in Hres as [Hsp Hplain]; [|by apply Ht].
    destruct (require_membership _ _ _ _ _ _); [|by left].
    destruct (apply_writes _ _ _ _ _ _ _ _ _ _ _ _ _) as [[db' out]|] eqn:E; [|by left]. by eapply apply_writes_served.
Qed.

(** The requests of a run, each with what it drew and its revision. *)
Definition serve_all (db : SpaceDb) (l : list (WriteEnv * string * WriteRequest)) : SpaceDb :=
  foldl (fun db x => serve x.1.1 x.1.2 db x.2) db l.

End Handlers.
