(* ===== verification/SpaceRepo.v ===== *)
(** * Correctness of space repositories

    What the write path of [SpaceWrites] keeps true of a repository over any
    run of requests: its hash is the hash of its records, its log replays to
    its index, and a rebuild finds what the writes computed; and what happens
    to a commit whose revision is older than one already committed. *)

From stdpp Require Import list strings gmap sorting pretty.
From Stdlib Require Import ZArith Lia.
From S2P Require Import Prelude RustStr Words Json Cid Tombstones Decimal Tid LtHash SpaceTypes SpaceOplog.
From S2P Require Import SpaceCommit SpaceWriters SpaceDb SpaceMembers SpaceWrites.

#[local] Open Scope Z_scope.

(** ** The log *)

Definition row_path (r : OplogRow) : string := path (l_collection r) (l_rkey r).

(** Replaying the rows of a log: each must replace what the index holds. *)
Fixpoint replay_rows (l : list OplogRow) (m : gmap string string) : option (gmap string string) :=
  match l with
  | [] => Some m
  | r :: l' => m' ← replay_op m (row_path r) (l_cid r) (l_prev r); replay_rows l' m'
  end.

(** The log of a repository, in the order it was written, replays to the
    repository's index. *)
Definition logged (db : SpaceDb) (s a : string) : Prop :=
  forall space, d_spaces db !! s = Some space -> plain_space space ->
  exists m, replay_rows (repo_rows (d_oplog db) s a) ∅ = Some m /\ tracks db space a m.

Lemma replay_rows_app l1 l2 m : replay_rows (l1 ++ l2) m = replay_rows l1 m ≫= replay_rows l2.
Proof.
  revert m. induction l1 as [|r l1 IH]; intros m; [done|]. cbn [app replay_rows].
  destruct (replay_op _ _ _ _); simpl; [apply IH|done].
Qed.

Lemma replay_op_rows env s a rev ops : forall idx m,
  replay_rows (op_rows env s a rev idx ops) m = replay ops m.
Proof.
  induction ops as [|o ops IH]; intros idx m; [done|]. cbn [op_rows replay_rows replay].
  unfold row_path; cbn. destruct (replay_op _ _ _ _); simpl; [apply IH|done].
Qed.

Lemma repo_rows_app l1 l2 s a : repo_rows (l1 ++ l2) s a = repo_rows l1 s a ++ repo_rows l2 s a.
Proof. apply filter_app. Qed.

Lemma repo_rows_op_rows env s a rev ops s' a' : forall idx,
  repo_rows (op_rows env s a rev idx ops) s' a'
  = if bool_decide (s' = s /\ a' = a) then op_rows env s a rev idx ops else [].
Proof.
  induction ops as [|o ops IH]; intros idx; cbn [op_rows]; [by case_bool_decide|].
  unfold repo_rows in *. rewrite filter_cons, IH. unfold in_listing, op_row; cbn.
  case_bool_decide as Heq.
  - destruct Heq as [-> ->]. by rewrite !String.eqb_refl.
  - rewrite decide_False; [done|]. intros Ht. apply Heq. apply Is_true_true in Ht.
    rewrite andb_true_r in Ht. apply andb_prop in Ht as [?%String.eqb_eq ?%String.eqb_eq]. done.
Qed.

Lemma tracks_address db s s' a m :
  (s' = s \/ exists rev, s' = set_revision rev s) -> tracks db s a m -> tracks db s' a m.
Proof. intros [->|[rev ->]]; [done|]. intros Ht p. rewrite Ht. unfold cid_at. by rewrite repo_prefix_revision. Qed.

Section Run.
Context {H : Hashes}.

Lemma committed_logged env space did rev ops db db' s a :
  d_spaces db !! s_id space = Some space -> plain_space space -> no_slash did -> no_slash a ->
  spaces_ok db -> committed env space did rev ops db db' -> logged db s a -> logged db' s a.
Proof.
  intros Hsp Hplain Hdid Ha Hspaces Hc Hl space' Hs' Hplain'.
  destruct (cm_addr _ _ _ _ _ _ _ Hc s space' Hs') as (s0 & Hs0 & Erev).
  assert (Hplain0 : plain_space s0) by (by destruct Erev as [->| ->]).
  destruct (Hl s0 Hs0 Hplain0) as (m & Hm & Ht).
  rewrite (cm_log _ _ _ _ _ _ _ Hc), repo_rows_app, replay_rows_app, Hm, repo_rows_op_rows. simpl.
  assert (Erev' : space' = s0 \/ exists r, space' = set_revision r s0) by (destruct Erev; eauto).
  case_bool_decide as Heq.
  - destruct Heq as [-> ->]. rewrite Hsp in Hs0. injection Hs0 as <-.
    destruct (cm_index _ _ _ _ _ _ _ Hc m Ht) as (m' & Hm' & Ht').
    exists m'. rewrite replay_op_rows. split; [done|]. by eapply tracks_address.
  - exists m. split; [done|]. apply (tracks_address _ s0); [done|]. intros p. rewrite Ht. symmetry.
    apply (cm_other _ _ _ _ _ _ _ Hc); [done..|]. intros [Hsame ->]. apply Heq. split; [|done].
    destruct Hspaces as [Hid Huniq]. eapply Huniq; [done..|]. done.
Qed.
Lemma served_keeps env did rev db db' :
  tables_ok db -> served env did rev db db' ->
  tables_ok db' /\ (forall s a, hashed db s a -> hashed db' s a)
  /\ (forall s a, no_slash a -> logged db s a -> logged db' s a).
Proof.
  intros Ht [->|(space & ops & Hsp & Hplain & Hdid & Hc)]; [by auto|].
  split; [|split].
  - split_and!; apply Hc.
  - intros s a. eapply cm_hashed, Hc.
  - intros s a Ha. eapply committed_logged; [exact Hsp|exact Hplain|exact Hdid|exact Ha|apply Ht|exact Hc].
Qed.

End Run.

(** ** Theorems *)

Section Theorems.
Context {S : Serde} {H : Hashes} {K : Kdf} (P256 : Ecdsa) (backend : DatabaseBackend).
Context `{C : CidCrate} {B : Base64} {D : DagCborCodec}.
Context (verify_credential : Space -> string -> result unit AppError).
Context (pds : string -> value -> result value AppError).
Context (service_signing_key : result (signing_key P256) AppError).

Lemma serve_all_keeps l : forall db, tables_ok db -> Forall (fun x => no_slash (author_of x.2)) l ->
  let db' := serve_all P256 backend verify_credential pds service_signing_key db l in
  tables_ok db' /\ (forall s a, hashed db s a -> hashed db' s a)
  /\ (forall s a, no_slash a -> logged db s a -> logged db' s a).
Proof.
  induction l as [|[[env rev] q] l IH]; intros db Ht Hl; [by auto|].
  inversion Hl as [|? ? Hq Hl']; subst. cbn [serve_all foldl].
  destruct (served_keeps env (author_of q) rev db _ Ht
    (serve_served P256 backend verify_credential pds service_signing_key env rev db q Ht Hq)) as (Ht' & Hh' & Hg').
  destruct (IH _ Ht' Hl') as (Ht2 & Hh2 & Hg2). split; [exact Ht2|]. split; auto.
Qed.

(** (C6) Whatever requests an instance serves, in whatever order their transactions
    commit and whichever of them fail, every repository's stored hash stays the
    hash of its records and its log, in the order it was written, replays from
    nothing to exactly the CIDs its records have, each operation naming the CID
    it replaced. *)
Theorem writes_keep_repositories (db : SpaceDb) (l : list (WriteEnv * string * WriteRequest)) (s a : string) :
  tables_ok db -> Forall (fun x => no_slash (author_of x.2)) l -> no_slash a ->
  hashed db s a -> logged db s a ->
  let db' := serve_all P256 backend verify_credential pds service_signing_key db l in
  tables_ok db' /\ hashed db' s a /\ logged db' s a.
Proof.
  intros Ht Hl Ha Hh Hg. destruct (serve_all_keeps l db Ht Hl) as (Ht' & Hh' & Hg'). auto.
Qed.

End Theorems.

(** ** Rebuilding *)

Section Rebuild.
Context {S : Serde} {H : Hashes} {K : Kdf} (P256 : Ecdsa).

Lemma rebuild_hash_run db s a : rebuild_hash db s a = run (record_ops db s a).
Proof.
  unfold rebuild_hash, run, record_ops. generalize new.
  induction (author_rows db s a) as [|p l IH]; intros h; [done|]. cbn. apply IH.
Qed.

(** Rebuilding a repository from its records finds what the writes kept: with
    its revision preserved, the state and the digest come out as they were
    stored, and no record or log entry changes; with its revision advanced, the
    rebuilt state is again the hash of the records. *)
Theorem rebuild_agrees_with_writes (env : WriteEnv) (tid : string) (db db' : SpaceDb) (s a : string)
    (key : signing_key P256) (policy : RevPolicy) (rs : RepoState) :
  states_ok db -> hashed db s a -> d_repo_states db !! (s, a) = Some rs ->
  rebuild_repo_state P256 env tid db s a key policy = Ok (db', true) ->
  d_records db' = d_records db /\ d_oplog db' = d_oplog db /\ hashed db' s a
  /\ exists rs', d_repo_states db' !! (s, a) = Some rs' /\ rs_lthash_state rs' = rs_lthash_state rs
     /\ rs_rev rs' = match policy with Preserve => rs_rev rs | Advance => Some tid end
     /\ (rs_hash rs <> None -> rs_hash rs' = rs_hash rs).
Proof.
  intros Hids Hh Hrs. unfold rebuild_repo_state. destruct (get_space db s) as [space|]; [|done].
  unfold get_or_create_repo_state, read_repo_state. rewrite Hrs. rewrite rebuild_hash_run.
  set (now := now_rfc3339 _). unfold hashed in Hh. rewrite Hrs in Hh. destruct Hh as [Hlt Hdig].
  destruct (match policy with Advance => Some tid | Preserve => rs_rev rs end) as [rev|] eqn:Hrev; [|done].
  destruct (sign_commit _ _ _ _ _ _ _) as [signed|] eqn:Hsign; [|done].
  assert (Hsigned : c_rev signed = rev /\ c_hash signed = hash (run (record_ops db s a))).
  { revert Hsign. unfold sign_commit. destruct (compute_mac _ _ _); [|done]. by intros [= <-]. }
  destruct (update_repo_state_spec db now (committed_state rs (run (record_ops db s a)) signed) s a rs Hids Hrs eq_refl)
    as (_ & _ & rs' & Hrs' & Elt & Ehash & Erev & _).
  assert (Hgoal : forall db1, d_records db1 = d_records db -> d_oplog db1 = d_oplog db ->
    d_repo_states db1 = d_repo_states (update_repo_state db now (committed_state rs (run (record_ops db s a)) signed)) ->
    d_records db1 = d_records db /\ d_oplog db1 = d_oplog db /\ hashed db1 s a
    /\ exists rs', d_repo_states db1 !! (s, a) = Some rs' /\ rs_lthash_state rs' = rs_lthash_state rs
       /\ rs_rev rs' = Some rev
       /\ (rs_hash rs <> None -> rs_hash rs' = rs_hash rs)).
  { intros db1 E1 E2 E3. split_and!; [done|done| |].
    - unfold hashed. rewrite E3, Hrs', Elt, Ehash, (record_ops_ext db db1) by done. cbn. split; [done|].
      destruct Hsigned as [_ ->]. by intros d [= <-].
    - exists rs'. rewrite E3, Elt, Erev, Ehash. destruct Hsigned as [Hrev' Hhash']. split_and!; [exact Hrs'|by rewrite Hlt| |].
      + cbn. by rewrite Hrev'.
      + cbn. rewrite Hhash'. intros Hne. destruct (rs_hash rs) as [d|] eqn:Hd; [|done]. by rewrite (Hdig d eq_refl). }
  destruct policy; [intros [= <-]; by apply Hgoal|].
  destruct (record _ _ _ _ _ _) as [[writers recorded]|]; [|done]. intros [= <-]. by apply Hgoal.
Qed.

End Rebuild.

(** ** Syncing *)

Lemma filter_true {A} (l : list A) : filter (fun _ => Is_true true) l = l.
Proof. induction l as [|x l IH]; [done|]. rewrite filter_cons, decide_True by done. by rewrite IH. Qed.

(** A log whose revisions were committed in order is listed in that order. *)
Lemma ordered_as_written oplog s a :
  StronglySorted (fun x y => key_ltb (row_key x) (row_key y) = true) (repo_rows oplog s a) ->
  log_ok oplog s a -> ordered oplog s a = repo_rows oplog s a.
Proof.
  intros Hsorted Hok. eapply StronglySorted_unique_strong; [|by apply ordered_increasing|exact Hsorted|].
  - intros x y _ _ Hxy Hyx. pose proof (key_ltb_asym _ _ Hxy). simpl in *. congruence.
  - apply merge_sort_Permutation.
Qed.

(** (C18) A syncer that reads a repository's log page by page and applies what it
    reads holds the repository's index: while the revisions of a repository were
    committed in increasing order, the pages, put together, replay to exactly
    the CIDs of its records. *)
Theorem syncer_rebuilds_index (backend : DatabaseBackend) (db : SpaceDb) (space : Space) (a : string)
    (limit : option Z) (fuel : nat) :
  d_spaces db !! s_id space = Some space -> plain_space space ->
  logged db (s_id space) a -> log_ok (d_oplog db) (s_id space) a ->
  StronglySorted (fun x y => key_ltb (row_key x) (row_key y) = true) (repo_rows (d_oplog db) (s_id space) a) ->
  (length (d_oplog db) < fuel)%nat ->
  exists es m,
    read_all backend fuel (d_oplog db) (s_id space) a None (page_limit limit) = Some (Ok es)
    /\ replay_rows (row_of <$> es) ∅ = Some m /\ tracks db space a m.
Proof.
  intros Hsp Hplain Hl Hok Hsorted Hf. destruct (Hl space Hsp Hplain) as (m & Hm & Ht).
  destruct (read_all_after backend (d_oplog db) (s_id space) a Hok (page_limit limit)
              ltac:(unfold page_limit; lia) fuel None) as (es & Hread & Hes).
  { unfold after. eapply Nat.le_lt_trans; [apply length_filter|]. unfold ordered.
    rewrite merge_sort_Permutation. eapply Nat.le_lt_trans; [apply length_filter|done]. }
  exists es, m. split_and!; [done| |done]. rewrite Hes.
  assert (Hall : after (parse_cursor <$> None) (ordered (d_oplog db) (s_id space) a) = repo_rows (d_oplog db) (s_id space) a).
  { rewrite <- ordered_as_written by done. unfold after. by apply filter_true. }
  by rewrite Hall.
Qed.

(** ** Late commits *)

(** The rows of an older revision are not listed after a newer one. *)
Lemma late_rows_unlisted env s a rev held ops i : I32_MIN <= i <= I32_MAX -> rev_lt rev held = true ->
  forall idx, filter (fun r => in_listing s a (Some (encode_cursor held i)) r) (op_rows env s a rev idx ops) = [].
Proof.
  intros Hi Hlt. induction ops as [|o ops IH]; intros idx; [done|]. cbn [op_rows].
  rewrite filter_cons, decide_False; [apply IH|]. unfold in_listing. rewrite parse_encode_cursor by done.
  unfold key_ltb, row_key, op_row; cbn. rewrite !String.eqb_refl. cbn.
  assert (Hgt : rev_lt held rev = false) by (apply rev_lt_spec in Hlt; apply not_true_iff_false; rewrite rev_lt_spec;
    destruct (rev_le_total held rev); congruence).
  rewrite Hgt. cbn. destruct (held =s rev) eqn:Heq; [|by intros []]. apply String.eqb_eq in Heq. subst.
  congruence.
Qed.

Section Late.
Context {S : Serde} {H : Hashes} {K : Kdf} (P256 : Ecdsa).

(** (C38) A commit whose revision is older than the one its repository already
    committed is accepted and lost: it is logged and signed, and the
    repository's revision moves back to it, but the writer is reported stale and
    keeps its row, and a reader that has read past the newer revision gets
    exactly the pages it would have got without the commit. *)
Theorem late_commit_is_lost (env : WriteEnv) (db db' : SpaceDb) (space : Space) (did rev : string)
    (ops : list AppliedOp) (key : signing_key P256) (cw : CommittedWrite) (held : WriterRow) :
  states_ok db -> commit_write P256 env db space did rev ops key = Ok (db', cw) ->
  d_writers db !! (s_id space, did) = Some held -> rev_lt rev (w_rev held) = true ->
  cw_recorded cw = Stale /\ d_writers db' = d_writers db
  /\ d_oplog db' = d_oplog db ++ op_rows env (s_id space) did rev 0 ops
  /\ (exists rs, d_repo_states db' !! (s_id space, did) = Some rs /\ rs_rev rs = Some rev)
  /\ forall backend i limit, I32_MIN <= i <= I32_MAX ->
     let cursor := Some (encode_cursor (w_rev held) i) in
     list_ops backend (d_oplog db') (s_id space) did cursor limit
     = list_ops backend (d_oplog db) (s_id space) did cursor limit.
Proof.
  intros Hids Hc Hheld Hlt. unfold commit_write in Hc.
  set (now := now_rfc3339 (we_moment env)) in *.
  destruct (get_or_create_repo_state db _ now (s_id space) did) as [[db1 rs]|] eqn:Hget; [|done].
  destruct (get_or_create_spec _ _ _ _ _ _ _ Hids Hget) as (Eframe & Hids1 & Hrs & _).
  destruct (negb _); [done|].
  destruct (commit_ops env (s_id space) did rev 0 ops _ (d_oplog db1)) as [[h log]|] eqn:Hops; [|done].
  apply commit_ops_spec in Hops as [_ Hlog].
  destruct (sign_commit P256 _ _ _ _ _ _) as [signed|] eqn:Hsign; [|done].
  assert (Hsigned : c_rev signed = rev).
  { revert Hsign. unfold sign_commit. destruct (compute_mac _ _ _); [|done]. by intros [= <-]. }
  destruct (update_repo_state_spec (with_oplog db1 log) now (committed_state rs h signed) (s_id space) did rs)
    as (_ & _ & rs' & Hrs' & _ & _ & Hrev & _); [exact Hids1|exact Hrs|done|].
  assert (Ew : d_writers db1 = d_writers db) by (by rewrite Eframe).
  assert (El : d_oplog db1 = d_oplog db) by (by rewrite Eframe).
  destruct (record _ _ _ _ _ _) as [[writers recorded]|] eqn:Hrec; [|done]. injection Hc as <- <-.
  assert (Hstale : recorded = Stale /\ writers = d_writers db).
  { revert Hrec. unfold record. cbn [update_space_revision update_repo_state with_spaces with_repo_states with_oplog d_writers].
    rewrite Ew, Hheld, (rev_lt_le _ _ Hlt). repeat case_match; try done. by intros [= <- <-]. }
  destruct Hstale as [-> ->]. rewrite El in Hlog. split_and!; [done|done|exact Hlog| |].
  - exists rs'. split; [exact Hrs'|]. rewrite Hrev. cbn. by rewrite Hsigned.
  - intros backend i limit Hi cursor. unfold cursor, list_ops. cbn [with_writers update_space_revision update_repo_state
      with_spaces with_repo_states with_oplog d_oplog].
    by rewrite Hlog, filter_app, late_rows_unlisted, app_nil_r by done.
Qed.

End Late.

(** ** Witnesses *)

Module Sample.

#[export] Instance serde : Serde := {| to_string := fun _ => "{}"; from_str := fun _ => Some (VObject []) |}.

Definition space : Space :=
  {| s_id := "s"; s_did := "did:plc:o"; s_authority_did := "did:plc:o"; s_creator_did := "did:plc:o";
     s_type_nsid := "c.f.s"; s_skey := "k"; s_display_name := None; s_description := None;
     s_read_policy := MemberList; s_write_policy := MemberList; s_app_access := Open; s_config_extra := [];
     s_revision := None |}.

Definition db : SpaceDb :=
  {| d_spaces := {[ "s" := space ]};
     d_members := {[ ("s", "did:plc:a") := Chain.member WRITE false "t" ]};
     d_invites := ∅; d_records := ∅; d_repo_states := ∅; d_oplog := []; d_writers := ∅; d_credentials := [] |}.

Definition env (n : Z) : WriteEnv :=
  {| we_moment := {| now_micros := 10; now_tid := tid_from_number n; now_rfc3339 := "t" |};
     we_state_id := "rs"; we_op_ids := fun i => tid_from_number n +:+ pretty (Z.of_nat i); we_ikm := [1] |}.

Definition ref : string := uri_of_space space.

Definition requests : list (WriteEnv * string * WriteRequest) :=
  [(env 1, tid_from_number 1, RCreate "1" "did:plc:a" None ref "c.f" (VObject []));
   (env 2, tid_from_number 2, RApply (fun i => pretty (Z.of_nat i)) "did:plc:a" ref None
      [WCreate "c.f" None (VBool true); WUpdate "c.f" "1" VNull None; WDelete "c.f" "0" None] VNull);
   (env 3, tid_from_number 3, RDelete "did:plc:a" ref "c.f" "0" None)].

Definition after_requests : SpaceDb :=
  serve_all (H := LtHash.Standin.hashes) (K := SpaceCommit.Toy.kdf) SpaceCommit.Toy.curve Sqlite
    (fun _ _ => Ok tt) (fun _ _ => Ok VNull) (Ok tt) db requests.

Lemma db_tables : tables_ok db.
Proof.
  split_and!.
  - split; unfold db; simpl; [intros id s|intros id id' s s']; rewrite !lookup_singleton_Some; naive_solver.
  - intros uri r. unfold db; simpl. by rewrite lookup_empty.
  - intros k k' x x'. unfold db; simpl. by rewrite lookup_empty.
Qed.

Lemma db_hashed : hashed (H := LtHash.Standin.hashes) db "s" "did:plc:a".
Proof. reflexivity. Qed.

Lemma db_logged : logged db "s" "did:plc:a".
Proof. intros sp _ _. exists ∅. split; [done|]. intros p. unfold cid_at, db; simpl. by rewrite !lookup_empty. Qed.

Lemma requests_ok : Forall (fun x => no_slash (author_of x.2)) requests.
Proof. repeat constructor. Qed.

Lemma after_ok : tables_ok after_requests /\ hashed (H := LtHash.Standin.hashes) after_requests "s" "did:plc:a"
  /\ logged after_requests "s" "did:plc:a".
Proof.
  destruct (serve_all_keeps (H := LtHash.Standin.hashes) (K := SpaceCommit.Toy.kdf) SpaceCommit.Toy.curve Sqlite
    (fun _ _ => Ok tt) (fun _ _ => Ok VNull) (Ok tt) requests db db_tables requests_ok) as (Ht & Hh & Hg).
  split; [exact Ht|]. split; [apply Hh, db_hashed|apply Hg; [reflexivity|apply db_logged]].
Qed.

(** The space, and the repository's state, after the requests. *)
Definition space' : Space := set_revision (Some (tid_from_number 2)) space.
Definition state' : RepoState := default (new_repo_state "" "") (d_repo_states after_requests !! ("s", "did:plc:a")).

Lemma state'_stored : d_repo_states after_requests !! ("s", "did:plc:a") = Some state'.
Proof. vm_compute. reflexivity. Qed.

(** The log it wrote. *)
Definition rows : list OplogRow := Eval vm_compute in repo_rows (d_oplog after_requests) "s" "did:plc:a".

Lemma rows_logged : repo_rows (d_oplog after_requests) "s" "did:plc:a" = rows.
Proof. vm_compute. reflexivity. Qed.

Definition rebuilt : result (SpaceDb * bool) AppError :=
  rebuild_repo_state (H := LtHash.Standin.hashes) (K := SpaceCommit.Toy.kdf) SpaceCommit.Toy.curve (env 4)
    (tid_from_number 4) after_requests "s" "did:plc:a" tt Preserve.

Lemma rebuilt_ok : match rebuilt with Ok (_, b) => b | Err _ => false end = true.
Proof. vm_compute. reflexivity. Qed.

(** A commit whose revision was drawn first. *)
Definition late : result (SpaceDb * CommittedWrite) AppError :=
  commit_write (H := LtHash.Standin.hashes) (K := SpaceCommit.Toy.kdf) SpaceCommit.Toy.curve (env 4)
    after_requests space' "did:plc:a" (tid_from_number 0) [] tt.

Lemma late_ok : match late with Ok _ => true | Err _ => false end = true.
Proof. vm_compute. reflexivity. Qed.

Lemma held : w_rev <$> d_writers after_requests !! ("s", "did:plc:a") = Some (tid_from_number 2).
Proof. vm_compute. reflexivity. Qed.

End Sample.

#[local] Opaque Sample.after_requests Sample.state'.

Lemma writes_keep_repositories_witness :
  length (d_oplog Sample.after_requests) = 4%nat
  /\ hashed (H := LtHash.Standin.hashes) Sample.after_requests "s" "did:plc:a"
  /\ logged Sample.after_requests "s" "did:plc:a".
Proof.
  split; [vm_compute; reflexivity|].
  exact (proj2 (writes_keep_repositories (H := LtHash.Standin.hashes) (K := SpaceCommit.Toy.kdf)
    SpaceCommit.Toy.curve Sqlite (fun _ _ => Ok tt) (fun _ _ => Ok VNull) (Ok tt) Sample.db Sample.requests
    "s" "did:plc:a" Sample.db_tables Sample.requests_ok eq_refl Sample.db_hashed Sample.db_logged)).
Defined.

Lemma rebuild_agrees_with_writes_witness :
  exists db' rs',
    Sample.rebuilt = Ok (db', true) /\ d_repo_states db' !! ("s", "did:plc:a") = Some rs'
    /\ rs_lthash_state rs' = rs_lthash_state Sample.state'.
Proof.
  pose proof Sample.rebuilt_ok as Hok. destruct Sample.rebuilt as [[db' b]|] eqn:E; [|discriminate Hok].
  destruct b; [|discriminate Hok].
  destruct (rebuild_agrees_with_writes (H := LtHash.Standin.hashes) (K := SpaceCommit.Toy.kdf) SpaceCommit.Toy.curve
    (Sample.env 4) (tid_from_number 4) Sample.after_requests db' "s" "did:plc:a" tt Preserve Sample.state'
    (proj2 (proj2 (proj1 Sample.after_ok))) (proj1 (proj2 Sample.after_ok)) Sample.state'_stored E)
    as (_ & _ & _ & rs' & Hrs' & Hlt & _).
  exists db', rs'. split; [done|]. split; [exact Hrs'|exact Hlt].
Defined.

Lemma syncer_rebuilds_index_witness :
  exists es m,
    read_all Sqlite 5 (d_oplog Sample.after_requests) "s" "did:plc:a" None (page_limit (Some 1)) = Some (Ok es)
    /\ replay_rows (row_of <$> es) ∅ = Some m /\ tracks Sample.after_requests Sample.space' "did:plc:a" m.
Proof.
  apply (syncer_rebuilds_index Sqlite Sample.after_requests Sample.space' "did:plc:a" (Some 1) 5).
  - vm_compute. reflexivity.
  - repeat split.
  - exact (proj2 (proj2 Sample.after_ok)).
  - split.
    + unfold row_ok. eapply (bool_decide_eq_true_1 (Forall _ _)). vm_compute. reflexivity.
    + apply (bool_decide_eq_true_1 (NoDup _)). vm_compute. reflexivity.
  - change (s_id Sample.space') with "s". rewrite Sample.rows_logged. unfold Sample.rows. repeat constructor.
  - vm_compute. lia.
Defined.

Lemma late_commit_is_lost_witness : exists db' cw, Sample.late = Ok (db', cw) /\ cw_recorded cw = Stale.
Proof.
  pose proof Sample.late_ok as Hok. destruct Sample.late as [[db' cw]|] eqn:E; [|discriminate Hok].
  exists db', cw. split; [done|]. pose proof Sample.held as Hheld.
  destruct (d_writers Sample.after_requests !! ("s", "did:plc:a")) as [held|] eqn:Hw; [|discriminate Hheld].
  eapply (late_commit_is_lost (H := LtHash.Standin.hashes) (K := SpaceCommit.Toy.kdf) SpaceCommit.Toy.curve
    (Sample.env 4) Sample.after_requests db' Sample.space' "did:plc:a" (tid_from_number 0) [] tt cw held
    (proj2 (proj2 (proj1 Sample.after_ok))) E Hw).
  simpl in Hheld. injection Hheld as ->. vm_compute. reflexivity.
Defined.
