(* ===== verification/Lexicon.v ===== *)
(** * Lexicon documents

    [src/lexicon/validate.rs], the rules an uploaded lexicon is checked against,
    and of [src/lexicon/mod.rs] [check_document] and [ParsedLexicon::parse].  A
    JSON object is its entries in the order they are walked, and a pass over the
    document that pushes issues and refs is a function that returns what it
    pushes.  [serde_json::to_vec] is a parameter: only its length is used. *)

From stdpp Require Import pretty.
From Stdlib Require Import ZArith Lia.
From S2P Require Import Prelude RustStr Regex Nsid Json.

(** ** Data *)

Definition MAX_LEXICON_BYTES : Z := 256 * 1024.

Definition FIELD_TYPES : list string :=
  ["null"; "boolean"; "integer"; "string"; "bytes"; "cid-link"; "blob"; "array"; "object"; "params"; "token"; "ref";
   "union"; "unknown"].

Definition PRIMARY_TYPES : list string :=
  ["record"; "query"; "procedure"; "subscription"; "space"; "permission-set"].

Definition UNSERVED_PRIMARY_TYPES : list string := ["subscription"].

Definition RECORD_KEYS : list string := ["tid"; "nsid"; "any"].

Inductive Severity : Type := SError | SWarning.

Record Issue : Type := { i_path : string; i_message : string; i_severity : Severity }.

Definition issue_error (path message : string) : Issue :=
  {| i_path := path; i_message := message; i_severity := SError |}.

Definition issue_warning (path message : string) : Issue :=
  {| i_path := path; i_message := message; i_severity := SWarning |}.

Definition render (i : Issue) : string :=
  if i_path i =s "" then i_message i else i_path i +:+ ": " +:+ i_message i.

Abbreviation Entries := (list (string * value)).

(** What a pass pushes: issues, and refs with their paths. *)
Record Out : Type := { o_issues : list Issue; o_refs : list (string * string) }.

Definition silent : Out := {| o_issues := []; o_refs := [] |}.
Definition say (i : Issue) : Out := {| o_issues := [i]; o_refs := [] |}.
Definition see (path reference : string) : Out := {| o_issues := []; o_refs := [(path, reference)] |}.
Definition both (a b : Out) : Out := {| o_issues := o_issues a ++ o_issues b; o_refs := o_refs a ++ o_refs b |}.
Infix "+++" := both (right associativity, at level 60) : happyview_scope.

Definition out_concat {A} (f : A -> Out) (l : list A) : Out := foldr (fun x o => f x +++ o) silent l.

(** ** Field schemas *)

Definition quoted (s : string) : string := "'" +:+ s +:+ "'".

Definition at_index (path : string) (i : nat) : string := path +:+ "[" +:+ pretty i +:+ "]".

Definition bounds (map : Entries) (path min max : string) : Out :=
  match assoc_get map min ≫= value_i64, assoc_get map max ≫= value_i64 with
  | Some low, Some high =>
      if (high <? low)%Z then
        say (issue_warning (path +:+ "." +:+ min)
               (min +:+ " " +:+ pretty low +:+ " is above " +:+ max +:+ " " +:+ pretty high
                +:+ ", so nothing can satisfy both"))
      else silent
  | _, _ => silent
  end.

(** One entry of [required] or [nullable]. *)
Definition listed_name (properties : option Entries) (list list_path : string) (i : nat) (name : value) : Out :=
  match as_str name with
  | None => say (issue_error (at_index list_path i) "must be a property name")
  | Some name =>
      if match properties with Some p => negb (contains_key p name) | None => false end then
        let message := quoted name +:+ " is not a property of this object" in
        let path := at_index list_path i in
        say (if list =s "required" then issue_error path message else issue_warning path message)
      else silent
  end.

(** [required] or [nullable]. *)
Definition name_list (map : Entries) (path list : string) : Out :=
  match assoc_get map list with
  | None => silent
  | Some v =>
      let list_path := path +:+ "." +:+ list in
      match as_array v with
      | None => say (issue_error list_path "must be an array of property names")
      | Some names =>
          out_concat (fun p => listed_name (assoc_get map "properties" ≫= as_object) list list_path p.1 p.2)
            (zip (seq 0 (length names)) names)
      end
  end.

(** The [ref] of a ref. *)
Definition ref_field (map : Entries) (path : string) : Out :=
  match assoc_get map "ref" ≫= as_str with
  | Some reference =>
      if negb (reference =s "") then see (path +:+ ".ref") reference
      else say (issue_error (path +:+ ".ref") "is empty")
  | None => say (issue_error (path +:+ ".ref") "a ref must name what it points at")
  end.

Definition union_ref (path : string) (i : nat) (reference : value) : Out :=
  match as_str reference with
  | Some reference =>
      if negb (reference =s "") then see (at_index (path +:+ ".refs") i) reference
      else say (issue_error (at_index (path +:+ ".refs") i) "must be a ref string")
  | None => say (issue_error (at_index (path +:+ ".refs") i) "must be a ref string")
  end.

(** The [refs] of a union. *)
Definition union_field (map : Entries) (path : string) : Out :=
  match assoc_get map "refs" with
  | None => say (issue_error (path +:+ ".refs") "a union must list the refs it accepts")
  | Some (VArray list) =>
      let closed := default false (assoc_get map "closed" ≫= as_bool) in
      (if bool_decide (list = []) && closed
       then say (issue_warning (path +:+ ".refs") "a closed union with no refs matches nothing")
       else silent)
      +++ out_concat (fun p => union_ref path p.1 p.2) (zip (seq 0 (length list)) list)
  | Some _ => say (issue_error (path +:+ ".refs") "must be an array")
  end.

Definition array_or_absent (map : Entries) (path list : string) : Out :=
  match assoc_get map list with
  | Some v => if is_array v then silent else say (issue_error (path +:+ "." +:+ list) "must be an array")
  | None => silent
  end.

Definition string_field (map : Entries) (path : string) : Out :=
  bounds map path "minLength" "maxLength" +++ bounds map path "minGraphemes" "maxGraphemes"
  +++ array_or_absent map path "enum" +++ array_or_absent map path "knownValues".

(** [field]; [fuel] bounds the nesting. *)
Fixpoint field_go (fuel : nat) (kind : option value) (map : Entries) (path : string) : Out :=
  match fuel with
  | 0 => silent
  | S fuel =>
      let sub (v : value) (path : string) : Out :=
        match as_object v with
        | Some m => field_go fuel (get v "type") m path
        | None => say (issue_error path "must be an object")
        end in
      match kind ≫= as_str with
      | None => say (issue_error (path +:+ ".type") "must be a string naming the field's type")
      | Some kind =>
          if str_mem kind ["object"; "params"] then
            match assoc_get map "properties" with
            | None => silent
            | Some (VObject properties) =>
                out_concat (fun p => sub p.2 (path +:+ ".properties." +:+ p.1)) properties
            | Some _ => say (issue_error (path +:+ ".properties") "must be an object")
            end
            +++ name_list map path "required" +++ name_list map path "nullable"
          else if kind =s "array" then
            match assoc_get map "items" with
            | None => say (issue_warning (path +:+ ".items") "an array with no 'items' accepts anything")
            | Some items => sub items (path +:+ ".items")
            end
          else if kind =s "ref" then ref_field map path
          else if kind =s "union" then union_field map path
          else if kind =s "string" then string_field map path
          else if kind =s "integer" then bounds map path "minimum" "maximum"
          else if str_mem kind ["null"; "boolean"; "bytes"; "cid-link"; "blob"; "token"; "unknown"] then silent
          else say (issue_error (path +:+ ".type") ("unknown lexicon type " +:+ quoted kind))
      end
  end.

Definition field (kind : option value) (map : Entries) (path : string) : Out :=
  field_go (vsize (VObject map)) kind map path.

(** ** Definitions *)

Definition body_schema (body : value) (path : string) : Out :=
  match as_object body with
  | None => say (issue_error path "must be an object")
  | Some map =>
      match assoc_get map "encoding" with
      | Some encoding =>
          if is_string encoding then silent else say (issue_error (path +:+ ".encoding") "must be a string")
      | None => silent
      end
      +++ match assoc_get map "schema" with
          | Some schema =>
              let schema_path := path +:+ ".schema" in
              match as_object schema with
              | Some schema_map => field (get schema "type") schema_map schema_path
              | None => say (issue_error schema_path "must be an object")
              end
          | None => silent
          end
  end.

(** The [key] of a record. *)
Definition record_key (def : Entries) (path : string) : Out :=
  match assoc_get def "key" ≫= as_str with
  | None =>
      say (issue_error (path +:+ ".key")
             "a record must say how its rkey is chosen: tid, nsid, any, or literal:<value>")
  | Some key =>
      if str_mem key RECORD_KEYS then silent
      else if starts_with "literal:" key then
        if String.length key =? String.length "literal:"
        then say (issue_error (path +:+ ".key") "'literal:' needs the literal value after the colon")
        else silent
      else say (issue_error (path +:+ ".key")
                  ("unknown record key " +:+ quoted key +:+ ": must be tid, nsid, any, or literal:<value>"))
  end.

(** The schema of a record, or the parameters of a method: a field of one type. *)
Definition typed_schema (schema : value) (path kind message : string) : Out :=
  (if bool_decide (get schema "type" ≫= as_str = Some kind) then silent
   else say (issue_error (path +:+ ".type") message))
  +++ match as_object schema with
      | Some map => field (get schema "type") map path
      | None => silent
      end.

Definition body_of (def : Entries) (path body : string) : Out :=
  match assoc_get def body with
  | Some v => body_schema v (path +:+ "." +:+ body)
  | None => silent
  end.

Definition primary (kind : string) (def : Entries) (path : string) : Out :=
  if kind =s "record" then
    record_key def path
    +++ match assoc_get def "record" with
        | None => say (issue_error (path +:+ ".record") "a record must carry its 'record' schema")
        | Some schema =>
            typed_schema schema (path +:+ ".record") "object" "a record's schema must be an object"
        end
  else if str_mem kind ["query"; "procedure"] then
    match assoc_get def "parameters" with
    | Some params => typed_schema params (path +:+ ".parameters") "params" "parameters must be of type 'params'"
    | None => silent
    end
    +++ (if kind =s "query" then
           if contains_key def "input" then
             say (issue_warning (path +:+ ".input")
                    "a query takes no input body, so this one is ignored;                              parameters go in 'parameters'")
           else silent
         else body_of def path "input")
    +++ body_of def path "output"
  else if kind =s "subscription" then body_of def path "message"
  else silent.

Definition is_def_name (name : string) : bool :=
  match name with
  | EmptyString => false
  | String c rest => is_ascii_alphabetic c && str_all is_ascii_alphanumeric rest
  end.

(** One entry of [defs]. *)
Definition check_def (name : string) (def : value) : Out :=
  let path := "defs." +:+ name in
  (if is_def_name name then silent
   else say (issue_warning path "a def name should start with a letter and hold only letters and digits"))
  +++ match as_object def with
      | None => say (issue_error path "must be an object")
      | Some def =>
          match assoc_get def "type" ≫= as_str with
          | None => say (issue_error (path +:+ ".type") "must be a string naming the def's type")
          | Some kind =>
              if str_mem kind PRIMARY_TYPES then
                (if name =s "main" then silent
                 else say (issue_error (path +:+ ".type")
                             ("a " +:+ quoted kind +:+ " may only be the 'main' def, not " +:+ quoted name)))
                +++ (if str_mem kind UNSERVED_PRIMARY_TYPES then
                       say (issue_warning (path +:+ ".type")
                              ("this is a valid " +:+ quoted kind +:+ " lexicon, but HappyView does not serve " +:+ kind
                               +:+ "s yet: it will be stored and no endpoint will be generated for it"))
                     else silent)
                +++ primary kind def path
              else if str_mem kind FIELD_TYPES then field (assoc_get def "type") def path
              else say (issue_error (path +:+ ".type") ("unknown lexicon type " +:+ quoted kind))
          end
      end.

(** ** Refs *)

Definition hash : ascii := "#".

(** [reference.matches('#').count()] *)
Definition count_hashes (s : string) : nat := length (str_split hash s) - 1.

(** [splitn(2, '#')]: the NSID and the def it names, if any. *)
Definition split_hash (reference : string) : string * option string :=
  match str_split_once (Ascii.eqb hash) reference with
  | Some (nsid, def) => (nsid, Some def)
  | None => (reference, None)
  end.

Section Validate.
Context {RE : RegexEngine}.
Context (to_vec_len : value -> option Z).

Definition nsid_error_text (e : NsidError) : string :=
  match e with
  | TooLong nsid => "invalid NSID " +:+ quoted nsid +:+ ": must be at most 317 characters"
  | Malformed nsid =>
      "invalid NSID " +:+ quoted nsid +:+ ": must be at least three dot-separated segments, where only the first and last must start with a letter and the last takes no hyphens (see https://atproto.com/specs/nsid)"
  | Pattern pattern reason => "invalid NSID pattern " +:+ quoted pattern +:+ ": " +:+ reason
  end.

(** One ref of [resolve_refs]. *)
Definition resolve_ref (id : option string) (defs : Entries) (path reference : string) : Out :=
  let '(nsid, def) := split_hash reference in
  if 1 <? count_hashes reference then say (issue_error path (quoted reference +:+ " has two '#'"))
  else
    let is_local := (nsid =s "") || bool_decide (Some nsid = id) in
    match (if nsid =s "" then Ok tt else validate_nsid nsid) with
    | Err e => say (issue_error path (quoted reference +:+ " does not name a lexicon: " +:+ nsid_error_text e))
    | Ok _ =>
        if negb is_local then silent
        else
          let wanted := default "main" def in
          if contains_key defs wanted then silent
          else say (issue_error path (quoted reference +:+ " names no def in this lexicon (" +:+ quoted wanted
                                      +:+ " is not defined)"))
    end.

Definition resolve_refs (id : option string) (defs : Entries) (refs : list (string * string)) : list Issue :=
  o_issues (out_concat (fun r => resolve_ref id defs r.1 r.2) refs).

(** ** Documents *)

Definition check_size (raw : value) : list Issue :=
  match to_vec_len raw with
  | Some n =>
      if (MAX_LEXICON_BYTES <? n)%Z then
        [issue_error "" ("the document is " +:+ pretty n +:+ " bytes, over the " +:+ pretty MAX_LEXICON_BYTES
                         +:+ " byte limit")]
      else []
  | None => []
  end.

Definition check_version (raw : value) : list Issue :=
  match get raw "lexicon" ≫= value_i64 with
  | None => [issue_error "lexicon" "lexicon JSON must have a numeric 'lexicon' field"]
  | Some n =>
      if (n =? 1)%Z then [] else [issue_error "lexicon" ("unsupported lexicon version: " +:+ pretty n)]
  end.

Definition check_id (raw : value) : list Issue * option string :=
  match get raw "id" ≫= as_str with
  | None => ([issue_error "id" "lexicon JSON must have a string 'id' field"], None)
  | Some id =>
      match validate_nsid id with
      | Ok _ => ([], Some id)
      | Err e => ([issue_error "id" (nsid_error_text e)], None)
      end
  end.

Definition check_description (raw : value) : list Issue :=
  match get raw "description" with
  | Some description => if is_string description then [] else [issue_warning "description" "should be a string"]
  | None => []
  end.

Definition check_defs (id : option string) (raw : value) : list Issue :=
  match get raw "defs" with
  | None => [issue_error "defs" "lexicon JSON must have a 'defs' object"]
  | Some (VObject defs) =>
      let out := out_concat (fun d => check_def d.1 d.2) defs in
      (if bool_decide (defs = []) then [issue_error "defs" "defines nothing"] else [])
      ++ o_issues out ++ resolve_refs id defs (o_refs out)
  | Some _ => [issue_error "defs" "must be an object"]
  end.

Definition validate (raw : value) : list Issue :=
  let '(id_issues, id) := check_id raw in
  check_size raw ++ check_version raw ++ id_issues ++ check_description raw ++ check_defs id raw.

Definition is_error (i : Issue) : bool := match i_severity i with SError => true | SWarning => false end.

(** [check_document] *)
Definition check_document (raw : value) : result string string :=
  let errors := render <$> filter (fun i => is_error i = true) (validate raw) in
  if negb (bool_decide (errors = [])) then Err (str_join "; " errors)
  else Ok (default "" (get raw "id" ≫= as_str)).

End Validate.

(** ** Metadata *)

Inductive LexiconType : Type := LRecord | LQuery | LProcedure | LSpace | LDefinitions.

#[global] Instance LexiconType_eq_dec : EqDecision LexiconType.
Proof. solve_decision. Defined.

Record ParsedLexicon : Type := {
  pl_id : string;
  pl_type : LexiconType;
  pl_record_key : option string;
  pl_parameters : option value;
  pl_input : option value;
  pl_output : option value;
  pl_record_schema : option value;
  pl_raw : value;
  pl_revision : Z;
  pl_token_cost : option Z;
  pl_space_type : option string;
  pl_space_name : option string;
  pl_space_collections : option (list string);
}.

Definition lexicon_type (main_type : option string) : LexiconType :=
  match main_type with
  | Some t =>
      if t =s "record" then LRecord else if t =s "query" then LQuery else if t =s "procedure" then LProcedure
      else if t =s "space" then LSpace else LDefinitions
  | None => LDefinitions
  end.

(** The strings of [collections], or the first entry that is none. *)
Fixpoint collection_names (i : nat) (l : list value) : result (list string) string :=
  match l with
  | [] => Ok []
  | v :: l' =>
      match as_str v with
      | None => Err ("space lexicon 'collections[" +:+ pretty i +:+ "]' must be a string")
      | Some s => let? rest := collection_names (S i) l' in Ok (s :: rest)
      end
  end.

(** [name.chars().count()]: the bytes that start a character. *)
Definition chars_count (s : string) : nat :=
  length (filter (fun c => negb (in_range (Ascii.ascii_of_nat 128) (Ascii.ascii_of_nat 191) c) = true)
            (String.list_ascii_of_string s)).

Definition space_parts (main : option value) : result (string * list string) string :=
  match main with
  | None => Err "space lexicon missing 'defs.main'"
  | Some main =>
      match get main "key" ≫= as_str with
      | None => Err "space lexicon 'defs.main.key' must be a string"
      | Some _ =>
          match get main "name" ≫= as_str with
          | None => Err "space lexicon 'defs.main.name' must be a string"
          | Some name =>
              if (chars_count name =? 0) || (64 <? chars_count name)
              then Err "space lexicon 'defs.main.name' must be 1-64 characters"
              else
                match get main "collections" ≫= as_array with
                | None => Err "space lexicon 'defs.main.collections' must be an array"
                | Some l => let? names := collection_names 0 l in Ok (name, names)
                end
          end
      end
  end.

(** [ParsedLexicon::parse] *)
Definition parse_lexicon (raw : value) (revision : Z) (token_cost : option Z) : result ParsedLexicon string :=
  match get raw "id" ≫= as_str with
  | None => Err "lexicon JSON missing 'id' field"
  | Some id =>
      let main_def := d ← get raw "defs"; get d "main" in
      let part key := m ← main_def; get m key in
      let ty := lexicon_type (part "type" ≫= as_str) in
      let? space := match ty with
                    | LSpace => let? p := space_parts main_def in Ok (Some p)
                    | _ => Ok None
                    end in
      Ok {| pl_id := id; pl_type := ty; pl_record_key := part "key" ≫= as_str; pl_parameters := part "parameters";
            pl_input := part "input"; pl_output := part "output"; pl_record_schema := part "record";
            pl_raw := raw; pl_revision := revision; pl_token_cost := token_cost;
            pl_space_type := get raw "spaceType" ≫= as_str; pl_space_name := fst <$> space;
            pl_space_collections := snd <$> space |}
  end.

(** ** Clean passes

    A pass is clean when none of its issues is an error and all its refs are
    good. *)

Section Clean.
Context (good : string -> Prop).

Definition clean (o : Out) : Prop :=
  Forall (fun i => is_error i = false) (o_issues o) /\ Forall (fun r => good r.2) (o_refs o).

Lemma clean_silent : clean silent <-> True.
Proof. unfold clean, silent; simpl. split; [done|]. split; constructor. Qed.

Lemma clean_both a b : clean (a +++ b) <-> clean a /\ clean b.
Proof. unfold clean, both; simpl. rewrite !Forall_app. tauto. Qed.

Lemma clean_error path message : clean (say (issue_error path message)) <-> False.
Proof. unfold clean, say; simpl. rewrite Forall_singleton. by split; [intros [? _]|]. Qed.

Lemma clean_warning path message : clean (say (issue_warning path message)) <-> True.
Proof. unfold clean, say; simpl. rewrite Forall_singleton. split; [done|]. split; [done|constructor]. Qed.

Lemma clean_see path r : clean (see path r) <-> good r.
Proof. unfold clean, see; simpl. rewrite Forall_singleton. split; [by intros [_ ?]|]. split; [constructor|done]. Qed.

Lemma clean_concat {A} (f : A -> Out) l : clean (out_concat f l) <-> forall x, x ∈ l -> clean (f x).
Proof.
  induction l as [|x l IH]; simpl.
  - rewrite clean_silent. split; [|done]. intros _ x Hx. by apply not_elem_of_nil in Hx.
  - rewrite clean_both, IH. setoid_rewrite elem_of_cons. naive_solver.
Qed.

End Clean.

Create Rewrite HintDb clean.
#[export] Hint Rewrite clean_silent clean_both clean_error clean_warning clean_see : clean.

(** Case analysis down to the cleanness of single issues. *)
Ltac clean := autorewrite with clean; try tauto.

(** ** What a sound schema is *)

Definition kind_of (m : Entries) : option string := assoc_get m "type" ≫= as_str.

Definition absent_or (m : Entries) (key : string) (P : value -> Prop) : Prop :=
  forall v, assoc_get m key = Some v -> P v.

Definition is_object (v : value) : Prop := exists m, v = VObject m.

(** An array of strings, each with [P]. *)
Definition strings (P : string -> Prop) (v : value) : Prop :=
  exists l, v = VArray l /\ Forall (fun x => exists s, x = VString s /\ P s) l.

(** One schema, without the schemas in it. *)
Record local_ok (good : string -> Prop) (m : Entries) : Prop := {
  lo_type : exists kind, kind_of m = Some kind /\ kind ∈ FIELD_TYPES;
  lo_object : kind_of m = Some "object" \/ kind_of m = Some "params" ->
    absent_or m "properties" (fun v => exists ps, v = VObject ps /\ Forall (fun p => is_object p.2) ps)
    /\ absent_or m "required"
         (strings (fun s => forall ps, assoc_get m "properties" = Some (VObject ps) -> is_Some (assoc_get ps s)))
    /\ absent_or m "nullable" (strings (fun _ => True));
  lo_array : kind_of m = Some "array" -> absent_or m "items" is_object;
  lo_ref : kind_of m = Some "ref" -> exists r, assoc_get m "ref" = Some (VString r) /\ r <> "" /\ good r;
  lo_union : kind_of m = Some "union" ->
    exists v, assoc_get m "refs" = Some v /\ strings (fun r => r <> "" /\ good r) v;
  lo_string : kind_of m = Some "string" ->
    absent_or m "enum" (fun v => is_array v = true) /\ absent_or m "knownValues" (fun v => is_array v = true);
}.

(** The schemas in a schema. *)
Inductive nested : Entries -> Entries -> Prop :=
| nested_refl m : nested m m
| nested_property m ps name pm m' :
    kind_of m = Some "object" \/ kind_of m = Some "params" -> assoc_get m "properties" = Some (VObject ps) ->
    (name, VObject pm) ∈ ps -> nested pm m' -> nested m m'
| nested_items m im m' :
    kind_of m = Some "array" -> assoc_get m "items" = Some (VObject im) -> nested im m' -> nested m m'.

(** A sound schema: it and every schema in it is locally sound. *)
Definition schema_ok (good : string -> Prop) (m : Entries) : Prop := forall m', nested m m' -> local_ok good m'.

Section Field.
Context (good : string -> Prop).

Lemma clean_enum (f : nat -> value -> Out) (Q : value -> Prop) l :
  (forall i x, clean good (f i x) <-> Q x) ->
  clean good (out_concat (fun p => f p.1 p.2) (zip (seq 0 (length l)) l)) <-> Forall Q l.
Proof.
  intros Hf. rewrite clean_concat. setoid_rewrite Hf. generalize 0.
  induction l as [|x l IH]; intros n; simpl.
  - split; [constructor|]. intros _ p Hp. by apply not_elem_of_nil in Hp.
  - rewrite Forall_cons, <- (IH (S n)). setoid_rewrite elem_of_cons. naive_solver.
Qed.

Lemma clean_bounds map path min max : clean good (bounds map path min max) <-> True.
Proof. unfold bounds. repeat case_match; clean. Qed.

Lemma clean_name_list m path list : 
  clean good (name_list m path list) <->
  absent_or m list (strings (fun s => list = "required" ->
    forall ps, assoc_get m "properties" = Some (VObject ps) -> is_Some (assoc_get ps s))).
Proof.
  unfold name_list, absent_or. destruct (assoc_get m list) as [v|]; [|rewrite clean_silent; split; [by intros _ v|done]].
  transitivity (strings (fun s => list = "required" ->
    forall ps, assoc_get m "properties" = Some (VObject ps) -> is_Some (assoc_get ps s)) v); [|naive_solver].
  destruct v as [| | | | |l|]; simpl; try (rewrite clean_error; split; [done|]; by intros (? & ? & _)).
  rewrite clean_enum.
  - unfold strings. split; [by eauto|]. by intros (? & [= <-] & ?).
  - intros i x. unfold listed_name. destruct (as_str x) as [s|] eqn:Hx.
    2: { rewrite clean_error. split; [done|]. intros (s & -> & _). done. }
    destruct x; try done. simpl in Hx. injection Hx as ->.
    destruct (assoc_get m "properties" ≫= as_object) as [ps|] eqn:Hps.
    + assert (Hp : assoc_get m "properties" = Some (VObject ps)).
      { destruct (assoc_get m "properties") as [[]|]; simpl in Hps; naive_solver. }
      destruct (contains_key ps s) eqn:Hc; simpl.
      * rewrite clean_silent. apply contains_key_true in Hc. split; [|done]. intros _. exists s. split; [done|].
        intros _ ps' Hps'. by simplify_eq.
      * apply not_true_iff_false in Hc. rewrite contains_key_true in Hc.
        destruct (list =s "required") eqn:Hl.
        -- apply String.eqb_eq in Hl. rewrite clean_error. split; [done|]. intros (? & [= <-] & H). by apply Hc, H.
        -- apply String.eqb_neq in Hl. rewrite clean_warning. split; [|done]. intros _. exists s. by split.
    + rewrite clean_silent. split; [|done]. intros _. exists s. split; [done|]. intros _ ps Hp.
      by rewrite Hp in Hps.
Qed.

Lemma clean_ref_field m path :
  clean good (ref_field m path) <-> exists r, assoc_get m "ref" = Some (VString r) /\ r <> "" /\ good r.
Proof.
  unfold ref_field. destruct (assoc_get m "ref" ≫= as_str) as [r|] eqn:Hr.
  - assert (Hr' : assoc_get m "ref" = Some (VString r)).
    { destruct (assoc_get m "ref") as [[]|]; simpl in Hr; naive_solver. }
    destruct (r =s "") eqn:E; simpl; [apply String.eqb_eq in E|apply String.eqb_neq in E].
    + rewrite clean_error. split; [done|]. intros (r' & Hr'' & ? & _). simplify_eq.
    + rewrite clean_see. split; [eauto|]. intros (r' & Hr'' & _ & ?). by simplify_eq.
  - rewrite clean_error. split; [done|]. intros (r & Hr' & _). by rewrite Hr' in Hr.
Qed.

Lemma clean_union_field m path :
  clean good (union_field m path)
  <-> exists v, assoc_get m "refs" = Some v /\ strings (fun r => r <> "" /\ good r) v.
Proof.
  unfold union_field. destruct (assoc_get m "refs") as [v|].
  2: { rewrite clean_error. split; [done|]. by intros (? & ? & _). }
  transitivity (strings (fun r => r <> "" /\ good r) v); [|naive_solver].
  destruct v as [| | | | |l|]; try (rewrite clean_error; split; [done|]; by intros (? & ? & _)).
  rewrite clean_both.
  assert (Hw : clean good (if bool_decide (l = []) && default false (assoc_get m "closed" ≫= as_bool)
    then say (issue_warning (path +:+ ".refs") "a closed union with no refs matches nothing") else silent) <-> True)
    by (case_match; clean).
  rewrite Hw, clean_enum.
  - unfold strings. split; [intros [_ ?]; eauto|]. by intros (? & [= <-] & ?).
  - intros i x. unfold union_ref. destruct (as_str x) as [r|] eqn:Hx.
    + destruct x; try done. simpl in Hx. injection Hx as ->.
      destruct (r =s "") eqn:E; simpl; [apply String.eqb_eq in E as ->|apply String.eqb_neq in E].
      * rewrite clean_error. split; [done|]. intros (? & [= <-] & ? & _). done.
      * rewrite clean_see. split; [eauto|]. by intros (? & [= <-] & _ & ?).
    + rewrite clean_error. split; [done|]. by intros (? & -> & _).
Qed.

Lemma clean_array_or_absent m path list :
  clean good (array_or_absent m path list) <-> absent_or m list (fun v => is_array v = true).
Proof.
  unfold array_or_absent, absent_or. destruct (assoc_get m list) as [v|].
  - destruct (is_array v) eqn:E; [rewrite clean_silent|rewrite clean_error]; naive_solver congruence.
  - rewrite clean_silent. naive_solver.
Qed.

Lemma clean_string_field m path :
  clean good (string_field m path)
  <-> absent_or m "enum" (fun v => is_array v = true) /\ absent_or m "knownValues" (fun v => is_array v = true).
Proof. unfold string_field. rewrite !clean_both, !clean_bounds, !clean_array_or_absent. tauto. Qed.

End Field.

Lemma absent_or_strings m key (P Q : string -> Prop) :
  (forall s, P s <-> Q s) -> absent_or m key (strings P) <-> absent_or m key (strings Q).
Proof.
  intros HPQ. unfold absent_or, strings.
  split; intros H v Hv; destruct (H v Hv) as (l & -> & Hl); exists l; (split; [done|]);
    (eapply Forall_impl; [exact Hl|]); intros x (s & -> & Hs); exists s; (split; [done|]); by apply HPQ.
Qed.

Section Sound.
Context (good : string -> Prop).

Definition object_kind (m : Entries) : Prop := kind_of m = Some "object" \/ kind_of m = Some "params".

(** A schema is sound when it is locally sound and the schemas just below it are. *)
Lemma schema_ok_unfold m :
  schema_ok good m <->
  local_ok good m
  /\ (object_kind m -> forall ps name pm, assoc_get m "properties" = Some (VObject ps) -> (name, VObject pm) ∈ ps ->
        schema_ok good pm)
  /\ (kind_of m = Some "array" -> forall im, assoc_get m "items" = Some (VObject im) -> schema_ok good im).
Proof.
  split.
  - intros Hm. split_and!; [apply Hm; constructor|..].
    + intros Hk ps name pm Hps Hin m' Hn. apply Hm. by eapply nested_property.
    + intros Hk im Him m' Hn. apply Hm. by eapply nested_items.
  - intros (Hl & Hp & Hi) m' Hn. destruct Hn as [m|m ps name pm m' Hk Hps Hin Hn|m im m' Hk Him Hn]; [done|..].
    + by eapply (Hp Hk ps name pm).
    + by eapply (Hi Hk im).
Qed.

(** A schema of a kind with no schemas in it. *)
Lemma schema_ok_leaf m kind :
  kind_of m = Some kind -> kind ∉ ["object"; "params"; "array"] -> schema_ok good m <-> local_ok good m.
Proof.
  intros Hk Hn. rewrite schema_ok_unfold. split; [by intros (? & _)|]. intros Hl. split; [done|]. split.
  - intros [Hk'|Hk']; rewrite Hk in Hk'; injection Hk' as ->; exfalso; apply Hn; set_solver.
  - intros Hk'. rewrite Hk in Hk'. injection Hk' as ->. exfalso; apply Hn; set_solver.
Qed.

(** Local soundness of a kind, given the part that applies to it. *)
Lemma local_ok_kind m kind (Q : Prop) :
  kind_of m = Some kind -> kind ∈ FIELD_TYPES ->
  (Q <->
    (object_kind m ->
       absent_or m "properties" (fun v => exists ps, v = VObject ps /\ Forall (fun p => is_object p.2) ps)
       /\ absent_or m "required"
            (strings (fun s => forall ps, assoc_get m "properties" = Some (VObject ps) -> is_Some (assoc_get ps s)))
       /\ absent_or m "nullable" (strings (fun _ => True)))
    /\ (kind = "array" -> absent_or m "items" is_object)
    /\ (kind = "ref" -> exists r, assoc_get m "ref" = Some (VString r) /\ r <> "" /\ good r)
    /\ (kind = "union" -> exists v, assoc_get m "refs" = Some v /\ strings (fun r => r <> "" /\ good r) v)
    /\ (kind = "string" ->
          absent_or m "enum" (fun v => is_array v = true) /\ absent_or m "knownValues" (fun v => is_array v = true))) ->
  local_ok good m <-> Q.
Proof.
  intros Hk Hin ->. split.
  - intros [_ Ho Ha Hr Hu Hs]. split_and!; [exact Ho|rewrite Hk in *; naive_solver..].
  - intros (Ho & Ha & Hr & Hu & Hs). split; [by eauto|exact Ho|rewrite Hk; naive_solver..].
Qed.

Lemma not_object_kind m kind : kind_of m = Some kind -> kind ∉ ["object"; "params"] -> ~ object_kind m.
Proof. intros Hk Hn [H|H]; rewrite Hk in H; injection H as ->; apply Hn; set_solver. Qed.

Lemma clean_sub fuel (v : value) path :
  (forall m path, vsize (VObject m) <= fuel ->
     clean good (field_go fuel (assoc_get m "type") m path) <-> schema_ok good m) ->
  vsize v <= fuel ->
  clean good (match as_object v with
              | Some m => field_go fuel (get v "type") m path
              | None => say (issue_error path "must be an object")
              end) <-> exists m, v = VObject m /\ schema_ok good m.
Proof.
  intros IH Hv. destruct v as [| | | | | |m]; simpl as_object; cbn match;
    try (rewrite clean_error; split; [done|]; by intros (? & ? & _)).
  cbn [get]. rewrite IH by done. naive_solver.
Qed.

Lemma clean_field_go fuel : forall m path, vsize (VObject m) <= fuel ->
  clean good (field_go fuel (assoc_get m "type") m path) <-> schema_ok good m.
Proof.
  induction fuel as [|fuel IH]; intros m path Hf; [pose proof (vsize_pos (VObject m)); lia|].
  cbn [field_go]. fold (kind_of m). destruct (kind_of m) as [kind|] eqn:Hk.
  2: { rewrite clean_error, schema_ok_unfold. split; [done|]. intros [[(k & Hk' & _) _ _ _ _ _] _]. congruence. }
  destruct (str_mem kind ["object"; "params"]) eqn:Hobj.
  { apply str_mem_true in Hobj.
    assert (Ho : object_kind m) by (unfold object_kind; rewrite Hk; set_solver).
    assert (Hkind : kind = "object" \/ kind = "params") by (clear -Hobj; set_solver).
    assert (Hna : kind <> "array") by (by destruct Hkind as [->| ->]).
    assert (Hft : kind ∈ FIELD_TYPES) by (unfold FIELD_TYPES; destruct Hkind as [->| ->]; set_solver).
    rewrite !clean_both, !clean_name_list, schema_ok_unfold, (local_ok_kind m kind
      (absent_or m "properties" (fun v => exists ps, v = VObject ps /\ Forall (fun p => is_object p.2) ps)
       /\ absent_or m "required"
            (strings (fun s => forall ps, assoc_get m "properties" = Some (VObject ps) -> is_Some (assoc_get ps s)))
       /\ absent_or m "nullable" (strings (fun _ => True)))).
    2: done. 2: done.
    2: { clear -Ho Hkind. destruct Hkind as [->| ->]; naive_solver. }
    assert (Hp : clean good match assoc_get m "properties" with
        | Some (VObject properties) => out_concat (fun p => match as_object p.2 with
            | Some m0 => field_go fuel (get p.2 "type") m0 (path +:+ ".properties." +:+ p.1)
            | None => say (issue_error (path +:+ ".properties." +:+ p.1) "must be an object")
            end) properties
        | Some _ => say (issue_error (path +:+ ".properties") "must be an object")
        | None => silent
        end <-> absent_or m "properties" (fun v => exists ps, v = VObject ps /\ Forall (fun p => is_object p.2) ps)
                /\ forall ps name pm, assoc_get m "properties" = Some (VObject ps) -> (name, VObject pm) ∈ ps ->
                   schema_ok good pm).
    { unfold absent_or. destruct (assoc_get m "properties") as [v|] eqn:Hps; [|rewrite clean_silent; naive_solver].
      destruct v as [| | | | | |ps]; try (rewrite clean_error; split; [done|]; intros [Hx _];
        destruct (Hx _ eq_refl) as (? & ? & _); discriminate).
      assert (Hsize : vsize (VObject ps) < vsize (VObject m)) by (apply (vsize_get (VObject m) "properties"); done).
      rewrite clean_concat. split.
      - intros Hc. assert (Hc' : forall p, p ∈ ps -> exists pm, p.2 = VObject pm /\ schema_ok good pm).
        { intros [k x] Hx. specialize (Hc _ Hx). rewrite clean_sub in Hc; [done|done|].
          pose proof (vsize_entry k x ps Hx). simpl in *. lia. }
        split.
        + intros v [= <-]. exists ps. split; [done|]. apply Forall_forall. intros p Hin. destruct (Hc' p Hin) as (pm & -> & _).
          by eexists.
        + intros ps' name pm [= <-] Hin. destruct (Hc' _ Hin) as (pm' & [= <-] & ?). done.
      - intros [Ha Hs] [k x] Hin. rewrite clean_sub; [|done|].
        + destruct (Ha _ eq_refl) as (? & [= <-] & Hall). rewrite Forall_forall in Hall.
          destruct (Hall _ Hin) as [pm Hpm]. simpl in *. subst. eauto.
        + pose proof (vsize_entry k x ps Hin). simpl in *. lia. }
    rewrite Hp, (absent_or_strings m "required" _ (fun s => forall ps,
      assoc_get m "properties" = Some (VObject ps) -> is_Some (assoc_get ps s))),
      (absent_or_strings m "nullable" _ (fun _ => True)) by naive_solver.
    rewrite Hk. clear -Ho Hna. assert (Hna' : Some kind <> Some "array") by congruence. tauto. }
  apply str_mem_false in Hobj.
  destruct (kind =s "array") eqn:Earr.
  { apply String.eqb_eq in Earr as ->.
    rewrite schema_ok_unfold, (local_ok_kind m "array" (absent_or m "items" is_object)).
    2: done. 2: set_solver. 2: { pose proof (not_object_kind m _ Hk Hobj). naive_solver. }
    unfold absent_or. destruct (assoc_get m "items") as [v|] eqn:Hi.
    2: { rewrite clean_warning. pose proof (not_object_kind m _ Hk Hobj). naive_solver. }
    rewrite clean_sub; [|done|pose proof (vsize_get (VObject m) "items" v Hi); lia].
    pose proof (not_object_kind m _ Hk Hobj). unfold is_object. rewrite Hk. naive_solver. }
  apply String.eqb_neq in Earr.
  assert (Hleaf : kind ∉ ["object"; "params"; "array"]) by set_solver.
  pose proof (not_object_kind m _ Hk Hobj) as Hno. rewrite (schema_ok_leaf m kind) by done.
  destruct (kind =s "ref") eqn:Eref.
  { apply String.eqb_eq in Eref as ->. rewrite clean_ref_field. symmetry. apply (local_ok_kind m "ref"); [done|set_solver|].
    naive_solver. }
  destruct (kind =s "union") eqn:Eun.
  { apply String.eqb_eq in Eun as ->. rewrite clean_union_field. symmetry. apply (local_ok_kind m "union"); [done|set_solver|].
    naive_solver. }
  destruct (kind =s "string") eqn:Estr.
  { apply String.eqb_eq in Estr as ->. rewrite clean_string_field. symmetry. apply (local_ok_kind m "string"); [done|set_solver|].
    naive_solver. }
  apply String.eqb_neq in Eref. apply String.eqb_neq in Eun. apply String.eqb_neq in Estr.
  destruct (kind =s "integer") eqn:Eint.
  { apply String.eqb_eq in Eint as ->. rewrite clean_bounds. symmetry. apply (local_ok_kind m "integer"); [done|set_solver|].
    naive_solver. }
  apply String.eqb_neq in Eint.
  destruct (str_mem kind ["null"; "boolean"; "bytes"; "cid-link"; "blob"; "token"; "unknown"]) eqn:Eother.
  { apply str_mem_true in Eother. rewrite clean_silent. symmetry. apply (local_ok_kind m kind); [done|set_solver|].
    naive_solver. }
  apply str_mem_false in Eother. rewrite clean_error. split; [done|]. intros [(k & Hk' & Hin) _ _ _ _ _].
  rewrite Hk in Hk'. injection Hk' as <-. set_solver.
Qed.

Lemma clean_field m path : clean good (field (assoc_get m "type") m path) <-> schema_ok good m.
Proof. by apply clean_field_go. Qed.

End Sound.

(** ** What a sound document is *)

Section Document.
Context {RE : RegexEngine} (to_vec_len : value -> option Z).

(** A ref names a lexicon, and a def of this document when the lexicon is this
    document ([id]). *)
Definition ref_ok (id : option string) (defs : Entries) (r : string) : Prop :=
  count_hashes r <= 1
  /\ ((split_hash r).1 = "" \/ validate_nsid (split_hash r).1 = Ok tt)
  /\ ((split_hash r).1 = "" \/ Some (split_hash r).1 = id -> is_Some (assoc_get defs (default "main" (split_hash r).2))).

Lemma resolve_ref_clean id defs path r :
  Forall (fun i => is_error i = false) (o_issues (resolve_ref id defs path r)) <-> ref_ok id defs r.
Proof.
  unfold resolve_ref, ref_ok. destruct (split_hash r) as [nsid def]. simpl.
  destruct (1 <? count_hashes r) eqn:Hc; bool_prop.
  { simpl. rewrite Forall_singleton. split; [done|]. intros [? _]. lia. }
  assert (Hn : (nsid = "" \/ validate_nsid nsid = Ok tt)
               <-> (if nsid =s "" then Ok tt else validate_nsid nsid) = Ok tt).
  { destruct (nsid =s "") eqn:E; bool_prop; [subst; tauto|]. naive_solver. }
  rewrite Hn. destruct (if nsid =s "" then Ok tt else validate_nsid nsid) as [[]|e].
  2: { simpl. rewrite Forall_singleton. split; [done|]. by intros (_ & ? & _). }
  assert (Hl : (nsid =s "") || bool_decide (Some nsid = id) = true <-> nsid = "" \/ Some nsid = id).
  { rewrite orb_true_iff, String.eqb_eq, bool_decide_eq_true. done. }
  destruct ((nsid =s "") || bool_decide (Some nsid = id)); simpl.
  - destruct (contains_key defs (default "main" def)) eqn:Hd; simpl.
    + apply contains_key_true in Hd. split; [|constructor]. intros _. split_and!; [lia|done|done].
    + apply not_true_iff_false in Hd. rewrite contains_key_true in Hd. rewrite Forall_singleton. split; [done|].
      intros (_ & _ & H). exfalso. apply Hd, H. tauto.
  - split; [|constructor]. intros _. split_and!; [lia|done|]. intros H%Hl. done.
Qed.

Lemma resolve_refs_clean id defs refs :
  Forall (fun i => is_error i = false) (resolve_refs id defs refs) <-> Forall (fun r => ref_ok id defs r.2) refs.
Proof.
  unfold resolve_refs. induction refs as [|[p r] refs IH]; simpl; [split; constructor|].
  rewrite Forall_app, Forall_cons, IH, resolve_ref_clean. done.
Qed.

Section Defs.
Context (good : string -> Prop).

(** An input, output or message. *)
Definition body_ok (v : value) : Prop :=
  exists m, v = VObject m /\ absent_or m "encoding" (fun e => is_string e = true)
    /\ absent_or m "schema" (fun s => exists sm, s = VObject sm /\ schema_ok good sm).

(** A schema of a given type. *)
Definition typed_ok (kind : string) (v : value) : Prop :=
  exists m, v = VObject m /\ kind_of m = Some kind /\ schema_ok good m.

Definition key_ok (v : value) : Prop :=
  exists key, v = VString key /\ (key ∈ RECORD_KEYS \/ exists rest, key = "literal:" +:+ rest /\ rest <> "").

Definition primary_ok (kind : string) (def : Entries) : Prop :=
  (kind = "record" ->
     (exists v, assoc_get def "key" = Some v /\ key_ok v)
     /\ exists v, assoc_get def "record" = Some v /\ typed_ok "object" v)
  /\ (kind = "query" \/ kind = "procedure" ->
        absent_or def "parameters" (typed_ok "params") /\ absent_or def "output" body_ok)
  /\ (kind = "procedure" -> absent_or def "input" body_ok)
  /\ (kind = "subscription" -> absent_or def "message" body_ok).

Definition def_ok (name : string) (v : value) : Prop :=
  exists def kind, v = VObject def /\ kind_of def = Some kind
    /\ ((kind ∈ PRIMARY_TYPES /\ name = "main" /\ primary_ok kind def)
        \/ (kind ∈ FIELD_TYPES /\ schema_ok good def)).

Lemma clean_body_schema v path : clean good (body_schema v path) <-> body_ok v.
Proof.
  unfold body_schema, body_ok. destruct v as [| | | | | |m]; simpl;
    try (rewrite clean_error; split; [done|]; by intros (? & ? & _)).
  rewrite clean_both. unfold absent_or.
  assert (He : clean good (match assoc_get m "encoding" with
     | Some encoding => if is_string encoding then silent else say (issue_error (path +:+ ".encoding") "must be a string")
     | None => silent end) <-> forall e, assoc_get m "encoding" = Some e -> is_string e = true).
  { destruct (assoc_get m "encoding") as [e|]; [destruct (is_string e) eqn:E|]; clean; naive_solver congruence. }
  assert (Hs : clean good (match assoc_get m "schema" with
     | Some schema => match as_object schema with
         | Some sm => field (get schema "type") sm (path +:+ ".schema")
         | None => say (issue_error (path +:+ ".schema") "must be an object") end
     | None => silent end) <-> forall s, assoc_get m "schema" = Some s -> exists sm, s = VObject sm /\ schema_ok good sm).
  { destruct (assoc_get m "schema") as [s|]; [|rewrite clean_silent; naive_solver].
    destruct s as [| | | | | |sm]; simpl; try (rewrite clean_error; split; [done|];
      intros Hx; destruct (Hx _ eq_refl) as (? & ? & _); discriminate).
    rewrite clean_field. naive_solver. }
  rewrite He, Hs. naive_solver.
Qed.

Lemma clean_body_of def path body : clean good (body_of def path body) <-> absent_or def body body_ok.
Proof.
  unfold body_of, absent_or. destruct (assoc_get def body) as [v|]; [rewrite clean_body_schema|rewrite clean_silent];
    naive_solver.
Qed.

Lemma clean_typed_schema v path kind message : clean good (typed_schema v path kind message) <-> typed_ok kind v.
Proof.
  unfold typed_schema, typed_ok. rewrite clean_both. destruct v as [| | | | | |m]; simpl;
    try (rewrite clean_error; split; [by intros [? _]|by intros (? & ? & _)]).
  fold (kind_of m). rewrite clean_field. case_bool_decide as Hk; clean; naive_solver.
Qed.

Lemma clean_record_key def path :
  clean good (record_key def path) <-> exists v, assoc_get def "key" = Some v /\ key_ok v.
Proof.
  unfold record_key, key_ok. destruct (assoc_get def "key" ≫= as_str) as [key|] eqn:Hkey.
  2: { rewrite clean_error. split; [done|]. intros (v & Hv & key & -> & _). by rewrite Hv in Hkey. }
  assert (Hkey' : assoc_get def "key" = Some (VString key)).
  { destruct (assoc_get def "key") as [[]|]; simpl in Hkey; naive_solver. }
  transitivity (key ∈ RECORD_KEYS \/ exists rest, key = "literal:" +:+ rest /\ rest <> "").
  2: { rewrite Hkey'. naive_solver. }
  destruct (str_mem key RECORD_KEYS) eqn:Hin; [apply str_mem_true in Hin|apply str_mem_false in Hin].
  { rewrite clean_silent. tauto. }
  destruct (starts_with "literal:" key) eqn:Hlit.
  - apply starts_with_true in Hlit as [rest ->]. rewrite length_append.
    destruct (_ =? _) eqn:Hlen; bool_prop.
    + rewrite clean_error. split; [done|]. intros [?|(rest' & E & Hne)]; [done|].
      apply append_cancel_l in E as ->. destruct rest'; [done|]. simpl in Hlen. lia.
    + rewrite clean_silent. split; [|done]. intros _. right. exists rest. split; [done|]. intros ->. simpl in Hlen. lia.
  - rewrite clean_error. split; [done|]. intros [?|(rest & -> & _)]; [done|].
    apply not_true_iff_false in Hlit. apply Hlit. apply starts_with_true. eauto.
Qed.

Lemma clean_primary kind def path : clean good (primary kind def path) <-> primary_ok kind def.
Proof.
  unfold primary, primary_ok.
  destruct (kind =s "record") eqn:Erec; bool_prop.
  { subst. rewrite clean_both, clean_record_key.
    assert (Hs : clean good (match assoc_get def "record" with
       | Some schema => typed_schema schema (path +:+ ".record") "object" "a record's schema must be an object"
       | None => say (issue_error (path +:+ ".record") "a record must carry its 'record' schema") end)
       <-> exists v, assoc_get def "record" = Some v /\ typed_ok "object" v).
    { destruct (assoc_get def "record"); [rewrite clean_typed_schema|rewrite clean_error]; naive_solver. }
    rewrite Hs. naive_solver. }
  destruct (str_mem kind ["query"; "procedure"]) eqn:Em; [apply str_mem_true in Em|apply str_mem_false in Em].
  { rewrite !clean_both, clean_body_of.
    assert (Hp : clean good (match assoc_get def "parameters" with
       | Some params => typed_schema params (path +:+ ".parameters") "params" "parameters must be of type 'params'"
       | None => silent end) <-> absent_or def "parameters" (typed_ok "params")).
    { unfold absent_or. destruct (assoc_get def "parameters"); [rewrite clean_typed_schema|rewrite clean_silent];
        naive_solver. }
    rewrite Hp. assert (Hk : kind = "query" \/ kind = "procedure") by (clear -Em; set_solver). clear Em Hp.
    destruct Hk as [->| ->]; simpl.
    - assert (Hw : clean good (if contains_key def "input" then say (issue_warning (path +:+ ".input")
        "a query takes no input body, so this one is ignored;                              parameters go in 'parameters'")
        else silent) <-> True) by (case_match; clean).
      rewrite Hw. naive_solver.
    - change ("procedure" =s "query") with false. cbn match. rewrite clean_body_of. naive_solver. }
  assert (Hq : kind <> "query" /\ kind <> "procedure") by (clear -Em; set_solver). clear Em.
  destruct (kind =s "subscription") eqn:Es; bool_prop.
  - rewrite clean_body_of. naive_solver.
  - rewrite clean_silent. naive_solver.
Qed.

Lemma clean_check_def name v : clean good (check_def name v) <-> def_ok name v.
Proof.
  unfold check_def, def_ok. rewrite clean_both.
  assert (Hn : clean good (if is_def_name name then silent else say (issue_warning ("defs." +:+ name)
    "a def name should start with a letter and hold only letters and digits")) <-> True) by (case_match; clean).
  rewrite Hn. clear Hn. destruct v as [| | | | | |def]; cbn [as_object];
    try (rewrite clean_error; split; [by intros [_ ?]|]; by intros (? & ? & ? & _)).
  fold (kind_of def). destruct (kind_of def) as [kind|] eqn:Hk.
  2: { rewrite clean_error. split; [by intros [_ ?]|]. intros (? & ? & [= <-] & ? & _). congruence. }
  transitivity ((kind ∈ PRIMARY_TYPES /\ name = "main" /\ primary_ok kind def)
                \/ (kind ∈ FIELD_TYPES /\ schema_ok good def)).
  2: { split; [eauto 8|]. intros (? & ? & [= <-] & ? & ?). by simplify_eq. }
  assert (Hdisj : kind ∈ PRIMARY_TYPES -> kind ∈ FIELD_TYPES -> False).
  { unfold PRIMARY_TYPES, FIELD_TYPES. rewrite <- !str_mem_true. intros H1 H2. clear -H1 H2.
    unfold str_mem in *. simpl in *. repeat (apply orb_true_iff in H1 as [H1|H1]; [apply String.eqb_eq in H1 as ->; discriminate|]).
    discriminate. }
  destruct (str_mem kind PRIMARY_TYPES) eqn:Hp; [apply str_mem_true in Hp|apply str_mem_false in Hp].
  - rewrite !clean_both, clean_primary.
    assert (Hm : clean good (if name =s "main" then silent else say (issue_error ("defs." +:+ name +:+ ".type")
      ("a " +:+ quoted kind +:+ " may only be the 'main' def, not " +:+ quoted name))) <-> name = "main").
    { destruct (name =s "main") eqn:E; bool_prop; clean. }
    assert (Hu : clean good (if str_mem kind UNSERVED_PRIMARY_TYPES then say (issue_warning ("defs." +:+ name +:+ ".type")
      ("this is a valid " +:+ quoted kind +:+ " lexicon, but HappyView does not serve " +:+ kind
       +:+ "s yet: it will be stored and no endpoint will be generated for it")) else silent) <-> True)
      by (destruct (str_mem kind UNSERVED_PRIMARY_TYPES); clean).
    rewrite !append_assoc, Hm, Hu. naive_solver.
  - destruct (str_mem kind FIELD_TYPES) eqn:Hf; [apply str_mem_true in Hf|apply str_mem_false in Hf].
    + rewrite clean_field. naive_solver.
    + rewrite clean_error. naive_solver.
Qed.

End Defs.

Definition lexicon_ok (raw : value) : Prop :=
  (forall n, to_vec_len raw = Some n -> (n <= MAX_LEXICON_BYTES)%Z)
  /\ get raw "lexicon" = Some (VNumber 1)
  /\ exists id defs,
       get raw "id" = Some (VString id) /\ validate_nsid id = Ok tt
       /\ get raw "defs" = Some (VObject defs) /\ defs <> []
       /\ forall name v, (name, v) ∈ defs -> def_ok (ref_ok (Some id) defs) name v.

Abbreviation no_errors := (Forall (fun i => is_error i = false)).

Lemma check_size_clean raw :
  no_errors (check_size to_vec_len raw) <-> forall n, to_vec_len raw = Some n -> (n <= MAX_LEXICON_BYTES)%Z.
Proof.
  unfold check_size. destruct (to_vec_len raw) as [n|]; [|split; [naive_solver|constructor]].
  destruct (Z.ltb_spec MAX_LEXICON_BYTES n) as [Hlt|Hge].
  - rewrite Forall_singleton. split; [done|]. intros H. specialize (H n eq_refl). lia.
  - split; [|constructor]. intros _ m [= <-]. done.
Qed.

Lemma check_version_clean raw : no_errors (check_version raw) <-> get raw "lexicon" = Some (VNumber 1).
Proof.
  unfold check_version. destruct (get raw "lexicon") as [v|]; simpl; [|rewrite Forall_singleton; naive_solver].
  destruct v as [| |n| | | |]; simpl; try (rewrite Forall_singleton; naive_solver).
  destruct (Z.leb_spec (- 2 ^ 63) n); simpl; [|rewrite Forall_singleton; split; [done|]; intros [= ->]; lia].
  destruct (Z.ltb_spec n (2 ^ 63)); simpl; [|rewrite Forall_singleton; split; [done|]; intros [= ->]; lia].
  destruct (Z.eqb_spec n 1) as [->|Hn]; [split; [done|constructor]|].
  rewrite Forall_singleton. split; [done|]. by intros [= ->].
Qed.

Lemma check_description_clean raw : no_errors (check_description raw).
Proof. unfold check_description. repeat case_match; repeat constructor. Qed.

Lemma check_defs_clean id raw :
  no_errors (check_defs id raw) <->
  exists defs, get raw "defs" = Some (VObject defs) /\ defs <> []
    /\ forall name v, (name, v) ∈ defs -> def_ok (ref_ok id defs) name v.
Proof.
  unfold check_defs. destruct (get raw "defs") as [v|]; [|rewrite Forall_singleton; naive_solver].
  destruct v as [| | | | | |defs]; try (rewrite Forall_singleton; naive_solver).
  rewrite !Forall_app, resolve_refs_clean.
  assert (Hc : no_errors (o_issues (out_concat (fun d => check_def d.1 d.2) defs))
    /\ Forall (fun r => ref_ok id defs r.2) (o_refs (out_concat (fun d => check_def d.1 d.2) defs))
    <-> forall name v, (name, v) ∈ defs -> def_ok (ref_ok id defs) name v).
  { change (clean (ref_ok id defs) (out_concat (fun d => check_def d.1 d.2) defs)
            <-> forall name v, (name, v) ∈ defs -> def_ok (ref_ok id defs) name v).
    rewrite clean_concat. setoid_rewrite clean_check_def. split; [intros H name v Hin; exact (H (name, v) Hin)|].
    intros H [name v] Hin. by apply H. }
  assert (He : no_errors (if bool_decide (defs = []) then [issue_error "defs" "defines nothing"] else []) <-> defs <> []).
  { case_bool_decide; [rewrite Forall_singleton; naive_solver|]. split; [done|constructor]. }
  rewrite He. naive_solver.
Qed.

Lemma validate_clean raw : no_errors (validate to_vec_len raw) <-> lexicon_ok raw.
Proof.
  unfold validate, lexicon_ok. destruct (check_id raw) as [id_issues id] eqn:Hid.
  rewrite !Forall_app, check_size_clean, check_version_clean, check_defs_clean.
  pose proof (check_description_clean raw) as Hdesc.
  assert (Hids : no_errors id_issues <->
    exists s, id = Some s /\ get raw "id" = Some (VString s) /\ validate_nsid s = Ok tt).
  { unfold check_id in Hid. destruct (get raw "id") as [v|] eqn:Hv; simpl in Hid.
    2: { injection Hid as <- <-. rewrite Forall_singleton. naive_solver. }
    destruct v as [| | | |s| |]; simpl in Hid; try (injection Hid as <- <-; rewrite Forall_singleton; naive_solver).
    destruct (validate_nsid s) as [[]|e] eqn:Hn; injection Hid as <- <-.
    - split; [eauto|constructor].
    - rewrite Forall_singleton. split; [done|]. intros (? & ? & _). done. }
  assert (Hother : forall s, get raw "id" = Some (VString s) -> validate_nsid s = Ok tt -> id = Some s).
  { intros s Hs Hn. unfold check_id in Hid. rewrite Hs in Hid. simpl in Hid. rewrite Hn in Hid. by injection Hid as _ <-. }
  rewrite Hids. split.
  - intros (Hsize & Hver & (s & -> & Hs & Hn) & _ & defs & Hdefs & Hne & Hok). eauto 12.
  - intros (Hsize & Hver & s & defs & Hs & Hn & Hdefs & Hne & Hok). rewrite (Hother s Hs Hn). eauto 12.
Qed.

Lemma check_document_Ok (raw : value) (id : string) :
  check_document to_vec_len raw = Ok id <-> lexicon_ok raw /\ get raw "id" = Some (VString id).
Proof.
  unfold check_document. rewrite <- validate_clean.
  assert (Hnil : render <$> filter (fun i => is_error i = true) (validate to_vec_len raw) = []
                 <-> no_errors (validate to_vec_len raw)).
  { split.
    - intros H%fmap_nil_inv. apply Forall_forall. intros i Hi. destruct (is_error i) eqn:E; [|done].
      assert (Hin : i ∈ filter (fun i => is_error i = true) (validate to_vec_len raw)) by (by apply list_elem_of_filter).
      rewrite H in Hin. by apply not_elem_of_nil in Hin.
    - intros H. destruct (filter _ _) as [|i l] eqn:E; [done|]. exfalso.
      assert (Hin : i ∈ filter (fun i => is_error i = true) (validate to_vec_len raw)) by (rewrite E; by left).
      apply list_elem_of_filter in Hin as [He Hi]. rewrite Forall_forall in H. specialize (H i Hi). congruence. }
  case_bool_decide as Hd; simpl.
  - split.
    + intros [= <-]. apply Hnil in Hd as Hc. split; [done|]. apply validate_clean in Hc as (_ & _ & s & defs & Hs & _).
      by rewrite Hs.
    + intros [_ Hs]. by rewrite Hs.
  - split; [done|]. intros [Hc _]. by apply Hnil in Hc.
Qed.

(** (C30) A lexicon is accepted exactly when it is sound: a first-version document
    of bounded size under a valid NSID, with at least one definition, each an
    object of a known type - a record, method or declaration only as [main] and
    with the parts its type needs - whose schemas are all sound, however deep:
    properties and items are objects, required names are properties, and every
    ref names a lexicon, and a definition of this document where that is the
    document.  Accepted documents answer their NSID; warnings never refuse. *)
Theorem check_document_iff (raw : value) (id : string) :
  check_document to_vec_len raw = Ok id <-> lexicon_ok raw /\ get raw "id" = Some (VString id).
Proof. apply check_document_Ok. Qed.

End Document.
