(* ===== verification/XrpcValidate.v ===== *)
(** * Lexicon validation of XRPC calls

    [src/xrpc/validate.rs]: parameters and input bodies are checked against the
    method's lexicon before its handler runs.  The walk follows refs from
    lexicon to lexicon and is not bounded by the size of its arguments, so it
    takes fuel, and [None] is a walk that has not ended.  The crates [regex],
    [cid], [chrono] and [unicode-segmentation] are parameters. *)

From stdpp Require Import gmap strings pretty.
From Stdlib Require Import ZArith Lia.
From S2P Require Import Prelude RustStr Regex Nsid Json Cid Decimal SpaceTypes Lexicon.

(** ** Patterns *)

Definition char_class (c : ascii) : regex := RClass (Ascii.eqb c).
Definition any_of (chars : string) (c : ascii) : bool := contains_char c chars.
Definition RStar (r : regex) : regex := ROpt (RPlus r).

Fixpoint literal (s : string) : regex :=
  match s with EmptyString => REps | String c s' => RSeq (char_class c) (literal s') end.

Definition anchored (r : regex) : regex_pattern := {| anchor_start := true; body := r; anchor_end := true |}.

(** [^did:[a-z]+:[a-zA-Z0-9._:%-]*[a-zA-Z0-9._-]$] *)
Definition DID : regex_pattern :=
  anchored (RSeq (literal "did:") (RSeq (RPlus (RClass is_ascii_lowercase)) (RSeq (literal ":")
    (RSeq (RStar (RClass (fun c => is_ascii_alphanumeric c || any_of "._:%-" c)))
       (RClass (fun c => is_ascii_alphanumeric c || any_of "._-" c)))))).

(** [^([a-zA-Z0-9]([a-zA-Z0-9-]{0,61}[a-zA-Z0-9])?\.)+[a-zA-Z]([a-zA-Z0-9-]{0,61}[a-zA-Z0-9])?$] *)
Definition HANDLE : regex_pattern :=
  anchored (RSeq (RPlus (RSeq (RClass is_ascii_alphanumeric) (RSeq label_rest (literal "."))))
    (RSeq (RClass is_ascii_alphabetic) label_rest)).

(** [^[a-zA-Z0-9_~.:-]{1,512}$] *)
Definition RKEY : regex_pattern :=
  anchored (RRep 1 512 (RClass (fun c => is_ascii_alphanumeric c || any_of "_~.:-" c))).

(** [\S], a character that is not white space, on the bytes of UTF-8. *)
Definition byte_in (lo hi : N) (c : ascii) : bool := (lo <=? code c)%N && (code c <=? hi)%N.
Definition byte_not (bad : list N) (c : ascii) : bool :=
  byte_in 128 191 c && negb (existsb (N.eqb (code c)) bad).
Definition byte_is (n : N) : regex := RClass (byte_in n n).
Definition cont : regex := RClass (byte_in 128 191).

Definition non_space : regex :=
  RAlt (RClass (fun c => byte_in 0 127 c && negb (byte_in 9 13 c) && negb (byte_in 32 32 c)))
  (RAlt (RSeq (byte_is 194) (RClass (byte_not [133; 160]%N)))
  (RAlt (RSeq (RClass (byte_in 195 223)) cont)
  (RAlt (RSeq (byte_is 225) (RSeq (byte_is 154) (RClass (byte_not [128]%N))))
  (RAlt (RSeq (byte_is 225) (RSeq (RClass (byte_not [154]%N)) cont))
  (RAlt (RSeq (byte_is 226) (RSeq (byte_is 128)
           (RClass (byte_not [128; 129; 130; 131; 132; 133; 134; 135; 136; 137; 138; 168; 169; 175]%N))))
  (RAlt (RSeq (byte_is 226) (RSeq (byte_is 129) (RClass (byte_not [159]%N))))
  (RAlt (RSeq (byte_is 226) (RSeq (RClass (byte_not [128; 129]%N)) cont))
  (RAlt (RSeq (byte_is 227) (RSeq (byte_is 128) (RClass (byte_not [128]%N))))
  (RAlt (RSeq (byte_is 227) (RSeq (RClass (byte_not [128]%N)) cont))
  (RAlt (RSeq (RClass (fun c => byte_in 224 224 c || byte_in 228 239 c)) (RSeq cont cont))
        (RSeq (RClass (byte_in 240 244)) (RSeq cont (RSeq cont cont))))))))))))).

(** [^[a-z][a-z.+-]*:\S+$] *)
Definition URI : regex_pattern :=
  anchored (RSeq (RClass is_ascii_lowercase)
    (RSeq (RStar (RClass (fun c => is_ascii_lowercase c || any_of ".+-" c))) (RSeq (literal ":") (RPlus non_space)))).

(** [^(i|[a-z]{2,3})(-[a-zA-Z0-9]+)*$] *)
Definition LANGUAGE : regex_pattern :=
  anchored (RSeq (RAlt (literal "i") (RRep 2 3 (RClass is_ascii_lowercase)))
    (RStar (RSeq (literal "-") (RPlus (RClass is_ascii_alphanumeric))))).

(** [^[234567abcdefghij][234567abcdefghijklmnopqrstuvwxyz]{12}$] *)
Definition TID : regex_pattern :=
  anchored (RSeq (RClass (any_of "234567abcdefghij"))
    (RRep 12 12 (RClass (any_of "234567abcdefghijklmnopqrstuvwxyz")))).

(** ** Refs *)

Definition split_ref (nsid reference : string) : string * string :=
  match str_split_once (Ascii.eqb hash) reference with
  | Some (target, def) => if target =s "" then (nsid, def) else (target, def)
  | None => (reference, "main")
  end.

Abbreviation Lexicons := (gmap string value).

Definition resolve (lexicons : Lexicons) (nsid reference : string) : option (string * value) :=
  let '(target, def) := split_ref nsid reference in
  lexicon ← lexicons !! target; defs ← get lexicon "defs"; d ← get defs def; Some (target, d).

(** [external_refs]: the lexicons a schema names, other than its own. *)
Definition own_refs (nsid : string) (map : Entries) : list string :=
  let refs :=
    match assoc_get map "type" ≫= as_str with
    | Some t =>
        if t =s "ref" then match assoc_get map "ref" with Some r => [r] | None => [] end
        else if t =s "union" then default [] (assoc_get map "refs" ≫= as_array)
        else []
    | None => []
    end in
  filter (fun target => target <> nsid) ((fun r => (split_ref nsid r).1) <$> omap as_str refs).

Fixpoint external_refs (nsid : string) (v : value) : list string :=
  match v with
  | VObject map => own_refs nsid map ++ concat (List.map (fun e => external_refs nsid e.2) map)
  | VArray items => concat (List.map (external_refs nsid) items)
  | _ => []
  end.

(** One round of the loop of [Lexicons::load]: the lexicons found and the
    pending names, the last of them first. *)
Definition load_step (catalog : Lexicons) (s : Lexicons * list string) : Lexicons * list string + Lexicons :=
  match s with
  | (found, []) => inr found
  | (found, next :: pending) =>
      match found !! next with
      | Some _ => inl (found, pending)
      | None =>
          match catalog !! next with
          | None => inl (found, pending)
          | Some raw =>
              let more := match get raw "defs" with Some defs => external_refs next defs | None => [] end in
              inl (<[next := raw]> found, reverse more ++ pending)
          end
      end
  end.

Definition load_pending (nsid : string) (raw schema : value) : list string :=
  external_refs nsid schema ++ match get raw "defs" with Some defs => external_refs nsid defs | None => [] end.

Definition load (fuel : positive) (catalog : Lexicons) (nsid : string) (raw schema : value) : option Lexicons :=
  match iter_until (load_step catalog) fuel ({[ nsid := raw ]}, reverse (load_pending nsid raw schema)) with
  | inr found => Some found
  | inl _ => None
  end.

(** ** Values *)

Definition required_names (schema : value) : list string :=
  match get schema "required" ≫= as_array with Some names => omap as_str names | None => [] end.

Definition marker (path : string) (v : value) (key what : string) : result unit string :=
  match get v key with
  | Some (VString _) => Ok tt
  | _ => Err (path +:+ " must be " +:+ what)
  end.

(** The first refusal of a loop, [None] where the walk has not ended. *)
Fixpoint check_all {A} (f : A -> option (result unit string)) (l : list A) : option (result unit string) :=
  match l with
  | [] => Some (Ok tt)
  | x :: l' => let! _ := f x in check_all f l'
  end.

Section Validator.
Context {RE : RegexEngine} `{C : CidCrate}.
Context (graphemes : string -> Z) (parse_rfc3339 : string -> bool) (json_text : value -> string).

Definition is_did (s : string) : bool := (Z.of_nat (String.length s) <=? 2048)%Z && regex_is_match DID s.
Definition is_handle (s : string) : bool := (String.length s <=? 253) && regex_is_match HANDLE s.
Definition is_record_key (s : string) : bool := negb (s =s ".") && negb (s =s "..") && regex_is_match RKEY s.
Definition nsid_ok (s : string) : bool := is_ok (validate_nsid s).

Definition parse_datetime (s : string) : bool :=
  if negb (contains_char "T" s) || ends_with "-00:00" s then false else parse_rfc3339 s.

Definition at_uri_ok (s : string) : bool :=
  if (8192 <? Z.of_nat (String.length s))%Z then false
  else
    match strip_prefix "at://" s with
    | None => false
    | Some rest =>
        let rest := match str_split_once (Ascii.eqb hash) rest with Some (path, _) => path | None => rest end in
        match str_split "/" rest with
        | [] => false
        | authority :: parts =>
            (is_did authority || is_handle authority)
            && match parts with
               | [] => true
               | [collection] => nsid_ok collection
               | [collection; rkey] => nsid_ok collection && is_record_key rkey
               | _ => false
               end
        end
    end.

Definition format_ok (format s : string) : bool :=
  if format =s "did" then is_did s
  else if format =s "handle" then is_handle s
  else if format =s "at-identifier" then is_did s || is_handle s
  else if format =s "nsid" then nsid_ok s
  else if format =s "cid" then bool_decide (is_Some (cid_from_str s))
  else if format =s "datetime" then parse_datetime s
  else if format =s "uri" then (Z.of_nat (String.length s) <=? 8192)%Z && regex_is_match URI s
  else if format =s "language" then regex_is_match LANGUAGE s
  else if format =s "tid" then regex_is_match TID s
  else if format =s "record-key" then is_record_key s
  else if format =s "at-uri" then at_uri_ok s
  else true.

Definition format_name (format : string) : string :=
  if format =s "at-identifier" then "did or a handle"
  else if format =s "datetime" then "datetime (ISO 8601 with a timezone)"
  else if format =s "language" then "language code"
  else if format =s "tid" then "TID"
  else if format =s "record-key" then "record key"
  else format.

(** [if let Some(x) = def.get(key).and_then(f) && bad(x) { return Err(..) }] *)
Definition unless {A} (o : option A) (bad : A -> bool) (message : A -> string) : result unit string :=
  match o with
  | Some x => if bad x then Err (message x) else Ok tt
  | None => Ok tt
  end.

Definition dq : string := String (Ascii.ascii_of_nat 34) EmptyString.

Definition no_type (path : string) : string :=
  path +:+ " must be an object which includes the " +:+ dq +:+ "$type" +:+ dq +:+ " property".

Definition bar_list (l : list string) : string := "(" +:+ str_join "|" l +:+ ")".

Definition check_string (path : string) (def v : value) : result unit string :=
  match v with
  | VString s =>
      let n := Z.of_nat (String.length s) in
      let? _ := unless (get def "const" ≫= as_str) (fun c => negb (s =s c)) (fun c => path +:+ " must be " +:+ c) in
      let? _ := unless (get def "enum" ≫= as_array)
        (fun options => negb (existsb (fun o => bool_decide (as_str o = Some s)) options))
        (fun options => path +:+ " must be one of " +:+ bar_list (omap as_str options)) in
      let? _ := unless (get def "maxLength" ≫= value_u64) (fun max => max <? n)%Z
        (fun max => path +:+ " must not be longer than " +:+ pretty max +:+ " characters") in
      let? _ := unless (get def "minLength" ≫= value_u64) (fun min => n <? min)%Z
        (fun min => path +:+ " must not be shorter than " +:+ pretty min +:+ " characters") in
      let? _ := unless (get def "maxGraphemes" ≫= value_u64) (fun max => max <? graphemes s)%Z
        (fun max => path +:+ " must not be longer than " +:+ pretty max +:+ " graphemes") in
      let? _ := unless (get def "minGraphemes" ≫= value_u64) (fun min => graphemes s <? min)%Z
        (fun min => path +:+ " must not be shorter than " +:+ pretty min +:+ " graphemes") in
      unless (get def "format" ≫= as_str) (fun format => negb (format_ok format s))
        (fun format => path +:+ " must be a valid " +:+ format_name format)
  | _ => Err (path +:+ " must be a string")
  end.

Definition check_integer (path : string) (def v : value) : result unit string :=
  match value_i64 v with
  | None => Err (path +:+ " must be an integer")
  | Some n =>
      let? _ := unless (get def "const" ≫= value_i64) (fun c => negb (n =? c)%Z)
        (fun c => path +:+ " must be " +:+ pretty c) in
      let? _ := unless (get def "enum" ≫= as_array)
        (fun options => negb (existsb (fun o => bool_decide (value_i64 o = Some n)) options))
        (fun options => path +:+ " must be one of " +:+ bar_list (json_text <$> options)) in
      let? _ := unless (get def "maximum" ≫= value_i64) (fun max => max <? n)%Z
        (fun max => path +:+ " can not be greater than " +:+ pretty max) in
      unless (get def "minimum" ≫= value_i64) (fun min => n <? min)%Z
        (fun min => path +:+ " can not be less than " +:+ pretty min)
  end.

Definition check_boolean (path : string) (def v : value) : result unit string :=
  match v with
  | VBool b =>
      unless (get def "const" ≫= as_bool) (fun c => negb (Bool.eqb c b))
        (fun c => path +:+ " must be " +:+ (if c then "true" else "false"))
  | _ => Err (path +:+ " must be a boolean")
  end.

(** The lengths of an array. *)
Definition check_lengths (path : string) (def : value) (items : list value) : result unit string :=
  let n := Z.of_nat (length items) in
  let? _ := unless (get def "maxLength" ≫= value_u64) (fun max => max <? n)%Z
    (fun max => path +:+ " must not have more than " +:+ pretty max +:+ " elements") in
  unless (get def "minLength" ≫= value_u64) (fun min => n <? min)%Z
    (fun min => path +:+ " must not have fewer than " +:+ pretty min +:+ " elements").

(** The required properties of an object. *)
Fixpoint check_required (path : string) (names : list string) (map : Entries) : result unit string :=
  match names with
  | [] => Ok tt
  | name :: rest =>
      if contains_key map name then check_required path rest map
      else Err (path +:+ " must have the property " +:+ dq +:+ name +:+ dq)
  end.

Definition nullable_names (def : value) : list string :=
  match get def "nullable" ≫= as_array with Some names => omap as_str names | None => [] end.

Definition union_refs (def : value) : list string :=
  match get def "refs" ≫= as_array with Some refs => omap as_str refs | None => [] end.

Context (lexicons : Lexicons).

(** [Validator::value] *)
Fixpoint check_value (fuel : nat) (nsid path : string) (def v : value) : option (result unit string) :=
  match fuel with
  | 0 => None
  | S fuel =>
      let reference (r : string) : option (result unit string) :=
        match resolve lexicons nsid r with
        | Some (nsid', target) => check_value fuel nsid' path target v
        | None => Some (Ok tt)
        end in
      match get def "type" ≫= as_str with
      | None => Some (Ok tt)
      | Some kind =>
          if kind =s "string" then Some (check_string path def v)
          else if kind =s "integer" then Some (check_integer path def v)
          else if kind =s "boolean" then Some (check_boolean path def v)
          else if kind =s "null" then Some (match v with VNull => Ok tt | _ => Err (path +:+ " must be null") end)
          else if kind =s "array" then
            match v with
            | VArray items =>
                let! _ := Some (check_lengths path def items) in
                let item_def := default VNull (get def "items") in
                check_all (fun p => check_value fuel nsid (path +:+ "/" +:+ pretty p.1) item_def p.2)
                  (zip (seq 0 (length items)) items)
            | _ => Some (Err (path +:+ " must be an array"))
            end
          else if kind =s "object" then
            match v with
            | VObject map =>
                let! _ := Some (check_required path (required_names def) map) in
                match get def "properties" ≫= as_object with
                | None => Some (Ok tt)
                | Some properties =>
                    check_all (fun p =>
                      match assoc_get map p.1 with
                      | None => Some (Ok tt)
                      | Some x =>
                          if is_null x && str_mem p.1 (nullable_names def) then Some (Ok tt)
                          else check_value fuel nsid (path +:+ "/" +:+ p.1) p.2 x
                      end) properties
                end
            | _ => Some (Err (path +:+ " must be an object"))
            end
          else if kind =s "ref" then
            match get def "ref" ≫= as_str with Some r => reference r | None => Some (Ok tt) end
          else if kind =s "union" then
            match v with
            | VObject map =>
                match assoc_get map "$type" ≫= as_str with
                | None => Some (Err (no_type path))
                | Some ty =>
                    match find (fun r => bool_decide (split_ref nsid r = split_ref ty ty)) (union_refs def) with
                    | Some r => reference r
                    | None =>
                        if bool_decide (get def "closed" ≫= as_bool = Some true)
                        then Some (Err (path +:+ " $type must be one of " +:+ str_join ", " (union_refs def)))
                        else Some (Ok tt)
                    end
                end
            | _ => Some (Err (no_type path))
            end
          else if kind =s "unknown" then
            Some (match v with VObject _ => Ok tt | _ => Err (path +:+ " must be an object") end)
          else if kind =s "bytes" then Some (marker path v "$bytes" "a byte array")
          else if kind =s "cid-link" then Some (marker path v "$link" "a CID")
          else if kind =s "blob" then
            Some (match v with VObject _ => Ok tt | _ => Err (path +:+ " should be a blob ref") end)
          else Some (Ok tt)
      end
  end.

End Validator.

(** ** Parameters *)

Definition invalid {A} (message : string) : result A AppError := Err (XrpcError 400 "InvalidRequest" message).

(** [collect::<Result<Vec<_>, _>>()] *)
Fixpoint collect_values {A} (f : A -> result value string) (l : list A) : result (list value) string :=
  match l with
  | [] => Ok []
  | x :: l' => let? v := f x in let? vs := collect_values f l' in Ok (v :: vs)
  end.

(** [coerce_param]; [fuel] bounds the nesting of array definitions. *)
Fixpoint coerce_go (fuel : nat) (path : string) (def raw : value) : result value string :=
  match fuel with
  | 0 => Ok raw
  | S fuel =>
      match get def "type" ≫= as_str with
      | None => Ok raw
      | Some kind =>
          if kind =s "array" then
            let items := default VNull (get def "items") in
            let values := match raw with VArray values => values | single => [single] end in
            let? vs := collect_values (fun p => coerce_go fuel (path +:+ "/" +:+ pretty p.1) items p.2)
                         (zip (seq 0 (length values)) values) in
            Ok (VArray vs)
          else if kind =s "integer" then
            match raw with
            | VString s =>
                match parse_i64 s with Some n => Ok (VNumber n) | None => Err (path +:+ " must be an integer") end
            | other => Ok other
            end
          else if kind =s "boolean" then
            match raw with
            | VString s =>
                if (s =s "true") || (s =s "1") then Ok (VBool true)
                else if (s =s "false") || (s =s "0") then Ok (VBool false)
                else Err (path +:+ " must be a boolean")
            | other => Ok other
            end
          else Ok raw
      end
  end.

Definition coerce_param (path : string) (def raw : value) : result value string := coerce_go (S (vsize def)) path def raw.

Section Calls.
Context {RE : RegexEngine} `{C : CidCrate}.
Context (graphemes : string -> Z) (parse_rfc3339 : string -> bool) (json_text : value -> string).

Abbreviation check := (check_value graphemes parse_rfc3339 json_text).

(** One declared parameter. *)
Definition check_param (required : list string) (params : gmap string value) (key : string) (def : value)
    : option (result (gmap string value) AppError) :=
  let path := "Params/" +:+ key in
  match params !! key with
  | None =>
      match get def "default" with
      | Some d => Some (Ok (<[key := d]> params))
      | None =>
          if str_mem key required then
            Some (invalid ("Params must have the property " +:+ dq +:+ key +:+ dq))
          else Some (Ok params)
      end
  | Some raw =>
      let params := delete key params in
      match coerce_param path def raw with
      | Err message => Some (invalid message)
      | Ok v =>
          match check ∅ (vsize def) "" path def v with
          | None => None
          | Some (Err message) => Some (invalid message)
          | Some (Ok _) => Some (Ok (<[key := v]> params))
          end
      end
  end.

Fixpoint check_params (required : list string) (params : gmap string value) (properties : Entries)
    : option (result (gmap string value) AppError) :=
  match properties with
  | [] => Some (Ok params)
  | (key, def) :: rest => let! params := check_param required params key def in check_params required params rest
  end.

(** [params] *)
Definition call_params (params : gmap string value) (schema : value) : option (result (gmap string value) AppError) :=
  match get schema "properties" ≫= as_object with
  | None => Some (Ok params)
  | Some properties => check_params (required_names schema) params properties
  end.

(** [input]: [rounds] bounds the loading of lexicons and [fuel] the walk. *)
Definition call_input (rounds : positive) (fuel : nat) (catalog : Lexicons) (lexicon : ParsedLexicon) (body : value)
    : option (result unit AppError) :=
  match pl_input lexicon with
  | None => Some (Ok tt)
  | Some input =>
      let json := match get input "encoding" ≫= as_str with Some e => e =s "application/json" | None => false end in
      match (if json then get input "schema" else None) with
      | None => Some (Ok tt)
      | Some schema =>
          lexicons ← load rounds catalog (pl_id lexicon) (pl_raw lexicon) schema;
          match check lexicons fuel (pl_id lexicon) "Input" schema body with
          | None => None
          | Some (Err message) => Some (invalid message)
          | Some (Ok _) => Some (Ok tt)
          end
      end
  end.

End Calls.

(** ** What conforms to a definition *)

Definition def_kind (def : value) : option string := get def "type" ≫= as_str.

(** A limit of a definition, where it sets one. *)
Definition limit (def : value) (key : string) (P : Z -> Prop) : Prop :=
  forall n, get def key ≫= value_u64 = Some n -> P n.

(** ** The checks that follow no ref *)

Lemma unless_Ok {A} (o : option A) bad message :
  unless o bad message = Ok tt <-> forall x, o = Some x -> bad x = false.
Proof.
  unfold unless. destruct o as [x|]; [destruct (bad x) eqn:E|]; naive_solver congruence.
Qed.

Lemma bind_Ok (a b : result unit string) : (let? _ := a in b) = Ok tt <-> a = Ok tt /\ b = Ok tt.
Proof. destruct a as [[]|]; naive_solver. Qed.

Lemma check_boolean_Ok path def v :
  check_boolean path def v = Ok tt
  <-> exists b, v = VBool b /\ forall c, get def "const" ≫= as_bool = Some c -> c = b.
Proof.
  unfold check_boolean. destruct v as [|b| | | | |]; try (split; [done|]; by intros (? & ? & _)).
  rewrite unless_Ok. setoid_rewrite negb_false_iff. setoid_rewrite eqb_true_iff. naive_solver.
Qed.

Lemma check_lengths_Ok path def items :
  check_lengths path def items = Ok tt
  <-> limit def "maxLength" (fun n => Z.of_nat (length items) <= n)%Z
      /\ limit def "minLength" (fun n => n <= Z.of_nat (length items))%Z.
Proof. unfold check_lengths. rewrite bind_Ok, !unless_Ok. by setoid_rewrite Z.ltb_ge. Qed.

Lemma check_required_Ok path names map :
  check_required path names map = Ok tt <-> forall name, name ∈ names -> is_Some (assoc_get map name).
Proof.
  induction names as [|n names IH]; simpl.
  - split; [|done]. intros _ name Hn. by apply not_elem_of_nil in Hn.
  - destruct (contains_key map n) eqn:E.
    + apply contains_key_true in E. rewrite IH. setoid_rewrite elem_of_cons. naive_solver.
    + apply not_true_iff_false in E. rewrite contains_key_true in E. split; [done|]. intros H. exfalso. apply E, H. by left.
Qed.

Lemma marker_Ok path v key what : marker path v key what = Ok tt <-> exists s, get v key = Some (VString s).
Proof. unfold marker. destruct (get v key) as [[]|]; naive_solver. Qed.

Lemma check_all_Ok {A} (f : A -> option (result unit string)) l :
  check_all f l = Some (Ok tt) <-> forall x, x ∈ l -> f x = Some (Ok tt).
Proof.
  induction l as [|x l IH]; simpl.
  - split; [|done]. intros _ x Hx. by apply not_elem_of_nil in Hx.
  - setoid_rewrite elem_of_cons. destruct (f x) as [[[]|e]|] eqn:E; naive_solver.
Qed.

Section Spec.
Context {RE : RegexEngine} `{C : CidCrate}.
Context (graphemes : string -> Z) (parse_rfc3339 : string -> bool) (json_text : value -> string).
Context (lexicons : Lexicons).

Record string_conforms (def : value) (s : string) : Prop := {
  sc_const : forall c, get def "const" ≫= as_str = Some c -> s = c;
  sc_enum : forall l, get def "enum" ≫= as_array = Some l -> VString s ∈ l;
  sc_max : limit def "maxLength" (fun n => Z.of_nat (String.length s) <= n)%Z;
  sc_min : limit def "minLength" (fun n => n <= Z.of_nat (String.length s))%Z;
  sc_max_graphemes : limit def "maxGraphemes" (fun n => graphemes s <= n)%Z;
  sc_min_graphemes : limit def "minGraphemes" (fun n => n <= graphemes s)%Z;
  sc_format : forall f, get def "format" ≫= as_str = Some f -> format_ok parse_rfc3339 f s = true;
}.

Record integer_conforms (def : value) (n : Z) : Prop := {
  ic_const : forall c, get def "const" ≫= value_i64 = Some c -> n = c;
  ic_enum : forall l, get def "enum" ≫= as_array = Some l -> exists o, o ∈ l /\ value_i64 o = Some n;
  ic_max : forall m, get def "maximum" ≫= value_i64 = Some m -> (n <= m)%Z;
  ic_min : forall m, get def "minimum" ≫= value_i64 = Some m -> (m <= n)%Z;
}.

Definition union_pick (nsid : string) (def : value) (ty : string) : option string :=
  find (fun r => bool_decide (split_ref nsid r = split_ref ty ty)) (union_refs def).

Definition CHECKED : list string :=
  ["string"; "integer"; "boolean"; "null"; "array"; "object"; "ref"; "union"; "unknown"; "bytes"; "cid-link"; "blob"].

(** A value conforms to a definition of the lexicon [nsid]. *)
Inductive conforms : string -> value -> value -> Prop :=
| conforms_string nsid def s :
    def_kind def = Some "string" -> string_conforms def s -> conforms nsid def (VString s)
| conforms_integer nsid def v n :
    def_kind def = Some "integer" -> value_i64 v = Some n -> integer_conforms def n -> conforms nsid def v
| conforms_boolean nsid def b :
    def_kind def = Some "boolean" -> (forall c, get def "const" ≫= as_bool = Some c -> c = b) ->
    conforms nsid def (VBool b)
| conforms_null nsid def : def_kind def = Some "null" -> conforms nsid def VNull
| conforms_array nsid def items :
    def_kind def = Some "array" ->
    limit def "maxLength" (fun n => Z.of_nat (length items) <= n)%Z ->
    limit def "minLength" (fun n => n <= Z.of_nat (length items))%Z ->
    (forall x, x ∈ items -> conforms nsid (default VNull (get def "items")) x) ->
    conforms nsid def (VArray items)
| conforms_object nsid def map :
    def_kind def = Some "object" ->
    (forall name, name ∈ required_names def -> is_Some (assoc_get map name)) ->
    (forall ps key prop x, get def "properties" ≫= as_object = Some ps -> (key, prop) ∈ ps ->
       assoc_get map key = Some x -> ~ (x = VNull /\ key ∈ nullable_names def) -> conforms nsid prop x) ->
    conforms nsid def (VObject map)
| conforms_ref nsid def v :
    def_kind def = Some "ref" ->
    (forall r nsid' target, get def "ref" ≫= as_str = Some r -> resolve lexicons nsid r = Some (nsid', target) ->
       conforms nsid' target v) ->
    conforms nsid def v
| conforms_union nsid def map ty :
    def_kind def = Some "union" -> assoc_get map "$type" ≫= as_str = Some ty ->
    (union_pick nsid def ty = None -> get def "closed" ≫= as_bool <> Some true) ->
    (forall r nsid' target, union_pick nsid def ty = Some r -> resolve lexicons nsid r = Some (nsid', target) ->
       conforms nsid' target (VObject map)) ->
    conforms nsid def (VObject map)
| conforms_any_object nsid def map :
    def_kind def = Some "unknown" \/ def_kind def = Some "blob" -> conforms nsid def (VObject map)
| conforms_bytes nsid def v s :
    def_kind def = Some "bytes" -> get v "$bytes" = Some (VString s) -> conforms nsid def v
| conforms_link nsid def v s :
    def_kind def = Some "cid-link" -> get v "$link" = Some (VString s) -> conforms nsid def v
| conforms_other nsid def v :
    (forall k, def_kind def = Some k -> k ∉ CHECKED) -> conforms nsid def v.

Lemma check_string_Ok path def v :
  check_string graphemes parse_rfc3339 path def v = Ok tt <-> exists s, v = VString s /\ string_conforms def s.
Proof.
  clear json_text lexicons.
  unfold check_string. destruct v as [| | | |s| |]; try (split; [done|]; by intros (? & ? & _)).
  transitivity (string_conforms def s); [|naive_solver].
  rewrite !bind_Ok, !unless_Ok. setoid_rewrite negb_false_iff. setoid_rewrite Z.ltb_ge. setoid_rewrite String.eqb_eq.
  split.
  - intros (H1 & H2 & H3 & H4 & H5 & H6 & H7). split; try assumption.
    intros l Hl. specialize (H2 l Hl). apply existsb_elem in H2 as (o & Ho & Heq%bool_decide_eq_true).
    destruct o; simplify_eq/=. done.
  - intros [H1 H2 H3 H4 H5 H6 H7]. split_and!; try assumption.
    intros l Hl. apply existsb_elem. exists (VString s). split; [by apply H2|]. by apply bool_decide_eq_true.
Qed.

Lemma check_integer_Ok path def v :
  check_integer json_text path def v = Ok tt <-> exists n, value_i64 v = Some n /\ integer_conforms def n.
Proof.
  clear graphemes parse_rfc3339 lexicons.
  unfold check_integer. destruct (value_i64 v) as [n|]; [|split; [done|]; by intros (? & ? & _)].
  transitivity (integer_conforms def n); [|naive_solver].
  rewrite !bind_Ok, !unless_Ok. setoid_rewrite negb_false_iff. setoid_rewrite Z.ltb_ge. setoid_rewrite Z.eqb_eq.
  split.
  - intros (H1 & H2 & H3 & H4). split; try assumption.
    intros l Hl. specialize (H2 l Hl). apply existsb_elem in H2 as (o & Ho & Heq%bool_decide_eq_true). eauto.
  - intros [H1 H2 H3 H4]. split_and!; try assumption.
    intros l Hl. apply existsb_elem. destruct (H2 l Hl) as (o & Ho & Heq). exists o. split; [done|].
    by apply bool_decide_eq_true.
Qed.

End Spec.

Section Walk.
Context {RE : RegexEngine} `{C : CidCrate}.
Context (graphemes : string -> Z) (parse_rfc3339 : string -> bool) (json_text : value -> string).
Context (lexicons : Lexicons).

Abbreviation check := (check_value graphemes parse_rfc3339 json_text lexicons).
Abbreviation conforms_to := (conforms graphemes parse_rfc3339 lexicons).

Lemma check_all_mono {A} (f g : A -> option (result unit string)) l r :
  (forall x r, x ∈ l -> f x = Some r -> g x = Some r) -> check_all f l = Some r -> check_all g l = Some r.
Proof.
  intros Hfg. induction l as [|x l IH]; simpl; [done|].
  destruct (f x) as [s|] eqn:E; [|done]. rewrite (Hfg x s) by (done || by left).
  destruct s; [|done]. apply IH. intros y s Hy. apply Hfg. by right.
Qed.

(** More fuel changes no answer. *)
Lemma check_value_mono fuel : forall fuel' nsid path def v r, fuel <= fuel' ->
  check fuel nsid path def v = Some r -> check fuel' nsid path def v = Some r.
Proof.
  induction fuel as [|fuel IH]; intros [|fuel'] nsid path def v r Hf; [done|done|lia|].
  cbn [check_value].
  assert (Href : forall x r, match resolve lexicons nsid x with
      | Some (nsid', target) => check fuel nsid' path target v | None => Some (Ok tt) end = Some r ->
    match resolve lexicons nsid x with
      | Some (nsid', target) => check fuel' nsid' path target v | None => Some (Ok tt) end = Some r).
  { intros x s. destruct (resolve lexicons nsid x) as [[nsid' target]|]; [apply IH; lia|done]. }
  destruct (get def "type" ≫= as_str) as [kind|]; [|done].
  destruct (kind =s "string"); [done|]. destruct (kind =s "integer"); [done|]. destruct (kind =s "boolean"); [done|].
  destruct (kind =s "null"); [done|].
  destruct (kind =s "array").
  { destruct v; try done. destruct (check_lengths path def items) as [[]|]; [|done]. apply check_all_mono.
    intros x s _. apply IH. lia. }
  destruct (kind =s "object").
  { destruct v as [| | | | | |map]; try done. destruct (check_required path (required_names def) map) as [[]|]; [|done].
    destruct (get def "properties" ≫= as_object); [|done]. apply check_all_mono.
    intros x s _. destruct (assoc_get map x.1); [|done]. destruct (_ && _); [done|]. apply IH. lia. }
  destruct (kind =s "ref"). { destruct (get def "ref" ≫= as_str); [apply Href|done]. }
  destruct (kind =s "union"); [|done].
  destruct v as [| | | | | |map]; try done. destruct (assoc_get map "$type" ≫= as_str) as [ty|]; [|done].
  destruct (find _ (union_refs def)); [apply Href|done].
Qed.

Lemma elem_enum {A} (l : list A) (x : A) n : x ∈ l <-> exists i, (i, x) ∈ zip (seq n (length l)) l.
Proof.
  revert n. induction l as [|y l IH]; intros n; simpl.
  - split; [intros H; by apply not_elem_of_nil in H|intros [i H]; by apply not_elem_of_nil in H].
  - rewrite elem_of_cons, (IH (S n)). setoid_rewrite elem_of_cons. naive_solver.
Qed.

(** A finite loop that ends well item by item ends well. *)
Lemma check_all_fuel {A} (f : nat -> A -> option (result unit string)) l :
  (forall n m x r, n <= m -> f n x = Some r -> f m x = Some r) ->
  (forall x, x ∈ l -> exists n, f n x = Some (Ok tt)) -> exists n, check_all (f n) l = Some (Ok tt).
Proof.
  intros Hm Hl. assert (Hn : exists n, forall x, x ∈ l -> f n x = Some (Ok tt)).
  { induction l as [|x l IH].
    - exists 0. intros x Hx. by apply not_elem_of_nil in Hx.
    - destruct IH as [n Hn]. { intros y Hy. apply Hl. by right. }
      destruct (Hl x) as [k Hk]; [by left|]. exists (n `max` k). intros y [->|Hy]%elem_of_cons.
      + eapply Hm; [|exact Hk]. lia.
      + eapply Hm; [|by apply Hn]. lia. }
  destruct Hn as [n Hn]. exists n. by apply check_all_Ok.
Qed.

Lemma check_sound fuel : forall nsid path def v,
  check fuel nsid path def v = Some (Ok tt) -> conforms_to nsid def v.
Proof.
  induction fuel as [|fuel IH]; intros nsid path def v; [done|]. cbn [check_value]. fold (def_kind def).
  destruct (def_kind def) as [kind|] eqn:Hk; [|intros _; apply conforms_other; intros k Hk2; congruence].
  destruct (kind =s "string") eqn:E1; bool_prop.
  { subst. intros [= H]. apply check_string_Ok in H as (s & -> & ?). by constructor. }
  destruct (kind =s "integer") eqn:E2; bool_prop.
  { subst. intros [= H]. apply check_integer_Ok in H as (n & ? & ?). by eapply conforms_integer. }
  destruct (kind =s "boolean") eqn:E3; bool_prop.
  { subst. intros [= H]. apply check_boolean_Ok in H as (b & -> & ?). by constructor. }
  destruct (kind =s "null") eqn:E4; bool_prop. { subst. destruct v; try done. by constructor. }
  destruct (kind =s "array") eqn:E5; bool_prop.
  { subst. destruct v as [| | | | |items|]; try done.
    destruct (check_lengths path def items) as [[]|] eqn:Hlen; [|done]. apply check_lengths_Ok in Hlen as [Hmax Hmin].
    intros Hall. apply (conforms_array _ _ _ _ _ _ Hk Hmax Hmin). intros x [i Hi]%(elem_enum _ _ 0).
    rewrite check_all_Ok in Hall. by apply (IH _ _ _ _ (Hall _ Hi)). }
  destruct (kind =s "object") eqn:E6; bool_prop.
  { subst. destruct v as [| | | | | |map]; try done.
    destruct (check_required path (required_names def) map) as [[]|] eqn:Hreq; [|done].
    rewrite check_required_Ok in Hreq. intros Hall. apply (conforms_object _ _ _ _ _ _ Hk Hreq).
    intros ps key prop x Hps Hin Hx Hnull. rewrite Hps in Hall. rewrite check_all_Ok in Hall.
    specialize (Hall _ Hin). simpl in Hall. rewrite Hx in Hall.
    destruct (is_null x && str_mem key (nullable_names def)) eqn:En; [|by apply IH in Hall].
    exfalso. apply Hnull. bool_prop. split; [by destruct x|by apply str_mem_true]. }
  destruct (kind =s "ref") eqn:E7; bool_prop.
  { subst. intros H. apply (conforms_ref _ _ _ _ _ _ Hk). intros r nsid' target Hr Hres. rewrite Hr, Hres in H. by apply IH in H. }
  destruct (kind =s "union") eqn:E8; bool_prop.
  { subst. destruct v as [| | | | | |map]; try done. destruct (assoc_get map "$type" ≫= as_str) as [ty|] eqn:Hty; [|done].
    fold (union_pick nsid def ty). intros H. apply (conforms_union _ _ _ _ _ _ ty Hk Hty).
    - intros Hp. rewrite Hp in H. by case_bool_decide.
    - intros r nsid' target Hp Hres. rewrite Hp, Hres in H. by apply IH in H. }
  destruct (kind =s "unknown") eqn:E9; bool_prop. { subst. destruct v; try done. intros _. apply conforms_any_object. by left. }
  destruct (kind =s "bytes") eqn:E10; bool_prop.
  { subst. intros [= H]. apply marker_Ok in H as [s Hs]. by eapply conforms_bytes. }
  destruct (kind =s "cid-link") eqn:E11; bool_prop.
  { subst. intros [= H]. apply marker_Ok in H as [s Hs]. by eapply conforms_link. }
  destruct (kind =s "blob") eqn:E12; bool_prop. { subst. destruct v; try done. intros _. apply conforms_any_object. by right. }
  intros _. apply conforms_other. intros k Hk'. rewrite Hk in Hk'. injection Hk' as <-. unfold CHECKED. set_solver.
Qed.

Lemma check_complete nsid def v :
  conforms_to nsid def v -> forall path, exists fuel, check fuel nsid path def v = Some (Ok tt).
Proof.
  induction 1 as [nsid def s Hk Hs|nsid def v n Hk Hn Hi|nsid def b Hk Hc|nsid def Hk|nsid def items Hk Hmax Hmin _ IH
    |nsid def map Hk Hreq _ IH|nsid def v Hk _ IH|nsid def map ty Hk Hty Hclosed _ IH|nsid def map Hk
    |nsid def v s Hk Hs|nsid def v s Hk Hs|nsid def v Hk]; intros path; unfold def_kind in Hk.
  - exists 1. cbn [check_value]. rewrite Hk. literals. f_equal. apply check_string_Ok. eauto.
  - exists 1. cbn [check_value]. rewrite Hk. literals. f_equal. apply check_integer_Ok. eauto.
  - exists 1. cbn [check_value]. rewrite Hk. literals. f_equal. apply check_boolean_Ok. eauto.
  - exists 1. cbn [check_value]. rewrite Hk. literals. done.
  - assert (Hl : check_lengths path def items = Ok tt) by (by apply check_lengths_Ok).
    destruct (check_all_fuel (fun n p => check n nsid (path +:+ "/" +:+ pretty p.1) (default VNull (get def "items")) p.2)
      (zip (seq 0 (length items)) items)) as [fuel Hf].
    + intros n m x r. apply check_value_mono.
    + intros [i x] Hx. apply IH, (elem_enum _ _ 0). eauto.
    + exists (S fuel). cbn [check_value]. rewrite Hk. literals. rewrite Hl. exact Hf.
  - assert (Hl : check_required path (required_names def) map = Ok tt) by (by apply check_required_Ok).
    destruct (get def "properties" ≫= as_object) as [ps|] eqn:Hps.
    2: { exists 1. cbn [check_value]. rewrite Hk. literals. by rewrite Hl, Hps. }
    destruct (check_all_fuel (fun n p => match assoc_get map p.1 with
        | None => Some (Ok tt)
        | Some x => if is_null x && str_mem p.1 (nullable_names def) then Some (Ok tt)
                    else check n nsid (path +:+ "/" +:+ p.1) p.2 x end) ps) as [fuel Hf].
    + intros n m p r Hnm. destruct (assoc_get map p.1); [|done]. destruct (_ && _); [done|]. by apply check_value_mono.
    + intros [key prop] Hin. simpl. destruct (assoc_get map key) as [x|] eqn:Hx; [|by exists 0].
      destruct (is_null x && str_mem key (nullable_names def)) eqn:En; [by exists 0|].
      apply (IH ps key prop x eq_refl Hin Hx). intros [-> Hkey]. apply str_mem_true in Hkey. simpl in En. congruence.
    + exists (S fuel). cbn [check_value]. rewrite Hk. literals. rewrite Hl, Hps. exact Hf.
  - destruct (get def "ref" ≫= as_str) as [r|] eqn:Hr.
    2: { exists 1. cbn [check_value]. rewrite Hk. literals. by rewrite Hr. }
    destruct (resolve lexicons nsid r) as [[nsid' target]|] eqn:Hres.
    + destruct (IH r nsid' target eq_refl Hres path) as [fuel Hf]. exists (S fuel). cbn [check_value]. rewrite Hk. literals.
      by rewrite Hr, Hres.
    + exists 1. cbn [check_value]. rewrite Hk. literals. by rewrite Hr, Hres.
  - destruct (union_pick nsid def ty) as [r|] eqn:Hp; unfold union_pick in Hp.
    + destruct (resolve lexicons nsid r) as [[nsid' target]|] eqn:Hres.
      * destruct (IH r nsid' target eq_refl Hres path) as [fuel Hf]. exists (S fuel). cbn [check_value]. rewrite Hk. literals.
        by rewrite Hty, Hp, Hres.
      * exists 1. cbn [check_value]. rewrite Hk. literals. by rewrite Hty, Hp, Hres.
    + exists 1. cbn [check_value]. rewrite Hk. literals. rewrite Hty, Hp. rewrite bool_decide_false; [done|]. by apply Hclosed.
  - exists 1. cbn [check_value]. by destruct Hk as [Hk|Hk]; rewrite Hk; literals.
  - exists 1. cbn [check_value]. rewrite Hk. literals. f_equal. apply marker_Ok. eauto.
  - exists 1. cbn [check_value]. rewrite Hk. literals. f_equal. apply marker_Ok. eauto.
  - exists 1. cbn [check_value]. destruct (get def "type" ≫= as_str) as [kind|] eqn:Hkind; [|done].
    specialize (Hk kind eq_refl). unfold CHECKED in Hk.
    repeat (destruct (kind =s _) eqn:?; bool_prop; [subst; exfalso; apply Hk; set_solver|]). done.
Qed.

(** (C14) The validator accepts exactly what conforms: whatever refs and unions it
    follows, a call's value is accepted by some walk just when it has the shape
    its definition describes, with every limit, required property, format and
    branch of a union it reaches. *)
Theorem validator_iff_conforms (nsid path : string) (def v : value) :
  (exists fuel, check fuel nsid path def v = Some (Ok tt)) <-> conforms_to nsid def v.
Proof. split; [intros [fuel Hf]; by eapply check_sound|]. intros H. by apply check_complete. Qed.

End Walk.

(** ** Parameters *)

Section Params.
Context {RE : RegexEngine} `{C : CidCrate}.
Context (graphemes : string -> Z) (parse_rfc3339 : string -> bool) (json_text : value -> string).

Abbreviation check := (check_value graphemes parse_rfc3339 json_text).
Abbreviation conforms_to := (conforms graphemes parse_rfc3339).

Lemma check_no_lexicons fuel : forall nsid path def v, vsize def <= fuel -> is_Some (check ∅ fuel nsid path def v).
Proof.
  assert (Hall : forall A (f : A -> option (result unit string)) l, (forall x, x ∈ l -> is_Some (f x)) -> is_Some (check_all f l)).
  { intros A f l. induction l as [|x l IH]; intros Hl; simpl; [by eexists|].
    destruct (Hl x) as [r ->]; [by left|]. destruct r; [|by eexists]. apply IH. intros y Hy. apply Hl. by right. }
  induction fuel as [|fuel IH]; intros nsid path def v Hf; [pose proof (vsize_pos def); lia|]. cbn [check_value].
  assert (Hres : forall r, resolve ∅ nsid r = None).
  { intros r. unfold resolve. destruct (split_ref nsid r). by rewrite lookup_empty. }
  destruct (get def "type") as [ty|] eqn:Hty; [|by eexists]. pose proof (vsize_get _ _ _ Hty). pose proof (vsize_pos ty).
  simpl. destruct (as_str ty) as [kind|]; [|by eexists].
  destruct (kind =s "string"); [by eexists|]. destruct (kind =s "integer"); [by eexists|].
  destruct (kind =s "boolean"); [by eexists|]. destruct (kind =s "null"); [by eexists|].
  destruct (kind =s "array").
  { destruct v as [| | | | |items|]; try by eexists. destruct (check_lengths path def items) as [[]|]; [|by eexists].
    apply Hall. intros [i x] _. apply IH. destruct (get def "items") as [d|] eqn:Hd; simpl; [|lia].
    pose proof (vsize_get _ _ _ Hd). lia. }
  destruct (kind =s "object").
  { destruct v as [| | | | | |map]; try by eexists. destruct (check_required _ _ _) as [[]|]; [|by eexists].
    destruct (get def "properties") as [ps|] eqn:Hps; [|by eexists]. destruct ps as [| | | | | |ps]; try by eexists. simpl.
    apply Hall. intros [key prop] Hin. simpl. destruct (assoc_get map key) as [x|]; [|by eexists].
    destruct (_ && _); [by eexists|]. apply IH. pose proof (vsize_get _ _ _ Hps). pose proof (vsize_entry key prop ps Hin). lia. }
  destruct (kind =s "ref"). { destruct (get def "ref" ≫= as_str); [rewrite Hres|]; by eexists. }
  destruct (kind =s "union").
  { destruct v as [| | | | | |map]; try by eexists. destruct (assoc_get map "$type" ≫= as_str) as [t|]; [|by eexists].
    destruct (find _ (union_refs def)) as [r|]; [rewrite Hres; by eexists|]. case_match; by eexists. }
  repeat (destruct (kind =s _); [by eexists|]). by eexists.
Qed.

(** An answer of the walk says whether the value conforms. *)
Lemma check_decides L fuel nsid path def v r :
  check L fuel nsid path def v = Some r -> r = Ok tt <-> conforms_to L nsid def v.
Proof.
  intros Hr. split; [intros ->; by eapply check_sound|]. intros Hc.
  destruct (check_complete graphemes parse_rfc3339 json_text L nsid def v Hc path) as [n Hn].
  pose proof (check_value_mono graphemes parse_rfc3339 json_text L n (n `max` fuel) _ _ _ _ _ ltac:(lia) Hn) as H1.
  pose proof (check_value_mono graphemes parse_rfc3339 json_text L fuel (n `max` fuel) _ _ _ _ _ ltac:(lia) Hr) as H2.
  congruence.
Qed.

(** What a declared parameter must satisfy, and what becomes of it. *)
Definition param_ok (required : list string) (params : gmap string value) (key : string) (def : value) : Prop :=
  match params !! key with
  | Some raw => exists v, coerce_param ("Params/" +:+ key) def raw = Ok v /\ conforms_to ∅ "" def v
  | None => get def "default" = None -> key ∉ required
  end.

Definition param_result (params : gmap string value) (key : string) (def : value) (out : option value) : Prop :=
  match params !! key with
  | Some raw => exists v, coerce_param ("Params/" +:+ key) def raw = Ok v /\ out = Some v
  | None => out = get def "default"
  end.

Lemma check_param_spec required params key def :
  exists r, check_param graphemes parse_rfc3339 json_text required params key def = Some r
    /\ ((exists p, r = Ok p) <-> param_ok required params key def)
    /\ forall p, r = Ok p -> param_result params key def (p !! key) /\ forall k, k <> key -> p !! k = params !! k.
Proof.
  unfold check_param, param_ok, param_result. destruct (params !! key) as [raw|] eqn:Hkey.
  - destruct (coerce_param ("Params/" +:+ key) def raw) as [v|e].
    2: { eexists. split; [done|]. split; [|done]. split; [by intros [? ?]|by intros (? & ? & _)]. }
    destruct (check_no_lexicons (vsize def) "" ("Params/" +:+ key) def v ltac:(done)) as [r Hr]. rewrite Hr.
    pose proof (check_decides _ _ _ _ _ _ _ Hr) as Hd. destruct r as [[]|e]; (eexists; split; [done|]).
    + split; [split; [|by eauto]|].
      * intros _. exists v. split; [done|]. by apply Hd.
      * intros p [= <-]. rewrite lookup_insert_eq. split; [eauto|]. intros k Hk.
        by rewrite lookup_insert_ne, lookup_delete_ne.
    + split; [|done]. split; [by intros [? ?]|]. intros (v' & [= <-] & Hc). by apply Hd in Hc.
  - destruct (get def "default") as [d|].
    + eexists. split; [done|]. split; [split; [done|by eauto]|]. intros p [= <-]. rewrite lookup_insert_eq. split; [done|].
      intros k Hk. by rewrite lookup_insert_ne.
    + destruct (str_mem key required) eqn:Hreq; (eexists; split; [done|]).
      * apply str_mem_true in Hreq. split; [|done]. split; [by intros [? ?]|]. intros H. by destruct (H eq_refl).
      * apply str_mem_false in Hreq. split; [split; [done|by eauto]|]. by intros p [= <-].
Qed.

Lemma check_params_spec required properties : NoDup properties.*1 -> forall params,
  exists r, check_params graphemes parse_rfc3339 json_text required params properties = Some r
    /\ ((exists p, r = Ok p) <-> forall key def, (key, def) ∈ properties -> param_ok required params key def)
    /\ forall p, r = Ok p ->
         (forall key def, (key, def) ∈ properties -> param_result params key def (p !! key))
         /\ forall k, k ∉ properties.*1 -> p !! k = params !! k.
Proof.
  induction properties as [|[key def] ps IH]; intros Hnd params; simpl.
  { eexists. split; [done|]. split.
    - split; [|by eauto]. intros _ k d Hk. by apply not_elem_of_nil in Hk.
    - intros p [= <-]. split; [|done]. intros k d Hk. by apply not_elem_of_nil in Hk. }
  apply NoDup_cons in Hnd as [Hfresh Hnd].
  destruct (check_param_spec required params key def) as (r & -> & Hok & Hres).
  destruct r as [p1|e].
  2: { eexists. split; [done|]. split; [|done]. split; [by intros [? ?]|]. intros H.
       destruct (proj2 Hok (H key def ltac:(by left))). done. }
  destruct (Hres p1 eq_refl) as [Hr1 Hother]. destruct (IH Hnd p1) as (r & -> & Hok2 & Hres2).
  assert (Hsame : forall k d, (k, d) ∈ ps -> p1 !! k = params !! k).
  { intros k d Hk. apply Hother. intros ->. apply Hfresh. apply list_elem_of_fmap. by exists (key, d). }
  exists r. split; [done|]. split.
  - rewrite Hok2. split.
    + intros H k d [[= -> ->]|Hk]%elem_of_cons; [apply Hok; eauto|]. specialize (H k d Hk). unfold param_ok in *.
      by rewrite (Hsame k d Hk) in H.
    + intros H k d Hk. specialize (H k d ltac:(by right)). unfold param_ok in *. by rewrite (Hsame k d Hk).
  - intros p Hp. destruct (Hres2 p Hp) as [Hin Hout]. split.
    + intros k d [[= -> ->]|Hk]%elem_of_cons; [by rewrite Hout|]. specialize (Hin k d Hk). unfold param_result in *.
      by rewrite (Hsame k d Hk) in Hin.
    + intros k Hk. rewrite Hout by (intros ?; apply Hk; by right). apply Hother. intros ->. apply Hk. by left.
Qed.

(** Checking a call's parameters always answers, accepts exactly when every
    declared parameter that is there coerces to its type and conforms, and every
    required one without a default is there, and then hands on each declared
    parameter coerced, or its default, and every other parameter untouched. *)
Theorem params_exact (params : gmap string value) (schema : value) (properties : Entries) :
  get schema "properties" = Some (VObject properties) -> NoDup properties.*1 ->
  exists r, call_params graphemes parse_rfc3339 json_text params schema = Some r
    /\ ((exists p, r = Ok p) <-> forall key def, (key, def) ∈ properties -> param_ok (required_names schema) params key def)
    /\ forall p, r = Ok p ->
         (forall key def, (key, def) ∈ properties -> param_result params key def (p !! key))
         /\ forall k, k ∉ properties.*1 -> p !! k = params !! k.
Proof. intros Hp Hnd. unfold call_params. rewrite Hp. simpl. by apply check_params_spec. Qed.

End Params.

(** [limit=25] of a query that declares an integer and a parameter with a default. *)
Lemma params_exact_witness :
  let schema := VObject [("properties", VObject
    [("limit", VObject [("maximum", VNumber 100); ("type", VString "integer")]);
     ("sort", VObject [("default", VString "new"); ("type", VString "string")])]);
    ("required", VArray [VString "limit"]); ("type", VString "params")] in
  let params := {[ "limit" := VString "25"; "cursor" := VString "abc" ]} : gmap string value in
  exists r, call_params (RE := Derivative.engine) (C := prefixed_cid)
              (fun _ => 0%Z) (fun _ => true) (fun _ => "") params schema = Some r
    /\ ((exists p, r = Ok p) -> forall p, r = Ok p ->
          p !! "limit" = Some (VNumber 25) /\ p !! "sort" = Some (VString "new") /\ p !! "cursor" = Some (VString "abc")).
Proof.
  intros schema params.
  destruct (params_exact (RE := Derivative.engine) (C := prefixed_cid) (fun _ => 0%Z) (fun _ => true) (fun _ => "")
    params schema _ eq_refl ltac:(cbn; repeat constructor; set_solver)) as (r & Hr & _ & Hres).
  exists r. split; [exact Hr|]. intros _ p Hp. destruct (Hres p Hp) as [Hin Hout]. split_and!.
  - destruct (Hin "limit" _ ltac:(left)) as (v & [= <-] & Hv). exact Hv.
  - exact (Hin "sort" _ ltac:(right; left)).
  - apply (Hout "cursor"). cbn. set_solver.
Defined.
