(* ===== verification/XrpcRefs.v ===== *)
(** * Following refs in XRPC validation

    What [Validator] of [src/xrpc/validate.rs] does with refs: when the walk
    ends, that the lexicons loaded before it are enough, that the refs of an
    accepted lexicon lead somewhere, and a lexicon whose refs never end. *)

From stdpp Require Import gmap strings pretty.
From Stdlib Require Import ZArith Lia.
From S2P Require Import Prelude RustStr Regex Nsid Json Cid Decimal SpaceTypes Lexicon XrpcValidate.

(** ** Ending *)

(** The refs of a definition that is itself a ref or a union. *)
Definition def_refs (def : value) : list string :=
  match def_kind def with
  | Some k =>
      if k =s "ref" then match get def "ref" ≫= as_str with Some r => [r] | None => [] end
      else if k =s "union" then union_refs def
      else []
  | None => []
  end.

Section Ending.
Context {RE : RegexEngine} `{C : CidCrate}.
Context (graphemes : string -> Z) (parse_rfc3339 : string -> bool) (json_text : value -> string).
Context (lexicons : Lexicons).

Abbreviation check := (check_value graphemes parse_rfc3339 json_text lexicons).

(** Refs that lead to refs go down in a rank of at most [N]. *)
Definition guarded (rank : string * string -> nat) (N : nat) : Prop :=
  (forall p, rank p <= N)
  /\ forall nsid r nsid' target r',
       resolve lexicons nsid r = Some (nsid', target) -> r' ∈ def_refs target -> is_Some (resolve lexicons nsid' r') ->
       rank (split_ref nsid' r') < rank (split_ref nsid r).

(** The refs of a definition are below [k]. *)
Definition below (rank : string * string -> nat) (nsid : string) (def : value) (k : nat) : Prop :=
  forall r, r ∈ def_refs def -> is_Some (resolve lexicons nsid r) -> rank (split_ref nsid r) < k.

Lemma check_all_some {A} (f : A -> option (result unit string)) l :
  (forall x, x ∈ l -> is_Some (f x)) -> is_Some (check_all f l).
Proof.
  induction l as [|x l IH]; intros Hl; simpl; [by eexists|].
  destruct (Hl x) as [r Hr]; [by left|]. rewrite Hr. destruct r; [|by eexists]. apply IH. intros y Hy. apply Hl. by right.
Qed.

Lemma find_elem {A} (p : A -> bool) l x : find p l = Some x -> x ∈ l.
Proof. intros [Hin _]%List.find_some. by apply list_elem_of_In. Qed.

Lemma check_ends_below rank N : guarded rank N -> forall fuel nsid path def v k,
  below rank nsid def k -> k <= N + 1 -> (vsize v - 1) * (N + 3) + k + 1 <= fuel ->
  is_Some (check fuel nsid path def v).
Proof.
  intros [HN Hrank]. induction fuel as [|fuel IH]; intros nsid path def v k Hb Hk Hf.
  { revert Hf. generalize ((vsize v - 1) * (N + 3)). lia. }
  cbn [check_value].
  assert (Href : forall r, r ∈ def_refs def -> is_Some match resolve lexicons nsid r with
    | Some (nsid', target) => check fuel nsid' path target v | None => Some (Ok tt) end).
  { intros r Hr. destruct (resolve lexicons nsid r) as [[nsid' target]|] eqn:Hres; [|by eexists].
    specialize (Hb r Hr (mk_is_Some _ _ Hres)). apply (IH nsid' path target v (rank (split_ref nsid r))); [|lia|revert Hf; generalize ((vsize v - 1) * (N + 3)); lia].
    intros r' Hr' Hs. by apply (Hrank nsid r nsid' target r'). }
  assert (Hsub : forall nsid path def x, vsize x < vsize v -> is_Some (check fuel nsid path def x)).
  { intros nsid' path' def' x Hx. apply (IH nsid' path' def' x (N + 1)); [|lia|].
    - intros r _ _. specialize (HN (split_ref nsid' r)). lia.
    - pose proof (vsize_pos x). replace (vsize v - 1) with (vsize x + (vsize v - 1 - vsize x)) in Hf by lia.
      replace (vsize x) with (S (vsize x - 1)) in Hf by lia. nia. }
  unfold def_refs, def_kind in Href. destruct (get def "type" ≫= as_str) as [kind|]; [|by eexists].
  destruct (kind =s "string"); [by eexists|]. destruct (kind =s "integer"); [by eexists|].
  destruct (kind =s "boolean"); [by eexists|]. destruct (kind =s "null"); [by eexists|].
  destruct (kind =s "array").
  { destruct v as [| | | | |items|]; try by eexists. destruct (check_lengths path def items) as [[]|]; [|by eexists].
    apply check_all_some. intros [i x] Hx. apply Hsub. apply vsize_item. apply (elem_enum _ _ 0). eauto. }
  destruct (kind =s "object").
  { destruct v as [| | | | | |map]; try by eexists. destruct (check_required _ _ _) as [[]|]; [|by eexists].
    destruct (get def "properties" ≫= as_object) as [ps|]; [|by eexists].
    apply check_all_some. intros [key prop] _. simpl. destruct (assoc_get map key) as [x|] eqn:Hx; [|by eexists].
    destruct (_ && _); [by eexists|]. apply Hsub, (vsize_get (VObject map) key). done. }
  destruct (kind =s "ref").
  { destruct (get def "ref" ≫= as_str) as [r|]; [|by eexists]. apply Href. by left. }
  destruct (kind =s "union").
  { destruct v as [| | | | | |map]; try by eexists. destruct (assoc_get map "$type" ≫= as_str) as [ty|]; [|by eexists].
    destruct (find _ (union_refs def)) as [r|] eqn:Hfind; [apply Href; by eapply find_elem|]. case_match; by eexists. }
  repeat (destruct (kind =s _); [by eexists|]). by eexists.
Qed.

(** (C31) The validator ends whenever refs do not lead in circles: where refs that
    lead to refs go down in some rank of at most [N], every value is accepted or
    refused within [N + 3] steps for each value inside it. *)
Theorem validator_ends (rank : string * string -> nat) (N fuel : nat) (nsid path : string) (def v : value) :
  guarded rank N -> vsize v * (N + 3) <= fuel -> exists r, check fuel nsid path def v = Some r.
Proof.
  intros Hg Hf. apply (check_ends_below rank N Hg fuel nsid path def v (N + 1)); [|lia|].
  - intros r _ _. destruct Hg as [HN _]. specialize (HN (split_ref nsid r)). lia.
  - pose proof (vsize_pos v). replace (vsize v) with (S (vsize v - 1)) in Hf by lia. nia.
Qed.

End Ending.

(** A ref to a definition that is a string. *)
Lemma validator_ends_witness :
  let raw := VObject [("defs", VObject [("name", VObject [("type", VString "string")]);
                                        ("title", VObject [("ref", VString "#name"); ("type", VString "ref")])])] in
  exists r, check_value (RE := Derivative.engine) (C := prefixed_cid) (fun _ => 0%Z) (fun _ => true) (fun _ => "")
    {[ "com.example.post" := raw ]} 4 "com.example.post" "Input" (VObject [("ref", VString "#title"); ("type", VString "ref")])
    (VString "hello") = Some r.
Proof.
  intros raw. apply (validator_ends _ _ _ _ (fun p => if p.2 =s "title" then 1 else 0) 1); [|cbn; lia]. split.
  - intros [n d]. cbn. case_match; lia.
  - intros nsid r nsid' target r'. unfold resolve. destruct (split_ref nsid r) as [t d].
    destruct (_ !! t) as [x|] eqn:Ht; [|done]. apply lookup_singleton_Some in Ht as [<- <-].
    cbn -[String.eqb]. literals. cbn -[String.eqb].
    destruct ("name" =s d) eqn:E1; [|destruct ("title" =s d) eqn:E2].
    + bool_prop. subst. intros [= <- <-] Hr. by apply not_elem_of_nil in Hr.
    + bool_prop. subst. intros [= <- <-] ->%list_elem_of_singleton _. vm_compute. lia.
    + intros [=].
Defined.

(** ** Never ending *)

Module Circle.

Import Derivative.

Definition str (k v : string) : string * value := (k, VString v).

Definition input : value :=
  VObject [str "encoding" "application/json"; ("schema", VObject [str "ref" "#again"; str "type" "ref"])].

(** A procedure whose input is a ref to a definition that is a ref to itself. *)
Definition raw : value :=
  VObject
    [("defs", VObject [("again", VObject [str "ref" "#again"; str "type" "ref"]);
                       ("main", VObject [("input", input); str "type" "procedure"])]);
     str "id" "com.example.call"; ("lexicon", VNumber 1)].

Definition lexicon : ParsedLexicon :=
  {| pl_id := "com.example.call"; pl_type := LProcedure; pl_record_key := None; pl_parameters := None;
     pl_input := Some input; pl_output := None; pl_record_schema := None; pl_raw := raw; pl_revision := 1;
     pl_token_cost := None; pl_space_type := None; pl_space_name := None; pl_space_collections := None |}.

End Circle.

(** A lexicon may be accepted, parsed and served although validating a call
    to it never ends: a definition may be a ref to itself, and then no amount of
    fuel gives an answer for any input. *)
Theorem circular_ref_never_ends `{C : CidCrate} (graphemes : string -> Z) (parse_rfc3339 : string -> bool)
    (json_text : value -> string) :
  check_document (RE := Derivative.engine) (fun _ => Some 300%Z) Circle.raw = Ok "com.example.call"
  /\ parse_lexicon Circle.raw 1 None = Ok Circle.lexicon
  /\ forall rounds fuel body,
       call_input (RE := Derivative.engine) graphemes parse_rfc3339 json_text rounds fuel ∅ Circle.lexicon body = None.
Proof.
  split; [vm_compute; reflexivity|]. split; [vm_compute; reflexivity|]. intros rounds fuel body.
  set (schema := VObject [Circle.str "ref" "#again"; Circle.str "type" "ref"]).
  assert (Hloop : forall L, L !! "com.example.call" = Some Circle.raw -> forall n path,
    check_value (RE := Derivative.engine) graphemes parse_rfc3339 json_text L n "com.example.call" path schema body = None).
  { intros L HL. induction n as [|n IH]; intros path; [done|]. cbn [check_value].
    change (get schema "type" ≫= as_str) with (Some "ref"). literals.
    change (get schema "ref" ≫= as_str) with (Some "#again"). cbn match.
    unfold resolve. change (split_ref "com.example.call" "#again") with ("com.example.call", "again"). cbn match.
    rewrite HL. apply IH. }
  unfold call_input. change (pl_input Circle.lexicon) with (Some Circle.input). cbn match.
  change (get Circle.input "encoding" ≫= as_str) with (Some "application/json"). cbn match. literals.
  change (get Circle.input "schema") with (Some schema). cbn match.
  assert (Hload : forall L, load rounds ∅ (pl_id Circle.lexicon) (pl_raw Circle.lexicon) schema = Some L ->
    L !! "com.example.call" = Some Circle.raw).
  { intros L. unfold load. change (load_pending (pl_id Circle.lexicon) (pl_raw Circle.lexicon) schema) with (@nil string).
    cbn [reverse]. intros HL. assert (Hiter : forall p (s : Lexicons), iter_until (load_step ∅) p (s, []) = inr s).
    { induction p as [p IHp|p IHp|]; intros s; cbn [iter_until]; [reflexivity|by rewrite IHp|reflexivity]. }
    unfold reverse in HL. simpl in HL. rewrite Hiter in HL. injection HL as <-. apply lookup_singleton_eq. }
  destruct (load _ _ _ _ _) as [L|] eqn:HL; [|done]. cbn. by rewrite (Hloop L (Hload L eq_refl)).
Qed.

(** ** Loading *)

(** The lexicons the definitions of a lexicon name. *)
Definition refs_of (nsid : string) (raw : value) : list string :=
  match get raw "defs" with Some defs => external_refs nsid defs | None => [] end.

Lemma external_refs_entry nsid k x map t :
  (k, x) ∈ map -> t ∈ external_refs nsid x -> t ∈ external_refs nsid (VObject map).
Proof.
  intros Hin Ht. cbn [external_refs]. apply elem_of_app. right. apply list_elem_of_In, in_concat.
  exists (external_refs nsid x). split; [|by apply list_elem_of_In]. apply in_map_iff. exists (k, x). split; [done|].
  by apply list_elem_of_In.
Qed.

Lemma external_refs_get nsid v k x t : get v k = Some x -> t ∈ external_refs nsid x -> t ∈ external_refs nsid v.
Proof.
  destruct v; simpl; try done. intros H%assoc_get_elem. by apply (external_refs_entry _ k).
Qed.

(** The refs a definition follows lead to its own lexicon or to one it names. *)
Lemma def_refs_named nsid def r :
  r ∈ def_refs def -> (split_ref nsid r).1 = nsid \/ (split_ref nsid r).1 ∈ external_refs nsid def.
Proof.
  intros Hr. destruct (decide ((split_ref nsid r).1 = nsid)) as [|Hne]; [by left|right].
  unfold def_refs, def_kind in Hr. destruct def as [| | | | | |map]; simpl in Hr; try by apply not_elem_of_nil in Hr.
  cbn [external_refs]. apply elem_of_app. left. unfold own_refs. apply list_elem_of_filter. split; [done|].
  apply list_elem_of_fmap. exists r. split; [done|]. apply list_elem_of_omap. exists (VString r). split; [|done].
  destruct (assoc_get map "type" ≫= as_str) as [k|]; [|by apply not_elem_of_nil in Hr].
  destruct (k =s "ref").
  - destruct (assoc_get map "ref") as [v|]; simpl in Hr; [|by apply not_elem_of_nil in Hr].
    destruct v; simpl in Hr; try by apply not_elem_of_nil in Hr. apply list_elem_of_singleton in Hr as ->. by left.
  - destruct (k =s "union"); [|by apply not_elem_of_nil in Hr]. unfold union_refs in Hr. simpl in Hr.
    destruct (assoc_get map "refs" ≫= as_array) as [l|]; [|by apply not_elem_of_nil in Hr]. simpl.
    apply list_elem_of_omap in Hr as (v & Hv & Hs). by destruct v; simplify_eq/=.
Qed.

Section Loading.
Context (catalog : Lexicons) (nsid : string) (raw schema : value).

(** The catalogue, with the method's own lexicon as it was read. *)
Definition full : Lexicons := <[nsid := raw]> catalog.

Definition settled (found : Lexicons) (pending : list string) (t : string) : Prop :=
  is_Some (found !! t) \/ full !! t = None \/ t ∈ pending.

Record loading (found : Lexicons) (pending : list string) : Prop := {
  ld_sub : found ⊆ full;
  ld_own : found !! nsid = Some raw;
  ld_schema : forall t, t ∈ external_refs nsid schema -> settled found pending t;
  ld_refs : forall n x, found !! n = Some x -> forall t, t ∈ refs_of n x -> settled found pending t;
}.

Lemma loading_start : loading {[ nsid := raw ]} (reverse (load_pending nsid raw schema)).
Proof.
  split.
  - apply map_subseteq_spec. intros n x [<- <-]%lookup_singleton_Some. apply lookup_insert_eq.
  - apply lookup_singleton_eq.
  - intros t Ht. right; right. apply elem_of_reverse, elem_of_app. by left.
  - intros n x [<- <-]%lookup_singleton_Some t Ht. right; right. apply elem_of_reverse, elem_of_app. by right.
Qed.

Lemma loading_drop found next pending :
  loading found (next :: pending) -> is_Some (found !! next) \/ full !! next = None -> loading found pending.
Proof.
  intros [Hsub Hown Hsch Hrefs] Hnext.
  assert (Hs : forall t, settled found (next :: pending) t -> settled found pending t).
  { intros t [?|[?|[->|?]%elem_of_cons]]; unfold settled; tauto. }
  split; eauto.
Qed.

Lemma loading_add found next pending x :
  loading found (next :: pending) -> found !! next = None -> catalog !! next = Some x ->
  loading (<[next := x]> found) (reverse (refs_of next x) ++ pending).
Proof.
  intros [Hsub Hown Hsch Hrefs] Hnone Hx. assert (Hne : next <> nsid) by (intros ->; congruence).
  assert (Hs : forall t, settled found (next :: pending) t ->
    settled (<[next := x]> found) (reverse (refs_of next x) ++ pending) t).
  { intros t [Ht|[?|[->|?]%elem_of_cons]].
    - left. destruct (decide (t = next)) as [->|]; [rewrite lookup_insert_eq; eauto|by rewrite lookup_insert_ne].
    - right; by left.
    - left. rewrite lookup_insert_eq. eauto.
    - right; right. apply elem_of_app. by right. }
  split.
  - apply map_subseteq_spec. intros n y [[<- <-]|[Hn Hy]]%lookup_insert_Some.
    + unfold full. by rewrite lookup_insert_ne.
    + eapply lookup_weaken; done.
  - by rewrite lookup_insert_ne.
  - eauto.
  - intros n y [[<- <-]|[Hn Hy]]%lookup_insert_Some t Ht.
    + right; right. apply elem_of_app. left. by apply elem_of_reverse.
    + apply Hs. by eapply Hrefs.
Qed.

Lemma loading_step s : loading s.1 s.2 ->
  match load_step catalog s with inl s1 => loading s1.1 s1.2 | inr found => loading found [] end.
Proof.
  destruct s as [found [|next pending]]; simpl; [done|]. intros Hl.
  destruct (found !! next) as [y|] eqn:Hnext; [eapply loading_drop; [exact Hl|left; eauto]|].
  destruct (catalog !! next) as [x|] eqn:Hx; simpl.
  - by apply loading_add.
  - eapply loading_drop; [exact Hl|right]. unfold full. rewrite lookup_insert_ne; [done|].
    intros <-. destruct Hl as [_ Hown _ _]. congruence.
Qed.

Lemma load_closed rounds found : load rounds catalog nsid raw schema = Some found -> loading found [].
Proof.
  unfold load. pose proof (iter_until_inv (load_step catalog) (fun s => loading s.1 s.2) (fun f => loading f [])
    loading_step rounds ({[ nsid := raw ]}, reverse (load_pending nsid raw schema)) loading_start) as H.
  destruct (iter_until _ _ _); [done|]. by intros [= <-].
Qed.

(** The rounds the loading may take. *)
Definition unread (found : Lexicons) : nat :=
  sum_list_with (fun p => length (refs_of p.1 p.2)) (map_to_list (catalog ∖ found)).

Lemma unread_add found next x :
  found !! next = None -> catalog !! next = Some x -> unread found = length (refs_of next x) + unread (<[next := x]> found).
Proof.
  intros Hn Hx. unfold unread.
  assert (E : catalog ∖ <[next := x]> found = delete next (catalog ∖ found)).
  { apply map_eq. intros t. rewrite lookup_difference. destruct (decide (t = next)) as [->|Hne].
    - by rewrite lookup_insert_eq, lookup_delete_eq.
    - by rewrite lookup_insert_ne, lookup_delete_ne, lookup_difference by done. }
  rewrite E. assert (Hd : (catalog ∖ found) !! next = Some x) by (by apply lookup_difference_Some).
  rewrite <- (map_to_list_delete _ _ _ Hd). simpl. done.
Qed.

Lemma load_step_measure s s1 :
  True -> load_step catalog s = inl s1 ->
  True /\ (0 <= Z.of_nat (length s1.2 + unread s1.1) < Z.of_nat (length s.2 + unread s.1))%Z.
Proof.
  destruct s as [found [|next pending]]; simpl; [done|]. intros _ Hs. split; [done|].
  destruct (found !! next) eqn:Hf; [injection Hs as <-; simpl; lia|].
  destruct (catalog !! next) as [x|] eqn:Hx; injection Hs as <-; simpl; [|lia].
  fold (refs_of next x). rewrite length_app, length_reverse. pose proof (unread_add found next x Hf Hx). lia.
Qed.

Definition load_rounds : positive :=
  Pos.of_succ_nat (length (load_pending nsid raw schema) + unread {[ nsid := raw ]}).

Lemma load_ends rounds : (load_rounds <= rounds)%positive -> is_Some (load rounds catalog nsid raw schema).
Proof.
  intros Hr. unfold load. destruct (iter_until _ _ _) as [s1|found] eqn:E; [|by eexists]. exfalso.
  pose proof (iter_until_measure (load_step catalog) (fun _ => True) (fun s => Z.of_nat (length s.2 + unread s.1))) as Hm.
  simpl in Hm. destruct (Hm load_step_measure rounds _ s1 I E) as [_ H].
  cbn [fst snd] in H. rewrite length_reverse in H. unfold load_rounds in Hr. lia.
Qed.

End Loading.

Section Enough.
Context {RE : RegexEngine} `{C : CidCrate}.
Context (graphemes : string -> Z) (parse_rfc3339 : string -> bool) (json_text : value -> string).
Context (catalog : Lexicons) (nsid : string) (raw schema : value) (found : Lexicons).

Abbreviation check := (check_value graphemes parse_rfc3339 json_text).

Lemma check_all_ext {A} (f g : A -> option (result unit string)) l :
  (forall x, x ∈ l -> f x = g x) -> check_all f l = check_all g l.
Proof.
  induction l as [|x l IH]; intros Hfg; simpl; [done|]. rewrite (Hfg x) by (by left).
  destruct (g x) as [[]|]; [|done..]. apply IH. intros y Hy. apply Hfg. by right.
Qed.

(** A definition all of whose refs were loaded. *)
Definition loaded (n : string) (def : value) : Prop :=
  is_Some (found !! n)
  /\ forall t, t ∈ external_refs n def -> is_Some (found !! t) \/ full catalog nsid raw !! t = None.

Lemma loaded_get n def k x : loaded n def -> get def k = Some x -> loaded n x.
Proof. intros [Hn Hl] Hx. split; [done|]. intros t Ht. apply Hl. by eapply external_refs_get. Qed.

(** Loaded refs resolve as in the whole catalogue, to loaded definitions. *)
Lemma loaded_resolve n def r :
  loading catalog nsid raw schema found [] -> loaded n def -> r ∈ def_refs def ->
  resolve found n r = resolve (full catalog nsid raw) n r
  /\ forall n' target, resolve found n r = Some (n', target) -> loaded n' target.
Proof.
  intros [Hsub Hown Hsch Hrefs] [Hn Hl] Hr. unfold resolve.
  destruct (split_ref n r) as [t d] eqn:Hsplit.
  assert (Ht : is_Some (found !! t) \/ full catalog nsid raw !! t = None).
  { destruct (def_refs_named n def r Hr) as [E|E]; rewrite Hsplit in E; simpl in E; [subst; by left|by apply Hl]. }
  destruct Ht as [[x Hx]|Hnone].
  - rewrite Hx, (lookup_weaken _ _ _ _ Hx Hsub). simpl. split; [done|]. intros n' target.
    destruct (get x "defs") as [defs|] eqn:Hdefs; [|done]. simpl. destruct (get defs d) as [def'|] eqn:Hd; [|done].
    intros [= <- <-]. split; [eauto|]. intros t' Ht'.
    destruct (Hrefs t x Hx t') as [?|[?|Hbad]]; [|by left|by right|by apply not_elem_of_nil in Hbad].
    unfold refs_of. rewrite Hdefs. by eapply external_refs_get.
  - assert (Hf : found !! t = None).
    { destruct (found !! t) as [x|] eqn:E; [|done]. by rewrite (lookup_weaken _ _ _ _ E Hsub) in Hnone. }
    by rewrite Hf, Hnone.
Qed.

Lemma check_loaded fuel : loading catalog nsid raw schema found [] -> forall n path def v,
  loaded n def -> check found fuel n path def v = check (full catalog nsid raw) fuel n path def v.
Proof.
  intros Hload. induction fuel as [|fuel IH]; intros n path def v Hl; [done|]. cbn [check_value].
  assert (Href : forall r, r ∈ def_refs def ->
    match resolve found n r with Some (n', target) => check found fuel n' path target v | None => Some (Ok tt) end
    = match resolve (full catalog nsid raw) n r with
      | Some (n', target) => check (full catalog nsid raw) fuel n' path target v | None => Some (Ok tt) end).
  { intros r Hr. destruct (loaded_resolve n def r Hload Hl Hr) as [<- Htarget].
    destruct (resolve found n r) as [[n' target]|] eqn:E; [|done]. by apply IH, Htarget. }
  unfold def_refs, def_kind in Href. destruct (get def "type" ≫= as_str) as [kind|] eqn:Hkind; [|done].
  destruct (kind =s "string"); [done|]. destruct (kind =s "integer"); [done|]. destruct (kind =s "boolean"); [done|].
  destruct (kind =s "null"); [done|].
  destruct (kind =s "array").
  { destruct v; try done. destruct (check_lengths path def items) as [[]|]; [|done]. apply check_all_ext.
    intros x _. apply IH. destruct (get def "items") as [i|] eqn:Hi; simpl; [by eapply loaded_get|].
    split; [apply Hl|]. intros t Ht. by apply not_elem_of_nil in Ht. }
  destruct (kind =s "object").
  { destruct v as [| | | | | |map]; try done. destruct (check_required path (required_names def) map) as [[]|]; [|done].
    destruct (get def "properties") as [ps|] eqn:Hps; [|done]. destruct ps as [| | | | | |ps]; try done. simpl.
    apply check_all_ext. intros [key prop] Hin. simpl. destruct (assoc_get map key); [|done]. destruct (_ && _); [done|].
    apply IH. destruct (loaded_get n def _ _ Hl Hps) as [Hn Hp]. split; [done|]. intros t Ht. apply Hp.
    by eapply external_refs_entry. }
  destruct (kind =s "ref"). { destruct (get def "ref" ≫= as_str); [|done]. apply Href. by left. }
  destruct (kind =s "union"); [|done].
  destruct v as [| | | | | |map]; try done. destruct (assoc_get map "$type" ≫= as_str) as [ty|]; [|done].
  destruct (find _ (union_refs def)) as [r|] eqn:Hfind; [|done]. apply Href. by eapply find_elem.
Qed.

End Enough.

(** Loading the lexicons a call needs ends, within one round for each name
    its lexicons mention, and what it loads is enough: the body is accepted or
    refused exactly as against the whole catalogue. *)
Theorem loading_is_enough {RE : RegexEngine} `{C : CidCrate} (graphemes : string -> Z) (parse_rfc3339 : string -> bool)
    (json_text : value -> string) (catalog : Lexicons) (nsid : string) (raw schema : value) (rounds : positive) :
  (load_rounds catalog nsid raw schema <= rounds)%positive ->
  exists found, load rounds catalog nsid raw schema = Some found
    /\ forall fuel path v,
         check_value graphemes parse_rfc3339 json_text found fuel nsid path schema v
         = check_value graphemes parse_rfc3339 json_text (<[nsid := raw]> catalog) fuel nsid path schema v.
Proof.
  intros Hr. destruct (load_ends catalog nsid raw schema rounds Hr) as [found Hfound].
  exists found. split; [done|]. intros fuel path v. apply load_closed in Hfound as Hl.
  apply (check_loaded graphemes parse_rfc3339 json_text catalog nsid raw schema found fuel Hl).
  destruct Hl as [_ Hown Hsch _]. split; [eauto|]. intros t Ht.
  destruct (Hsch t Ht) as [?|[?|Hbad]]; [by left|by right|by apply not_elem_of_nil in Hbad].
Qed.

(** A body whose schema names a lexicon of the catalogue. *)
Lemma loading_is_enough_witness :
  let name := VObject [("defs", VObject [("main", VObject [("type", VString "string")])])] in
  let schema := VObject [("ref", VString "com.example.name"); ("type", VString "ref")] in
  let catalog := {[ "com.example.name" := name ]} : Lexicons in
  exists found, load 2 catalog "com.example.call" (VObject []) schema = Some found
    /\ check_value (RE := Derivative.engine) (C := prefixed_cid) (fun _ => 0%Z) (fun _ => true) (fun _ => "")
         found 2 "com.example.call" "Input" schema (VNumber 1)
       = Some (Err "Input must be a string").
Proof.
  intros name schema catalog.
  destruct (loading_is_enough (RE := Derivative.engine) (C := prefixed_cid) (fun _ => 0%Z) (fun _ => true) (fun _ => "")
    catalog "com.example.call" (VObject []) schema 2) as (found & Hload & Hsame).
  - vm_compute. discriminate.
  - exists found. split; [exact Hload|]. rewrite Hsame. vm_compute. reflexivity.
Defined.

(** ** The refs of an accepted lexicon *)

(** The schemas a lexicon's calls are checked against: its field definitions and
    the input of its procedure. *)
Definition document_schema (raw : value) (m : Entries) : Prop :=
  exists defs, get raw "defs" = Some (VObject defs)
    /\ ((exists name kind, (name, VObject m) ∈ defs /\ kind_of m = Some kind /\ kind ∈ FIELD_TYPES)
        \/ exists main input, ("main", VObject main) ∈ defs /\ kind_of main = Some "procedure"
             /\ assoc_get main "input" = Some input /\ get input "schema" = Some (VObject m)).

Lemma ref_ok_resolves {RE : RegexEngine} (lexicons : Lexicons) raw id defs r :
  lexicons !! id = Some raw -> get raw "defs" = Some (VObject defs) -> ref_ok (Some id) defs r ->
  (split_ref id r).1 = id -> is_Some (resolve lexicons id r).
Proof.
  intros Hl Hdefs (_ & _ & Hok). unfold split_ref, resolve, split_ref, split_hash in *.
  destruct (str_split_once (Ascii.eqb hash) r) as [[target def]|]; simpl in *.
  - destruct (target =s "") eqn:E; bool_prop; simpl; intros Ht.
    + destruct Hok as [d Hd]; [by left|]. rewrite Hl. simpl. rewrite Hdefs. simpl. rewrite Hd. by eexists.
    + subst target. destruct Hok as [d Hd]; [by right|]. rewrite Hl. simpl. rewrite Hdefs. simpl. rewrite Hd. by eexists.
  - intros ->. destruct Hok as [d Hd]; [by right|]. rewrite Hl. simpl. rewrite Hdefs. simpl. rewrite Hd. by eexists.
Qed.

Lemma document_schema_ok {RE : RegexEngine} (to_vec_len : value -> option Z) raw m :
  lexicon_ok to_vec_len raw -> document_schema raw m ->
  exists id defs, get raw "id" = Some (VString id) /\ get raw "defs" = Some (VObject defs)
    /\ schema_ok (ref_ok (Some id) defs) m.
Proof.
  intros (_ & _ & id & defs & Hid & _ & Hdefs & _ & Hall) (defs' & Hdefs' & Hm).
  rewrite Hdefs in Hdefs'. injection Hdefs' as <-. exists id, defs. split_and!; [done..|].
  destruct Hm as [(name & kind & Hin & Hkind & Hft)|(main & input & Hin & Hkind & Hinput & Hschema)].
  - destruct (Hall _ _ Hin) as (def & kind' & [= <-] & Hk' & [(Hp & _)|[_ Hs]]); [|done].
    rewrite Hkind in Hk'. injection Hk' as <-. exfalso. clear -Hft Hp.
    unfold FIELD_TYPES, PRIMARY_TYPES in *. set_solver.
  - destruct (Hall _ _ Hin) as (def & kind' & [= <-] & Hk' & Hcase). rewrite Hkind in Hk'. injection Hk' as <-.
    destruct Hcase as [(_ & _ & _ & _ & Hin' & _)|[Hft _]]; [|exfalso; clear -Hft; unfold FIELD_TYPES in *; set_solver].
    destruct (Hin' eq_refl _ Hinput) as (im & -> & _ & Hs). simpl in Hschema. destruct (Hs _ Hschema) as (sm & [= <-] & ?). done.
Qed.

(** No check is skipped because a ref of the document leads nowhere: in every
    schema of an accepted lexicon, however deep, a ref or a branch of a union
    that names the lexicon itself resolves to one of its definitions. *)
Theorem accepted_refs_resolve {RE : RegexEngine} (to_vec_len : value -> option Z) (raw : value) (id : string)
    (lexicons : Lexicons) (m m' : Entries) (r : string) :
  check_document to_vec_len raw = Ok id -> lexicons !! id = Some raw ->
  document_schema raw m -> nested m m' -> r ∈ def_refs (VObject m') -> (split_ref id r).1 = id ->
  exists target, resolve lexicons id r = Some (id, target).
Proof.
  intros [Hok Hid]%check_document_Ok Hl Hm Hn Hr Ht.
  destruct (document_schema_ok _ _ _ Hok Hm) as (id' & defs & Hid' & Hdefs & Hs).
  rewrite Hid in Hid'. injection Hid' as <-. specialize (Hs m' Hn).
  assert (Hgood : ref_ok (Some id) defs r).
  { unfold def_refs in Hr. change (def_kind (VObject m')) with (kind_of m') in Hr.
    destruct (kind_of m') as [k|] eqn:Hk; [|by apply not_elem_of_nil in Hr].
    destruct (k =s "ref") eqn:E; bool_prop.
    - subst. destruct (lo_ref _ _ Hs Hk) as (r' & Hr' & _ & Hg). simpl in Hr. rewrite Hr' in Hr. simpl in Hr.
      by apply list_elem_of_singleton in Hr as ->.
    - destruct (k =s "union") eqn:E'; bool_prop; [|by apply not_elem_of_nil in Hr]. subst.
      destruct (lo_union _ _ Hs Hk) as (v & Hv & l & -> & Hall). unfold union_refs in Hr. simpl in Hr. rewrite Hv in Hr.
      simpl in Hr. apply list_elem_of_omap in Hr as (x & Hx & Hxs). rewrite Forall_forall in Hall.
      destruct (Hall x Hx) as (s & -> & _ & Hg). simpl in Hxs. by injection Hxs as ->. }
  destruct (ref_ok_resolves lexicons raw id defs r Hl Hdefs Hgood Ht) as [[n target] Hres].
  exists target. rewrite Hres. unfold resolve in Hres. destruct (split_ref id r) as [t d]. simpl in *. subst t.
  rewrite Hl in Hres. simpl in Hres. rewrite Hdefs in Hres. simpl in Hres.
  destruct (assoc_get defs d); [|done]. simpl in Hres. by injection Hres as -> ->.
Qed.

(** The input schema of a procedure. *)
Lemma accepted_refs_resolve_witness :
  exists target, resolve {[ "com.example.call" := Circle.raw ]} "com.example.call" "#again" = Some ("com.example.call", target).
Proof.
  apply (accepted_refs_resolve (RE := Derivative.engine) (fun _ => Some 300%Z) Circle.raw "com.example.call" _
    [Circle.str "ref" "#again"; Circle.str "type" "ref"] [Circle.str "ref" "#again"; Circle.str "type" "ref"] "#again").
  - vm_compute. reflexivity.
  - apply lookup_singleton_eq.
  - eexists. split; [reflexivity|right]. eexists _, _. split_and!; [right; left|reflexivity..].
  - constructor.
  - left.
  - reflexivity.
Defined.
