(* ===== verification/Jobs.v ===== *)
(** * The job queue

    [src/jobs]: the table of jobs with its leases ([db.rs]), the lease a run
    carries ([held.rs]), the worker that runs a job and records how it ended
    ([worker.rs]), and the operator's requests ([src/admin/jobs.rs]).  Every
    statement is a function on the table, and a row the statement's condition
    does not select stays as it is.  The clock, new ids and the texts of
    timestamps are arguments; so is whether the database answered, where the
    source goes on without an answer.  Instances and workers only meet in the
    table, so the system is one table, the runs claimed from it, and labelled
    steps that interleave freely. *)

From stdpp Require Import gmap strings.
From Stdlib Require Import ZArith Lia.
From S2P Require Import Prelude RustStr Regex Json Tombstones SpaceTypes.
#[local] Open Scope Z_scope.

(** ** The table *)

(** The columns only the insert writes. *)
Record JobSpec : Type := {
  s_type : string;
  s_input : string;
  s_created_by : string;
  s_created_at : string;
  s_inherit_auth : bool;
  s_api_client_id : option string;
  s_dpop_key_id : option string;
}.

Record JobRow : Type := {
  j_spec : JobSpec;
  j_status : string;
  j_progress : string;
  j_result : option string;
  j_error : option string;
  j_started_at : option string;
  j_completed_at : option string;
  j_attempt : Z;
  j_claimed_by : option string;
  j_lease_until : option Z;
  j_lost_leases : Z;
}.

Abbreviation JobDb := (gmap string JobRow).

Definition LEASE : Z := 60000.
Definition MAX_LOST_LEASES : Z := 3.

Record Lease : Type := { owner : string; attempt : Z }.

Definition lease_until (now : Z) : Z := now + LEASE.

(** What a statement sets. *)
Definition set_status (status : string) (r : JobRow) : JobRow :=
  {| j_spec := j_spec r; j_status := status; j_progress := j_progress r; j_result := j_result r; j_error := j_error r;
     j_started_at := j_started_at r; j_completed_at := j_completed_at r; j_attempt := j_attempt r;
     j_claimed_by := j_claimed_by r; j_lease_until := j_lease_until r; j_lost_leases := j_lost_leases r |}.

Definition set_completed (at_ : string) (r : JobRow) : JobRow :=
  {| j_spec := j_spec r; j_status := j_status r; j_progress := j_progress r; j_result := j_result r; j_error := j_error r;
     j_started_at := j_started_at r; j_completed_at := Some at_; j_attempt := j_attempt r;
     j_claimed_by := j_claimed_by r; j_lease_until := j_lease_until r; j_lost_leases := j_lost_leases r |}.

Definition set_progress (text : string) (r : JobRow) : JobRow :=
  {| j_spec := j_spec r; j_status := j_status r; j_progress := text; j_result := j_result r; j_error := j_error r;
     j_started_at := j_started_at r; j_completed_at := j_completed_at r; j_attempt := j_attempt r;
     j_claimed_by := j_claimed_by r; j_lease_until := j_lease_until r; j_lost_leases := j_lost_leases r |}.

Definition set_result (text : string) (r : JobRow) : JobRow :=
  {| j_spec := j_spec r; j_status := j_status r; j_progress := j_progress r; j_result := Some text; j_error := j_error r;
     j_started_at := j_started_at r; j_completed_at := j_completed_at r; j_attempt := j_attempt r;
     j_claimed_by := j_claimed_by r; j_lease_until := j_lease_until r; j_lost_leases := j_lost_leases r |}.

Definition set_error (text : string) (r : JobRow) : JobRow :=
  {| j_spec := j_spec r; j_status := j_status r; j_progress := j_progress r; j_result := j_result r; j_error := Some text;
     j_started_at := j_started_at r; j_completed_at := j_completed_at r; j_attempt := j_attempt r;
     j_claimed_by := j_claimed_by r; j_lease_until := j_lease_until r; j_lost_leases := j_lost_leases r |}.

Definition set_until (until : option Z) (r : JobRow) : JobRow :=
  {| j_spec := j_spec r; j_status := j_status r; j_progress := j_progress r; j_result := j_result r; j_error := j_error r;
     j_started_at := j_started_at r; j_completed_at := j_completed_at r; j_attempt := j_attempt r;
     j_claimed_by := j_claimed_by r; j_lease_until := until; j_lost_leases := j_lost_leases r |}.

(** [claimed_by = NULL, lease_until = NULL] *)
Definition unclaim (r : JobRow) : JobRow :=
  {| j_spec := j_spec r; j_status := j_status r; j_progress := j_progress r; j_result := j_result r; j_error := j_error r;
     j_started_at := j_started_at r; j_completed_at := j_completed_at r; j_attempt := j_attempt r;
     j_claimed_by := None; j_lease_until := None; j_lost_leases := j_lost_leases r |}.

(** [lost_leases = lost_leases + 1] *)
Definition count_lost (r : JobRow) : JobRow :=
  {| j_spec := j_spec r; j_status := j_status r; j_progress := j_progress r; j_result := j_result r; j_error := j_error r;
     j_started_at := j_started_at r; j_completed_at := j_completed_at r; j_attempt := j_attempt r;
     j_claimed_by := j_claimed_by r; j_lease_until := j_lease_until r; j_lost_leases := j_lost_leases r + 1 |}.

(** The assignments of a claim. *)
Definition claim (who at_ : string) (now : Z) (r : JobRow) : JobRow :=
  {| j_spec := j_spec r; j_status := "running"; j_progress := j_progress r; j_result := j_result r; j_error := j_error r;
     j_started_at := Some at_; j_completed_at := j_completed_at r; j_attempt := j_attempt r + 1;
     j_claimed_by := Some who; j_lease_until := Some (lease_until now); j_lost_leases := j_lost_leases r |}.

(** [UPDATE .. WHERE id = ? AND p], and whether a row was affected. *)
Definition update_one (db : JobDb) (id : string) (p : JobRow -> bool) (f : JobRow -> JobRow) : JobDb * bool :=
  match db !! id with
  | Some r => if p r then (<[id := f r]> db, true) else (db, false)
  | None => (db, false)
  end.

(** [UPDATE .. WHERE p], and how many rows were affected. *)
Definition update_all (db : JobDb) (p : JobRow -> bool) (f : JobRow -> JobRow) : JobDb * nat :=
  ((fun r => if p r then f r else r) <$> db, size (filter (fun kr : string * JobRow => Is_true (p kr.2)) db)).

Definition is_status (status : string) (r : JobRow) : bool := j_status r =s status.

(** [status IN ('running', 'cancelling', 'pausing')] *)
Definition is_active (r : JobRow) : bool := is_status "running" r || is_status "cancelling" r || is_status "pausing" r.

(** [claimed_by = ? AND attempt = ? AND status IN (..)] *)
Definition fenced (lease : Lease) (r : JobRow) : bool :=
  bool_decide (j_claimed_by r = Some (owner lease)) && (j_attempt r =? attempt lease) && is_active r.

(** ** Statements *)

(** [duplicate] is what the database says about an id that is taken. *)
Definition create_job (db : JobDb) (id duplicate : string) (spec : JobSpec) : result (JobDb * string) AppError :=
  match db !! id with
  | Some _ => Err (Internal ("failed to create job: " +:+ duplicate))
  | None =>
      Ok (<[id := {| j_spec := spec; j_status := "pending"; j_progress := "{}"; j_result := None; j_error := None;
                     j_started_at := None; j_completed_at := None; j_attempt := 0; j_claimed_by := None;
                     j_lease_until := None; j_lost_leases := 0 |}]> db, id)
  end.

(** [change_status] *)
Definition change_status (db : JobDb) (id from to at_ : string) : JobDb * bool :=
  let f r := if (to =s "completed") || (to =s "failed") || (to =s "cancelled")
             then set_completed at_ (set_status to r) else set_status to r in
  update_one db id (is_status from) f.

(** [recover_expired_jobs]: its four statements, each a transaction of its own. *)
Definition expired (now : Z) (r : JobRow) : bool :=
  match j_lease_until r with None => true | Some until => until <? now end.

Definition lost_error : string := "the job's worker stopped 3 times before it finished; it is not run again".

Inductive Recovery : Type := RCancel | RPause | RFail | RQueue.

Definition recover_where (k : Recovery) (now : Z) (r : JobRow) : bool :=
  match k with
  | RCancel => is_status "cancelling" r && expired now r
  | RPause => is_status "pausing" r && expired now r
  | RFail => is_status "running" r && expired now r && (MAX_LOST_LEASES <=? j_lost_leases r + 1)
  | RQueue => is_status "running" r && expired now r
  end.

Definition recover_set (k : Recovery) (at_ : string) (r : JobRow) : JobRow :=
  match k with
  | RCancel => unclaim (set_completed at_ (set_status "cancelled" r))
  | RPause => unclaim (set_status "paused" r)
  | RFail => unclaim (count_lost (set_completed at_ (set_error lost_error (set_status "failed" r))))
  | RQueue => unclaim (count_lost (set_status "pending" r))
  end.

Definition recover_statement (db : JobDb) (k : Recovery) (now : Z) (at_ : string) : JobDb * nat :=
  update_all db (recover_where k now) (recover_set k at_).

Definition recover_expired_jobs (db : JobDb) (now : Z) (at_ : string) : JobDb * nat :=
  let '(db, a) := recover_statement db RCancel now at_ in
  let '(db, b) := recover_statement db RPause now at_ in
  let '(db, c) := recover_statement db RFail now at_ in
  let '(db, d) := recover_statement db RQueue now at_ in
  (db, a + b + c + d)%nat.

(** The subquery of [claim_next_job] may answer any pending job that no pending
    job is older than. *)
Definition is_pending (r : JobRow) : bool := is_status "pending" r.

Definition is_oldest (db : JobDb) (id : string) : bool :=
  match db !! id with
  | Some r =>
      is_pending r
      && forallb (fun kr => negb (is_pending kr.2) || negb (rev_lt (s_created_at (j_spec kr.2)) (s_created_at (j_spec r))))
           (map_to_list db)
  | None => false
  end.

Definition claim_next_job (db : JobDb) (picked who at_ : string) (now : Z) : option (JobDb * JobRow) :=
  if is_oldest db picked then
    match db !! picked with
    | Some r => Some (<[picked := claim who at_ now r]> db, claim who at_ now r)
    | None => None
    end
  else None.

Definition hold_job (db : JobDb) (id who at_ : string) (now : Z) : option (JobDb * JobRow) :=
  match db !! id with
  | Some r => if is_pending r then Some (<[id := claim who at_ now r]> db, claim who at_ now r) else None
  | None => None
  end.

Definition renew_lease (db : JobDb) (id : string) (lease : Lease) (now : Z) : JobDb * bool :=
  update_one db id (fenced lease) (set_until (Some (lease_until now))).

(** ** The lease of a run *)

Record Held : Type := { h_id : string; h_lease : Lease; h_lost : bool }.

Definition mark_lost (h : Held) : Held := {| h_id := h_id h; h_lease := h_lease h; h_lost := true |}.

(** [held::current]: the run's own lease, when it is a run of this job. *)
Definition current (run : option Held) (id : string) : option Held :=
  match run with Some h => if h_id h =s id then Some h else None | None => None end.

(** [update_progress]: the table and the run's lease after it. *)
Definition update_progress (db : JobDb) (run : option Held) (id text : string) : JobDb * option Held :=
  match current run id with
  | None => (db, run)
  | Some h =>
      if h_lost h then (db, run)
      else
        let '(db, written) := update_one db id (fenced (h_lease h)) (set_progress text) in
        (db, if written then run else Some (mark_lost h))
  end.

(** [should_stop]: its answer and the run's lease after it. *)
Definition should_stop (answered : bool) (db : JobDb) (run : option Held) (id : string) : option string * option Held :=
  let held := current run id in
  match held with
  | Some h => if h_lost h then (Some "lost", run) else
      match (if answered then db !! id else None) with
      | None => (None, run)
      | Some r =>
          if negb (bool_decide (j_claimed_by r = Some (owner (h_lease h)))) || negb (j_attempt r =? attempt (h_lease h))
          then (Some "lost", Some (mark_lost h))
          else if is_status "cancelling" r then (Some "cancelling", run)
          else if is_status "pausing" r then (Some "pausing", run)
          else (None, run)
      end
  | None =>
      match (if answered then db !! id else None) with
      | None => (None, run)
      | Some r =>
          if is_status "cancelling" r then (Some "cancelling", run)
          else if is_status "pausing" r then (Some "pausing", run)
          else (None, run)
      end
  end.

(** ** How a run ends *)

Inductive Finish : Type := FCompleted (result : string) | FFailed (error : string) | FPaused | FCancelled.

Definition finish_set (f : Finish) (at_ : string) (r : JobRow) : JobRow :=
  match f with
  | FCompleted text => set_completed at_ (set_result text (set_status "completed" r))
  | FFailed error => set_completed at_ (set_error error (set_status "failed" r))
  | FCancelled => set_completed at_ (set_status "cancelled" r)
  | FPaused => set_status "paused" r
  end.

Definition finish (db : JobDb) (id : string) (lease : Lease) (f : Finish) (at_ : string) : JobDb * bool :=
  update_one db id (fenced lease) (fun r => set_until None (finish_set f at_ r)).

Inductive JobOutcome : Type := OCompleted (value : string) | OFailed (error : string).

(** [finalize]: what the answer of [should_stop] makes of an outcome, and the
    event that is logged once it is recorded. *)
Definition finish_of (stop : option string) (outcome : JobOutcome) : Finish * string :=
  let kind := default "" stop in
  if kind =s "pausing" then (FPaused, "job.paused")
  else if kind =s "cancelling" then (FCancelled, "job.cancelled")
  else match outcome with
       | OCompleted value => (FCompleted value, "job.completed")
       | OFailed error => (FFailed error, "job.failed")
       end.

Definition finalize (answered : bool) (db : JobDb) (id : string) (lease : Lease) (stop : option string)
    (outcome : JobOutcome) (at_ : string) : JobDb * bool :=
  if answered then finish db id lease (finish_of stop outcome).1 at_ else (db, false).

(** ** The operator *)

Definition moved_on : AppError := Conflict "the job's status changed; reload and try again".

(** [seen] is the row the request read, and the table is the one its write
    reaches. *)
Definition cancel_job (seen : option JobRow) (db : JobDb) (id at_ : string) : JobDb * result string AppError :=
  match seen with
  | None => (db, Err (NotFound "job not found"))
  | Some job =>
      let status := j_status job in
      let to := if status =s "running" then Some "cancelling"
                else if (status =s "pending") || (status =s "paused") then Some "cancelled" else None in
      match to with
      | None => (db, Err (Conflict ("cannot cancel job with status: " +:+ status)))
      | Some to =>
          let '(db, changed) := change_status db id status to at_ in
          (db, if changed then Ok to else Err moved_on)
      end
  end.

Definition pause_job (seen : option JobRow) (db : JobDb) (id at_ : string) : JobDb * result string AppError :=
  match seen with
  | None => (db, Err (NotFound "job not found"))
  | Some job =>
      if negb (is_status "running" job) then (db, Err (Conflict ("cannot pause job with status: " +:+ j_status job)))
      else
        let '(db, changed) := change_status db id "running" "pausing" at_ in
        (db, if changed then Ok "pausing" else Err moved_on)
  end.

Definition resume_job (seen : option JobRow) (db : JobDb) (id at_ : string) : JobDb * result string AppError :=
  match seen with
  | None => (db, Err (NotFound "job not found"))
  | Some job =>
      if negb (is_status "paused" job) then (db, Err (Conflict ("cannot resume job with status: " +:+ j_status job)))
      else
        let '(db, changed) := change_status db id "paused" "pending" at_ in
        (db, if changed then Ok "pending" else Err moved_on)
  end.

(** ** The system *)

(** A run works until it has an outcome, reads whether it was asked to stop, and
    records how it ended. *)
Inductive Phase : Type := Working | Ending (stop : option string) (outcome : JobOutcome) | Over.

Record Run : Type := { r_held : Held; r_phase : Phase }.

(** The table, every run ever claimed from it in the order of the claims, the
    outcomes recorded (of which job, under which lease, and as what), and the
    jobs resumed. *)
Record Sys : Type := {
  jobs : JobDb;
  runs : list Run;
  recorded : list (string * (Lease * Finish));
  resumed : list string;
}.

Inductive Label : Type :=
| LCreate (id : string) (spec : JobSpec)
| LClaim (id who at_ : string) (now : Z)
| LHold (id who at_ : string) (now : Z)
| LRenew (i : nat) (now : Z)
| LProgress (i : nat) (text : string)
| LAsk (i : nat) (answered : bool)
| LOutcome (i : nat) (outcome : JobOutcome) (answered : bool)
| LFinish (i : nat) (at_ : string) (answered : bool)
| LDie (i : nat)
| LCancel (id : string) (seen : option JobRow) (at_ : string)
| LPause (id : string) (seen : option JobRow) (at_ : string)
| LResume (id : string) (seen : option JobRow) (at_ : string)
| LRecover (k : Recovery) (now : Z) (at_ : string).

Definition with_jobs (s : Sys) (db : JobDb) : Sys :=
  {| jobs := db; runs := runs s; recorded := recorded s; resumed := resumed s |}.

Definition with_run (s : Sys) (i : nat) (r : Run) : Sys :=
  {| jobs := jobs s; runs := <[i := r]> (runs s); recorded := recorded s; resumed := resumed s |}.

(** A claim starts a run under its lease. *)
Definition start (s : Sys) (id who : string) (claimed : option (JobDb * JobRow)) : option Sys :=
  match claimed with
  | None => None
  | Some (db, row) =>
      Some {| jobs := db;
              runs := runs s ++ [{| r_held := {| h_id := id; h_lease := {| owner := who; attempt := j_attempt row |};
                                                 h_lost := false |};
                                    r_phase := Working |}];
              recorded := recorded s; resumed := resumed s |}
  end.

Definition is_over (r : Run) : bool := match r_phase r with Over => true | _ => false end.

(** A step of the renewal beside a run: it ends once the lease is lost. *)
Definition renew_while_running (s : Sys) (i : nat) (r : Run) (now : Z) : option Sys :=
  let h := r_held r in
  if is_over r || h_lost h then None
  else
    let '(db, renewed) := renew_lease (jobs s) (h_id h) (h_lease h) now in
    let s := with_jobs s db in
    Some (if renewed then s else with_run s i {| r_held := mark_lost h; r_phase := r_phase r |}).

Definition exec (s : Sys) (l : Label) : option Sys :=
  match l with
  | LCreate id spec =>
      match create_job (jobs s) id "" spec with Ok (db, _) => Some (with_jobs s db) | Err _ => Some s end
  | LClaim id who at_ now => start s id who (claim_next_job (jobs s) id who at_ now)
  | LHold id who at_ now => start s id who (hold_job (jobs s) id who at_ now)
  | LRenew i now => r ← runs s !! i; renew_while_running s i r now
  | LProgress i text =>
      r ← runs s !! i;
      match r_phase r with
      | Working =>
          let h := r_held r in
          let '(db, run) := update_progress (jobs s) (Some h) (h_id h) text in
          Some (with_run (with_jobs s db) i {| r_held := default h run; r_phase := Working |})
      | _ => None
      end
  | LAsk i answered =>
      r ← runs s !! i;
      match r_phase r with
      | Working =>
          let h := r_held r in
          let '(_, run) := should_stop answered (jobs s) (Some h) (h_id h) in
          Some (with_run s i {| r_held := default h run; r_phase := Working |})
      | _ => None
      end
  | LOutcome i outcome answered =>
      r ← runs s !! i;
      match r_phase r with
      | Working =>
          let h := r_held r in
          let '(stop, run) := should_stop answered (jobs s) (Some h) (h_id h) in
          Some (with_run s i {| r_held := default h run; r_phase := Ending stop outcome |})
      | _ => None
      end
  | LFinish i at_ answered =>
      r ← runs s !! i;
      match r_phase r with
      | Ending stop outcome =>
          let h := r_held r in
          let '(db, done) := finalize answered (jobs s) (h_id h) (h_lease h) stop outcome at_ in
          Some {| jobs := db; runs := <[i := {| r_held := h; r_phase := Over |}]> (runs s);
                  recorded := if done then recorded s ++ [(h_id h, (h_lease h, (finish_of stop outcome).1))] else recorded s;
                  resumed := resumed s |}
      | _ => None
      end
  | LDie i => r ← runs s !! i; Some (with_run s i {| r_held := r_held r; r_phase := Over |})
  | LCancel id seen at_ => Some (with_jobs s (cancel_job seen (jobs s) id at_).1)
  | LPause id seen at_ => Some (with_jobs s (pause_job seen (jobs s) id at_).1)
  | LResume id seen at_ =>
      let '(db, answer) := resume_job seen (jobs s) id at_ in
      Some {| jobs := db; runs := runs s; recorded := recorded s;
              resumed := match answer with Ok _ => id :: resumed s | Err _ => resumed s end |}
  | LRecover k now at_ => Some (with_jobs s (recover_statement (jobs s) k now at_).1)
  end.

Fixpoint exec_all (s : Sys) (ls : list Label) : option Sys :=
  match ls with
  | [] => Some s
  | l :: ls => s1 ← exec s l; exec_all s1 ls
  end.

Definition initial : Sys := {| jobs := ∅; runs := []; recorded := []; resumed := [] |}.

Definition reachable (s : Sys) : Prop := exists ls, exec_all initial ls = Some s.
