(* ===== verification/JobRuns.v ===== *)
(** * What the job queue keeps true

    Every step of the system of [Jobs] is, to each job, a step of the machine of
    one job ([job_step]).  From that: how a job ended is recorded once, stale
    runs change nothing, a live lease keeps its job, a job that keeps losing its
    worker ends, and what a recovery does. *)

From stdpp Require Import gmap strings.
From Stdlib Require Import ZArith Lia.
From S2P Require Import Prelude RustStr Json Tombstones SpaceTypes Jobs.
#[local] Open Scope Z_scope.

(** ** One job

    What the system does to one job: its row, the leases it was claimed under,
    the outcomes recorded for it and how often it was resumed. *)

Record JobView : Type := {
  v_row : option JobRow;
  v_claims : list Lease;
  v_outcomes : list (Lease * Finish);
  v_resumed : nat;
}.

Definition of_job {A} (id : string) (l : list (string * A)) : list A := (filter (fun p => p.1 = id) l).*2.

Definition lease_of (r : Run) : string * Lease := (h_id (r_held r), h_lease (r_held r)).

Definition view (s : Sys) (id : string) : JobView :=
  {| v_row := jobs s !! id; v_claims := of_job id (lease_of <$> runs s); v_outcomes := of_job id (recorded s);
     v_resumed := length (filter (eq id) (resumed s)) |}.

Definition with_row (v : JobView) (r : JobRow) : JobView :=
  {| v_row := Some r; v_claims := v_claims v; v_outcomes := v_outcomes v; v_resumed := v_resumed v |}.

Definition claimed (v : JobView) (l : Lease) : JobView :=
  {| v_row := v_row v; v_claims := v_claims v ++ [l]; v_outcomes := v_outcomes v; v_resumed := v_resumed v |}.

Definition ended (v : JobView) (l : Lease) (f : Finish) : JobView :=
  {| v_row := v_row v; v_claims := v_claims v; v_outcomes := v_outcomes v ++ [(l, f)]; v_resumed := v_resumed v |}.

Definition resumed_once (v : JobView) : JobView :=
  {| v_row := v_row v; v_claims := v_claims v; v_outcomes := v_outcomes v; v_resumed := S (v_resumed v) |}.

(** The claim, the renewal or the statement of a recovery a step is, with its clock. *)
Definition claim_of (l : Label) : option Z :=
  match l with LClaim _ _ _ now | LHold _ _ _ now => Some now | _ => None end.

Definition renewal_of (l : Label) : option Z := match l with LRenew _ now => Some now | _ => None end.

Definition recovery_of (l : Label) : option (Recovery * Z) :=
  match l with LRecover k now _ => Some (k, now) | _ => None end.

(** The machine of one job. *)
Inductive job_step (l : Label) (v : JobView) : JobView -> Prop :=
| js_create r :
    v_row v = None -> j_status r = "pending" -> j_attempt r = 0 -> j_lost_leases r = 0 -> job_step l v (with_row v r)
| js_claim r who at_ now :
    v_row v = Some r -> j_status r = "pending" -> claim_of l = Some now ->
    job_step l v (claimed (with_row v (claim who at_ now r)) {| owner := who; attempt := j_attempt r + 1 |})
| js_renew r lease now :
    v_row v = Some r -> fenced lease r = true -> renewal_of l = Some now ->
    job_step l v (with_row v (set_until (Some (lease_until now)) r))
| js_progress r lease text :
    v_row v = Some r -> fenced lease r = true -> job_step l v (with_row v (set_progress text r))
| js_finish r lease f at_ :
    v_row v = Some r -> fenced lease r = true ->
    job_step l v (ended (with_row v (set_until None (finish_set f at_ r))) lease f)
| js_request r to :
    v_row v = Some r -> j_status r = "running" -> to = "cancelling" \/ to = "pausing" ->
    job_step l v (with_row v (set_status to r))
| js_cancel r at_ :
    v_row v = Some r -> j_status r = "pending" \/ j_status r = "paused" ->
    job_step l v (with_row v (set_completed at_ (set_status "cancelled" r)))
| js_resume r :
    v_row v = Some r -> j_status r = "paused" -> job_step l v (resumed_once (with_row v (set_status "pending" r)))
| js_recover r k now at_ :
    v_row v = Some r -> recover_where k now r = true -> recovery_of l = Some (k, now) -> job_step l v (with_row v (recover_set k at_ r)).

Lemma view_eq s s' id :
  jobs s' !! id = jobs s !! id -> lease_of <$> runs s' = lease_of <$> runs s -> recorded s' = recorded s ->
  resumed s' = resumed s -> view s' id = view s id.
Proof. unfold view. by intros -> -> -> ->. Qed.

Lemma view_row s s' id r :
  jobs s' !! id = Some r -> lease_of <$> runs s' = lease_of <$> runs s -> recorded s' = recorded s ->
  resumed s' = resumed s -> view s' id = with_row (view s id) r.
Proof. unfold view, with_row. cbn. by intros -> -> -> ->. Qed.

Lemma leases_insert s i r r' :
  runs s !! i = Some r -> lease_of r' = lease_of r -> lease_of <$> <[i := r']> (runs s) = lease_of <$> runs s.
Proof. intros Hi Hl. rewrite list_fmap_insert, Hl. apply list_insert_id. by rewrite list_lookup_fmap, Hi. Qed.

(** A guarded update changes one row that satisfies its guard, or nothing. *)
Lemma update_one_cases db id p f db' b :
  update_one db id p f = (db', b) ->
  (b = false /\ db' = db) \/ (b = true /\ exists r, db !! id = Some r /\ p r = true /\ db' = <[id := f r]> db).
Proof.
  unfold update_one. destruct (db !! id) as [r|]; [|intros [= <- <-]; by left].
  destruct (p r) eqn:Hp; intros [= <- <-]; [right; eauto 6|by left].
Qed.

Lemma lookup_update_all db p f id :
  (update_all db p f).1 !! id = (fun r => if p r then f r else r) <$> db !! id.
Proof. apply lookup_fmap. Qed.

(** Every step of the system is, to each job, no step or one of the machine. *)
Definition steps_each (l : Label) (s s' : Sys) : Prop :=
  forall id, view s' id = view s id \/ job_step l (view s id) (view s' id).

Lemma same_each l s s' :
  jobs s' = jobs s -> lease_of <$> runs s' = lease_of <$> runs s -> recorded s' = recorded s -> resumed s' = resumed s ->
  steps_each l s s'.
Proof. intros Hj ??? id. left. apply view_eq; [by rewrite Hj|done..]. Qed.

Lemma row_each l s s' id r :
  jobs s' = <[id := r]> (jobs s) -> lease_of <$> runs s' = lease_of <$> runs s -> recorded s' = recorded s ->
  resumed s' = resumed s -> job_step l (view s id) (with_row (view s id) r) -> steps_each l s s'.
Proof.
  intros Hj Hl Hr Hre Hstep id'. destruct (decide (id' = id)) as [->|Hne].
  - right. rewrite (view_row s s' id r); [done| |done..]. rewrite Hj. apply lookup_insert_eq.
  - left. apply view_eq; try done. by rewrite Hj, lookup_insert_ne.
Qed.

Lemma start_each l s s' id who claimed' :
  (forall db row, claimed' = Some (db, row) -> exists r at_ now, jobs s !! id = Some r /\ j_status r = "pending"
     /\ claim_of l = Some now /\ row = claim who at_ now r /\ db = <[id := row]> (jobs s)) ->
  start s id who claimed' = Some s' -> steps_each l s s'.
Proof.
  intros Hc. unfold start. destruct claimed' as [[db row]|]; [|done]. intros [= <-] id'.
  destruct (Hc db row eq_refl) as (r & at_ & now & Hr & Hp & Hclock & -> & ->).
  unfold view. cbn [jobs runs recorded resumed]. rewrite fmap_app. unfold of_job. rewrite filter_app, fmap_app. cbn.
  destruct (decide (id' = id)) as [->|Hne].
  - right. rewrite lookup_insert_eq, decide_True by done. cbn.
    by apply (js_claim l (view s id) r who at_ now).
  - left. rewrite lookup_insert_ne, decide_False by done. cbn. by rewrite app_nil_r.
Qed.

Lemma recover_each s k now at_ :
  steps_each (LRecover k now at_) s (with_jobs s (recover_statement (jobs s) k now at_).1).
Proof.
  intros id. pose proof (lookup_update_all (jobs s) (recover_where k now) (recover_set k at_) id) as Hl.
  destruct (jobs s !! id) as [r|] eqn:Hr; cbn in Hl.
  - destruct (recover_where k now r) eqn:Hw.
    + right. rewrite (view_row s (with_jobs s (recover_statement (jobs s) k now at_).1) id _ Hl) by done. by apply (js_recover _ _ r k now at_).
    + left. apply view_eq; [by rewrite Hr|done..].
  - left. apply view_eq; [by rewrite Hr|done..].
Qed.

(** The operator's requests. *)
Lemma change_status_cases db id from to at_ db' b :
  change_status db id from to at_ = (db', b) ->
  (b = false /\ db' = db)
  \/ (b = true /\ exists r, db !! id = Some r /\ j_status r = from
      /\ db' = <[id := if (to =s "completed") || (to =s "failed") || (to =s "cancelled")
                       then set_completed at_ (set_status to r) else set_status to r]> db).
Proof.
  intros [H|(-> & r & Hr & Hp & ->)]%update_one_cases; [by left|right]. apply String.eqb_eq in Hp. eauto 7.
Qed.

Lemma cancel_each l s id seen at_ : steps_each l s (with_jobs s (cancel_job seen (jobs s) id at_).1).
Proof.
  unfold cancel_job. destruct seen as [job|]; [|by apply same_each].
  destruct (j_status job =s "running") eqn:E1; bool_prop.
  - destruct (change_status _ _ _ _ _) as [db b] eqn:Hc.
    apply change_status_cases in Hc as [[-> ->]|(-> & r & Hr & Hs & ->)]; [by apply same_each|].
    eapply row_each; try done. cbn. apply js_request; [exact Hr|congruence|by left].
  - destruct ((j_status job =s "pending") || (j_status job =s "paused")) eqn:E2; [|by apply same_each].
    destruct (change_status _ _ _ _ _) as [db b] eqn:Hc.
    apply change_status_cases in Hc as [[-> ->]|(-> & r & Hr & Hs & ->)]; [by apply same_each|].
    eapply row_each; try done. cbn. apply js_cancel; [exact Hr|]. bool_prop. rewrite Hs.
    by destruct E2 as [E2|E2]; apply String.eqb_eq in E2; [left|right].
Qed.

Lemma pause_each l s id seen at_ : steps_each l s (with_jobs s (pause_job seen (jobs s) id at_).1).
Proof.
  unfold pause_job. destruct seen as [job|]; [|by apply same_each]. destruct (negb _); [by apply same_each|].
  destruct (change_status _ _ _ _ _) as [db b] eqn:Hc.
  apply change_status_cases in Hc as [[-> ->]|(-> & r & Hr & Hs & ->)]; [by apply same_each|].
  eapply row_each; try done. cbn. apply js_request; [exact Hr|done|by right].
Qed.

Lemma resume_each s s' id seen at_ : exec s (LResume id seen at_) = Some s' -> steps_each (LResume id seen at_) s s'.
Proof.
  cbn. unfold resume_job. destruct seen as [job|]; [|intros [= <-]; by apply same_each].
  destruct (negb _); [intros [= <-]; by apply same_each|].
  destruct (change_status _ _ _ _ _) as [db b] eqn:Hc.
  apply change_status_cases in Hc as [[-> ->]|(-> & r & Hr & Hs & ->)]; intros [= <-]; [by apply same_each|].
  intros id'. unfold view. cbn [jobs runs recorded resumed]. destruct (decide (id' = id)) as [->|Hne].
  - right. rewrite lookup_insert_eq, filter_cons_True by done. by apply (js_resume _ (view s id) r).
  - left. by rewrite lookup_insert_ne, filter_cons_False by done.
Qed.

Lemma pending_row r : is_pending r = true -> j_status r = "pending".
Proof. apply String.eqb_eq. Qed.

Lemma claim_each s s' id who at_ now : exec s (LClaim id who at_ now) = Some s' -> steps_each (LClaim id who at_ now) s s'.
Proof.
  apply start_each. unfold claim_next_job. intros db row. destruct (is_oldest (jobs s) id) eqn:Ho; [|done].
  unfold is_oldest in Ho. destruct (jobs s !! id) as [r|] eqn:Hr; [|done]. intros [= <- <-]. bool_prop.
  exists r, at_, now. split_and!; auto using pending_row.
Qed.

Lemma hold_each s s' id who at_ now : exec s (LHold id who at_ now) = Some s' -> steps_each (LHold id who at_ now) s s'.
Proof.
  apply start_each. unfold hold_job. intros db row. destruct (jobs s !! id) as [r|] eqn:Hr; [|done].
  destruct (is_pending r) eqn:Hp; [|done]. intros [= <- <-]. exists r, at_, now. split_and!; auto using pending_row.
Qed.

(** A run's writes go through the fence. *)
Lemma renew_each s s' i now : exec s (LRenew i now) = Some s' -> steps_each (LRenew i now) s s'.
Proof.
  cbn. destruct (runs s !! i) as [r|] eqn:Hi; [|done]. cbn. unfold renew_while_running.
  destruct (is_over r || h_lost (r_held r)); [done|]. unfold renew_lease.
  destruct (update_one _ _ _ _) as [db b] eqn:Hu.
  apply update_one_cases in Hu as [[-> ->]|(-> & row & Hrow & Hf & ->)]; intros [= <-].
  - apply same_each; try done. by apply (leases_insert s i r).
  - eapply row_each; try done. by eapply js_renew.
Qed.

Lemma progress_each s s' i text : exec s (LProgress i text) = Some s' -> steps_each (LProgress i text) s s'.
Proof.
  cbn. destruct (runs s !! i) as [r|] eqn:Hi; [|done]. cbn. destruct (r_phase r); try done.
  unfold update_progress, current. rewrite String.eqb_refl. destruct (h_lost (r_held r)).
  { intros [= <-]. apply same_each; try done. by apply (leases_insert s i r). }
  destruct (update_one _ _ _ _) as [db b] eqn:Hu.
  apply update_one_cases in Hu as [[-> ->]|(-> & row & Hrow & Hf & ->)]; intros [= <-].
  - apply same_each; try done. by apply (leases_insert s i r).
  - eapply row_each; try done; [by apply (leases_insert s i r)|]. by eapply js_progress.
Qed.

(** [should_stop] keeps the run's lease. *)
Lemma should_stop_lease answered db h id stop run :
  should_stop answered db (Some h) id = (stop, run) -> exists h', run = Some h' /\ h_id h' = h_id h /\ h_lease h' = h_lease h.
Proof.
  unfold should_stop, current. intros H. repeat case_match; simplify_eq; eauto.
Qed.

Lemma ask_each s s' i answered : exec s (LAsk i answered) = Some s' -> steps_each (LAsk i answered) s s'.
Proof.
  cbn. destruct (runs s !! i) as [r|] eqn:Hi; [|done]. cbn. destruct (r_phase r); try done.
  destruct (should_stop _ _ _ _) as [stop run] eqn:Hs. apply should_stop_lease in Hs as (h' & -> & Hid & Hl).
  intros [= <-]. apply same_each; try done. apply (leases_insert s i r); [done|]. unfold lease_of. cbn. congruence.
Qed.

Lemma outcome_each s s' i outcome answered : exec s (LOutcome i outcome answered) = Some s' -> steps_each (LOutcome i outcome answered) s s'.
Proof.
  cbn. destruct (runs s !! i) as [r|] eqn:Hi; [|done]. cbn. destruct (r_phase r); try done.
  destruct (should_stop _ _ _ _) as [stop run] eqn:Hs. apply should_stop_lease in Hs as (h' & -> & Hid & Hl).
  intros [= <-]. apply same_each; try done. apply (leases_insert s i r); [done|]. unfold lease_of. cbn. congruence.
Qed.

Lemma finish_each s s' i at_ answered : exec s (LFinish i at_ answered) = Some s' -> steps_each (LFinish i at_ answered) s s'.
Proof.
  cbn. destruct (runs s !! i) as [r|] eqn:Hi; [|done]. cbn. destruct (r_phase r) as [|stop outcome|]; try done.
  unfold finalize. destruct answered; [|intros [= <-]; apply same_each; try done; by apply (leases_insert s i r)].
  unfold finish. destruct (update_one _ _ _ _) as [db b] eqn:Hu.
  apply update_one_cases in Hu as [[-> ->]|(-> & row & Hrow & Hf & ->)]; intros [= <-].
  - apply same_each; try done. by apply (leases_insert s i r).
  - intros id'. unfold view. cbn [jobs runs recorded resumed]. rewrite (leases_insert s i r) by done.
    unfold of_job. rewrite filter_app, fmap_app. destruct (decide (id' = h_id (r_held r))) as [->|Hne].
    + right. rewrite lookup_insert_eq, filter_cons_True by done. cbn. by apply (js_finish _ (view s _) row).
    + left. rewrite lookup_insert_ne, filter_cons_False by done. cbn. by rewrite app_nil_r.
Qed.

Lemma create_each s s' id spec : exec s (LCreate id spec) = Some s' -> steps_each (LCreate id spec) s s'.
Proof.
  cbn. unfold create_job. destruct (jobs s !! id) eqn:Hid; intros [= <-]; [by apply same_each|].
  eapply row_each; try done. by apply js_create.
Qed.

(** Refinement: the system is, to each job, the machine of one job. *)
Lemma exec_each s l s' : exec s l = Some s' -> steps_each l s s'.
Proof.
  destruct l; eauto using create_each, claim_each, hold_each, renew_each, progress_each, ask_each, outcome_each, finish_each,
    resume_each.
  - cbn. destruct (runs s !! i) as [r|] eqn:Hi; [|done]. intros [= <-]. apply same_each; try done.
    by apply (leases_insert s i r).
  - intros [= <-]. apply cancel_each.
  - intros [= <-]. apply pause_each.
  - intros [= <-]. apply recover_each.
Qed.

Lemma exec_all_view (P : JobView -> Prop) id :
  (forall l v v', P v -> job_step l v v' -> P v') ->
  forall ls s s', P (view s id) -> exec_all s ls = Some s' -> P (view s' id).
Proof.
  intros Hstep. induction ls as [|l ls IH]; intros s s' HP; cbn; [by intros [= <-]|].
  destruct (exec s l) as [s1|] eqn:Hl; [|done]. apply IH. destruct (exec_each _ _ _ Hl id) as [->|?]; eauto.
Qed.

(** ** Invariants of one job *)

Definition terminal (status : string) : Prop := status = "completed" \/ status = "failed" \/ status = "cancelled".

Definition active (status : string) : Prop := status = "running" \/ status = "cancelling" \/ status = "pausing".

Lemma is_active_true r : is_active r = true <-> active (j_status r).
Proof. unfold is_active, is_status, active. rewrite !orb_true_iff, !String.eqb_eq. tauto. Qed.

Lemma fenced_true l r :
  fenced l r = true <-> j_claimed_by r = Some (owner l) /\ j_attempt r = attempt l /\ active (j_status r).
Proof. unfold fenced. rewrite !andb_true_iff, bool_decide_eq_true, Z.eqb_eq, is_active_true. tauto. Qed.

Lemma recover_where_active k now r : recover_where k now r = true -> active (j_status r).
Proof. unfold recover_where, is_status, active. destruct k; intros; bool_prop; auto. Qed.

(** No step of the machine starts from a row that is completed, failed or cancelled. *)
Lemma terminal_stuck l v v' r : v_row v = Some r -> terminal (j_status r) -> job_step l v v' -> False.
Proof.
  intros Hr Ht Hs. assert (Ha : active (j_status r) -> False) by (unfold active, terminal in *; intuition congruence).
  destruct Hs; simplify_eq; unfold terminal in Ht;
    try match goal with H : fenced _ _ = true |- _ => apply fenced_true in H end;
    try match goal with H : recover_where _ _ _ = true |- _ => apply recover_where_active in H end; intuition congruence.
Qed.

(** The text a recorded outcome leaves in the row. *)
Definition shows (f : Finish) (r : JobRow) : Prop :=
  match f with
  | FCompleted text => j_status r = "completed" /\ j_result r = Some text
  | FFailed error => j_status r = "failed" /\ j_error r = Some error
  | FCancelled => j_status r = "cancelled"
  | FPaused => False
  end.

Record row_inv (v : JobView) (r : JobRow) : Prop := {
  ri_attempt : j_attempt r = Z.of_nat (length (v_claims v));
  ri_owner : active (j_status r) -> exists l, last (v_claims v) = Some l /\ j_claimed_by r = Some (owner l);
  ri_outcomes : active (j_status r) -> Forall (fun o => attempt o.1 < j_attempt r) (v_outcomes v);
  ri_final : forall l f, (l, f) ∈ v_outcomes v -> f <> FPaused -> shows f r /\ last (v_claims v) = Some l;
  ri_pending : j_status r = "pending" -> j_attempt r = j_lost_leases r + Z.of_nat (v_resumed v);
  ri_running : active (j_status r) \/ j_status r = "paused" -> j_attempt r = j_lost_leases r + Z.of_nat (v_resumed v) + 1;
  ri_terminal : terminal (j_status r) -> j_attempt r <= j_lost_leases r + Z.of_nat (v_resumed v) + 1;
  ri_status : terminal (j_status r) \/ active (j_status r) \/ j_status r = "pending" \/ j_status r = "paused";
}.

Record view_inv (v : JobView) : Prop := {
  vi_claims : attempt <$> v_claims v = seqZ 1 (Z.of_nat (length (v_claims v)));
  vi_sorted : StronglySorted (fun a b => attempt a.1 < attempt b.1) (v_outcomes v);
  vi_claimed : forall l f, (l, f) ∈ v_outcomes v -> l ∈ v_claims v;
  vi_none : v_row v = None -> v_claims v = [] /\ v_outcomes v = [] /\ v_resumed v = 0%nat;
  vi_row : forall r, v_row v = Some r -> row_inv v r;
}.

Lemma shows_terminal f r : shows f r -> terminal (j_status r).
Proof. unfold terminal. destruct f; cbn; intuition. Qed.

Lemma idle_outcomes v r l f :
  row_inv v r -> ~ terminal (j_status r) -> (l, f) ∈ v_outcomes v -> f = FPaused.
Proof.
  intros Hi Ht Hin. destruct f; [..|done|]; exfalso; apply Ht;
    (eapply shows_terminal, (ri_final _ _ Hi); [exact Hin|done]).
Qed.

(** The invariant of a row with the same claims and outcomes that is in no
    terminal status before the step. *)
Lemma row_inv_idle v v' r r' :
  row_inv v r -> ~ terminal (j_status r) -> v_claims v' = v_claims v -> v_outcomes v' = v_outcomes v ->
  j_attempt r' = j_attempt r ->
  (active (j_status r') -> active (j_status r) /\ j_claimed_by r' = j_claimed_by r) ->
  (j_status r' = "pending" -> j_attempt r = j_lost_leases r' + Z.of_nat (v_resumed v')) ->
  (active (j_status r') \/ j_status r' = "paused" -> j_attempt r = j_lost_leases r' + Z.of_nat (v_resumed v') + 1) ->
  (terminal (j_status r') -> j_attempt r <= j_lost_leases r' + Z.of_nat (v_resumed v') + 1) ->
  terminal (j_status r') \/ active (j_status r') \/ j_status r' = "pending" \/ j_status r' = "paused" ->
  row_inv v' r'.
Proof.
  intros Hi Ht Hc Ho Ha Hact Hp Hr Hter Hst. split; rewrite ?Hc, ?Ho, ?Ha; try done.
  - apply Hi.
  - intros [Hr' ->]%Hact. by apply Hi.
  - intros [Hr' _]%Hact. by apply Hi.
  - intros l f Hin Hf. by rewrite (idle_outcomes v r l f Hi Ht Hin) in Hf.
Qed.

Lemma seqZ_snoc n : seqZ 1 (Z.of_nat (n + 1)) = seqZ 1 (Z.of_nat n) ++ [Z.of_nat n + 1].
Proof.
  rewrite Nat2Z.inj_add, seqZ_app by lia. f_equal. rewrite seqZ_cons, seqZ_nil by lia. f_equal. lia.
Qed.

Lemma claims_seqZ (l : list Z) n : l = seqZ 1 (Z.of_nat n) -> l ++ [Z.of_nat n + 1] = seqZ 1 (Z.of_nat (n + 1)).
Proof. intros ->. symmetry. apply seqZ_snoc. Qed.

Lemma not_terminal status :
  active status \/ status = "pending" \/ status = "paused" -> ~ terminal status.
Proof. unfold active, terminal. intuition congruence. Qed.

Ltac statuses := unfold active, terminal in *; cbn in *; intuition (try congruence; try lia).

Lemma inv_claim v r who at_ now :
  view_inv v -> v_row v = Some r -> j_status r = "pending" ->
  view_inv (claimed (with_row v (claim who at_ now r)) {| owner := who; attempt := j_attempt r + 1 |}).
Proof.
  intros [Hc Hs Hcl _ Hrow] Hr Hp. pose proof (Hrow r Hr) as Hi. pose proof (ri_attempt _ _ Hi) as Ha.
  split; cbn; [| |  |done|].
  - rewrite fmap_app, length_app. cbn. rewrite Ha. by apply claims_seqZ.
  - done.
  - intros l f Hin. apply elem_of_app. left. by eapply Hcl.
  - intros r' [= <-].
    assert (Hidle : forall l f, (l, f) ∈ v_outcomes v -> f = FPaused).
    { intros l f. apply (idle_outcomes v r); [done|]. apply not_terminal. auto. }
    pose proof (ri_pending _ _ Hi Hp) as Hpend. split; cbn.
    + rewrite length_app. cbn. lia.
    + intros _. eexists. by rewrite last_snoc.
    + intros _. apply Forall_forall. intros [l f] Hin. cbn. apply Hcl in Hin.
      apply (list_elem_of_fmap_2 attempt) in Hin. rewrite Hc, elem_of_seqZ in Hin. lia.
    + intros l f Hin Hf. by rewrite (Hidle l f Hin) in Hf.
    + done.
    + lia.
    + statuses.
    + statuses.
Qed.

Lemma last_attempt v l :
  view_inv v -> last (v_claims v) = Some l -> attempt l = Z.of_nat (length (v_claims v)).
Proof.
  intros [Hc _ _ _ _] Hl. assert (H : last (attempt <$> v_claims v) = Some (attempt l)) by (by rewrite fmap_last, Hl).
  rewrite Hc in H. destruct (length (v_claims v)) as [|n] eqn:E; [done|].
  replace (S n) with (n + 1)%nat in H by lia. rewrite seqZ_snoc, last_snoc in H. injection H as <-. lia.
Qed.

(** A run that passes the fence holds the last claim. *)
Lemma fenced_last v r l :
  view_inv v -> v_row v = Some r -> fenced l r = true -> last (v_claims v) = Some l.
Proof.
  intros Hv Hr (Hown & Hatt & Hact)%fenced_true. destruct (vi_row _ Hv r Hr) as [Ha Ho _ _ _ _ _ _].
  destruct (Ho Hact) as (l' & Hl' & Ho'). rewrite Hl'. f_equal. pose proof (last_attempt v l' Hv Hl') as Hl.
  destruct l as [o a], l' as [o' a']. cbn in *. f_equal; [congruence|lia].
Qed.

Lemma inv_finish v r l f at_ :
  view_inv v -> v_row v = Some r -> fenced l r = true ->
  view_inv (ended (with_row v (set_until None (finish_set f at_ r))) l f).
Proof.
  intros Hv Hr Hf. pose proof (fenced_last v r l Hv Hr Hf) as Hlast. pose proof (vi_row _ Hv r Hr) as Hi.
  pose proof Hf as (Hown & Hatt & Hact)%fenced_true. destruct Hv as [Hc Hs Hcl _ _].
  pose proof (ri_outcomes _ _ Hi Hact) as Hout. pose proof (ri_running _ _ Hi (or_introl Hact)) as Hrun.
  assert (Hidle : forall l f, (l, f) ∈ v_outcomes v -> f = FPaused).
  { intros l' f'. apply (idle_outcomes v r); [done|]. apply not_terminal. auto. }
  split; cbn; [done| | |done|].
  - apply StronglySorted_app_2; [|done|by repeat constructor]. intros x1 x2 Hx1 ->%list_elem_of_singleton. cbn.
    rewrite Forall_forall in Hout. specialize (Hout _ Hx1). cbn in *. lia.
  - intros l' f' [Hin|[= -> ->]%list_elem_of_singleton]%elem_of_app; [by eapply Hcl|].
    by apply last_Some_elem_of.
  - intros r' [= <-]. assert (Hna : ~ active (j_status (set_until None (finish_set f at_ r)))).
    { destruct f; statuses. }
    split; cbn.
    + rewrite <- (ri_attempt _ _ Hi). by destruct f.
    + done.
    + done.
    + intros l' f' [Hin|[= -> ->]%list_elem_of_singleton]%elem_of_app Hf'; [by rewrite (Hidle l' f' Hin) in Hf'|].
      split; [|done]. by destruct f.
    + destruct f; statuses.
    + destruct f; statuses.
    + destruct f; statuses.
    + destruct f; statuses.
Qed.

Lemma inv_row v v' r r' :
  view_inv v -> v_row v = Some r -> v_claims v' = v_claims v -> v_outcomes v' = v_outcomes v -> v_row v' = Some r' ->
  row_inv v' r' -> view_inv v'.
Proof. intros [Hc Hs Hcl _ _] _ Hc' Ho' Hr' Hi. split; rewrite ?Hc', ?Ho', ?Hr'; try done. by intros ? [= <-]. Qed.

Lemma inv_recover v r k now at_ :
  view_inv v -> v_row v = Some r -> recover_where k now r = true -> view_inv (with_row v (recover_set k at_ r)).
Proof.
  intros Hv Hr Hk. pose proof (recover_where_active k now r Hk) as Hact. pose proof (vi_row _ Hv r Hr) as Hi.
  pose proof (ri_running _ _ Hi (or_introl Hact)) as Hrun. eapply inv_row; try done.
  eapply (row_inv_idle v); try done; [apply not_terminal; auto|by destruct k|..]; destruct k; statuses.
Qed.

Lemma job_step_inv l v v' : view_inv v -> job_step l v v' -> view_inv v'.
Proof.
  intros Hv Hs. destruct Hs as [r Hn Hp Ha Hl|r who at_ now Hr Hp _|r lease now Hr Hf _|r lease text Hr Hf|r lease f at_ Hr Hf
    |r to Hr Hrun Hto|r at_ Hr Hst|r Hr Hp|r k now at_ Hr Hk _].
  - destruct Hv as [Hc Hs Hcl Hnone _]. destruct (Hnone Hn) as (Hc0 & Ho0 & Hm). split; cbn; try done.
    intros r' [= <-]. split; cbn; rewrite ?Hc0, ?Ho0, ?Hm; cbn;
      first [by intros ? ? ?%not_elem_of_nil|statuses].
  - by apply inv_claim.
  - pose proof (vi_row _ Hv r Hr) as Hi. apply fenced_true in Hf as (_ & _ & Hact).
    eapply inv_row; try done. eapply (row_inv_idle v); try done; [apply not_terminal; auto|apply Hi..].
  - pose proof (vi_row _ Hv r Hr) as Hi. apply fenced_true in Hf as (_ & _ & Hact).
    eapply inv_row; try done. eapply (row_inv_idle v); try done; [apply not_terminal; auto|apply Hi..].
  - by apply inv_finish.
  - pose proof (vi_row _ Hv r Hr) as Hi. assert (Hact : active (j_status r)) by (by left).
    pose proof (ri_running _ _ Hi (or_introl Hact)) as Hatt.
    eapply inv_row; try done. eapply (row_inv_idle v); try done; [apply not_terminal; auto|statuses..].
  - pose proof (vi_row _ Hv r Hr) as Hi. pose proof (ri_pending _ _ Hi) as Hpe. pose proof (ri_running _ _ Hi) as Hru.
    eapply inv_row; try done. eapply (row_inv_idle v); try done; [apply not_terminal; tauto|statuses..].
  - pose proof (vi_row _ Hv r Hr) as Hi. pose proof (ri_running _ _ Hi (or_intror Hp)) as Hru.
    eapply inv_row; try done. eapply (row_inv_idle v); try done; [apply not_terminal; auto|statuses..].
  - by eapply inv_recover.
Qed.

Lemma reachable_inv s id : reachable s -> view_inv (view s id).
Proof.
  intros [ls Hls]. eapply (exec_all_view view_inv id); [|..|exact Hls]; [intros l v v'; apply job_step_inv|].
  split; cbn; try done; try constructor. by intros l f H%not_elem_of_nil.
Qed.

(** ** Outcomes *)

Lemma sorted_lookup {A} (R : A -> A -> Prop) l i j x y :
  StronglySorted R l -> l !! i = Some x -> l !! j = Some y -> (i < j)%nat -> R x y.
Proof.
  intros Hs Hi Hj Hij. apply list_elem_of_split_length in Hi as (a & b & -> & ->).
  rewrite lookup_app_r, lookup_cons_ne_0 in Hj by lia. apply StronglySorted_app_1_r, StronglySorted_inv in Hs as [_ Hs].
  rewrite Forall_forall in Hs. apply Hs. by eapply list_elem_of_lookup_2.
Qed.

Lemma of_job_elem {A} id (x : A) l : (id, x) ∈ l <-> x ∈ of_job id l.
Proof.
  unfold of_job. rewrite list_elem_of_fmap. split.
  - intros H. exists (id, x). split; [done|]. by apply list_elem_of_filter.
  - intros ([id' y] & -> & H). by apply list_elem_of_filter in H as [<- H].
Qed.

Lemma terminal_view s ls s' id r :
  exec_all s ls = Some s' -> jobs s !! id = Some r -> terminal (j_status r) -> view s' id = view s id.
Proof.
  intros Hls Hr Ht. apply (exec_all_view (fun v => v = view s id) id) with (ls := ls) (s := s); [|done..].
  intros l v v' -> Hs. exfalso. exact (terminal_stuck l (view s id) v' r Hr Ht Hs).
Qed.

(** (C7) However workers, operators, recoveries and stale runs interleave, how a
    job ended is recorded once: by the run of its last claim, in its row, and
    from then on nothing happens to the job any more. *)
Theorem outcome_recorded_once (s : Sys) (id : string) (l : Lease) (f : Finish) :
  reachable s -> (id, (l, f)) ∈ recorded s -> f <> FPaused ->
  (exists r, jobs s !! id = Some r /\ shows f r)
  /\ last (v_claims (view s id)) = Some l
  /\ (forall l' f', (id, (l', f')) ∈ recorded s -> f' <> FPaused -> (l', f') = (l, f))
  /\ forall ls s', exec_all s ls = Some s' -> view s' id = view s id.
Proof.
  intros Hreach Hin Hf. pose proof (reachable_inv s id Hreach) as Hv. apply of_job_elem in Hin.
  destruct (jobs s !! id) as [r|] eqn:Hr.
  2: { destruct (vi_none _ Hv Hr) as (_ & Ho & _). cbn in Ho. rewrite Ho in Hin. by apply not_elem_of_nil in Hin. }
  pose proof (vi_row _ Hv r Hr) as Hi. destruct (ri_final _ _ Hi l f Hin Hf) as [Hshows Hlast]. split_and!; [eauto|done|..].
  - intros l' f' Hin'%of_job_elem Hf'. destruct (ri_final _ _ Hi l' f' Hin' Hf') as [_ Hlast'].
    assert (l' = l) as -> by congruence. pose proof (vi_sorted _ Hv) as Hsort. cbn in Hsort.
    apply list_elem_of_lookup in Hin as [i Hlook]. apply list_elem_of_lookup in Hin' as [j Hlook'].
    destruct (Nat.lt_trichotomy i j) as [H|[->|H]]; [exfalso|congruence|exfalso].
    + pose proof (sorted_lookup _ _ i j _ _ Hsort Hlook Hlook' H) as Hlt. cbn in Hlt. lia.
    + pose proof (sorted_lookup _ _ j i _ _ Hsort Hlook' Hlook H) as Hlt. cbn in Hlt. lia.
  - intros ls s' Hls. eapply terminal_view; [done..|]. by eapply shows_terminal.
Qed.

(** ** Stale runs *)

Lemma claims_lookup s i q :
  runs s !! i = Some q -> h_lease (r_held q) ∈ v_claims (view s (h_id (r_held q))).
Proof.
  intros Hi. apply of_job_elem. apply list_elem_of_fmap. exists q. split; [done|]. by eapply list_elem_of_lookup_2.
Qed.

Lemma claims_ordered s i j q1 q2 :
  reachable s -> runs s !! i = Some q1 -> runs s !! j = Some q2 -> (i < j)%nat -> h_id (r_held q1) = h_id (r_held q2) ->
  attempt (h_lease (r_held q1)) < attempt (h_lease (r_held q2)).
Proof.
  intros Hreach Hi Hj Hij Hid. pose proof (vi_claims _ (reachable_inv s (h_id (r_held q1)) Hreach)) as Hc.
  assert (Hsorted : StronglySorted Z.lt (attempt <$> v_claims (view s (h_id (r_held q1))))).
  { rewrite Hc. clear. generalize 1. induction (length _) as [|n IH]; intros z; [constructor|].
    rewrite Nat2Z.inj_succ, seqZ_cons, Z.pred_succ by lia. constructor; [apply IH|].
    apply Forall_forall. intros x ?%elem_of_seqZ. lia. }
  apply list_elem_of_split_length in Hi as (a & b & Hruns & Hlen). rewrite Hruns in Hj.
  rewrite lookup_app_r, lookup_cons_ne_0 in Hj by lia. apply list_elem_of_lookup_2 in Hj.
  revert Hsorted. cbn. rewrite Hruns, fmap_app, fmap_cons. unfold of_job. rewrite filter_app, fmap_app.
  rewrite filter_cons_True by done. cbn. rewrite fmap_app. intros Hs%StronglySorted_app_1_r. cbn in Hs.
  apply StronglySorted_inv in Hs as [_ Hall]. rewrite Forall_forall in Hall. apply Hall.
  apply list_elem_of_fmap_2, of_job_elem. apply list_elem_of_fmap. exists q2. split; [|done]. unfold lease_of. by rewrite Hid.
Qed.

Lemma claim_bounded s id l r :
  reachable s -> jobs s !! id = Some r -> l ∈ v_claims (view s id) -> 1 <= attempt l <= j_attempt r.
Proof.
  intros Hreach Hr Hl. pose proof (reachable_inv s id Hreach) as Hv. pose proof (ri_attempt _ _ (vi_row _ Hv r Hr)) as Ha.
  apply (list_elem_of_fmap_2 attempt) in Hl. rewrite (vi_claims _ Hv), elem_of_seqZ in Hl. lia.
Qed.

Lemma run_row s i q : reachable s -> runs s !! i = Some q -> is_Some (jobs s !! h_id (r_held q)).
Proof.
  intros Hreach Hi. apply claims_lookup in Hi. pose proof (vi_none _ (reachable_inv s (h_id (r_held q)) Hreach)) as Hn.
  destruct (jobs s !! h_id (r_held q)) eqn:E; [by eexists|]. destruct (Hn E) as [Hc _]. rewrite Hc in Hi.
  by apply not_elem_of_nil in Hi.
Qed.

Lemma stale_attempt s i j q1 q2 r :
  reachable s -> runs s !! i = Some q1 -> runs s !! j = Some q2 -> (i < j)%nat -> h_id (r_held q1) = h_id (r_held q2) ->
  jobs s !! h_id (r_held q1) = Some r -> attempt (h_lease (r_held q1)) < j_attempt r.
Proof.
  intros Hreach Hi Hj Hij Hid Hr. pose proof (claims_ordered s i j q1 q2 Hreach Hi Hj Hij Hid) as Hlt.
  apply claims_lookup in Hj. rewrite <- Hid in Hj. apply (claim_bounded s _ _ r Hreach Hr) in Hj. lia.
Qed.

(** Two runs under one lease are one run. *)
Lemma lease_unique s i j q1 q2 :
  reachable s -> runs s !! i = Some q1 -> runs s !! j = Some q2 -> lease_of q1 = lease_of q2 -> i = j.
Proof.
  intros Hreach Hi Hj [= Hid Hl]. destruct (Nat.lt_trichotomy i j) as [H|[H|H]]; [exfalso|done|exfalso].
  - pose proof (claims_ordered s i j q1 q2 Hreach Hi Hj H Hid). rewrite Hl in *. lia.
  - pose proof (claims_ordered s j i q2 q1 Hreach Hj Hi H (eq_sym Hid)). rewrite Hl in *. lia.
Qed.

(** A guard that does not hold keeps the table. *)
Lemma update_one_none db id p f r : db !! id = Some r -> p r = false -> update_one db id p f = (db, false).
Proof. unfold update_one. by intros -> ->. Qed.

(** The steps a run takes. *)
Definition takes (i : nat) (l : Label) : Prop :=
  match l with
  | LRenew k _ | LProgress k _ | LAsk k _ | LOutcome k _ _ | LFinish k _ _ => k = i
  | _ => False
  end.

(** (C8) A run whose job was claimed again changes nothing: none of its renewals,
    progress and outcomes reaches the table, its outcome is not recorded, and
    once it can read the table it is told that its lease is lost, also when both
    runs belong to one process. *)
Theorem stale_run_changes_nothing (s : Sys) (i j : nat) (q1 q2 : Run) :
  reachable s -> runs s !! i = Some q1 -> runs s !! j = Some q2 -> (i < j)%nat -> h_id (r_held q1) = h_id (r_held q2) ->
  (forall l s', takes i l -> exec s l = Some s' -> jobs s' = jobs s /\ recorded s' = recorded s)
  /\ (should_stop true (jobs s) (Some (r_held q1)) (h_id (r_held q1))).1 = Some "lost".
Proof.
  intros Hreach Hi Hj Hij Hid. destruct (run_row s i q1 Hreach Hi) as [r Hr].
  pose proof (stale_attempt s i j q1 q2 r Hreach Hi Hj Hij Hid Hr) as Hlt.
  assert (Hne : (j_attempt r =? attempt (h_lease (r_held q1))) = false) by lia.
  assert (Hf : fenced (h_lease (r_held q1)) r = false) by (unfold fenced; rewrite Hne; by rewrite andb_false_r).
  assert (Hu : forall f, update_one (jobs s) (h_id (r_held q1)) (fenced (h_lease (r_held q1))) f = (jobs s, false))
    by (intros f; by apply (update_one_none _ _ _ _ r)).
  split.
  - intros l s' Ht. destruct l; try done; cbn in Ht; subst; cbn [exec]; rewrite Hi; cbn [mbind option_bind].
    + unfold renew_while_running, renew_lease. rewrite Hu. destruct (_ || _); [done|]. by intros [= <-].
    + destruct (r_phase q1); try done. unfold update_progress, current. rewrite String.eqb_refl, Hu.
      destruct (h_lost _); by intros [= <-].
    + destruct (r_phase q1); try done. destruct (should_stop _ _ _ _). by intros [= <-].
    + destruct (r_phase q1); try done. destruct (should_stop _ _ _ _). by intros [= <-].
    + destruct (r_phase q1); try done. unfold finalize, finish. rewrite Hu. destruct answered; by intros [= <-].
  - unfold should_stop, current. rewrite String.eqb_refl. destruct (h_lost _); [done|]. rewrite Hr, Hne.
    by rewrite orb_true_r.
Qed.

(** ** Live leases *)

(** No recovery reads a clock more than a lease's length past the last renewal
    by run [i], or its claim. *)
Fixpoint in_time (i : nat) (renewed : Z) (ls : list Label) : Prop :=
  match ls with
  | [] => True
  | LRenew k now :: ls => in_time i (if (k =? i)%nat then now else renewed) ls
  | LRecover _ now _ :: ls => now <= renewed + LEASE /\ in_time i renewed ls
  | _ :: ls => in_time i renewed ls
  end.

(** Job [id] is held under [l], by the last of [claims], until [renewed + LEASE]. *)
Definition holding (l : Lease) (claims : list Lease) (renewed : Z) (v : JobView) : Prop :=
  v_claims v = claims
  /\ exists r u, v_row v = Some r /\ fenced l r = true /\ j_lease_until r = Some u /\ renewed + LEASE <= u.

Lemma fenced_status l r r' :
  fenced l r = true -> j_claimed_by r' = j_claimed_by r -> j_attempt r' = j_attempt r -> active (j_status r') ->
  fenced l r' = true.
Proof. rewrite !fenced_true. by intros (-> & -> & _) -> -> H. Qed.

(** A step of a held job keeps it held, or is its run's own end. *)
Lemma holding_step l claims renewed lb v v' :
  view_inv v -> holding l claims renewed v -> job_step lb v v' ->
  (forall k now, recovery_of lb = Some (k, now) -> now <= renewed + LEASE) ->
  (exists f, (l, f) ∈ v_outcomes v') \/ holding l claims renewed v'
  \/ is_Some (renewal_of lb).
Proof.
  intros Hv (Hc & r & u & Hr & Hf & Hu & Hle) Hs Htime. pose proof Hf as (Hown & Hatt & Hact)%fenced_true.
  destruct Hs as [r0 Hn Hp Ha Hl|r0 who at_ now Hr0 Hp _|r0 lease now Hr0 Hf0 Hk|r0 lease text Hr0 Hf0|r0 lease f at_ Hr0 Hf0
    |r0 to Hr0 Hrun Hto|r0 at_ Hr0 Hst|r0 Hr0 Hp|r0 k now at_ Hr0 Hk Hrec]; simplify_eq.
  - exfalso. statuses.
  - right; right. by eexists.
  - right; left. split; [done|]. do 2 eexists. by split_and!.
  - left. exists f. cbn. apply elem_of_app. right. apply list_elem_of_singleton. f_equal.
    pose proof (fenced_last v r lease Hv Hr Hf0) as H1. pose proof (fenced_last v r l Hv Hr Hf) as H2. congruence.
  - right; left. split; [done|]. do 2 eexists. split_and!; try done. apply (fenced_status l r); try done. statuses.
  - exfalso. statuses.
  - exfalso. statuses.
  - exfalso. specialize (Htime _ _ Hrec).
    assert (Hexp : expired now r = true) by (destruct k; cbn in Hk; bool_prop; done).
    unfold expired in Hexp. rewrite Hu in Hexp. lia.
Qed.

Lemma outcome_stays s ls s' id o :
  o ∈ v_outcomes (view s id) -> exec_all s ls = Some s' -> o ∈ v_outcomes (view s' id).
Proof.
  apply (exec_all_view (fun v => o ∈ v_outcomes v) id). intros l v v' Ho Hs. destruct Hs; try exact Ho.
  cbn. apply elem_of_app. by left.
Qed.

Lemma reachable_exec s l s' : reachable s -> exec s l = Some s' -> reachable s'.
Proof.
  intros [ls Hls] Hs. exists (ls ++ [l]). revert Hls. generalize initial. induction ls as [|k ls IH]; intros s0; cbn.
  - intros [= ->]. by rewrite Hs.
  - destruct (exec s0 k); [|done]. apply IH.
Qed.

(** A renewal by another run does not reach the job. *)
Lemma renew_other s s' i k q now l :
  reachable s -> runs s !! i = Some q -> l = h_lease (r_held q) -> last (v_claims (view s (h_id (r_held q)))) = Some l ->
  k <> i -> exec s (LRenew k now) = Some s' -> view s' (h_id (r_held q)) = view s (h_id (r_held q)).
Proof.
  intros Hreach Hi -> Hlast Hne. cbn. destruct (runs s !! k) as [p|] eqn:Hk; [|done]. cbn. unfold renew_while_running.
  destruct (_ || _); [done|]. unfold renew_lease. destruct (update_one _ _ _ _) as [db b] eqn:Hu.
  apply update_one_cases in Hu as [[-> ->]|(-> & row & Hrow & Hf & ->)]; intros [= <-].
  - apply view_eq; try done. by apply (leases_insert s k p).
  - apply view_eq; try done. cbn. destruct (decide (h_id (r_held p) = h_id (r_held q))) as [Heq|Hid];
      [|by rewrite lookup_insert_ne].
    exfalso. apply Hne, (lease_unique s k i p q Hreach Hk Hi). unfold lease_of.
    pose proof (fenced_last _ _ _ (reachable_inv s (h_id (r_held p)) Hreach) Hrow Hf) as Hl. rewrite Heq in Hl.
    f_equal; [done|congruence].
Qed.

Lemma runs_stay s l s' i q :
  exec s l = Some s' -> runs s !! i = Some q -> exists q', runs s' !! i = Some q' /\ lease_of q' = lease_of q.
Proof.
  intros Hs Hi. assert (Hleases : exists t, lease_of <$> runs s' = (lease_of <$> runs s) ++ t).
  2: { destruct Hleases as [t Ht]. assert (H : (lease_of <$> runs s') !! i = Some (lease_of q)).
       { rewrite Ht, lookup_app_l by (rewrite length_fmap; by eapply lookup_lt_Some). by rewrite list_lookup_fmap, Hi. }
       rewrite list_lookup_fmap in H. destruct (runs s' !! i) as [q'|]; [|done]. apply (inj Some) in H. eauto. }
  assert (Hsame : forall s2, s' = s2 -> lease_of <$> runs s2 = lease_of <$> runs s ->
    exists t, lease_of <$> runs s' = (lease_of <$> runs s) ++ t).
  { intros s2 -> H. exists []. by rewrite app_nil_r. }
  destruct l; cbn in Hs.
  - case_match; [case_match|]; simplify_eq; by eapply Hsame.
  - unfold start in Hs. repeat case_match; simplify_eq/=. rewrite fmap_app. by eexists.
  - unfold start in Hs. repeat case_match; simplify_eq/=. rewrite fmap_app. by eexists.
  - destruct (runs s !! i0) as [p|] eqn:Hp; [|done]. cbn in Hs. unfold renew_while_running in Hs.
    repeat case_match; simplify_eq/=; (eapply Hsame; [done|]); [done|]. by apply (leases_insert s i0 p).
  - destruct (runs s !! i0) as [p|] eqn:Hp; [|done]. cbn in Hs. destruct (r_phase p); try done.
    destruct (update_progress _ _ _ _) as [db run] eqn:Hu. simplify_eq. eapply Hsame; [done|].
    apply (leases_insert s i0 p _ Hp). unfold update_progress, current in Hu. rewrite String.eqb_refl in Hu.
    repeat case_match; by simplify_eq.
  - destruct (runs s !! i0) as [p|] eqn:Hp; [|done]. cbn in Hs. destruct (r_phase p); try done.
    destruct (should_stop _ _ _ _) as [stop run] eqn:Hst. simplify_eq. apply should_stop_lease in Hst as (h & -> & Hid & Hl).
    eapply Hsame; [done|]. apply (leases_insert s i0 p _ Hp). unfold lease_of. cbn. congruence.
  - destruct (runs s !! i0) as [p|] eqn:Hp; [|done]. cbn in Hs. destruct (r_phase p); try done.
    destruct (should_stop _ _ _ _) as [stop run] eqn:Hst. simplify_eq. apply should_stop_lease in Hst as (h & -> & Hid & Hl).
    eapply Hsame; [done|]. apply (leases_insert s i0 p _ Hp). unfold lease_of. cbn. congruence.
  - destruct (runs s !! i0) as [p|] eqn:Hp; [|done]. cbn in Hs. destruct (r_phase p); try done.
    destruct (finalize _ _ _ _ _ _ _) as [db b]. simplify_eq. eapply Hsame; [done|]. by apply (leases_insert s i0 p _ Hp).
  - destruct (runs s !! i0) as [p|] eqn:Hp; [|done]. cbn in Hs. simplify_eq. eapply Hsame; [done|].
    by apply (leases_insert s i0 p _ Hp).
  - simplify_eq. by eapply Hsame.
  - simplify_eq. by eapply Hsame.
  - destruct (resume_job _ _ _ _). simplify_eq. by eapply Hsame.
  - simplify_eq. by eapply Hsame.
Qed.

Lemma clocks_in_time i renewed lb ls :
  in_time i renewed (lb :: ls) ->
  (forall k now, recovery_of lb = Some (k, now) -> now <= renewed + LEASE)
  /\ (in_time i renewed ls \/ exists now, lb = LRenew i now /\ in_time i now ls).
Proof.
  destruct lb; cbn; intros H; split; try (by intros ? ?); try (by left); try tauto.
  - destruct (i0 =? i)%nat eqn:E; [right|by left]. apply Nat.eqb_eq in E as ->. eauto.
  - intros k0 now0 [= <- <-]. tauto.
Qed.

Lemma renew_own s s' i q now claims renewed :
  runs s !! i = Some q -> holding (h_lease (r_held q)) claims renewed (view s (h_id (r_held q))) ->
  exec s (LRenew i now) = Some s' -> holding (h_lease (r_held q)) claims now (view s' (h_id (r_held q))).
Proof.
  intros Hi (Hc & r & u & Hr & Hf & _). cbn. rewrite Hi. cbn. unfold renew_while_running. destruct (_ || _); [done|].
  cbn in Hr. unfold renew_lease, update_one. rewrite Hr, Hf. intros [= <-].
  erewrite view_row; [|apply lookup_insert_eq|done..]. split; [exact Hc|]. do 2 eexists. by split_and!.
Qed.

Lemma held_while_in_time ls : forall s s' i q renewed claims,
  reachable s -> runs s !! i = Some q -> holding (h_lease (r_held q)) claims renewed (view s (h_id (r_held q))) ->
  in_time i renewed ls -> exec_all s ls = Some s' ->
  (exists f, (h_lease (r_held q), f) ∈ v_outcomes (view s' (h_id (r_held q))))
  \/ exists t, holding (h_lease (r_held q)) claims t (view s' (h_id (r_held q))).
Proof.
  induction ls as [|lb ls IH]; intros s s' i q renewed claims Hreach Hi Hh Ht; cbn; [intros [= <-]; eauto|].
  destruct (exec s lb) as [s1|] eqn:Hs; [|done]. cbn. intros Hls.
  pose proof (reachable_exec s lb s1 Hreach Hs) as Hreach1. destruct (runs_stay s lb s1 i q Hs Hi) as (q1 & Hi1 & [= Hid Hl]).
  pose proof (clocks_in_time i renewed lb ls Ht) as [Hrec Htail].
  assert (Hnext : forall t, holding (h_lease (r_held q)) claims t (view s1 (h_id (r_held q))) -> in_time i t ls ->
    (exists f, (h_lease (r_held q), f) ∈ v_outcomes (view s' (h_id (r_held q))))
    \/ exists t, holding (h_lease (r_held q)) claims t (view s' (h_id (r_held q)))).
  { intros t. rewrite <- Hid, <- Hl. intros Hh1 Ht1. by apply (IH s1 s' i q1 t). }
  assert (Hlast : last (v_claims (view s (h_id (r_held q)))) = Some (h_lease (r_held q))).
  { destruct Hh as (_ & r & _ & Hr & Hf & _). by eapply fenced_last; [apply reachable_inv|..]. }
  destruct (renewal_of lb) as [now|] eqn:Hren.
  - destruct lb as [| | |k t0| | | | | | | | |]; try done. injection Hren as <-. destruct (decide (k = i)) as [->|Hne].
    + apply (Hnext t0); [by eapply renew_own|]. cbn in Ht. by rewrite Nat.eqb_refl in Ht.
    + apply (Hnext renewed); [by rewrite (renew_other s s1 i k q t0 (h_lease (r_held q)))|].
      cbn in Ht. by rewrite (proj2 (Nat.eqb_neq k i) Hne) in Ht.
  - assert (Ht1 : in_time i renewed ls) by (destruct Htail as [?|(now & -> & _)]; [done|by cbn in Hren]).
    destruct (exec_each _ _ _ Hs (h_id (r_held q))) as [Hsame|Hstep]; [apply (Hnext renewed); [by rewrite Hsame|done]|].
    destruct (holding_step _ _ _ _ _ _ (reachable_inv s _ Hreach) Hh Hstep Hrec) as [[f Hf]|[Hh1|[now Hr]]];
      [|by apply (Hnext renewed)|congruence].
    left. exists f. by eapply outcome_stays.
Qed.

(** (C21) A live lease keeps its job: while no recovery reads a clock more than a
    minute past the last renewal, the job is not claimed again, whatever else
    happens, until its run records an outcome. *)
Theorem live_lease_excludes (s s' : Sys) (i : nat) (q : Run) (r : JobRow) (renewed : Z) (ls : list Label) :
  reachable s -> runs s !! i = Some q -> jobs s !! h_id (r_held q) = Some r -> fenced (h_lease (r_held q)) r = true ->
  j_lease_until r = Some (renewed + LEASE) -> in_time i renewed ls -> exec_all s ls = Some s' ->
  (exists f, (h_id (r_held q), (h_lease (r_held q), f)) ∈ recorded s')
  \/ (v_claims (view s' (h_id (r_held q))) = v_claims (view s (h_id (r_held q)))
      /\ exists r', jobs s' !! h_id (r_held q) = Some r' /\ fenced (h_lease (r_held q)) r' = true).
Proof.
  intros Hreach Hi Hr Hf Hu Ht Hls.
  destruct (held_while_in_time ls s s' i q renewed (v_claims (view s (h_id (r_held q))))) as [[f Hin]|(t & Hc & r' & u & Hr' & Hf' & _)];
    try done.
  - split; [done|]. exists r, (renewed + LEASE). by split_and!.
  - left. exists f. by apply of_job_elem.
  - right. eauto.
Qed.

(** ** Lost workers *)

(** [failed] has the clocks that recoveries failed jobs by so far.  A claim or a
    renewal reads a clock that is at most a lease behind each of them, and a
    recovery, which reads its clock once, queues jobs again after its statement
    that fails those that lost too many; the recoveries of several instances may
    interleave, in any order of their clocks. *)
Fixpoint clocked (failed : list Z) (ls : list Label) : Prop :=
  match ls with
  | [] => True
  | LClaim _ _ _ now :: ls | LHold _ _ _ now :: ls | LRenew _ now :: ls =>
      Forall (fun f => f <= now + LEASE) failed /\ clocked failed ls
  | LRecover RFail now _ :: ls => clocked (now :: failed) ls
  | LRecover RQueue now _ :: ls => now ∈ failed /\ clocked failed ls
  | _ :: ls => clocked failed ls
  end.

Definition bounded (failed : list Z) (v : JobView) : Prop :=
  forall r, v_row v = Some r ->
    0 <= j_lost_leases r
    /\ (~ terminal (j_status r) -> j_lost_leases r < MAX_LOST_LEASES)
    /\ (terminal (j_status r) -> j_attempt r <= MAX_LOST_LEASES + Z.of_nat (v_resumed v))
    /\ (j_status r = "running" -> j_lost_leases r + 1 = MAX_LOST_LEASES ->
        exists u, j_lease_until r = Some u /\ Forall (fun f => f <= u) failed).

(** A row no recovery failed by [now] is not expired by [now] once it has one
    worker left to lose. *)
Lemma bounded_fail failed now at_ v :
  view_inv v -> bounded failed v ->
  bounded (now :: failed) {| v_row := (fun r => if recover_where RFail now r then recover_set RFail at_ r else r) <$> v_row v;
                 v_claims := v_claims v; v_outcomes := v_outcomes v; v_resumed := v_resumed v |}.
Proof.
  intros Hv Hb r'. cbn. destruct (v_row v) as [r|] eqn:Hr; [|done]. cbn. intros [= <-].
  destruct (Hb r Hr) as (H0 & Hlost & Hter & Hrun). pose proof (vi_row _ Hv r Hr) as Hi.
  destruct (is_status "running" r && expired now r && (MAX_LOST_LEASES <=? j_lost_leases r + 1)) eqn:Hw.
  - bool_prop. match goal with H : is_status _ _ = true |- _ => apply String.eqb_eq in H; rename H into Hst end.
    assert (Hact : active (j_status r)) by (by left). pose proof (ri_running _ _ Hi (or_introl Hact)) as Hatt.
    unfold MAX_LOST_LEASES in *. assert (j_lost_leases r < 3) by (apply Hlost, not_terminal; auto). cbn.
    split_and!; [lia| | |done]; [|lia]. intros Hn. exfalso. apply Hn. right; by left.
  - split_and!; try done. intros Hst Hl. destruct (Hrun Hst Hl) as (u & Hu & Hf). exists u. split; [done|]. constructor; [|done]. unfold is_status in Hw. rewrite Hst, Hl in Hw. cbn in Hw.
    rewrite String.eqb_refl, andb_true_r in Hw. cbn in Hw. unfold expired in Hw. rewrite Hu in Hw. lia.
Qed.

(** What the label of a step must satisfy. *)
Definition label_ok (failed : list Z) (l : Label) : Prop :=
  match l with
  | LClaim _ _ _ now | LHold _ _ _ now | LRenew _ now => Forall (fun f => f <= now + LEASE) failed
  | LRecover RQueue now _ => now ∈ failed
  | _ => True
  end.

Lemma bounded_step failed l v v' :
  view_inv v -> bounded failed v -> label_ok failed l -> (forall now, recovery_of l <> Some (RFail, now)) -> job_step l v v' -> bounded failed v'.
Proof.
  intros Hv Hb Hok Hnf Hs. pose proof (job_step_inv l v v' Hv Hs) as Hv'. pose proof (vi_row _ Hv') as Hi'.
  assert (Hter : forall r', v_row v' = Some r' -> terminal (j_status r') -> j_lost_leases r' < MAX_LOST_LEASES ->
    j_attempt r' <= MAX_LOST_LEASES + Z.of_nat (v_resumed v')).
  { intros r' Hr' Ht. pose proof (ri_terminal _ _ (Hi' r' Hr') Ht). lia. }
  intros r' Hr'. specialize (Hter r' Hr'). unfold MAX_LOST_LEASES in *.
  destruct Hs as [r Hn Hp Ha Hl|r who at_ now Hr Hp Hc|r lease now Hr Hf Hc|r lease text Hr Hf|r lease f at_ Hr Hf
    |r to Hr Hst Hto|r at_ Hr Hst|r Hr Hp|r k now at_ Hr Hk Hrec]; cbn in Hr'; injection Hr' as <-;
    try (destruct (Hb r Hr) as (H0 & Hlost & _ & Hrun)); try (apply fenced_true in Hf as (_ & _ & Hact));
    try (assert (Hl3 : j_lost_leases r < 3) by (apply Hlost, not_terminal; first [tauto|left; by left])).
  - statuses.
  - cbn. split_and!; [lia..|statuses|]. intros _ _. eexists. split; [done|]. unfold lease_until.
    by destruct l; simplify_eq/=.
  - cbn in *. split_and!; [lia..|statuses|]. intros Hs' Hl2. eexists. split; [done|]. unfold lease_until.
    by destruct l; simplify_eq/=.
  - cbn in *. split_and!; [lia..|statuses|done].
  - cbn [v_row ended with_row v_resumed] in *.
    assert (E : j_lost_leases (set_until None (finish_set f at_ r)) = j_lost_leases r) by (by destruct f).
    rewrite E in *. split_and!; [lia..|tauto|]. intros Hs'. exfalso. destruct f; cbn in Hs'; done.
  - cbn in *. split_and!; [lia..|statuses|statuses].
  - cbn in *. split_and!; [lia..|statuses|statuses].
  - cbn in *. split_and!; [lia..|statuses|statuses].
  - pose proof (recover_where_active _ _ _ Hk) as Hact. assert (Hl3 : j_lost_leases r < 3) by (apply Hlost, not_terminal; auto).
    destruct k; [..|by destruct (Hnf now)|]; cbn in *; [split_and!; [lia..|statuses|statuses]..|].
    bool_prop. match goal with H : is_status _ _ = true |- _ => apply String.eqb_eq in H; rename H into Hst end.
    split_and!; [lia| |statuses|statuses]. intros _. destruct (decide (j_lost_leases r + 1 = 3)) as [Heq|]; [|lia]. exfalso.
    destruct (Hrun Hst Heq) as (u & Hu & Hle). unfold expired in *. rewrite Hu in *.
    destruct l; simplify_eq/=. rewrite Forall_forall in Hle. specialize (Hle _ Hok). lia.
Qed.

Lemma bounded_exec failed l ls s s' :
  reachable s -> (forall id, bounded failed (view s id)) -> exec s l = Some s' -> clocked failed (l :: ls) ->
  exists failed', (forall id, bounded failed' (view s' id)) /\ clocked failed' ls.
Proof.
  intros Hreach Hb Hs Hc.
  assert (Hplain : (forall now, recovery_of l <> Some (RFail, now)) -> label_ok failed l -> clocked failed ls ->
    exists failed', (forall id, bounded failed' (view s' id)) /\ clocked failed' ls).
  { intros Hnf Hok Htail. exists failed. split; [|done]. intros id.
    destruct (exec_each _ _ _ Hs id) as [->|Hstep]; [done|]. by eapply bounded_step; [apply reachable_inv|..]. }
  destruct l as [| | | | | | | | | | | |k now at_]; cbn in Hc;
    try (apply Hplain; [by intros ?|by try apply Hc|by try apply Hc]).
  destruct k; try (apply Hplain; [by intros ?|by try apply Hc|by try apply Hc]).
  exists (now :: failed). split; [|apply Hc]. intros id. injection Hs as <-.
  pose proof (bounded_fail failed now at_ _ (reachable_inv s id Hreach) (Hb id)) as H.
  intros r Hr. apply (H r). cbn [v_row] in *. rewrite <- Hr. symmetry. apply (lookup_update_all (jobs s)).
Qed.

Lemma bounded_all ls : forall failed s s',
  reachable s -> (forall id, bounded failed (view s id)) -> exec_all s ls = Some s' -> clocked failed ls ->
  exists failed', forall id, bounded failed' (view s' id).
Proof.
  induction ls as [|l ls IH]; intros failed s s' Hreach Hb; cbn [exec_all]; [intros [= <-]; eauto|].
  destruct (exec s l) as [s1|] eqn:Hs; [|done]. intros Hls Hc.
  destruct (bounded_exec failed l ls s s1 Hreach Hb Hs Hc) as (failed1 & Hb1 & Hc1).
  apply (IH failed1 s1 s'); eauto using reachable_exec.
Qed.

(** (C35) A job cannot run for ever by losing its workers: as long as no claim or
    renewal reads a clock more than a minute behind that of an earlier recovery, a
    job is claimed at most three times, and once more for each time an operator
    resumed it, and it has lost at most two workers unless it has ended - whatever
    instances recover jobs, interleaved statement by statement. *)
Theorem lost_workers_bounded (ls : list Label) (s : Sys) (id : string) (r : JobRow) :
  exec_all initial ls = Some s -> clocked [] ls -> jobs s !! id = Some r ->
  Z.of_nat (length (v_claims (view s id))) <= MAX_LOST_LEASES + Z.of_nat (v_resumed (view s id))
  /\ (j_lost_leases r < MAX_LOST_LEASES \/ terminal (j_status r)).
Proof.
  intros Hls Hc Hr. assert (Hreach : reachable s) by (by exists ls).
  destruct (bounded_all ls [] initial s) as [failed' Hb]; try done; [by exists []|].
  destruct (Hb id r Hr) as (H0 & Hlost & Hter & _). pose proof (vi_row _ (reachable_inv s id Hreach) r Hr) as Hi.
  rewrite <- (ri_attempt _ _ Hi). unfold MAX_LOST_LEASES in *.
  pose proof (ri_pending _ _ Hi) as Hp. pose proof (ri_running _ _ Hi) as Hrun.
  assert (Hl : terminal (j_status r) \/ j_lost_leases r < 3).
  { destruct (ri_status _ _ Hi) as [?|Hst]; [by left|right]. apply Hlost, not_terminal. tauto. }
  destruct (ri_status _ _ Hi) as [Ht|Hst]; [tauto|]. assert (j_lost_leases r < 3) by (apply Hlost, not_terminal; tauto).
  split; [|tauto]. destruct Hst as [Ha|[Hs|Hs]]; [specialize (Hrun (or_introl Ha))|specialize (Hp Hs)|
    specialize (Hrun (or_intror Hs))]; lia.
Qed.

(** ** Recovery *)

(** A job whose worker stopped. *)
Definition abandoned (now : Z) (r : JobRow) : bool := is_active r && expired now r.

Definition settle (now : Z) (at_ : string) (r : JobRow) : JobRow :=
  if negb (abandoned now r) then r
  else if is_status "cancelling" r then recover_set RCancel at_ r
  else if is_status "pausing" r then recover_set RPause at_ r
  else if MAX_LOST_LEASES <=? j_lost_leases r + 1 then recover_set RFail at_ r
  else recover_set RQueue at_ r.

Lemma update_all_insert db p f id r :
  db !! id = None ->
  update_all (<[id := r]> db) p f
  = (<[id := if p r then f r else r]> (update_all db p f).1, ((if p r then 1 else 0) + (update_all db p f).2)%nat).
Proof.
  intros Hid. unfold update_all. cbn [fst snd]. rewrite fmap_insert. f_equal.
  destruct (p r) eqn:Hp.
  - rewrite map_filter_insert_True by (cbn; by rewrite Hp). apply map_size_insert_None. by apply map_lookup_filter_None_2; left.
  - rewrite map_filter_insert_False by (cbn; rewrite Hp; by intros []). by rewrite delete_id.
Qed.

(** One row through the four statements: what becomes of it, and how many of
    them count it. *)
Definition through (now : Z) (at_ : string) (r : JobRow) : JobRow * nat :=
  let once k r := (if recover_where k now r then recover_set k at_ r else r, if recover_where k now r then 1%nat else 0%nat) in
  let '(r, a) := once RCancel r in
  let '(r, b) := once RPause r in
  let '(r, c) := once RFail r in
  let '(r, d) := once RQueue r in
  (r, a + b + c + d)%nat.

Lemma where_inactive k now r : is_active r = false -> recover_where k now r = false.
Proof.
  intros Ha. destruct (recover_where k now r) eqn:E; [|done]. apply recover_where_active, is_active_true in E. congruence.
Qed.

Lemma where_abandoned k now r : recover_where k now r = true -> abandoned now r = true.
Proof.
  intros H. unfold abandoned. rewrite (proj2 (is_active_true r)) by (by eapply recover_where_active).
  destruct k; cbn in H; bool_prop; done.
Qed.

Lemma settled_inactive k at_ r : is_active (recover_set k at_ r) = false.
Proof. by destruct k. Qed.

(** The statement that settles an abandoned job. *)
Definition settled_by (r : JobRow) : Recovery :=
  if is_status "cancelling" r then RCancel
  else if is_status "pausing" r then RPause
  else if MAX_LOST_LEASES <=? j_lost_leases r + 1 then RFail else RQueue.

Lemma settle_set now at_ r : abandoned now r = true -> settle now at_ r = recover_set (settled_by r) at_ r.
Proof. intros Ha. unfold settle, settled_by. rewrite Ha. cbn. by repeat case_match. Qed.

Lemma where_settled now r :
  abandoned now r = true ->
  recover_where (settled_by r) now r = true
  /\ (settled_by r = RPause -> recover_where RCancel now r = false)
  /\ (settled_by r = RFail -> recover_where RCancel now r = false /\ recover_where RPause now r = false)
  /\ (settled_by r = RQueue -> recover_where RCancel now r = false /\ recover_where RPause now r = false
        /\ recover_where RFail now r = false).
Proof.
  unfold abandoned, is_active, settled_by. intros Ha. bool_prop.
  destruct (is_status "cancelling" r) eqn:E1; [cbn; by rewrite E1|].
  destruct (is_status "pausing" r) eqn:E2; [cbn; by rewrite E1, E2|].
  assert (E3 : is_status "running" r = true) by (by destruct (is_status "running" r); [|destruct H]).
  destruct (MAX_LOST_LEASES <=? j_lost_leases r + 1) eqn:E4; cbn; rewrite E1, E2, E3, ?E4; cbn.
  all: split_and!; try done; by rewrite ?andb_true_r, ?andb_false_r.
Qed.

Lemma through_settle now at_ r :
  through now at_ r = (settle now at_ r, if abandoned now r then 1%nat else 0%nat).
Proof.
  cbv beta iota zeta delta [through]. destruct (abandoned now r) eqn:Ha.
  2: { assert (Hno : forall k, recover_where k now r = false).
       { intros k. destruct (recover_where k now r) eqn:E; [|done]. apply where_abandoned in E. congruence. }
       unfold settle. rewrite Ha. cbn [negb]. by rewrite !Hno. }
  assert (Hdone : forall k k', recover_where k now (recover_set k' at_ r) = false).
  { intros k k'. apply where_inactive, settled_inactive. }
  rewrite settle_set by done. destruct (where_settled now r Ha) as (Hw & H2 & H3 & H4).
  destruct (settled_by r); [|pose proof (H2 eq_refl)|destruct (H3 eq_refl)|destruct (H4 eq_refl) as (? & ? & ?)].
  all: repeat match goal with H : recover_where _ _ _ = _ |- _ => rewrite H; clear H end; by rewrite ?Hdone.
Qed.

Lemma recover_insert db now at_ id r :
  db !! id = None ->
  recover_expired_jobs (<[id := r]> db) now at_
  = (<[id := (through now at_ r).1]> (recover_expired_jobs db now at_).1,
     ((through now at_ r).2 + (recover_expired_jobs db now at_).2)%nat).
Proof.
  intros Hid. unfold recover_expired_jobs, recover_statement, through.
  assert (Hstep : forall db k, db !! id = None -> (update_all db (recover_where k now) (recover_set k at_)).1 !! id = None).
  { intros db' k H. rewrite lookup_update_all, H. done. }
  rewrite update_all_insert by done. destruct (update_all db _ _) as [db1 a] eqn:E1. cbn [fst snd].
  assert (H1 : db1 !! id = None) by (change db1 with (db1, a).1; rewrite <- E1; by apply Hstep).
  rewrite update_all_insert by done. destruct (update_all db1 _ _) as [db2 b] eqn:E2. cbn [fst snd].
  assert (H2 : db2 !! id = None) by (change db2 with (db2, b).1; rewrite <- E2; by apply Hstep).
  rewrite update_all_insert by done. destruct (update_all db2 _ _) as [db3 c] eqn:E3. cbn [fst snd].
  assert (H3 : db3 !! id = None) by (change db3 with (db3, c).1; rewrite <- E3; by apply Hstep).
  rewrite update_all_insert by done. destruct (update_all db3 _ _) as [db4 d] eqn:E4. cbn [fst snd]. f_equal. lia.
Qed.

Lemma settle_done now at_ r : abandoned now (settle now at_ r) = false.
Proof.
  unfold settle. destruct (abandoned now r) eqn:E; [|done]. cbn. unfold abandoned, is_active, is_status.
  destruct (j_status r =s "cancelling"); [done|]. destruct (j_status r =s "pausing"); [done|].
  by destruct (MAX_LOST_LEASES <=? _).
Qed.

(** A recovery settles exactly the jobs whose lease ran out: a cancelling one
    is cancelled, a pausing one paused, a running one fails when it has lost its
    third worker and is queued again before that, each released; every other row
    stays as it is; the answer counts the settled jobs; and no abandoned job is
    left. *)
Theorem recover_exact (db : JobDb) (now : Z) (at_ : string) :
  (forall id, (recover_expired_jobs db now at_).1 !! id = settle now at_ <$> db !! id)
  /\ (recover_expired_jobs db now at_).2 = size (filter (fun kr : string * JobRow => Is_true (abandoned now kr.2)) db)
  /\ forall id r, (recover_expired_jobs db now at_).1 !! id = Some r -> abandoned now r = false.
Proof.
  assert (H : (forall id, (recover_expired_jobs db now at_).1 !! id = settle now at_ <$> db !! id)
    /\ (recover_expired_jobs db now at_).2 = (update_all db (abandoned now) id).2).
  { induction db as [|id r db Hid [IH1 IH2]] using map_ind; [split; [intros id; by rewrite !lookup_empty|done]|].
    rewrite recover_insert, through_settle, update_all_insert by done. cbn [fst snd]. split; [|by rewrite IH2].
    intros id'. destruct (decide (id' = id)) as [->|Hne]; [by rewrite !lookup_insert_eq|by rewrite !lookup_insert_ne]. }
  destruct H as [H1 H2]. split_and!; [done..|]. intros id r. rewrite H1. destruct (db !! id) as [r0|]; [|done].
  cbn. intros [= <-]. apply settle_done.
Qed.

(** ** A job that changes hands *)

Module Night.

Definition spec : JobSpec :=
  {| s_type := "nightly.report"; s_input := "{}"; s_created_by := "did:plc:op"; s_created_at := "2026-01-01T00:00:00+00:00";
     s_inherit_auth := false; s_api_client_id := None; s_dpop_key_id := None |}.

Definition after (ls : list Label) : Sys := default initial (exec_all initial ls).

(** Worker [a] stops, and [b] takes the job over. *)
Definition taken : list Label :=
  [LCreate "j1" spec; LClaim "j1" "a" "t0" 0; LRecover RFail 60001 "t1"; LRecover RQueue 60001 "t1"; LClaim "j1" "b" "t1" 60002].

Definition finished : list Label := taken ++ [LOutcome 1 (OCompleted "42") true; LFinish 1 "t2" true].

Definition run (i : nat) (who : string) (n : Z) : Run :=
  {| r_held := {| h_id := "j1"; h_lease := {| owner := who; attempt := n |}; h_lost := false |}; r_phase := Working |}.

(** What happens while [b] renews in time. *)
Definition meanwhile : list Label :=
  [LProgress 0 "stale"; LProgress 1 "half"; LRecover RQueue 110000 "t3"; LRenew 1 115000; LRecover RQueue 170000 "t4"].

End Night.

Lemma outcome_recorded_once_witness :
  exists r, jobs (Night.after Night.finished) !! "j1" = Some r /\ shows (FCompleted "42") r.
Proof.
  apply (outcome_recorded_once (Night.after Night.finished) "j1" {| owner := "b"; attempt := 2 |} (FCompleted "42")).
  - exists Night.finished. vm_compute. reflexivity.
  - vm_compute. left.
  - done.
Defined.

Lemma stale_run_changes_nothing_witness :
  (should_stop true (jobs (Night.after Night.taken)) (Some (r_held (Night.run 0 "a" 1))) "j1").1 = Some "lost".
Proof.
  apply (stale_run_changes_nothing (Night.after Night.taken) 0 1 (Night.run 0 "a" 1) (Night.run 1 "b" 2)).
  - exists Night.taken. vm_compute. reflexivity.
  - vm_compute. reflexivity.
  - vm_compute. reflexivity.
  - lia.
  - reflexivity.
Defined.

Lemma live_lease_excludes_witness :
  let s' := default initial (exec_all (Night.after Night.taken) Night.meanwhile) in
  (exists f, ("j1", ({| owner := "b"; attempt := 2 |}, f)) ∈ recorded s')
  \/ (v_claims (view s' "j1") = v_claims (view (Night.after Night.taken) "j1")
      /\ exists r', jobs s' !! "j1" = Some r' /\ fenced {| owner := "b"; attempt := 2 |} r' = true).
Proof.
  intros s'. refine (live_lease_excludes (Night.after Night.taken) s' 1 (Night.run 1 "b" 2) _ 60002 Night.meanwhile _ _ _ _ _ _ _).
  - exists Night.taken. vm_compute. reflexivity.
  - vm_compute. reflexivity.
  - vm_compute. reflexivity.
  - vm_compute. reflexivity.
  - vm_compute. reflexivity.
  - repeat first [progress cbn|split|constructor|unfold LEASE; lia].
  - vm_compute. reflexivity.
Defined.

Lemma lost_workers_bounded_witness :
  exists r, jobs (Night.after Night.taken) !! "j1" = Some r
    /\ (Z.of_nat (length (v_claims (view (Night.after Night.taken) "j1"))) <= 3
        /\ (j_lost_leases r < MAX_LOST_LEASES \/ terminal (j_status r))).
Proof.
  eexists. split; [vm_compute; reflexivity|].
  refine (lost_workers_bounded Night.taken (Night.after Night.taken) "j1" _ _ _ _).
  - vm_compute. reflexivity.
  - repeat first [progress cbn|split|constructor|unfold LEASE; lia].
  - vm_compute. reflexivity.
Defined.
