(* ===== verification/Outbound.v ===== *)
(** * Which addresses an outbound connection may reach

    [src/outbound.rs]: the screening of outbound connections.  Addresses are
    their octets and segments.  A policy is shared by the clients that use it and
    learns addresses as names resolve, so policies live in a store and an [Arc]
    is an index into it; the two global cells hold such indexes.  The crate
    [url], the resolver and the sockets are parameters.  A poisoned lock, which
    only a panic while it is held leaves behind, is not modelled. *)

From stdpp Require Import gmap strings countable.
From Stdlib Require Import ZArith Lia.
From S2P Require Import Prelude RustStr Words.
#[local] Open Scope Z_scope.

(** ** Addresses *)

(** [Ipv4Addr::octets] and [Ipv6Addr::segments]. *)
Inductive IpAddr : Type :=
| V4 (octets : Z * Z * Z * Z)
| V6 (segments : Z * Z * Z * Z * Z * Z * Z * Z).

#[export] Instance IpAddr_eq_dec : EqDecision IpAddr.
Proof. solve_decision. Defined.

#[export] Instance IpAddr_countable : Countable IpAddr.
Proof.
  refine (inj_countable' (fun ip => match ip with V4 o => inl o | V6 s => inr s end)
    (fun x => match x with inl o => V4 o | inr s => V6 s end) _).
  by intros [].
Defined.

Record SocketAddr : Type := { sa_ip : IpAddr; sa_port : Z }.

(** [(hi >> 8) as u8, hi as u8] and the same of [lo]. *)
Definition embedded_v4 (hi lo : Z) : Z * Z * Z * Z :=
  (wrap8 (Z.shiftr hi 8), wrap8 hi, wrap8 (Z.shiftr lo 8), wrap8 lo).

(** [Ipv6Addr::to_ipv4_mapped]: [::ffff:a.b.c.d]. *)
Definition to_ipv4_mapped (s : Z * Z * Z * Z * Z * Z * Z * Z) : option (Z * Z * Z * Z) :=
  let '(s0, s1, s2, s3, s4, s5, s6, s7) := s in
  if (s0 =? 0) && (s1 =? 0) && (s2 =? 0) && (s3 =? 0) && (s4 =? 0) && (s5 =? 0xffff)
  then Some (embedded_v4 s6 s7) else None.

Definition canonical (ip : IpAddr) : IpAddr :=
  match ip with
  | V6 s => match to_ipv4_mapped s with Some v4 => V4 v4 | None => ip end
  | V4 _ => ip
  end.

Definition is_public_v4 (ip : Z * Z * Z * Z) : bool :=
  let '(a, b, c, _) := ip in
  negb ((a =? 0)
    || (a =? 10)
    || (a =? 127)
    || (a =? 100) && ((64 <=? b) && (b <? 128))
    || (a =? 169) && (b =? 254)
    || (a =? 172) && ((16 <=? b) && (b <? 32))
    || (a =? 192) && (b =? 0) && (c =? 0)
    || (a =? 192) && (b =? 0) && (c =? 2)
    || (a =? 192) && (b =? 168)
    || (a =? 198) && ((b =? 18) || (b =? 19))
    || (a =? 198) && (b =? 51) && (c =? 100)
    || (a =? 203) && (b =? 0) && (c =? 113)
    || (224 <=? a)).

Definition is_public_v6 (ip : Z * Z * Z * Z * Z * Z * Z * Z) : bool :=
  let '(s0, s1, s2, s3, s4, s5, s6, s7) := ip in
  if (s0 =? 0x0064) && (s1 =? 0xff9b) && ((s2 =? 0) && (s3 =? 0) && (s4 =? 0) && (s5 =? 0))
  then is_public_v4 (embedded_v4 s6 s7)
  else if s0 =? 0x2002 then is_public_v4 (embedded_v4 s1 s2)
  else if negb (Z.land s0 0xe000 =? 0x2000) then false
  else
    negb ((s0 =? 0x2001) && (s1 =? 0)
      || (s0 =? 0x2001) && (s1 =? 0x0002) && (s2 =? 0)
      || (s0 =? 0x2001) && (Z.land s1 0xfff0 =? 0x0010)
      || (s0 =? 0x2001) && (Z.land s1 0xfff0 =? 0x0020)
      || (s0 =? 0x2001) && (s1 =? 0x0db8)
      || (Z.land s0 0xfff0 =? 0x3ff0)).

Definition is_public (ip : IpAddr) : bool :=
  match canonical ip with V4 v4 => is_public_v4 v4 | V6 v6 => is_public_v6 v6 end.

(** ** Policies *)

Inductive Ports : Type := PAny | POnly (ports : gset Z).

Definition ports_allows (p : Ports) (port : Z) : bool :=
  match p with PAny => true | POnly ports => bool_decide (port ∈ ports) end.

Definition ports_merge (mine theirs : Ports) : Ports :=
  match mine, theirs with
  | PAny, _ => PAny
  | _, PAny => PAny
  | POnly mine, POnly theirs => POnly (mine ∪ theirs)
  end.

Definition merge_into `{Countable K} (map : gmap K Ports) (key : K) (ports : Ports) : gmap K Ports :=
  <[key := match map !! key with Some p => ports_merge p ports | None => ports end]> map.

Record Policy : Type := { trusted_names : gmap string Ports; trusted_addrs : gmap IpAddr Ports }.

(** What the source asks of the crate [url]. *)
Inductive Host : Type := HDomain (name : string) | HIpv4 (ip : Z * Z * Z * Z) | HIpv6 (ip : Z * Z * Z * Z * Z * Z * Z * Z).

Class UrlCrate : Type := {
  Url : Type;
  url_parse : string -> option Url;
  host : Url -> option Host;
  port : Url -> option Z;
  port_or_known_default : Url -> option Z;
}.

(** [trim_end_matches('.')] *)
Fixpoint trim_dots (s : string) : string :=
  match s with
  | EmptyString => EmptyString
  | String c s' => let rest := trim_dots s' in
      if (c =c ".") && (rest =s "") then EmptyString else String c rest
  end.

Definition name_key (name : string) : string := to_ascii_lowercase (trim_dots name).

Section Policies.
Context `{U : UrlCrate}.

Definition only (port : Z) : Ports := POnly {[port]}.

Definition ports_of (p : option Z) : Ports := match p with Some p => only p | None => PAny end.

(** [url_host] *)
Definition url_host (raw : string) : option (Host * Ports) :=
  let raw := trim raw in
  if raw =s "" then None
  else
    let bare := u ← url_parse ("http://" +:+ raw); h ← host u; Some (h, ports_of (port u)) in
    match url_parse raw with
    | Some u =>
        match host u with
        | Some h => Some (h, ports_of (port_or_known_default u))
        | None => bare
        end
    | None => bare
    end.

(** One URL of [Policy::trusting]. *)
Definition trust (p : Policy) (raw : string) : Policy :=
  match url_host raw with
  | None => p
  | Some (HIpv4 v4, ports) =>
      {| trusted_names := trusted_names p; trusted_addrs := merge_into (trusted_addrs p) (canonical (V4 v4)) ports |}
  | Some (HIpv6 v6, ports) =>
      {| trusted_names := trusted_names p; trusted_addrs := merge_into (trusted_addrs p) (canonical (V6 v6)) ports |}
  | Some (HDomain name, ports) =>
      {| trusted_names := merge_into (trusted_names p) (name_key name) ports; trusted_addrs := trusted_addrs p |}
  end.

Definition trusting (urls : list string) : Policy :=
  fold_left trust urls {| trusted_names := ∅; trusted_addrs := ∅ |}.

Definition name_ports (p : Policy) (name : string) : option Ports := trusted_names p !! name_key name.

Definition admits (p : Policy) (ip : IpAddr) (port : Z) : bool :=
  is_public ip || match trusted_addrs p !! canonical ip with Some ports => ports_allows ports port | None => false end.

Definition admits_on_some_port (p : Policy) (ip : IpAddr) : bool :=
  is_public ip || bool_decide (is_Some (trusted_addrs p !! canonical ip)).

(** ** The installed policies *)

(** The store of policies, and the cells [POLICY] and [PLUGIN_POLICY]. *)
Record Installed : Type := {
  policies : list Policy;
  POLICY : option nat;
  PLUGIN_POLICY : option nat;
}.

Definition install_with_plugins (w : Installed) (policy : Policy) (plugins : option Policy) : Installed :=
  match POLICY w with
  | Some _ => w
  | None =>
      let at_ := length (policies w) in
      match plugins with
      | None =>
          {| policies := policies w ++ [policy]; POLICY := Some at_;
             PLUGIN_POLICY := match PLUGIN_POLICY w with Some i => Some i | None => Some at_ end |}
      | Some p =>
          {| policies := policies w ++ [policy; p]; POLICY := Some at_;
             PLUGIN_POLICY := match PLUGIN_POLICY w with Some i => Some i | None => Some (S at_) end |}
      end
  end.

Definition install (w : Installed) (policy : Policy) : Installed := install_with_plugins w policy None.

Inductive Source : Type := SInstalled | SPlugins | SFixed (policy : nat).

Definition source_policy (w : Installed) (s : Source) : option nat :=
  match s with SInstalled => POLICY w | SPlugins => PLUGIN_POLICY w | SFixed i => Some i end.

(** [private_hosts] *)
Definition private_hosts (raw : option string) : list string :=
  filter (fun h => h <> "") (trim <$> str_split "," (default "" raw)).

(** [private_destinations_allowed]; [env] reads the process environment. *)
Definition private_destinations_allowed (env : string -> option string) (dev : bool) : bool :=
  let allow := match env "ALLOW_PRIVATE_DESTINATIONS" with
               | Some v => let v := to_ascii_lowercase (trim v) in (v =s "1") || (v =s "true") || (v =s "yes")
               | None => false
               end in
  let local_network := match env "HAPPYVIEW_NETWORK" with Some v => trim v =s "local" | None => false end in
  allow || dev && local_network.

(** The settings the policy reads. *)
Record Config : Type := {
  plc_url : string; relay_url : string; jetstream_url : string; telemetry_collector_url : string;
  default_plugins : list string;
}.

(** The URLs [install_for] trusts; [var] is [config::vars::var]. *)
Definition configured_urls (config : Config) (var env : string -> option string) : list string :=
  [plc_url config; relay_url config; jetstream_url config; telemetry_collector_url config]
  ++ default_plugins config
  ++ concat (List.map (fun name => match var name with Some v => str_split "," v | None => [] end)
       ["PLUGIN_REGISTRY_URL"; "PLUGIN_URLS"])
  ++ omap env ["HTTPS_PROXY"; "https_proxy"; "HTTP_PROXY"; "http_proxy"; "ALL_PROXY"; "all_proxy"].

Definition install_for (w : Installed) (config : Config) (var env : string -> option string) (dev : bool) : Installed :=
  if private_destinations_allowed env dev then w
  else
    let urls := configured_urls config var env in
    let private := private_hosts (env "ALLOW_PRIVATE_HOSTS") in
    install_with_plugins w (trusting urls)
      (match private with [] => None | _ => Some (trusting (urls ++ private)) end).

(** ** Connections *)

Definition refusal (message : string) : string := "refusing outbound connection: " +:+ message.

(** The addresses a trusted name resolves to become trusted. *)
Definition learn (p : Policy) (ports : Ports) (addrs : list SocketAddr) : Policy :=
  {| trusted_names := trusted_names p;
     trusted_addrs := fold_left (fun m a => merge_into m (canonical (sa_ip a)) ports) addrs (trusted_addrs p) |}.

Definition with_policy (w : Installed) (i : nat) (p : Policy) : Installed :=
  {| policies := <[i := p]> (policies w); POLICY := POLICY w; PLUGIN_POLICY := PLUGIN_POLICY w |}.

Definition screen (w : Installed) (source : Source) (name : string) (addrs : list SocketAddr)
    : Installed * result (list SocketAddr) string :=
  match i ← source_policy w source; p ← policies w !! i; Some (i, p) with
  | None => (w, Ok addrs)
  | Some (i, p) =>
      match name_ports p name with
      | Some ports => (with_policy w i (learn p ports addrs), Ok addrs)
      | None =>
          match filter (fun a => Is_true (admits_on_some_port p (sa_ip a))) addrs with
          | [] => (w, Err (refusal (name +:+ " resolves to no public address")))
          | public => (w, Ok public)
          end
      end
  end.

Definition check_peer (ip_text : IpAddr -> string) (w : Installed) (source : Source) (peer : option SocketAddr)
    : result unit string :=
  match i ← source_policy w source; policies w !! i with
  | None => Ok tt
  | Some p =>
      match peer with
      | Some a =>
          if admits p (sa_ip a) (sa_port a) then Ok tt
          else Err (refusal (ip_text (sa_ip a) +:+ " is not a public address"))
      | None => Err (refusal "the peer address could not be read")
      end
  end.

Definition redirect_allowed (w : Installed) (source : Source) (url : Url) : bool :=
  match i ← source_policy w source; policies w !! i with
  | None => true
  | Some p =>
      let port := default 0 (port_or_known_default url) in
      match host url with
      | Some (HIpv4 v4) => admits p (V4 v4) port
      | Some (HIpv6 v6) => admits p (V6 v6) port
      | _ => true
      end
  end.

(** The redirect policy [screened] gives a client that follows at most [max]
    redirects, [previous] of them followed so far; [host_text] is [host_str]. *)
Definition redirect (host_text : Url -> string) (max_text : string) (w : Installed) (source : Source) (max previous : nat)
    (url : Url) : result unit string :=
  if (max <=? previous)%nat then Err ("too many redirects (more than " +:+ max_text +:+ ")")
  else if negb (redirect_allowed w source url)
  then Err ("refusing redirect to " +:+ host_text url +:+ ": not a public address")
  else Ok tt.

(** [trim_start_matches('[')] and [trim_end_matches(']')] *)
Fixpoint trim_open (s : string) : string :=
  match s with String c s' => if c =c "[" then trim_open s' else s | EmptyString => EmptyString end.

Fixpoint trim_close (s : string) : string :=
  match s with
  | EmptyString => EmptyString
  | String c s' => let rest := trim_close s' in
      if (c =c "]") && (rest =s "") then EmptyString else String c rest
  end.

(** The loop of [connect_tcp]: [connect] answers the peer of the socket, as far
    as it can be read, or an error. *)
Fixpoint connect_first (ip_text : IpAddr -> string) (w : Installed) (source : Source)
    (connect : SocketAddr -> result (option SocketAddr) string) (addrs : list SocketAddr) (last : option string)
    (none : string) : result (option SocketAddr) string :=
  match addrs with
  | [] => Err (default none last)
  | a :: rest =>
      match connect a with
      | Ok peer => let? _ := check_peer ip_text w source peer in Ok peer
      | Err e => connect_first ip_text w source connect rest (Some e) none
      end
  end.

Definition connect_tcp (ip_text : IpAddr -> string) (parse_ip : string -> option IpAddr)
    (lookup_host : string -> Z -> result (list SocketAddr) string)
    (connect : SocketAddr -> result (option SocketAddr) string)
    (w : Installed) (source : Source) (name : string) (port : Z) : Installed * result (option SocketAddr) string :=
  let bare := trim_close (trim_open name) in
  match (match parse_ip bare with Some ip => Ok [{| sa_ip := ip; sa_port := port |}] | None => lookup_host bare port end) with
  | Err e => (w, Err e)
  | Ok addrs =>
      match screen w source bare addrs with
      | (w, Err e) => (w, Err e)
      | (w, Ok addrs) => (w, connect_first ip_text w source connect addrs None (name +:+ " has no addresses"))
      end
  end.

End Policies.

(** ** Address blocks *)

Definition v4_num (ip : Z * Z * Z * Z) : Z := let '(a, b, c, d) := ip in ((a * 256 + b) * 256 + c) * 256 + d.

Definition v6_num (ip : Z * Z * Z * Z * Z * Z * Z * Z) : Z :=
  let '(s0, s1, s2, s3, s4, s5, s6, s7) := ip in
  ((((((s0 * 65536 + s1) * 65536 + s2) * 65536 + s3) * 65536 + s4) * 65536 + s5) * 65536 + s6) * 65536 + s7.

(** Whether the [width]-bit address [n] is in the block [base/len]. *)
Definition in_block (width n : Z) (block : Z * Z) : bool :=
  n / 2 ^ (width - block.2) =? block.1 / 2 ^ (width - block.2).

Definition v4_blocks : list (Z * Z) :=
  (fun b => (v4_num b.1, b.2)) <$>
  [((0, 0, 0, 0), 8); ((10, 0, 0, 0), 8); ((127, 0, 0, 0), 8); ((100, 64, 0, 0), 10); ((169, 254, 0, 0), 16);
   ((172, 16, 0, 0), 12); ((192, 0, 0, 0), 24); ((192, 0, 2, 0), 24); ((192, 168, 0, 0), 16); ((198, 18, 0, 0), 15);
   ((198, 51, 100, 0), 24); ((203, 0, 113, 0), 24); ((224, 0, 0, 0), 3)].

Definition public_v4 (n : Z) : bool := negb (existsb (in_block 32 n) v4_blocks).

Definition mapped : Z * Z := (v6_num (0, 0, 0, 0, 0, 0xffff, 0, 0), 96).
Definition nat64 : Z * Z := (v6_num (0x64, 0xff9b, 0, 0, 0, 0, 0, 0), 96).
Definition sixtofour : Z * Z := (v6_num (0x2002, 0, 0, 0, 0, 0, 0, 0), 16).
Definition global_unicast : Z * Z := (v6_num (0x2000, 0, 0, 0, 0, 0, 0, 0), 3).

Definition v6_blocks : list (Z * Z) :=
  (fun b => (v6_num b.1, b.2)) <$>
  [((0x2001, 0, 0, 0, 0, 0, 0, 0), 32); ((0x2001, 2, 0, 0, 0, 0, 0, 0), 48); ((0x2001, 0x10, 0, 0, 0, 0, 0, 0), 28);
   ((0x2001, 0x20, 0, 0, 0, 0, 0, 0), 28); ((0x2001, 0xdb8, 0, 0, 0, 0, 0, 0), 32); ((0x3ff0, 0, 0, 0, 0, 0, 0, 0), 12)].

(** The specification: blocks of addresses, and the IPv4 address a mapped, NAT64
    or 6to4 address carries. *)
Definition public_v6 (n : Z) : bool :=
  if in_block 128 n mapped then public_v4 (n mod 2 ^ 32)
  else if in_block 128 n nat64 then public_v4 (n mod 2 ^ 32)
  else if in_block 128 n sixtofour then public_v4 (n / 2 ^ 80 mod 2 ^ 32)
  else in_block 128 n global_unicast && negb (existsb (in_block 128 n) v6_blocks).

Definition byte_ip (ip : Z * Z * Z * Z) : Prop :=
  let '(a, b, c, d) := ip in is_byte a /\ is_byte b /\ is_byte c /\ is_byte d.

Definition is_segment (s : Z) : Prop := 0 <= s < 65536.

Definition segment_ip (ip : Z * Z * Z * Z * Z * Z * Z * Z) : Prop :=
  let '(s0, s1, s2, s3, s4, s5, s6, s7) := ip in
  is_segment s0 /\ is_segment s1 /\ is_segment s2 /\ is_segment s3 /\ is_segment s4 /\ is_segment s5 /\ is_segment s6
  /\ is_segment s7.

(** Reading an address in blocks. *)
Lemma div_pow a m r : 0 < m -> 0 <= r < m -> (a * m + r) / m = a.
Proof. intros Hm Hr. rewrite Z.div_add_l by lia. rewrite Z.div_small by lia. lia. Qed.

Lemma in_block_eq width n base len q b :
  n / 2 ^ (width - len) = q -> base / 2 ^ (width - len) = b -> in_block width n (base, len) = (q =? b).
Proof. unfold in_block. cbn. by intros -> ->. Qed.

Section V4.
Context (a b c d : Z).
Hypothesis Hip : byte_ip (a, b, c, d).
Abbreviation n := (v4_num (a, b, c, d)).

Lemma v4_8 : n / 2 ^ 24 = a.
Proof. destruct Hip as (Ha & Hb & Hc & Hd). unfold v4_num, is_byte in *.
  replace (((a * 256 + b) * 256 + c) * 256 + d) with (a * 2 ^ 24 + ((b * 256 + c) * 256 + d)) by lia. apply div_pow; lia. Qed.

Lemma v4_16 : n / 2 ^ 16 = a * 256 + b.
Proof. destruct Hip as (Ha & Hb & Hc & Hd). unfold v4_num, is_byte in *.
  replace (((a * 256 + b) * 256 + c) * 256 + d) with ((a * 256 + b) * 2 ^ 16 + (c * 256 + d)) by lia. apply div_pow; lia. Qed.

Lemma v4_24 : n / 2 ^ 8 = (a * 256 + b) * 256 + c.
Proof. destruct Hip as (Ha & Hb & Hc & Hd). unfold v4_num, is_byte in *. apply div_pow; lia. Qed.

(** A shorter prefix, through a longer one. *)
Lemma v4_prefix k m : 0 <= k -> 0 <= m -> n / 2 ^ (k + m) = n / 2 ^ k / 2 ^ m.
Proof. intros. rewrite Z.pow_add_r, Z.div_div by lia. done. Qed.

Lemma is_public_v4_blocks : is_public_v4 (a, b, c, d) = public_v4 n.
Proof.
  destruct Hip as (Ha & Hb & Hc & Hd). unfold is_public_v4, public_v4. f_equal.
  unfold v4_blocks. cbn [fmap list_fmap existsb fst snd]. unfold in_block. cbn [fst snd].
  change (2 ^ (32 - 8)) with (2 ^ 24). change (2 ^ (32 - 16)) with (2 ^ 16). change (2 ^ (32 - 24)) with (2 ^ 8).
  change (2 ^ (32 - 10)) with (2 ^ (16 + 6)). change (2 ^ (32 - 12)) with (2 ^ (16 + 4)).
  change (2 ^ (32 - 15)) with (2 ^ (16 + 1)). change (2 ^ (32 - 3)) with (2 ^ (24 + 5)).
  rewrite !(v4_prefix 16), !(v4_prefix 24) by lia. rewrite v4_8, v4_16, v4_24. unfold is_byte in *.
  repeat match goal with |- context [?x / 2 ^ ?k =? v4_num ?y / ?m] =>
    let r := eval vm_compute in (v4_num y / m) in change (v4_num y / m) with r end.
  repeat match goal with |- context [?x =? v4_num ?y / ?m] =>
    let r := eval vm_compute in (v4_num y / m) in change (v4_num y / m) with r end.
  rewrite !orb_assoc, orb_false_r. change (2 ^ 6) with 64. change (2 ^ 4) with 16. change (2 ^ 1) with 2. change (2 ^ 5) with 32.
  repeat f_equal.
  all: apply eq_true_iff_eq; rewrite ?andb_true_iff, ?orb_true_iff, ?Z.eqb_eq, ?Z.leb_le, ?Z.ltb_lt;
    Z.to_euclidean_division_equations; lia.
Qed.

End V4.

(** A mask of high bits keeps a prefix. *)
Lemma land_prefix x k m : 0 <= k -> 0 <= m -> 0 <= x < 2 ^ (k + m) -> Z.land x (Z.shiftl (Z.ones k) m) = x / 2 ^ m * 2 ^ m.
Proof.
  intros Hk Hm Hx. rewrite <- Z.shiftl_mul_pow2, <- Z.shiftr_div_pow2 by done. apply Z.bits_inj'. intros i Hi.
  rewrite Z.land_spec. destruct (decide (i < m)) as [Hlt|Hge].
  - by rewrite !Z.shiftl_spec_low, andb_false_r by lia.
  - rewrite !Z.shiftl_spec, Z.shiftr_spec by lia. replace (i - m + m) with i by lia.
    destruct (decide (i - m < k)) as [Hin|Hout].
    + by rewrite Z.ones_spec_low, andb_true_r by lia.
    + rewrite Z.ones_spec_high, andb_false_r by lia. symmetry. destruct (decide (x = 0)) as [->|Hnz]; [apply Z.bits_0|].
      apply Z.bits_above_log2; [lia|]. enough (Z.log2 x < k + m) by lia. apply Z.log2_lt_pow2; lia.
Qed.

Lemma embedded_num hi lo : is_segment hi -> is_segment lo ->
  byte_ip (embedded_v4 hi lo) /\ v4_num (embedded_v4 hi lo) = hi * 65536 + lo.
Proof.
  unfold is_segment, embedded_v4, byte_ip, v4_num, is_byte, wrap8. intros Hh Hl.
  rewrite !Z.shiftr_div_pow2 by lia. change (2 ^ 8) with 256. Z.to_euclidean_division_equations. lia.
Qed.

Section V6.
Context (s0 s1 s2 s3 s4 s5 s6 s7 : Z).
Hypothesis Hip : segment_ip (s0, s1, s2, s3, s4, s5, s6, s7).
Abbreviation n := (v6_num (s0, s1, s2, s3, s4, s5, s6, s7)).

Lemma v6_16 : n / 2 ^ 112 = s0.
Proof.
  destruct Hip as (H0 & H1 & H2 & H3 & H4 & H5 & H6 & H7). unfold v6_num, is_segment in *.
  match goal with |- ?x / _ = _ => replace x with (s0 * 2 ^ 112 + (x - s0 * 2 ^ 112)) by lia end. apply div_pow; lia.
Qed.

Lemma v6_32 : n / 2 ^ 96 = s0 * 65536 + s1.
Proof.
  destruct Hip as (H0 & H1 & H2 & H3 & H4 & H5 & H6 & H7). unfold v6_num, is_segment in *.
  match goal with |- ?x / _ = ?q => replace x with (q * 2 ^ 96 + (x - q * 2 ^ 96)) by lia end. apply div_pow; lia.
Qed.

Lemma v6_48 : n / 2 ^ 80 = (s0 * 65536 + s1) * 65536 + s2.
Proof.
  destruct Hip as (H0 & H1 & H2 & H3 & H4 & H5 & H6 & H7). unfold v6_num, is_segment in *.
  match goal with |- ?x / _ = ?q => replace x with (q * 2 ^ 80 + (x - q * 2 ^ 80)) by lia end. apply div_pow; lia.
Qed.

Lemma v6_96 : n / 2 ^ 32 = ((((s0 * 65536 + s1) * 65536 + s2) * 65536 + s3) * 65536 + s4) * 65536 + s5.
Proof.
  destruct Hip as (H0 & H1 & H2 & H3 & H4 & H5 & H6 & H7). unfold v6_num, is_segment in *.
  match goal with |- ?x / _ = ?q => replace x with (q * 2 ^ 32 + (x - q * 2 ^ 32)) by lia end. apply div_pow; lia.
Qed.

Lemma v6_low : n mod 2 ^ 32 = s6 * 65536 + s7.
Proof.
  destruct Hip as (H0 & H1 & H2 & H3 & H4 & H5 & H6 & H7). pose proof v6_96 as H. pose proof (Z.div_mod n (2 ^ 32)) as Hd.
  rewrite H in Hd. unfold v6_num, is_segment in *. lia.
Qed.

Lemma v6_embedded : n / 2 ^ 80 mod 2 ^ 32 = s1 * 65536 + s2.
Proof.
  destruct Hip as (H0 & H1 & H2 & H3 & H4 & H5 & H6 & H7). rewrite v6_48. unfold is_segment in *.
  replace ((s0 * 65536 + s1) * 65536 + s2) with (s1 * 65536 + s2 + s0 * 2 ^ 32) by lia.
  rewrite Z.mod_add by lia. apply Z.mod_small. lia.
Qed.

Lemma v6_prefix k m : 0 <= k -> 0 <= m -> n / 2 ^ (k + m) = n / 2 ^ k / 2 ^ m.
Proof. intros. rewrite Z.pow_add_r, Z.div_div by lia. done. Qed.

(** The tests of the source, as blocks. *)
Lemma block_mapped :
  in_block 128 n mapped = (s0 =? 0) && (s1 =? 0) && (s2 =? 0) && (s3 =? 0) && (s4 =? 0) && (s5 =? 0xffff).
Proof.
  destruct Hip as (H0 & H1 & H2 & H3 & H4 & H5 & H6 & H7). unfold in_block, mapped. cbn [fst snd].
  change (2 ^ (128 - 96)) with (2 ^ 32). rewrite v6_96. unfold is_segment in *.
  set (base := v6_num _ / _). assert (Hb : base = 0xffff) by (vm_compute; done). rewrite Hb.
  apply eq_true_iff_eq. rewrite !andb_true_iff, !Z.eqb_eq. lia.
Qed.

Lemma block_nat64 :
  in_block 128 n nat64 = (s0 =? 0x0064) && (s1 =? 0xff9b) && ((s2 =? 0) && (s3 =? 0) && (s4 =? 0) && (s5 =? 0)).
Proof.
  destruct Hip as (H0 & H1 & H2 & H3 & H4 & H5 & H6 & H7). unfold in_block, nat64. cbn [fst snd].
  change (2 ^ (128 - 96)) with (2 ^ 32). rewrite v6_96. unfold is_segment in *.
  set (base := v6_num _ / _). assert (Hb : base = (0x64 * 65536 + 0xff9b) * 2 ^ 64) by (vm_compute; done). rewrite Hb.
  apply eq_true_iff_eq. rewrite !andb_true_iff, !Z.eqb_eq. lia.
Qed.

Lemma block_6to4 : in_block 128 n sixtofour = (s0 =? 0x2002).
Proof.
  unfold in_block, sixtofour. cbn [fst snd]. change (2 ^ (128 - 16)) with (2 ^ 112). by rewrite v6_16.
Qed.

Lemma block_unicast : in_block 128 n global_unicast = (Z.land s0 0xe000 =? 0x2000).
Proof.
  destruct Hip as (H0 & _). unfold in_block, global_unicast. cbn [fst snd]. change (2 ^ (128 - 3)) with (2 ^ (112 + 13)).
  rewrite v6_prefix, v6_16 by lia. change 0xe000 with (Z.shiftl (Z.ones 3) 13). unfold is_segment in H0.
  rewrite land_prefix by (cbn; lia). set (base := v6_num _ / _). assert (Hb : base = 1) by (vm_compute; done). rewrite Hb.
  apply eq_true_iff_eq. rewrite !Z.eqb_eq. lia.
Qed.

Lemma block_28 m s : 0 <= s < 4096 -> m = s * 16 ->
  in_block 128 n (v6_num (0x2001, m, 0, 0, 0, 0, 0, 0), 28) = (s0 =? 0x2001) && (Z.land s1 0xfff0 =? m).
Proof.
  destruct Hip as (H0 & H1 & _). intros Hs ->. unfold in_block. cbn [fst snd]. change (2 ^ (128 - 28)) with (2 ^ (96 + 4)).
  rewrite v6_prefix, v6_32 by lia. change 0xfff0 with (Z.shiftl (Z.ones 12) 4). unfold is_segment in *.
  rewrite land_prefix by (cbn; lia).
  replace (v6_num (0x2001, s * 16, 0, 0, 0, 0, 0, 0) / 2 ^ (96 + 4)) with (0x2001 * 4096 + s).
  2: { unfold v6_num. symmetry. match goal with |- ?x / _ = ?q => replace x with (q * 2 ^ (96 + 4) + 0) by lia end.
       apply div_pow; lia. }
  apply eq_true_iff_eq. rewrite andb_true_iff, !Z.eqb_eq. change (2 ^ 4) with 16. Z.to_euclidean_division_equations. lia.
Qed.

Lemma is_public_v6_blocks :
  (if in_block 128 n nat64 then public_v4 (n mod 2 ^ 32)
   else if in_block 128 n sixtofour then public_v4 (n / 2 ^ 80 mod 2 ^ 32)
   else in_block 128 n global_unicast && negb (existsb (in_block 128 n) v6_blocks))
  = is_public_v6 (s0, s1, s2, s3, s4, s5, s6, s7).
Proof.
  pose proof Hip as (H0 & H1 & H2 & H3 & H4 & H5 & H6 & H7). unfold is_public_v6.
  rewrite block_nat64, block_6to4, block_unicast, v6_low, v6_embedded.
  assert (Hv4 : forall hi lo, is_segment hi -> is_segment lo -> is_public_v4 (embedded_v4 hi lo) = public_v4 (hi * 65536 + lo)).
  { intros hi lo Hh Hl. destruct (embedded_num hi lo Hh Hl) as [Hb <-]. unfold embedded_v4 in *. by apply is_public_v4_blocks. }
  rewrite !Hv4 by done. destruct (_ && _); [done|]. destruct (s0 =? 0x2002); [done|].
  destruct (Z.land s0 0xe000 =? 0x2000); [|done]. cbn [negb andb]. f_equal.
  unfold v6_blocks. cbn [fmap list_fmap existsb fst snd].
  rewrite (block_28 0x10 1), (block_28 0x20 2) by lia.
  unfold in_block. cbn [fst snd]. change (2 ^ (128 - 32)) with (2 ^ 96). change (2 ^ (128 - 48)) with (2 ^ 80).
  change (2 ^ (128 - 12)) with (2 ^ (112 + 4)). rewrite v6_prefix, v6_16, v6_32, v6_48 by lia.
  change 0xfff0 with (Z.shiftl (Z.ones 12) 4). unfold is_segment in *. rewrite (land_prefix s0) by (cbn; lia).
  repeat match goal with |- context [v6_num ?y / ?m] =>
    let r := eval vm_compute in (v6_num y / m) in change (v6_num y / m) with r end.
  rewrite !orb_assoc, orb_false_r. repeat apply (f_equal2 orb); try done.
  all: apply eq_true_iff_eq; rewrite ?andb_true_iff, ?Z.eqb_eq; change (2 ^ 4) with 16;
    Z.to_euclidean_division_equations; lia.
Qed.

End V6.

Definition wf_ip (ip : IpAddr) : Prop := match ip with V4 o => byte_ip o | V6 s => segment_ip s end.

Definition public_spec (ip : IpAddr) : bool := match ip with V4 o => public_v4 (v4_num o) | V6 s => public_v6 (v6_num s) end.

(** The octet and segment tests are the blocks they stand for: an address is
    public exactly when it is outside the special-purpose blocks, with a mapped,
    NAT64 or 6to4 address judged as the IPv4 address it carries. *)
Theorem is_public_exact (ip : IpAddr) : wf_ip ip -> is_public ip = public_spec ip.
Proof.
  destruct ip as [o|s]; unfold is_public, public_spec; cbn [canonical wf_ip]; intros Hip.
  - destruct o as [[[a b] c] d]. by apply is_public_v4_blocks.
  - destruct s as [[[[[[[s0 s1] s2] s3] s4] s5] s6] s7]. unfold public_v6. rewrite (block_mapped _ _ _ _ _ _ _ _ Hip).
    unfold to_ipv4_mapped. destruct (_ && _) eqn:E; [|symmetry; by apply is_public_v6_blocks].
    rewrite v6_low by done. destruct Hip as (H0 & H1 & H2 & H3 & H4 & H5 & H6 & H7).
    destruct (embedded_num s6 s7 H6 H7) as [Hb <-]. unfold embedded_v4 in *. by apply is_public_v4_blocks.
Qed.

(** The cloud metadata address, through a NAT64 gateway. *)
Lemma is_public_exact_witness : is_public (V6 (0x64, 0xff9b, 0, 0, 0, 0, 0xa9fe, 0xa9fe)) = false.
Proof.
  rewrite (is_public_exact (V6 (0x64, 0xff9b, 0, 0, 0, 0, 0xa9fe, 0xa9fe))); [vm_compute; reflexivity|].
  cbn. unfold is_segment. lia.
Defined.

(** The last block is [3ff0::/12], wider than the documentation block [3fff::/20]
    the comment names: [3ff0::1] is refused. *)
Lemma documentation_block_too_wide :
  is_public (V6 (0x3ff0, 0, 0, 0, 0, 0, 0, 1)) = false
  /\ in_block 128 (v6_num (0x3ff0, 0, 0, 0, 0, 0, 0, 1)) (v6_num (0x3fff, 0, 0, 0, 0, 0, 0, 0), 20) = false.
Proof. by vm_compute. Qed.

(** ** Trust *)

Lemma merge_allows p q port : ports_allows (ports_merge p q) port = ports_allows p port || ports_allows q port.
Proof.
  destruct p as [|mine], q as [|theirs]; cbn; rewrite ?orb_true_r; try done.
  apply eq_true_iff_eq. rewrite orb_true_iff, !bool_decide_eq_true. set_solver.
Qed.

Definition key_allows `{Countable K} (m : gmap K Ports) (k : K) (port : Z) : bool :=
  match m !! k with Some p => ports_allows p port | None => false end.

Lemma merge_into_allows `{Countable K} (m : gmap K Ports) k ports k' port :
  key_allows (merge_into m k ports) k' port = key_allows m k' port || bool_decide (k' = k) && ports_allows ports port.
Proof.
  unfold key_allows, merge_into. destruct (decide (k' = k)) as [->|Hne].
  - rewrite lookup_insert_eq, bool_decide_true by done. cbn. destruct (m !! k); [apply merge_allows|done].
  - rewrite lookup_insert_ne, bool_decide_false by done. cbn. by rewrite orb_false_r.
Qed.

Section Trust.
Context `{U : UrlCrate}.

(** A URL of the configuration that names the name or the address, on the port. *)
Definition names_host (urls : list string) (key : string) (port : Z) : Prop :=
  exists raw name ports, raw ∈ urls /\ url_host raw = Some (HDomain name, ports) /\ name_key name = key
    /\ ports_allows ports port = true.

Definition host_ip (h : Host) : option IpAddr :=
  match h with HDomain _ => None | HIpv4 o => Some (V4 o) | HIpv6 s => Some (V6 s) end.

Definition names_ip (urls : list string) (ip : IpAddr) (port : Z) : Prop :=
  exists raw h literal ports, raw ∈ urls /\ url_host raw = Some (h, ports) /\ host_ip h = Some literal
    /\ canonical literal = ip /\ ports_allows ports port = true.

(** What [trusting] trusts is what its URLs name. *)
Lemma trust_exact p raw key ip port :
  (key_allows (trusted_names (trust p raw)) key port = true <->
     key_allows (trusted_names p) key port = true \/ names_host [raw] key port)
  /\ (key_allows (trusted_addrs (trust p raw)) ip port = true <->
     key_allows (trusted_addrs p) ip port = true \/ names_ip [raw] ip port).
Proof.
  assert (Hn : names_host [raw] key port <-> exists name ports, url_host raw = Some (HDomain name, ports)
    /\ name_key name = key /\ ports_allows ports port = true).
  { unfold names_host. split.
    - intros (r & name & ports & ->%list_elem_of_singleton & ?). eauto.
    - intros (name & ports & ?). exists raw, name, ports. split; [left|done]. }
  assert (Hi : names_ip [raw] ip port <-> exists h literal ports, url_host raw = Some (h, ports)
    /\ host_ip h = Some literal /\ canonical literal = ip /\ ports_allows ports port = true).
  { unfold names_ip. split.
    - intros (r & h & l & ports & ->%list_elem_of_singleton & ?). eauto.
    - intros (h & l & ports & ?). exists raw, h, l, ports. split; [left|done]. }
  rewrite Hn, Hi. clear Hn Hi. unfold trust. destruct (url_host raw) as [[[name|o|s] ports]|] eqn:E;
    cbn [trusted_names trusted_addrs].
  - rewrite merge_into_allows, orb_true_iff, andb_true_iff, bool_decide_eq_true. split; [|naive_solver].
    split; [intros [?|[-> ?]]; eauto 6|intros [?|(name' & ports' & [= <- <-] & <- & ?)]; auto].
  - rewrite merge_into_allows, orb_true_iff, andb_true_iff, bool_decide_eq_true. split; [naive_solver|].
    split; [intros [?|[-> ?]]; eauto 10|intros [?|(h & l & ports' & [= <- <-] & [= <-] & <- & ?)]; auto].
  - rewrite merge_into_allows, orb_true_iff, andb_true_iff, bool_decide_eq_true. split; [naive_solver|].
    split; [intros [?|[-> ?]]; eauto 10|intros [?|(h & l & ports' & [= <- <-] & [= <-] & <- & ?)]; auto].
  - naive_solver.
Qed.

Lemma names_host_app urls urls' key port :
  names_host (urls ++ urls') key port <-> names_host urls key port \/ names_host urls' key port.
Proof.
  split.
  - intros (r & n & p & [Hr|Hr]%elem_of_app & H); [left|right]; exists r, n, p; done.
  - intros [(r & n & p & Hr & H)|(r & n & p & Hr & H)]; exists r, n, p; (split; [|done]); apply elem_of_app; auto.
Qed.

Lemma names_ip_app urls urls' ip port :
  names_ip (urls ++ urls') ip port <-> names_ip urls ip port \/ names_ip urls' ip port.
Proof.
  split.
  - intros (r & h & l & p & [Hr|Hr]%elem_of_app & H); [left|right]; exists r, h, l, p; done.
  - intros [(r & h & l & p & Hr & H)|(r & h & l & p & Hr & H)]; exists r, h, l, p; (split; [|done]); apply elem_of_app; auto.
Qed.

Lemma trusting_exact urls key ip port :
  (key_allows (trusted_names (trusting urls)) key port = true <-> names_host urls key port)
  /\ (key_allows (trusted_addrs (trusting urls)) ip port = true <-> names_ip urls ip port).
Proof.
  unfold trusting. induction urls as [|raw urls IH] using rev_ind; cbn.
  - unfold key_allows, names_host, names_ip. rewrite !lookup_empty. split; split; try done.
    + by intros (? & ? & ? & ?%not_elem_of_nil & _).
    + by intros (? & ? & ? & ? & ?%not_elem_of_nil & _).
  - rewrite fold_left_app. cbn. destruct (trust_exact (fold_left trust urls
      {| trusted_names := ∅; trusted_addrs := ∅ |}) raw key ip port) as [H1 H2].
    rewrite H1, H2. destruct IH as [-> ->]. rewrite names_host_app, names_ip_app. done.
Qed.

(** ** Histories of lookups *)

(** A name resolved by a client of the instance or of its plugins. *)
Record Lookup : Type := { lk_plugin : bool; lk_name : string; lk_addrs : list SocketAddr }.

Definition client (plugin : bool) : Source := if plugin then SPlugins else SInstalled.

Definition resolve_all (w : Installed) (ls : list Lookup) : Installed :=
  fold_left (fun w l => (screen w (client (lk_plugin l)) (lk_name l) (lk_addrs l)).1) ls w.

Definition fresh : Installed := {| policies := []; POLICY := None; PLUGIN_POLICY := None |}.

Lemma learn_allows p ports addrs ip port :
  key_allows (trusted_addrs (learn p ports addrs)) ip port = true <->
  key_allows (trusted_addrs p) ip port = true
  \/ ports_allows ports port = true /\ exists a, a ∈ addrs /\ canonical (sa_ip a) = ip.
Proof.
  cbn. generalize (trusted_addrs p). induction addrs as [|a addrs IH]; intros m; cbn.
  - split; [auto|]. intros [?|(_ & a & Ha%not_elem_of_nil & _)]; done.
  - rewrite IH, merge_into_allows, orb_true_iff, andb_true_iff, bool_decide_eq_true. split.
    + intros [[?|[-> Hp]]|(Hp & b & Hb & Hc)]; [by left|right|right].
      * split; [done|]. exists a. split; [left|done].
      * split; [done|]. exists b. split; [by right|done].
    + intros [?|(Hp & b & [->|Hb]%elem_of_cons & Hc)]; [by left; left|by left; right|]. right. eauto.
Qed.

(** The policy at [i], which began as [base], after the lookups [ls] made with it. *)
Record learned (w : Installed) (i : nat) (base : Policy) (ls : list Lookup) : Prop := {
  le_policy : exists p, policies w !! i = Some p /\ trusted_names p = trusted_names base
    /\ forall ip port, key_allows (trusted_addrs p) ip port = true <->
         key_allows (trusted_addrs base) ip port = true
         \/ exists l a, l ∈ ls /\ key_allows (trusted_names base) (name_key (lk_name l)) port = true
              /\ a ∈ lk_addrs l /\ canonical (sa_ip a) = ip;
}.

Definition uses (w : Installed) (i : nat) (l : Lookup) : Prop := source_policy w (client (lk_plugin l)) = Some i.

#[export] Instance uses_dec w i l : Decision (uses w i l).
Proof. unfold uses. apply _. Defined.

Lemma screen_cells w source name addrs :
  POLICY (screen w source name addrs).1 = POLICY w /\ PLUGIN_POLICY (screen w source name addrs).1 = PLUGIN_POLICY w.
Proof. unfold screen. repeat case_match; done. Qed.

Lemma resolve_all_cons w l ls :
  resolve_all w (l :: ls) = resolve_all (screen w (client (lk_plugin l)) (lk_name l) (lk_addrs l)).1 ls.
Proof. done. Qed.

Lemma resolve_all_cells w ls :
  POLICY (resolve_all w ls) = POLICY w /\ PLUGIN_POLICY (resolve_all w ls) = PLUGIN_POLICY w.
Proof.
  revert w. induction ls as [|l ls IH]; intros w; [done|]. rewrite resolve_all_cons.
  destruct (IH (screen w (client (lk_plugin l)) (lk_name l) (lk_addrs l)).1) as [-> ->]. apply screen_cells.
Qed.

Lemma uses_cells w w' i l : POLICY w' = POLICY w -> PLUGIN_POLICY w' = PLUGIN_POLICY w -> uses w' i l <-> uses w i l.
Proof. unfold uses, source_policy, client. by intros -> ->. Qed.

(** A lookup is learned by the policy it was made with, and by no other. *)
Lemma screen_learned w i base ls l :
  learned w i base ls ->
  learned (screen w (client (lk_plugin l)) (lk_name l) (lk_addrs l)).1 i base (if decide (uses w i l) then ls ++ [l] else ls).
Proof.
  intros [(p & Hp & Hnames & Ha)]. unfold screen. destruct (source_policy w (client (lk_plugin l))) as [j|] eqn:Hj; cbn.
  2: { rewrite decide_False by (unfold uses; congruence). split. eauto. }
  destruct (decide (uses w i l)) as [Hu|Hu]; unfold uses in Hu; rewrite Hj in Hu.
  - injection Hu as ->. rewrite Hp. cbn. unfold name_ports. rewrite Hnames.
    destruct (trusted_names base !! name_key (lk_name l)) as [ports|] eqn:Hn; cbn.
    + split. exists (learn p ports (lk_addrs l)). split_and!; [|done|].
      * cbn. apply list_lookup_insert_eq. by eapply lookup_lt_Some.
      * intros ip port. rewrite learn_allows, Ha. split.
        -- intros [[?|(l0 & a & Hl0 & ?)]|(Hpo & a & Ha' & Hc)]; [by left|right|right].
           ++ exists l0, a. split; [|done]. apply elem_of_app. by left.
           ++ exists l, a. split_and!; try done; [apply elem_of_app; right; left|]. unfold key_allows. by rewrite Hn.
        -- intros [?|(l0 & a & [Hl0| ->%list_elem_of_singleton]%elem_of_app & Hk & Ha' & Hc)]; [by left; left| |].
           ++ left; right. exists l0, a. done.
           ++ right. unfold key_allows in Hk. rewrite Hn in Hk. split; [done|]. eauto.
    + assert (Hsame : forall w', policies w' !! i = policies w !! i -> learned w' i base (ls ++ [l])).
      { intros w' Hw. split. exists p. split_and!; [by rewrite Hw|done|]. intros ip port. rewrite Ha. split.
        - intros [?|(l0 & a & Hl0 & ?)]; [by left|right]. exists l0, a. split; [|done]. apply elem_of_app. by left.
        - intros [?|(l0 & a & [Hl0| ->%list_elem_of_singleton]%elem_of_app & Hk & Ha' & Hc)]; [by left|right; eauto 7|].
          unfold key_allows in Hk. by rewrite Hn in Hk. }
      case_match; by apply Hsame.
  - assert (Hne : j <> i) by congruence.
    assert (Hsame : forall w', policies w' !! i = policies w !! i -> learned w' i base ls).
    { intros w' Hw. split. exists p. by rewrite Hw. }
    destruct (policies w !! j) as [q|] eqn:Hq; cbn; [|by apply Hsame].
    destruct (name_ports q (lk_name l)); cbn; [|case_match; by apply Hsame].
    apply Hsame. cbn. by rewrite list_lookup_insert_ne.
Qed.

Lemma resolve_all_learned ls : forall w i base seen,
  learned w i base seen -> learned (resolve_all w ls) i base (seen ++ filter (uses w i) ls).
Proof.
  induction ls as [|l ls IH]; intros w i base seen Hl; [cbn; by rewrite app_nil_r|].
  rewrite resolve_all_cons, filter_cons.
  pose proof (screen_learned w i base seen l Hl) as H1. apply IH in H1.
  destruct (screen_cells w (client (lk_plugin l)) (lk_name l) (lk_addrs l)) as [Hc1 Hc2].
  assert (Hf : filter (uses (screen w (client (lk_plugin l)) (lk_name l) (lk_addrs l)).1 i) ls = filter (uses w i) ls).
  { apply list_filter_iff. intros l0. by apply uses_cells. }
  rewrite Hf in H1. destruct (decide (uses w i l)); [by rewrite <- app_assoc in H1|done].
Qed.

End Trust.

Section Screened.
Context `{U : UrlCrate} (ip_text : IpAddr -> string).
Context (config : Config) (var env : string -> option string) (dev : bool).

Definition private : list string := private_hosts (env "ALLOW_PRIVATE_HOSTS").

(** The URLs and hosts a client trusts, and the lookups its policy learns from:
    all of them while the plugins have no policy of their own. *)
Definition trusted_urls (plugin : bool) : list string :=
  configured_urls config var env ++ (if plugin then private else []).

Definition seen_by (plugin : bool) (ls : list Lookup) : list Lookup :=
  match private with [] => ls | _ => filter (fun l => lk_plugin l = plugin) ls end.

Definition resolved (urls : list string) (ls : list Lookup) (ip : IpAddr) (port : Z) : Prop :=
  exists l a, l ∈ ls /\ names_host urls (name_key (lk_name l)) port /\ a ∈ lk_addrs l /\ canonical (sa_ip a) = ip.

Abbreviation installed := (install_for fresh config var env dev).

Lemma client_policy plugin :
  private_destinations_allowed env dev = false ->
  exists i, source_policy installed (client plugin) = Some i
    /\ policies installed !! i = Some (trusting (trusted_urls plugin))
    /\ forall ls, filter (uses installed i) ls = seen_by plugin ls.
Proof.
  intros Hoff. unfold install_for, seen_by, trusted_urls. rewrite Hoff. fold private.
  assert (Hall : forall (P : Lookup -> Prop) `{forall l, Decision (P l)} (ls : list Lookup), (forall l, P l) -> filter P ls = ls).
  { intros P HP ls Hp. induction ls as [|l ls IH]; [done|]. by rewrite filter_cons_True, IH. }
  destruct private as [|h hs] eqn:Hpriv; cbn.
  - exists 0%nat. destruct plugin; rewrite ?app_nil_r; (split_and!; [done..|]); intros ls; apply Hall;
      intros l; unfold uses, client; by destruct (lk_plugin l).
  - exists (if plugin then 1%nat else 0%nat). destruct plugin; rewrite ?app_nil_r; (split_and!; [done..|]); intros ls;
      apply list_filter_iff; intros l; unfold uses, client; by destruct (lk_plugin l).
Qed.

(** The client's policy after a history of lookups. *)
Lemma client_learned plugin ls :
  private_destinations_allowed env dev = false ->
  exists i p, source_policy (resolve_all installed ls) (client plugin) = Some i
    /\ policies (resolve_all installed ls) !! i = Some p
    /\ forall ip port, key_allows (trusted_addrs p) ip port = true <->
         key_allows (trusted_addrs (trusting (trusted_urls plugin))) ip port = true
         \/ exists l b, l ∈ seen_by plugin ls
              /\ key_allows (trusted_names (trusting (trusted_urls plugin))) (name_key (lk_name l)) port = true
              /\ b ∈ lk_addrs l /\ canonical (sa_ip b) = ip.
Proof.
  intros Hoff. destruct (client_policy plugin Hoff) as (i & Hi & Hp & Hseen).
  destruct (resolve_all_cells installed ls) as [Hc1 Hc2].
  destruct (resolve_all_learned ls installed i (trusting (trusted_urls plugin)) []) as [(p & Hlook & _ & Ha)].
  { split. eexists. split_and!; [exact Hp|done|]. intros ip port. split; [auto|]. intros [?|(l & b & Hb%not_elem_of_nil & _)]; done. }
  exists i, p. rewrite app_nil_l, Hseen in Ha. split_and!; [|done..].
  rewrite <- Hi. unfold source_policy, client. destruct plugin; done.
Qed.

Lemma key_names urls key port : key_allows (trusted_names (trusting urls)) key port = true <-> names_host urls key port.
Proof. apply (trusting_exact urls key (V4 (0, 0, 0, 0)) port). Qed.

(** Which peers pass. *)
Lemma check_peer_exact (plugin : bool) (ls : list Lookup) (a : SocketAddr) :
  private_destinations_allowed env dev = false ->
  check_peer ip_text (resolve_all installed ls) (client plugin) (Some a) = Ok tt <->
  is_public (sa_ip a) = true
  \/ names_ip (trusted_urls plugin) (canonical (sa_ip a)) (sa_port a)
  \/ resolved (trusted_urls plugin) (seen_by plugin ls) (canonical (sa_ip a)) (sa_port a).
Proof.
  intros Hoff. destruct (client_learned plugin ls Hoff) as (i & p & Hi & Hlook & Ha).
  unfold check_peer. rewrite Hi. cbn [mbind option_bind]. rewrite Hlook. unfold admits.
  fold (key_allows (trusted_addrs p) (canonical (sa_ip a)) (sa_port a)).
  specialize (Ha (canonical (sa_ip a)) (sa_port a)).
  rewrite (proj2 (trusting_exact (trusted_urls plugin) "" (canonical (sa_ip a)) (sa_port a))) in Ha.
  assert (Hr : (exists l b, l ∈ seen_by plugin ls
      /\ key_allows (trusted_names (trusting (trusted_urls plugin))) (name_key (lk_name l)) (sa_port a) = true
      /\ b ∈ lk_addrs l /\ canonical (sa_ip b) = canonical (sa_ip a))
    <-> resolved (trusted_urls plugin) (seen_by plugin ls) (canonical (sa_ip a)) (sa_port a)).
  { unfold resolved. by setoid_rewrite key_names. }
  rewrite Hr in Ha. rewrite <- Ha, <- orb_true_iff. by destruct (_ || _).
Qed.

(** (C11) Where private destinations are not allowed altogether, after any history of
    name lookups, a client's connection is let through exactly when its peer is a public address, or an address and port that a
    configured URL names, or an address a name of a configured URL resolved to,
    on the port that URL names; the hosts allowed to plugins count for plugins
    alone. *)
Theorem peers_exact (plugin : bool) (ls : list Lookup) (a : SocketAddr) :
  private_destinations_allowed env dev = false ->
  check_peer ip_text (resolve_all installed ls) (client plugin) (Some a) = Ok tt <->
  is_public (sa_ip a) = true
  \/ names_ip (trusted_urls plugin) (canonical (sa_ip a)) (sa_port a)
  \/ resolved (trusted_urls plugin) (seen_by plugin ls) (canonical (sa_ip a)) (sa_port a).
Proof. apply check_peer_exact. Qed.

(** A socket [connect_tcp] hands out has passed that check. *)
Lemma connect_first_checked w source connect addrs last none peer :
  connect_first ip_text w source connect addrs last none = Ok peer -> check_peer ip_text w source peer = Ok tt.
Proof.
  revert last. induction addrs as [|a addrs IH]; intros last; cbn; [done|].
  destruct (connect a) as [p|e]; [|apply IH]. destruct (check_peer ip_text w source p) as [[]|] eqn:E; [|done].
  by intros [= <-].
Qed.

(** A socket opened directly is to an allowed peer: whatever the resolver
    answers, now and in the lookups before, [connect_tcp] hands out a connection
    only to a public address or to one the client's configuration names. *)
Theorem connect_tcp_allowed (parse_ip : string -> option IpAddr)
    (lookup_host : string -> Z -> result (list SocketAddr) string)
    (connect : SocketAddr -> result (option SocketAddr) string)
    (plugin : bool) (ls : list Lookup) (name : string) (port : Z) (w' : Installed) (peer : option SocketAddr) :
  private_destinations_allowed env dev = false ->
  connect_tcp ip_text parse_ip lookup_host connect (resolve_all installed ls) (client plugin) name port = (w', Ok peer) ->
  exists a l, peer = Some a
    /\ (is_public (sa_ip a) = true
        \/ names_ip (trusted_urls plugin) (canonical (sa_ip a)) (sa_port a)
        \/ resolved (trusted_urls plugin) (seen_by plugin (ls ++ [l])) (canonical (sa_ip a)) (sa_port a)).
Proof.
  intros Hoff. unfold connect_tcp. set (bare := trim_close (trim_open name)).
  destruct (match parse_ip bare with Some ip => _ | None => _ end) as [addrs|e]; [|done].
  set (l := {| lk_plugin := plugin; lk_name := bare; lk_addrs := addrs |}).
  assert (Hw : (screen (resolve_all installed ls) (client plugin) bare addrs).1 = resolve_all installed (ls ++ [l])).
  { unfold resolve_all. by rewrite fold_left_app. }
  destruct (screen _ _ _ _) as [w1 [kept|e]] eqn:Hs; [|done]. cbn in Hw. subst w1. intros [= <- Hc].
  apply connect_first_checked in Hc.
  destruct peer as [a|].
  - exists a, l. split; [done|]. by apply check_peer_exact in Hc.
  - exfalso. destruct (client_learned plugin (ls ++ [l]) Hoff) as (i & p & Hi & Hlook & _).
    unfold check_peer in Hc. rewrite Hi in Hc. cbn [mbind option_bind] in Hc. by rewrite Hlook in Hc.
Qed.

End Screened.

(** ** A PLC directory on a private network *)

Module Local.

Definition crate : UrlCrate := {|
  Url := option Host * option Z;
  url_parse := fun s =>
    if s =s "http://plc:2582" then Some (Some (HDomain "plc"), Some 2582)
    else if s =s "http://10.9.8.7" then Some (Some (HIpv4 (10, 9, 8, 7)), None)
    else None;
  host := fst;
  port := snd;
  port_or_known_default := fun u => match u.2 with Some p => Some p | None => Some 80 end;
|}.

Definition config : Config :=
  {| plc_url := "http://plc:2582"; relay_url := "http://10.9.8.7"; jetstream_url := ""; telemetry_collector_url := "";
     default_plugins := [] |}.

Definition unset (_ : string) : option string := None.

Definition plc : SocketAddr := {| sa_ip := V4 (10, 0, 0, 5); sa_port := 2582 |}.

Definition lookups : list Lookup :=
  [{| lk_plugin := false; lk_name := "PLC."; lk_addrs := [{| sa_ip := V4 (10, 0, 0, 5); sa_port := 0 |}] |}].

End Local.

Lemma peers_exact_witness :
  check_peer (fun _ => "") (resolve_all (install_for (U := Local.crate) fresh Local.config Local.unset Local.unset false) Local.lookups)
    (client false) (Some Local.plc) = Ok tt.
Proof.
  apply (peers_exact (U := Local.crate)).
  - reflexivity.
  - right; right. exists {| lk_plugin := false; lk_name := "PLC."; lk_addrs := [{| sa_ip := V4 (10, 0, 0, 5); sa_port := 0 |}] |},
      {| sa_ip := V4 (10, 0, 0, 5); sa_port := 0 |}. split_and!; [left| |left|reflexivity].
    exists "http://plc:2582", "plc", (POnly {[2582]}). split_and!; [left|vm_compute; reflexivity..].
Defined.

Lemma connect_tcp_allowed_witness :
  exists a l, Some Local.plc = Some a
    /\ (is_public (sa_ip a) = true
        \/ names_ip (U := Local.crate) (trusted_urls Local.config Local.unset Local.unset false) (canonical (sa_ip a)) (sa_port a)
        \/ resolved (U := Local.crate) (trusted_urls Local.config Local.unset Local.unset false)
             (seen_by Local.unset false ([] ++ [l])) (canonical (sa_ip a)) (sa_port a)).
Proof.
  refine (connect_tcp_allowed (U := Local.crate) (fun _ => "") Local.config Local.unset Local.unset false
    (fun _ => None) (fun _ port => Ok [{| sa_ip := V4 (10, 0, 0, 5); sa_port := port |}]) (fun a => Ok (Some a))
    false [] "plc" 2582 _ (Some Local.plc) _ _).
  - reflexivity.
  - vm_compute. reflexivity.
Defined.
