(* ===== verification/Limits.v ===== *)
(** * Limits a host sets

    [crates/happyview-provider/src/limits.rs]: a snapshot of limits and the
    checks against it, and [src/limits.rs]: where the snapshot comes from.  The
    JSON reader of a limits file is a parameter ([from_json]), the contents of
    the file at each look are the input of [reload]. *)

From stdpp Require Import list strings pretty.
From Stdlib Require Import ZArith Lia.
From S2P Require Import Prelude RustStr.
#[local] Open Scope Z_scope.

(** ** The snapshot *)

Inductive Limit : Type := Seats | ApiClients | AnonymousXrpc | LogRetentionDays.

#[export] Instance Limit_eq_dec : EqDecision Limit.
Proof. solve_decision. Defined.

Definition Limit_ALL : list Limit := [Seats; ApiClients; AnonymousXrpc; LogRetentionDays].

Definition Limit_as_str (l : Limit) : string :=
  match l with
  | Seats => "seats"
  | ApiClients => "api_clients"
  | AnonymousXrpc => "anonymous_xrpc"
  | LogRetentionDays => "log_retention_days"
  end.

Record Wording : Type := {
  message : option string;
  action_url : option string;
  action_label : option string;
}.

Definition Wording_default : Wording := {| message := None; action_url := None; action_label := None |}.

(** [max] is a [u32]. *)
Record Cap : Type := { max : Z; cap_wording : Wording }.
Record Gate : Type := { allowed : bool; gate_wording : Wording }.

Record Limits : Type := {
  seats : option Cap;
  api_clients : option Cap;
  anonymous_xrpc : option Gate;
  log_retention_days : option Cap;
}.

Definition unlimited : Limits :=
  {| seats := None; api_clients := None; anonymous_xrpc := None; log_retention_days := None |}.

Record LimitReached : Type := {
  lr_limit : Limit;
  lr_max : option Z;
  lr_current : option Z;
  lr_message : string;
  lr_action_url : option string;
  lr_action_label : option string;
}.

Definition generic_message (limit : Limit) (max : option Z) : string :=
  let n := default 0 max in
  let plural (one many : string) := if n =? 1 then one else many in
  match limit with
  | Seats => "This instance allows " +:+ pretty n +:+ " " +:+ plural "admin" "admins" +:+ "."
  | ApiClients => "This instance allows " +:+ pretty n +:+ " " +:+ plural "API client" "API clients" +:+ "."
  | AnonymousXrpc => "This instance only answers XRPC calls made with an API client."
  | LogRetentionDays => "This instance keeps logs for at most " +:+ pretty n +:+ " " +:+ plural "day" "days" +:+ "."
  end.

Definition LimitReached_new (limit : Limit) (max current : option Z) (wording : Wording) : LimitReached :=
  let said := match message wording with
              | Some m => let m := trim m in if nonempty m then m else generic_message limit max
              | None => generic_message limit max
              end in
  let '(url, label) :=
    match action_url wording, action_label wording with
    | Some url, Some label =>
        if nonempty (trim url) && nonempty (trim label) then (Some (trim url), Some (trim label)) else (None, None)
    | _, _ => (None, None)
    end in
  {| lr_limit := limit; lr_max := max; lr_current := current; lr_message := said;
     lr_action_url := url; lr_action_label := label |}.

Definition validate (l : Limits) : result unit string :=
  match log_retention_days l with
  | Some c => if max c =? 0 then Err "log_retention_days must be at least 1 day: 0 would keep logs forever" else Ok tt
  | None => Ok tt
  end.

Definition cap_of (l : Limits) (limit : Limit) : option Cap :=
  match limit with
  | Seats => seats l
  | ApiClients => api_clients l
  | LogRetentionDays => log_retention_days l
  | AnonymousXrpc => None
  end.

Definition check (l : Limits) (limit : Limit) (current : Z) : result unit LimitReached :=
  match cap_of l limit with
  | Some cap =>
      if max cap <=? current
      then Err (LimitReached_new limit (Some (max cap)) (Some current) (cap_wording cap)) else Ok tt
  | None => Ok tt
  end.

Definition allows_anonymous_xrpc (l : Limits) : result unit LimitReached :=
  match anonymous_xrpc l with
  | Some gate => if negb (allowed gate) then Err (LimitReached_new AnonymousXrpc None None (gate_wording gate)) else Ok tt
  | None => Ok tt
  end.

Definition ceiling (cap : Cap) : Z := Z.max (max cap) 1.

Definition cap (l : Limits) (limit : Limit) (configured : Z) : Z :=
  match ceiling <$> cap_of l limit with
  | Some max => if configured =? 0 then max else Z.min configured max
  | None => configured
  end.

Definition check_ceiling (l : Limits) (limit : Limit) (requested : Z) : result unit LimitReached :=
  match cap_of l limit with
  | Some cap =>
      if (requested =? 0) || (ceiling cap <? requested)
      then Err (LimitReached_new limit (Some (ceiling cap)) None (cap_wording cap)) else Ok tt
  | None => Ok tt
  end.

(** ** Where they come from *)

Definition FILE_VAR : string := "HAPPYVIEW_LIMITS_FILE".

Definition var_name (l : Limit) : string :=
  match l with
  | Seats => "HAPPYVIEW_LIMIT_SEATS"
  | ApiClients => "HAPPYVIEW_LIMIT_API_CLIENTS"
  | AnonymousXrpc => "HAPPYVIEW_LIMIT_ANONYMOUS_XRPC"
  | LogRetentionDays => "HAPPYVIEW_LIMIT_LOG_RETENTION_DAYS"
  end.

Definition U32_MAX : Z := 2 ^ 32 - 1.

Section Vars.
Variable get : string -> option string.

(** The closures [raw] and [number] of [from_vars]. *)
Definition raw (limit : Limit) : option string :=
  match get (var_name limit) with
  | Some v => if nonempty (trim v) then Some (trim v) else None
  | None => None
  end.

Definition number (limit : Limit) : result (option Cap) string :=
  match raw limit with
  | None => Ok None
  | Some v =>
      match parse_unsigned U32_MAX v with
      | Some max => Ok (Some {| max := max; cap_wording := Wording_default |})
      | None => Err (var_name limit +:+ " must be a whole number, got '" +:+ v +:+ "'")
      end
  end.

Definition anonymous : result (option Gate) string :=
  match raw AnonymousXrpc with
  | None => Ok None
  | Some v =>
      if to_ascii_lowercase v =s "true" then Ok (Some {| allowed := true; gate_wording := Wording_default |})
      else if to_ascii_lowercase v =s "false" then Ok (Some {| allowed := false; gate_wording := Wording_default |})
      else Err (var_name AnonymousXrpc +:+ " must be true or false, got '" +:+ v +:+ "'")
  end.

Definition from_vars : result Limits string :=
  let? anon := anonymous in
  let? s := number Seats in
  let? a := number ApiClients in
  let? d := number LogRetentionDays in
  let limits := {| seats := s; api_clients := a; anonymous_xrpc := anon; log_retention_days := d |} in
  match validate limits with
  | Err e => Err (var_name LogRetentionDays +:+ ": " +:+ e)
  | Ok _ => Ok limits
  end.

End Vars.

Section File.
Variable from_json : string -> result Limits string.

Definition parse (path text : string) : result Limits string :=
  match from_json text with
  | Err e => Err ("the limits file " +:+ path +:+ " is not valid: " +:+ e)
  | Ok limits =>
      match validate limits with
      | Err e => Err ("the limits file " +:+ path +:+ " is not valid: " +:+ e)
      | Ok _ => Ok limits
      end
  end.

(** What reading the file gave: its text, or an error. *)
Definition read_file (path : string) (contents : result string string) : result Limits string :=
  match contents with
  | Err e => Err ("could not read the limits file " +:+ path +:+ ": " +:+ e)
  | Ok text => parse path text
  end.

Inductive Reload : Type := Unchanged | Applied | Kept (why : string).

Record FileLimits : Type := { path : string; current : Limits; seen : option string }.

Definition open (path : string) (contents : result string string) : result FileLimits string :=
  match contents with
  | Err e => Err ("could not read the limits file " +:+ path +:+ ": " +:+ e)
  | Ok text =>
      let? limits := parse path text in
      Ok {| path := path; current := limits; seen := Some text |}
  end.

Definition reload (f : FileLimits) (now : result string string) : FileLimits * Reload :=
  match now with
  | Err e =>
      ({| path := path f; current := current f; seen := None |},
       match seen f with
       | Some _ => Kept ("the limits file " +:+ path f +:+ " can't be read (" +:+ e +:+ "); keeping the last limits")
       | None => Unchanged
       end)
  | Ok text =>
      if match seen f with Some s => s =s text | None => false end then (f, Unchanged)
      else
        let seen' := Some text in
        match parse (path f) text with
        | Ok limits => ({| path := path f; current := limits; seen := seen' |}, Applied)
        | Err e => ({| path := path f; current := current f; seen := seen' |}, Kept (e +:+ "; keeping the last limits"))
        end
  end.

(** The looks of [watch], one after another. *)
Definition watch (f : FileLimits) (looks : list (result string string)) : FileLimits :=
  foldl (fun f now => (reload f now).1) f looks.

(** What boot reads the limits from. *)
Inductive Loaded : Type := Fixed (limits : Limits) | FromFile (file : FileLimits).

Definition limits (l : Loaded) : Limits :=
  match l with Fixed limits => limits | FromFile file => current file end.

Definition set_var (get : string -> option string) (name : string) : option string :=
  match get name with Some v => if nonempty (trim v) then Some v else None | None => None end.

Definition load_from (get : string -> option string) (files : string -> result string string) : result Loaded string :=
  let vars := filter (fun name => is_Some (set_var get name)) (var_name <$> Limit_ALL) in
  match set_var get FILE_VAR with
  | Some p =>
      match vars with
      | [] => let? file := open (trim p) (files (trim p)) in Ok (FromFile file)
      | _ :: _ =>
          Err ("set limits in " +:+ FILE_VAR +:+ " or in the HAPPYVIEW_LIMIT_* variables, not both (also set: "
               +:+ str_join ", " vars +:+ ")")
      end
  | None => let? l := from_vars get in Ok (Fixed l)
  end.

End File.

(** ** Retention settings *)

Definition CEILED_RETENTION_SETTINGS : list string := ["event_log_retention_days"; "backfill_retention_days"].

Definition check_retention_setting (l : Limits) (key value : string) : result unit LimitReached :=
  if negb (str_mem key CEILED_RETENTION_SETTINGS) then Ok tt
  else match parse_unsigned U32_MAX (trim value) with
       | Some days => check_ceiling l LogRetentionDays days
       | None => Ok tt
       end.

(** [u32::try_from(n).unwrap_or(u32::MAX)] of a row count. *)
Definition count_u32 (n : Z) : Z := if (0 <=? n) && (n <=? U32_MAX) then n else U32_MAX.

(** ** What the checks mean *)

(** A write is accepted exactly when the value it sets is the value in force. *)
Lemma ceiling_accepts_what_holds (l : Limits) (limit : Limit) (requested : Z) :
  is_ok (check_ceiling l limit requested) = true <-> cap l limit requested = requested.
Proof.
  unfold check_ceiling, cap. destruct (cap_of l limit) as [c|]; simpl; [|done].
  unfold ceiling. destruct (Z.eqb_spec requested 0); simpl; [lia|].
  destruct (Z.ltb_spec (Z.max (max c) 1) requested); simpl; lia.
Qed.

(** A check that passes leaves room for one more. *)
Lemma limit_check_ok (l : Limits) (limit : Limit) (n : Z) :
  check l limit n = Ok tt <-> forall c, cap_of l limit = Some c -> n + 1 <= max c.
Proof.
  unfold check. destruct (cap_of l limit) as [c|]; [|naive_solver].
  destruct (Z.leb_spec (max c) n); split; try done; intros H'; try (specialize (H' c eq_refl); lia); naive_solver lia.
Qed.

Section Watching.
Variable from_json : string -> result Limits string.
#[local] Abbreviation parse := (parse from_json).
#[local] Abbreviation watch := (watch from_json).

(** The limits a history of looks leaves in force: those of the last text that
    could be read and is a valid limits file. *)
Definition last_good (p : string) (start : Limits) (looks : list (result string string)) : Limits :=
  foldl (fun held now => match now with
                         | Ok text => match parse p text with Ok l => l | Err _ => held end
                         | Err _ => held
                         end) start looks.

(** What a text the file was seen with stands for is in force, when it is valid. *)
Definition in_step (f : FileLimits) : Prop :=
  forall text l, seen f = Some text -> parse (path f) text = Ok l -> current f = l.

Lemma reload_in_step f now :
  in_step f -> in_step (reload from_json f now).1 /\ path (reload from_json f now).1 = path f
  /\ current (reload from_json f now).1 = last_good (path f) (current f) [now].
Proof.
  intros Hf. destruct now as [text|e]; simpl; [|done].
  destruct (match seen f with Some s => s =s text | None => false end) eqn:E; simpl.
  - destruct (seen f) as [s|] eqn:Es; [|done]. apply String.eqb_eq in E as ->.
    split; [done|]. split; [done|]. destruct (parse (path f) text) as [l|] eqn:Ep; [by eapply Hf|done].
  - destruct (parse (path f) text) as [l|] eqn:Ep; simpl; (split; [|done]);
      intros text' l'; simpl; intros [= <-] Hp; congruence.
Qed.

(** Whatever the file goes through after boot, the limits in force are valid and
    those of the last text that could be read and was a valid limits file. *)
Theorem watched_limits_exact (p text0 : string) (f : FileLimits) (looks : list (result string string)) :
  open from_json p (Ok text0) = Ok f ->
  current (watch f looks) = last_good p (current f) looks /\ validate (current (watch f looks)) = Ok tt.
Proof.
  unfold open. destruct (parse p text0) as [l|] eqn:El; [|done]. intros [= <-]. simpl.
  assert (Hvalid : forall text l, parse p text = Ok l -> validate l = Ok tt).
  { intros text l'. unfold Limits.parse. destruct (from_json text) as [l1|]; [|done].
    destruct (validate l1) as [[]|] eqn:Ev; [|done]. by intros [= <-]. }
  set (f0 := {| path := p; current := l; seen := Some text0 |}).
  change (last_good p l looks) with (last_good p (current f0) looks).
  assert (in_step f0 /\ path f0 = p /\ validate (current f0) = Ok tt) as H.
  { split; [|split; [done|by eapply Hvalid]]. intros t l'. simpl. intros [= <-] Hp. congruence. }
  clearbody f0. revert f0 H. induction looks as [|now looks IH]; intros f0 (Hs & Hp & Hv); [done|].
  simpl. destruct (reload_in_step f0 now Hs) as (Hs' & Hp' & Hc').
  rewrite Hp in Hp'. rewrite Hp in Hc'. simpl in Hc'. rewrite <- Hc'. apply IH. split; [done|]. split; [done|].
  rewrite Hc'. destruct now as [t|]; [|done]. destruct (parse p t) as [l'|] eqn:E; [by eapply Hvalid|done].
Qed.

End Watching.
