(* ===== verification/Permissions.v ===== *)
(** * Permissions of the admin API

    [src/admin/permissions.rs]: the permissions, their names, the catalogue the
    dashboard lists and the role templates.  A [HashSet] is a [gset]. *)

From stdpp Require Import gmap strings countable.
From S2P Require Import Prelude RustStr.

Inductive Permission : Type :=
| LexiconsCreate
| LexiconsRead
| LexiconsDelete
| LexiconsPublish
| RecordsRead
| RecordsDelete
| RecordsDeleteCollection
| ScriptVariablesCreate
| ScriptVariablesRead
| ScriptVariablesDelete
| UsersCreate
| UsersRead
| UsersUpdate
| UsersDelete
| ApiKeysCreate
| ApiKeysRead
| ApiKeysDelete
| BackfillCreate
| BackfillRead
| StatsRead
| EventsRead
| EventsPurge
| MetricsRead
| LabelersCreate
| LabelersRead
| LabelersDelete
| SettingsManage
| PluginsRead
| PluginsCreate
| PluginsDelete
| ApiClientsView
| ApiClientsCreate
| ApiClientsEdit
| ApiClientsDelete
| DeadLettersRead
| DeadLettersManage
| SpacesCreate
| SpacesRead
| SpacesUpdate
| SpacesDelete
| SpacesManageMembers
| SpacesManageInvites
| SpacesManageRecords
| SpacesManageCredentials
| SpacesInspect
| ScriptsRead
| ScriptsManage
| JobsRead
| JobsCreate
| JobsManage
| LinkedReposRead
| LinkedReposCreate
| LinkedReposDelete
| ProjectDeploy.

(** The names the derived [Serialize] and [Deserialize] use. *)
Definition serde_names : list (string * Permission) := [
  ("lexicons:create", LexiconsCreate);
  ("lexicons:read", LexiconsRead);
  ("lexicons:delete", LexiconsDelete);
  ("lexicons:publish", LexiconsPublish);
  ("records:read", RecordsRead);
  ("records:delete", RecordsDelete);
  ("records:delete-collection", RecordsDeleteCollection);
  ("script-variables:create", ScriptVariablesCreate);
  ("script-variables:read", ScriptVariablesRead);
  ("script-variables:delete", ScriptVariablesDelete);
  ("users:create", UsersCreate);
  ("users:read", UsersRead);
  ("users:update", UsersUpdate);
  ("users:delete", UsersDelete);
  ("api-keys:create", ApiKeysCreate);
  ("api-keys:read", ApiKeysRead);
  ("api-keys:delete", ApiKeysDelete);
  ("backfill:create", BackfillCreate);
  ("backfill:read", BackfillRead);
  ("stats:read", StatsRead);
  ("events:read", EventsRead);
  ("events:purge", EventsPurge);
  ("metrics:read", MetricsRead);
  ("labelers:create", LabelersCreate);
  ("labelers:read", LabelersRead);
  ("labelers:delete", LabelersDelete);
  ("settings:manage", SettingsManage);
  ("plugins:read", PluginsRead);
  ("plugins:create", PluginsCreate);
  ("plugins:delete", PluginsDelete);
  ("api-clients:view", ApiClientsView);
  ("api-clients:create", ApiClientsCreate);
  ("api-clients:edit", ApiClientsEdit);
  ("api-clients:delete", ApiClientsDelete);
  ("dead-letters:read", DeadLettersRead);
  ("dead-letters:manage", DeadLettersManage);
  ("spaces:create", SpacesCreate);
  ("spaces:read", SpacesRead);
  ("spaces:update", SpacesUpdate);
  ("spaces:delete", SpacesDelete);
  ("spaces:manage-members", SpacesManageMembers);
  ("spaces:manage-invites", SpacesManageInvites);
  ("spaces:manage-records", SpacesManageRecords);
  ("spaces:manage-credentials", SpacesManageCredentials);
  ("spaces:inspect", SpacesInspect);
  ("scripts:read", ScriptsRead);
  ("scripts:manage", ScriptsManage);
  ("jobs:read", JobsRead);
  ("jobs:create", JobsCreate);
  ("jobs:manage", JobsManage);
  ("linked-repos:read", LinkedReposRead);
  ("linked-repos:create", LinkedReposCreate);
  ("linked-repos:delete", LinkedReposDelete);
  ("project:deploy", ProjectDeploy)].

(** [serde_json::from_value::<Permission>(Value::String(s)).ok()]. *)
Definition Permission_from_str (s : string) : option Permission := assoc_get serde_names s.

Definition Permission_as_str (p : Permission) : string :=
  match p with
  | LexiconsCreate => "lexicons:create"
  | LexiconsRead => "lexicons:read"
  | LexiconsDelete => "lexicons:delete"
  | LexiconsPublish => "lexicons:publish"
  | RecordsRead => "records:read"
  | RecordsDelete => "records:delete"
  | RecordsDeleteCollection => "records:delete-collection"
  | ScriptVariablesCreate => "script-variables:create"
  | ScriptVariablesRead => "script-variables:read"
  | ScriptVariablesDelete => "script-variables:delete"
  | UsersCreate => "users:create"
  | UsersRead => "users:read"
  | UsersUpdate => "users:update"
  | UsersDelete => "users:delete"
  | ApiKeysCreate => "api-keys:create"
  | ApiKeysRead => "api-keys:read"
  | ApiKeysDelete => "api-keys:delete"
  | BackfillCreate => "backfill:create"
  | BackfillRead => "backfill:read"
  | StatsRead => "stats:read"
  | EventsRead => "events:read"
  | EventsPurge => "events:purge"
  | MetricsRead => "metrics:read"
  | LabelersCreate => "labelers:create"
  | LabelersRead => "labelers:read"
  | LabelersDelete => "labelers:delete"
  | SettingsManage => "settings:manage"
  | PluginsRead => "plugins:read"
  | PluginsCreate => "plugins:create"
  | PluginsDelete => "plugins:delete"
  | ApiClientsView => "api-clients:view"
  | ApiClientsCreate => "api-clients:create"
  | ApiClientsEdit => "api-clients:edit"
  | ApiClientsDelete => "api-clients:delete"
  | DeadLettersRead => "dead-letters:read"
  | DeadLettersManage => "dead-letters:manage"
  | SpacesCreate => "spaces:create"
  | SpacesRead => "spaces:read"
  | SpacesUpdate => "spaces:update"
  | SpacesDelete => "spaces:delete"
  | SpacesManageMembers => "spaces:manage-members"
  | SpacesManageInvites => "spaces:manage-invites"
  | SpacesManageRecords => "spaces:manage-records"
  | SpacesManageCredentials => "spaces:manage-credentials"
  | SpacesInspect => "spaces:inspect"
  | ScriptsRead => "scripts:read"
  | ScriptsManage => "scripts:manage"
  | JobsRead => "jobs:read"
  | JobsCreate => "jobs:create"
  | JobsManage => "jobs:manage"
  | LinkedReposRead => "linked-repos:read"
  | LinkedReposCreate => "linked-repos:create"
  | LinkedReposDelete => "linked-repos:delete"
  | ProjectDeploy => "project:deploy"
  end.

Record PermissionInfo : Type := {
  key : string;
  name : string;
  description : string;
  category : string;
}.

Definition Permission_info (p : Permission) : PermissionInfo :=
  match p with
  | LexiconsCreate => {| key := "lexicons:create"; name := "Create Lexicons";
      description := "Upload and register new lexicon schemas"; category := "Lexicons" |}
  | LexiconsRead => {| key := "lexicons:read"; name := "View Lexicons";
      description := "View registered lexicon schemas"; category := "Lexicons" |}
  | LexiconsDelete => {| key := "lexicons:delete"; name := "Delete Lexicons";
      description := "Remove lexicon schemas"; category := "Lexicons" |}
  | LexiconsPublish => {| key := "lexicons:publish"; name := "Publish Lexicons";
      description := "Publish lexicons to the network and manage publishing rules"; category := "Lexicons" |}
  | RecordsRead => {| key := "records:read"; name := "View Records";
      description := "Browse indexed AT Protocol records"; category := "Records" |}
  | RecordsDelete => {| key := "records:delete"; name := "Delete Records";
      description := "Delete individual records from the index"; category := "Records" |}
  | RecordsDeleteCollection => {| key := "records:delete-collection"; name := "Delete Collections";
      description := "Bulk-delete all records in a collection"; category := "Records" |}
  | ScriptVariablesCreate => {| key := "script-variables:create"; name := "Create Script Variables";
      description := "Add or update script variables"; category := "Script Variables" |}
  | ScriptVariablesRead => {| key := "script-variables:read"; name := "View Script Variables";
      description := "View script variable keys, with values masked"; category := "Script Variables" |}
  | ScriptVariablesDelete => {| key := "script-variables:delete"; name := "Delete Script Variables";
      description := "Remove script variables"; category := "Script Variables" |}
  | UsersCreate => {| key := "users:create"; name := "Create Users";
      description := "Add operators to the instance"; category := "Users" |}
  | UsersRead => {| key := "users:read"; name := "View Users";
      description := "View operators and their permissions"; category := "Users" |}
  | UsersUpdate => {| key := "users:update"; name := "Update Users";
      description := "Change an operator's permissions"; category := "Users" |}
  | UsersDelete => {| key := "users:delete"; name := "Delete Users";
      description := "Remove operators from the instance"; category := "Users" |}
  | ApiKeysCreate => {| key := "api-keys:create"; name := "Create API Keys";
      description := "Generate new API keys for admin access"; category := "API Keys" |}
  | ApiKeysRead => {| key := "api-keys:read"; name := "View API Keys";
      description := "View existing API keys"; category := "API Keys" |}
  | ApiKeysDelete => {| key := "api-keys:delete"; name := "Revoke API Keys";
      description := "Revoke existing API keys"; category := "API Keys" |}
  | BackfillCreate => {| key := "backfill:create"; name := "Start Backfill";
      description := "Trigger historical record backfill jobs"; category := "Backfill" |}
  | BackfillRead => {| key := "backfill:read"; name := "View Backfill";
      description := "View backfill job status and progress"; category := "Backfill" |}
  | StatsRead => {| key := "stats:read"; name := "View Stats";
      description := "View collection statistics and record counts"; category := "System" |}
  | EventsRead => {| key := "events:read"; name := "View Events";
      description := "View the event log"; category := "System" |}
  | EventsPurge => {| key := "events:purge"; name := "Purge Events";
      description := "Bulk-delete event log entries matching a filter"; category := "System" |}
  | MetricsRead => {| key := "metrics:read"; name := "View Metrics";
      description := "View script run counts, latency, errors and resource use"; category := "System" |}
  | LabelersCreate => {| key := "labelers:create"; name := "Add Labelers";
      description := "Subscribe to external labeler services"; category := "Labelers" |}
  | LabelersRead => {| key := "labelers:read"; name := "View Labelers";
      description := "View subscribed labeler services"; category := "Labelers" |}
  | LabelersDelete => {| key := "labelers:delete"; name := "Remove Labelers";
      description := "Unsubscribe from labeler services"; category := "Labelers" |}
  | SettingsManage => {| key := "settings:manage"; name := "Manage Settings";
      description := "Modify instance settings, logo, and configuration"; category := "Settings" |}
  | PluginsRead => {| key := "plugins:read"; name := "View Plugins";
      description := "View installed plugins and their configuration"; category := "Plugins" |}
  | PluginsCreate => {| key := "plugins:create"; name := "Install Plugins";
      description := "Install and configure new plugins"; category := "Plugins" |}
  | PluginsDelete => {| key := "plugins:delete"; name := "Remove Plugins";
      description := "Uninstall plugins"; category := "Plugins" |}
  | ApiClientsView => {| key := "api-clients:view"; name := "View API Clients";
      description := "View registered OAuth API clients"; category := "API Clients" |}
  | ApiClientsCreate => {| key := "api-clients:create"; name := "Create API Clients";
      description := "Register new OAuth API clients"; category := "API Clients" |}
  | ApiClientsEdit => {| key := "api-clients:edit"; name := "Edit API Clients";
      description := "Modify API client settings and credentials"; category := "API Clients" |}
  | ApiClientsDelete => {| key := "api-clients:delete"; name := "Delete API Clients";
      description := "Remove registered API clients"; category := "API Clients" |}
  | DeadLettersRead => {| key := "dead-letters:read"; name := "View Dead Letters";
      description := "View failed hook executions"; category := "Dead Letters" |}
  | DeadLettersManage => {| key := "dead-letters:manage"; name := "Manage Dead Letters";
      description := "Retry, re-index, or dismiss dead letters"; category := "Dead Letters" |}
  | SpacesCreate => {| key := "spaces:create"; name := "Create Spaces";
      description := "Create new permissioned data spaces"; category := "Spaces" |}
  | SpacesRead => {| key := "spaces:read"; name := "View Spaces";
      description := "View space details, metadata, and members"; category := "Spaces" |}
  | SpacesUpdate => {| key := "spaces:update"; name := "Update Spaces";
      description := "Modify space settings"; category := "Spaces" |}
  | SpacesDelete => {| key := "spaces:delete"; name := "Delete Spaces";
      description := "Remove spaces and their data"; category := "Spaces" |}
  | SpacesManageMembers => {| key := "spaces:manage-members"; name := "Manage Members";
      description := "Add or remove space members and roles"; category := "Spaces" |}
  | SpacesManageInvites => {| key := "spaces:manage-invites"; name := "Manage Invites";
      description := "Create and revoke space invitations"; category := "Spaces" |}
  | SpacesManageRecords => {| key := "spaces:manage-records"; name := "Manage Records";
      description := "Reserved; grants no access. Use `spaces:inspect` to read space contents."; category := "Spaces" |}
  | SpacesManageCredentials => {| key := "spaces:manage-credentials"; name := "Manage Credentials";
      description := "Issue and revoke space access credentials"; category := "Spaces" |}
  | SpacesInspect => {| key := "spaces:inspect"; name := "Inspect Space Contents";
      description := "Request time-limited access to read records and blobs in private spaces"; category := "Spaces" |}
  | ScriptsRead => {| key := "scripts:read"; name := "View Scripts";
      description := "View trigger-keyed scripts"; category := "Scripts" |}
  | ScriptsManage => {| key := "scripts:manage"; name := "Manage Scripts";
      description := "Create, update, and delete trigger-keyed scripts"; category := "Scripts" |}
  | JobsRead => {| key := "jobs:read"; name := "View Jobs";
      description := "View background job status and progress"; category := "Jobs" |}
  | JobsCreate => {| key := "jobs:create"; name := "Create Jobs";
      description := "Queue new background jobs"; category := "Jobs" |}
  | JobsManage => {| key := "jobs:manage"; name := "Manage Jobs";
      description := "Cancel, pause, and resume background jobs"; category := "Jobs" |}
  | LinkedReposRead => {| key := "linked-repos:read"; name := "View Linked Repos";
      description := "View linked repos, their status, and their scopes"; category := "Linked Repos" |}
  | LinkedReposCreate => {| key := "linked-repos:create"; name := "Link Repos";
      description := "Add linked repos and start authorization flows"; category := "Linked Repos" |}
  | LinkedReposDelete => {| key := "linked-repos:delete"; name := "Unlink Repos";
      description := "Revoke linked repos and delete their stored sessions"; category := "Linked Repos" |}
  | ProjectDeploy => {| key := "project:deploy"; name := "Deploy Project";
      description := "Replace the instance's project with a deployed bundle and start the backfills it declares"; category := "Project" |}
  end.

(** ** Sets of permissions *)

Lemma from_str_as_str p : Permission_from_str (Permission_as_str p) = Some p.
Proof. by destruct p. Qed.

#[export] Instance Permission_eq_dec : EqDecision Permission.
Proof.
  refine (fun p q => match decide (Permission_as_str p = Permission_as_str q) with
                     | left H => left _ | right H => right _ end).
  - apply (f_equal Permission_from_str) in H. rewrite !from_str_as_str in H. by injection H.
  - by intros ->.
Defined.

#[export] Instance Permission_countable : Countable Permission :=
  inj_countable Permission_as_str Permission_from_str from_str_as_str.

Definition all : gset Permission := list_to_set [
  LexiconsCreate; LexiconsRead; LexiconsDelete; LexiconsPublish; RecordsRead; RecordsDelete;
  RecordsDeleteCollection; ScriptVariablesCreate; ScriptVariablesRead; ScriptVariablesDelete; UsersCreate;
  UsersRead; UsersUpdate; UsersDelete; ApiKeysCreate; ApiKeysRead; ApiKeysDelete; BackfillCreate;
  BackfillRead; StatsRead; EventsRead; EventsPurge; MetricsRead; LabelersCreate; LabelersRead;
  LabelersDelete; SettingsManage; PluginsRead; PluginsCreate; PluginsDelete; ApiClientsView;
  ApiClientsCreate; ApiClientsEdit; ApiClientsDelete; DeadLettersRead; DeadLettersManage; SpacesCreate;
  SpacesRead; SpacesUpdate; SpacesDelete; SpacesManageMembers; SpacesManageInvites; SpacesManageRecords;
  SpacesManageCredentials; SpacesInspect; ScriptsRead; ScriptsManage; JobsRead; JobsCreate; JobsManage;
  LinkedReposRead; LinkedReposCreate; LinkedReposDelete; ProjectDeploy].

Definition catalog : list PermissionInfo := Permission_info <$> [
  LexiconsCreate; LexiconsRead; LexiconsDelete; LexiconsPublish; RecordsRead; RecordsDelete;
  RecordsDeleteCollection; ScriptsRead; ScriptsManage; ScriptVariablesCreate; ScriptVariablesRead;
  ScriptVariablesDelete; UsersCreate; UsersRead; UsersUpdate; UsersDelete; ApiKeysCreate; ApiKeysRead;
  ApiKeysDelete; BackfillCreate; BackfillRead; StatsRead; EventsRead; EventsPurge; MetricsRead;
  LabelersCreate; LabelersRead; LabelersDelete; SettingsManage; PluginsRead; PluginsCreate; PluginsDelete;
  ApiClientsView; ApiClientsCreate; ApiClientsEdit; ApiClientsDelete; DeadLettersRead; DeadLettersManage;
  SpacesCreate; SpacesRead; SpacesUpdate; SpacesDelete; SpacesManageMembers; SpacesManageInvites;
  SpacesManageRecords; SpacesManageCredentials; SpacesInspect; JobsRead; JobsCreate; JobsManage;
  LinkedReposRead; LinkedReposCreate; LinkedReposDelete; ProjectDeploy].

Definition is_valid (key : string) : bool := bool_decide (is_Some (Permission_from_str key)).

(** ** Templates *)

Inductive Template : Type := Viewer | Maintainer | Manager | FullAccess.

Definition Template_ALL : list Template := [Viewer; Maintainer; Manager; FullAccess].

Definition Template_key (t : Template) : string :=
  match t with Viewer => "viewer" | Maintainer => "maintainer" | Manager => "manager" | FullAccess => "full_access" end.

Definition Template_label (t : Template) : string :=
  match t with Viewer => "Viewer" | Maintainer => "Maintainer" | Manager => "Manager" | FullAccess => "Full Access" end.

(** The derived [Deserialize], with its alias. *)
Definition Template_from_str (s : string) : option Template :=
  assoc_get [("viewer", Viewer); ("maintainer", Maintainer); ("operator", Maintainer); ("manager", Manager);
             ("full_access", FullAccess)] s.

Definition viewer_permissions : gset Permission := list_to_set [
  LexiconsRead; RecordsRead; ScriptVariablesRead; ScriptsRead; UsersRead; ApiKeysRead; BackfillRead;
  StatsRead; EventsRead; MetricsRead; DeadLettersRead].

Definition maintainer_permissions : gset Permission :=
  viewer_permissions ∪ list_to_set [
    BackfillCreate; ApiKeysCreate; ApiKeysDelete; DeadLettersManage].

Definition manager_permissions : gset Permission :=
  maintainer_permissions ∪ list_to_set [
    LexiconsCreate; LexiconsDelete; LexiconsPublish; ScriptVariablesCreate; ScriptVariablesDelete;
    ScriptsManage; ProjectDeploy; RecordsDelete; LabelersCreate; LabelersRead; LabelersDelete;
    SettingsManage; PluginsRead; PluginsCreate; PluginsDelete; ApiClientsView; ApiClientsCreate;
    ApiClientsEdit; ApiClientsDelete; SpacesCreate; SpacesRead; SpacesUpdate; SpacesDelete;
    SpacesManageMembers; SpacesManageInvites; SpacesManageRecords; SpacesManageCredentials].

Definition Template_permissions (t : Template) : gset Permission :=
  match t with
  | Viewer => viewer_permissions
  | Maintainer => maintainer_permissions
  | Manager => manager_permissions
  | FullAccess => all
  end.

Record TemplateInfo : Type := { ti_key : string; ti_label : string; ti_permissions : list string }.

(** A [HashSet] iterates in no particular order; here it is the set's own. *)
Definition Template_info (t : Template) : TemplateInfo :=
  {| ti_key := Template_key t; ti_label := Template_label t;
     ti_permissions := Permission_as_str <$> elements (Template_permissions t) |}.

(** ** What the tables promise *)

Lemma as_str_from_str s p : Permission_from_str s = Some p <-> s = Permission_as_str p.
Proof.
  split; [|intros ->; apply from_str_as_str]. unfold Permission_from_str, serde_names. simpl.
  repeat match goal with
  | |- context [String.eqb ?a s] => destruct (String.eqb_spec a s) as [<-|]; [by intros [= <-]|]
  end. done.
Qed.

(** [Permission::all] is everything there is, and the catalogue lists each
    permission once under its own name. *)
Lemma all_complete p : p ∈ all.
Proof. unfold all. apply elem_of_list_to_set. destruct p; simpl; set_solver. Qed.

Lemma info_key p : key (Permission_info p) = Permission_as_str p.
Proof. by destruct p. Qed.

Lemma catalog_complete :
  (forall p, Permission_as_str p ∈ (key <$> catalog)) /\ NoDup (key <$> catalog)
  /\ forall i, i ∈ catalog -> exists p, i = Permission_info p.
Proof.
  split; [|split].
  - intros p. apply str_mem_true. by destruct p.
  - apply (bool_decide_unpack _). by vm_compute.
  - intros i (p & -> & _)%list_elem_of_fmap. by exists p.
Qed.

(** Each template holds what the one before it holds, and only full access holds
    the two permissions that are granted deliberately. *)
Lemma templates_nested :
  Template_permissions Viewer ⊆ Template_permissions Maintainer
  /\ Template_permissions Maintainer ⊆ Template_permissions Manager
  /\ Template_permissions Manager ⊆ Template_permissions FullAccess
  /\ forall t, t <> FullAccess -> (EventsPurge ∉ Template_permissions t) /\ (SpacesInspect ∉ Template_permissions t).
Proof.
  split; [|split; [|split]].
  - apply union_subseteq_l.
  - apply union_subseteq_l.
  - intros p _. apply all_complete.
  - intros t Ht. destruct t; [| | |done]; (split; apply (bool_decide_unpack _); vm_compute; exact I).
Qed.
