(* ===== verification/Admin.v ===== *)
(** * Users, permissions and API keys of the admin API

    [src/admin/auth.rs], [src/admin/users.rs], [src/admin/api_keys.rs] and
    [src/admin/platform.rs].  The three tables and the event log are a record
    [Db].  A handler is a program ([prog]) of database statements: every
    statement is atomic and may fail, a transaction is one statement, and
    between two statements other requests run ([World], [exec]).  What the
    session layer says of a request (its claims and the scope its app was
    granted), the clock and the random values are part of the request; SHA-256,
    the JSON text of a list of strings and the resolution of handles are
    parameters.  The text of an internal error is left out. *)

From stdpp Require Import gmap strings list sorting.
From Stdlib Require Import ZArith Lia.
From S2P Require Import Prelude RustStr Regex UrlCoding Json ClientScopes Limits Permissions.
#[local] Open Scope Z_scope.

(** ** The tables *)

Record User : Type := {
  u_id : string;
  u_did : string;
  u_super : Z;
  u_created_at : string;
  u_last_used_at : option string;
}.

(** A row of [happyview_user_permissions]. *)
Record Grant : Type := {
  g_user_id : string;
  g_permission : string;
  g_granted_by : option string;
  g_granted_at : string;
}.

Record ApiKey : Type := {
  k_id : string;
  k_user_id : string;
  k_name : string;
  k_hash : string;
  k_prefix : string;
  k_permissions : string;
  k_created_at : string;
  k_last_used_at : option string;
  k_revoked_at : option string;
}.

Inductive Severity : Type := SInfo | SWarn | SError.

Record EventLog : Type := {
  event_type : string;
  severity : Severity;
  actor_did : option string;
  subject : option string;
  detail : value;
}.

Record Db : Type := { users : list User; grants : list Grant; keys : list ApiKey; events : list EventLog }.

Definition set_users (db : Db) (l : list User) : Db :=
  {| users := l; grants := grants db; keys := keys db; events := events db |}.
Definition set_grants (db : Db) (l : list Grant) : Db :=
  {| users := users db; grants := l; keys := keys db; events := events db |}.
Definition set_keys (db : Db) (l : list ApiKey) : Db :=
  {| users := users db; grants := grants db; keys := l; events := events db |}.
Definition set_events (db : Db) (l : list EventLog) : Db :=
  {| users := users db; grants := grants db; keys := keys db; events := l |}.

Definition set_super_flag (v : Z) (u : User) : User :=
  {| u_id := u_id u; u_did := u_did u; u_super := v; u_created_at := u_created_at u; u_last_used_at := u_last_used_at u |}.
Definition set_user_used (now : string) (u : User) : User :=
  {| u_id := u_id u; u_did := u_did u; u_super := u_super u; u_created_at := u_created_at u; u_last_used_at := Some now |}.
Definition forget_granter (id : string) (g : Grant) : Grant :=
  {| g_user_id := g_user_id g; g_permission := g_permission g;
     g_granted_by := match g_granted_by g with Some by_ => if by_ =s id then None else Some by_ | None => None end;
     g_granted_at := g_granted_at g |}.
Definition set_revoked (now : string) (k : ApiKey) : ApiKey :=
  {| k_id := k_id k; k_user_id := k_user_id k; k_name := k_name k; k_hash := k_hash k; k_prefix := k_prefix k;
     k_permissions := k_permissions k; k_created_at := k_created_at k; k_last_used_at := k_last_used_at k;
     k_revoked_at := Some now |}.
Definition set_key_used (now : string) (k : ApiKey) : ApiKey :=
  {| k_id := k_id k; k_user_id := k_user_id k; k_name := k_name k; k_hash := k_hash k; k_prefix := k_prefix k;
     k_permissions := k_permissions k; k_created_at := k_created_at k; k_last_used_at := Some now;
     k_revoked_at := k_revoked_at k |}.

(** [UPDATE .. SET .. WHERE]: the rows with the condition changed. *)
Definition update_where {A} (p : A -> bool) (f : A -> A) (l : list A) : list A :=
  (fun x => if p x then f x else x) <$> l.

Definition rows_where {A} (p : A -> bool) (l : list A) : nat := length (List.filter p l).

(** ** The statements

    [None] is a statement that fails on a constraint. *)

Definition stmt (A : Type) : Type := Db -> option (Db * A).

Definition count_users : stmt Z := fun db => Some (db, Z.of_nat (length (users db))).
Definition user_by_did (did : string) : stmt (option User) :=
  fun db => Some (db, List.find (fun u => u_did u =s did) (users db)).
Definition user_by_id (id : string) : stmt (option User) :=
  fun db => Some (db, List.find (fun u => u_id u =s id) (users db)).
Definition all_users : stmt (list User) := fun db => Some (db, users db).
Definition permissions_of (user_id : string) : stmt (list string) :=
  fun db => Some (db, g_permission <$> List.filter (fun g => g_user_id g =s user_id) (grants db)).

(** [id] is the primary key and [did] is unique. *)
Definition insert_user (u : User) : stmt unit := fun db =>
  if existsb (fun v => (u_id v =s u_id u) || (u_did v =s u_did u)) (users db) then None
  else Some (set_users db (users db ++ [u]), tt).

Definition user_exists (db : Db) (id : string) : bool := existsb (fun u => u_id u =s id) (users db).

(** [user_id] and [granted_by] refer to users; the pair of user and permission is
    the primary key. *)
Definition granted (db : Db) (g : Grant) : bool :=
  existsb (fun h => (g_user_id h =s g_user_id g) && (g_permission h =s g_permission g)) (grants db).
Definition grant_refers (db : Db) (g : Grant) : bool :=
  user_exists db (g_user_id g) && match g_granted_by g with Some by_ => user_exists db by_ | None => true end.

Definition insert_grant (g : Grant) : stmt unit := fun db =>
  if granted db g then None
  else if grant_refers db g then Some (set_grants db (grants db ++ [g]), tt) else None.
Definition insert_grant_or_ignore (g : Grant) : stmt unit := fun db =>
  if granted db g then Some (db, tt)
  else if grant_refers db g then Some (set_grants db (grants db ++ [g]), tt) else None.
Definition delete_grant (user_id permission : string) : stmt unit := fun db =>
  Some (set_grants db (List.filter (fun g => negb ((g_user_id g =s user_id) && (g_permission g =s permission))) (grants db)), tt).

Definition set_super (id : string) (v : Z) : stmt nat := fun db =>
  Some (set_users db (update_where (fun u => u_id u =s id) (set_super_flag v) (users db)),
        rows_where (fun u => u_id u =s id) (users db)).
Definition set_super_others (id : string) (v : Z) : stmt unit := fun db =>
  Some (set_users db (update_where (fun u => negb (u_id u =s id)) (set_super_flag v) (users db)), tt).

(** Deleting a user deletes its permissions and keys and clears it as granter. *)
Definition delete_user_row (id : string) : stmt nat := fun db =>
  Some ({| users := List.filter (fun u => negb (u_id u =s id)) (users db);
           grants := forget_granter id <$> List.filter (fun g => negb (g_user_id g =s id)) (grants db);
           keys := List.filter (fun k => negb (k_user_id k =s id)) (keys db);
           events := events db |},
        rows_where (fun u => u_id u =s id) (users db)).

Definition live (k : ApiKey) : bool := match k_revoked_at k with None => true | Some _ => false end.

Definition revoke_keys_of (user_id now : string) : stmt unit := fun db =>
  Some (set_keys db (update_where (fun k => (k_user_id k =s user_id) && live k) (set_revoked now) (keys db)), tt).
Definition insert_key (k : ApiKey) : stmt unit := fun db =>
  if existsb (fun j => k_id j =s k_id k) (keys db) || negb (user_exists db (k_user_id k)) then None
  else Some (set_keys db (keys db ++ [k]), tt).
Definition revoke_key (id did now : string) : stmt nat := fun db =>
  let owned k := match List.find (fun u => u_did u =s did) (users db) with
                 | Some u => k_user_id k =s u_id u
                 | None => false
                 end in
  let p k := (k_id k =s id) && owned k && live k in
  Some (set_keys db (update_where p (set_revoked now) (keys db)), rows_where p (keys db)).

(** The first live key with the hash that joins a user. *)
Definition owner (db : Db) (k : ApiKey) : option User := List.find (fun u => u_id u =s k_user_id k) (users db).
Definition key_by_hash (hash : string) : stmt (option (ApiKey * User)) := fun db =>
  Some (db, head (omap (fun k => if (k_hash k =s hash) && live k then pair k <$> owner db k else None) (keys db))).
Definition keys_of_did (did : string) : stmt (list ApiKey) := fun db =>
  Some (db, List.filter (fun k => match owner db k with Some u => u_did u =s did | None => false end) (keys db)).

Definition touch_user (id now : string) : stmt unit := fun db =>
  Some (set_users db (update_where (fun u => u_id u =s id) (set_user_used now) (users db)), tt).
Definition touch_key (id now : string) : stmt unit := fun db =>
  Some (set_keys db (update_where (fun k => k_id k =s id) (set_key_used now) (keys db)), tt).
Definition write_event (e : EventLog) : stmt unit := fun db => Some (set_events db (events db ++ [e]), tt).

(** ** Programs *)

Inductive prog (R : Type) : Type :=
| Ret (r : R)
| Sql {A : Type} (s : stmt A) (k : option A -> prog R)
| Spawn (s : stmt unit) (k : prog R).
Arguments Ret {R} r.
Arguments Sql {R A} s k.
Arguments Spawn {R} s k.

Fixpoint bind {R T} (m : prog R) (f : R -> prog T) : prog T :=
  match m with
  | Ret r => f r
  | Sql s k => Sql s (fun a => bind (k a) f)
  | Spawn s k => Spawn s (bind k f)
  end.

Inductive AdminError : Type :=
| EAuth (message : string)
| EForbidden (message : string)
| EInsufficientPermissions (permission : string)
| EBadRequest (message : string)
| ENotFound (message : string)
| EConflict (message : string)
| ELimitReached (l : LimitReached)
| EInternal.

Definition handler (R : Type) : Type := prog (result R AdminError).
Definition ok {R} (r : R) : handler R := Ret (Ok r).
Definition err {R} (e : AdminError) : handler R := Ret (Err e).

(** [.await?] on a handler and on a statement. *)
Notation "'let*' x := m 'in' k" :=
  (bind m (fun r => match r with Ok x => k | Err e => Ret (Err e) end))
  (at level 10, x pattern, m at level 100, k at level 200) : happyview_scope.
Notation "'sql' x := s 'in' k" :=
  (Sql s (fun r => match r with Some x => k | None => Ret (Err EInternal) end))
  (at level 10, x pattern, s at level 100, k at level 200) : happyview_scope.

(** A loop whose body can fail, and one that ignores failures. *)
Fixpoint for_each {A} (l : list A) (body : A -> stmt unit) : handler unit :=
  match l with
  | [] => ok tt
  | x :: l => sql _ := body x in for_each l body
  end.
Fixpoint for_each_ignoring {A R} (l : list A) (body : A -> stmt unit) (k : prog R) : prog R :=
  match l with
  | [] => k
  | x :: l => Sql (body x) (fun _ => for_each_ignoring l body k)
  end.

(** [log_event]: a failure is only traced. *)
Definition log_event {R} (e : EventLog) (k : prog R) : prog R := Sql (write_event e) (fun _ => k).

(** Statements of one transaction. *)
Definition and_then {A B} (s : stmt A) (f : A -> stmt B) : stmt B :=
  fun db => match s db with Some (db', a) => f a db' | None => None end.
Definition return_ {A} (a : A) : stmt A := fun db => Some (db, a).
(** The transaction ends here without a commit. *)
Definition rollback {A} (db0 : Db) (a : A) : stmt A := fun _ => Some (db0, a).
Fixpoint each {A} (l : list A) (body : A -> stmt unit) : stmt unit :=
  match l with
  | [] => return_ tt
  | x :: l => and_then (body x) (fun _ => each l body)
  end.

(** ** Authentication *)

Definition PLATFORM_ACTOR : string := "platform".
Definition PLATFORM_PERMISSIONS : list Permission := [StatsRead; MetricsRead].

Record Claims : Type := {
  c_did : string;
  c_client_key : option string;
  c_dpop_key_id : option string;
  c_service_auth_lxm : option (option string);
}.

Record UserAuth : Type := {
  did : string;
  user_id : string;
  is_super : bool;
  is_platform : bool;
  permissions : gset Permission;
}.

Definition has (auth : UserAuth) (p : Permission) : bool := is_super auth || bool_decide (p ∈ permissions auth).

Definition log_permission_denied {R} (auth : UserAuth) (permission : string) (k : prog R) : prog R :=
  log_event {| event_type := "auth.permission_denied"; severity := SWarn; actor_did := Some (did auth);
               subject := Some permission;
               detail := VObject [("user_id", VString (user_id auth)); ("required_permission", VString permission)] |} k.

Definition require (auth : UserAuth) (p : Permission) : handler unit :=
  if has auth p then ok tt
  else log_permission_denied auth (Permission_as_str p) (err (EInsufficientPermissions (Permission_as_str p))).

Definition require_domain_read (auth : UserAuth) : handler unit :=
  if is_platform auth then ok tt else require auth SettingsManage.

Definition require_rotation_read (auth : UserAuth) : handler unit :=
  if is_platform auth then ok tt else require auth SettingsManage.

Definition require_domain_write (auth : UserAuth) (platform_managed : bool) : handler unit :=
  if is_platform auth then ok tt
  else if platform_managed
  then log_permission_denied auth "platform"
         (err (EForbidden "this instance's domains are managed by its hosting platform"))
  else require auth SettingsManage.

(** A permission list as a set, without the entries that are not recognized. *)
Definition parse_permissions (key_permissions : list string) : gset Permission :=
  list_to_set (omap Permission_from_str key_permissions).

Definition load_permissions (user_id : string) : handler (gset Permission) :=
  sql rows := permissions_of user_id in ok (parse_permissions rows).

(** The loop keeps the recognized entries the user holds. *)
Definition load_api_key_permissions (user_id : string) (key_permissions : list string) : handler (gset Permission) :=
  let* user_perms := load_permissions user_id in
  ok (list_to_set (omap (fun s => match Permission_from_str s with
                                  | Some p => if bool_decide (p ∈ user_perms) then Some p else None
                                  | None => None
                                  end) key_permissions)).

Record AdminCaller : Type := { caller_did : string; caller_permissions : list string; caller_platform : bool }.

(** What [require_admin_caller] hands a record source. *)
Definition admin_caller (auth : UserAuth) : AdminCaller :=
  let held := if is_super auth then all else permissions auth in
  {| caller_did := did auth;
     caller_permissions := merge_sort (fun a b => String.leb a b) (Permission_as_str <$> elements held);
     caller_platform := is_platform auth |}.

(** What is configured, and what a request brings: its [Authorization] header,
    what the session layer answers for its claims, the scope its app was granted,
    and the instants and identifiers drawn while it runs. *)
Record Config : Type := {
  platform_api_key_hash : option string;
  superadmin_did : option string;
  keyring : bool;
  instance_limits : Limits;
}.

Record Parts : Type := {
  authorization : option string;
  claims : result Claims AdminError;
  granted_scope : result string AdminError;
  now : string;
  boot_id : string;
  new_id : string;
  random_hex : string;
}.

Section Model.
Context {RE : RegexEngine} {UD : UrlDecoder}.
Variable sha256_hex : string -> string.
Variable to_json : list string -> string.
Variable from_json : string -> option (list string).
Variable resolve_identifier : string -> result string AdminError.
Variable config : Config.

Definition require_admin_grant (parts : Parts) (c : Claims) : result unit AdminError :=
  match c_service_auth_lxm c with
  | Some _ =>
      Err (EForbidden ("the admin API does not accept service-auth tokens; sign in with an app granted "
                       +:+ "dev.happyview.adminFull, or use an API key"))
  | None =>
      match c_client_key c, c_dpop_key_id c with
      | Some _, Some _ =>
          if negb (keyring config) then Err EInternal
          else let? granted := granted_scope parts in
               if negb (grants_admin granted)
               then Err (EForbidden ("this sign-in did not grant " +:+ PERMISSION_SET
                          +:+ "; sign in again and approve managing your HappyView instances"))
               else Ok tt
      | _, _ => Ok tt
      end
  end.

(** The token of an [Authorization] header that is an API key. *)
Definition api_key_token (parts : Parts) : option string :=
  match authorization parts with
  | None => None
  | Some header =>
      match (match strip_prefix "Bearer " header with Some t => Some t | None => strip_prefix "DPoP " header end) with
      | Some t => if starts_with "hv_" t then Some t else None
      | None => None
      end
  end.

Definition try_api_key_auth (parts : Parts) : handler (option UserAuth) :=
  match api_key_token parts with
  | None => ok None
  | Some token =>
      let hash := sha256_hex token in
      if match platform_api_key_hash config with Some h => hash =s h | None => false end
      then ok (Some {| did := PLATFORM_ACTOR; user_id := ""; is_super := false; is_platform := true;
                       permissions := list_to_set PLATFORM_PERMISSIONS |})
      else
        sql row := key_by_hash hash in
        match row with
        | None => err (EAuth "invalid or revoked API key")
        | Some (k, u) =>
            let key_permissions := default [] (from_json (k_permissions k)) in
            let* perms := (if negb (u_super u =? 0) then ok (parse_permissions key_permissions)
                           else load_api_key_permissions (u_id u) key_permissions) in
            Spawn (touch_key (k_id k) (now parts))
              (ok (Some {| did := u_did u; user_id := u_id u; is_super := false; is_platform := false;
                           permissions := perms |}))
        end
  end.

(** The first sign-in of an instance without users. *)
Definition bootstrap {R} (parts : Parts) (user_did : string) (k : prog R) : prog R :=
  let id := boot_id parts in
  Sql (insert_user {| u_id := id; u_did := user_did; u_super := 1; u_created_at := now parts; u_last_used_at := None |})
    (fun r =>
       match r with
       | None => k
       | Some _ =>
           for_each_ignoring (elements all)
             (fun p => insert_grant {| g_user_id := id; g_permission := Permission_as_str p; g_granted_by := None;
                                       g_granted_at := now parts |})
             (log_event {| event_type := "user.bootstrapped"; severity := SInfo; actor_did := None;
                           subject := Some user_did; detail := VObject [] |} k)
       end).

Definition sign_in (parts : Parts) (user_did : string) : handler UserAuth :=
  sql found := user_by_did user_did in
  match found with
  | None => err (EForbidden "not a user")
  | Some u =>
      let super := negb (u_super u =? 0) in
      let* perms := (if super then ok ∅ else load_permissions (u_id u)) in
      Spawn (touch_user (u_id u) (now parts))
        (ok {| did := user_did; user_id := u_id u; is_super := super; is_platform := false; permissions := perms |})
  end.

Definition authenticate (parts : Parts) : handler UserAuth :=
  let* by_key := try_api_key_auth parts in
  match by_key with
  | Some auth => ok auth
  | None =>
      match claims parts with
      | Err e => err e
      | Ok c =>
          match require_admin_grant parts c with
          | Err e => err e
          | Ok _ =>
              sql count := count_users in
              if (count =? 0) && match superadmin_did config with None => true | Some _ => false end
              then bootstrap parts (c_did c) (sign_in parts (c_did c))
              else sign_in parts (c_did c)
          end
      end
  end.

(** The extractor of [UserAuth]; [AllowPlatform] is [authenticate]. *)
Definition user_auth (parts : Parts) : handler UserAuth :=
  let* auth := authenticate parts in
  if is_platform auth then err (EForbidden "the platform key cannot use this endpoint") else ok auth.

(** ** Users *)

Inductive Response : Type :=
| NoContent
| CreatedUser (id user_did : string)
| CreatedKey (id key_name raw_key prefix : string) (perms : list string)
| OneUser (u : User) (perms : list string)
| ListedUsers (l : list (User * list string))
| ListedKeys (l : list (ApiKey * list string))
| SuperUserSet (id user_did : string).

Record CreateUserBody : Type := {
  cu_did : string;
  cu_template : option Template;
  cu_permissions : option (list string);
}.

Record UpdatePermissionsBody : Type := { up_grant : list string; up_revoke : list string }.

Definition perms_to_grant (body : CreateUserBody) : list string :=
  match cu_permissions body with
  | Some explicit => explicit
  | None => Permission_as_str <$> elements (Template_permissions (default Viewer (cu_template body)))
  end.

(** The escalation guards: the first recognized entry the actor does not hold. *)
Definition not_held (auth : UserAuth) (perms : list string) : option string :=
  if is_super auth then None
  else List.find (fun s => match Permission_from_str s with
                           | Some p => negb (bool_decide (p ∈ permissions auth))
                           | None => false
                           end) perms.

Definition template_name (t : Template) : string :=
  match t with Viewer => "viewer" | Maintainer => "maintainer" | Manager => "manager" | FullAccess => "fullaccess" end.

Definition strings (l : list string) : value := VArray (VString <$> l).

Definition create_user (parts : Parts) (auth : UserAuth) (body : CreateUserBody) : handler Response :=
  let* _ := require auth UsersCreate in
  let grants := perms_to_grant body in
  match not_held auth grants with
  | Some s => err (EForbidden ("Cannot grant permission you don't have: " +:+ s))
  | None =>
      match resolve_identifier (cu_did body) with
      | Err e => err e
      | Ok user_did =>
          sql existing := user_by_did user_did in
          match existing with
          | Some _ => err (EConflict ("user '" +:+ user_did +:+ "' already exists"))
          | None =>
              sql count := count_users in
              match check (instance_limits config) Seats (count_u32 count) with
              | Err l => err (ELimitReached l)
              | Ok _ =>
                  sql _ := insert_user {| u_id := new_id parts; u_did := user_did; u_super := 0;
                                          u_created_at := now parts; u_last_used_at := None |} in
                  let* _ := for_each grants
                    (fun s => insert_grant_or_ignore {| g_user_id := new_id parts; g_permission := s;
                                                        g_granted_by := Some (user_id auth); g_granted_at := now parts |}) in
                  log_event {| event_type := "user.created"; severity := SInfo; actor_did := Some (did auth);
                               subject := Some user_did;
                               detail := VObject [("template", match cu_template body with
                                                               | Some t => VString (template_name t) | None => VNull end);
                                                  ("permissions", strings grants)] |}
                    (ok (CreatedUser (new_id parts) user_did))
              end
          end
      end
  end.

Definition user_summary (u : User) : handler (User * list string) :=
  sql perms := permissions_of (u_id u) in
  ok (u, merge_sort (fun a b => String.leb a b) perms).

Fixpoint summaries (l : list User) : handler (list (User * list string)) :=
  match l with
  | [] => ok []
  | u :: l => let* s := user_summary u in let* rest := summaries l in ok (s :: rest)
  end.

Definition list_users (auth : UserAuth) : handler Response :=
  let* _ := require auth UsersRead in
  sql rows := all_users in
  let* l := summaries (merge_sort (fun a b => String.leb (u_created_at a) (u_created_at b)) rows) in
  ok (ListedUsers l).

Definition get_user (auth : UserAuth) (id : string) : handler Response :=
  let* _ := require auth UsersRead in
  sql found := user_by_id id in
  match found with
  | None => err (ENotFound ("user '" +:+ id +:+ "' not found"))
  | Some u => let* s := user_summary u in ok (OneUser s.1 s.2)
  end.

Definition unrecognized (perms : list string) : option string := List.find (fun s => negb (is_valid s)) perms.

Definition update_permissions (parts : Parts) (auth : UserAuth) (id : string) (body : UpdatePermissionsBody) : handler Response :=
  let* _ := require auth UsersUpdate in
  if user_id auth =s id then err (EForbidden "Cannot modify your own permissions")
  else
    sql target := user_by_id id in
    match target with
    | None => err (ENotFound ("user '" +:+ id +:+ "' not found"))
    | Some u =>
        if negb (u_super u =? 0) then err (EForbidden "Cannot modify super user's permissions")
        else
          match unrecognized (up_grant body ++ up_revoke body) with
          | Some s => err (EBadRequest ("Unrecognized permission: " +:+ s))
          | None =>
              match not_held auth (up_grant body) with
              | Some s => err (EForbidden ("Cannot grant permission you don't have: " +:+ s))
              | None =>
                  let* _ := for_each (up_grant body)
                    (fun s => insert_grant_or_ignore {| g_user_id := id; g_permission := s;
                                                        g_granted_by := Some (user_id auth); g_granted_at := now parts |}) in
                  let* _ := for_each (up_revoke body) (fun s => delete_grant id s) in
                  log_event {| event_type := "user.permissions_updated"; severity := SInfo; actor_did := Some (did auth);
                               subject := Some id;
                               detail := VObject [("granted", strings (up_grant body)); ("revoked", strings (up_revoke body))] |}
                    (ok NoContent)
              end
          end
    end.

Definition delete_user (parts : Parts) (auth : UserAuth) (id : string) : handler Response :=
  let* _ := require auth UsersDelete in
  if user_id auth =s id then err (EForbidden "Cannot delete yourself")
  else
    sql target := user_by_id id in
    match target with
    | None => err (ENotFound ("user '" +:+ id +:+ "' not found"))
    | Some u =>
        if negb (u_super u =? 0) then err (EForbidden "Cannot delete the super user")
        else
          sql _ := revoke_keys_of id (now parts) in
          sql rows := delete_user_row id in
          if (rows =? 0)%nat then err (ENotFound ("user '" +:+ id +:+ "' not found"))
          else log_event {| event_type := "user.deleted"; severity := SInfo; actor_did := Some (did auth);
                            subject := Some id; detail := VObject [] |} (ok NoContent)
    end.

(** The grants of every permission to one user. *)
Definition grant_all (id : string) (by_ : option string) (at_ : string) : stmt unit :=
  each (elements all) (fun p => insert_grant_or_ignore {| g_user_id := id; g_permission := Permission_as_str p;
                                                         g_granted_by := by_; g_granted_at := at_ |}).

Definition transfer_tx (parts : Parts) (auth : UserAuth) (target : string) : stmt (result unit AdminError) := fun db0 =>
  and_then (set_super target 1) (fun rows =>
    if (rows =? 0)%nat then rollback db0 (Err (ENotFound ("user '" +:+ target +:+ "' not found")))
    else
      and_then (if negb (target =s user_id auth) then and_then (set_super (user_id auth) 0) (fun _ => return_ tt)
                else return_ tt) (fun _ =>
      and_then (grant_all target (Some (user_id auth)) (now parts)) (fun _ => return_ (Ok tt)))) db0.

Definition transfer_super (parts : Parts) (auth : UserAuth) (target : string) : handler Response :=
  if negb (is_super auth) then err (EForbidden "Only the super user can transfer super status")
  else
    sql done := transfer_tx parts auth target in
    match done with
    | Err e => err e
    | Ok _ =>
        log_event {| event_type := "user.super_transferred"; severity := SWarn; actor_did := Some (did auth);
                     subject := Some target;
                     detail := VObject [("from_user_id", VString (user_id auth)); ("to_user_id", VString target)] |}
          (ok NoContent)
    end.

(** [list_permissions], after its [require]: the catalogue and the templates. *)
Definition listed_permissions (spaces_enabled : bool) : list PermissionInfo * list TemplateInfo :=
  (List.filter (fun p => spaces_enabled || negb (category p =s "Spaces")) catalog,
   (fun t => let info := Template_info t in
             {| ti_key := ti_key info; ti_label := ti_label info;
                ti_permissions := List.filter (fun p => spaces_enabled || negb (starts_with "spaces:" p)) (ti_permissions info) |})
     <$> Template_ALL).

(** ** API keys *)

Record CreateApiKeyBody : Type := { ck_name : string; ck_permissions : list string }.

Definition create_api_key (parts : Parts) (auth : UserAuth) (body : CreateApiKeyBody) : handler Response :=
  let* _ := require auth ApiKeysCreate in
  match not_held auth (ck_permissions body) with
  | Some s => err (EForbidden ("Cannot grant API key permission you don't have: " +:+ s))
  | None =>
      let raw_key := "hv_" +:+ random_hex parts in
      let key_prefix := str_take 11 raw_key in
      sql _ := insert_key {| k_id := new_id parts; k_user_id := user_id auth; k_name := ck_name body;
                             k_hash := sha256_hex raw_key; k_prefix := key_prefix;
                             k_permissions := to_json (ck_permissions body); k_created_at := now parts;
                             k_last_used_at := None; k_revoked_at := None |} in
      log_event {| event_type := "api_key.created"; severity := SInfo; actor_did := Some (did auth);
                   subject := Some (ck_name body);
                   detail := VObject [("key_prefix", VString key_prefix); ("permissions", strings (ck_permissions body))] |}
        (ok (CreatedKey (new_id parts) (ck_name body) raw_key key_prefix (ck_permissions body)))
  end.

Definition list_api_keys (auth : UserAuth) : handler Response :=
  let* _ := require auth ApiKeysRead in
  sql rows := keys_of_did (did auth) in
  ok (ListedKeys ((fun k => (k, default [] (from_json (k_permissions k))))
                  <$> merge_sort (fun a b => String.leb (k_created_at b) (k_created_at a)) rows)).

Definition revoke_api_key (parts : Parts) (auth : UserAuth) (id : string) : handler Response :=
  let* _ := require auth ApiKeysDelete in
  sql rows := revoke_key id (did auth) (now parts) in
  if (rows =? 0)%nat then err (ENotFound ("api key '" +:+ id +:+ "' not found"))
  else log_event {| event_type := "api_key.revoked"; severity := SInfo; actor_did := Some (did auth);
                    subject := Some id; detail := VObject [] |} (ok NoContent).

(** ** The platform and the configured superadmin *)

(** The one transaction of [transfer_super_user]; an attempt that finds the
    database busy changes nothing and is repeated. *)
Definition transfer_super_user (parts : Parts) (user_did : string) : stmt string :=
  and_then (user_by_did user_did) (fun existing =>
    and_then (match existing with
              | Some u => and_then (set_super (u_id u) 1) (fun _ => return_ (u_id u))
              | None => and_then (insert_user {| u_id := new_id parts; u_did := user_did; u_super := 1;
                                                 u_created_at := now parts; u_last_used_at := None |})
                          (fun _ => return_ (new_id parts))
              end) (fun id =>
    and_then (set_super_others id 0) (fun _ =>
    and_then (grant_all id None (now parts)) (fun _ => return_ id)))).

Definition set_super_user (parts : Parts) (auth : UserAuth) (body_did : string) : handler Response :=
  if negb (is_platform auth) then err (EForbidden "only the platform principal can set the super user")
  else
    let user_did := trim body_did in
    if negb (starts_with "did:" user_did) then err (EBadRequest "did must be a DID")
    else
      sql id := transfer_super_user parts user_did in
      log_event {| event_type := "user.super_set_by_platform"; severity := SInfo; actor_did := Some (did auth);
                   subject := Some user_did; detail := VObject [("user_id", VString id)] |}
        (ok (SuperUserSet id user_did)).

Inductive SuperadminSeed : Type := Created | Promoted | SeedUnchanged.

Definition seed_tx (parts : Parts) (user_did : string) : stmt SuperadminSeed :=
  and_then (user_by_did user_did) (fun existing =>
    match existing with
    | Some u =>
        if negb (u_super u =? 0) then return_ SeedUnchanged
        else and_then (set_super (u_id u) 1) (fun _ =>
             and_then (grant_all (u_id u) None (now parts)) (fun _ => return_ Promoted))
    | None =>
        and_then (insert_user {| u_id := new_id parts; u_did := user_did; u_super := 1;
                                 u_created_at := now parts; u_last_used_at := None |}) (fun _ =>
        and_then (grant_all (new_id parts) None (now parts)) (fun _ => return_ Created))
    end).

Definition ensure_configured_superadmin (parts : Parts) (user_did : string) : handler SuperadminSeed :=
  sql seed := seed_tx parts user_did in
  match seed with
  | SeedUnchanged => ok SeedUnchanged
  | _ =>
      log_event {| event_type := "user.bootstrapped"; severity := SInfo; actor_did := None;
                   subject := Some user_did; detail := VObject [("source", VString "config")] |} (ok seed)
  end.

(** ** Requests and their interleaving *)

Inductive Request : Type :=
| CreateUser (body : CreateUserBody)
| ListUsers
| GetUser (id : string)
| UpdatePermissions (id : string) (body : UpdatePermissionsBody)
| DeleteUser (id : string)
| TransferSuper (target : string)
| CreateApiKey (body : CreateApiKeyBody)
| ListApiKeys
| RevokeApiKey (id : string)
| SetSuperUser (body_did : string).

Definition handle (parts : Parts) (auth : UserAuth) (r : Request) : handler Response :=
  match r with
  | CreateUser body => create_user parts auth body
  | ListUsers => list_users auth
  | GetUser id => get_user auth id
  | UpdatePermissions id body => update_permissions parts auth id body
  | DeleteUser id => delete_user parts auth id
  | TransferSuper target => transfer_super parts auth target
  | CreateApiKey body => create_api_key parts auth body
  | ListApiKeys => list_api_keys auth
  | RevokeApiKey id => revoke_api_key parts auth id
  | SetSuperUser body_did => set_super_user parts auth body_did
  end.

(** The extractor of the route, then its handler. *)
Definition serve (parts : Parts) (r : Request) : handler Response :=
  let* auth := (match r with SetSuperUser _ => authenticate parts | _ => user_auth parts end) in
  handle parts auth r.

(** The database and the requests under way; a request that was answered stays as
    its answer.  A step runs the next statement of a request, which [fault]
    makes fail; a request that takes no further step was cut off. *)
Record World : Type := { db : Db; tasks : list (handler Response) }.

Inductive Action : Type :=
| Arrive (parts : Parts) (r : Request)
| Step (i : nat) (fault : bool).

(** One statement. *)
Definition advance (d : Db) (fault : bool) (p : handler Response) : Db * handler Response * list (handler Response) :=
  match p with
  | Ret r => (d, Ret r, [])
  | Sql s k =>
      if fault then (d, k None, [])
      else match s d with Some (d', a) => (d', k (Some a), []) | None => (d, k None, []) end
  | Spawn s k => (d, k, [Sql s (fun _ => ok NoContent)])
  end.

Definition exec (w : World) (a : Action) : World :=
  match a with
  | Arrive parts r => {| db := db w; tasks := tasks w ++ [serve parts r] |}
  | Step i fault =>
      match tasks w !! i with
      | None => w
      | Some p =>
          let '(d, p', new) := advance (db w) fault p in
          {| db := d; tasks := <[i := p']> (tasks w) ++ new |}
      end
  end.

Definition run (w : World) (l : list Action) : World := foldl exec w l.

(** ** What a request can do

    What the tables say a request's credentials are worth; the first session of an
    instance without users, which [bootstrap] makes a super user, has none yet. *)

Inductive Principal : Type :=
| Platform
| Person (super : bool) (perms : gset Permission).

Definition held (d : Db) (id : string) : gset Permission :=
  parse_permissions (g_permission <$> List.filter (fun g => g_user_id g =s id) (grants d)).

Definition signed_in (parts : Parts) : option string :=
  match claims parts with
  | Err _ => None
  | Ok c => match require_admin_grant parts c with Err _ => None | Ok _ => Some (c_did c) end
  end.

Definition power (d : Db) (parts : Parts) : option Principal :=
  match api_key_token parts with
  | Some token =>
      let hash := sha256_hex token in
      if match platform_api_key_hash config with Some h => hash =s h | None => false end then Some Platform
      else match head (omap (fun k => if (k_hash k =s hash) && live k then pair k <$> owner d k else None) (keys d)) with
           | None => None
           | Some (k, u) =>
               let listed := parse_permissions (default [] (from_json (k_permissions k))) in
               Some (Person false (if negb (u_super u =? 0) then listed else listed ∩ held d (u_id u)))
           end
  | None =>
      match signed_in parts with
      | None => None
      | Some user_did =>
          match List.find (fun u => u_did u =s user_did) (users d) with
          | None => None
          | Some u => if negb (u_super u =? 0) then Some (Person true ∅) else Some (Person false (held d (u_id u)))
          end
      end
  end.

End Model.
