(* ===== verification/AdminPower.v ===== *)
(** * What requests to the admin API cannot do

    No escalation: whatever requests a set of accounts and keys without super
    privileges sends, in whatever interleaving and whichever statements fail,
    no credential ends up worth more than it was plus what those requests were
    already allowed.  A super user remains: as long as requests run one after
    another, whatever fails and wherever a request is cut off. *)

From stdpp Require Import gmap strings list sorting pretty countable.
From Stdlib Require Import ZArith Lia.
From S2P Require Import Prelude RustStr Regex UrlCoding Json Decimal ClientScopes Limits Permissions Admin.
#[local] Open Scope Z_scope.

(** ** Invariants of programs

    [keeps I Q p]: from tables with [I], each statement of [p] leaves tables with
    [I] - which other requests may then change within [I] - and [p] answers with
    [Q]. *)

Definition preserves {A} (I : Db -> Prop) (s : stmt A) : Prop :=
  forall d d' a, I d -> s d = Some (d', a) -> I d'.

Definition yields {A} (I : Db -> Prop) (s : stmt A) (P : A -> Prop) : Prop :=
  forall d d' a, I d -> s d = Some (d', a) -> I d' /\ P a.

Fixpoint keeps {R} (I : Db -> Prop) (Q : R -> Prop) (p : prog R) : Prop :=
  match p with
  | Ret r => Q r
  | Sql s k =>
      (forall d d' a, I d -> s d = Some (d', a) -> I d' /\ keeps I Q (k (Some a))) /\ keeps I Q (k None)
  | Spawn s k => preserves I s /\ keeps I Q k
  end.

(** A postcondition of successful answers. *)
Definition okay {R} (P : R -> Prop) (r : result R AdminError) : Prop :=
  match r with Ok x => P x | Err _ => True end.

Section Keeps.
Context (I : Db -> Prop).

Lemma keeps_bind {R T} (P : R -> Prop) (Q : T -> Prop) (m : prog R) (f : R -> prog T) :
  keeps I P m -> (forall r, P r -> keeps I Q (f r)) -> keeps I Q (bind m f).
Proof.
  intros Hm Hf. induction m as [r|A s k IH|s k IH]; simpl in *; [by apply Hf| |].
  - destruct Hm as [Hs Hn]. split; [|by apply IH]. intros d d' a HI E.
    destruct (Hs d d' a HI E) as [? ?]. split; [done|by apply IH].
  - destruct Hm as [Hs Hk]. split; [done|by apply IH].
Qed.

Lemma keeps_ok {R} (Q : R -> Prop) x : Q x -> keeps I (okay Q) (ok x).
Proof. done. Qed.

Lemma keeps_err {R} (Q : R -> Prop) e : keeps I (okay Q) (err e).
Proof. done. Qed.

Lemma keeps_let {R T} (P : R -> Prop) (Q : T -> Prop) (m : handler R) (f : R -> handler T) :
  keeps I (okay P) m -> (forall x, P x -> keeps I (okay Q) (f x)) -> keeps I (okay Q) (let* x := m in f x).
Proof. intros Hm Hf. apply (keeps_bind (okay P)); [done|]. intros [x|e] Hx; [by apply Hf|done]. Qed.

Lemma keeps_sql {A R} (P : A -> Prop) (Q : R -> Prop) (s : stmt A) (f : A -> handler R) :
  yields I s P -> (forall x, P x -> keeps I (okay Q) (f x)) -> keeps I (okay Q) (sql x := s in f x).
Proof.
  intros Hs Hf. simpl. split; [|done]. intros d d' a HI E. destruct (Hs d d' a HI E). split; [done|by apply Hf].
Qed.

Lemma keeps_sql_any {A R} (Q : R -> Prop) (s : stmt A) (k : option A -> prog R) :
  preserves I s -> (forall x, keeps I Q (k x)) -> keeps I Q (Sql s k).
Proof. intros Hs Hk. split; [|done]. intros d d' a HI E. split; [by eapply Hs|done]. Qed.

Lemma preserves_yields {A} (s : stmt A) : preserves I s -> yields I s (fun _ => True).
Proof. intros Hs d d' a HI E. split; [by eapply Hs|done]. Qed.

Lemma keeps_for_each {A} (l : list A) (body : A -> stmt unit) :
  (forall x, x ∈ l -> preserves I (body x)) -> keeps I (okay (fun _ => True)) (for_each l body).
Proof.
  induction l as [|x l IH]; intros Hb; [done|]. cbn [for_each].
  apply (keeps_sql (fun _ => True)); [apply preserves_yields, Hb; set_solver|].
  intros _ _. apply IH. intros y Hy. apply Hb. set_solver.
Qed.

Lemma keeps_for_each_ignoring {A R} (Q : R -> Prop) (l : list A) (body : A -> stmt unit) (k : prog R) :
  (forall x, x ∈ l -> preserves I (body x)) -> keeps I Q k -> keeps I Q (for_each_ignoring l body k).
Proof.
  induction l as [|x l IH]; intros Hb Hk; [done|]. cbn [for_each_ignoring]. apply keeps_sql_any; [apply Hb; set_solver|].
  intros _. apply IH; [|done]. intros y Hy. apply Hb. set_solver.
Qed.

(** A transaction. *)
Lemma preserves_and_then {A B} (s : stmt A) (f : A -> stmt B) :
  preserves I s -> (forall a, preserves I (f a)) -> preserves I (and_then s f).
Proof.
  intros Hs Hf d d' b HI. unfold and_then. destruct (s d) as [[d1 a]|] eqn:E; [|done].
  intros E'. eapply Hf; [by eapply Hs|done].
Qed.

Lemma preserves_each {A} (l : list A) (body : A -> stmt unit) :
  (forall x, x ∈ l -> preserves I (body x)) -> preserves I (each l body).
Proof.
  induction l as [|x l IH]; intros Hb.
  - intros d d' a HI. by intros [= <- _].
  - apply preserves_and_then; [apply Hb; set_solver|]. intros _. apply IH. intros y Hy. apply Hb. set_solver.
Qed.

End Keeps.

Lemma keeps_mono {R} I (P Q : R -> Prop) (p : prog R) : keeps I P p -> (forall r, P r -> Q r) -> keeps I Q p.
Proof.
  intros Hp HPQ. induction p as [r|A s k IH|s k IH]; simpl in *; [by apply HPQ| |].
  - destruct Hp as [Hs Hn]. split; [|by apply IH]. intros d d' a HI E. destruct (Hs d d' a HI E). split; [done|by apply IH].
  - destruct Hp. split; [done|by apply IH].
Qed.

(** A concurrent run keeps what all its requests keep. *)
Section Worlds.
Context {RE : RegexEngine} {UD : UrlDecoder}.
Variable sha256_hex : string -> string.
Variable to_json : list string -> string.
Variable from_json : string -> option (list string).
Variable resolve_identifier : string -> result string AdminError.
Variable config : Config.
#[local] Abbreviation serve := (serve sha256_hex to_json from_json resolve_identifier config).
#[local] Abbreviation exec := (exec sha256_hex to_json from_json resolve_identifier config).
#[local] Abbreviation run := (run sha256_hex to_json from_json resolve_identifier config).

Definition running (I : Db -> Prop) (w : World) : Prop :=
  I (db w) /\ Forall (keeps I (fun _ => True)) (tasks w).

Lemma exec_running I w a :
  match a with Arrive parts r => keeps I (fun _ => True) (serve parts r) | Step _ _ => True end ->
  running I w -> running I (exec w a).
Proof.
  intros Ha [Hd Ht]. destruct a as [parts r|i fault]; simpl.
  - split; [done|]. simpl. apply Forall_app. split; [done|by apply Forall_singleton].
  - destruct (tasks w !! i) as [p|] eqn:Ei; [|done].
    pose proof (Forall_lookup_1 _ _ _ _ Ht Ei) as Hp. destruct p as [r|A s k|s k]; simpl.
    + split; simpl; [done|]. rewrite app_nil_r. by apply Forall_insert.
    + destruct Hp as [Hs Hn]. destruct fault; simpl.
      { split; simpl; [done|]. rewrite app_nil_r. by apply Forall_insert. }
      destruct (s (db w)) as [[d' a]|] eqn:Es; simpl; [|split; simpl; [done|]; rewrite app_nil_r; by apply Forall_insert].
      destruct (Hs _ _ _ Hd Es) as [? ?]. split; simpl; [done|]. rewrite app_nil_r. by apply Forall_insert.
    + destruct Hp as [Hs Hk]. split; simpl; [done|]. apply Forall_app. split; [by apply Forall_insert|].
      apply Forall_singleton. simpl. split; [|done]. intros d d' u HI E. split; [by eapply Hs|done].
Qed.

Lemma run_running I l w :
  (forall parts r, Arrive parts r ∈ l -> keeps I (fun _ => True) (serve parts r)) ->
  running I w -> running I (run w l).
Proof.
  revert w. induction l as [|a l IH]; intros w Hl Hw; [done|]. simpl. apply IH.
  - intros parts r Hr. apply Hl. set_solver.
  - apply exec_running; [|done]. destruct a; [apply Hl; set_solver|done].
Qed.

End Worlds.

(** ** No escalation *)

Definition well_formed (d : Db) : Prop :=
  NoDup (u_id <$> users d) /\ NoDup (u_did <$> users d)
  /\ Forall (fun g => g_user_id g ∈ (u_id <$> users d)) (grants d)
  /\ Forall (fun k => k_user_id k ∈ (u_id <$> users d)) (keys d)
  /\ NoDup (k_hash <$> List.filter live (keys d)).

Definition same_user (u v : User) : Prop := u_id u = u_id v /\ u_did u = u_did v /\ u_super u = u_super v.
Definition same_grant (g h : Grant) : Prop := g_user_id g = g_user_id h /\ g_permission g = g_permission h.
Definition same_key (k j : ApiKey) : Prop :=
  k_user_id k = k_user_id j /\ k_hash k = k_hash j /\ k_permissions k = k_permissions j.

(** The permissions a key lists. *)
Definition listed (from_json : string -> option (list string)) (k : ApiKey) : gset Permission :=
  parse_permissions (default [] (from_json (k_permissions k))).

Lemma elem_of_parse p l : p ∈ parse_permissions l <-> exists s, s ∈ l /\ Permission_from_str s = Some p.
Proof. unfold parse_permissions. by rewrite elem_of_list_to_set, list_elem_of_omap. Qed.

Lemma elem_of_filter_b {A} (f : A -> bool) l x : x ∈ List.filter f l <-> x ∈ l /\ f x = true.
Proof. rewrite !list_elem_of_In. apply filter_In. Qed.

Lemma elem_of_held d id p :
  p ∈ held d id <-> exists g, g ∈ grants d /\ g_user_id g = id /\ Permission_from_str (g_permission g) = Some p.
Proof.
  unfold held. rewrite elem_of_parse. split.
  - intros (s & (g & -> & [Hg Hid%String.eqb_eq]%elem_of_filter_b)%list_elem_of_fmap & Hp). by exists g.
  - intros (g & Hg & <- & Hp). exists (g_permission g). split; [|done]. apply list_elem_of_fmap.
    exists g. split; [done|]. apply elem_of_filter_b. split; [done|apply String.eqb_refl].
Qed.

Lemma find_some_elem {A} (f : A -> bool) l x : List.find f l = Some x -> x ∈ l /\ f x = true.
Proof. intros [H1 H2]%find_some. split; [by apply list_elem_of_In|done]. Qed.

Lemma find_unique {A} (g : A -> string) (l : list A) (x : A) :
  NoDup (g <$> l) -> x ∈ l -> List.find (fun y => g y =s g x) l = Some x.
Proof.
  induction l as [|y l IH]; intros Hn Hx; [by apply not_elem_of_nil in Hx|]. simpl.
  apply NoDup_cons in Hn as [Hy Hn]. apply elem_of_cons in Hx as [->|Hx]; [by rewrite String.eqb_refl|].
  destruct (String.eqb_spec (g y) (g x)) as [E|]; [|by apply IH].
  destruct Hy. rewrite E. by apply list_elem_of_fmap_2.
Qed.

Lemma unique_key {A} (g : A -> string) (l : list A) (x y : A) :
  NoDup (g <$> l) -> x ∈ l -> y ∈ l -> g x = g y -> x = y.
Proof.
  intros Hn Hx Hy E. pose proof (find_unique g _ _ Hn Hx) as F1. pose proof (find_unique g _ _ Hn Hy) as F2.
  rewrite E in F1. congruence.
Qed.

Section Contained.
Variables (from_json : string -> option (list string)) (d0 : Db) (U : gset Permission).

(** What is left of the tables: every user is one of the start or an ordinary new
    one, the super users are still there, and grants and live keys are those of
    the start or within [U]. *)
Record contained (d : Db) : Prop := {
  c_users : forall u, u ∈ users d ->
    (exists v, v ∈ users d0 /\ same_user u v) \/ (u_id u ∉ (u_id <$> users d0)) /\ u_super u = 0;
  c_supers : forall v, v ∈ users d0 -> u_super v <> 0 -> exists u, u ∈ users d /\ same_user u v;
  c_grants : forall g p, g ∈ grants d -> Permission_from_str (g_permission g) = Some p ->
    p ∈ U \/ exists h, h ∈ grants d0 /\ same_grant g h;
  c_keys : forall k, k ∈ keys d -> live k = true ->
    listed from_json k ⊆ U \/ exists j, j ∈ keys d0 /\ live j = true /\ same_key k j;
}.

(** Tables with no rows but those that were there. *)
Lemma contained_shrink d d' :
  (forall u, u ∈ users d' -> exists v, v ∈ users d /\ same_user u v) ->
  (forall v w, v ∈ users d -> w ∈ users d0 -> same_user v w -> u_super w <> 0 -> exists u, u ∈ users d' /\ same_user u v) ->
  (forall g, g ∈ grants d' -> exists h, h ∈ grants d /\ same_grant g h) ->
  (forall k, k ∈ keys d' -> live k = true -> exists j, j ∈ keys d /\ live j = true /\ same_key k j) ->
  contained d -> contained d'.
Proof.
  intros Hu Hs Hg Hk [Cu Cs Cg Ck]. split.
  - intros u (v & Hv & E1 & E2 & E3)%Hu. destruct (Cu v Hv) as [(w & Hw & ? & ? & ?)|[Hn Hz]].
    + left. exists w. unfold same_user. split; [done|]. split; [congruence|]. split; congruence.
    + right. rewrite E1, E3. done.
  - intros v Hv Hz. destruct (Cs v Hv Hz) as (u & Hu1 & Huv). destruct (Hs u v Hu1 Hv Huv Hz) as (u' & ? & E1 & E2 & E3).
    exists u'. split; [done|]. destruct Huv as (? & ? & ?). unfold same_user. split; [congruence|]. split; congruence.
  - intros g p (h & Hh & E1 & E2)%Hg Hp. rewrite E2 in Hp. destruct (Cg h p Hh Hp) as [|(h' & ? & ? & ?)]; [by left|].
    right. exists h'. unfold same_grant. split; [done|]. split; congruence.
  - intros k Hk1 Hl. destruct (Hk k Hk1 Hl) as (j & Hj & Hlj & E1 & E2 & E3).
    destruct (Ck j Hj Hlj) as [Hj'|(j' & ? & ? & ? & ? & ?)].
    + left. unfold listed in *. by rewrite E3.
    + right. exists j'. unfold same_key. split; [done|]. split; [done|]. split; [congruence|]. split; congruence.
Qed.

Lemma update_where_elem {A} (p : A -> bool) f (l : list A) x :
  x ∈ update_where p f l -> exists y, y ∈ l /\ x = if p y then f y else y.
Proof. unfold update_where. intros (y & -> & Hy)%list_elem_of_fmap. by exists y. Qed.

Lemma elem_update_where {A} (p : A -> bool) f (l : list A) y :
  y ∈ l -> (if p y then f y else y) ∈ update_where p f l.
Proof. intros Hy. unfold update_where. by apply (list_elem_of_fmap_2 (fun x => if p x then f x else x)). Qed.

Lemma touch_user_contained id at_ : preserves contained (touch_user id at_).
Proof.
  intros d d' a HI [= <- _]. apply (contained_shrink d); simpl; [| |intros g Hg; by exists g|intros k Hk Hl; by exists k|done].
  - intros u (v & Hv & ->)%update_where_elem. exists v. split; [done|]. by destruct (u_id v =s id).
  - intros v w Hv _ _ _. eexists. split; [by apply elem_update_where|]. by destruct (u_id v =s id).
Qed.

(** Changes of the live keys that only revoke. *)
Lemma update_keys_contained d p f :
  (forall k, live (f k) = true -> live k = true) -> (forall k, same_key (f k) k) ->
  contained d -> contained (set_keys d (update_where p f (keys d))).
Proof.
  intros Hl Hs. apply contained_shrink; simpl; [| |intros g Hg; by exists g|].
  - intros u Hu. by exists u.
  - intros v w Hv _ _ _. by exists v.
  - intros k (j & Hj & ->)%update_where_elem Hk. exists j. split; [done|]. destruct (p j); [by split; [apply Hl|]|done].
Qed.

Lemma touch_key_contained id at_ : preserves contained (touch_key id at_).
Proof. intros d d' a HI [= <- _]. by apply update_keys_contained. Qed.

Lemma revoke_keys_of_contained id at_ : preserves contained (revoke_keys_of id at_).
Proof. intros d d' a HI [= <- _]. by apply update_keys_contained. Qed.

Lemma revoke_key_contained id user_did at_ : preserves contained (revoke_key id user_did at_).
Proof. intros d d' a HI [= <- _]. by apply update_keys_contained. Qed.

Lemma write_event_contained e : preserves contained (write_event e).
Proof. intros d d' a [? ? ? ?] [= <- _]. by split. Qed.

Lemma insert_user_contained u :
  (u_id u ∉ (u_id <$> users d0)) -> u_super u = 0 -> preserves contained (insert_user u).
Proof.
  intros Hid Hz d d' a [Cu Cs Cg Ck]. unfold insert_user. destruct (existsb _ _); [done|]. intros [= <- _].
  split; simpl; [| |done|done].
  - intros v [Hv| ->%list_elem_of_singleton]%elem_of_app; [by apply Cu|by right].
  - intros v Hv Hs. destruct (Cs v Hv Hs) as (w & ? & ?). exists w. set_solver.
Qed.

Lemma insert_grant_contained g :
  (forall p, Permission_from_str (g_permission g) = Some p -> p ∈ U) -> preserves contained (insert_grant_or_ignore g).
Proof.
  intros Hg d d' a HI. unfold insert_grant_or_ignore. destruct (granted d g); [by intros [= <- _]|].
  destruct (grant_refers d g); [|done]. intros [= <- _]. destruct HI as [Cu Cs Cg Ck]. split; simpl; [done|done| |done].
  intros h p [Hh| ->%list_elem_of_singleton]%elem_of_app Hp; [by eapply Cg|left; by apply Hg].
Qed.

Lemma delete_grant_contained id s : preserves contained (delete_grant id s).
Proof.
  intros d d' a HI [= <- _]. apply (contained_shrink d); simpl; [| | | |done].
  - intros u Hu. by exists u.
  - intros v w Hv _ _ _. by exists v.
  - intros g [Hg _]%elem_of_filter_b. by exists g.
  - intros k Hk Hl. by exists k.
Qed.

Lemma delete_user_contained id :
  (forall v, v ∈ users d0 -> u_super v <> 0 -> u_id v <> id) -> preserves contained (delete_user_row id).
Proof.
  intros Hid d d' a HI [= <- _]. apply (contained_shrink d); simpl; [| | | |done].
  - intros u [Hu _]%elem_of_filter_b. by exists u.
  - intros v w Hv Hw (E & E2 & E3) Hz. exists v. split; [|done]. apply elem_of_filter_b. split; [done|].
    apply negb_true_iff, String.eqb_neq. rewrite E. by apply Hid.
  - intros g (h & -> & [Hh _]%elem_of_filter_b)%list_elem_of_fmap. by exists h.
  - intros k [Hk _]%elem_of_filter_b Hl. by exists k.
Qed.

Lemma insert_key_contained k : listed from_json k ⊆ U -> preserves contained (insert_key k).
Proof.
  intros Hk d d' a [Cu Cs Cg Ck]. unfold insert_key. destruct (_ || _); [done|]. intros [= <- _].
  split; simpl; [done|done|done|]. intros j [Hj| ->%list_elem_of_singleton]%elem_of_app Hl; [by apply Ck|by left].
Qed.

End Contained.

Section Escalation.
Context {RE : RegexEngine} {UD : UrlDecoder}.
Variable sha256_hex : string -> string.
Variable to_json : list string -> string.
Variable from_json : string -> option (list string).
Variable resolve_identifier : string -> result string AdminError.
Variable config : Config.
Hypothesis json_roundtrip : forall l, from_json (to_json l) = Some l.
Variables (d0 : Db) (U : gset Permission).
Hypothesis d0_wf : well_formed d0.
Hypothesis d0_super : exists v, v ∈ users d0 /\ u_super v <> 0.
#[local] Abbreviation I := (contained from_json d0 U).
#[local] Abbreviation power := (power sha256_hex from_json config).
#[local] Abbreviation signed_in := (signed_in config).
#[local] Abbreviation serve := (serve sha256_hex to_json from_json resolve_identifier config).
#[local] Abbreviation run := (run sha256_hex to_json from_json resolve_identifier config).

(** Nothing was granted to a user that did not exist. *)
Lemma held_new id : (id ∉ (u_id <$> users d0)) -> held d0 id = ∅.
Proof.
  intros Hid. apply set_eq. intros p. rewrite elem_of_held. split; [|set_solver].
  intros (g & Hg & <- & _). destruct Hid. destruct d0_wf as (_ & _ & Hf & _). by eapply Forall_forall in Hf.
Qed.

Lemma held_contained d id : I d -> held d id ⊆ U ∪ held d0 id.
Proof.
  intros HI p (g & Hg & <- & Hp)%elem_of_held. destruct (c_grants _ _ _ _ HI g p Hg Hp) as [|(h & Hh & E1 & E2)].
  - set_solver.
  - apply elem_of_union_r. apply elem_of_held. exists h. rewrite <- E1, <- E2. done.
Qed.

(** What a session was worth at the start, by the row it finds now. *)
Lemma session_start d parts u :
  I d -> u ∈ users d -> api_key_token parts = None -> signed_in parts = Some (u_did u) ->
  u_super u <> 0 /\ power d0 parts = Some (Person true ∅)
  \/ u_super u = 0 /\ (power d0 parts = Some (Person false (held d0 (u_id u))) \/ held d0 (u_id u) = ∅).
Proof.
  intros HI Hu Ht Hs. unfold Admin.power. rewrite Ht, Hs.
  destruct (c_users _ _ _ _ HI u Hu) as [(v & Hv & E1 & E2 & E3)|[Hn Hz]].
  - rewrite E2. destruct d0_wf as (_ & Hd & _). rewrite (find_unique u_did _ _ Hd Hv). rewrite E1, E3.
    destruct (Z.eqb_spec (u_super v) 0); simpl; [right|left]; split; auto.
  - right. split; [done|]. right. by apply held_new.
Qed.

Lemma head_elem {A} (l : list A) x : head l = Some x -> x ∈ l.
Proof. destruct l; [done|]. intros [= ->]. set_solver. Qed.

(** The key a hash finds. *)
Definition key_row (d : Db) (hash : string) : option (ApiKey * User) :=
  head (omap (fun k => if (k_hash k =s hash) && live k then pair k <$> owner d k else None) (keys d)).

Lemma key_row_some d hash k u :
  key_row d hash = Some (k, u) ->
  k ∈ keys d /\ k_hash k = hash /\ live k = true /\ u ∈ users d /\ u_id u = k_user_id k.
Proof.
  unfold key_row. intros (j & Hj & E)%head_elem%list_elem_of_omap.
  destruct (String.eqb_spec (k_hash j) hash); [|done]. destruct (live j) eqn:El; [|done]. simpl in E.
  destruct (owner d j) as [v|] eqn:Eo; [|done]. injection E as <- <-.
  apply find_some_elem in Eo as [? ?%String.eqb_eq]. done.
Qed.

Lemma key_row_unique d k u :
  NoDup (k_hash <$> List.filter live (keys d)) -> k ∈ keys d -> live k = true -> owner d k = Some u ->
  key_row d (k_hash k) = Some (k, u).
Proof.
  unfold key_row. induction (keys d) as [|j l IH]; intros Hn Hk Hl Ho; [by apply not_elem_of_nil in Hk|].
  cbn [omap list_omap]. apply elem_of_cons in Hk as [<-|Hk].
  - rewrite String.eqb_refl, Hl, Ho. done.
  - simpl in Hn. destruct (live j) eqn:Ej.
    + simpl in Hn. apply NoDup_cons in Hn as [Hj Hn]. destruct (String.eqb_spec (k_hash j) (k_hash k)) as [E|].
      { destruct Hj. rewrite E. apply list_elem_of_fmap_2, elem_of_filter_b. done. }
      by apply IH.
    + rewrite andb_false_r. by apply IH.
Qed.

(** What a key was worth at the start, by the row it finds now. *)
Lemma key_start d parts token k u :
  I d -> api_key_token parts = Some token ->
  match platform_api_key_hash config with Some h => sha256_hex token =s h | None => false end = false ->
  key_row d (sha256_hex token) = Some (k, u) ->
  listed from_json k ⊆ U
  \/ power d0 parts = Some (Person false (if negb (u_super u =? 0) then listed from_json k
                                         else listed from_json k ∩ held d0 (u_id u))).
Proof.
  intros HI Ht Hp (Hk & Hh & Hl & Hu & Hid)%key_row_some.
  destruct (c_keys _ _ _ _ HI k Hk Hl) as [|(j & Hj & Hlj & E1 & E2 & E3)]; [by left|right].
  destruct d0_wf as (Hn & _ & _ & Hf & Hhash). rewrite Forall_forall in Hf. specialize (Hf j Hj).
  assert (exists v, v ∈ users d0 /\ same_user u v) as (v & Hv & F1 & F2 & F3).
  { destruct (c_users _ _ _ _ HI u Hu) as [|[Hnew _]]; [done|]. destruct Hnew. by rewrite Hid, E1. }
  assert (owner d0 j = Some v) as Ho.
  { unfold owner. rewrite <- E1, <- Hid, F1. by apply find_unique. }
  pose proof (key_row_unique d0 j v Hhash Hj Hlj Ho) as Hr. unfold key_row in Hr.
  unfold Admin.power. rewrite Ht, Hp. rewrite <- Hh, E2, Hr. unfold listed. by rewrite E3, F1, F3.
Qed.

(** Credentials worth no more than [U] at the start. *)
Definition weak (parts : Parts) : Prop :=
  match power d0 parts with
  | None => True
  | Some (Person false ps) => ps ⊆ U
  | Some _ => False
  end.

Definition weak_auth (auth : UserAuth) : Prop :=
  is_super auth = false /\ is_platform auth = false /\ permissions auth ⊆ U.

Lemma read_yields {A} (f : Db -> A) (P : A -> Prop) :
  (forall d, I d -> P (f d)) -> yields I (fun d => Some (d, f d)) P.
Proof. intros Hf d d' a HI [= <- <-]. split; [done|by apply Hf]. Qed.

Lemma load_keeps id : keeps I (okay (fun ps => ps ⊆ U ∪ held d0 id)) (load_permissions id).
Proof.
  apply (keeps_sql I (fun rows => parse_permissions rows ⊆ U ∪ held d0 id)); [|by intros rows ?].
  apply (read_yields (fun d => g_permission <$> List.filter (fun g => g_user_id g =s id) (grants d))).
  intros d HI. by apply held_contained.
Qed.

Lemma key_load_keeps id l :
  keeps I (okay (fun ps => ps ⊆ parse_permissions l /\ ps ⊆ U ∪ held d0 id)) (load_api_key_permissions id l).
Proof.
  apply (keeps_let I (fun ps => ps ⊆ U ∪ held d0 id)); [apply load_keeps|].
  intros ps Hps. split; intros p; rewrite elem_of_list_to_set, list_elem_of_omap; intros (s & Hs & E).
  - apply elem_of_parse. exists s. split; [done|]. by repeat break_match; simplify_eq.
  - destruct (Permission_from_str s) as [q|]; [|done]. case_bool_decide; simplify_eq. by apply Hps.
Qed.

Lemma api_key_keeps parts :
  weak parts -> keeps I (okay (fun a => match a with Some auth => weak_auth auth | None => api_key_token parts = None end))
    (try_api_key_auth sha256_hex from_json config parts).
Proof.
  intros Hw. unfold try_api_key_auth. destruct (api_key_token parts) as [token|] eqn:Ht; [|done].
  destruct (match platform_api_key_hash config with Some h => sha256_hex token =s h | None => false end) eqn:Hp.
  { unfold weak, Admin.power in Hw. rewrite Ht, Hp in Hw. done. }
  apply (keeps_sql I (fun r => match r with Some (k, u) => if negb (u_super u =? 0) then listed from_json k ⊆ U
    else listed from_json k ∩ held d0 (u_id u) ⊆ U | None => True end)).
  - apply (read_yields (fun d => key_row d (sha256_hex token))). intros d HI.
    destruct (key_row d (sha256_hex token)) as [[k u]|] eqn:Ek; [|done].
    destruct (key_start d parts token k u HI Ht Hp Ek) as [Hk|Hk].
    + destruct (negb _); [done|set_solver].
    + unfold weak in Hw. rewrite Hk in Hw. by destruct (negb _).
  - intros [[k u]|] Hk; [|done]. fold (listed from_json k).
    apply (keeps_let I (fun ps => ps ⊆ U)).
    + destruct (negb (u_super u =? 0)); [done|].
      eapply keeps_mono; [apply key_load_keeps|]. intros [ps|e] Hps; [|done]. destruct Hps as [Hps1 Hps2]. simpl.
      unfold listed in Hk. set_solver.
    + intros ps Hps. split; [apply touch_key_contained|]. done.
Qed.

Lemma event_keeps {R} (Q : R -> Prop) e (k : prog R) : keeps I Q k -> keeps I Q (log_event e k).
Proof. intros Hk. apply keeps_sql_any; [apply write_event_contained|done]. Qed.

Lemma sign_in_keeps parts user_did :
  weak parts -> api_key_token parts = None -> signed_in parts = Some user_did ->
  keeps I (okay weak_auth) (sign_in parts user_did).
Proof.
  intros Hw Ht Hs. unfold sign_in.
  apply (keeps_sql I (fun r => match r with Some u => u_super u = 0 /\ held d0 (u_id u) ⊆ U | None => True end)).
  - apply (read_yields (fun d => List.find (fun u => u_did u =s user_did) (users d))). intros d HI.
    destruct (List.find _ _) as [u|] eqn:E; [|done]. apply find_some_elem in E as [Hu <-%String.eqb_eq].
    destruct (session_start d parts u HI Hu Ht Hs) as [[? E]|[Hz [E|E]]]; unfold weak in Hw.
    + by rewrite E in Hw.
    + by rewrite E in Hw.
    + rewrite E. split; [done|set_solver].
  - intros [u|] Hu; [|done]. destruct Hu as [Hz Hh]. rewrite Hz. simpl negb. cbv zeta.
    apply (keeps_let I (fun ps => ps ⊆ U)).
    + eapply keeps_mono; [apply load_keeps|]. intros [ps|e] Hps; [|done]. simpl in *. set_solver.
    + intros ps Hps. split; [apply touch_user_contained|]. done.
Qed.

Lemma authenticate_keeps parts :
  weak parts -> keeps I (okay weak_auth) (authenticate sha256_hex from_json config parts).
Proof.
  intros Hw. unfold authenticate. eapply keeps_let; [by apply api_key_keeps|]. intros [auth|] Ha; [done|].
  destruct (claims parts) as [c|e] eqn:Ec; [|done].
  destruct (require_admin_grant config parts c) as [[]|e] eqn:Eg; [|done].
  apply (keeps_sql I (fun n => n <> 0)).
  - apply (read_yields (fun d => Z.of_nat (length (users d)))). intros d HI.
    destruct d0_super as (v & Hv & Hz). destruct (c_supers _ _ _ _ HI v Hv Hz) as (u & Hu & _).
    destruct (users d); [by apply not_elem_of_nil in Hu|done].
  - intros n Hn. apply Z.eqb_neq in Hn. rewrite Hn. simpl andb. cbv iota.
    apply sign_in_keeps; [done|done|]. unfold Admin.signed_in. by rewrite Ec, Eg.
Qed.

Lemma user_auth_keeps parts : weak parts -> keeps I (okay weak_auth) (user_auth sha256_hex from_json config parts).
Proof.
  intros Hw. eapply keeps_let; [by apply authenticate_keeps|]. intros auth Ha. by destruct (is_platform auth).
Qed.

Lemma require_keeps auth p : keeps I (okay (fun _ => True)) (require auth p).
Proof. unfold require. destruct (has auth p); [done|]. by apply event_keeps. Qed.

(** What passes the escalation guard of a weak actor is within [U]. *)
Lemma guard_contained auth l :
  weak_auth auth -> not_held auth l = None -> parse_permissions l ⊆ U.
Proof.
  intros (Hs & _ & Hu). unfold not_held. rewrite Hs. intros Hf p (s & Hs' & Hp)%elem_of_parse.
  apply Hu. apply list_elem_of_In in Hs'. pose proof (find_none _ _ Hf s Hs') as H. cbv beta in H.
  rewrite Hp in H. apply negb_false_iff in H. by apply bool_decide_eq_true in H.
Qed.

Lemma grants_keep id by_ at_ l :
  parse_permissions l ⊆ U ->
  keeps I (okay (fun _ => True)) (for_each l (fun s => insert_grant_or_ignore
    {| g_user_id := id; g_permission := s; g_granted_by := by_; g_granted_at := at_ |})).
Proof.
  intros Hl. apply keeps_for_each. intros s Hs. apply insert_grant_contained. simpl. intros p Hp. apply Hl.
  apply elem_of_parse. eauto.
Qed.

#[local] Ltac read_any := apply (keeps_sql I (fun _ => True)); [intros ? ? ? ? [= <- _]; done|].
#[local] Ltac write_any H := apply (keeps_sql I (fun _ => True)); [apply preserves_yields, H|].

Lemma create_user_keeps parts auth body :
  weak_auth auth -> (new_id parts ∉ (u_id <$> users d0)) ->
  keeps I (okay (fun _ => True)) (create_user resolve_identifier config parts auth body).
Proof.
  intros Ha Hid. unfold create_user. eapply keeps_let; [apply require_keeps|]. intros _ _.
  destruct (not_held auth (perms_to_grant body)) eqn:Hg; [done|]. pose proof (guard_contained _ _ Ha Hg) as HU.
  destruct (resolve_identifier _) as [user_did|]; [|done]. read_any. intros [|] _; [done|]. read_any. intros n _.
  destruct (check _ _ _) as [[]|]; [|done]. write_any (insert_user_contained from_json d0 U); [done|done|]. intros _ _.
  eapply keeps_let; [by apply grants_keep|]. intros _ _. by apply event_keeps.
Qed.

Lemma update_permissions_keeps parts auth id body :
  weak_auth auth -> keeps I (okay (fun _ => True)) (update_permissions parts auth id body).
Proof.
  intros Ha. unfold update_permissions. eapply keeps_let; [apply require_keeps|]. intros _ _.
  destruct (user_id auth =s id); [done|]. read_any. intros [u|] _; [|done]. destruct (negb _); [done|].
  destruct (unrecognized _); [done|]. destruct (not_held auth (up_grant body)) eqn:Hg; [done|].
  eapply keeps_let; [apply grants_keep; by eapply guard_contained|]. intros _ _.
  eapply keeps_let; [apply keeps_for_each; intros s _; apply delete_grant_contained|]. intros _ _. by apply event_keeps.
Qed.

(** Only users that were not super at the start are found not to be. *)
Lemma delete_user_keeps parts auth id : keeps I (okay (fun _ => True)) (delete_user parts auth id).
Proof.
  unfold delete_user. eapply keeps_let; [apply require_keeps|]. intros _ _. destruct (user_id auth =s id); [done|].
  apply (keeps_sql I (fun r => match r with Some u => u_super u = 0 -> forall v, v ∈ users d0 -> u_super v <> 0 -> u_id v <> id
                               | None => True end)).
  - apply (read_yields (fun d => List.find (fun u => u_id u =s id) (users d))). intros d HI.
    destruct (List.find _ _) as [u|] eqn:E; [|done]. apply find_some_elem in E as [Hu Hid%String.eqb_eq].
    intros Hz v Hv Hsv Hvid. destruct (c_users _ _ _ _ HI u Hu) as [(w & Hw & E1 & _ & E3)|[Hn _]].
    + assert (v = w) as -> by (apply (unique_key u_id (users d0)); [apply d0_wf|done|done|congruence]). congruence.
    + destruct Hn. rewrite Hid, <- Hvid. by apply list_elem_of_fmap_2.
  - intros [u|] Hu; [|done]. destruct (Z.eqb_spec (u_super u) 0) as [Hz|]; [|done]. simpl negb. cbv iota.
    write_any (revoke_keys_of_contained from_json d0 U). intros _ _.
    write_any (delete_user_contained from_json d0 U); [by apply Hu|]. intros n _.
    destruct (n =? 0)%nat; [done|]. by apply event_keeps.
Qed.

Lemma create_api_key_keeps parts auth body :
  weak_auth auth -> keeps I (okay (fun _ => True)) (create_api_key sha256_hex to_json parts auth body).
Proof.
  intros Ha. unfold create_api_key. eapply keeps_let; [apply require_keeps|]. intros _ _.
  destruct (not_held auth (ck_permissions body)) eqn:Hg; [done|]. cbv zeta.
  write_any (insert_key_contained from_json d0 U).
  - unfold listed. simpl. rewrite json_roundtrip. simpl. by eapply guard_contained.
  - intros _ _. by apply event_keeps.
Qed.

Lemma summary_keeps u : keeps I (okay (fun _ => True)) (user_summary u).
Proof. unfold user_summary. read_any. done. Qed.

Lemma summaries_keep l : keeps I (okay (fun _ => True)) (summaries l).
Proof.
  induction l as [|u l IH]; [done|]. eapply keeps_let; [apply summary_keeps|]. intros s _.
  by eapply keeps_let; [apply IH|].
Qed.

Lemma handle_keeps parts auth r :
  weak_auth auth -> (new_id parts ∉ (u_id <$> users d0)) ->
  keeps I (okay (fun _ => True)) (handle sha256_hex to_json from_json resolve_identifier config parts auth r).
Proof.
  intros Ha Hid. pose proof Ha as (Hs & Hp & _). destruct r; simpl handle.
  - by apply create_user_keeps.
  - eapply keeps_let; [apply require_keeps|]. intros _ _. read_any. intros rows _.
    by eapply keeps_let; [apply summaries_keep|].
  - eapply keeps_let; [apply require_keeps|]. intros _ _. read_any. intros [u|] _; [|done].
    by eapply keeps_let; [apply summary_keeps|].
  - by apply update_permissions_keeps.
  - apply delete_user_keeps.
  - unfold transfer_super. by rewrite Hs.
  - by apply create_api_key_keeps.
  - eapply keeps_let; [apply require_keeps|]. intros _ _. by read_any.
  - eapply keeps_let; [apply require_keeps|]. intros _ _. write_any (revoke_key_contained from_json d0 U). intros n _.
    destruct (n =? 0)%nat; [done|]. by apply event_keeps.
  - unfold set_super_user. by rewrite Hp.
Qed.

Lemma serve_keeps parts r :
  weak parts -> (new_id parts ∉ (u_id <$> users d0)) -> keeps I (fun _ => True) (serve parts r).
Proof.
  intros Hw Hid. eapply keeps_mono; [|done]. eapply keeps_let.
  - instantiate (1 := weak_auth). destruct r; by first [apply authenticate_keeps | apply user_auth_keeps].
  - intros auth Ha. by apply handle_keeps.
Qed.

(** What credentials may become: nothing more than they were and [U]. *)
Definition within (before after : option Principal) : Prop :=
  match after with
  | None => True
  | Some Platform => before = Some Platform
  | Some (Person true _) => exists ps, before = Some (Person true ps)
  | Some (Person false ps) => ps ⊆ U ∪ match before with Some (Person _ held) => held | _ => ∅ end
  end.

Lemma power_within d parts : I d -> within (power d0 parts) (power d parts).
Proof.
  intros HI. unfold Admin.power at 2. destruct (api_key_token parts) as [token|] eqn:Ht.
  - destruct (match platform_api_key_hash config with Some h => sha256_hex token =s h | None => false end) eqn:Hp.
    { unfold Admin.power. by rewrite Ht, Hp. }
    fold (key_row d (sha256_hex token)). destruct (key_row d (sha256_hex token)) as [[k u]|] eqn:Ek; [|done].
    fold (listed from_json k). pose proof (held_contained d (u_id u) HI) as Hh.
    destruct (key_start d parts token k u HI Ht Hp Ek) as [Hk|Hk]; [|rewrite Hk];
      destruct (negb (u_super u =? 0)); simpl; set_solver.
  - destruct (signed_in parts) as [user_did|] eqn:Hs; [|done].
    destruct (List.find _ _) as [u|] eqn:E; [|done]. apply find_some_elem in E as [Hu <-%String.eqb_eq].
    pose proof (held_contained d (u_id u) HI) as Hh.
    destruct (session_start d parts u HI Hu Ht Hs) as [[Hz E]|[Hz E]].
    + apply Z.eqb_neq in Hz. rewrite Hz. simpl. rewrite E. by eexists.
    + rewrite Hz. simpl. destruct E as [E|E]; [rewrite E|rewrite E in Hh]; set_solver.
Qed.


End Escalation.

(** ** One request after another

    [alone] runs a program by itself: [faults] says of each statement whether it
    fails, and where the list ends the program is cut off. *)

Fixpoint alone {R} (faults : list bool) (d : Db) (p : prog R) {struct p} : Db * option R :=
  match p with
  | Ret r => (d, Some r)
  | Sql s k =>
      match faults with
      | [] => (d, None)
      | f :: faults =>
          if f then alone faults d (k None)
          else match s d with Some (d', a) => alone faults d' (k (Some a)) | None => alone faults d (k None) end
      end
  | Spawn s k =>
      match faults with
      | [] => (d, None)
      | f :: faults =>
          if f then alone faults d k
          else match s d with Some (d', _) => alone faults d' k | None => alone faults d k end
      end
  end.

(** [I] holds at every point of a run of [p] by itself. *)
Fixpoint always {R} (I : Db -> Prop) (p : prog R) (d : Db) : Prop :=
  I d /\
  match p with
  | Ret _ => True
  | Sql s k => match s d with Some (d', a) => always I (k (Some a)) d' | None => True end /\ always I (k None) d
  | Spawn s k => match s d with Some (d', _) => always I k d' | None => True end /\ always I k d
  end.

Lemma alone_always {R} I (p : prog R) : forall faults d, always I p d -> I (alone faults d p).1.
Proof.
  induction p as [r|A s k IH|s k IH]; intros faults d [HI Hp]; [done| |];
    (destruct faults as [|[] faults]; [done| |]); simpl; destruct Hp as [Hs Hn]; try (by apply IH);
    destruct (s d) as [[d' a]|]; by apply IH.
Qed.

Lemma always_bind {R T} I (P : R -> Prop) (m : prog R) (f : R -> prog T) :
  keeps I P m -> (forall r d, P r -> I d -> always I (f r) d) -> forall d, I d -> always I (bind m f) d.
Proof.
  intros Hm Hf. induction m as [r|A s k IH|s k IH]; intros d HI; cbn [bind]; [by apply Hf| |].
  - destruct Hm as [Hs Hn]. split; [done|]. split; [|by apply IH].
    destruct (s d) as [[d' a]|] eqn:E; [|done]. destruct (Hs d d' a HI E). by apply IH.
  - destruct Hm as [Hs Hk]. split; [done|]. split; [|by apply IH].
    destruct (s d) as [[d' a]|] eqn:E; [|done]. apply IH; [done|by eapply Hs].
Qed.

Lemma keeps_always {R} I (Q : R -> Prop) (p : prog R) d : keeps I Q p -> I d -> always I p d.
Proof.
  revert d. induction p as [r|A s k IH|s k IH]; intros d Hp HI; (split; [done|]); [done| |]; destruct Hp as [Hs Hn];
    (split; [|by apply IH]); destruct (s d) as [[d' a]|] eqn:E; try done.
  - destruct (Hs d d' a HI E). by apply IH.
  - apply IH; [done|by eapply Hs].
Qed.

(** ** A super user remains *)

Definition has_super (d : Db) : Prop := exists u, u ∈ users d /\ u_super u <> 0.
Definition governed (d : Db) : Prop := NoDup (u_id <$> users d) /\ has_super d.

Lemma governed_users d d' : users d' = users d -> governed d -> governed d'.
Proof. unfold governed, has_super. by intros ->. Qed.

(** Statements that leave the users alone. *)
Definition leaves_users {A} (s : stmt A) : Prop := forall d d' a, s d = Some (d', a) -> users d' = users d.

Lemma leaves_governed {A} (s : stmt A) : leaves_users s -> preserves governed s.
Proof. intros Hs d d' a HI E. eapply governed_users; [by eapply Hs|done]. Qed.

Lemma leaves_each {A} (l : list A) (body : A -> stmt unit) :
  (forall x, leaves_users (body x)) -> leaves_users (each l body).
Proof.
  intros Hb d d' a E. refine (preserves_each (fun e => users e = users d) l body _ d d' a eq_refl E).
  intros x _ d1 d2 b H1 E1. rewrite <- H1. by eapply Hb.
Qed.

Lemma leaves_insert_grant g : leaves_users (insert_grant g).
Proof. intros d d' a. unfold insert_grant. repeat case_match; intros [= <- _]; done. Qed.

Lemma leaves_grant_or_ignore g : leaves_users (insert_grant_or_ignore g).
Proof. intros d d' a. unfold insert_grant_or_ignore. repeat case_match; intros [= <- _]; done. Qed.

Lemma leaves_grant_all id by_ at_ : leaves_users (grant_all id by_ at_).
Proof. apply leaves_each. intros p. apply leaves_grant_or_ignore. Qed.

#[local] Opaque grant_all.

Lemma leaves_insert_key k : leaves_users (insert_key k).
Proof. intros d d' a. unfold insert_key. repeat case_match; intros [= <- _]; done. Qed.

Lemma update_where_ids (p : User -> bool) f (l : list User) :
  (forall u, u_id (f u) = u_id u) -> u_id <$> update_where p f l = u_id <$> l.
Proof.
  intros Hf. unfold update_where. rewrite <- list_fmap_compose. apply list_fmap_ext. intros i u _. simpl.
  by destruct (p u).
Qed.

Lemma touch_user_governed id at_ : preserves governed (touch_user id at_).
Proof.
  intros d d' a [Hn (u & Hu & Hs)] [= <- _]. split; simpl; [by rewrite update_where_ids|].
  eexists. split; [by apply elem_update_where|]. by destruct (u_id u =s id).
Qed.

(** A user that is super by an insertion or already. *)
Lemma insert_user_ids u d d' a :
  NoDup (u_id <$> users d) -> insert_user u d = Some (d', a) -> NoDup (u_id <$> users d') /\ users d' = users d ++ [u].
Proof.
  intros Hn. unfold insert_user. destruct (existsb _ _) eqn:E; [done|]. intros [= <- _]. simpl. split; [|done].
  rewrite fmap_app. apply NoDup_app. split; [done|]. split; [|apply NoDup_singleton].
  intros x (v & -> & Hv)%list_elem_of_fmap H%list_elem_of_singleton.
  assert (existsb (fun v => (u_id v =s u_id u) || (u_did v =s u_did u)) (users d) = true); [|congruence].
  apply existsb_elem. exists v. split; [done|]. by rewrite H, String.eqb_refl.
Qed.

Lemma insert_user_governed u : preserves governed (insert_user u).
Proof.
  intros d d' a [Hn (v & Hv & Hs)] E. destruct (insert_user_ids u d d' a Hn E) as [Hn' E']. split; [done|].
  exists v. rewrite E'. set_solver.
Qed.

(** Making [id] super in tables that have it. *)
Lemma set_super_one d d' id rows :
  set_super id 1 d = Some (d', rows) ->
  u_id <$> users d' = u_id <$> users d
  /\ (rows <> 0%nat -> exists u, u ∈ users d' /\ u_id u = id /\ u_super u = 1).
Proof.
  intros [= <- <-]. simpl. rewrite update_where_ids by done. split; [done|]. intros Hr. unfold rows_where in Hr.
  destruct (List.filter _ _) as [|u l] eqn:E; [done|].
  assert (u ∈ List.filter (fun u => u_id u =s id) (users d)) as [Hu Hid]%elem_of_filter_b by (rewrite E; set_solver).
  exists (set_super_flag 1 u). split; [|by apply String.eqb_eq in Hid].
  pose proof (elem_update_where (fun u => u_id u =s id) (set_super_flag 1) _ _ Hu) as H.
  cbv beta in H. by rewrite Hid in H.
Qed.

(** Demoting others leaves the one that is super. *)
Lemma demote_others d (p : User -> bool) id :
  (forall u, u_id u = id -> p u = false) ->
  NoDup (u_id <$> users d) -> (exists u, u ∈ users d /\ u_id u = id /\ u_super u = 1) ->
  governed (set_users d (update_where p (set_super_flag 0) (users d))).
Proof.
  intros Hp Hn (u & Hu & Hid & Hs). split; simpl; [by rewrite update_where_ids|].
  exists u. split; [|by rewrite Hs]. pose proof (elem_update_where p (set_super_flag 0) _ _ Hu) as H.
  by rewrite (Hp u Hid) in H.
Qed.

Lemma one_governed d id :
  NoDup (u_id <$> users d) -> (exists u, u ∈ users d /\ u_id u = id /\ u_super u = 1) -> governed d.
Proof. intros Hn (u & Hu & _ & Hs). split; [done|]. exists u. by rewrite Hs. Qed.

Lemma transfer_tx_governed parts auth target : preserves governed (transfer_tx parts auth target).
Proof.
  intros d d' r HI. unfold transfer_tx, and_then. destruct (set_super target 1 d) as [[d1 rows]|] eqn:E1; [|done].
  destruct (set_super_one _ _ _ _ E1) as [Hids Hone].
  destruct (Nat.eqb_spec rows 0) as [|Hr]; [by intros [= <- _]|]. specialize (Hone Hr).
  assert (NoDup (u_id <$> users d1)) as Hn by (rewrite Hids; apply HI).
  destruct (String.eqb_spec target (user_id auth)) as [->|Ht]; simpl negb; cbv iota.
  - simpl. destruct (grant_all _ _ _ d1) as [[d2 a]|] eqn:E2; [|done]. intros [= <- _].
    eapply governed_users; [by eapply leaves_grant_all|by eapply one_governed].
  - simpl. destruct (grant_all _ _ _ _) as [[d2 a]|] eqn:E2; [|done]. intros [= <- _].
    eapply governed_users; [by eapply leaves_grant_all|]. eapply demote_others; [|done|done].
    intros u ->. by apply String.eqb_neq.
Qed.

Lemma transfer_super_user_governed parts user_did :
  preserves governed (transfer_super_user parts user_did).
Proof.
  intros d d' r HI. unfold transfer_super_user, and_then at 1. cbn [user_by_did].
  assert (Hmake : forall (m : stmt string) d1 id, m d = Some (d1, id) ->
    NoDup (u_id <$> users d1) /\ (exists u, u ∈ users d1 /\ u_id u = id /\ u_super u = 1) ->
    forall d' r, and_then m (fun id => and_then (set_super_others id 0) (fun _ =>
      and_then (grant_all id None (now parts)) (fun _ => return_ id))) d = Some (d', r) -> governed d').
  { intros m d1 id Em [Hn Hone] d2 r2. unfold and_then at 1. rewrite Em. unfold and_then. simpl.
    destruct (grant_all _ _ _ _) as [[d3 a]|] eqn:E2; [|done]. intros [= <- _].
    eapply governed_users; [by eapply leaves_grant_all|]. eapply demote_others; [|done|done].
    intros u ->. by rewrite String.eqb_refl. }
  destruct (List.find _ _) as [u|] eqn:Eu.
  - apply find_some_elem in Eu as [Hu _].
    assert (exists d1 rows, set_super (u_id u) 1 d = Some (d1, rows)) as (d1 & rows & E1) by (eexists _, _; reflexivity).
    destruct (set_super_one _ _ _ _ E1) as [Hids Hone].
    eapply Hmake; [unfold and_then; by rewrite E1|]. rewrite Hids. split; [apply HI|].
    apply Hone. injection E1 as _ <-. unfold rows_where. intros Hl%nil_length_inv.
    assert (u ∈ List.filter (fun v => u_id v =s u_id u) (users d)) as Hin; [|rewrite Hl in Hin; set_solver].
    apply elem_of_filter_b. by rewrite String.eqb_refl.
  - destruct (insert_user {| u_id := new_id parts; u_did := user_did; u_super := 1; u_created_at := now parts;
      u_last_used_at := None |} d) as [[d1 a]|] eqn:E1.
    + destruct (insert_user_ids _ _ _ _ (proj1 HI) E1) as [Hn Hu].
      eapply Hmake; [unfold and_then; by rewrite E1|]. split; [done|]. rewrite Hu. eexists.
      split; [apply elem_of_app; right; by apply list_elem_of_singleton|done].
    + unfold and_then. by rewrite E1.
Qed.

Lemma seed_tx_governed parts user_did : preserves governed (seed_tx parts user_did).
Proof.
  apply preserves_and_then; [by intros d d' a HI [= <- _]|]. intros [u|].
  - destruct (negb _); [by intros d d' a HI [= <- _]|].
    intros d d' r HI. unfold and_then. destruct (set_super (u_id u) 1 d) as [[d1 rows]|] eqn:E1; [|done].
    destruct (grant_all _ _ _ d1) as [[d2 a]|] eqn:E2; [|done]. intros [= <- _].
    eapply governed_users; [by eapply leaves_grant_all|]. destruct HI as [Hn (v & Hv & Hs)]. injection E1 as <- _.
    split; simpl; [by rewrite update_where_ids|]. eexists. split; [by apply elem_update_where|]. by destruct (_ =s _).
  - apply preserves_and_then; [apply insert_user_governed|]. intros _.
    apply preserves_and_then; [apply leaves_governed, leaves_grant_all|]. intros _. by intros d d' a HI [= <- _].
Qed.

Section Survival.
Context {RE : RegexEngine} {UD : UrlDecoder}.
Variable sha256_hex : string -> string.
Variable to_json : list string -> string.
Variable from_json : string -> option (list string).
Variable resolve_identifier : string -> result string AdminError.
Variable config : Config.

#[local] Ltac gread := apply (keeps_sql governed (fun _ => True)); [intros ? ? ? ? [= <- _]; done|].
#[local] Ltac gwrite H := apply (keeps_sql governed (fun _ => True)); [apply preserves_yields, H|].

Lemma event_governed {R} (Q : R -> Prop) e (k : prog R) : keeps governed Q k -> keeps governed Q (log_event e k).
Proof. intros Hk. apply keeps_sql_any; [|done]. intros d d' a HI [= <- _]. by eapply governed_users. Qed.

Lemma require_governed auth p : keeps governed (okay (fun _ => True)) (require auth p).
Proof. unfold require. destruct (has auth p); [done|]. by apply event_governed. Qed.

Lemma load_governed id : keeps governed (okay (fun _ => True)) (load_permissions id).
Proof. unfold load_permissions. by gread. Qed.

Lemma authenticate_governed parts :
  keeps governed (okay (fun _ => True)) (authenticate sha256_hex from_json config parts).
Proof.
  assert (Hsign : forall user_did, keeps governed (okay (fun _ => True)) (sign_in parts user_did)).
  { intros user_did. unfold sign_in. gread. intros [u|] _; [|done]. cbv zeta.
    apply (keeps_let governed (fun _ => True)); [destruct (negb _); [done|apply load_governed]|].
    intros ps _. split; [apply touch_user_governed|done]. }
  apply (keeps_let governed (fun _ => True)).
  - unfold try_api_key_auth. destruct (api_key_token parts); [|done]. cbv zeta.
    match goal with |- keeps _ _ (if ?b then _ else _) => destruct b end; [done|].
    gread. intros [[k u]|] _; [|done].
    apply (keeps_let governed (fun _ => True)).
    + destruct (negb _); [done|]. unfold load_api_key_permissions. by eapply keeps_let; [apply load_governed|].
    + intros ps _. split; [|done]. by intros d d' a HI [= <- _].
  - intros [auth|] _; [done|]. destruct (claims parts); [|done]. destruct (require_admin_grant _ _ _); [|done].
    gread. intros n _. destruct (_ && _); [|apply Hsign]. unfold bootstrap. cbv zeta.
    apply keeps_sql_any; [apply insert_user_governed|]. intros [|]; [|apply Hsign].
    apply keeps_for_each_ignoring; [intros p _; apply leaves_governed, leaves_insert_grant|].
    by apply event_governed.
Qed.

Lemma grants_governed l id by_ at_ :
  keeps governed (okay (fun _ => True)) (for_each l (fun s => insert_grant_or_ignore
    {| g_user_id := id; g_permission := s; g_granted_by := by_; g_granted_at := at_ |})).
Proof. apply keeps_for_each. intros s _. apply leaves_governed, leaves_grant_or_ignore. Qed.

Lemma summary_governed u : keeps governed (okay (fun _ => True)) (user_summary u).
Proof. unfold user_summary. by gread. Qed.

Lemma summaries_governed l : keeps governed (okay (fun _ => True)) (summaries l).
Proof.
  induction l as [|u l IH]; [done|]. eapply keeps_let; [apply summary_governed|]. intros s _.
  by eapply keeps_let; [apply IH|].
Qed.

(** Every handler but the deletion keeps a super user whatever runs beside it. *)
Lemma handle_governed parts auth r :
  match r with DeleteUser _ => False | _ => True end ->
  keeps governed (okay (fun _ => True)) (handle sha256_hex to_json from_json resolve_identifier config parts auth r).
Proof.
  intros Hr. destruct r; simpl handle; [| | | |done| | | | |].
  - unfold create_user. eapply keeps_let; [apply require_governed|]. intros _ _. cbv zeta.
    destruct (not_held _ _); [done|]. destruct (resolve_identifier _); [|done].
    gread. intros [|] _; [done|]. gread. intros n _. destruct (check _ _ _); [|done].
    gwrite insert_user_governed. intros _ _. eapply keeps_let; [apply grants_governed|]. intros _ _. by apply event_governed.
  - eapply keeps_let; [apply require_governed|]. intros _ _. gread. intros rows _.
    by eapply keeps_let; [apply summaries_governed|].
  - eapply keeps_let; [apply require_governed|]. intros _ _. gread. intros [u|] _; [|done].
    by eapply keeps_let; [apply summary_governed|].
  - unfold update_permissions. eapply keeps_let; [apply require_governed|]. intros _ _.
    destruct (_ =s _); [done|]. gread. intros [u|] _; [|done]. destruct (negb _); [done|].
    destruct (unrecognized _); [done|]. destruct (not_held _ _); [done|].
    eapply keeps_let; [apply grants_governed|]. intros _ _.
    eapply keeps_let; [apply keeps_for_each; intros s _; apply leaves_governed; by intros d d' a [= <- _]|].
    intros _ _. by apply event_governed.
  - unfold transfer_super. destruct (negb _); [done|]. gwrite transfer_tx_governed. intros [|] _; [|done].
    by apply event_governed.
  - unfold create_api_key. eapply keeps_let; [apply require_governed|]. intros _ _. destruct (not_held _ _); [done|].
    cbv zeta. gwrite (leaves_governed (A := unit)); [apply leaves_insert_key|]. intros _ _. by apply event_governed.
  - eapply keeps_let; [apply require_governed|]. intros _ _. by gread.
  - eapply keeps_let; [apply require_governed|]. intros _ _.
    gwrite (leaves_governed (A := nat)); [by intros d d' a [= <- _]|]. intros n _.
    destruct (_ =? _)%nat; [done|]. by apply event_governed.
  - unfold set_super_user. destruct (negb _); [done|]. cbv zeta. destruct (negb _); [done|].
    gwrite transfer_super_user_governed. intros id _. by apply event_governed.
Qed.

(** A deletion that runs by itself deletes a user it saw not to be super. *)
Lemma delete_governed parts auth id d0 : governed d0 -> always governed (delete_user parts auth id) d0.
Proof.
  apply (always_bind governed (okay (fun _ => True))); [apply require_governed|].
  intros [[]|e] d _ HI; [|by split]. destruct (user_id auth =s id); [by split|].
  split; [done|]. cbn [user_by_id]. split; [|by split]. destruct (List.find _ _) as [u|] eqn:Eu; [|by split].
  apply find_some_elem in Eu as [Hu Hid%String.eqb_eq].
  destruct (Z.eqb_spec (u_super u) 0) as [Hz|]; [|by split]. simpl negb. cbv iota.
  split; [done|]. cbn [revoke_keys_of]. split; [|by split].
  split; [by eapply governed_users|]. cbn [delete_user_row]. split; [|by split; [by eapply governed_users|]].
  eapply keeps_always; [instantiate (1 := fun _ => True); by destruct (_ =? _)%nat; [|apply event_governed]|].
  destruct HI as [Hn (v & Hv & Hs)]. split; simpl.
  - eapply sublist_NoDup; [apply Hn|]. apply fmap_sublist. clear. induction (users d) as [|x l IH]; simpl; [done|].
    destruct (negb _); by constructor.
  - exists v. split; [|done]. apply elem_of_filter_b. split; [done|]. apply negb_true_iff, String.eqb_neq. intros E.
    assert (u = v) as ->; [|done]. apply (unique_key u_id (users d)); [done|done|done|congruence].
Qed.

(** A request or a boot, with the statements of it that fail and the point where
    it is cut off. *)
Inductive Call : Type :=
| Serve (parts : Parts) (r : Request) (faults : list bool)
| Seed (parts : Parts) (user_did : string) (faults : list bool).

Definition after (d : Db) (c : Call) : Db :=
  match c with
  | Serve parts r faults => (alone faults d (serve sha256_hex to_json from_json resolve_identifier config parts r)).1
  | Seed parts user_did faults => (alone faults d (ensure_configured_superadmin parts user_did)).1
  end.

Lemma after_governed d c : governed d -> governed (after d c).
Proof.
  intros Hd. destruct c as [parts r faults|parts user_did faults]; cbn [after]; apply alone_always.
  - assert (Hauth : keeps governed (okay (fun _ => True))
      (match r with SetSuperUser _ => authenticate sha256_hex from_json config parts
                  | _ => user_auth sha256_hex from_json config parts end)).
    { destruct r; try apply authenticate_governed;
        (eapply keeps_let; [apply authenticate_governed|]; intros auth _; by destruct (is_platform auth)). }
    unfold serve. eapply (always_bind governed); [apply Hauth| |done]. intros [auth|e] d1 _ HI; [|by split].
    destruct r as [| | | |id| | | | |]; try (eapply keeps_always; [by apply handle_governed|done]).
    by apply delete_governed.
  - eapply keeps_always; [|done]. apply (keeps_sql governed (fun _ => True)); [apply preserves_yields, seed_tx_governed|].
    instantiate (1 := fun _ => True). intros [] _; [by apply event_governed|by apply event_governed|done].
Qed.

(** (C20) An instance that has a super user keeps one.  As long as requests run one
    after another, whatever they are - transfers, deletions, the platform's and
    the boot's included - whichever of their statements fail and wherever they
    are cut off, some user is super afterwards. *)
Theorem super_user_remains (calls : list Call) (d : Db) :
  NoDup (u_id <$> users d) -> has_super d -> has_super (foldl after d calls).
Proof.
  intros Hn Hs. refine (proj2 (_ : governed (foldl after d calls))).
  assert (Hg : governed d) by done. clear Hn Hs. revert d Hg.
  induction calls as [|c calls IH]; intros d Hg; [done|]. simpl. by apply IH, after_governed.
Qed.

End Survival.

(** ** What requests do when nothing fails *)

Fixpoint complete {R} (d : Db) (p : prog R) : Db * R :=
  match p with
  | Ret r => (d, r)
  | Sql s k => match s d with Some (d', a) => complete d' (k (Some a)) | None => complete d (k None) end
  | Spawn s k => match s d with Some (d', _) => complete d' k | None => complete d k end
  end.

Lemma complete_bind {R T} (m : prog R) (f : R -> prog T) : forall d,
  complete d (bind m f) = let '(d', r) := complete d m in complete d' (f r).
Proof.
  induction m as [r|A s k IH|s k IH]; intros d; simpl; [done| |]; destruct (s d) as [[d' a]|]; by rewrite IH.
Qed.

Lemma complete_alone {R} (p : prog R) : forall d, exists n, alone (replicate n false) d p = ((complete d p).1, Some (complete d p).2).
Proof.
  induction p as [r|A s k IH|s k IH]; intros d; [by exists 0%nat| |].
  - cbn [complete]. destruct (s d) as [[d' a]|] eqn:E;
      [destruct (IH (Some a) d') as [n Hn]|destruct (IH None d) as [n Hn]]; exists (S n); simpl; by rewrite E.
  - cbn [complete]. destruct (s d) as [[d' a]|] eqn:E; [destruct (IH d') as [n Hn]|destruct (IH d) as [n Hn]];
      exists (S n); simpl; by rewrite E.
Qed.

Section Exact.
Context {RE : RegexEngine} {UD : UrlDecoder}.
Variable sha256_hex : string -> string.
Variable from_json : string -> option (list string).
Variable config : Config.

Definition principal (auth : UserAuth) : Principal :=
  if is_platform auth then Platform else Person (is_super auth) (permissions auth).

Lemma key_permissions_exact (user_perms : gset Permission) l :
  list_to_set (C := gset Permission) (omap (fun s => match Permission_from_str s with
                             | Some p => if bool_decide (p ∈ user_perms) then Some p else None
                             | None => None
                             end) l) = parse_permissions l ∩ user_perms.
Proof.
  apply set_eq. intros p. rewrite elem_of_list_to_set, list_elem_of_omap, elem_of_intersection, elem_of_parse. split.
  - intros (s & Hs & E). destruct (Permission_from_str s) as [q|] eqn:Eq; [|done].
    case_bool_decide; simplify_eq. split; [by exists s|done].
  - intros [(s & Hs & E) Hp]. exists s. rewrite E. by rewrite bool_decide_true.
Qed.

Lemma sign_in_exact d parts user_did :
  match (complete d (sign_in parts user_did)).2 with
  | Ok auth => exists u, List.find (fun u => u_did u =s user_did) (users d) = Some u
      /\ principal auth = (if negb (u_super u =? 0) then Person true ∅ else Person false (held d (u_id u)))
      /\ user_id auth = u_id u
  | Err _ => List.find (fun u => u_did u =s user_did) (users d) = None
  end.
Proof.
  unfold sign_in. cbn [complete user_by_did]. destruct (List.find _ _) as [u|]; [|done]. cbv zeta.
  rewrite complete_bind. destruct (negb (u_super u =? 0)) eqn:Es; simpl; exists u; rewrite Es; done.
Qed.

(** *** What the tables entitle a request to

    Whether it acts as a super user, and which permissions it has. *)
Inductive entitled (d : Db) (parts : Parts) : bool -> (Permission -> Prop) -> Prop :=
| by_platform_key token :
    api_key_token parts = Some token -> platform_api_key_hash config = Some (sha256_hex token) ->
    entitled d parts false (fun p => p ∈ PLATFORM_PERMISSIONS)
| by_key token k u :
    api_key_token parts = Some token -> platform_api_key_hash config <> Some (sha256_hex token) ->
    k ∈ keys d -> k_hash k = sha256_hex token -> k_revoked_at k = None ->
    u ∈ users d -> u_id u = k_user_id k ->
    entitled d parts false (fun p =>
      (exists s, s ∈ default [] (from_json (k_permissions k)) /\ Permission_from_str s = Some p)
      /\ (u_super u <> 0 \/ p ∈ held d (u_id u)))
| by_session user_did u :
    api_key_token parts = None -> signed_in config parts = Some user_did ->
    u ∈ users d -> u_did u = user_did ->
    entitled d parts (negb (u_super u =? 0)) (fun p => u_super u = 0 /\ p ∈ held d (u_id u))
| by_first_session user_did :
    api_key_token parts = None -> signed_in config parts = Some user_did ->
    users d = [] -> superadmin_did config = None ->
    entitled d parts true (fun _ => False).

Definition as_entitled (d : Db) (parts : Parts) (res : result UserAuth AdminError) : Prop :=
  match res with
  | Ok auth => exists super holds, entitled d parts super holds /\ is_super auth = super /\ forall p, p ∈ permissions auth <-> holds p
  | Err _ => forall super holds, ~ entitled d parts super holds
  end.

Lemma find_user (f : User -> bool) l : match List.find f l with Some u => u ∈ l /\ f u = true | None => forall u, u ∈ l -> f u = false end.
Proof.
  destruct (List.find f l) as [u|] eqn:E.
  - apply find_some in E as [H1 H2]. split; [by apply list_elem_of_In|done].
  - intros u Hu%list_elem_of_In. by eapply find_none in E.
Qed.

Lemma key_entitled d parts token :
  api_key_token parts = Some token -> as_entitled d parts (complete d (authenticate sha256_hex from_json config parts)).2.
Proof.
  intros Ht. unfold authenticate. rewrite complete_bind. unfold try_api_key_auth. rewrite Ht. cbv zeta.
  assert (Hplat : (match platform_api_key_hash config with Some h => sha256_hex token =s h | None => false end) = true
                  <-> platform_api_key_hash config = Some (sha256_hex token)).
  { destruct (platform_api_key_hash config); [rewrite String.eqb_eq|]; split; congruence. }
  destruct (match platform_api_key_hash config with Some h => _ | None => false end).
  { cbn [complete ok snd as_entitled]. eexists _, _. split; [by eapply by_platform_key; [|apply Hplat]|]. split; [done|]. intros p. apply (elem_of_list_to_set (C := gset Permission)). }
  assert (Hno : platform_api_key_hash config <> Some (sha256_hex token)) by (intros ?%Hplat; done). cbn [complete key_by_hash].
  destruct (head _) as [[k u]|] eqn:Eh.
  - assert (Hin : (k, u) ∈ omap (fun k => if (k_hash k =s sha256_hex token) && live k then pair k <$> owner d k else None) (keys d)).
    { destruct (omap _ (keys d)); [done|]. injection Eh as <-. left. }
    apply list_elem_of_omap in Hin as (k' & Hk & E). destruct ((k_hash k' =s sha256_hex token) && live k') eqn:El; [|done].
    destruct (owner d k') as [u'|] eqn:Eo; [|done]. injection E as -> ->. bool_prop. unfold owner in Eo.
    pose proof (find_user (fun u => u_id u =s k_user_id k) (users d)) as Hu. rewrite Eo in Hu. destruct Hu as [Hu Hid%String.eqb_eq].
    assert (k_revoked_at k = None) by (unfold live in *; by destruct (k_revoked_at k)).
    rewrite complete_bind.
    destruct (u_super u =? 0) eqn:Es; bool_prop; simpl; (eexists _, _; split; [by eapply by_key|]); (split; [done|]); intros p.
    + rewrite key_permissions_exact, elem_of_intersection, elem_of_parse. unfold held. naive_solver lia.
    + rewrite elem_of_parse. naive_solver lia.
  - cbn. intros super holds He. inversion He as [t H1 H2|t k u H1 H2 H3 H4 H5 H6 H7|ud u H1|ud H1]; subst; try congruence.
    assert (Hin : exists x, x ∈ omap (fun k => if (k_hash k =s sha256_hex token) && live k then pair k <$> owner d k else None) (keys d)).
    { pose proof (find_user (fun u => u_id u =s k_user_id k) (users d)) as Hu. destruct (List.find _ (users d)) as [u'|] eqn:Eu.
      - exists (k, u'). apply list_elem_of_omap. exists k. split; [done|]. assert (t = token) as -> by congruence.
        rewrite H4, String.eqb_refl. unfold live, owner. by rewrite H5, Eu.
      - specialize (Hu u H6). rewrite H7, String.eqb_refl in Hu. done. }
    destruct Hin as [x Hx]. destruct (omap _ (keys d)); [by apply elem_of_nil in Hx|done].
Qed.

(** What signing in finds. *)
Lemma sign_in_entitled d d' parts user_did :
  api_key_token parts = None -> signed_in config parts = Some user_did -> users d' = users d -> grants d' = grants d ->
  ~ (users d = [] /\ superadmin_did config = None) ->
  as_entitled d parts (complete d' (sign_in parts user_did)).2.
Proof.
  intros Ht Hs Hu Hg Hboot. pose proof (sign_in_exact d' parts user_did) as H. pose proof (find_user (fun u => u_did u =s user_did) (users d')) as Hf.
  destruct (complete d' (sign_in parts user_did)) as [d2 [auth|e]] eqn:Ec; cbn [snd] in *.
  - destruct H as (u & E & Hp & _). rewrite E, Hu in Hf. destruct Hf as [Hin Hd%String.eqb_eq]. eexists _, _. split; [by eapply by_session|].
    unfold sign_in in Ec. cbn [complete user_by_did] in Ec. rewrite E in Ec. cbv zeta in Ec. rewrite complete_bind in Ec.
    destruct (u_super u =? 0) eqn:Es; bool_prop; simpl in Ec; injection Ec as _ <-; simpl; (split; [done|]); intros p.
    + unfold held. rewrite Hg. naive_solver lia.
    + rewrite elem_of_empty. naive_solver lia.
  - rewrite H, Hu in Hf. intros super holds He. inversion He as [t H1|t k u H1|ud u H1 H2 H3 H4|ud H1 H2 H3 H4]; subst; try congruence; [|tauto].
    assert (u_did u = user_did) as Hd by congruence. specialize (Hf u H3). rewrite Hd, String.eqb_refl in Hf. done.
Qed.

Lemma boot_grants {R} (l : list Permission) (f : Permission -> Grant) (k : prog R) : forall d,
  exists d', users d' = users d /\ complete d (for_each_ignoring l (fun p => insert_grant (f p)) k) = complete d' k.
Proof.
  induction l as [|p l IH]; intros d; [by exists d|]. cbn [for_each_ignoring complete].
  unfold insert_grant at 1. destruct (granted d (f p)); [|destruct (grant_refers d (f p))]; cbn [complete].
  - apply IH.
  - destruct (IH (set_grants d (grants d ++ [f p]))) as (d' & Hd & ->). by exists d'.
  - apply IH.
Qed.

Lemma bootstrap_super d parts user_did :
  users d = [] -> exists auth, (complete d (bootstrap parts user_did (sign_in parts user_did))).2 = Ok auth /\ is_super auth = true /\ permissions auth = ∅.
Proof.
  intros Hu. unfold bootstrap. cbv zeta. cbn [complete]. unfold insert_user at 1. rewrite Hu. cbn [existsb].
  set (d1 := set_users _ _). destruct (boot_grants (elements all)
    (fun p => {| g_user_id := boot_id parts; g_permission := Permission_as_str p; g_granted_by := None; g_granted_at := now parts |})
    (log_event {| event_type := "user.bootstrapped"; severity := SInfo; actor_did := None; subject := Some user_did; detail := VObject [] |} (sign_in parts user_did)) d1)
    as (d2 & Hd & ->). cbn [complete log_event write_event]. unfold sign_in. cbn [complete user_by_did]. cbn [users set_events].
  rewrite Hd. unfold d1. cbn. rewrite String.eqb_refl. cbn. by eexists.
Qed.


End Exact.

(** Granting and revoking lists of names, statement by statement. *)
Lemma grant_each_exact id by_ at_ l : forall d,
  user_exists d id = true -> user_exists d by_ = true ->
  exists gs, complete d (for_each l (fun s => insert_grant_or_ignore
      {| g_user_id := id; g_permission := s; g_granted_by := Some by_; g_granted_at := at_ |})) = (set_grants d gs, Ok tt)
    /\ forall i, held (set_grants d gs) i = if i =s id then held d i ∪ parse_permissions l else held d i.
Proof.
  induction l as [|s l IH]; intros d Hid Hby.
  - exists (grants d). split; [by destruct d|]. intros i. change (held (set_grants d (grants d)) i) with (held d i).
    destruct (i =s id); [|done]. unfold parse_permissions at 1. simpl. set_solver.
  - set (g := {| g_user_id := id; g_permission := s; g_granted_by := Some by_; g_granted_at := at_ |}).
    assert (exists gs1, insert_grant_or_ignore g d = Some (set_grants d gs1, tt)
      /\ forall i, held (set_grants d gs1) i = if i =s id then held d i ∪ parse_permissions [s] else held d i) as (gs1 & E1 & H1).
    { unfold insert_grant_or_ignore. destruct (granted d g) eqn:Eg.
      - exists (grants d). split; [by destruct d|]. intros i. change (held (set_grants d (grants d)) i) with (held d i).
        destruct (String.eqb_spec i id) as [->|]; [|done]. apply existsb_elem in Eg as (h & Hh & E). bool_prop. simpl in *.
        apply set_eq. intros p. rewrite elem_of_union. split; [by left|]. intros [|(s' & ->%list_elem_of_singleton & Hp)%elem_of_parse]; [done|].
        apply elem_of_held. exists h. split; [done|]. split; [done|]. by rewrite <- Hp; f_equal.
      - unfold grant_refers. simpl. rewrite Hid, Hby. simpl. eexists. split; [done|]. intros i. apply set_eq. intros p.
        rewrite elem_of_held. simpl. destruct (String.eqb_spec i id) as [->|Hi]; [rewrite elem_of_union, elem_of_held, elem_of_parse|rewrite elem_of_held].
        + split.
          * intros (h & [Hh| ->%list_elem_of_singleton]%elem_of_app & E & Hp); [left; by exists h|right; exists s; set_solver].
          * intros [(h & Hh & E & Hp)|(s' & ->%list_elem_of_singleton & Hp)]; [exists h; set_solver|].
            exists g. split; [apply elem_of_app; right; by apply list_elem_of_singleton|done].
        + split; [|intros (h & Hh & E); exists h; set_solver].
          intros (h & [Hh| ->%list_elem_of_singleton]%elem_of_app & E & Hp); [by exists h|]. by simpl in E. }
    cbn [for_each complete]. fold g. rewrite E1. destruct (IH (set_grants d gs1) Hid Hby) as (gs & E & H).
    exists gs. split; [done|]. intros i. rewrite H, H1. destruct (i =s id); [|done].
    apply set_eq. intros p. rewrite !elem_of_union, !elem_of_parse. set_solver.
Qed.

Lemma revoke_each_exact id l : forall d,
  exists gs, complete d (for_each l (fun s => delete_grant id s)) = (set_grants d gs, Ok tt)
    /\ forall i, held (set_grants d gs) i = if i =s id then held d i ∖ parse_permissions l else held d i.
Proof.
  induction l as [|s l IH]; intros d.
  - exists (grants d). split; [by destruct d|]. intros i. change (held (set_grants d (grants d)) i) with (held d i).
    destruct (i =s id); [|done]. unfold parse_permissions at 1. simpl. set_solver.
  - cbn [for_each complete delete_grant].
    set (gs1 := List.filter _ (grants d)). destruct (IH (set_grants d gs1)) as (gs & E & H). exists gs. split; [done|].
    intros i. rewrite H.
    assert (held (set_grants d gs1) i = if i =s id then held d i ∖ parse_permissions [s] else held d i) as ->.
    { apply set_eq. intros p. rewrite elem_of_held. simpl. unfold gs1.
      destruct (String.eqb_spec i id) as [->|Hi]; [rewrite elem_of_difference, elem_of_held, elem_of_parse|rewrite elem_of_held].
      - split.
        + intros (g & [Hg Hb]%elem_of_filter_b & E1 & Hp). split; [by exists g|]. intros (s' & ->%list_elem_of_singleton & Hs).
          apply as_str_from_str in Hp, Hs. rewrite E1, String.eqb_refl, Hp, Hs, String.eqb_refl in Hb. done.
        + intros [(g & Hg & E1 & Hp) Hn]. exists g. split; [|done]. apply elem_of_filter_b. split; [done|].
          apply negb_true_iff, andb_false_iff. right. apply String.eqb_neq. intros E2. destruct Hn. exists s. by rewrite <- E2, list_elem_of_singleton.
      - split.
        + intros (g & [Hg _]%elem_of_filter_b & E1). by exists g.
        + intros (g & Hg & E1 & Hp). exists g. split; [|done]. apply elem_of_filter_b. split; [done|].
          rewrite E1. apply String.eqb_neq in Hi. by rewrite Hi. }
    destruct (i =s id); [|done]. apply set_eq. intros p. rewrite !elem_of_difference, !elem_of_parse. set_solver.
Qed.

(** The conditions under which a change of permissions is made. *)
Definition may_update (d : Db) (auth : UserAuth) (id : string) (body : UpdatePermissionsBody) : Prop :=
  has auth UsersUpdate = true /\ user_id auth <> id
  /\ (exists u, List.find (fun u => u_id u =s id) (users d) = Some u /\ u_super u = 0)
  /\ (forall s, s ∈ up_grant body ++ up_revoke body -> is_Some (Permission_from_str s))
  /\ (is_super auth = true \/ parse_permissions (up_grant body) ⊆ permissions auth).

Lemma not_held_none auth l :
  not_held auth l = None <-> is_super auth = true \/ parse_permissions l ⊆ permissions auth.
Proof.
  unfold not_held. destruct (is_super auth); [naive_solver|]. split.
  - intros Hf. right. intros p (s & Hs & Hp)%elem_of_parse. apply list_elem_of_In in Hs.
    pose proof (find_none _ _ Hf s Hs) as H. cbv beta in H. rewrite Hp in H.
    apply negb_false_iff in H. by apply bool_decide_eq_true in H.
  - intros [|Hl]; [done|]. destruct (List.find _ _) as [s|] eqn:E; [|done]. apply find_some_elem in E as [Hs E].
    destruct (Permission_from_str s) as [p|] eqn:Ep; [|done]. apply negb_true_iff, bool_decide_eq_false in E.
    destruct E. apply Hl, elem_of_parse. eauto.
Qed.

Lemma unrecognized_none l : unrecognized l = None <-> forall s, s ∈ l -> is_Some (Permission_from_str s).
Proof.
  unfold unrecognized. split.
  - intros Hf s Hs%list_elem_of_In. pose proof (find_none _ _ Hf s Hs) as H. apply negb_false_iff in H.
    by apply bool_decide_eq_true in H.
  - intros Hl. destruct (List.find _ _) as [s|] eqn:E; [|done]. apply find_some_elem in E as [Hs E%negb_true_iff].
    apply bool_decide_eq_false in E. by destruct E, (Hl s Hs).
Qed.

(** A change of permissions does exactly what it says.  Run by itself by a user
    that exists, [update_permissions] succeeds exactly when the actor may, is not
    the target, the target exists and is not super, every name is a permission,
    and the actor holds what it grants; then the target holds what it held and
    was granted less what was revoked, and no one else's permissions change.
    Otherwise no grant changes. *)
Theorem update_permissions_exact (d d' : Db) (parts : Parts) (auth : UserAuth) (id : string) (body : UpdatePermissionsBody)
    (r : result Response AdminError) :
  user_exists d (user_id auth) = true ->
  complete d (update_permissions parts auth id body) = (d', r) ->
  (r = Ok NoContent <-> may_update d auth id body)
  /\ (r = Ok NoContent ->
      held d' id = (held d id ∪ parse_permissions (up_grant body)) ∖ parse_permissions (up_revoke body)
      /\ forall other, other <> id -> held d' other = held d other)
  /\ (r <> Ok NoContent -> grants d' = grants d).
Proof.
  intros Hex. unfold update_permissions, may_update. rewrite complete_bind. unfold require.
  destruct (has auth UsersUpdate) eqn:Eh; [|simpl; intros [= <- <-]; naive_solver]. cbn [complete ok].
  destruct (String.eqb_spec (user_id auth) id) as [|Hne]; [simpl; intros [= <- <-]; naive_solver|].
  cbn [complete user_by_id]. destruct (List.find _ (users d)) as [u|] eqn:Eu; [|simpl; intros [= <- <-]; naive_solver].
  destruct (Z.eqb_spec (u_super u) 0) as [Hz|Hz]; simpl negb; cbv iota; [|simpl; intros [= <- <-]; naive_solver].
  destruct (unrecognized _) as [s|] eqn:Er.
  { simpl. intros [= <- <-]. split; [|naive_solver]. split; [done|]. intros (_ & _ & _ & Hall & _).
    apply unrecognized_none in Hall. congruence. }
  destruct (not_held _ _) as [s|] eqn:En.
  { simpl. intros [= <- <-]. split; [|naive_solver]. split; [done|]. intros (_ & _ & _ & _ & Hall).
    apply not_held_none in Hall. congruence. }
  apply find_some_elem in Eu as Hu. destruct Hu as [Hu Hid].
  assert (user_exists d id = true) as Hid' by (apply existsb_elem; by exists u).
  destruct (grant_each_exact id (user_id auth) (now parts) (up_grant body) d Hid' Hex) as (gs & E & H).
  rewrite complete_bind, E. rewrite complete_bind.
  destruct (revoke_each_exact id (up_revoke body) (set_grants d gs)) as (gs' & E' & H'). rewrite E'. simpl.
  intros [= <- <-]. split; [|split; [|done]].
  - split; [|done]. intros _. split; [done|]. split; [done|]. split; [by exists u|].
    split; [by apply unrecognized_none|by apply not_held_none].
  - intros _. change (forall i, held (set_grants d gs') i = if i =s id then held (set_grants d gs) i ∖ parse_permissions (up_revoke body) else held (set_grants d gs) i) in H'.
    split; [|intros other Ho%String.eqb_neq]; match goal with |- held ?x ?i = _ => change (held x i) with (held (set_grants d gs') i) end;
      rewrite H', H; [by rewrite String.eqb_refl|by rewrite Ho].
Qed.

(** ** An instance to run *)

Section Examples.
Existing Instance Derivative.engine.
Existing Instance Percent.decoder.

Definition to_json (l : list string) : string := pretty (Npos (encode l)).
Definition from_json (s : string) : option (list string) := decode (Z.to_pos (decimal s)).

Lemma json_reads l : from_json (to_json l) = Some l.
Proof. unfold from_json, to_json. rewrite (proj1 (pretty_N_reads _)). simpl. apply decode_encode. Qed.

Definition config : Config :=
  {| platform_api_key_hash := Some "hv_platform"; superadmin_did := None; keyring := true; instance_limits := unlimited |}.

Definition user (id user_did : string) (super : Z) : User :=
  {| u_id := id; u_did := user_did; u_super := super; u_created_at := "t0"; u_last_used_at := None |}.
Definition grant (id : string) (p : Permission) : Grant :=
  {| g_user_id := id; g_permission := Permission_as_str p; g_granted_by := None; g_granted_at := "t0" |}.

(** A super user, someone who may add users, and someone who may delete them. *)
Definition start : Db :=
  {| users := [user "u1" "did:root" 1; user "u2" "did:mallory" 0; user "u3" "did:carol" 0; user "u4" "did:bob" 0];
     grants := [grant "u2" UsersCreate; grant "u2" StatsRead; grant "u3" UsersDelete];
     keys := [];
     events := [] |}.

(** A request of a signed-in user. *)
Definition session (user_did : string) : Parts :=
  {| authorization := None;
     claims := Ok {| c_did := user_did; c_client_key := None; c_dpop_key_id := None; c_service_auth_lxm := None |};
     granted_scope := Err EInternal; now := "t1"; boot_id := "b"; new_id := "u5"; random_hex := "0123456789abcdef" |}.

Definition sha (s : string) : string := s.
Definition resolve (s : string) : result string AdminError := Ok s.

#[local] Abbreviation run := (run sha to_json from_json resolve config).
#[local] Abbreviation power := (power sha from_json config).

Definition new_user (perms : list string) : CreateUserBody :=
  {| cu_did := "did:eve"; cu_template := None; cu_permissions := Some perms |}.

Definition U : gset Permission := {[UsersCreate; StatsRead]}.

Definition creation : list Action :=
  [Arrive (session "did:mallory") (CreateUser (new_user ["stats:read"]))] ++ replicate 12 (Step 0 false).


(** Root hands its role to bob; the deletion of root after that, and a failing
    deletion of bob. *)
Definition calls : list Call :=
  [Serve (session "did:root") (TransferSuper "u4") (replicate 12 false);
   Serve (session "did:carol") (DeleteUser "u4") (replicate 12 false);
   Serve (session "did:carol") (DeleteUser "u1") (replicate 12 false)].

Lemma super_user_remains_witness :
  u_id <$> users (foldl (after sha to_json from_json resolve config) start calls) = ["u2"; "u3"; "u4"]
  /\ has_super (foldl (after sha to_json from_json resolve config) start calls).
Proof.
  split; [by vm_compute|]. apply super_user_remains.
  - apply (bool_decide_unpack _). by vm_compute.
  - exists (user "u1" "did:root" 1). split; [left|done].
Defined.

Definition root : UserAuth :=
  {| did := "did:root"; user_id := "u1"; is_super := true; is_platform := false; permissions := ∅ |}.

Definition change : UpdatePermissionsBody := {| up_grant := ["events:read"]; up_revoke := ["stats:read"] |}.

Lemma update_permissions_exact_witness :
  held (complete start (update_permissions (session "did:root") root "u2" change)).1 "u2" = {[UsersCreate; EventsRead]}.
Proof.
  destruct (update_permissions_exact start (complete start (update_permissions (session "did:root") root "u2" change)).1
    (session "did:root") root "u2" change (complete start (update_permissions (session "did:root") root "u2" change)).2)
    as (_ & H & _).
  - reflexivity.
  - apply surjective_pairing.
  - rewrite (proj1 (H ltac:(vm_compute; reflexivity))). apply (bool_decide_unpack _). vm_compute. exact Logic.I.
Defined.

(** ** Two requests at once

    A deletion reads whether its target is super in one statement and deletes it
    in another.  Between the two the super user may hand its role to the target:
    then no super user is left, and as users remain no one becomes one by
    signing in. *)
Definition race : list Action :=
  [Arrive (session "did:carol") (DeleteUser "u4")] ++ replicate 5 (Step 0 false)
  ++ [Arrive (session "did:root") (TransferSuper "u4")] ++ replicate 8 (Step 2 false)
  ++ replicate 8 (Step 0 false).

Lemma delete_races_transfer :
  has_super start
  /\ Forall (fun u => u_super u = 0) (users (db (run {| db := start; tasks := [] |} race)))
  /\ length (users (db (run {| db := start; tasks := [] |} race))) = 3%nat
  /\ tasks (run {| db := start; tasks := [] |} race) !! 0%nat = Some (ok NoContent)
  /\ tasks (run {| db := start; tasks := [] |} race) !! 2%nat = Some (ok NoContent).
Proof.
  split; [exists (user "u1" "did:root" 1); split; [left|done]|].
  split; [apply (bool_decide_unpack _); vm_compute; exact Logic.I|].
  split; [vm_compute; reflexivity|]. split; vm_compute; reflexivity.
Qed.

(** The escalation guard passes over a name that is not a permission, and
    [create_user] stores it: a version that knows the permission will grant it
    to a user whose creator never held it. *)
Lemma unknown_permission_stored :
  let d := db (run {| db := start; tasks := [] |}
    ([Arrive (session "did:mallory") (CreateUser (new_user ["future:permission"]))] ++ replicate 12 (Step 0 false))) in
  Permission_from_str "future:permission" = None
  /\ exists g, g ∈ grants d /\ g_user_id g = "u5" /\ g_permission g = "future:permission".
Proof.
  split; [done|]. exists {| g_user_id := "u5"; g_permission := "future:permission"; g_granted_by := Some "u2"; g_granted_at := "t1" |}.
  split; [|done]. apply list_elem_of_In. vm_compute. tauto.
Qed.

End Examples.
