(* ===== verification/PluginSandbox.v ===== *)
(** * What a plugin may do

    [src/plugin/capabilities.rs]: capabilities and the imports they open;
    [src/plugin/loader.rs]: the checks of a manifest and of a module's imports;
    [src/plugin/secrets.rs], [src/plugin/config.rs], [src/plugin/host/{http,kv}.rs] and the gates of
    [src/plugin/host/bindings.rs] and [src/plugin/executor.rs]: what the host
    grants a running plugin; [check_capability_consent] of
    [src/admin/plugins.rs].  The WebAssembly parser, the URL parser and the
    other end of a request are parameters: a module is what the parser says of
    it, an exchange is what the server does. *)

From stdpp Require Import gmap strings list pretty sorting.
From Stdlib Require Import ZArith Lia.
From S2P Require Import Prelude RustStr Words Json PluginGraph PluginRegistry.
#[local] Open Scope Z_scope.

(** ** Capabilities *)

Inductive Risk : Type := Low | Medium | High | Critical.

Inductive PluginCapability : Type :=
| SecretsRead
| KvRead
| KvWrite
| RecordsRead
| NetworkRequest
| NetworkRequestDefined
| NetworkRequestUnrestricted
| LibraryCall
| DatabaseRead
| DatabaseWrite
| CallerRead
| CallerEmail
| CallerWrite
| CallerCall
| RecordsWrite
| BlobsRead
| BlobsWrite
| AtprotoRead
| AttestSign
| LinkedReposUse
| JobsCreate
| JobsRead
| JobsReadAny
| SpacesRead
| SpacesWrite
| WasiClock
| WasiRandom
| WasiStdio
| ScriptHost
| ScriptTest.

#[export] Instance PluginCapability_eq_dec : EqDecision PluginCapability.
Proof. solve_decision. Defined.

Definition all_capabilities : list PluginCapability := [
  SecretsRead; KvRead; KvWrite; RecordsRead; NetworkRequest; NetworkRequestDefined;
  NetworkRequestUnrestricted; LibraryCall; DatabaseRead; DatabaseWrite; CallerRead; CallerEmail; CallerWrite;
  CallerCall; RecordsWrite; BlobsRead; BlobsWrite; AtprotoRead; AttestSign; LinkedReposUse; JobsCreate;
  JobsRead; JobsReadAny; SpacesRead; SpacesWrite; WasiClock; WasiRandom; WasiStdio; ScriptHost; ScriptTest].

Definition capability_as_str (c : PluginCapability) : string :=
  match c with
  | SecretsRead => "secrets:read"
  | KvRead => "kv:read"
  | KvWrite => "kv:write"
  | RecordsRead => "records:read"
  | NetworkRequest => "network:request"
  | NetworkRequestDefined => "network:request:defined"
  | NetworkRequestUnrestricted => "network:request:unrestricted"
  | LibraryCall => "library:call"
  | DatabaseRead => "database:read"
  | DatabaseWrite => "database:write"
  | CallerRead => "caller:read"
  | CallerEmail => "caller:email"
  | CallerWrite => "caller:write"
  | CallerCall => "caller:call"
  | RecordsWrite => "records:write"
  | BlobsRead => "blobs:read"
  | BlobsWrite => "blobs:write"
  | AtprotoRead => "atproto:read"
  | AttestSign => "attest:sign"
  | LinkedReposUse => "linked_repos:use"
  | JobsCreate => "jobs:create"
  | JobsRead => "jobs:read"
  | JobsReadAny => "jobs:read_any"
  | SpacesRead => "spaces:read"
  | SpacesWrite => "spaces:write"
  | WasiClock => "wasi:clock"
  | WasiRandom => "wasi:random"
  | WasiStdio => "wasi:stdio"
  | ScriptHost => "script:host"
  | ScriptTest => "script:test"
  end.

Definition capability_parse_str (s : string) : option PluginCapability :=
  List.find (fun c => capability_as_str c =s s) all_capabilities.

Definition risk (c : PluginCapability) : Risk :=
  match c with
  | SecretsRead | KvRead | KvWrite | JobsRead | WasiClock | WasiRandom | ScriptHost | ScriptTest => Low
  | RecordsRead | BlobsRead | BlobsWrite | NetworkRequest | NetworkRequestDefined | LibraryCall | CallerRead
  | AtprotoRead | JobsCreate | WasiStdio => Medium
  | NetworkRequestUnrestricted | DatabaseRead | CallerEmail | CallerWrite | RecordsWrite | AttestSign
  | LinkedReposUse | JobsReadAny | SpacesRead | SpacesWrite => High
  | DatabaseWrite | CallerCall => Critical
  end.

Definition description (c : PluginCapability) : string :=
  match c with
  | SecretsRead =>
      "Read the secrets you configure for this plugin."
  | KvRead =>
      "Read its own key-value storage."
  | KvWrite =>
      "Write to its own key-value storage (1 MB per scope)."
  | RecordsRead =>
      "Look up indexed AT Protocol records."
  | NetworkRequest =>
      "Make HTTP requests, only to the hosts it lists. Redirects are not followed."
  | NetworkRequestDefined =>
      "Make HTTP requests only to the hosts you list for this plugin in its settings. Redirects are not followed."
  | NetworkRequestUnrestricted =>
      "Make HTTP requests to any host on the internet, including internal services this server can reach."
  | LibraryCall =>
      "Call other installed library plugins, which run with their own permissions (not this plugin's)."
  | DatabaseRead =>
      "Run arbitrary read-only SQL against indexed records, labels, lexicons, jobs and space data. Internal auth, secret and key tables are blocked."
  | DatabaseWrite =>
      "Run arbitrary SQL, including INSERT, UPDATE, DELETE and DROP, against indexed records, labels, lexicons, jobs and space data. This can destroy your index."
  | CallerRead =>
      "Read from the AT Protocol network as the user who ran the script."
  | CallerEmail =>
      "Read the email address of the user who ran the script, and whether it is confirmed, from their PDS, whenever their sign-in granted this instance access to it."
  | CallerWrite =>
      "Create, update and delete records in the user's own repository and upload blobs to it."
  | CallerCall =>
      "Call any XRPC procedure as the user, including ones that change their account. A procedure this instance does not serve is forwarded to the NSID's authority without the user's credentials."
  | RecordsWrite =>
      "Write to this instance's record index directly, bypassing the network. This can replace the body of a record that arrived from the network while its CID and indexed time stay as the network set them."
  | BlobsRead =>
      "Read any byte content this instance stores, and its media type and size, given its content address."
  | BlobsWrite =>
      "Store byte content in this instance's database, consuming disk without limit other than the instance's own. Content is addressed by its hash, so a write cannot replace or alter content already stored."
  | AtprotoRead =>
      "Resolve any DID's service endpoints, download blobs from any repo on the network, look up labels applied to any URI, and verify this instance's attestation signatures."
  | AttestSign =>
      "Sign records with this instance's attestation key, producing a signature that asserts this instance vouches for the content."
  | LinkedReposUse =>
      "Write records and upload blobs through any repo an admin has linked to this instance, within the scopes that admin granted, and call any XRPC method through it, which only that repo's PDS constrains."
  | JobsCreate =>
      "Enqueue background jobs as the user who ran the script, optionally carrying that user's PDS session into the job."
  | JobsRead =>
      "Read background jobs the user who ran the script created."
  | JobsReadAny =>
      "Read every background job on this instance, including other users' job input and results."
  | SpacesRead =>
      "Read the members and records of every space this instance holds, regardless of each space's read policy."
  | SpacesWrite =>
      "Create spaces, write records into them, and manage their members and invites, as the user who ran the script and with that user's access."
  | WasiClock =>
      "Read the wall clock."
  | WasiRandom =>
      "Read secure random numbers."
  | WasiStdio =>
      "Write to this instance's plugin log."
  | ScriptHost =>
      "Log, report progress, check for a stop request, wait, and load the project's own modules on behalf of the script run it is inside; the host supplies the run's identity, job and files."
  | ScriptTest =>
      "Fire this project's triggers, mock its libraries and record results, only while the test command runs one of its test files."
  end.

(** ** Imports *)

Record Requirement : Type := { import : string; any_of : list PluginCapability }.

#[export] Instance Requirement_eq_dec : EqDecision Requirement.
Proof. solve_decision. Defined.

Definition IMPORT_REQUIREMENTS : list Requirement := [
  {| import := "host_get_secret"; any_of := [SecretsRead] |};
  {| import := "host_http_request"; any_of := [NetworkRequest; NetworkRequestDefined; NetworkRequestUnrestricted] |};
  {| import := "host_kv_get"; any_of := [KvRead] |};
  {| import := "host_kv_set"; any_of := [KvWrite] |};
  {| import := "host_kv_delete"; any_of := [KvWrite] |};
  {| import := "host_lookup_record"; any_of := [RecordsRead] |};
  {| import := "host_call_library"; any_of := [LibraryCall] |};
  {| import := "host_call_library_start"; any_of := [LibraryCall] |};
  {| import := "host_call_library_wait_any"; any_of := [LibraryCall] |};
  {| import := "host_get_api_surface"; any_of := [LibraryCall] |};
  {| import := "host_db_query"; any_of := [DatabaseRead; DatabaseWrite] |};
  {| import := "host_db_execute"; any_of := [DatabaseWrite] |};
  {| import := "host_records_query"; any_of := [RecordsRead] |};
  {| import := "host_records_count"; any_of := [RecordsRead] |};
  {| import := "host_records_get"; any_of := [RecordsRead] |};
  {| import := "host_records_search"; any_of := [RecordsRead] |};
  {| import := "host_backlinks_query"; any_of := [RecordsRead] |};
  {| import := "host_table_query"; any_of := [DatabaseRead; DatabaseWrite] |};
  {| import := "host_caller_xrpc_query"; any_of := [CallerRead] |};
  {| import := "host_caller_get_session"; any_of := [CallerRead] |};
  {| import := "host_caller_get_email"; any_of := [CallerEmail] |};
  {| import := "host_caller_create_record"; any_of := [CallerWrite] |};
  {| import := "host_caller_put_record"; any_of := [CallerWrite] |};
  {| import := "host_caller_delete_record"; any_of := [CallerWrite] |};
  {| import := "host_caller_upload_blob"; any_of := [CallerWrite] |};
  {| import := "host_caller_xrpc_procedure"; any_of := [CallerCall] |};
  {| import := "host_records_index_put"; any_of := [RecordsWrite] |};
  {| import := "host_records_index_delete"; any_of := [RecordsWrite] |};
  {| import := "host_blob_put"; any_of := [BlobsWrite] |};
  {| import := "host_blob_get"; any_of := [BlobsRead] |};
  {| import := "host_blob_stat"; any_of := [BlobsRead] |};
  {| import := "host_atproto_resolve_service"; any_of := [AtprotoRead] |};
  {| import := "host_atproto_resolve_identity"; any_of := [AtprotoRead] |};
  {| import := "host_atproto_blob_download"; any_of := [AtprotoRead] |};
  {| import := "host_labels_get"; any_of := [AtprotoRead] |};
  {| import := "host_attest_sign"; any_of := [AttestSign] |};
  {| import := "host_attest_verify"; any_of := [AtprotoRead] |};
  {| import := "host_linked_repos_list"; any_of := [LinkedReposUse] |};
  {| import := "host_linked_repo_create_record"; any_of := [LinkedReposUse] |};
  {| import := "host_linked_repo_put_record"; any_of := [LinkedReposUse] |};
  {| import := "host_linked_repo_delete_record"; any_of := [LinkedReposUse] |};
  {| import := "host_linked_repo_upload_blob"; any_of := [LinkedReposUse] |};
  {| import := "host_linked_repo_call"; any_of := [LinkedReposUse] |};
  {| import := "host_jobs_create"; any_of := [JobsCreate] |};
  {| import := "host_jobs_get"; any_of := [JobsRead] |};
  {| import := "host_jobs_get_any"; any_of := [JobsReadAny] |};
  {| import := "host_jobs_list_any"; any_of := [JobsReadAny] |};
  {| import := "host_spaces_info"; any_of := [SpacesRead] |};
  {| import := "host_spaces_query"; any_of := [SpacesRead] |};
  {| import := "host_spaces_members"; any_of := [SpacesRead] |};
  {| import := "host_spaces_access"; any_of := [SpacesRead] |};
  {| import := "host_spaces_create"; any_of := [SpacesWrite] |};
  {| import := "host_spaces_accept_invite"; any_of := [SpacesWrite] |};
  {| import := "host_spaces_write_record"; any_of := [SpacesWrite] |};
  {| import := "host_spaces_put_record"; any_of := [SpacesWrite] |};
  {| import := "host_spaces_delete_record"; any_of := [SpacesWrite] |};
  {| import := "host_spaces_add_member"; any_of := [SpacesWrite] |};
  {| import := "host_spaces_set_member"; any_of := [SpacesWrite] |};
  {| import := "host_spaces_remove_member"; any_of := [SpacesWrite] |};
  {| import := "host_spaces_update"; any_of := [SpacesWrite] |};
  {| import := "host_spaces_delete"; any_of := [SpacesWrite] |};
  {| import := "host_spaces_create_invite"; any_of := [SpacesWrite] |};
  {| import := "host_script_log"; any_of := [ScriptHost] |};
  {| import := "host_job_progress"; any_of := [ScriptHost] |};
  {| import := "host_job_should_stop"; any_of := [ScriptHost] |};
  {| import := "host_job_wait"; any_of := [ScriptHost] |};
  {| import := "host_module_resolve"; any_of := [ScriptHost] |};
  {| import := "host_test_trigger"; any_of := [ScriptTest] |};
  {| import := "host_test_mock"; any_of := [ScriptTest] |};
  {| import := "host_test_calls"; any_of := [ScriptTest] |};
  {| import := "host_test_pds_writes"; any_of := [ScriptTest] |};
  {| import := "host_test_report"; any_of := [ScriptTest] |}].

Definition WASI_IMPORT_REQUIREMENTS : list Requirement := [
  {| import := "clock_time_get"; any_of := [WasiClock] |};
  {| import := "clock_res_get"; any_of := [WasiClock] |};
  {| import := "random_get"; any_of := [WasiRandom] |};
  {| import := "fd_write"; any_of := [WasiStdio] |}].

Definition WASI_FREE_IMPORTS : list string := [
  "proc_exit"; "sched_yield"; "fd_fdstat_get"; "fd_prestat_get"; "fd_prestat_dir_name"; "args_get";
  "args_sizes_get"; "environ_get"; "environ_sizes_get"].

Definition FREE_IMPORTS : list string := ["host_log"; "host_lexicon_get"; "host_allowed_hosts"; "host_script_panic"].

Definition WASI_MODULE : string := "wasi_snapshot_preview1".

Definition is_free_wasi_import (name : string) : bool := str_mem name WASI_FREE_IMPORTS.
Definition is_free_import (name : string) : bool := str_mem name FREE_IMPORTS.

Definition requirement_for_wasi_import (name : string) : option Requirement :=
  List.find (fun r => import r =s name) WASI_IMPORT_REQUIREMENTS.
Definition requirement_for_import (name : string) : option Requirement :=
  List.find (fun r => import r =s name) IMPORT_REQUIREMENTS.

(** What the parser says of a module: the groups of its import sections, each of
    which may be malformed. *)
Inductive Imports : Type :=
| Single (module name : string)
| Compact1 (module : string) (items : list (result string string))
| Compact2 (module : string) (names : list (result string string)).

Inductive Payload : Type :=
| ImportSection (groups : list (result Imports string))
| OtherPayload.

Fixpoint collect_names (module : string) (l : list (result string string)) : result (list (string * string)) string :=
  match l with
  | [] => Ok []
  | Ok name :: l => let? rest := collect_names module l in Ok ((module, name) :: rest)
  | Err e :: _ => Err ("invalid import section: " +:+ e)
  end.

Definition import_names (g : Imports) : result (list (string * string)) string :=
  match g with
  | Single module name => Ok [(module, name)]
  | Compact1 module items => collect_names module items
  | Compact2 module names => collect_names module names
  end.

Definition unsupported_wasi (name : string) : string :=
  "unsupported WASI import '" +:+ name
  +:+ "': plugins get the clock, randomness and the plugin log, never files, sockets or input".
Definition unsupported_module (module : string) : string :=
  "unsupported import module '" +:+ module +:+ "' (only 'env' host functions and '" +:+ WASI_MODULE +:+ "' are available)".

(** What one import needs: nothing, a requirement, or it is refused. *)
Definition import_requirement (i : string * string) : result (option Requirement) string :=
  let '(module, name) := i in
  if module =s "env" then
    if is_free_import name then Ok None
    else match requirement_for_import name with
         | Some r => Ok (Some r)
         | None => Err ("unknown host function import '" +:+ name +:+ "'")
         end
  else if module =s WASI_MODULE then
    if is_free_wasi_import name then Ok None
    else match requirement_for_wasi_import name with
         | Some r => Ok (Some r)
         | None => Err (unsupported_wasi name)
         end
  else Err (unsupported_module module).

Fixpoint analyze_names (l : list (string * string)) (out : list Requirement) : result (list Requirement) string :=
  match l with
  | [] => Ok out
  | i :: l =>
      let? req := import_requirement i in
      analyze_names l (match req with
                       | Some r => if bool_decide (r ∈ out) then out else out ++ [r]
                       | None => out
                       end)
  end.

Fixpoint analyze_groups (l : list (result Imports string)) (out : list Requirement) : result (list Requirement) string :=
  match l with
  | [] => Ok out
  | Err e :: _ => Err ("invalid import section: " +:+ e)
  | Ok g :: l =>
      let? names := import_names g in
      let? out := analyze_names names out in
      analyze_groups l out
  end.

Fixpoint analyze_payloads (l : list (result Payload string)) (out : list Requirement) : result (list Requirement) string :=
  match l with
  | [] => Ok out
  | Err e :: _ => Err ("invalid WASM: " +:+ e)
  | Ok OtherPayload :: l => analyze_payloads l out
  | Ok (ImportSection groups) :: l => let? out := analyze_groups groups out in analyze_payloads l out
  end.

Definition analyze_imports (payloads : list (result Payload string)) : result (list Requirement) string :=
  analyze_payloads payloads [].

Fixpoint minimal_go (requirements : list Requirement) (out : list PluginCapability) : list PluginCapability :=
  match requirements with
  | [] => out
  | req :: rest =>
      minimal_go rest (match any_of req with
                       | first :: _ => if bool_decide (first ∈ out) then out else out ++ [first]
                       | [] => out
                       end)
  end.
Definition minimal_set (requirements : list Requirement) : list PluginCapability := minimal_go requirements [].

Definition covered (declared : list PluginCapability) (req : Requirement) : bool :=
  existsb (fun c => bool_decide (c ∈ declared)) (any_of req).

Definition check_declared (declared : list PluginCapability) (requirements : list Requirement) : result unit (list Requirement) :=
  match List.filter (fun req => negb (covered declared req)) requirements with
  | [] => Ok tt
  | missing => Err missing
  end.

Record CapabilityEntry : Type := { ce_name : string; ce_risk : Risk; ce_description : string }.

Definition capability_entry (c : PluginCapability) : CapabilityEntry :=
  {| ce_name := capability_as_str c; ce_risk := risk c; ce_description := description c |}.

Record CapabilityReport : Type := {
  cr_declared : list CapabilityEntry;
  cr_required_by_imports : list CapabilityEntry;
  cr_undeclared : list string;
}.

(** [any_of[0]] of a requirement of the tables, none of which is empty. *)
Definition first_name (r : Requirement) : string :=
  match any_of r with c :: _ => capability_as_str c | [] => "" end.

Definition report (declared : list PluginCapability) (payloads : list (result Payload string)) : result CapabilityReport string :=
  let? requirements := analyze_imports payloads in
  Ok {| cr_declared := capability_entry <$> declared;
        cr_required_by_imports := capability_entry <$> minimal_set requirements;
        cr_undeclared := match check_declared declared requirements with
                         | Ok _ => []
                         | Err missing => first_name <$> missing
                         end |}.

(** ** Manifests *)

(** The errors these checks answer. *)
Inductive LoadError : Type :=
| UnsupportedApiVersion (v : string)
| ApiVersionTooOld (plugin_type api_version : string)
| InvalidDependency (why : string)
| InvalidCapabilities (why : string)
| MissingSecret (key : string)
| InvalidSecretKey (key expected_prefix : string)
| DisabledProposal (what : string)
| CapabilityMismatch (why : string)
| UnknownImport (why : string)
| ReservedNamespace (ns : string)
| InvalidLanguageId (id reason : string)
| InvalidSupportsLibraries (id reason : string)
| InvalidExtensions (id reason : string).

(** A manifest: the fields of the registry's and those the checks below read. *)
Record Manifest : Type := {
  m_base : PluginManifest;
  m_api_version : string;
  m_capabilities : list PluginCapability;
  m_allowed_hosts : list string;
  m_required_secrets : list string;
}.

Definition MAX_API_VERSION : Z := 2.
Definition MIN_API_VERSION : Z := 2.
Definition BUILTIN_PREFIX : string := "internal.".
Definition ANY_LIBRARY : string := "*".

Definition plugin_type_str (t : PluginType) : string :=
  match t with Auth => "auth" | Interpreter => "interpreter" | Library => "library" end.

Definition valid_label (label : string) : bool :=
  nonempty label && (String.length label <=? 63)%nat
  && str_all (fun c => is_ascii_alphanumeric c || (c =c "-")) label
  && negb (starts_with "-" label) && negb (ends_with "-" label).

Definition is_valid_host_pattern (pattern : string) : bool :=
  let host := default pattern (strip_prefix "*." pattern) in
  nonempty host && (String.length host <=? 253)%nat && forallb valid_label (str_split "." host).

Definition is_valid_language_id (id : string) : bool :=
  match id with
  | String first rest =>
      is_ascii_lowercase first
      && str_all (fun c => is_ascii_lowercase c || is_ascii_digit c || (c =c "-") || (c =c "_")) rest
  | EmptyString => false
  end.

Definition is_valid_extension (extension : string) : bool :=
  (1 <=? String.length extension)%nat && (String.length extension <=? 16)%nat
  && str_all (fun c => is_ascii_lowercase c || is_ascii_digit c) extension && negb (extension =s "json").

(** The loop over the extensions, with those before the one it is at. *)
Fixpoint check_extensions (id : string) (before l : list string) : result unit LoadError :=
  match l with
  | [] => Ok tt
  | extension :: l =>
      if negb (is_valid_extension extension)
      then Err (InvalidExtensions id ("'" +:+ extension +:+ "' must be 1-16 lowercase letters or digits with no dot, "
                                      +:+ "and not 'json', which names lexicons"))
      else if str_mem extension before
      then Err (InvalidExtensions id ("extension '" +:+ extension +:+ "' is listed twice"))
      else check_extensions id (before ++ [extension]) l
  end.

Definition validate_interpreter (m : PluginManifest) : result unit LoadError :=
  let id := m_id m in
  match m_language_id m with
  | None => Err (InvalidLanguageId id "the field is required and names the script_type this interpreter serves")
  | Some lang =>
      if negb (is_valid_language_id lang)
      then Err (InvalidLanguageId id ("'" +:+ lang +:+ "' must be lowercase alphanumerics, '-' or '_', starting with a letter"))
      else if str_mem ANY_LIBRARY (m_supports_libraries m) && (1 <? length (m_supports_libraries m))%nat
      then Err (InvalidSupportsLibraries id ("'" +:+ ANY_LIBRARY
                 +:+ "' already covers every library; listing ids beside it contradicts it"))
      else if str_mem "" (m_supports_libraries m)
      then Err (InvalidSupportsLibraries id ("an entry must be '" +:+ ANY_LIBRARY +:+ "' or a plugin id, never empty"))
      else check_extensions id [] (effective_extensions m)
  end.

(** [secret_env_prefix]: [PLUGIN_], the id with letters upper-cased and every
    other byte than letters and digits an underscore, [_]. *)
Definition to_upper (c : ascii) : ascii :=
  if is_ascii_lowercase c then ascii_of_N (code c - 32) else c.
Fixpoint map_str (f : ascii -> ascii) (s : string) : string :=
  match s with EmptyString => EmptyString | String c s => String (f c) (map_str f s) end.
Definition secret_env_prefix (plugin_id : string) : string :=
  "PLUGIN_" +:+ map_str (fun c => if is_ascii_alphanumeric c then to_upper c else "_"%char) plugin_id +:+ "_".

Section Loading.
Context `{Semver}.

Fixpoint check_dependencies (id : string) (deps : list PluginDependency) : result unit LoadError :=
  match deps with
  | [] => Ok tt
  | dep :: deps =>
      if dep_id dep =s id then Err (InvalidDependency ("plugin '" +:+ id +:+ "' cannot depend on itself"))
      else match parse_req (dep_version dep) with
           | None => Err (InvalidDependency ("plugin '" +:+ id +:+ "' declares an invalid version requirement '"
                          +:+ dep_version dep +:+ "' for '" +:+ dep_id dep +:+ "'"))
           | Some _ => check_dependencies id deps
           end
  end.

Definition bad_host (host : string) : string :=
  "'" +:+ host +:+ "' is not a valid allowed_hosts entry (bare hostname, optionally prefixed '*.')".

Definition check_hosts (m : Manifest) : result unit LoadError :=
  let restricted := bool_decide (NetworkRequest ∈ m_capabilities m) in
  let defined := bool_decide (NetworkRequestDefined ∈ m_capabilities m) in
  let unrestricted := bool_decide (NetworkRequestUnrestricted ∈ m_capabilities m) in
  let none := match m_allowed_hosts m with [] => true | _ => false end in
  if (1 <? length (List.filter (fun declared => declared) [restricted; defined; unrestricted]))%nat
  then Err (InvalidCapabilities ("network:request, network:request:defined and network:request:unrestricted are "
              +:+ "mutually exclusive; declare at most one"))
  else if restricted && none
  then Err (InvalidCapabilities ("network:request requires a non-empty allowed_hosts; use "
              +:+ "network:request:unrestricted to reach any host"))
  else if unrestricted && negb none
  then Err (InvalidCapabilities "network:request:unrestricted already grants every host; allowed_hosts must be empty")
  else if defined && negb none
  then Err (InvalidCapabilities ("network:request:defined takes its hosts from the plugin's settings, not the manifest; "
              +:+ "allowed_hosts must be empty"))
  else match List.find (fun h => negb (is_valid_host_pattern h)) (m_allowed_hosts m) with
       | Some h => Err (InvalidCapabilities (bad_host h))
       | None => Ok tt
       end.

Definition validate_manifest (m : Manifest) : result unit LoadError :=
  let base := m_base m in
  let api_version := default 0 (parse_unsigned (2 ^ 32 - 1) (m_api_version m)) in
  if MAX_API_VERSION <? api_version then Err (UnsupportedApiVersion (m_api_version m))
  else if api_version <? MIN_API_VERSION
  then Err (ApiVersionTooOld (plugin_type_str (m_plugin_type base)) (m_api_version m))
  else
    let ns := default (m_id base) (m_namespace base) in
    if bool_decide (m_plugin_type base = Library) && starts_with BUILTIN_PREFIX ns then Err (ReservedNamespace ns)
    else
      let? _ := (if bool_decide (m_plugin_type base = Interpreter) then validate_interpreter base else Ok tt) in
      if negb (bool_decide (m_plugin_type base = Library)) && negb (match m_dependencies base with [] => true | _ => false end)
      then Err (InvalidDependency (plugin_type_str (m_plugin_type base) +:+ " plugin '" +:+ m_id base
                                   +:+ "' cannot declare dependencies"))
      else
        let? _ := check_dependencies (m_id base) (m_dependencies base) in
        let? _ := check_hosts m in
        let expected_prefix := secret_env_prefix (m_id base) in
        match List.find (fun key => negb (starts_with expected_prefix key)) (m_required_secrets m) with
        | Some key => Err (InvalidSecretKey key expected_prefix)
        | None => Ok tt
        end.

Definition mismatch_name (r : Requirement) : string :=
  import r +:+ " (needs " +:+ str_join " or " (capability_as_str <$> any_of r) +:+ ")".

Definition validate_capabilities (m : Manifest) (disabled : option string) (payloads : list (result Payload string)) : result unit LoadError :=
  match disabled with
  | Some proposal => Err (DisabledProposal proposal)
  | None =>
      match analyze_imports payloads with
      | Err e => Err (UnknownImport e)
      | Ok requirements =>
          match check_declared (m_capabilities m) requirements with
          | Ok _ => Ok tt
          | Err missing =>
              Err (CapabilityMismatch ("plugin '" +:+ m_id (m_base m) +:+ "' imports "
                     +:+ str_join ", " (mismatch_name <$> missing) +:+ " but does not declare the capability"))
          end
      end
  end.

End Loading.

Fixpoint validate_secrets (required : list string) (available : string -> bool) : result unit LoadError :=
  match required with
  | [] => Ok tt
  | s :: required => if available s then validate_secrets required available else Err (MissingSecret s)
  end.

Fixpoint validate_hosts (hosts : list string) : result unit string :=
  match hosts with
  | [] => Ok tt
  | host :: hosts => if is_valid_host_pattern host then validate_hosts hosts else Err (bad_host host)
  end.

(** The variables of the environment a plugin without stored secrets is given. *)
Definition env_secrets (plugin_id : string) (vars : list (string * string)) : list (string * string) :=
  omap (fun kv => (fun name => (name, kv.2)) <$> strip_prefix (secret_env_prefix plugin_id) kv.1) vars.

(** The secrets of a stored configuration, under the names the plugin knows; a
    value that does not decode, decrypt or read as text is left out. *)
Definition db_secrets (decrypt : string -> option string) (plugin_id : string) (secrets_obj : list (string * value)) : list (string * string) :=
  omap (fun kv => v ← as_str kv.2; v ← decrypt v;
                  Some (default kv.1 (strip_prefix (secret_env_prefix plugin_id) kv.1), v)) secrets_obj.

(** [collect] into a map: a later entry replaces an earlier one. *)
Definition collect_map (l : list (string * string)) : gmap string string := list_to_map (reverse l).

(** [decrypt], Base64 and the keyring together, is there when the instance has an
    encryption key; [config] is the stored row when it could be read and parsed. *)
Definition load_plugin_secrets (decrypt : option (string -> option string)) (config : option value) (vars : list (string * string)) (plugin_id : string) : gmap string string :=
  let from_env := collect_map (env_secrets plugin_id vars) in
  match decrypt, (c ← config; o ← Json.get c "secrets"; as_object o) with
  | Some decrypt, Some secrets_obj =>
      match db_secrets decrypt plugin_id secrets_obj with
      | [] => from_env
      | l => collect_map l
      end
  | _, _ => from_env
  end.

(** ** The hosts an operator lists *)

(** [happyview_plugin_configs], by plugin: the text of its configuration. *)
Definition Configs : Type := gmap string string.

Fixpoint all_strings (l : list value) : option (list string) :=
  match l with
  | [] => Some []
  | v :: l => s ← as_str v; rest ← all_strings l; Some (s :: rest)
  end.

(** [o[key] = v] of a JSON object: in place, or at its end. *)
Fixpoint object_set (o : list (string * value)) (key : string) (v : value) : list (string * value) :=
  match o with
  | [] => [(key, v)]
  | (k, x) :: o => if k =s key then (k, v) :: o else (k, x) :: object_set o key v
  end.

(** [config[key] = v]: a null becomes an object, anything else that is not one
    panics. *)
Definition index_set (config : value) (key : string) (v : value) : option value :=
  match config with
  | VObject o => Some (VObject (object_set o key v))
  | VNull => Some (VObject [(key, v)])
  | _ => None
  end.

Section Settings.
Variable from_str : string -> option value.
Variable to_string : value -> string.

Definition load_allowed_hosts (up : bool) (configs : Configs) (plugin_id : string) : result (list string) string :=
  if negb up then Err "database"
  else Ok match configs !! plugin_id with
          | None => []
          | Some config_json =>
              match from_str config_json with
              | None => []
              | Some config =>
                  match Json.get config "allowed_hosts" with
                  | None => []
                  | Some v => default [] (as_array v ≫= all_strings)
                  end
              end
          end.

(** The configuration to change: the stored one, or a new object. *)
Definition stored_config (configs : Configs) (plugin_id : string) : option value :=
  match configs !! plugin_id with Some config_json => from_str config_json | None => Some (VObject []) end.

(** [up1] and [up2] are whether the database answers the read and the write;
    [None] is a panic. *)
Definition store_allowed_hosts (up1 up2 : bool) (configs : Configs) (plugin_id : string) (hosts : list string) : option (Configs * result unit string) :=
  match validate_hosts hosts with
  | Err e => Some (configs, Err e)
  | Ok _ =>
      if negb up1 then Some (configs, Err "failed to fetch plugin config")
      else
        match stored_config configs plugin_id with
        | None => Some (configs, Err "invalid plugin config JSON")
        | Some config =>
            config ← index_set config "allowed_hosts" (VArray (VString <$> hosts));
            Some (if negb up2 then (configs, Err "failed to update plugin config")
                  else (<[plugin_id := to_string config]> configs, Ok tt))
        end
  end.

End Settings.

(** [parse_plugin_urls]. *)
Definition parse_plugin_urls (env_value : string) : list (string * string * option string) :=
  omap (fun entry =>
    match str_split "|" (trim entry) with
    | id :: url :: rest => Some (id, url, match rest with s :: _ => strip_prefix "sha256:" s | [] => None end)
    | _ => None
    end) (str_split "," env_value).

(** ** Consent *)

Definition check_capability_consent (declared : list PluginCapability) (accepted : option (list string)) : result (list string) string :=
  let accepted := default [] accepted in
  let effective := remove_dups declared in
  match List.filter (fun name => negb (str_mem name accepted)) (capability_as_str <$> effective) with
  | [] => Ok (remove_dups (merge_sort (fun a b => String.leb a b) (capability_as_str <$> effective)))
  | missing => Err ("capability consent missing: " +:+ str_join ", " missing)
  end.

(** ** A running plugin *)

(** What the host functions below read of a store's state. *)
Record PluginState : Type := {
  ps_plugin_id : string;
  ps_scope : string;
  ps_secrets : gmap string string;
  ps_capabilities : list PluginCapability;
  ps_allowed_hosts : list string;
}.

(** The grants of [build_state]: the declared capabilities, and the hosts the
    operator stored or the manifest lists. *)
Definition build_state (m : Manifest) (scope : string) (secrets : gmap string string) (stored : result (list string) string) : result PluginState string :=
  let capabilities := m_capabilities m in
  let? hosts := (if bool_decide (NetworkRequestDefined ∈ capabilities) then stored
                 else Ok (if bool_decide (NetworkRequest ∈ capabilities) then m_allowed_hosts m else [])) in
  Ok {| ps_plugin_id := m_id (m_base m); ps_scope := scope; ps_secrets := secrets;
        ps_capabilities := capabilities; ps_allowed_hosts := hosts |}.

Definition lacks (st : PluginState) (req : Requirement) : string :=
  "plugin '" +:+ ps_plugin_id st +:+ "' lacks the " +:+ str_join " or " (capability_as_str <$> any_of req) +:+ " capability".

Definition require_capability (st : PluginState) (req : Requirement) : result unit string :=
  if existsb (fun c => bool_decide (c ∈ ps_capabilities st)) (any_of req) then Ok tt else Err (lacks st req).

Definition host_matches (host pattern : string) : bool :=
  match strip_prefix "*." pattern with
  | Some suffix =>
      (String.length suffix <? String.length host)%nat && ends_with suffix host
      && ends_with "." (str_take (String.length host - String.length suffix) host)
  | None => host =s pattern
  end.

Definition host_allowed (allowed_hosts : list string) (host : string) : bool :=
  existsb (fun pattern => host_matches (to_ascii_lowercase host) (to_ascii_lowercase pattern)) allowed_hosts.

Definition allowed_hosts_denial (allowed_hosts : list string) (defined : bool) (host : option string) : string :=
  if defined && match allowed_hosts with [] => true | _ => false end
  then "no hosts are configured for this plugin; an admin lists them under the plugin's settings"
  else "host " +:+ default "" host +:+ " is not in allowed_hosts".

(** ** Requests of a run *)

Definition MAX_HTTP_REQUESTS : Z := 100.
Definition MAX_HTTP_RESPONSE_SIZE : Z := 100 * 1024 * 1024.
Definition MAX_HTTP_TOTAL_TRANSFER : Z := 500 * 1024 * 1024.
Definition MAX_KV_SIZE_PER_USER : Z := 1024 * 1024.

(** The counters are a [u32] and two [u64]s. *)
Record ResourceUsage : Type := { http_requests : Z; http_bytes_transferred : Z; kv_bytes_used : Z }.

Definition no_usage : ResourceUsage := {| http_requests := 0; http_bytes_transferred := 0; kv_bytes_used := 0 |}.
Definition wrap32 (n : Z) : Z := n mod 2 ^ 32.

Definition count_request (u : ResourceUsage) : ResourceUsage :=
  {| http_requests := wrap32 (http_requests u + 1); http_bytes_transferred := http_bytes_transferred u;
     kv_bytes_used := kv_bytes_used u |}.
Definition count_bytes (u : ResourceUsage) (n : Z) : ResourceUsage :=
  {| http_requests := http_requests u; http_bytes_transferred := wrap64 (http_bytes_transferred u + n);
     kv_bytes_used := kv_bytes_used u |}.

(** Method and headers are passed on as they are and have no part in the limits. *)
Record HttpRequest : Type := { req_url : string; req_body : option (list Z) }.
Record HttpResponse : Type := { res_status : Z; res_body : list Z }.

Inductive HttpError : Type :=
| TooManyRequests (n : Z)
| ResponseTooLarge (n : Z)
| TransferLimitExceeded (n : Z)
| TimedOut
| RequestFailed.

Inductive BoundedError : Type := Over (read : Z) | BTimedOut | BFailed.

(** What the server does: the exchange outlasts its time, fails, or answers with
    an advertised length or none and chunks, one of which may fail. *)
Inductive Exchange : Type :=
| XTimesOut
| XFails
| XAnswers (content_length : option Z) (status : Z) (chunks : list (option (list Z))).

Fixpoint read_chunks (limit : Z) (body : list Z) (chunks : list (option (list Z))) : result (list Z) BoundedError :=
  match chunks with
  | [] => Ok body
  | None :: _ => Err BFailed
  | Some chunk :: chunks =>
      let n := Z.of_nat (length body) + Z.of_nat (length chunk) in
      if limit <? n then Err (Over n) else read_chunks limit (body ++ chunk) chunks
  end.

Definition send_bounded (limit : Z) (x : Exchange) : result HttpResponse BoundedError :=
  match x with
  | XTimesOut => Err BTimedOut
  | XFails => Err BFailed
  | XAnswers content_length status chunks =>
      match content_length with
      | Some len => if limit <? len then Err (Over len)
                    else let? body := read_chunks limit [] chunks in Ok {| res_status := status; res_body := body |}
      | None => let? body := read_chunks limit [] chunks in Ok {| res_status := status; res_body := body |}
      end
  end.

Definition read_limit (transferred : Z) : Z :=
  Z.min (Z.max 0 (MAX_HTTP_TOTAL_TRANSFER - transferred)) MAX_HTTP_RESPONSE_SIZE.

Definition body_len (req : HttpRequest) : Z := match req_body req with Some b => Z.of_nat (length b) | None => 0 end.

(** A request: the counters after it, whether it was sent, and its answer. *)
Definition http_request (u : ResourceUsage) (req : HttpRequest) (x : Exchange) : ResourceUsage * bool * result HttpResponse HttpError :=
  let u := count_request u in
  if MAX_HTTP_REQUESTS <? http_requests u then (u, false, Err (TooManyRequests (http_requests u)))
  else
    let u := match req_body req with Some b => count_bytes u (Z.of_nat (length b)) | None => u end in
    if MAX_HTTP_TOTAL_TRANSFER <? http_bytes_transferred u
    then (u, false, Err (TransferLimitExceeded (http_bytes_transferred u)))
    else
      let limit := read_limit (http_bytes_transferred u) in
      match send_bounded limit x with
      | Ok response => (count_bytes u (Z.of_nat (length (res_body response))), true, Ok response)
      | Err (Over read) =>
          let u := count_bytes u read in
          (u, true, Err (if limit <? MAX_HTTP_RESPONSE_SIZE then TransferLimitExceeded (http_bytes_transferred u)
                         else ResponseTooLarge read))
      | Err BTimedOut => (u, true, Err TimedOut)
      | Err BFailed => (u, true, Err RequestFailed)
      end.

Inductive HostAnswer : Type := Refused (message : string) | Answered (r : result HttpResponse HttpError).

Definition HTTP_REQUIREMENT : Requirement :=
  {| import := "host_http_request"; any_of := [NetworkRequest; NetworkRequestDefined; NetworkRequestUnrestricted] |}.

Section Host.
Variable url_host : string -> option string.

Definition host_http_request (st : PluginState) (u : ResourceUsage) (req : HttpRequest) (x : Exchange) : ResourceUsage * bool * HostAnswer :=
  match require_capability st (default HTTP_REQUIREMENT (requirement_for_import "host_http_request")) with
  | Err e => (u, false, Refused e)
  | Ok _ =>
      let unrestricted := bool_decide (NetworkRequestUnrestricted ∈ ps_capabilities st) in
      let host := url_host (req_url req) in
      if negb unrestricted && negb (match host with Some h => host_allowed (ps_allowed_hosts st) h | None => false end)
      then (u, false, Refused (allowed_hosts_denial (ps_allowed_hosts st)
                                 (bool_decide (NetworkRequestDefined ∈ ps_capabilities st)) host))
      else let '(u, sent, r) := http_request u req x in (u, sent, Answered r)
  end.

(** The requests of one run, in order, from fresh counters: what each did. *)
Fixpoint run_requests (st : PluginState) (u : ResourceUsage) (calls : list (HttpRequest * Exchange)) : list (HttpRequest * bool * HostAnswer) :=
  match calls with
  | [] => []
  | (req, x) :: calls =>
      let '(u, sent, a) := host_http_request st u req x in
      (req, sent, a) :: run_requests st u calls
  end.

End Host.

(** ** Key-value storage *)

(** [happyview_plugin_kv], by plugin, scope and key: the value and when it
    expires. *)
Definition Kv : Type := gmap (string * string * string) (list Z * option string).

Inductive KvError : Type := QuotaExceeded (n : Z) | Database.

Definition count_kv (u : ResourceUsage) (n : Z) : ResourceUsage :=
  {| http_requests := http_requests u; http_bytes_transferred := http_bytes_transferred u;
     kv_bytes_used := wrap64 (kv_bytes_used u + n) |}.

(** [up] is whether the database answers the statement. *)
Definition kv_get (up : bool) (kv : Kv) (st : PluginState) (key now : string) : result (option (list Z)) KvError :=
  if negb up then Err Database
  else Ok match kv !! (ps_plugin_id st, ps_scope st, key) with
          | Some (v, None) => Some v
          | Some (v, Some expires_at) => if String.ltb now expires_at then Some v else None
          | None => None
          end.

(** [later n] is the clock's text [n] seconds on. *)
Definition kv_set (up : bool) (later : Z -> string) (kv : Kv) (st : PluginState) (u : ResourceUsage) (key : string) (value : list Z) (ttl_secs : option Z) : Kv * ResourceUsage * result unit KvError :=
  let u := count_kv u (Z.of_nat (length value)) in
  if MAX_KV_SIZE_PER_USER <? kv_bytes_used u then (kv, u, Err (QuotaExceeded (kv_bytes_used u)))
  else if negb up then (kv, u, Err Database)
  else (<[(ps_plugin_id st, ps_scope st, key) := (value, later <$> ttl_secs)]> kv, u, Ok tt).

Definition kv_delete (up : bool) (kv : Kv) (st : PluginState) (key : string) : Kv * result unit KvError :=
  if negb up then (kv, Err Database) else (delete (ps_plugin_id st, ps_scope st, key) kv, Ok tt).

(** ** The tables *)

Lemma capability_parse c s : capability_parse_str s = Some c <-> s = capability_as_str c.
Proof.
  split.
  - unfold capability_parse_str. intros [_ E]%find_some. symmetry. by apply String.eqb_eq.
  - intros ->. by destruct c.
Qed.

(** A requirement is found under its own name, and none of them is empty. *)
Lemma requirement_named name r : requirement_for_import name = Some r -> import r = name /\ any_of r <> [].
Proof.
  intros [Hin E%String.eqb_eq]%find_some. split; [done|].
  assert (forallb (fun r => match any_of r with [] => false | _ => true end) IMPORT_REQUIREMENTS = true) as H by done.
  rewrite forallb_forall in H. specialize (H r Hin). by destruct (any_of r).
Qed.

(** ** Loading *)

(** The names of a module, when all of it can be parsed. *)
Fixpoint module_groups (l : list (result Imports string)) : option (list (string * string)) :=
  match l with
  | [] => Some []
  | Err _ :: _ => None
  | Ok g :: l => match import_names g, module_groups l with Ok a, Some b => Some (a ++ b) | _, _ => None end
  end.

Fixpoint module_names (l : list (result Payload string)) : option (list (string * string)) :=
  match l with
  | [] => Some []
  | Err _ :: _ => None
  | Ok OtherPayload :: l => module_names l
  | Ok (ImportSection gs) :: l => match module_groups gs, module_names l with Some a, Some b => Some (a ++ b) | _, _ => None end
  end.

(** What is found of a list of names: a refusal of one of them, or the
    requirements of those that need something. *)
Definition found (names : list (string * string)) (out out' : list Requirement) : Prop :=
  (forall i, i ∈ names -> is_ok (import_requirement i) = true)
  /\ forall r, r ∈ out' <-> r ∈ out \/ exists i, i ∈ names /\ import_requirement i = Ok (Some r).

Lemma found_app a b out out1 out2 : found a out out1 -> found b out1 out2 -> found (a ++ b) out out2.
Proof.
  intros [H1 H2] [H3 H4]. split; [intros i [Hi|Hi]%elem_of_app; auto|].
  intros r. rewrite H4, H2. setoid_rewrite elem_of_app. naive_solver.
Qed.

Lemma analyze_names_spec names : forall out,
  match analyze_names names out with
  | Ok out' => found names out out'
  | Err _ => exists i, i ∈ names /\ is_ok (import_requirement i) = false
  end.
Proof.
  induction names as [|i names IH]; intros out; simpl.
  - split; [by intros i ?%not_elem_of_nil|]. intros r. split; [by left|]. intros [|(i & ?%not_elem_of_nil & _)]; done.
  - destruct (import_requirement i) as [req|e] eqn:Ei; [|exists i; split; [left|by rewrite Ei]].
    specialize (IH (match req with Some r => if bool_decide (r ∈ out) then out else out ++ [r] | None => out end)).
    destruct (analyze_names names _) as [out'|e]; [|destruct IH as (j & ? & ?); exists j; split; [by right|done]].
    refine (found_app [i] names _ _ _ _ IH). split; [intros j ->%list_elem_of_singleton; by rewrite Ei|].
    intros r.
    assert ((exists j, j ∈ [i] /\ import_requirement j = Ok (Some r)) <-> req = Some r) as ->.
    { split; [intros (j & ->%list_elem_of_singleton & E); congruence|intros ->; exists i; split; [left|done]]. }
    destruct req as [q|]; [|split; [by left|by intros [|]]].
    case_bool_decide as Hq; [|rewrite elem_of_app, list_elem_of_singleton].
    + split; [by left|]. intros [|[= <-]]; done.
    + split; (intros [|E]; [by left|right; congruence]).
Qed.

Lemma analyze_groups_spec gs : forall out,
  match analyze_groups gs out with
  | Ok out' => exists names, module_groups gs = Some names /\ found names out out'
  | Err _ => match module_groups gs with
             | Some names => exists i, i ∈ names /\ is_ok (import_requirement i) = false
             | None => True
             end
  end.
Proof.
  induction gs as [|[g|e] gs IH]; intros out; simpl; [|  |done].
  - exists []. split; [done|]. exact (analyze_names_spec [] out).
  - destruct (import_names g) as [a|e]; [|done]. pose proof (analyze_names_spec a out) as Ha.
    destruct (analyze_names a out) as [out1|e1].
    + specialize (IH out1). destruct (analyze_groups gs out1) as [out2|e2].
      * destruct IH as (b & -> & Hb). eexists. split; [done|]. by eapply found_app.
      * destruct (module_groups gs) as [b|]; [|done]. destruct IH as (i & ? & ?). exists i. split; [set_solver|done].
    + destruct (module_groups gs) as [b|]; [|done]. destruct Ha as (i & ? & ?). exists i. split; [set_solver|done].
Qed.

Lemma analyze_imports_spec payloads :
  match analyze_imports payloads with
  | Ok out => exists names, module_names payloads = Some names /\ found names [] out
  | Err _ => match module_names payloads with
             | Some names => exists i, i ∈ names /\ is_ok (import_requirement i) = false
             | None => True
             end
  end.
Proof.
  unfold analyze_imports. generalize (@nil Requirement) as out. induction payloads as [|[[gs|]|e] payloads IH]; intros out; simpl.
  - exists []. split; [done|]. exact (analyze_names_spec [] out).
  - pose proof (analyze_groups_spec gs out) as Hg. destruct (analyze_groups gs out) as [out1|e1].
    + destruct Hg as (a & -> & Ha). specialize (IH out1). destruct (analyze_payloads payloads out1) as [out2|e2].
      * destruct IH as (b & -> & Hb). eexists. split; [done|]. by eapply found_app.
      * destruct (module_names payloads) as [b|]; [|done]. destruct IH as (i & ? & ?). exists i. split; [set_solver|done].
    + destruct (module_groups gs) as [a|]; [|done]. destruct (module_names payloads) as [b|]; [|done].
      destruct Hg as (i & ? & ?). exists i. split; [set_solver|done].
  - apply IH.
  - done.
Qed.

(** What a plugin that declares [declared] may import. *)
Definition may_import (declared : list PluginCapability) (i : string * string) : Prop :=
  let '(module, name) := i in
  module = "env" /\ (name ∈ FREE_IMPORTS \/ exists r c, requirement_for_import name = Some r /\ c ∈ any_of r /\ c ∈ declared)
  \/ module = WASI_MODULE
     /\ (name ∈ WASI_FREE_IMPORTS \/ exists r c, requirement_for_wasi_import name = Some r /\ c ∈ any_of r /\ c ∈ declared).

Lemma covered_true declared r : covered declared r = true <-> exists c, c ∈ any_of r /\ c ∈ declared.
Proof. unfold covered. rewrite existsb_elem. by setoid_rewrite bool_decide_eq_true. Qed.

Lemma may_import_spec declared i :
  may_import declared i <-> exists req, import_requirement i = Ok req /\ match req with Some r => covered declared r = true | None => True end.
Proof.
  destruct i as [module name]. unfold may_import, import_requirement, is_free_import, is_free_wasi_import.
  destruct (String.eqb_spec module "env") as [->|He].
  - rewrite <- (str_mem_true name FREE_IMPORTS). destruct (str_mem name FREE_IMPORTS).
    { split; [intros _; by exists None|]. intros _. left. split; [done|by left]. }
    destruct (requirement_for_import name) as [r|].
    + split.
      * intros [[_ [|(q & c & [= <-] & ? & ?)]]|[? _]]; [done| |done]. eexists. split; [done|]. apply covered_true. by exists c.
      * intros (req & [= <-] & (c & ? & ?)%covered_true). left. split; [done|]. right. by exists r, c.
    + split; [intros [[_ [|(q & c & ? & _)]]|[? _]]; done|intros (req & ? & _); done].
  - destruct (String.eqb_spec module WASI_MODULE) as [->|Hw].
    + rewrite <- (str_mem_true name WASI_FREE_IMPORTS). destruct (str_mem name WASI_FREE_IMPORTS).
      { split; [intros _; by exists None|]. intros _. right. split; [done|by left]. }
      destruct (requirement_for_wasi_import name) as [r|].
      * split.
        -- intros [[? _]|[_ [|(q & c & [= <-] & ? & ?)]]]; [done|done|]. eexists. split; [done|]. apply covered_true. by exists c.
        -- intros (req & [= <-] & (c & ? & ?)%covered_true). right. split; [done|]. right. by exists r, c.
      * split; [intros [[? _]|[_ [|(q & c & ? & _)]]]; done|intros (req & ? & _); done].
    + split; [intros [[? _]|[? _]]; done|intros (req & ? & _); done].
Qed.

Lemma check_declared_ok declared reqs :
  is_ok (check_declared declared reqs) = true <-> forall r, r ∈ reqs -> covered declared r = true.
Proof.
  unfold check_declared. destruct (List.filter _ reqs) as [|r l] eqn:E.
  - split; [|done]. intros _ r Hr. destruct (covered declared r) eqn:Ec; [done|].
    assert (r ∈ List.filter (fun r => negb (covered declared r)) reqs) as H.
    { rewrite !list_elem_of_In in *. apply filter_In. by rewrite Ec. }
    rewrite E in H. by apply not_elem_of_nil in H.
  - split; [done|]. intros H. assert (r ∈ List.filter (fun r => negb (covered declared r)) reqs) as Hr by (rewrite E; left).
    rewrite list_elem_of_In in Hr. apply filter_In in Hr as [Hr%list_elem_of_In Hn]. by rewrite (H r Hr) in Hn.
Qed.

Section LoadingFacts.
Context `{Semver}.

(** The check of a module against its manifest, exactly. *)
Lemma validate_capabilities_ok m disabled payloads :
  validate_capabilities m disabled payloads = Ok tt <->
  disabled = None /\ exists names, module_names payloads = Some names /\ forall i, i ∈ names -> may_import (m_capabilities m) i.
Proof.
  unfold validate_capabilities. destruct disabled as [p|]; [split; [done|by intros [? _]]|].
  pose proof (analyze_imports_spec payloads) as Hspec. destruct (analyze_imports payloads) as [reqs|e].
  - destruct Hspec as (names & -> & Hok & Hreqs).
    assert (Hc : is_ok (check_declared (m_capabilities m) reqs) = true <-> forall i, i ∈ names -> may_import (m_capabilities m) i).
    { rewrite check_declared_ok. setoid_rewrite may_import_spec. split.
      - intros Hr i Hi. specialize (Hok i Hi). destruct (import_requirement i) as [req|] eqn:Ei; [|done]. exists req. split; [done|].
        destruct req as [r|]; [|done]. apply Hr, Hreqs. right. by exists i.
      - intros Hm r Hr. apply Hreqs in Hr as [?%not_elem_of_nil|(i & Hi & Ei)]; [done|].
        destruct (Hm i Hi) as (req & Ereq & Hcov). rewrite Ei in Ereq. injection Ereq as <-. done. }
    destruct (check_declared (m_capabilities m) reqs) as [[]|missing]; simpl in Hc.
    + split; [|done]. intros _. split; [done|]. exists names. split; [done|]. by apply Hc.
    + split; [done|]. intros (_ & names' & [= <-] & Hm). by apply Hc in Hm.
  - split; [done|]. intros (_ & names & Hn & Hm). rewrite Hn in Hspec. destruct Hspec as (i & Hi & Hbad).
    destruct (proj1 (may_import_spec _ _) (Hm i Hi)) as (req & E & _). by rewrite E in Hbad.
Qed.

End LoadingFacts.

Lemma consent_ok declared accepted names :
  check_capability_consent declared accepted = Ok names ->
  (forall c, c ∈ declared -> capability_as_str c ∈ default [] accepted)
  /\ forall n, n ∈ names <-> exists c, c ∈ declared /\ n = capability_as_str c.
Proof.
  unfold check_capability_consent. destruct (List.filter _ _) as [|x l] eqn:E; [|done]. intros [= <-]. split.
  - intros c Hc. apply str_mem_true. destruct (str_mem (capability_as_str c) (default [] accepted)) eqn:Em; [done|].
    assert (capability_as_str c ∈ List.filter (fun name => negb (str_mem name (default [] accepted)))
      (capability_as_str <$> remove_dups declared)) as Hin.
    { rewrite list_elem_of_In. apply filter_In. rewrite Em. split; [|done]. apply list_elem_of_In.
      apply list_elem_of_fmap_2. by apply elem_of_remove_dups. }
    rewrite E in Hin. by apply not_elem_of_nil in Hin.
  - intros n. rewrite elem_of_remove_dups, merge_sort_Permutation, list_elem_of_fmap.
    setoid_rewrite elem_of_remove_dups. naive_solver.
Qed.

(** ** Hosts *)

(** A pattern reaches a host when it is the host, or the host lies below it. *)
Definition reaches (pattern host : string) : Prop :=
  match strip_prefix "*." pattern with
  | Some suffix => exists labels, labels <> [] /\ str_split "." host = labels ++ str_split "." suffix
  | None => host = pattern
  end.

Lemma str_take_append a b : str_take (String.length (a +:+ b) - String.length b) (a +:+ b) = a.
Proof. rewrite length_append. replace (_ + _ - _)%nat with (String.length a) by lia. apply str_take_app. Qed.

Lemma host_matches_spec host pattern : host_matches host pattern = true <-> reaches pattern host.
Proof.
  unfold host_matches, reaches. destruct (strip_prefix "*." pattern) as [suffix|]; [|apply String.eqb_eq].
  rewrite !andb_true_iff, Nat.ltb_lt. split.
  - intros [[Hlen (r & ->)%ends_with_true] Hdot]. rewrite str_take_append in Hdot.
    apply ends_with_true in Hdot as (p & ->). exists (str_split "." p). split; [apply str_split_nonempty|].
    rewrite append_assoc. apply str_split_app.
  - intros (labels & Hl & E).
    assert (host = str_join (sep1 ".") labels +:+ String "." suffix) as ->.
    { rewrite <- (str_join_split "." host), E.
      rewrite str_join_app by (done || apply str_split_nonempty). rewrite str_join_split. done. }
    set (p := str_join _ _). split; [split|].
    + rewrite length_append. simpl. lia.
    + apply ends_with_true. exists (p +:+ "."). by rewrite append_assoc.
    + change (String "." suffix) with ("." +:+ suffix). rewrite <- append_assoc, str_take_append.
      apply ends_with_true. by exists p.
Qed.

(** [host_allowed] compares labels from the right, whatever the case: a pattern
    allows its own host, and one that starts with [*.] every host strictly below. *)
Lemma host_allowed_spec hosts host :
  host_allowed hosts host = true <->
  exists pattern, pattern ∈ hosts /\ reaches (to_ascii_lowercase pattern) (to_ascii_lowercase host).
Proof. unfold host_allowed. rewrite existsb_elem. by setoid_rewrite host_matches_spec. Qed.

(** (C12) A plugin does what its manifest declares and the operator accepted.  Once
    the loader has accepted a module and the operator consented, everything the
    module imports is free, or a host function whose gate the running plugin
    passes, or a function of WASI - which has no gate when it runs - that needs a
    capability its manifest declares and the operator accepted; and whatever host
    function the gate lets it use, imported or not, needs a capability whose name
    the operator accepted. *)
Theorem loaded_plugin_confined `{Semver} (m : Manifest) (disabled : option string) (payloads : list (result Payload string))
    (scope : string) (secrets : gmap string string) (stored : result (list string) string) (accepted : option (list string)) (names : list string) (st : PluginState) :
  validate_capabilities m disabled payloads = Ok tt ->
  check_capability_consent (m_capabilities m) accepted = Ok names ->
  build_state m scope secrets stored = Ok st ->
  let consented r := exists c, c ∈ any_of r /\ c ∈ m_capabilities m /\ capability_as_str c ∈ default [] accepted in
  (exists imports, module_names payloads = Some imports
    /\ forall module name, (module, name) ∈ imports ->
         module = "env" /\ (name ∈ FREE_IMPORTS
            \/ exists r, requirement_for_import name = Some r /\ require_capability st r = Ok tt /\ consented r)
         \/ module = WASI_MODULE
            /\ (name ∈ WASI_FREE_IMPORTS \/ exists r, requirement_for_wasi_import name = Some r /\ consented r))
  /\ forall name r, requirement_for_import name = Some r -> require_capability st r = Ok tt -> consented r.
Proof.
  intros Hv Hc Hb consented. apply validate_capabilities_ok in Hv as (_ & imports & Hn & Hm). apply consent_ok in Hc as [Hacc _].
  assert (ps_capabilities st = m_capabilities m) as Hst.
  { unfold build_state in Hb. destruct (if bool_decide _ then stored else _) as [hosts|]; [|done]. by injection Hb as <-. }
  assert (Hreq : forall r, require_capability st r = Ok tt <-> exists c, c ∈ any_of r /\ c ∈ m_capabilities m).
  { intros r. unfold require_capability. rewrite Hst. rewrite <- (covered_true (m_capabilities m) r). unfold covered.
    by destruct (existsb _ _). }
  assert (Hcon : forall r c, c ∈ any_of r -> c ∈ m_capabilities m -> consented r) by (intros r c ? ?; exists c; auto).
  split.
  - exists imports. split; [done|]. intros module name Hi. specialize (Hm _ Hi). simpl in Hm.
    destruct Hm as [[? [?|(r & c & ? & ? & ?)]]|[? [?|(r & c & ? & ? & ?)]]]; [left|left|right|right]; (split; [done|]);
      [by left| |by left|]; right; exists r; (split; [done|]); [split; [apply Hreq; by exists c|]|]; by eapply Hcon.
  - intros name r _ (c & Hc1 & Hc2)%Hreq. by eapply Hcon.
Qed.

(** ** The budget of a run *)

(** An exchange with no advertised length or chunk past half the address space. *)
Definition fair (x : Exchange) : Prop :=
  match x with
  | XAnswers len _ chunks =>
      match len with Some n => 0 <= n < 2 ^ 63 | None => True end
      /\ Forall (fun c => match c with Some b => Z.of_nat (length b) < 2 ^ 62 | None => True end) chunks
  | _ => True
  end.

Lemma read_chunks_spec limit chunks : forall body,
  Z.of_nat (length body) <= limit -> Forall (fun c => match c with Some b => Z.of_nat (length b) < 2 ^ 62 | None => True end) chunks ->
  match read_chunks limit body chunks with
  | Ok b => Z.of_nat (length b) <= limit
  | Err (Over n) => limit < n < limit + 2 ^ 62
  | Err _ => True
  end.
Proof.
  induction chunks as [|[c|] chunks IH]; intros body Hb Hc; [done| |done]. simpl.
  apply Forall_cons in Hc as [Hc Hcs]. destruct (Z.ltb_spec limit (Z.of_nat (length body) + Z.of_nat (length c))) as [Hl|Hl]; [lia|].
  apply IH; [rewrite length_app; lia|done].
Qed.

Lemma send_bounded_spec limit x :
  0 <= limit -> fair x ->
  match send_bounded limit x with
  | Ok r => Z.of_nat (length (res_body r)) <= limit
  | Err (Over n) => limit < n < limit + 2 ^ 63
  | Err _ => True
  end.
Proof.
  intros Hl. destruct x as [| |len status chunks]; [done|done|]. intros [Hlen Hc].
  pose proof (read_chunks_spec limit chunks [] Hl Hc) as Hr. cbn [send_bounded].
  destruct len as [n|]; [destruct (Z.ltb_spec limit n); [lia|]|];
    destruct (read_chunks limit [] chunks) as [b|[n'| |]]; simpl; auto; lia.
Qed.

(** The most the byte counter reaches after [q] requests. *)
Definition most (q : Z) : Z := MAX_HTTP_TOTAL_TRANSFER + 2 ^ 63 + Z.min q 101 * 2 ^ 32.

(** What an answer delivers. *)
Definition delivered (a : HostAnswer) : Z :=
  match a with Answered (Ok r) => Z.of_nat (length (res_body r)) | _ => 0 end.

Lemma http_request_step u req x u' sent r :
  http_request u req x = (u', sent, r) -> body_len req < 2 ^ 32 -> fair x ->
  0 <= http_requests u < 2 ^ 32 - 1 -> 0 <= http_bytes_transferred u <= most (http_requests u) ->
  http_requests u' = http_requests u + 1
  /\ http_bytes_transferred u <= http_bytes_transferred u' <= most (http_requests u')
  /\ (sent = true -> http_requests u' <= MAX_HTTP_REQUESTS)
  /\ (sent = false -> delivered (Answered r) = 0)
  /\ (sent = true -> http_bytes_transferred u + body_len req + delivered (Answered r)
        <= Z.min (http_bytes_transferred u') MAX_HTTP_TOTAL_TRANSFER)
  /\ delivered (Answered r) <= MAX_HTTP_RESPONSE_SIZE.
Proof.
  intros E Hb Hx Hq Ht. set (q := http_requests u) in *. set (t := http_bytes_transferred u) in *.
  assert (0 <= body_len req) by (unfold body_len; destruct (req_body req); lia).
  assert (Hmost : forall n, 0 <= n -> most n < 2 ^ 64 /\ most n <= most (n + 1) /\ (n <= 100 -> most (n + 1) = most n + 2 ^ 32)
      /\ MAX_HTTP_TOTAL_TRANSFER + 2 ^ 63 <= most n).
  { intros n Hn. unfold most, MAX_HTTP_TOTAL_TRANSFER. lia. }
  destruct (Hmost q ltac:(lia)) as (Hq1 & Hq2 & Hq3 & Hq4). destruct (Hmost (q + 1) ltac:(lia)) as (Hp1 & _ & _ & _).
  unfold http_request in E. cbv zeta in E.
  assert (E1 : http_requests (count_request u) = q + 1) by (simpl; unfold wrap32; fold q; rewrite Z.mod_small; lia).
  rewrite E1 in E. destruct (Z.ltb_spec MAX_HTTP_REQUESTS (q + 1)) as [Hm|Hm].
  { injection E as <- <- <-. rewrite E1. change (http_bytes_transferred (count_request u)) with t. simpl delivered.
    unfold MAX_HTTP_RESPONSE_SIZE. split_and!; done || lia. }
  set (u1 := match req_body req with Some b => _ | None => _ end) in E.
  assert (http_requests u1 = q + 1 /\ http_bytes_transferred u1 = t + body_len req) as [Eq Et].
  { unfold u1, body_len in *. unfold MAX_HTTP_REQUESTS in Hm. destruct (req_body req) as [b|].
    - split; [done|]. cbn [count_bytes http_bytes_transferred count_request]. fold t. unfold wrap64, U64. rewrite Z.mod_small; [done|]. lia.
    - split; [done|]. change (http_bytes_transferred (count_request u)) with t. lia. }
  rewrite Et in E. unfold MAX_HTTP_REQUESTS in Hm.
  destruct (Z.ltb_spec MAX_HTTP_TOTAL_TRANSFER (t + body_len req)) as [Hover|Hin].
  { injection E as <- <- <-. rewrite Eq, Et. simpl delivered. unfold MAX_HTTP_RESPONSE_SIZE. split_and!; done || lia. }
  set (limit := read_limit (t + body_len req)) in E.
  assert (0 <= limit <= MAX_HTTP_RESPONSE_SIZE /\ limit <= MAX_HTTP_TOTAL_TRANSFER - (t + body_len req)) as [Hl1 Hl2].
  { unfold limit, read_limit, MAX_HTTP_RESPONSE_SIZE. lia. }
  assert (Hadd : forall n, 0 <= n < limit + 2 ^ 63 -> http_bytes_transferred (count_bytes u1 n) = t + body_len req + n).
  { intros n Hn. cbn [count_bytes http_bytes_transferred]. rewrite Et. unfold wrap64, U64. rewrite Z.mod_small; [done|].
    unfold MAX_HTTP_TOTAL_TRANSFER in *. lia. }
  pose proof (send_bounded_spec limit x ltac:(lia) Hx) as Hs.
  destruct (send_bounded limit x) as [res|[n| |]]; cbv zeta in E; injection E as <- <- <-; cbn [delivered count_bytes http_requests];
    rewrite ?Hadd by lia; rewrite ?Eq, ?Et; split_and!; try done; intros; unfold MAX_HTTP_RESPONSE_SIZE, MAX_HTTP_REQUESTS in *; lia.
Qed.

(** Without any assumption on servers. *)
Lemma read_chunks_within limit chunks : forall body,
  Z.of_nat (length body) <= limit -> match read_chunks limit body chunks with Ok b => Z.of_nat (length b) <= limit | Err _ => True end.
Proof.
  induction chunks as [|[c|] chunks IH]; intros body Hb; [done| |done]. simpl.
  destruct (Z.ltb_spec limit (Z.of_nat (length body) + Z.of_nat (length c))) as [Hl|Hl]; [done|]. apply IH. rewrite length_app. lia.
Qed.

Lemma send_bounded_within limit x :
  0 <= limit -> match send_bounded limit x with Ok r => Z.of_nat (length (res_body r)) <= limit | Err _ => True end.
Proof.
  intros Hl. destruct x as [| |len status chunks]; [done|done|]. pose proof (read_chunks_within limit chunks [] Hl) as Hr. cbn [send_bounded].
  destruct len as [n|]; [destruct (limit <? n); [done|]|]; by destruct (read_chunks limit [] chunks).
Qed.

Lemma http_request_any u req x u' sent r :
  http_request u req x = (u', sent, r) ->
  http_requests u' = wrap32 (http_requests u + 1) /\ (sent = true -> http_requests u' <= MAX_HTTP_REQUESTS)
  /\ delivered (Answered r) <= MAX_HTTP_RESPONSE_SIZE.
Proof.
  unfold http_request. cbv zeta. intros E. assert (0 <= MAX_HTTP_RESPONSE_SIZE) by (unfold MAX_HTTP_RESPONSE_SIZE; lia).
  change (http_requests (count_request u)) with (wrap32 (http_requests u + 1)) in E.
  destruct (Z.ltb_spec MAX_HTTP_REQUESTS (wrap32 (http_requests u + 1))) as [Hm|Hm]; [by injection E as <- <- <-|].
  set (u1 := match req_body req with Some b => _ | None => _ end) in E.
  assert (http_requests u1 = wrap32 (http_requests u + 1)) as Eq by (unfold u1; by destruct (req_body req)).
  destruct (MAX_HTTP_TOTAL_TRANSFER <? http_bytes_transferred u1); [by injection E as <- <- <-|].
  pose proof (send_bounded_within (read_limit (http_bytes_transferred u1)) x ltac:(unfold read_limit, MAX_HTTP_RESPONSE_SIZE in *; lia)) as Hs.
  destruct (send_bounded _ x) as [res|[n| |]]; injection E as <- <- <-; cbn [http_requests count_bytes]; rewrite Eq; split_and!; try done.
  simpl. unfold read_limit in Hs. lia.
Qed.

Section Budget.
Variable url_host : string -> option string.
#[local] Abbreviation run_requests := (run_requests url_host).

Definition sent_count (l : list (HttpRequest * bool * HostAnswer)) : Z :=
  Z.of_nat (length (List.filter (fun c : HttpRequest * bool * HostAnswer => c.1.2) l)).

(** The bytes sent and delivered. *)
Definition moved (l : list (HttpRequest * bool * HostAnswer)) : Z :=
  foldr (fun (c : HttpRequest * bool * HostAnswer) n => (if c.1.2 then body_len c.1.1 else 0) + delivered c.2 + n) 0 l.

Definition tame (calls : list (HttpRequest * Exchange)) : Prop :=
  Forall (fun c : HttpRequest * Exchange => body_len c.1 < 2 ^ 32 /\ fair c.2) calls.

(** Whether the gates of the host let a request through, and what it does then. *)
Lemma host_http_request_cases st u req x :
  host_http_request url_host st u req x = (let '(u', sent, r) := http_request u req x in (u', sent, Answered r))
    /\ (NetworkRequestUnrestricted ∈ ps_capabilities st
        \/ exists h, url_host (req_url req) = Some h /\ host_allowed (ps_allowed_hosts st) h = true)
  \/ exists e, host_http_request url_host st u req x = (u, false, Refused e).
Proof.
  unfold host_http_request. destruct (require_capability _ _); [|right; by eexists]. cbv zeta.
  case_bool_decide as Hu; simpl; [left; split; [done|by left]|].
  destruct (url_host (req_url req)) as [h|] eqn:Eh; [|right; by eexists].
  destruct (host_allowed (ps_allowed_hosts st) h) eqn:Ea; simpl; [|right; by eexists].
  left. split; [done|]. right. by exists h.
Qed.

Lemma run_budget st calls : forall u,
  tame calls -> 0 <= http_requests u -> http_requests u + Z.of_nat (length calls) < 2 ^ 32 ->
  0 <= http_bytes_transferred u <= most (http_requests u) ->
  sent_count (run_requests st u calls) <= Z.max 0 (MAX_HTTP_REQUESTS - http_requests u)
  /\ moved (run_requests st u calls) <= Z.max 0 (MAX_HTTP_TOTAL_TRANSFER - http_bytes_transferred u).
Proof.
  induction calls as [|[req x] calls IH]; intros u Hc Hq Hlen Ht; [split; simpl; unfold sent_count; simpl; lia|].
  apply Forall_cons in Hc as [[Hb Hx] Hc]. simpl in Hb, Hx. cbn [length] in Hlen. cbn [PluginSandbox.run_requests].
  destruct (host_http_request_cases st u req x) as [[-> _]|[e ->]].
  - destruct (http_request u req x) as [[u' sent] r] eqn:E.
    destruct (http_request_step u req x u' sent r E Hb Hx ltac:(lia) Ht) as (E1 & Ht' & Hs1 & Hs2 & Hs3 & _).
    destruct (IH u' Hc ltac:(lia) ltac:(lia) ltac:(lia)) as [IH1 IH2]. unfold sent_count, moved in *. simpl in *.
    destruct sent; simpl.
    + specialize (Hs1 eq_refl). specialize (Hs3 eq_refl). unfold MAX_HTTP_REQUESTS in *. lia.
    + specialize (Hs2 eq_refl). lia.
  - destruct (IH u Hc ltac:(lia) ltac:(lia) Ht) as [IH1 IH2]. unfold sent_count, moved in *. simpl in *. lia.
Qed.

Lemma run_each st calls : forall u c,
  c ∈ run_requests st u calls ->
  delivered c.2 <= MAX_HTTP_RESPONSE_SIZE
  /\ (c.1.2 = true -> NetworkRequestUnrestricted ∈ ps_capabilities st
        \/ exists h, url_host (req_url c.1.1) = Some h /\ host_allowed (ps_allowed_hosts st) h = true).
Proof.
  induction calls as [|[req x] calls IH]; intros u c Hin; [by apply not_elem_of_nil in Hin|].
  cbn [PluginSandbox.run_requests] in Hin.
  destruct (host_http_request_cases st u req x) as [[E Hg]|[e E]]; rewrite E in Hin.
  - destruct (http_request u req x) as [[u' sent] r] eqn:E'. destruct (http_request_any u req x u' sent r E') as (_ & _ & Hd).
    apply elem_of_cons in Hin as [->|Hin]; [done|]. by apply (IH u').
  - apply elem_of_cons in Hin as [->|Hin]; [done|]. by apply (IH u).
Qed.

Lemma run_count st calls : forall u,
  0 <= http_requests u -> http_requests u + Z.of_nat (length calls) < 2 ^ 32 ->
  sent_count (run_requests st u calls) <= Z.max 0 (MAX_HTTP_REQUESTS - http_requests u).
Proof.
  induction calls as [|[req x] calls IH]; intros u Hq Hlen; [simpl; unfold sent_count; simpl; lia|].
  cbn [length] in Hlen. cbn [PluginSandbox.run_requests]. destruct (host_http_request_cases st u req x) as [[-> _]|[e ->]].
  - destruct (http_request u req x) as [[u' sent] r] eqn:E. destruct (http_request_any u req x u' sent r E) as (E1 & Hs & _).
    unfold wrap32 in E1. rewrite Z.mod_small in E1 by lia. specialize (IH u' ltac:(lia) ltac:(lia)). unfold sent_count in *.
    cbn [List.filter fst snd]. destruct sent; cbn [length]; [specialize (Hs eq_refl)|]; lia.
  - specialize (IH u ltac:(lia) ltac:(lia)). exact IH.
Qed.


End Budget.

(** The least set a report proposes would be accepted. *)
Lemma minimal_go_spec reqs : forall out,
  (forall c, c ∈ out -> c ∈ minimal_go reqs out)
  /\ forall r, r ∈ reqs -> any_of r <> [] -> covered (minimal_go reqs out) r = true.
Proof.
  induction reqs as [|q reqs IH]; intros out; simpl; [split; [done|]; by intros r ?%not_elem_of_nil|].
  set (out' := match any_of q with [] => out | first :: _ => if bool_decide (first ∈ out) then out else out ++ [first] end).
  assert (Hsub : forall c, c ∈ out -> c ∈ out').
  { intros c Hc. unfold out'. destruct (any_of q); [done|]. case_bool_decide; set_solver. }
  destruct (IH out') as [IH1 IH2]. split; [auto|]. intros r [->|Hr]%elem_of_cons Hne; [|by apply IH2].
  apply covered_true. destruct (any_of q) as [|c l] eqn:E; [done|]. exists c. split; [left|]. apply IH1.
  unfold out'. case_bool_decide; set_solver.
Qed.

Lemma minimal_set_covers reqs :
  Forall (fun r => any_of r <> []) reqs -> is_ok (check_declared (minimal_set reqs) reqs) = true.
Proof.
  intros Hne. apply check_declared_ok. intros r Hr. rewrite Forall_forall in Hne.
  apply (proj2 (minimal_go_spec reqs [])); auto.
Qed.

(** ** Examples and behaviours *)

Section Examples.
Existing Instance exact_semver.

Definition steam : Manifest :=
  {| m_base := {| m_id := "steam"; m_plugin_type := Auth; m_dependencies := []; m_namespace := None; m_language_id := None;
                  m_file_extension := None; m_extensions := []; m_supports_libraries := ["*"] |};
     m_api_version := "2"; m_capabilities := [NetworkRequest; KvRead]; m_allowed_hosts := ["*.steampowered.com"];
     m_required_secrets := ["PLUGIN_STEAM_API_KEY"] |}.

Definition steam_state : PluginState :=
  {| ps_plugin_id := "steam"; ps_scope := "did:plc:a"; ps_secrets := {["API_KEY" := "k"]}; ps_capabilities := [NetworkRequest; KvRead]; ps_allowed_hosts := ["*.steampowered.com"] |}.

Definition steam_module : list (result Payload string) :=
  [Ok OtherPayload; Ok (ImportSection [Ok (Single "env" "host_http_request"); Ok (Compact1 "env" [Ok "host_kv_get"; Ok "host_log"])])].

Lemma loaded_plugin_confined_witness :
  validate_manifest steam = Ok tt
  /\ exists c, c ∈ any_of HTTP_REQUIREMENT /\ c ∈ m_capabilities steam /\ capability_as_str c ∈ default [] (Some ["kv:read"; "network:request"]).
Proof.
  split; [reflexivity|].
  destruct (loaded_plugin_confined steam None steam_module "did:plc:a" {["API_KEY" := "k"]} (Ok []) (Some ["kv:read"; "network:request"])
    ["kv:read"; "network:request"] steam_state ltac:(reflexivity) ltac:(vm_compute; reflexivity) ltac:(reflexivity)) as [_ H].
  apply (H "host_http_request"); reflexivity.
Defined.

Definition example_host (url : string) : option string := strip_prefix "https://" url.

Definition example_calls : list (HttpRequest * Exchange) :=
  [({| req_url := "https://api.steampowered.com"; req_body := Some [1; 2] |}, XAnswers (Some 3) 200 [Some [1; 2; 3]]);
   ({| req_url := "https://steampowered.com"; req_body := None |}, XAnswers None 200 [])].


End Examples.

(** An advertised length is added to the byte counter before it is known to be
    true, and the addition wraps: a server that answers with the right
    [Content-Length] gives a run its whole transfer budget back. *)
Lemma advertised_length_wraps :
  let u := {| http_requests := 4; http_bytes_transferred := 400 * 1024 * 1024; kv_bytes_used := 0 |} in
  let req := {| req_url := "https://evil.example"; req_body := None |} in
  let '(u', _, r) := http_request u req (XAnswers (Some (2 ^ 64 - 400 * 1024 * 1024)) 200 []) in
  http_bytes_transferred u' = 0 /\ r = Err (ResponseTooLarge (2 ^ 64 - 400 * 1024 * 1024)).
Proof. by vm_compute. Qed.

(** The prefix of one plugin can be the prefix of another, or begin it: without
    stored secrets, a plugin is handed the other's variables. *)
Lemma env_secrets_shared :
  let vars := [("PLUGIN_AUTH_STEAM_API_KEY", "key of auth-steam")] in
  env_secrets "auth-steam" vars = [("API_KEY", "key of auth-steam")]
  /\ env_secrets "auth.steam" vars = [("API_KEY", "key of auth-steam")]
  /\ env_secrets "auth" vars = [("STEAM_API_KEY", "key of auth-steam")].
Proof. by vm_compute. Qed.

Lemma all_strings_fmap hosts : all_strings (VString <$> hosts) = Some hosts.
Proof. induction hosts as [|h hosts IH]; [done|]. rewrite fmap_cons. cbn [all_strings as_str mbind option_bind]. by rewrite IH. Qed.

(** What is stored for a plugin is what its next run may reach, and the secrets
    beside it are kept. *)
Lemma stored_hosts_load from_str to_string configs plugin_id hosts configs' :
  (forall v, from_str (to_string v) = Some v) ->
  store_allowed_hosts from_str to_string true true configs plugin_id hosts = Some (configs', Ok tt) ->
  load_allowed_hosts from_str true configs' plugin_id = Ok hosts
  /\ (row ← configs' !! plugin_id; c ← from_str row; Json.get c "secrets")
     = (row ← configs !! plugin_id; c ← from_str row; Json.get c "secrets")
  /\ forall other, other <> plugin_id -> configs' !! other = configs !! other.
Proof.
  intros Hrt. unfold store_allowed_hosts, load_allowed_hosts, Configs. simpl.
  destruct (validate_hosts hosts); [|done].
  destruct (stored_config from_str configs plugin_id) as [config|] eqn:Er; [|done].
  destruct (index_set config _ _) as [c'|] eqn:Ei; [|done]. simpl. intros [= <-].
  rewrite lookup_insert_eq. simpl. rewrite Hrt. simpl.
  assert (Json.get c' "allowed_hosts" = Some (VArray (VString <$> hosts)) /\ Json.get c' "secrets" = Json.get config "secrets") as [-> ->].
  { destruct config; try done; injection Ei as <-; [done|]. simpl. clear.
    induction entries as [|[k x] o [IH1 IH2]]; [done|]. simpl. destruct (String.eqb_spec k "allowed_hosts") as [->|Hne]; simpl; [done|].
    destruct (String.eqb_spec k "allowed_hosts"); [done|]. rewrite IH1. split; [done|]. by destruct (k =s "secrets"). }
  cbn [as_array mbind option_bind]. rewrite all_strings_fmap. split; [done|]. split.
  - unfold stored_config in Er. unfold Configs in *. revert Er.
    destruct (configs !! plugin_id) as [row|]; simpl; [by intros ->|]. by intros [= <-].
  - intros other Hne. by rewrite lookup_insert_ne.
Qed.
