(* ===== verification/GuestMemory.v ===== *)
(** * Between the host and a plugin's memory

    The bounds checks of [src/plugin/host/bindings.rs], [src/plugin/memory.rs]
    and the packing of [crates/happyview-plugin-sdk/src/abi.rs]: how bytes cross
    into and out of a plugin's linear memory; and the host functions for logs,
    panics, secrets and the key-value store, from the pointers the plugin passes
    to what it is answered.

    A plugin's memory is the list of its bytes.  Its allocator is the plugin's
    own code, so it is a parameter that may trap, answer any address and change
    the memory; the JSON writer is a parameter.  A host function that indexes out
    of a slice panics: [None]. *)

From stdpp Require Import gmap strings list.
From Stdlib Require Import ZArith Lia.
From S2P Require Import Prelude RustStr Words Utf8 PluginSandbox.
#[local] Open Scope Z_scope.

(** ** Slices and casts *)

Definition memory_size (mem : list Z) : Z := Z.of_nat (length mem).

(** [&mem[s..e]]. *)
Definition index_range (mem : list Z) (s e : Z) : option (list Z) :=
  if (s <=? e) && (e <=? memory_size mem) then Some (take (Z.to_nat (e - s)) (drop (Z.to_nat s) mem)) else None.

(** [mem[s..e].copy_from_slice(data)]. *)
Definition copy_from_slice (mem : list Z) (s e : Z) (data : list Z) : option (list Z) :=
  if (s <=? e) && (e <=? memory_size mem) && (e - s =? Z.of_nat (length data))
  then Some (take (Z.to_nat s) mem ++ data ++ drop (Z.to_nat e) mem) else None.

(** [x as u32] and, of a number of 32 bits with its sign, [x as usize]. *)
Definition as_u32 (n : Z) : Z := n mod 2 ^ 32.
Definition as_usize (n : Z) : Z := wrap64 n.
(** [x as i64] of what fits 64 bits. *)
Definition to_i64 (n : Z) : Z := if n <? 2 ^ 63 then n else n - U64.

Definition check_bounds (offset length mem_size : Z) : option (Z * Z) :=
  if length =? 0 then Some (offset, offset)
  else
    let e := offset + length in
    if U64 <=? e then None
    else if mem_size <? e then None
    else Some (offset, e).

(** ** Reading what the plugin points at *)

Definition read_guest_bytes (memory : option (list Z)) (ptr len : Z) : option (option (list Z)) :=
  match memory with
  | None => Some None
  | Some mem =>
      match check_bounds (as_usize ptr) (as_usize len) (memory_size mem) with
      | None => Some None
      | Some (s, e) => b ← index_range mem s e; Some (Some b)
      end
  end.

Definition read_guest_string (memory : option (list Z)) (ptr len : Z) : option (option string) :=
  match memory with
  | None => Some None
  | Some mem =>
      match check_bounds (as_usize ptr) (as_usize len) (memory_size mem) with
      | None => Some None
      | Some (s, e) => b ← index_range mem s e; Some (if utf8_valid b then Some (bytes_str b) else None)
      end
  end.

(** ** Handing bytes to the plugin *)

(** The plugin's [alloc]: an address or a trap, and the memory it leaves. *)
Definition Alloc : Type := list Z -> Z -> option Z * list Z.

Definition pack (ptr len : Z) : Z := to_i64 (Z.lor (wrap64 (Z.shiftl ptr 32)) len).
Definition packed_ptr (packed : Z) : Z := as_u32 (Z.shiftr packed 32).
Definition packed_len (packed : Z) : Z := as_u32 (Z.land packed 0xFFFFFFFF).

(** The memory afterwards and the packed address, 0 for no answer. *)
Definition write_guest_response (memory : option (list Z)) (alloc : option Alloc) (data : list Z) : option (option (list Z) * Z) :=
  match memory, alloc with
  | Some mem, Some alloc =>
      let len := as_u32 (Z.of_nat (length data)) in
      match alloc mem len with
      | (None, mem) => Some (Some mem, 0)
      | (Some ptr, mem) =>
          if ptr =? 0 then Some (Some mem, 0)
          else match check_bounds ptr len (memory_size mem) with
               | None => Some (Some mem, 0)
               | Some _ => mem' ← copy_from_slice mem ptr (ptr + len) data; Some (Some mem', pack ptr len)
               end
      end
  | _, _ => Some (memory, 0)
  end.

Inductive MemoryError : Type :=
| AllocationFailed
| OutOfBounds (offset length size : Z)
| Trap.

(** [end] of [write_to_guest] and [read_from_guest]: their checked sum. *)
Definition region_end (start len mem_size : Z) : result Z MemoryError :=
  let e := start + len in
  if U64 <=? e then Err (OutOfBounds start len mem_size)
  else if mem_size <? e then Err (OutOfBounds start len mem_size)
  else Ok e.

Definition write_to_guest (memory : option (list Z)) (alloc : option Alloc) (data : list Z) : option (option (list Z) * result (Z * Z) MemoryError) :=
  let len := as_u32 (Z.of_nat (length data)) in
  if len =? 0 then Some (memory, Ok (0, 0))
  else match alloc, memory with
       | Some alloc, Some mem =>
           match alloc mem len with
           | (None, mem) => Some (Some mem, Err Trap)
           | (Some ptr, mem) =>
               if ptr =? 0 then Some (Some mem, Err AllocationFailed)
               else match region_end ptr len (memory_size mem) with
                    | Err e => Some (Some mem, Err e)
                    | Ok e => mem' ← copy_from_slice mem ptr e data; Some (Some mem', Ok (ptr, len))
                    end
           end
       | _, _ => Some (memory, Err AllocationFailed)
       end.

Definition read_from_guest (memory : option (list Z)) (ptr len : Z) : option (result (list Z) MemoryError) :=
  if len =? 0 then Some (Ok [])
  else match memory with
       | None => Some (Err AllocationFailed)
       | Some mem =>
           match region_end ptr len (memory_size mem) with
           | Err e => Some (Err e)
           | Ok e => b ← index_range mem ptr e; Some (Ok b)
           end
       end.

(** [read_packed] of the SDK, up to the JSON reader: the bytes it is given, none
    for a packed 0. *)
Definition read_packed (mem : list Z) (packed : Z) : option (list Z) :=
  if packed =? 0 then None
  else let ptr := packed_ptr packed in
       let len := packed_len packed in
       Some (if len =? 0 then [] else take (Z.to_nat len) (drop (Z.to_nat ptr) mem)).

(** ** Logs and panics *)

Inductive Level : Type := LevelDebug | LevelInfo | LevelWarn | LevelError.

Definition level_str (l : Level) : string :=
  match l with LevelDebug => "debug" | LevelInfo => "info" | LevelWarn => "warn" | LevelError => "error" end.
Definition parse_level (s : string) : option Level :=
  let s := to_ascii_lowercase s in
  if s =s "debug" then Some LevelDebug
  else if s =s "info" then Some LevelInfo
  else if (s =s "warn") || (s =s "warning") then Some LevelWarn
  else if s =s "error" then Some LevelError
  else None.

Definition text_or (b : list Z) (d : string) : string := if utf8_valid b then bytes_str b else d.

(** The line that is logged, if one is. *)
Definition host_log (memory : option (list Z)) (st : PluginState) (level_ptr level_len msg_ptr msg_len : Z) : option (option (string * Level * string)) :=
  match memory with
  | None => Some None
  | Some mem =>
      match check_bounds (as_usize level_ptr) (as_usize level_len) (memory_size mem) with
      | None => Some None
      | Some (level_start, level_end) =>
          match check_bounds (as_usize msg_ptr) (as_usize msg_len) (memory_size mem) with
          | None => Some None
          | Some (msg_start, msg_end) =>
              level ← index_range mem level_start level_end;
              msg ← index_range mem msg_start msg_end;
              Some (Some (ps_plugin_id st, default LevelInfo (parse_level (text_or level "info")), text_or msg ""))
          end
      end
  end.

Definition MAX_PANIC_REPORT_BYTES : Z := 64 * 1024.

(** The bytes a panic report is read from, if any are. *)
Definition host_script_panic (memory : option (list Z)) (ptr len : Z) : option (option (list Z)) :=
  if MAX_PANIC_REPORT_BYTES <? as_u32 len then Some None
  else match memory with
       | None => Some None
       | Some mem =>
           match check_bounds (as_usize ptr) (as_usize len) (memory_size mem) with
           | None => Some None
           | Some (s, e) => b ← index_range mem s e; Some (Some b)
           end
       end.

(** ** Secrets and the key-value store *)

(** What an answer holds before the JSON writer. *)
Inductive Envelope : Type :=
| EnvForbidden (message : string)
| EnvOkText (v : string)
| EnvOkBytes (v : list Z)
| EnvKvError (e : KvError).

(** A running plugin: its grants, its counters and its memory. *)
Record Guest : Type := { g_state : PluginState; g_usage : ResourceUsage; g_memory : option (list Z) }.

Definition set_memory (g : Guest) (m : option (list Z)) : Guest :=
  {| g_state := g_state g; g_usage := g_usage g; g_memory := m |}.
Definition set_usage (g : Guest) (u : ResourceUsage) : Guest :=
  {| g_state := g_state g; g_usage := u; g_memory := g_memory g |}.

Definition gate (g : Guest) (name : string) : option (result unit string) :=
  r ← requirement_for_import name; Some (require_capability (g_state g) r).

Section Imports.
Variable encode : Envelope -> list Z.
Variable alloc : option Alloc.

Definition respond (g : Guest) (e : Envelope) : option (Guest * Z) :=
  '(m, packed) ← write_guest_response (g_memory g) alloc (encode e); Some (set_memory g m, packed).

Definition host_get_secret (g : Guest) (name_ptr name_len : Z) : option (Guest * Z) :=
  allowed ← gate g "host_get_secret";
  match allowed with
  | Err e => respond g (EnvForbidden e)
  | Ok _ =>
      name ← read_guest_string (g_memory g) name_ptr name_len;
      match name with
      | None => Some (g, 0)
      | Some name =>
          match ps_secrets (g_state g) !! name with
          | None => Some (g, 0)
          | Some v => respond g (EnvOkText v)
          end
      end
  end.

Definition host_kv_get (up : bool) (now : string) (kv : Kv) (g : Guest) (key_ptr key_len : Z) : option (Guest * Z) :=
  allowed ← gate g "host_kv_get";
  match allowed with
  | Err e => respond g (EnvForbidden e)
  | Ok _ =>
      key ← read_guest_string (g_memory g) key_ptr key_len;
      match key with
      | None => Some (g, 0)
      | Some key =>
          match kv_get up kv (g_state g) key now with
          | Ok (Some value) => respond g (EnvOkBytes value)
          | Ok None => Some (g, 0)
          | Err e => respond g (EnvKvError e)
          end
      end
  end.

Definition host_kv_set (up : bool) (later : Z -> string) (kv : Kv) (g : Guest) (key_ptr key_len val_ptr val_len ttl : Z) : option (Kv * Guest * Z) :=
  allowed ← gate g "host_kv_set";
  match allowed with
  | Err _ => Some (kv, g, -1)
  | Ok _ =>
      key ← read_guest_string (g_memory g) key_ptr key_len;
      match key with
      | None => Some (kv, g, -1)
      | Some key =>
          value ← read_guest_bytes (g_memory g) val_ptr val_len;
          match value with
          | None => Some (kv, g, -1)
          | Some value =>
              let ttl_secs := if 0 <? ttl then Some ttl else None in
              let '(kv, u, r) := kv_set up later kv (g_state g) (g_usage g) key value ttl_secs in
              Some (kv, set_usage g u, match r with Ok _ => 0 | Err _ => -1 end)
          end
      end
  end.

Definition host_kv_delete (up : bool) (kv : Kv) (g : Guest) (key_ptr key_len : Z) : option (Kv * Guest * Z) :=
  allowed ← gate g "host_kv_delete";
  match allowed with
  | Err _ => Some (kv, g, -1)
  | Ok _ =>
      key ← read_guest_string (g_memory g) key_ptr key_len;
      match key with
      | None => Some (kv, g, -1)
      | Some key =>
          let '(kv, r) := kv_delete up kv (g_state g) key in
          Some (kv, g, match r with Ok _ => 0 | Err _ => -1 end)
      end
  end.

(** ** A run's use of the key-value store

    Between its calls the plugin computes: its memory may become any other. *)

Inductive KvCall : Type :=
| CallGet (key_ptr key_len : Z)
| CallSet (key_ptr key_len val_ptr val_len ttl : Z)
| CallDelete (key_ptr key_len : Z).

Record KvStep : Type := { s_memory : option (list Z); s_up : bool; s_now : string; s_later : Z -> string; s_call : KvCall }.

Definition kv_step (kv : Kv) (g : Guest) (s : KvStep) : option (Kv * Guest * Z) :=
  let g := set_memory g (s_memory s) in
  match s_call s with
  | CallGet p l => '(g, r) ← host_kv_get (s_up s) (s_now s) kv g p l; Some (kv, g, r)
  | CallSet p l vp vl ttl => host_kv_set (s_up s) (s_later s) kv g p l vp vl ttl
  | CallDelete p l => host_kv_delete (s_up s) kv g p l
  end.

(** A run up to the call that panics, if one does: the store, the plugin and what
    its calls answered. *)
Fixpoint kv_run (kv : Kv) (g : Guest) (steps : list KvStep) : Kv * Guest * list Z :=
  match steps with
  | [] => (kv, g, [])
  | s :: steps =>
      match kv_step kv g s with
      | Some (kv, g, r) => let '(kv, g, rs) := kv_run kv g steps in (kv, g, r :: rs)
      | None => (kv, g, [])
      end
  end.

End Imports.

(** ** The bounds check *)

Definition is_i32 (n : Z) : Prop := - 2 ^ 31 <= n < 2 ^ 31.
Definition is_u32 (n : Z) : Prop := 0 <= n < 2 ^ 32.

Lemma as_usize_i32 n : is_i32 n -> as_usize n = if 0 <=? n then n else n + U64.
Proof.
  unfold is_i32, as_usize, wrap64, U64. intros Hn. destruct (Z.leb_spec 0 n); [rewrite Z.mod_small; lia|].
  rewrite <- (Z_mod_plus_full n 1), Z.mod_small; lia.
Qed.

Lemma index_range_Some mem s e b :
  index_range mem s e = Some b <->
  s <= e <= memory_size mem /\ b = take (Z.to_nat (e - s)) (drop (Z.to_nat s) mem).
Proof.
  unfold index_range. destruct (Z.leb_spec s e), (Z.leb_spec e (memory_size mem)); simpl; split; try (intros; by exfalso; destruct_and?; lia).
  - intros [= <-]. done.
  - intros [_ ->]. done.
  - done.
  - done.
  - done.
Qed.

Definition in_memory (mem : list Z) (ptr len : Z) : Prop := 0 <= ptr /\ 0 <= len /\ ptr + len <= memory_size mem.
Definition bytes_at (mem : list Z) (ptr len : Z) : list Z := take (Z.to_nat len) (drop (Z.to_nat ptr) mem).

(** What every import does with a pointer and a length it is given. *)
Lemma checked_index mem ptr len :
  is_i32 ptr -> is_i32 len -> memory_size mem <= 2 ^ 32 ->
  match check_bounds (as_usize ptr) (as_usize len) (memory_size mem) with
  | None => ~ in_memory mem ptr len
  | Some (s, e) =>
      match index_range mem s e with
      | Some b => in_memory mem ptr len /\ b = bytes_at mem ptr len
      | None => len = 0 /\ ~ in_memory mem ptr len
      end
  end.
Proof.
  intros Hp Hl Hm. unfold check_bounds. rewrite !as_usize_i32 by done. unfold is_i32, in_memory, bytes_at, U64 in *.
  assert (0 <= memory_size mem) by (unfold memory_size; lia).
  set (p := if 0 <=? ptr then _ else _). set (l := if 0 <=? len then _ else _).
  assert (0 <= ptr /\ p = ptr \/ ptr < 0 /\ p = ptr + 2 ^ 64) as Ep by (unfold p; destruct (Z.leb_spec 0 ptr); lia).
  assert (0 <= len /\ l = len \/ len < 0 /\ l = len + 2 ^ 64) as El by (unfold l; destruct (Z.leb_spec 0 len); lia).
  clearbody p l. destruct (Z.eqb_spec l 0) as [->|Hl0].
  - destruct (index_range mem p p) as [b|] eqn:E.
    + apply index_range_Some in E as [? ->]. split; [lia|]. replace len with 0 by lia. replace p with ptr by lia. by rewrite Z.sub_diag.
    + split; [lia|]. intros Hin. enough (index_range mem p p = Some []) by congruence.
      apply index_range_Some. split; [lia|]. by rewrite Z.sub_diag.
  - destruct (Z.leb_spec (2 ^ 64) (p + l)); [lia|]. destruct (Z.ltb_spec (memory_size mem) (p + l)); [lia|].
    assert (index_range mem p (p + l) = Some (bytes_at mem ptr len)) as ->; [|split; [lia|done]].
    apply index_range_Some. split; [lia|]. unfold bytes_at. do 2 f_equal; [lia|]. f_equal. lia.
Qed.

(** The host reads what a plugin points at and nothing else.  A read answers the
    bytes from the pointer on for the length when these lie in the plugin's
    memory, and no bytes when they do not, whatever signed numbers the plugin
    passes - except for a length of 0 at an address outside the memory, where the
    check passes and the host panics. *)
Theorem guest_reads_exact (mem : list Z) (ptr len : Z) :
  is_i32 ptr -> is_i32 len -> memory_size mem <= 2 ^ 32 ->
  match read_guest_bytes (Some mem) ptr len with
  | Some (Some b) => in_memory mem ptr len /\ b = bytes_at mem ptr len
  | Some None => ~ in_memory mem ptr len
  | None => len = 0 /\ ~ in_memory mem ptr len
  end.
Proof.
  intros Hp Hl Hm. pose proof (checked_index mem ptr len Hp Hl Hm) as H. unfold read_guest_bytes.
  destruct (check_bounds _ _ _) as [[s e]|]; [|done]. by destruct (index_range mem s e).
Qed.

Lemma guest_reads_exact_witness :
  read_guest_bytes (Some [10; 11; 12; 13]) 1 2 = Some (Some [11; 12])
  /\ in_memory [10; 11; 12; 13] 1 2 /\ ~ in_memory [10; 11; 12; 13] (-1) 2.
Proof.
  split; [reflexivity|]. split.
  - apply (guest_reads_exact [10; 11; 12; 13] 1 2); unfold is_i32, memory_size; simpl; lia.
  - apply (guest_reads_exact [10; 11; 12; 13] (-1) 2); unfold is_i32, memory_size; simpl; lia.
Defined.

(** Any plugin may call [host_log]: with an empty level at an address outside its
    memory it makes the host panic. *)
Lemma empty_region_panics (st : PluginState) :
  host_log (Some [0; 0; 0; 0]) st (-1) 0 0 0 = None /\ host_script_panic (Some [0; 0; 0; 0]) 5 0 = None.
Proof. by vm_compute. Qed.

(** ** Crossing and coming back *)

Lemma copy_from_slice_Some mem s e data mem' :
  copy_from_slice mem s e data = Some mem' ->
  s <= e <= memory_size mem /\ e - s = Z.of_nat (length data)
  /\ mem' = take (Z.to_nat s) mem ++ data ++ drop (Z.to_nat e) mem.
Proof.
  unfold copy_from_slice. destruct (Z.leb_spec s e); [|done]. destruct (Z.leb_spec e (memory_size mem)); [|done].
  destruct (Z.eqb_spec (e - s) (Z.of_nat (length data))); [|done]. simpl. intros [= <-]. done.
Qed.

(** After the copy, the region holds the data and everything else is as before. *)
Lemma copied_region mem s e data mem' :
  copy_from_slice mem s e data = Some mem' -> 0 <= s ->
  memory_size mem' = memory_size mem
  /\ bytes_at mem' s (e - s) = data
  /\ (forall i : nat, (Z.of_nat i < s \/ e <= Z.of_nat i) -> mem' !! i = mem !! i).
Proof.
  intros (Hr & Hn & ->)%copy_from_slice_Some Hs. unfold memory_size, bytes_at in *. split_and!.
  - rewrite !length_app, length_take, length_drop. lia.
  - rewrite drop_app_length' by (rewrite length_take; lia). apply take_app_length'. lia.
  - intros i [Hi|Hi].
    + rewrite lookup_app_l by (rewrite length_take; lia). apply lookup_take_lt. lia.
    + rewrite lookup_app_r by (rewrite length_take; lia). rewrite lookup_app_r by (rewrite length_take; lia).
      rewrite lookup_drop, length_take. f_equal. lia.
Qed.

Lemma copy_succeeds mem s e data :
  0 <= s -> e = s + Z.of_nat (length data) -> e <= memory_size mem -> is_Some (copy_from_slice mem s e data).
Proof.
  intros Hs He Hm. unfold copy_from_slice. destruct (Z.leb_spec s e); [|lia]. destruct (Z.leb_spec e (memory_size mem)); [|lia].
  destruct (Z.eqb_spec (e - s) (Z.of_nat (length data))); [|lia]. by eexists.
Qed.

Lemma pack_unpack ptr len :
  is_u32 ptr -> is_u32 len ->
  packed_ptr (pack ptr len) = ptr /\ packed_len (pack ptr len) = len /\ (ptr <> 0 -> pack ptr len <> 0).
Proof.
  unfold is_u32, packed_ptr, packed_len, pack, as_u32. intros Hp Hl.
  assert (Z.lor (wrap64 (Z.shiftl ptr 32)) len = len + ptr * 2 ^ 32) as ->.
  { unfold wrap64, U64. rewrite Z.mod_small by (rewrite Z.shiftl_mul_pow2 by lia; lia).
    rewrite Z.lor_comm. apply lor_shiftl; lia. }
  set (n := to_i64 (len + ptr * 2 ^ 32)).
  assert (exists k, n = len + (ptr + k * 2 ^ 32) * 2 ^ 32 /\ - 1 <= k <= 0) as (k & -> & Hk).
  { unfold n, to_i64, U64. destruct (Z.ltb_spec (len + ptr * 2 ^ 32) (2 ^ 63)); [exists 0|exists (-1)]; lia. }
  rewrite Z.shiftr_div_pow2 by lia. change 0xFFFFFFFF with (Z.ones 32). rewrite Z.land_ones by lia.
  split_and!.
  - rewrite Z.div_add, Z.div_small, Z.add_0_l, Z_mod_plus_full by lia. apply Z.mod_small. lia.
  - rewrite Z.mod_mod, Z_mod_plus_full by lia. apply Z.mod_small. lia.
  - lia.
Qed.

(** Outside the region nothing changed. *)
Definition changed_only (mem mem' : list Z) (ptr len : Z) : Prop :=
  memory_size mem' = memory_size mem
  /\ forall i : nat, (Z.of_nat i < ptr \/ ptr + len <= Z.of_nat i) -> mem' !! i = mem !! i.

(** The bytes read back from a region of the memory they were copied into. *)
Lemma read_copied mem ptr data mem' :
  let len := Z.of_nat (length data) in
  0 <= ptr < 2 ^ 32 -> 0 < len < 2 ^ 32 -> copy_from_slice mem ptr (ptr + len) data = Some mem' ->
  changed_only mem mem' ptr len /\ bytes_at mem' ptr len = data /\ read_from_guest (Some mem') ptr len = Some (Ok data).
Proof.
  intros len Hp Hl Hc. destruct (copied_region _ _ _ _ _ Hc ltac:(lia)) as (Hsz & Hb & Ho).
  apply copy_from_slice_Some in Hc as (Hr & _ & _). replace (ptr + len - ptr) with len in Hb by lia.
  split; [done|]. split; [done|]. unfold read_from_guest, region_end, U64. rewrite Hsz.
  destruct (Z.eqb_spec len 0); [lia|]. destruct (Z.leb_spec (2 ^ 64) (ptr + len)); [lia|].
  destruct (Z.ltb_spec (memory_size mem) (ptr + len)); [lia|].
  assert (index_range mem' ptr (ptr + len) = Some data) as ->; [|done].
  apply index_range_Some. rewrite Hsz. split; [lia|]. unfold bytes_at in Hb. by replace (ptr + len - ptr) with len by lia.
Qed.

Section RoundTrip.
Variable alloc : Alloc.
(** The allocator answers a [u32]. *)
Hypothesis alloc_u32 : forall m n p m', alloc m n = (Some p, m') -> is_u32 p.

(** (C36) What the host hands a plugin arrives.  Whatever address the plugin's allocator
    answers, handing over data - some, and below 4 GB - never panics; either the plugin is told there is
    no answer and the memory is as the allocator left it, or it reads exactly the
    data from the packed address, and nothing outside their region changed.  The
    same holds of an input and the host's own reading of it. *)
Theorem data_reads_back (mem data : list Z) :
  0 < Z.of_nat (length data) < 2 ^ 32 ->
  let left := (alloc mem (Z.of_nat (length data))).2 in
  (exists m packed, write_guest_response (Some mem) (Some alloc) data = Some (Some m, packed)
    /\ (packed = 0 /\ m = left
        \/ read_packed m packed = Some data /\ changed_only left m (packed_ptr packed) (packed_len packed)))
  /\ (exists m r, write_to_guest (Some mem) (Some alloc) data = Some (Some m, r)
    /\ match r with
       | Ok (ptr, len) => read_from_guest (Some m) ptr len = Some (Ok data) /\ changed_only left m ptr len
       | Err _ => m = left
       end).
Proof.
  intros Hn left. unfold write_guest_response, write_to_guest.
  assert (as_u32 (Z.of_nat (length data)) = Z.of_nat (length data)) as -> by (unfold as_u32; rewrite Z.mod_small; lia).
  set (len := Z.of_nat (length data)) in *. destruct (Z.eqb_spec len 0) as [|_]; [lia|]. unfold left.
  destruct (alloc mem len) as [[ptr|] m0] eqn:Ea; cbn [snd]; [|split; do 2 eexists; (split; [reflexivity|]); [by left|done]].
  apply alloc_u32 in Ea. destruct (Z.eqb_spec ptr 0) as [|Hp]; [split; do 2 eexists; (split; [reflexivity|]); [by left|done]|].
  unfold is_u32 in Ea. unfold check_bounds, region_end, U64. cbv zeta.
  destruct (Z.eqb_spec len 0) as [|_]; [lia|].
  destruct (Z.leb_spec (2 ^ 64) (ptr + len)); [lia|].
  destruct (Z.ltb_spec (memory_size m0) (ptr + len)); [split; do 2 eexists; (split; [reflexivity|]); [by left|done]|].
  destruct (copy_succeeds m0 ptr (ptr + len) data ltac:(lia) eq_refl ltac:(done)) as [m' Hc]. rewrite Hc. simpl.
  destruct (read_copied m0 ptr data m' Ea Hn Hc) as (Ho & Hb & Hr). fold len in Ho, Hb, Hr.
  destruct (pack_unpack ptr len Ea ltac:(unfold is_u32; lia)) as (E1 & E2 & E3).
  split; do 2 eexists; (split; [reflexivity|]); [|done]. right. unfold read_packed. rewrite E1, E2.
  destruct (Z.eqb_spec (pack ptr len) 0) as [E0|_]; [by destruct (E3 Hp E0)|]. destruct (Z.eqb_spec len 0); [lia|].
  split; [|done]. f_equal. exact Hb.
Qed.

End RoundTrip.

(** An allocator that appends. *)
Definition bump_alloc : Alloc := fun mem n =>
  if (memory_size mem <? 2 ^ 16) && (n <? 2 ^ 16) then (Some (memory_size mem), mem ++ replicate (Z.to_nat n) 0) else (None, mem).

Lemma data_reads_back_witness :
  write_guest_response (Some [7; 7]) (Some bump_alloc) [1; 2; 3] = Some (Some [7; 7; 1; 2; 3], 2 * 2 ^ 32 + 3)
  /\ exists m r, write_to_guest (Some [7; 7]) (Some bump_alloc) [1; 2; 3] = Some (Some m, r).
Proof.
  split; [reflexivity|].
  destruct (data_reads_back bump_alloc) with (mem := [7; 7]) (data := [1; 2; 3]) as [_ (m & r & E & _)]; [|simpl; lia|by exists m, r].
  intros m n p m'. unfold bump_alloc. destruct (Z.ltb_spec (memory_size m) (2 ^ 16)) as [Hm|]; [|done].
  destruct (n <? 2 ^ 16); [|done]. intros [= <- _]. unfold is_u32, memory_size in *. lia.
Defined.

(** ** The key-value store of a run *)

Section KvRuns.
Variable encode : Envelope -> list Z.
Variable alloc : option Alloc.
#[local] Abbreviation kv_step := (kv_step encode alloc).
#[local] Abbreviation kv_run := (kv_run encode alloc).

Definition own (g : Guest) (key : string) : string * string * string :=
  (ps_plugin_id (g_state g), ps_scope (g_state g), key).

Definition small (s : KvStep) : Prop := match s_memory s with Some m => memory_size m <= 2 ^ 32 | None => True end.

Lemma read_guest_bytes_short mem ptr len b :
  match mem with Some m => memory_size m <= 2 ^ 32 | None => True end ->
  read_guest_bytes mem ptr len = Some (Some b) -> Z.of_nat (length b) <= 2 ^ 32.
Proof.
  destruct mem as [m|]; [|done]. simpl. intros Hm. destruct (check_bounds _ _ _) as [[s e]|]; [|done].
  destruct (index_range m s e) as [b'|] eqn:E; [|done]. simpl. intros [= ->]. apply index_range_Some in E as [_ ->].
  rewrite length_take, length_drop. unfold memory_size in Hm. lia.
Qed.

Lemma respond_keeps g e g' r : respond encode alloc g e = Some (g', r) -> g_state g' = g_state g /\ g_usage g' = g_usage g.
Proof. unfold respond. destruct (write_guest_response _ _ _) as [[m p]|]; [|done]. simpl. by intros [= <- _]. Qed.

Lemma host_kv_get_keeps up now kv g p l g' r :
  host_kv_get encode alloc up now kv g p l = Some (g', r) -> g_state g' = g_state g /\ g_usage g' = g_usage g.
Proof.
  unfold host_kv_get. destruct (gate g _) as [[?|e]|]; simpl; [|by intros ?%respond_keeps|done].
  destruct (read_guest_string _ _ _) as [[key|]|]; simpl; [|by intros [= <- _]|done].
  destruct (kv_get _ _ _ _ _) as [[v|]|e]; [by intros ?%respond_keeps|by intros [= <- _]|by intros ?%respond_keeps].
Qed.

Lemma gate_write g name : name = "host_kv_set" \/ name = "host_kv_delete" -> gate g name = Some (Ok tt) -> KvWrite ∈ ps_capabilities (g_state g).
Proof.
  intros Hn. unfold gate. assert (requirement_for_import name = Some {| import := name; any_of := [KvWrite] |}) as ->
    by (by destruct Hn as [-> | ->]; vm_compute). simpl. unfold require_capability. simpl.
  case_bool_decide; simpl; [done|]. by intros [=].
Qed.

(** A call that leaves the store and the counter alone. *)
Ltac kept := intros [= <- <- _]; split; [done|]; left; split; [done|]; exists 0; split; [lia|by left].

(** What one call does to the store and the counter. *)
Lemma kv_step_cases kv g s kv' g' r :
  small s -> kv_step kv g s = Some (kv', g', r) ->
  g_state g' = g_state g
  /\ ((kv' = kv /\ exists n, 0 <= n <= 2 ^ 32 /\ (g_usage g' = g_usage g \/ g_usage g' = count_kv (g_usage g) n))
      \/ KvWrite ∈ ps_capabilities (g_state g)
         /\ ((exists key v e, kv' = <[own g key := (v, e)]> kv /\ g_usage g' = count_kv (g_usage g) (Z.of_nat (length v))
               /\ Z.of_nat (length v) <= 2 ^ 32 /\ kv_bytes_used (g_usage g') <= MAX_KV_SIZE_PER_USER)
             \/ exists key, kv' = delete (own g key) kv /\ g_usage g' = g_usage g)).
Proof.
  intros Hs. unfold GuestMemory.kv_step. destruct (s_call s) as [p l|p l vp vl ttl|p l].
  - destruct (host_kv_get _ _ _ _ _ _ _ _) as [[g1 r1]|] eqn:E; [|done]. simpl. intros [= <- <- _].
    apply host_kv_get_keeps in E as [E1 E2]. split; [done|]. left. split; [done|]. exists 0. split; [lia|by left].
  - unfold host_kv_set. destruct (gate _ _) as [[[]|e]|] eqn:Eg; [| |done].
    2: kept.
    cbn [mbind option_bind]. destruct (read_guest_string _ _ _) as [[key|]|]; [| |done].
    2: kept.
    cbn [mbind option_bind]. destruct (read_guest_bytes _ _ _) as [[v|]|] eqn:Ev; [| |done].
    2: kept.
    apply read_guest_bytes_short in Ev; [|exact Hs]. cbn [mbind option_bind].
    unfold kv_set. cbv zeta. destruct (Z.ltb_spec MAX_KV_SIZE_PER_USER (kv_bytes_used (count_kv (g_usage (set_memory g (s_memory s))) (Z.of_nat (length v))))) as [|Hle].
    { intros [= <- <- _]. split; [done|]. left. split; [done|]. exists (Z.of_nat (length v)). split; [lia|by right]. }
    destruct (negb (s_up s)); intros [= <- <- _]; (split; [done|]).
    + left. split; [done|]. exists (Z.of_nat (length v)). split; [lia|by right].
    + right. split; [exact (gate_write _ _ (or_introl eq_refl) Eg)|]. left. by do 3 eexists.
  - unfold host_kv_delete. destruct (gate _ _) as [[[]|e]|] eqn:Eg; [| |done].
    2: kept.
    cbn [mbind option_bind]. destruct (read_guest_string _ _ _) as [[key|]|]; [| |done].
    2: kept.
    cbn [mbind option_bind]. unfold kv_delete. destruct (negb (s_up s)); [kept|]. intros [= <- <- _]. split; [done|].
    right. split; [exact (gate_write _ _ (or_intror eq_refl) Eg)|]. right. by eexists.
Qed.

Definition stored_len (kv : Kv) (k : string * string * string) : nat :=
  match kv !! k with Some (v, _) => length v | None => 0 end.

(** The entries of [ks] are not those [kv0] had. *)
Definition fresh_in (kv0 kv : Kv) (k : string * string * string) : Prop := is_Some (kv !! k) /\ kv !! k <> kv0 !! k.

(** Whatever entries one picks that are new since [kv0], they hold at most [n] bytes. *)
Definition new_within (kv0 kv : Kv) (n : Z) : Prop :=
  forall ks, NoDup ks -> Forall (fresh_in kv0 kv) ks -> Z.of_nat (sum_list_with (stored_len kv) ks) <= n.

Lemma sum_stored_insert (kv : Kv) k x ks : k ∉ ks -> sum_list_with (stored_len (<[k := x]> kv)) ks = sum_list_with (stored_len kv) ks.
Proof.
  induction ks as [|k' ks IH]; [done|]. intros [Hk Hn]%not_elem_of_cons. simpl. rewrite IH by done. f_equal.
  unfold stored_len, Kv. by rewrite lookup_insert_ne.
Qed.

Lemma fresh_other (kv0 kv : Kv) k x ks : k ∉ ks -> Forall (fresh_in kv0 (<[k := x]> kv)) ks -> Forall (fresh_in kv0 kv) ks.
Proof.
  intros Hk Hf. apply Forall_forall. intros k' Hin. rewrite Forall_forall in Hf. specialize (Hf k' Hin). unfold fresh_in, Kv in *.
  rewrite lookup_insert_ne in Hf; [done|]. by intros ->.
Qed.

Lemma new_within_insert (kv0 kv : Kv) k v e n :
  new_within kv0 kv n -> new_within kv0 (<[k := (v, e)]> kv) (n + Z.of_nat (length v)).
Proof.
  intros H ks Hnd Hf. destruct (decide (k ∈ ks)) as [Hin|Hin].
  - apply elem_of_Permutation in Hin as [ks' Hp]. rewrite Hp in Hnd, Hf |- *. apply NoDup_cons in Hnd as [Hn Hnd].
    apply Forall_cons in Hf as [_ Hf]. specialize (H ks' Hnd (fresh_other _ _ _ _ _ Hn Hf)).
    simpl. rewrite sum_stored_insert by done. unfold stored_len at 1, Kv. rewrite lookup_insert_eq. lia.
  - rewrite sum_stored_insert by done. specialize (H ks Hnd (fresh_other _ _ _ _ _ Hin Hf)). lia.
Qed.

Lemma new_within_delete (kv0 kv : Kv) k n : new_within kv0 kv n -> new_within kv0 (delete k kv) n.
Proof.
  intros H ks Hnd Hf.
  assert (forall k', k' ∈ ks -> delete k kv !! k' = kv !! k') as He.
  { intros k' Hin. rewrite Forall_forall in Hf. destruct (Hf k' Hin) as [Hs _]. unfold Kv in *. apply lookup_delete_ne. intros ->.
    rewrite lookup_delete_eq in Hs. by destruct Hs. }
  assert (sum_list_with (stored_len (delete k kv)) ks = sum_list_with (stored_len kv) ks) as ->.
  { clear Hnd Hf. induction ks as [|k' ks IH]; [done|]. simpl. rewrite IH by (intros; apply He; by right). f_equal.
    unfold stored_len. by rewrite (He k') by left. }
  apply H; [done|]. apply Forall_forall. intros k' Hin. rewrite Forall_forall in Hf. destruct (Hf k' Hin) as [Hs Hn].
  unfold fresh_in. by rewrite <- (He k' Hin).
Qed.

Lemma new_within_weaken kv0 kv n m : new_within kv0 kv n -> n <= m -> new_within kv0 kv m.
Proof. intros H Hm ks Hnd Hf. specialize (H ks Hnd Hf). lia. Qed.

Lemma kv_run_confined kv0 steps : forall kv g kv' g' rs,
  kv_run kv g steps = (kv', g', rs) -> Forall small steps ->
  0 <= kv_bytes_used (g_usage g) -> kv_bytes_used (g_usage g) + 2 ^ 32 * Z.of_nat (length steps) < 2 ^ 64 ->
  new_within kv0 kv (kv_bytes_used (g_usage g)) -> new_within kv0 kv MAX_KV_SIZE_PER_USER ->
  g_state g' = g_state g
  /\ (forall k, (forall key, k <> own g key) -> kv' !! k = kv !! k)
  /\ (KvWrite ∉ ps_capabilities (g_state g) -> kv' = kv)
  /\ new_within kv0 kv' MAX_KV_SIZE_PER_USER.
Proof.
  induction steps as [|s steps IH]; intros kv g kv' g' rs E Hs Hu Hlen Hn Hq; simpl in E; [by injection E as <- <- _|].
  apply Forall_cons in Hs as [Hs1 Hs]. cbn [length] in Hlen.
  destruct (kv_step kv g s) as [[[kv1 g1] r]|] eqn:E1; [|by injection E as <- <- _].
  destruct (kv_run kv1 g1 steps) as [[kv2 g2] rs2] eqn:E2. injection E as <- <- _.
  apply kv_step_cases in E1 as [Hst Hc]; [|done].
  assert (Hown : forall key, own g1 key = own g key) by (intros key; unfold own; by rewrite Hst).
  assert (Hcount : forall n, 0 <= n <= 2 ^ 32 -> kv_bytes_used (count_kv (g_usage g) n) = kv_bytes_used (g_usage g) + n).
  { intros n Hb. cbn [count_kv kv_bytes_used]. unfold wrap64, U64. apply Z.mod_small. lia. }
  destruct Hc as [[-> (n & Hb & Hc)]|[Hw [(key & v & e & -> & Hc & Hb & Hle)|(key & -> & Hc)]]].
  - assert (kv_bytes_used (g_usage g) <= kv_bytes_used (g_usage g1) <= kv_bytes_used (g_usage g) + 2 ^ 32) as Hr
      by (destruct Hc as [-> | ->]; rewrite ?Hcount by done; lia).
    assert (new_within kv0 kv (kv_bytes_used (g_usage g1))) as Hn1 by (apply (new_within_weaken _ _ _ _ Hn); lia).
    destruct (IH _ _ _ _ _ E2 Hs ltac:(lia) ltac:(lia) Hn1 Hq) as (H1 & H2 & H3 & H4).
    rewrite Hst in *. split_and!; [done| |done|done]. intros k Hk. apply H2. intros key. by rewrite Hown.
  - rewrite Hc, Hcount in Hle by lia. apply (new_within_insert _ _ (own g key) v e) in Hn.
    destruct (IH _ _ _ _ _ E2 Hs) as (H1 & H2 & H3 & H4);
      [rewrite Hc, Hcount; lia|rewrite Hc, Hcount; lia|rewrite Hc, Hcount by lia; done|by eapply new_within_weaken|].
    rewrite Hst in *. split_and!; [done| |done|done]. intros k Hk. rewrite H2 by (intros ?; by rewrite Hown).
    unfold Kv. apply lookup_insert_ne. by intros <-; eapply Hk.
  - destruct (IH _ _ _ _ _ E2 Hs) as (H1 & H2 & H3 & H4); rewrite ?Hc; [lia|lia|by apply new_within_delete|by apply new_within_delete|].
    rewrite Hst in *. split_and!; [done| |done|done]. intros k Hk. rewrite H2 by (intros ?; by rewrite Hown).
    unfold Kv. apply lookup_delete_ne. by intros <-; eapply Hk.
Qed.

(** Stores with the same entries of the plugin's own. *)
Definition agree (g : Guest) (kv1 kv2 : Kv) : Prop := forall key, kv1 !! own g key = kv2 !! own g key.

Lemma kv_step_agree kv1 kv2 g s :
  agree g kv1 kv2 ->
  match kv_step kv1 g s, kv_step kv2 g s with
  | Some (kv1', g1, r1), Some (kv2', g2, r2) => g1 = g2 /\ r1 = r2 /\ agree g kv1' kv2'
  | None, None => True
  | _, _ => False
  end.
Proof.
  intros Ha. unfold GuestMemory.kv_step. destruct (s_call s) as [p l|p l vp vl ttl|p l].
  - assert (host_kv_get encode alloc (s_up s) (s_now s) kv1 (set_memory g (s_memory s)) p l
            = host_kv_get encode alloc (s_up s) (s_now s) kv2 (set_memory g (s_memory s)) p l) as ->.
    { unfold host_kv_get. destruct (gate _ _) as [[]|]; simpl; [|done|done]. destruct (read_guest_string _ _ _) as [[key|]|]; simpl; [|done|done].
      unfold kv_get. simpl. by rewrite (Ha key : kv1 !! (_, _, _) = _). }
    destruct (host_kv_get _ _ _ _ kv2 _ _ _) as [[g1 r1]|]; simpl; done.
  - unfold host_kv_set. destruct (gate _ _) as [[]|]; simpl; [|done|done]. destruct (read_guest_string _ _ _) as [[key|]|]; simpl; [|done|done].
    destruct (read_guest_bytes _ _ _) as [[v|]|]; simpl; [|done|done]. unfold kv_set. cbv zeta.
    destruct (_ <? _); [done|]. destruct (negb _); [done|]. split; [done|]. split; [done|]. intros key'. simpl.
    unfold Kv in *. destruct (decide (key = key')) as [->|Hne]; [by rewrite !lookup_insert_eq|].
    rewrite !lookup_insert_ne by (unfold own; simpl; congruence). apply Ha.
  - unfold host_kv_delete. destruct (gate _ _) as [[]|]; simpl; [|done|done]. destruct (read_guest_string _ _ _) as [[key|]|]; simpl; [|done|done].
    unfold kv_delete. destruct (negb _); [done|]. split; [done|]. split; [done|]. intros key'. simpl.
    unfold Kv in *. destruct (decide (key = key')) as [->|Hne]; [by rewrite !lookup_delete_eq|].
    rewrite !lookup_delete_ne by (unfold own; simpl; congruence). apply Ha.
Qed.

Lemma kv_step_state kv g s kv' g' r : kv_step kv g s = Some (kv', g', r) -> g_state g' = g_state g.
Proof.
  unfold GuestMemory.kv_step, host_kv_set, host_kv_delete. destruct (s_call s) as [p l|p l vp vl ttl|p l].
  - destruct (host_kv_get _ _ _ _ _ _ _ _) as [[g1 r1]|] eqn:E; [|done]. apply host_kv_get_keeps in E as [E _]. simpl. by intros [= _ <- _].
  - destruct (gate _ _) as [[]|]; simpl; [|by intros [= _ <- _]|done]. destruct (read_guest_string _ _ _) as [[]|]; simpl; [|by intros [= _ <- _]|done].
    destruct (read_guest_bytes _ _ _) as [[]|]; simpl; [|by intros [= _ <- _]|done]. destruct (kv_set _ _ _ _ _ _ _ _) as [[? ?] ?]. by intros [= _ <- _].
  - destruct (gate _ _) as [[]|]; simpl; [|by intros [= _ <- _]|done]. destruct (read_guest_string _ _ _) as [[]|]; simpl; [|by intros [= _ <- _]|done].
    destruct (kv_delete _ _ _ _) as [? ?]. by intros [= _ <- _].
Qed.

Lemma kv_run_agree steps : forall kv1 kv2 g,
  agree g kv1 kv2 -> (kv_run kv1 g steps).1.2 = (kv_run kv2 g steps).1.2 /\ (kv_run kv1 g steps).2 = (kv_run kv2 g steps).2.
Proof.
  induction steps as [|s steps IH]; intros kv1 kv2 g Ha; [done|]. cbn [GuestMemory.kv_run].
  pose proof (kv_step_agree kv1 kv2 g s Ha) as H.
  destruct (kv_step kv1 g s) as [[[kv1' g1] r1]|] eqn:E1, (kv_step kv2 g s) as [[[kv2' g2] r2]|]; try done.
  destruct H as (-> & -> & Ha'). apply kv_step_state in E1.
  destruct (IH kv1' kv2' g2) as [H1 H2]; [intros key; unfold own; rewrite E1; apply Ha'|].
  destruct (kv_run kv1' g2 steps) as [[? ?] ?], (kv_run kv2' g2 steps) as [[? ?] ?]. simpl in *. by subst.
Qed.

(** (C13) A plugin's keys are its own.  Whatever key-value calls a run makes, with
    whatever pointers and memory, and wherever a call fails or panics: entries of
    other plugins and of other scopes are left alone and do not influence what the
    run sees; without [kv:write] nothing changes at all; and the entries it leaves
    behind that were not there before hold at most 1 MB together. *)
Theorem kv_confined (kv : Kv) (st : PluginState) (mem : option (list Z)) (steps : list KvStep) :
  Forall small steps -> Z.of_nat (length steps) < 2 ^ 31 ->
  let g := {| g_state := st; g_usage := no_usage; g_memory := mem |} in
  let '(kv', g', answers) := kv_run kv g steps in
  (forall plugin_id scope key, (plugin_id, scope) <> (ps_plugin_id st, ps_scope st) ->
     kv' !! (plugin_id, scope, key) = kv !! (plugin_id, scope, key))
  /\ (KvWrite ∉ ps_capabilities st -> kv' = kv)
  /\ new_within kv kv' MAX_KV_SIZE_PER_USER
  /\ (forall other, agree g kv other -> (kv_run other g steps).1.2 = g' /\ (kv_run other g steps).2 = answers).
Proof.
  intros Hs Hl g. destruct (kv_run kv g steps) as [[kv' g'] rs] eqn:E.
  assert (forall n, 0 <= n -> new_within kv kv n) as Hz.
  { intros n Hn [|k ks] _ Hf; [simpl; lia|]. apply Forall_cons in Hf as [[_ Hf] _]. done. }
  destruct (kv_run_confined kv steps kv g kv' g' rs E Hs ltac:(done) ltac:(simpl; lia)
    (Hz 0 ltac:(done)) (Hz MAX_KV_SIZE_PER_USER ltac:(done))) as (_ & H2 & H3 & H4).
  split_and!; [|done|done|].
  - intros p s k Hne. apply H2. intros key [= -> -> _]. done.
  - intros other Ha. destruct (kv_run_agree steps _ _ _ Ha) as [H5 H6]. rewrite E in H5, H6. done.
Qed.

End KvRuns.

(** ** Examples and behaviours *)

Definition kv_state : PluginState :=
  {| ps_plugin_id := "p"; ps_scope := "did:a"; ps_secrets := ∅; ps_capabilities := [KvRead; KvWrite]; ps_allowed_hosts := [] |}.

Definition kv_memory : list Z := str_bytes "k1k2value".

Definition kv_steps (key_ptr : Z) : list KvStep :=
  [{| s_memory := Some kv_memory; s_up := true; s_now := "t"; s_later := fun _ => "u"; s_call := CallSet key_ptr 2 4 5 0 |}].

Definition plain (e : Envelope) : list Z := match e with EnvOkBytes v => v | _ => [0] end.

Lemma kv_confined_witness :
  (kv_run plain (Some bump_alloc) ∅ {| g_state := kv_state; g_usage := no_usage; g_memory := None |} (kv_steps 0)).1.1
    !! ("p", "did:a", "k1") = Some (str_bytes "value", None)
  /\ (kv_run plain (Some bump_alloc) ∅ {| g_state := kv_state; g_usage := no_usage; g_memory := None |} (kv_steps 0)).1.1
    !! ("q", "did:a", "k1") = None.
Proof.
  split; [reflexivity|].
  assert (Forall small (kv_steps 0)) as Hs by (repeat constructor; unfold small; vm_compute; congruence).
  pose proof (kv_confined plain (Some bump_alloc) ∅ kv_state None (kv_steps 0) Hs ltac:(done)) as H.
  cbv zeta in H. revert H. generalize (kv_run plain (Some bump_alloc) ∅ {| g_state := kv_state; g_usage := no_usage; g_memory := None |} (kv_steps 0)).
  intros [[kv' g'] rs] [H _]. apply H. simpl. congruence.
Defined.

(** A value that is set is read back until it expires. *)
Lemma kv_set_get up later kv st u key value ttl_secs kv' u' now :
  kv_set up later kv st u key value ttl_secs = (kv', u', Ok tt) ->
  kv_get true kv' st key now
  = Ok (if match ttl_secs with Some n => String.ltb now (later n) | None => true end then Some value else None).
Proof.
  unfold kv_set. cbv zeta. destruct (_ <? _); [done|]. destruct (negb up); [done|]. intros [= <- _]. unfold kv_get, Kv. simpl.
  rewrite lookup_insert_eq. by destruct ttl_secs.
Qed.

(** The quota counts what one run writes, not what a scope holds: a second run
    stores as much again. *)
Lemma kv_quota_per_run (v : list Z) :
  Z.of_nat (length v) = MAX_KV_SIZE_PER_USER ->
  let '(kv1, _, r1) := kv_set true (fun _ => "") ∅ kv_state no_usage "k1" v None in
  let '(kv2, _, r2) := kv_set true (fun _ => "") kv1 kv_state no_usage "k2" v None in
  r1 = Ok tt /\ r2 = Ok tt /\ kv_get true kv2 kv_state "k1" "t" = Ok (Some v) /\ kv_get true kv2 kv_state "k2" "t" = Ok (Some v).
Proof.
  intros Hv.
  assert (forall kv key, kv_set true (fun _ => "") kv kv_state no_usage key v None
                         = (<[("p", "did:a", key) := (v, None)]> kv, count_kv no_usage (Z.of_nat (length v)), Ok tt)) as E.
  { intros kv key. unfold kv_set. cbv zeta. rewrite Hv. reflexivity. }
  rewrite E. cbv beta iota. rewrite E. cbv beta iota. unfold kv_get, Kv. simpl.
  rewrite lookup_insert_ne by congruence. by rewrite !lookup_insert_eq.
Qed.
