(* ===== verification/MetricsWindow.v ===== *)
(** * Rolling windows of metrics

    [src/metrics/window.rs]: rings of buckets that rotate on write, over the
    trait [Accumulate]; the quantile sketch of [src/metrics/sketch.rs]; and the
    two kinds of bucket, script runs ([Bucket]) and records
    ([src/metrics/ingest.rs]) with their stages ([src/metrics/stages.rs]).

    [Accumulate] is a class, as in the source, with its laws in a second class:
    what windows hold is proved of any lawful bucket, and both buckets are
    lawful.  Times are in seconds, durations in nanoseconds.  Sums saturate at
    the end of [u64]; counts, one per run or record, are not bounded.  The lists
    of sums by name are maps: each name is there once and their order is not
    used.  Which of its buckets a sketch counts a value in is computed in floating
    point and is a parameter. *)

From stdpp Require Import gmap strings list sorting.
From Stdlib Require Import ZArith NArith Lia.
From S2P Require Import Prelude RustStr.
#[local] Open Scope Z_scope.

(** ** Buckets *)

Class Accumulate (B S : Type) : Type := {
  bucket_default : B;
  add_sample : B -> S -> B;
  merge_from : B -> B -> B;
}.

Section Rings.
Context {B S : Type} `{Accumulate B S}.

(** ** Rings *)

Record Ring : Type := { width : Z; slots : list (option (Z * B)) }.

Definition ring_new (width : Z) (len : nat) : Ring := {| width := width; slots := replicate len None |}.

Definition start_of (r : Ring) (at_ : Z) : Z := at_ - at_ mod width r.
Definition slot_of (r : Ring) (start : Z) : nat := Z.to_nat ((start / width r) mod Z.of_nat (length (slots r))).

Definition set_slot (r : Ring) (i : nat) (x : Z * B) : Ring := {| width := width r; slots := <[i := Some x]> (slots r) |}.

Definition ring_add (r : Ring) (at_ : Z) (sample : S) : Ring :=
  let start := start_of r at_ in
  let i := slot_of r start in
  let fresh := set_slot r i (start, add_sample bucket_default sample) in
  match slots r !! i with
  | Some (Some (held, bucket)) => if held =? start then set_slot r i (held, add_sample bucket sample) else fresh
  | _ => fresh
  end.

Definition merge_bucket (r : Ring) (at_ : Z) (bucket : B) : Ring :=
  let start := start_of r at_ in
  let i := slot_of r start in
  match slots r !! i with
  | Some (Some (held, held_bucket)) =>
      if held =? start then set_slot r i (held, merge_from held_bucket bucket)
      else if start <? held then r
      else set_slot r i (start, bucket)
  | _ => set_slot r i (start, bucket)
  end.

(** [saturating_sub]. *)
Definition sat_sub (a b : Z) : Z := Z.max 0 (a - b).

Definition newest_start (r : Ring) (now : Z) : Z := start_of r now.
Definition oldest_start (r : Ring) (now secs : Z) : Z :=
  let held := sat_sub (newest_start r now) ((Z.of_nat (length (slots r)) - 1) * width r) in
  let overlapping := start_of r (sat_sub now (sat_sub secs 1)) in
  Z.max held overlapping.

(** [(oldest..=newest).step_by(width)]. *)
Definition steps (from to step : Z) : list Z :=
  (fun k => from + k * step) <$> seqZ 0 (if to <? from then 0 else (to - from) / step + 1).

Definition starts (r : Ring) (now secs : Z) : list Z := steps (oldest_start r now secs) (newest_start r now) (width r).

Definition ring_get (r : Ring) (start : Z) : option B :=
  match slots r !! slot_of r start with
  | Some (Some (held, bucket)) => if held =? start then Some bucket else None
  | _ => None
  end.

Definition merged (r : Ring) (now secs : Z) : B :=
  foldl (fun out start => match ring_get r start with Some bucket => merge_from out bucket | None => out end)
        bucket_default (starts r now secs).

Definition oldest_in (r : Ring) (now secs : Z) : option Z :=
  List.find (fun start => bool_decide (is_Some (ring_get r start))) (starts r now secs).

Definition ring_newest (r : Ring) : option Z :=
  foldr (fun slot m => match slot with
                       | Some (start, _) => Some (match m with Some n => Z.max start n | None => start end)
                       | None => m
                       end) None (slots r).

(** ** Histories *)

Definition MINUTE_SECS : Z := 60.
Definition HALF_HOUR_SECS : Z := 30 * 60.
Definition MINUTES_KEPT : nat := 60.
Definition HALF_HOURS_KEPT : nat := 48.

Record History : Type := { minutes : Ring; half_hours : Ring }.

Definition history_default : History :=
  {| minutes := ring_new MINUTE_SECS MINUTES_KEPT; half_hours := ring_new HALF_HOUR_SECS HALF_HOURS_KEPT |}.

Definition history_add (h : History) (at_ : Z) (sample : S) : History :=
  {| minutes := ring_add (minutes h) at_ sample; half_hours := ring_add (half_hours h) at_ sample |}.

Definition is_live (h : History) (now : Z) : bool :=
  match ring_newest (half_hours h) with
  | Some start => now <? start + HALF_HOUR_SECS * Z.of_nat HALF_HOURS_KEPT
  | None => false
  end.

(** A stored row read back: into the half hours, and into the minutes when these
    reach back to it. *)
Definition history_load (h : History) (minutes_from : Z) (start : Z) (bucket : B) : History :=
  {| minutes := if minutes_from <=? start then merge_bucket (minutes h) start bucket else minutes h;
     half_hours := merge_bucket (half_hours h) start bucket |}.

End Rings.
Arguments Ring : clear implicits.
Arguments History : clear implicits.

(** ** Sums by key *)

Section Sums.
Context {K V : Type} `{Countable K} (comb : V -> V -> V).

(** An entry takes on more by [comb]; a new key starts with what it is given. *)
Definition take_on (o : option V) (x : V) : V := match o with Some held => comb held x | None => x end.

Definition sums_add (m : gmap K V) (key : K) (x : V) : gmap K V := partial_alter (fun o => Some (take_on o x)) key m.

(** The loop of [merge] over the entries of the other. *)
Definition sums_merge (m other : gmap K V) : gmap K V := map_fold (fun key x m => sums_add m key x) m other.

End Sums.

(** Two totals under each name. *)
Definition NamedSums : Type := gmap string (N * N).

(** ** Sketches *)

Local Open Scope N_scope.

Definition U64_MAX : N := 2 ^ 64 - 1.
Definition sat_add (a b : N) : N := N.min (a + b) U64_MAX.

Record Sketch : Type := { sk_buckets : gmap Z N; sk_zeros : N; sk_count : N; sk_min : N; sk_max : N }.

Definition sketch_default : Sketch := {| sk_buckets := ∅; sk_zeros := 0; sk_count := 0; sk_min := 0; sk_max := 0 |}.

Section Sketches.
Variable index_of : N -> Z.

Definition sketch_insert (s : Sketch) (us : N) : Sketch :=
  {| sk_buckets := if us =? 0 then sk_buckets s else sums_add N.add (sk_buckets s) (index_of us) 1;
     sk_zeros := if us =? 0 then sk_zeros s + 1 else sk_zeros s;
     sk_count := sk_count s + 1;
     sk_min := if sk_count s =? 0 then us else N.min (sk_min s) us;
     sk_max := if sk_count s =? 0 then us else N.max (sk_max s) us |}.

End Sketches.

Definition sketch_merge (s other : Sketch) : Sketch :=
  if sk_count other =? 0 then s
  else {| sk_buckets := sums_merge N.add (sk_buckets s) (sk_buckets other);
          sk_zeros := sk_zeros s + sk_zeros other;
          sk_count := sk_count s + sk_count other;
          sk_min := if sk_count s =? 0 then sk_min other else N.min (sk_min s) (sk_min other);
          sk_max := if sk_count s =? 0 then sk_max other else N.max (sk_max s) (sk_max other) |}.

Definition sketch_max (s : Sketch) : option N := if 0 <? sk_count s then Some (sk_max s) else None.

(** ** Script runs *)

Definition micros (d : N) : N := N.min (d / 1000) U64_MAX.

Inductive Outcome : Type := OutOk | OutSyntax | OutRuntime | OutTimeout | OutMemory | OutMissingHandle | OutTrap | OutNoInterpreter | OutError.

Definition outcome_index (o : Outcome) : nat :=
  match o with
  | OutOk => 0 | OutSyntax => 1 | OutRuntime => 2 | OutTimeout => 3 | OutMemory => 4
  | OutMissingHandle => 5 | OutTrap => 6 | OutNoInterpreter => 7 | OutError => 8
  end%nat.

Definition OUTCOMES : list string :=
  ["ok"; "syntax"; "runtime"; "timeout"; "memory"; "missing_handle"; "trap"; "no_interpreter"; "error"].

Record RunTimings : Type := {
  t_instantiate : option N;
  t_link : option N;
  t_allocate : option N;
  t_teardown : option N;
  t_module_cache_hit : option bool;
  t_guest_call : option N;
  t_host_total : N;
  t_host_by_import : list (string * N * N);
  t_settle : option N;
  t_memory_peak_bytes : option N;
  t_instructions : option N;
}.

(** The call less the imports it made, never below zero. *)
Definition timings_guest (t : RunTimings) : option N := (fun call => call - t_host_total t) <$> t_guest_call t.

Record RunSample : Type := { rs_outcome : Outcome; rs_wall : N; rs_prepare : N; rs_timings : RunTimings }.

Record Bucket : Type := {
  b_runs : N;
  b_outcomes : list N;
  b_wall_us : N;
  b_prepare_us : N;
  b_instantiate_us : N;
  b_link_us : N;
  b_allocate_us : N;
  b_instantiated : N;
  b_teardown_us : N;
  b_torn_down : N;
  b_guest_us : N;
  b_host_us : N;
  b_called : N;
  b_settle_us : N;
  b_settled : N;
  b_host_imports : NamedSums;
  b_memory_peak_max : N;
  b_memory_peak_sum : N;
  b_memory_measured : N;
  b_instructions_sum : N;
  b_instructions_measured : N;
  b_cache_hits : N;
  b_cache_misses : N;
  b_wall : Sketch;
  b_guest : Sketch;
}.

Definition empty_bucket : Bucket :=
  {| b_runs := 0; b_outcomes := replicate (length OUTCOMES) 0; b_wall_us := 0; b_prepare_us := 0; b_instantiate_us := 0;
     b_link_us := 0; b_allocate_us := 0; b_instantiated := 0; b_teardown_us := 0; b_torn_down := 0; b_guest_us := 0;
     b_host_us := 0; b_called := 0; b_settle_us := 0; b_settled := 0; b_host_imports := ∅; b_memory_peak_max := 0;
     b_memory_peak_sum := 0; b_memory_measured := 0; b_instructions_sum := 0; b_instructions_measured := 0;
     b_cache_hits := 0; b_cache_misses := 0; b_wall := sketch_default; b_guest := sketch_default |}.

(** [if let Some(x) = o { sum.saturating_add(x) }] and the count beside it. *)
Definition add_if (sum : N) (o : option N) : N := match o with Some x => sat_add sum x | None => sum end.
Definition count_if {A} (n : N) (o : option A) : N := match o with Some _ => n + 1 | None => n end.

(** The sums of imports: time saturates, calls do not; kept as time and calls. *)
Definition import_comb (a b : N * N) : N * N := (sat_add a.1 b.1, a.2 + b.2).

Definition add_import (m : NamedSums) (i : string * N * N) : NamedSums := sums_add import_comb m i.1.1 (micros i.1.2, i.2).

Section RunBuckets.
Variable index_of : N -> Z.

Definition bucket_add (b : Bucket) (sample : RunSample) : Bucket :=
  let t := rs_timings sample in
  let wall := micros (rs_wall sample) in
  let guest := micros <$> timings_guest t in
  {| b_runs := b_runs b + 1;
     b_outcomes := alter (N.add 1) (outcome_index (rs_outcome sample)) (b_outcomes b);
     b_wall_us := sat_add (b_wall_us b) wall;
     b_prepare_us := sat_add (b_prepare_us b) (micros (rs_prepare sample));
     b_instantiate_us := add_if (b_instantiate_us b) (micros <$> t_instantiate t);
     b_link_us := add_if (b_link_us b) ((fun _ => micros (default 0 (t_link t))) <$> t_instantiate t);
     b_allocate_us := add_if (b_allocate_us b) ((fun d => micros (default d (t_allocate t))) <$> t_instantiate t);
     b_instantiated := count_if (b_instantiated b) (t_instantiate t);
     b_teardown_us := add_if (b_teardown_us b) (micros <$> t_teardown t);
     b_torn_down := count_if (b_torn_down b) (t_teardown t);
     b_guest_us := add_if (b_guest_us b) guest;
     b_host_us := add_if (b_host_us b) ((fun _ => micros (t_host_total t)) <$> guest);
     b_called := count_if (b_called b) guest;
     b_settle_us := add_if (b_settle_us b) (micros <$> t_settle t);
     b_settled := count_if (b_settled b) (t_settle t);
     b_host_imports := foldl add_import (b_host_imports b) (t_host_by_import t);
     b_memory_peak_max := N.max (b_memory_peak_max b) (default 0 (t_memory_peak_bytes t));
     b_memory_peak_sum := add_if (b_memory_peak_sum b) (t_memory_peak_bytes t);
     b_memory_measured := count_if (b_memory_measured b) (t_memory_peak_bytes t);
     b_instructions_sum := add_if (b_instructions_sum b) (t_instructions t);
     b_instructions_measured := count_if (b_instructions_measured b) (t_instructions t);
     b_cache_hits := b_cache_hits b + match t_module_cache_hit t with Some true => 1 | _ => 0 end;
     b_cache_misses := b_cache_misses b + match t_module_cache_hit t with Some false => 1 | _ => 0 end;
     b_wall := sketch_insert index_of (b_wall b) wall;
     b_guest := match guest with Some us => sketch_insert index_of (b_guest b) us | None => b_guest b end |}.

Definition bucket_merge (b other : Bucket) : Bucket :=
  {| b_runs := b_runs b + b_runs other;
     b_outcomes := zip_with N.add (b_outcomes b) (b_outcomes other);
     b_wall_us := sat_add (b_wall_us b) (b_wall_us other);
     b_prepare_us := sat_add (b_prepare_us b) (b_prepare_us other);
     b_instantiate_us := sat_add (b_instantiate_us b) (b_instantiate_us other);
     b_link_us := sat_add (b_link_us b) (b_link_us other);
     b_allocate_us := sat_add (b_allocate_us b) (b_allocate_us other);
     b_instantiated := b_instantiated b + b_instantiated other;
     b_teardown_us := sat_add (b_teardown_us b) (b_teardown_us other);
     b_torn_down := b_torn_down b + b_torn_down other;
     b_guest_us := sat_add (b_guest_us b) (b_guest_us other);
     b_host_us := sat_add (b_host_us b) (b_host_us other);
     b_called := b_called b + b_called other;
     b_settle_us := sat_add (b_settle_us b) (b_settle_us other);
     b_settled := b_settled b + b_settled other;
     b_host_imports := sums_merge import_comb (b_host_imports b) (b_host_imports other);
     b_memory_peak_max := N.max (b_memory_peak_max b) (b_memory_peak_max other);
     b_memory_peak_sum := sat_add (b_memory_peak_sum b) (b_memory_peak_sum other);
     b_memory_measured := b_memory_measured b + b_memory_measured other;
     b_instructions_sum := sat_add (b_instructions_sum b) (b_instructions_sum other);
     b_instructions_measured := b_instructions_measured b + b_instructions_measured other;
     b_cache_hits := b_cache_hits b + b_cache_hits other;
     b_cache_misses := b_cache_misses b + b_cache_misses other;
     b_wall := sketch_merge (b_wall b) (b_wall other);
     b_guest := sketch_merge (b_guest b) (b_guest other) |}.

#[export] Instance Bucket_accumulate : Accumulate Bucket RunSample :=
  {| bucket_default := empty_bucket; add_sample := bucket_add; merge_from := bucket_merge |}.

End RunBuckets.

(** ** Records *)

Inductive RecordDecision : Type := RdProceed | RdReplace | RdSkip | RdCidMismatch.

Definition decision_index (d : RecordDecision) : nat :=
  match d with RdProceed => 0 | RdReplace => 1 | RdSkip => 2 | RdCidMismatch => 3 end%nat.

Definition DECISIONS : list string := ["proceed"; "replace"; "skip"; "cid_mismatch"].

Record RecordSample : Type := {
  rec_decision : RecordDecision;
  rec_record : N;
  rec_script : option N;
  rec_stages : list (string * N);
  rec_failed : bool;
  rec_timed_out : bool;
  rec_dead_lettered : bool;
}.

Definition is_count (stage : string) : bool := ends_with "_skipped" stage.

(** The sums of stages: both totals saturate; kept as time and records. *)
Definition stage_comb (a b : N * N) : N * N := (sat_add a.1 b.1, sat_add a.2 b.2).

Definition stages_add (m : NamedSums) (s : string * N) : NamedSums :=
  sums_add stage_comb m s.1 (if is_count s.1 then 0 else micros s.2, 1).

Record IngestBucket : Type := {
  i_records : N;
  i_decisions : list N;
  i_failed : N;
  i_timeouts : N;
  i_dead_lettered : N;
  i_record_us : N;
  i_record : Sketch;
  i_script_us : N;
  i_scripted : N;
  i_stages : NamedSums;
}.

Definition empty_ingest : IngestBucket :=
  {| i_records := 0; i_decisions := replicate (length DECISIONS) 0; i_failed := 0; i_timeouts := 0; i_dead_lettered := 0;
     i_record_us := 0; i_record := sketch_default; i_script_us := 0; i_scripted := 0; i_stages := ∅ |}.

Definition b2n (b : bool) : N := if b then 1 else 0.

Section IngestBuckets.
Variable index_of : N -> Z.

Definition ingest_add (b : IngestBucket) (sample : RecordSample) : IngestBucket :=
  let record := micros (rec_record sample) in
  {| i_records := i_records b + 1;
     i_decisions := alter (N.add 1) (decision_index (rec_decision sample)) (i_decisions b);
     i_failed := i_failed b + b2n (rec_failed sample);
     i_timeouts := i_timeouts b + b2n (rec_timed_out sample);
     i_dead_lettered := i_dead_lettered b + b2n (rec_dead_lettered sample);
     i_record_us := sat_add (i_record_us b) record;
     i_record := sketch_insert index_of (i_record b) record;
     i_script_us := add_if (i_script_us b) (micros <$> rec_script sample);
     i_scripted := count_if (i_scripted b) (rec_script sample);
     i_stages := foldl stages_add (i_stages b) (rec_stages sample) |}.

Definition ingest_merge (b other : IngestBucket) : IngestBucket :=
  {| i_records := i_records b + i_records other;
     i_decisions := zip_with N.add (i_decisions b) (i_decisions other);
     i_failed := i_failed b + i_failed other;
     i_timeouts := i_timeouts b + i_timeouts other;
     i_dead_lettered := i_dead_lettered b + i_dead_lettered other;
     i_record_us := sat_add (i_record_us b) (i_record_us other);
     i_record := sketch_merge (i_record b) (i_record other);
     i_script_us := sat_add (i_script_us b) (i_script_us other);
     i_scripted := i_scripted b + i_scripted other;
     i_stages := sums_merge stage_comb (i_stages b) (i_stages other) |}.

#[export] Instance IngestBucket_accumulate : Accumulate IngestBucket RecordSample :=
  {| bucket_default := empty_ingest; add_sample := ingest_add; merge_from := ingest_merge |}.

End IngestBuckets.

Local Open Scope Z_scope.

(** ** The laws of a bucket *)

Class AccumulateLaws (B S : Type) `{Accumulate B S} : Type := {
  bucket_ok : B -> Prop;
  ok_default : bucket_ok bucket_default;
  ok_add b s : bucket_ok b -> bucket_ok (add_sample b s);
  add_comm b s s' : add_sample (add_sample b s) s' = add_sample (add_sample b s') s;
  merge_default b : bucket_ok b -> merge_from b bucket_default = b;
  merge_add b c s : bucket_ok c -> merge_from b (add_sample c s) = add_sample (merge_from b c) s;
}.

Section Lawful.
Context {B S : Type} `{AccumulateLaws B S}.

(** The bucket of some samples. *)
Definition gather (l : list S) : B := foldl add_sample bucket_default l.

Lemma gather_snoc l s : gather (l ++ [s]) = add_sample (gather l) s.
Proof. unfold gather. by rewrite foldl_app. Qed.

Lemma gather_ok l : bucket_ok (gather l).
Proof. induction l as [|s l IH] using rev_ind; [apply ok_default|]. rewrite gather_snoc. by apply ok_add. Qed.

Lemma merge_gather l1 l2 : merge_from (gather l1) (gather l2) = gather (l1 ++ l2).
Proof.
  induction l2 as [|s l2 IH] using rev_ind; [rewrite app_nil_r; apply merge_default, gather_ok|].
  rewrite gather_snoc, merge_add by apply gather_ok. by rewrite IH, app_assoc, gather_snoc.
Qed.

Lemma gather_perm l1 l2 : l1 ≡ₚ l2 -> gather l1 = gather l2.
Proof.
  unfold gather. generalize (bucket_default : B). intros b Hp. revert b.
  induction Hp as [|s l1 l2 _ IH|s s' l|l1 l2 l3 _ IH1 _ IH2]; intros b; simpl; [done|apply IH|by rewrite add_comm|by rewrite IH1].
Qed.
End Lawful.

(** ** Rings against the samples they were given *)

Section Windows.
Context {B S : Type} `{AccumulateLaws B S}.
#[local] Abbreviation Ring := (Ring B).

(** What happens to a ring: a sample at a time, or a stored bucket of samples read
    back. *)
Inductive RingOp : Type := OpAdd (at_ : Z) (sample : S) | OpMerge (at_ : Z) (samples : list S).

Definition op_time (op : RingOp) : Z := match op with OpAdd at_ _ | OpMerge at_ _ => at_ end.
Definition op_log (op : RingOp) : list (Z * S) :=
  match op with OpAdd at_ s => [(at_, s)] | OpMerge at_ l => (fun s => (at_, s)) <$> l end.
Definition ring_apply (r : Ring) (op : RingOp) : Ring :=
  match op with OpAdd at_ s => ring_add r at_ s | OpMerge at_ l => merge_bucket r at_ (gather l) end.

Definition span (r : Ring) : Z := Z.of_nat (length (slots r)) * width r.

(** No sample is added a whole turn of the ring after what came before it. *)
Fixpoint timely (r : Ring) (latest : Z) (ops : list RingOp) : Prop :=
  match ops with
  | [] => True
  | op :: ops =>
      0 <= op_time op
      /\ match op with OpAdd at_ _ => latest < start_of r at_ + span r | OpMerge _ _ => True end
      /\ timely r (Z.max latest (op_time op)) ops
  end.

Definition sound_ring (r : Ring) : Prop := 0 < width r /\ (0 < length (slots r))%nat.

Definition aligned (r : Ring) (h : Z) : Prop := exists k, 0 <= k /\ h = k * width r.

Lemma start_of_spec r at_ : sound_ring r -> 0 <= at_ -> aligned r (start_of r at_) /\ start_of r at_ <= at_ < start_of r at_ + width r.
Proof.
  intros [Hw _] Hat. unfold start_of, aligned. pose proof (Z.mod_pos_bound at_ (width r) Hw). split; [|lia].
  exists (at_ / width r). split; [by apply Z.div_pos|]. rewrite (Z.div_mod at_ (width r)) at 1; lia.
Qed.

Lemma aligned_start r h : sound_ring r -> aligned r h -> start_of r h = h /\ 0 <= h.
Proof. intros [Hw _] (k & Hk & ->). unfold start_of. rewrite Z.mod_mul by lia. split; [lia|nia]. Qed.

(** Aligned times less than a width apart are equal; in one slot, less than a turn. *)
Lemma aligned_close r h h' : sound_ring r -> aligned r h -> aligned r h' -> h <= h' < h + width r -> h = h'.
Proof. intros [Hw _] (k & _ & ->) (k' & _ & ->) Hc. assert (k' = k) as -> by nia. done. Qed.

Lemma same_slot r h h' :
  sound_ring r -> aligned r h -> aligned r h' -> slot_of r h = slot_of r h' -> h <= h' < h + span r -> h = h'.
Proof.
  intros [Hw Hl] (k & Hk & ->) (k' & Hk' & ->) Hs Hc. unfold slot_of, span in *. set (n := Z.of_nat (length (slots r))) in *.
  rewrite !Z.div_mul in Hs by lia.
  pose proof (Z.mod_pos_bound k n ltac:(lia)). pose proof (Z.mod_pos_bound k' n ltac:(lia)). apply Z2Nat.inj in Hs; [|lia|lia].
  pose proof (Z.div_mod k n ltac:(lia)). pose proof (Z.div_mod k' n ltac:(lia)).
  assert (k <= k' < k + n) by nia. assert (k / n = k' / n) by nia. f_equal. lia.
Qed.

Definition samples_in (r : Ring) (log : list (Z * S)) (h : Z) : list S :=
  snd <$> filter (fun x => start_of r x.1 = h) log.

Lemma samples_in_app r l1 l2 h : samples_in r (l1 ++ l2) h = samples_in r l1 h ++ samples_in r l2 h.
Proof. unfold samples_in. by rewrite filter_app, fmap_app. Qed.

Lemma samples_in_nil r log h : (forall x, x ∈ log -> start_of r x.1 <> h) -> samples_in r log h = [].
Proof.
  intros Hn. unfold samples_in. assert (filter (fun x => start_of r x.1 = h) log = []) as ->; [|done].
  induction log as [|x log IH]; [done|]. rewrite filter_cons_False by (apply Hn; left). apply IH. intros y Hy. apply Hn. by right.
Qed.

Lemma samples_in_op r op h : samples_in r (op_log op) h =
  if decide (start_of r (op_time op) = h) then match op with OpAdd _ s => [s] | OpMerge _ l => l end else [].
Proof.
  case_decide as E.
  - destruct op as [at_ s|at_ l]; simpl in *; unfold samples_in; [by rewrite filter_cons_True|].
    induction l as [|s l IH]; [done|]. rewrite fmap_cons, filter_cons_True by done. rewrite fmap_cons, IH. done.
  - apply samples_in_nil. intros x Hx. destruct op as [at_ s|at_ l]; simpl in *.
    + by apply list_elem_of_singleton in Hx as ->.
    + apply list_elem_of_fmap in Hx as (s & -> & _). done.
Qed.

(** The ring holds, in each slot, the newest span that was written to it, with all
    of its samples. *)
Record holds (r : Ring) (log : list (Z * S)) (latest : Z) : Prop := {
  holds_sound : sound_ring r;
  holds_times : forall x, x ∈ log -> 0 <= x.1;
  holds_slot : forall i h b, slots r !! i = Some (Some (h, b)) ->
    i = slot_of r h /\ aligned r h /\ h <= latest /\ b = gather (samples_in r log h);
  holds_newest : forall x, x ∈ log ->
    exists h b, slots r !! slot_of r (start_of r x.1) = Some (Some (h, b)) /\ start_of r x.1 <= h;
}.

Lemma holds_new width len : 0 < width -> (0 < len)%nat -> holds (ring_new width len) [] 0.
Proof.
  intros Hw Hl. constructor; [by split; simpl; rewrite ?length_replicate|by intros ? ?%not_elem_of_nil| |by intros ? ?%not_elem_of_nil].
  intros i h b. simpl. by intros [? _]%lookup_replicate.
Qed.

Lemma slot_lt (r : Ring) h : sound_ring r -> (slot_of r h < length (slots r))%nat.
Proof.
  intros [Hw Hl]. unfold slot_of. pose proof (Z.mod_pos_bound (h / width r) (Z.of_nat (length (slots r))) ltac:(lia)). lia.
Qed.

Lemma set_slot_start (r : Ring) i x at_ : start_of (set_slot r i x) at_ = start_of r at_.
Proof. done. Qed.
Lemma set_slot_slot (r : Ring) i x h : slot_of (set_slot r i x) h = slot_of r h.
Proof. unfold slot_of. simpl. by rewrite length_insert. Qed.
Lemma set_slot_samples (r : Ring) i x log h : samples_in (set_slot r i x) log h = samples_in r log h.
Proof. done. Qed.

(** Writing the span of an operation to its slot keeps the ring, unless the slot
    has a later one. *)
Lemma holds_put r log latest op :
  holds r log latest -> 0 <= op_time op ->
  (forall x, x ∈ log -> slot_of r (start_of r x.1) = slot_of r (start_of r (op_time op)) -> start_of r x.1 <= start_of r (op_time op)) ->
  let start := start_of r (op_time op) in
  holds (set_slot r (slot_of r start) (start, gather (samples_in r (log ++ op_log op) start))) (log ++ op_log op)
        (Z.max latest (op_time op)).
Proof.
  intros [Hr Ht Hs Hn] Hat Hle start. pose proof (start_of_spec r (op_time op) Hr Hat) as [Ha Hst]. fold start in Ha, Hst, Hle.
  assert (Htimes : forall x, x ∈ op_log op -> x.1 = op_time op).
  { intros x. destruct op as [at_ s|at_ l]; simpl; [by intros ->%list_elem_of_singleton|by intros (s & -> & _)%list_elem_of_fmap]. }
  constructor.
  - destruct Hr. split; simpl; by rewrite ?length_insert.
  - intros x [?|?%Htimes]%elem_of_app; [by apply Ht|congruence].
  - intros i h b. simpl. destruct (decide (i = slot_of r start)) as [->|Hne].
    + rewrite list_lookup_insert_eq by by apply slot_lt. intros [= <- <-]. rewrite set_slot_slot, set_slot_samples. split_and!; [done|done|lia|done].
    + rewrite list_lookup_insert_ne by done. intros (-> & Hal & Hla & ->)%Hs. rewrite set_slot_slot, set_slot_samples. split_and!; [done|done|lia|].
      rewrite samples_in_app, samples_in_op. case_decide as E; [|by rewrite app_nil_r]. by rewrite <- E in Hne.
  - intros x Hx. rewrite set_slot_slot, set_slot_start. simpl. destruct (decide (slot_of r (start_of r x.1) = slot_of r start)) as [E|Hne].
    + rewrite E, list_lookup_insert_eq by by apply slot_lt. do 2 eexists. split; [done|].
      apply elem_of_app in Hx as [?|Hx%Htimes]; [by apply Hle|]. by rewrite Hx.
    + rewrite list_lookup_insert_ne by done. apply elem_of_app in Hx as [?|Hx%Htimes]; [by apply Hn|]. by rewrite Hx in Hne.
Qed.

(** What the slot of a span says of the samples of the span. *)
Lemma held_samples r log latest start :
  holds r log latest -> aligned r start -> latest < start + span r ->
  match slots r !! slot_of r start with
  | Some (Some (h, b)) => h = start /\ b = gather (samples_in r log start)
                          \/ h < start /\ samples_in r log start = []
  | _ => samples_in r log start = []
  end.
Proof.
  intros [Hr Ht Hs Hn] Ha Hl.
  assert (Hnil : (forall h b, slots r !! slot_of r start = Some (Some (h, b)) -> h < start) -> samples_in r log start = []).
  { intros Hlt. apply samples_in_nil. intros x Hx E. destruct (Hn x Hx) as (h & b & Hh & Hle). rewrite E in *. specialize (Hlt h b Hh). lia. }
  destruct (slots r !! slot_of r start) as [[[h b]|]|] eqn:E; [|by apply Hnil; intros ? ? [=]..].
  destruct (Hs _ _ _ E) as (Hi & Hh & Hle & ->). destruct (decide (start <= h)) as [Hge|Hlt].
  - assert (start = h) as <- by (apply (same_slot r); [done|done|done|done|lia]). by left.
  - right. split; [lia|]. apply Hnil. intros h' b' [= <- _]. lia.
Qed.

Lemma slot_below r log latest x start :
  holds r log latest -> aligned r start -> x ∈ log -> slot_of r (start_of r x.1) = slot_of r start ->
  latest < start + span r -> start_of r x.1 <= start.
Proof.
  intros [Hr Ht Hs Hn] Ha Hx E Hl. destruct (Hn x Hx) as (h & b & Hh & Hle). destruct (Hs _ _ _ Hh) as (_ & _ & Hlt & _).
  destruct (decide (start_of r x.1 <= start)) as [|Hgt]; [done|].
  assert (start = start_of r x.1); [|lia]. apply (same_slot r); [done|done| |done|lia]. apply start_of_spec; [done|by apply Ht].
Qed.

Lemma holds_add r log latest at_ s :
  holds r log latest -> 0 <= at_ -> latest < start_of r at_ + span r ->
  holds (ring_add r at_ s) (log ++ [(at_, s)]) (Z.max latest at_).
Proof.
  intros Hh Hat Hl. pose proof (start_of_spec r at_ (holds_sound _ _ _ Hh) Hat) as [Ha _].
  pose proof (holds_put r log latest (OpAdd at_ s) Hh Hat) as Hput. simpl in Hput.
  rewrite samples_in_app in Hput. rewrite (samples_in_op r (OpAdd at_ s)) in Hput. simpl in Hput. rewrite decide_True in Hput by done.
  specialize (Hput (fun x Hx E => slot_below r log latest x (start_of r at_) Hh Ha Hx E Hl)). rewrite gather_snoc in Hput.
  pose proof (held_samples r log latest _ Hh Ha Hl) as Hc. unfold ring_add. cbv zeta.
  destruct (slots r !! slot_of r (start_of r at_)) as [[[h b]|]|]; [|by rewrite Hc in Hput..].
  destruct Hc as [[-> ->]|[Hlt Hc]]; [by rewrite Z.eqb_refl|]. destruct (Z.eqb_spec h (start_of r at_)); [lia|]. by rewrite Hc in Hput.
Qed.

(** A slot that holds a later span keeps it, and samples of the old span are no
    longer in the ring. *)
Lemma holds_merge r log latest at_ l :
  holds r log latest -> 0 <= at_ ->
  holds (merge_bucket r at_ (gather l)) (log ++ op_log (OpMerge at_ l)) (Z.max latest at_).
Proof.
  intros Hh Hat. pose proof Hh as [Hr Ht Hs Hn]. pose proof (start_of_spec r at_ Hr Hat) as [Ha Hst].
  pose proof (holds_put r log latest (OpMerge at_ l) Hh Hat) as Hput. cbn [op_time] in Hput. cbv zeta in Hput.
  rewrite samples_in_app in Hput. rewrite (samples_in_op r (OpMerge at_ l)) in Hput. cbn [op_time] in Hput. rewrite decide_True in Hput by done.
  set (start := start_of r at_) in *. unfold merge_bucket. cbv zeta. fold start.
  assert (Hold : (forall h b, slots r !! slot_of r start = Some (Some (h, b)) -> h < start) -> samples_in r log start = []).
  { intros Hlt. apply samples_in_nil. intros x Hx E. destruct (Hn x Hx) as (h & b & Hh' & Hle). rewrite E in *. specialize (Hlt h b Hh'). lia. }
  destruct (slots r !! slot_of r start) as [[[h b]|]|] eqn:E.
  2,3: rewrite Hold in Hput by (by intros ? ? [=]); apply Hput; intros x Hx Ex; destruct (Hn x Hx) as (h & b & Hh' & _); rewrite Ex, E in Hh'; done.
  destruct (Hs _ _ _ E) as (Hi & Hah & Hle & Hb). destruct (Z.eqb_spec h start) as [->|Hne].
  - rewrite Hb, merge_gather. apply Hput. intros x Hx Ex. destruct (Hn x Hx) as (h & b' & Hh' & Hle'). rewrite Ex, E in Hh'. by injection Hh' as <- _.
  - destruct (Z.ltb_spec start h) as [Hlt|Hge].
    + assert (Hother : forall h', (exists i b', slots r !! i = Some (Some (h', b'))) -> h' <> start).
      { intros h' (i & b' & Hi') ->. destruct (Hs _ _ _ Hi') as (-> & _ & _ & _). rewrite E in Hi'. injection Hi' as <- _. lia. }
      constructor; [done| | |].
      * intros x [?|Hx]%elem_of_app; [by apply Ht|]. apply list_elem_of_fmap in Hx as (s & -> & _). done.
      * intros i h' b' Hi'. destruct (Hs _ _ _ Hi') as (-> & ? & ? & ->). split_and!; [done|done|lia|].
        rewrite samples_in_app, samples_in_op. cbn [op_time]. rewrite decide_False; [by rewrite app_nil_r|].
        intros Es. apply (Hother h'); [by do 2 eexists|]. by rewrite <- Es.
      * intros x [?|Hx]%elem_of_app; [by apply Hn|]. apply list_elem_of_fmap in Hx as (s & -> & _). simpl. fold start. exists h, b. split; [done|lia].
    + rewrite Hold in Hput by (intros ? ? [= <- _]; lia). apply Hput. intros x Hx Ex. destruct (Hn x Hx) as (h' & b' & Hh' & Hle').
      rewrite Ex, E in Hh'. injection Hh' as <- _. lia.
Qed.

Lemma ring_apply_shape (r : Ring) op : width (ring_apply r op) = width r /\ length (slots (ring_apply r op)) = length (slots r).
Proof.
  destruct op as [at_ s|at_ l]; simpl; unfold ring_add, merge_bucket; cbv zeta; repeat case_match; simpl; rewrite ?length_insert; done.
Qed.

Lemma timely_shape (r r' : Ring) ops : forall latest,
  width r' = width r -> length (slots r') = length (slots r) -> timely r latest ops -> timely r' latest ops.
Proof.
  induction ops as [|op ops IH]; intros latest Hw Hl; [done|]. simpl. intros (H1 & H2 & H3). split_and!; [done| |by apply IH].
  destruct op; [|done]. unfold start_of, span in *. by rewrite Hw, Hl.
Qed.

Lemma holds_run ops : forall (r : Ring) log latest,
  holds r log latest -> timely r latest ops ->
  holds (foldl ring_apply r ops) (log ++ (ops ≫= op_log)) (foldl Z.max latest (op_time <$> ops)).
Proof.
  induction ops as [|op ops IH]; intros r log latest Hh Ht; simpl; [by rewrite app_nil_r|].
  destruct Ht as (H1 & H2 & H3). destruct (ring_apply_shape r op) as [Hw Hl]. apply (timely_shape _ _ _ _ Hw Hl) in H3.
  rewrite app_assoc. apply IH; [|done]. destruct op; [by apply holds_add|by apply holds_merge].
Qed.

(** ** Windows *)

Lemma elem_of_steps from to step k :
  0 < step -> (k ∈ steps from to step <-> exists j, 0 <= j /\ k = from + j * step /\ k <= to).
Proof.
  intros Hs. unfold steps. rewrite list_elem_of_fmap. setoid_rewrite elem_of_seqZ.
  pose proof (Z.div_mod (to - from) step ltac:(lia)). pose proof (Z.mod_pos_bound (to - from) step Hs).
  split.
  - intros (j & -> & Hj). exists j. destruct (Z.ltb_spec to from); [lia|]. split_and!; [lia|done|nia].
  - intros (j & Hj & -> & Hk). exists j. split; [done|]. destruct (Z.ltb_spec to from); [nia|]. nia.
Qed.

Lemma NoDup_steps from to step : 0 < step -> NoDup (steps from to step).
Proof. intros Hs. unfold steps. apply NoDup_fmap_2_strong; [|apply NoDup_seqZ]. intros x y _ _ Hxy. nia. Qed.

Lemma aligned_max r a b : aligned r a -> aligned r b -> aligned r (Z.max a b).
Proof. intros Ha Hb. destruct (Z.max_spec a b) as [[_ ->]|[_ ->]]; done. Qed.

Lemma oldest_aligned r now secs : sound_ring r -> 0 <= now -> aligned r (oldest_start r now secs).
Proof.
  intros Hr Hn. pose proof Hr as [Hw Hl]. unfold oldest_start, newest_start. cbv zeta. apply aligned_max.
  - destruct (start_of_spec r now Hr Hn) as [(k & Hk & E) _]. rewrite E. unfold sat_sub.
    exists (Z.max 0 (k - (Z.of_nat (length (slots r)) - 1))). split; [lia|].
    destruct (Z.max_spec 0 (k - (Z.of_nat (length (slots r)) - 1))) as [[? ->]|[? ->]]; nia.
  - apply start_of_spec; [done|]. unfold sat_sub. lia.
Qed.

(** A window's spans are those from its oldest to the one still open. *)
Lemma elem_of_starts r now secs h :
  sound_ring r -> 0 <= now -> aligned r h ->
  (h ∈ starts r now secs <-> oldest_start r now secs <= h <= newest_start r now).
Proof.
  intros Hr Hn Ha. unfold starts. rewrite elem_of_steps by apply Hr. destruct (oldest_aligned r now secs Hr Hn) as (k & Hk & E). rewrite E.
  destruct Ha as (k' & Hk' & ->). destruct Hr as [Hw _]. split.
  - intros (j & Hj & -> & Hle). nia.
  - intros [H1 H2]. exists (k' - k). split_and!; [nia|lia|done].
Qed.

Lemma starts_aligned r now secs h : sound_ring r -> 0 <= now -> h ∈ starts r now secs -> aligned r h.
Proof.
  intros Hr Hn. unfold starts. rewrite elem_of_steps by apply Hr. intros (j & Hj & -> & _).
  destruct (oldest_aligned r now secs Hr Hn) as (k & Hk & ->). exists (k + j). split; lia.
Qed.

(** What [get] answers for a span of a window. *)
Lemma get_samples r log latest now secs h :
  holds r log latest -> latest <= now -> 0 <= now -> h ∈ starts r now secs ->
  match ring_get r h with
  | Some b => b = gather (samples_in r log h)
  | None => samples_in r log h = []
  end.
Proof.
  intros Hh Hl Hn Hin. pose proof (holds_sound _ _ _ Hh) as Hr. pose proof (starts_aligned _ _ _ _ Hr Hn Hin) as Ha.
  apply (elem_of_starts _ _ _ _ Hr Hn Ha) in Hin as [Ho _]. destruct (start_of_spec r now Hr Hn) as [_ Hnow].
  assert (latest < h + span r) as Hlt.
  { unfold oldest_start, newest_start, sat_sub, span in *. cbv zeta in Ho. lia. }
  pose proof (held_samples r log latest h Hh Ha Hlt) as Hc. unfold ring_get.
  destruct (slots r !! slot_of r h) as [[[h' b]|]|]; [|done|done].
  destruct Hc as [[-> ->]|[? ?]]; [by rewrite Z.eqb_refl|]. by destruct (Z.eqb_spec h' h); [lia|].
Qed.

Lemma filter_split {A} (f : A -> Z) k ks (l : list A) :
  k ∉ ks -> filter (fun x => f x ∈ k :: ks) l ≡ₚ filter (fun x => f x = k) l ++ filter (fun x => f x ∈ ks) l.
Proof.
  intros Hk. induction l as [|x l IH]; [done|]. destruct (decide (f x = k)) as [E|Hne].
  - rewrite filter_cons_True by (rewrite E; left). rewrite (filter_cons_True (fun x => f x = k)) by done.
    rewrite (filter_cons_False (fun x => f x ∈ ks)) by (by rewrite E). simpl. by rewrite IH.
  - rewrite (filter_cons_False (fun x => f x = k)) by done. destruct (decide (f x ∈ ks)) as [Hin|Hin].
    + rewrite filter_cons_True by (by right). rewrite (filter_cons_True (fun x => f x ∈ ks)) by done. rewrite IH. by rewrite Permutation_middle.
    + rewrite filter_cons_False by (by intros [?|?]%elem_of_cons). by rewrite (filter_cons_False (fun x => f x ∈ ks)).
Qed.

Lemma samples_in_concat r log ks :
  NoDup ks -> (ks ≫= samples_in r log) ≡ₚ snd <$> filter (fun x => start_of r x.1 ∈ ks) log.
Proof.
  induction 1 as [|k ks Hk _ IH]; simpl.
  - assert (filter (fun x : Z * S => start_of r x.1 ∈ []) log = []) as ->; [|done].
    clear. induction log as [|x log IH]; [done|]. rewrite filter_cons_False; [done|]. apply not_elem_of_nil.
  - rewrite (filter_split (fun x : Z * S => start_of r x.1) k ks log Hk), fmap_app. by rewrite IH.
Qed.

Lemma fold_gather r log hs : forall acc,
  (forall h, h ∈ hs -> match ring_get r h with Some b => b = gather (samples_in r log h) | None => samples_in r log h = [] end) ->
  foldl (fun out h => match ring_get r h with Some b => merge_from out b | None => out end) (gather acc) hs
  = gather (acc ++ (hs ≫= samples_in r log)).
Proof.
  induction hs as [|h hs IH]; intros acc Hall; simpl; [by rewrite app_nil_r|].
  pose proof (Hall h ltac:(left)) as Hg. destruct (ring_get r h) as [b|].
  - rewrite Hg, merge_gather, IH by (intros h' ?; apply Hall; by right). by rewrite app_assoc.
  - rewrite IH by (intros h' ?; apply Hall; by right). by rewrite Hg.
Qed.

Lemma merged_gather r log latest now secs :
  holds r log latest -> latest <= now -> 0 <= now ->
  merged r now secs = gather (starts r now secs ≫= samples_in r log).
Proof. intros Hh Hl Hn. apply (fold_gather r log _ []). intros h Hin. by eapply get_samples. Qed.

(** The samples of a window: those not before its oldest span. *)
Definition since (from : Z) (log : list (Z * S)) : list S := snd <$> filter (fun x => from <= x.1) log.

Lemma filter_iff_in {A} (P Q : A -> Prop) `{!forall x, Decision (P x), !forall x, Decision (Q x)} (l : list A) :
  (forall x, x ∈ l -> (P x <-> Q x)) -> filter P l = filter Q l.
Proof.
  induction l as [|x l IH]; intros Hl; [done|]. specialize (IH (fun y Hy => Hl y ltac:(by right))). pose proof (Hl x ltac:(left)) as Hx.
  destruct (decide (P x)); [rewrite !filter_cons_True by tauto|rewrite !filter_cons_False by tauto]; by rewrite IH.
Qed.

Lemma window_samples r log now secs :
  sound_ring r -> 0 <= now -> (forall x, x ∈ log -> 0 <= x.1 <= now) ->
  (starts r now secs ≫= samples_in r log) ≡ₚ since (oldest_start r now secs) log.
Proof.
  intros Hr Hn Hlog. unfold starts. rewrite samples_in_concat by (apply NoDup_steps, Hr). fold (starts r now secs). unfold since.
  assert (filter (fun x : Z * S => start_of r x.1 ∈ starts r now secs) log = filter (fun x => oldest_start r now secs <= x.1) log) as ->; [|done].
  apply filter_iff_in. intros x Hx. destruct (Hlog x Hx) as [H1 H2]. destruct (start_of_spec r x.1 Hr H1) as [Ha Hb].
  rewrite (elem_of_starts r now secs _ Hr Hn Ha). destruct (oldest_aligned r now secs Hr Hn) as (k & Hk & E).
  destruct (start_of_spec r now Hr Hn) as [(k1 & Hk1 & E1) Hb1]. destruct Ha as (k2 & Hk2 & E2). unfold newest_start. destruct Hr as [Hw _].
  rewrite E, E1, E2 in *. clear E E1 E2. split; [intros []; lia|]. intros Hle. assert (k < k2 + 1 /\ k2 < k1 + 1) by nia. nia.
Qed.

Lemma latest_max l : forall n m, foldl Z.max n l <= m <-> n <= m /\ Forall (fun x => x <= m) l.
Proof.
  induction l as [|x l IH]; intros n m; simpl; [split; [done|by intros [? _]]|]. rewrite IH, Forall_cons. split; [intros [??]|intros (? & ? & ?)]; split_and!; done || lia.
Qed.

Lemma timely_times (r : Ring) ops : forall latest, timely r latest ops -> forall x, x ∈ (ops ≫= op_log) -> 0 <= x.1 /\ exists op, op ∈ ops /\ x.1 = op_time op.
Proof.
  induction ops as [|op ops IH]; intros latest Ht x; simpl; [by intros ?%not_elem_of_nil|]. destruct Ht as (H1 & _ & H3).
  intros [Hx|Hx]%elem_of_app.
  - assert (x.1 = op_time op) as ->; [|split; [done|]; exists op; split; [left|done]].
    destruct op as [at_ s|at_ l]; simpl in Hx; [by apply list_elem_of_singleton in Hx as ->|by apply list_elem_of_fmap in Hx as (s & -> & _)].
  - destruct (IH _ H3 x Hx) as (H4 & op' & H5 & H6). split; [done|]. exists op'. split; [by right|done].
Qed.

(** A ring's windows hold exactly the samples of their time. *)
Lemma ring_window width len ops now secs :
  0 < width -> (0 < len)%nat -> 0 <= now ->
  let r0 : Ring := ring_new width len in
  timely r0 0 ops -> Forall (fun op => op_time op <= now) ops ->
  let r := foldl ring_apply r0 ops in
  merged r now secs = gather (since (oldest_start r now secs) (ops ≫= op_log)).
Proof.
  intros Hw Hl Hn r0 Ht Hle r. subst r. pose proof (holds_run ops r0 [] 0 (holds_new width len Hw Hl) Ht) as Hh. rewrite app_nil_l in Hh.
  assert (foldl Z.max 0 (op_time <$> ops) <= now) as Hlat by (apply latest_max; split; [done|by apply Forall_fmap]).
  rewrite (merged_gather _ _ _ now secs Hh Hlat Hn). apply gather_perm.
  apply window_samples; [apply (holds_sound _ _ _ Hh)|done|].
  intros x Hx. destruct (timely_times r0 ops 0 Ht x Hx) as (H1 & op & Hop & E). split; [done|]. rewrite Forall_forall in Hle. rewrite E. by apply Hle.
Qed.

(** ** Histories *)

Inductive HistoryOp : Type := HAdd (at_ : Z) (sample : S) | HLoad (minutes_from start : Z) (samples : list S).

Definition history_apply (h : History B) (op : HistoryOp) : History B :=
  match op with
  | HAdd at_ s => history_add h at_ s
  | HLoad minutes_from start l => history_load h minutes_from start (gather l)
  end.

Definition half_hour_op (op : HistoryOp) : RingOp :=
  match op with HAdd at_ s => OpAdd at_ s | HLoad _ start l => OpMerge start l end.
Definition minute_op (op : HistoryOp) : option RingOp :=
  match op with
  | HAdd at_ s => Some (OpAdd at_ s)
  | HLoad minutes_from start l => if minutes_from <=? start then Some (OpMerge start l) else None
  end.
Definition history_time (op : HistoryOp) : Z := match op with HAdd at_ _ => at_ | HLoad _ start _ => start end.

(** What a history was told, and the part of it the minutes were. *)
Definition told (ops : list HistoryOp) : list (Z * S) := ops ≫= (fun op => op_log (half_hour_op op)).
Definition minutes_told (ops : list HistoryOp) : list (Z * S) := ops ≫= (fun op => default [] (op_log <$> minute_op op)).

(** No run is recorded 59 minutes or more after one that is later. *)
Fixpoint prompt (latest : Z) (ops : list HistoryOp) : Prop :=
  match ops with
  | [] => True
  | op :: ops =>
      0 <= history_time op
      /\ match op with HAdd at_ _ => latest < at_ + 59 * MINUTE_SECS | HLoad _ _ _ => True end
      /\ prompt (Z.max latest (history_time op)) ops
  end.

Lemma history_rings ops : forall h,
  minutes (foldl history_apply h ops) = foldl ring_apply (minutes h) (omap minute_op ops)
  /\ half_hours (foldl history_apply h ops) = foldl ring_apply (half_hours h) (half_hour_op <$> ops).
Proof.
  induction ops as [|op ops IH]; intros h; [done|]. cbn [foldl omap list_omap fmap list_fmap]. destruct (IH (history_apply h op)) as [-> ->].
  destruct op as [at_ s|minutes_from start l]; [done|]. simpl. by destruct (minutes_from <=? start).
Qed.

Lemma start_of_gt (r : Ring) at_ : 0 < width r -> at_ - width r < start_of r at_.
Proof. intros Hw. unfold start_of. pose proof (Z.mod_pos_bound at_ (width r) Hw). lia. Qed.

Lemma timely_lower (r : Ring) ops : forall l1 l2, l1 <= l2 -> timely r l2 ops -> timely r l1 ops.
Proof.
  induction ops as [|op ops IH]; intros l1 l2 Hl; [done|]. simpl. intros (H1 & H2 & H3). split_and!; [done| |by eapply IH; [|done]; lia].
  destruct op; [lia|done].
Qed.

Lemma prompt_timely ops : forall latest,
  prompt latest ops ->
  timely (minutes (history_default : History B)) latest (omap minute_op ops)
  /\ timely (half_hours (history_default : History B)) latest (half_hour_op <$> ops).
Proof.
  induction ops as [|op ops IH]; intros latest; [done|]. intros (H1 & H2 & H3). destruct (IH _ H3) as [IH1 IH2].
  cbn [omap list_omap fmap list_fmap]. unfold MINUTE_SECS in H2. destruct op as [at_ s|minutes_from start l]; cbn [minute_op half_hour_op history_time] in *.
  - pose proof (start_of_gt (minutes (history_default : History B)) at_ ltac:(done)).
    pose proof (start_of_gt (half_hours (history_default : History B)) at_ ltac:(done)).
    split; (split; [done|split; [|done]]); unfold span; simpl in *; unfold MINUTE_SECS, HALF_HOUR_SECS in *; lia.
  - split; [|by split_and!]. destruct (minutes_from <=? start); [by split_and!|]. eapply timely_lower; [|exact IH1]. lia.
Qed.

(** (C33) A window holds exactly the samples of its time.  Whatever runs are recorded
    and stored rows read back, in whatever order as long as no run is recorded 59
    minutes or more after a later one, and read at a time no sample is later than:
    merging a window's buckets gives the bucket of exactly the samples since the
    start of the window's oldest span - rounded down to the bucket, and no further
    back than the ring keeps -, each counted once, in the minutes and in the half
    hours. *)
Theorem windows_exact (ops : list HistoryOp) (now secs : Z) :
  prompt 0 ops -> Forall (fun op => history_time op <= now) ops -> 0 <= now ->
  let h := foldl history_apply history_default ops in
  merged (minutes h) now secs = gather (since (oldest_start (minutes h) now secs) (minutes_told ops))
  /\ merged (half_hours h) now secs = gather (since (oldest_start (half_hours h) now secs) (told ops)).
Proof.
  intros Hp Hle Hn h. destruct (history_rings ops history_default) as [E1 E2]. destruct (prompt_timely ops 0 Hp) as [T1 T2].
  assert (minutes_told ops = omap minute_op ops ≫= op_log) as ->.
  { unfold minutes_told. clear. induction ops as [|op ops IH]; [done|]. rewrite bind_cons, IH. cbn [omap list_omap]. by destruct (minute_op op). }
  assert (told ops = (half_hour_op <$> ops) ≫= op_log) as ->.
  { unfold told. clear. induction ops as [|op ops IH]; [done|]. by rewrite fmap_cons, !bind_cons, IH. }
  unfold h. rewrite E1, E2. split.
  - apply ring_window; [done|unfold MINUTES_KEPT; lia|done|done|]. apply Forall_forall. intros op Hop. apply list_elem_of_omap in Hop as (o & Ho & E).
    rewrite Forall_forall in Hle. specialize (Hle o Ho). destruct o; simpl in *; [by injection E as <-|]. case_match; [by injection E as <-|done].
  - apply ring_window; [done|unfold HALF_HOURS_KEPT; lia|done|done|]. apply Forall_fmap. eapply Forall_impl; [exact Hle|]. by intros [].
Qed.
End Windows.

(** ** Both buckets are lawful *)

Local Open Scope N_scope.

Section SumLaws.
Context {K V : Type} `{Countable K} (comb : V -> V -> V) `{!Assoc (=) comb, !Comm (=) comb}.

Lemma lookup_sums_add (m : gmap K V) key x k :
  sums_add comb m key x !! k = if decide (key = k) then Some (take_on comb (m !! k) x) else m !! k.
Proof. unfold sums_add. case_decide as E; [subst; by rewrite lookup_partial_alter_eq|by rewrite lookup_partial_alter_ne]. Qed.

Lemma take_on_comm o x y : take_on comb (Some (take_on comb o x)) y = take_on comb (Some (take_on comb o y)) x.
Proof. destruct o as [h|]; simpl; [|apply (comm_L comb)]. by rewrite <- !(assoc_L comb), (comm_L comb x). Qed.

Lemma sums_add_comm (m : gmap K V) k1 x1 k2 x2 :
  sums_add comb (sums_add comb m k1 x1) k2 x2 = sums_add comb (sums_add comb m k2 x2) k1 x1.
Proof.
  apply map_eq. intros k. rewrite !lookup_sums_add. repeat case_decide; subst; try done. by rewrite take_on_comm.
Qed.

Lemma lookup_sums_merge (m other : gmap K V) k :
  sums_merge comb m other !! k = match other !! k with Some x => Some (take_on comb (m !! k) x) | None => m !! k end.
Proof.
  unfold sums_merge. apply (map_fold_weak_ind (fun r o => forall k, r !! k = match o !! k with Some x => Some (take_on comb (m !! k) x) | None => m !! k end));
    [intros k'; by rewrite lookup_empty|].
  clear k. intros key x o r Hk Hr k. rewrite lookup_sums_add. case_decide as E; [subst k|by rewrite lookup_insert_ne].
  by rewrite lookup_insert_eq, Hr, Hk.
Qed.

Lemma sums_merge_empty (m : gmap K V) : sums_merge comb m ∅ = m.
Proof. apply map_eq. intros k. by rewrite lookup_sums_merge, lookup_empty. Qed.

Lemma sums_merge_add (m other : gmap K V) key x : sums_merge comb m (sums_add comb other key x) = sums_add comb (sums_merge comb m other) key x.
Proof.
  apply map_eq. intros k. rewrite lookup_sums_merge, !lookup_sums_add, lookup_sums_merge. case_decide; [|done]. f_equal.
  destruct (other !! k) as [y|], (m !! k) as [h|]; simpl; [|done..]. by rewrite (assoc_L comb).
Qed.

(** The same for a list of entries. *)
Context {E : Type} (key_of : E -> K) (val_of : E -> V).

Lemma sums_fold_add (l : list E) : forall (m : gmap K V) k x,
  foldl (fun m e => sums_add comb m (key_of e) (val_of e)) (sums_add comb m k x) l
  = sums_add comb (foldl (fun m e => sums_add comb m (key_of e) (val_of e)) m l) k x.
Proof. induction l as [|e l IH]; intros m k x; [done|]. simpl. by rewrite sums_add_comm, IH. Qed.

Lemma sums_fold_comm (l1 l2 : list E) (m : gmap K V) :
  foldl (fun m e => sums_add comb m (key_of e) (val_of e)) (foldl (fun m e => sums_add comb m (key_of e) (val_of e)) m l1) l2
  = foldl (fun m e => sums_add comb m (key_of e) (val_of e)) (foldl (fun m e => sums_add comb m (key_of e) (val_of e)) m l2) l1.
Proof. revert m. induction l1 as [|e l1 IH]; intros m; [done|]. simpl. by rewrite IH, sums_fold_add. Qed.

Lemma sums_fold_merge (l : list E) (m other : gmap K V) :
  sums_merge comb m (foldl (fun m e => sums_add comb m (key_of e) (val_of e)) other l)
  = foldl (fun m e => sums_add comb m (key_of e) (val_of e)) (sums_merge comb m other) l.
Proof. revert other. induction l as [|e l IH]; intros other; [done|]. simpl. by rewrite IH, sums_merge_add. Qed.
End SumLaws.

Lemma sat_add_comm a b : sat_add a b = sat_add b a.
Proof. unfold sat_add. by rewrite N.add_comm. Qed.
Lemma sat_add_assoc a b c : sat_add a (sat_add b c) = sat_add (sat_add a b) c.
Proof. unfold sat_add, U64_MAX. lia. Qed.
Lemma sat_add_swap a x y : sat_add (sat_add a x) y = sat_add (sat_add a y) x.
Proof. by rewrite <- !sat_add_assoc, (sat_add_comm x). Qed.
Lemma sat_add_0 a : a <= U64_MAX -> sat_add a 0 = a.
Proof. unfold sat_add. lia. Qed.
Lemma sat_add_le a b : sat_add a b <= U64_MAX.
Proof. unfold sat_add. lia. Qed.

#[export] Instance import_comb_assoc : Assoc (=) import_comb.
Proof. intros [a1 a2] [b1 b2] [c1 c2]. unfold import_comb. simpl. by rewrite sat_add_assoc, N.add_assoc. Qed.
#[export] Instance import_comb_comm : Comm (=) import_comb.
Proof. intros [a1 a2] [b1 b2]. unfold import_comb. simpl. by rewrite sat_add_comm, N.add_comm. Qed.
#[export] Instance stage_comb_assoc : Assoc (=) stage_comb.
Proof. intros [a1 a2] [b1 b2] [c1 c2]. unfold stage_comb. simpl. by rewrite !sat_add_assoc. Qed.
#[export] Instance stage_comb_comm : Comm (=) stage_comb.
Proof. intros [a1 a2] [b1 b2]. unfold stage_comb. simpl. f_equal; apply sat_add_comm. Qed.

Lemma add_if_swap a o o' : add_if (add_if a o) o' = add_if (add_if a o') o.
Proof. destruct o, o'; simpl; [apply sat_add_swap|done..]. Qed.
Lemma add_if_merge a b o : sat_add a (add_if b o) = add_if (sat_add a b) o.
Proof. destruct o; simpl; [apply sat_add_assoc|done]. Qed.
Lemma add_if_le a o : a <= U64_MAX -> add_if a o <= U64_MAX.
Proof. destruct o; simpl; [intros _; apply sat_add_le|done]. Qed.
Lemma count_if_swap {A C} n (o : option A) (o' : option C) : count_if (count_if n o) o' = count_if (count_if n o') o.
Proof. by destruct o, o'. Qed.
Lemma count_if_merge {A} a b (o : option A) : a + count_if b o = count_if (a + b) o.
Proof. destruct o; simpl; lia. Qed.
Lemma add_swap a x y : a + x + y = a + y + x.
Proof. lia. Qed.
Lemma max_swap a x y : N.max (N.max a x) y = N.max (N.max a y) x.
Proof. lia. Qed.

Lemma counts_swap (l : list N) i j : alter (N.add 1) j (alter (N.add 1) i l) = alter (N.add 1) i (alter (N.add 1) j l).
Proof. revert i j. induction l as [|x l IH]; intros [|i] [|j]; simpl; [done..|]. f_equal. apply IH. Qed.

Lemma counts_merge (l1 l2 : list N) i : zip_with N.add l1 (alter (N.add 1) i l2) = alter (N.add 1) i (zip_with N.add l1 l2).
Proof.
  revert i l2. induction l1 as [|x l1 IH]; intros i l2; [done|]. destruct l2 as [|y l2]; [done|]. destruct i as [|i]; simpl; [f_equal; lia|].
  f_equal. apply IH.
Qed.

Lemma counts_zero (l : list N) n : length l = n -> zip_with N.add l (replicate n 0) = l.
Proof. intros <-. induction l as [|x l IH]; [done|]. simpl. f_equal; [lia|done]. Qed.

(** *** Sketches *)

Section SketchLaws.
Variable index_of : N -> Z.
#[local] Abbreviation sketch_insert := (sketch_insert index_of).

(** A sketch that counted nothing is empty. *)
Definition sketch_ok (s : Sketch) : Prop := sk_count s = 0 -> s = sketch_default.

Lemma sketch_insert_ok s us : sketch_ok (sketch_insert s us).
Proof. unfold sketch_ok. simpl. lia. Qed.

Lemma sketch_insert_swap s x y : sketch_insert (sketch_insert s x) y = sketch_insert (sketch_insert s y) x.
Proof.
  unfold MetricsWindow.sketch_insert. cbn [sk_buckets sk_zeros sk_count sk_min sk_max].
  replace (sk_count s + 1 =? 0) with false by (symmetry; apply N.eqb_neq; lia).
  f_equal; [destruct (x =? 0), (y =? 0); try done; apply sums_add_comm|destruct (x =? 0), (y =? 0); lia|..]; try apply _;
    destruct (sk_count s =? 0); lia.
Qed.

Lemma sketch_merge_insert s c us : sketch_ok c -> sketch_merge s (sketch_insert c us) = sketch_insert (sketch_merge s c) us.
Proof.
  intros Hc. unfold sketch_merge. cbn [sk_buckets sk_zeros sk_count sk_min sk_max MetricsWindow.sketch_insert].
  replace (sk_count c + 1 =? 0) with false by (symmetry; apply N.eqb_neq; lia).
  destruct (N.eqb_spec (sk_count c) 0) as [E|E].
  - rewrite (Hc E). unfold MetricsWindow.sketch_insert. simpl. f_equal.
    + destruct (us =? 0); [by rewrite sums_merge_empty|]. rewrite sums_merge_add by apply _. by rewrite sums_merge_empty.
    + destruct (us =? 0); lia.
  - unfold MetricsWindow.sketch_insert. cbn [sk_buckets sk_zeros sk_count sk_min sk_max].
    replace (sk_count s + sk_count c =? 0) with false by (symmetry; apply N.eqb_neq; lia). f_equal.
    + destruct (us =? 0); [done|]. by rewrite sums_merge_add by apply _.
    + destruct (us =? 0); lia.
    + lia.
    + destruct (sk_count s =? 0); lia.
    + destruct (sk_count s =? 0); lia.
Qed.

Lemma sketch_merge_default s : sketch_merge s sketch_default = s.
Proof. done. Qed.
End SketchLaws.

Create HintDb buckets.
#[local] Hint Resolve sat_add_swap add_if_swap count_if_swap add_swap max_swap counts_swap sketch_insert_swap : buckets.
#[local] Hint Resolve sat_add_assoc add_if_merge count_if_merge N.add_assoc N.max_assoc counts_merge sketch_merge_insert : buckets.
#[local] Hint Resolve sat_add_le add_if_le sketch_insert_ok sat_add_0 N.add_0_r N.max_0_r : buckets.

(** *** Script runs *)

Section RunLaws.
Variable index_of : N -> Z.
#[local] Existing Instance Bucket_accumulate.

Definition run_sums (b : Bucket) : list N :=
  [b_wall_us b; b_prepare_us b; b_instantiate_us b; b_link_us b; b_allocate_us b; b_teardown_us b; b_guest_us b;
   b_host_us b; b_settle_us b; b_memory_peak_sum b; b_instructions_sum b].

Definition run_ok (b : Bucket) : Prop :=
  length (b_outcomes b) = length OUTCOMES /\ Forall (fun n => n <= U64_MAX) (run_sums b) /\ sketch_ok (b_wall b) /\ sketch_ok (b_guest b).

Lemma run_add_ok b s : run_ok b -> run_ok (bucket_add index_of b s).
Proof.
  intros (H1 & H2 & H3 & H4). unfold run_ok, run_sums in *. rewrite !Forall_cons in H2. destruct_and! H2. cbn [bucket_add b_outcomes b_wall b_guest].
  split_and!; [by rewrite length_alter| |apply sketch_insert_ok|].
  - rewrite !Forall_cons. split_and!; try apply Forall_nil; done || (simpl; auto with buckets).
  - destruct (micros <$> _); [apply sketch_insert_ok|done].
Qed.

Lemma run_add_comm b s s' : bucket_add index_of (bucket_add index_of b s) s' = bucket_add index_of (bucket_add index_of b s') s.
Proof.
  unfold bucket_add. cbn -[N.add]. f_equal; auto with buckets.
  - apply (sums_fold_comm import_comb (fun i : string * N * N => i.1.1) (fun i => (micros i.1.2, i.2))).
  - destruct (micros <$> timings_guest (rs_timings s)), (micros <$> timings_guest (rs_timings s')); auto with buckets.
Qed.

Lemma run_merge_default b : run_ok b -> bucket_merge b empty_bucket = b.
Proof.
  intros (H1 & H2 & H3 & H4). unfold run_sums in H2. rewrite !Forall_cons in H2. destruct_and! H2. destruct b. unfold bucket_merge. simpl in *.
  f_equal; auto with buckets; first [apply sums_merge_empty|exact (counts_zero _ _ H1)].
Qed.

Lemma run_merge_add b c s : run_ok c -> bucket_merge b (bucket_add index_of c s) = bucket_add index_of (bucket_merge b c) s.
Proof.
  intros (_ & _ & H3 & H4). unfold bucket_merge, bucket_add. cbn -[N.add]. f_equal; auto with buckets.
  - apply (sums_fold_merge import_comb (fun i : string * N * N => i.1.1) (fun i => (micros i.1.2, i.2))).
  - destruct (micros <$> timings_guest (rs_timings s)); auto with buckets.
Qed.

#[export] Instance Bucket_laws : @AccumulateLaws Bucket RunSample (Bucket_accumulate index_of).
Proof.
  refine (@Build_AccumulateLaws _ _ (Bucket_accumulate index_of) run_ok _ run_add_ok run_add_comm run_merge_default run_merge_add).
  split; [done|]. split; [|by split; intros _]. repeat constructor; done.
Defined.

End RunLaws.

(** *** Records *)

Section IngestLaws.
Variable index_of : N -> Z.

Definition ingest_ok (b : IngestBucket) : Prop :=
  length (i_decisions b) = length DECISIONS /\ i_record_us b <= U64_MAX /\ i_script_us b <= U64_MAX /\ sketch_ok (i_record b).

Lemma ingest_add_ok b s : ingest_ok b -> ingest_ok (ingest_add index_of b s).
Proof.
  intros (H1 & H2 & H3 & H4). split_and!; simpl; [by rewrite length_alter|auto with buckets..].
Qed.

Lemma ingest_add_comm b s s' : ingest_add index_of (ingest_add index_of b s) s' = ingest_add index_of (ingest_add index_of b s') s.
Proof.
  unfold ingest_add. cbn -[N.add]. f_equal; auto with buckets.
  apply (sums_fold_comm stage_comb (fun x : string * N => x.1) (fun x => (if is_count x.1 then 0 else micros x.2, 1))).
Qed.

Lemma ingest_merge_default b : ingest_ok b -> ingest_merge b empty_ingest = b.
Proof.
  intros (H1 & H2 & H3 & H4). destruct b. unfold ingest_merge. simpl in *.
  f_equal; auto with buckets; first [apply sums_merge_empty|exact (counts_zero _ _ H1)].
Qed.

Lemma ingest_merge_add b c s : ingest_ok c -> ingest_merge b (ingest_add index_of c s) = ingest_add index_of (ingest_merge b c) s.
Proof.
  intros (_ & _ & _ & H4). unfold ingest_merge, ingest_add. cbn -[N.add]. f_equal; auto with buckets.
  apply (sums_fold_merge stage_comb (fun x : string * N => x.1) (fun x => (if is_count x.1 then 0 else micros x.2, 1))).
Qed.

#[export] Instance IngestBucket_laws : @AccumulateLaws IngestBucket RecordSample (IngestBucket_accumulate index_of).
Proof.
  refine (@Build_AccumulateLaws _ _ (IngestBucket_accumulate index_of) ingest_ok _ ingest_add_ok ingest_add_comm ingest_merge_default ingest_merge_add).
  split_and!; [done..|by intros _].
Defined.

End IngestLaws.

(** ** Examples and behaviours *)

Section Examples.
Let index (n : N) : Z := Z.of_N (N.log2 n).
#[local] Existing Instance IngestBucket_accumulate.

Definition proceed_in (ns : N) : RecordSample :=
  {| rec_decision := RdProceed; rec_record := ns; rec_script := None; rec_stages := [("write", ns)]; rec_failed := false;
     rec_timed_out := false; rec_dead_lettered := false |}.

Definition record_ops : list (@HistoryOp RecordSample) :=
  [HLoad 3600 1200 [proceed_in 5000]; HAdd 7200 (proceed_in 1000); HAdd 7150 (proceed_in 2000); HAdd 10000 (proceed_in 4000)].

Lemma windows_exact_witness :
  i_records (merged (H := IngestBucket_accumulate index) (minutes (foldl (history_apply (H := IngestBucket_accumulate index)) history_default record_ops)) 10010 3600) = 3
  /\ i_records (merged (H := IngestBucket_accumulate index) (half_hours (foldl (history_apply (H := IngestBucket_accumulate index)) history_default record_ops)) 10010 86400) = 4.
Proof.
  destruct (windows_exact (H := IngestBucket_accumulate index) (H0 := IngestBucket_laws index) record_ops 10010 3600) as [-> _].
  - repeat split; vm_compute; congruence.
  - repeat constructor; vm_compute; congruence.
  - done.
  - destruct (windows_exact (H := IngestBucket_accumulate index) (H0 := IngestBucket_laws index) record_ops 10010 86400) as [_ ->];
      [repeat split; vm_compute; congruence|repeat constructor; vm_compute; congruence|done|]. by vm_compute.
Defined.

(** A sample that comes a turn of the ring late takes the place of the newer span
    in its slot: the record of the last minute is gone from the window. *)
Lemma late_sample_evicts :
  let run := foldl (history_apply (H := IngestBucket_accumulate index)) history_default in
  i_records (merged (H := IngestBucket_accumulate index) (minutes (run [HAdd 7200 (proceed_in 1000)])) 7210 60) = 1
  /\ i_records (merged (H := IngestBucket_accumulate index) (minutes (run [HAdd 7200 (proceed_in 1000); HAdd 3600 (proceed_in 1000)])) 7210 60) = 0.
Proof. by vm_compute. Qed.

End Examples.
