(* ===== verification/GuestClock.v ===== *)
(** * The time a plugin may run

    [GuestDeadline] of [src/plugin/runtime.rs]: a budget of ticks that is charged
    while the plugin's code runs, stands still while the host works for it, and is
    handed to the engine a slice at a time.

    The engine is third-party; what is used of it is its documented behaviour: a
    store's deadline is set a number of ticks beyond the current epoch, code runs
    until the epoch reaches the deadline, the callback then interrupts it or yields
    and sets the next deadline when it is woken.  The steps of a store are a
    relation: ticks pass whenever they do, calls into the host come and go, and a
    yielded plugin waits for as long as it waits. *)

From stdpp Require Import base numbers list relations.
From Stdlib Require Import ZArith Lia.
From S2P Require Import Prelude.
#[local] Open Scope Z_scope.

Definition EPOCH_TICK_MS : Z := 10.
Definition EPOCH_SLICE : Z := 5.
Definition UNBOUNDED_TICKS : Z := (2 ^ 64 - 1) / 2.

Record GuestDeadline : Type := { remaining : Z; armed_at : Z; running : bool }.

Definition unbounded : GuestDeadline := {| remaining := UNBOUNDED_TICKS; armed_at := 0; running := false |}.

(** [ticks_for], of a budget in milliseconds. *)
Definition ticks_for (budget_ms : Z) : Z := (budget_ms + EPOCH_TICK_MS - 1) / EPOCH_TICK_MS + 1.

Definition settle (now : Z) (d : GuestDeadline) : GuestDeadline :=
  {| remaining := if running d then Z.max 0 (remaining d - (now - armed_at d)) else remaining d;
     armed_at := now; running := running d |}.

Definition slice (d : GuestDeadline) : Z := Z.min (remaining d) EPOCH_SLICE.

Definition set_running (b : bool) (d : GuestDeadline) : GuestDeadline :=
  {| remaining := remaining d; armed_at := armed_at d; running := b |}.

Definition arm (now ticks : Z) : GuestDeadline * Z :=
  let d := {| remaining := ticks; armed_at := now; running := true |} in (d, slice d).
Definition suspend (now : Z) (d : GuestDeadline) : GuestDeadline := set_running false (settle now d).
Definition resume (now : Z) (d : GuestDeadline) : GuestDeadline * Z :=
  let d := set_running true (settle now d) in (d, slice d).
Definition exhaust (now : Z) (d : GuestDeadline) : GuestDeadline :=
  let d := settle now d in {| remaining := 0; armed_at := armed_at d; running := running d |}.
Definition on_deadline (now : Z) (d : GuestDeadline) : GuestDeadline * option Z :=
  let d := settle now d in (d, if 0 <? remaining d then Some (slice d) else None).

(** [resume_guest_deadline] of the host: a run that lost its lease is spent first. *)
Definition resume_guest (lost : bool) (now : Z) (d : GuestDeadline) : GuestDeadline * Z :=
  resume now (if lost then exhaust now d else d).

(** ** A store *)

Inductive Mode : Type := InGuest | Yielded (delta : Z) | InHost | Interrupted.

(** The epoch, the books, the store's deadline, where the plugin is; and how many
    ticks it ran, how many it waited to be polled, and whether its lease was lost. *)
Record StoreClock : Type := {
  now : Z; books : GuestDeadline; deadline : Z; mode : Mode; ran : Z; waited : Z; was_lost : bool;
}.

Definition started (epoch ticks : Z) : StoreClock :=
  let '(d, delta) := arm epoch ticks in
  {| now := epoch; books := d; deadline := epoch + delta; mode := InGuest; ran := 0; waited := 0; was_lost := false |}.

(** A tick of the epoch, by where the plugin is. *)
Definition tick (s : StoreClock) : StoreClock :=
  {| now := now s + 1; books := books s; deadline := deadline s; mode := mode s;
     ran := match mode s with InGuest => ran s + 1 | _ => ran s end;
     waited := match mode s with Yielded _ => waited s + 1 | _ => waited s end; was_lost := was_lost s |}.

Definition moved_to (s : StoreClock) (d : GuestDeadline) (dl : Z) (m : Mode) (lost : bool) : StoreClock :=
  {| now := now s; books := d; deadline := dl; mode := m; ran := ran s; waited := waited s; was_lost := was_lost s || lost |}.

Inductive step : StoreClock -> StoreClock -> Prop :=
| step_run s : mode s = InGuest -> now s < deadline s -> step s (tick s)
| step_wait s d : mode s = Yielded d -> step s (tick s)
| step_host s : mode s = InHost -> step s (tick s)
| step_spent s d : mode s = InGuest -> deadline s <= now s -> on_deadline (now s) (books s) = (d, None) ->
    step s (moved_to s d (deadline s) Interrupted false)
| step_yield s d delta : mode s = InGuest -> deadline s <= now s -> on_deadline (now s) (books s) = (d, Some delta) ->
    step s (moved_to s d (deadline s) (Yielded delta) false)
| step_wake s delta : mode s = Yielded delta -> step s (moved_to s (books s) (now s + delta) InGuest false)
| step_import s : mode s = InGuest -> step s (moved_to s (suspend (now s) (books s)) (deadline s) InHost false)
| step_return s lost d delta : mode s = InHost -> resume_guest lost (now s) (books s) = (d, delta) ->
    step s (moved_to s d (now s + delta) InGuest lost).

(** ** What the books say of a run *)

(** At the last settling [ran' + waited'] ticks had been charged. *)
Definition charged (ticks : Z) (s : StoreClock) (uncharged : Z) : Prop :=
  ran s + remaining (books s) <= ticks + uncharged
  /\ (was_lost s = true \/ ticks <= ran s + waited s - (now s - armed_at (books s)) + remaining (books s)).

Definition book_inv (ticks : Z) (s : StoreClock) : Prop :=
  0 <= remaining (books s) /\
  match mode s with
  | InGuest =>
      running (books s) = true /\ exists g, 0 <= g <= now s - armed_at (books s) /\ 0 <= deadline s - now s
        /\ g + (deadline s - now s) <= remaining (books s) /\ charged ticks s g
  | Yielded delta =>
      running (books s) = true /\ armed_at (books s) <= now s /\ delta <= remaining (books s) /\ 0 <= delta /\ charged ticks s 0
  | InHost =>
      running (books s) = false /\ ran s + remaining (books s) <= ticks
      /\ (was_lost s = true \/ ticks <= ran s + waited s + remaining (books s))
  | Interrupted => ran s <= ticks /\ (was_lost s = true \/ ticks <= ran s + waited s)
  end.

Lemma started_inv epoch ticks : 0 <= ticks -> book_inv ticks (started epoch ticks).
Proof.
  intros Ht. split; [done|]. split; [done|]. exists 0. unfold charged, slice, EPOCH_SLICE. simpl. unfold slice, EPOCH_SLICE. simpl. split_and!; lia || (right; lia).
Qed.

(** Settling while the plugin is in its code or waiting charges what passed. *)
Lemma settled ticks s g :
  0 <= remaining (books s) -> running (books s) = true -> 0 <= g <= now s - armed_at (books s) -> g <= remaining (books s) -> charged ticks s g ->
  let d := settle (now s) (books s) in
  0 <= remaining d /\ ran s + remaining d <= ticks /\ (was_lost s = true \/ ticks <= ran s + waited s + remaining d).
Proof.
  intros Hr Hrun Hg Hgr [H1 H2]. unfold settle. rewrite Hrun. cbn [remaining]. split_and!; [lia|lia|]. destruct H2; [by left|right; lia].
Qed.

Lemma step_inv ticks s s' : book_inv ticks s -> step s s' -> book_inv ticks s'.
Proof.
  intros [Hr Hi] Hs. destruct Hs as [s Em Hlt|s d Em|s Em|s d Em Hle E|s d delta Em Hle E|s delta Em|s Em|s lost d delta Em E];
    rewrite Em in Hi; unfold book_inv; simpl; rewrite ?Em, ?orb_false_r.
  - destruct Hi as (Hrun & g & Hg & Hd & Hgd & H1 & H2). split; [done|]. split; [done|]. exists (g + 1). unfold charged in *. simpl. rewrite Em.
    split_and!; lia || (destruct H2; [by left|right; lia]).
  - destruct Hi as (Hrun & Ha & Hd & Hd0 & H1 & H2). split; [done|]. unfold charged in *. simpl. rewrite Em. split_and!; done || lia || (destruct H2; [by left|right; lia]).
  - done.
  - destruct Hi as (Hrun & g & Hg & Hd & Hgd & Hc). destruct (settled ticks s g Hr Hrun Hg ltac:(lia) Hc) as (S1 & S2 & S3).
    unfold on_deadline in E. cbv zeta in E. destruct (Z.ltb_spec 0 (remaining (settle (now s) (books s)))) as [|Hz]; [done|]. injection E as <-.
    split; [done|]. split; [lia|]. destruct S3; [by left|right; lia].
  - destruct Hi as (Hrun & g & Hg & Hd & Hgd & Hc). destruct (settled ticks s g Hr Hrun Hg ltac:(lia) Hc) as (S1 & S2 & S3).
    unfold on_deadline in E. cbv zeta in E. destruct (Z.ltb_spec 0 (remaining (settle (now s) (books s)))) as [Hz|]; [|done]. injection E as <- <-.
    split; [done|]. unfold charged, slice, EPOCH_SLICE in *. simpl in *. rewrite orb_false_r. split_and!; done || lia || (destruct S3; [by left|right; lia]).
  - destruct Hi as (Hrun & Ha & Hd & Hd0 & Hc). split; [done|]. split; [done|]. exists 0. unfold charged in *. simpl. rewrite orb_false_r. split_and!; try lia. by destruct Hc.
  - destruct Hi as (Hrun & g & Hg & Hd & Hgd & Hc). destruct (settled ticks s g Hr Hrun Hg ltac:(lia) Hc) as (S1 & S2 & S3).
    simpl in *. split; [done|]. split_and!; done || lia.
  - destruct Hi as (Hrun & H1 & H2). unfold resume_guest, resume, exhaust, settle in E. destruct lost; simpl in E; rewrite ?Hrun in E; injection E as <- <-; simpl.
    + split; [lia|]. split; [done|]. exists 0. unfold charged, slice, EPOCH_SLICE. simpl. rewrite orb_true_r. split_and!; lia || by left.
    + split; [lia|]. split; [done|]. exists 0. unfold charged, slice, EPOCH_SLICE. simpl. rewrite orb_false_r. split_and!; lia || (destruct H2; [by left|right; lia]).
Qed.



(** The ticks of a budget last at least as long as the budget, the first tick being
    cut short, and at most a tick longer. *)
Lemma ticks_for_bounds budget_ms :
  0 <= budget_ms -> budget_ms <= (ticks_for budget_ms - 1) * EPOCH_TICK_MS < budget_ms + EPOCH_TICK_MS.
Proof. unfold ticks_for, EPOCH_TICK_MS. intros Hb. pose proof (Z.div_mod (budget_ms + 10 - 1) 10). pose proof (Z.mod_pos_bound (budget_ms + 10 - 1) 10). lia. Qed.

(** A plugin that is kept waiting for a long time after its slice was granted still
    runs that slice: it ends after its wall clock has. *)
Lemma wait_outlasts_budget :
  exists s, rtc step (started 0 10) s /\ mode s = InGuest /\ 10 < ran s + waited s.
Proof.
  set (s5 := tick (tick (tick (tick (tick (started 0 10)))))).
  set (s6 := moved_to s5 (settle 5 (books s5)) 5 (Yielded 5) false).
  set (s7 := moved_to (tick (tick (tick (tick (tick (tick s6)))))) (books s6) 16 InGuest false).
  exists s7. split; [|done].
  do 5 (eapply rtc_l; [apply step_run; done|]). eapply rtc_l; [apply (step_yield s5); done|]. fold s6.
  do 6 (eapply rtc_l; [by eapply step_wait|]). eapply rtc_l; [by eapply (step_wake _ 5)|]. apply rtc_refl.
Qed.
