(* ===== verification/SqlGuard.v ===== *)
(** * Guards of raw SQL

    [src/raw_sql_guard.rs]: which tables a script's SQL may name, whether it only
    reads, whether it writes records that are stored elsewhere, and which
    relations it reads.

    The tokenizer and the parser are the crate [sqlparser]: a statement is the
    tokens and the syntax tree they answer.  Of the tree there is what the guards
    look at: queries with their CTEs, bodies and locks, and in everything else the
    table factors and queries inside it, in the order the crate visits them. *)

From stdpp Require Import strings list sets gmap.
From Stdlib Require Import ZArith Lia.
From S2P Require Import Prelude RustStr Json RecordCodec.

(** ** Tokens *)

Inductive Token : Type :=
| TWord (value : string)
| TSingleQuotedString (s : string)
| TEscapedStringLiteral (s : string)
| TNationalStringLiteral (s : string)
| TDollarQuotedString (s : string)
| TOther.

Definition PROTECTED_TABLE_PREFIX : string := "happyview_".
Definition PROTECTED_EXACT_TABLES : list string := ["_sqlx_migrations"].
Definition ALLOWED_INTERNAL_TABLES : list string := [
  "happyview_records"; "happyview_record_refs"; "happyview_records_by_collection"; "happyview_labels";
  "happyview_lexicons"; "happyview_jobs"; "happyview_spaces"; "happyview_space_members"; "happyview_space_records";
  "happyview_space_record_oplog"; "happyview_space_notify_registrations"; "happyview_space_dids"].

(** A double quote. *)
Definition dquote : string := String (Ascii.ascii_of_nat 34) EmptyString.

Definition is_internal (name : string) : bool :=
  starts_with PROTECTED_TABLE_PREFIX name || str_mem name PROTECTED_EXACT_TABLES.

Fixpoint check_words (tokens : list Token) : result unit string :=
  match tokens with
  | [] => Ok tt
  | TWord value :: tokens =>
      let name := to_ascii_lowercase value in
      if is_internal name && negb (str_mem name ALLOWED_INTERNAL_TABLES)
      then Err ("raw SQL cannot reference the protected internal HappyView table '" +:+ value +:+ "'")
      else check_words tokens
  | _ :: tokens => check_words tokens
  end.

(** [tokens] is what the tokenizer answers for [sql]. *)
Definition check_raw_sql_tables (sql : string) (tokens : result (list Token) string) : result unit string :=
  let lowered := to_ascii_lowercase sql in
  if str_contains ("u&" +:+ dquote) lowered || str_contains "u&'" lowered
  then Err "raw SQL does not allow unicode-escaped identifiers"
  else match tokens with
       | Err e => Err ("could not parse SQL: " +:+ e)
       | Ok tokens => check_words tokens
       end.

(** ** Syntax trees *)

(** An identifier and whether it is quoted. *)
Record Ident : Type := { id_value : string; id_quoted : bool }.

Inductive NamePart : Type := Identifier (i : Ident) | FunctionPart.

(** A table factor: a plain table with the parts of its name and its text, or
    anything else - a table function, a derived table, a join in brackets. *)
Inductive Factor : Type := FTable (parts : list NamePart) (text : string) | FOther.

Inductive WriteKind : Type := WInsert | WUpdate | WDelete | WMerge.

Inductive Query : Type :=
| MkQuery (recursive : bool) (ctes : list (Ident * Query)) (body : SetExpr) (locks : bool) (clauses : list Node)
with SetExpr : Type :=
| Select (into : bool) (inside : list Node)
| Values (inside : list Node)
| Table (schema name : option string)
| SubQuery (q : Query)
| SetOperation (lhs rhs : SetExpr)
| Write (kind : WriteKind) (inside : list Node)
with Node : Type :=
| NQuery (q : Query)
| NFactor (f : Factor) (inside : list Node).

(** A statement: a query, or anything else with what is inside it. *)
Inductive Statement : Type := SQuery (q : Query) | SOther (inside : list Node).

(** ** Reads and writes *)

Fixpoint query_is_read_only (q : Query) : bool :=
  match q with
  | MkQuery _ ctes body locks _ =>
      forallb (fun c : Ident * Query => query_is_read_only c.2) ctes && negb locks && set_expr_is_read_only body
  end
with set_expr_is_read_only (e : SetExpr) : bool :=
  match e with
  | Select into _ => negb into
  | Values _ | Table _ _ => true
  | SubQuery q => query_is_read_only q
  | SetOperation l r => set_expr_is_read_only l && set_expr_is_read_only r
  | Write _ _ => false
  end.

(** The visitor of [has_nested_locks]: whether any query in the tree has locks. *)
Fixpoint query_locks (q : Query) : bool :=
  match q with
  | MkQuery _ ctes body locks clauses =>
      locks || existsb (fun c : Ident * Query => query_locks c.2) ctes || set_expr_locks body || existsb node_locks clauses
  end
with set_expr_locks (e : SetExpr) : bool :=
  match e with
  | Select _ inside | Values inside | Write _ inside => existsb node_locks inside
  | Table _ _ => false
  | SubQuery q => query_locks q
  | SetOperation l r => set_expr_locks l || set_expr_locks r
  end
with node_locks (n : Node) : bool :=
  match n with
  | NQuery q => query_locks q
  | NFactor _ inside => existsb node_locks inside
  end.

Definition has_nested_locks (s : Statement) : bool :=
  match s with SQuery q => query_locks q | SOther inside => existsb node_locks inside end.

Definition nonempty_list {A} (l : list A) : bool := match l with [] => false | _ => true end.

(** [statements] is what the parser answers. *)
Definition is_read_only (statements : result (list Statement) string) : result bool string :=
  match statements with
  | Err e => Err ("could not parse SQL: " +:+ e)
  | Ok statements =>
      Ok (nonempty_list statements
          && forallb (fun s => match s with
                               | SQuery q => query_is_read_only q && negb (has_nested_locks s)
                               | SOther _ => false
                               end) statements)
  end.

Definition is_write (statements : result (list Statement) string) : bool :=
  match statements with
  | Err _ => false
  | Ok statements =>
      nonempty_list statements
      && forallb (fun s => match s with
                           | SQuery (MkQuery _ _ body _ _) => match body with Write _ _ => true | _ => false end
                           | SOther _ => true
                           end) statements
  end.

(** ** Writes to records kept elsewhere *)

Definition CLAIMED_WRITE_REFUSED : string :=
  "writes to records of a collection stored outside this instance must go through save_local in happyview.record".
Definition RECORDS_VIEW : string := "happyview_records".

Definition nsid_segment (segment : string) : bool :=
  nonempty segment && str_all (fun c => is_ascii_alphanumeric c || (c =c "-")) segment.

Definition named_collection (text : string) : option string :=
  if starts_with "at://" text then (fun x => x.1.2) <$> parse_record_uri text
  else let segments := str_split "." text in
       if (3 <=? length segments)%nat && forallb nsid_segment segments then Some text else None.

Definition literal (t : Token) : option string :=
  match t with
  | TSingleQuotedString s | TEscapedStringLiteral s | TNationalStringLiteral s | TDollarQuotedString s => Some s
  | _ => None
  end.

(** The loop over the collections named, with whether one was. *)
Fixpoint check_named (claims : string -> bool) (named : bool) (l : list string) : result bool string :=
  match l with
  | [] => Ok named
  | collection :: l =>
      if claims collection then Err (CLAIMED_WRITE_REFUSED +:+ ": " +:+ collection) else check_named claims true l
  end.

Definition mentions (view : string) (t : Token) : bool :=
  match t with TWord value => to_ascii_lowercase value =s view | _ => false end.

Definition check_claimed_record_writes (statements : result (list Statement) string) (tokens : result (list Token) string) (params : list value) (claims : string -> bool) : result unit string :=
  match is_read_only statements with
  | Ok true => Ok tt
  | _ =>
      match tokens with
      | Err e => Err ("could not parse SQL: " +:+ e)
      | Ok tokens =>
          if negb (existsb (mentions RECORDS_VIEW) tokens) then Ok tt
          else
            let? named := check_named claims false (omap named_collection (omap literal tokens ++ omap as_str params)) in
            if named then Ok tt
            else Err ("a write to " +:+ RECORDS_VIEW +:+ " must name its collection or record URI as a literal "
                      +:+ "or parameter while collections are stored outside this instance")
      end
  end.

(** ** The relations a query reads *)

Definition RECORD_VIEWS : list string := ["happyview_records"; "happyview_record_refs"; "happyview_records_by_collection"].
Definition is_record_view (table : string) : bool := str_mem (to_ascii_lowercase table) RECORD_VIEWS.

Inductive RecordViews : Type := NoViews | OnlyViews | Mixed (name : string).

Definition MAX_CTES : nat := 1000.
Definition VIEW_SCHEMAS : list string := ["main"; "public"].

(** [checked] is kept by the walk itself: a body is walked again only under the
    query that checked it. *)
Record Relations : Type := {
  scopes : list (list string);
  saw_view : bool;
  other : option string;
  skipping : nat;
  too_many_ctes : bool;
}.

Definition relations_default : Relations :=
  {| scopes := []; saw_view := false; other := None; skipping := 0; too_many_ctes := false |}.

Definition fold_ident (i : Ident) : string := if id_quoted i then id_value i else to_ascii_lowercase (id_value i).

Definition set_other (r : Relations) (name : string) : Relations :=
  {| scopes := scopes r; saw_view := saw_view r; other := Some name; skipping := skipping r; too_many_ctes := too_many_ctes r |}.
Definition set_view (r : Relations) (b : bool) : Relations :=
  {| scopes := scopes r; saw_view := saw_view r || b; other := other r; skipping := skipping r; too_many_ctes := too_many_ctes r |}.
Definition set_too_many (r : Relations) : Relations :=
  {| scopes := scopes r; saw_view := saw_view r; other := other r; skipping := skipping r; too_many_ctes := true |}.
Definition set_skipping (r : Relations) (n : nat) : Relations :=
  {| scopes := scopes r; saw_view := saw_view r; other := other r; skipping := n; too_many_ctes := too_many_ctes r |}.
Definition push_scope (r : Relations) (s : list string) : Relations :=
  {| scopes := s :: scopes r; saw_view := saw_view r; other := other r; skipping := skipping r; too_many_ctes := too_many_ctes r |}.
Definition pop_scope (r : Relations) : Relations :=
  {| scopes := List.tl (scopes r); saw_view := saw_view r; other := other r; skipping := skipping r; too_many_ctes := too_many_ctes r |}.

Definition in_scope (scs : list (list string)) (name : string) : bool := existsb (str_mem name) scs.

Definition shown (schema : option string) (name : string) : string :=
  match schema with Some s => s +:+ "." +:+ name | None => name end.

Definition view_named (schema : option string) (name : string) : bool :=
  match schema with Some s => str_mem s VIEW_SCHEMAS | None => true end && str_mem name RECORD_VIEWS.

Definition cte_named (scs : list (list string)) (schema : option string) (name : string) : bool :=
  match schema with None => in_scope scs name | Some _ => false end.

(** A step of the walk: the books, and whether the walk goes on. *)
Definition record (r : Relations) (schema : option string) (name : string) : Relations * bool :=
  if (0 <? skipping r)%nat then (r, true)
  else if cte_named (scopes r) schema name then (r, true)
  else if view_named schema name then (set_view r true, true)
  else (set_other r (shown schema name), false).

(** [?] on the walk's answer. *)
Definition and_then (res : Relations * bool) (f : Relations -> Relations * bool) : Relations * bool :=
  let '(r, go) := res in if go then f r else (r, false).

Fixpoint scan_body (r : Relations) (body : SetExpr) : Relations * bool :=
  match body with
  | Table schema name => record r (to_ascii_lowercase <$> schema) (default "table" (to_ascii_lowercase <$> name))
  | SetOperation lhs rhs =>
      and_then (scan_body r lhs) (fun r => scan_body r rhs)
  | _ => (r, true)
  end.

Fixpoint fold_parts (parts : list NamePart) : option (list string) :=
  match parts with
  | [] => Some []
  | Identifier i :: parts => (fun l => fold_ident i :: l) <$> fold_parts parts
  | FunctionPart :: _ => None
  end.

(** The schema and the name a table factor reads; none for anything else. *)
Definition factor_read (f : Factor) : option (option string * string) :=
  match f with
  | FOther => None
  | FTable parts text =>
      match fold_parts parts with
      | None => Some (Some "?", text)
      | Some idents =>
          match reverse idents with
          | [] => Some (Some "?", text)
          | [name] => Some (None, name)
          | name :: schemas => Some (Some (str_join "." (reverse schemas)), name)
          end
      end
  end.

Definition visit_factor (r : Relations) (f : Factor) : Relations * bool :=
  match factor_read f with Some (schema, name) => record r schema name | None => (r, true) end.

(** Visit one after another for as long as the walk goes on. *)
Fixpoint each {A} (visit : Relations -> A -> Relations * bool) (r : Relations) (l : list A) : Relations * bool :=
  match l with
  | [] => (r, true)
  | x :: l => and_then (visit r x) (fun r => each visit r l)
  end.

(** What a body checked on its own says: its books are taken over. *)
Definition take_over (r body : Relations) : Relations * bool :=
  let r := set_view r (saw_view body) in
  if too_many_ctes body then (set_too_many r, false)
  else match other body with Some name => (set_other r name, false) | None => (r, true) end.

(** The books a CTE's body is checked with: the scopes here and the CTEs before it. *)
Definition body_books (r : Relations) (before : list string) : Relations :=
  push_scope {| scopes := scopes r; saw_view := false; other := None; skipping := 0; too_many_ctes := false |} before.

(** The bodies of the CTEs, each on its own, one after another. *)
Definition check_bodies (walk : Relations -> Query -> Relations * bool) : list string -> list (Ident * Query) -> Relations -> Relations * bool :=
  fix go before ctes r :=
    match ctes with
    | [] => (r, true)
    | c :: ctes =>
        and_then (take_over r (walk (body_books r before) c.2).1) (go (before ++ [fold_ident c.1]) ctes)
    end.

Fixpoint walk_query (checked : bool) (r : Relations) (q : Query) : Relations * bool :=
  match q with
  | MkQuery recursive ctes body locks clauses =>
      let names := (fun c : Ident * Query => fold_ident c.1) <$> ctes in
      let skip := (0 <? skipping r)%nat || checked in
      let pre_visit :=
        if skip then (push_scope (set_skipping r (S (skipping r))) [], true)
        else if (MAX_CTES <? length ctes)%nat then (set_too_many r, false)
        else and_then (if recursive then (r, true) else check_bodies (walk_query false) [] ctes r)
                      (fun r => scan_body (push_scope r names) body) in
      and_then (and_then (and_then (and_then pre_visit
        (fun r => each (fun r (c : Ident * Query) => walk_query (negb recursive) r c.2) r ctes))
        (fun r => walk_set_expr r body))
        (fun r => each walk_node r clauses))
        (fun r => (set_skipping (pop_scope r) (Nat.pred (skipping r)), true))
  end
with walk_set_expr (r : Relations) (e : SetExpr) : Relations * bool :=
  match e with
  | Select _ inside | Values inside | Write _ inside => each walk_node r inside
  | Table _ _ => (r, true)
  | SubQuery q => walk_query false r q
  | SetOperation lhs rhs =>
      and_then (walk_set_expr r lhs) (fun r => walk_set_expr r rhs)
  end
with walk_node (r : Relations) (n : Node) : Relations * bool :=
  match n with
  | NQuery q => walk_query false r q
  | NFactor f inside => and_then (visit_factor r f) (fun r => each walk_node r inside)
  end.

Definition walk_statement (r : Relations) (s : Statement) : Relations :=
  match s with SQuery q => (walk_query false r q).1 | SOther inside => (each walk_node r inside).1 end.

Definition names_view (sql : string) (tokens : result (list Token) string) : bool :=
  match tokens with
  | Ok tokens => existsb (fun t => match t with TWord v => str_mem (to_ascii_lowercase v) RECORD_VIEWS | _ => false end) tokens
  | Err _ => existsb (fun view => str_contains view (to_ascii_lowercase sql)) RECORD_VIEWS
  end.

Definition record_view_use (sql : string) (tokens : result (list Token) string) (statements : result (list Statement) string) : result RecordViews string :=
  if negb (names_view sql tokens) then Ok NoViews
  else match statements with
       | Err e => Err ("raw SQL that reads record views must parse: " +:+ e)
       | Ok statements =>
           let r := foldl walk_statement relations_default statements in
           if too_many_ctes r then Err "raw SQL that reads record views may define at most 1000 CTEs in one WITH"
           else Ok match other r with
                   | Some name => Mixed name
                   | None => if saw_view r then OnlyViews else NoViews
                   end
       end.

(** ** Induction on syntax trees *)

Section TreeInduction.
Context (P : Query -> Prop) (Q : SetExpr -> Prop) (R : Node -> Prop).
Hypothesis query_case : forall recursive ctes body locks clauses,
  Forall (fun c : Ident * Query => P c.2) ctes -> Q body -> Forall R clauses -> P (MkQuery recursive ctes body locks clauses).
Hypothesis select_case : forall into inside, Forall R inside -> Q (Select into inside).
Hypothesis values_case : forall inside, Forall R inside -> Q (Values inside).
Hypothesis table_case : forall schema name, Q (Table schema name).
Hypothesis subquery_case : forall q, P q -> Q (SubQuery q).
Hypothesis operation_case : forall lhs rhs, Q lhs -> Q rhs -> Q (SetOperation lhs rhs).
Hypothesis write_case : forall kind inside, Forall R inside -> Q (Write kind inside).
Hypothesis node_query_case : forall q, P q -> R (NQuery q).
Hypothesis factor_case : forall f inside, Forall R inside -> R (NFactor f inside).

Fixpoint query_tree (q : Query) : P q :=
  match q with
  | MkQuery recursive ctes body locks clauses =>
      query_case recursive ctes body locks clauses
        ((fix go l : Forall (fun c : Ident * Query => P c.2) l :=
            match l with [] => Forall_nil_2 _ | c :: l => Forall_cons_2 _ c l (query_tree c.2) (go l) end) ctes)
        (set_expr_tree body)
        ((fix go l : Forall R l := match l with [] => Forall_nil_2 _ | n :: l => Forall_cons_2 _ n l (node_tree n) (go l) end) clauses)
  end
with set_expr_tree (e : SetExpr) : Q e :=
  match e with
  | Select into inside => select_case into inside
      ((fix go l : Forall R l := match l with [] => Forall_nil_2 _ | n :: l => Forall_cons_2 _ n l (node_tree n) (go l) end) inside)
  | Values inside => values_case inside
      ((fix go l : Forall R l := match l with [] => Forall_nil_2 _ | n :: l => Forall_cons_2 _ n l (node_tree n) (go l) end) inside)
  | Table schema name => table_case schema name
  | SubQuery q => subquery_case q (query_tree q)
  | SetOperation lhs rhs => operation_case lhs rhs (set_expr_tree lhs) (set_expr_tree rhs)
  | Write kind inside => write_case kind inside
      ((fix go l : Forall R l := match l with [] => Forall_nil_2 _ | n :: l => Forall_cons_2 _ n l (node_tree n) (go l) end) inside)
  end
with node_tree (n : Node) : R n :=
  match n with
  | NQuery q => node_query_case q (query_tree q)
  | NFactor f inside => factor_case f inside
      ((fix go l : Forall R l := match l with [] => Forall_nil_2 _ | n :: l => Forall_cons_2 _ n l (node_tree n) (go l) end) inside)
  end.

Lemma tree_ind : (forall q, P q) /\ (forall e, Q e) /\ (forall n, R n).
Proof. exact (conj query_tree (conj set_expr_tree node_tree)). Qed.
End TreeInduction.

(** ** What the checks accept *)

(** A word that names a protected table. *)
Definition protected (value : string) : Prop :=
  is_internal (to_ascii_lowercase value) = true /\ to_ascii_lowercase value ∉ ALLOWED_INTERNAL_TABLES.

Lemma check_words_ok tokens : is_ok (check_words tokens) = true <-> forall v, TWord v ∈ tokens -> ~ protected v.
Proof.
  induction tokens as [|t tokens IH]; cbn [check_words]; [split; [by intros _ v ?%not_elem_of_nil|done]|].
  assert (Hskip : (forall v, t <> TWord v) -> is_ok (check_words tokens) = true <-> forall v, TWord v ∈ t :: tokens -> ~ protected v).
  { intros Ht. rewrite IH. split; intros Hv v; [intros [?|?]%elem_of_cons; [by destruct (Ht v)|by apply Hv]|]. intros Hin. apply Hv. by right. }
  destruct t as [value| | | | |]; [|by apply Hskip..]. clear Hskip. cbv zeta.
  destruct (is_internal (to_ascii_lowercase value) && negb (str_mem (to_ascii_lowercase value) ALLOWED_INTERNAL_TABLES)) eqn:E.
  - split; [done|]. intros Hv. exfalso. apply (Hv value); [left|]. apply andb_true_iff in E as [E1 E2]. split; [done|].
    by apply negb_true_iff, str_mem_false in E2.
  - rewrite IH. split; intros Hv v; [intros [[= ->]|?]%elem_of_cons; [|by apply Hv]|intros Hin; apply Hv; by right].
    intros [H1 H2]. rewrite H1 in E. simpl in E. apply negb_false_iff in E. by apply H2, str_mem_true.
Qed.

(** Queries reached through CTEs and bodies, as a query is run. *)
Inductive runs : Query -> Query -> Prop :=
| runs_self q : runs q q
| runs_cte q recursive ctes body locks clauses c :
    c ∈ ctes -> runs c.2 q -> runs (MkQuery recursive ctes body locks clauses) q
| runs_body q recursive ctes body locks clauses q' :
    body_query body q' -> runs q' q -> runs (MkQuery recursive ctes body locks clauses) q
with body_query : SetExpr -> Query -> Prop :=
| body_sub q : body_query (SubQuery q) q
| body_lhs lhs rhs q : body_query lhs q -> body_query (SetOperation lhs rhs) q
| body_rhs lhs rhs q : body_query rhs q -> body_query (SetOperation lhs rhs) q.

(** The parts a body is put together from by set operations. *)
Fixpoint arms (e : SetExpr) : list SetExpr :=
  match e with SetOperation lhs rhs => arms lhs ++ arms rhs | _ => [e] end.

(** A body that inserts, updates, deletes, merges or selects into a table. *)
Definition writes (e : SetExpr) : Prop := match e with Write _ _ => True | Select into _ => into = true | _ => False end.

(** Every query that is run only reads, and takes no locks. *)
Definition only_reads (q : Query) : Prop :=
  forall recursive ctes body locks clauses, runs q (MkQuery recursive ctes body locks clauses) ->
    locks = false /\ forall e, e ∈ arms body -> ~ writes e.

Definition body_reads (e : SetExpr) : Prop :=
  (forall a, a ∈ arms e -> ~ writes a) /\ forall q, body_query e q -> only_reads q.

Lemma only_reads_split recursive ctes body locks clauses :
  only_reads (MkQuery recursive ctes body locks clauses) <->
  Forall (fun c : Ident * Query => only_reads c.2) ctes /\ locks = false /\ body_reads body.
Proof.
  split.
  - intros Ho. split_and!.
    + apply Forall_forall. intros c Hc r' c' b' l' cl' Hr. apply (Ho r' c' b' l' cl'). by apply (runs_cte _ _ _ _ _ _ c).
    + by apply (Ho recursive ctes body locks clauses (runs_self _)).
    + split; [apply (Ho recursive ctes body locks clauses (runs_self _))|]. intros q Hq r' c' b' l' cl' Hr. apply (Ho r' c' b' l' cl'). by apply (runs_body _ _ _ _ _ _ q).
  - intros (Hc & Hl & Ha & Hb) r' c' b' l' cl' Hr. inversion Hr as [|? ? ? ? ? ? c Hin Hr'|? ? ? ? ? ? q' Hq Hr']; subst.
    + done.
    + rewrite Forall_forall in Hc. by apply (Hc c Hin r' c' b' l' cl').
    + by apply (Hb q' Hq r' c' b' l' cl').
Qed.

Lemma body_reads_leaf e : (forall lhs rhs, e <> SetOperation lhs rhs) -> (forall q, e <> SubQuery q) -> (body_reads e <-> ~ writes e).
Proof.
  intros He Hq. assert (arms e = [e]) as Ha by (destruct e; try done; by destruct (He e1 e2)). unfold body_reads. rewrite Ha. split.
  - intros [H1 _]. apply H1. left.
  - intros Hw. split; [by intros a ->%list_elem_of_singleton|]. intros q Hb. inversion Hb; subst; [by destruct (Hq q)|by edestruct He..].
Qed.

Lemma read_only_tree :
  (forall q, query_is_read_only q = true <-> only_reads q)
  /\ (forall e, set_expr_is_read_only e = true <-> body_reads e) /\ (forall n : Node, True).
Proof.
  apply tree_ind; [|intros into inside _|intros inside _|intros s n|intros q Hq|intros lhs rhs Hl Hr|intros k inside _|done|done].
  - intros recursive ctes body locks clauses Hc Hb _. cbn [query_is_read_only]. rewrite only_reads_split, !andb_true_iff, negb_true_iff, Hb, forallb_forall, Forall_forall.
    rewrite Forall_forall in Hc. split.
    + intros [[H1 H2] H3]. split_and!; [|done|done]. intros c Hin. apply Hc; [done|]. apply H1. by apply list_elem_of_In.
    + intros (H1 & H2 & H3). split; [split|]; [|done|done]. intros c Hin%list_elem_of_In. by apply Hc, H1.
  - rewrite body_reads_leaf by done. simpl. by destruct into; split.
  - rewrite body_reads_leaf by done. simpl. split; [by intros _ []|done].
  - rewrite body_reads_leaf by done. simpl. split; [by intros _ []|done].
  - cbn [set_expr_is_read_only]. rewrite Hq. unfold body_reads. split.
    + intros Ho. split; [by intros a ->%list_elem_of_singleton []|]. intros q' Hb. inversion Hb; by subst.
    + intros [_ Ho]. apply Ho. constructor.
  - cbn [set_expr_is_read_only]. rewrite andb_true_iff, Hl, Hr. unfold body_reads. cbn [arms]. setoid_rewrite elem_of_app. split.
    + intros [[H1 H2] [H3 H4]]. split; [intros a [?|?]; auto|]. intros q Hb. inversion Hb; subst; auto.
    + intros [H1 H2]. split; (split; [intros a ?; apply H1; auto|intros q Hb; apply H2; by constructor]).
  - rewrite body_reads_leaf by done. simpl. split; [done|]. intros Hn. by destruct Hn.
Qed.

(** Queries anywhere in a tree. *)
Inductive in_query : Query -> Query -> Prop :=
| in_self q : in_query q q
| in_cte q recursive ctes body locks clauses c : c ∈ ctes -> in_query c.2 q -> in_query (MkQuery recursive ctes body locks clauses) q
| in_body q recursive ctes body locks clauses : in_expr body q -> in_query (MkQuery recursive ctes body locks clauses) q
| in_clause q recursive ctes body locks clauses n : n ∈ clauses -> in_node n q -> in_query (MkQuery recursive ctes body locks clauses) q
with in_expr : SetExpr -> Query -> Prop :=
| in_select q into inside n : n ∈ inside -> in_node n q -> in_expr (Select into inside) q
| in_values q inside n : n ∈ inside -> in_node n q -> in_expr (Values inside) q
| in_write q kind inside n : n ∈ inside -> in_node n q -> in_expr (Write kind inside) q
| in_sub q q' : in_query q' q -> in_expr (SubQuery q') q
| in_lhs q lhs rhs : in_expr lhs q -> in_expr (SetOperation lhs rhs) q
| in_rhs q lhs rhs : in_expr rhs q -> in_expr (SetOperation lhs rhs) q
with in_node : Node -> Query -> Prop :=
| in_node_query q q' : in_query q' q -> in_node (NQuery q') q
| in_factor q f inside n : n ∈ inside -> in_node n q -> in_node (NFactor f inside) q.
Create HintDb sql.
#[local] Hint Constructors in_query in_expr in_node : sql.

Definition locked (q : Query) : Prop := match q with MkQuery _ _ _ locks _ => locks = true end.

Lemma existsb_locks (l : list Node) :
  Forall (fun n => node_locks n = true <-> exists q, in_node n q /\ locked q) l ->
  existsb node_locks l = true <-> exists n q, n ∈ l /\ in_node n q /\ locked q.
Proof.
  rewrite Forall_forall. intros Hl. rewrite existsb_elem. split.
  - intros (n & Hn & (q & Hq & Hlk)%Hl); [by exists n, q|done].
  - intros (n & q & Hn & Hq & Hlk). exists n. split; [done|]. apply Hl; [done|]. by exists q.
Qed.

Lemma locks_tree :
  (forall q, query_locks q = true <-> exists q', in_query q q' /\ locked q')
  /\ (forall e, set_expr_locks e = true <-> exists q', in_expr e q' /\ locked q')
  /\ (forall n, node_locks n = true <-> exists q', in_node n q' /\ locked q').
Proof.
  apply tree_ind.
  - intros recursive ctes body locks clauses Hc Hb Hn. cbn [query_locks]. rewrite !orb_true_iff, Hb, (existsb_locks _ Hn), existsb_elem.
    rewrite Forall_forall in Hc. split.
    + intros [[[->|(c & Hin & (q & Hq & Hl)%Hc)]|(q & Hq & Hl)]|(n & q & Hin & Hq & Hl)]; [by eexists; split; [apply in_self|]|eauto with sql..].
    + intros (q & Hq & Hl). inversion Hq as [|? ? ? ? ? ? c Hin Hq'|? ? ? ? ? ? Hq'|? ? ? ? ? ? n Hin Hq']; subst; [by do 3 left|..].
      * left; left; right. exists c. split; [done|]. apply Hc; eauto.
      * left; right; eauto.
      * right; eauto.
  - intros into inside Hn. cbn [set_expr_locks]. rewrite (existsb_locks _ Hn). split; [intros (n & q & ? & ? & ?); eauto with sql|]. intros (q & Hq & ?). inversion Hq; subst; eauto.
  - intros inside Hn. cbn [set_expr_locks]. rewrite (existsb_locks _ Hn). split; [intros (n & q & ? & ? & ?); eauto with sql|]. intros (q & Hq & ?). inversion Hq; subst; eauto.
  - intros s n. split; [done|]. intros (q & Hq & _). inversion Hq.
  - intros q Hq. cbn [set_expr_locks]. rewrite Hq. split; [intros (q' & ? & ?); eauto with sql|]. intros (q' & Hq' & ?). inversion Hq'; subst; eauto.
  - intros lhs rhs Hl Hr. cbn [set_expr_locks]. rewrite orb_true_iff, Hl, Hr. split; [intros [(q & ? & ?)|(q & ? & ?)]; eauto with sql|].
    intros (q & Hq & ?). inversion Hq; subst; eauto.
  - intros kind inside Hn. cbn [set_expr_locks]. rewrite (existsb_locks _ Hn). split; [intros (n & q & ? & ? & ?); eauto with sql|]. intros (q & Hq & ?). inversion Hq; subst; eauto.
  - intros q Hq. cbn [node_locks]. rewrite Hq. split; [intros (q' & ? & ?); eauto with sql|]. intros (q' & Hq' & ?). inversion Hq'; subst; eauto.
  - intros f inside Hn. cbn [node_locks]. rewrite (existsb_locks _ Hn). split; [intros (n & q & ? & ? & ?); eauto with sql|]. intros (q & Hq & ?). inversion Hq; subst; eauto.
Qed.

(** SQL passes for read-only exactly when it parses to one or more statements that
    are all queries in which no query run as a CTE or body writes, and no query
    anywhere in them takes locks. *)
Lemma is_read_only_iff (statements : result (list Statement) string) :
  is_read_only statements = Ok true <->
  exists ss, statements = Ok ss /\ ss <> []
    /\ forall s, s ∈ ss -> exists q, s = SQuery q /\ only_reads q /\ forall q', in_query q q' -> ~ locked q'.
Proof.
  destruct statements as [ss|e]; simpl; [|split; [done|]; intros (ss & ? & _); done].
  assert (E : forall b : bool, (Ok b : result bool string) = Ok true <-> b = true) by (intros b; split; [by intros [= ->]|by intros ->]).
  rewrite E, andb_true_iff, forallb_forall. destruct read_only_tree as [Hro _]. destruct locks_tree as [Hlk _]. split.
  - intros [Hne Hall]. exists ss. split; [done|]. split; [by destruct ss|]. intros s Hin%list_elem_of_In. specialize (Hall s Hin).
    destruct s as [q|]; [|done]. apply andb_true_iff in Hall as [H1 H2]. exists q. split; [done|]. split; [by apply Hro|].
    intros q' Hq' Hl. apply negb_true_iff in H2. cbn [has_nested_locks] in H2. assert (query_locks q = true) by (apply Hlk; eauto). congruence.
  - intros (ss' & [= <-] & Hne & Hall). split; [by destruct ss|]. intros s Hin%list_elem_of_In. destruct (Hall s Hin) as (q & -> & H1 & H2).
    apply andb_true_iff. split; [by apply Hro|]. cbn [has_nested_locks]. apply negb_true_iff. destruct (query_locks q) eqn:El; [|done].
    apply Hlk in El as (q' & Hq & Hl). by destruct (H2 q' Hq).
Qed.

(** SQL that names a protected table is refused, and nothing else that tokenizes. *)
Lemma check_raw_sql_tables_iff (sql : string) (tokens : result (list Token) string) :
  is_ok (check_raw_sql_tables sql tokens) = true <->
  str_contains ("u&" +:+ dquote) (to_ascii_lowercase sql) = false /\ str_contains "u&'" (to_ascii_lowercase sql) = false
  /\ exists ts, tokens = Ok ts /\ forall v, TWord v ∈ ts -> ~ protected v.
Proof.
  unfold check_raw_sql_tables. destruct (str_contains _ _), (str_contains _ _); simpl; try (split; [done|by intros (? & ? & _)]).
  destruct tokens as [ts|e]; simpl.
  - rewrite check_words_ok. split; [intros Hv; split_and!; [done..|by exists ts]|]. by intros (_ & _ & ts' & [= <-] & Hv).
  - split; [done|]. by intros (_ & _ & ts & ? & _).
Qed.

(** ** The relations a query reads, by the scoping of SQL *)

(** What a name reads: nothing when it is a CTE in scope. *)
Definition unresolved (scs : list (list string)) (schema : option string) (name : string) : list (option string * string) :=
  if cte_named scs schema name then [] else [(schema, name)].

(** The reads of CTEs in order, each with the names before it. *)
Definition cte_reads (reads : list string -> Query -> list (option string * string)) : list string -> list (Ident * Query) -> list (option string * string) :=
  fix go before ctes :=
    match ctes with
    | [] => []
    | c :: ctes => reads before c.2 ++ go (before ++ [fold_ident c.1]) ctes
    end.

(** Without [RECURSIVE] the body of a CTE sees the CTEs before it, with it all of
    them; the query's own body sees them all. *)
Fixpoint reads_query (scs : list (list string)) (q : Query) : list (option string * string) :=
  match q with
  | MkQuery recursive ctes body _ clauses =>
      let names := (fun c : Ident * Query => fold_ident c.1) <$> ctes in
      cte_reads (fun before c => reads_query ((if recursive then names else before) :: scs) c) [] ctes
      ++ reads_expr (names :: scs) body
      ++ flat_map (reads_node (names :: scs)) clauses
  end
with reads_expr (scs : list (list string)) (e : SetExpr) : list (option string * string) :=
  match e with
  | Select _ inside | Values inside | Write _ inside => flat_map (reads_node scs) inside
  | Table schema name => unresolved scs (to_ascii_lowercase <$> schema) (default "table" (to_ascii_lowercase <$> name))
  | SubQuery q => reads_query scs q
  | SetOperation lhs rhs => reads_expr scs lhs ++ reads_expr scs rhs
  end
with reads_node (scs : list (list string)) (n : Node) : list (option string * string) :=
  match n with
  | NQuery q => reads_query scs q
  | NFactor f inside =>
      match factor_read f with Some (schema, name) => unresolved scs schema name | None => [] end
      ++ flat_map (reads_node scs) inside
  end.

Definition is_view (x : option string * string) : Prop := view_named x.1 x.2 = true.

(** Some [WITH] in the tree defines too many CTEs. *)
Definition crowded (q : Query) : Prop := match q with MkQuery _ ctes _ _ _ => (MAX_CTES < length ctes)%nat end.

(** ** The walk *)

(** Books with nothing found against the query so far. *)
Definition clean (r : Relations) : Prop := other r = None /\ too_many_ctes r = false /\ skipping r = 0%nat.

(** What a step of the walk over something with these reads does to clean books:
    it goes on and only views were read, or it stops for a reason. *)
Definition walked (xs : list (option string * string)) (crowd : Prop) (r : Relations) (res : Relations * bool) : Prop :=
  if res.2
  then clean res.1 /\ scopes res.1 = scopes r /\ Forall is_view xs /\ saw_view res.1 = saw_view r || nonempty_list xs
  else (too_many_ctes res.1 = true /\ crowd) \/ (too_many_ctes res.1 = false /\ is_Some (other res.1) /\ exists x, x ∈ xs /\ ~ is_view x).

(** One step after another. *)
Lemma walked_seq xs ys crowd crowd' r (res : Relations * bool) (f : Relations -> Relations * bool) :
  walked xs crowd r res -> (clean res.1 -> scopes res.1 = scopes r -> walked ys crowd' res.1 (f res.1)) ->
  walked (xs ++ ys) (crowd \/ crowd') r (and_then res f).
Proof.
  intros H1 H2. destruct res as [r1 go]. simpl in *. destruct go.
  - unfold walked in H1. simpl in H1. destruct H1 as (Hc & Hs & Hv & Hw). specialize (H2 Hc Hs). unfold walked in *. destruct (f r1) as [r2 go2]. simpl in *. destruct go2.
    + destruct H2 as (Hc2 & Hs2 & Hv2 & Hw2). split; [done|]. split; [congruence|]. split; [by apply Forall_app|]. rewrite Hw2, Hw. by destruct xs, (saw_view r), ys.
    + destruct H2 as [[? ?]|(? & ? & x & ? & ?)]; [by left; split; [|right]|]. right. split; [done|]. split; [done|]. exists x. split; [|done]. apply elem_of_app. by right.
  - unfold walked in *. simpl in *. destruct H1 as [[? ?]|(? & ? & x & ? & ?)]; [by left; split; [|left]|]. right. split; [done|]. split; [done|]. exists x. split; [|done]. apply elem_of_app. by left.
Qed.

Lemma walked_nothing crowd r : clean r -> walked [] crowd r (r, true).
Proof. intros Hc. unfold walked. simpl. split_and!; [done|done|by constructor|by rewrite orb_false_r]. Qed.

Lemma record_walked r schema name : clean r -> walked (unresolved (scopes r) schema name) False r (record r schema name).
Proof.
  intros Hc. pose proof Hc as (Ho & Ht & Hk). unfold record, unresolved. rewrite Hk. simpl.
  destruct (cte_named (scopes r) schema name); [by apply walked_nothing|].
  destruct (view_named schema name) eqn:E; unfold walked; simpl.
  - split_and!; [done..|by constructor|by destruct (saw_view r)].
  - right. split; [done|]. split; [done|]. exists (schema, name). split; [left|]. unfold is_view. simpl. by rewrite E.
Qed.

Lemma record_skips r schema name : (0 < skipping r)%nat -> record r schema name = (r, true).
Proof. intros Hk. unfold record. destruct (Nat.ltb_spec 0 (skipping r)); [done|lia]. Qed.

Lemma each_skips {A} (visit : Relations -> A -> Relations * bool) l r :
  (0 < skipping r)%nat -> Forall (fun x => forall r, (0 < skipping r)%nat -> visit r x = (r, true)) l -> each visit r l = (r, true).
Proof. intros Hr. induction 1 as [|x l Hx _ IH]; simpl; [done|]. rewrite Hx by done. apply IH. Qed.

(** Under a body that was checked the walk changes nothing. *)
Lemma walk_skips :
  (forall q r checked, (0 < skipping r)%nat \/ checked = true -> walk_query checked r q = (r, true))
  /\ (forall e r, (0 < skipping r)%nat -> walk_set_expr r e = (r, true))
  /\ (forall n r, (0 < skipping r)%nat -> walk_node r n = (r, true)).
Proof.
  apply tree_ind.
  - intros recursive ctes body locks clauses Hc Hb Hn r checked Hk. cbn [walk_query].
    assert ((0 <? skipping r)%nat || checked = true) as -> by (destruct Hk as [Hk| ->]; [|by rewrite orb_true_r]; by rewrite (proj2 (Nat.ltb_lt _ _) Hk)).
    cbv zeta. cbn [and_then]. set (r1 := push_scope _ _). assert ((0 < skipping r1)%nat) as H1 by (simpl; lia).
    rewrite (each_skips _ ctes r1 H1) by (eapply Forall_impl; [exact Hc|]; intros c Hq r2 Hr2; apply Hq; by left). cbn [and_then].
    rewrite (Hb r1 H1). cbn [and_then]. rewrite (each_skips _ clauses r1 H1 Hn). cbn [and_then]. by destruct r.
  - intros into inside Hn r Hk. by apply each_skips.
  - intros inside Hn r Hk. by apply each_skips.
  - done.
  - intros q Hq r Hk. apply Hq. by left.
  - intros lhs rhs Hl Hr r Hk. cbn [walk_set_expr]. rewrite (Hl r Hk). apply (Hr r Hk).
  - intros kind inside Hn r Hk. by apply each_skips.
  - intros q Hq r Hk. apply Hq. by left.
  - intros f inside Hn r Hk. cbn [walk_node]. unfold visit_factor. destruct (factor_read f) as [[schema name]|]; [rewrite record_skips by done|]; by apply each_skips.
Qed.

(** *** Order does not matter *)

Lemma walked_same xs ys crowd crowd' r res :
  (forall x, x ∈ xs <-> x ∈ ys) -> (crowd -> crowd') -> walked xs crowd r res -> walked ys crowd' r res.
Proof.
  intros Hxy Hc. unfold walked. destruct (res.2).
  - intros (H1 & H2 & H3 & H4). split; [done|]. split; [done|]. split; [rewrite Forall_forall in *; intros x; rewrite <- Hxy; apply H3|].
    rewrite H4. f_equal. destruct xs as [|x xs], ys as [|y ys]; [done| | |done].
    + exfalso. apply (not_elem_of_nil y). apply Hxy. left.
    + exfalso. apply (not_elem_of_nil x). apply Hxy. left.
  - intros [[? ?]|(? & ? & x & ? & ?)]; [left; auto|right]. split_and!; [done..|]. exists x. by rewrite <- Hxy.
Qed.

Lemma each_walked {A} (visit : Relations -> A -> Relations * bool) (f : list (list string) -> A -> list (option string * string)) (crowd : A -> Prop) l : forall r,
  clean r -> Forall (fun x => forall r, clean r -> walked (f (scopes r) x) (crowd x) r (visit r x)) l ->
  walked (flat_map (f (scopes r)) l) (exists x, x ∈ l /\ crowd x) r (each visit r l).
Proof.
  intros r Hr Hl. revert r Hr. induction Hl as [|x l Hx _ IH]; intros r Hr; simpl; [by apply walked_nothing|].
  eapply walked_same; [done| |apply walked_seq; [by apply Hx|]; intros Hc Hs; rewrite <- Hs; by apply IH].
  intros [?|(y & ? & ?)]; [exists x; split; [left|done]|exists y; split; [by right|done]].
Qed.

(** The tables a body names itself, and the reads inside it. *)
Fixpoint own_tables (scs : list (list string)) (e : SetExpr) : list (option string * string) :=
  match e with
  | Table schema name => unresolved scs (to_ascii_lowercase <$> schema) (default "table" (to_ascii_lowercase <$> name))
  | SetOperation lhs rhs => own_tables scs lhs ++ own_tables scs rhs
  | _ => []
  end.
Fixpoint inner_reads (scs : list (list string)) (e : SetExpr) : list (option string * string) :=
  match e with
  | Table _ _ => []
  | SetOperation lhs rhs => inner_reads scs lhs ++ inner_reads scs rhs
  | _ => reads_expr scs e
  end.

Lemma reads_expr_split scs e x : x ∈ reads_expr scs e <-> x ∈ own_tables scs e \/ x ∈ inner_reads scs e.
Proof.
  induction e; cbn [own_tables inner_reads reads_expr]; try (rewrite elem_of_nil; tauto). rewrite !elem_of_app, IHe1, IHe2. tauto.
Qed.

Lemma scan_body_walked e : forall r, clean r -> walked (own_tables (scopes r) e) False r (scan_body r e).
Proof.
  induction e as [| |schema name| |lhs IHl rhs IHr|]; intros r Hr; cbn [scan_body own_tables];
    [by apply walked_nothing|by apply walked_nothing|by apply record_walked|by apply walked_nothing| |by apply walked_nothing].
  eapply walked_same; [done| |apply walked_seq; [by apply IHl|]; intros Hc Hs; rewrite <- Hs; by apply IHr]. tauto.
Qed.

(** *** The bodies of CTEs *)

Lemma take_over_walked xs crowd r before res :
  clean r -> walked xs crowd (body_books r before) res -> walked xs crowd r (take_over r res.1).
Proof.
  intros (Ho & Ht & Hk) Hw. unfold walked in Hw. unfold take_over. cbv zeta. destruct (res.2).
  - destruct Hw as ((Ho1 & Ht1 & _) & _ & Hv & Hs). rewrite Ht1, Ho1. unfold walked. simpl. split_and!; [done|done|done|]. by rewrite Hs.
  - destruct Hw as [[-> ?]|(-> & [name ->] & x & ? & ?)]; unfold walked; simpl; [by left|]. right. split_and!; [done|done|]. by exists x.
Qed.

Definition crowded_in (q : Query) : Prop := exists q', in_query q q' /\ crowded q'.
Definition crowded_expr (e : SetExpr) : Prop := exists q', in_expr e q' /\ crowded q'.
Definition crowded_node (n : Node) : Prop := exists q', in_node n q' /\ crowded q'.

Lemma bodies_walked ctes : forall before r,
  clean r ->
  Forall (fun c : Ident * Query => forall r, clean r -> walked (reads_query (scopes r) c.2) (crowded_in c.2) r (walk_query false r c.2)) ctes ->
  walked (cte_reads (fun before q => reads_query (before :: scopes r) q) before ctes) (exists c, c ∈ ctes /\ crowded_in c.2) r
         (check_bodies (walk_query false) before ctes r).
Proof.
  intros before r Hr Hl. revert before r Hr. induction Hl as [|c ctes Hx _ IH]; intros before r Hr; [by apply walked_nothing|].
  cbn [check_bodies cte_reads].
  eapply (walked_same _ _ (crowded_in c.2 \/ exists c, c ∈ ctes /\ crowded_in c.2)); [done| |].
  2: { apply (walked_seq _ _ _ _ r _ (check_bodies (walk_query false) (before ++ [fold_ident c.1]) ctes)).
       - apply (take_over_walked _ _ _ before); [done|]. by apply (Hx (body_books r before)).
       - intros Hc Hs. rewrite <- Hs. by apply IH. }
  intros [?|(y & ? & ?)]; [exists c; split; [left|done]|exists y; split; [by right|done]].
Qed.

Lemma cte_reads_recursive (f : Query -> list (option string * string)) ctes : forall before,
  cte_reads (fun _ q => f q) before ctes = flat_map (fun c : Ident * Query => f c.2) ctes.
Proof. induction ctes as [|c ctes IH]; intros before; simpl; [done|]. by rewrite IH. Qed.

Lemma clean_push r s : clean r -> clean (push_scope r s).
Proof. done. Qed.

(** Leaving a query's scope. *)
Lemma walked_pop xs crowd r s res :
  walked xs crowd (push_scope r s) res ->
  walked xs crowd r (and_then res (fun r => (set_skipping (pop_scope r) (Nat.pred (skipping r)), true))).
Proof.
  destruct res as [r1 go]. unfold walked. simpl. destruct go; simpl; [|done]. intros ((Ho & Ht & Hk) & Hs & Hv & Hw). rewrite Hk, Hs.
  split_and!; done.
Qed.

Lemma and_then_assoc res f g : and_then (and_then res f) g = and_then res (fun r => and_then (f r) g).
Proof. by destruct res as [r []]. Qed.

(** *** The walk finds what scoping says *)

(** Everything after the bodies of a query's CTEs were looked at. *)
Lemma rest_walked (recursive : bool) (ctes : list (Ident * Query)) (body : SetExpr) (clauses : list Node) (r : Relations) (names := (fun c : Ident * Query => fold_ident c.1) <$> ctes) :
  Forall (fun c : Ident * Query => forall r, clean r -> walked (reads_query (scopes r) c.2) (crowded_in c.2) r (walk_query false r c.2)) ctes ->
  (forall r, clean r -> walked (inner_reads (scopes r) body) (crowded_expr body) r (walk_set_expr r body)) ->
  Forall (fun n => forall r, clean r -> walked (reads_node (scopes r) n) (crowded_node n) r (walk_node r n)) clauses ->
  clean r ->
  walked (((own_tables (names :: scopes r) body
            ++ (if recursive then flat_map (fun c : Ident * Query => reads_query (names :: scopes r) c.2) ctes else []))
           ++ inner_reads (names :: scopes r) body) ++ flat_map (reads_node (names :: scopes r)) clauses)
    (((False \/ exists c, c ∈ ctes /\ crowded_in c.2) \/ crowded_expr body) \/ exists n, n ∈ clauses /\ crowded_node n) r
    (and_then (and_then (and_then (and_then (scan_body (push_scope r names) body)
       (fun r => each (fun r (c : Ident * Query) => walk_query (negb recursive) r c.2) r ctes))
       (fun r => walk_set_expr r body)) (fun r => each walk_node r clauses))
       (fun r => (set_skipping (pop_scope r) (Nat.pred (skipping r)), true))).
Proof.
  intros Hc Hb Hn Hr. apply (walked_pop _ _ _ names). pose proof (clean_push r names Hr) as Hp.
  change (names :: scopes r) with (scopes (push_scope r names)).
  apply walked_seq; [apply walked_seq; [apply walked_seq; [by apply scan_body_walked|]|]|].
  - intros Hcl Hs. rewrite <- Hs. destruct recursive; simpl.
    + apply (each_walked (fun r (c : Ident * Query) => walk_query false r c.2) (fun scs (c : Ident * Query) => reads_query scs c.2) (fun c => crowded_in c.2)); done.
    + assert (each (fun r (c : Ident * Query) => walk_query true r c.2) (scan_body (push_scope r names) body).1 ctes
              = ((scan_body (push_scope r names) body).1, true)) as ->; [|by apply walked_nothing].
      generalize ((scan_body (push_scope r names) body).1). clear. induction ctes as [|c ctes IH]; intros r; simpl; [done|].
      rewrite (proj1 walk_skips) by (by right). apply IH.
  - intros Hcl Hs. rewrite <- Hs. by apply Hb.
  - intros Hcl Hs. rewrite <- Hs. by apply each_walked.
Qed.

Lemma walk_tree :
  (forall q r, clean r -> walked (reads_query (scopes r) q) (crowded_in q) r (walk_query false r q))
  /\ (forall e r, clean r -> walked (inner_reads (scopes r) e) (crowded_expr e) r (walk_set_expr r e))
  /\ (forall n r, clean r -> walked (reads_node (scopes r) n) (crowded_node n) r (walk_node r n)).
Proof.
  assert (Hinside : forall inside r, Forall (fun n => forall r, clean r -> walked (reads_node (scopes r) n) (crowded_node n) r (walk_node r n)) inside ->
            clean r -> walked (flat_map (reads_node (scopes r)) inside) (exists n, n ∈ inside /\ crowded_node n) r (each walk_node r inside)).
  { intros inside r Hn Hr. by apply each_walked. }
  apply tree_ind.
  - intros recursive ctes body locks clauses Hc Hb Hn r Hr. pose proof Hr as (_ & _ & Hk). cbn [walk_query]. rewrite Hk. change ((0 <? 0)%nat || false) with false. cbv zeta.
    destruct (Nat.ltb_spec MAX_CTES (length ctes)) as [Hlt|Hle].
    { unfold walked. cbn [and_then snd fst]. left. split; [done|]. exists (MkQuery recursive ctes body locks clauses). split; [apply in_self|done]. }
    rewrite !and_then_assoc. set (names := (fun c : Ident * Query => fold_ident c.1) <$> ctes).
    eapply (walked_same _ _ ((exists c, c ∈ ctes /\ crowded_in c.2)
      \/ (((False \/ exists c, c ∈ ctes /\ crowded_in c.2) \/ crowded_expr body) \/ exists n, n ∈ clauses /\ crowded_node n)) _).
    3: { apply (walked_seq (if recursive then [] else cte_reads (fun before q => reads_query (before :: scopes r) q) [] ctes)
                  (((own_tables (names :: scopes r) body
                     ++ (if recursive then flat_map (fun c : Ident * Query => reads_query (names :: scopes r) c.2) ctes else []))
                    ++ inner_reads (names :: scopes r) body) ++ flat_map (reads_node (names :: scopes r)) clauses)).
         - destruct recursive; [by apply walked_nothing|]. by apply bodies_walked.
         - intros Hcl Hs. rewrite <- !and_then_assoc. rewrite <- Hs. by apply rest_walked. }
    + intros x. cbn [reads_query]. fold names. rewrite !elem_of_app, reads_expr_split. destruct recursive; [rewrite (cte_reads_recursive (fun q => reads_query (names :: scopes r) q))|]; rewrite elem_of_nil; tauto.
    + intros [(c & ? & q & ? & ?)|[[[[]|(c & ? & q & ? & ?)]|(q & ? & ?)]|(n & ? & q & ? & ?)]]; unfold crowded_in; eauto with sql.
  - intros into inside Hn r Hr. eapply walked_same; [done| |by apply Hinside]. intros (n & ? & q & ? & ?). unfold crowded_expr. eauto with sql.
  - intros inside Hn r Hr. eapply walked_same; [done| |by apply Hinside]. intros (n & ? & q & ? & ?). unfold crowded_expr. eauto with sql.
  - intros schema name r Hr. by apply walked_nothing.
  - intros q Hq r Hr. eapply walked_same; [done| |by apply Hq]. intros (q' & ? & ?). unfold crowded_expr. eauto with sql.
  - intros lhs rhs Hl Hr r Hcl. cbn [walk_set_expr inner_reads].
    eapply (walked_same _ _ (crowded_expr lhs \/ crowded_expr rhs)); [done| |apply walked_seq; [by apply Hl|]; intros Hc Hs; rewrite <- Hs; by apply Hr].
    intros [(q & ? & ?)|(q & ? & ?)]; unfold crowded_expr; eauto with sql.
  - intros kind inside Hn r Hr. eapply walked_same; [done| |by apply Hinside]. intros (n & ? & q & ? & ?). unfold crowded_expr. eauto with sql.
  - intros q Hq r Hr. eapply walked_same; [done| |by apply Hq]. intros (q' & ? & ?). unfold crowded_node. eauto with sql.
  - intros f inside Hn r Hr. cbn [walk_node reads_node].
    eapply (walked_same _ _ (False \/ exists n, n ∈ inside /\ crowded_node n)); [done| |].
    2: { apply walked_seq; [|intros Hc Hs; rewrite <- Hs; by apply Hinside].
         unfold visit_factor. destruct (factor_read f) as [[schema name]|]; [by apply record_walked|by apply walked_nothing]. }
    intros [[]|(n & ? & q & ? & ?)]. unfold crowded_node. eauto with sql.
Qed.

(** *** Books that were stopped stay stopped *)

(** What a step does to any books: what was found against the query is kept, and
    too many CTEs are only found where there are too many. *)
Definition grows (crowd : Prop) (r : Relations) (res : Relations * bool) : Prop :=
  (is_Some (other r) -> is_Some (other res.1)) /\ (too_many_ctes r = true -> too_many_ctes res.1 = true)
  /\ (too_many_ctes res.1 = true -> too_many_ctes r = true \/ crowd).

Lemma grows_nothing crowd r go : grows crowd r (r, go).
Proof. split_and!; simpl; auto. Qed.

Lemma grows_weak (crowd crowd' : Prop) r res : (crowd -> crowd') -> grows crowd r res -> grows crowd' r res.
Proof. intros Hc (H1 & H2 & H3). split_and!; [done..|]. intros [?|?]%H3; auto. Qed.

Lemma grows_seq crowd r res f : grows crowd r res -> (forall r, grows crowd r (f r)) -> grows crowd r (and_then res f).
Proof.
  destruct res as [r1 []]; [|done]. intros (H1 & H2 & H3) Hf. destruct (Hf r1) as (H4 & H5 & H6). simpl in *. split_and!; [auto..|].
  intros [?%H3|?]%H6; auto.
Qed.

Lemma record_grows crowd r schema name : grows crowd r (record r schema name).
Proof.
  unfold record. destruct (_ <? _)%nat; [apply grows_nothing|]. destruct (cte_named _ _ _); [apply grows_nothing|].
  destruct (view_named _ _); unfold grows; simpl; eauto.
Qed.

Lemma scan_body_grows crowd e : forall r, grows crowd r (scan_body r e).
Proof.
  induction e; intros r; cbn [scan_body]; try apply grows_nothing; [apply record_grows|]. by apply grows_seq.
Qed.

Lemma each_grows {A} (visit : Relations -> A -> Relations * bool) (crowd : A -> Prop) l :
  Forall (fun x => forall r, grows (crowd x) r (visit r x)) l -> forall r, grows (exists x, x ∈ l /\ crowd x) r (each visit r l).
Proof.
  induction 1 as [|x l Hx _ IH]; intros r; simpl; [apply grows_nothing|]. apply grows_seq.
  - eapply grows_weak; [|apply Hx]. intros ?. exists x. split; [left|done].
  - intros r1. eapply grows_weak; [|apply IH]. intros (y & ? & ?). exists y. split; [by right|done].
Qed.

Lemma bodies_grow ctes :
  Forall (fun c : Ident * Query => forall r checked, grows (crowded_in c.2) r (walk_query checked r c.2)) ctes ->
  forall before r, grows (exists c, c ∈ ctes /\ crowded_in c.2) r (check_bodies (walk_query false) before ctes r).
Proof.
  induction 1 as [|c ctes Hx _ IH]; intros before r; cbn [check_bodies]; [apply grows_nothing|]. apply grows_seq.
  - destruct (Hx (body_books r before) false) as (_ & _ & H3). unfold take_over. cbv zeta.
    destruct (too_many_ctes (walk_query false (body_books r before) c.2).1) eqn:E.
    + destruct (H3 eq_refl) as [[=]|?]. split_and!; simpl; [auto..|]. intros _. right. exists c. split; [left|done].
    + destruct (other _); unfold grows; simpl; eauto.
  - intros r1. eapply grows_weak; [|apply IH]. intros (y & ? & ?). exists y. split; [by right|done].
Qed.

Lemma walk_grows :
  (forall q r checked, grows (crowded_in q) r (walk_query checked r q))
  /\ (forall e r, grows (crowded_expr e) r (walk_set_expr r e)) /\ (forall n r, grows (crowded_node n) r (walk_node r n)).
Proof.
  apply tree_ind.
  - intros recursive ctes body locks clauses Hc Hb Hn r checked. cbn [walk_query]. cbv zeta.
    apply grows_seq; [apply grows_seq; [apply grows_seq; [apply grows_seq|]|]|].
    + destruct (_ || _); [split_and!; simpl; auto|]. destruct (Nat.ltb_spec MAX_CTES (length ctes)) as [Hlt|Hle].
      * split_and!; simpl; [auto..|]. intros _. right. exists (MkQuery recursive ctes body locks clauses). split; [apply in_self|done].
      * apply grows_seq; [|intros r1; destruct (scan_body_grows (crowded_in (MkQuery recursive ctes body locks clauses)) body (push_scope r1 ((fun c : Ident * Query => fold_ident c.1) <$> ctes))) as (? & ? & ?); by split_and!].
        destruct recursive; [apply grows_nothing|]. eapply grows_weak; [|by apply bodies_grow]. intros (c & ? & q & ? & ?). unfold crowded_in. eauto with sql.
    + intros r1. eapply grows_weak; [|apply (each_grows _ (fun c : Ident * Query => crowded_in c.2)); eapply Forall_impl; [exact Hc|]; simpl; auto].
      intros (c & ? & q & ? & ?). unfold crowded_in. eauto with sql.
    + intros r1. eapply grows_weak; [|apply Hb]. intros (q & ? & ?). unfold crowded_in. eauto with sql.
    + intros r1. eapply grows_weak; [|by apply each_grows]. intros (n & ? & q & ? & ?). unfold crowded_in. eauto with sql.
    + intros r1. split_and!; simpl; auto.
  - intros into inside Hn r. eapply grows_weak; [|by apply each_grows]. intros (n & ? & q & ? & ?). unfold crowded_expr. eauto with sql.
  - intros inside Hn r. eapply grows_weak; [|by apply each_grows]. intros (n & ? & q & ? & ?). unfold crowded_expr. eauto with sql.
  - intros schema name r. apply grows_nothing.
  - intros q Hq r. eapply grows_weak; [|apply Hq]. intros (q' & ? & ?). unfold crowded_expr. eauto with sql.
  - intros lhs rhs Hl Hr r. cbn [walk_set_expr]. apply grows_seq; [|intros r1]; (eapply grows_weak; [|auto]); intros (q' & ? & ?); unfold crowded_expr; eauto with sql.
  - intros kind inside Hn r. eapply grows_weak; [|by apply each_grows]. intros (n & ? & q & ? & ?). unfold crowded_expr. eauto with sql.
  - intros q Hq r. eapply grows_weak; [|apply Hq]. intros (q' & ? & ?). unfold crowded_node. eauto with sql.
  - intros f inside Hn r. cbn [walk_node]. apply grows_seq.
    + unfold visit_factor. destruct (factor_read f) as [[schema name]|]; [apply record_grows|apply grows_nothing].
    + intros r1. eapply grows_weak; [|by apply each_grows]. intros (n & ? & q & ? & ?). unfold crowded_node. eauto with sql.
Qed.

(** ** Statements *)

Definition reads_statement (s : Statement) : list (option string * string) :=
  match s with SQuery q => reads_query [] q | SOther inside => flat_map (reads_node []) inside end.

(** Some [WITH] of the statement defines too many CTEs. *)
Definition crowded_statement (s : Statement) : Prop :=
  match s with SQuery q => crowded_in q | SOther inside => exists n, n ∈ inside /\ crowded_node n end.

(** A statement's walk with the flag that [record_view_use] drops. *)
Definition statement_walk (r : Relations) (s : Statement) : Relations * bool :=
  match s with SQuery q => walk_query false r q | SOther inside => each walk_node r inside end.

Lemma walk_statement_walk r s : walk_statement r s = (statement_walk r s).1.
Proof. by destruct s. Qed.

Lemma statement_walked s r : clean r -> scopes r = [] -> walked (reads_statement s) (crowded_statement s) r (statement_walk r s).
Proof.
  intros Hr Hs. destruct walk_tree as (Hq & _ & Hn). destruct s as [q|inside]; cbn [statement_walk reads_statement crowded_statement]; rewrite <- Hs.
  - by apply Hq.
  - apply each_walked; [done|]. apply Forall_forall. auto.
Qed.

Lemma statement_grows s r : grows (crowded_statement s) r (statement_walk r s).
Proof.
  destruct walk_grows as (Hq & _ & Hn). destruct s as [q|inside]; [apply Hq|]. apply each_grows, Forall_forall. auto.
Qed.

Lemma statements_grow ss : forall r,
  (is_Some (other r) -> is_Some (other (foldl walk_statement r ss)))
  /\ (too_many_ctes r = true -> too_many_ctes (foldl walk_statement r ss) = true)
  /\ (too_many_ctes (foldl walk_statement r ss) = true -> too_many_ctes r = true \/ exists s, s ∈ ss /\ crowded_statement s).
Proof.
  induction ss as [|s ss IH]; intros r; simpl; [split_and!; auto|]. rewrite walk_statement_walk.
  destruct (IH (statement_walk r s).1) as (H1 & H2 & H3), (statement_grows s r) as (H4 & H5 & H6). split_and!; [auto..|].
  intros [[?|?]%H6|(s' & ? & ?)]%H3; [auto|right; exists s; split; [left|done]|right; exists s'; split; [by right|done]].
Qed.

(** What the books say after all statements. *)
Lemma statements_walked ss : forall r (r' := foldl walk_statement r ss),
  clean r -> scopes r = [] ->
  if too_many_ctes r' then exists s, s ∈ ss /\ crowded_statement s
  else if other r' is Some _ then exists x, x ∈ flat_map reads_statement ss /\ ~ is_view x
  else Forall is_view (flat_map reads_statement ss) /\ saw_view r' = saw_view r || nonempty_list (flat_map reads_statement ss).
Proof.
  induction ss as [|s ss IH]; cbv zeta; simpl; intros r Hc Hs.
  { destruct Hc as (-> & -> & _). split; [by constructor|]. by rewrite orb_false_r. }
  rewrite walk_statement_walk. pose proof (statement_walked s r Hc Hs) as Hw. set (r1 := (statement_walk r s).1) in *.
  unfold walked in Hw. fold r1 in Hw. destruct ((statement_walk r s).2).
  - destruct Hw as (Hc1 & Hs1 & Hv1 & Hw1). specialize (IH r1 Hc1 ltac:(congruence)). cbv zeta in IH.
    destruct (too_many_ctes _); [destruct IH as (s' & ? & ?); exists s'; split; [by right|done]|].
    destruct (other _); [destruct IH as (x & ? & ?); exists x; split; [apply elem_of_app; by right|done]|].
    destruct IH as [Hv2 Hw2]. split; [by apply Forall_app|]. rewrite Hw2, Hw1. by destruct (reads_statement s), (saw_view r), (flat_map reads_statement ss).
  - destruct (statements_grow ss r1) as (H1 & H2 & H3). destruct Hw as [[Ht ?]|(Ht & Ho & x & ? & ?)].
    + rewrite (H2 Ht). exists s. split; [left|done].
    + destruct (too_many_ctes (foldl _ _ _)) eqn:E; [destruct (H3 eq_refl) as [?|(s' & ? & ?)]; [congruence|]; exists s'; split; [by right|done]|].
      destruct (H1 Ho) as [name ->]. exists x. split; [apply elem_of_app; by left|done].
Qed.


(** *** Writes to records kept elsewhere *)

Lemma check_named_ok claims named l :
  match check_named claims named l with
  | Ok b => b = named || nonempty_list l /\ Forall (fun c => claims c = false) l
  | Err _ => exists c, c ∈ l /\ claims c = true
  end.
Proof.
  revert named. induction l as [|c l IH]; intros named; simpl; [split; [by rewrite orb_false_r|constructor]|].
  destruct (claims c) eqn:E; [exists c; split; [left|done]|]. specialize (IH true). destruct (check_named claims true l).
  - destruct IH as [-> ?]. split; [by rewrite orb_true_r|by constructor].
  - destruct IH as (c' & ? & ?). exists c'. split; [by right|done].
Qed.

(** SQL that may write records passes only when it names a collection and none of
    those it names is kept elsewhere. *)
Lemma claimed_write_refused statements tokens params claims (named := fun ts => omap named_collection (omap literal ts ++ omap as_str params)) :
  is_ok (check_claimed_record_writes statements tokens params claims) = true <->
  is_read_only statements = Ok true
  \/ exists ts, tokens = Ok ts
       /\ (existsb (mentions RECORDS_VIEW) ts = false \/ named ts <> [] /\ forall c, c ∈ named ts -> claims c = false).
Proof.
  unfold check_claimed_record_writes. assert (Hro : is_read_only statements = Ok true \/ is_read_only statements <> Ok true) by (destruct (is_read_only statements) as [[]|]; auto).
  destruct Hro as [->|Hro]; [by split; [left|]|].
  transitivity (exists ts, tokens = Ok ts
       /\ (existsb (mentions RECORDS_VIEW) ts = false \/ named ts <> [] /\ forall c, c ∈ named ts -> claims c = false)); [|tauto].
  destruct tokens as [ts|e].
  2: { destruct (is_read_only statements) as [[]|]; try done; (split; [done|]; intros (? & ? & _); done). }
  transitivity (existsb (mentions RECORDS_VIEW) ts = false \/ named ts <> [] /\ forall c, c ∈ named ts -> claims c = false).
  2: { split; [by exists ts|]. by intros (? & [= <-] & ?). }
  pose proof (check_named_ok claims false (named ts)) as Hn. fold (named ts).
  assert (Hb : forall b : result bool string, b <> Ok true -> forall x y : result unit string, (match b with Ok true => x | _ => y end) = y) by (intros [[]|]; done).
  rewrite Hb by done. destruct (existsb _ ts); simpl; [|by split; [left|]].
  destruct (check_named claims false (named ts)) as [b|e]; simpl.
  - destruct Hn as [-> Hf]. rewrite Forall_forall in Hf. destruct (named ts) as [|c l]; simpl; [split; [done|by intros [?|[? _]]]|]. split; [by right|done].
  - split; [done|]. destruct Hn as (c & Hc & ?). intros [?|[_ Hf]]; [done|]. specialize (Hf c Hc). congruence.
Qed.

(** ** Small statements *)

Definition plain (s : string) : Ident := {| id_value := s; id_quoted := false |}.
Definition select_from (tables : list string) : SetExpr := Select false ((fun t => NFactor (FTable [Identifier (plain t)] t) []) <$> tables).
Definition query_from (tables : list string) : Query := MkQuery false [] (select_from tables) false [].

(** Without [RECURSIVE] a CTE's body does not see its own name. *)
Example own_name_is_a_table :
  record_view_use "" (Ok [TWord "happyview_records"]) (Ok [SQuery (MkQuery false [(plain "t", query_from ["t"])] (select_from ["t"; "happyview_records"]) false [])])
  = Ok (Mixed "t").
Proof. reflexivity. Qed.

Example recursive_name_is_the_cte :
  record_view_use "" (Ok [TWord "happyview_records"]) (Ok [SQuery (MkQuery true [(plain "t", query_from ["t"])] (select_from ["t"; "happyview_records"]) false [])])
  = Ok OnlyViews.
Proof. reflexivity. Qed.

(** Of several statements the last relation that is no view is the one named. *)
Example last_relation_named :
  record_view_use "" (Ok [TWord "happyview_records"]) (Ok [SQuery (query_from ["happyview_records"; "first"]); SQuery (query_from ["second"])])
  = Ok (Mixed "second").
Proof. reflexivity. Qed.
